(* ===== verification/_CoqProject ===== *)
-Q . S2P
Prelude.v
Dict.v
Ordering.v
PyStrings.v
AdmissionLock.v
SingleFlight.v
DemandLedger.v
SnapshotPool.v
SnapshotStore.v
CubeLifecycle.v
CubeInvariant.v
CubeTheorems.v
CubeClient.v
FairPools.v
MemoryAdmission.v
InstallGate.v
EventLog.v
ActivityTracker.v
ModelGateway.v
GatewaySessions.v
Supervisor.v
KnowledgeOwner.v
ArmOutcome.v
CpuUsage.v
Placement.v
CpuTopology.v
ToolCalls.v
PolicyExecutor.v
PolicyControl.v
Coordinator.v
Sessions.v
Admission.v
Acquire.v
NumaBorrow.v
Watermark.v
Pressure.v
ControlTiming.v
Layers.v
SparseCopy.v
SnapshotCompression.v
SnapshotScheduling.v
