(* ===== verification/Prelude.v ===== *)
(** * ClawBox: a verified model of its control logic

    ClawBox runs coding agents in CubeSandbox microVMs.  A session is a pair of
    VMs (runtime and tool).  A worker on each compute node starts the sessions of an
    experiment, admits their Tool calls against a LOCAL memory budget, checkpoints
    idle pairs into a WARM pool (a shared NUMA node) or to COLD storage, lends live
    VMs memory of the shared node, steers memory and CPU of the ones that run, and
    records evidence about all of it.  Recorded or live model calls reach the agents
    through gateways, predictions come from a knowledge base in processes of its own,
    and a supervisor runs the worker arm after arm and cleans up after it.  This
    library models that control logic from the Python sources under src/clawbox and
    proves what each part guarantees.

    ** How the code is modelled

    A method is a function in the state-and-exception monad [M S A] below: a raised
    exception keeps the changes made before it, as in Python.  A block that holds a
    lock is one such function; a method that drops its lock, waits or calls out is
    split there.  Where interleavings matter the blocks are the steps of a system of
    threads ([Inductive] or a function on a choice of thread), and a theorem about
    "every run" is an induction on its steps.  What the code asks of the outside
    (clocks, kernel files, the Cube API, random draws, helper processes) is an
    argument: either an environment record whose fields are outcomes ([Ok] or
    [Raise]), so that every failure of every reading is covered, or a class of
    operations with laws.  Integers are Python's, unbounded, hence [Z]; floats are
    rationals [Q], so rounding is not modelled.  Dictionaries whose order matters
    are association lists ([Dict]), the others are [gmap]; objects compared with
    [is] carry an identity.

    ** The files

    Foundations
    - [Prelude]: exceptions, the monad with its rules and [preserves] lemmas (an
      invariant through bind, for, try/except, try/finally), sums over maps and
      lists, rationals.
    - [Dict]: insertion-ordered dictionaries; [Ordering]: the keys of [sorted] and
      [min]; [PyStrings]: the string functions that parsers of kernel files use.

    Admission (experiments/admission_lock.py, admission.py, policy.py, policy_control.py)
    - [AdmissionLock]: the reentrant lock with progress and normal queues.  Mutual
      exclusion, bounded overtaking, no lost wake-up.
    - [DemandLedger]: memory that admitted work may still grow into; the incremental
      bound is the sum it replaces, a reconciled observation is safe.
      [SingleFlight]: concurrent samples share one reading.
    - [PolicyExecutor]: coalescing of pressure events per key.
    - [Coordinator], [Sessions], [Admission], [Acquire]: [PolicyCoordinator].
      [Coordinator] holds the state; [Sessions] the session registry, Tool activity,
      victims and eviction of a pair; [Admission] the decision whether a request
      fits and which waiter is next; [Acquire] the blocking loop around it.
    - [PolicyControl]: the sessions of the control listener that native Tools call.

    Snapshots and sandboxes (experiments/snapshot_pool.py, snapshot_scheduling.py, cube/)
    - [SnapshotPool]: the WARM pool: reservations, manifests, pins, victims, spills,
      live borrows, transfer slots.
    - [SnapshotStore]: the pool as one sandbox sees it, a class with laws; the pool
      of [SnapshotPool] is an instance.
    - [CubeLifecycle], [CubeInvariant], [CubeTheorems]: [CubeSandboxLifecycle], the
      state machine of one VM, over [SnapshotStore] and [Host] (the Cube client, the
      borrower, cgroups, files): the model, the invariant with the proof that every
      command keeps it, and the theorems.
    - [CubeClient]: ownership of VMs: the journal, creation with its
      reconciliation, retries, and cleanup.
    - [SnapshotCompression]: packing and unpacking of snapshot files with failures
      at every system call.
    - [SparseCopy], [SnapshotScheduling]: copies of files with holes, staging of
      snapshots on nodes, and the scheduler of branches.

    Memory and CPU (experiments/topology.py, numa_placement.py, cpu_slots.py, priority.py,
    numa_borrow.py, memory_actions.py, pressure.py, cpu_qos.py, worker.py)
    - [Placement], [CpuTopology]: placement of sessions on compute nodes; cluster
      masks from sysfs.
    - [ToolCalls]: CPU affinity of running Tool calls.
    - [NumaBorrow]: live borrowing of shared memory, over the class [BorrowPool]
      that [SnapshotPool] implements.
    - [Watermark]: the controller of the LOCAL watermarks.
    - [CpuUsage]: CPU time per class of vCPU threads, from readings without a lock.
    - [Pressure]: protection and boosts of VMs under pressure.

    The worker and its evidence (experiments/worker.py, results.py, control_timing.py,
    knowledge/layers.py)
    - [InstallGate]: the gate of the package installs.
    - [EventLog]: the event writer: encoders, one consumer, batches, flushes.
    - [ActivityTracker]: which sessions wait, read or run, from events of many threads.
    - [ArmOutcome]: the sessions' results, the status and the failure category of an
      arm, and the measured concurrency of its Tools.
    - [ControlTiming]: spans of control callbacks and their summary.
    - [Layers]: copy-on-access layers over published evidence.

    Supervision (experiments/supervisor.py)
    - [Supervisor]: [ExperimentSupervisor.run], [abort_run] and [cleanup_run] over the
      run directory, processes and VMs, with a crash possible between any two effects.
      It reads the envelopes that [ArmOutcome] writes.

    Replay, gateways and knowledge (replay/, experiments/model_gateway.py,
    experiments/knowledge/processes.py)
    - [FairPools], [MemoryAdmission]: the FIFO resource pools of the replay runner and
      its admission against measured memory.
    - [ModelGateway]: the gateway of a session: requests, their answers from the trace
      or from upstream, the journal of observations, and the child process that owns it.
    - [GatewaySessions]: the managed gateway: installation of sessions, drains,
      idle flushes.
    - [KnowledgeOwner]: both ends of a process that owns a knowledge base.

    State and operations carry the names of the code; the manifest lists, for every
    definition, the lines it models.

    ** What is proved

    - Mutual exclusion and progress of what threads share: the admission lock,
      single-flight sampling, coalesced events, control callbacks that run once with
      a runner behind every waiter, Tools fenced against eviction, FIFO admission.
    - Books that always balance: the ledger's bound, the WARM pool's bytes, the
      sandbox lifecycle's reservations and snapshots, borrowed capacity, group loads
      and CPU capacity, per-node branch reservations, queue tickets and control
      files; on the error paths as well as on the others.
    - Error paths give back what they took: failed reservations, pair checkpoints,
      affinity changes, full disks, interrupted compression.
    - Physical evidence before accounting: capacity is returned only once pages are
      gone, a sandbox that admits commands is not paused, only owned VMs are killed.
    - Refinements, equivalences and round trips: compression and sparse copies give the
      file back, the sweep over Tool intervals is the concurrency it stands for,
      an overlay is the dict it stands for, the latch is a hysteresis.
    - Evidence that is complete: a flushed event is written, an answer of a gateway is
      given once and stays, replayed answers come in the order of the trace, every
      request to a knowledge base is answered once and those of a session in order,
      every session of an arm is collected once, a CPU figure called complete is exact.
    - Crash safety: whatever step the supervisor dies at, as long as it can see the
      workers that are still alive, its next run starts on a clean machine and what is
      left in between is on record; completed trials stay, and a run that succeeds has
      them all.  The examples of [Supervisor] show the workers that it cannot see.
    - Termination: creation retries and rollouts end; the copy of a sparse file ends
      exactly when the file does not end in a hole.

    ** Fuel and bounds

    Python's [while True] loops take a list of turns ([Acquire.acquire]: still
    waiting when they run out) or a fuel.  [CubeLifecycle.create_loop] is shown never
    to end for lack of fuel once fuel times the duration of an attempt covers the
    retry window ([CubeTheorems.creation_gives_up]); the copy of [SparseCopy] needs
    one turn per byte; [SnapshotScheduling] reselects at most once per node.  Retries
    of [CubeClient] recurse on the number of attempts, and all other recursion is
    structural.  The polls of [Supervisor] take a list of turns too; where one runs
    out, the program has died there, which the theorems allow for at any point.  The
    constants (eight progress grants in a row, 4096 pending transitions, 128 rows per
    flush) are the code's.

    ** What is not modelled, and why

    - I/O around the logic: the Cube SDK and its HTTP, the privileged helper
      processes (numa_rebind.py, native/), cgroup and scheduler set-up, SSH and process plumbing
      (openclaw_driver.py, host.py, snapshot_host.py, replay/guest.py), images and
      package caches, HTTP parsing and relaying.  The models take their
      results as outcomes.
    - The body of [ExperimentWorker] (worker.py from line 2134) but for the outcome of
      an arm: it starts threads and wires the parts above together; each part is
      modelled instead.
    - Command lines, reports and validation of configuration (cli.py, lab.py,
      spec.py but for the constants used, configure.py, design.py, reporting.py,
      qualification.py, runtime_qualification.py): they transform documents and hold
      no state.
    - Prediction and training (tuning/, prediction.py, training.py, host_kb.py,
      knowledge/ but for layers.py and processes.py): numerical estimators and document projections.
    - The former control plane (api/, managed/, scheduler/, allocator/, controller/,
      node_agent/, tool_agent/, ingester/, cell/, benchmark/): docs/deprecated.md
      retires it; it is no deployment entry point and nothing above depends on it but
      for types and exports of training data.
    - Vendored code and patches (experiments/vendor, deploy/), the Go tool bridge and
      the TypeScript plugin.
    - Inside modelled parts: event dictionaries, counters that only report, stage
      durations, and text of error messages. *)
From stdpp Require Export base numbers option list sets gmap strings relations sorting.
From Stdlib Require Export ZArith QArith Qminmax Qround Lia Lqa.

#[export] Set Default Goal Selector "!".
#[global] Open Scope Z_scope.

(** ** Python exceptions and the state-and-exception monad *)

(** The exceptions the modelled code raises.  A Python exception keeps the
    mutations made before it, so a raising computation still returns a state. *)
Inductive exn : Type :=
  | ValueError (msg : string)
  | RuntimeError (msg : string)
  | KeyError (msg : string)
  | IndexError
  | TypeError (msg : string)
  | TimeoutError (msg : string)
  | AssertionError (msg : string)
  | OSError (errno : string)
  | WarmCapacityError (msg : string)
  | WarmSnapshotTooLarge
  | WarmAdmissionRejected
  | AdmissionTimeout (msg : string)
  | NumaBorrowUnavailable
  | NumaRebindTimeout
  | NumaRebindIncomplete
  | StopIteration
  | HTTPException (code : Z) (msg : string)
  | KeyboardInterrupt
  | ApiError (status : Z)
  | PressureReclaimRejected
  | LifecycleError (msg : string).

#[export] Instance exn_eq_dec : EqDecision exn.
Proof. solve_decision. Defined.

Inductive outcome (A : Type) : Type :=
  | Ok (a : A)
  | Raise (e : exn).
Arguments Ok {A} _.
Arguments Raise {A} _.

#[export] Instance outcome_eq_dec `{EqDecision A} : EqDecision (outcome A).
Proof. solve_decision. Defined.

Definition is_ok {A} (o : outcome A) : bool :=
  match o with Ok _ => true | Raise _ => false end.

#[export] Instance outcome_ret : MRet outcome := @Ok.
#[export] Instance outcome_bind : MBind outcome := λ A B k o,
  match o with Ok a => k a | Raise e => Raise e end.

(** Comparisons of rational numbers (times, ratios) as booleans. *)
Definition Qltb (x y : Q) : bool := negb (Qle_bool y x).

Lemma Qle_bool_spec x y : reflect (x <= y)%Q (Qle_bool x y).
Proof.
  destruct (Qle_bool x y) eqn:E; constructor; [by apply Qle_bool_iff|].
  intros H%Qle_bool_iff. congruence.
Qed.
Lemma Qltb_spec x y : reflect (x < y)%Q (Qltb x y).
Proof.
  unfold Qltb. destruct (Qle_bool_spec y x); constructor; lra.
Qed.

(** [M S A]: a computation over a state [S] that returns an [A] or raises. *)
Definition M (S A : Type) : Type := S → outcome A * S.

#[export] Instance M_ret S : MRet (M S) := λ A a s, (Ok a, s).
#[export] Instance M_bind S : MBind (M S) := λ A B k m s,
  match m s with
  | (Ok a, s') => k a s'
  | (Raise e, s') => (Raise e, s')
  end.

Definition raise {S A} (e : exn) : M S A := λ s, (Raise e, s).
Definition get {S} : M S S := λ s, (Ok s, s).
Definition put {S} (s : S) : M S unit := λ _, (Ok tt, s).
Definition modify {S} (f : S → S) : M S unit := λ s, (Ok tt, f s).
Definition gets {S A} (f : S → A) : M S A := λ s, (Ok (f s), s).
Definition lift {S A} (o : outcome A) : M S A := λ s, (o, s).

(** [if cond: raise e] *)
Definition raise_if {S} (b : bool) (e : exn) : M S unit :=
  if b then raise e else mret tt.

(** [try: m finally: fin]; an exception of [fin] replaces the one of [m]. *)
Definition try_finally {S A} (m : M S A) (fin : M S unit) : M S A := λ s,
  let '(o, s') := m s in
  let '(o', s'') := fin s' in
  (match o' with Ok _ => o | Raise e => Raise e end, s'').

(** [try: m except e: handler e] *)
Definition try_except {S A} (m : M S A) (handler : exn → M S A) : M S A := λ s,
  match m s with
  | (Ok a, s') => (Ok a, s')
  | (Raise e, s') => handler e s'
  end.

(** [except Exception] lets an interrupt through. *)
Definition is_exception (e : exn) : bool := match e with KeyboardInterrupt => false | _ => true end.
Definition try_exception {S A} (m : M S A) (handler : exn → M S A) : M S A :=
  try_except m (λ e, if is_exception e then handler e else raise e).

(** A [for] loop whose body may raise. *)
Fixpoint for_each {S A} (l : list A) (body : A → M S unit) : M S unit :=
  match l with
  | [] => mret tt
  | x :: l' => body x ≫= λ _, for_each l' body
  end.

Lemma bind_ok {S A B} (m : M S A) (k : A → M S B) s a s' :
  m s = (Ok a, s') → (m ≫= k) s = k a s'.
Proof. intros H. unfold mbind, M_bind. by rewrite H. Qed.

Lemma bind_raise {S A B} (m : M S A) (k : A → M S B) s e s' :
  m s = (Raise e, s') → (m ≫= k) s = (Raise e, s').
Proof. intros H. unfold mbind, M_bind. by rewrite H. Qed.

Lemma bind_get {S A} (k : S → M S A) s : (get ≫= k) s = k s s.
Proof. done. Qed.

Lemma bind_lift {S A B} (o : outcome A) (k : A → M S B) s :
  (lift o ≫= k) s = match o with Ok a => k a s | Raise e => (Raise e, s) end.
Proof. by destruct o. Qed.

Lemma bind_raise_if {S A} b e (k : unit → M S A) s :
  (raise_if b e ≫= k) s = if b then (Raise e, s) else k tt s.
Proof. by destruct b. Qed.

Lemma bind_put {S A} (s' : S) (k : unit → M S A) s : (put s' ≫= k) s = k tt s'.
Proof. done. Qed.

(** Inversion of a successful bind. *)
Lemma bind_ok_inv {S A B} (m : M S A) (k : A → M S B) s b s'' :
  (m ≫= k) s = (Ok b, s'') → ∃ a s', m s = (Ok a, s') ∧ k a s' = (Ok b, s'').
Proof.
  unfold mbind, M_bind. destruct (m s) as [[a|e] s'] eqn:E; intros H; [eauto|done].
Qed.

(** The invariants of a state are the predicates every run of a computation
    keeps, whether it returns or raises. *)
Definition preserves {S A} (I : S → Prop) (m : M S A) : Prop :=
  ∀ s, I s → I (m s).2.

Lemma preserves_ret {S A} (I : S → Prop) (a : A) : preserves I (mret a : M S A).
Proof. by intros s. Qed.
Lemma preserves_raise {S A} (I : S → Prop) e : preserves I (raise e : M S A).
Proof. by intros s. Qed.
Lemma preserves_get {S} (I : S → Prop) : preserves I (get : M S S).
Proof. by intros s. Qed.
Lemma preserves_gets {S A} (I : S → Prop) (f : S → A) : preserves I (gets f).
Proof. by intros s. Qed.
Lemma preserves_raise_if {S} (I : S → Prop) b e : preserves I (raise_if b e : M S unit).
Proof. by intros s; destruct b. Qed.
Lemma preserves_modify {S} (I : S → Prop) f :
  (∀ s, I s → I (f s)) → preserves I (modify f).
Proof. intros H s Hs. by apply H. Qed.
Lemma preserves_bind {S A B} (I : S → Prop) (m : M S A) (k : A → M S B) :
  preserves I m → (∀ a, preserves I (k a)) → preserves I (m ≫= k).
Proof.
  intros Hm Hk s Hs. unfold mbind, M_bind.
  specialize (Hm s Hs). destruct (m s) as [[a|e] s']; [by apply Hk|done].
Qed.
Lemma preserves_finally {S A} (I : S → Prop) (m : M S A) fin :
  preserves I m → preserves I fin → preserves I (try_finally m fin).
Proof.
  intros Hm Hf s Hs. unfold try_finally. specialize (Hm s Hs).
  destruct (m s) as [o s']. specialize (Hf s' Hm). by destruct (fin s') as [o' s''].
Qed.
Lemma preserves_except {S A} (I : S → Prop) (m : M S A) handler :
  preserves I m → (∀ e, preserves I (handler e)) → preserves I (try_except m handler).
Proof.
  intros Hm Hh s Hs. unfold try_except. specialize (Hm s Hs).
  destruct (m s) as [[a|e] s']; [done|by apply Hh].
Qed.
Lemma preserves_for_each {S A} (I : S → Prop) (l : list A) body :
  (∀ a, preserves I (body a)) → preserves I (for_each l body : M S unit).
Proof.
  intros Hb. induction l as [|x l IH]; simpl; [apply preserves_ret|].
  apply preserves_bind; [apply Hb|intros _; exact IH].
Qed.

Create HintDb clawbox.
#[export] Hint Resolve preserves_ret preserves_raise preserves_get preserves_gets
  preserves_raise_if preserves_bind preserves_for_each preserves_finally preserves_except : clawbox.

(** ** Sums over finite maps *)

Section msum.
Context {K : Type} `{Countable K} {V : Type}.
Implicit Types (m : gmap K V) (f : K → V → Z).

(** [sum(f(k, v) for k, v in m.items())] *)
Definition msum f m : Z := map_fold (λ k v acc, f k v + acc) 0 m.

Lemma msum_empty f : msum f ∅ = 0.
Proof. apply map_fold_empty. Qed.

Lemma msum_insert_new f m k v :
  m !! k = None → msum f (<[k:=v]> m) = f k v + msum f m.
Proof.
  intros Hk. unfold msum. rewrite map_fold_insert_L; [done| |done].
  intros; lia.
Qed.

Lemma msum_delete f m k v :
  m !! k = Some v → msum f m = f k v + msum f (delete k m).
Proof.
  intros Hk. rewrite <- (insert_delete_id m k v) at 1 by done.
  apply msum_insert_new, lookup_delete_eq.
Qed.

Lemma msum_delete_default f m k :
  msum f (delete k m) = msum f m - from_option (f k) 0 (m !! k).
Proof.
  destruct (m !! k) as [v|] eqn:E; simpl.
  - rewrite (msum_delete f m k v) by done. lia.
  - rewrite delete_id by done. lia.
Qed.

Lemma msum_insert f m k v :
  msum f (<[k:=v]> m) = f k v + msum f m - from_option (f k) 0 (m !! k).
Proof.
  rewrite <- insert_delete_eq, msum_insert_new by apply lookup_delete_eq.
  rewrite msum_delete_default. lia.
Qed.

Lemma msum_le f g m :
  (∀ k v, m !! k = Some v → f k v <= g k v) → msum f m <= msum g m.
Proof.
  induction m as [|k v m Hk IH] using map_ind; intros Hle.
  - by rewrite !msum_empty.
  - rewrite !msum_insert_new by done.
    pose proof (Hle k v (lookup_insert_eq _ _ _)).
    assert (msum f m <= msum g m).
    { apply IH. intros k' v' Hk'. apply Hle.
      rewrite lookup_insert_ne; [done|]. by intros ->; simplify_eq. }
    lia.
Qed.

Lemma msum_ext f g m :
  (∀ k v, m !! k = Some v → f k v = g k v) → msum f m = msum g m.
Proof. intros Hf. apply Z.le_antisymm; apply msum_le; intros ?? E; rewrite (Hf _ _ E); lia. Qed.

Lemma msum_zero m : msum (λ _ _, 0) m = 0.
Proof.
  induction m as [|k v m Hk IH] using map_ind; [apply msum_empty|].
  by rewrite msum_insert_new, IH.
Qed.

Lemma msum_nonneg f m : (∀ k v, m !! k = Some v → 0 <= f k v) → 0 <= msum f m.
Proof. intros Hf. rewrite <- (msum_zero m). by apply msum_le. Qed.

Lemma msum_lookup_le f m k v :
  (∀ k v, m !! k = Some v → 0 <= f k v) → m !! k = Some v → f k v <= msum f m.
Proof.
  intros Hf Hk. rewrite (msum_delete f m k v) by done.
  assert (0 <= msum f (delete k m)); [|lia].
  apply msum_nonneg. intros k' v' [_ E]%lookup_delete_Some. eauto.
Qed.

Lemma msum_add f g m : msum (λ k v, f k v + g k v) m = msum f m + msum g m.
Proof.
  induction m as [|k v m Hk IH] using map_ind; [by rewrite !msum_empty|].
  rewrite !msum_insert_new, IH by done. lia.
Qed.

Lemma msum_alter f (h : V → V) m k v :
  m !! k = Some v → msum f (alter h k m) = msum f m + f k (h v) - f k v.
Proof.
  intros Hk.
  replace (alter h k m) with (<[k:=h v]> m).
  - rewrite msum_insert, Hk. simpl. lia.
  - apply map_eq. intros i. destruct (decide (i = k)) as [->|].
    + by rewrite lookup_insert_eq, lookup_alter_eq, Hk.
    + by rewrite lookup_insert_ne, lookup_alter_ne.
Qed.
End msum.

(** Sums over lists. *)
Definition zsum (l : list Z) : Z := foldr Z.add 0 l.

Lemma zsum_cons x l : zsum (x :: l) = x + zsum l.
Proof. done. Qed.

Lemma zsum_app l1 l2 : zsum (l1 ++ l2) = zsum l1 + zsum l2.
Proof. induction l1 as [|x l IH]; simpl; [done|]. unfold zsum in *. simpl. lia. Qed.

Lemma zsum_nonneg l : Forall (λ x, 0 <= x) l → 0 <= zsum l.
Proof. induction 1; unfold zsum in *; simpl; lia. Qed.

Lemma zsum_permutation l1 l2 : l1 ≡ₚ l2 → zsum l1 = zsum l2.
Proof. induction 1; unfold zsum in *; simpl in *; lia. Qed.

(** Lists that a filter leaves alone. *)
Lemma filter_all {A} (P : A → Prop) `{∀ x, Decision (P x)} (l : list A) :
  Forall P l → filter P l = l.
Proof. induction 1; simpl; [done|]. rewrite filter_cons_True by done. by f_equal. Qed.

Lemma Forall_filter {A} (P Q : A → Prop) `{∀ x, Decision (P x)} (l : list A) :
  Forall Q l → Forall Q (filter P l).
Proof.
  rewrite !Forall_forall. intros HQ x [_ Hx]%list_elem_of_filter. by apply HQ.
Qed.

Lemma NoDup_fmap_filter {A B} (f : A → B) (P : A → Prop) `{∀ x, Decision (P x)} (l : list A) :
  NoDup (f <$> l) → NoDup (f <$> filter P l).
Proof.
  induction l as [|x l IH]; [done|].
  rewrite fmap_cons, NoDup_cons. intros [Hx Hl]. rewrite filter_cons.
  destruct (decide (P x)); [|by apply IH].
  rewrite fmap_cons, NoDup_cons. split; [|by apply IH].
  rewrite list_elem_of_fmap. intros (y & Hy & [_ Hin]%list_elem_of_filter).
  apply Hx. rewrite list_elem_of_fmap. eauto.
Qed.
