(* ===== verification/Dict.v ===== *)
(** * Python dictionaries

    A [dict] iterates in insertion order and the components below rely on that
    order (queues, the exception that a scan meets first), so it is kept as an
    association list.  Lookup, insertion and deletion use stdpp's notations;
    [dsum] is [sum(f(k, v) for k, v in d.items())]. *)
From S2P Require Import Prelude.

Definition dict (K V : Type) : Type := list (K * V).
#[global] Typeclasses Opaque dict.

Section dict.
Context {K : Type} `{!EqDecision K} {V : Type}.
Implicit Types (d : dict K V) (k : K) (v : V).

#[export] Instance dict_empty : Empty (dict K V) := [].

Fixpoint dget (k : K) (d : list (K * V)) : option V :=
  match d with
  | [] => None
  | (k', v) :: d' => if decide (k' = k) then Some v else dget k d'
  end.
#[export] Instance dict_lookup : Lookup K V (dict K V) := dget.

(** [d[k] = v]: in place when the key is present, at the end otherwise. *)
Fixpoint dset (k : K) (v : V) (d : list (K * V)) : list (K * V) :=
  match d with
  | [] => [(k, v)]
  | (k', v') :: d' => if decide (k' = k) then (k, v) :: d' else (k', v') :: dset k v d'
  end.
#[export] Instance dict_insert : Insert K V (dict K V) := dset.

(** [d.pop(k, None)] *)
Fixpoint ddel (k : K) (d : list (K * V)) : list (K * V) :=
  match d with
  | [] => []
  | (k', v') :: d' => if decide (k' = k) then d' else (k', v') :: ddel k d'
  end.
#[export] Instance dict_delete : Delete K (dict K V) := ddel.

Definition keys (d : dict K V) : list K := d.*1.
Definition vals (d : dict K V) : list V := d.*2.

(** [not d] *)
Definition dempty (d : dict K V) : bool := match (d : list _) with [] => true | _ => false end.

(** Keys are unique: true of every dictionary the operations build. *)
Definition dict_ok (d : dict K V) : Prop := NoDup (keys d).

Definition dsum (f : K → V → Z) (d : dict K V) : Z := zsum ((λ kv, f kv.1 kv.2) <$> (d : list _)).

Lemma dict_empty_ok : dict_ok ∅.
Proof. constructor. Qed.

Lemma lookup_dict_cons k' v d k :
  ((k', v) :: d : dict K V) !! k = if decide (k' = k) then Some v else d !! k.
Proof. done. Qed.
Lemma insert_dict_cons k' v' d k v :
  <[k:=v]> ((k', v') :: d : dict K V) =
  (if decide (k' = k) then (k, v) :: d else (k', v') :: <[k:=v]> d).
Proof. done. Qed.
Lemma delete_dict_cons k' v' d k :
  delete k ((k', v') :: d : dict K V) = (if decide (k' = k) then d else (k', v') :: delete k d).
Proof. done. Qed.

Lemma dict_lookup_key d k : is_Some (d !! k) ↔ k ∈ keys d.
Proof.
  induction d as [|[k' v] d IH].
  { split; [by intros [? ?]|by intros ?%not_elem_of_nil]. }
  rewrite lookup_dict_cons. unfold keys in *. rewrite fmap_cons, elem_of_cons.
  case_decide; simpl; [naive_solver|]. rewrite IH. naive_solver.
Qed.

Lemma dict_lookup_none d k : d !! k = None ↔ k ∉ keys d.
Proof. by rewrite <- dict_lookup_key, eq_None_not_Some. Qed.

Lemma dict_lookup_elem d k v : d !! k = Some v → (k, v) ∈ (d : list _).
Proof.
  induction d as [|[k' v'] d IH]; [done|]. rewrite lookup_dict_cons.
  case_decide; intros; simplify_eq; [by left|right; auto].
Qed.

Lemma dict_elem_lookup d k v : dict_ok d → (k, v) ∈ (d : list _) → d !! k = Some v.
Proof.
  unfold dict_ok, keys. induction d as [|[k' v'] d IH]; [by intros _ ?%not_elem_of_nil|].
  rewrite lookup_dict_cons, fmap_cons, NoDup_cons, elem_of_cons. intros [Hk Hd] [?|?]; simplify_eq/=.
  - by rewrite decide_True.
  - rewrite decide_False; [auto|]. intros ->. apply Hk. apply list_elem_of_fmap. by exists (k, v).
Qed.

Lemma dict_lookup_insert_eq d k v : <[k:=v]> d !! k = Some v.
Proof.
  induction d as [|[k' v'] d IH].
  { change ((if decide (k = k) then Some v else None) = Some v). by rewrite decide_True. }
  rewrite insert_dict_cons. case_decide; rewrite lookup_dict_cons.
  - by rewrite decide_True.
  - by rewrite decide_False.
Qed.

Lemma dict_lookup_insert_ne d k k' v : k ≠ k' → <[k:=v]> d !! k' = d !! k'.
Proof.
  intros Hk. induction d as [|[k0 v0] d IH].
  { change ((if decide (k = k') then Some v else None) = None). by rewrite decide_False. }
  rewrite insert_dict_cons. case_decide as H; rewrite !lookup_dict_cons.
  - subst. by rewrite !decide_False.
  - case_decide; [done|auto].
Qed.

Lemma dict_lookup_delete_ne d k k' : k ≠ k' → delete k d !! k' = d !! k'.
Proof.
  intros Hk. induction d as [|[k0 v0] d IH]; [done|].
  rewrite delete_dict_cons. case_decide; rewrite !lookup_dict_cons.
  - subst. by rewrite decide_False.
  - case_decide; [done|auto].
Qed.

Lemma keys_delete d k : dict_ok d → keys (delete k d) = filter (λ x, x ≠ k) (keys d).
Proof.
  unfold dict_ok, keys. induction d as [|[k0 v0] d IH]; [done|].
  rewrite delete_dict_cons, fmap_cons, NoDup_cons. simpl. intros [Hk Hd]. rewrite filter_cons.
  case_decide; simplify_eq/=; [rewrite decide_False by naive_solver|rewrite decide_True by done].
  - symmetry. apply filter_all. rewrite Forall_forall. by intros x Hx ->.
  - by rewrite IH.
Qed.

Lemma dict_lookup_delete_eq d k : dict_ok d → delete k d !! k = None.
Proof.
  intros Hd. rewrite dict_lookup_none, keys_delete by done.
  rewrite list_elem_of_filter. naive_solver.
Qed.

Lemma delete_ok d k : dict_ok d → dict_ok (delete k d).
Proof.
  intros Hd. unfold dict_ok. rewrite keys_delete by done. by apply NoDup_filter.
Qed.

Lemma delete_notin d k : d !! k = None → delete k d = d.
Proof.
  induction d as [|[k0 v0] d IH]; [done|]. rewrite lookup_dict_cons, delete_dict_cons.
  case_decide; [done|]. intros. by rewrite IH.
Qed.

Lemma insert_new d k v : d !! k = None → <[k:=v]> d = (d ++ [(k, v)] : list _).
Proof.
  induction d as [|[k0 v0] d IH]; [done|]. rewrite lookup_dict_cons, insert_dict_cons.
  case_decide; [done|]. intros. by rewrite IH.
Qed.

Lemma keys_insert d k v :
  keys (<[k:=v]> d) = if decide (k ∈ keys d) then keys d else keys d ++ [k].
Proof.
  induction d as [|[k0 v0] d IH].
  { rewrite decide_False; [done|apply not_elem_of_nil]. }
  rewrite insert_dict_cons. unfold keys in *. rewrite fmap_cons. simpl.
  destruct (decide (k0 = k)) as [->|].
  { by rewrite decide_True by (by left). }
  rewrite fmap_cons, IH. simpl. case_decide; case_decide; set_solver.
Qed.

Lemma insert_insert d k v v' : <[k:=v]> (<[k:=v']> d) = <[k:=v]> d.
Proof.
  induction d as [|[k0 v0] d IH].
  { change (<[k:=v]> ([(k, v')] : dict K V) = [(k, v)]). rewrite insert_dict_cons.
    by rewrite decide_True. }
  rewrite !insert_dict_cons. case_decide; rewrite insert_dict_cons; case_decide; try done.
  by rewrite IH.
Qed.

Lemma insert_id d k v : d !! k = Some v → <[k:=v]> d = d.
Proof.
  induction d as [|[k0 v0] d IH]; [done|].
  rewrite lookup_dict_cons, insert_dict_cons. case_decide; intros; simplify_eq; [done|].
  by rewrite IH.
Qed.

Lemma insert_commute_present d k k' v v' : is_Some (d !! k) → is_Some (d !! k') → k ≠ k' →
  <[k:=v]> (<[k':=v']> d) = <[k':=v']> (<[k:=v]> d).
Proof.
  intros H1 H2 Hk. induction d as [|[k0 v0] d IH]; [by destruct H1|].
  rewrite !lookup_dict_cons in *. rewrite !insert_dict_cons.
  destruct (decide (k0 = k)), (decide (k0 = k')); simplify_eq; rewrite !insert_dict_cons.
  - by repeat case_decide.
  - by repeat case_decide.
  - rewrite !decide_False by done. by rewrite IH.
Qed.

Lemma insert_ok d k v : dict_ok d → dict_ok (<[k:=v]> d).
Proof.
  unfold dict_ok. rewrite keys_insert. case_decide; [done|]. intros Hd.
  apply NoDup_app. split_and!; [done|set_solver|apply NoDup_singleton].
Qed.

Lemma dsum_cons f k v d : dsum f ((k, v) :: d : list _) = f k v + dsum f d.
Proof. done. Qed.

Lemma dsum_insert_new f d k v : d !! k = None → dsum f (<[k:=v]> d) = dsum f d + f k v.
Proof.
  intros Hk. rewrite insert_new by done. unfold dsum.
  rewrite fmap_app, zsum_app. unfold zsum. simpl. lia.
Qed.

Lemma dsum_insert f d k v v' : d !! k = Some v' → dsum f (<[k:=v]> d) = dsum f d + f k v - f k v'.
Proof.
  induction d as [|[k0 v0] d IH]; [done|].
  rewrite lookup_dict_cons, insert_dict_cons.
  case_decide; intros E; simplify_eq; rewrite !dsum_cons; [lia|].
  specialize (IH E). lia.
Qed.

Lemma dsum_delete f d k v : d !! k = Some v → dsum f (delete k d) = dsum f d - f k v.
Proof.
  induction d as [|[k0 v0] d IH]; [done|].
  rewrite lookup_dict_cons, delete_dict_cons.
  case_decide; intros E; simplify_eq; rewrite !dsum_cons; [lia|].
  specialize (IH E). lia.
Qed.

Lemma dsum_le f g d :
  (∀ k v, (k, v) ∈ (d : list _) → f k v <= g k v) → dsum f d <= dsum g d.
Proof.
  induction d as [|[k0 v0] d IH]; [done|]. intros H. rewrite !dsum_cons.
  pose proof (H k0 v0 (list_elem_of_here _ _)).
  assert (dsum f d <= dsum g d); [|lia].
  apply IH. intros. apply H. by right.
Qed.

Lemma dsum_ext f g d :
  (∀ k v, (k, v) ∈ (d : list _) → f k v = g k v) → dsum f d = dsum g d.
Proof. intros H. apply Z.le_antisymm; apply dsum_le; intros ?? E; rewrite (H _ _ E); lia. Qed.

Lemma dsum_nonneg f d : (∀ k v, (k, v) ∈ (d : list _) → 0 <= f k v) → 0 <= dsum f d.
Proof.
  induction d as [|[k0 v0] d IH]; [done|]. intros H. rewrite dsum_cons.
  pose proof (H k0 v0 (list_elem_of_here _ _)).
  assert (0 <= dsum f d); [|lia]. apply IH. intros. apply H. by right.
Qed.

Lemma dsum_lookup_le f d k v :
  (∀ k v, (k, v) ∈ (d : list _) → 0 <= f k v) → d !! k = Some v → f k v <= dsum f d.
Proof.
  intros H Hk. pose proof (dsum_delete f d k v Hk) as E.
  assert (0 <= dsum f (delete k d)); [|lia].
  apply dsum_nonneg. intros k' v' Hin. apply H. clear -Hin.
  induction d as [|[k0 v0] d IH]; [done|]. rewrite delete_dict_cons in Hin.
  case_decide; [by right|]. apply elem_of_cons in Hin as [->|]; [by left|right; auto].
Qed.

(** Updating the values in place. *)
Definition dmap (g : K → V → V) (d : dict K V) : dict K V :=
  (λ kv : K * V, (kv.1, g kv.1 kv.2)) <$> (d : list _).

Lemma dmap_lookup g d k : dmap g d !! k = g k <$> d !! k.
Proof.
  induction d as [|[k0 v0] d IH]; [done|].
  change (dmap g ((k0, v0) :: d : dict K V)) with ((k0, g k0 v0) :: dmap g d : dict K V).
  rewrite !lookup_dict_cons. case_decide; [by subst|done].
Qed.

Lemma keys_dmap g d : keys (dmap g d) = keys d.
Proof. unfold keys, dmap. rewrite <- list_fmap_compose. by apply list_fmap_ext. Qed.

Lemma dmap_ext g h d : (∀ k v, (k, v) ∈ (d : list _) → g k v = h k v) → dmap g d = dmap h d.
Proof.
  intros H. unfold dmap. induction (d : list _) as [|[k v] l IH]; [done|].
  rewrite !fmap_cons. simpl. f_equal; [f_equal; apply H; by left|].
  apply IH. intros. apply H. by right.
Qed.

Lemma dmap_id d : dmap (λ _ v, v) d = d.
Proof. unfold dmap. induction (d : list _) as [|[k v] l IH]; [done|]. rewrite fmap_cons, IH. done. Qed.

Lemma dmap_dmap g h d : dmap g (dmap h d) = dmap (λ k v, g k (h k v)) d.
Proof. unfold dmap. by rewrite <- list_fmap_compose. Qed.

Lemma dsum_dmap f g d : dsum f (dmap g d) = dsum (λ k v, f k (g k v)) d.
Proof. unfold dsum, dmap. by rewrite <- list_fmap_compose. Qed.

Lemma insert_dmap d k v : dict_ok d → is_Some (d !! k) →
  <[k:=v]> d = dmap (λ k' v', if decide (k' = k) then v else v') d.
Proof.
  unfold dict_ok, keys. induction d as [|[k0 v0] d IH]; [by intros _ [? ?]|].
  rewrite fmap_cons, NoDup_cons, lookup_dict_cons, insert_dict_cons. simpl. intros [Hk Hd] Hs.
  change (dmap ?g ((k0, v0) :: d : dict K V)) with ((k0, g k0 v0) :: dmap g d : dict K V).
  cbv beta. destruct (decide (k0 = k)) as [->|Hne].
  - f_equal. rewrite (dmap_ext _ (λ _ v, v)), dmap_id; [done|]. intros k' v' Hin.
    rewrite decide_False; [done|]. intros ->. apply Hk. apply list_elem_of_fmap. by exists (k, v').
  - by rewrite IH.
Qed.

(** Properties of all entries. *)
Definition dict_all (P : K → V → Prop) (d : dict K V) : Prop :=
  dict_ok d ∧ ∀ k v, d !! k = Some v → P k v.

Lemma dict_all_elem P d : dict_all P d → ∀ k v, (k, v) ∈ (d : list _) → P k v.
Proof. intros [Hd HP] k v Hin. apply HP. by apply dict_elem_lookup. Qed.

Lemma dict_all_empty P : dict_all P ∅.
Proof. split; [apply dict_empty_ok|done]. Qed.

Lemma dict_all_insert P d k v : dict_all P d → P k v → dict_all P (<[k:=v]> d).
Proof.
  intros [Hd HP] Hk. split; [by apply insert_ok|]. intros k' v' E.
  destruct (decide (k = k')) as [->|].
  - rewrite dict_lookup_insert_eq in E. by simplify_eq.
  - rewrite dict_lookup_insert_ne in E by done. auto.
Qed.

Lemma dict_all_delete P d k : dict_all P d → dict_all P (delete k d).
Proof.
  intros [Hd HP]. split; [by apply delete_ok|]. intros k' v' E.
  destruct (decide (k = k')) as [->|].
  - by rewrite dict_lookup_delete_eq in E.
  - rewrite dict_lookup_delete_ne in E by done. auto.
Qed.

Lemma dict_lookup_delete_Some d k k' v : dict_ok d →
  delete k d !! k' = Some v → k' ≠ k ∧ d !! k' = Some v.
Proof.
  intros Hd E. destruct (decide (k = k')) as [->|].
  - by rewrite dict_lookup_delete_eq in E.
  - by rewrite dict_lookup_delete_ne in E.
Qed.

Lemma dempty_lookup d : dempty d = true ↔ ∀ k, d !! k = None.
Proof.
  split; [by destruct d|]. destruct d as [|[k v] d]; [done|]. intros H.
  specialize (H k). rewrite lookup_dict_cons in H. by rewrite decide_True in H.
Qed.
End dict.

#[export] Hint Resolve dict_empty_ok insert_ok delete_ok dict_all_empty dict_all_insert
  dict_all_delete : clawbox.
