(* ===== verification/Ordering.v ===== *)
(** * Sort keys

    Python compares tuples lexicographically; [sorted(l, key=...)] and
    [min(l, key=...)] are [sort_by] and [min_by] over a comparison function
    built with [lex] from the components of the key. *)
From S2P Require Import Prelude.
From Stdlib Require Import Ascii.

Definition lex (a b : comparison) : comparison := match a with Eq => b | _ => a end.

(** A comparison function that is a total preorder. *)
Record cmp_ok {A} (f : A → A → comparison) : Prop := CmpOk {
  cmp_opp : ∀ a b, f b a = CompOpp (f a b);
  cmp_trans : ∀ a b c, f a b ≠ Gt → f b c ≠ Gt → f a c ≠ Gt;
}.

Definition cmp_le {A} (f : A → A → comparison) (a b : A) : Prop := f a b ≠ Gt.
#[export] Instance cmp_le_dec {A} (f : A → A → comparison) : RelDecision (cmp_le f).
Proof. intros a b. unfold cmp_le. solve_decision. Defined.

Lemma cmp_eq_mid {A} (f : A → A → comparison) a b c :
  cmp_ok f → f a b ≠ Gt → f b c ≠ Gt → f a c = Eq → f a b = Eq ∧ f b c = Eq.
Proof.
  intros [Ho Ht] Hab Hbc Hac.
  assert (Hca : f c a ≠ Gt) by (rewrite Ho, Hac; done).
  pose proof (Ht c a b Hca Hab) as Hcb. pose proof (Ht b c a Hbc Hca) as Hba.
  rewrite Ho in Hcb, Hba. by destruct (f a b), (f b c).
Qed.

Lemma cmp_ok_lex {A} (f g : A → A → comparison) :
  cmp_ok f → cmp_ok g → cmp_ok (λ a b, lex (f a b) (g a b)).
Proof.
  intros Hf Hg. split.
  - intros a b. rewrite (cmp_opp f Hf a b), (cmp_opp g Hg a b). by destruct (f a b).
  - intros a b c Hab Hbc.
    assert (H1 : f a b ≠ Gt) by (by destruct (f a b)).
    assert (H2 : f b c ≠ Gt) by (by destruct (f b c)).
    pose proof (cmp_trans f Hf a b c H1 H2) as H3.
    destruct (f a c) eqn:E; simpl; [|done|done].
    destruct (cmp_eq_mid f a b c Hf H1 H2 E) as [E1 E2]. rewrite E1 in Hab. rewrite E2 in Hbc.
    by apply (cmp_trans g Hg a b c).
Qed.

Lemma cmp_ok_const {A} : cmp_ok (λ _ _ : A, Eq).
Proof. by split. Qed.

Lemma cmp_ok_Z {A} (h : A → Z) : cmp_ok (λ a b, Z.compare (h a) (h b)).
Proof.
  split; [intros; apply Z.compare_antisym|].
  intros a b c H1 H2. apply Z.compare_ngt_iff in H1, H2. apply Z.compare_ngt_iff. lia.
Qed.

Lemma cmp_ok_Q {A} (h : A → Q) : cmp_ok (λ a b, Qcompare (h a) (h b)).
Proof.
  split; [intros; symmetry; apply Qcompare_antisym|].
  intros a b c H1 H2. apply Qle_alt in H1, H2. apply Qle_alt. by eapply Qle_trans.
Qed.

Lemma ascii_compare_trans a b c :
  Ascii.compare a b ≠ Gt → Ascii.compare b c ≠ Gt → Ascii.compare a c ≠ Gt.
Proof. unfold Ascii.compare. rewrite !N.compare_ngt_iff. lia. Qed.

Lemma string_compare_trans x y z :
  String.compare x y ≠ Gt → String.compare y z ≠ Gt → String.compare x z ≠ Gt.
Proof.
  revert y z. induction x as [|a x IH]; intros [|b y] [|c z]; simpl; try done.
  destruct (Ascii.compare a b) eqn:E1, (Ascii.compare b c) eqn:E2; try done; intros H1 H2.
  - apply Ascii.compare_eq_iff in E1 as ->. rewrite E2. by apply (IH y).
  - apply Ascii.compare_eq_iff in E1 as ->. by rewrite E2.
  - apply Ascii.compare_eq_iff in E2 as ->. by rewrite E1.
  - pose proof (ascii_compare_trans a b c). rewrite E1, E2 in H.
    destruct (Ascii.compare a c) eqn:E3; [|done|naive_solver].
    apply Ascii.compare_eq_iff in E3 as ->. rewrite Ascii.compare_antisym, E2 in E1. done.
Qed.

Lemma cmp_ok_string {A} (h : A → string) : cmp_ok (λ a b, String.compare (h a) (h b)).
Proof.
  split; [intros; apply String.compare_antisym|].
  intros a b c. apply string_compare_trans.
Qed.

#[export] Hint Resolve cmp_ok_lex cmp_ok_const cmp_ok_Z cmp_ok_Q cmp_ok_string : clawbox.

Lemma cmp_le_total {A} (f : A → A → comparison) : cmp_ok f → Total (cmp_le f).
Proof. intros Hf a b. unfold cmp_le. rewrite (cmp_opp f Hf a b). destruct (f a b); auto. Qed.

Lemma cmp_le_trans {A} (f : A → A → comparison) : cmp_ok f → Transitive (cmp_le f).
Proof. intros Hf a b c. apply (cmp_trans f Hf). Qed.

Lemma cmp_le_refl {A} (f : A → A → comparison) a : cmp_ok f → cmp_le f a a.
Proof. intros Hf. by destruct (cmp_le_total f Hf a a). Qed.

(** [sorted(l, key=...)] *)
Definition sort_by {A} (f : A → A → comparison) (l : list A) : list A := merge_sort (cmp_le f) l.

Lemma sort_by_sorted {A} (f : A → A → comparison) l :
  cmp_ok f → StronglySorted (cmp_le f) (sort_by f l).
Proof.
  intros Hf. pose proof (cmp_le_total f Hf). pose proof (cmp_le_trans f Hf).
  by apply StronglySorted_merge_sort.
Qed.

Lemma sort_by_perm {A} (f : A → A → comparison) l : sort_by f l ≡ₚ l.
Proof. apply merge_sort_Permutation. Qed.

(** [min(l, key=...)]: the first of the least elements. *)
Fixpoint min_from {A} (f : A → A → comparison) (m : A) (l : list A) : A :=
  match l with
  | [] => m
  | x :: l' => min_from f (match f x m with Lt => x | _ => m end) l'
  end.
Definition min_by {A} (f : A → A → comparison) (l : list A) : option A :=
  match l with [] => None | x :: l' => Some (min_from f x l') end.

Lemma min_from_spec {A} (f : A → A → comparison) m l : cmp_ok f →
  (min_from f m l = m ∨ min_from f m l ∈ l) ∧ cmp_le f (min_from f m l) m ∧
  Forall (cmp_le f (min_from f m l)) l.
Proof.
  intros Hf. revert m. induction l as [|x l IH]; intros m; simpl.
  { split_and!; [by left|by apply cmp_le_refl|done]. }
  destruct (f x m) eqn:E; destruct (IH (match f x m with Lt => x | _ => m end)) as (H1 & H2 & H3);
    rewrite E in *; (split_and!; [set_solver|..]).
  - done.
  - constructor; [|done]. eapply (cmp_le_trans f Hf); [exact H2|]. unfold cmp_le.
    by rewrite (cmp_opp f Hf x m), E.
  - eapply (cmp_le_trans f Hf); [exact H2|]. unfold cmp_le. by rewrite E.
  - by constructor.
  - done.
  - constructor; [|done]. eapply (cmp_le_trans f Hf); [exact H2|]. unfold cmp_le.
    by rewrite (cmp_opp f Hf x m), E.
Qed.

Lemma min_by_spec {A} (f : A → A → comparison) l m : cmp_ok f →
  min_by f l = Some m → m ∈ l ∧ Forall (cmp_le f m) l.
Proof.
  intros Hf. destruct l as [|x l]; [done|]. simpl. intros [= <-].
  destruct (min_from_spec f x l Hf) as (H1 & H2 & H3). split; [set_solver|by constructor].
Qed.

Lemma min_by_elem {A} (f : A → A → comparison) l m : min_by f l = Some m → m ∈ l.
Proof.
  destruct l as [|x l]; [done|]. simpl. intros [= <-]. revert x. induction l as [|y l IH]; intros x; simpl; [by left|].
  pose proof (IH (match f y x with Lt => y | _ => x end)) as [E|E]%elem_of_cons; [|by right; right].
  rewrite E. destruct (f y x); [by left|by right; left|by left].
Qed.

Lemma min_by_some {A} (f : A → A → comparison) l : l ≠ [] → is_Some (min_by f l).
Proof. destruct l; [done|]. simpl. eauto. Qed.
