(* ===== verification/PyStrings.v ===== *)
(** * Python string functions

    The parts of [str] that the parsers of kernel files use: [split],
    [splitlines], [partition], [strip] and [int].  [int] accepts an optional
    sign and ASCII decimal digits with surrounding white space; the digit
    separators and Unicode digits of Python are not modelled. *)
From S2P Require Import Prelude.
From Stdlib Require Import Ascii.
From Stdlib Require String.

Definition chars := list ascii.

Definition is_space (c : ascii) : bool :=
  bool_decide (c ∈ [" "; "009"; "010"; "011"; "012"; "013"]%char).

(** [s.split(sep)] for a one-character separator. *)
Fixpoint split_chars (sep : ascii → bool) (cur : chars) (s : chars) : list chars :=
  match s with
  | [] => [rev cur]
  | c :: s' => if sep c then rev cur :: split_chars sep [] s' else split_chars sep (c :: cur) s'
  end.

Definition split_on (sep : ascii) (s : string) : list string :=
  String.string_of_list_ascii <$> split_chars (λ c, bool_decide (c = sep)) [] (String.list_ascii_of_string s).

(** [s.split()] *)
Definition words (s : string) : list string :=
  filter (λ w, w ≠ ""%string)
    (String.string_of_list_ascii <$> split_chars is_space [] (String.list_ascii_of_string s)).

(** [s.splitlines()], for newline-terminated lines. *)
Definition lines (s : string) : list string :=
  let ls := split_on "010"%char s in
  match rev ls with
  | ""%string :: rest => rev rest
  | _ => ls
  end.

(** [s.partition(sep)]: before, whether the separator was found, after. *)
Fixpoint partition_chars (sep : ascii) (s : chars) : chars * bool * chars :=
  match s with
  | [] => ([], false, [])
  | c :: s' =>
      if decide (c = sep) then ([], true, s')
      else let '(a, b, r) := partition_chars sep s' in (c :: a, b, r)
  end.

Definition partition (sep : ascii) (s : string) : string * bool * string :=
  let '(a, b, r) := partition_chars sep (String.list_ascii_of_string s) in
  (String.string_of_list_ascii a, b, String.string_of_list_ascii r).

Fixpoint drop_spaces (s : chars) : chars :=
  match s with
  | [] => []
  | c :: s' => if is_space c then drop_spaces s' else s
  end.

(** [s.strip()] *)
Definition strip (s : string) : string :=
  String.string_of_list_ascii (rev (drop_spaces (rev (drop_spaces (String.list_ascii_of_string s))))).

Definition digit (c : ascii) : option Z :=
  let n := Z.of_N (N_of_ascii c) in
  if (48 <=? n) && (n <=? 57) then Some (n - 48) else None.

Fixpoint parse_digits (acc : Z) (s : chars) : option Z :=
  match s with
  | [] => Some acc
  | c :: s' => d ← digit c; parse_digits (10 * acc + d) s'
  end.

Definition parse_nat (s : chars) : option Z :=
  match s with [] => None | _ => parse_digits 0 s end.

(** [int(s)]; [None] is a [ValueError]. *)
Definition parse_int (s : string) : option Z :=
  match String.list_ascii_of_string (strip s) with
  | c :: s' => if decide (c = "-"%char) then Z.opp <$> parse_nat s'
               else if decide (c = "+"%char) then parse_nat s' else parse_nat (c :: s')
  | [] => None
  end.

Definition int (s : string) : outcome Z :=
  match parse_int s with
  | Some z => Ok z
  | None => Raise (ValueError "invalid literal for int()")
  end.

(** [s[1:]] and [s.startswith(c)] *)
Definition tail (s : string) : string := match s with String _ s' => s' | _ => s end.
Definition starts_with (c : ascii) (s : string) : bool :=
  match s with String c' _ => bool_decide (c' = c) | _ => false end.

(** [str(n)] of an integer. *)
Fixpoint digits_of (fuel : nat) (n : Z) (acc : chars) : chars :=
  match fuel with
  | O => acc
  | S f =>
      let acc' := ascii_of_N (Z.to_N (48 + n mod 10)) :: acc in
      if n <? 10 then acc' else digits_of f (n / 10) acc'
  end.

Definition str (n : Z) : string :=
  String.string_of_list_ascii
    (if n <? 0 then "-"%char :: digits_of (S (Z.to_nat (Z.log2 (- n)))) (- n) []
     else digits_of (S (Z.to_nat (Z.log2 n))) n []).

(** ** Lemmas *)

Lemma digit_char n : 0 <= n < 10 → digit (ascii_of_N (Z.to_N (48 + n))) = Some n.
Proof.
  intros Hn. unfold digit. rewrite N_ascii_embedding by lia.
  rewrite Z2N.id by lia. destruct (Z.leb_spec 48 (48 + n)), (Z.leb_spec (48 + n) 57); try lia.
  simpl. f_equal. lia.
Qed.

(** The printed digits read back as the number. *)
Lemma parse_digits_of fuel n rest : 0 <= n < 2 ^ Z.of_nat fuel →
  parse_digits 0 (digits_of fuel n rest) = parse_digits n rest.
Proof.
  revert n rest. induction fuel as [|f IH]; intros n rest Hn.
  { change (2 ^ Z.of_nat 0) with 1 in Hn. by replace n with 0 by lia. }
  rewrite Nat2Z.inj_succ, Z.pow_succ_r in Hn by lia. cbn [digits_of].
  pose proof (Z.mod_pos_bound n 10 ltac:(lia)). pose proof (Z.div_mod n 10 ltac:(lia)).
  destruct (Z.ltb_spec n 10).
  - cbn [parse_digits]. rewrite digit_char by lia. simpl.
    replace (n mod 10) with n by (symmetry; apply Z.mod_small; lia). done.
  - rewrite IH by lia. cbn [parse_digits]. rewrite digit_char by lia. simpl. f_equal. lia.
Qed.

Lemma digits_of_digits fuel n rest : 0 <= n →
  Forall (λ c, is_Some (digit c)) rest → Forall (λ c, is_Some (digit c)) (digits_of fuel n rest).
Proof.
  revert n rest. induction fuel as [|f IH]; intros n rest Hn Hr; simpl; [done|].
  pose proof (Z.mod_pos_bound n 10 ltac:(lia)).
  assert (Forall (λ c, is_Some (digit c)) (ascii_of_N (Z.to_N (48 + n mod 10)) :: rest)).
  { constructor; [|done]. rewrite digit_char by lia. eauto. }
  destruct (n <? 10); [done|]. apply IH; [|done]. apply Z.div_pos; lia.
Qed.

Lemma digits_of_ne fuel n rest : digits_of (S fuel) n rest ≠ [].
Proof.
  revert n rest. induction fuel as [|f IH]; intros n rest; simpl in *; [by destruct (n <? 10)|].
  destruct (n <? 10); [done|]. apply IH.
Qed.

Lemma digit_not_special c : is_Some (digit c) →
  is_space c = false ∧ c ≠ "-"%char ∧ c ≠ "+"%char ∧ c ≠ ","%char.
Proof.
  intros [d Hd]. split_and!; [|intros ->; done..].
  apply not_true_is_false. unfold is_space. rewrite bool_decide_eq_true.
  intros Hc. set_unfold in Hc. destruct_or!; subst; done.
Qed.

Lemma drop_spaces_digits s : Forall (λ c, is_Some (digit c)) s → drop_spaces s = s.
Proof.
  intros [|c s' Hc Hs]; [done|]. simpl. by destruct (digit_not_special c Hc) as (-> & _).
Qed.

(** [int(str(n)) == n] *)
Lemma int_str n : 0 <= n → int (str n) = Ok n.
Proof.
  intros Hn. unfold int, parse_int, str, strip.
  destruct (Z.ltb_spec n 0); [lia|].
  set (ds := digits_of _ n []).
  assert (Hds : Forall (λ c, is_Some (digit c)) ds) by (by apply digits_of_digits).
  rewrite !String.list_ascii_of_string_of_list_ascii, (drop_spaces_digits ds) by done.
  rewrite drop_spaces_digits by (by apply Forall_rev). rewrite rev_involutive.
  assert (parse_nat ds = Some n).
  { assert (Hp : parse_digits 0 ds = Some n).
    { unfold ds. rewrite parse_digits_of; [done|]. split; [done|].
      destruct (decide (n = 0)) as [->|]; [done|].
      rewrite Nat2Z.inj_succ, Z2Nat.id by apply Z.log2_nonneg. apply Z.log2_spec. lia. }
    pose proof (digits_of_ne (Z.to_nat (Z.log2 n)) n []) as Hne. fold ds in Hne.
    destruct ds; [done|exact Hp]. }
  destruct ds as [|c ds']; [done|]. apply Forall_cons in Hds as [Hc _].
  destruct (digit_not_special c Hc) as (_ & H1 & H2 & _).
  rewrite !decide_False by done. by rewrite H0.
Qed.

Lemma str_chars n : 0 <= n →
  let ds := String.list_ascii_of_string (str n) in
  str n = String.string_of_list_ascii ds ∧ Forall (λ c, is_Some (digit c)) ds ∧ ds ≠ [].
Proof.
  intros Hn ds. unfold ds. split; [by rewrite String.string_of_list_ascii_of_string|].
  unfold str. destruct (Z.ltb_spec n 0); [lia|]. rewrite String.list_ascii_of_string_of_list_ascii.
  split; [by apply digits_of_digits|apply digits_of_ne].
Qed.

(** Splitting a joined list. *)
Lemma split_chars_last sep cur x :
  Forall (λ c, sep c = false) x → split_chars sep cur x = [rev cur ++ x].
Proof.
  intros Hx. revert cur. induction Hx as [|c x Hc _ IH]; intros cur; simpl; [by rewrite app_nil_r|].
  rewrite Hc, IH. simpl. by rewrite <- (assoc_L (++)).
Qed.

Lemma split_chars_cons sep cur x c y :
  Forall (λ c, sep c = false) x → sep c = true →
  split_chars sep cur (x ++ c :: y) = (rev cur ++ x) :: split_chars sep [] y.
Proof.
  intros Hx Hc. revert cur. induction Hx as [|d x Hd _ IH]; intros cur; simpl.
  - rewrite Hc. by rewrite app_nil_r.
  - rewrite Hd, IH. simpl. by rewrite <- (assoc_L (++)).
Qed.

(** White space is only stripped at the ends. *)
Lemma strip_between x : (∃ a y, x = a :: y ∧ is_space a = false) →
  (∃ b z, x = z ++ [b] ∧ is_space b = false) →
  strip (String.string_of_list_ascii x) = String.string_of_list_ascii x.
Proof.
  intros (a & y & -> & Ha) (b & z & E & Hb). unfold strip.
  rewrite String.list_ascii_of_string_of_list_ascii. f_equal. cbn [drop_spaces]. rewrite Ha.
  rewrite E, rev_app_distr. simpl. rewrite Hb. simpl. by rewrite rev_involutive.
Qed.

Lemma strip_str n : 0 <= n → strip (str n) = str n.
Proof.
  intros Hn. destruct (str_chars n Hn) as (E & Hds & _). unfold strip.
  rewrite (drop_spaces_digits _ Hds), drop_spaces_digits by (by apply Forall_rev).
  by rewrite rev_involutive, <- E.
Qed.
