(* ===== verification/AdmissionLock.v ===== *)
(** * The admission lock (src/clawbox/experiments/admission_lock.py)

    A reentrant lock with two waiting queues.  [lock] is the state guarded by
    [_guard], one definition per method; the blocking [ready.wait] splits
    [acquire] into [acquire_enter] (up to the wait) and the two continuations
    [acquire_woken] and [acquire_timed_out].  The second half of the file runs
    the lock with threads and proves mutual exclusion and bounded overtaking. *)
From S2P Require Import Prelude.

(** Thread identifiers ([get_ident()]) and waiter identities (one [_Waiter]
    object per blocked call, compared by identity). *)
Definition tid := nat.
Definition wid := nat.
Bind Scope nat_scope with tid wid.

Record waiter := Waiter {
  w_id : wid;
  w_owner : tid;
  w_progress : bool;
}.

#[export] Instance waiter_eq_dec : EqDecision waiter.
Proof. solve_decision. Defined.

(** [AdmissionLock.__init__]: [granted] is the set of waiters whose [granted]
    flag (and [ready] event) is set, [next_wid] the next fresh object. *)
Record lock := Lock {
  owner : option tid;
  owner_progress : bool;
  depth : Z;
  normal : list waiter;
  progress : list waiter;
  burst : Z;
  granted : gset wid;
  next_wid : wid;
}.

Definition init : lock := Lock None false 0 [] [] 0 ∅ 0%nat.

(** What [acquire] does before it blocks. *)
Inductive entered :=
  | Acquired
  | Refused
  | Blocked (w : waiter).

Definition enqueue (w : waiter) (l : lock) : lock :=
  Lock (owner l) (owner_progress l) (depth l)
    (if w_progress w then normal l else normal l ++ [w])
    (if w_progress w then progress l ++ [w] else progress l)
    (burst l) (granted l) (S (next_wid l)).

(** [acquire(blocking, timeout, progress=)] up to [ready.wait]; [timeout] is
    [None] for the default [-1]. *)
Definition acquire_enter (me : tid) (blocking : bool) (timeout : option Q)
    (prog : bool) : M lock entered :=
  raise_if (negb blocking && bool_decide (is_Some timeout))
    (ValueError "cannot specify timeout for a non-blocking acquire") ;;
  l ← get;
  if decide (owner l = Some me) then
    put (Lock (owner l) (owner_progress l) (depth l + 1) (normal l)
           (progress l) (burst l) (granted l) (next_wid l)) ;;
    mret Acquired
  else if decide (owner l = None) then
    put (Lock (Some me) prog 1 (normal l) (progress l) (burst l)
           (granted l) (next_wid l)) ;;
    mret Acquired
  else if negb blocking then mret Refused
  else
    let w := Waiter (next_wid l) me prog in
    put (enqueue w l) ;; mret (Blocked w).

(** [ready.wait] returned true: nothing changes, the lock was handed over. *)
Definition acquire_woken (w : waiter) : M lock bool := mret true.

(** [ready.wait] timed out: the guard decides between a late grant and
    withdrawing from the queue. *)
Definition acquire_timed_out (w : waiter) : M lock bool :=
  l ← get;
  if decide (w_id w ∈ granted l) then mret true
  else
    put (Lock (owner l) (owner_progress l) (depth l)
           (if w_progress w then normal l else filter (λ x, x ≠ w) (normal l))
           (if w_progress w then filter (λ x, x ≠ w) (progress l) else progress l)
           (burst l) (granted l) (next_wid l)) ;;
    mret false.

(** [self._progress and (not self._normal or self._burst < 8)] *)
Definition picks_progress (l : lock) : bool :=
  bool_decide (progress l ≠ []) && (bool_decide (normal l = []) || (burst l <? 8)).

Definition grant (w : waiter) (ns ps : list waiter) (b : Z) (l : lock) : lock :=
  Lock (Some (w_owner w)) (w_progress w) 1 ns ps b ({[w_id w]} ∪ granted l) (next_wid l).

(** [_handoff] *)
Definition handoff (l : lock) : lock :=
  match picks_progress l, progress l, normal l with
  | true, w :: ps, ns => grant w ns ps (burst l + 1) l
  | _, ps, w :: ns => grant w ns ps 0 l
  | _, ps, [] => Lock None false 0 [] ps 0 (granted l) (next_wid l)
  end.

Definition owned_by (me : tid) (l : lock) : bool := bool_decide (owner l = Some me).

(** [release] *)
Definition release (me : tid) : M lock unit :=
  l ← get;
  raise_if (negb (owned_by me l)) (RuntimeError "cannot release unowned admission lock") ;;
  let l' := Lock (owner l) (owner_progress l) (depth l - 1) (normal l)
              (progress l) (burst l) (granted l) (next_wid l) in
  put (if decide (depth l' = 0) then handoff l' else l').

(** [_release_save]: give up every level of the recursion at once. *)
Definition release_save (me : tid) : M lock (Z * option tid * bool) :=
  l ← get;
  raise_if (negb (owned_by me l)) (RuntimeError "cannot release unowned admission lock") ;;
  put (handoff l) ;;
  mret (depth l, owner l, owner_progress l).

(** [_acquire_restore] after its [acquire]: restore the saved depth. *)
Definition restore_depth (saved : Z) : M lock unit :=
  modify (λ l, Lock (owner l) (owner_progress l) saved (normal l) (progress l)
                 (burst l) (granted l) (next_wid l)).

(** ** The state invariant *)

Definition waiting (l : lock) : list waiter := progress l ++ normal l.

Record lock_ok (l : lock) : Prop := LockOk {
  (** No lost wake-up: a thread waits only while somebody owns the lock. *)
  ok_idle : owner l = None → waiting l = [] ∧ depth l = 0 ∧ burst l = 0;
  ok_depth : owner l ≠ None → 1 <= depth l;
  ok_burst : 0 <= burst l;
  ok_normal : Forall (λ w, w_progress w = false) (normal l);
  ok_progress : Forall (λ w, w_progress w = true) (progress l);
  ok_nodup : NoDup (w_id <$> waiting l);
  ok_fresh : Forall (λ w, (w_id w < next_wid l)%nat) (waiting l);
  ok_granted : set_Forall (λ i, (i < next_wid l)%nat) (granted l);
  ok_waiting : Forall (λ w, w_id w ∉ granted l) (waiting l);
}.

(** ** Threads *)

(** Where a thread stands with respect to the lock. *)
Inductive activity :=
  | Outside
  | Inside (d : Z)                           (** inside [d] nested acquires *)
  | Waiting (w : waiter) (saved : option Z). (** in [ready.wait]; [saved] when restoring *)

(** [frames] are the results of the [_release_save] calls the thread has not
    restored yet, innermost first. *)
Record thread := Thread { act : activity; frames : list (Z * bool) }.

Record sys := Sys { slock : lock; threads : tid → thread }.

Definition sys_init : sys := Sys init (λ _, Thread Outside []).

Definition set_thread (t : tid) (th : thread) (f : tid → thread) : tid → thread :=
  λ t', if decide (t' = t) then th else f t'.

Definition depth_of (a : activity) : Z :=
  match a with Inside d => d | _ => 0 end.

Inductive event :=
  | EvAcquire (t : tid) (blocking : bool) (timeout : option Q) (prog : bool)
  | EvWoken (t : tid)
  | EvTimedOut (t : tid)
  | EvRelease (t : tid)
  | EvSave (t : tid)
  | EvRestore (t : tid).

Definition event_tid (e : event) : tid :=
  match e with
  | EvAcquire t _ _ _ | EvWoken t | EvTimedOut t | EvRelease t | EvSave t | EvRestore t => t
  end.

(** The activity of a thread after it ran [acquire_enter]. *)
Definition after_enter (a : activity) (saved : option Z) (o : outcome entered) : activity :=
  match o with
  | Ok Acquired => Inside (default (depth_of a + 1) saved)
  | Ok (Blocked w) => Waiting w saved
  | Ok Refused | Raise _ => a
  end.

(** One atomic block of one thread; [None] when the thread is not at that
    point of its code.  A lock level saved by [_release_save] is restored
    together with the acquisition that precedes it: only the owner may touch
    the depth in between. *)
Definition sys_step (e : event) (s : sys) : option sys :=
  let l := slock s in
  let t := event_tid e in
  let fr := frames (threads s t) in
  let become a fr' l' := Some (Sys l' (set_thread t (Thread a fr') (threads s))) in
  match e, act (threads s t), fr with
  | _, Waiting w saved, _ =>
      match e, saved with
      | EvWoken _, None =>
          if decide (w_id w ∈ granted l) then become (Inside 1) fr l else None
      | EvWoken _, Some d =>
          if decide (w_id w ∈ granted l)
          then become (Inside d) fr (restore_depth d l).2 else None
      | EvTimedOut _, None =>
          let (o, l') := acquire_timed_out w l in
          become (if decide (o = Ok true) then Inside 1 else Outside) fr l'
      | _, _ => None
      end
  | EvAcquire _ b to p, a, _ =>
      let (o, l') := acquire_enter t b to p l in
      become (after_enter a None o) fr l'
  | EvRelease _, a, _ =>
      let (o, l') := release t l in
      become (if is_ok o then
                if decide (depth_of a = 1) then Outside else Inside (depth_of a - 1)
              else a) fr l'
  | EvSave _, a, _ =>
      match release_save t l with
      | (Ok (d, _, p), l') => become Outside ((d, p) :: fr) l'
      | (Raise _, l') => become a fr l'
      end
  | EvRestore _, Outside, (d, p) :: fr' =>
      let (o, l') := acquire_enter t true None p l in
      become (after_enter Outside (Some d) o) fr'
        (match o with Ok Acquired => (restore_depth d l').2 | _ => l' end)
  | _, _, _ => None
  end.

Fixpoint run (es : list event) (s : sys) : option sys :=
  match es with
  | [] => Some s
  | e :: es' => s' ← sys_step e s; run es' s'
  end.

(** The calls of [_handoff] during a run. *)
Definition hands_over (e : event) (s : sys) : nat :=
  match e, act (threads s (event_tid e)) with
  | EvRelease _, Inside d => if decide (d = 1) then 1 else 0
  | EvSave _, Inside _ => 1
  | _, _ => 0
  end.

Fixpoint handoffs (es : list event) (s : sys) : nat :=
  match es with
  | [] => 0
  | e :: es' => hands_over e s + from_option (handoffs es') 0%nat (sys_step e s)
  end.

(** A thread holds the lock when it returned from [acquire] and has not
    released it, or when the lock was handed to it and it has yet to wake. *)
Definition holds (s : sys) (t : tid) : Prop :=
  match act (threads s t) with
  | Outside => False
  | Inside _ => True
  | Waiting w _ => w_id w ∈ granted (slock s)
  end.

(** The lock's bookkeeping and the threads' agree. *)
Definition activity_ok (l : lock) (t : tid) (a : activity) : Prop :=
  match a with
  | Outside => owner l ≠ Some t
  | Inside d => owner l = Some t ∧ depth l = d
  | Waiting w saved =>
      w_owner w = t ∧ (w_id w < next_wid l)%nat ∧
      from_option (λ d, 1 <= d) True saved ∧
      if decide (w_id w ∈ granted l) then owner l = Some t ∧ depth l = 1
      else owner l ≠ Some t ∧ w ∈ waiting l
  end.

Record sys_ok (s : sys) : Prop := SysOk {
  sys_lock : lock_ok (slock s);
  sys_threads : ∀ t, activity_ok (slock s) t (act (threads s t));
  sys_frames : ∀ t, Forall (λ f, 1 <= f.1) (frames (threads s t));
  sys_waiting : ∀ w, w ∈ waiting (slock s) →
    ∃ saved, act (threads s (w_owner w)) = Waiting w saved;
}.

(** ** The lock's own operations *)

Lemma handoff_idle l : waiting l = [] →
  handoff l = Lock None false 0 [] [] 0 (granted l) (next_wid l).
Proof.
  unfold waiting. intros [Hp Hn]%app_eq_nil. unfold handoff, picks_progress.
  by rewrite Hp, Hn.
Qed.

(** A handoff with waiters serves the head of one of the two queues; the
    progress queue only while the burst bound allows it. *)
Lemma handoff_grant l : waiting l ≠ [] →
  (∃ w ps, progress l = w :: ps ∧ handoff l = grant w (normal l) ps (burst l + 1) l ∧
           (normal l = [] ∨ burst l < 8)) ∨
  (∃ w ns, normal l = w :: ns ∧ handoff l = grant w ns (progress l) 0 l).
Proof.
  unfold waiting, handoff, picks_progress. intros Hw.
  destruct (progress l) as [|w ps] eqn:Hp, (normal l) as [|v ns] eqn:Hn; simpl in *; try done.
  - right. eauto.
  - left. exists w, ps. eauto.
  - destruct (Z.ltb_spec (burst l) 8).
    + left. exists w, ps. auto.
    + right. eauto.
Qed.

Lemma grant_ok w ns ps b l :
  lock_ok l → waiting l ≡ₚ w :: (ps ++ ns) → 0 <= b →
  Forall (λ w, w_progress w = false) ns → Forall (λ w, w_progress w = true) ps →
  lock_ok (grant w ns ps b l).
Proof.
  intros [_ _ _ _ _ Hnd Hfr Hgr Hwt] Hperm Hb Hn Hp.
  rewrite Hperm in Hnd, Hfr, Hwt. rewrite fmap_cons, NoDup_cons in Hnd.
  rewrite Forall_cons in Hfr, Hwt.
  destruct Hnd as [Hni Hnd], Hfr as [Hw Hfr], Hwt as [Hgw Hwt].
  split; unfold grant, waiting in *; simpl; try done; try lia.
  - intros i [->%elem_of_singleton|Hi]%elem_of_union; [done|by apply Hgr].
  - rewrite Forall_forall in *. intros x Hx [Hi%elem_of_singleton|Hi]%elem_of_union.
    + apply Hni. rewrite list_elem_of_fmap. eauto.
    + by apply (Hwt x).
Qed.

Lemma handoff_ok l : lock_ok l → lock_ok (handoff l).
Proof.
  intros Hl. destruct (decide (waiting l = [])) as [Hw|Hw].
  - rewrite handoff_idle by done. destruct Hl. split; simpl; try done; by constructor.
  - pose proof (ok_burst l Hl). pose proof (ok_normal l Hl) as Hn.
    pose proof (ok_progress l Hl) as Hp.
    destruct (handoff_grant l Hw) as [(w & ps & Hq & -> & _)|(w & ns & Hq & ->)].
    + apply grant_ok; try done; try lia.
      * unfold waiting. by rewrite Hq.
      * rewrite Hq in Hp. by inversion Hp.
    + apply grant_ok; try done.
      * unfold waiting. rewrite Hq. symmetry. apply Permutation_middle.
      * rewrite Hq in Hn. by inversion Hn.
Qed.

Lemma enqueue_waiting w l : waiting (enqueue w l) ≡ₚ w :: waiting l.
Proof.
  unfold waiting, enqueue; simpl. destruct (w_progress w); simpl.
  - rewrite <- (assoc_L (++)). symmetry. apply Permutation_middle.
  - rewrite (assoc_L (++)). symmetry. apply Permutation_cons_append.
Qed.

Lemma enqueue_ok w l :
  lock_ok l → owner l ≠ None → w_id w = next_wid l → lock_ok (enqueue w l).
Proof.
  intros [H1 H2 H3 H4 H5 H6 H7 H8 H9] Ho Hid.
  split; try done.
  - simpl. destruct (w_progress w) eqn:E; [done|].
    apply Forall_app; split; [done|by repeat constructor].
  - simpl. destruct (w_progress w) eqn:E; [|done].
    apply Forall_app; split; [done|by repeat constructor].
  - rewrite enqueue_waiting. rewrite fmap_cons, NoDup_cons. split; [|done].
    rewrite Hid, list_elem_of_fmap. intros (x & Hx & Hin).
    rewrite Forall_forall in H7. specialize (H7 _ Hin). lia.
  - rewrite enqueue_waiting. constructor; simpl; [lia|].
    eapply Forall_impl; [exact H7|]. simpl. lia.
  - simpl. intros i Hi. specialize (H8 i Hi). simpl in *. lia.
  - rewrite enqueue_waiting. constructor; [|done]. rewrite Hid.
    intros Hi. specialize (H8 _ Hi). simpl in *. lia.
Qed.

(** Withdrawing a waiter after a timeout. *)
Definition withdraw (w : waiter) (l : lock) : lock := (acquire_timed_out w l).2.

Lemma withdraw_waiting w l : lock_ok l → w_id w ∉ granted l →
  waiting (withdraw w l) = filter (λ x, x ≠ w) (waiting l).
Proof.
  intros Hl Hw. unfold withdraw, acquire_timed_out, mbind, M_bind, get, put, mret, M_ret.
  rewrite decide_False by done. unfold waiting; simpl. rewrite filter_app.
  pose proof (ok_normal l Hl) as Hn. pose proof (ok_progress l Hl) as Hp.
  rewrite Forall_forall in Hn, Hp.
  destruct (w_progress w) eqn:E; simpl; f_equal; symmetry; apply filter_all;
    rewrite Forall_forall; intros x Hx ->; naive_solver congruence.
Qed.

Lemma withdraw_ok w l : lock_ok l → lock_ok (withdraw w l).
Proof.
  intros Hl. destruct (decide (w_id w ∈ granted l)) as [Hg|Hg].
  { unfold withdraw, acquire_timed_out, mbind, M_bind, get. by rewrite decide_True. }
  pose proof (withdraw_waiting w l Hl Hg) as Hw.
  assert (owner (withdraw w l) = owner l ∧ depth (withdraw w l) = depth l ∧
          burst (withdraw w l) = burst l ∧ next_wid (withdraw w l) = next_wid l ∧
          granted (withdraw w l) = granted l ∧
          Forall (λ w, w_progress w = false) (normal (withdraw w l)) ∧
          Forall (λ w, w_progress w = true) (progress (withdraw w l)))
    as (Ho & Hd & Hb & Hnw & Hgr & Hn & Hp).
  { unfold withdraw, acquire_timed_out, mbind, M_bind, get, put, mret, M_ret.
    rewrite decide_False by done. destruct Hl. simpl.
    destruct (w_progress w); auto 10 using Forall_filter. }
  destruct Hl as [H1 H2 H3 _ _ H6 H7 H8 H9].
  split; rewrite ?Ho, ?Hd, ?Hb, ?Hnw, ?Hgr, ?Hw; auto using Forall_filter, NoDup_fmap_filter.
  intros E. destruct (H1 E) as (-> & ? & ?). by rewrite filter_nil.
Qed.

(** ** Threads and lock agree in every reachable state *)

Lemma activity_stable l l' t a :
  activity_ok l t a →
  (owner l' = owner l ∧ depth l' = depth l) ∨ (owner l ≠ Some t ∧ owner l' ≠ Some t) →
  granted l' = granted l → (next_wid l <= next_wid l')%nat →
  (∀ w, w_owner w = t → w ∈ waiting l → w ∈ waiting l') →
  activity_ok l' t a.
Proof.
  intros Ha Ho Hg Hn Hw. destruct a as [|d|w saved]; simpl in *.
  - destruct Ho as [[-> _]|[_ Ho]]; done.
  - destruct Ho as [[-> ->]|[Ho _]]; [done|by destruct Ha].
  - destruct Ha as (Hwo & Hid & Hs & Ha). rewrite Hg.
    split_and!; [done|lia|done|]. case_decide.
    + destruct Ho as [[-> ->]|[Ho _]]; [done|by destruct Ha].
    + destruct Ha as [Hno Hin]. split; [|by apply Hw].
      destruct Ho as [[-> _]|[_ Ho]]; done.
Qed.

Lemma set_thread_eq t th f : set_thread t th f t = th.
Proof. unfold set_thread. by rewrite decide_True. Qed.
Lemma set_thread_ne t t' th f : t' ≠ t → set_thread t th f t' = f t'.
Proof. intros. unfold set_thread. by rewrite decide_False. Qed.

(** Re-establishing the invariant after thread [t] moved. *)
Lemma sys_ok_become s l' t a fr :
  sys_ok s → lock_ok l' → activity_ok l' t a → Forall (λ f, 1 <= f.1) fr →
  (∀ t', t' ≠ t → activity_ok l' t' (act (threads s t'))) →
  (∀ w, w ∈ waiting l' → w_owner w = t → ∃ saved, a = Waiting w saved) →
  (∀ w, w ∈ waiting l' → w_owner w ≠ t → w ∈ waiting (slock s)) →
  sys_ok (Sys l' (set_thread t (Thread a fr) (threads s))).
Proof.
  intros Hs Hl Ha Hf Hother Hw Hw'. split; simpl.
  - done.
  - intros t'. destruct (decide (t' = t)) as [->|].
    + by rewrite set_thread_eq.
    + rewrite set_thread_ne by done. by apply Hother.
  - intros t'. destruct (decide (t' = t)) as [->|].
    + by rewrite set_thread_eq.
    + rewrite set_thread_ne by done. apply (sys_frames s Hs).
  - intros w Hin. destruct (decide (w_owner w = t)) as [E|E].
    + rewrite E, set_thread_eq. by apply Hw.
    + rewrite set_thread_ne by done. by apply (sys_waiting s Hs), Hw'.
Qed.

Lemma not_waiting s t w :
  sys_ok s → w ∈ waiting (slock s) → w_owner w = t →
  (∀ w' saved, act (threads s t) ≠ Waiting w' saved) → False.
Proof.
  intros Hs Hin <- Hno. destruct (sys_waiting s Hs w Hin) as [saved E]. by apply (Hno w saved).
Qed.

(** What a handoff to [w] means for the threads that are not leaving. *)
Lemma activity_grant l w ns ps b t t' a :
  lock_ok l → waiting l ≡ₚ w :: (ps ++ ns) → owner l = Some t → t' ≠ t →
  (t' = w_owner w → ∃ saved, a = Waiting w saved) →
  activity_ok l t' a → activity_ok (grant w ns ps b l) t' a.
Proof.
  intros Hl Hperm Ho Ht Hwa Ha. destruct a as [|d|x sv]; simpl in *.
  - intros [= Ew]. destruct Hwa as [? ?]; [done|]. done.
  - destruct Ha. congruence.
  - destruct Ha as (Hxo & Hid & Hsv & Ha). split_and!; [done|lia|done|].
    case_decide as Hx; [destruct Ha; congruence|]. destruct Ha as [_ Hxin].
    destruct (decide (t' = w_owner w)) as [Ew|Ew].
    + destruct Hwa as [saved [= -> ->]]; [done|]. rewrite decide_True by set_solver.
      by rewrite Ew.
    + assert (x ≠ w) as Hxw by congruence.
      rewrite Hperm in Hxin. apply elem_of_cons in Hxin as [|Hxin]; [done|].
      rewrite decide_False; [split; [congruence|]; unfold waiting; simpl; set_solver|].
      intros [Hx'%elem_of_singleton|Hx']%elem_of_union; [|done].
      pose proof (ok_nodup l Hl) as Hnd. rewrite Hperm, fmap_cons, NoDup_cons in Hnd.
      apply (proj1 Hnd). rewrite <- Hx'. by apply list_elem_of_fmap_2.
Qed.

(** The owner leaves through [_handoff]. *)
Lemma sys_ok_handoff s l t fr :
  sys_ok s → lock_ok l → (∀ w' saved, act (threads s t) ≠ Waiting w' saved) →
  owner l = Some t → owner (slock s) = Some t →
  waiting l = waiting (slock s) → granted l = granted (slock s) →
  next_wid l = next_wid (slock s) → Forall (λ f, 1 <= f.1) fr →
  sys_ok (Sys (handoff l) (set_thread t (Thread Outside fr) (threads s))).
Proof.
  intros Hs Hl Hact Ho Ho' Hw Hg Hn Hf. pose proof (handoff_ok l Hl) as Hok.
  assert (Hin : ∀ w, w ∈ waiting l → w_owner w ≠ t ∧
            ∃ saved, act (threads s (w_owner w)) = Waiting w saved).
  { intros w Hin. rewrite Hw in Hin. split; [|by apply (sys_waiting s Hs)].
    intros E. by apply (not_waiting s t w). }
  assert (Hother : ∀ t', t' ≠ t → activity_ok l t' (act (threads s t'))).
  { intros t' Ht'. eapply activity_stable; [apply (sys_threads s Hs)|..]; try done.
    - right. rewrite Ho, Ho'. split; congruence.
    - by rewrite Hn.
    - by rewrite Hw. }
  destruct (decide (waiting l = [])) as [Hempty|Hne].
  - rewrite (handoff_idle l Hempty) in *.
    apply sys_ok_become; simpl; try done.
    2, 3: unfold waiting; simpl; intros w Hin'; set_solver.
    intros t' Ht'. eapply activity_stable; [by apply Hother|..]; simpl; try done.
    + right. split; [rewrite Ho; congruence|done].
    + intros w _. by rewrite Hempty.
  - assert (∃ w ns ps b, handoff l = grant w ns ps b l ∧ waiting l ≡ₚ w :: (ps ++ ns))
      as (w & ns & ps & b & E & Hperm).
    { destruct (handoff_grant l Hne) as [(w & ps & Hq & E & _)|(w & ns & Hq & E)].
      - exists w, (normal l), ps, (burst l + 1). split; [done|]. unfold waiting. by rewrite Hq.
      - exists w, ns, (progress l), 0. split; [done|]. unfold waiting. rewrite Hq.
        symmetry. apply Permutation_middle. }
    rewrite E in *. destruct (Hin w) as [Hwt Hact']; [rewrite Hperm; left|].
    assert (Hrest : ∀ x, x ∈ ps ++ ns → x ∈ waiting l)
      by (intros x Hx; rewrite Hperm; by right).
    apply sys_ok_become; try done; simpl.
    + congruence.
    + intros t' Ht'. eapply activity_grant; eauto. by intros ->.
    + intros x Hx Hxt. by destruct (Hin x (Hrest x Hx)).
    + intros x Hx _. rewrite <- Hw. by apply Hrest.
Qed.

(** The four ways out of [acquire] before it blocks, and the one into the wait. *)
Inductive enter_spec (me : tid) (p : bool) (l : lock) : outcome entered * lock → Prop :=
  | enter_same o : (∀ w, o ≠ Ok (Blocked w)) → o ≠ Ok Acquired → enter_spec me p l (o, l)
  | enter_again : owner l = Some me → enter_spec me p l
      (Ok Acquired, Lock (owner l) (owner_progress l) (depth l + 1) (normal l)
                      (progress l) (burst l) (granted l) (next_wid l))
  | enter_free : owner l = None → enter_spec me p l
      (Ok Acquired, Lock (Some me) p 1 (normal l) (progress l) (burst l)
                      (granted l) (next_wid l))
  | enter_wait w : owner l ≠ None → owner l ≠ Some me → w = Waiter (next_wid l) me p →
      enter_spec me p l (Ok (Blocked w), enqueue w l).

Lemma acquire_enter_spec me b to p l : enter_spec me p l (acquire_enter me b to p l).
Proof.
  unfold acquire_enter, raise_if, mbind, M_bind, mret, M_ret, get, put, raise.
  destruct (negb b && _); [by constructor|].
  case_decide; [by apply enter_again|].
  case_decide; [by apply enter_free|].
  destruct (negb b); [by constructor|]. by apply enter_wait.
Qed.

Lemma lock_ok_same l o p d :
  lock_ok l → owner l ≠ None ∨ waiting l = [] ∧ burst l = 0 → o ≠ None → 1 <= d →
  lock_ok (Lock o p d (normal l) (progress l) (burst l) (granted l) (next_wid l)).
Proof. intros [] ? ? ?. by split. Qed.

(** Taking a free or already owned lock, at recursion depth [d]. *)
Lemma sys_ok_take s t p d fr :
  sys_ok s → owner (slock s) = Some t ∨ owner (slock s) = None → 1 <= d →
  Forall (λ f, 1 <= f.1) fr →
  (∀ w, w ∈ waiting (slock s) → w_owner w ≠ t) →
  sys_ok (Sys (Lock (Some t) p d (normal (slock s)) (progress (slock s)) (burst (slock s))
                 (granted (slock s)) (next_wid (slock s)))
            (set_thread t (Thread (Inside d) fr) (threads s))).
Proof.
  intros Hs Ho Hd Hf Hact. pose proof (sys_lock s Hs) as Hl.
  apply sys_ok_become; simpl; try done.
  - apply lock_ok_same; try done. destruct Ho as [Ho|Ho]; [left; congruence|right].
    by destruct (ok_idle _ Hl Ho) as (? & _ & ?).
  - intros t' Ht'. eapply activity_stable; [apply (sys_threads s Hs)|..]; simpl; try done.
    right. destruct Ho as [-> | ->]; split; congruence.
  - intros w Hin E. exfalso. by apply (Hact w).
Qed.

Lemma not_in_wait s t :
  sys_ok s → (∀ w' sv, act (threads s t) ≠ Waiting w' sv) →
  ∀ w, w ∈ waiting (slock s) → w_owner w ≠ t.
Proof. intros Hs Hact w Hin E. by apply (not_waiting s t w). Qed.

(** Joining a queue. *)
Lemma sys_ok_join s t p saved fr :
  sys_ok s → owner (slock s) ≠ None → owner (slock s) ≠ Some t →
  (∀ w' sv, act (threads s t) ≠ Waiting w' sv) →
  from_option (λ d, 1 <= d) True saved → Forall (λ f, 1 <= f.1) fr →
  let w := Waiter (next_wid (slock s)) t p in
  sys_ok (Sys (enqueue w (slock s)) (set_thread t (Thread (Waiting w saved) fr) (threads s))).
Proof.
  intros Hs Ho Ho' Hact Hsaved Hf w. pose proof (sys_lock s Hs) as Hl.
  assert (Hmem : ∀ x, x ∈ waiting (enqueue w (slock s)) ↔ x = w ∨ x ∈ waiting (slock s)).
  { intros x. rewrite enqueue_waiting. set_solver. }
  apply sys_ok_become; simpl; try done.
  - by apply enqueue_ok.
  - split_and!; [done|lia|done|]. rewrite decide_False; [split; [done|]|].
    + rewrite Hmem. auto.
    + intros Hin. pose proof (ok_granted _ Hl _ Hin). simpl in *. lia.
  - intros t' Ht'. eapply activity_stable; [apply (sys_threads s Hs)|..]; simpl; try done.
    + by left.
    + lia.
    + intros x _ Hx. rewrite Hmem. auto.
  - intros x [->|Hx]%Hmem E; [eauto|]. exfalso. by apply (not_waiting s t x).
  - by intros x [->|Hx]%Hmem E.
Qed.

(** Entering [acquire], from any activity but a wait. *)
Lemma sys_ok_enter s t b to p a saved fr :
  sys_ok s → a = act (threads s t) → (∀ w' sv, a ≠ Waiting w' sv) →
  (saved = None ∨ a = Outside) →
  from_option (λ d, 1 <= d) True saved → Forall (λ f, 1 <= f.1) fr →
  let r := acquire_enter t b to p (slock s) in
  let l' := match saved, r.1 with
            | Some d, Ok Acquired => (restore_depth d r.2).2 | _, _ => r.2 end in
  sys_ok (Sys l' (set_thread t (Thread (after_enter a saved r.1) fr) (threads s))).
Proof.
  intros Hs -> Hact Hsv Hsaved Hf. simpl. pose proof (sys_lock s Hs) as Hl.
  pose proof (sys_threads s Hs t) as Ht. pose proof (not_in_wait s t Hs Hact) as Hnw.
  destruct (acquire_enter_spec t b to p (slock s)) as [o Hb Ha|Ho|Ho|w Ho Ho' ->]; simpl.
  - replace (after_enter _ _ _) with (act (threads s t))
      by (destruct o as [[]|]; simpl; by destruct (Hb w) || done).
    replace (match saved with Some _ => _ | None => _ end) with (slock s)
      by (destruct saved, o as [[]|]; done).
    apply sys_ok_become; try done; [intros; apply (sys_threads s Hs)|].
    intros w Hin E. by destruct (Hnw w).
  - pose proof (ok_depth _ Hl ltac:(congruence)). rewrite Ho.
    destruct (act (threads s t)) as [|d|w sv] eqn:E; simpl in *;
      [done| |by destruct (Hact w sv)].
    destruct Ht as [_ <-], Hsv as [-> |]; [|done].
    apply sys_ok_take; auto. simpl; lia.
  - destruct saved as [d|]; simpl; [by apply sys_ok_take; auto|].
    destruct (act (threads s t)) as [|d|w sv] eqn:E; simpl in *.
    + apply sys_ok_take; auto. simpl; lia.
    + destruct Ht. congruence.
    + by destruct (Hact w sv).
  - replace (match saved with Some _ => _ | None => _ end)
      with (enqueue (Waiter (next_wid (slock s)) t p) (slock s)) by (by destruct saved).
    by apply sys_ok_join.
Qed.

(** Releasing one level, or leaving. *)
Lemma sys_ok_release s t d :
  sys_ok s → act (threads s t) = Inside d →
  sys_ok (Sys (release t (slock s)).2
            (set_thread t (Thread (if decide (d = 1) then Outside else Inside (d - 1))
                             (frames (threads s t))) (threads s))) ∧
  is_ok (release t (slock s)).1 = true.
Proof.
  intros Hs Ea. pose proof (sys_lock s Hs) as Hl. pose proof (sys_frames s Hs t) as Hf.
  pose proof (sys_threads s Hs t) as Ht. rewrite Ea in Ht. destruct Ht as [Ho Hd].
  unfold release, mbind, M_bind, get, owned_by. rewrite bool_decide_true by done. simpl.
  split; [|done]. rewrite Hd. pose proof (ok_depth _ Hl ltac:(congruence)).
  destruct (decide (d = 1)) as [->|Hne]; simpl.
  - set (l0 := Lock _ _ _ _ _ _ _ _).
    assert (handoff l0 = handoff (slock s)) as -> by (by destruct (slock s)).
    apply sys_ok_handoff; try done. by rewrite Ea.
  - case_decide; [lia|]. rewrite Ho.
    apply sys_ok_take; auto; [lia|]. apply not_in_wait; [done|]. by rewrite Ea.
Qed.

Lemma sys_ok_save s t d :
  sys_ok s → act (threads s t) = Inside d →
  release_save t (slock s) = (Ok (d, Some t, owner_progress (slock s)), handoff (slock s)) ∧
  sys_ok (Sys (handoff (slock s))
            (set_thread t (Thread Outside ((d, owner_progress (slock s)) :: frames (threads s t)))
               (threads s))).
Proof.
  intros Hs Ea. pose proof (sys_lock s Hs) as Hl.
  pose proof (sys_threads s Hs t) as Ht. rewrite Ea in Ht. destruct Ht as [Ho Hd].
  unfold release_save, mbind, M_bind, get, owned_by. rewrite bool_decide_true by done.
  simpl. rewrite Ho, Hd. split; [done|]. apply sys_ok_handoff; try done; [by rewrite Ea|].
  constructor; [|apply (sys_frames s Hs)]. simpl. rewrite <- Hd. apply (ok_depth _ Hl). congruence.
Qed.

(** A handed-over waiter wakes up. *)
Lemma sys_ok_woken s t w saved :
  sys_ok s → act (threads s t) = Waiting w saved → w_id w ∈ granted (slock s) →
  let d := default 1 saved in
  sys_ok (Sys (restore_depth d (slock s)).2
            (set_thread t (Thread (Inside d) (frames (threads s t))) (threads s))) ∧
  (saved = None → (restore_depth 1 (slock s)).2 = slock s).
Proof.
  intros Hs Ea Hg d. pose proof (sys_lock s Hs) as Hl.
  pose proof (sys_threads s Hs t) as Ht. rewrite Ea in Ht.
  destruct Ht as (Hwo & _ & Hsv & Hw). rewrite decide_True in Hw by done.
  destruct Hw as [Ho Hd]. split.
  - unfold restore_depth, modify; simpl. rewrite Ho.
    apply (sys_ok_take s t); auto; [by destruct saved|apply (sys_frames s Hs)|].
    intros x Hx Hxt. destruct (sys_waiting s Hs x Hx) as [sv E].
    rewrite Hxt, Ea in E. simplify_eq.
    pose proof (ok_waiting _ Hl) as Hwt. rewrite Forall_forall in Hwt. by apply (Hwt x).
  - intros _. unfold restore_depth, modify. destruct (slock s). simpl in *. by subst.
Qed.

(** A waiter gives up, unless the lock was handed to it meanwhile. *)
Lemma sys_ok_timed_out s t w :
  sys_ok s → act (threads s t) = Waiting w None →
  let r := acquire_timed_out w (slock s) in
  sys_ok (Sys r.2 (set_thread t (Thread (if decide (r.1 = Ok true) then Inside 1 else Outside)
                                   (frames (threads s t))) (threads s))).
Proof.
  intros Hs Ea r. pose proof (sys_lock s Hs) as Hl.
  pose proof (sys_threads s Hs t) as Ht. rewrite Ea in Ht. destruct Ht as (Hwo & _ & _ & Hw).
  destruct (decide (w_id w ∈ granted (slock s))) as [Hg|Hg].
  - destruct (sys_ok_woken s t w None Hs Ea Hg) as [Hok Heq].
    cbv zeta in Hok. change (default 1 None) with 1 in Hok. rewrite (Heq eq_refl) in Hok.
    assert (r = (Ok true, slock s)) as ->; [|by rewrite decide_True].
    unfold r, acquire_timed_out, mbind, M_bind, get. by rewrite decide_True.
  - assert (r = (Ok false, withdraw w (slock s))) as ->.
    { unfold r, withdraw, acquire_timed_out, mbind, M_bind, get. by rewrite decide_False. }
    destruct Hw as [Ho Hin]. pose proof (withdraw_waiting w _ Hl Hg) as Hwd.
    assert (Hsame : owner (withdraw w (slock s)) = owner (slock s) ∧
              depth (withdraw w (slock s)) = depth (slock s) ∧
              granted (withdraw w (slock s)) = granted (slock s) ∧
              next_wid (withdraw w (slock s)) = next_wid (slock s)).
    { unfold withdraw, acquire_timed_out, mbind, M_bind, get. by rewrite decide_False. }
    destruct Hsame as (Hso & Hsd & Hsg & Hsn). cbn [fst snd]. rewrite decide_False by done.
    assert (Hmem : ∀ x, x ∈ waiting (withdraw w (slock s)) ↔ x ≠ w ∧ x ∈ waiting (slock s)).
    { intros x. by rewrite Hwd, list_elem_of_filter. }
    apply sys_ok_become; try done; simpl.
    + by apply withdraw_ok.
    + by rewrite Hso.
    + apply (sys_frames s Hs).
    + intros t' Ht'. eapply activity_stable; [apply (sys_threads s Hs)|..]; auto; [lia|].
      intros x Hx Hxin. apply Hmem. split; [congruence|done].
    + intros x [Hne Hx]%Hmem Hxt. destruct (sys_waiting s Hs x Hx) as [sv E].
      rewrite Hxt, Ea in E. simplify_eq.
    + by intros x [_ Hx]%Hmem.
Qed.

(** Raising releases change nothing. *)
Lemma release_unowned t l : owner l ≠ Some t →
  release t l = (Raise (RuntimeError "cannot release unowned admission lock"), l) ∧
  release_save t l = (Raise (RuntimeError "cannot release unowned admission lock"), l).
Proof.
  intros Ho. unfold release, release_save, mbind, M_bind, get, owned_by.
  by rewrite bool_decide_false.
Qed.

Lemma set_thread_same s t : sys_ok s →
  sys_ok (Sys (slock s) (set_thread t (Thread (act (threads s t)) (frames (threads s t)))
                           (threads s))).
Proof.
  intros Hs. apply sys_ok_become; try done; try apply Hs.
  - intros; apply (sys_threads s Hs).
  - intros w Hin E. destruct (sys_waiting s Hs w Hin) as [sv Ea]. rewrite E in Ea. eauto.
Qed.

Lemma sys_step_ok e s s' : sys_ok s → sys_step e s = Some s' → sys_ok s'.
Proof.
  intros Hs Hstep. unfold sys_step in Hstep.
  set (t := event_tid e) in *. pose proof (sys_frames s Hs t) as Hf.
  pose proof (sys_threads s Hs t) as Ht. pose proof (set_thread_same s t Hs) as Hsame.
  destruct (act (threads s t)) as [|d|w saved] eqn:Ea.
  - destruct e; simpl in *; try done.
    + pose proof (sys_ok_enter s t blocking timeout prog _ None _ Hs eq_refl
                    ltac:(by rewrite Ea) ltac:(by left) I Hf) as Hok.
      rewrite Ea in Hok. simpl in Hok. fold t in Hstep.
      destruct (acquire_enter _ _ _ _ _) as [o l']. by simplify_eq.
    + fold t in Hstep. destruct (release_unowned t (slock s) Ht) as [E _].
      rewrite E in Hstep. by simplify_eq/=.
    + fold t in Hstep. destruct (release_unowned t (slock s) Ht) as [_ E].
      rewrite E in Hstep. by simplify_eq/=.
    + destruct (frames (threads s t)) as [|[d p] fr] eqn:Efr; [done|].
      apply Forall_cons in Hf as [Hd Hf].
      pose proof (sys_ok_enter s t true None p Outside (Some d) fr Hs (eq_sym Ea)
                    ltac:(done) ltac:(by right) Hd Hf) as Hok.
      fold t in Hstep. destruct (acquire_enter _ _ _ _ _) as [o l']. simplify_eq. exact Hok.
  - destruct e; simpl in *; try done.
    + pose proof (sys_ok_enter s t blocking timeout prog _ None _ Hs eq_refl
                    ltac:(by rewrite Ea) ltac:(by left) I Hf) as Hok.
      rewrite Ea in Hok. simpl in Hok. fold t in Hstep.
      destruct (acquire_enter _ _ _ _ _) as [o l']. by simplify_eq.
    + fold t in Hstep. destruct (sys_ok_release s t d Hs Ea) as [Hok E].
      destruct (release t (slock s)) as [o l']. simpl in *. rewrite E in Hstep. by simplify_eq.
    + fold t in Hstep. destruct (sys_ok_save s t d Hs Ea) as [E Hok].
      rewrite E in Hstep. by simplify_eq.
  - destruct e as [| |?| | |]; simpl in *; try done.
    + destruct saved as [d|]; case_decide as Hg; simplify_eq;
        destruct (sys_ok_woken s t w _ Hs Ea Hg) as [Hok E]; [done|].
      cbv zeta in Hok. change (default 1 None) with 1 in Hok. by rewrite (E eq_refl) in Hok.
    + destruct saved; [done|]. pose proof (sys_ok_timed_out s t w Hs Ea) as Hok.
      destruct (acquire_timed_out w (slock s)) as [o l']. by simplify_eq.
Qed.

Lemma sys_init_ok : sys_ok sys_init.
Proof.
  split; simpl; [|done|by constructor|by intros w ?%not_elem_of_nil].
  split; simpl; try done; by constructor.
Qed.

Lemma run_ok es s s' : sys_ok s → run es s = Some s' → sys_ok s'.
Proof.
  revert s. induction es as [|e es IH]; intros s Hs Hr; simpl in Hr; [by simplify_eq|].
  destruct (sys_step e s) as [s1|] eqn:E; [|done]. simpl in Hr.
  by eapply IH; [eapply sys_step_ok|].
Qed.

Lemma holds_owner s t : sys_ok s → holds s t ↔ owner (slock s) = Some t.
Proof.
  intros Hs. pose proof (sys_threads s Hs t) as Ht. unfold holds.
  destruct (act (threads s t)) as [|d|w sv]; simpl in Ht; [naive_solver..|].
  destruct Ht as (_ & _ & _ & Ht). case_decide; naive_solver.
Qed.

(** ** How a step moves the queues *)

Definition queues (l : lock) : list waiter * list waiter * Z * gset wid :=
  (normal l, progress l, burst l, granted l).

Inductive moves (e : event) (s : sys) : nat → lock → Prop :=
  | move_none l' : queues l' = queues (slock s) → moves e s 0 l'
  | move_join l' w : queues l' = queues (enqueue w (slock s)) → moves e s 0 l'
  | move_leave l' w sv : e = EvTimedOut (event_tid e) →
      act (threads s (event_tid e)) = Waiting w sv → w_id w ∉ granted (slock s) →
      l' = withdraw w (slock s) → moves e s 0 l'
  | move_hand l' : queues l' = queues (handoff (slock s)) → moves e s 1 l'.

Lemma moves_enter e s b to p saved :
  let r := acquire_enter (event_tid e) b to p (slock s) in
  moves e s 0 (match saved, r.1 with
               | Some d, Ok Acquired => (restore_depth d r.2).2 | _, _ => r.2 end).
Proof.
  simpl. destruct (acquire_enter_spec (event_tid e) b to p (slock s)) as [o Hb Ha|Ho|Ho|w Ho Ho' ->];
    simpl.
  - apply move_none. by destruct saved, o as [[]|].
  - apply move_none. by destruct saved.
  - apply move_none. by destruct saved.
  - eapply move_join. by destruct saved.
Qed.

Lemma sys_step_moves e s s' :
  sys_ok s → sys_step e s = Some s' → moves e s (hands_over e s) (slock s').
Proof.
  intros Hs Hstep. unfold sys_step in Hstep. unfold hands_over.
  pose proof (sys_threads s Hs (event_tid e)) as Ht.
  destruct (act (threads s (event_tid e))) as [|d|w saved] eqn:Ea.
  - destruct e; simpl in *; rewrite ?Ea; try done.
    + pose proof (moves_enter (EvAcquire t blocking timeout prog) s blocking timeout prog None).
      simpl in *. destruct (acquire_enter _ _ _ _ _). by simplify_eq/=.
    + destruct (release_unowned t (slock s) Ht) as [E _]. rewrite E in Hstep.
      simplify_eq/=. by apply move_none.
    + destruct (release_unowned t (slock s) Ht) as [_ E]. rewrite E in Hstep.
      simplify_eq/=. by apply move_none.
    + destruct (frames (threads s t)) as [|[d p] fr]; [done|].
      pose proof (moves_enter (EvRestore t) s true None p (Some d)).
      simpl in *. destruct (acquire_enter _ _ _ _ _). by simplify_eq/=.
  - destruct e; simpl in *; rewrite ?Ea; try done.
    + pose proof (moves_enter (EvAcquire t blocking timeout prog) s blocking timeout prog None).
      simpl in *. destruct (acquire_enter _ _ _ _ _). by simplify_eq/=.
    + destruct Ht as [Ho Hd]. unfold release, mbind, M_bind, get, owned_by in Hstep.
      rewrite bool_decide_true in Hstep by done. simpl in Hstep. simplify_eq/=.
      case_decide as Hc; case_decide; try lia.
      * apply move_hand. by destruct (slock s).
      * by apply move_none.
    + destruct (sys_ok_save s t d Hs Ea) as [E _]. rewrite E in Hstep.
      simplify_eq/=. by apply move_hand.
  - destruct e as [| |?| | |]; simpl in *; rewrite ?Ea; try done.
    + destruct saved; case_decide; simplify_eq/=; by apply move_none.
    + destruct saved; [done|].
      destruct (decide (w_id w ∈ granted (slock s))) as [Hg|Hg].
      * assert (acquire_timed_out w (slock s) = (Ok true, slock s)) as E
          by (unfold acquire_timed_out, mbind, M_bind, get; by rewrite decide_True).
        rewrite E in Hstep. simplify_eq/=. by apply move_none.
      * eapply move_leave; [done|exact Ea|done|]. unfold withdraw.
        destruct (acquire_timed_out w (slock s)). by simplify_eq/=.
Qed.

(** ** Bounded overtaking *)

Fixpoint position (w : waiter) (l : list waiter) : Z :=
  match l with
  | [] => 0
  | x :: l' => if decide (x = w) then 0 else 1 + position w l'
  end.

(** The handoffs that can still go to others before [w] is served. *)
Definition credit (w : waiter) (l : lock) : Z :=
  if w_progress w
  then 2 * position w (progress l) + (if burst l <? 8 then 0 else 1)
  else 9 * position w (normal l) + (8 - Z.min 8 (burst l)).

Lemma position_nonneg w l : 0 <= position w l.
Proof. induction l; simpl; [lia|]. case_decide; lia. Qed.

Lemma position_app w l l' : w ∈ l → position w (l ++ l') = position w l.
Proof.
  induction l as [|x l IH]; [by intros ?%not_elem_of_nil|]. simpl. intros Hin.
  case_decide; [done|]. rewrite IH; [done|]. set_solver.
Qed.

Lemma position_filter w v l : v ≠ w → position w (filter (λ x, x ≠ v) l) <= position w l.
Proof.
  intros Hv. induction l as [|x l IH]; [done|]. rewrite filter_cons. simpl.
  case_decide; simpl; case_decide; try lia. naive_solver.
Qed.

Lemma credit_nonneg w l : 0 <= credit w l.
Proof.
  unfold credit. pose proof (position_nonneg w (progress l)).
  pose proof (position_nonneg w (normal l)). destruct (w_progress w), (burst l <? 8); lia.
Qed.

Lemma credit_queues w l l' : queues l = queues l' → credit w l = credit w l'.
Proof. unfold queues, credit. by intros [= -> -> -> _]. Qed.

Lemma credit_enqueue w v l : lock_ok l → w ∈ waiting l → credit w (enqueue v l) = credit w l.
Proof.
  intros Hl Hw. unfold credit, enqueue; simpl.
  pose proof (ok_normal l Hl) as Hn. pose proof (ok_progress l Hl) as Hp.
  rewrite Forall_forall in Hn, Hp.
  assert (w ∈ if w_progress w then progress l else normal l).
  { apply elem_of_app in Hw as [Hw|Hw]; [by rewrite (Hp w Hw)|by rewrite (Hn w Hw)]. }
  destruct (w_progress w), (w_progress v); try done; by rewrite position_app.
Qed.

Lemma credit_withdraw w v l : v ≠ w → w_id v ∉ granted l → credit w (withdraw v l) <= credit w l.
Proof.
  intros Hv Hg. unfold withdraw, acquire_timed_out, mbind, M_bind, get.
  rewrite decide_False by done. unfold credit; simpl.
  pose proof (position_filter w v (progress l) Hv).
  pose proof (position_filter w v (normal l) Hv).
  destruct (w_progress w), (w_progress v); lia.
Qed.

(** One handoff serves [w] or uses up a unit of its credit. *)
Lemma credit_handoff w l : lock_ok l → w ∈ waiting l →
  w_id w ∈ granted (handoff l) ∨
  (w ∈ waiting (handoff l) ∧ credit w (handoff l) + 1 <= credit w l).
Proof.
  intros Hl Hw. pose proof (ok_burst l Hl) as Hb.
  pose proof (ok_normal l Hl) as Hn. pose proof (ok_progress l Hl) as Hp.
  rewrite Forall_forall in Hn, Hp.
  assert (Hne : waiting l ≠ []) by (intros E; rewrite E in Hw; by apply not_elem_of_nil in Hw).
  unfold waiting in *. apply elem_of_app in Hw.
  destruct (handoff_grant l Hne) as [(x & ps & Hq & -> & Hpick)|(x & ns & Hq & E)].
  - unfold credit; simpl in *. rewrite Hq in *. destruct (decide (x = w)) as [->|Hx].
    { left. set_solver. }
    right. destruct Hw as [Hw|Hw].
    + rewrite (Hp w Hw). apply elem_of_cons in Hw as [->|Hw]; [done|]. simpl.
      split; [set_solver|]. rewrite decide_False by done.
      destruct (Z.ltb_spec (burst l + 1) 8), (Z.ltb_spec (burst l) 8); lia.
    + rewrite (Hn w Hw). split; [set_solver|].
      destruct Hpick as [Hpick|?]; [|lia]. rewrite Hpick in Hw. by apply not_elem_of_nil in Hw.
  - unfold credit; simpl in *. rewrite Hq in *. rewrite E; simpl.
    destruct (decide (x = w)) as [->|Hx]; [left; set_solver|].
    right. destruct Hw as [Hw|Hw].
    + rewrite (Hp w Hw). split; [set_solver|].
      destruct (Z.ltb_spec (burst l) 8); [|simpl; lia]. exfalso.
      unfold handoff, picks_progress in E. rewrite Hq in E.
      destruct (progress l) as [|y ps] eqn:Hy; [by apply not_elem_of_nil in Hw|].
      destruct (Z.ltb_spec (burst l) 8); [|lia].
      simpl in E. apply (f_equal progress) in E. simpl in E.
      by apply (f_equal length) in E; simpl in E; lia.
    + rewrite (Hn w Hw). apply elem_of_cons in Hw as [->|Hw]; [done|]. simpl.
      split; [set_solver|lia].
Qed.

(** One step keeps [w] waiting, serves it, or withdraws it at its timeout. *)
Lemma credit_step e s s' w :
  sys_ok s → w ∈ waiting (slock s) → sys_step e s = Some s' → e ≠ EvTimedOut (w_owner w) →
  w_id w ∈ granted (slock s') ∨
  (w ∈ waiting (slock s') ∧
   credit w (slock s') + Z.of_nat (hands_over e s) <= credit w (slock s)).
Proof.
  intros Hs Hw Hstep He. pose proof (sys_lock s Hs) as Hl.
  destruct (sys_step_moves e s s' Hs Hstep) as [l' Hq|l' v Hq|l' v sv Ee Ea Hg ->|l' Hq].
  - right. rewrite (credit_queues w _ _ Hq). split; [|lia].
    unfold waiting, queues in *. by simplify_eq; congruence.
  - right. rewrite (credit_queues w _ _ Hq), (credit_enqueue w v) by done. split; [|lia].
    apply (f_equal (λ q : _ * _ * _ * _, q.1.1.2 ++ q.1.1.1)) in Hq. simpl in Hq.
    change (waiting l' = waiting (enqueue v (slock s))) in Hq.
    rewrite Hq, enqueue_waiting. by right.
  - right. pose proof (sys_threads s Hs (event_tid e)) as Ht. rewrite Ea in Ht.
    assert (v ≠ w) by (intros ->; destruct Ht as (E & _); congruence).
    pose proof (credit_withdraw w v (slock s)). split; [|naive_solver lia].
    rewrite withdraw_waiting by done. by apply list_elem_of_filter.
  - rewrite (credit_queues w _ _ Hq).
    apply (f_equal (λ q : _ * _ * _ * _, (q.1.1.2 ++ q.1.1.1, q.2))) in Hq. simpl in Hq.
    change ((waiting l', granted l') = (waiting (handoff (slock s)), granted (handoff (slock s)))) in Hq.
    injection Hq as Hw' ->. rewrite Hw'. by apply credit_handoff.
Qed.

Lemma granted_step e s s' : sys_ok s → sys_step e s = Some s' →
  granted (slock s) ⊆ granted (slock s').
Proof.
  intros Hs Hstep.
  destruct (sys_step_moves e s s' Hs Hstep) as [l' Hq|l' v Hq|l' v sv Ee Ea Hg ->|l' Hq].
  - by injection Hq as _ _ _ ->.
  - by injection Hq as _ _ _ ->.
  - unfold withdraw, acquire_timed_out, mbind, M_bind, get. by rewrite decide_False.
  - injection Hq as _ _ _ ->. destruct (decide (waiting (slock s) = [])) as [Hw|Hw].
    + by rewrite handoff_idle.
    + destruct (handoff_grant _ Hw) as [(x & ps & _ & -> & _)|(x & ns & _ & ->)]; simpl; set_solver.
Qed.

Lemma granted_run es s s' : sys_ok s → run es s = Some s' →
  granted (slock s) ⊆ granted (slock s').
Proof.
  revert s. induction es as [|e es IH]; intros s Hs Hr; simpl in Hr; [by simplify_eq|].
  destruct (sys_step e s) as [s1|] eqn:E; [|done]. simpl in Hr.
  trans (granted (slock s1)); [by eapply granted_step|].
  by eapply IH; [eapply sys_step_ok|].
Qed.

Lemma overtaking es s s' w :
  sys_ok s → run es s = Some s' → w ∈ waiting (slock s) → EvTimedOut (w_owner w) ∉ es →
  w_id w ∈ granted (slock s') ∨ Z.of_nat (handoffs es s) <= credit w (slock s).
Proof.
  revert s. induction es as [|e es IH]; intros s Hs Hr Hw He; simpl in Hr.
  { right. apply credit_nonneg. }
  simpl. destruct (sys_step e s) as [s1|] eqn:E; [|done]. simpl in *.
  apply not_elem_of_cons in He as [He Hes].
  pose proof (sys_step_ok e s s1 Hs E) as Hs1.
  destruct (credit_step e s s1 w Hs Hw E) as [Hg|[Hw1 Hc]]; [congruence|..].
  - left. by apply (granted_run es s1).
  - destruct (IH s1 Hs1 Hr Hw1 Hes) as [?|?]; [by left|right; lia].
Qed.

(** ** The lock's contract *)

(** C1: in every run of acquires (blocking or not, timed or not, progress or
    not), recursive releases, wait timeouts and condition-variable saves and
    restores by any threads, at most one thread holds the admission lock, and
    it is the one the lock records as its owner. *)
Theorem mutual_exclusion es s t1 t2 :
  run es sys_init = Some s → holds s t1 → holds s t2 →
  t1 = t2 ∧ owner (slock s) = Some t1.
Proof.
  intros Hr%run_ok; [|apply sys_init_ok].
  rewrite !holds_owner by done. intros H1 H2. split; congruence.
Qed.

Definition contended : list event :=
  [EvAcquire 1 true None false; EvAcquire 1 true None false; EvAcquire 2 true None false;
   EvAcquire 3 true None true; EvSave 1; EvWoken 3; EvRestore 1; EvRelease 3].

Lemma mutual_exclusion_witness :
  let s := default sys_init (run contended sys_init) in
  (2%nat = 2%nat ∧ owner (slock s) = Some 2%nat).
Proof.
  apply (mutual_exclusion contended); [vm_compute; reflexivity|vm_compute..]; set_solver.
Defined.

(** C3: no wake-up is lost.  In every run, a thread that waits for the lock
    without having been granted it is queued behind another thread that holds
    the lock, so the release of that thread will hand the lock on. *)
Theorem no_lost_wakeup es s t w saved :
  run es sys_init = Some s → act (threads s t) = Waiting w saved →
  w_id w ∉ granted (slock s) →
  w ∈ waiting (slock s) ∧ ∃ t', t' ≠ t ∧ owner (slock s) = Some t' ∧ holds s t'.
Proof.
  intros Hr%run_ok Ha Hg; [|apply sys_init_ok].
  pose proof (sys_threads s Hr t) as Ht. rewrite Ha in Ht. simpl in Ht.
  destruct Ht as (_ & _ & _ & Ht). rewrite decide_False in Ht by done.
  destruct Ht as [Ho Hw]. split; [done|].
  destruct (owner (slock s)) as [t'|] eqn:E.
  - exists t'. rewrite holds_owner by done. split_and!; congruence.
  - destruct (ok_idle _ (sys_lock s Hr) E) as [Hq _]. rewrite Hq in Hw.
    by apply not_elem_of_nil in Hw.
Qed.

Lemma no_lost_wakeup_witness :
  let s := default sys_init (run (take 4 contended) sys_init) in
  let w := Waiter 0 2 false in
  w ∈ waiting (slock s) ∧ ∃ t', t' ≠ 2%nat ∧ owner (slock s) = Some t' ∧ holds s t'.
Proof.
  apply (no_lost_wakeup (take 4 contended) _ _ _ None);
    [vm_compute; reflexivity|vm_compute; reflexivity|vm_compute; set_solver].
Defined.

(** C2: bounded overtaking.  A thread waiting for the lock at any point of any
    run, which does not give up, is granted it once the lock has been handed
    over more than [credit] times: at most eight progress grants go ahead of
    each normal waiter in front of it (and of itself), and a progress waiter is
    overtaken by at most one normal waiter per progress grant. *)
Theorem bounded_overtaking es0 es s s' t w saved :
  run es0 sys_init = Some s → act (threads s t) = Waiting w saved →
  run es s = Some s' → EvTimedOut t ∉ es →
  credit w (slock s) < Z.of_nat (handoffs es s) →
  w_id w ∈ granted (slock s').
Proof.
  intros Hr%run_ok Ha Hes Hto Hc; [|apply sys_init_ok].
  pose proof (sys_threads s Hr t) as Ht. rewrite Ha in Ht. simpl in Ht.
  destruct Ht as (<- & _ & _ & Ht). case_decide as Hg.
  - by apply (granted_run es s).
  - destruct Ht as [_ Hw]. destruct (overtaking es s s' w) as [?|?]; try done. lia.
Qed.

Definition crowd : list event :=
  EvAcquire 1 true None false :: EvAcquire 2 true None false ::
  ((λ i, EvAcquire i true None true) <$> seq 3 9).

Definition crowd_releases : list event :=
  EvRelease 1 :: mjoin ((λ i, [EvWoken i; EvRelease i]) <$> seq 3 8).

Lemma bounded_overtaking_witness :
  let s := default sys_init (run crowd sys_init) in
  let s' := default sys_init (run crowd_releases s) in
  0%nat ∈ granted (slock s').
Proof.
  apply (bounded_overtaking crowd crowd_releases (default sys_init (run crowd sys_init)) _
           2 (Waiter 0 2 false) None);
    [vm_compute; reflexivity|vm_compute; reflexivity|vm_compute; reflexivity
    |unfold crowd_releases; simpl; set_solver|vm_compute; reflexivity].
Defined.
