(* ===== verification/SingleFlight.v ===== *)
(** * Shared kernel observations (src/clawbox/experiments/admission.py)

    [DemandLedger.sample_concurrently] lets concurrent callers with the same
    key share one in-flight sample.  [join], [publish] and [leave] are its
    blocks under [_sample_guard] and the completion of the [Future]; threads
    run them in any interleaving.  The results are shared, never cached. *)
From S2P Require Import Prelude.

Section single_flight.
Context {K : Type} `{Countable K} {V : Type}.

Definition thread_id := nat.
Definition future := nat.

Record flights := Flights {
  sample_futures : gmap K future;
  results : gmap future (outcome V);   (** the futures that are done *)
  next_future : future;
  leader_count : Z;
  follower_count : Z;
}.

(** The block under [_sample_guard] that opens the call. *)
Definition join (k : K) (s : flights) : (future * bool) * flights :=
  match sample_futures s !! k with
  | Some f => ((f, false), Flights (sample_futures s) (results s) (next_future s)
                             (leader_count s) (follower_count s + 1))
  | None => ((next_future s, true),
             Flights (<[k := next_future s]> (sample_futures s)) (results s) (S (next_future s))
               (leader_count s + 1) (follower_count s))
  end.

(** [future.set_result(sample())], or [set_exception]. *)
Definition publish (f : future) (v : outcome V) (s : flights) : flights :=
  Flights (sample_futures s) (<[f := v]> (results s)) (next_future s)
    (leader_count s) (follower_count s).

(** The leader's [finally] block. *)
Definition leave (k : K) (f : future) (s : flights) : flights :=
  Flights (if decide (sample_futures s !! k = Some f) then delete k (sample_futures s)
           else sample_futures s)
    (results s) (next_future s) (leader_count s) (follower_count s).

(** Where a thread stands inside [sample_concurrently]. *)
Inductive phase :=
  | Idle
  | Sampling (k : K) (f : future)     (** leader, [sample()] running *)
  | Publishing (k : K) (f : future)   (** leader, before its [finally] block *)
  | Following (k : K) (f : future)    (** in [future.result()] *)
  | Returned (v : outcome V).

Record system := System { flight : flights; phases : thread_id → phase }.

Definition set_phase (t : thread_id) (p : phase) (f : thread_id → phase) : thread_id → phase :=
  λ t', if decide (t' = t) then p else f t'.

Inductive flight_event :=
  | Join (t : thread_id) (k : K)
  | Sampled (t : thread_id) (v : outcome V)
  | Leave (t : thread_id)
  | Take (t : thread_id).

(** One block of one thread; [None] when it is elsewhere or must wait. *)
Definition flight_step (e : flight_event) (s : system) : option system :=
  match e with
  | Join t k =>
      match phases s t with
      | Idle | Returned _ =>
          let '((f, leader), fl) := join k (flight s) in
          Some (System fl (set_phase t (if leader then Sampling k f else Following k f) (phases s)))
      | _ => None
      end
  | Sampled t v =>
      match phases s t with
      | Sampling k f =>
          Some (System (publish f v (flight s)) (set_phase t (Publishing k f) (phases s)))
      | _ => None
      end
  | Leave t =>
      match phases s t with
      | Publishing k f =>
          v ← results (flight s) !! f;
          Some (System (leave k f (flight s)) (set_phase t (Returned v) (phases s)))
      | _ => None
      end
  | Take t =>
      match phases s t with
      | Following k f =>
          v ← results (flight s) !! f;
          Some (System (flight s) (set_phase t (Returned v) (phases s)))
      | _ => None
      end
  end.

Definition flight_init : system := System (Flights ∅ ∅ 0%nat 0 0) (λ _, Idle).

Fixpoint flight_run (es : list flight_event) (s : system) : option system :=
  match es with
  | [] => Some s
  | e :: es' => s' ← flight_step e s; flight_run es' s'
  end.

(** The future a leader is responsible for. *)
Definition leads (p : phase) (k : K) (f : future) : Prop :=
  p = Sampling k f ∨ p = Publishing k f.

Record flights_ok (s : system) : Prop := FlightsOk {
  fl_leader : ∀ t k f, leads (phases s t) k f → sample_futures (flight s) !! k = Some f;
  fl_future : ∀ k f, sample_futures (flight s) !! k = Some f → ∃ t, leads (phases s t) k f;
  fl_unique : ∀ t t' k k' f, leads (phases s t) k f → leads (phases s t') k' f → t = t' ∧ k = k';
  fl_fresh : ∀ k f, sample_futures (flight s) !! k = Some f → (f < next_future (flight s))%nat;
  fl_results : ∀ f, is_Some (results (flight s) !! f) → (f < next_future (flight s))%nat;
  fl_sampling : ∀ t k f, phases s t = Sampling k f → results (flight s) !! f = None;
  fl_publishing : ∀ t k f, phases s t = Publishing k f → is_Some (results (flight s) !! f);
  fl_following : ∀ t k f, phases s t = Following k f →
    is_Some (results (flight s) !! f) ∨ ∃ t', phases s t' = Sampling k f;
}.

Lemma leads_set t t' p ps k f :
  leads (set_phase t p ps t') k f ↔ (t' = t ∧ leads p k f) ∨ (t' ≠ t ∧ leads (ps t') k f).
Proof. unfold set_phase. case_decide; naive_solver. Qed.

Lemma phase_set t t' p q (ps : thread_id → phase) :
  set_phase t p ps t' = q ↔ (t' = t ∧ p = q) ∨ (t' ≠ t ∧ ps t' = q).
Proof. unfold set_phase. case_decide; naive_solver. Qed.

Lemma join_ok t k s s' : flights_ok s → flight_step (Join t k) s = Some s' → flights_ok s'.
Proof.
  intros Hs E. simpl in E.
  assert (∀ k f, ¬ leads (phases s t) k f) as Hnl by (unfold leads; destruct (phases s t); naive_solver).
  assert (∀ k f, phases s t ≠ Sampling k f) as Hns by (destruct (phases s t); naive_solver).
  assert (s' = let '((f, leader), fl) := join k (flight s) in
    System fl (set_phase t (if leader then Sampling k f else Following k f) (phases s))) as ->
    by (destruct (phases s t); simplify_eq; by destruct (join k (flight s)) as [[??]?]; simplify_eq).
  clear E. destruct Hs as [H1 H2 H3 H4 H5 H6 H7 H8]. unfold join.
  destruct (sample_futures (flight s) !! k) as [f|] eqn:Ek.
  - split; simpl; try done.
    + intros t' k' f' [[_ [?|?]]|[_ Hl]]%leads_set; [done..|eauto].
    + intros k' f' E. destruct (H2 k' f' E) as [t' Ht']. exists t'. apply leads_set.
      right. split; [|done]. intros ->. by destruct (Hnl k' f').
    + intros t1 t2 k1 k2 f' [[_ [?|?]]|[_ ?]]%leads_set [[_ [?|?]]|[_ ?]]%leads_set; try done. eauto.
    + intros t' k' f' [[_ ?]|[_ ?]]%phase_set; [done|eauto].
    + intros t' k' f' [[_ ?]|[_ ?]]%phase_set; [done|eauto].
    + assert (∀ k' f', (∃ t', phases s t' = Sampling k' f') →
        ∃ t', set_phase t (Following k f) (phases s) t' = Sampling k' f') as Hkeep.
      { intros k' f' [t' E]. exists t'. apply phase_set. right. split; [|done].
        intros ->. by destruct (Hns k' f'). }
      intros t' k' f' [[_ E]|[_ E]]%phase_set.
      * simplify_eq. destruct (H2 k' f' Ek) as [t1 [E|E]]; [right; apply Hkeep; eauto|left; eauto].
      * destruct (H8 _ _ _ E); auto.
  - set (f := next_future (flight s)) in *. split; simpl.
    + intros t' k' f' [[_ [?|?]]|[Ht Hl]]%leads_set; simplify_eq.
      * apply lookup_insert_eq.
      * rewrite lookup_insert_ne; [eauto|]. intros ->. apply H1 in Hl. congruence.
    + intros k' f' [[<- <-]|[Hk E]]%lookup_insert_Some.
      * exists t. apply leads_set. left. split; [done|by left].
      * destruct (H2 k' f' E) as [t' Ht']. exists t'. apply leads_set. right.
        split; [|done]. intros ->. by destruct (Hnl k' f').
    + intros t1 t2 k1 k2 f' [[-> [?|?]]|[_ L1]]%leads_set [[-> [?|?]]|[_ L2]]%leads_set;
        simplify_eq; try done; [..|eauto].
      * apply H1, H4 in L2. lia.
      * apply H1, H4 in L1. lia.
    + intros k' f' [[<- <-]|[Hk E]]%lookup_insert_Some; [lia|]. specialize (H4 _ _ E). lia.
    + intros f' E. specialize (H5 f' E). lia.
    + intros t' k' f' [[_ ?]|[_ ?]]%phase_set; [simplify_eq|eauto].
      apply eq_None_not_Some. intros E%H5. lia.
    + intros t' k' f' [[_ ?]|[_ ?]]%phase_set; [done|eauto].
    + intros t' k' f' [[_ ?]|[_ E]]%phase_set; [done|].
      destruct (H8 _ _ _ E) as [?|[t1 E1]]; [by left|right]. exists t1.
      apply phase_set. right. split; [|done]. intros ->. by destruct (Hns k' f').
Qed.

Lemma sampled_ok t v s s' : flights_ok s → flight_step (Sampled t v) s = Some s' → flights_ok s'.
Proof.
  intros Hs E. simpl in E. destruct (phases s t) as [|k f| | |] eqn:Et; simplify_eq.
  destruct Hs as [H1 H2 H3 H4 H5 H6 H7 H8].
  assert (Hf : sample_futures (flight s) !! k = Some f) by (apply (H1 t); by left).
  assert (Hlead : ∀ t' k' f', leads (set_phase t (Publishing k f) (phases s) t') k' f' ↔
                              leads (phases s t') k' f').
  { intros t' k' f'. rewrite leads_set. unfold leads.
    destruct (decide (t' = t)) as [->|]; [rewrite Et|by intuition].
    split; [intros [[_ [?|?]]|[? _]]|intros [?|?]]; simplify_eq; auto. }
  split; simpl.
  - intros t' k' f' Hl%Hlead. eauto.
  - intros k' f' E. destruct (H2 k' f' E) as [t' Ht']. exists t'. by apply Hlead.
  - intros t1 t2 k1 k2 f' L1%Hlead L2%Hlead. eauto.
  - done.
  - intros f' Hf'. destruct (decide (f = f')) as [->|]; [eauto|].
    rewrite lookup_insert_ne in Hf' by done. eauto.
  - intros t' k' f' [[_ ?]|[Ht' E]]%phase_set; [done|].
    rewrite lookup_insert_ne; [eauto|]. intros ->.
    destruct (H3 t t' k k' f'); [by left..|]. congruence.
  - intros t' k' f' [[_ ?]|[Ht' E]]%phase_set; simplify_eq; [rewrite lookup_insert_eq; eauto|].
    destruct (decide (f = f')) as [->|]; [rewrite lookup_insert_eq; eauto|].
    rewrite lookup_insert_ne by done. eauto.
  - intros t' k' f' [[_ ?]|[Ht' E]]%phase_set; [done|].
    destruct (decide (f = f')) as [->|]; [left; rewrite lookup_insert_eq; eauto|].
    rewrite lookup_insert_ne by done.
    destruct (H8 _ _ _ E) as [?|[t1 E1]]; [by left|right]. exists t1.
    apply phase_set. right. split; [|done]. intros ->. congruence.
Qed.

Lemma leave_ok t s s' : flights_ok s → flight_step (Leave t) s = Some s' → flights_ok s'.
Proof.
  intros Hs E. simpl in E. destruct (phases s t) as [| |k f| |] eqn:Et; simplify_eq.
  destruct (results (flight s) !! f) as [v|] eqn:Ef; simplify_eq/=.
  destruct Hs as [H1 H2 H3 H4 H5 H6 H7 H8].
  assert (Hlt : leads (phases s t) k f) by by right.
  assert (Hf : sample_futures (flight s) !! k = Some f) by eauto.
  unfold leave. rewrite decide_True by done.
  assert (Hlead : ∀ t' k' f', leads (set_phase t (Returned v) (phases s) t') k' f' ↔
                              t' ≠ t ∧ leads (phases s t') k' f').
  { intros t' k' f'. rewrite leads_set. unfold leads. intuition done. }
  split; simpl; try done.
  - intros t' k' f' [Ht' Hl]%Hlead. rewrite lookup_delete_ne; [eauto|]. intros ->.
    pose proof (H1 _ _ _ Hl). simplify_eq. by destruct (H3 _ _ _ _ _ Hlt Hl).
  - intros k' f' [Hk E]%lookup_delete_Some. destruct (H2 k' f' E) as [t' Ht']. exists t'.
    apply Hlead. split; [|done]. intros ->. apply Hk.
    pose proof (H1 _ _ _ Ht'). destruct Ht' as [E'|E']; congruence.
  - intros t1 t2 k1 k2 f' [_ L1]%Hlead [_ L2]%Hlead. eauto.
  - intros k' f' [_ E]%lookup_delete_Some. eauto.
  - intros t' k' f' [[_ ?]|[_ E]]%phase_set; [done|eauto].
  - intros t' k' f' [[_ ?]|[_ E]]%phase_set; [done|eauto].
  - intros t' k' f' [[_ ?]|[_ E]]%phase_set; [done|].
    destruct (H8 _ _ _ E) as [?|[t1 E1]]; [by left|right]. exists t1.
    apply phase_set. right. split; [|done]. intros ->. congruence.
Qed.

Lemma take_ok t s s' : flights_ok s → flight_step (Take t) s = Some s' → flights_ok s'.
Proof.
  intros Hs E. simpl in E. destruct (phases s t) as [| | |k f|] eqn:Et; simplify_eq.
  destruct (results (flight s) !! f) as [v|] eqn:Ef; simplify_eq/=.
  destruct Hs as [H1 H2 H3 H4 H5 H6 H7 H8].
  assert (Hlead : ∀ t' k' f', leads (set_phase t (Returned v) (phases s) t') k' f' ↔
                              leads (phases s t') k' f').
  { intros t' k' f'. rewrite leads_set. unfold leads.
    destruct (decide (t' = t)) as [->|]; [rewrite Et|]; intuition done. }
  split; simpl; try done.
  - intros t' k' f' Hl%Hlead. eauto.
  - intros k' f' E. destruct (H2 k' f' E) as [t' Ht']. exists t'. by apply Hlead.
  - intros t1 t2 k1 k2 f' L1%Hlead L2%Hlead. eauto.
  - intros t' k' f' [[_ ?]|[_ E]]%phase_set; [done|eauto].
  - intros t' k' f' [[_ ?]|[_ E]]%phase_set; [done|eauto].
  - intros t' k' f' [[_ ?]|[_ E]]%phase_set; [done|].
    destruct (H8 _ _ _ E) as [?|[t1 E1]]; [by left|right]. exists t1.
    apply phase_set. right. split; [|done]. intros ->. congruence.
Qed.

Lemma flight_step_ok e s s' : flights_ok s → flight_step e s = Some s' → flights_ok s'.
Proof. destruct e; [apply join_ok|apply sampled_ok|apply leave_ok|apply take_ok]. Qed.

Lemma flight_run_ok es s s' : flights_ok s → flight_run es s = Some s' → flights_ok s'.
Proof.
  revert s. induction es as [|e es IH]; intros s Hs Hr; simpl in Hr; [by simplify_eq|].
  destruct (flight_step e s) as [s1|] eqn:E; [|done]. simpl in Hr.
  by eapply IH; [eapply flight_step_ok|].
Qed.

Lemma flight_init_ok : flights_ok flight_init.
Proof.
  split; try done.
  - by intros t k f [?|?].
  - by intros t t' k k' f [?|?].
  - intros f. cbn [flight_init flight results]. rewrite lookup_empty. by intros [v E].
Qed.

(** Concurrent samples are shared, single-flight and never stale.  In
    every interleaving of calls with any keys, at most one caller per key is
    sampling or still inside the call that sampled; a caller that shares a
    future joined it while that leader was inside its call; and every follower
    still waiting has its result already or a leader that is sampling, so no
    follower is orphaned. *)
Theorem shared_sample_single_flight es s :
  flight_run es flight_init = Some s →
  (∀ t t' k f f', leads (phases s t) k f → leads (phases s t') k f' → t = t' ∧ f = f') ∧
  (∀ t k f s', flight_step (Join t k) s = Some s' → phases s' t = Following k f →
     ∃ t', leads (phases s t') k f) ∧
  (∀ t k f, phases s t = Following k f →
     is_Some (results (flight s) !! f) ∨ ∃ t', phases s t' = Sampling k f).
Proof.
  intros Hr%flight_run_ok; [|apply flight_init_ok]. split_and!.
  - intros t t' k f f' L1 L2. pose proof (fl_leader s Hr _ _ _ L1) as E1.
    pose proof (fl_leader s Hr _ _ _ L2) as E2. simplify_eq.
    split; [|done]. by destruct (fl_unique s Hr _ _ _ _ _ L1 L2).
  - intros t k f s' E Hf. simpl in E. unfold join in E.
    destruct (sample_futures (flight s) !! k) as [f'|] eqn:Ek;
      destruct (phases s t); simplify_eq/=; apply phase_set in Hf as [[_ ?]|[? _]]; simplify_eq;
      by apply (fl_future s Hr).
  - apply (fl_following s Hr).
Qed.
End single_flight.

Definition shared_calls : list (flight_event (K := string) (V := Z)) :=
  [Join 1%nat "memory"; Join 2%nat "memory"; Sampled 1%nat (Ok 5); Leave 1%nat;
   Join 3%nat "memory"; Take 2%nat].

Lemma shared_sample_single_flight_witness :
  let s := default flight_init (flight_run shared_calls flight_init) in
  (∀ t t' k f f', leads (phases s t) k f → leads (phases s t') k f' → t = t' ∧ f = f') ∧
  (∀ t k f s', flight_step (Join t k) s = Some s' → phases s' t = Following k f →
     ∃ t', leads (phases s t') k f) ∧
  (∀ t k f, phases s t = Following k f →
     is_Some (results (flight s) !! f) ∨ ∃ t', phases s t' = Sampling k f).
Proof.
  apply (shared_sample_single_flight shared_calls). vm_compute. reflexivity.
Defined.
