(* ===== verification/DemandLedger.v ===== *)
(** * The demand ledger (src/clawbox/experiments/admission.py)

    [DemandLedger] books the memory growth that admitted work may still cause.
    A claim is nominal until a probe of its VM's cgroup shows how much of it
    has been consumed.  The probes are the kernel's: a reading is an argument
    [rd] of the definitions that take one, and may raise.  [Claim] objects
    carry an identity because the code compares them with [is]. *)
From S2P Require Import Prelude Dict.

Definition key : Type := string * string.
Definition probe := nat.
Definition readings := probe → outcome (Z * Z).

Record claim := Claim {
  c_id : nat;
  c_scope : string;
  c_amount : Z;
  c_local : Z;
  c_sample : option probe;
  c_baseline : Z * Z;
}.

#[export] Instance claim_eq_dec : EqDecision claim.
Proof. solve_decision. Defined.

(** [Claim.remaining] *)
Definition remaining (rd : readings) (c : claim) : outcome (Z * Z) :=
  match c_sample c with
  | None => Ok (c_amount c, c_local c)
  | Some p =>
      '(total, loc) ← rd p;
      Ok (Z.max 0 (c_amount c - Z.max 0 (total - (c_baseline c).1)),
          Z.max 0 (c_local c - Z.max 0 (loc - (c_baseline c).2)))
  end.

(** One observation: per key the claim object, its frozen copy and the value. *)
Definition measured : Type := dict key (claim * claim * outcome (Z * Z)).

Record ledger := Ledger {
  capacity : Z;
  free_floor : Z;
  margin : Z;
  exit_ratio : Q;
  has_cgroup : bool;
  congested : bool;
  last_severe_at : option Q;
  sample_severe : bool;
  previous : option (Q * Z * Z * option Z);
  claims : dict key claim;
  pending_amount : Z;
  pending_local_by_scope : gmap string Z;
  pending_exact_count : Z;
  exact_sample_future : option nat;
  last_pending_observation : option (Q * Q * measured);
  next_id : nat;
}.

(** [DemandLedger.__init__] *)
Definition init (cap floor marg : Z) (cgroup : bool) (exit : Q) : outcome ledger :=
  if cap <=? 0 then Raise (ValueError "physical demand capacity must be positive")
  else Ok (Ledger cap floor marg exit cgroup false None false None ∅ 0 ∅ 0 None None 0).

Definition with_claims (cs : dict key claim) (l : ledger) : ledger :=
  Ledger (capacity l) (free_floor l) (margin l) (exit_ratio l) (has_cgroup l) (congested l)
    (last_severe_at l) (sample_severe l) (previous l) cs (pending_amount l)
    (pending_local_by_scope l) (pending_exact_count l) (exact_sample_future l)
    (last_pending_observation l) (next_id l).

Definition with_bound (a : Z) (by_scope : gmap string Z) (l : ledger) : ledger :=
  Ledger (capacity l) (free_floor l) (margin l) (exit_ratio l) (has_cgroup l) (congested l)
    (last_severe_at l) (sample_severe l) (previous l) (claims l) a by_scope
    (pending_exact_count l) (exact_sample_future l) (last_pending_observation l) (next_id l).

Definition with_observation (n : Z) (f : option nat) (o : option (Q * Q * measured)) (i : nat)
    (l : ledger) : ledger :=
  Ledger (capacity l) (free_floor l) (margin l) (exit_ratio l) (has_cgroup l) (congested l)
    (last_severe_at l) (sample_severe l) (previous l) (claims l) (pending_amount l)
    (pending_local_by_scope l) n f o i.

Definition with_congestion (c : bool) (at_ : option Q) (l : ledger) : ledger :=
  Ledger (capacity l) (free_floor l) (margin l) (exit_ratio l) (has_cgroup l) c at_
    (sample_severe l) (previous l) (claims l) (pending_amount l) (pending_local_by_scope l)
    (pending_exact_count l) (exact_sample_future l) (last_pending_observation l) (next_id l).

Definition with_severe (sv : bool) (prev : option (Q * Z * Z * option Z)) (l : ledger) : ledger :=
  Ledger (capacity l) (free_floor l) (margin l) (exit_ratio l) (has_cgroup l) (congested l)
    (last_severe_at l) sv prev (claims l) (pending_amount l) (pending_local_by_scope l)
    (pending_exact_count l) (exact_sample_future l) (last_pending_observation l) (next_id l).

(** ** The nominal bound *)

(** [pending_upper_bound] *)
Definition pending_upper_bound (scope : option string) (l : ledger) : Z :=
  match scope with
  | None => pending_amount l
  | Some s => default 0 (pending_local_by_scope l !! s)
  end.

(** [_adjust_pending_upper_bound]: the amount is already written when the
    underflow is noticed. *)
Definition adjust_pending_upper_bound (scope : string) (amount_delta local_delta : Z) : M ledger unit :=
  l ← get;
  let a := pending_amount l + amount_delta in
  let scoped := default 0 (pending_local_by_scope l !! scope) + local_delta in
  put (with_bound a (pending_local_by_scope l) l) ;;
  raise_if ((a <? 0) || (scoped <? 0))
    (RuntimeError "demand upper-bound accounting underflow") ;;
  put (with_bound a (if scoped =? 0 then delete scope (pending_local_by_scope l)
                     else <[scope:=scoped]> (pending_local_by_scope l)) l).

(** ** Mutations *)

(** [add] *)
Definition add (rd : readings) (k : key) (scope : string) (amount local_amount : Z)
    (sample : option probe) : M ledger unit :=
  l ← get;
  raise_if (bool_decide (is_Some (claims l !! k))) (RuntimeError "duplicate demand claim") ;;
  baseline ← lift (match sample with Some p => rd p | None => Ok (0, 0) end);
  put (with_observation (pending_exact_count l) (exact_sample_future l)
         (last_pending_observation l) (S (next_id l))
         (with_claims (<[k := Claim (next_id l) scope amount local_amount sample baseline]>
                         (claims l)) l)) ;;
  adjust_pending_upper_bound scope amount local_amount.

Definition grown (c : claim) (amount local_amount : Z) : claim :=
  Claim (c_id c) (c_scope c) (c_amount c + amount) (c_local c + local_amount)
    (c_sample c) (c_baseline c).

(** [extend] *)
Definition extend (k : key) (amount local_amount : Z) : M ledger unit :=
  l ← get;
  match claims l !! k with
  | None => raise (RuntimeError "missing demand claim")
  | Some c =>
      put (with_claims (<[k := grown c amount local_amount]> (claims l)) l) ;;
      adjust_pending_upper_bound (c_scope c) amount local_amount
  end.

(** [release_amount], the closing [notify_all] apart. *)
Definition release_amount (k : key) (amount local_amount : Z) : M ledger unit :=
  l ← get;
  match claims l !! k with
  | None => raise (RuntimeError "missing demand claim")
  | Some c =>
      raise_if ((amount <? 0) || (local_amount <? 0))
        (ValueError "released demand must not be negative") ;;
      raise_if ((c_amount c <? amount) || (c_local c <? local_amount))
        (RuntimeError "demand release exceeds claim") ;;
      adjust_pending_upper_bound (c_scope c) (- amount) (- local_amount) ;;
      let c' := grown c (- amount) (- local_amount) in
      modify (λ l, with_claims (if (c_amount c' =? 0) && (c_local c' =? 0)
                                then delete k (claims l)
                                else <[k := c']> (claims l)) l)
  end.

(** [release] *)
Definition release (k : key) : M ledger unit :=
  l ← get;
  match claims l !! k with
  | None => mret tt
  | Some c =>
      put (with_claims (delete k (claims l)) l) ;;
      adjust_pending_upper_bound (c_scope c) (- c_amount c) (- c_local c)
  end.

(** [rebase] *)
Definition rebase (rd : readings) (k : key) : M ledger unit :=
  l ← get;
  match claims l !! k with
  | Some c =>
      match c_sample c with
      | Some p =>
          b ← lift (rd p);
          put (with_claims (<[k := Claim (c_id c) (c_scope c) (c_amount c) (c_local c)
                                     (c_sample c) b]> (claims l)) l)
      | None => mret tt
      end
  | None => mret tt
  end.

(** ** Exact pending demand *)

Definition in_scope (scope : option string) (c : claim) : bool :=
  match scope with None => true | Some s => bool_decide (c_scope c = s) end.

(** [pending]: the first probe to raise ends the sum. *)
Fixpoint sum_remaining (rd : readings) (scope : option string) (cs : list (key * claim)) : outcome Z :=
  match cs with
  | [] => Ok 0
  | (_, c) :: cs' =>
      if in_scope scope c then
        r ← remaining rd c;
        rest ← sum_remaining rd scope cs';
        Ok ((if scope then r.2 else r.1) + rest)
      else sum_remaining rd scope cs'
  end.

Definition pending (rd : readings) (scope : option string) : M ledger Z :=
  modify (λ l, with_observation (pending_exact_count l + 1) (exact_sample_future l)
                 (last_pending_observation l) (next_id l) l) ;;
  l ← get;
  lift (sum_remaining rd scope (claims l)).

(** Every claim with a frozen copy of itself. *)
Definition freeze (cs : dict key claim) : dict key (claim * claim) :=
  (λ kc : key * claim, (kc.1, (kc.2, kc.2))) <$> (cs : list _).

(** [_start_pending_observation_locked] *)
Definition start_pending_observation : M ledger (nat * bool * option (dict key (claim * claim))) :=
  l ← get;
  match exact_sample_future l with
  | Some f =>
      put (with_observation (pending_exact_count l + 1) (Some f)
             (last_pending_observation l) (next_id l) l) ;;
      mret (f, false, None)
  | None =>
      put (with_observation (pending_exact_count l + 1) (Some (next_id l))
             (last_pending_observation l) (S (next_id l)) l) ;;
      mret (next_id l, true, Some (freeze (claims l)))
  end.

(** The leader's half of [_read_pending_observation]: [frozen.remaining()] for
    every claim of the snapshot, an exception kept as a value. *)
Definition measure (rd : readings) (snapshot : dict key (claim * claim)) : measured :=
  (λ kc : key * (claim * claim), (kc.1, (kc.2.1, kc.2.2, remaining rd kc.2.2))) <$> (snapshot : list _).

(** Publishing it, and dropping the future once the leader is done. *)
Definition publish_observation (started ended : Q) (m : measured) : M ledger unit :=
  modify (λ l, with_observation (pending_exact_count l) (exact_sample_future l)
                 (Some (started, ended, m)) (next_id l) l).
Definition finish_observation (f : nat) : M ledger unit :=
  modify (λ l, with_observation (pending_exact_count l)
                 (if decide (exact_sample_future l = Some f) then None else exact_sample_future l)
                 (last_pending_observation l) (next_id l) l).

(** An observation still describes a claim: same object, same baseline, same
    probe. *)
Definition describes (s : claim * claim * outcome (Z * Z)) (c : claim) : bool :=
  bool_decide (c_id s.1.1 = c_id c) && bool_decide (c_baseline s.1.2 = c_baseline c)
  && bool_decide (c_sample s.1.2 = c_sample c).

(** What is left of a claim according to an observation. *)
Definition reconciled (m : measured) (k : key) (c : claim) : outcome (Z * Z) :=
  match m !! k with
  | Some (c0, frozen, value) =>
      if describes (c0, frozen, value) c then
        v ← value;
        Ok (Z.max 0 (c_amount c - (c_amount frozen - v.1)),
            Z.max 0 (c_local c - (c_local frozen - v.2)))
      else Ok (c_amount c, c_local c)
  | None => Ok (c_amount c, c_local c)
  end.

(** [pending_from_observation_locked] *)
Fixpoint reconcile (scope : string) (m : measured) (cs : list (key * claim)) : outcome (Z * Z) :=
  match cs with
  | [] => Ok (0, 0)
  | (k, c) :: cs' =>
      r ← reconciled m k c;
      rest ← reconcile scope m cs';
      Ok (r.1 + rest.1, (if decide (c_scope c = scope) then r.2 else 0) + rest.2)
  end.

Definition pending_from_observation (scope : string) (m : measured) (l : ledger) : outcome (Z * Z) :=
  reconcile scope m (claims l).

(** [pending_breakdown_without_condition], split at the point where the
    admission lock is dropped: [between] is whatever other threads do to the
    ledger while the claims are measured, [shared] the observation a follower
    gets from the leader it joined. *)
Definition pending_breakdown (rd : readings) (scope : string) (started ended : Q)
    (between : ledger → ledger) (shared : measured) : M ledger (Z * Z) :=
  start ← start_pending_observation;
  let '(f, _, snapshot) := start in
  modify between ;;
  m ← match snapshot with
      | Some sn => publish_observation started ended (measure rd sn) ;;
                   finish_observation f ;; mret (measure rd sn)
      | None => mret shared
      end;
  l ← get;
  lift (pending_from_observation scope m l).

(** [pending_evidence]: what a report may say about a scope's outstanding
    demand without probing a VM. *)
Inductive evidence_kind := CachedAdmissionObservation | UnconsumedReservations | NoActiveClaims.

Record evidence := Evidence {
  outstanding_bytes : option Z;
  outstanding_kind : evidence_kind;
  nominal_upper_bound : Z;
  observed_claims : nat;
  total_claims : nat;
  observation_times : option (Q * Q * Q);   (** start, end, age *)
}.

(** A claim's contribution: [None] when no observation covers it. *)
Definition evidence_of (m : option measured) (k : key) (c : claim) : option Z :=
  match c_sample c with
  | None => Some (c_local c)
  | Some _ =>
      match (m ≫= λ m : measured, m !! k) with
      | Some (c0, frozen, Ok v) =>
          if describes (c0, frozen, Ok v) c
          then Some (Z.max 0 (c_local c - (c_local frozen - v.2))) else None
      | _ => None
      end
  end.

Definition probed (c : claim) : bool := bool_decide (is_Some (c_sample c)).

Definition pending_evidence (scope : string) (now : Q) (l : ledger) : evidence :=
  let cs := filter (λ kc : key * claim, c_scope kc.2 = scope) (claims l : list _) in
  let obs := last_pending_observation l in
  let found := omap (λ kc : key * claim, evidence_of (snd <$> obs) kc.1 kc.2) cs in
  let any_probed := existsb (λ kc : key * claim, probed kc.2) cs in
  Evidence
    (if decide (length found = length cs) then Some (zsum found) else None)
    (if any_probed then CachedAdmissionObservation
     else if decide (cs = []) then NoActiveClaims else UnconsumedReservations)
    (pending_upper_bound (Some scope) l) (length found) (length cs)
    (if any_probed
     then (λ o : Q * Q * measured, (o.1.1, o.1.2, Qmax 0 (now - o.1.1))) <$> obs else None).

(** ** Admission reasons *)

Inductive reason := GlobalMemoryBudget | SustainedMemoryCongestion | HostFreeFloor.
#[export] Instance reason_eq_dec : EqDecision reason.
Proof. solve_decision. Defined.

(** What one call of [reasons] reads: the two clock reads of [_severe], the
    counters of [memory.stat] and [memory.pressure], and the clock read that
    times the congestion. *)
Record kernel := Kernel {
  at_entry : Q;
  at_stats : Q;
  k_stats : gmap string Z;
  k_psi : option Z;
  at_decision : Q;
}.

(** [_severe] *)
Definition severe (page_size : Z) (k : kernel) (used : Z) : M ledger bool :=
  l ← get;
  if negb (has_cgroup l) then mret false
  else
    let recent (now : Q) := match previous l with
                            | Some (t, _, _, _) => Qltb (now - t) (1 # 10) | None => false end in
    if recent (at_entry k) then mret (sample_severe l)
    else
      let scan := default 0 (k_stats k !! "pgscan") in
      let steal := default 0 (k_stats k !! "pgsteal") in
      match previous l with
      | None => put (with_severe (sample_severe l) (Some (at_stats k, scan, steal, k_psi k)) l) ;; mret false
      | Some (t0, scan0, steal0, psi0) =>
          if recent (at_stats k) then mret (sample_severe l)
          else
            let dt := (at_stats k - t0)%Q in
            let scanned := scan - scan0 in
            let stolen := steal - steal0 in
            let stalled := match k_psi k, psi0 with
                           | Some p, Some p0 => Qle_bool (1 # 10) (inject_Z (p - p0) / 1000000 / dt)
                           | _, _ => false end in
            let inefficient := (0 <? scanned)
              && Qle_bool (inject_Z (64 * 1024 ^ 2)) (inject_Z (scanned * page_size) / dt)
              && Qltb (inject_Z stolen / inject_Z scanned) (1 # 10) in
            let sv := Qle_bool ((9 # 10) * inject_Z (capacity l)) (inject_Z used)
                      && (stalled || inefficient) in
            put (with_severe sv (Some (at_stats k, scan, steal, k_psi k)) l) ;; mret sv
      end.

(** The congestion flag after a sample: set by a severe one, cleared once the
    commitment is back under the exit ratio or a second passed without one. *)
Definition step_congestion (sv : bool) (committed : Z) (now : Q) (l : ledger) : ledger :=
  if sv then with_congestion true (Some now) l
  else if congested l &&
      (Qle_bool (inject_Z committed) (inject_Z (capacity l) * exit_ratio l)
       || match last_severe_at l with Some t => Qle_bool 1 (now - t) | None => false end)
  then with_congestion false (last_severe_at l) l
  else l.

(** [reasons]; [check] is the ledger's [self.check] hook, [sample] the pair
    (used, available). *)
Definition reasons (rd : readings) (page_size : Z) (check : outcome unit) (sample : outcome (Z * Z))
    (k : kernel) (additional extra_margin : Z) (pend : option Z) : M ledger (list reason) :=
  lift check ;;
  '(used, available) ← lift sample;
  p ← match pend with Some p => mret p | None => pending rd None end;
  l ← get;
  let committed := used + p + margin l + extra_margin in
  sv ← severe page_size k used;
  modify (step_congestion sv committed (at_decision k)) ;;
  l' ← get;
  mret ((if capacity l <? committed + additional then [GlobalMemoryBudget] else []) ++
        (if congested l' then [SustainedMemoryCongestion] else []) ++
        (if available <? free_floor l then [HostFreeFloor] else [])).

(** ** The incremental bound is the sum it replaces *)

Definition scoped (s : string) (_ : key) (c : claim) : Z :=
  if decide (c_scope c = s) then c_local c else 0.
Definition total (cs : dict key claim) : Z := dsum (λ _ c, c_amount c) cs.
Definition scope_total (s : string) (cs : dict key claim) : Z := dsum (scoped s) cs.

Definition claim_ok (c : claim) : Prop := 0 <= c_amount c ∧ 0 <= c_local c.
Definition claims_ok (cs : dict key claim) : Prop :=
  dict_ok cs ∧ ∀ k c, (k, c) ∈ (cs : list _) → claim_ok c.

Definition books (cs : dict key claim) (l : ledger) : Prop :=
  pending_amount l = total cs ∧
  ∀ s, pending_local_by_scope l !! s =
       if decide (scope_total s cs = 0) then None else Some (scope_total s cs).

Record ledger_ok (l : ledger) : Prop := LedgerOk {
  lg_claims : claims_ok (claims l);
  lg_books : books (claims l) l;
}.

Lemma scope_total_nonneg s cs : claims_ok cs → 0 <= scope_total s cs.
Proof.
  intros [_ H]. apply dsum_nonneg. intros k c Hin. unfold scoped. case_decide; [|done].
  by destruct (H k c Hin).
Qed.

Lemma total_nonneg cs : claims_ok cs → 0 <= total cs.
Proof. intros [_ H]. apply dsum_nonneg. intros k c Hin. by destruct (H k c Hin). Qed.

Lemma books_scope cs l s : books cs l → default 0 (pending_local_by_scope l !! s) = scope_total s cs.
Proof. intros [_ H]. rewrite H. case_decide; simpl; lia. Qed.

(** The bound after an adjustment, when the claims' sums moved alike. *)
Lemma adjust_ok cs cs' l scope a lo :
  books cs l → claims_ok cs' → total cs' = total cs + a →
  (∀ s, scope_total s cs' = scope_total s cs + if decide (s = scope) then lo else 0) →
  ∃ a' m', adjust_pending_upper_bound scope a lo l = (Ok tt, with_bound a' m' l) ∧
           books cs' (with_bound a' m' l).
Proof.
  intros Hb Hok Ha Hs. pose proof (books_scope cs l scope Hb) as Hd.
  destruct Hb as [Hamt Hmap]. pose proof (Hs scope) as Hss. rewrite decide_True in Hss by done.
  pose proof (total_nonneg cs' Hok). pose proof (scope_total_nonneg scope cs' Hok).
  unfold adjust_pending_upper_bound, mbind, M_bind, get, put, raise_if.
  rewrite Hd, Hamt, <- Ha, <- Hss.
  destruct (Z.ltb_spec (total cs') 0), (Z.ltb_spec (scope_total scope cs') 0); try lia. simpl.
  eexists _, _. split; [done|]. split; [done|]. intros s. simpl. specialize (Hs s).
  destruct (Z.eqb_spec (scope_total scope cs') 0) as [E|E].
  - destruct (decide (s = scope)) as [->|Hne].
    + rewrite lookup_delete_eq. by rewrite decide_True.
    + rewrite lookup_delete_ne, Hmap by done. by replace (scope_total s cs) with (scope_total s cs') by lia.
  - destruct (decide (s = scope)) as [->|Hne].
    + rewrite lookup_insert_eq. by rewrite decide_False.
    + rewrite lookup_insert_ne, Hmap by done. by replace (scope_total s cs) with (scope_total s cs') by lia.
Qed.

(** Replacing, adding and removing one claim. *)
Lemma claims_ok_insert cs k c : claims_ok cs → claim_ok c → claims_ok (<[k:=c]> cs).
Proof.
  intros [Hd Hc] Hok. split; [by apply insert_ok|]. intros k' c' Hin.
  pose proof (dict_elem_lookup _ _ _ (insert_ok _ k c Hd) Hin) as E.
  destruct (decide (k = k')) as [->|].
  - rewrite dict_lookup_insert_eq in E. by simplify_eq.
  - rewrite dict_lookup_insert_ne in E by done. by eapply Hc, dict_lookup_elem.
Qed.

Lemma claims_ok_delete cs k : claims_ok cs → claims_ok (delete k cs).
Proof.
  intros [Hd Hc]. split; [by apply delete_ok|]. intros k' c' Hin.
  pose proof (dict_elem_lookup _ _ _ (delete_ok _ k Hd) Hin) as E.
  destruct (decide (k = k')) as [->|].
  - rewrite dict_lookup_delete_eq in E by done. by simplify_eq.
  - rewrite dict_lookup_delete_ne in E by done. by eapply Hc, dict_lookup_elem.
Qed.

Lemma claims_ok_lookup cs k c : claims_ok cs → cs !! k = Some c → claim_ok c.
Proof. intros [_ Hc] E. by eapply Hc, dict_lookup_elem. Qed.

(** ** Operations *)

Inductive op :=
  | Add (rd : readings) (k : key) (scope : string) (amount local_amount : Z) (sample : option probe)
  | Extend (k : key) (amount local_amount : Z)
  | ReleaseAmount (k : key) (amount local_amount : Z)
  | Release (k : key)
  | Rebase (rd : readings) (k : key).

Definition exec (o : op) : M ledger unit :=
  match o with
  | Add rd k sc a lo sm => add rd k sc a lo sm
  | Extend k a lo => extend k a lo
  | ReleaseAmount k a lo => release_amount k a lo
  | Release k => release k
  | Rebase rd k => rebase rd k
  end.

Definition underflow_error : exn := RuntimeError "demand upper-bound accounting underflow".

(** Reservations are byte counts, and a probe does not raise the ledger's own
    error. *)
Definition rd_ok (rd : readings) : Prop := ∀ p, rd p ≠ Raise underflow_error.
Definition op_ok (o : op) : Prop :=
  match o with
  | Add rd _ _ a lo _ => rd_ok rd ∧ 0 <= a ∧ 0 <= lo
  | Extend _ a lo => 0 <= a ∧ 0 <= lo
  | Rebase rd _ => rd_ok rd
  | _ => True
  end.

Definition op_safe (r : outcome unit * ledger) : Prop :=
  ledger_ok r.2 ∧ r.1 ≠ Raise underflow_error.

Lemma adjust_safe cs cs' l scope a lo :
  books cs l → claims l = cs' → claims_ok cs' → total cs' = total cs + a →
  (∀ s, scope_total s cs' = scope_total s cs + if decide (s = scope) then lo else 0) →
  op_safe (adjust_pending_upper_bound scope a lo l).
Proof.
  intros. subst. destruct (adjust_ok cs (claims l) l scope a lo) as (a' & m' & -> & ?); done.
Qed.

Lemma scoped_decide s k c : scoped s k c = if decide (s = c_scope c) then c_local c else 0.
Proof. unfold scoped. do 2 case_decide; congruence. Qed.

Lemma add_safe rd k sc a lo sm l :
  ledger_ok l → rd_ok rd → 0 <= a → 0 <= lo → op_safe (add rd k sc a lo sm l).
Proof.
  intros Hl Hrd Ha Hlo. destruct Hl as [Hc Hb].
  unfold add, mbind, M_bind, get, raise_if, lift.
  destruct (claims l !! k) as [c|] eqn:Ek; simpl; [by split|].
  destruct (match sm with Some p => rd p | None => Ok (0, 0) end) as [b|e] eqn:Eb; simpl.
  - eapply (adjust_safe (claims l) (<[k:=_]> (claims l))); try done.
    + by apply claims_ok_insert.
    + unfold total. by rewrite dsum_insert_new.
    + intros s. unfold scope_total. rewrite dsum_insert_new, scoped_decide by done. done.
  - split; [done|]. simpl. intros [= ->]. destruct sm as [p|]; [|done]. by apply (Hrd p).
Qed.

(** A claim that changes its amounts by [a] and [lo]. *)
Lemma grown_sums cs k c a lo : cs !! k = Some c →
  total (<[k:=grown c a lo]> cs) = total cs + a ∧
  ∀ s, scope_total s (<[k:=grown c a lo]> cs) =
       scope_total s cs + if decide (s = c_scope c) then lo else 0.
Proof.
  intros Ek. unfold total, scope_total. split.
  - rewrite (dsum_insert _ _ _ _ _ Ek). simpl. lia.
  - intros s. rewrite (dsum_insert _ _ _ _ _ Ek), !scoped_decide. simpl. case_decide; lia.
Qed.

Lemma extend_safe k a lo l : ledger_ok l → 0 <= a → 0 <= lo → op_safe (extend k a lo l).
Proof.
  intros [Hc Hb] Ha Hlo. unfold extend, mbind, M_bind, get, raise.
  destruct (claims l !! k) as [c|] eqn:Ek; simpl; [|by split].
  destruct (claims_ok_lookup _ _ _ Hc Ek) as [Hca Hcl].
  destruct (grown_sums (claims l) k c a lo Ek) as [Ht Hs].
  eapply (adjust_safe (claims l)); try done.
  apply claims_ok_insert; [done|]. split; simpl; lia.
Qed.

Lemma total_delete cs k c : cs !! k = Some c → total (delete k cs) = total cs + - c_amount c.
Proof. intros Ek. unfold total. by rewrite (dsum_delete _ _ _ _ Ek). Qed.
Lemma scope_total_delete cs k c s : cs !! k = Some c →
  scope_total s (delete k cs) = scope_total s cs + if decide (s = c_scope c) then - c_local c else 0.
Proof.
  intros Ek. unfold scope_total. rewrite (dsum_delete _ _ _ _ Ek), scoped_decide. case_decide; lia.
Qed.

Lemma release_safe k l : ledger_ok l → op_safe (release k l).
Proof.
  intros [Hc Hb]. unfold release, mbind, M_bind, get, mret, M_ret.
  destruct (claims l !! k) as [c|] eqn:Ek; simpl; [|by split].
  eapply (adjust_safe (claims l) (delete k (claims l))); try done.
  - by apply claims_ok_delete.
  - by apply total_delete.
  - intros s. by apply scope_total_delete.
Qed.

Lemma adjust_claims sc a lo l : claims (adjust_pending_upper_bound sc a lo l).2 = claims l.
Proof.
  unfold adjust_pending_upper_bound, mbind, M_bind, get, put, raise_if.
  by destruct (_ || _).
Qed.

Lemma with_claims_books cs l : books cs l → claims_ok cs → ledger_ok (with_claims cs l).
Proof. intros Hb Hc. by split. Qed.

(** A release that leaves nothing of a claim drops it; the sums agree. *)
Lemma release_amount_claims cs k c a lo : cs !! k = Some c →
  let c' := grown c (- a) (- lo) in
  let cs' := if (c_amount c' =? 0) && (c_local c' =? 0) then delete k cs else <[k:=c']> cs in
  total cs' = total cs - a ∧
  ∀ s, scope_total s cs' = scope_total s cs + if decide (s = c_scope c) then - lo else 0.
Proof.
  intros Ek. simpl. destruct (grown_sums cs k c (- a) (- lo) Ek) as [Ht Hs].
  destruct (Z.eqb_spec (c_amount c + - a) 0), (Z.eqb_spec (c_local c + - lo) 0); simpl;
    try (split; [lia|exact Hs]).
  rewrite (total_delete _ _ _ Ek). split; [lia|].
  intros s. rewrite (scope_total_delete _ _ _ s Ek). case_decide; lia.
Qed.

Lemma release_amount_safe k a lo l : ledger_ok l → op_safe (release_amount k a lo l).
Proof.
  intros [Hc Hb]. unfold release_amount, mbind at 1, M_bind at 1, get.
  destruct (claims l !! k) as [c|] eqn:Ek; simpl; [|by split].
  destruct (claims_ok_lookup _ _ _ Hc Ek) as [Hca Hcl].
  unfold raise_if at 1. destruct (Z.ltb_spec a 0), (Z.ltb_spec lo 0); simpl; try by split.
  unfold raise_if, mbind, M_bind, mret, M_ret.
  destruct (Z.ltb_spec (c_amount c) a), (Z.ltb_spec (c_local c) lo); simpl; try by split.
  pose proof (release_amount_claims (claims l) k c a lo Ek) as [Ht Hs]. simpl in Ht, Hs.
  set (cs' := if (c_amount c + - a =? 0) && (c_local c + - lo =? 0)
              then delete k (claims l) else <[k:=grown c (- a) (- lo)]> (claims l)) in *.
  assert (Hok : claims_ok cs').
  { unfold cs'. destruct (_ && _); [by apply claims_ok_delete|].
    apply claims_ok_insert; [done|]. split; simpl; lia. }
  destruct (adjust_ok (claims l) cs' l (c_scope c) (- a) (- lo)) as (a' & m' & E & Hb'); try done.
  rewrite E. simpl. by split; [apply with_claims_books|].
Qed.

Lemma rebase_safe rd k l : ledger_ok l → rd_ok rd → op_safe (rebase rd k l).
Proof.
  intros [Hc Hb] Hrd. unfold rebase, mbind, M_bind, get, lift, mret, M_ret.
  destruct (claims l !! k) as [c|] eqn:Ek; simpl; [|by split].
  destruct (c_sample c) as [p|] eqn:Ep; [|by split].
  destruct (rd p) as [b|e] eqn:Er; simpl.
  - destruct (claims_ok_lookup _ _ _ Hc Ek) as [Hca Hcl].
    split; [|done]. apply with_claims_books; [|by apply claims_ok_insert].
    destruct Hb as [Ha Hs]. split.
    + unfold total. rewrite (dsum_insert _ _ _ _ _ Ek), Ha. simpl. unfold total. lia.
    + intros s. rewrite Hs. unfold scope_total.
      rewrite (dsum_insert _ _ _ _ _ Ek), !scoped_decide. simpl.
      by rewrite Z.add_simpl_r.
  - split; [done|]. simpl. intros [= ->]. by apply (Hrd p).
Qed.

Lemma exec_safe o l : ledger_ok l → op_ok o → op_safe (exec o l).
Proof.
  intros Hl Ho. destruct o; simpl in *; destruct_and?;
    auto using add_safe, extend_safe, release_amount_safe, release_safe, rebase_safe.
Qed.

(** A sequence of operations, exceptions included: the caller goes on. *)
Fixpoint exec_all (os : list op) (l : ledger) : list (outcome unit) * ledger :=
  match os with
  | [] => ([], l)
  | o :: os' => let '(r, l1) := exec o l in let '(rs, l2) := exec_all os' l1 in (r :: rs, l2)
  end.

Lemma exec_all_ok os l : ledger_ok l → Forall op_ok os →
  ledger_ok (exec_all os l).2 ∧ Raise underflow_error ∉ (exec_all os l).1.
Proof.
  intros Hl Hos. revert l Hl. induction Hos as [|o os Ho Hos IH]; intros l Hl; simpl.
  { split; [done|apply not_elem_of_nil]. }
  destruct (exec_safe o l Hl Ho) as [Hl1 Hne].
  destruct (exec o l) as [r l1]. simpl in *. specialize (IH l1 Hl1).
  destruct (exec_all os l1) as [rs l2]. simpl in *. split; [by apply IH|].
  rewrite elem_of_cons. intros [?|?]; [congruence|by apply IH].
Qed.

Lemma ledger_init_ok cap floor marg cg ex l : init cap floor marg cg ex = Ok l → ledger_ok l.
Proof.
  unfold init. destruct (cap <=? 0); intros; simplify_eq. split.
  - split; [apply dict_empty_ok|]. by intros k c ?%not_elem_of_nil.
  - split; [done|]. intros s. simpl. by rewrite lookup_empty.
Qed.

(** ** Exact pending demand and observations *)

Lemma remaining_bounds rd c r : claim_ok c → remaining rd c = Ok r →
  0 <= r.1 <= c_amount c ∧ 0 <= r.2 <= c_local c.
Proof.
  intros [Ha Hl]. unfold remaining. destruct (c_sample c) as [p|]; intros E; simplify_eq/=; [|lia].
  destruct (rd p) as [[t lo]|e]; simplify_eq/=. lia.
Qed.

(** What is outstanding when every claim's probe answers. *)
Definition left_global (rd : readings) (_ : key) (c : claim) : Z :=
  match remaining rd c with Ok r => r.1 | Raise _ => 0 end.
Definition left_scoped (rd : readings) (s : string) (_ : key) (c : claim) : Z :=
  if decide (c_scope c = s) then match remaining rd c with Ok r => r.2 | Raise _ => 0 end else 0.

Lemma sum_remaining_value rd scope cs z : sum_remaining rd scope cs = Ok z →
  z = match scope with
      | None => dsum (left_global rd) cs
      | Some s => dsum (left_scoped rd s) cs
      end.
Proof.
  revert z. induction cs as [|[k c] cs IH]; intros z E; [by destruct scope; simplify_eq/=|].
  cbn [sum_remaining] in E. unfold in_scope in E.
  destruct scope as [s|]; rewrite dsum_cons.
  - unfold left_scoped at 1. case_bool_decide; [rewrite decide_True by done|rewrite decide_False by done].
    + destruct (remaining rd c) as [r|]; simplify_eq/=.
      destruct (sum_remaining _ _ cs) as [rest|]; simplify_eq/=. by rewrite (IH rest).
    + by rewrite (IH z).
  - unfold left_global at 1. destruct (remaining rd c) as [r|]; simplify_eq/=.
    destruct (sum_remaining _ _ cs) as [rest|]; simplify_eq/=. by rewrite (IH rest).
Qed.

Lemma left_bounds rd s k c : claim_ok c →
  0 <= left_global rd k c <= c_amount c ∧ 0 <= left_scoped rd s k c <= scoped s k c.
Proof.
  intros Hc. unfold left_global, left_scoped, scoped.
  destruct (remaining rd c) as [r|] eqn:E.
  - pose proof (remaining_bounds rd c r Hc E). case_decide; lia.
  - destruct Hc. case_decide; lia.
Qed.

Lemma pending_le_bound rd scope l z : ledger_ok l → (pending rd scope l).1 = Ok z →
  0 <= z <= pending_upper_bound scope l.
Proof.
  intros [[Hd Hc] Hb] E%sum_remaining_value. simpl in E. subst z.
  destruct scope as [s|]; simpl.
  - rewrite (books_scope _ _ s Hb). split.
    + apply dsum_nonneg. intros k c Hin. pose proof (left_bounds rd s k c (Hc k c Hin)). lia.
    + apply dsum_le. intros k c Hin. pose proof (left_bounds rd s k c (Hc k c Hin)). lia.
  - destruct Hb as [-> _]. split.
    + apply dsum_nonneg. intros k c Hin. pose proof (left_bounds rd "" k c (Hc k c Hin)). lia.
    + apply dsum_le. intros k c Hin. pose proof (left_bounds rd "" k c (Hc k c Hin)). lia.
Qed.

(** Growth only: the memory a VM has charged did not shrink between two
    readings. *)
Definition grew (rd rd' : readings) : Prop :=
  ∀ p v v', rd p = Ok v → rd' p = Ok v' → v.1 <= v'.1 ∧ v.2 <= v'.2.

Lemma measure_lookup rd cs k :
  measure rd (freeze cs) !! k = (λ c, (c, c, remaining rd c)) <$> cs !! k.
Proof.
  induction cs as [|[k' c] cs IH]; [done|].
  unfold measure, freeze, lookup, dict_lookup in *. cbn.
  destruct (decide (k' = k)); [done|exact IH].
Qed.

(** What an observation of some earlier ledger says about a claim of today
    never undercuts what the claim still has outstanding. *)
Lemma reconciled_bounds rd rd' cs0 k c r :
  grew rd rd' → claim_ok c → claims_ok cs0 →
  reconciled (measure rd (freeze cs0)) k c = Ok r →
  left_global rd' k c <= r.1 <= c_amount c ∧
  ∀ s, left_scoped rd' s k c <= (if decide (c_scope c = s) then r.2 else 0) <= scoped s k c.
Proof.
  intros Hg Hc Hcs E. unfold reconciled in E. rewrite measure_lookup in E.
  destruct (cs0 !! k) as [c0|] eqn:E0; simpl in E.
  2: { simplify_eq/=. split; [pose proof (left_bounds rd' "" k c Hc); lia|].
       intros s. destruct (left_bounds rd' s k c Hc) as [_ ?]. unfold scoped in *.
       case_decide; lia. }
  destruct (describes (c0, c0, remaining rd c0) c) eqn:Hd.
  2: { simplify_eq/=. split; [pose proof (left_bounds rd' "" k c Hc); lia|].
       intros s. destruct (left_bounds rd' s k c Hc) as [_ ?]. unfold scoped in *.
       case_decide; lia. }
  unfold describes in Hd. simpl in Hd. apply andb_prop in Hd as [Hd Hs].
  apply andb_prop in Hd as [_ Hb].
  apply bool_decide_eq_true_1 in Hs, Hb.
  pose proof (claims_ok_lookup _ _ _ Hcs E0) as [Ha0 Hl0]. destruct Hc as [Ha Hl].
  destruct (remaining rd c0) as [v|e] eqn:Ev; simplify_eq/=.
  unfold remaining in Ev. unfold left_global, left_scoped, scoped, remaining.
  rewrite <- Hs, <- Hb. destruct (c_sample c0) as [p|]; simplify_eq/=.
  - destruct (rd p) as [[t lo]|] eqn:Et; simplify_eq/=.
    destruct (rd' p) as [[t' lo']|] eqn:Et'; simpl.
    + destruct (Hg p _ _ Et Et'); simpl in *. split; [lia|]. intros s. case_decide; lia.
    + split; [lia|]. intros s. case_decide; lia.
  - split; [lia|]. intros s. case_decide; lia.
Qed.

Lemma reconcile_bounds rd rd' cs0 scope cs g sc :
  grew rd rd' → claims_ok cs0 → (∀ k c, (k, c) ∈ (cs : list _) → claim_ok c) →
  reconcile scope (measure rd (freeze cs0)) cs = Ok (g, sc) →
  dsum (left_global rd') cs <= g <= total cs ∧
  dsum (left_scoped rd' scope) cs <= sc <= scope_total scope cs.
Proof.
  intros Hg Hcs0. unfold total, scope_total. revert g sc.
  induction cs as [|[k c] cs IH]; intros g sc Hcs E; [by simplify_eq/=|].
  cbn [reconcile] in E. destruct (reconciled _ k c) as [r|] eqn:Er; simplify_eq/=.
  destruct (reconcile _ _ cs) as [[g1 s1]|] eqn:Es; simplify_eq/=.
  rewrite !dsum_cons.
  destruct (reconciled_bounds rd rd' cs0 k c r) as [H1 H2]; [done|apply (Hcs k); by left|done|done|].
  destruct (IH g1 s1) as [H3 H4]; [intros k' c' ?; apply (Hcs k'); by right|done|].
  specialize (H2 scope). lia.
Qed.

(** ** The severity filter *)

Lemma severe_keeps ps k used l b l' : severe ps k used l = (Ok b, l') →
  claims l' = claims l ∧ capacity l' = capacity l ∧ exit_ratio l' = exit_ratio l ∧
  congested l' = congested l ∧ last_severe_at l' = last_severe_at l ∧ margin l' = margin l.
Proof.
  unfold severe, mbind, M_bind, get, put, mret, M_ret.
  repeat (case_match; simplify_eq/=); by intros; simplify_eq.
Qed.

(** What the admission books say: the claims and their nominal bound. *)
Definition view (l : ledger) : dict key claim * Z * gmap string Z :=
  (claims l, pending_amount l, pending_local_by_scope l).

Lemma ledger_ok_view l l' : view l' = view l → ledger_ok l → ledger_ok l'.
Proof.
  unfold view. intros [= E1 E2 E3] [H1 [H2 H3]]. split; [by rewrite E1|].
  split; [by rewrite E2, H2, E1|]. intros s. by rewrite E3, H3, E1.
Qed.

Lemma severe_view ps k used l : view (severe ps k used l).2 = view l.
Proof.
  unfold severe, mbind, M_bind, get, put, mret, M_ret.
  by repeat (case_match; simplify_eq/=).
Qed.

Lemma severe_total ps k used l : ∃ b l', severe ps k used l = (Ok b, l').
Proof.
  unfold severe, mbind, M_bind, get, put, mret, M_ret.
  repeat (case_match; simplify_eq/=); eauto.
Qed.

(** ** What the ledger promises *)

(** C4: after any sequence of add, extend, release_amount, release and rebase
    calls on a fresh ledger, exceptions included, the incremental bound is the
    sum it replaces: globally the nominal amounts of all live claims, per scope
    their local amounts; and no call ever reports an accounting underflow. *)
Theorem bound_is_exact cap floor marg cg ex l0 os :
  init cap floor marg cg ex = Ok l0 → Forall op_ok os →
  let '(rs, l) := exec_all os l0 in
  pending_upper_bound None l = total (claims l) ∧
  (∀ s, pending_upper_bound (Some s) l = scope_total s (claims l)) ∧
  Raise underflow_error ∉ rs.
Proof.
  intros Hi%ledger_init_ok Hos. destruct (exec_all_ok os l0 Hi Hos) as [Hl Hr].
  destruct (exec_all os l0) as [rs l]. simpl in *. destruct Hl as [_ Hb].
  split_and!; [by destruct Hb|intros s; by apply books_scope|done].
Qed.

Definition flat : readings := λ _, Ok (100, 40).
Definition busy : readings := λ _, Ok (160, 70).

Definition sample_ops : list op :=
  [Add flat ("vm", "1") "node0" 50 30 (Some 1%nat); Add flat ("vm", "2") "node1" 80 20 None;
   Extend ("vm", "1") 40 10; ReleaseAmount ("vm", "2") 90 0; ReleaseAmount ("vm", "2") 30 20;
   Add flat ("vm", "1") "node0" 1 1 None; Rebase busy ("vm", "1"); Release ("vm", "3")].

Definition ledger0 : ledger := Ledger 1000 10 5 (4 # 5) true false None false None ∅ 0 ∅ 0 None None 0.

Lemma bound_is_exact_witness :
  let '(rs, l) := exec_all sample_ops ledger0 in
  pending_upper_bound None l = total (claims l) ∧
  (∀ s, pending_upper_bound (Some s) l = scope_total s (claims l)) ∧
  Raise underflow_error ∉ rs.
Proof.
  apply (bound_is_exact 1000 10 5 true (4 # 5) ledger0); [reflexivity|].
  repeat (constructor; [simpl; try split; try (intros ?; discriminate); lia || exact I|]).
  constructor.
Defined.

(** C5: an exact observation never under-reserves.  A scan may measure the
    claims of an earlier state of the ledger with readings [rd], while other
    threads add, extend, release or rebase claims; whatever they did, the demand
    reconciled from that scan is at least what a fresh scan (readings [rd'],
    charged memory having only grown) would find still outstanding, and at
    most the nominal bound, globally and for the scope. *)
Theorem reconciled_is_safe rd rd' l0 l scope g sc :
  ledger_ok l0 → ledger_ok l → grew rd rd' →
  pending_from_observation scope (measure rd (freeze (claims l0))) l = Ok (g, sc) →
  (∀ p, (pending rd' None l).1 = Ok p → p <= g) ∧
  (∀ p, (pending rd' (Some scope) l).1 = Ok p → p <= sc) ∧
  g <= pending_upper_bound None l ∧ sc <= pending_upper_bound (Some scope) l.
Proof.
  intros [Hc0 _] [Hc Hb] Hg E.
  destruct (reconcile_bounds rd rd' (claims l0) scope (claims l) g sc Hg Hc0 (proj2 Hc) E)
    as [H1 H2].
  split_and!.
  - intros p Hp%sum_remaining_value. simpl in Hp. subst. apply H1.
  - intros p Hp%sum_remaining_value. simpl in Hp. subst. apply H2.
  - simpl. destruct Hb as [-> _]. apply H1.
  - simpl. rewrite (books_scope _ _ scope Hb). apply H2.
Qed.

Lemma reconciled_is_safe_witness :
  let l0 := (exec_all (take 3 sample_ops) ledger0).2 in
  let l := (exec_all (drop 3 sample_ops) l0).2 in
  (∀ p, (pending busy None l).1 = Ok p → p <= 140) ∧
  (∀ p, (pending busy (Some "node0") l).1 = Ok p → p <= 40) ∧
  140 <= pending_upper_bound None l ∧ 40 <= pending_upper_bound (Some "node0") l.
Proof.
  assert (Forall op_ok sample_ops) as Hok.
  { repeat (constructor; [simpl; try split; try (intros ?; discriminate); lia || exact I|]).
    constructor. }
  pose proof (ledger_init_ok 1000 10 5 true (4 # 5) ledger0 eq_refl) as H0.
  apply (reconciled_is_safe flat busy (exec_all (take 3 sample_ops) ledger0).2).
  - apply exec_all_ok; [done|by apply Forall_take].
  - apply exec_all_ok; [|by apply Forall_drop].
    apply exec_all_ok; [done|by apply Forall_take].
  - intros p v v' [= <-] [= <-]. by split.
  - vm_compute. reflexivity.
Defined.

(** Admission is sound.  When [reasons] finds nothing against a request,
    the memory in use plus all outstanding demand, margins and the request
    itself fit the capacity, the host keeps its free floor, and the ledger is
    not congested. *)
Theorem no_reasons_fit rd ps check sample k additional extra pend l l' :
  reasons rd ps check sample k additional extra pend l = (Ok [], l') →
  ∃ used available p,
    sample = Ok (used, available) ∧
    match pend with Some q => p = q | None => p = dsum (left_global rd) (claims l) end ∧
    used + p + margin l + extra + additional <= capacity l ∧
    free_floor l <= available ∧ congested l' = false.
Proof.
  unfold reasons. intros (u & l1 & E1 & H)%bind_ok_inv.
  apply bind_ok_inv in H as ([used available] & l2 & E2 & H).
  apply bind_ok_inv in H as (p & l3 & E3 & H).
  assert (l2 = l) as -> by (unfold lift in *; congruence).
  assert (Hp : match pend with Some q => p = q | None => p = dsum (left_global rd) (claims l) end
    ∧ capacity l3 = capacity l ∧ margin l3 = margin l ∧ free_floor l3 = free_floor l).
  { destruct pend as [q|]; unfold mret, M_ret in E3; [by simplify_eq|].
    unfold pending, modify, mbind, M_bind, get, lift in E3. simpl in E3.
    injection E3 as E3 <-. by apply sum_remaining_value in E3. }
  destruct Hp as (Hp & Hcap & Hmar & Hfl).
  apply bind_ok_inv in H as (l4 & l5 & E4 & H). injection E4 as <- <-.
  apply bind_ok_inv in H as (sv & l6 & E5 & H).
  apply bind_ok_inv in H as (? & l7 & E6 & H).
  apply bind_ok_inv in H as (l8 & l9 & E7 & H). injection E7 as <- <-.
  unfold mret, M_ret in H. injection H as H <-.
  apply app_nil in H as [Ha H]. apply app_nil in H as [Hc Hf].
  exists used, available, p. split_and!; [unfold lift in E2; congruence|done|..].
  - destruct (Z.ltb_spec (capacity l3) (used + p + margin l3 + extra + additional)); [done|lia].
  - destruct (Z.ltb_spec available (free_floor l3)); [done|lia].
  - by destruct (congested l7).
Qed.

Definition calm (t : Q) : kernel := Kernel t t ∅ (Some 0) t.
Definition stalled (t : Q) : kernel :=
  Kernel t t {["pgscan" := 10; "pgsteal" := 9]} (Some 900000) t.

Lemma no_reasons_fit_witness :
  ∃ used available p,
    Ok (500, 50) = Ok (used, available) ∧ p = 100 ∧
    used + p + margin ledger0 + 0 + 100 <= capacity ledger0 ∧
    free_floor ledger0 <= available ∧
    congested (reasons flat 4096 (Ok tt) (Ok (500, 50)) (calm 0) 100 0 (Some 100) ledger0).2 = false.
Proof.
  apply (no_reasons_fit flat 4096 (Ok tt) (Ok (500, 50)) (calm 0) 100 0 (Some 100)).
  vm_compute. reflexivity.
Defined.

(** A run of [reasons] calls, by callers that survive its exceptions. *)
Record call := Call {
  cl_check : outcome unit;
  cl_sample : outcome (Z * Z);
  cl_kernel : kernel;
  cl_additional : Z;
  cl_margin : Z;
  cl_pending : option Z;
}.

Definition do_call (rd : readings) (ps : Z) (c : call) : M ledger (list reason) :=
  reasons rd ps (cl_check c) (cl_sample c) (cl_kernel c) (cl_additional c) (cl_margin c) (cl_pending c).

Definition call_all (rd : readings) (ps : Z) (cs : list call) (l : ledger) : ledger :=
  foldl (λ l c, (do_call rd ps c l).2) l cs.

(** Congestion always remembers the severe sample that caused it. *)
Definition timed (l : ledger) : Prop := congested l = true → is_Some (last_severe_at l).

Lemma preserves_step_congestion sv c t : preserves timed (modify (step_congestion sv c t)).
Proof.
  apply preserves_modify. intros l Hl. unfold step_congestion, timed in *.
  destruct sv; simpl; [eauto|]. by destruct (congested l && _).
Qed.

Lemma preserves_severe ps k used : preserves timed (severe ps k used).
Proof.
  intros l Hl. destruct (severe ps k used l) as [[b|e] l'] eqn:E.
  - destruct (severe_keeps _ _ _ _ _ _ E) as (_ & _ & _ & Hc & Ht & _).
    unfold timed in *. simpl. by rewrite Hc, Ht.
  - destruct (severe_total ps k used l) as (b & l1 & ?). congruence.
Qed.

Lemma preserves_lift {A} (o : outcome A) : preserves timed (lift o).
Proof. by intros l. Qed.

Lemma preserves_pending rd sc : preserves timed (pending rd sc).
Proof. by intros l. Qed.

Lemma preserves_reasons rd ps ck sm k a m p : preserves timed (reasons rd ps ck sm k a m p).
Proof.
  unfold reasons. apply preserves_bind; [apply preserves_lift|intros _].
  apply preserves_bind; [apply preserves_lift|intros [used available]].
  apply preserves_bind; [destruct p; auto using preserves_ret, preserves_pending|intros q].
  apply preserves_bind; [auto with clawbox|intros l].
  apply preserves_bind; [apply preserves_severe|intros sv].
  apply preserves_bind; [apply preserves_step_congestion|intros _].
  auto with clawbox.
Qed.

Lemma call_all_timed rd ps cs l : timed l → timed (call_all rd ps cs l).
Proof.
  revert l. induction cs as [|c cs IH]; intros l Hl; [done|].
  simpl. apply IH. by apply preserves_reasons.
Qed.

(** Congestion has a hysteresis of its own.  After any calls of [reasons]
    on a fresh ledger, the next call reports sustained congestion exactly when
    its sample is severe, or the ledger was congested, the commitment is still
    above the exit ratio and less than a second passed since the last severe
    sample; so congestion always ends after a quiet second. *)
Theorem congestion_hysteresis cap floor marg cg ex l0 rd ps cs k used available additional extra p rs l' :
  init cap floor marg cg ex = Ok l0 →
  let l := call_all rd ps cs l0 in
  reasons rd ps (Ok tt) (Ok (used, available)) k additional extra (Some p) l = (Ok rs, l') →
  let committed := used + p + margin l + extra in
  SustainedMemoryCongestion ∈ rs ↔
    (severe ps k used l).1 = Ok true ∨
    (congested l = true ∧ (inject_Z (capacity l) * exit_ratio l < inject_Z committed)%Q ∧
     ∃ t, last_severe_at l = Some t ∧ (at_decision k - t < 1)%Q).
Proof.
  intros Hi l H committed.
  assert (Ht : timed l).
  { apply call_all_timed. unfold init in Hi. destruct (cap <=? 0); simplify_eq. by intros ?. }
  unfold reasons, lift, mbind, M_bind, mret, M_ret, get, modify in H. cbn [fst snd] in H.
  destruct (severe ps k used l) as [[sv|e] l1] eqn:Es;
    [|destruct (severe_total ps k used l) as (? & ? & ?); congruence].
  destruct (severe_keeps _ _ _ _ _ _ Es) as (_ & Hcap & Hex & Hcg & Hls & Hm).
  injection H as <- <-. fold committed. cbn [fst].
  transitivity (congested (step_congestion sv committed (at_decision k) l1) = true).
  { rewrite !elem_of_app. destruct (capacity l <? _), (available <? _), (congested (step_congestion _ _ _ _));
      set_solver. }
  unfold step_congestion. destruct sv; simpl; [naive_solver|].
  rewrite Hcg, Hcap, Hex, Hls. destruct (congested l) eqn:Ec; simpl;
    [|rewrite Hcg; split; [done|intros [?|[? _]]; done]].
  destruct (Ht Ec) as [t Et]. rewrite Et.
  destruct (Qle_bool_spec (inject_Z committed) (inject_Z (capacity l) * exit_ratio l)) as [Hq|Hq];
    simpl; [split; [done|intros [?|(_ & ? & _)]; [done|lra]]|].
  destruct (Qle_bool_spec 1 (at_decision k - t)) as [Hq'|Hq']; simpl.
  - split; [done|]. intros [?|(_ & _ & t' & ? & ?)]; simplify_eq. lra.
  - rewrite Hcg. split; [|done]. intros _. right. split_and!; [done|lra|].
    exists t. split; [done|lra].
Qed.

Lemma congestion_hysteresis_witness :
  let l := call_all flat 4096
    [Call (Ok tt) (Ok (950, 50)) (calm 0) 0 0 (Some 0);
     Call (Ok tt) (Ok (950, 50)) (stalled 1) 0 0 (Some 0)] ledger0 in
  SustainedMemoryCongestion ∈ [GlobalMemoryBudget; SustainedMemoryCongestion] ↔
    (severe 4096 (calm (3 # 2)) 950 l).1 = Ok true ∨
    (congested l = true ∧ (inject_Z (capacity l) * exit_ratio l < inject_Z (950 + 0 + margin l + 0))%Q ∧
     ∃ t, last_severe_at l = Some t ∧ (at_decision (calm (3 # 2)) - t < 1)%Q).
Proof.
  apply (congestion_hysteresis 1000 10 5 true (4 # 5) ledger0 flat 4096 _ (calm (3 # 2)) 950 50 100 0 0
           [GlobalMemoryBudget; SustainedMemoryCongestion]
           (reasons flat 4096 (Ok tt) (Ok (950, 50)) (calm (3 # 2)) 100 0 (Some 0)
              (call_all flat 4096
                 [Call (Ok tt) (Ok (950, 50)) (calm 0) 0 0 (Some 0);
                  Call (Ok tt) (Ok (950, 50)) (stalled 1) 0 0 (Some 0)] ledger0)).2);
    vm_compute; reflexivity.
Defined.
