(* ===== verification/SnapshotPool.v ===== *)
(** * The WARM snapshot pool (src/clawbox/experiments/snapshot_pool.py)

    [WarmSnapshotPool] books the bytes of one NUMA-backed pool: reservations of
    snapshots being written, manifests of published ones and live VM memory
    borrowed on the same node.  Every block under [self._lock] is one
    definition in the state-and-exception monad; a spiller is a callback [io]
    that runs between two such blocks and may change the pool (other threads)
    or raise. *)
From S2P Require Import Prelude Dict Ordering.

Record snapshot_key := SnapshotKey {
  session_id : string;
  role : string;
  generation : Z;
}.
#[export] Instance snapshot_key_eq_dec : EqDecision snapshot_key.
Proof. solve_decision. Defined.

(** [SnapshotManifest]; [m_id] is the identity of the object. *)
Record manifest := Manifest {
  m_id : nat;
  m_key : snapshot_key;
  path : string;
  logical_bytes : Z;
  allocated_bytes : Z;
  transferred_bytes : option Z;
  last_used : Q;
  committed_at : Q;
  pinned : Z;
  retained_by_vm : bool;
  template_id : option string;
  shared_base_identity : option string;
  shared_base_allocated_bytes : Z;
  private_delta_bytes : Z;
  dependency_count : Z;
  expected_reuse_probability : option Q;
  retention_value_seconds : Q;
}.

Definition spiller := nat.

(** The constructor's parameters. *)
Record config := Config {
  capacity_bytes : Z;
  borrow_capacity_bytes : Z;
  borrow_resident_headroom_bytes : option Z;
  external_shared_live_bytes : Z;
  external_warm_bytes : Z;
  transfer_concurrency : Z;
  snapshot_transfer_concurrency : option Z;
  transfer_timeout_seconds : Q;
  snapshot_aware : bool;
}.

Record pool := Pool {
  observed_shared_live : Z;
  transfer_slots : Z;            (** free slots of the semaphores *)
  snapshot_slots : Z;
  transfers : dict string Z;
  reservations : dict snapshot_key Z;
  borrow_reservations : dict string Z;
  unobserved_borrows : gset string;
  manifests : dict snapshot_key manifest;
  spillers : dict snapshot_key spiller;
  warm_admissions : Z;
  value_rejections : Z;
  spill_count : Z;
  next_id : nat;
}.

Definition with_transfers (free sfree : Z) (t : dict string Z) (s : pool) : pool :=
  Pool (observed_shared_live s) free sfree t (reservations s) (borrow_reservations s)
    (unobserved_borrows s) (manifests s) (spillers s) (warm_admissions s) (value_rejections s)
    (spill_count s) (next_id s).
Definition with_reservations (r : dict snapshot_key Z) (s : pool) : pool :=
  Pool (observed_shared_live s) (transfer_slots s) (snapshot_slots s) (transfers s) r
    (borrow_reservations s) (unobserved_borrows s) (manifests s) (spillers s)
    (warm_admissions s) (value_rejections s) (spill_count s) (next_id s).
Definition with_borrows (b : dict string Z) (u : gset string) (s : pool) : pool :=
  Pool (observed_shared_live s) (transfer_slots s) (snapshot_slots s) (transfers s)
    (reservations s) b u (manifests s) (spillers s) (warm_admissions s) (value_rejections s)
    (spill_count s) (next_id s).
Definition with_observed (o : Z) (u : gset string) (s : pool) : pool :=
  Pool o (transfer_slots s) (snapshot_slots s) (transfers s) (reservations s)
    (borrow_reservations s) u (manifests s) (spillers s) (warm_admissions s)
    (value_rejections s) (spill_count s) (next_id s).
Definition with_manifests (m : dict snapshot_key manifest) (sp : dict snapshot_key spiller)
    (i : nat) (s : pool) : pool :=
  Pool (observed_shared_live s) (transfer_slots s) (snapshot_slots s) (transfers s)
    (reservations s) (borrow_reservations s) (unobserved_borrows s) m sp (warm_admissions s)
    (value_rejections s) (spill_count s) i.
Definition with_counts (w v c : Z) (s : pool) : pool :=
  Pool (observed_shared_live s) (transfer_slots s) (snapshot_slots s) (transfers s)
    (reservations s) (borrow_reservations s) (unobserved_borrows s) (manifests s) (spillers s)
    w v c (next_id s).

Definition external_occupied_bytes (c : config) : Z :=
  external_shared_live_bytes c + external_warm_bytes c.

Definition snapshot_concurrency (c : config) : Z :=
  default (transfer_concurrency c) (snapshot_transfer_concurrency c).

(** [__init__]: the checks, in the code's order. *)
Definition init (c : config) : outcome pool :=
  if capacity_bytes c <? 0 then Raise (ValueError "capacity_bytes must be non-negative")
  else if (borrow_capacity_bytes c <? 0) || (capacity_bytes c <? borrow_capacity_bytes c)
  then Raise (ValueError "borrow_capacity_bytes must be between zero and capacity")
  else if match borrow_resident_headroom_bytes c with
          | Some h => negb ((0 <? h) && (h <? capacity_bytes c)) | None => false end
  then Raise (ValueError "borrow resident headroom must be positive and smaller than capacity")
  else if bool_decide (is_Some (borrow_resident_headroom_bytes c)) && (borrow_capacity_bytes c =? 0)
  then Raise (ValueError "borrow resident headroom requires borrow capacity")
  else if (external_shared_live_bytes c <? 0) || (external_warm_bytes c <? 0)
          || (capacity_bytes c <? external_occupied_bytes c)
  then Raise (ValueError "pre-existing shared occupancy must be between zero and capacity")
  else if (transfer_concurrency c <? 1) || Qle_bool (transfer_timeout_seconds c) 0
  then Raise (ValueError "transfer concurrency and timeout must be positive")
  else if negb ((1 <=? snapshot_concurrency c) && (snapshot_concurrency c <=? transfer_concurrency c))
  then Raise (ValueError "snapshot transfer concurrency must be between one and total transfer concurrency")
  else Ok (Pool (external_shared_live_bytes c) (transfer_concurrency c) (snapshot_concurrency c)
             ∅ ∅ ∅ ∅ ∅ ∅ 0 0 0 0).

Section pool.
Context (c : config).

(** ** Accounting *)

Definition reserved_total (s : pool) : Z := dsum (λ _ b, b) (reservations s).
Definition committed_total (s : pool) : Z := dsum (λ _ m, allocated_bytes m) (manifests s).
Definition borrowed_total (s : pool) : Z := dsum (λ _ b, b) (borrow_reservations s).

(** Borrows whose rebind no residency observation covers yet. *)
Definition unobserved_total (s : pool) : Z :=
  dsum (λ i b, if decide (i ∈ unobserved_borrows s) then b else 0) (borrow_reservations s).

(** [_borrow_charge_locked] *)
Definition borrow_charge (s : pool) : Z :=
  match borrow_resident_headroom_bytes c with
  | None => external_shared_live_bytes c + borrowed_total s
  | Some headroom =>
      Z.max (external_shared_live_bytes c) (observed_shared_live s)
      + (if dempty (borrow_reservations s) then 0 else headroom) + unobserved_total s
  end.

(** [_usage_locked] *)
Definition usage (s : pool) : Z :=
  external_warm_bytes c + borrow_charge s + reserved_total s + committed_total s.

(** [_assert_capacity_locked] *)
Definition assert_capacity : M pool unit :=
  s ← get;
  raise_if ((capacity_bytes c <? usage s)
            && bool_decide (borrow_resident_headroom_bytes c = None))
    (AssertionError "WARM accounting invariant violated").

(** ** Live-memory borrows *)

Definition first_borrow_headroom (s : pool) : Z :=
  match borrow_resident_headroom_bytes c with
  | Some headroom => if dempty (borrow_reservations s) then headroom else 0
  | None => 0
  end.

Definition borrow_headroom (s : pool) : Z :=
  Z.max 0 (Z.min (borrow_capacity_bytes c - borrowed_total s)
                 (capacity_bytes c - usage s - first_borrow_headroom s)).

Definition reserve_borrow (sandbox : string) (upper_bound : Z) : M pool unit :=
  raise_if (bool_decide (sandbox = "")) (ValueError "sandbox_id must be non-empty") ;;
  raise_if (upper_bound <=? 0) (ValueError "upper_bound_bytes must be positive") ;;
  s ← get;
  raise_if (bool_decide (is_Some (borrow_reservations s !! sandbox)))
    (RuntimeError "duplicate shared-memory borrow") ;;
  raise_if (borrow_capacity_bytes c <? borrowed_total s + upper_bound)
    (WarmCapacityError "shared live-borrow capacity exceeded") ;;
  raise_if (capacity_bytes c <? usage s + upper_bound + first_borrow_headroom s)
    (WarmCapacityError "shared NUMA capacity exceeded") ;;
  put (with_borrows (<[sandbox := upper_bound]> (borrow_reservations s))
         ({[sandbox]} ∪ unobserved_borrows s) s) ;;
  assert_capacity.

Definition release_borrow (sandbox : string) : M pool Z :=
  s ← get;
  match borrow_reservations s !! sandbox with
  | None => raise (RuntimeError "unknown shared-memory borrow")
  | Some released =>
      put (with_borrows (delete sandbox (borrow_reservations s))
             (unobserved_borrows s ∖ {[sandbox]}) s) ;;
      mret released
  end.

(** [observe_shared_live]: publish a residency sample; the overage is returned. *)
Definition observe_shared_live (live : Z) (settle : option string) : M pool Z :=
  raise_if (live <? 0) (ValueError "shared_live_bytes must be non-negative") ;;
  modify (λ s, with_observed live
                 (match settle with
                  | Some b => unobserved_borrows s ∖ {[b]} | None => unobserved_borrows s end) s) ;;
  s ← get;
  mret (Z.max 0 (usage s - capacity_bytes c)).

(** ** Reservations and manifests *)

Definition reserve (k : snapshot_key) (upper_bound : Z) : M pool unit :=
  raise_if (upper_bound <=? 0) (ValueError "upper_bound_bytes must be positive") ;;
  s ← get;
  raise_if (capacity_bytes c - external_occupied_bytes c <? upper_bound) WarmSnapshotTooLarge ;;
  raise_if (bool_decide (is_Some (reservations s !! k)) || bool_decide (is_Some (manifests s !! k)))
    (RuntimeError "duplicate snapshot generation") ;;
  raise_if (capacity_bytes c <? usage s + upper_bound)
    (WarmCapacityError "WARM capacity requires spill") ;;
  put (with_reservations (<[k := upper_bound]> (reservations s)) s) ;;
  assert_capacity.

(** What the lifecycle reports about a written snapshot. *)
Record written := Written {
  w_path : string;
  w_logical : Z;
  w_allocated : Z;
  w_transferred : option Z;
  w_spiller : option spiller;
  w_template : option string;
  w_base : option string;
  w_base_allocated : Z;
  w_private_delta : Z;
  w_dependencies : Z;
  w_reuse : option Q;
  w_value : Q;
}.

Definition published (i : nat) (k : snapshot_key) (w : written) (now : Q) : manifest :=
  Manifest i k (w_path w) (w_logical w) (w_allocated w) (w_transferred w) now now 0 false
    (w_template w) (w_base w) (w_base_allocated w) (w_private_delta w) (w_dependencies w)
    (w_reuse w) (w_value w).

(** The guard on a predecessor that the new generation replaces. *)
Definition bad_predecessor (k r : snapshot_key) (p : option manifest) : bool :=
  match p with
  | None => true
  | Some p => negb (retained_by_vm p) || negb (pinned p =? 0)
              || negb (bool_decide (session_id r = session_id k) && bool_decide (role r = role k))
              || (generation k <=? generation r)
  end.

Definition commit (k : snapshot_key) (w : written) (replaces : option snapshot_key) (now : Q)
    : M pool manifest :=
  raise_if ((w_logical w <? 0) || (w_allocated w <? 0)
            || match w_transferred w with Some t => t <? 0 | None => false end)
    (ValueError "snapshot byte counts must be non-negative") ;;
  s ← get;
  let predecessor := r ← replaces; manifests s !! r in
  raise_if (match replaces with Some r => bad_predecessor k r predecessor | None => false end)
    (RuntimeError "invalid retained snapshot predecessor") ;;
  match reservations s !! k with
  | None => raise (RuntimeError "snapshot generation is not reserved")
  | Some reserved =>
      let inherited := from_option allocated_bytes 0 predecessor in
      if reserved + inherited <? w_allocated w then
        put (with_reservations (<[k := reserved]> (delete k (reservations s))) s) ;;
        raise (RuntimeError "allocated WARM bytes exceed reservation")
      else
        let m := published (next_id s) k w now in
        let ms := <[k := m]> (manifests s) in
        let sp := spillers s in
        let '(ms, sp) := match predecessor, replaces with
                         | Some _, Some r => (delete r ms, delete r sp)
                         | _, _ => (ms, sp) end in
        put (with_manifests ms (match w_spiller w with Some f => <[k := f]> sp | None => sp end)
               (S (next_id s)) (with_reservations (delete k (reservations s)) s)) ;;
        assert_capacity ;;
        mret m
  end.

Definition abort (k : snapshot_key) : M pool unit :=
  modify (λ s, with_reservations (delete k (reservations s)) s).

(** Changing one manifest in place. *)
Definition set_manifest (m : manifest) (s : pool) : pool :=
  with_manifests (<[m_key m := m]> (manifests s)) (spillers s) (next_id s) s.

Definition repin (n : Z) (m : manifest) : manifest :=
  Manifest (m_id m) (m_key m) (path m) (logical_bytes m) (allocated_bytes m)
    (transferred_bytes m) (last_used m) (committed_at m) n (retained_by_vm m) (template_id m)
    (shared_base_identity m) (shared_base_allocated_bytes m) (private_delta_bytes m)
    (dependency_count m) (expected_reuse_probability m) (retention_value_seconds m).

Definition touched (now : Q) (retained : bool) (m : manifest) : manifest :=
  Manifest (m_id m) (m_key m) (path m) (logical_bytes m) (allocated_bytes m)
    (transferred_bytes m) now (committed_at m) (pinned m) retained (template_id m)
    (shared_base_identity m) (shared_base_allocated_bytes m) (private_delta_bytes m)
    (dependency_count m) (expected_reuse_probability m) (retention_value_seconds m).

(** [self._manifests[key]] *)
Definition manifest_of (k : snapshot_key) : M pool manifest :=
  s ← get;
  match manifests s !! k with Some m => mret m | None => raise (KeyError "snapshot") end.

Definition pin (k : snapshot_key) : M pool manifest :=
  m ← manifest_of k;
  modify (set_manifest (repin (pinned m + 1) m)) ;;
  mret (repin (pinned m + 1) m).

Definition unpin (k : snapshot_key) : M pool unit :=
  m ← manifest_of k;
  raise_if (pinned m <=? 0) (RuntimeError "snapshot pin underflow") ;;
  modify (set_manifest (repin (pinned m - 1) m)).

Definition touch (k : snapshot_key) (now : Q) : M pool unit :=
  m ← manifest_of k;
  modify (set_manifest (touched now (retained_by_vm m) m)).

Definition retain_for_vm (k : snapshot_key) : M pool unit :=
  m ← manifest_of k;
  modify (set_manifest (touched (last_used m) true m)).

Definition remove (k : snapshot_key) (consume_pinned : bool) : M pool manifest :=
  m ← manifest_of k;
  raise_if (negb (pinned m =? (if consume_pinned then 1 else 0)))
    (RuntimeError "cannot remove pinned snapshot") ;;
  modify (λ s, with_manifests (delete k (manifests s)) (delete k (spillers s)) (next_id s) s) ;;
  mret m.

(** [consume_guard]: entered once the wait predicate holds, and left. *)
Definition may_consume (k : snapshot_key) (s : pool) : bool :=
  match manifests s !! k with None => true | Some m => pinned m =? 0 end.

Definition consume_enter (k : snapshot_key) : M pool (option manifest) :=
  s ← get;
  match manifests s !! k with
  | Some m => put (set_manifest (repin (pinned m + 1) m) s) ;; mret (Some (repin (pinned m + 1) m))
  | None => mret None
  end.

Definition consume_exit (k : snapshot_key) (item : option manifest) : M pool unit :=
  s ← get;
  match item, manifests s !! k with
  | Some i, Some m => if decide (m_id m = m_id i) then put (set_manifest (repin (pinned m - 1) m) s)
                      else mret tt
  | _, _ => mret tt
  end.

(** ** Victims *)

(** Expected restore seconds saved per allocated byte. *)
Definition density (m : manifest) : Q :=
  retention_value_seconds m / inject_Z (Z.max 1 (allocated_bytes m)).

(** Comparison of the [victim_order] tuples. *)
Definition victim_compare (a b : manifest) : comparison :=
  lex (if snapshot_aware c then Qcompare (density a) (density b) else Eq)
  (lex (Qcompare (last_used a) (last_used b))
  (lex (String.compare (session_id (m_key a)) (session_id (m_key b)))
  (lex (String.compare (role (m_key a)) (role (m_key b)))
       (Z.compare (generation (m_key a)) (generation (m_key b)))))).

Definition spillable (excluded : list snapshot_key) (m : manifest) : bool :=
  negb (bool_decide (m_key m ∈ excluded)) && (pinned m =? 0) && negb (retained_by_vm m).

Definition candidates (excluded : list snapshot_key) (s : pool) : list manifest :=
  sort_by victim_compare (filter (λ m, Is_true (spillable excluded m)) (vals (manifests s))).

(** The loop that collects victims until the deficit is covered. *)
Fixpoint collect (deficit reclaimed : Z) (l : list manifest) : list manifest * Z :=
  match l with
  | [] => ([], reclaimed)
  | m :: l' =>
      let reclaimed' := reclaimed + allocated_bytes m in
      if deficit <=? reclaimed' then ([m], reclaimed')
      else let '(vs, r) := collect deficit reclaimed' l' in (m :: vs, r)
  end.

(** [item.pinned += n] on an object the pool may hold. *)
Definition bump (n : Z) (m : manifest) (s : pool) : pool :=
  match manifests s !! m_key m with
  | Some cur => if decide (m_id cur = m_id m) then set_manifest (repin (pinned cur + n) cur) s else s
  | None => s
  end.
Definition bump_all (n : Z) (vs : list manifest) (s : pool) : pool := foldl (λ s m, bump n m s) s vs.

Definition value_of (vs : list manifest) : Q :=
  foldr (λ m acc, (retention_value_seconds m + acc)%Q) 0%Q vs.

(** [lru_victims]; [value] is [None] for an infinite candidate value. *)
Definition lru_victims (required : Z) (excluded : list snapshot_key) (value : option Q)
    : M pool (list manifest) :=
  raise_if (required <? 0) (ValueError "required_bytes must be non-negative") ;;
  s ← get;
  if (required =? 0) && (usage s <=? capacity_bytes c) then mret []
  else
    raise_if (capacity_bytes c <? required) WarmSnapshotTooLarge ;;
    raise_if ((0 <? required) && (capacity_bytes c - external_occupied_bytes c <? required))
      WarmSnapshotTooLarge ;;
    let deficit := Z.max 0 (usage s + required - capacity_bytes c) in
    if deficit =? 0 then mret []
    else
      let '(victims, reclaimed) := collect deficit 0 (candidates excluded s) in
      modify (bump_all 1 victims) ;;
      if reclaimed <? deficit then
        modify (bump_all (-1) victims) ;;
        raise (WarmCapacityError "WARM capacity has no spillable LRU prefix")
      else if snapshot_aware c
              && match value with Some v => Qle_bool v (value_of victims) | None => false end then
        modify (bump_all (-1) victims) ;; raise WarmAdmissionRejected
      else mret ((λ m, repin (pinned m + 1) m) <$> victims).

(** ** Spilling *)

Section spill.
(** The spill callback of a manifest: its outcome, and what happens to the
    pool while it runs. *)
Context (io : spiller → manifest → M pool unit).

(** The block that retires a relocated victim. *)
Definition retire (m : manifest) : M pool unit :=
  s ← get;
  match manifests s !! m_key m with
  | Some cur =>
      raise_if (negb (bool_decide (m_id cur = m_id m)) || negb (pinned cur =? 1))
        (RuntimeError "WARM spill identity changed") ;;
      put (with_counts (warm_admissions s) (value_rejections s) (spill_count s + 1)
             (with_manifests (delete (m_key m) (manifests s)) (delete (m_key m) (spillers s))
                (next_id s) s)) ;;
      assert_capacity
  | None => raise (RuntimeError "WARM spill identity changed")
  end.

Fixpoint spill_each (vs : list manifest) : M pool unit :=
  match vs with
  | [] => mret tt
  | m :: vs' =>
      s ← get;
      match spillers s !! m_key m with
      | None => raise (WarmCapacityError "WARM snapshot has no spill path")
      | Some f => io f m ;; retire m ;; spill_each vs'
      end
  end.

(** The [finally] block: release the pins of what is still there. *)
Definition unpin_left (m : manifest) (s : pool) : pool :=
  match manifests s !! m_key m with
  | Some cur => if decide (m_id cur = m_id m ∧ 0 < pinned cur)
                then set_manifest (repin (pinned cur - 1) cur) s else s
  | None => s
  end.

Definition spill_for_admission (required : Z) (excluded : list snapshot_key) (value : option Q)
    : M pool (list manifest) :=
  victims ← lru_victims required excluded value;
  try_finally (spill_each victims ;; mret victims)
    (modify (λ s, foldl (λ s m, unpin_left m s) s victims)).

Definition spill_observed_excess : M pool (list manifest) := spill_for_admission 0 [] None.

Definition count_admission (s : pool) : pool :=
  with_counts (warm_admissions s + 1) (value_rejections s) (spill_count s) s.
Definition count_rejection (s : pool) : pool :=
  with_counts (warm_admissions s) (value_rejections s + 1) (spill_count s) s.

(** One turn of the loop of [reserve_for_admission]. *)
Definition admit_once (k : snapshot_key) (upper_bound : Z) (value : Q) : M pool unit :=
  spill_for_admission upper_bound [k] (Some value) ;;
  reserve k upper_bound ;;
  modify count_admission.

(** [reserve_for_admission]: [waits] are the wake-ups of [_changed.wait] before
    the deadline, each with what other threads did to the pool meanwhile. *)
Fixpoint reserve_for_admission (waits : list (pool → pool)) (k : snapshot_key) (upper_bound : Z)
    (value : Q) : M pool unit :=
  try_except (admit_once k upper_bound value) (λ e,
    match e with
    | WarmAdmissionRejected => modify count_rejection ;; raise e
    | WarmCapacityError _ =>
        match waits with
        | [] => raise e
        | w :: waits' => modify w ;; reserve_for_admission waits' k upper_bound value
        end
    | _ => raise e
    end).
End spill.

(** ** Transfer slots *)

Definition is_snapshot_transfer (operation : string) : bool :=
  bool_decide (operation ∈ ["checkpoint"; "restore"; "spill"]).

(** [transfer] up to its [yield]: a semaphore that stays empty until the
    deadline times out; the snapshot slot is given back. *)
Definition transfer_enter (operation : string) : M pool unit :=
  s ← get;
  let snap := if is_snapshot_transfer operation then 1 else 0 in
  raise_if ((0 <? snap) && (snapshot_slots s <=? 0)) (TimeoutError "snapshot slot timed out") ;;
  raise_if (transfer_slots s <=? 0) (TimeoutError "slot timed out") ;;
  put (with_transfers (transfer_slots s - 1) (snapshot_slots s - snap)
         (<[operation := default 0 (transfers s !! operation) + 1]> (transfers s)) s).

(** ... and after it. *)
Definition transfer_exit (operation : string) : M pool unit :=
  s ← get;
  match transfers s !! operation with
  | None => raise (KeyError operation)
  | Some n =>
      put (with_transfers (transfer_slots s + 1)
             (snapshot_slots s + if is_snapshot_transfer operation then 1 else 0)
             (<[operation := n - 1]> (transfers s)) s)
  end.

(** ** Reporting *)

Record usage_report := UsageReport {
  r_reserved : Z;
  r_committed : Z;
  r_borrowed : Z;
  r_borrow_accounted : Z;
  r_accounted : Z;
  r_observed : Z;
  r_external_warm : Z;
  r_external_live : Z;
  r_external : Z;
}.

Definition usage_snapshot (s : pool) : usage_report :=
  UsageReport (reserved_total s) (committed_total s) (borrowed_total s) (borrow_charge s) (usage s)
    (observed_shared_live s) (external_warm_bytes c) (external_shared_live_bytes c)
    (external_occupied_bytes c).
End pool.

(** ** The accounting invariant *)

#[global] Arguments usage c s : simpl never.
#[global] Arguments borrowed_total s : simpl never.

Section pool_invariant.
Context (c : config).
Notation usage := (usage c).

Record pool_ok (s : pool) : Prop := PoolOk {
  po_reservations : dict_all (λ _ b, 0 < b) (reservations s);
  po_borrows : dict_all (λ _ b, 0 < b) (borrow_reservations s);
  po_manifests : dict_all (λ k m, m_key m = k ∧ 0 <= allocated_bytes m) (manifests s);
  (** A byte is never present in both ledgers. *)
  po_disjoint : ∀ k, is_Some (reservations s !! k) → manifests s !! k = None;
  po_borrowed : borrowed_total s <= borrow_capacity_bytes c;
  po_unobserved : ∀ i, i ∈ unobserved_borrows s → is_Some (borrow_reservations s !! i);
  (** Without a resident headroom nothing escapes the hard capacity. *)
  po_usage : borrow_resident_headroom_bytes c = None → usage s <= capacity_bytes c;
  po_headroom : from_option (λ h, 0 < h) True (borrow_resident_headroom_bytes c);
}.

Definition is_assertion (e : exn) : bool := match e with AssertionError _ => true | _ => false end.
Definition no_assertion {A} (o : outcome A) : Prop :=
  match o with Raise e => is_assertion e = false | Ok _ => True end.

(** A computation started in [s] kept the invariant, did not trip the
    accounting assertion and did not take usage past the capacity. *)
Definition kept {A} (s : pool) (r : outcome A * pool) : Prop :=
  pool_ok r.2 ∧ no_assertion r.1 ∧ usage r.2 <= Z.max (capacity_bytes c) (usage s).
Definition keeps {A} (m : M pool A) : Prop := ∀ s, pool_ok s → kept s (m s).

Lemma kept_same {A} s (o : outcome A) : pool_ok s → no_assertion o → kept s (o, s).
Proof. intros Hs Ho. split_and!; [done..|]. simpl. lia. Qed.

Lemma kept_trans {A B} s s1 (a : A) (r : outcome B * pool) :
  kept s (Ok a, s1) → kept s1 r → kept s r.
Proof. intros (_ & _ & H1) (H2 & H3 & H4). split_and!; [done..|]. simpl in *. lia. Qed.

Lemma keeps_ret {A} (a : A) : keeps (mret a).
Proof. intros s Hs. by apply kept_same. Qed.
Lemma keeps_raise {A} e : is_assertion e = false → keeps (raise e : M pool A).
Proof. intros He s Hs. by apply kept_same. Qed.
Lemma keeps_get : keeps get.
Proof. intros s Hs. by apply kept_same. Qed.
Lemma keeps_raise_if b e : is_assertion e = false → keeps (raise_if b e).
Proof. destruct b; [apply keeps_raise|intros _; apply keeps_ret]. Qed.

Lemma keeps_bind {A B} (m : M pool A) (k : A → M pool B) :
  keeps m → (∀ a, keeps (k a)) → keeps (m ≫= k).
Proof.
  intros Hm Hk s Hs. unfold mbind, M_bind. specialize (Hm s Hs).
  destruct (m s) as [[a|e] s1]; [|done].
  eapply kept_trans; [exact Hm|]. by apply Hk, Hm.
Qed.

(** A block that reads the state first is judged at that state. *)
Lemma keeps_read {A} (k : pool → M pool A) : (∀ s, pool_ok s → kept s (k s s)) → keeps (get ≫= k).
Proof. intros H s Hs. by apply H. Qed.

Lemma kept_raise_if {A} s b e (k : M pool A) :
  pool_ok s → is_assertion e = false → (b = false → kept s (k s)) →
  kept s ((raise_if b e ≫= λ _, k) s).
Proof.
  intros Hs He Hk. unfold raise_if, mbind, M_bind. destruct b; [by apply kept_same|by apply Hk].
Qed.

Lemma keeps_modify f : (∀ s, pool_ok s → pool_ok (f s) ∧ usage (f s) <= usage s) → keeps (modify f).
Proof. intros H s Hs. destruct (H s Hs). split_and!; [done..|]. simpl. lia. Qed.

Lemma keeps_finally {A} (m : M pool A) fin : keeps m → keeps fin → keeps (try_finally m fin).
Proof.
  intros Hm Hf s Hs. unfold try_finally. specialize (Hm s Hs). destruct (m s) as [o s1].
  destruct Hm as (H1 & H2 & H3). specialize (Hf s1 H1). destruct (fin s1) as [o' s2].
  destruct Hf as (H4 & H5 & H6). split_and!; simpl in *; [done|by destruct o'|lia].
Qed.

Lemma keeps_except {A} (m : M pool A) h : keeps m → (∀ e, is_assertion e = false → keeps (h e)) →
  keeps (try_except m h).
Proof.
  intros Hm Hh s Hs. unfold try_except. specialize (Hm s Hs). destruct (m s) as [[a|e] s1]; [done|].
  destruct Hm as (H1 & H2 & H3). destruct (Hh e H2 s1 H1) as (H4 & H5 & H6).
  split_and!; [done..|]. simpl in *. lia.
Qed.

(** The closing assertion holds when the capacity was respected. *)
Lemma kept_assert s s1 : pool_ok s1 → usage s1 <= Z.max (capacity_bytes c) (usage s) →
  kept s (assert_capacity c s1).
Proof.
  intros Hs Hu. unfold assert_capacity, mbind, M_bind, get, raise_if.
  pose proof (po_usage s1 Hs) as Hp.
  case_bool_decide as Hb; [|rewrite andb_false_r; by split_and!].
  destruct (Z.ltb_spec (capacity_bytes c) (usage s1)); [specialize (Hp Hb); lia|]. by split_and!.
Qed.

(** Usage by ledger. *)
Lemma usage_reservations r s :
  usage (with_reservations r s) = usage s - reserved_total s + dsum (λ _ b, b) r.
Proof. unfold SnapshotPool.usage, borrow_charge, committed_total, reserved_total; simpl. 
  unfold borrowed_total, unobserved_total. simpl. lia. Qed.

Lemma usage_manifests m sp i s :
  usage (with_manifests m sp i s) = usage s - committed_total s + dsum (λ _ m, allocated_bytes m) m.
Proof. unfold SnapshotPool.usage, borrow_charge, committed_total, reserved_total; simpl.
  unfold borrowed_total, unobserved_total. simpl. lia. Qed.

Lemma reservations_ok r s :
  pool_ok s → dict_all (λ _ b, 0 < b) r → (∀ k, is_Some (r !! k) → manifests s !! k = None) →
  dsum (λ _ b, b) r <= reserved_total s ∨ usage (with_reservations r s) <= capacity_bytes c →
  pool_ok (with_reservations r s).
Proof.
  intros [] Hr Hd Hu. split; simpl; try done. intros Hn. specialize (po_usage0 Hn).
  destruct Hu; [rewrite usage_reservations|]; lia.
Qed.

Lemma manifests_ok m sp i s :
  pool_ok s → dict_all (λ k m, m_key m = k ∧ 0 <= allocated_bytes m) m →
  (∀ k, is_Some (m !! k) → is_Some (manifests s !! k)) →
  dsum (λ _ m, allocated_bytes m) m <= committed_total s →
  pool_ok (with_manifests m sp i s) ∧ usage (with_manifests m sp i s) <= usage s.
Proof.
  intros [] Hm Hd Hu. rewrite usage_manifests. split; [|lia]. split; simpl; try done.
  - intros k Hk. specialize (po_disjoint0 k Hk). destruct (m !! k) eqn:E; [|done].
    rewrite <- E in *. destruct (Hd k) as [? ?]; [by rewrite E|congruence].
  - intros Hn. specialize (po_usage0 Hn). rewrite usage_manifests. lia.
Qed.

(** Changing a held manifest without changing its size. *)
Lemma set_manifest_ok m m0 s :
  pool_ok s → manifests s !! m_key m = Some m0 → allocated_bytes m = allocated_bytes m0 →
  pool_ok (set_manifest m s) ∧ usage (set_manifest m s) <= usage s.
Proof.
  intros Hs E Ha. pose proof (po_manifests s Hs) as Hm.
  destruct (proj2 Hm _ _ E) as [_ Hm0]. apply manifests_ok; [done|..].
  - apply dict_all_insert; [done|]. split; [done|lia].
  - intros k. destruct (decide (m_key m = k)) as [<-|]; [eauto|].
    by rewrite dict_lookup_insert_ne.
  - rewrite (dsum_insert _ _ _ _ _ E). unfold committed_total. lia.
Qed.

Lemma delete_manifest_ok k sp i s :
  pool_ok s → pool_ok (with_manifests (delete k (manifests s)) sp i s) ∧
              usage (with_manifests (delete k (manifests s)) sp i s) <= usage s.
Proof.
  intros Hs. pose proof (po_manifests s Hs) as Hm. apply manifests_ok; [done|..].
  - by apply dict_all_delete.
  - intros k' [v [_ E]%dict_lookup_delete_Some]; [eauto|apply Hm].
  - destruct (manifests s !! k) as [m|] eqn:E.
    + rewrite (dsum_delete _ _ _ _ E). destruct (proj2 Hm _ _ E). unfold committed_total. lia.
    + rewrite delete_notin by done. done.
Qed.

Lemma counts_ok w v n s : pool_ok s → pool_ok (with_counts w v n s).
Proof. intros []. by split. Qed.

Lemma kept_put s s' : pool_ok s' → usage s' <= Z.max (capacity_bytes c) (usage s) →
  kept s (put s' s).
Proof. by intros. Qed.

Lemma keeps_manifest_of k : keeps (manifest_of k).
Proof.
  apply keeps_read. intros s Hs. by destruct (manifests s !! k); apply kept_same.
Qed.

(** Updating the manifest stored under a key. *)
Lemma keeps_update {A} k (f : manifest → manifest) (guard : manifest → bool) e (r : manifest → A) :
  is_assertion e = false → (∀ m, m_key (f m) = m_key m ∧ allocated_bytes (f m) = allocated_bytes m) →
  keeps (m ← manifest_of k; raise_if (guard m) e ;; modify (set_manifest (f m)) ;; mret (r m)).
Proof.
  intros He Hf s Hs. unfold manifest_of, mbind, M_bind, get.
  destruct (manifests s !! k) as [m|] eqn:E; [|by apply kept_same].
  unfold mret, M_ret, raise_if. destruct (guard m); simpl; [by apply kept_same|].
  destruct (Hf m) as [Hk Ha]. destruct (proj2 (po_manifests s Hs) _ _ E) as [<- _].
  rewrite <- Hk in E. destruct (set_manifest_ok (f m) m s Hs E Ha).
  split_and!; [done..|]. simpl. lia.
Qed.

Lemma keeps_pin k : keeps (pin k).
Proof.
  apply (keeps_update k (λ m, repin (pinned m + 1) m) (λ _, false) WarmAdmissionRejected
           (λ m, repin (pinned m + 1) m)); by intros.
Qed.

Lemma keeps_unpin k : keeps (unpin k).
Proof.
  apply (keeps_update k (λ m, repin (pinned m - 1) m) (λ m, pinned m <=? 0)
           (RuntimeError "snapshot pin underflow") (λ _, tt)); by intros.
Qed.

Lemma keeps_touch k now : keeps (touch k now).
Proof.
  apply (keeps_update k (λ m, touched now (retained_by_vm m) m) (λ m, false)
           WarmAdmissionRejected (λ _, tt)); by intros.
Qed.

Lemma keeps_retain k : keeps (retain_for_vm k).
Proof.
  apply (keeps_update k (λ m, touched (last_used m) true m) (λ m, false)
           WarmAdmissionRejected (λ _, tt)); by intros.
Qed.

Lemma keeps_remove k b : keeps (remove k b).
Proof.
  apply keeps_bind; [apply keeps_manifest_of|intros m].
  apply keeps_bind; [by apply keeps_raise_if|intros _].
  apply keeps_bind; [|intros; apply keeps_ret].
  apply keeps_modify. intros. by apply delete_manifest_ok.
Qed.

Lemma keeps_consume_enter k : keeps (consume_enter k).
Proof.
  apply keeps_read. intros s Hs.
  destruct (manifests s !! k) as [m|] eqn:E; [|by apply kept_same].
  destruct (proj2 (po_manifests s Hs) _ _ E) as [Hk _].
  destruct (set_manifest_ok (repin (pinned m + 1) m) m s Hs) as [H1 H2]; [by rewrite <- Hk in E|done|].
  split_and!; [done..|]. simpl. lia.
Qed.

Lemma keeps_consume_exit k i : keeps (consume_exit k i).
Proof.
  apply keeps_read. intros s Hs.
  destruct i as [i|]; [|by apply kept_same].
  destruct (manifests s !! k) as [m|] eqn:E; [|by apply kept_same].
  case_decide; [|by apply kept_same].
  destruct (proj2 (po_manifests s Hs) _ _ E) as [Hk _].
  destruct (set_manifest_ok (repin (pinned m - 1) m) m s Hs) as [H1 H2]; [by rewrite <- Hk in E|done|].
  split_and!; [done..|]. simpl. lia.
Qed.

Lemma keeps_abort k : keeps (abort k).
Proof.
  apply keeps_modify. intros s Hs. destruct (po_reservations s Hs) as [Hd Hr].
  assert (dsum (λ _ b, b) (delete k (reservations s)) <= reserved_total s).
  { destruct (reservations s !! k) as [b|] eqn:E.
    - rewrite (dsum_delete _ _ _ _ E). specialize (Hr k b E). unfold reserved_total. simpl in *. lia.
    - by rewrite delete_notin. }
  split; [|rewrite usage_reservations; unfold reserved_total in *; lia].
  apply reservations_ok; [done|apply dict_all_delete, Hs| |by left].
  intros k' [b [_ E]%dict_lookup_delete_Some]; [|done]. apply (po_disjoint s Hs). eauto.
Qed.

Lemma keeps_reserve k b : keeps (reserve c k b).
Proof.
  intros s Hs. unfold reserve. apply kept_raise_if; [done..|intros Hpos%Z.leb_gt].
  unfold mbind at 1, M_bind at 1, get.
  apply kept_raise_if; [done..|intros _]. apply kept_raise_if; [done..|intros Hdup].
  apply kept_raise_if; [done..|intros Hfit%Z.ltb_ge].
  apply orb_false_iff in Hdup as [Hr%bool_decide_eq_false Hm%bool_decide_eq_false].
  apply eq_None_not_Some in Hr, Hm.
  assert (Hu : usage (with_reservations (<[k:=b]> (reservations s)) s) = usage s + b).
  { rewrite usage_reservations, dsum_insert_new by done. unfold reserved_total. lia. }
  apply (kept_assert s); simpl; [|lia].
  apply reservations_ok; [done|apply dict_all_insert; [apply Hs|done]| |right; lia].
  intros k'. destruct (decide (k = k')) as [<-|]; [done|].
  rewrite dict_lookup_insert_ne by done. apply (po_disjoint s Hs).
Qed.

(** Publishing a manifest in place of its reservation, and of the generation
    it replaces. *)
Lemma publish_ok s k m r (p : option (snapshot_key * manifest)) sp i :
  pool_ok s → reservations s !! k = Some r → m_key m = k → 0 <= allocated_bytes m →
  (∀ kp mp, p = Some (kp, mp) → manifests s !! kp = Some mp ∧ kp ≠ k) →
  allocated_bytes m <= r + from_option (λ kp : snapshot_key * manifest, allocated_bytes kp.2) 0 p →
  let ms := <[k:=m]> (manifests s) in
  let ms' := match p with Some (kp, _) => delete kp ms | None => ms end in
  let s' := with_manifests ms' sp i (with_reservations (delete k (reservations s)) s) in
  pool_ok s' ∧ usage s' <= usage s.
Proof.
  intros Hs Er Hk Ha Hp Hle ms ms' s'.
  pose proof (po_disjoint s Hs k (ex_intro _ _ Er)) as Hnm.
  assert (Hms : dict_all (λ k m, m_key m = k ∧ 0 <= allocated_bytes m) ms)
    by (apply dict_all_insert; [apply Hs|done]).
  assert (Hsum : dsum (λ _ m, allocated_bytes m) ms' <=
    committed_total s + allocated_bytes m - from_option (λ kp, allocated_bytes kp.2) 0 p).
  { unfold ms', ms, committed_total. destruct p as [[kp mp]|]; simpl.
    - destruct (Hp kp mp eq_refl) as [Ep Hne]. rewrite (dsum_delete _ _ _ mp).
      + rewrite dsum_insert_new by done. lia.
      + by rewrite dict_lookup_insert_ne.
    - rewrite dsum_insert_new by done. lia. }
  assert (Hms' : dict_all (λ k m, m_key m = k ∧ 0 <= allocated_bytes m) ms')
    by (unfold ms'; destruct p as [[kp mp]|]; [by apply dict_all_delete|done]).
  assert (Hu : usage s' <= usage s).
  { unfold s'. rewrite usage_manifests, usage_reservations, (dsum_delete _ _ _ _ Er).
    unfold reserved_total, committed_total in *. simpl. lia. }
  split; [|done]. destruct Hs. split; simpl; try done.
  - by apply dict_all_delete.
  - intros k' [b [Hne Eb]%dict_lookup_delete_Some]; [|by apply po_reservations0].
    assert (ms !! k' = None) as E.
    { unfold ms. rewrite dict_lookup_insert_ne by done. eauto. }
    unfold ms'. destruct p as [[kp mp]|]; [|done].
    destruct (decide (kp = k')) as [<-|]; [apply dict_lookup_delete_eq, Hms|].
    by rewrite dict_lookup_delete_ne.
  - intros Hn. specialize (po_usage0 Hn). lia.
Qed.

Lemma readd_reservation_ok s k r : pool_ok s → reservations s !! k = Some r →
  pool_ok (with_reservations (<[k:=r]> (delete k (reservations s))) s) ∧
  usage (with_reservations (<[k:=r]> (delete k (reservations s))) s) = usage s.
Proof.
  intros Hs Er. destruct (po_reservations s Hs) as [Hd Hr].
  assert (Hsum : dsum (λ _ b, b) (<[k:=r]> (delete k (reservations s))) = reserved_total s).
  { rewrite dsum_insert_new by (by apply dict_lookup_delete_eq).
    rewrite (dsum_delete _ _ _ _ Er). unfold reserved_total. lia. }
  split; [|rewrite usage_reservations; lia].
  apply reservations_ok; [done| | |left; lia].
  - apply dict_all_insert; [apply dict_all_delete, Hs|by eapply Hr].
  - intros k' Hk'. apply (po_disjoint s Hs). destruct (decide (k = k')) as [<-|]; [eauto|].
    rewrite dict_lookup_insert_ne, dict_lookup_delete_ne in Hk' by done. done.
Qed.

(** The tail of [commit], once the predecessor is known. *)
Lemma kept_publish s k w res p now sp :
  pool_ok s → reservations s !! k = Some res → 0 <= w_allocated w →
  (∀ kp mp, p = Some (kp, mp) → manifests s !! kp = Some mp ∧ kp ≠ k) →
  w_allocated w <= res + from_option (λ kp : snapshot_key * manifest, allocated_bytes kp.2) 0 p →
  let m := published (next_id s) k w now in
  let ms := <[k:=m]> (manifests s) in
  kept s ((put (with_manifests (match p with Some (kp, _) => delete kp ms | None => ms end) sp
                  (S (next_id s)) (with_reservations (delete k (reservations s)) s)) ;;
           assert_capacity c ;; mret m) s).
Proof.
  intros Hs Er Ha Hp Hle m ms.
  destruct (publish_ok s k m res p sp (S (next_id s)) Hs Er eq_refl Ha Hp Hle) as [H1 H2].
  unfold mbind at 1, M_bind at 1, put. set (s1 := with_manifests _ _ _ _) in *.
  assert (Hk : kept s (assert_capacity c s1)) by (apply kept_assert; [done|unfold s1, ms in *; lia]).
  unfold mbind, M_bind. destruct (assert_capacity c s1) as [[[]|e] s2]; [|done].
  eapply kept_trans; [exact Hk|]. apply keeps_ret, Hk.
Qed.

Lemma keeps_commit k w r now : keeps (commit c k w r now).
Proof.
  intros s Hs. unfold commit. apply kept_raise_if; [done..|intros Hneg].
  unfold mbind at 1, M_bind at 1, get. apply kept_raise_if; [done..|intros Hpred].
  apply orb_false_iff in Hneg as [Hneg _]. apply orb_false_iff in Hneg as [_ Hneg%Z.ltb_ge].
  destruct (reservations s !! k) as [res|] eqn:Er; [|by apply kept_same].
  assert (Hre : kept s ((put (with_reservations (<[k:=res]> (delete k (reservations s))) s) ;;
      raise (RuntimeError "allocated WARM bytes exceed reservation") : M pool manifest) s)).
  { destruct (readd_reservation_ok s k res Hs Er) as [H1 H2].
    split_and!; [done..|]. etransitivity; [apply Z.eq_le_incl, H2|lia]. }
  destruct r as [r|]; simpl in *.
  - destruct (manifests s !! r) as [mp|] eqn:Ep; [|done]. simpl in *.
    destruct (Z.ltb_spec (res + allocated_bytes mp) (w_allocated w)) as [Hlt|Hge]; [done|].
    apply (kept_publish s k w res (Some (r, mp)) now); try done.
    intros kp mp' [= <- <-]. split; [done|]. intros ->.
    pose proof (po_disjoint s Hs k (ex_intro _ _ Er)). congruence.
  - destruct (Z.ltb_spec (res + 0) (w_allocated w)) as [Hlt|Hge]; [done|].
    by apply (kept_publish s k w res None now).
Qed.

(** ** Borrows *)

Lemma usage_borrows_fixed b u s : borrow_resident_headroom_bytes c = None →
  usage (with_borrows b u s) = usage s - borrowed_total s + dsum (λ _ x, x) b.
Proof.
  intros Hn. unfold SnapshotPool.usage, borrow_charge, committed_total, reserved_total, borrowed_total.
  rewrite Hn. simpl. lia.
Qed.

(** A new borrow is charged in full, with the headroom of a first borrow. *)
Lemma usage_new_borrow s i b :
  pool_ok s → borrow_reservations s !! i = None →
  usage (with_borrows (<[i:=b]> (borrow_reservations s)) ({[i]} ∪ unobserved_borrows s) s) =
  usage s + b + first_borrow_headroom c s.
Proof.
  intros Hs Hi. unfold SnapshotPool.usage, borrow_charge, committed_total, reserved_total,
    borrowed_total, first_borrow_headroom, unobserved_total. simpl.
  destruct (borrow_resident_headroom_bytes c) as [h|]; rewrite !dsum_insert_new by done; [|lia].
  rewrite decide_True by set_solver.
  assert (dempty (<[i:=b]> (borrow_reservations s)) = false) as ->.
  { apply not_true_is_false. intros H. rewrite dempty_lookup in H.
    specialize (H i). by rewrite dict_lookup_insert_eq in H. }
  rewrite (dsum_ext (λ j x, if decide (j ∈ {[i]} ∪ unobserved_borrows s) then x else 0)
                    (λ j x, if decide (j ∈ unobserved_borrows s) then x else 0)).
  - destruct (dempty (borrow_reservations s)); lia.
  - intros j x Hin. apply (dict_elem_lookup _ _ _ (proj1 (po_borrows s Hs))) in Hin.
    assert (j ≠ i) by congruence. do 2 case_decide; set_solver.
Qed.

Lemma keeps_reserve_borrow i b : keeps (reserve_borrow c i b).
Proof.
  intros s Hs. unfold reserve_borrow. apply kept_raise_if; [done..|intros _].
  apply kept_raise_if; [done..|intros Hpos%Z.leb_gt].
  unfold mbind at 1, M_bind at 1, get. apply kept_raise_if; [done..|intros Hdup%bool_decide_eq_false].
  apply kept_raise_if; [done..|intros Hcap%Z.ltb_ge]. apply kept_raise_if; [done..|intros Hfit%Z.ltb_ge].
  apply eq_None_not_Some in Hdup. pose proof (usage_new_borrow s i b Hs Hdup) as Hu.
  apply (kept_assert s); [|lia]. destruct Hs. split; simpl; try done.
  - by apply dict_all_insert.
  - unfold borrowed_total in *. simpl. rewrite dsum_insert_new by done. lia.
  - intros j [->%elem_of_singleton|Hj]%elem_of_union; [rewrite dict_lookup_insert_eq; eauto|].
    destruct (decide (i = j)) as [->|]; [rewrite dict_lookup_insert_eq; eauto|].
    rewrite dict_lookup_insert_ne by done. auto.
  - intros _. unfold put in *. simpl. lia.
Qed.

(** Dropping a borrow lowers the charge. *)
Lemma usage_drop_borrow s i b :
  pool_ok s → borrow_reservations s !! i = Some b →
  usage (with_borrows (delete i (borrow_reservations s)) (unobserved_borrows s ∖ {[i]}) s) <= usage s ∧
  borrowed_total (with_borrows (delete i (borrow_reservations s)) (unobserved_borrows s ∖ {[i]}) s) =
  borrowed_total s - b.
Proof.
  intros Hs Ei. destruct (po_borrows s Hs) as [Hd Hb]. pose proof (Hb i b Ei) as Hpos.
  pose proof (dsum_delete (λ _ x, x) _ _ _ Ei) as E1.
  simpl in E1. split; [|unfold borrowed_total; simpl; lia].
  unfold SnapshotPool.usage, borrow_charge, committed_total, reserved_total, borrowed_total,
    unobserved_total. simpl.
  destruct (borrow_resident_headroom_bytes c) as [h|] eqn:Eh; [|lia].
  rewrite (dsum_ext (λ j x, if decide (j ∈ unobserved_borrows s ∖ {[i]}) then x else 0)
                    (λ j x, if decide (j ∈ unobserved_borrows s) then x else 0)).
  - rewrite (dsum_delete _ _ _ _ Ei). simpl.
    assert (Hx : (if dempty (delete i (borrow_reservations s)) then 0 else h) <=
                 (if dempty (borrow_reservations s) then 0 else h)).
    { destruct (dempty (borrow_reservations s)) eqn:Ee.
      { rewrite dempty_lookup in Ee. by rewrite Ee in Ei. }
      pose proof (po_headroom s Hs) as Hh. rewrite Eh in Hh. simpl in Hh.
      destruct (dempty (delete i (borrow_reservations s))); lia. }
    case_decide; lia.
  - intros j x Hin. apply (dict_elem_lookup _ _ _ (delete_ok _ i Hd)) in Hin.
    apply dict_lookup_delete_Some in Hin as [Hj _]; [|done]. do 2 case_decide; set_solver.
Qed.

Lemma keeps_release_borrow i : keeps (release_borrow i).
Proof.
  apply keeps_read. intros s Hs.
  destruct (borrow_reservations s !! i) as [b|] eqn:Ei; [|by apply kept_same].
  destruct (usage_drop_borrow s i b Hs Ei) as [Hu Ht].
  destruct (po_borrows s Hs) as [Hd Hb]. pose proof (Hb i b Ei).
  split_and!; [|done|simpl in *; lia]. destruct Hs. split; simpl in *; try done.
  - by apply dict_all_delete.
  - lia.
  - intros j [Hj Hi]%elem_of_difference. rewrite dict_lookup_delete_ne by set_solver. auto.
  - intros Hn. specialize (po_usage0 Hn). lia.
Qed.

(** An observation changes the charge of a resident pool only. *)
Lemma observe_ok live settle s : pool_ok s → pool_ok (observe_shared_live c live settle s).2 ∧
  no_assertion (observe_shared_live c live settle s).1 ∧
  (borrow_resident_headroom_bytes c = None → usage (observe_shared_live c live settle s).2 = usage s).
Proof.
  intros Hs. unfold observe_shared_live, raise_if, mbind, M_bind, raise, mret, M_ret, modify, get.
  destruct (live <? 0); [done|]. cbn [fst snd].
  assert (Hu : borrow_resident_headroom_bytes c = None → ∀ u, usage (with_observed live u s) = usage s).
  { intros Hn u. unfold SnapshotPool.usage, borrow_charge. by rewrite Hn. }
  split_and!; [|done|intros Hn; by apply Hu].
  destruct Hs. split; simpl; try done.
  - intros i Hi. apply po_unobserved0. destruct settle; set_solver.
  - intros Hn. rewrite Hu by done. auto.
Qed.

(** ** Victims, spills and admissions *)

Lemma bump_ok n m s : pool_ok s → pool_ok (bump n m s) ∧ usage (bump n m s) <= usage s.
Proof.
  intros Hs. unfold bump. destruct (manifests s !! m_key m) as [cur|] eqn:E; [|done].
  case_decide; [|done].
  destruct (proj2 (po_manifests s Hs) _ _ E) as [Hk _]. rewrite <- Hk in E.
  by apply (set_manifest_ok _ cur).
Qed.

Lemma unpin_left_ok m s : pool_ok s → pool_ok (unpin_left m s) ∧ usage (unpin_left m s) <= usage s.
Proof.
  intros Hs. unfold unpin_left. destruct (manifests s !! m_key m) as [cur|] eqn:E; [|done].
  case_decide; [|done].
  destruct (proj2 (po_manifests s Hs) _ _ E) as [Hk _]. rewrite <- Hk in E.
  by apply (set_manifest_ok _ cur).
Qed.

Lemma keeps_fold (f : manifest → pool → pool) vs :
  (∀ m s, pool_ok s → pool_ok (f m s) ∧ usage (f m s) <= usage s) →
  keeps (modify (λ s, foldl (λ s m, f m s) s vs)).
Proof.
  intros Hf. apply keeps_modify. induction vs as [|m vs IH]; intros s Hs; simpl; [done|].
  destruct (Hf m s Hs) as [H1 H2]. destruct (IH _ H1). split; [done|lia].
Qed.

Lemma keeps_lru_victims n ex v : keeps (lru_victims c n ex v).
Proof.
  unfold lru_victims. apply keeps_bind; [by apply keeps_raise_if|intros _].
  apply keeps_bind; [apply keeps_get|intros s0].
  destruct (_ && _); [apply keeps_ret|].
  apply keeps_bind; [by apply keeps_raise_if|intros _].
  apply keeps_bind; [by apply keeps_raise_if|intros _].
  destruct (_ =? 0); [apply keeps_ret|].
  destruct (collect _ _ _) as [vs r].
  apply keeps_bind; [apply (keeps_fold (bump 1)); intros; by apply bump_ok|intros _].
  assert (Hun : keeps (modify (bump_all (-1) vs)))
    by (apply (keeps_fold (bump (-1))); intros; by apply bump_ok).
  destruct (_ <? _); [apply keeps_bind; [done|intros _; by apply keeps_raise]|].
  destruct (_ && _); [apply keeps_bind; [done|intros _; by apply keeps_raise]|].
  apply keeps_ret.
Qed.

Lemma keeps_retire m : keeps (retire c m).
Proof.
  apply keeps_read. intros s Hs.
  destruct (manifests s !! m_key m) as [cur|] eqn:E; [|by apply kept_same].
  apply kept_raise_if; [done..|intros _].
  destruct (delete_manifest_ok (m_key m) (delete (m_key m) (spillers s)) (next_id s) s Hs) as [H1 H2].
  apply (kept_assert s); [by apply counts_ok|].
  etransitivity; [exact H2|lia].
Qed.

(** What other threads and the spill callback do keeps the invariant too. *)
Definition io_ok (io : spiller → manifest → M pool unit) : Prop := ∀ f m, keeps (io f m).

Lemma keeps_spill_each io vs : io_ok io → keeps (spill_each c io vs).
Proof.
  intros Hio. induction vs as [|m vs IH]; simpl; [apply keeps_ret|].
  apply keeps_bind; [apply keeps_get|intros s].
  destruct (spillers s !! m_key m) as [f|]; [|by apply keeps_raise].
  apply keeps_bind; [apply Hio|intros _].
  apply keeps_bind; [apply keeps_retire|done].
Qed.

Lemma keeps_spill io n ex v : io_ok io → keeps (spill_for_admission c io n ex v).
Proof.
  intros Hio. apply keeps_bind; [apply keeps_lru_victims|intros vs].
  apply keeps_finally; [apply keeps_bind; [by apply keeps_spill_each|intros; apply keeps_ret]|].
  apply (keeps_fold unpin_left). intros; by apply unpin_left_ok.
Qed.

Lemma keeps_count w : keeps (modify (λ s, with_counts (w s).1.1 (w s).1.2 (w s).2 s)).
Proof. apply keeps_modify. intros s Hs. split; [by apply counts_ok|done]. Qed.

Lemma keeps_admit_once io k b v : io_ok io → keeps (admit_once c io k b v).
Proof.
  intros Hio. apply keeps_bind; [by apply keeps_spill|intros _].
  apply keeps_bind; [apply keeps_reserve|intros _].
  apply (keeps_count (λ s, (warm_admissions s + 1, value_rejections s, spill_count s))).
Qed.

Lemma keeps_reserve_for_admission io waits k b v : io_ok io →
  Forall (λ f, keeps (modify f)) waits → keeps (reserve_for_admission c io waits k b v).
Proof.
  intros Hio. induction 1 as [|w waits Hw _ IH]; simpl;
    (apply keeps_except; [by apply keeps_admit_once|]);
    intros e He; destruct e; try (by apply keeps_raise).
  - apply keeps_bind; [|intros _; by apply keeps_raise].
    apply (keeps_count (λ s, (warm_admissions s, value_rejections s + 1, spill_count s))).
  - by apply keeps_bind.
  - apply keeps_bind; [|intros _; by apply keeps_raise].
    apply (keeps_count (λ s, (warm_admissions s, value_rejections s + 1, spill_count s))).
Qed.
End pool_invariant.

(** ** Runs of pool operations *)

Section pool_runs.
Context (c : config).

Inductive pool_op :=
  | ReserveBorrow (i : string) (b : Z)
  | ReleaseBorrow (i : string)
  | Observe (live : Z) (settle : option string)
  | Reserve (k : snapshot_key) (b : Z)
  | Commit (k : snapshot_key) (w : written) (replaces : option snapshot_key) (now : Q)
  | Abort (k : snapshot_key)
  | Pin (k : snapshot_key)
  | Unpin (k : snapshot_key)
  | Touch (k : snapshot_key) (now : Q)
  | Retain (k : snapshot_key)
  | Remove (k : snapshot_key) (consume_pinned : bool)
  | ConsumeEnter (k : snapshot_key)
  | ConsumeExit (k : snapshot_key) (item : option manifest)
  | Victims (required : Z) (excluded : list snapshot_key) (value : option Q)
  | Retire (m : manifest)
  | UnpinLeft (m : manifest)
  | Spill (io : spiller → manifest → M pool unit) (required : Z) (excluded : list snapshot_key)
      (value : option Q)
  | Admit (io : spiller → manifest → M pool unit) (waits : list (pool → pool)) (k : snapshot_key)
      (b : Z) (value : Q).

Definition drop {A} (m : M pool A) : M pool unit := m ≫= λ _, mret tt.

Definition exec_op (o : pool_op) : M pool unit :=
  match o with
  | ReserveBorrow i b => reserve_borrow c i b
  | ReleaseBorrow i => drop (release_borrow i)
  | Observe live settle => drop (observe_shared_live c live settle)
  | Reserve k b => reserve c k b
  | Commit k w r now => drop (commit c k w r now)
  | Abort k => abort k
  | Pin k => drop (pin k)
  | Unpin k => unpin k
  | Touch k now => touch k now
  | Retain k => retain_for_vm k
  | Remove k b => drop (remove k b)
  | ConsumeEnter k => drop (consume_enter k)
  | ConsumeExit k i => consume_exit k i
  | Victims n ex v => drop (lru_victims c n ex v)
  | Retire m => retire c m
  | UnpinLeft m => modify (unpin_left m)
  | Spill io n ex v => drop (spill_for_admission c io n ex v)
  | Admit io ws k b v => reserve_for_admission c io ws k b v
  end.

(** Callbacks and other threads respect the pool's discipline. *)
Definition op_ok (o : pool_op) : Prop :=
  match o with
  | Spill io _ _ _ => io_ok c io
  | Admit io ws _ _ _ => io_ok c io ∧ Forall (λ f, keeps c (modify f)) ws
  | _ => True
  end.

Definition is_observation (o : pool_op) : bool := match o with Observe _ _ => true | _ => false end.

Lemma keeps_drop {A} (m : M pool A) : keeps c m → keeps c (drop m).
Proof. intros Hm. apply keeps_bind; [done|intros; apply keeps_ret]. Qed.

Lemma keeps_exec_op o : op_ok o → is_observation o = false → keeps c (exec_op o).
Proof.
  destruct o; simpl; intros Ho Hobs; try discriminate;
    try apply keeps_drop;
    eauto using keeps_reserve_borrow, keeps_release_borrow, keeps_reserve, keeps_commit, keeps_abort,
      keeps_pin, keeps_unpin, keeps_touch, keeps_retain, keeps_remove, keeps_consume_enter,
      keeps_consume_exit, keeps_lru_victims, keeps_retire, keeps_spill.
  - apply keeps_modify. intros. by apply unpin_left_ok.
  - destruct Ho. by apply keeps_reserve_for_admission.
Qed.

Lemma exec_op_ok o s : pool_ok c s → op_ok o →
  pool_ok c (exec_op o s).2 ∧ no_assertion (exec_op o s).1.
Proof.
  intros Hs Ho. destruct (is_observation o) eqn:E.
  - destruct o; try done. simpl. unfold drop, mbind, M_bind.
    destruct (observe_ok c live settle s Hs) as (H1 & H2 & _).
    by destruct (observe_shared_live c live settle s) as [[?|?] ?].
  - by destruct (keeps_exec_op o Ho E s Hs) as (? & ? & _).
Qed.

Fixpoint exec_ops (os : list pool_op) (s : pool) : list (outcome unit) * pool :=
  match os with
  | [] => ([], s)
  | o :: os' => let '(r, s1) := exec_op o s in let '(rs, s2) := exec_ops os' s1 in (r :: rs, s2)
  end.

Lemma exec_ops_ok os s : pool_ok c s → Forall op_ok os →
  pool_ok c (exec_ops os s).2 ∧ Forall no_assertion (exec_ops os s).1.
Proof.
  intros Hs Hos. revert s Hs. induction Hos as [|o os Ho Hos IH]; intros s Hs; simpl; [done|].
  destruct (exec_op_ok o s Hs Ho) as [H1 H2]. destruct (exec_op o s) as [r s1]. simpl in *.
  destruct (IH s1 H1) as [H3 H4]. destruct (exec_ops os s1) as [rs s2]. simpl in *.
  split; [done|by constructor].
Qed.

Lemma pool_init_ok s : init c = Ok s → pool_ok c s.
Proof.
  unfold init. intros E.
  destruct (capacity_bytes c <? 0) eqn:E1; [done|].
  destruct ((borrow_capacity_bytes c <? 0) || (capacity_bytes c <? borrow_capacity_bytes c)) eqn:E2; [done|].
  apply orb_false_iff in E2 as [E2%Z.ltb_ge _].
  destruct (match borrow_resident_headroom_bytes c with Some _ => _ | None => _ end) eqn:E3; [done|].
  destruct (bool_decide (is_Some (borrow_resident_headroom_bytes c)) && _); [done|].
  destruct ((external_shared_live_bytes c <? 0) || _ || _) eqn:E5; [done|].
  apply orb_false_iff in E5 as [_ E5%Z.ltb_ge].
  destruct ((transfer_concurrency c <? 1) || _); [done|]. destruct (negb _); [done|].
  injection E as <-. split; simpl; [apply dict_all_empty..| | | | |].
  - by intros k [? ?].
  - done.
  - by intros i ?%not_elem_of_empty.
  - intros Hn. unfold usage, borrow_charge. rewrite Hn. unfold reserved_total, committed_total, borrowed_total.
    simpl. unfold dsum, zsum, external_occupied_bytes in *. simpl. lia.
  - destruct (borrow_resident_headroom_bytes c) as [h|]; [|done]. simpl.
    apply negb_false_iff, andb_prop in E3 as [?%Z.ltb_lt _]. done.
Qed.

(** C6: the pool never over-commits.  After any sequence of operations from
    construction, exceptions included and in any interleaving of threads, no
    snapshot is both reserved and published, live borrows respect the borrow
    limit, the accounting assertion never fails, and without a resident
    headroom the total usage fits the capacity; in every mode, no operation
    other than publishing a residency observation takes usage past the
    capacity. *)
Theorem pool_never_overcommits s0 os :
  init c = Ok s0 → Forall op_ok os →
  let '(rs, s) := exec_ops os s0 in
  (∀ k, is_Some (reservations s !! k) → manifests s !! k = None) ∧
  borrowed_total s <= borrow_capacity_bytes c ∧
  Forall no_assertion rs ∧
  (borrow_resident_headroom_bytes c = None → usage c s <= capacity_bytes c) ∧
  (∀ o, op_ok o → is_observation o = false →
     usage c (exec_op o s).2 <= Z.max (capacity_bytes c) (usage c s)).
Proof.
  intros Hi%pool_init_ok Hos. destruct (exec_ops_ok os s0 Hi Hos) as [Hs Hr].
  destruct (exec_ops os s0) as [rs s]. simpl in *. split_and!; try apply Hs; [done|].
  intros o Ho E. by destruct (keeps_exec_op o Ho E s Hs) as (_ & _ & ?).
Qed.
End pool_runs.

Definition fixed_pool : config := Config 100 40 None 5 5 4 (Some 2) 120 false.
Definition snap (i : string) (g : Z) : snapshot_key := SnapshotKey i "tool" g.
Definition snapshot_of (bytes : Z) (f : option spiller) (v : Q) : written :=
  Written "/warm" bytes bytes None f None None 0 0 0 None v.
Definition quiet : spiller → manifest → M pool unit := λ _ _, mret tt.

Lemma quiet_ok c : io_ok c quiet.
Proof. intros f m. apply keeps_ret. Qed.

Definition pool_script : list pool_op :=
  [Reserve (snap "a" 1) 30; Commit (snap "a" 1) (snapshot_of 25 (Some 7%nat) 1) None 10;
   Reserve (snap "b" 1) 30; Commit (snap "b" 1) (snapshot_of 40 None 1) None 20;
   Commit (snap "b" 1) (snapshot_of 30 (Some 7%nat) 1) None 20;
   ReserveBorrow "vm" 30; Admit quiet [] (snap "c" 1) 20 1; ReleaseBorrow "vm"; Observe 50 None].

Lemma pool_never_overcommits_witness :
  let s0 := Pool 5 4 2 ∅ ∅ ∅ ∅ ∅ ∅ 0 0 0 0 in
  let '(rs, s) := exec_ops fixed_pool pool_script s0 in
  (∀ k, is_Some (reservations s !! k) → manifests s !! k = None) ∧
  borrowed_total s <= borrow_capacity_bytes fixed_pool ∧
  Forall no_assertion rs ∧
  (borrow_resident_headroom_bytes fixed_pool = None → usage fixed_pool s <= capacity_bytes fixed_pool) ∧
  (∀ o, op_ok fixed_pool o → is_observation o = false →
     usage fixed_pool (exec_op fixed_pool o s).2 <= Z.max (capacity_bytes fixed_pool) (usage fixed_pool s)).
Proof.
  apply (pool_never_overcommits fixed_pool); [reflexivity|].
  unfold pool_script.
  repeat (apply Forall_cons; split; [first [exact I|split; [apply quiet_ok|constructor]]|]).
  constructor.
Defined.

(** ** Who is evicted *)

Section victims.
Context (c : config).

Lemma victim_compare_ok : cmp_ok (victim_compare c).
Proof.
  unfold victim_compare. destruct (snapshot_aware c); auto 10 with clawbox.
Qed.

(** The pin counts of the objects of [vs]. *)
Definition bumped (n : Z) (vs : list manifest) (k : snapshot_key) (m : manifest) : manifest :=
  if decide (k ∈ m_key <$> vs) then repin (pinned m + n) m else m.

(** The pool holds the objects of [vs] under their keys. *)
Definition held (vs : list manifest) (s : pool) : Prop :=
  NoDup (m_key <$> vs) ∧
  ∀ m, m ∈ vs → ∃ cur, manifests s !! m_key m = Some cur ∧ m_id cur = m_id m ∧ m_key cur = m_key m.

Lemma bump_all_map n vs s : dict_ok (manifests s) → held vs s →
  bump_all n vs s = with_manifests (dmap (bumped n vs) (manifests s)) (spillers s) (next_id s) s.
Proof.
  revert s. induction vs as [|m vs IH]; intros s Hd [Hnd Hin].
  { simpl. rewrite (dmap_ext _ (λ _ v, v)), dmap_id; [by destruct s|]. intros k v _.
    unfold bumped. rewrite decide_False; [done|]. apply not_elem_of_nil. }
  rewrite fmap_cons, NoDup_cons in Hnd. destruct Hnd as [Hm Hnd].
  destruct (Hin m) as (cur & E & Hid & Hkey); [by left|].
  assert (Hb : bump n m s = with_manifests (dmap (bumped n [m]) (manifests s)) (spillers s) (next_id s) s).
  { unfold bump. rewrite E, decide_True by done. unfold set_manifest. simpl. rewrite Hkey.
    f_equal. rewrite insert_dmap by eauto. apply dmap_ext. intros k v Hkv. unfold bumped.
    destruct (decide (k = m_key m)) as [->|Hne].
    - rewrite decide_True by set_solver. apply (dict_elem_lookup _ _ _ Hd) in Hkv. by simplify_eq.
    - by rewrite decide_False by set_solver. }
  simpl. rewrite Hb, IH.
  - cbn [with_manifests spillers next_id manifests]. unfold with_manifests. simpl. f_equal.
    rewrite dmap_dmap. apply dmap_ext. intros k v _. unfold bumped.
    destruct (decide (k ∈ m_key <$> [m])) as [Hk|Hk].
    + rewrite (decide_True (P := k ∈ m_key <$> m :: vs)) by set_solver.
      rewrite decide_False; [done|]. apply list_elem_of_singleton in Hk. by subst.
    + destruct (decide (k ∈ m_key <$> vs)).
      * by rewrite decide_True by set_solver.
      * rewrite decide_False; [done|]. set_solver.
  - unfold dict_ok. simpl. by rewrite keys_dmap.
  - split; [done|]. intros m' Hm'. destruct (Hin m') as (cur' & E' & ? & ?); [by right|].
    exists cur'. simpl. rewrite dmap_lookup, E'. simpl. unfold bumped. rewrite decide_False; [done|].
    intros Hk%list_elem_of_singleton. apply Hm. rewrite <- Hk. apply list_elem_of_fmap. eauto.
Qed.

(** Rolling the pins back restores the pool. *)
Lemma bump_rollback vs s : dict_ok (manifests s) → held vs s →
  bump_all (-1) vs (bump_all 1 vs s) = s.
Proof.
  intros Hd Hh. rewrite (bump_all_map 1) by done. rewrite bump_all_map.
  - simpl. unfold with_manifests. simpl. rewrite dmap_dmap.
    rewrite (dmap_ext _ (λ _ v, v)), dmap_id; [by destruct s|].
    intros k m _. unfold bumped. case_decide; [|done].
    destruct m; unfold repin; simpl. f_equal. lia.
  - unfold dict_ok. simpl. by rewrite keys_dmap.
  - destruct Hh as [Hnd Hin]. split; [done|]. intros m Hm. destruct (Hin m Hm) as (cur & E & Hid & Hk).
    exists (bumped 1 vs (m_key m) cur). simpl. rewrite dmap_lookup, E. split; [done|].
    unfold bumped. by case_decide.
Qed.

(** [collect] takes the shortest prefix that covers the deficit. *)
Lemma collect_spec deficit acc l vs r :
  collect deficit acc l = (vs, r) →
  (∃ rest, l = vs ++ rest ∧ (r < deficit → rest = [])) ∧
  r = acc + zsum (allocated_bytes <$> vs) ∧
  (∀ i, (i < length vs)%nat → (0 < i)%nat → acc + zsum (allocated_bytes <$> take i vs) < deficit).
Proof.
  revert acc vs r. induction l as [|m l IH]; intros acc vs r E; simpl in E.
  { simplify_eq. simpl. split_and!; [by exists []|unfold zsum; simpl; lia|simpl; lia]. }
  destruct (Z.leb_spec deficit (acc + allocated_bytes m)) as [Hle|Hlt].
  { simplify_eq. simpl. split_and!; [exists l; split; [done|intros; exfalso; lia]|unfold zsum; simpl; lia|simpl; lia]. }
  destruct (collect deficit (acc + allocated_bytes m) l) as [vs' r'] eqn:E'. simplify_eq.
  destruct (IH _ _ _ E') as ((rest & -> & Hr) & Hsum & Hmin). split_and!.
  - exists rest. split; [done|]. intros H. by rewrite (Hr H).
  - rewrite Hsum, fmap_cons, zsum_cons. lia.
  - intros i Hi Hpos. destruct i as [|i]; [lia|]. rewrite firstn_cons, fmap_cons, zsum_cons.
    destruct i as [|i]; [unfold zsum; simpl; lia|]. rewrite length_cons in Hi.
    specialize (Hmin (S i) ltac:(lia) ltac:(lia)). lia.
Qed.

Lemma candidates_spec ex s m : pool_ok c s → m ∈ candidates c ex s →
  manifests s !! m_key m = Some m ∧ spillable ex m = true.
Proof.
  intros Hs Hm. unfold candidates in Hm. rewrite sort_by_perm in Hm.
  apply list_elem_of_filter in Hm as [Hsp Hm]. split; [|by apply Is_true_true].
  unfold vals in Hm. apply list_elem_of_fmap in Hm as ([k m'] & -> & Hin). simpl in *.
  destruct (po_manifests c s Hs) as [Hd Hall]. apply (dict_elem_lookup _ _ _ Hd) in Hin.
  by destruct (Hall _ _ Hin) as [<- _].
Qed.

Lemma candidates_nodup ex s : pool_ok c s → NoDup (m_key <$> candidates c ex s).
Proof.
  intros Hs. unfold candidates. rewrite sort_by_perm. apply NoDup_fmap_filter.
  destruct (po_manifests c s Hs) as [Hd Hall]. unfold vals, dict_ok, keys in *.
  rewrite <- list_fmap_compose.
  erewrite list_fmap_ext; [exact Hd|]. intros i [k m] Hi. simpl. apply list_elem_of_lookup_2 in Hi.
  apply (dict_elem_lookup _ _ _ Hd) in Hi. by destruct (Hall _ _ Hi).
Qed.

Lemma prefix_held ex s vs rest : pool_ok c s → candidates c ex s = vs ++ rest → held vs s.
Proof.
  intros Hs E. pose proof (candidates_nodup ex s Hs) as Hnd. rewrite E, fmap_app in Hnd.
  apply NoDup_app in Hnd as [Hnd _]. split; [done|]. intros m Hm. exists m.
  destruct (candidates_spec ex s m Hs) as [? _]; [rewrite E; set_solver|done].
Qed.
End victims.

Section victim_choice.
Context (c : config).

Definition deficit_of (required : Z) (s : pool) : Z :=
  Z.max 0 (usage c s + required - capacity_bytes c).

(** The outcome of [lru_victims] on a pool: a choice, or no change. *)
Definition chosen_prefix (required : Z) (ex : list snapshot_key) (value : option Q)
    (s s' : pool) (vs chosen : list manifest) : Prop :=
  (∃ rest, candidates c ex s = chosen ++ rest) ∧
  vs = (λ m, repin (pinned m + 1) m) <$> chosen ∧
  s' = with_manifests (dmap (bumped 1 chosen) (manifests s)) (spillers s) (next_id s) s ∧
  deficit_of required s <= zsum (allocated_bytes <$> chosen) ∧
  (∀ i, (i < length chosen)%nat → zsum (allocated_bytes <$> take i chosen) < deficit_of required s) ∧
  (chosen ≠ [] → snapshot_aware c = true → ∀ v, value = Some v → (value_of chosen < v)%Q).

Lemma no_victims s required ex value : deficit_of required s = 0 →
  chosen_prefix required ex value s s [] [].
Proof.
  intros Hd. unfold chosen_prefix. rewrite Hd. split_and!; try done.
  - by exists (candidates c ex s).
  - rewrite (dmap_ext _ (λ _ v, v)), dmap_id; [by destruct s|]. intros k m _.
    unfold bumped. rewrite decide_False; [done|]. apply not_elem_of_nil.
  - simpl. lia.
Qed.

Lemma lru_victims_cases s required ex value : pool_ok c s →
  match lru_victims c required ex value s with
  | (Ok vs, s') => ∃ chosen, chosen_prefix required ex value s s' vs chosen
  | (Raise _, s') => s' = s
  end.
Proof.
  intros Hs. unfold lru_victims, mbind, M_bind, get, raise_if, mret, M_ret, raise.
  destruct (Z.ltb_spec required 0) as [|Hreq]; [done|].
  destruct ((required =? 0) && (usage c s <=? capacity_bytes c)) eqn:E0.
  { apply andb_prop in E0 as [?%Z.eqb_eq ?%Z.leb_le]. exists []. apply no_victims.
    unfold deficit_of. lia. }
  clear E0. destruct (capacity_bytes c <? required); [done|].
  destruct ((0 <? required) && _); [done|].
  fold (deficit_of required s).
  destruct (Z.eqb_spec (deficit_of required s) 0) as [Hd|Hd].
  { exists []. by apply no_victims. }
  destruct (collect (deficit_of required s) 0 (candidates c ex s)) as [vs r] eqn:Ec.
  destruct (collect_spec _ _ _ _ _ Ec) as ((rest & Hpre & Hshort) & Hsum & Hmin).
  pose proof (prefix_held c ex s vs rest Hs Hpre) as Hheld.
  pose proof (proj1 (po_manifests c s Hs)) as Hdict.
  unfold modify. destruct (Z.ltb_spec r (deficit_of required s)); [by apply bump_rollback|].
  destruct (snapshot_aware c && _) eqn:Ev; [by apply bump_rollback|].
  exists vs. unfold chosen_prefix. split_and!; [by exists rest|done|by apply bump_all_map|lia|..].
  - intros i Hi. destruct i as [|i]; [simpl; unfold deficit_of in *; unfold zsum; simpl; lia|].
    specialize (Hmin (S i) Hi ltac:(lia)). lia.
  - intros _ Ha v ->. rewrite Ha in Ev. simpl in Ev.
    destruct (Qle_bool_spec v (value_of vs)); [done|lra].
Qed.

(** Eviction is the minimal prefix of the deterministic order.  When
    [lru_victims] succeeds, its victims are the shortest prefix of the sorted
    spillable manifests that covers the deficit: each was unpinned, not
    retained by a VM and not excluded, every spillable manifest left behind
    comes later in the order, dropping the last victim would not suffice, and
    exactly the victims are pinned; in value-aware mode they are together worth
    less than the candidate.  When it raises, every pin is rolled back and the
    pool is unchanged. *)
Theorem victims_minimal_prefix s required ex value :
  pool_ok c s →
  match lru_victims c required ex value s with
  | (Ok vs, s') =>
      ∃ chosen, vs = (λ m, repin (pinned m + 1) m) <$> chosen ∧
        Forall (λ m, manifests s !! m_key m = Some m ∧ spillable ex m = true) chosen ∧
        deficit_of required s <= zsum (allocated_bytes <$> chosen) ∧
        (∀ i, (i < length chosen)%nat →
           zsum (allocated_bytes <$> take i chosen) < deficit_of required s) ∧
        (∀ m m', m ∈ chosen → manifests s !! m_key m' = Some m' → spillable ex m' = true →
           m' ∉ chosen → cmp_le (victim_compare c) m m') ∧
        (∀ k, manifests s' !! k = bumped 1 chosen k <$> manifests s !! k) ∧
        (chosen ≠ [] → snapshot_aware c = true → ∀ v, value = Some v → (value_of chosen < v)%Q)
  | (Raise _, s') => s' = s
  end.
Proof.
  intros Hs. pose proof (lru_victims_cases s required ex value Hs) as H.
  destruct (lru_victims c required ex value s) as [[vs|e] s']; [|done].
  destruct H as (chosen & (rest & Hpre) & Hvs & Hs' & Hsum & Hmin & Hval).
  exists chosen. split_and!; try done.
  - rewrite Forall_forall. intros m Hm. apply (candidates_spec c ex s m Hs).
    rewrite Hpre. set_solver.
  - intros m m' Hm Hm' Hsp Hnot.
    pose proof (sort_by_sorted (victim_compare c)
      (filter (λ m, Is_true (spillable ex m)) (vals (manifests s))) (victim_compare_ok c)) as Hsort.
    change (sort_by _ _) with (candidates c ex s) in Hsort. rewrite Hpre in Hsort.
    eapply StronglySorted_app_1_elem_of; [exact Hsort|done|].
    assert (m' ∈ candidates c ex s) as Hin; [|rewrite Hpre in Hin; set_solver].
    unfold candidates. rewrite sort_by_perm. apply list_elem_of_filter.
    split; [by rewrite Hsp|]. unfold vals. apply list_elem_of_fmap.
    exists (m_key m', m'). split; [done|]. by apply dict_lookup_elem.
  - intros k. subst s'. simpl. apply dmap_lookup.
Qed.
End victim_choice.

(** ** Spilling and admitting *)

Section spilling.
Context (c : config).

Lemma assert_passes s : pool_ok c s → assert_capacity c s = (Ok tt, s).
Proof.
  intros Hs. unfold assert_capacity, mbind, M_bind, get, raise_if, mret, M_ret.
  pose proof (po_usage c s Hs). case_bool_decide as Hb; [|by rewrite andb_false_r].
  destruct (Z.ltb_spec (capacity_bytes c) (usage c s)); [|done]. specialize (H Hb). lia.
Qed.

(** The pool without one relocated victim. *)
Definition without (m : manifest) (s : pool) : pool :=
  with_counts (warm_admissions s) (value_rejections s) (spill_count s + 1)
    (with_manifests (delete (m_key m) (manifests s)) (delete (m_key m) (spillers s)) (next_id s) s).

(** Victims ready to be relocated: held, pinned once, with a spill path. *)
Definition ready (vs : list manifest) (s : pool) : Prop :=
  NoDup (m_key <$> vs) ∧
  ∀ m, m ∈ vs → is_Some (spillers s !! m_key m) ∧
    ∃ cur, manifests s !! m_key m = Some cur ∧ m_id cur = m_id m ∧ pinned cur = 1 ∧
           allocated_bytes cur = allocated_bytes m.

Lemma without_ok m s : pool_ok c s → pool_ok c (without m s).
Proof. intros Hs. apply counts_ok. by apply delete_manifest_ok. Qed.

Lemma without_usage m s cur : manifests s !! m_key m = Some cur →
  usage c (without m s) = usage c s - allocated_bytes cur.
Proof.
  intros E. change (usage c (without m s)) with
    (usage c (with_manifests (delete (m_key m) (manifests s)) (delete (m_key m) (spillers s)) (next_id s) s)).
  rewrite usage_manifests, (dsum_delete _ _ _ _ E). unfold committed_total. lia.
Qed.

Lemma retire_ready m vs s : pool_ok c s → ready (m :: vs) s →
  retire c m s = (Ok tt, without m s) ∧ ready vs (without m s) ∧
  usage c (without m s) = usage c s - allocated_bytes m.
Proof.
  intros Hs [Hnd Hin]. rewrite fmap_cons, NoDup_cons in Hnd. destruct Hnd as [Hm Hnd].
  destruct (Hin m) as (_ & cur & E & Hid & Hpin & Ha); [by left|]. split_and!.
  - unfold retire, mbind, M_bind, get. rewrite E, Hpin, bool_decide_true by done.
    by apply assert_passes, without_ok.
  - split; [done|]. intros m' Hm'. destruct (Hin m') as (Hsp & cur' & E' & Hrest); [by right|].
    assert (m_key m ≠ m_key m') by (intros Hk; apply Hm; rewrite Hk; apply list_elem_of_fmap; eauto).
    simpl. rewrite !dict_lookup_delete_ne by done. eauto.
  - by rewrite (without_usage m s cur E), Ha.
Qed.

Lemma spill_each_ready io vs s : (∀ f m s, io f m s = (Ok tt, s)) → pool_ok c s → ready vs s →
  let s' := foldl (λ s m, without m s) s vs in
  spill_each c io vs s = (Ok tt, s') ∧ pool_ok c s' ∧
  usage c s' = usage c s - zsum (allocated_bytes <$> vs).
Proof.
  intros Hio. revert s. induction vs as [|m vs IH]; intros s Hs Hr; simpl.
  { split_and!; [done..|]. unfold zsum. simpl. lia. }
  destruct (retire_ready m vs s Hs Hr) as (Hret & Hr' & Hu).
  destruct (proj2 Hr m) as ([f Ef] & _); [by left|].
  destruct (IH (without m s) (without_ok m s Hs) Hr') as (Hsp & Hok & Hu').
  unfold mbind at 1, M_bind at 1, get. rewrite Ef.
  rewrite (bind_ok _ _ s tt s) by apply Hio. rewrite (bind_ok _ _ s tt _ Hret).
  split_and!; [done..|]. rewrite Hu', Hu. unfold fmap. lia.
Qed.

(** What retiring leaves. *)
Lemma without_all vs s : dict_ok (manifests s) →
  let s' := foldl (λ s m, without m s) s vs in
  reservations s' = reservations s ∧ dict_ok (manifests s') ∧
  ∀ k, manifests s' !! k = if decide (k ∈ m_key <$> vs) then None else manifests s !! k.
Proof.
  revert s. induction vs as [|m vs IH]; intros s Hd; cbn [foldl].
  { split_and!; [done..|]. intros k. rewrite decide_False; [done|apply not_elem_of_nil]. }
  destruct (IH (without m s)) as (Hr & Hd' & Hl); [by apply delete_ok|].
  split_and!; [done..|]. intros k. rewrite Hl. cbn [without manifests with_counts with_manifests].
  destruct (decide (k = m_key m)) as [->|Hne].
  - rewrite dict_lookup_delete_eq by done.
    rewrite (decide_True (P := m_key m ∈ m_key <$> m :: vs)) by set_solver. by case_decide.
  - rewrite dict_lookup_delete_ne by done. repeat case_decide; set_solver.
Qed.

Lemma unpin_gone vs s : (∀ m, m ∈ vs → manifests s !! m_key m = None) →
  foldl (λ s m, unpin_left m s) s vs = s.
Proof.
  intros H. induction vs as [|m vs IH]; [done|]. simpl.
  unfold unpin_left at 2. rewrite H by (by left). apply IH. intros. apply H. by right.
Qed.

(** The victims [lru_victims] pinned are ready to be relocated. *)
Lemma victims_ready s required ex value s1 vs :
  pool_ok c s → lru_victims c required ex value s = (Ok vs, s1) →
  (∀ m, m ∈ vs → is_Some (spillers s !! m_key m)) →
  pool_ok c s1 ∧ ready vs s1 ∧ usage c s1 = usage c s ∧ reservations s1 = reservations s ∧
  (∀ k, k ∉ m_key <$> vs → manifests s1 !! k = manifests s !! k) ∧
  deficit_of c required s <= zsum (allocated_bytes <$> vs).
Proof.
  intros Hs Hv Hspill. pose proof (lru_victims_cases c s required ex value Hs) as Hc.
  destruct (keeps_lru_victims c required ex value s Hs) as (Hs1 & _). rewrite Hv in Hc, Hs1.
  destruct Hc as (chosen & (rest & Hpre) & -> & -> & Hsum & _ & _). simpl in Hs1.
  rewrite <- !list_fmap_compose. split_and!; [done| | |done| |]; simpl.
  - split.
    { rewrite <- list_fmap_compose. by apply (prefix_held c ex s _ rest). }
    intros m Hm. split; [by apply Hspill|]. apply list_elem_of_fmap in Hm as (m0 & -> & Hm0).
    destruct (candidates_spec c ex s m0 Hs) as [E Hsp]; [rewrite Hpre; set_solver|].
    assert (Hb : bumped 1 chosen (m_key m0) m0 = repin (pinned m0 + 1) m0)
      by (unfold bumped; rewrite decide_True; [done|apply list_elem_of_fmap; eauto]).
    exists (repin (pinned m0 + 1) m0). simpl. rewrite dmap_lookup, E. simpl. rewrite Hb.
    split_and!; [done..| |done].
    unfold spillable in Hsp. apply andb_prop in Hsp as [Hsp _]. apply andb_prop in Hsp as [_ Hsp].
    apply Z.eqb_eq in Hsp. lia.
  - rewrite usage_manifests, dsum_dmap.
    assert (dsum (λ k m, allocated_bytes (bumped 1 chosen k m)) (manifests s) = committed_total s) as ->;
      [|lia].
    apply dsum_ext. intros k m _. unfold bumped. by case_decide.
  - intros k Hk. rewrite dmap_lookup. destruct (manifests s !! k) as [m|]; [|done]. simpl.
    unfold bumped. by rewrite decide_False.
  - exact Hsum.
Qed.

Lemma spill_relocates io s required ex value s1 vs :
  pool_ok c s → (∀ f m s, io f m s = (Ok tt, s)) →
  lru_victims c required ex value s = (Ok vs, s1) →
  (∀ m, m ∈ vs → is_Some (spillers s !! m_key m)) →
  ∃ s2, spill_for_admission c io required ex value s = (Ok vs, s2) ∧ pool_ok c s2 ∧
    reservations s2 = reservations s ∧
    (∀ k, manifests s2 !! k = if decide (k ∈ m_key <$> vs) then None else manifests s !! k) ∧
    usage c s2 + required <= capacity_bytes c.
Proof.
  intros Hs Hio Hv Hspill.
  destruct (victims_ready s required ex value s1 vs Hs Hv Hspill)
    as (Hs1 & Hready & Hu1 & Hr1 & Hm1 & Hsum).
  destruct (spill_each_ready io vs s1 Hio Hs1 Hready) as (Hsp & Hok & Hu).
  destruct (without_all vs s1) as (Hr2 & _ & Hl2); [by apply Hs1|].
  set (s2 := foldl _ s1 vs) in *.
  assert (Hl : ∀ k, manifests s2 !! k = if decide (k ∈ m_key <$> vs) then None else manifests s !! k).
  { intros k. rewrite Hl2. case_decide; [done|by apply Hm1]. }
  exists s2. split_and!; [|done|congruence|done|unfold deficit_of in *; lia].
  unfold spill_for_admission. rewrite (bind_ok _ _ _ _ _ Hv). unfold try_finally.
  rewrite (bind_ok _ _ _ _ _ Hsp). unfold mret, M_ret, modify.
  rewrite unpin_gone; [done|]. intros m Hm. rewrite Hl, decide_True; [done|].
  apply list_elem_of_fmap. eauto.
Qed.

Lemma reserve_fits s k b : pool_ok c s → 0 < b →
  b <= capacity_bytes c - external_occupied_bytes c →
  reservations s !! k = None → manifests s !! k = None → usage c s + b <= capacity_bytes c →
  let s' := with_reservations (<[k := b]> (reservations s)) s in
  reserve c k b s = (Ok tt, s') ∧ usage c s' <= capacity_bytes c.
Proof.
  intros Hs Hb Hfit Hr Hm Hu s'.
  assert (Hu' : usage c s' = usage c s + b).
  { unfold s'. rewrite usage_reservations, dsum_insert_new by done. unfold reserved_total. lia. }
  split; [|lia]. destruct (keeps_reserve c k b s Hs) as (Hok & Hna & _).
  assert (E : reserve c k b s = assert_capacity c s').
  { unfold reserve, mbind, M_bind, raise_if, get, put, mret, M_ret.
    destruct (Z.leb_spec b 0); [lia|]. simpl.
    destruct (Z.ltb_spec (capacity_bytes c - external_occupied_bytes c) b); [lia|].
    rewrite Hr, Hm. simpl. destruct (Z.ltb_spec (capacity_bytes c) (usage c s + b)); [lia|]. done. }
  rewrite E in *. unfold assert_capacity, mbind, M_bind, get, raise_if.
  destruct (Z.ltb_spec (capacity_bytes c) (usage c s')); [lia|done].
Qed.

(** A spill makes room.  When the victims of an admission all have a
    spill path and their relocation succeeds, the admission succeeds: the new
    generation is reserved, exactly the victims have left the pool, every
    other snapshot is as it was, pins included, and the pool fits. *)
Theorem admission_relocates io k b v s vs s1 :
  pool_ok c s → (∀ f m s, io f m s = (Ok tt, s)) → 0 < b →
  b <= capacity_bytes c - external_occupied_bytes c →
  reservations s !! k = None → manifests s !! k = None →
  lru_victims c b [k] (Some v) s = (Ok vs, s1) →
  (∀ m, m ∈ vs → is_Some (spillers s !! m_key m)) →
  ∃ s', admit_once c io k b v s = (Ok tt, s') ∧
    reservations s' = <[k := b]> (reservations s) ∧
    (∀ k', manifests s' !! k' = if decide (k' ∈ m_key <$> vs) then None else manifests s !! k') ∧
    usage c s' <= capacity_bytes c.
Proof.
  intros Hs Hio Hb Hfit Hkr Hkm Hv Hspill.
  destruct (spill_relocates io s b [k] (Some v) s1 vs Hs Hio Hv Hspill)
    as (s2 & Hsp & Hs2 & Hr2 & Hl2 & Hu2).
  destruct (reserve_fits s2 k b Hs2 Hb Hfit) as [Hres Hu3];
    [congruence|rewrite Hl2; by case_decide|done|].
  exists (count_admission (with_reservations (<[k := b]> (reservations s2)) s2)). split_and!.
  - unfold admit_once. rewrite (bind_ok _ _ _ _ _ Hsp), (bind_ok _ _ _ _ _ Hres). done.
  - simpl. by rewrite Hr2.
  - exact Hl2.
  - exact Hu3.
Qed.
End spilling.

(** ** Witnesses *)

Definition pool0 : pool := Pool 5 4 2 ∅ ∅ ∅ ∅ ∅ ∅ 0 0 0 0.
Definition busy_pool : pool :=
  (exec_ops fixed_pool
     [Reserve (snap "a" 1) 30; Commit (snap "a" 1) (snapshot_of 25 (Some 7%nat) 1) None 10;
      Reserve (snap "b" 1) 30; Commit (snap "b" 1) (snapshot_of 30 (Some 7%nat) 1) None 20;
      Reserve (snap "c" 1) 30; Commit (snap "c" 1) (snapshot_of 30 (Some 7%nat) 1) None 5] pool0).2.

Lemma busy_pool_ok : pool_ok fixed_pool busy_pool.
Proof.
  unfold busy_pool. apply exec_ops_ok; [by apply pool_init_ok|].
  repeat (apply Forall_cons; split; [exact I|]). constructor.
Qed.

Lemma victims_minimal_prefix_witness :
  match lru_victims fixed_pool 40 [] None busy_pool with
  | (Ok vs, s') =>
      ∃ chosen, vs = (λ m, repin (pinned m + 1) m) <$> chosen ∧
        Forall (λ m, manifests busy_pool !! m_key m = Some m ∧ spillable [] m = true) chosen ∧
        deficit_of fixed_pool 40 busy_pool <= zsum (allocated_bytes <$> chosen) ∧
        (∀ i, (i < length chosen)%nat →
           zsum (allocated_bytes <$> take i chosen) < deficit_of fixed_pool 40 busy_pool) ∧
        (∀ m m', m ∈ chosen → manifests busy_pool !! m_key m' = Some m' → spillable [] m' = true →
           m' ∉ chosen → cmp_le (victim_compare fixed_pool) m m') ∧
        (∀ k, manifests s' !! k = bumped 1 chosen k <$> manifests busy_pool !! k) ∧
        (chosen ≠ [] → snapshot_aware fixed_pool = true → ∀ v, None = Some v → (value_of chosen < v)%Q)
  | (Raise _, s') => s' = busy_pool
  end ∧ m_key <$> (match lru_victims fixed_pool 40 [] None busy_pool with
                   | (Ok vs, _) => vs | _ => [] end) = [snap "c" 1; snap "a" 1].
Proof.
  split; [apply (victims_minimal_prefix fixed_pool busy_pool 40 [] None busy_pool_ok)|].
  vm_compute. reflexivity.
Defined.

Lemma admission_relocates_witness :
  ∃ s', admit_once fixed_pool quiet (snap "d" 1) 40 2 busy_pool = (Ok tt, s') ∧
    reservations s' = <[snap "d" 1 := 40]> (reservations busy_pool) ∧
    (∀ k', manifests s' !! k' =
       if decide (k' ∈ [snap "c" 1; snap "a" 1]) then None else manifests busy_pool !! k') ∧
    usage fixed_pool s' <= capacity_bytes fixed_pool.
Proof.
  destruct (lru_victims fixed_pool 40 [snap "d" 1] (Some 2%Q) busy_pool) as [[vs|e] s1] eqn:E;
    [|exfalso; revert E; vm_compute; discriminate].
  assert (Hkeys : m_key <$> vs = [snap "c" 1; snap "a" 1]).
  { transitivity (m_key <$> match (lru_victims fixed_pool 40 [snap "d" 1] (Some 2%Q) busy_pool).1 with
                            | Ok vs => vs | Raise _ => [] end); [by rewrite E|].
    vm_compute. reflexivity. }
  rewrite <- Hkeys.
  apply (admission_relocates fixed_pool quiet (snap "d" 1) 40 2 busy_pool vs s1);
    [apply busy_pool_ok|done|lia|vm_compute; discriminate|reflexivity|reflexivity|exact E|].
  intros m Hm. assert (Hk : m_key m ∈ m_key <$> vs) by (apply list_elem_of_fmap; eauto).
  rewrite Hkeys in Hk. set_unfold in Hk. destruct Hk as [-> | [-> |[]]]; vm_compute; eauto.
Defined.

(** ** Transfer slots *)

Inductive transfer_event := Enter (operation : string) | Exit (operation : string).

(** A transfer can only be left by somebody inside it. *)
Definition transfer_step (e : transfer_event) (s : pool) : option pool :=
  match e with
  | Enter o => Some (transfer_enter o s).2
  | Exit o => if 0 <? default 0 (transfers s !! o) then Some (transfer_exit o s).2 else None
  end.

Fixpoint transfer_run (es : list transfer_event) (s : pool) : option pool :=
  match es with
  | [] => Some s
  | e :: es' => s' ← transfer_step e s; transfer_run es' s'
  end.

Definition active (s : pool) : Z := dsum (λ _ n, n) (transfers s).
Definition active_snapshots (s : pool) : Z :=
  dsum (λ o n, if is_snapshot_transfer o then n else 0) (transfers s).

Record slots_ok (c : config) (s : pool) : Prop := SlotsOk {
  sl_transfers : dict_all (λ _ n, 0 <= n) (transfers s);
  sl_total : transfer_slots s + active s = transfer_concurrency c;
  sl_snapshot : snapshot_slots s + active_snapshots s = snapshot_concurrency c;
  sl_free : 0 <= transfer_slots s ∧ 0 <= snapshot_slots s;
}.

(** Adding [n] to the counter of one operation. *)
Lemma count_transfer (f : string → bool) o n (t : dict string Z) :
  dsum (λ o n, if f o then n else 0) (<[o := default 0 (t !! o) + n]> t) =
  dsum (λ o n, if f o then n else 0) t + if f o then n else 0.
Proof.
  destruct (t !! o) as [m|] eqn:E; simpl.
  - rewrite (dsum_insert _ _ _ _ _ E). destruct (f o); lia.
  - rewrite dsum_insert_new by done. destruct (f o); lia.
Qed.

Lemma slots_step c e s s' : slots_ok c s → transfer_step e s = Some s' → slots_ok c s'.
Proof.
  intros [[Hd Ht] Htot Hsnap [Hf1 Hf2]] E.
  assert (Hcount : ∀ o n, 0 <= default 0 (transfers s !! o) + n →
    slots_ok c (with_transfers (transfer_slots s - n)
      (snapshot_slots s - if is_snapshot_transfer o then n else 0)
      (<[o := default 0 (transfers s !! o) + n]> (transfers s)) s) ∨
    ¬ (0 <= transfer_slots s - n ∧ 0 <= snapshot_slots s - if is_snapshot_transfer o then n else 0)).
  { intros o n Hn. destruct (decide (0 <= transfer_slots s - n ∧
      0 <= snapshot_slots s - if is_snapshot_transfer o then n else 0)); [left|by right].
    split; [by apply dict_all_insert| | |done]; unfold active, active_snapshots in *; simpl.
    - pose proof (count_transfer (λ _, true) o n (transfers s)) as Hc. simpl in Hc. lia.
    - pose proof (count_transfer is_snapshot_transfer o n (transfers s)). lia. }
  assert (Hsame : slots_ok c s) by (by split).
  destruct e as [o|o]; simpl in E.
  - injection E as <-. unfold transfer_enter, mbind, M_bind, get, raise_if, raise, mret, M_ret, put.
    assert (Hold : 0 <= default 0 (transfers s !! o)).
    { destruct (transfers s !! o) as [m|] eqn:Em; simpl; [by apply (Ht o)|done]. }
    specialize (Hcount o 1). destruct (is_snapshot_transfer o); simpl.
    + destruct (Z.leb_spec (snapshot_slots s) 0); simpl; [done|].
      destruct (Z.leb_spec (transfer_slots s) 0); simpl; [done|].
      destruct Hcount; [lia|done|lia].
    + destruct (Z.leb_spec (transfer_slots s) 0); simpl; [done|].
      destruct Hcount; [lia|done|lia].
  - destruct (Z.ltb_spec 0 (default 0 (transfers s !! o))) as [Hpos|]; [|done]. injection E as <-.
    unfold transfer_exit, mbind, M_bind, get, put. specialize (Hcount o (-1)).
    destruct (transfers s !! o) as [m|] eqn:Em; simpl in *; [|lia].
    destruct Hcount as [Hok|Hno]; [lia| |destruct (is_snapshot_transfer o); lia].
    replace (transfer_slots s + 1) with (transfer_slots s - -1) by lia.
    replace (snapshot_slots s + (if is_snapshot_transfer o then 1 else 0)) with
      (snapshot_slots s - (if is_snapshot_transfer o then -1 else 0))
      by (destruct (is_snapshot_transfer o); lia).
    by replace (m - 1) with (m + -1) by lia.
Qed.

Lemma init_slots c s : init c = Ok s → slots_ok c s.
Proof.
  unfold init. intros E.
  repeat match type of E with (if ?b then _ else _) = _ => destruct b eqn:? ; [done|] end.
  injection E as <-. split; simpl; [apply dict_all_empty|unfold active, active_snapshots; simpl; unfold dsum, zsum; simpl; lia..|].
  match goal with H : negb _ = false |- _ => apply negb_false_iff, andb_prop in H as [?%Z.leb_le ?%Z.leb_le] end.
  lia.
Qed.

(** Transfers respect their budgets.  In every run of entered and left
    transfers, at most [transfer_concurrency] are active, at most the snapshot
    budget of them are checkpoints, restores or spills, and while the snapshot
    budget is smaller and only snapshot transfers are active, any other
    lifecycle operation enters at once: a checkpoint wave cannot starve
    creation. *)
Theorem transfer_budgets c s0 es s :
  init c = Ok s0 → transfer_run es s0 = Some s →
  active s <= transfer_concurrency c ∧ active_snapshots s <= snapshot_concurrency c ∧
  (snapshot_concurrency c < transfer_concurrency c → active s = active_snapshots s →
   ∀ o, is_snapshot_transfer o = false → is_ok (transfer_enter o s).1 = true).
Proof.
  intros Hi%init_slots Hr. assert (Hs : slots_ok c s).
  { revert s0 Hi Hr. induction es as [|e es IH]; intros s0 Hi Hr; simpl in Hr; [by simplify_eq|].
    destruct (transfer_step e s0) as [s1|] eqn:E; [|done]. simpl in Hr.
    eapply IH; [by eapply slots_step|done]. }
  destruct Hs as [_ Htot Hsnap [Hf1 Hf2]]. split_and!; [lia..|].
  intros Hlt Heq o Ho. unfold transfer_enter, mbind, M_bind, get, raise_if, mret, M_ret, put.
  rewrite Ho. simpl. destruct (Z.leb_spec (transfer_slots s) 0); [lia|done].
Qed.

Definition transfer_script : list transfer_event :=
  [Enter "checkpoint"; Enter "spill"; Enter "restore"; Enter "create"; Exit "create"].

Lemma transfer_budgets_witness :
  let s := default pool0 (transfer_run transfer_script pool0) in
  active s <= transfer_concurrency fixed_pool ∧
  active_snapshots s <= snapshot_concurrency fixed_pool ∧
  (snapshot_concurrency fixed_pool < transfer_concurrency fixed_pool →
   active s = active_snapshots s →
   ∀ o, is_snapshot_transfer o = false → is_ok (transfer_enter o s).1 = true).
Proof. apply (transfer_budgets fixed_pool pool0 transfer_script); vm_compute; reflexivity. Defined.
