(* ===== verification/SnapshotStore.v ===== *)
(** * The WARM pool as one sandbox sees it

    A sandbox's lifecycle (src/clawbox/cube/lifecycle.py) owns the snapshot keys of
    its session and role.  [SnapshotStore] is what it uses of the pool, and
    [StoreLaws] what it relies on for the keys it owns, whatever other sessions do
    to theirs; the pool of src/clawbox/experiments/snapshot_pool.py implements it. *)
From S2P Require Import Prelude Dict Ordering SnapshotPool.

(** What the pool holds under a key: a reservation, or a published snapshot (the
    identity of its manifest, whether a live VM retains it, its pins). *)
Inductive status := Absent | Reserved | Published (i : nat) (retained : bool) (pins : Z).
#[export] Instance status_eq_dec : EqDecision status.
Proof. solve_decision. Defined.

Definition owner (k : snapshot_key) : string * string := (session_id k, role k).
(** Nothing another admission may pick as a victim. *)
Definition protected (t : status) : bool := match t with Published _ r _ => r | _ => true end.

Class SnapshotStore (P : Type) := {
  store_capacity : Z;
  store_reserve : snapshot_key → Z → bool → Q → M P unit;   (** may it wait *)
  store_commit : snapshot_key → written → option snapshot_key → Q → M P unit;
  store_abort : snapshot_key → M P unit;
  store_remove : snapshot_key → bool → M P unit;
  store_retain : snapshot_key → M P unit;
  store_enter : snapshot_key → M P (option nat);            (** [consume_guard] *)
  store_exit : snapshot_key → option nat → M P unit;
  store_begin : string → M P unit;                          (** [transfer] *)
  store_end : string → M P unit;
  store_claim : snapshot_key → M P unit;                    (** a victim is pinned ... *)
  store_retire : snapshot_key → M P unit;                   (** ... relocated, *)
  store_unclaim : snapshot_key → M P unit;                  (** ... or left *)
  store_ok : P → Prop;
  held : P → snapshot_key → status;
}.

Section laws.
Context {P : Type} `{!SnapshotStore P} (who : string * string).

(** A computation keeps the pool's invariant, and the owner's keys but [k]. *)
Definition touches {A} (k : snapshot_key) (R : outcome A → status → status → Prop) (p : P) (m : M P A) : Prop :=
  store_ok (m p).2 ∧ R (m p).1 (held p k) (held (m p).2 k) ∧
  ∀ j, owner j = who → j ≠ k → held (m p).2 j = held p j.

(** The key changes exactly when the computation returns. *)
Definition on_success {A} (before : status → Prop) (after : status) (o : outcome A) (t t' : status) : Prop :=
  if is_ok o then before t ∧ t' = after else t' = t.
Definition is_published (n : Z) (t : status) : Prop := ∃ i r, t = Published i r n.
Definition any_published (t : status) : Prop := ∃ n, is_published n t.
Definition retained_state (t : status) : status := match t with Published i _ n => Published i true n | t => t end.
Definition pinned_by (d : Z) (t : status) : status := match t with Published i r n => Published i r (n + d) | t => t end.
Definition is_token (i : option nat) (t : status) : Prop :=
  match t with Published j _ _ => i = Some j | _ => i = None end.

Class StoreLaws : Prop := {
  law_reserve : ∀ k b w v (p : P), store_ok p → owner k = who → (∀ j, owner j = who → protected (held p j)) →
    touches k (on_success (λ t, t = Absent) Reserved) p (store_reserve k b w v);
  law_commit : ∀ (k : snapshot_key) (w : written) (r : option snapshot_key) (now : Q) (p : P), store_ok p → owner k = who →
    store_ok (store_commit k w r now p).2 ∧
    if is_ok (store_commit k w r now p).1
    then held p k = Reserved ∧ r ≠ Some k ∧ (∃ i, held (store_commit k w r now p).2 k = Published i false 0) ∧
         (∀ j, owner j = who → j ≠ k → held (store_commit k w r now p).2 j = if decide (r = Some j) then Absent else held p j)
    else ∀ j, owner j = who → held (store_commit k w r now p).2 j = held p j;
  law_abort : ∀ k (p : P), store_ok p → owner k = who →
    touches k (λ o t t', is_ok o = true ∧ t' = match t with Reserved => Absent | t => t end) p (store_abort k);
  law_remove : ∀ k (b : bool) (p : P), store_ok p → owner k = who →
    touches k (on_success (is_published (if b then 1 else 0)) Absent) p (store_remove k b);
  law_retain : ∀ k (p : P), store_ok p → owner k = who →
    touches k (λ o t t', if is_ok o then any_published t ∧ t' = retained_state t else t' = t) p (store_retain k);
  law_enter : ∀ k (p : P), store_ok p → owner k = who →
    touches k (λ o t t', ∃ i, o = Ok i ∧ is_token i t ∧ t' = pinned_by 1 t) p (store_enter k);
  law_exit : ∀ k i (p : P), store_ok p → owner k = who →
    touches k (λ o t t', is_ok o = true ∧ (is_token i t → t' = pinned_by (-1) t) ∧ (t = Absent → t' = Absent)) p (store_exit k i);
  law_begin : ∀ op (p : P), store_ok p → store_ok (store_begin op p).2 ∧ ∀ j, held (store_begin op p).2 j = held p j;
  law_end : ∀ op (p : P), store_ok p → store_ok (store_end op p).2 ∧ ∀ j, held (store_end op p).2 j = held p j;
  law_claim : ∀ k (p : P), store_ok p → owner k = who →
    touches k (λ o t t', if is_ok o then (∃ i, t = Published i false 0) ∧ t' = pinned_by 1 t else t' = t) p (store_claim k);
  law_retire : ∀ k (p : P), store_ok p → owner k = who →
    touches k (λ o t t', (is_published 1 t → is_ok o = true) ∧ on_success (is_published 1) Absent o t t') p (store_retire k);
  law_unclaim : ∀ k (p : P), store_ok p → owner k = who →
    touches k (λ o t t', is_ok o = true ∧ (is_published 1 t → t' = pinned_by (-1) t) ∧ (t = Absent → t' = Absent)) p (store_unclaim k);
}.
End laws.

(** ** The WARM pool implements it *)

Section warm.
Context (c : SnapshotPool.config) (io : spiller → manifest → M pool unit) (waits : list (pool → pool)).

Definition warm_held (p : pool) (k : snapshot_key) : status :=
  match manifests p !! k with
  | Some m => Published (m_id m) (retained_by_vm m) (pinned m)
  | None => if reservations p !! k then Reserved else Absent
  end.

(** A victim of another admission: pinned, then relocated or left. *)
Definition claim (k : snapshot_key) : M pool unit :=
  m ← manifest_of k;
  raise_if (negb (spillable [] m)) (WarmCapacityError "WARM capacity has no spillable LRU prefix") ;;
  modify (bump 1 m).
Definition retire_claimed (k : snapshot_key) : M pool unit := m ← manifest_of k; retire c m.
Definition unclaim (k : snapshot_key) : M pool unit :=
  modify (λ p, match manifests p !! k with Some m => unpin_left m p | None => p end).

Definition warm_store : SnapshotStore pool := {|
  store_capacity := capacity_bytes c;
  store_reserve k b w v := reserve_for_admission c io (if w then waits else []) k b v;
  store_commit k w r now := commit c k w r now ;; mret tt;
  store_abort := abort;
  store_remove k b := remove k b ;; mret tt;
  store_retain := retain_for_vm;
  store_enter k := m ← consume_enter k; mret (m_id <$> m);
  store_exit k i := p ← get; consume_exit k (m ← manifests p !! k; if decide (Some (m_id m) = i) then Some m else None);
  store_begin := transfer_enter;
  store_end := transfer_exit;
  store_claim := claim;
  store_retire := retire_claimed;
  store_unclaim := unclaim;
  store_ok := pool_ok c;
  held := warm_held;
|}.
End warm.

Section warm_laws.
Context (c : SnapshotPool.config) (who : string * string).
Notation mine k := (owner k = who).

(** Changes of the pool that leave the owner's keys alone. *)
Definition leaves (p p' : pool) : Prop := ∀ j, mine j → warm_held p' j = warm_held p j.

Lemma leaves_trans p1 p2 p3 : leaves p1 p2 → leaves p2 p3 → leaves p1 p3.
Proof. intros H1 H2 j Hj. by rewrite H2, H1. Qed.

Lemma leaves_set m p : ¬ mine (m_key m) → leaves p (set_manifest m p).
Proof.
  intros Hm j Hj. unfold warm_held. cbn. rewrite dict_lookup_insert_ne; [done|]. intros E. apply Hm. by rewrite E.
Qed.
Lemma leaves_drop m sp i p : ¬ mine (m_key m) → leaves p (with_manifests (delete (m_key m) (manifests p)) sp i p).
Proof.
  intros Hm j Hj. unfold warm_held. cbn. rewrite dict_lookup_delete_ne; [done|]. intros E. apply Hm. by rewrite E.
Qed.
Lemma leaves_bump n m p : pool_ok c p → ¬ mine (m_key m) → leaves p (bump n m p).
Proof.
  intros Hp Hm. unfold bump. destruct (manifests p !! m_key m) as [cur|] eqn:E; [|done]. case_decide; [|done].
  apply leaves_set. destruct (proj2 (po_manifests c p Hp) _ _ E) as [Hk _]. change (¬ mine (m_key cur)). by rewrite Hk.
Qed.
Lemma leaves_unpin m p : pool_ok c p → ¬ mine (m_key m) → leaves p (unpin_left m p).
Proof.
  intros Hp Hm. unfold unpin_left. destruct (manifests p !! m_key m) as [cur|] eqn:E; [|done]. case_decide; [|done].
  apply leaves_set. destruct (proj2 (po_manifests c p Hp) _ _ E) as [Hk _]. change (¬ mine (m_key cur)). by rewrite Hk.
Qed.
Lemma leaves_fold (f : manifest → pool → pool) vs p : (∀ m p, pool_ok c p → pool_ok c (f m p)) →
  (∀ m p, pool_ok c p → ¬ mine (m_key m) → leaves p (f m p)) → Forall (λ m, ¬ mine (m_key m)) vs → pool_ok c p →
  leaves p (foldl (λ p m, f m p) p vs).
Proof.
  intros Hok Hf Hvs. revert p. induction Hvs as [|m vs Hm _ IH]; intros p Hp; cbn; [done|].
  eapply leaves_trans; [by apply Hf|]. apply IH. by apply Hok.
Qed.

Lemma collect_sub l : ∀ d r vs n, collect d r l = (vs, n) → vs ⊆ l.
Proof.
  induction l as [|m l IH]; intros d r vs n; cbn; [by intros [= <- _]|]. destruct (d <=? _); [intros [= <- _]; set_solver|].
  destruct (collect d _ l) as [vs' n'] eqn:E. intros [= <- _]. apply IH in E. set_solver.
Qed.

(** Victims are spillable, hence someone else's while the owner's keys are protected. *)
Definition guarded (p : pool) : Prop := ∀ j, mine j → protected (warm_held p j) = true.

Lemma candidates_others ex p : pool_ok c p → guarded p → Forall (λ m, ¬ mine (m_key m)) (candidates c ex p).
Proof.
  intros Hp Hg. unfold candidates. apply Forall_forall. intros m Hm. rewrite (sort_by_perm _ _) in Hm.
  apply list_elem_of_filter in Hm as [Hs Hin]. unfold vals in Hin. apply list_elem_of_fmap in Hin as ([k m'] & -> & Hin).
  cbn in *. apply dict_elem_lookup in Hin; [|apply (po_manifests c p Hp)].
  destruct (proj2 (po_manifests c p Hp) _ _ Hin) as [Hk _]. intros Hw. specialize (Hg _ Hw). unfold warm_held in Hg.
  rewrite Hk, Hin in Hg. cbn in Hg. apply Is_true_true in Hs. unfold spillable in Hs. rewrite Hg in Hs. by rewrite andb_false_r in Hs.
Qed.

Lemma guarded_leaves p p' : leaves p p' → guarded p → guarded p'.
Proof. intros H Hg j Hj. rewrite H by done. by apply Hg. Qed.

(** Computations that leave the owner's protected keys alone, and what they return. *)
Definition calm {A} (Q : A → Prop) (m : M pool A) : Prop := ∀ p, pool_ok c p → guarded p →
  kept c p (m p) ∧ leaves p (m p).2 ∧ match (m p).1 with Ok a => Q a | Raise _ => True end.
Notation any := (λ _, True).

Lemma calm_of {A} (m : M pool A) : keeps c m → (∀ p, pool_ok c p → guarded p → leaves p (m p).2) → calm any m.
Proof. intros Hk Hm p Hp Hg. split_and!; [by apply Hk|by apply Hm|by destruct (m p).1]. Qed.
Lemma calm_ret {A} (Q : A → Prop) (a : A) : Q a → calm Q (mret a : M pool A).
Proof. intros Ha p Hp Hg. split_and!; [by apply kept_same|done..]. Qed.
Lemma calm_raise {A} (Q : A → Prop) e : is_assertion e = false → calm Q (raise e : M pool A).
Proof. intros He p Hp Hg. split_and!; [by apply kept_same|done..]. Qed.
Lemma calm_raise_if b e : is_assertion e = false → calm any (raise_if b e : M pool unit).
Proof. destruct b; [apply calm_raise|intros; by apply calm_ret]. Qed.
Lemma calm_bind {A B} (Q : A → Prop) (R : B → Prop) (m : M pool A) (k : A → M pool B) :
  calm Q m → (∀ a, Q a → calm R (k a)) → calm R (m ≫= k).
Proof.
  intros Hm Hn p Hp Hg. destruct (Hm p Hp Hg) as (Hk & Hl & Hq). unfold mbind, M_bind.
  destruct (m p) as [[a|e] p']; [|by split_and!]. destruct (Hn a Hq p') as (Hk' & Hl' & Hr); [apply Hk|by eapply guarded_leaves|].
  split_and!; [by eapply kept_trans|by eapply leaves_trans|done].
Qed.
Lemma calm_read {A} (Q : A → Prop) (k : pool → M pool A) : (∀ s, pool_ok c s → guarded s → calm Q (k s)) → calm Q (get ≫= k).
Proof. intros H p Hp Hg. rewrite bind_get. by apply H. Qed.
Lemma calm_except {A} (Q : A → Prop) (m : M pool A) h : calm Q m → (∀ e, is_assertion e = false → calm Q (h e)) → calm Q (try_except m h).
Proof.
  intros Hm Hn p Hp Hg. destruct (Hm p Hp Hg) as (Hk & Hl & Hq). unfold try_except.
  destruct (m p) as [[a|e] p']; [done|]. destruct Hk as (Hp' & He & Hu). destruct (Hn e He p') as ((? & ? & ?) & Hl' & Hr); [done|by eapply guarded_leaves|].
  split_and!; [|by eapply leaves_trans|done]. split_and!; [done..|]. cbn in *. lia.
Qed.
Lemma calm_finally {A} (Q : A → Prop) (m : M pool A) fin : calm Q m → calm any fin → calm Q (try_finally m fin).
Proof.
  intros Hm Hf p Hp Hg. destruct (Hm p Hp Hg) as (Hk & Hl & Hq). unfold try_finally. destruct (m p) as [o p'].
  destruct Hk as (Hp' & He & Hu). destruct (Hf p' Hp' (guarded_leaves _ _ Hl Hg)) as ((? & Ho & ?) & Hl' & _).
  destruct (fin p') as [o' p'']. cbn in *. split_and!; [split_and!; cbn; [done|by destruct o'|lia]|by eapply leaves_trans|by destruct o'].
Qed.
Lemma calm_count w : calm any (modify (λ s, with_counts (w s).1.1 (w s).1.2 (w s).2 s)).
Proof. apply calm_of; [apply keeps_count|done]. Qed.
Lemma calm_fold (f : manifest → pool → pool) vs : (∀ m s, pool_ok c s → pool_ok c (f m s) ∧ usage c (f m s) <= usage c s) →
  (∀ m p, pool_ok c p → ¬ mine (m_key m) → leaves p (f m p)) → Forall (λ m, ¬ mine (m_key m)) vs →
  calm any (modify (λ s, foldl (λ s m, f m s) s vs)).
Proof.
  intros Hok Hf Hvs. apply calm_of; [by apply keeps_fold|]. intros p Hp Hg. cbn. apply leaves_fold; [|done..]. intros. by apply Hok.
Qed.
Lemma calm_bump n vs : Forall (λ m, ¬ mine (m_key m)) vs → calm any (modify (bump_all n vs)).
Proof. intros Hvs. apply (calm_fold (bump n)); [by intros; apply bump_ok|by intros; apply leaves_bump|done]. Qed.

Notation others := (Forall (λ m : manifest, ¬ mine (m_key m))).
Lemma calm_victims n ex v : calm others (lru_victims c n ex v).
Proof.
  unfold lru_victims. eapply calm_bind; [by apply calm_raise_if|intros _ _]. apply calm_read. intros s Hs Hg.
  destruct (_ && _); [by apply calm_ret|]. eapply calm_bind; [by apply calm_raise_if|intros _ _].
  eapply calm_bind; [by apply calm_raise_if|intros _ _]. cbv zeta. destruct (_ =? 0); [by apply calm_ret|].
  destruct (collect _ _ _) as [vs r] eqn:E. apply collect_sub in E.
  assert (others vs) as Hvs.
  { apply Forall_forall. intros m Hm. apply E in Hm. revert m Hm. by apply Forall_forall, candidates_others. }
  eapply calm_bind; [by apply calm_bump|intros _ _].
  destruct (_ <? _); [eapply calm_bind; [by apply calm_bump|intros _ _; by apply calm_raise]|].
  destruct (_ && _); [eapply calm_bind; [by apply calm_bump|intros _ _; by apply calm_raise]|].
  apply calm_ret. by apply Forall_fmap.
Qed.
Lemma calm_retire m : ¬ mine (m_key m) → calm any (retire c m).
Proof.
  intros Hm. apply calm_of; [apply keeps_retire|]. intros p Hp Hg. unfold retire. rewrite bind_get. destruct (manifests p !! m_key m); [|done].
  rewrite bind_raise_if. destruct (_ || _); [done|]. rewrite bind_put.
  unfold assert_capacity. rewrite bind_get. unfold raise_if. destruct (_ && _); by apply leaves_drop.
Qed.

(** What the spill callbacks and other threads do in between. *)
Context (io : spiller → manifest → M pool unit) (Hio : ∀ f m, calm any (io f m)).

Lemma calm_each vs : others vs → calm any (spill_each c io vs).
Proof.
  induction 1 as [|m vs Hm _ IH]; cbn [spill_each]; [by apply calm_ret|]. apply calm_read. intros s _ _. destruct (spillers s !! m_key m); [|by apply calm_raise].
  eapply calm_bind; [apply Hio|intros _ _]. eapply calm_bind; [by apply calm_retire|intros _ _; exact IH].
Qed.
Lemma calm_spill n ex v : calm any (spill_for_admission c io n ex v).
Proof.
  unfold spill_for_admission. eapply calm_bind; [apply calm_victims|]. intros vs Hvs. apply calm_finally.
  - eapply calm_bind; [by apply calm_each|]. intros _ _. by apply calm_ret.
  - apply (calm_fold unpin_left); [by intros; apply unpin_left_ok|by intros; apply leaves_unpin|done].
Qed.

(** ** Reservations *)

Definition books (k : snapshot_key) (p : pool) (r : outcome unit * pool) : Prop :=
  kept c p r ∧
  if is_ok r.1 then warm_held p k = Absent ∧ warm_held r.2 k = Reserved ∧ ∀ j, mine j → j ≠ k → warm_held r.2 j = warm_held p j
  else leaves p r.2.

Lemma reserve_books k b p : pool_ok c p → books k p (reserve c k b p).
Proof.
  intros Hp. pose proof (keeps_reserve c k b p Hp) as Hk. split; [done|]. revert Hk. unfold reserve.
  rewrite bind_raise_if. destruct (b <=? 0); [done|]. rewrite bind_get, bind_raise_if. destruct (_ <? b); [done|]. rewrite bind_raise_if.
  destruct (bool_decide (is_Some (reservations p !! k))) eqn:Er, (bool_decide (is_Some (manifests p !! k))) eqn:Em; try done. cbn [orb].
  apply bool_decide_eq_false, eq_None_not_Some in Er, Em. rewrite bind_raise_if. destruct (_ <? _); [done|]. rewrite bind_put.
  unfold assert_capacity. rewrite bind_get. unfold raise_if. destruct (_ && _); [by intros (_ & ? & _)|]. intros _. cbn.
  unfold warm_held. cbn. rewrite Er, Em, dict_lookup_insert_eq. split_and!; [done..|]. intros j _ Hj. by rewrite dict_lookup_insert_ne.
Qed.

Lemma calm_books {A} Q (m : M pool A) (n : A → M pool unit) k p : calm Q m → pool_ok c p → guarded p → mine k →
  (∀ a p', Q a → pool_ok c p' → guarded p' → books k p' (n a p')) → books k p ((m ≫= n) p).
Proof.
  intros Hm Hp Hg Hk Hn. destruct (Hm p Hp Hg) as (Hkp & Hl & Hq). unfold mbind, M_bind. destruct (m p) as [[a|e] p']; [|done].
  destruct (Hn a p' Hq) as [Hk' Hb]; [apply Hkp|by eapply guarded_leaves|]. split; [by eapply kept_trans|]. cbn [snd] in *.
  destruct (is_ok _); [|by eapply leaves_trans]. rewrite Hl in Hb by done. destruct Hb as (? & ? & Hj).
  split_and!; [done..|]. intros j Hjm Hne. by rewrite Hj, Hl.
Qed.

Lemma admit_books k b v p : pool_ok c p → guarded p → mine k → books k p (admit_once c io k b v p).
Proof.
  intros Hp Hg Hk. unfold admit_once. eapply calm_books; [apply calm_spill|done..|]. intros _ p1 _ Hp1 Hg1.
  pose proof (reserve_books k b p1 Hp1) as [Hk1 Hb1]. unfold mbind, M_bind. destruct (reserve c k b p1) as [[[]|e] p2]; [|done].
  pose proof (keeps_count c (λ s, (warm_admissions s + 1, value_rejections s, spill_count s)) p2 (proj1 Hk1)) as Hk2.
  split; [exact (kept_trans c _ _ tt _ Hk1 Hk2)|]. exact Hb1.
Qed.

Lemma admission_books waits k b v p : Forall (λ f, calm any (modify f)) waits → pool_ok c p → guarded p → mine k →
  books k p (reserve_for_admission c io waits k b v p).
Proof.
  intros Hw. revert p. induction Hw as [|w waits Hw _ IH]; intros p Hp Hg Hk; cbn [reserve_for_admission];
    pose proof (admit_books k b v p Hp Hg Hk) as [Ha Hb]; unfold try_except; destruct (admit_once c io k b v p) as [[[]|e] p1]; try done;
    cbn [is_ok fst snd] in Hb; destruct Ha as (Hp1 & He & Hu); cbn in Hp1, He, Hu; pose proof (guarded_leaves _ _ Hb Hg) as Hg1.
  - assert (books k p (Raise e, p1)) as Hr by (split; [split_and!; done|exact Hb]).
    destruct e; try exact Hr. cbn. split; [split_and!; [by apply counts_ok|done|exact Hu]|exact Hb].
  - assert (books k p (Raise e, p1)) as Hr by (split; [split_and!; done|exact Hb]).
    destruct e; try exact Hr; [|cbn; split; [split_and!; [by apply counts_ok|done|exact Hu]|exact Hb]].
    assert (books k p1 ((modify w ≫= λ _, reserve_for_admission c io waits k b v) p1)) as [(H1 & H2 & H3) H4].
    { eapply calm_books; [exact Hw|done..|]. intros. by apply IH. }
    split; [split_and!; [done..|lia]|]. destruct (is_ok _); [|by eapply leaves_trans].
    destruct H4 as (H4 & H5 & H6). rewrite Hb in H4 by done. split_and!; [done..|]. intros j Hj Hne. by rewrite H6, Hb.
Qed.

Lemma held_set k m p : m_key m = k → warm_held (set_manifest m p) k = Published (m_id m) (retained_by_vm m) (pinned m).
Proof. intros <-. unfold warm_held. cbn. by rewrite dict_lookup_insert_eq. Qed.
Lemma held_set_ne j m p : m_key m ≠ j → warm_held (set_manifest m p) j = warm_held p j.
Proof. intros Hne. unfold warm_held. cbn. by rewrite dict_lookup_insert_ne. Qed.
Lemma held_absent k p : pool_ok c p → is_Some (manifests p !! k) → ∀ sp i,
  warm_held (with_manifests (delete k (manifests p)) sp i p) k = Absent.
Proof.
  intros Hp Hm sp i. unfold warm_held. cbn. rewrite dict_lookup_delete_eq by apply (po_manifests c p Hp).
  destruct (reservations p !! k) as [b|] eqn:E; [|done].
  rewrite (po_disjoint c p Hp k) in Hm by done. by destruct Hm.
Qed.
Lemma held_absent_ne k j p sp i : k ≠ j → warm_held (with_manifests (delete k (manifests p)) sp i p) j = warm_held p j.
Proof. intros Hne. unfold warm_held. cbn. by rewrite dict_lookup_delete_ne. Qed.

Lemma commit_held k w r now p : pool_ok c p →
  if is_ok (commit c k w r now p).1
  then warm_held p k = Reserved ∧ r ≠ Some k ∧ (∃ i, warm_held (commit c k w r now p).2 k = Published i false 0) ∧
       ∀ j, j ≠ k → warm_held (commit c k w r now p).2 j = if decide (r = Some j) then Absent else warm_held p j
  else ∀ j, warm_held (commit c k w r now p).2 j = warm_held p j.
Proof.
  intros Hp. pose proof (keeps_commit c k w r now p Hp) as (_ & Ha & _). revert Ha. unfold commit. rewrite bind_raise_if. destruct (_ || _); [done|].
  rewrite bind_get. cbv zeta. rewrite bind_raise_if.
  destruct (match r with Some r0 => _ | None => false end) eqn:Hb; [done|]. destruct (reservations p !! k) as [res|] eqn:Er; [|done].
  pose proof (po_disjoint c p Hp k ltac:(eauto)) as Hm0. destruct (_ <? w_allocated w).
  { rewrite bind_put. intros _ j. unfold raise, warm_held. cbn. destruct (decide (j = k)) as [->|Hj].
    - by rewrite Hm0, Er, dict_lookup_insert_eq.
    - by rewrite dict_lookup_insert_ne, dict_lookup_delete_ne. }
  set (m := published _ _ _ _). set (pred := r ≫= _).
  assert (r ≠ Some k) as Hrk.
  { intros ->. unfold pred, bad_predecessor in Hb. cbn in Hb. by rewrite Hm0 in Hb. }
  destruct (match pred, r with Some _, Some r0 => _ | _, _ => _ end) as [ms sp] eqn:Ems. rewrite bind_put.
  assert (∀ j, ms !! j = if decide (j = k) then Some m else if decide (r = Some j) then None else manifests p !! j) as Hms.
  { intros j. pose proof (insert_ok (manifests p) k m (proj1 (po_manifests c p Hp))) as Hd.
    destruct r as [r0|]; [unfold pred in Ems; cbn in Ems, Hb, pred|subst pred; cbn in Ems; injection Ems as <- _].
    - unfold pred in Hb. cbn in Hb. destruct (manifests p !! r0) as [mp|] eqn:Emp; [|done]. injection Ems as <- _.
      destruct (decide (j = r0)) as [->|Hjr].
      + rewrite dict_lookup_delete_eq by done. rewrite decide_False by (intros ->; done). by rewrite decide_True.
      + rewrite dict_lookup_delete_ne by done. destruct (decide (j = k)) as [->|Hjk]; [by rewrite dict_lookup_insert_eq|].
        rewrite dict_lookup_insert_ne by done. rewrite decide_False; [done|]. by intros [= ->].
    - destruct (decide (j = k)) as [->|Hjk]; [by rewrite dict_lookup_insert_eq|]. by rewrite dict_lookup_insert_ne. }
  unfold assert_capacity. unfold mbind, M_bind, get, raise_if. destruct (_ && _); [by intros|]. intros _. cbn. unfold warm_held. cbn.
  rewrite Hm0, Er. split_and!; [done|done| |].
  - exists (next_id p). rewrite Hms, decide_True by done. done.
  - intros j Hj. rewrite Hms, decide_False by done. rewrite dict_lookup_delete_ne by done. destruct (decide (r = Some j)) as [->|]; [|done].
    cbn in Hb. unfold pred in Hb. cbn in Hb. destruct (manifests p !! j) eqn:Ej; [|done].
    destruct (reservations p !! j) eqn:Erj; [|done]. by rewrite (po_disjoint c p Hp j) in Ej by (by eexists).
Qed.

Context (waits : list (pool → pool)) (Hwaits : Forall (λ f, calm any (modify f)) waits).
#[local] Instance store : SnapshotStore pool := warm_store c io waits.

Lemma law_transfers op p : pool_ok c p →
  (pool_ok c (transfer_enter op p).2 ∧ ∀ j, warm_held (transfer_enter op p).2 j = warm_held p j) ∧
  (pool_ok c (transfer_exit op p).2 ∧ ∀ j, warm_held (transfer_exit op p).2 j = warm_held p j).
Proof.
  intros Hp. assert (∀ a b t, pool_ok c (with_transfers a b t p)) as Hok by (intros; destruct Hp; by constructor).
  split; unfold transfer_enter, transfer_exit; rewrite bind_get.
  - rewrite bind_raise_if. destruct (_ && _); [done|]. rewrite bind_raise_if. destruct (_ <=? _); [done|]. by split; [apply Hok|].
  - destruct (transfers p !! op); [|done]. by split; [apply Hok|].
Qed.

Lemma claim_held k p : pool_ok c p →
  pool_ok c (claim k p).2 ∧ (∀ j, j ≠ k → warm_held (claim k p).2 j = warm_held p j) ∧
  if is_ok (claim k p).1 then ∃ i, warm_held p k = Published i false 0 ∧ warm_held (claim k p).2 k = Published i false 1
  else warm_held (claim k p).2 k = warm_held p k.
Proof.
  intros Hp. unfold claim, manifest_of, mbind, M_bind, get, mret, M_ret. destruct (manifests p !! k) as [m|] eqn:E; [|done].
  destruct (proj2 (po_manifests c p Hp) _ _ E) as [Hk _]. unfold raise_if. destruct (spillable [] m) eqn:Es; [|done]. cbn.
  split; [by apply bump_ok|]. unfold spillable in Es. apply andb_prop in Es as [Es Hr%negb_true_iff]. apply andb_prop in Es as [_ Hn%Z.eqb_eq].
  unfold bump. rewrite Hk, E, decide_True by done. split.
  - intros j Hj. apply held_set_ne. cbn. congruence.
  - exists (m_id m). split; [unfold warm_held; rewrite E; by rewrite Hr, Hn|]. rewrite held_set by done. cbn. by rewrite Hr, Hn.
Qed.

Lemma bind_manifest {A} k (n : manifest → M pool A) p : (manifest_of k ≫= n) p =
  match manifests p !! k with Some m => n m p | None => (Raise (KeyError "snapshot"), p) end.
Proof. unfold manifest_of, mbind, M_bind, get. by destruct (manifests p !! k). Qed.

Lemma retire_held k p : pool_ok c p →
  pool_ok c (retire_claimed c k p).2 ∧ (∀ j, j ≠ k → warm_held (retire_claimed c k p).2 j = warm_held p j) ∧
  (is_published 1 (warm_held p k) → is_ok (retire_claimed c k p).1 = true) ∧
  on_success (is_published 1) Absent (retire_claimed c k p).1 (warm_held p k) (warm_held (retire_claimed c k p).2 k).
Proof.
  intros Hp. unfold retire_claimed. rewrite bind_manifest. destruct (manifests p !! k) as [m|] eqn:E.
  2:{ split_and!; [done..| |done]. intros (i & r & H). revert H. unfold warm_held. rewrite E. by destruct (reservations p !! k). }
  destruct (proj2 (po_manifests c p Hp) _ _ E) as [Hk _].
  pose proof (keeps_retire c m p Hp) as (Hok & Ha & _). revert Hok Ha. unfold retire. rewrite bind_get, Hk, E, bind_raise_if.
  rewrite bool_decide_eq_true_2 by done. cbn [negb orb]. destruct (Z.eqb_spec (pinned m) 1) as [Hn|Hn]; cbn [negb].
  2:{ intros _ _. split_and!; [done..| |done]. intros (i & r & H). revert H. unfold warm_held. rewrite E. by intros [= _ _ ?]. }
  rewrite bind_put. unfold assert_capacity. rewrite bind_get. unfold raise_if. destruct (_ && _); [by intros|]. intros Hok _. split_and!.
  - exact Hok.
  - intros j Hj. exact (held_absent_ne k j p _ _ (not_eq_sym Hj)).
  - done.
  - split; [unfold warm_held; rewrite E, Hn; by eexists _, _|]. apply (held_absent k p Hp). by rewrite E.
Qed.

Lemma abort_held k p : pool_ok c p →
  pool_ok c (abort k p).2 ∧ (∀ j, j ≠ k → warm_held (abort k p).2 j = warm_held p j) ∧
  warm_held (abort k p).2 k = match warm_held p k with Reserved => Absent | t => t end.
Proof.
  intros Hp. split; [apply (keeps_abort c k p Hp)|]. unfold abort, modify, warm_held. cbn. split.
  - intros j Hj. by rewrite dict_lookup_delete_ne.
  - destruct (manifests p !! k); [done|]. rewrite dict_lookup_delete_eq by apply (po_reservations c p Hp). by destruct (reservations p !! k).
Qed.

Lemma remove_held k (b : bool) p : pool_ok c p → touches who k (on_success (is_published (if b then 1 else 0)) Absent) p (store_remove k b).
Proof.
  intros Hp. pose proof (keeps_remove c k b p Hp) as (Hok & _ & _).
  assert (remove k b p = match manifests p !! k with
    | Some m => if pinned m =? (if b then 1 else 0) then (Ok m, with_manifests (delete k (manifests p)) (delete k (spillers p)) (next_id p) p)
                else (Raise (RuntimeError "cannot remove pinned snapshot"), p)
    | None => (Raise (KeyError "snapshot"), p) end) as E.
  { unfold remove. rewrite bind_manifest. destruct (manifests p !! k) as [m|]; [|done]. rewrite bind_raise_if. by destruct (_ =? _). }
  unfold touches. cbn. unfold mbind, M_bind. revert Hok. rewrite E. destruct (manifests p !! k) as [m|] eqn:Em; [|done].
  destruct (Z.eqb_spec (pinned m) (if b then 1 else 0)) as [Hn|Hn]; [|done]. cbn. intros Hok. split_and!; [done| | |].
  - unfold warm_held. rewrite Em, Hn. by eexists _, _.
  - apply held_absent; [done|]. by rewrite Em.
  - intros j _ Hj. by apply held_absent_ne.
Qed.

Lemma enter_held k p : pool_ok c p →
  touches who k (λ o t t', ∃ i, o = Ok i ∧ is_token i t ∧ t' = pinned_by 1 t) p (store_enter k).
Proof.
  intros Hp. pose proof (keeps_consume_enter c k p Hp) as (Hok & _ & _).
  assert (consume_enter k p = match manifests p !! k with
    | Some m => (Ok (Some (repin (pinned m + 1) m)), set_manifest (repin (pinned m + 1) m) p) | None => (Ok None, p) end) as E.
  { unfold consume_enter. rewrite bind_get. by destruct (manifests p !! k). }
  unfold touches. cbn. unfold mbind, M_bind. revert Hok. rewrite E. destruct (manifests p !! k) as [m|] eqn:Em; cbn; intros Hok.
  - destruct (proj2 (po_manifests c p Hp) _ _ Em) as [Hk _]. rewrite held_set by done. split_and!; [done| |].
    + exists (Some (m_id m)). unfold warm_held. by rewrite Em.
    + intros j _ Hj. apply held_set_ne. cbn. congruence.
  - split_and!; [done| |done]. exists None. unfold warm_held. rewrite Em. by destruct (reservations p !! k).
Qed.

Lemma exit_held k i p : pool_ok c p →
  touches who k (λ o t t', is_ok o = true ∧ (is_token i t → t' = pinned_by (-1) t) ∧ (t = Absent → t' = Absent)) p (store_exit k i).
Proof.
  intros Hp. unfold touches. cbn. rewrite bind_get. destruct (manifests p !! k) as [m|] eqn:E; cbn.
  2:{ unfold consume_exit. rewrite bind_get. cbn. split_and!; [done..| |done|done]. unfold warm_held. rewrite E. by destruct (reservations p !! k). }
  destruct (proj2 (po_manifests c p Hp) _ _ E) as [Hk _]. case_decide as Hi.
  - pose proof (keeps_consume_exit c k (Some m) p Hp) as (Hok & _ & _). revert Hok. unfold consume_exit. rewrite bind_get, E, decide_True by done. cbn.
    intros Hok. rewrite held_set by done. split_and!; [done|done| | |].
    + intros _. unfold warm_held. by rewrite E.
    + unfold warm_held. by rewrite E.
    + intros j _ Hj. apply held_set_ne. cbn. congruence.
  - unfold consume_exit. rewrite bind_get. cbn. split_and!; [done..| |done|done]. unfold warm_held. rewrite E. by intros ->.
Qed.

Lemma unclaim_held k p : pool_ok c p →
  touches who k (λ o t t', is_ok o = true ∧ (is_published 1 t → t' = pinned_by (-1) t) ∧ (t = Absent → t' = Absent)) p (store_unclaim k).
Proof.
  intros Hp. unfold touches. cbn. unfold unclaim, modify. cbn. destruct (manifests p !! k) as [m|] eqn:E.
  2:{ split_and!; [done..| |done|done]. intros (i & r & H). revert H. unfold warm_held. rewrite E. by destruct (reservations p !! k). }
  destruct (proj2 (po_manifests c p Hp) _ _ E) as [Hk _]. split; [by apply unpin_left_ok|].
  assert (warm_held p k = Published (m_id m) (retained_by_vm m) (pinned m)) as Hh by (unfold warm_held; by rewrite E).
  rewrite Hh. unfold unpin_left. rewrite Hk, E. case_decide as Hd.
  - rewrite held_set by done. split; [by split_and!|]. intros j _ Hj. apply held_set_ne. cbn. congruence.
  - split; [|done]. split; [done|]. split; [|done]. intros (i & r & H). injection H as _ _ Hn. destruct Hd. split; [done|lia].
Qed.

Lemma warm_store_laws : @StoreLaws pool (warm_store c io waits) who.
Proof.
  split.
  - intros k b w v p Hp Hk Hg. cbn in Hp. assert (books k p (store_reserve k b w v p)) as [(Hok & _ & _) Hb].
    { apply admission_books; [by destruct w|done| |done]. intros j Hj. by apply Is_true_true, Hg. }
    split; [exact Hok|]. unfold on_success. revert Hb. destruct (is_ok _); [intros (? & ? & ?); by split_and!|]. intros Hl. split; [by apply Hl|].
    intros j Hj _. by apply Hl.
  - intros k w r now p Hp Hk. pose proof (keeps_commit c k w r now p Hp) as (Hok & _ & _). pose proof (commit_held k w r now p Hp) as Hc.
    cbn. unfold mbind, M_bind. revert Hok Hc. destruct (commit c k w r now p) as [[m|e] p']; cbn; intros Hok Hc; [|by split; [|intros; apply Hc]].
    destruct Hc as (? & ? & ? & Hc). split_and!; [done..|]. intros j _ Hj. by apply Hc.
  - intros k p Hp Hk. destruct (abort_held k p Hp) as (H1 & H2 & H3). split; [exact H1|]. split; [split; [done|]|intros j _; apply H2]. cbn in *. rewrite H3. by destruct (warm_held p k).
  - intros k b p Hp Hk. by apply remove_held.
  - intros k p Hp Hk. pose proof (keeps_retain c k p Hp) as (Hok & _ & _). split; [exact Hok|].
    assert (retain_for_vm k p = match manifests p !! k with
      | Some m => (Ok tt, set_manifest (touched (last_used m) true m) p) | None => (Raise (KeyError "snapshot"), p) end) as E.
    { unfold retain_for_vm. rewrite bind_manifest. by destruct (manifests p !! k). }
    cbn. rewrite E. destruct (manifests p !! k) as [m|] eqn:Em; cbn; [|done].
    destruct (proj2 (po_manifests c p Hp) _ _ Em) as [Hm _]. rewrite held_set by done. split.
    + unfold warm_held. rewrite Em. split; [by eexists _, _, _|done].
    + intros j _ Hj. apply held_set_ne. cbn. congruence.
  - intros k p Hp Hk. by apply enter_held.
  - intros k i p Hp Hk. by apply exit_held.
  - intros op p Hp. by apply law_transfers.
  - intros op p Hp. by apply law_transfers.
  - intros k p Hp Hk. destruct (claim_held k p Hp) as (H1 & H2 & H3). split; [exact H1|]. split; [|intros j _; apply H2]. cbn in *.
    destruct (is_ok _); [|done]. destruct H3 as (i & -> & ->). split; [by eexists|done].
  - intros k p Hp Hk. destruct (retire_held k p Hp) as (H1 & H2 & H3 & H4). split; [exact H1|]. split; [split; [exact H3|exact H4]|]. intros j _; apply H2.
  - intros k p Hp Hk. by apply unclaim_held.
Qed.
End warm_laws.
