(* ===== verification/CubeLifecycle.v ===== *)
(** * The lifecycle of a sandbox (src/clawbox/cube/lifecycle.py)

    [CubeSandboxLifecycle] drives one microVM through creation, checkpoint, restore
    and destruction.  It owns the snapshot keys of its session and role in the WARM
    pool, through [SnapshotStore]; the Cube client, the borrower, the cgroup
    callbacks and the files are [Host], an interface whose laws say what happens to
    the VM.  Every method runs under the lifecycle's lock, so each is one
    computation; a failure keeps the changes made before it. *)
From stdpp Require Import countable.
From S2P Require Import Prelude Dict PyStrings SnapshotPool SnapshotStore.
From Stdlib Require Import Ascii.

(** ** Data *)

Inductive sandbox_state := NEW | CREATING | RUNNING | CHECKPOINTING | UNKNOWN | SWAPPED | RESTORING | DESTROYING | CLOSED.
#[export] Instance sandbox_state_eq_dec : EqDecision sandbox_state.
Proof. solve_decision. Defined.
Inductive tier := LOCAL | WARM | COLD.
#[export] Instance tier_eq_dec : EqDecision tier.
Proof. solve_decision. Defined.

#[export] Instance snapshot_key_countable : Countable snapshot_key.
Proof.
  refine (inj_countable' (λ k, (session_id k, role k, generation k)) (λ '(s, r, g), SnapshotKey s r g) _). by intros [].
Defined.

(** A physical observation: a value that is not an integer is [None]. *)
Notation sample := (dict string (option Z)).
(** [_host_used] *)
Definition host_used (o : option sample) : option Z :=
  o ← o; match o !! "local_used_bytes" with Some v => v | None => mjoin (o !! "host_used_bytes") end.
(** [memory_effect]: before and after. *)
Definition memory_effect (before after : option sample) : list (string * (Z * Z)) :=
  match before, after with
  | Some b, Some a => omap (λ k, x ← mjoin (b !! k); y ← mjoin (a !! k); Some (k, (x, y)))
      ["local_used_bytes"; "shared_live_used_bytes"; "combined_live_used_bytes"; "host_used_bytes"]
  | _, _ => []
  end.

Record label := Label { l_error : bool; l_from : option tier; l_to : option tier; l_generation : option Z; l_path : option string }.
Definition failed : label := Label true None None None None.
(** [LifecycleTiming] *)
Record timing := Timing {
  t_operation : string; t_before : sandbox_state; t_after : sandbox_state; t_service : Q; t_label : label;
  t_reclaimed : option Z; t_growth : option Z; t_net : option Z; t_evidence : string; t_effect : list (string * (Z * Z));
}.
(** The evidence of a checkpoint. *)
Definition evidence (operation : string) (before : option sample) (used : option (Z * Z)) : string :=
  match used with
  | Some (b, a) =>
      if decide (operation = "checkpoint") then
        let scope := if bool_decide (is_Some (o ← before; o !! "local_used_bytes")) then "local_cgroup" else "whole_host" in
        (if 0 <? Z.max 0 (b - a) then "observed_" else "not_observed_") +:+ scope +:+ "_reclamation"
      else "unavailable"
  | None => "unavailable"
  end.

(** The marker of the first Tool after a restore. *)
Record marker := Marker { m_ready : Q; m_service : Q; m_generation : Z; m_tier : option tier; m_execution : option string }.

(** The manifest a pause returns, or the native metadata of a snapshot. *)
Record native := Native {
  n_logical : option Z; n_allocated : option Z; n_transferred : option (option Z); n_base : option string;
  n_base_allocated : option Z; n_private_delta : option Z; n_dependencies : option Z; n_path : option string;
}.

(** The constructor's parameters. *)
Record settings := Settings {
  my_session : string; my_role : string; template : string;
  warm_root : option string; cold_root : option string; has_pool : bool; reservation_bytes : option Z;
  warm_only : bool; incremental : bool; lazy_restore : bool; compression : bool;
  has_borrower : bool; configured_memory : option Z; has_verify : bool; has_prepare : bool; default_tier : option tier;
  reuse_probability : option Q; warm_seconds_per_gib : option Q; cold_seconds_per_gib : option Q;
  capacity_retry_seconds : Q; deny_out : list string; my_spiller : spiller;
}.
(** [__init__]: the checks. *)
Definition check_settings (storage mechanism compress : string) (lazily : bool) : outcome unit :=
  if negb (bool_decide (storage ∈ ["tiered"; "warm-only"])) then Raise (ValueError "invalid snapshot storage")
  else if negb (bool_decide (mechanism ∈ ["full-copy"; "incremental-cow"])) then Raise (ValueError "invalid snapshot mechanism")
  else if bool_decide (mechanism = "incremental-cow") && negb lazily then Raise (ValueError "incremental-cow requires lazy restore")
  else if negb (bool_decide (compress ∈ ["none"; "zstd-page"])) then Raise (ValueError "invalid snapshot compression")
  else Ok tt.

(** A handle of the client is the identifier it carries. *)
Record lifecycle := Lifecycle {
  state_of : sandbox_state;
  sandbox : option string;
  sandbox_id : option string;
  live_tier : tier;                       (** [_tier] *)
  gen : Z;                                (** [_generation] *)
  current : option snapshot_key;          (** [_snapshot_key] *)
  current_tier : option tier;             (** [_snapshot_tier] *)
  pending : gset snapshot_key;            (** [_pending_snapshot_keys] *)
  warm_paths : gset string;
  allow_out : list string;
  timings : list timing;
  first_tool : option marker;
  sampling : bool;                        (** [_restore_fault_sampler] *)
}.
Definition lifecycle_init (allow : list string) : lifecycle :=
  Lifecycle NEW None None LOCAL 0 None None ∅ ∅ allow [] None false.

(** Assignments. *)
Definition set_state (x : sandbox_state) (l : lifecycle) : lifecycle :=
  Lifecycle x (sandbox l) (sandbox_id l) (live_tier l) (gen l) (current l) (current_tier l) (pending l) (warm_paths l) (allow_out l) (timings l) (first_tool l) (sampling l).
Definition set_sandbox (h : option string) (l : lifecycle) : lifecycle :=
  Lifecycle (state_of l) h (sandbox_id l) (live_tier l) (gen l) (current l) (current_tier l) (pending l) (warm_paths l) (allow_out l) (timings l) (first_tool l) (sampling l).
Definition set_id (h : option string) (l : lifecycle) : lifecycle :=
  Lifecycle (state_of l) (sandbox l) h (live_tier l) (gen l) (current l) (current_tier l) (pending l) (warm_paths l) (allow_out l) (timings l) (first_tool l) (sampling l).
Definition set_tier (t : tier) (l : lifecycle) : lifecycle :=
  Lifecycle (state_of l) (sandbox l) (sandbox_id l) t (gen l) (current l) (current_tier l) (pending l) (warm_paths l) (allow_out l) (timings l) (first_tool l) (sampling l).
Definition set_gen (g : Z) (l : lifecycle) : lifecycle :=
  Lifecycle (state_of l) (sandbox l) (sandbox_id l) (live_tier l) g (current l) (current_tier l) (pending l) (warm_paths l) (allow_out l) (timings l) (first_tool l) (sampling l).
Definition set_current (k : option snapshot_key) (t : option tier) (l : lifecycle) : lifecycle :=
  Lifecycle (state_of l) (sandbox l) (sandbox_id l) (live_tier l) (gen l) k t (pending l) (warm_paths l) (allow_out l) (timings l) (first_tool l) (sampling l).
Definition set_pending (p : gset snapshot_key) (l : lifecycle) : lifecycle :=
  Lifecycle (state_of l) (sandbox l) (sandbox_id l) (live_tier l) (gen l) (current l) (current_tier l) p (warm_paths l) (allow_out l) (timings l) (first_tool l) (sampling l).
Definition set_paths (p : gset string) (l : lifecycle) : lifecycle :=
  Lifecycle (state_of l) (sandbox l) (sandbox_id l) (live_tier l) (gen l) (current l) (current_tier l) (pending l) p (allow_out l) (timings l) (first_tool l) (sampling l).
Definition set_allow (a : list string) (l : lifecycle) : lifecycle :=
  Lifecycle (state_of l) (sandbox l) (sandbox_id l) (live_tier l) (gen l) (current l) (current_tier l) (pending l) (warm_paths l) a (timings l) (first_tool l) (sampling l).
Definition add_timing (t : timing) (l : lifecycle) : lifecycle :=
  Lifecycle (state_of l) (sandbox l) (sandbox_id l) (live_tier l) (gen l) (current l) (current_tier l) (pending l) (warm_paths l) (allow_out l) (timings l ++ [t]) (first_tool l) (sampling l).
Definition set_marker (m : option marker) (l : lifecycle) : lifecycle :=
  Lifecycle (state_of l) (sandbox l) (sandbox_id l) (live_tier l) (gen l) (current l) (current_tier l) (pending l) (warm_paths l) (allow_out l) (timings l) m (sampling l).
Definition set_sampling (b : bool) (l : lifecycle) : lifecycle :=
  Lifecycle (state_of l) (sandbox l) (sandbox_id l) (live_tier l) (gen l) (current l) (current_tier l) (pending l) (warm_paths l) (allow_out l) (timings l) (first_tool l) b.

(** [resident] *)
Definition resident (l : lifecycle) : bool := bool_decide (state_of l = RUNNING).

(** ** What the lifecycle acts on *)

(** What the verification of the cgroup returns: its path, if any. *)
Class Host (H : Type) := {
  clock : H → Q;
  observe : M H (option sample);
  prepare_cgroup : M H unit;
  verify_cgroup : string → M H (option string);
  create_sandbox : list string → list string → M H string;           (** allow and deny lists *)
  is_capacity_error : exn → bool;
  uniform : Q → M H Q;
  sleep : Q → M H unit;
  pause_sandbox : string → option (tier * string * Z) → M H native;
  connect_sandbox : string → M H string;
  get_sandbox_state : string → M H (option string);
  kill_sandbox : string → M H unit;
  update_network : string → list string → list string → M H unit;
  relocate_snapshot : string → string → Z → M H unit;
  compress_snapshot : string → M H unit;
  decompress_snapshot : string → M H unit;
  remove_compressed : string → M H unit;
  read_snapshot_metadata : string → M H native;
  files_remaining : H → gset string → list string;                  (** of the WARM paths *)
  fault_sampler : string → M H bool;
  stop_sampler : M H unit;
  pin_local : string → option string → M H unit;
  lent : H → string → bool;                                         (** [numa_borrower.borrowed()] *)
  return_local : string → M H unit;
  borrow : string → Z → M H unit;
  observe_resident : string → M H Z;
  release_destroyed : string → M H unit;
}.

(** The variables of [checkpoint_and_evict] that its handler reads. *)
Record frame := Frame { f_key : option snapshot_key; f_tier : option tier; f_path : option string; f_attempted : bool; f_completed : bool }.
Definition frame_init (t : option tier) : frame := Frame None t None false false.

(** Without its trailing slashes. *)
Fixpoint strip_slashes (s : list ascii) : list ascii :=
  match s with
  | [] => []
  | c :: s' => match strip_slashes s' with [] => if decide (c = "/"%char) then [] else [c] | r => c :: r end
  end.
Definition snapshot_file (root id : string) (k : snapshot_key) : string :=
  String.string_of_list_ascii (strip_slashes (String.list_ascii_of_string root)) +:+ "/" +:+ id +:+ "/" +:+ role k
    +:+ "-g" +:+ str (generation k) +:+ ".mem".

(** [_retention_value_seconds] *)
Definition retention_value (c : settings) (bytes : Z) : Q :=
  match reuse_probability c, warm_seconds_per_gib c, cold_seconds_per_gib c with
  | Some p, Some w, Some k => (p * Qmax 0 (k - w) * inject_Z bytes / inject_Z (1024 ^ 3))%Q
  | _, _, _ => 0
  end.
(** [self.configured_memory_bytes or self.snapshot_reservation_bytes] *)
Definition state_bytes (c : settings) (reservation : Z) : Z :=
  match configured_memory c with Some b => if b =? 0 then reservation else b | None => reservation end.

Definition warm_capacity_error (e : exn) : bool :=
  match e with WarmCapacityError _ | WarmSnapshotTooLarge | WarmAdmissionRejected => true | _ => false end.
Definition has_status_code (e : exn) : bool := match e with ApiError _ | HTTPException _ _ => true | _ => false end.

Section lifecycle.
Context {P H : Type} `{!SnapshotStore P, !Host H} (c : settings).

Record state := State { lc : lifecycle; store : P; host : H; locals : frame }.
Notation St := (M state).

Definition on_store {A} (m : M P A) : St A := λ s, let '(o, p) := m (store s) in (o, State (lc s) p (host s) (locals s)).
Definition on_host {A} (m : M H A) : St A := λ s, let '(o, h) := m (host s) in (o, State (lc s) (store s) h (locals s)).
Definition self : St lifecycle := gets lc.
Definition update (f : lifecycle → lifecycle) : St unit := modify (λ s, State (f (lc s)) (store s) (host s) (locals s)).
Definition note (f : frame → frame) : St unit := modify (λ s, State (lc s) (store s) (host s) (f (locals s))).
Definition now : St Q := gets (λ s, clock (host s)).
Definition key_of (g : Z) : snapshot_key := SnapshotKey (my_session c) (my_role c) g.

(** [_record]: the observation comes first and may raise. *)
Definition record (operation : string) (before after : sandbox_state) (started : Q) (sampled : option sample) (l : label) : St Q :=
  done ← now;
  observed ← on_host observe;
  let used := b ← host_used sampled; a ← host_used observed; Some (b, a) in
  let seconds := Qmax 0 (done - started) in
  update (add_timing (Timing operation before after seconds l
    ((λ u : Z * Z, Z.max 0 (u.1 - u.2)) <$> used) ((λ u : Z * Z, Z.max 0 (u.2 - u.1)) <$> used) ((λ u : Z * Z, u.2 - u.1) <$> used)
    (evidence operation sampled used) (memory_effect sampled observed))) ;;
  mret seconds.

(** [_transfer] *)
Definition transfer {A} (operation : string) (m : St A) : St A :=
  if has_pool c then on_store (store_begin operation) ;; try_finally m (on_store (store_end operation)) else m.

(** ** Creation *)

(** The loop of [start]: a rejection for capacity is retried until the deadline. *)
Fixpoint create_loop (fuel : nat) (deadline : Q) (retry : Z) : St (option string) :=
  match fuel with
  | O => mret None
  | S fuel' =>
      r ← try_exception
            (h ← transfer "create" (l ← self; h ← on_host (create_sandbox (allow_out l) (deny_out c)); update (set_sandbox (Some h)) ;; mret h);
             mret (inl h))
            (λ e, mret (inr e));
      match r with
      | inl h => mret (Some h)
      | inr e =>
          if Qle_bool (capacity_retry_seconds c) 0 || negb (is_capacity_error e) then raise e
          else
            delay ← on_host (uniform (Qmin 2 ((1 # 4) * inject_Z (2 ^ Z.min retry 3))));
            t ← now;
            let remaining := (deadline - t)%Q in
            if Qle_bool remaining 0 || Qltb remaining delay then raise e
            else on_host (sleep delay) ;; create_loop fuel' deadline (retry + 1)
      end
  end.

(** The checks of a fresh or resumed VM. *)
Definition verify_and_pin (id : string) : St (option string) :=
  cgroup ← (if has_verify c then on_host (verify_cgroup id) else mret None);
  (if has_borrower c then on_host (pin_local id cgroup) else mret tt) ;;
  mret cgroup.

(** [start] *)
Definition start (fuel : nat) : St Q :=
  l ← self;
  raise_if (negb (bool_decide (state_of l = NEW))) (LifecycleError "CubeSandbox lifecycle already started") ;;
  update (set_state CREATING) ;;
  started ← now;
  sampled ← on_host observe;
  try_exception
    ((if has_prepare c then on_host prepare_cgroup else mret tt) ;;
     t ← now;
     h ← create_loop fuel (t + capacity_retry_seconds c) 0;
     match h with
     | None => raise StopIteration
     | Some h =>
         update (set_id (Some h)) ;;
         verify_and_pin h ;;
         update (set_state RUNNING) ;;
         record "create" NEW RUNNING started sampled (Label false None None None None)
     end)
    (λ e, update (set_state NEW) ;; record "create" NEW NEW started sampled failed ;; raise e).

(** ** Checkpoint *)

Definition discard_pending (k : snapshot_key) : St unit := update (λ l, set_pending (pending l ∖ {[k]}) l).

(** The tier both entry points aim at under [warm_only]. *)
Definition storage_tier (t : option tier) : outcome (option tier) :=
  if warm_only c then if decide (t = Some COLD) then Raise (ValueError "COLD snapshots are disabled by warm-only storage") else Ok (Some WARM)
  else Ok t.

(** [reserve_checkpoint]: around [body], which runs under the same lock. *)
Definition reserve_checkpoint {A} (t : option tier) (body : St A) : St A :=
  target ← lift (storage_tier (match t with Some t => Some t | None => default_tier c end));
  l ← self;
  key ← (if resident l && bool_decide (target = Some WARM) then
           match has_pool c, reservation_bytes c with
           | true, Some bytes =>
               let k := key_of (gen l + 1) in
               on_store (store_reserve k bytes false (retention_value c (state_bytes c bytes))) ;;
               update (λ l, set_pending ({[k]} ∪ pending l) l) ;;
               mret (Some k)
           | _, _ => raise (RuntimeError "WARM snapshot accounting is not configured")
           end
         else mret None);
  try_finally body
    (l ← self;
     match key with
     | Some k => if bool_decide (k ∈ pending l) && resident l then on_store (store_abort k) ;; discard_pending k else mret tt
     | None => mret tt
     end).

(** [_verify_warm_files_removed] *)
Definition verify_warm_files_removed : St unit :=
  s ← get;
  raise_if (negb (bool_decide (files_remaining (host s) (warm_paths (lc s)) = [])))
    (LifecycleError "WARM capacity retained: snapshot files remain after reclamation") ;;
  update (set_paths ∅).

(** The tier of a checkpoint, before anything changes. *)
Definition checkpoint_tier (t : option tier) : outcome (option tier) :=
  t ← storage_tier (match t with Some t => Some t | None => default_tier c end);
  let t := match t with None => if incremental c then Some COLD else None | t => t end in
  if bool_decide (t = Some COLD) && match cold_root c with Some r => bool_decide (r = "") | None => true end
  then Raise (ValueError "COLD checkpoint requires cold_snapshot_root") else Ok t.

(** The WARM reservation of a checkpoint, or the fallback to COLD. *)
Definition reserve_or_fall_back (k : snapshot_key) (may_wait : bool) : St tier :=
  match has_pool c, reservation_bytes c with
  | true, Some bytes =>
      try_except
        (l ← self;
         (if bool_decide (k ∈ pending l) then mret tt
          else on_store (store_reserve k bytes may_wait (retention_value c (state_bytes c bytes)))) ;;
         update (λ l, set_pending ({[k]} ∪ pending l) l) ;;
         mret WARM)
        (λ e, if warm_capacity_error e && negb (warm_only c) then mret COLD else raise e)
  | _, _ => raise (RuntimeError "WARM snapshot accounting is not configured")
  end.

Definition root_of (t : tier) : option string :=
  r ← (if decide (t = WARM) then warm_root c else cold_root c); if decide (r = "") then None else Some r.

(** [manifest[name]] *)
Definition required {A} (name : string) (v : option A) : outcome A := match v with Some v => Ok v | None => Raise (KeyError name) end.

(** What is published of a manifest. *)
Definition written_of (path : string) (m : native) : outcome written :=
  logical ← required "logical_bytes" (n_logical m);
  allocated ← required "allocated_bytes" (n_allocated m);
  transferred ← required "transferred_bytes" (n_transferred m);
  Ok (Written path logical allocated transferred (if warm_only c then None else Some (my_spiller c)) (Some (template c)) (n_base m)
        (default 0 (n_base_allocated m))
        (match n_private_delta m with Some d => if d =? 0 then allocated else d | None => allocated end)
        (default 0 (n_dependencies m)) (reuse_probability c) (retention_value c logical)).

(** From the native snapshot to the lifecycle's: compression, the pool and the
    predecessor it replaces. *)
Definition publish (k : snapshot_key) (t : tier) (path : string) (m : native) (predecessor : option snapshot_key) : St unit :=
  (if compression c then on_host observe ;; on_host (compress_snapshot path) ;; on_host observe ;; mret tt else mret tt) ;;
  (if decide (t = WARM) then
     raise_if (negb (has_pool c)) (RuntimeError "WARM snapshot accounting is not configured") ;;
     w ← lift (written_of path m);
     time ← now;
     on_store (store_commit k w predecessor time) ;;
     discard_pending k
   else match predecessor, has_pool c with
        | Some p, true => verify_warm_files_removed ;; on_store (store_remove p false)
        | _, _ => mret tt
        end) ;;
  update (λ l, set_tier t (set_current (Some k) (Some t) l)).

(** What follows the publication. *)
Definition swapped_out (before : sandbox_state) (started : Q) (sampled : option sample) (t : option tier) (k : option snapshot_key)
    (path : option string) : St Q :=
  update (set_state SWAPPED) ;;
  s ← get;
  (match has_borrower c, sandbox_id (lc s) with
   | true, Some id => if lent (host s) id then on_host (return_local id) else mret tt
   | _, _ => mret tt
   end) ;;
  record "checkpoint" before SWAPPED started sampled (Label false (Some LOCAL) t (generation <$> k) path).

(** A generation written to WARM or COLD. *)
Definition write_snapshot (handle : string) (t : tier) (predecessor : option snapshot_key) (before : sandbox_state) (started : Q)
    (sampled : option sample) : St Q :=
  update (λ l, set_gen (gen l + 1) l) ;;
  l ← self;
  let k := key_of (gen l) in
  note (λ f, Frame (Some k) (f_tier f) (f_path f) (f_attempted f) (f_completed f)) ;;
  t ← (if decide (t = WARM)
       then reserve_or_fall_back k (negb (bool_decide (is_Some predecessor) || bool_decide (is_Some (default_tier c))))
       else mret t);
  note (λ f, Frame (f_key f) (Some t) (f_path f) (f_attempted f) (f_completed f)) ;;
  match root_of t, sandbox_id l with
  | Some root, Some id =>
      let path := snapshot_file root id k in
      note (λ f, Frame (f_key f) (f_tier f) (Some path) (f_attempted f) (f_completed f)) ;;
      (if decide (t = WARM) then update (λ l, set_paths ({[path]} ∪ warm_paths l) l) else mret tt) ;;
      m ← transfer "checkpoint"
            (note (λ f, Frame (f_key f) (f_tier f) (f_path f) true (f_completed f)) ;;
             m ← on_host (pause_sandbox handle (Some (t, path, gen l)));
             note (λ f, Frame (f_key f) (f_tier f) (f_path f) (f_attempted f) true) ;;
             mret m);
      publish k t path m predecessor ;;
      swapped_out before started sampled (Some t) (Some k) (n_path m)
  | _, _ => raise (RuntimeError "snapshot root is not configured")
  end.

(** The body of the [try]. *)
Definition checkpoint_body (handle : string) (t : option tier) (predecessor : option snapshot_key) (before : sandbox_state) (started : Q)
    (sampled : option sample) : St Q :=
  t ← (match t, has_pool c, reservation_bytes c with
       | Some WARM, true, Some bytes =>
           if store_capacity (P := P) <? bytes
           then raise_if (warm_only c) (WarmCapacityError "WARM pool is too small; disk fallback is disabled") ;; mret (Some COLD)
           else mret t
       | _, _, _ => mret t
       end);
  note (λ f, Frame (f_key f) t (f_path f) (f_attempted f) (f_completed f)) ;;
  match t with
  | None =>
      transfer "checkpoint"
        (note (λ f, Frame (f_key f) (f_tier f) (f_path f) true (f_completed f)) ;;
         on_host (pause_sandbox handle None) ;;
         note (λ f, Frame (f_key f) (f_tier f) (f_path f) (f_attempted f) true) ;;
         mret tt) ;;
      swapped_out before started sampled None None None
  | Some LOCAL => raise (ValueError "cannot checkpoint a sandbox to LOCAL")
  | Some t =>
      write_snapshot handle t predecessor before started sampled
  end.

(** A lost response: the paused state and the snapshot's metadata prove the
    checkpoint, which is then published. *)
Definition reconcile (predecessor : option snapshot_key) (before : sandbox_state) (started : Q) (sampled : option sample) : St (option Q) :=
  s ← get;
  match f_key (locals s), f_tier (locals s), f_path (locals s) with
  | Some k, Some t, Some path =>
      try_exception
        (m ← on_host (read_snapshot_metadata path);
         let m := Native (n_logical m) (n_allocated m) (Some (mjoin (n_transferred m))) (n_base m) (n_base_allocated m)
                    (n_private_delta m) (n_dependencies m) (Some path) in
         publish k t path m predecessor ;;
         seconds ← swapped_out before started sampled (Some t) (Some k) (Some path);
         mret (Some seconds))
        (λ _, mret None)
  | _, _, _ => mret None
  end.

(** [except Exception as exc] *)
Definition checkpoint_failed (predecessor : option snapshot_key) (before : sandbox_state) (started : Q) (sampled : option sample) (e : exn) : St Q :=
  s ← get;
  (match f_key (locals s) with
   | Some k => if has_pool c && negb (f_attempted (locals s)) then on_store (store_abort k) ;; discard_pending k else mret tt
   | None => mret tt
   end) ;;
  remote ← (match f_attempted (locals s), sandbox_id (lc s), sandbox (lc s) with
            | true, Some _, Some h => try_exception (on_host (get_sandbox_state h)) (λ _, mret None)
            | _, _, _ => mret None
            end);
  reconciled ← (if f_attempted (locals s) && negb (f_completed (locals s)) && negb (has_status_code e)
                   && bool_decide (remote = Some "paused")
                then reconcile predecessor before started sampled else mret None);
  match reconciled with
  | Some seconds => mret seconds
  | None =>
      let after := if negb (f_attempted (locals s)) || bool_decide (remote = Some "running") then before else UNKNOWN in
      update (set_state after) ;;
      record "checkpoint" before after started sampled failed ;;
      raise e
  end.

(** [checkpoint_and_evict] *)
Definition checkpoint_and_evict (t : option tier) : St (option Q) :=
  l ← self;
  if decide (state_of l = SWAPPED) then mret None
  else
    match sandbox l, bool_decide (state_of l = RUNNING) with
    | Some handle, true =>
        t ← lift (checkpoint_tier t);
        update (set_state CHECKPOINTING) ;;
        started ← now;
        sampled ← on_host observe;
        note (λ _, frame_init t) ;;
        let predecessor := if bool_decide (current_tier l = Some WARM) && bool_decide (live_tier l = LOCAL) then current l else None in
        seconds ← try_exception (checkpoint_body handle t predecessor RUNNING started sampled)
                    (checkpoint_failed predecessor RUNNING started sampled);
        mret (Some seconds)
    | _, _ => raise (LifecycleError "CubeSandbox is not resident")
    end.

(** ** Spill *)

(** [_spill_to_cold]: the callback of a published generation. *)
Definition spill_to_cold (k : snapshot_key) (path : string) : St unit :=
  l ← self;
  raise_if (negb (bool_decide (state_of l = SWAPPED ∧ is_Some (sandbox l) ∧ current l = Some k ∧ live_tier l = WARM)))
    (LifecycleError "WARM spill target is not the authoritative swapped generation") ;;
  match root_of COLD, sandbox_id l, sandbox l with
  | Some root, Some id, Some handle =>
      let destination := snapshot_file root id k in
      started ← now;
      sampled ← on_host observe;
      try_exception
        ((if compression c then on_host (decompress_snapshot path) else mret tt) ;;
         transfer "spill" (on_host (relocate_snapshot handle destination (generation k))) ;;
         (if compression c then on_host (read_snapshot_metadata destination) ;; on_host (compress_snapshot destination) else mret tt) ;;
         verify_warm_files_removed ;;
         update (λ l, set_tier COLD (set_current (current l) (Some COLD) l)) ;;
         record "spill" SWAPPED SWAPPED started sampled
           (Label false (Some WARM) (Some COLD) (Some (generation k)) (Some destination)) ;;
         mret tt)
        (λ e, record "spill" SWAPPED SWAPPED started sampled
                (Label true (Some WARM) (Some COLD) (Some (generation k)) (Some destination)) ;; raise e)
  | _, _, _ => raise (RuntimeError "COLD snapshot root is not configured")
  end.

(** Another admission relocates this sandbox's snapshot: the pool pins it, calls
    back, and retires or unpins it. *)
Definition spilled (k : snapshot_key) (path : string) : St unit :=
  on_store (store_claim k) ;;
  try_finally (spill_to_cold k path ;; on_store (store_retire k)) (on_store (store_unclaim k)).

(** ** Restore *)

(** [_snapshot_access]: once no spill of the snapshot is in flight. *)
Definition snapshot_access {A} (m : St A) : St A :=
  l ← self;
  match current l, has_pool c with
  | Some k, true => token ← on_store (store_enter k); try_finally m (on_store (store_exit k token))
  | _, _ => m
  end.

(** The WARM snapshot once the VM runs again. *)
Definition settle_snapshot : St unit :=
  l ← self;
  (match current l with
   | Some k =>
       if bool_decide (live_tier l = WARM) then
         raise_if (negb (has_pool c)) (RuntimeError "WARM snapshot accounting disappeared before restore") ;;
         if lazy_restore c then on_store (store_retain k)
         else verify_warm_files_removed ;; on_store (store_remove k true)
       else mret tt
   | None => mret tt
   end) ;;
  (if lazy_restore c then mret tt else update (set_current None None)).

Definition decompress_current (id : string) : St unit :=
  l ← self;
  match current l with
  | Some k =>
      if compression c then
        match root_of (default COLD (current_tier l)) with
        | Some root => on_host observe ;; on_host (decompress_snapshot (snapshot_file root id k)) ;; on_host observe ;; mret tt
        | None => raise (RuntimeError "compressed snapshot root is unavailable")
        end
      else mret tt
  | None => mret tt
  end.

(** The body of the [try] of [restore]. *)
Definition restore_body (id : string) (started : Q) (sampled : option sample) : St Q :=
  (if has_prepare c then on_host prepare_cgroup else mret tt) ;;
  decompress_current id ;;
  transfer "restore" (h ← on_host (connect_sandbox id); update (set_sandbox (Some h))) ;;
  verify_and_pin id ;;
  settle_snapshot ;;
  update (λ l, set_state RUNNING (set_tier LOCAL l)) ;;
  sampling ← try_except (on_host (fault_sampler id)) (λ e, match e with OSError _ => mret false | e => raise e end);
  update (set_sampling sampling) ;;
  l ← self;
  ready ← now;
  seconds ← record "restore" SWAPPED RUNNING started sampled (Label false (current_tier l) (Some LOCAL) (Some (gen l)) None);
  update (set_marker (Some (Marker ready seconds (gen l) (current_tier l) None))) ;;
  mret seconds.

Definition restore_failed (started : Q) (sampled : option sample) (e : exn) : St Q :=
  l ← self;
  remote ← (match sandbox l with
            | Some h => try_exception (on_host (get_sandbox_state h)) (λ _, mret None)
            | None => mret None
            end);
  let after := if bool_decide (remote = Some "paused") then SWAPPED else UNKNOWN in
  update (set_state after) ;;
  record "restore" SWAPPED after started sampled failed ;;
  raise e.

(** [restore] *)
Definition restore : St Q :=
  snapshot_access
    (l ← self;
     match sandbox_id l, bool_decide (state_of l = SWAPPED) with
     | Some id, true =>
         update (set_state RESTORING) ;;
         started ← now;
         sampled ← on_host observe;
         try_exception (restore_body id started sampled) (restore_failed started sampled)
     | _, _ => raise (LifecycleError "CubeSandbox is not swapped out")
     end).

(** The first Tool after a restore. *)
Definition claim_first_tool (execution : string) : St unit :=
  update (λ l, match first_tool l with
               | Some m => match m_execution m with
                           | None => set_marker (Some (Marker (m_ready m) (m_service m) (m_generation m) (m_tier m) (Some execution))) l
                           | Some _ => l
                           end
               | None => l
               end).
Definition complete_first_tool (execution : string) (tool_seconds : Q) : St (option (marker * Q * Q)) :=
  l ← self;
  match first_tool l with
  | Some m =>
      if bool_decide (m_execution m = Some execution) then
        completed ← now;
        (if sampling l then on_host stop_sampler else mret tt) ;;
        update (λ l, set_sampling false (set_marker None l)) ;;
        mret (Some (m, Qmax 0 tool_seconds, Qmax 0 (completed - m_ready m)))
      else mret None
  | None => mret None
  end.

(** ** Live borrowing and the network *)

(** The common guard of the three entry points. *)
Definition when_running {A} (why : string) (m : string → St A) : St (option A) :=
  l ← self;
  if bool_decide (state_of l = SWAPPED ∨ state_of l = CLOSED) then mret None
  else match sandbox_id l, resident l with
       | Some id, true => a ← m id; mret (Some a)
       | _, _ => raise (LifecycleError why)
       end.
Definition unconfigured : exn := LifecycleError "shared NUMA borrowing is not configured".

Definition observe_borrow_candidate : St (option Z) :=
  when_running "only a running sandbox has borrow-candidate residency"
    (λ id, raise_if (negb (has_borrower c)) unconfigured ;; on_host (observe_resident id)).
Definition borrow_shared : St (option unit) :=
  when_running "only a running sandbox can borrow shared memory"
    (λ id, match has_borrower c, configured_memory c with
           | true, Some bytes => on_host (borrow id bytes)
           | _, _ => raise unconfigured
           end).
Definition return_local_memory : St (option unit) :=
  when_running "only a running sandbox can return LOCAL memory"
    (λ id, raise_if (negb (has_borrower c)) unconfigured ;; on_host (return_local id)).
Definition quarantine_incomplete_rebind : St bool :=
  l ← self;
  if resident l then update (set_state UNKNOWN) ;; mret true else mret false.

(** [ensure_network_allow_out] *)
Definition ensure_network_allow_out (cidr : string) : St bool :=
  let value := strip cidr in
  raise_if (bool_decide (value = "")) (ValueError "network allowlist CIDR must not be empty") ;;
  l ← self;
  if bool_decide (value ∈ allow_out l) then mret false
  else
    let desired := allow_out l ++ [value] in
    (match sandbox l, resident l with
     | Some h, true =>
         started ← now;
         sampled ← on_host observe;
         try_exception (on_host (update_network h desired (deny_out c)))
           (λ e, record "network_update" RUNNING RUNNING started sampled failed ;; raise e) ;;
         record "network_update" RUNNING RUNNING started sampled (Label false None None None None) ;;
         mret tt
     | _, _ => mret tt
     end) ;;
    update (set_allow desired) ;;
    mret true.

(** ** Destruction *)

(** The compressed containers are the lifecycle's own. *)
Definition remove_containers : St unit :=
  l ← self;
  for_each (elements (warm_paths l)) (λ path, on_host (remove_compressed path)) ;;
  match current l, bool_decide (current_tier l = Some COLD), root_of COLD, sandbox_id l with
  | Some k, true, Some root, Some id => on_host (remove_compressed (snapshot_file root id k))
  | _, _, _, _ => mret tt
  end.

(** The last accounts with the pool. *)
Definition release_snapshots : St unit :=
  l ← self;
  (match current l with
   | Some k => if bool_decide (current_tier l = Some WARM) && has_pool c then on_store (store_remove k true) else mret tt
   | None => mret tt
   end) ;;
  (if has_pool c then for_each (elements (pending l)) (λ k, on_store (store_abort k)) ;; update (set_pending ∅) else mret tt).

Definition close_body (before : sandbox_state) (started : Q) (sampled : option sample) : St Q :=
  l ← self;
  (match sandbox_id l with
   | Some id => on_host (kill_sandbox id) ;; if has_borrower c then on_host (release_destroyed id) else mret tt
   | None => mret tt
   end) ;;
  (if compression c then remove_containers else mret tt) ;;
  verify_warm_files_removed ;;
  release_snapshots ;;
  update (λ l, set_state CLOSED (set_id None (set_sandbox None (set_current None (current_tier l) l)))) ;;
  record "destroy" before CLOSED started sampled (Label false None None None None).

(** [close] *)
Definition close : St Q :=
  snapshot_access
    (l ← self;
     if decide (state_of l = CLOSED) then mret 0%Q
     else
       update (set_state DESTROYING) ;;
       started ← now;
       sampled ← on_host observe;
       try_exception (close_body (state_of l) started sampled)
         (λ e, update (set_state (state_of l)) ;; record "destroy" (state_of l) (state_of l) started sampled failed ;; raise e)).

(** ** Everything that can happen to a sandbox *)

Inductive command :=
  | Start (fuel : nat) | Checkpoint (t : option tier) | ReservedCheckpoint (t t' : option tier) | ReserveOnly (t : option tier)
  | Restore | Close | Spill (generation : Z) (path : string) | ObserveCandidate | Borrow | ReturnMemory | Quarantine
  | AllowOut (cidr : string) | ClaimTool (execution : string) | CompleteTool (execution : string) (seconds : Q).

Definition drop {A} (m : St A) : St unit := m ;; mret tt.
Definition execute (o : command) : St unit :=
  match o with
  | Start fuel => drop (start fuel)
  | Checkpoint t => drop (checkpoint_and_evict t)
  | ReservedCheckpoint t t' => drop (reserve_checkpoint t (checkpoint_and_evict t'))
  | ReserveOnly t => reserve_checkpoint t (mret tt)
  | Restore => drop restore
  | Close => drop close
  | Spill g path => spilled (key_of g) path
  | ObserveCandidate => drop observe_borrow_candidate
  | Borrow => drop borrow_shared
  | ReturnMemory => drop return_local_memory
  | Quarantine => drop quarantine_incomplete_rebind
  | AllowOut cidr => drop (ensure_network_allow_out cidr)
  | ClaimTool e => claim_first_tool e
  | CompleteTool e q => drop (complete_first_tool e q)
  end.
End lifecycle.
