(* ===== verification/CubeInvariant.v ===== *)
(** * The invariant of a sandbox's lifecycle

    The books of [CubeLifecycle] with the pool, the fate of the VM, and the proof
    that every operation keeps both.  The computations are run symbolically:
    [wp m Q E s] says that [m] started in [s] ends in [Q] when it returns and in [E]
    when it raises. *)
From S2P Require Import Prelude Dict PyStrings SnapshotPool SnapshotStore CubeLifecycle.

(** ** Weakest preconditions *)

Section wp.
Context {S : Type}.

Definition wp {A} (m : M S A) (Q : A → S → Prop) (E : exn → S → Prop) (s : S) : Prop :=
  match m s with (Ok a, s') => Q a s' | (Raise e, s') => E e s' end.

Lemma wp_ret {A} (a : A) (Q : A → S → Prop) E s : Q a s → wp (mret a) Q E s.
Proof. done. Qed.
Lemma wp_raise {A} e (Q : A → S → Prop) (E : exn → S → Prop) s : E e s → wp (raise e) Q E s.
Proof. done. Qed.
Lemma wp_gets {A} (f : S → A) (Q : A → S → Prop) E s : Q (f s) s → wp (gets f) Q E s.
Proof. done. Qed.
Lemma wp_get (Q : S → S → Prop) E s : Q s s → wp get Q E s.
Proof. done. Qed.
Lemma wp_modify f (Q : unit → S → Prop) E s : Q tt (f s) → wp (modify f) Q E s.
Proof. done. Qed.
Lemma wp_lift {A} (o : outcome A) (Q : A → S → Prop) (E : exn → S → Prop) s :
  (∀ a, o = Ok a → Q a s) → (∀ e, o = Raise e → E e s) → wp (lift o) Q E s.
Proof. intros. unfold wp, lift. destruct o; eauto. Qed.
Lemma wp_raise_if b e (Q : unit → S → Prop) (E : exn → S → Prop) s :
  (b = true → E e s) → (b = false → Q tt s) → wp (raise_if b e) Q E s.
Proof. destruct b; unfold wp; cbn; auto. Qed.
Lemma wp_bind {A B} (m : M S A) (k : A → M S B) (Q : B → S → Prop) E s :
  wp m (λ a, wp (k a) Q E) E s → wp (m ≫= k) Q E s.
Proof. unfold wp, mbind, M_bind. by destruct (m s) as [[a|e] s']. Qed.
Lemma wp_mono {A} (m : M S A) (Q Q' : A → S → Prop) (E E' : exn → S → Prop) s :
  wp m Q E s → (∀ a s', Q a s' → Q' a s') → (∀ e s', E e s' → E' e s') → wp m Q' E' s.
Proof. unfold wp. destruct (m s) as [[a|e] s']; eauto. Qed.
Lemma wp_except {A} (m : M S A) h (Q : A → S → Prop) E s :
  wp m Q (λ e, wp (h e) Q E) s → wp (try_except m h) Q E s.
Proof. unfold wp, try_except. by destruct (m s) as [[a|e] s']. Qed.
Lemma wp_exception {A} (m : M S A) h (Q : A → S → Prop) (E : exn → S → Prop) s :
  wp m Q (λ e s', E e s' ∧ wp (h e) Q E s') s → wp (try_exception m h) Q E s.
Proof.
  intros Hm. apply wp_except. eapply wp_mono; [exact Hm|done|]. intros e s' [He Hh]. by destruct (is_exception e).
Qed.
Lemma wp_finally {A} (m : M S A) fin (Q : A → S → Prop) (E : exn → S → Prop) s :
  wp m (λ a, wp fin (λ _, Q a) E) (λ e, wp fin (λ _, E e) E) s → wp (try_finally m fin) Q E s.
Proof. unfold wp, try_finally. destruct (m s) as [[a|e] s']; destruct (fin s') as [[?|?] s'']; done. Qed.
Lemma wp_if {A} (b : bool) (m n : M S A) Q E s :
  (b = true → wp m Q E s) → (b = false → wp n Q E s) → wp (if b then m else n) Q E s.
Proof. destruct b; auto. Qed.
Lemma wp_run {A} (m : M S A) (I : S → Prop) s : wp m (λ _, I) (λ _, I) s → I (m s).2.
Proof. unfold wp. by destruct (m s) as [[a|e] s']. Qed.
End wp.

(** One step of the symbolic execution. *)
Ltac step :=
  lazymatch goal with
  | |- wp (_ ≫= _) _ _ _ => apply wp_bind
  | |- wp (mret _) _ _ _ => apply wp_ret
  | |- wp (raise _) _ _ _ => apply wp_raise
  | |- wp (gets _) _ _ _ => apply wp_gets
  | |- wp get _ _ _ => apply wp_get
  | |- wp (modify _) _ _ _ => apply wp_modify
  | |- wp (raise_if _ _) _ _ _ => apply wp_raise_if; intros ?
  | |- wp self _ _ _ => apply wp_gets
  | |- wp now _ _ _ => apply wp_gets
  | |- wp (update _) _ _ _ => apply wp_modify
  | |- wp (discard_pending _) _ _ _ => apply wp_modify
  | |- wp (note _) _ _ _ => apply wp_modify
  | |- wp (lift _) _ _ _ => apply wp_lift; intros ? ?
  | |- wp (try_exception _ _) _ _ _ => apply wp_exception
  | |- wp (try_except _ _) _ _ _ => apply wp_except
  | |- wp (try_finally _ _) _ _ _ => apply wp_finally
  | |- wp (if _ then _ else _) _ _ _ => apply wp_if; intros ?
  end; cbn beta.

(** ** What happens to the VM *)

Inductive remote_state := Running | Paused | Gone.
#[export] Instance remote_state_eq_dec : EqDecision remote_state.
Proof. solve_decision. Defined.

(** Cube's side: a creation or resumption that returns leaves the VM running, a
    pause that returns leaves it paused and one that fails may have, a kill that
    returns leaves nothing, the reported state is the VM's, and nothing else
    pauses or resumes it.  The node's own memory can be read. *)
Class HostLaws (H : Type) `{!Host H} := {
  remote : H → string → remote_state;
  observed : ∀ h, is_ok (observe h).1 = true;
  created : ∀ a d h i, (create_sandbox a d h).1 = Ok i → remote (create_sandbox a d h).2 i = Running;
  paused : ∀ i x h, match (pause_sandbox i x h).1 with
                    | Ok _ => remote (pause_sandbox i x h).2 i = Paused
                    | Raise _ => remote (pause_sandbox i x h).2 i = remote h i ∨ remote (pause_sandbox i x h).2 i = Paused
                    end;
  connected : ∀ i h j, (connect_sandbox i h).1 = Ok j → j = i ∧ remote (connect_sandbox i h).2 i = Running;
  killed : ∀ i h, remote (kill_sandbox i h).2 i = Gone ∨ is_ok (kill_sandbox i h).1 = false ∧ remote (kill_sandbox i h).2 i = remote h i;
  reported : ∀ i h, remote (get_sandbox_state i h).2 = remote h ∧
    ((get_sandbox_state i h).1 = Ok (Some "running") → remote h i = Running) ∧
    ((get_sandbox_state i h).1 = Ok (Some "paused") → remote h i = Paused);
  still_observe : ∀ h, remote (observe h).2 = remote h;
  still_prepare : ∀ h, remote (prepare_cgroup h).2 = remote h;
  still_verify : ∀ i h, remote (verify_cgroup i h).2 = remote h;
  still_uniform : ∀ q h, remote (uniform q h).2 = remote h;
  still_sleep : ∀ q h, remote (sleep q h).2 = remote h;
  still_network : ∀ i a d h, remote (update_network i a d h).2 = remote h;
  still_relocate : ∀ i p g h, remote (relocate_snapshot i p g h).2 = remote h;
  still_compress : ∀ p h, remote (compress_snapshot p h).2 = remote h;
  still_decompress : ∀ p h, remote (decompress_snapshot p h).2 = remote h;
  still_containers : ∀ p h, remote (remove_compressed p h).2 = remote h;
  still_metadata : ∀ p h, remote (read_snapshot_metadata p h).2 = remote h;
  still_sampler : ∀ i h, remote (fault_sampler i h).2 = remote h;
  still_stop : ∀ h, remote (stop_sampler h).2 = remote h;
  still_pin : ∀ i v h, remote (pin_local i v h).2 = remote h;
  still_return : ∀ i h, remote (return_local i h).2 = remote h;
  still_borrow : ∀ i b h, remote (borrow i b h).2 = remote h;
  still_resident : ∀ i h, remote (observe_resident i h).2 = remote h;
  still_release : ∀ i h, remote (release_destroyed i h).2 = remote h;
}.

Create HintDb cube.
#[export] Hint Resolve still_observe still_prepare still_verify still_uniform still_sleep still_network still_relocate still_compress
  still_decompress still_containers still_metadata still_sampler still_stop still_pin still_return still_borrow still_resident still_release : cube.

Section invariant.
Context {P H : Type} `{!SnapshotStore P, !Host H, !HostLaws H} (c : settings) (who := (my_session c, my_role c)) `{!StoreLaws (P := P) who}.
Notation state := (@state P H).
Implicit Types (l : lifecycle) (p : P) (h : H) (f : frame) (s : state).

(** ** The books *)

(** The pool's record of the owner's keys against the lifecycle's; [pin] pins are
    held on its snapshot. *)
Record books (pin : Z) (l : lifecycle) (p : P) : Prop := Books {
  b_ok : store_ok p;
  b_owner : ∀ k, k ∈ pending l → owner k = who;
  b_reserved : ∀ k, owner k = who → held p k = Reserved ↔ k ∈ pending l;
  b_published : ∀ k i r n, owner k = who → held p k = Published i r n →
    current l = Some k ∧ current_tier l = Some WARM ∧ n = pin ∧ (live_tier l = LOCAL → r = true);
  b_current : ∀ k, current l = Some k → owner k = who ∧ (current_tier l = Some WARM → any_published (held p k));
  b_lazy : current_tier l = Some WARM → is_Some (current l) → live_tier l = WARM ∨ lazy_restore c = true;
  b_pool : has_pool c = false → ∀ k, owner k = who → held p k = Absent;
  b_settled : state_of l ≠ CLOSED → live_tier l ≠ LOCAL → ∃ k, current l = Some k ∧ current_tier l = Some (live_tier l);
}.

(** What the books are about. *)
Definition ledger l : tier * option snapshot_key * option tier * gset snapshot_key := (live_tier l, current l, current_tier l, pending l).

Lemma books_ext pin l l' p p' : books pin l p → live_tier l' = live_tier l → current l' = current l → current_tier l' = current_tier l →
  pending l' = pending l → (state_of l' ≠ CLOSED → state_of l ≠ CLOSED) → store_ok p' → (∀ k, owner k = who → held p' k = held p k) →
  books pin l' p'.
Proof.
  intros [] E1 E2 E3 E4 Hs Hp Hh. split; rewrite ?E1, ?E2, ?E3, ?E4; try done.
  - intros k Hk. rewrite Hh by done. auto.
  - intros k i r n Hk. rewrite Hh by done. eauto.
  - intros k Hk. destruct (b_current0 k Hk) as [Ho Hw]. split; [done|]. by rewrite Hh.
  - intros Hpool k Hk. rewrite Hh by done. auto.
  - auto.
Qed.
Lemma books_lc pin l l' p : books pin l p → live_tier l' = live_tier l → current l' = current l → current_tier l' = current_tier l →
  pending l' = pending l → (state_of l' ≠ CLOSED → state_of l ≠ CLOSED) → books pin l' p.
Proof. intros Hb **. eapply books_ext; eauto. apply Hb. Qed.

Definition runs (l : lifecycle) (h : H) : Prop :=
  state_of l = RUNNING → ∃ i, sandbox l = Some i ∧ sandbox_id l = Some i ∧ live_tier l = LOCAL ∧ remote h i ≠ Paused.
Definition inv_at (pin : Z) (s : state) : Prop :=
  books pin (lc s) (store s) ∧ runs (lc s) (host s) ∧ (state_of (lc s) = CLOSED → current (lc s) = None ∧ pending (lc s) = ∅) ∧
  (state_of (lc s) = NEW → live_tier (lc s) = LOCAL).
Notation inv := (inv_at 0).

(** ** Primitive operations *)

Lemma wp_still {A} (m : M H A) (Q : A → state → Prop) (E : exn → state → Prop) l p h f :
  (∀ h, remote (m h).2 = remote h) →
  (∀ h', remote h' = remote h → (∀ a, Q a (State l p h' f)) ∧ (∀ e, E e (State l p h' f))) →
  wp (on_host m) Q E (State l p h f).
Proof.
  intros Hm HQ. unfold wp, on_host. cbn. specialize (Hm h). destruct (m h) as [[a|e] h']; cbn in Hm; by apply HQ.
Qed.
Lemma wp_observe (Q : _ → state → Prop) (E : exn → state → Prop) l p h f :
  (∀ a h', remote h' = remote h → Q a (State l p h' f)) → wp (on_host observe) Q E (State l p h f).
Proof.
  intros HQ. unfold wp, on_host. cbn. pose proof (observed h). pose proof (still_observe h). destruct (observe h) as [[a|e] h']; [|done]. by apply HQ.
Qed.
(** The record never fails, and changes the timings only. *)
Lemma wp_record op b a t x y (Q : Q → state → Prop) (E : exn → state → Prop) l p h f :
  (∀ q r h', remote h' = remote h → Q q (State (add_timing r l) p h' f)) → wp (record op b a t x y) Q E (State l p h f).
Proof.
  intros HQ. unfold record. step. step. step. apply wp_observe. intros o h1 Hh. cbv zeta. step. step. cbn. by apply HQ.
Qed.

Definition sim p p' : Prop := store_ok p' ∧ ∀ j, held p' j = held p j.
(** A transfer slot is taken around [m] and given back; either may fail. *)
Lemma wp_transfer {A} op (m : M state A) (Q : A → state → Prop) (E : exn → state → Prop) l p h f : store_ok p →
  (∀ e p', sim p p' → E e (State l p' h f)) →
  (∀ p', sim p p' → wp m (λ a s, store_ok (store s) ∧ ∀ p', sim (store s) p' → Q a (State (lc s) p' (host s) (locals s)) ∧ ∀ e, E e (State (lc s) p' (host s) (locals s)))
     (λ e s, store_ok (store s) ∧ ∀ p' e, sim (store s) p' → E e (State (lc s) p' (host s) (locals s))) (State l p' h f)) →
  wp (transfer c op m) Q E (State l p h f).
Proof.
  intros Hp HE Hm. unfold transfer. assert (∀ p, sim p p ↔ store_ok p) as Hrefl by (intros; unfold sim; naive_solver).
  destruct (has_pool c).
  - apply wp_bind. unfold wp at 1, on_store at 1. cbn. destruct (law_begin who op p Hp) as [H1 H2].
    destruct (store_begin op p) as [[[]|e] p']; cbn in H1, H2; [|by apply HE]. apply wp_finally. eapply wp_mono; [by apply Hm| |].
    + intros a [l' p1 h' f'] [Hok HQ]. cbn in *. unfold wp, on_store. cbn. destruct (law_end who op p1 Hok) as [H3 H4].
      destruct (store_end op p1) as [[[]|e] p2]; cbn in H3, H4; by apply HQ.
    + intros e [l' p1 h' f'] [Hok HQ]. cbn in *. unfold wp, on_store. cbn. destruct (law_end who op p1 Hok) as [H3 H4].
      destruct (store_end op p1) as [[[]|e'] p2]; cbn in H3, H4; by apply HQ.
  - eapply wp_mono; [apply Hm; by apply Hrefl| |].
    + intros a [l' p1 h' f'] [Hok HQ]. apply HQ. by apply Hrefl.
    + intros e [l' p1 h' f'] [Hok HQ]. apply HQ. by apply Hrefl.
Qed.

Lemma wp_verify_removed (Q : unit → state → Prop) (E : exn → state → Prop) l p h f :
  E (LifecycleError "WARM capacity retained: snapshot files remain after reclamation") (State l p h f) →
  Q tt (State (set_paths ∅ l) p h f) → wp verify_warm_files_removed Q E (State l p h f).
Proof. intros HE HQ. unfold verify_warm_files_removed. step. step. step. step; [done|]. by step. Qed.

Lemma wp_store {A} (m : M P A) (Q : A → state → Prop) (E : exn → state → Prop) l p h f :
  (∀ a p', m p = (Ok a, p') → Q a (State l p' h f)) → (∀ e p', m p = (Raise e, p') → E e (State l p' h f)) →
  wp (on_store m) Q E (State l p h f).
Proof. intros HQ HE. unfold wp, on_store. cbn. destruct (m p) as [[a|e] p']; eauto. Qed.

(** ** Publication *)

Definition same_vm l l' : Prop := state_of l' = state_of l ∧ sandbox l' = sandbox l ∧ sandbox_id l' = sandbox_id l.
Definition predecessor_of l : option snapshot_key :=
  if bool_decide (current_tier l = Some WARM) && bool_decide (live_tier l = LOCAL) then current l else None.

(** While the VM runs, what is published is the predecessor. *)
Lemma published_predecessor pin l p k i r n : books pin l p → live_tier l = LOCAL → owner k = who → held p k = Published i r n →
  predecessor_of l = Some k.
Proof.
  intros Hb Hl Hk Hh. destruct (b_published _ _ _ Hb k i r n Hk Hh) as (Hc & Ht & _). unfold predecessor_of.
  rewrite Ht, Hl, Hc, !bool_decide_eq_true_2 by done. done.
Qed.

Lemma books_commit l p k (w : written) time p' : books 0 l p → live_tier l = LOCAL → owner k = who → has_pool c = true →
  store_commit k w (predecessor_of l) time p = (Ok tt, p') →
  books 0 (set_tier WARM (set_current (Some k) (Some WARM) (set_pending (pending l ∖ {[k]}) l))) p'.
Proof.
  intros Hb Hl Hk Hpool Hc. destruct (law_commit who k w (predecessor_of l) time p (b_ok _ _ _ Hb) Hk) as [Hok Hs]. rewrite Hc in Hok, Hs. cbn in Hok, Hs.
  destruct Hs as (Hr & Hne & (i & Hi) & Ho). split; cbn; try done.
  - intros j Hj. apply (b_owner _ _ _ Hb). set_solver.
  - intros j Hj. destruct (decide (j = k)) as [->|Hjk]; [rewrite Hi; split; [done|set_solver]|]. rewrite Ho by done.
    rewrite elem_of_difference, elem_of_singleton. destruct (decide (predecessor_of l = Some j)) as [E|_].
    + split; [done|]. intros [Hp _]. apply (b_reserved _ _ _ Hb j Hj) in Hp. unfold predecessor_of in E.
      destruct (bool_decide (current_tier l = Some WARM)) eqn:Et; [|done]. destruct (bool_decide (live_tier l = LOCAL)); [|done]. cbn in E.
      apply bool_decide_eq_true in Et. destruct (b_current _ _ _ Hb j E) as [_ Hpub]. destruct (Hpub Et) as (? & ? & ? & Hx). congruence.
    + rewrite (b_reserved _ _ _ Hb j Hj). naive_solver.
  - intros j i' r n Hj. destruct (decide (j = k)) as [->|Hjk]; [rewrite Hi; by intros [= <- <- <-]|]. rewrite Ho by done.
    destruct (decide (predecessor_of l = Some j)) as [E|Hn]; [done|]. intros Hx. destruct Hn. by eapply published_predecessor.
  - intros j [= <-]. split; [done|]. intros _. by eexists _, _, _.
  - by left.
  - congruence.
  - intros _ _. by exists k.
Qed.

(** A snapshot written to COLD: the WARM predecessor is gone. *)
Lemma books_cold l p p' k : books 0 l p → live_tier l = LOCAL → owner k = who → store_ok p' →
  (∀ j, owner j = who → held p' j = if decide (predecessor_of l = Some j) then Absent else held p j) →
  books 0 (set_tier COLD (set_current (Some k) (Some COLD) l)) p'.
Proof.
  intros Hb Hl Hk Hok Hh. assert (∀ j, predecessor_of l = Some j → owner j = who ∧ any_published (held p j)) as Hpred.
  { intros j. unfold predecessor_of. destruct (bool_decide (current_tier l = Some WARM)) eqn:Et; [|done]. apply bool_decide_eq_true in Et.
    destruct (bool_decide (live_tier l = LOCAL)); [|done]. intros E. destruct (b_current _ _ _ Hb j E). auto. }
  split; cbn; try done.
  - apply Hb.
  - intros j Hj. rewrite <- (b_reserved _ _ _ Hb j Hj), Hh by done. case_decide as E; [|done].
    destruct (Hpred j E) as (_ & ? & ? & ? & ->). done.
  - intros j i r n Hj. rewrite Hh by done. case_decide as E; [done|]. intros Hx. destruct E. by eapply published_predecessor.
  - intros j [= <-]. split; [done|]. by intros.
  - intros Hp j Hj. rewrite Hh by done. case_decide; [done|]. by apply (b_pool _ _ _ Hb).
  - intros _ _. by exists k.
Qed.

Lemma wp_publish k t path m (Q : unit → state → Prop) (E : exn → state → Prop) l p h f :
  books 0 l p → live_tier l = LOCAL → owner k = who → t ≠ LOCAL →
  (∀ e l' p' h', same_vm l l' → live_tier l' = LOCAL → books 0 l' p' → remote h' = remote h → E e (State l' p' h' f)) →
  (∀ l' p' h', same_vm l l' → live_tier l' = t → books 0 l' p' → remote h' = remote h → Q tt (State l' p' h' f)) →
  wp (publish c k t path m (predecessor_of l)) Q E (State l p h f).
Proof.
  intros Hb Hl Hk Ht HE HQ. unfold publish. apply wp_bind.
  assert (∀ e p' h', books 0 l p' → remote h' = remote h → E e (State l p' h' f)) as HE' by (intros; by apply HE).
  eapply (wp_mono _ (λ _ s, ∃ h', s = State l p h' f ∧ remote h' = remote h) _ E).
  { step; [|by eexists]. step. apply wp_observe. intros ? h1 H1. step. apply wp_still; [auto with cube|]. intros h2 H2. rewrite H1 in H2.
    split; [|intros; by apply HE']. intros _. step. apply wp_observe. intros ? h3 H3. step. exists h3. split; [done|congruence]. }
  2:{ done. }
  intros _ ? (h1 & -> & H1). apply wp_bind. case_decide as Hw.
  - subst t. step. step; [by apply HE'|]. destruct (has_pool c) eqn:Hpool; [|done]. apply wp_bind. apply wp_lift; [|intros; by apply HE'].
    intros w _. step. step. step. apply wp_store.
    + intros [] p' Hc. step. step. apply HQ; [done|done| |done]. cbn. eapply books_lc; [exact (books_commit l p k w _ p' Hb Hl Hk Hpool Hc)|done..].
    + intros e p' Hc. cbn in Hc. apply HE'; [|done]. destruct (law_commit who k w (predecessor_of l) (clock h1) p (b_ok _ _ _ Hb) Hk) as [Hok Hs].
      rewrite Hc in Hok, Hs. cbn in Hok, Hs. by eapply books_ext.
  - assert (t = COLD) as -> by (by destruct t).
    assert (∀ l' p', same_vm l l' → live_tier l' = LOCAL → pending l' = pending l → store_ok p' →
      (∀ j, owner j = who → held p' j = if decide (predecessor_of l = Some j) then Absent else held p j) →
      wp (update (λ l, set_tier COLD (set_current (Some k) (Some COLD) l))) Q E (State l' p' h1 f)) as Hlast.
    { intros l' p' Hvm Hl' Hpend Hok Hh. step. apply HQ; [done|done| |done]. destruct Hvm as (Hst & _ & _).
      eapply (books_lc 0 (set_tier COLD (set_current (Some k) (Some COLD) l))); [|cbn; try done; congruence..]. by apply (books_cold l p). }
    destruct (predecessor_of l) as [q|] eqn:Eq; [destruct (has_pool c) eqn:Hpool|].
    + step. apply wp_verify_removed; [by apply HE'|].
      assert (owner q = who) as Hq.
      { apply (b_current _ _ _ Hb). revert Eq. unfold predecessor_of. by destruct (_ && _). }
      pose proof (law_remove who q false p (b_ok _ _ _ Hb) Hq) as (Hok & Hs & Ho). apply wp_store.
      * intros [] p' Hr. rewrite Hr in Hok, Hs, Ho. cbn in Hok, Hs, Ho. destruct Hs as [_ Hs]. apply (Hlast _ p'); [done..|].
        intros j Hj. case_decide as Ej; [by simplify_eq|]. apply Ho; [done|]. congruence.
      * intros e p' Hr. rewrite Hr in Hok, Hs, Ho. cbn in Hok, Hs, Ho. apply HE; [done|done| |done]. eapply books_ext; [exact Hb|done..|].
        intros j Hj. destruct (decide (j = q)) as [->|]; [done|]. by apply Ho.
    + step. apply (Hlast l p); [done..|apply Hb|]. intros j Hj. rewrite (b_pool _ _ _ Hb Hpool j Hj). by case_decide.
    + step. apply (Hlast l p); [done..|apply Hb|]. done.
Qed.

(** ** Checkpoint *)

(** In the middle of something. *)
Definition busy l : Prop := state_of l ≠ CLOSED ∧ state_of l ≠ RUNNING ∧ state_of l ≠ NEW.
Definition frame_ok (f : frame) : Prop := ∀ k, f_key f = Some k → owner k = who ∧ f_tier f ≠ Some LOCAL.
Lemma books_busy pin l l' p : books pin l p → busy l → live_tier l' = live_tier l → current l' = current l → current_tier l' = current_tier l →
  pending l' = pending l → books pin l' p.
Proof. intros Hb [Hc _] **. by eapply books_lc. Qed.

(** Where a failed checkpoint of sandbox [i] can be when its handler starts. *)
Definition ck (pred : option snapshot_key) (i : string) (s : state) : Prop :=
  books 0 (lc s) (store s) ∧ sandbox (lc s) = Some i ∧ sandbox_id (lc s) = Some i ∧ busy (lc s) ∧
  (live_tier (lc s) = LOCAL ∨ remote (host s) i = Paused) ∧
  (f_attempted (locals s) = false → live_tier (lc s) = LOCAL ∧ remote (host s) i ≠ Paused) ∧
  frame_ok (locals s) ∧
  (f_completed (locals s) = false → live_tier (lc s) = LOCAL ∧ predecessor_of (lc s) = pred).

Lemma ck_store pred i l p p' h f : ck pred i (State l p h f) → sim p p' → ck pred i (State l p' h f).
Proof. intros [Hb Hr] [Hok Hs]. split; [|exact Hr]. cbn in *. by eapply books_ext. Qed.
Lemma books_sim pin l p p' : books pin l p → sim p p' → books pin l p'.
Proof. intros Hb [Hok Hs]. by eapply books_ext. Qed.

Lemma wp_swapped_out i t k path x y (E : exn → state → Prop) l p h f :
  books 0 l p → sandbox_id l = Some i → busy l → (∀ e h', remote h' = remote h → E e (State (set_state SWAPPED l) p h' f)) →
  wp (swapped_out c RUNNING x y t k path) (λ _, inv) E (State l p h f).
Proof.
  intros Hb Hid Hc HE. unfold swapped_out. step. step. step. step. apply wp_bind.
  assert (∀ h', remote h' = remote h → wp (record "checkpoint" RUNNING SWAPPED x y (Label false (Some LOCAL) t (generation <$> k) path)) (λ _, inv) E
    (State (set_state SWAPPED l) p h' f)) as Hlast.
  { intros h' Hh'. apply wp_record. intros q r h2 Hh2. split_and!; [|done..]. cbn. by eapply books_busy. }
  cbn [lc sandbox_id set_state]. rewrite Hid. destruct (has_borrower c); [|step; by apply Hlast]. step; [|step; by apply Hlast].
  apply wp_still; [auto with cube|]. intros h' Hh'. split; [intros _; by apply Hlast|]. intros e. by apply HE.
Qed.
Lemma ck_swapped pred i l p h h' f : books 0 l p → sandbox l = Some i → sandbox_id l = Some i → busy l → remote h i = Paused →
  f_attempted f = true → f_completed f = true → frame_ok f → remote h' = remote h → ck pred i (State (set_state SWAPPED l) p h' f).
Proof.
  intros Hb Hs Hid Hc Hr Hf Hd Hk Hh'. split_and!; cbn; try done.
  - by eapply books_busy.
  - right. by rewrite Hh'.
  - by rewrite Hf.
  - by rewrite Hd.
Qed.

(** The pause itself, in its transfer slot. *)
Lemma wp_pause {A} pred i x (k : native → A) (g : frame → frame) (Q : A → state → Prop) (E : exn → state → Prop) l p h f :
  ck pred i (State l p h f) → live_tier l = LOCAL → predecessor_of l = pred →
  (∀ f, f_attempted f = true → f_attempted (g f) = true ∧ f_key (g f) = f_key f ∧ f_tier (g f) = f_tier f ∧ f_completed (g f) = true) →
  (∀ e s, ck pred i s → E e s) →
  (∀ m p' h' f', sim p p' → remote h' i = Paused → f_attempted f' = true → f_key f' = f_key f → f_tier f' = f_tier f → f_completed f' = true → Q (k m) (State l p' h' f')) →
  wp (transfer c "checkpoint"
        (note (λ f, Frame (f_key f) (f_tier f) (f_path f) true (f_completed f)) ;;
         m ← on_host (pause_sandbox i x); note g ;; mret (k m))) Q E (State l p h f).
Proof.
  intros Hck Hl Hpred Hg HE HQ. pose proof Hck as (Hb & Hs & Hid & Hc & _ & _ & Hk & _). apply wp_transfer; [apply Hb| |].
  { intros e p' Hp'. apply HE. by eapply ck_store. }
  intros p1 Hp1. assert (∀ h' p2 f', sim p1 p2 → remote h' i = Paused ∨ live_tier l = LOCAL → f_attempted f' = true → f_key f' = f_key f → f_tier f' = f_tier f → ck pred i (State l p2 h' f')) as Hmid.
  { intros h' p2 f' Hp2 Hor Ha Hfk Hft. split_and!; cbn; try done.
    - eapply books_sim; [|exact Hp2]. by eapply books_sim.
    - tauto.
    - by rewrite Ha.
    - unfold frame_ok. rewrite Hfk, Hft. apply Hk. }
  step. step. step. cbn [lc store host locals]. unfold wp at 1, on_host. cbn. pose proof (paused i x h) as Hp.
  destruct (pause_sandbox i x h) as [[m|e] h'] eqn:Ep; cbn in Hp.
  - step. step. step. cbn. set (f1 := Frame _ _ _ _ _). destruct (Hg f1 eq_refl) as (Ha & Hfk & Hft & Hco). split; [apply Hp1|]. intros p2 Hp2. split.
    + apply HQ; [|done..]. destruct Hp1 as [? H1], Hp2 as [? H2]. split; [done|]. intros j. by rewrite H2, H1.
    + intros e. apply HE. apply Hmid; [done|by left|done..].
  - split; [apply Hp1|]. intros p2 e' Hp2. apply HE. apply Hmid; [done|by right|done..].
Qed.

Lemma protected_running pin l p : books pin l p → live_tier l = LOCAL → ∀ j, owner j = who → protected (held p j).
Proof.
  intros Hb Hl j Hj. destruct (held p j) as [| |i r n] eqn:E; [done..|]. cbn. destruct (b_published _ _ _ Hb j i r n Hj E) as (_ & _ & _ & Hr). by rewrite Hr.
Qed.
Lemma key_owner g : owner (key_of c g) = who.
Proof. done. Qed.

Lemma books_reserve l p k b w v p' : books 0 l p → live_tier l = LOCAL → owner k = who → has_pool c = true →
  store_reserve k b w v p = (Ok tt, p') → books 0 (set_pending ({[k]} ∪ pending l) l) p'.
Proof.
  intros Hb Hl Hk Hpool Hr. destruct (law_reserve who k b w v p (b_ok _ _ _ Hb) Hk (protected_running _ _ _ Hb Hl)) as (Hok & Hs & Ho).
  rewrite Hr in Hok, Hs, Ho. cbn in Hok, Hs, Ho. destruct Hs as [Ha Hs]. split; cbn; try done.
  - intros j. rewrite elem_of_union, elem_of_singleton. intros [->|Hj]; [done|by apply (b_owner _ _ _ Hb)].
  - intros j Hj. rewrite elem_of_union, elem_of_singleton. destruct (decide (j = k)) as [->|Hne]; [naive_solver|].
    rewrite Ho, (b_reserved _ _ _ Hb) by done. naive_solver.
  - intros j i r n Hj. destruct (decide (j = k)) as [->|Hne]; [by rewrite Hs|]. rewrite Ho by done. by apply (b_published _ _ _ Hb).
  - intros j Hj. destruct (b_current _ _ _ Hb j Hj) as [Hjo Hp]. split; [done|]. intros Ht. destruct (decide (j = k)) as [->|Hne].
    + destruct (Hp Ht) as (? & ? & ? & Hx). congruence.
    + rewrite Ho by done. auto.
  - apply Hb.
  - congruence.
Qed.

(** A reservation that fails leaves the owner's keys alone. *)
Lemma books_unreserved l p k b w v e p' : books 0 l p → live_tier l = LOCAL → owner k = who →
  store_reserve k b w v p = (Raise e, p') → books 0 l p'.
Proof.
  intros Hb Hl Hk Hr. destruct (law_reserve who k b w v p (b_ok _ _ _ Hb) Hk (protected_running _ _ _ Hb Hl)) as (Hok & Hs & Ho).
  rewrite Hr in Hok, Hs, Ho. cbn in Hok, Hs, Ho. eapply books_ext; [exact Hb|done..|]. intros j Hj. destruct (decide (j = k)) as [->|]; auto.
Qed.

Lemma wp_reserve k w (Q : tier → state → Prop) (E : exn → state → Prop) l p h f :
  books 0 l p → live_tier l = LOCAL → owner k = who →
  (∀ e p', books 0 l p' → E e (State l p' h f)) →
  (∀ t l' p', t ≠ LOCAL → same_vm l l' → live_tier l' = LOCAL → predecessor_of l' = predecessor_of l → gen l' = gen l → books 0 l' p' →
    Q t (State l' p' h f)) →
  wp (reserve_or_fall_back c k w) Q E (State l p h f).
Proof.
  intros Hb Hl Hk HE HQ. unfold reserve_or_fall_back. destruct (has_pool c) eqn:Hpool; [|step; by apply HE].
  destruct (reservation_bytes c) as [b|]; [|step; by apply HE]. step. step. step. cbn [lc]. apply wp_bind. case_bool_decide as Hp.
  - step. step. step. step. apply HQ; try done. cbn. eapply books_lc; [exact Hb|done..| |done]. cbn. set_solver.
  - apply wp_store.
    + intros [] p' Hr. step. step. step. apply HQ; try done. cbn. by eapply books_reserve.
    + intros e p' Hr. pose proof (books_unreserved _ _ _ _ _ _ _ _ Hb Hl Hk Hr). step; step; [by apply HQ|by apply HE].
Qed.

(** A frame before the pause, and the VM as the checkpoint found it. *)
Definition unpaused (i : string) (l : lifecycle) (h : H) (f : frame) : Prop :=
  sandbox l = Some i ∧ sandbox_id l = Some i ∧ busy l ∧ live_tier l = LOCAL ∧ remote h i ≠ Paused ∧ f_attempted f = false ∧
  frame_ok f.
Lemma unpaused_ck pred i l p h f : unpaused i l h f → books 0 l p → predecessor_of l = pred → ck pred i (State l p h f).
Proof. intros (? & ? & ? & ? & ? & ? & ?) Hb. unfold ck. cbn. tauto. Qed.

(** The branch that writes a generation to a tier. *)
Lemma wp_snapshot pred i t x y (E : exn → state → Prop) l p h f : t ≠ LOCAL → f_tier f ≠ Some LOCAL →
  books 0 l p → unpaused i l h f → predecessor_of l = pred → (∀ e s, ck pred i s → E e s) →
  wp (write_snapshot c i t pred RUNNING x y) (λ _, inv) E (State l p h f).
Proof.
  intros Ht Hft Hb (Hs & Hid & Hc & Hl & Hr & Ha & Hk) <- HE. unfold write_snapshot. step. step. step. step. cbn [lc store host locals].
  set (l1 := set_gen _ l). assert (books 0 l1 p) as Hb1 by (by eapply books_busy). set (k := key_of c (gen l1)).
  step. step. cbn [lc store host locals]. set (f1 := Frame _ _ _ _ _). apply wp_bind.
  apply (wp_mono _ (λ t s, ∃ l' p', t ≠ LOCAL ∧ s = State l' p' h f1 ∧ same_vm l1 l' ∧ live_tier l' = LOCAL ∧
    predecessor_of l' = predecessor_of l ∧ books 0 l' p') _ E _ (State l1 p h f1)); [|intros t' ? (l2 & p2 & Ht2 & -> & (Hst & Hs2 & Hid2) & Hl2 & Hpre & Hb2)|done].
  { case_decide; [|step; by exists l1, p]. apply wp_reserve; [done..| |].
    - intros e p' Hb'. apply HE. apply unpaused_ck; [|done|done]. split_and!; try done. by intros ? [= <-].
    - intros t' l' p' ??????. by exists l', p'. }
  change (sandbox l2 = sandbox l) in Hs2. change (sandbox_id l2 = sandbox_id l) in Hid2. change (state_of l2 = state_of l) in Hst.
  assert (∀ l' p' f', same_vm l2 l' → live_tier l' = LOCAL → books 0 l' p' → f_attempted f' = false → f_key f' = Some k → f_tier f' ≠ Some LOCAL →
    predecessor_of l' = predecessor_of l → ck (predecessor_of l) i (State l' p' h f')) as Hck.
  { intros l' p' f' (E1 & E2 & E3) ? ? ? Hk1 ? ?. apply unpaused_ck; [|done|done]. split_and!; try done; try congruence.
    - unfold busy in *. by rewrite E1, Hst.
    - unfold frame_ok. rewrite Hk1. by intros ? [= <-]. }
  step. step. cbn [lc store host locals]. change (sandbox_id l1) with (sandbox_id l). rewrite Hid.
  destruct (root_of c t') as [root|]; [|step; apply HE; apply Hck; try done; by intros [= ?]]. step. step. cbn [lc store host locals].
  set (f2 := Frame _ _ _ _ _). apply wp_bind.
  apply (wp_mono _ (λ _ s, ∃ paths, s = State (set_paths paths l2) p2 h f2) _ E _ (State l2 p2 h f2)); [|intros _ ? [paths ->]|done].
  { case_decide; step; [by eexists|]. exists (warm_paths l2). by destruct l2. }
  assert (books 0 (set_paths paths l2) p2) as Hb3 by (by eapply books_lc).
  step. eapply (wp_pause (predecessor_of l) i _ (λ m, m)); [by apply Hck; try done; by intros [= ?]|done|done|by intros []|done|]. intros m p' h' f' Hp' Hr' Ha' Hk' Ht' Hd'.
  rewrite <- Hpre. change (predecessor_of l2) with (predecessor_of (set_paths paths l2)). step. apply wp_publish; [by eapply books_sim|done..| |].
  - intros e l' p3 h3 (E1 & E2 & E3) Hl3 Hb' Hh3. cbn in E1, E2, E3. apply HE. split_and!; cbn; try done; try congruence.
    + unfold busy in *. by rewrite E1, Hst.
    + by left.
    + unfold frame_ok. rewrite Hk', Ht'. intros ? [= <-]. split; [done|]. by intros [= ?].
  - intros l' p3 h3 (E1 & E2 & E3) Hl3 Hb' Hh3. cbn in E1, E2, E3. assert (busy l') as Hc' by (unfold busy in *; by rewrite E1, Hst).
    eapply wp_swapped_out; [done|rewrite E3; exact (eq_trans Hid2 Hid)|done|]. intros e h4 Hh4. apply HE. apply (ck_swapped _ i _ _ h3); try done; try congruence.
    unfold frame_ok. rewrite Hk', Ht'. intros ? [= <-]. split; [done|]. by intros [= ?].
Qed.

Lemma wp_checkpoint_body pred i t x y (E : exn → state → Prop) l p h f :
  books 0 l p → unpaused i l h f → predecessor_of l = pred → f_key f = None → (∀ e s, ck pred i s → E e s) →
  wp (checkpoint_body c i t pred RUNNING x y) (λ _, inv) E (State l p h f).
Proof.
  intros Hb Hu Hpred Hf HE. pose proof Hu as (Hs & Hid & Hc & Hl & Hr & Ha & Hk). assert (∀ e, E e (State l p h f)) as HE0.
  { intros e. apply HE. by apply unpaused_ck. }
  unfold checkpoint_body. apply wp_bind.
  apply (wp_mono _ (λ _ s, s = State l p h f) _ E _ (State l p h f)); [|intros t' ? ->|done].
  { destruct t as [[]|], (has_pool c), (reservation_bytes c); try (by apply wp_ret). step; [|by step]. step. step; [done|]. by step. }
  clear t. step. step. cbn [lc store host locals]. rewrite Ha, Hf. set (f1 := Frame None t' _ false _). destruct t' as [[]|].
  - step. apply HE. by apply unpaused_ck.
  - apply wp_snapshot; done.
  - apply wp_snapshot; done.
  - step. eapply (wp_pause pred i None (λ _, tt)); [by apply unpaused_ck|done|done|by intros []|done|].
    intros _ p' h' f' Hp' Hr' Ha' Hk' Ht' Hd'. cbn. apply (wp_swapped_out i); [by eapply books_sim|done|done|]. intros e h4 Hh4.
    apply HE. eapply ck_swapped; try done; [by eapply books_sim|]. unfold frame_ok. by rewrite Hk'.
Qed.

Lemma busy_inv pin l p h f : books pin l p → busy l → inv_at pin (State l p h f).
Proof. intros Hb (? & ? & ?). unfold inv_at, runs. cbn. by split_and!. Qed.
Lemma ck_inv pred i s : ck pred i s → inv s.
Proof. destruct s. intros (Hb & _ & _ & Hc & _). by apply busy_inv. Qed.

Lemma books_abort pin l p k o p' : books pin l p → owner k = who → store_abort k p = (o, p') →
  o = Ok tt ∧ books pin (set_pending (pending l ∖ {[k]}) l) p'.
Proof.
  intros Hb Hk Ha. destruct (law_abort who k p (b_ok _ _ _ Hb) Hk) as (Hok & [Hs1 Hs] & Ho). rewrite Ha in *. cbn in *. split; [by destruct o as [[]|]|].
  assert (∀ j, owner j = who → held p' j = if decide (j = k ∧ held p j = Reserved) then Absent else held p j) as Hh.
  { intros j Hj. destruct (decide (j = k)) as [->|Hne]; [|rewrite Ho by done; by rewrite decide_False by naive_solver].
    rewrite Hs. destruct (held p k); case_decide; naive_solver. }
  split; cbn; try (by apply Hb).
  - done.
  - intros j Hj. apply (b_owner _ _ _ Hb). set_solver.
  - intros j Hj. rewrite Hh by done. rewrite elem_of_difference, elem_of_singleton, <- (b_reserved _ _ _ Hb j Hj). case_decide; naive_solver.
  - intros j i r n Hj. rewrite Hh by done. case_decide; [done|]. by apply (b_published _ _ _ Hb).
  - intros j Hj. destruct (b_current _ _ _ Hb j Hj) as [Hjo Hp]. split; [done|]. intros Ht. rewrite Hh by done.
    destruct (Hp Ht) as (n & i & r & E). rewrite E, decide_False by naive_solver. by eexists _, _, _.
  - intros Hp j Hj. rewrite Hh by done. case_decide; [done|]. by apply (b_pool _ _ _ Hb).
Qed.

Lemma wp_reported i (Q : option string → state → Prop) (E : exn → state → Prop) l p h f :
  (∀ r h', remote h' = remote h → (r = Some "running" → remote h i = Running) → (r = Some "paused" → remote h i = Paused) →
    Q r (State l p h' f)) → (∀ h' e, remote h' = remote h → E e (State l p h' f)) →
  wp (try_exception (on_host (get_sandbox_state i)) (λ _, mret None)) Q E (State l p h f).
Proof.
  intros HQ HE. step. unfold wp at 1, on_host. cbn. destruct (reported i h) as (Hh & H1 & H2). destruct (get_sandbox_state i h) as [[r|e] h']; cbn in *.
  - apply HQ; [done|..]; intros ->; auto.
  - split; [by apply HE|]. apply HQ; [done|..]; by intros.
Qed.

(** What is left after a reconciliation that did not work out. *)
Definition adrift (s : state) : Prop := books 0 (lc s) (store s) ∧ busy (lc s).

Lemma wp_reconcile pred i x y l p h f : ck pred i (State l p h f) → f_attempted f = true → f_completed f = false → remote h i = Paused →
  wp (reconcile c pred RUNNING x y) (λ o s, match o with Some _ => inv s | None => adrift s end) (λ _, inv) (State l p h f).
Proof.
  intros (Hb & Hs & Hid & Hc & _ & _ & Hk & Hd) Ha Hco Hr. cbn in *. destruct (Hd Hco) as [Hl <-]. unfold reconcile. step. step. cbn [lc store host locals].
  destruct (f_key f) as [k|] eqn:Ek; [|by step]. destruct (f_tier f) as [t|] eqn:Et; [|by step]. destruct (f_path f) as [path|]; [|by step].
  destruct (Hk k Ek) as [Hko Ht]. step.
  apply (wp_mono _ (λ o s, is_Some o ∧ inv s) _ (λ _, adrift)).
  2:{ intros o s [[q ->] Hq]. done. }
  2:{ intros e [] [? ?]. split; [by apply busy_inv|]. by step. }
  step. apply wp_still; [auto with cube|]. intros h1 H1. split; [|intros e; by split]. intros m. cbv zeta. step. apply wp_publish; [done|done|done|congruence| |].
  - intros e l' p' h' (E1 & _ & _) _ Hb' _. split; [done|]. unfold busy in *. cbn. by rewrite E1.
  - intros l' p' h' (E1 & E2 & E3) Hl' Hb' Hh'. step.
    assert (busy l') as Hc' by (unfold busy in *; by rewrite E1).
    apply (wp_mono _ (λ _, inv) _ (λ _, adrift)); [|intros q s Hq; step; split; [by eexists|done]|done].
    apply (wp_swapped_out i); [done|congruence|done|]. intros e h2 H2. split; [cbn; by eapply books_busy|]. unfold busy. done.
Qed.

Lemma wp_checkpoint_failed pred i x y e s : ck pred i s → wp (checkpoint_failed c pred RUNNING x y e) (λ _, inv) (λ _, inv) s.
Proof.
  intros Hck. unfold checkpoint_failed. step. step. cbv zeta. apply wp_bind.
  apply (wp_mono _ (λ _ s', ck pred i s' ∧ locals s' = locals s) _ (λ _, inv)); [| |done].
  { destruct (f_key (locals s)) as [k|] eqn:Ek; [|by step]. step; [|by step]. step. destruct s as [l p h f]. cbn in *.
    destruct Hck as (Hb & Hs & Hid & Hc & Hor & Ha & Hk & Hd). cbn in *. destruct (Hk k Ek) as [Hko _]. apply wp_store; intros o p' Ho.
    - destruct (books_abort _ _ _ _ _ _ Hb Hko Ho) as [_ Hb']. step. split; [|done]. split_and!; cbn; try done.
    - by destruct (books_abort _ _ _ _ _ _ Hb Hko Ho). }
  intros _ [l p h f] [Hck' Hloc]. cbn in Hloc. rewrite <- Hloc. pose proof Hck' as (Hb & Hs & Hid & Hc & Hor & Ha & Hk & Hd).
  destruct Hck as (_ & Hs0 & Hid0 & _). rewrite Hs0, Hid0. cbn in Hb, Hs, Hid, Hc, Hor, Ha, Hk, Hd. apply wp_bind.
  apply (wp_mono _ (λ r s', ∃ h', s' = State l p h' f ∧ remote h' = remote h ∧ (r = Some "running" → remote h i = Running) ∧
    (r = Some "paused" → remote h i = Paused)) _ (λ _, inv)); [| |done].
  { destruct (f_attempted f); [|step; exists h; by split_and!]. apply wp_reported; [|intros; by apply busy_inv]. intros r h' ???. by exists h'. }
  intros r ? (h1 & -> & H1 & Hrun & Hpau). step. eapply (wp_mono _ (λ o s', match o with Some _ => inv s' | None => ∃ l' p' h' f', s' = State l' p' h' f' ∧ adrift s' ∧
    (f_attempted f = false ∨ r = Some "running" → l' = l ∧ remote h' = remote h) end) _ (λ _, inv)); [| |done].
  - step; [|step; exists l, p, h1, f; by split_and!]. apply andb_prop in H0 as [H0 Hr%bool_decide_eq_true]. apply andb_prop in H0 as [H0 _].
    apply andb_prop in H0 as [Hat Hco%negb_true_iff]. eapply wp_mono; [apply (wp_reconcile pred i)|..]; try done.
    + unfold ck. cbn. rewrite H1. by split_and!.
    + rewrite H1. by apply Hpau.
    + intros [q|] [l' p' h' f'] Hq; [done|]. exists l', p', h', f'. split_and!; [done..|apply Hq|]. rewrite Hr, Hat. by intros [?|?].
  - intros [q|] s' Hs'; [by step|]. destruct Hs' as (l' & p' & h' & f' & -> & [Hb' Hc'] & Hsame). cbv zeta. cbn in Hb', Hc'.
    step. step. step. cbn [lc store host locals]. apply wp_record. intros q t h2 H2. step. split_and!; cbn; [by eapply books_busy| | |by destruct (_ || _)].
    + unfold runs. cbn. destruct (negb (f_attempted f) || bool_decide (r = Some "running")) eqn:Eb; [|done]. intros _. exists i.
      destruct Hsame as [-> Hh']; [|rewrite H2, Hh']. { destruct (f_attempted f); [right; by apply bool_decide_eq_true in Eb|by left]. }
      apply orb_true_iff in Eb as [Eb|Eb]; [destruct (Ha ltac:(by destruct (f_attempted f))) as [??]; by split_and!|].
      apply bool_decide_eq_true in Eb. rewrite (Hrun Eb). destruct Hor as [?|Hp]; [by split_and!|]. by rewrite (Hrun Eb) in Hp.
    + by destruct (_ || _).
Qed.

Lemma wp_checkpoint t s : inv s → wp (checkpoint_and_evict c t) (λ _, inv) (λ _, inv) s.
Proof.
  intros Hi. destruct s as [l p h f]. unfold checkpoint_and_evict. step. step. cbn [lc]. case_decide; [by step|].
  destruct (sandbox l) as [handle|] eqn:Es; [|by step]. case_bool_decide as Hst; [|by step]. step. step; [|done]. step. step. step. step. step.
  destruct Hi as (Hb & Hr & _). destruct (Hr Hst) as (i & Hi & Hid & Hl & Hrem). cbn in Hb, Hi, Hid, Hl, Hrem. assert (handle = i) as -> by congruence.
  assert (books 0 (set_state CHECKPOINTING l) p) as Hb1 by (eapply books_lc; try done; by rewrite Hst).
  apply wp_observe. intros x h1 Hh1. step. step. cbv zeta. step. cbn [lc store host locals]. step.
  apply (wp_mono _ (λ _, inv) _ (λ _, ck (predecessor_of l) i)).
  - apply wp_checkpoint_body; try done. split_and!; try done. by rewrite Hh1.
  - intros q s' Hq. by step.
  - intros e s' He. split; [by eapply ck_inv|]. eapply wp_mono; [by apply (wp_checkpoint_failed _ i)| |done]. intros q s'' Hq. by step.
Qed.

(** ** Reserving before a pair pauses *)

Lemma inv_lc l l' p h f f' : inv (State l p h f) → state_of l' = state_of l → sandbox l' = sandbox l → sandbox_id l' = sandbox_id l →
  live_tier l' = live_tier l → current l' = current l → current_tier l' = current_tier l → pending l' = pending l → inv (State l' p h f').
Proof.
  intros (Hb & Hr & Hc & Hn) E1 E2 E3 E4 E5 E6 E7. cbn in *. unfold inv_at, runs in *. cbn in *. rewrite E1, E2, E3, E4, E5, E7. split_and!; try done.
  eapply books_lc; try done. by rewrite E1.
Qed.
Lemma inv_host l p h h' f f' : inv (State l p h f) → remote h' = remote h → inv (State l p h' f').
Proof. intros (Hb & Hr & Hc & Hn) Hh. unfold inv_at, runs in *. cbn in *. by rewrite Hh. Qed.
Lemma inv_books l l' p p' h f : inv (State l p h f) → books 0 l' p' → same_vm l l' → live_tier l' = live_tier l → current l' = current l →
  (pending l = ∅ → pending l' = ∅) → inv (State l' p' h f).
Proof.
  intros (Hb & Hr & Hc & Hn) Hb' (E1 & E2 & E3) E4 E5 Hp. unfold inv_at, runs in *. cbn in *. rewrite E1, E2, E3, E4, E5. split_and!; try done. naive_solver.
Qed.

Lemma wp_reserve_checkpoint {A} t (body : M state A) s : (∀ s, inv s → wp body (λ _, inv) (λ _, inv) s) → inv s →
  wp (reserve_checkpoint c t body) (λ _, inv) (λ _, inv) s.
Proof.
  intros Hbody Hi. unfold reserve_checkpoint. step. step; [|done]. step. step. apply wp_bind.
  apply (wp_mono _ (λ k s, inv s ∧ match k with Some k => owner k = who | None => True end) _ (λ _, inv)); [| |done].
  { step; [|by step]. destruct (has_pool c) eqn:Hpool; [|by step]. destruct (reservation_bytes c) as [b|]; [|by step]. cbv zeta. step.
    destruct s as [l p h f]. pose proof Hi as (Hb & Hr & Hc & Hn). cbn in *. match goal with H : resident _ && _ = true |- _ => apply andb_prop in H as [Hst%bool_decide_eq_true _] end.
    destruct (Hr Hst) as (i & _ & _ & Hl & _). apply wp_store.
    - intros [] p' Hp'. step. step. step. split; [|done]. split; [cbn; exact (books_reserve _ _ _ _ _ _ _ Hb Hl (key_owner _) Hpool Hp')|]. split; [exact Hr|]. cbn. by rewrite Hst.
    - intros e p' Hp'. apply (inv_books l l p p'); try done. exact (books_unreserved _ _ _ _ _ _ _ _ Hb Hl (key_owner _) Hp'). }
  intros k s1 [Hi1 Hk]. assert (∀ s, inv s → wp (l ← self; match k with
     | Some k => if bool_decide (k ∈ pending l) && resident l then on_store (store_abort k) ;; discard_pending k else mret tt
     | None => mret tt end) (λ _, inv) (λ _, inv) s) as Hfin.
  { intros [l p h f] Hs. step. step. cbn [lc]. destruct k as [k|]; [|by step]. step; [|by step]. step. pose proof Hs as (Hb & _). cbn in Hb.
    apply wp_store; intros o p' Ho; destruct (books_abort _ _ _ _ _ _ Hb Hk Ho) as [? Hb']; [|done]. step.
    apply (inv_books l _ p p'); try done. cbn. set_solver. }
  step. eapply wp_mono; [by apply Hbody|..]; intros; by apply Hfin.
Qed.

(** ** Creation *)

Lemma wp_verify_and_pin i (Q : option string → state → Prop) (E : exn → state → Prop) l p h f :
  (∀ h', remote h' = remote h → (∀ a, Q a (State l p h' f)) ∧ ∀ e, E e (State l p h' f)) → wp (verify_and_pin c i) Q E (State l p h f).
Proof.
  intros HQ. unfold verify_and_pin. apply wp_bind.
  apply (wp_mono _ (λ _ s, ∃ h', s = State l p h' f ∧ remote h' = remote h) _ E); [| |done].
  { step; [|step; by exists h]. apply wp_still; [auto with cube|]. intros h' Hh'. split; [intros a; by exists h'|intros e; by apply HQ]. }
  intros a ? (h1 & -> & H1). apply wp_bind. apply (wp_mono _ (λ _ s, ∃ h', s = State l p h' f ∧ remote h' = remote h) _ E); [| |done].
  { step; [|step; by exists h1]. apply wp_still; [auto with cube|]. intros h' Hh'. rewrite H1 in Hh'. split; [intros _; by exists h'|intros e; by apply HQ]. }
  intros _ ? (h2 & -> & H2). step. by apply HQ.
Qed.

(** Between two attempts: nothing but the handle has changed. *)
Definition creating (s : state) : Prop := books 0 (lc s) (store s) ∧ busy (lc s) ∧ live_tier (lc s) = LOCAL.

Lemma wp_attempt s : creating s →
  wp (transfer c "create" (l ← self; i ← on_host (create_sandbox (allow_out l) (deny_out c)); update (set_sandbox (Some i)) ;; mret i))
    (λ i s', creating s' ∧ sandbox (lc s') = Some i ∧ remote (host s') i = Running) (λ _, creating) s.
Proof.
  destruct s as [l p h f]. intros (Hb & Hc & Hl). cbn in *. apply wp_transfer; [apply Hb| |].
  { intros e p' Hp'. split_and!; try done. cbn. by eapply books_sim. }
  intros p1 Hp1. step. step. step. cbn [lc]. unfold wp at 1, on_host. cbn. pose proof (created (allow_out l) (deny_out c) h) as Hcr.
  destruct (create_sandbox (allow_out l) (deny_out c) h) as [[i|e] h1]; cbn in *.
  - step. step. step. cbn. split; [apply Hp1|]. intros p2 Hp2. assert (books 0 (set_sandbox (Some i) l) p2).
    { eapply books_busy; [|exact Hc|done..]. eapply books_sim; [|exact Hp2]. by eapply books_sim. }
    split; [|intros e]; split_and!; cbn; try done. by apply Hcr.
  - split; [apply Hp1|]. intros p2 e' Hp2. split_and!; cbn; try done. eapply books_sim; [|exact Hp2]. by eapply books_sim.
Qed.

Lemma wp_create_loop fuel deadline : ∀ retry s, creating s → wp (create_loop c fuel deadline retry)
  (λ o s', creating s' ∧ ∀ i, o = Some i → sandbox (lc s') = Some i ∧ remote (host s') i = Running) (λ _, creating) s.
Proof.
  induction fuel as [|fuel IH]; intros retry s Hs; cbn [create_loop]; [step; by split|]. step.
  apply (wp_mono _ (λ r s', creating s' ∧ ∀ i, r = inl i → sandbox (lc s') = Some i ∧ remote (host s') i = Running) _ (λ _, creating)); [| |done].
  { step. step. eapply wp_mono; [by apply wp_attempt| |].
    - intros i s' (? & ? & ?). step. split; [done|]. by intros ? [= <-].
    - intros e s' Hs'. split; [done|]. step. by split. }
  intros [i|e] s1 [H1 Hi]; [step; split; [done|]; intros ? [= <-]; by apply Hi|]. step; [by step|]. destruct s1 as [l p h f]. step.
  assert (∀ h', creating (State l p h' f)) as Hany by (intros; exact H1).
  apply wp_still; [auto with cube|]. intros h1 _. split; [|intros; apply Hany]. intros delay. step. step. cbv zeta. step; [step; apply Hany|]. step.
  apply wp_still; [auto with cube|]. intros h2 _. split; [|intros; apply Hany]. intros _. by apply IH.
Qed.

Lemma wp_start fuel s : inv s → wp (start c fuel) (λ _, inv) (λ _, inv) s.
Proof.
  intros Hi. destruct s as [l p h f]. unfold start. step. step. step. cbn [lc]. step; [done|]. step. step. step. step. step.
  match goal with H : negb _ = false |- _ => apply negb_false_iff, bool_decide_eq_true in H as Hst end.
  destruct Hi as (Hb & _ & _ & Hn). cbn in Hb, Hn. specialize (Hn Hst). cbn [lc store host locals].
  assert (creating (State (set_state CREATING l) p h f)) as Hcr.
  { split_and!; try done. cbn. eapply books_lc; try done. by rewrite Hst. }
  apply wp_observe. intros x h1 Hh1. step.
  apply (wp_mono _ (λ _, inv) _ (λ _, creating)); [|done|].
  - apply wp_bind. apply (wp_mono _ (λ _, creating) _ (λ _, creating)); [| |done].
    { step; [|step; exact Hcr]. apply wp_still; [auto with cube|]. intros h2 _. by split. }
    intros _ s1 Hs1. step. step. step. eapply wp_mono; [by apply wp_create_loop| |done].
    intros [i|] [l2 p2 h2 f2] [(Hb2 & Hc2 & Hl2) Hh]; [|step; by split_and!]. destruct (Hh i eq_refl) as [Hs2 Hrun]. cbn in *. step. step. step.
    apply wp_verify_and_pin. intros h3 Hh3. split; [|intros e; split_and!; try done; cbn; by eapply books_busy]. intros _.
    step. step. apply wp_record. intros q r h4 Hh4. split_and!; cbn; try done.
    + by eapply books_busy.
    + intros _. exists i. split_and!; cbn; try done. cbn in Hh3, Hh4. by rewrite Hh4, Hh3, Hrun.
  - intros e [l2 p2 h2 f2] (Hb2 & Hc2 & Hl2). split; [by apply busy_inv|]. step. step. step. apply wp_record. intros q r h3 Hh3. step.
    split_and!; cbn; try done. by eapply books_busy.
Qed.

(** ** Holding the snapshot *)

(** What [_snapshot_access] holds: the key it pinned and the token it gives back. *)
Definition watch (o : option (snapshot_key * option nat)) l p : Prop :=
  match o with
  | Some (k, token) => owner k = who ∧ (current l = Some k ∨ current l = None) ∧ (is_token token (held p k) ∨ held p k = Absent)
  | None => current l = None ∨ has_pool c = false
  end.
Definition none_published p : Prop := ∀ k i r n, owner k = who → held p k ≠ Published i r n.

Lemma books_repin a b l p : books a l p → none_published p → books b l p.
Proof. intros [] Hn. split; try done. intros k i r n Hk E. by destruct (Hn k i r n). Qed.
Lemma watch_none l p pin : books pin l p → watch None l p → none_published p.
Proof.
  intros Hb [Hc|Hp] k i r n Hk E; [destruct (b_published _ _ _ Hb k i r n Hk E); congruence|].
  by rewrite (b_pool _ _ _ Hb Hp k Hk) in E.
Qed.
Lemma watch_sim o l p p' : watch o l p → sim p p' → watch o l p'.
Proof. intros Hw [_ Hh]. destruct o as [[k t]|]; [|done]. cbn in *. by rewrite Hh. Qed.

(** Only the pins of one key change. *)
Lemma books_pins a d l p p' k : books a l p → owner k = who → current l = Some k ∨ current l = None → store_ok p' →
  held p' k = pinned_by d (held p k) → (∀ j, owner j = who → j ≠ k → held p' j = held p j) → books (a + d) l p'.
Proof.
  intros Hb Hk Hc Hok Hh Hj. assert (∀ j, owner j = who → held p' j = if decide (j = k) then pinned_by d (held p k) else held p j) as Hall.
  { intros j Hjo. case_decide as E; [by rewrite E|]. by apply Hj. }
  split; try (by apply Hb); try done.
  - intros j Hjo. rewrite Hall, <- (b_reserved _ _ _ Hb j Hjo) by done. case_decide as E; [rewrite E; by destruct (held p k)|done].
  - intros j i r n Hjo. rewrite Hall by done. case_decide as E.
    + subst j. destruct (held p k) as [| |i' r' n'] eqn:Eh; [done..|]. cbn. intros [= <- <- <-].
      destruct (b_published _ _ _ Hb k i' r' n' Hk Eh) as (? & ? & -> & ?). by split_and!.
    + intros Eh. destruct (b_published _ _ _ Hb j i r n Hjo Eh) as (? & _). destruct Hc; congruence.
  - intros j Hcj. destruct (b_current _ _ _ Hb j Hcj) as [Hjo Hp]. split; [done|]. intros Hw. rewrite Hall by done. destruct (Hp Hw) as (n & i & r & E).
    case_decide as Ej; [subst j|rewrite E; by eexists _, _, _]. rewrite E. by eexists _, _, _.
  - intros Hp j Hjo. rewrite Hall by done. pose proof (b_pool _ _ _ Hb Hp) as Ha. case_decide; [by rewrite Ha|by apply Ha].
Qed.

Lemma books_enter l p k o p' : books 0 l p → current l = Some k → store_enter k p = (o, p') →
  ∃ token, o = Ok token ∧ books 1 l p' ∧ watch (Some (k, token)) l p'.
Proof.
  intros Hb Hc He. destruct (b_current _ _ _ Hb k Hc) as [Hk _]. destruct (law_enter who k p (b_ok _ _ _ Hb) Hk) as (Hok & (t & Ho & Ht & Hh) & Hj).
  rewrite He in *. cbn in *. exists t. split; [done|]. split; [apply (books_pins 0 1 l p p' k); auto|].
  split_and!; [done|by left|left; rewrite Hh; by destruct (held p k)].
Qed.

Lemma books_exit l p k t o p' : books 1 l p → watch (Some (k, t)) l p → store_exit k t p = (o, p') → o = Ok tt ∧ books 0 l p'.
Proof.
  intros Hb (Hk & Hc & Ht) He. destruct (law_exit who k t p (b_ok _ _ _ Hb) Hk) as (Hok & (Ho & H1 & H2) & Hj). rewrite He in *. cbn in *.
  split; [by destruct o as [[]|]|]. apply (books_pins 1 (-1) l p p' k); try done.
  destruct Ht as [Ht|Ht]; [by apply H1|]. rewrite H2 by done. by rewrite Ht.
Qed.

Lemma wp_access {A} (m : M state A) s : inv s →
  (∀ o s, inv_at 1 s → watch o (lc s) (store s) → wp m (λ _ s, inv_at 1 s ∧ watch o (lc s) (store s)) (λ _ s, inv_at 1 s ∧ watch o (lc s) (store s)) s) →
  wp (snapshot_access c m) (λ _, inv) (λ _, inv) s.
Proof.
  intros Hi Hm. unfold snapshot_access. step. step. destruct s as [l p h f]. cbn [lc]. pose proof Hi as (Hb & Hr & Hc & Hn). cbn in Hb.
  assert (∀ a b s, none_published (store s) → inv_at a s → inv_at b s) as Hrepin.
  { intros a b [l' p' h' f'] Hp (Hb' & Hrest). split; [|exact Hrest]. by eapply books_repin. }
  assert (watch None l p → wp m (λ _, inv) (λ _, inv) (State l p h f)) as Hnone.
  { intros Hw. eapply wp_mono; [apply (Hm None); [eapply Hrepin; [by eapply watch_none|exact Hi]|exact Hw]|..]; intros ? [l' p' h' f'] [Hi' Hw'];
      (eapply Hrepin; [|exact Hi']); destruct Hi' as [Hb' _]; by eapply watch_none. }
  destruct (current l) as [k|] eqn:Ek; [destruct (has_pool c) eqn:Ep|]; [|apply Hnone; by right|apply Hnone; by left].
  step. apply wp_store; intros o p' He; destruct (books_enter _ _ _ _ _ Hb Ek He) as (t & [= ->] & Hb1 & Hw1). step.
  assert (∀ l' p' h' f', inv_at 1 (State l' p' h' f') → watch (Some (k, t)) l' p' → wp (on_store (store_exit k t)) (λ _, inv) (λ _, inv) (State l' p' h' f')) as Hfin.
  { intros l' p1 h' f' (Hb' & Hrest) Hw'. apply wp_store; intros o p2 Hx; destruct (books_exit _ _ _ _ _ _ Hb' Hw' Hx) as [_ ?]; by split. }
  eapply wp_mono; [apply (Hm (Some (k, t))); [by split_and!|exact Hw1]|..]; intros ? [l' p1 h' f'] [Hi' Hw']; by apply Hfin.
Qed.

(** ** Restore *)

Definition mid o (s : state) : Prop := books 1 (lc s) (store s) ∧ busy (lc s) ∧ watch o (lc s) (store s).
Definition acc o (s : state) : Prop := inv_at 1 s ∧ watch o (lc s) (store s).
Lemma mid_acc o s : mid o s → acc o s.
Proof. destruct s. intros (? & ? & ?). split; [by apply busy_inv|done]. Qed.
Lemma mid_lc o l l' p h h' f f' : mid o (State l p h f) → busy l' → live_tier l' = live_tier l → current l' = current l →
  current_tier l' = current_tier l → pending l' = pending l → mid o (State l' p h' f').
Proof. intros (Hb & Hc & Hw) **. split_and!; cbn in *; [by eapply books_busy|done|]. destruct o as [[k t]|]; cbn in *; congruence. Qed.

(** A retained snapshot, and no snapshot at all. *)
Lemma books_retained l p p' k : books 1 l p → current l = Some k → store_ok p' → any_published (held p k) →
  held p' k = retained_state (held p k) → (∀ j, owner j = who → j ≠ k → held p' j = held p j) → lazy_restore c = true →
  books 1 (set_tier LOCAL l) p'.
Proof.
  intros Hb Hc Hok (n0 & i0 & r0 & E) Hh Hj Hlz. destruct (b_current _ _ _ Hb k Hc) as [Hk _].
  assert (∀ j, owner j = who → held p' j = if decide (j = k) then Published i0 true n0 else held p j) as Hall.
  { intros j Hjo. case_decide as Ej; [by rewrite Ej, Hh, E|]. by apply Hj. }
  split; cbn; try (by apply Hb); try done.
  - intros j Hjo. rewrite Hall, <- (b_reserved _ _ _ Hb j Hjo) by done. case_decide as Ej; [by rewrite Ej, E|done].
  - intros j i r n Hjo. rewrite Hall by done. case_decide as Ej.
    + subst j. intros [= <- <- <-]. by destruct (b_published _ _ _ Hb k _ _ _ Hk E) as (? & ? & ? & _).
    + intros Eh. destruct (b_published _ _ _ Hb j i r n Hjo Eh) as (? & _). congruence.
  - intros j Hcj. destruct (b_current _ _ _ Hb j Hcj) as [Hjo Hp]. split; [done|]. intros Hw. rewrite Hall by done. case_decide; [by eexists _, _, _|auto].
  - by right.
  - intros Hp j Hjo. pose proof (b_pool _ _ _ Hb Hp k Hk). congruence.
Qed.
Lemma books_dropped l l' p p' pin : books pin l p → store_ok p' → pending l' = pending l → current l' = None → live_tier l' = LOCAL →
  none_published p' → (∀ j, owner j = who → held p' j = Reserved ↔ held p j = Reserved) →
  (has_pool c = false → ∀ j, owner j = who → held p' j = Absent) → books pin l' p'.
Proof.
  intros Hb Hok Hp Hc Hl Hnone Hres Hpool. split; rewrite ?Hp, ?Hc, ?Hl; try done.
  - apply Hb.
  - intros j Hj. rewrite Hres by done. by apply Hb.
  - intros j i r n Hj E. by destruct (Hnone j i r n).
Qed.

(** The owner's keys, of which [k] alone was looked at, stay as they are. *)
Lemma sim_keys k p p' : held p' k = held p k → (∀ j, owner j = who → j ≠ k → held p' j = held p j) →
  ∀ j, owner j = who → held p' j = held p j.
Proof. intros Hh Hj j Hjo. destruct (decide (j = k)) as [->|]; auto. Qed.
Lemma mid_keys o l p p' h f f' : mid o (State l p h f) → store_ok p' → (∀ j, owner j = who → held p' j = held p j) → mid o (State l p' h f').
Proof.
  intros (Hb & Hc & Hw) Hok Hh. cbn in *. split_and!; cbn; [by eapply books_ext|done|]. destruct o as [[k t]|]; [|done]. cbn in *.
  rewrite Hh by apply Hw. done.
Qed.

Lemma wp_settle o (Q : unit → state → Prop) (E : exn → state → Prop) l p h f : mid o (State l p h f) →
  (∀ e l' p', same_vm l l' → mid o (State l' p' h f) → E e (State l' p' h f)) →
  (∀ l' p', same_vm l l' → books 1 (set_tier LOCAL l') p' → watch o l' p' → Q tt (State l' p' h f)) →
  wp (settle_snapshot c) Q E (State l p h f).
Proof.
  intros (Hb & Hc & Hw) HE HQ. cbn in Hb, Hc, Hw. assert (∀ e p', mid o (State l p' h f) → E e (State l p' h f)) as HE0 by (intros; by apply HE).
  unfold settle_snapshot. step. step. cbn [lc]. step. assert (state_of l ≠ CLOSED) as Hst by apply Hc.
  assert (∀ k, current l = Some k → owner k = who) as Hown by apply Hb.
  assert ((is_Some (current l) → live_tier l ≠ WARM) → wp (if lazy_restore c then mret tt else update (set_current None None)) Q E (State l p h f)) as Hrest.
  { intros Hne. step; step; match goal with H : lazy_restore c = _ |- _ => rename H into Hlz end; apply HQ; try done.
    - assert (∀ k i r n, owner k = who → held p k = Published i r n → live_tier l = LOCAL) as Hloc.
      { intros k i r n Hk Ex. destruct (b_published _ _ _ Hb k i r n Hk Ex) as (Hcur & Ht & _). destruct (live_tier l) eqn:El; [done|by destruct Hne|].
        destruct (b_settled _ _ _ Hb Hst) as (? & _ & ?); congruence. }
      destruct Hb. split; cbn; try done; [|by right]. intros k i r n Hk Ex. destruct (b_published0 k i r n Hk Ex) as (? & ? & ? & ?). split_and!; eauto.
    - apply (books_dropped l _ p p 1); try done; [by apply Hb| |by apply Hb]. intros k i r n Hk Ex. destruct (b_published _ _ _ Hb k i r n Hk Ex) as (Hcur & Ht & _).
      destruct (b_lazy _ _ _ Hb Ht); [by eexists|naive_solver|congruence].
    - destruct o as [[k t]|]; [|by left]. destruct Hw as (? & ? & ?). split_and!; [done|by right|done]. }
  destruct (current l) as [k|] eqn:Ek; [case_bool_decide as Hl|].
  - specialize (Hown k eq_refl). step. step; [by apply HE0|]. destruct (has_pool c) eqn:Hpool; [|done]. step; match goal with H : lazy_restore c = _ |- _ => rename H into Hlz end.
    + destruct (law_retain who k p (b_ok _ _ _ Hb) Hown) as (Hok & Hs & Hj). apply wp_store; intros o1 p' Hr; rewrite Hr in Hok, Hs, Hj; cbn in Hok, Hs, Hj.
      * destruct Hs as [Hp Hs]. rewrite Hlz. step. apply HQ; [done|by eapply books_retained|]. destruct o as [[k' t]|]; [|done].
        destruct Hw as (? & ? & Ht). split_and!; [done..|]. destruct (decide (k' = k)) as [->|]; [rewrite Hs|by rewrite Hj].
        destruct Ht as [Ht|Ht]; [left|right]; revert Ht; by destruct (held p k).
      * apply HE; [done|]. apply (mid_keys o l p p' h f f); [by split_and!|done|]. by apply (sim_keys k).
    + step. apply wp_verify_removed; [by apply HE0|].
      destruct (law_remove who k true p (b_ok _ _ _ Hb) Hown) as (Hok & Hs & Hj). apply wp_store; intros o1 p' Hr; rewrite Hr in Hok, Hs, Hj; cbn in Hok, Hs, Hj.
      * destruct Hs as [Hp Hs]. rewrite Hlz. step. cbn [lc store host locals]. apply HQ; [done| |].
        -- eapply books_dropped; [exact Hb|done..| | |by rewrite Hpool].
           ++ intros j i r n Hjo. destruct (decide (j = k)) as [->|Hne]; [by rewrite Hs|]. rewrite Hj by done. intros Ex.
              destruct (b_published _ _ _ Hb j i r n Hjo Ex) as (? & _). congruence.
           ++ intros j Hjo. destruct (decide (j = k)) as [->|Hne]; [|by rewrite Hj]. destruct Hp as (i & r & ->). by rewrite Hs.
        -- destruct o as [[k' t]|]; [|by left]. destruct Hw as (? & ? & Ht). split_and!; [done|by right|].
           destruct (decide (k' = k)) as [->|]; [by right|by rewrite Hj].
      * apply HE; [done|]. apply (mid_keys o _ p p' h f f); [apply (mid_lc o l _ p h h f f); [by split_and!|done..]|done|]. by apply (sim_keys k).
  - step. by apply Hrest.
  - step. apply Hrest. by intros [? ?].
Qed.

Definition open_acc o (s : state) : Prop := acc o s ∧ state_of (lc s) ≠ CLOSED.
Lemma mid_open o s : mid o s → open_acc o s.
Proof. intros Hm. split; [by apply mid_acc|]. apply Hm. Qed.
Lemma mid_host o l p h h' f : mid o (State l p h f) → mid o (State l p h' f).
Proof. done. Qed.

Lemma wp_decompress i (Q : unit → state → Prop) (E : exn → state → Prop) l p h f :
  (∀ h', remote h' = remote h → Q tt (State l p h' f) ∧ ∀ e, E e (State l p h' f)) → wp (decompress_current c i) Q E (State l p h f).
Proof.
  intros HQ. assert (Q tt (State l p h f)) as Hq by by apply HQ. unfold decompress_current. step. step. cbn [lc]. destruct (current l); [|by step].
  step; [|by step]. destruct (root_of c _); [|step; by apply HQ]. step. apply wp_observe. intros ? h1 Hh1. step. apply wp_still; [auto with cube|].
  intros h2 Hh2. rewrite Hh1 in Hh2. split; [|intros; by apply HQ]. intros _. step. apply wp_observe. intros ? h3 Hh3. rewrite Hh2 in Hh3. step. by apply HQ.
Qed.

Lemma wp_connect o i s : mid o s → wp (transfer c "restore" (j ← on_host (connect_sandbox i); update (set_sandbox (Some j))))
  (λ _ s', mid o s' ∧ sandbox (lc s') = Some i ∧ sandbox_id (lc s') = sandbox_id (lc s) ∧ remote (host s') i = Running ∧ locals s' = locals s)
  (λ _, mid o) s.
Proof.
  destruct s as [l p h f]. intros Hm. pose proof Hm as (Hb & Hc & Hw). cbn in *. apply wp_transfer; [apply Hb| |].
  { intros e p' [Hok Hh]. apply (mid_keys o l p p' h f f); auto. }
  intros p1 [Hok1 Hh1]. assert (∀ l' p2 h', (l' = l ∨ l' = set_sandbox (Some i) l) → sim p1 p2 → mid o (State l' p2 h' f)) as Hmid.
  { intros l' p2 h' Hl [Hok2 Hh2]. apply (mid_keys o l' p p2 h f f); [|done|by intros j _; rewrite Hh2, Hh1]. destruct Hl as [->| ->]; [exact Hm|].
    by apply (mid_lc o l _ p h h f f). }
  step. unfold wp at 1, on_host. cbn. pose proof (connected i h) as Hcon. destruct (connect_sandbox i h) as [[j|e] h1]; cbn in *.
  - destruct (Hcon j eq_refl) as [-> Hrun]. split; [done|]. intros p2 Hp2. split; [|intros e; apply Hmid; auto]. split_and!; try done. apply Hmid; auto.
  - split; [done|]. intros p2 e' Hp2. apply Hmid; auto.
Qed.

Lemma wp_restore_body o i x y s : mid o s → sandbox_id (lc s) = Some i → wp (restore_body c i x y) (λ _, acc o) (λ _, open_acc o) s.
Proof.
  destruct s as [l p h f]. intros Hm Hid. unfold restore_body. apply wp_bind.
  apply (wp_mono _ (λ _ s, ∃ h, s = State l p h f) _ (λ _, open_acc o)); [| |done].
  { step; [|step; by eexists]. apply wp_still; [auto with cube|]. intros h' _. split; [by eexists|intros; by apply mid_open]. }
  intros _ ? [h1 ->]. step. apply wp_decompress. intros h2 _. split; [|intros; by apply mid_open]. step.
  eapply wp_mono; [by apply (wp_connect o)| |intros; by apply mid_open]. intros _ [l3 p3 h3 f3] (Hm3 & Hs3 & Hid3 & Hrun & _). cbn in Hid, Hs3, Hid3, Hrun. rewrite Hid in Hid3.
  step. apply wp_verify_and_pin. intros h4 Hh4. split; [|intros; by apply mid_open]. intros _. step. apply (wp_settle o); [exact Hm3|intros; by apply mid_open|].
  intros l5 p5 (E1 & E2 & E3) Hb5 Hw5. step. step. cbn [lc store host locals].
  set (l6 := set_state RUNNING (set_tier LOCAL l5)). assert (∀ l' h' f', sandbox l' = sandbox l5 → sandbox_id l' = sandbox_id l5 → state_of l' = RUNNING →
    live_tier l' = LOCAL → current l' = current l5 → current_tier l' = current_tier l5 → pending l' = pending l5 → remote h' = remote h4 →
    open_acc o (State l' p5 h' f')) as Hfin.
  { intros l' h' f' F1 F2 F3 F4 F5 F6 F7 F8. assert (state_of l5 ≠ CLOSED) as Hc5 by (rewrite E1; apply Hm3). unfold open_acc, acc, inv_at, runs. cbn.
    rewrite F3. split; [|done]. split; [|destruct o as [[k t]|]; cbn in *; by rewrite F5]. split_and!; try done.
    - eapply books_lc; [exact Hb5|done..|by rewrite F3].
    - intros _. exists i. rewrite F1, F2, F8, E2, E3, Hh4. cbn. rewrite Hrun. by split_and!. }
  step. step. apply wp_still; [auto with cube|]. intros h7 Hh7. assert (∀ b, wp (update (set_sampling b) ;; l ← self; ready ← now;
    seconds ← record "restore" SWAPPED RUNNING x y (Label false (current_tier l) (Some LOCAL) (Some (gen l)) None);
    update (set_marker (Some (Marker ready seconds (gen l) (current_tier l) None))) ;; mret seconds) (λ _, acc o) (λ _, open_acc o) (State l6 p5 h7 f3)) as Hlast.
  { intros b. step. step. step. step. step. step. step. cbn [lc store host locals]. apply wp_record. intros q r h8 Hh8. step. step. step. apply Hfin; try done. cbn in *. by rewrite Hh8. }
  split; [apply Hlast|]. intros []; try (step; by apply Hfin). step. apply Hlast.
Qed.

Lemma acc_host o l p h h' f f' : acc o (State l p h f) → remote h' = remote h → acc o (State l p h' f').
Proof. intros [(Hb & Hr & Hi) Hw] Hh. split; [|exact Hw]. unfold inv_at, runs in *. cbn in *. by rewrite Hh. Qed.

Lemma wp_restore_failed o x y e s : open_acc o s → wp (restore_failed x y e) (λ _, acc o) (λ _, acc o) s.
Proof.
  destruct s as [l p h f]. intros [Ha Hc]. pose proof Ha as [(Hb & _) Hw]. cbn in Hb, Hw, Hc. unfold restore_failed. step. step. cbn [lc]. apply wp_bind.
  assert (∀ b h' f' r, acc o (State (add_timing r (set_state (if b : bool then SWAPPED else UNKNOWN) l)) p h' f')) as Hany.
  { intros b h' f' r. split; [|destruct o as [[k t]|]; exact Hw]. unfold inv_at, runs. cbn. split_and!; [by eapply books_lc|by destruct b..]. }
  apply (wp_mono _ (λ _ s', ∃ h', s' = State l p h' f) _ (λ _, acc o)); [| |done].
  - destruct (sandbox l) as [i|]; [|step; by exists h]. apply wp_reported; [intros r h' _ _ _; by exists h'|intros h' e' Hh'; by eapply acc_host].
  - intros r ? [h' ->]. cbv zeta. step. step. step. apply wp_record. intros q t h2 _. step. apply Hany.
Qed.

Lemma wp_restore s : inv s → wp (restore c) (λ _, inv) (λ _, inv) s.
Proof.
  intros Hi. apply wp_access; [done|]. intros o [l p h f] Ha Hw. apply (wp_mono _ (λ _, acc o) _ (λ _, acc o)); [|done..].
  step. step. cbn [lc]. assert (acc o (State l p h f)) as Hacc by by split. destruct (sandbox_id l) as [i|] eqn:Eid; [|by step].
  case_bool_decide as Hst; [|by step]. destruct Ha as (Hb & _). cbn in Hb, Hw. step. step. step. step. step. apply wp_observe. intros x h1 _. step.
  eapply wp_mono; [apply (wp_restore_body o i)| |].
  - split_and!; cbn; [|done|by destruct o as [[]|]]. eapply books_lc; try done. by rewrite Hst.
  - done.
  - done.
  - intros e s' Hs'. split; [apply Hs'|]. by apply wp_restore_failed.
Qed.

(** ** Destruction *)

Lemma wp_containers (Q : unit → state → Prop) (E : exn → state → Prop) l p h f :
  (∀ h', remote h' = remote h → Q tt (State l p h' f) ∧ ∀ e, E e (State l p h' f)) → wp (remove_containers c) Q E (State l p h f).
Proof.
  intros HQ. unfold remove_containers. step. step. cbn [lc]. apply wp_bind.
  assert (∀ paths h1, remote h1 = remote h → wp (for_each paths (λ path, on_host (remove_compressed path)))
    (λ _ s, ∃ h', s = State l p h' f ∧ remote h' = remote h) E (State l p h1 f)) as Hloop.
  { induction paths as [|path paths IH]; intros h1 Hh1; cbn [for_each]; [step; by exists h1|]. step. apply wp_still; [auto with cube|].
    intros h2 Hh2. split; [intros _; apply IH; congruence|]. intros e. apply HQ. congruence. }
  eapply wp_mono; [by apply Hloop| |done]. intros _ ? (h' & -> & Hh').
  assert (wp (mret tt) Q E (State l p h' f)) as Hdone by (step; by apply HQ).
  repeat case_match; try exact Hdone. apply wp_still; [auto with cube|].
  intros h2 Hh2. rewrite Hh' in Hh2. split; [intros []|intros e]; by apply HQ.
Qed.

(** The reservations still pending are given back. *)
Lemma wp_aborts o (Q : unit → state → Prop) (E : exn → state → Prop) g l h f ks : Forall (λ k, owner k = who) ks → ∀ X p,
  books 1 (set_pending X g) p → watch o l p →
  (∀ p', books 1 (set_pending (X ∖ list_to_set ks) g) p' → watch o l p' → Q tt (State l p' h f)) →
  wp (for_each ks (λ k, on_store (store_abort k))) Q E (State l p h f).
Proof.
  induction 1 as [|k ks Hk _ IH]; intros X p Hb Hw HQ; cbn [for_each].
  { step. apply HQ; [|done]. cbn. by rewrite difference_empty_L. }
  step. apply wp_store; intros r p' Hr; destruct (books_abort _ _ _ _ _ _ Hb Hk Hr) as [? Hb']; [|done].
  apply (IH (X ∖ {[k]})); [exact Hb'| |].
  - destruct o as [[k' t]|]; [|done]. destruct Hw as (? & ? & Ht). split_and!; [done..|].
    destruct (law_abort who k p (b_ok _ _ _ Hb) Hk) as (_ & [_ Hs] & Hj). rewrite Hr in Hs, Hj. cbn in Hs, Hj.
    destruct (decide (k' = k)) as [->|]; [rewrite Hs|by rewrite Hj]. destruct (held p k); auto.
  - intros p2 Hb2. apply HQ. rewrite difference_difference_l_L in Hb2. exact Hb2.
Qed.

(** Nothing of the owner's is left in the pool. *)
Definition nothing_held p : Prop := ∀ k, owner k = who → held p k = Absent.

Lemma wp_release o (Q : unit → state → Prop) (E : exn → state → Prop) l p h f : mid o (State l p h f) →
  (∀ e p', mid o (State l p' h f) → E e (State l p' h f)) →
  (∀ l' p', same_vm l l' → live_tier l' = live_tier l → current l' = current l → pending l' = ∅ → store_ok p' → nothing_held p' →
    watch o l' p' → Q tt (State l' p' h f)) →
  wp (release_snapshots c) Q E (State l p h f).
Proof.
  intros Hm HE HQ. pose proof Hm as (Hb & Hc & Hw). cbn in Hb, Hc, Hw. unfold release_snapshots. step. step. cbn [lc]. apply wp_bind.
  apply (wp_mono _ (λ _ s, ∃ p', s = State l p' h f ∧ store_ok p' ∧ watch o l p' ∧
    ∀ j, owner j = who → held p' j = match held p j with Published _ _ _ => Absent | t => t end) _ E); [| |done].
  - assert (none_published p → ∃ p', State l p h f = State l p' h f ∧ store_ok p' ∧ watch o l p' ∧
      ∀ j, owner j = who → held p' j = match held p j with Published _ _ _ => Absent | t => t end) as Hnone.
    { intros Hn. exists p. split_and!; [done|apply Hb|done|]. intros j Hj. destruct (held p j) eqn:E0; [done..|]. by destruct (Hn j i retained pins). }
    destruct (current l) as [k|] eqn:Ek.
    + destruct (b_current _ _ _ Hb k Ek) as [Hk _]. step.
      * destruct (law_remove who k true p (b_ok _ _ _ Hb) Hk) as (Hok & Hs & Hj). apply wp_store; intros r p' Hr; rewrite Hr in Hok, Hs, Hj; cbn in Hok, Hs, Hj.
        -- destruct Hs as [(i & r0 & Hp) Hs]. exists p'. split_and!; [done|done| |].
           ++ destruct o as [[k' t]|]; [|done]. destruct Hw as (? & ? & Ht). split_and!; [done..|]. destruct (decide (k' = k)) as [->|]; [by right|by rewrite Hj].
           ++ intros j Hjo. destruct (decide (j = k)) as [->|Hne]; [by rewrite Hs, Hp|]. rewrite Hj by done. destruct (held p j) eqn:Ej; [done..|].
              destruct (b_published _ _ _ Hb j _ _ _ Hjo Ej) as (? & _). congruence.
        -- apply HE. apply (mid_keys o l p p' h f f); [done|done|]. by apply (sim_keys k).
      * step. apply Hnone. intros j i r n Hj Ej. destruct (b_published _ _ _ Hb j i r n Hj Ej) as (_ & Ht & _).
        match goal with H : _ && _ = false |- _ => rewrite Ht, bool_decide_eq_true_2 in H by done; cbn in H; rename H into Hpool end.
        by rewrite (b_pool _ _ _ Hb Hpool j Hj) in Ej.
    + step. apply Hnone. apply (watch_none l p 1); [done|]. by left.
  - intros _ ? (p1 & -> & Hok1 & Hw1 & Hh1). set (g := set_current None None (set_tier LOCAL l)).
    assert (books 1 g p1) as Hg.
    { apply (books_dropped l g p p1 1); try done.
      - intros j i r n Hj. rewrite Hh1 by done. by destruct (held p j).
      - intros j Hj. rewrite Hh1 by done. by destruct (held p j).
      - intros Hpool j Hj. rewrite Hh1 by done. by rewrite (b_pool _ _ _ Hb Hpool j Hj). }
    assert (∀ p', books 1 (set_pending ∅ g) p' → nothing_held p') as Hnothing.
    { intros p' Hb' j Hj. destruct (held p' j) as [| |i r n] eqn:Ej; [done|..].
      - apply (b_reserved _ _ _ Hb' j Hj) in Ej. set_solver.
      - by destruct (b_published _ _ _ Hb' j i r n Hj Ej). }
    assert (∀ k, k ∈ pending l → owner k = who) as Hown by apply Hb.
    step; match goal with H : has_pool c = _ |- _ => rename H into Hpool end.
    + step. apply (wp_aborts o _ _ g l h f (elements (pending l)) ltac:(apply Forall_forall; set_solver) (pending l)); [exact Hg|done|].
      intros p2 Hb2 Hw2. step. assert (pending l ∖ list_to_set (elements (pending l)) = ∅) as E0 by set_solver. rewrite E0 in Hb2.
      apply HQ; try done; [apply Hb2|by apply Hnothing].
    + step. assert (pending l = ∅) as Ep.
      { apply elem_of_equiv_empty_L. intros k Hk. pose proof (b_reserved _ _ _ Hb k (Hown k Hk)) as [_ Hr]. specialize (Hr Hk). by rewrite (b_pool _ _ _ Hb Hpool k (Hown k Hk)) in Hr. }
      apply HQ; try done. apply Hnothing. eapply books_lc; [exact Hg|done..].
Qed.

Lemma books_nothing pin l p : store_ok p → nothing_held p → current l = None → pending l = ∅ → state_of l = CLOSED → books pin l p.
Proof.
  intros Hok Hn Hc Hp Hs. split; rewrite ?Hc, ?Hp; try done.
  - intros k Hk. rewrite Hn by done. split; [done|set_solver].
  - intros k i r n Hk. by rewrite Hn.
Qed.

(** A destruction in progress: the VM is as it was, or gone. *)
Definition doomed o l0 h0 (s : state) : Prop :=
  mid o s ∧ sandbox (lc s) = sandbox l0 ∧ sandbox_id (lc s) = sandbox_id l0 ∧ live_tier (lc s) = live_tier l0 ∧
  ∀ i, sandbox_id l0 = Some i → remote (host s) i = Gone ∨ remote (host s) i = remote h0 i.

Lemma wp_kill o l0 h0 s : doomed o l0 h0 s → remote (host s) = remote h0 → wp (match sandbox_id (lc s) with
    | Some id => on_host (kill_sandbox id) ;; if has_borrower c then on_host (release_destroyed id) else mret tt
    | None => mret tt end) (λ _, doomed o l0 h0) (λ _, doomed o l0 h0) s.
Proof.
  destruct s as [l p h f]. intros (Hm & E1 & E2 & E3 & Hrem) Hh. cbn in E1, E2, E3, Hh |- *. destruct (sandbox_id l) as [i|] eqn:Ei; [|step; split_and!; try done; cbn; congruence].
  assert (∀ h' f', remote h' i = Gone ∨ remote h' i = remote h0 i → doomed o l0 h0 (State l p h' f')) as Hany.
  { intros h' f' Hh'. split_and!; try done; cbn; [congruence|]. intros j Hj. assert (j = i) as -> by congruence. done. }
  step. unfold wp at 1, on_host. cbn. pose proof (killed i h) as Hk. destruct (kill_sandbox i h) as [[[]|e] h1]; cbn in *.
  - destruct Hk as [Hk|[? _]]; [|done]. step; [|step; apply Hany; auto]. apply wp_still; [auto with cube|]. intros h2 Hh2.
    split; [intros _|intros e]; apply Hany; rewrite Hh2; auto.
  - apply Hany. rewrite <- Hh. naive_solver.
Qed.

Lemma wp_close_body o x y l0 h0 s : doomed o l0 h0 s → remote (host s) = remote h0 →
  wp (close_body c (state_of l0) x y) (λ _, acc o) (λ _, doomed o l0 h0) s.
Proof.
  intros Hd Hh. unfold close_body. step. step. step. eapply wp_mono; [by apply wp_kill| |done]. clear s Hd Hh. intros _ [l p h f] Hd.
  assert (∀ h' f', remote h' = remote h → doomed o l0 h0 (State l p h' f')) as Hany.
  { intros h' f' Hh'. destruct Hd as (Hm & E1 & E2 & E3 & Hrem). split_and!; try done. cbn in *. by rewrite Hh'. }
  apply wp_bind. apply (wp_mono _ (λ _ s, ∃ h', s = State l p h' f ∧ remote h' = remote h) _ (λ _, doomed o l0 h0)); [| |done].
  { step; [|step; by exists h]. apply wp_containers. intros h' Hh'. split; [by exists h'|intros e; by apply Hany]. }
  intros _ ? (h1 & -> & Hh1). step. apply wp_verify_removed; [by apply Hany|].
  assert (doomed o l0 h0 (State (set_paths ∅ l) p h1 f)) as (Hm & E1 & E2 & E3 & Hrem).
  { destruct (Hany h1 f Hh1) as (Hm & E1 & E2 & E3 & Hrem). split_and!; try done. apply (mid_lc o l _ p h1 h1 f f); try done. apply Hm. }
  step. apply (wp_release o); [done| |].
  - intros e p' Hm'. by split_and!.
  - intros l' p' (F1 & F2 & F3) F4 F5 Hp Hok Hn Hw. step. step. apply wp_record. intros q r h2 _. split.
    + unfold inv_at, runs. cbn. split_and!; try done. by apply books_nothing.
    + destruct o as [[k t]|]; [|by left]. destruct Hw as (Hk & _ & _). split_and!; [done|by right|right; by apply Hn].
Qed.

Lemma wp_close s : inv s → wp (close c) (λ _, inv) (λ _, inv) s.
Proof.
  intros Hi. apply wp_access; [done|]. intros o [l p h f] Ha Hw. apply (wp_mono _ (λ _, acc o) _ (λ _, acc o)); [|done..].
  step. step. cbn [lc]. case_decide as Hst; [step; by split|]. destruct Ha as (Hb & Hr & Hc & Hn). cbn in Hb, Hr, Hc, Hn, Hw. step. step. step. step. step.
  cbn [lc store host locals]. apply wp_observe. intros x h1 Hh1. step. eapply wp_mono; [apply (wp_close_body o _ _ l h)|done|].
  - assert (mid o (State (set_state DESTROYING l) p h1 f)) as Hm by (split; [cbn; by eapply books_lc|split; [done|by destruct o as [[]|]]]).
    do 4 (split; [done|]). intros i _. right. cbn. by rewrite Hh1.
  - done.
  - intros e [l2 p2 h2 f2] (Hm & E1 & E2 & E3 & Hrem). split; [by apply mid_acc|]. step. step. step. apply wp_record. intros q r h3 Hh3. step.
    destruct Hm as (Hb2 & Hc2 & Hw2). cbn in *. split; [|by destruct o as [[]|]]. unfold inv_at, runs. cbn. split_and!; [by eapply books_busy| |done|].
    + intros Hrun. destruct (Hr Hrun) as (i & ? & ? & ? & ?). exists i. rewrite E1, E2, E3, Hh3. split_and!; try done.
      destruct (Hrem i) as [-> | ->]; done.
    + intros Hnew. rewrite E3. by apply Hn.
Qed.

(** ** Spill *)

(** The lifecycle kept its books through a failed or unfinished relocation. *)
Definition spilling k l (s : state) : Prop :=
  books 1 (lc s) (store s) ∧ same_vm l (lc s) ∧ live_tier (lc s) = WARM ∧ current (lc s) = Some k ∧ pending (lc s) = pending l ∧
  ∃ i, held (store s) k = Published i false 1.
(** It has recorded the relocation. *)
Definition relocated k l (s : state) : Prop :=
  ∃ l1, spilling k l (State l1 (store s) (host s) (locals s)) ∧ ledger (lc s) = ledger (set_tier COLD (set_current (current l1) (Some COLD) l1)) ∧ same_vm l (lc s).

Lemma wp_relocate k l0 handle dest s : spilling k l0 s → wp (transfer c "spill" (on_host (relocate_snapshot handle dest (generation k))))
  (λ _, spilling k l0) (λ _, spilling k l0) s.
Proof.
  destruct s as [l p h f]. intros (Hb & Hvm & Hl & Hc & Hp & i & Hi). cbn in *.
  assert (∀ p' h', sim p p' → spilling k l0 (State l p' h' f)) as Hany.
  { intros p' h' Hs. split_and!; try done; [cbn; by eapply books_sim|]. exists i. cbn. destruct Hs as [_ Hs]. by rewrite Hs. }
  apply wp_transfer; [apply Hb|intros; by apply Hany|]. intros p1 Hp1. apply wp_still; [auto with cube|]. intros h' _.
  assert (∀ p2, sim p1 p2 → sim p p2) as Htrans by (intros p2 [? H2]; destruct Hp1 as [_ H1]; split; [done|]; intros j; by rewrite H2, H1).
  split; [intros []|intros e]; (split; [apply Hp1|]); intros p2; [intros Hp2; split; [|intros e]|intros e' Hp2]; apply Hany; auto.
Qed.

Lemma wp_spill_to_cold k path l p h f : state_of l = SWAPPED → live_tier l = WARM → spilling k l (State l p h f) →
  wp (spill_to_cold c k path) (λ _, relocated k l) (λ _, spilling k l) (State l p h f).
Proof.
  intros Hst Hlw Hsp. unfold spill_to_cold. step. step. step. step; [done|].
  destruct (root_of c COLD) as [root|]; [|step; done]. cbn [lc]. destruct (sandbox_id l) as [i|]; [|step; done].
  destruct (sandbox l) as [handle|]; [|step; done]. cbv zeta. step. step. step.
  assert (∀ h' f', spilling k l (State l p h' f')) as Hany by (intros; exact Hsp).
  apply wp_observe. intros x h1 _. step. eapply (wp_mono _ (λ _, relocated k l) _ (λ _, spilling k l)); [|done|].
  - apply wp_bind. apply (wp_mono _ (λ _, spilling k l) _ (λ _, spilling k l)); [| |done].
    { step; [|by step]. apply wp_still; [auto with cube|]. intros h2 _. split; intros; apply Hany. }
    intros _ s2 Hs2. step. eapply wp_mono; [by apply wp_relocate| |done]. clear s2 Hs2. intros _ [l2 p2 h2 f2] Hs2. apply wp_bind.
    apply (wp_mono _ (λ _ s, ∃ h', s = State l2 p2 h' f2) _ (λ _, spilling k l)); [| |done].
    { step; [|step; by eexists]. step. apply wp_still; [auto with cube|]. intros h3 _. split; [|done]. intros _. apply wp_still; [auto with cube|].
      intros h4 _. split; [by eexists|done]. }
    intros _ ? [h3 ->]. step. apply wp_verify_removed; [exact Hs2|]. step. step. step. apply wp_record. intros q r h4 _. step.
    exists (set_paths ∅ l2). cbn. destruct Hs2 as (Hb & Hvm & Hrest). split; [|split; [done|exact Hvm]]. split; [|split; [exact Hvm|exact Hrest]].
    cbn. by eapply books_lc.
  - intros e [l2 p2 h2 f2] (Hb & Hvm & Hrest). cbn in *. split; [exact (conj Hb (conj Hvm Hrest))|]. step. apply wp_record. intros q r h3 _. step.
    split; [cbn; by eapply books_lc|exact (conj Hvm Hrest)].
Qed.

(** The pool retires the snapshot that the lifecycle has moved to COLD. *)
Lemma books_relocated l1 l p p' k i : books 1 l1 p → current l1 = Some k → held p k = Published i false 1 → live_tier l = COLD →
  current l = current l1 → current_tier l = Some COLD → pending l = pending l1 → store_ok p' → held p' k = Absent →
  (∀ j, owner j = who → j ≠ k → held p' j = held p j) → books 0 l p'.
Proof.
  intros Hb Hc Hi L1 L2 L3 L4 Hok Hk Hj. assert (∀ j, owner j = who → held p' j = if decide (j = k) then Absent else held p j) as Hall.
  { intros j Hjo. case_decide as E; [by rewrite E|by apply Hj]. }
  split; rewrite ?L1, ?L2, ?L3, ?L4; try done.
  - apply Hb.
  - intros j Hjo. rewrite Hall, <- (b_reserved _ _ _ Hb j Hjo) by done. case_decide as E; [rewrite E, Hi; done|done].
  - intros j i' r n Hjo. rewrite Hall by done. case_decide as E; [done|]. intros Ej. destruct (b_published _ _ _ Hb j i' r n Hjo Ej). congruence.
  - intros j Hcj. split; [|done]. by apply (b_current _ _ _ Hb).
  - intros Hp j Hjo. rewrite Hall by done. case_decide; [done|by apply (b_pool _ _ _ Hb)].
  - intros _ _. exists k. by rewrite Hc.
Qed.

Lemma wp_spilled g path s : inv s → wp (spilled c (key_of c g) path) (λ _, inv) (λ _, inv) s.
Proof.
  intros Hi. destruct s as [l p h f]. set (k := key_of c g). pose proof Hi as (Hb & Hr & Hc & Hn). cbn in Hb. unfold spilled. step.
  destruct (law_claim who k p (b_ok _ _ _ Hb) (key_owner g)) as (Hok & Hs & Hj). apply wp_store; intros o p1 Ho; rewrite Ho in Hok, Hs, Hj; cbn in Hok, Hs, Hj.
  2:{ apply (inv_books l l p p1 h f); try done. eapply books_ext; [exact Hb|done..|]. by apply (sim_keys k). }
  destruct Hs as [[i Hi0] Hi1]. destruct (b_published _ _ _ Hb k i _ _ (key_owner g) Hi0) as (Hcur & Hct & _ & Hloc).
  assert (books 1 l p1) as Hb1 by (apply (books_pins 0 1 l p p1 k); auto). rewrite Hi0 in Hi1. cbn in Hi1.
  assert (∀ l' p' h' f', books 1 l' p' → current l' = Some k → (∃ j, held p' k = Published j false 1) →
    (∀ p3, books 0 l' p3 → inv (State l' p3 h' f')) → wp (on_store (store_unclaim k)) (λ _, inv) (λ _, inv) (State l' p' h' f')) as Hundo.
  { intros l' p2 h' f' Hb2 E5 [j E7] Hfin. destruct (law_unclaim who k p2 (b_ok _ _ _ Hb2) (key_owner g)) as (Hok2 & (Ho2 & Hs2 & _) & Hj2).
    apply wp_store; intros o2 p3 Ho3; rewrite Ho3 in Hok2, Ho2, Hs2, Hj2; cbn in Hok2, Ho2, Hs2, Hj2; [|done]. apply Hfin.
    apply (books_pins 1 (-1) l' p2 p3 k); auto. apply Hs2. rewrite E7. by eexists _, _. }
  step. destruct (decide (state_of l = SWAPPED ∧ live_tier l = WARM)) as [[Hst Hl]|Hno].
  2:{ unfold spill_to_cold. step. step. step. step. step.
      - apply Hundo; [done|done|by eexists|]. intros p3 Hb3. by apply (inv_books l l p p3 h f).
      - exfalso. cbn in *. match goal with H : negb (bool_decide _) = false |- _ => apply negb_false_iff, bool_decide_eq_true in H; tauto end. }
  assert (busy l) as Hbusy by (unfold busy; by rewrite Hst).
  assert (∀ l', same_vm l l' → busy l') as Hbusy' by (intros l' (E & _); unfold busy in *; by rewrite E).
  step. eapply wp_mono; [apply (wp_spill_to_cold k path l p1 h f Hst Hl)| |].
  - split_and!; cbn; try done. by exists i.
  - intros _ [l2 p2 h2 f2] (l1 & (Hb2 & Hvm & E4 & E5 & E6 & j & E7) & Hled & Hvm2). cbn in *. unfold ledger in Hled. cbn in Hled. injection Hled as L1 L2 L3 L4.
    destruct (law_retire who k p2 (b_ok _ _ _ Hb2) (key_owner g)) as (Hok2 & [Hs2 Hs3] & Hj2).
    apply wp_store; intros o2 p3 Ho3; rewrite Ho3 in Hok2, Hs2, Hs3, Hj2; cbn in Hok2, Hs2, Hs3, Hj2.
    2:{ rewrite E7 in Hs2. by assert (false = true) by (apply Hs2; by eexists _, _). }
    destruct Hs3 as [_ Hs3]. assert (books 0 l2 p3) as Hb3 by (by eapply (books_relocated l1 l2 p2 p3 k)).
    destruct (law_unclaim who k p3 Hok2 (key_owner g)) as (Hok4 & (Ho4 & _ & Hs4) & Hj4).
    apply wp_store; intros o4 p4 E8; rewrite E8 in Hok4, Ho4, Hs4, Hj4; cbn in Hok4, Ho4, Hs4, Hj4; [|done].
    apply busy_inv; [|by apply Hbusy']. eapply books_ext; [exact Hb3|done..|]. apply (sim_keys k); [|done]. rewrite Hs3. by apply Hs4.
  - intros e [l2 p2 h2 f2] (Hb2 & Hvm & E4 & E5 & E6 & E7). apply Hundo; try done. intros p3 Hb3. apply busy_inv; [done|]. by apply Hbusy'.
Qed.

(** ** The other entry points *)

Lemma wp_when_running {A} why (m : string → M state A) s : inv s → (∀ i, wp (m i) (λ _, inv) (λ _, inv) s) →
  wp (when_running why m) (λ _, inv) (λ _, inv) s.
Proof.
  intros Hi Hm. unfold when_running. step. step. step; [by step|]. destruct (sandbox_id (lc s)) as [i|]; [|by step]. destruct (resident (lc s)); [|by step].
  step. eapply wp_mono; [apply Hm|intros; by step|done].
Qed.
Lemma wp_still_inv {A} (m : M H A) s : inv s → (∀ h, remote (m h).2 = remote h) → wp (on_host m) (λ _, inv) (λ _, inv) s.
Proof. destruct s as [l p h f]. intros Hi Hm. apply wp_still; [done|]. intros h' Hh'. split; intros; by eapply inv_host. Qed.
Lemma wp_configured {A} b (m : M state A) s : inv s → wp m (λ _, inv) (λ _, inv) s → wp (raise_if b unconfigured ;; m) (λ _, inv) (λ _, inv) s.
Proof. intros Hi Hm. step. by step. Qed.

Lemma wp_allow_out cidr s : inv s → wp (ensure_network_allow_out c cidr) (λ _, inv) (λ _, inv) s.
Proof.
  intros Hi. unfold ensure_network_allow_out. cbv zeta. step. step; [done|]. step. step. destruct s as [l p h f]. cbn [lc]. step; [by step|]. apply wp_bind.
  assert (∀ h', remote h' = remote h → ∀ r, inv (State (add_timing r l) p h' f)) as Hany.
  { intros h' Hh' r. apply (inv_host _ p h h' f f); [|exact Hh']. by eapply inv_lc. }
  apply (wp_mono _ (λ _, inv) _ (λ _, inv)); [|intros _ [l2 p2 h2 f2] Hi2; step; step; step; by eapply inv_lc|done].
  destruct (sandbox l) as [i|]; [|by step]. destruct (resident l); [|by step]. step. step. step. apply wp_observe. intros x h1 Hh1. step. step.
  apply wp_still; [auto with cube|]. intros h2 Hh2. rewrite Hh1 in Hh2. split.
  - intros _. step. apply wp_record. intros q r h3 Hh3. rewrite Hh2 in Hh3. step. by apply Hany.
  - intros e. split; [by eapply inv_host|]. step. apply wp_record. intros q r h3 Hh3. rewrite Hh2 in Hh3. step. by apply Hany.
Qed.

Lemma wp_first_tool e q s : inv s →
  wp (claim_first_tool e) (λ _, inv) (λ _, inv) s ∧ wp (complete_first_tool e q) (λ _, inv) (λ _, inv) s.
Proof.
  intros Hi. destruct s as [l p h f]. split.
  - unfold claim_first_tool. step. cbn. repeat case_match; [done|by eapply inv_lc|done].
  - unfold complete_first_tool. step. step. cbn [lc]. destruct (first_tool l) as [m|]; [|by step]. step; [|by step]. step. step. apply wp_bind.
    apply (wp_mono _ (λ _ s, ∃ h', s = State l p h' f ∧ inv s) _ (λ _, inv)); [| |done].
    + step; [|step; by eexists]. apply wp_still; [auto with cube|]. intros h' Hh'. assert (inv (State l p h' f)) by by eapply inv_host. split; [by eexists|done].
    + intros _ ? (h' & -> & Hi'). step. step. step. by eapply inv_lc.
Qed.

Lemma wp_execute o s : inv s → wp (execute c o) (λ _, inv) (λ _, inv) s.
Proof.
  intros Hi. assert (∀ A (m : M state A), wp m (λ _, inv) (λ _, inv) s → wp (drop m) (λ _, inv) (λ _, inv) s) as Hdrop.
  { intros A m Hm. unfold drop. step. eapply wp_mono; [exact Hm|intros; by step|done]. }
  destruct o; cbn [execute].
  - by apply Hdrop, wp_start.
  - by apply Hdrop, wp_checkpoint.
  - apply Hdrop, wp_reserve_checkpoint; [|done]. intros. by apply wp_checkpoint.
  - apply wp_reserve_checkpoint; [|done]. intros. by step.
  - by apply Hdrop, wp_restore.
  - by apply Hdrop, wp_close.
  - by apply wp_spilled.
  - apply Hdrop, wp_when_running; [done|]. intros i. apply wp_configured; [done|]. apply wp_still_inv; [done|auto with cube].
  - apply Hdrop, wp_when_running; [done|]. intros i. destruct (has_borrower c), (configured_memory c); try by step. apply wp_still_inv; [done|auto with cube].
  - apply Hdrop, wp_when_running; [done|]. intros i. apply wp_configured; [done|]. apply wp_still_inv; [done|auto with cube].
  - apply Hdrop. unfold quarantine_incomplete_rebind. step. step. step; [|by step]. step. step. step. destruct s as [l p h f]. destruct Hi as (Hb & _).
    apply busy_inv; [|done]. cbn in *. eapply books_lc; try done. by match goal with H : resident _ = true |- _ => apply bool_decide_eq_true in H; rewrite H end.
  - by apply Hdrop, wp_allow_out.
  - by apply (wp_first_tool _ 0%Q).
  - apply Hdrop. by apply wp_first_tool.
Qed.

(** ** Everything reachable *)

Definition initial (s : state) : Prop :=
  (∃ allow, lc s = lifecycle_init allow) ∧ store_ok (store s) ∧ nothing_held (store s).

(** The lifecycle's own operations, and whatever others do to their own snapshots
    and to the host in between. *)
Inductive reachable : state → Prop :=
  | reach_init s : initial s → reachable s
  | reach_execute o s : reachable s → reachable (execute c o s).2
  | reach_others s p h f : reachable s → store_ok p → (∀ k, owner k = who → held p k = held (store s) k) → remote h = remote (host s) →
      reachable (State (lc s) p h f).

Lemma reachable_inv s : reachable s → inv s.
Proof.
  induction 1 as [s ((allow & Hl) & Hok & Hn)|o s _ IH|[l p0 h0 f0] p h f _ IH Hok Hh Hr].
  - unfold inv_at, runs. rewrite Hl. cbn. split_and!; try done. split; cbn; try done.
    + intros k Hk. rewrite Hn by done. split; [done|set_solver].
    + intros k i r n Hk. by rewrite Hn.
  - by apply wp_run, wp_execute.
  - cbn in *. apply (inv_host l p h0 h f0 f); [|done]. destruct IH as (Hb & Hrest). split; [|exact Hrest]. cbn in *. by eapply books_ext.
Qed.
End invariant.
