(* ===== verification/CubeTheorems.v ===== *)
(** * What a sandbox's lifecycle guarantees

    Theorems on [CubeLifecycle]: whatever fails, the pool holds exactly the
    snapshots and reservations the lifecycle knows of, a sandbox that admits
    commands is not paused, a pair that is not admitted gives its reservation back,
    and creation gives up after boundedly many attempts.  A small node with the
    WARM pool of [SnapshotPool] shows that the hypotheses hold. *)
From S2P Require Import Prelude Dict PyStrings SnapshotPool SnapshotStore CubeLifecycle CubeInvariant.

Section theorems.
Context {P H : Type} `{!SnapshotStore P, !Host H, !HostLaws H} (c : settings).
Notation who := (my_session c, my_role c).
Notation state := (@state P H).



(** The pair's admission that fails gives its reservation back: when the body
    of [reserve_checkpoint] raises before pausing anything, the pool and the
    lifecycle are as they were, whether or not a reservation was made. *)
Theorem failed_pair_gives_back `{!StoreLaws (P := P) who} (t : option tier) (e : exn) (s s' : state) (o : outcome unit)
    (Hs : reachable c s) (Hrun : reserve_checkpoint c t (raise e) s = (o, s')) :
  is_ok o = false ∧ (∀ k, owner k = who → held (store s') k = held (store s) k) ∧ lc s' = lc s ∧ host s' = host s.
Proof.
  apply (reachable_inv c s) in Hs. destruct s as [l p h f]. destruct Hs as (Hb & Hr & _). cbn in Hb, Hr.
  enough (wp (reserve_checkpoint c t (raise e : M state unit)) (λ _ _, False) (λ _ s', (∀ k, owner k = who → held (store s') k = held p k) ∧ lc s' = l ∧ host s' = h) (State l p h f)) as Hwp.
  { unfold wp in Hwp. rewrite Hrun in Hwp. destruct o; [done|]. by split. }
  clear Hrun. unfold reserve_checkpoint. step. step; [|done]. step. step. cbn [lc]. apply wp_bind.
  set (E := λ (_ : exn) (s' : state), (∀ k, owner k = who → held (store s') k = held p k) ∧ lc s' = l ∧ host s' = h).
  assert (∀ e p', (∀ k, owner k = who → held p' k = held p k) → E e (State l p' h f)) as HE by done.
  step.
  2:{ step. step. step. step. step. step. by apply HE. }
  match goal with H : resident l && _ = true |- _ => apply andb_prop in H as [Hres _] end.
  destruct (Hr (proj1 (bool_decide_eq_true _) Hres)) as (_ & _ & _ & Hl & _).
  destruct (has_pool c) eqn:Hpool; [|step; by apply HE]. destruct (reservation_bytes c) as [b|]; [|step; by apply HE]. cbv zeta. step.
  set (k := key_of c (gen l + 1)). destruct (law_reserve who k b false (retention_value c (state_bytes c b)) p (b_ok _ _ _ _ Hb) eq_refl
    (protected_running _ _ _ _ Hb Hl)) as (Hok & Hs & Hj). apply wp_store; intros o1 p1 Hp1; rewrite Hp1 in Hok, Hs, Hj; cbn in Hok, Hs, Hj.
  2:{ apply HE. by apply (sim_keys c k). }
  destruct Hs as [Ha Hk1]. step. step. step. step. step. step. step. cbn [lc store host locals].
  rewrite bool_decide_eq_true_2 by (cbn; set_solver). change (resident (set_pending _ l)) with (resident l). rewrite Hres. cbn [andb]. step.
  destruct (law_abort who k p1 Hok eq_refl) as (_ & [Ho2 Hk2] & Hj2). apply wp_store; intros o2 p2 Hp2; rewrite Hp2 in Ho2, Hk2, Hj2; cbn in Ho2, Hk2, Hj2; [|done].
  step. split_and!; cbn; [|..|done].
  - apply (sim_keys c k); [by rewrite Hk2, Hk1, Ha|intros j ? ?; by rewrite Hj2, Hj].
  - assert (k ∉ pending l) as Hn by (intros Hin; apply (b_reserved _ _ _ _ Hb k eq_refl) in Hin; congruence).
    assert (({[k]} ∪ pending l) ∖ {[k]} = pending l) as Hset by set_solver. rewrite Hset. by destruct l.
Qed.
End theorems.

(** ** Creation terminates *)

Section creation.
Context {P H : Type} `{!SnapshotStore P, !Host H} (c : settings).
Notation state := (@state P H).

(** What the retries rely on: an attempt takes at least [tau], time does not run
    backwards, and the wait for a transfer slot is not a rejection by Cube. *)
Record paced (tau : Q) : Prop := Paced {
  attempt_takes : ∀ a d h, (clock h + tau <= clock (create_sandbox a d h).2)%Q;
  draw_forward : ∀ q h, (clock h <= clock (uniform q h).2)%Q;
  sleep_forward : ∀ q h, (clock h <= clock (sleep q h).2)%Q;
  slots_differ : ∀ op (p : P) e, (store_begin op p).1 = Raise e → is_capacity_error (H := H) e = false;
}.

Lemma attempt_clock tau s : paced tau → (0 <= tau)%Q →
  wp (transfer c "create" (l ← self; i ← on_host (create_sandbox (allow_out l) (deny_out c)); update (set_sandbox (Some i)) ;; mret i))
    (λ _ _, True) (λ e (s' : state), is_capacity_error (H := H) e = true → clock (host s) + tau <= clock (host s'))%Q s.
Proof.
  intros Hp Ht. destruct s as [l p h f].
  assert (∀ p', wp (l ← self; i ← on_host (create_sandbox (allow_out l) (deny_out c)); update (set_sandbox (Some i)) ;; mret i)
    (λ _ (s' : state), (clock h + tau <= clock (host s'))%Q) (λ _ (s' : state), (clock h + tau <= clock (host s'))%Q) (State l p' h f)) as Hm.
  { intros p'. step. step. step. unfold wp, on_host. cbn. pose proof (attempt_takes _ Hp (allow_out l) (deny_out c) h) as Ha.
    by destruct (create_sandbox (allow_out l) (deny_out c) h) as [[i|e] h']. }
  unfold transfer. destruct (has_pool c); [|eapply wp_mono; [apply Hm|done|by intros]]. step. unfold wp at 1, on_store. cbn.
  pose proof (λ e, slots_differ _ Hp "create" p e) as Hs. destruct (store_begin "create" p) as [[[]|e] p1]; cbn in Hs.
  - step. eapply wp_mono; [apply Hm| |]; intros x [l2 p2 h2 f2] Hc; cbn in Hc; unfold wp; cbn; destruct (store_end "create" p2) as [[[]|e'] p3]; done.
  - intros He. by rewrite Hs in He.
Qed.

Definition attempt : M state string :=
  transfer c "create" (l ← self; i ← on_host (create_sandbox (allow_out l) (deny_out c)); update (set_sandbox (Some i)) ;; mret i).
Definition gives_up (e : exn) : bool := Qle_bool (capacity_retry_seconds c) 0 || negb (is_capacity_error (H := H) e).

(** One round of the loop. *)
Lemma round fuel deadline retry s : create_loop c (S fuel) deadline retry s =
  match attempt s with
  | (Ok i, s1) => (Ok (Some i), s1)
  | (Raise e, s1) =>
      if negb (is_exception e) || gives_up e then (Raise e, s1)
      else match on_host (uniform (Qmin 2 ((1 # 4) * inject_Z (2 ^ Z.min retry 3)))) s1 with
           | (Raise e', s2) => (Raise e', s2)
           | (Ok d, s2) =>
               if Qle_bool (deadline - clock (host s2)) 0 || Qltb (deadline - clock (host s2)) d then (Raise e, s2)
               else match on_host (sleep d) s2 with
                    | (Raise e', s3) => (Raise e', s3)
                    | (Ok _, s3) => create_loop c fuel deadline (retry + 1) s3
                    end
           end
  end.
Proof.
  cbn [create_loop]. change (transfer c "create" _) with attempt. unfold mbind, M_bind, try_exception, try_except. destruct (attempt s) as [[i|e] s1]; [done|].
  unfold gives_up. destruct (is_exception e); [|done]. cbn [mret M_ret negb orb]. destruct (_ || _); [done|].
  destruct (on_host _ s1) as [[d|e'] s2]; [|done]. cbn. destruct (_ || _); [done|]. by destruct (on_host _ s2) as [[[]|e'] s3].
Qed.

(** C9: the retries of a creation that Cube rejects for capacity stop: [fuel + 1]
    attempts, with [fuel] times the duration of an attempt reaching the deadline,
    are all that [start] can ever make, so the bound on the loop is never what
    ends it. *)
Theorem creation_gives_up (tau : Q) (fuel : nat) (deadline : Q) (retry : Z) (s : state)
    (Hpaced : paced tau) (Htau : (0 < tau)%Q) (Hfuel : (deadline <= clock (host s) + inject_Z (Z.of_nat fuel) * tau)%Q) :
  (create_loop c (S fuel) deadline retry s).1 ≠ Ok None ∧
  ∀ more, create_loop c (S fuel + more) deadline retry s = create_loop c (S fuel) deadline retry s.
Proof.
  revert retry s Hfuel. induction fuel as [|fuel IH]; intros retry s Hfuel; (split; [|intros more; cbn [Nat.add]]); rewrite !round;
    pose proof (attempt_clock tau s Hpaced ltac:(lra)) as Ha; unfold wp in Ha; fold attempt in Ha; destruct (attempt s) as [[i|e] s1]; try done;
    destruct (_ || _) eqn:Eg; try done; apply orb_false_iff in Eg as [_ Eg]; apply orb_false_iff in Eg as [_ Eg%negb_false_iff]; specialize (Ha Eg);
    pose proof (draw_forward _ Hpaced (Qmin 2 ((1 # 4) * inject_Z (2 ^ Z.min retry 3))) (host s1)) as Hd; unfold on_host;
    destruct (uniform _ (host s1)) as [[d|e'] h2]; try done; cbn [snd] in Hd; cbn [host].
  1, 2: replace (Qle_bool (deadline - clock h2) 0) with true; [done|]; symmetry; apply Qle_bool_iff; change (inject_Z (Z.of_nat 0)) with 0%Q in Hfuel; lra.
  all: destruct (_ || _) eqn:Er; [done|]; apply orb_false_iff in Er as [Er _]; pose proof (sleep_forward _ Hpaced d h2) as Hs;
    destruct (sleep d h2) as [[u|e'] h3]; try done; cbn [snd] in Hs; edestruct (IH (retry + 1) (State (lc s1) (store s1) h3 (locals s1))) as [IH1 IH2].
  2, 4: exact IH1 || apply IH2.
  all: rewrite Nat2Z.inj_succ, <- Z.add_1_r, inject_Z_plus in Hfuel; change (inject_Z 1) with 1%Q in Hfuel; cbn [host]; lra.
Qed.
End creation.

(** ** A node with the WARM pool *)

(** Creations that Cube still rejects, whether a pause is refused or loses its
    response, and whether a destroyed VM leaves pages behind. *)
Record node := Node { n_time : Q; n_vms : string → remote_state; n_rejects : nat; n_refuses : bool; n_loses : bool; n_dirty : bool }.
Definition with_vm (i : string) (x : remote_state) (n : node) : node :=
  Node (n_time n + 1) (λ j, if decide (j = i) then x else n_vms n j) (n_rejects n) (n_refuses n) (n_loses n) (n_dirty n).
Definition snapshot_of : native := Native (Some 64) (Some 64) (Some None) None None None None (Some "/warm/vm").
Definition fine {A} (a : A) : M node A := mret a.

#[export] Instance node_host : Host node := {|
  clock := n_time; observe := fine None; prepare_cgroup := fine tt; verify_cgroup _ := fine None;
  create_sandbox _ _ n := match n_rejects n with
                          | O => (Ok "vm", with_vm "vm" Running n)
                          | S r => (Raise (ApiError 130597), Node (n_time n + 1) (n_vms n) r (n_refuses n) (n_loses n) (n_dirty n))
                          end;
  is_capacity_error e := bool_decide (e = ApiError 130597);
  uniform q := fine q; sleep q n := (Ok tt, Node (n_time n + Qmax 0 q) (n_vms n) (n_rejects n) (n_refuses n) (n_loses n) (n_dirty n));
  pause_sandbox i _ n := if n_refuses n then (Raise (ApiError 500), n)
                         else if n_loses n then (Raise (TimeoutError "pause"), with_vm i Paused n) else (Ok snapshot_of, with_vm i Paused n);
  connect_sandbox i n := (Ok i, with_vm i Running n);
  get_sandbox_state i n := (Ok (match n_vms n i with Running => Some "running" | Paused => Some "paused" | Gone => None end), n);
  kill_sandbox i n := (Ok tt, with_vm i Gone n);
  update_network _ _ _ := fine tt; relocate_snapshot _ _ _ := fine tt; compress_snapshot _ := fine tt; decompress_snapshot _ := fine tt;
  remove_compressed _ := fine tt; read_snapshot_metadata _ := fine snapshot_of; files_remaining _ _ := [];
  fault_sampler _ := fine false; stop_sampler := fine tt; pin_local _ _ := fine tt; lent _ _ := false; return_local _ := fine tt;
  borrow _ _ := fine tt; observe_resident _ := fine 0;
  release_destroyed _ n := (if n_dirty n then Raise (RuntimeError "shared pages remain") else Ok tt, n);
|}.

#[export] Instance node_laws : HostLaws node.
Proof.
  refine {| remote := n_vms |}; try done.
  - intros a d h i. cbn. destruct (n_rejects h); [|done]. cbn. intros [= <-]. done.
  - intros i x h. cbn. destruct (n_refuses h); cbn; [by left|]. destruct (n_loses h); cbn; rewrite decide_True by done; [by right|done].
  - intros i h j [= <-]. cbn. by rewrite decide_True.
  - intros i h. left. cbn. by rewrite decide_True.
  - intros i h. cbn. by destruct (n_vms h i).
Qed.

Definition pool_config : SnapshotPool.config := SnapshotPool.Config 1000 0 None 0 0 2 None 1 false.
Definition quiet : spiller → manifest → M pool unit := λ _ _, mret tt.
#[export] Instance node_store : SnapshotStore pool := warm_store pool_config quiet [].
#[export] Instance node_store_laws who : StoreLaws (P := pool) who.
Proof. apply warm_store_laws; [|constructor]. intros f m. by apply calm_ret. Qed.

Definition vm_settings : settings :=
  Settings "s" "tool" "t" (Some "/warm/") (Some "/cold") true (Some 100) false true true false true (Some 64) false false None None None None 60 [] O.
Definition empty_pool : pool := Pool 0 2 2 ∅ ∅ ∅ ∅ ∅ ∅ 0 0 0 0.
Definition at_start (n : node) : state (P := pool) (H := node) := State (lifecycle_init []) empty_pool n (frame_init None).
Definition run (os : list command) (n : node) : state (P := pool) (H := node) := foldl (λ s o, (execute vm_settings o s).2) (at_start n) os.

Lemma run_reachable os n : reachable vm_settings (run os n).
Proof.
  unfold run. assert (reachable vm_settings (at_start n)) as H0.
  { apply reach_init. split_and!; [by exists []| |done]. cbn. split; try done; try apply dict_all_empty; set_solver. }
  revert H0. generalize (at_start n). induction os as [|o os IH]; intros s Hs; [done|]. cbn. apply IH. by apply reach_execute.
Qed.

Definition calm_node : node := Node 0 (λ _, Gone) 0 false false false.
Definition to_warm : list command := [Start 1; ReservedCheckpoint (Some WARM) (Some WARM)].



Lemma failed_pair_gives_back_witness : let s := run [Start 1] calm_node in
  (∃ s', reserve_checkpoint vm_settings (Some WARM) (raise StopIteration : M _ unit) s = (Raise StopIteration, s')) ∧
  (∀ s' o, reserve_checkpoint vm_settings (Some WARM) (raise StopIteration : M _ unit) s = (o, s') → is_ok o = false ∧ lc s' = lc s).
Proof.
  split; [eexists; vm_compute; reflexivity|]. intros s' o Hrun.
  destruct (failed_pair_gives_back vm_settings (Some WARM) StopIteration (run [Start 1] calm_node) s' o (run_reachable [Start 1] calm_node) Hrun) as (H1 & _ & H2 & _).
  by split.
Defined.

Lemma node_paced : paced (P := pool) (H := node) 1.
Proof.
  split.
  - intros a d h. cbn. destruct (n_rejects h); cbn; lra.
  - intros. cbn. lra.
  - intros q h. cbn. pose proof (Q.le_max_l 0 q). lra.
  - intros op p e. cbn. unfold transfer_enter. rewrite bind_get, bind_raise_if. destruct (_ && _); [by intros [= <-]|].
    rewrite bind_raise_if. destruct (_ <=? _); [by intros [= <-]|]. done.
Qed.

(** Rejected for longer than the budget of 60 seconds. *)
Definition full_node : node := Node 0 (λ _, Gone) 1000 false false false.
Lemma creation_gives_up_witness :
  (create_loop vm_settings 61 60 0 (at_start full_node)).1 = Raise (ApiError 130597) ∧
  (create_loop vm_settings 61 60 0 (at_start full_node)).1 ≠ Ok None.
Proof.
  split; [vm_compute; reflexivity|].
  apply (creation_gives_up vm_settings 1 60 60 0 (at_start full_node) node_paced); [reflexivity|]. vm_compute. discriminate.
Defined.

(** ** Where the code falls short *)

(** A pause that Cube refuses leaves the sandbox running, but its WARM reservation
    stays until the sandbox is destroyed. *)
Example refused_pause_keeps_reservation :
  let s := run [Start 1; Checkpoint (Some WARM)] (Node 0 (λ _, Gone) 0 true false false) in
  resident (lc s) = true ∧ elements (pending (lc s)) = [SnapshotKey "s" "tool" 1] ∧ reserved_total (store s) = 100.
Proof. split_and!; vm_compute; reflexivity. Qed.
(** The same refusal inside [reserve_checkpoint] gives it back. *)
Example refused_pair_gives_back :
  let s := run [Start 1; ReservedCheckpoint (Some WARM) (Some WARM)] (Node 0 (λ _, Gone) 0 true false false) in
  resident (lc s) = true ∧ reserved_total (store s) = 0.
Proof. split_and!; vm_compute; reflexivity. Qed.
(** A destruction that fails after the VM is gone returns to RUNNING. *)
Example failed_close_looks_resident :
  let s := run [Start 1; Close] (Node 0 (λ _, Gone) 0 false false true) in
  resident (lc s) = true ∧ n_vms (host s) "vm" = Gone.
Proof. split_and!; vm_compute; reflexivity. Qed.
(** A response lost on the way is reconciled. *)
Example lost_response_is_published :
  let s := run [Start 1; Checkpoint (Some WARM)] (Node 0 (λ _, Gone) 0 false true false) in
  state_of (lc s) = SWAPPED ∧ live_tier (lc s) = WARM ∧ committed_total (store s) = 64.
Proof. split_and!; vm_compute; reflexivity. Qed.
