(* ===== verification/CubeClient.v ===== *)
(** * Ownership of sandboxes (src/clawbox/cube/client.py, api_retry.py)

    [CubeSandboxClient] creates and destroys the VMs of a task.  Every VM and
    snapshot it makes carries or is journaled with its [Ownership], so that the
    cleanup of a task finds all of them and touches nothing else.  The Cube SDK and
    the disk of the journal are the class [Api]; each call to the SDK is logged with
    its answer, and the theorems are about that log.  A handle of the SDK is the id
    of its VM; closing its HTTP clients has no effect here. *)
From S2P Require Import Prelude Dict PyStrings.

(** ** Ownership *)

Record ownership := Ownership {
  run_id : string; attempt_id : string; task_uid : string; experiment_id : string; session_id : string; policy_name : string;
}.
#[export] Instance ownership_eq_dec : EqDecision ownership.
Proof. solve_decision. Defined.

(** [Ownership.metadata] *)
Definition metadata (o : ownership) : dict string string :=
  [("clawbox.run", run_id o); ("clawbox.attempt", attempt_id o); ("clawbox.task-uid", task_uid o);
   ("clawbox.experiment", experiment_id o); ("clawbox.session", session_id o); ("clawbox.policy-name", policy_name o)].

(** An item of Cube's inventory. *)
Record info := Info { sandboxID : option string; sandbox_id : option string; info_metadata : option (dict string string); info_state : option string }.

(** [x or y] on strings *)
Definition or_else (x : option string) (y : string) : string :=
  match x with Some s => if decide (s = "") then y else s | None => y end.
(** [_info_id] *)
Definition info_id (i : info) : string := or_else (sandboxID i) (or_else (sandbox_id i) "").
(** [(item.get("metadata") or {}).get(key)] *)
Definition info_get (i : info) (key : string) : option string := (default [] (info_metadata i) : dict string string) !! key.
(** All of the metadata of a creation. *)
Definition carries (o : ownership) (i : info) : bool :=
  forallb (λ '(k, v), bool_decide (info_get i k = Some v)) (metadata o).
(** [list_owned_sandboxes]: the filter. *)
Definition belongs (owner : string) (i : info) : bool := bool_decide (info_get i "clawbox.task-uid" = Some owner).

(** ** The journal *)

Inductive kind := Sandbox | Snapshot.
#[export] Instance kind_eq_dec : EqDecision kind.
Proof. solve_decision. Defined.
Record entry := Entry { e_kind : kind; e_id : string; e_owner : ownership }.
#[export] Instance entry_eq_dec : EqDecision entry.
Proof. solve_decision. Defined.

(** A line is the JSON of an entry, or text that is not JSON.  What follows the
    last newline is [unterminated]. *)
Notation line := (option entry).
Record file := File { terminated : list line; unterminated : option line }.
Definition file_lines (f : file) : list line := terminated f ++ match unterminated f with Some l => [l] | None => [] end.

(** How much of an encoded record reached the file; text after an unterminated
    line continues that line, and two pieces of JSON on a line are not JSON. *)
Inductive written := Nothing | Part | NoNewline | All.
Definition append_line (w : written) (e : entry) (f : file) : file :=
  let whole : line := match unterminated f with None => Some e | Some _ => None end in
  match w with
  | Nothing => f
  | Part => File (terminated f) (Some None)
  | NoNewline => File (terminated f) (Some whole)
  | All => File (terminated f ++ [whole]) None
  end.

(** The first occurrences. *)
Fixpoint unique_ids (seen l : list string) : list string :=
  match l with
  | [] => []
  | x :: l' => if decide (x ∈ seen) then unique_ids seen l' else x :: unique_ids (x :: seen) l'
  end.
(** [_ids]: lines without the field are skipped. *)
Definition entry_id (k : kind) (task : option string) (l : line) : option string :=
  e ← l;
  if bool_decide (e_kind e = k) && match task with Some t => bool_decide (task_uid (e_owner e) = t) | None => true end
  then Some (e_id e) else None.
Definition journal_ids (k : kind) (task : option string) (f : file) : list string := unique_ids [] (omap (entry_id k task) (file_lines f)).

(** ** Creations *)

Record creation := Creation {
  c_template : string; c_node : string; c_owner : ownership; c_env : option (dict string string); c_internet : bool;
  c_allow : option (list string); c_deny : option (list string);
}.
(** What is sent to Cube. *)
Record post := Post {
  p_template : string; p_timeout : Z; p_metadata : dict string string; p_scope : list string; p_env : option (dict string string);
  p_internet : bool; p_network : option (list (string * list string));
}.
Definition posted (r : creation) : post :=
  let rule key (l : option (list string)) := match l with Some (x :: l') => [(key, x :: l')] | _ => [] end in
  let network := rule "allow_out" (c_allow r) ++ rule "deny_out" (c_deny r) in
  Post (c_template r) (-1) (metadata (c_owner r)) [c_node r] (c_env r) (c_internet r) (match network with [] => None | _ => Some network end).

(** ** The SDK *)

Inductive event :=
  | Posted (p : post) (o : outcome string)
  | Listed (o : outcome (list info))
  | Connected (i : string) (o : outcome string)
  | Probed (i : string) (o : outcome Z)
  | Killed (i : string) (o : outcome unit)
  | SnapshotTaken (i : string) (o : outcome string)
  | SnapshotDeleted (k : string) (o : outcome unit).

Class Api (E : Type) := {
  api_create : post → M E string;
  api_list : M E (list info);
  api_connect : string → M E string;
  api_probe : string → M E Z;                               (** exit code of /bin/true *)
  api_kill : string → M E unit;
  api_create_snapshot : string → M E string;
  api_delete_snapshot : string → M E unit;
  api_sleep : Q → M E unit;
  journal_write : entry → E → (written * option exn) * E;   (** how much, and the error of the call *)
  connection_lost : exn → bool;                             (** [requests]' Timeout or ConnectionError *)
  says_missing : exn → bool;                                (** its text has "not found" or "404" *)
}.

Definition status_code (e : exn) : option Z := match e with ApiError s => Some s | HTTPException s _ => Some s | _ => None end.
(** A creation whose fate the failure does not tell. *)
Definition ambiguous {E} `{!Api E} (e : exn) : bool :=
  connection_lost (E := E) e || match status_code e with Some s => bool_decide (s ∈ [408; 502; 503; 504]) | None => false end.

(** [retry_with_backoff] *)
Fixpoint retry_from {S A} (sleep : Q → M S unit) (attempts : nat) (delay max_delay : Q) (op : M S A) : M S A :=
  match attempts with
  | O => raise (RuntimeError "idempotent Cube API operation failed")
  | S n =>
      try_exception op (λ _,
        if decide (n = O) then raise (RuntimeError "idempotent Cube API operation failed")
        else sleep (Qmin delay max_delay) ;; retry_from sleep n (Qmin (delay * 2) max_delay) max_delay op)
  end.
Definition retry_with_backoff {S A} (sleep : Q → M S unit) (attempts : Z) (delay max_delay : Q) (op : M S A) : M S A :=
  raise_if (attempts <? 1) (ValueError "attempts must be positive") ;;
  retry_from sleep (Z.to_nat attempts) delay max_delay op.
(** [read_with_backoff] *)
Definition read_with_backoff {S A} (sleep : Q → M S unit) (attempts : Z) (delay max_delay : Q) (op : M S A) : M S A :=
  try_except (retry_with_backoff sleep attempts delay max_delay op)
    (λ e, match e with RuntimeError _ => raise (RuntimeError "read-only Cube API operation failed") | e => raise e end).

Section client.
Context {E : Type} `{!Api E} (has_journal : bool).

Record client := Client { handles : gset string; journal : file; env : E; log : list event }.
Notation C := (M client).

Definition call {A} (m : M E A) (ev : outcome A → event) : C A := λ s,
  let '(o, e) := m (env s) in (o, Client (handles s) (journal s) e (log s ++ [ev o])).
Definition listing : C (list info) := call api_list Listed.
Definition pause (q : Q) : C unit := λ s, let '(o, e) := api_sleep q (env s) in (o, Client (handles s) (journal s) e (log s)).
Definition keep_handle (i : string) : C unit := modify (λ s, Client ({[i]} ∪ handles s) (journal s) (env s) (log s)).
Definition pop_handle (i : string) : C unit := modify (λ s, Client (handles s ∖ {[i]}) (journal s) (env s) (log s)).

(** [OwnedSandboxJournal._record]; without an error the record is on disk. *)
Definition record (e : entry) : C unit := λ s,
  let '((w, failure), env') := journal_write e (env s) in
  let w := match failure with Some _ => w | None => All end in
  (match failure with Some x => Raise x | None => Ok tt end, Client (handles s) (append_line w e (journal s)) env' (log s)).
Definition record_if_journal (e : entry) : C unit := if has_journal then record e else mret tt.

(** [resolve_timed_out_create] *)
Definition resolve (o : ownership) : C info :=
  l ← listing;
  match filter (λ i, carries o i = true) l with
  | [i] => mret i
  | _ => raise (RuntimeError "expected exactly one sandbox after timed-out create")
  end.
(** [verify_recovered_guest] *)
Definition verify_guest (i : string) : C unit :=
  code ← call (api_probe i) (Probed i);
  raise_if (negb (code =? 0)) (RuntimeError "recovered sandbox guest is not ready").

(** The creation whose response was lost. *)
Definition recover (r : creation) : C string :=
  found ← try_exception (read_with_backoff pause 10 (1 # 4) 2 (resolve (c_owner r)))
            (λ _, raise (RuntimeError "CubeSandbox create timed out and ownership reconciliation failed"));
  let i := info_id found in
  record_if_journal (Entry Sandbox i (c_owner r)) ;;
  read_with_backoff pause 10 (1 # 4) 2 (verify_guest i) ;;
  mret i.

(** [create_sandbox] *)
Definition create_sandbox (r : creation) : C string :=
  i ← try_exception (call (api_create (posted r)) (Posted (posted r)))
        (λ e, if ambiguous (E := E) e then recover r else raise e);
  keep_handle i ;;
  record_if_journal (Entry Sandbox i (c_owner r)) ;;
  mret i.

(** [connect_sandbox] *)
Definition connect_sandbox (i : string) : C string :=
  h ← retry_with_backoff pause 10 (1 # 4) 2 (call (api_connect i) (Connected i));
  keep_handle i ;; mret h.

(** [str.lower], of ASCII letters *)
Definition lower (s : string) : string :=
  String.string_of_list_ascii ((λ c, let n := Ascii.nat_of_ascii c in
    if (65 <=? n)%nat && (n <=? 90)%nat then Ascii.ascii_of_nat (n + 32) else c) <$> String.list_ascii_of_string s).
(** [get_sandbox_state] of an id *)
Definition state_by_id (i : string) : C (option string) :=
  l ← listing;
  mret (j ← find (λ j, bool_decide (info_id j = i)) l; s ← info_state j; if decide (s = "") then None else Some (lower s)).

(** [create_snapshot] and [delete_snapshot] *)
Definition create_snapshot (i : string) (o : ownership) : C string :=
  k ← call (api_create_snapshot i) (SnapshotTaken i);
  raise_if (bool_decide (k = "")) (RuntimeError "CubeSandbox create_snapshot returned no snapshot ID") ;;
  record_if_journal (Entry Snapshot k o) ;; mret k.
Definition delete_snapshot (k : string) : C unit := call (api_delete_snapshot k) (SnapshotDeleted k).

(** ** Destruction *)

(** The local [handle] of [_kill_sandbox] beside the client's state. *)
Notation L := (M (option string * client)).
Definition on_client {A} (m : C A) : L A := λ '(h, s), let '(o, s') := m s in (o, (h, s')).
Definition set_local (h : option string) : L unit := λ '(_, s), (Ok tt, (h, s)).

(** [kill_once] *)
Definition kill_once (i : string) : L unit :=
  local ← gets fst;
  target ← (match local with
            | Some h => mret (Some h)
            | None =>
                l ← on_client listing;
                match find (λ j, bool_decide (info_id j = i)) l with
                | None => mret None
                | Some j => set_local (Some (info_id j)) ;; mret (Some (info_id j))
                end
            end);
  match target with
  | None => mret tt
  | Some h =>
      try_exception (on_client (call (api_kill h) (Killed h)))
        (λ e, l ← on_client listing;
              if existsb (λ j, bool_decide (info_id j = i)) l then set_local None ;; raise e else mret tt)
  end.

(** [_kill_sandbox] of an id, and of a handle *)
Definition kill_sandbox (i : string) : C unit := λ s,
  let local := if decide (i ∈ handles s) then Some i else None in
  let '(o, (_, s')) := retry_with_backoff (λ q, on_client (pause q)) 10 (1 # 4) 2 (kill_once i) (local, (pop_handle i s).2) in
  (o, s').
Definition kill_handle (h : string) : C unit := try_finally (call (api_kill h) (Killed h)) (pop_handle h).

(** [list_owned_sandboxes] *)
Definition list_owned_sandboxes (owner : string) : C (list info) :=
  l ← listing; mret (filter (λ i, belongs owner i = true) l).

(** The workers of a pool: every task runs, whatever the others do. *)
Fixpoint attempt_all {A} (l : list A) (body : A → C unit) : C (list (outcome unit)) :=
  match l with
  | [] => mret []
  | x :: l' => λ s, let '(o, s1) := body x s in let '(r, s2) := attempt_all l' body s1 in
                    (match r with Ok os => Ok (o :: os) | Raise e => Raise e end, s2)
  end.
(** [future.result()]: [except Exception] collects, an interrupt goes through. *)
Definition interrupted (os : list (outcome unit)) : option exn :=
  head (omap (λ o, match o with Raise e => if is_exception e then None else Some e | Ok _ => None end) os).
Definition failures (os : list (outcome unit)) : nat := length (filter (λ o, is_ok o = false) os).

(** The snapshots that were not deleted. *)
Fixpoint delete_all (l : list string) : C nat :=
  match l with
  | [] => mret 0%nat
  | k :: l' =>
      bad ← try_exception (delete_snapshot k ;; mret 0%nat) (λ e, mret (if says_missing (E := E) e then 0 else 1)%nat);
      rest ← delete_all l'; mret (bad + rest)%nat
  end.

(** Which of the listed VMs a task owns. *)
Definition owned_by (owner : string) (journaled : list string) (i : info) : bool :=
  bool_decide (info_id i ∈ journaled) || belongs owner i.

(** [kill_owned_sandboxes] *)
Definition kill_owned_sandboxes (owner : string) : C unit :=
  journaled ← gets (λ s, if has_journal then journal_ids Sandbox (Some owner) (journal s) else []);
  listed ← listing;
  let ids := info_id <$> filter (λ i, owned_by owner journaled i = true) listed in
  for_each ids keep_handle ;;
  kills ← attempt_all (unique_ids [] (filter (λ i, i ≠ "") ids)) kill_sandbox;
  match interrupted kills with
  | Some e => raise e
  | None =>
      remaining ← list_owned_sandboxes owner;
      snapshots ← gets (λ s, if has_journal then journal_ids Snapshot (Some owner) (journal s) else []);
      undeleted ← delete_all snapshots;
      raise_if (negb (bool_decide (failures kills = 0%nat ∧ remaining = [] ∧ undeleted = 0%nat)))
        (RuntimeError "CubeSandbox cleanup incomplete")
  end.
End client.
Arguments client : clear implicits.

(** ** Runs as their logs *)

Section trace.
Context {E : Type} {S : Type} (view : S → client E).

(** Under the invariant [I], [m] only logs events in [P], and [Q] relates its
    outcome to what it logged. *)
Definition emits {A} (I : S → Prop) (P : event → Prop) (m : M S A) (Q : outcome A → list event → Prop) : Prop :=
  ∀ s, I s → I (m s).2 ∧ ∃ new, log (view (m s).2) = log (view s) ++ new ∧ Forall P new ∧ Q (m s).1 new.

Lemma emits_mono {A} I (P P' : event → Prop) (m : M S A) (Q Q' : outcome A → list event → Prop) :
  emits I P m Q → (∀ ev, P ev → P' ev) → (∀ o new, Forall P' new → Q o new → Q' o new) → emits I P' m Q'.
Proof.
  intros H HP HQ s Hs. destruct (H s Hs) as (Hi & new & Hl & Hp & Hq).
  split; [done|]. exists new. split_and!; [done|by eapply Forall_impl|apply HQ; [by eapply Forall_impl|done]].
Qed.

Lemma emits_quiet {A} I P (m : M S A) (Q : outcome A → list event → Prop) :
  (∀ s, I s → I (m s).2 ∧ log (view (m s).2) = log (view s) ∧ Q (m s).1 []) → emits I P m Q.
Proof. intros H s Hs. destruct (H s Hs) as (? & ? & ?). split; [done|]. exists []. by rewrite app_nil_r. Qed.

Lemma emits_bind {A B} I P (m : M S A) (k : A → M S B) Q1 Q2 :
  emits I P m Q1 → (∀ a n, Q1 (Ok a) n → emits I P (k a) (Q2 a)) →
  emits I P (m ≫= k) (λ o new, (∃ e, o = Raise e ∧ Q1 (Raise e) new) ∨ ∃ a n1 n2, new = n1 ++ n2 ∧ Q1 (Ok a) n1 ∧ Q2 a o n2).
Proof.
  intros Hm Hk s Hs. destruct (Hm s Hs) as (Hi & n1 & Hl & Hp & Hq). unfold mbind, M_bind.
  destruct (m s) as [[a|e] s1]; cbn in *; [|split; [done|]; exists n1; eauto 10].
  destruct (Hk a n1 Hq s1 Hi) as (Hi2 & n2 & Hl2 & Hp2 & Hq2). split; [done|]. exists (n1 ++ n2).
  rewrite Hl2, Hl, app_assoc. split_and!; [done|by apply Forall_app|right; by exists a, n1, n2].
Qed.

Lemma emits_forall {A} I (P : event → Prop) (m : M S A) Q :
  emits I P m Q → emits I (λ _, True) m (λ o new, Forall P new ∧ Q o new).
Proof.
  intros H s Hs. destruct (H s Hs) as (? & new & ? & ? & ?). split; [done|]. exists new.
  split_and!; [done|by apply Forall_true|done..].
Qed.

Lemma emits_seq {A B} I P (m : M S A) (k : A → M S B) Q1 (Q : outcome B → list event → Prop) :
  emits I P m Q1 → (∀ a n1, Q1 (Ok a) n1 → emits I P (k a) (λ o n2, Q o (n1 ++ n2))) → (∀ e n, Q1 (Raise e) n → Q (Raise e) n) →
  emits I P (m ≫= k) Q.
Proof.
  intros Hm Hk He s Hs. destruct (Hm s Hs) as (Hi & n1 & Hl & Hp & Hq). unfold mbind, M_bind.
  destruct (m s) as [[a|e] s1]; cbn in *; [|split; [done|]; exists n1; eauto].
  destruct (Hk a n1 Hq s1 Hi) as (Hi2 & n2 & Hl2 & Hp2 & Hq2). split; [done|]. exists (n1 ++ n2).
  rewrite Hl2, Hl, app_assoc. split_and!; [done|by apply Forall_app|done].
Qed.

Lemma emits_try {A} I P (m : M S A) (h : exn → M S A) Q1 Q2 :
  emits I P m Q1 → (∀ e, emits I P (h e) (Q2 e)) →
  emits I P (try_exception m h) (λ o new, Q1 o new ∨ ∃ e n1 n2, new = n1 ++ n2 ∧ Q1 (Raise e) n1 ∧ Q2 e o n2).
Proof.
  intros Hm Hh s Hs. destruct (Hm s Hs) as (Hi & n1 & Hl & Hp & Hq). unfold try_exception, try_except.
  destruct (m s) as [[a|e] s1]; cbn in *; [split; [done|]; exists n1; eauto 10|].
  destruct (is_exception e); cbn; [|split; [done|]; exists n1; eauto 10].
  destruct (Hh e s1 Hi) as (Hi2 & n2 & Hl2 & Hp2 & Hq2). split; [done|]. exists (n1 ++ n2).
  rewrite Hl2, Hl, app_assoc. split_and!; [done|by apply Forall_app|right; by exists e, n1, n2].
Qed.

(** What an operation that returns has established, in its log. *)
Definition reaches {A} (G : A → list event → Prop) : outcome A → list event → Prop :=
  λ o new, match o with Ok a => G a new | Raise _ => True end.

Lemma emits_retry {A} I P (sleep : Q → M S unit) (op : M S A) G n delay max_delay :
  (∀ q, emits I P (sleep q) (λ _ _, True)) → emits I P op (reaches G) → (∀ a n1 n2, G a n2 → G a (n1 ++ n2)) →
  emits I P (retry_from sleep n delay max_delay op) (reaches G).
Proof.
  intros Hs Ho Hg. revert delay. induction n as [|n IH]; intros delay; [by apply emits_quiet|]. cbn [retry_from].
  eapply emits_mono; [apply emits_try with (Q2 := λ _, reaches G); [exact Ho|]|done|].
  - intros e. destruct (decide (n = O)); [by apply emits_quiet|].
    eapply emits_mono; [apply emits_bind with (Q2 := λ _, reaches G); [apply Hs|intros _ _ _; apply IH]|done|].
    intros o new _ [(e' & -> & _)|(_ & n1 & n2 & -> & _ & Hq)]; [done|]. destruct o; [by apply Hg|done].
  - intros o new _ [Hq|(e & n1 & n2 & -> & _ & Hq)]; [done|]. destruct o; [by apply Hg|done].
Qed.

Lemma emits_backoff {A} I P (sleep : Q → M S unit) (op : M S A) G n delay max_delay :
  (∀ q, emits I P (sleep q) (λ _ _, True)) → emits I P op (reaches G) → (∀ a n1 n2, G a n2 → G a (n1 ++ n2)) →
  emits I P (retry_with_backoff sleep n delay max_delay op) (reaches G) ∧
  emits I P (read_with_backoff sleep n delay max_delay op) (reaches G).
Proof.
  intros Hs Ho Hg. assert (emits I P (retry_with_backoff sleep n delay max_delay op) (reaches G)) as Hr.
  { intros s Hi. unfold retry_with_backoff. rewrite bind_raise_if. destruct (n <? 1); [split; [done|]; exists []; by rewrite app_nil_r|].
    by apply emits_retry. }
  split; [done|]. intros s Hi. destruct (Hr s Hi) as (Hi1 & new & Hl & Hp & Hq). unfold read_with_backoff, try_except.
  destruct (retry_with_backoff _ _ _ _ _ s) as [[a|[]] s1]; cbn in *; eauto 10.
Qed.
End trace.

(** ** Cleanup *)

Section cleanup.
Context {E : Type} `{!Api E} (has_journal : bool).
Notation C := (M (client E)).
Notation L := (M (option string * client E)).

Definition journal_is (f : file) (s : client E) : Prop := journal s = f.
Definition local_is (f : file) (i : string) (s : option string * client E) : Prop := (s.1 = None ∨ s.1 = Some i) ∧ journal_is f s.2.

Lemma emits_call {A} f (P : event → Prop) (m : M E A) ev :
  (∀ o, P (ev o)) → emits id (journal_is f) P (call m ev) (λ o new, new = [ev o]).
Proof.
  intros HP s Hs. unfold call. destruct (m (env s)) as [o e]; cbn. split; [done|].
  exists [ev o]. split_and!; [done|by apply Forall_singleton|done].
Qed.
Lemma emits_pause f P q : emits id (journal_is f) P (pause q) (λ _ _, True).
Proof. apply emits_quiet. intros s Hs. unfold pause. by destruct (api_sleep q (env s)). Qed.
Lemma emits_on_client {A} f i P (m : C A) Q :
  emits id (journal_is f) P m Q → emits snd (local_is f i) P (on_client m) Q.
Proof.
  intros H [h s] [Hh Hs]. destruct (H s Hs) as (Hi & new & Hl & Hp & Hq). cbn.
  destruct (m s) as [o s']; cbn in *. split; [by split|by exists new].
Qed.

(** A VM is gone when its destruction returned, or a listing does not have it. *)
Definition gone (i : string) (new : list event) : Prop :=
  Killed i (Ok tt) ∈ new ∨ ∃ l, Listed (Ok l) ∈ new ∧ ∀ j, j ∈ l → info_id j ≠ i.
(** The events of a destruction. *)
Definition kills (i : string) (ev : event) : Prop := match ev with Listed _ => True | Killed h _ => h = i | _ => False end.

Lemma gone_app i n1 n2 : gone i n1 ∨ gone i n2 → gone i (n1 ++ n2).
Proof. unfold gone. intros H. setoid_rewrite elem_of_app. naive_solver. Qed.

Lemma find_none i (l : list info) : find (λ j, bool_decide (info_id j = i)) l = None → ∀ j, j ∈ l → info_id j ≠ i.
Proof. intros H j Hj Hi. apply list_elem_of_In in Hj. pose proof (find_none _ _ H j Hj) as Hn. cbn in Hn. by rewrite bool_decide_eq_true_2 in Hn. Qed.
Lemma existsb_none i (l : list info) : existsb (λ j, bool_decide (info_id j = i)) l = false → ∀ j, j ∈ l → info_id j ≠ i.
Proof.
  intros H j Hj Hi. assert (existsb (λ j, bool_decide (info_id j = i)) l = true) as Ht; [|congruence].
  apply existsb_exists. exists j. split; [by apply list_elem_of_In|by rewrite bool_decide_eq_true_2].
Qed.

Lemma kill_call_emits f i : emits snd (local_is f i) (kills i)
  (try_exception (on_client (call (api_kill i) (Killed i)))
    (λ e, l ← on_client listing; if existsb (λ j, bool_decide (info_id j = i)) l then set_local None ;; raise e else mret tt))
  (reaches (λ _, gone i)).
Proof.
  eapply emits_mono; [apply emits_try with (Q2 := λ _, reaches (λ _, gone i))|done|].
  - apply emits_on_client. by apply emits_call.
  - intros e. eapply emits_mono; [apply emits_bind with (Q2 := λ l o _, is_ok o = true → ∀ j, j ∈ l → info_id j ≠ i)|done|].
    + apply emits_on_client. by apply emits_call.
    + intros l _ _. destruct (existsb _ l) eqn:Ee; apply emits_quiet; intros [h s] [Hh Hs]; cbn; split_and!; try done; [by split; [left|]|].
      intros _. by apply existsb_none.
    + intros o new _ [(e' & -> & _)|(l & n1 & n2 & -> & -> & Hn)]; [done|]. destruct o; [|done].
      right. exists l. split; [apply elem_of_app; left; by left|by apply Hn].
  - intros o new _ [->|(e & n1 & n2 & -> & _ & Hq)]; destruct o as [[]|]; try done; [by left; left|apply gone_app; by right].
Qed.

(** The lookup of a VM without a handle. *)
Lemma find_vm_emits f i : emits snd (local_is f i) (kills i)
  (l ← on_client listing;
   match find (λ j, bool_decide (info_id j = i)) l with
   | None => mret None
   | Some j => set_local (Some (info_id j)) ;; mret (Some (info_id j))
   end) (reaches (λ t new, match t with None => gone i new | Some h => h = i end)).
Proof.
  eapply emits_mono; [apply emits_bind with
    (Q2 := λ l o _, match o with Ok None => ∀ j, j ∈ l → info_id j ≠ i | Ok (Some h) => h = i | Raise _ => True end)|done|].
  - apply emits_on_client. by apply emits_call.
  - intros l _ _. apply emits_quiet. intros [h s] [Hh Hs]. destruct (find _ l) as [j|] eqn:Ef; cbn; [|split_and!; [done..|by apply find_none]].
    apply List.find_some in Ef as [_ Ef%bool_decide_eq_true]. split_and!; [|done..]. by split; [right; rewrite <- Ef|].
  - intros o new _ [(e & -> & _)|(l & n1 & n2 & -> & -> & Hq)]; [done|]. destruct o as [[h|]|]; try done.
    right. exists l. split; [apply elem_of_app; left; by left|done].
Qed.

Lemma kill_once_emits f i : emits snd (local_is f i) (kills i) (kill_once i) (reaches (λ _, gone i)).
Proof.
  unfold kill_once. eapply emits_mono; [apply emits_bind with (Q1 := λ o _, match o with Ok h => h = None ∨ h = Some i | Raise _ => True end) (Q2 := λ _, reaches (λ _, gone i))|done|].
  - apply emits_quiet. intros [h s] [Hh Hs]. by split_and!.
  - intros h n Hh. cbn in Hh. eapply emits_mono; [apply emits_bind with (Q1 := reaches (λ t new, match t with None => gone i new | Some h => h = i end))
      (Q2 := λ t, reaches (λ _ new, match t with None => True | Some _ => gone i new end))|done|].
    + destruct Hh as [->| ->]; [apply find_vm_emits|]. by apply emits_quiet.
    + intros [h'|] n' Hn'; cbn in Hn'; [subst h'; apply kill_call_emits|by apply emits_quiet].
    + intros o new _ [(e & -> & _)|(t & n1 & n2 & -> & Hg & Hq)]; [done|]. destruct o; [|done]. apply gone_app. destruct t; [by right|by left].
  - intros o new _ [(e & -> & _)|(h & n1 & n2 & -> & _ & Hq)]; [done|]. destruct o; [|done]. apply gone_app. by right.
Qed.

Lemma kill_sandbox_emits f i : emits id (journal_is f) (kills i) (kill_sandbox i) (reaches (λ _, gone i)).
Proof.
  intros s Hs. destruct (emits_backoff snd (local_is f i) (kills i) (λ q, on_client (pause q)) (kill_once i) (λ _, gone i) 10 (1 # 4) 2) as [Hr _].
  - intros q. apply emits_on_client, emits_pause.
  - apply kill_once_emits.
  - intros _ n1 n2 H. apply gone_app. by right.
  - destruct (Hr (if decide (i ∈ handles s) then Some i else None, (pop_handle i s).2)) as ([_ Hi] & new & Hl & Hp & Hq).
    { split; [|done]. cbn. destruct (decide _); auto. }
    unfold kill_sandbox. destruct (retry_with_backoff _ _ _ _ _ _) as [o [h s']]; cbn in *. split; [done|]. by exists new.
Qed.

Lemma attempt_all_emits {A} f (P : event → Prop) (G : A → list event → Prop) (l : list A) (body : A → C unit) :
  (∀ x, x ∈ l → emits id (journal_is f) P (body x) (reaches (λ _, G x))) → (∀ x n1 n2, G x n1 ∨ G x n2 → G x (n1 ++ n2)) →
  emits id (journal_is f) P (attempt_all l body)
    (λ o new, ∃ os, o = Ok os ∧ (interrupted os = None → failures os = 0%nat → ∀ x, x ∈ l → G x new)).
Proof.
  intros Hb Hg. induction l as [|x l IH]; intros s Hs; cbn [attempt_all].
  { split; [done|]. exists []. rewrite app_nil_r. split_and!; [done|done|]. exists []. split; [done|]. intros _ _ x Hx. by apply elem_of_nil in Hx. }
  destruct (Hb x ltac:(left) s Hs) as (Hs1 & n1 & Hl1 & Hp1 & Hq1). destruct (body x s) as [o s1]; cbn in *.
  destruct (IH ltac:(intros y Hy; apply Hb; by right) s1 Hs1) as (Hs2 & n2 & Hl2 & Hp2 & os & Ho & Hq2).
  destruct (attempt_all l body s1) as [r s2]; cbn in *; subst r. split; [done|]. exists (n1 ++ n2).
  rewrite Hl2, Hl1, app_assoc. split_and!; [done|by apply Forall_app|]. exists (o :: os). split; [done|].
  unfold failures. rewrite filter_cons. intros Hi Hf y Hy. destruct o as [u|e]; cbn in Hi, Hf; [|done].
  apply elem_of_cons in Hy as [->|Hy]; apply Hg; [by left|right; by apply Hq2].
Qed.

(** What the deletion of a snapshot has to answer. *)
Definition deleted (k : string) (new : list event) : Prop :=
  ∃ d, SnapshotDeleted k d ∈ new ∧ (d = Ok tt ∨ ∃ e, d = Raise e ∧ says_missing (E := E) e = true).

Lemma deleted_app k n1 n2 : deleted k n1 ∨ deleted k n2 → deleted k (n1 ++ n2).
Proof. unfold deleted. intros H. setoid_rewrite elem_of_app. naive_solver. Qed.

Lemma delete_one_emits f k : emits id (journal_is f) (λ ev, ∃ d, ev = SnapshotDeleted k d)
  (try_exception (delete_snapshot k ;; mret 0%nat) (λ e, mret (if says_missing (E := E) e then 0 else 1)%nat))
  (reaches (λ n new, n = 0%nat → deleted k new)).
Proof.
  intros s Hs. unfold delete_snapshot, call, try_exception, try_except, mbind, M_bind.
  destruct (api_delete_snapshot k (env s)) as [[[]|e] e']; cbn; [|destruct (is_exception e); cbn].
  all: split; [done|]; eexists; split_and!; [reflexivity|apply Forall_singleton; by eexists|]; cbn; try done.
  - intros _. eexists. split; [by left|by left].
  - intros Hn. exists (Raise e). split; [by left|right]. exists e. split; [done|]. by destruct (says_missing e).
Qed.

Lemma delete_all_emits f l : emits id (journal_is f) (λ ev, ∃ k d, k ∈ l ∧ ev = SnapshotDeleted k d) (delete_all l)
  (reaches (λ n new, n = 0%nat → ∀ k, k ∈ l → deleted k new)).
Proof.
  induction l as [|k l IH].
  { apply emits_quiet. intros s Hs. split_and!; [done..|]. intros _ k Hk. by apply elem_of_nil in Hk. }
  cbn [delete_all]. eapply emits_mono; [apply emits_bind with (P := λ ev, ∃ j d, j ∈ k :: l ∧ ev = SnapshotDeleted j d) (Q2 := λ b, reaches (λ n new, n = 0%nat → b = 0%nat ∧ ∀ k, k ∈ l → deleted k new))|done|].
  - eapply emits_mono; [apply delete_one_emits| |done]. intros ev (d & ->). exists k, d. split; [left|done].
  - intros b _ _. eapply emits_mono; [apply emits_bind with (Q2 := λ r o new, ∀ n, o = Ok n → n = (b + r)%nat); [apply IH|]| |].
    + intros r _ _. apply emits_quiet. intros s Hs. split_and!; [done..|]. by intros n [= <-].
    + intros ev (j & d & Hj & ->). exists j, d. split; [by right|done].
    + intros o new _ [(e & -> & _)|(r & n1 & n2 & -> & Hr & Hn)]; [done|]. destruct o as [n|]; [|done]. intros ->.
      specialize (Hn 0%nat eq_refl). split; [lia|]. intros j Hj. apply deleted_app. left. apply Hr; [lia|done].
  - intros o new _ [(e & -> & _)|(b & n1 & n2 & -> & Hb & Hn)]; [done|]. destruct o as [n|]; [|done]. intros ->.
    destruct (Hn eq_refl) as [-> Hl]. intros j [->|Hj]%elem_of_cons; apply deleted_app; [left; by apply Hb|right; by apply Hl].
Qed.

Definition journaled (k : kind) (owner : string) (f : file) : list string := if has_journal then journal_ids k (Some owner) f else [].
(** The VMs that a cleanup destroys, of those it listed. *)
Definition victim (owner : string) (f : file) (l : list info) (i : string) : Prop :=
  i ≠ "" ∧ ∃ j, j ∈ l ∧ info_id j = i ∧ (i ∈ journaled Sandbox owner f ∨ belongs owner j = true).

Lemma elem_of_unique_ids seen l x : x ∈ unique_ids seen l ↔ x ∈ l ∧ x ∉ seen.
Proof.
  revert seen. induction l as [|y l IH]; intros seen; cbn; [rewrite elem_of_nil; naive_solver|].
  destruct (decide (y ∈ seen)); rewrite ?elem_of_cons, IH, ?elem_of_cons; [naive_solver|].
  split; [naive_solver|]. intros [[->|?] ?]; [by left|]. destruct (decide (x = y)); naive_solver.
Qed.
Lemma elem_of_victims owner f l i :
  i ∈ unique_ids [] (filter (λ i, i ≠ "") (info_id <$> filter (λ j, owned_by owner (journaled Sandbox owner f) j = true) l)) ↔ victim owner f l i.
Proof.
  rewrite elem_of_unique_ids, list_elem_of_filter, elem_of_nil, list_elem_of_fmap. unfold victim, owned_by. split.
  - intros [[Hi (j & -> & [Ho Hj]%list_elem_of_filter)] _]. split; [done|]. exists j. split_and!; [done..|].
    apply orb_true_iff in Ho as [?%bool_decide_eq_true|?]; auto.
  - intros [Hi (j & Hj & <- & Ho)]. split_and!; [done| |tauto]. exists j. split; [done|]. apply list_elem_of_filter.
    split; [|done]. apply orb_true_iff. destruct Ho; [left; by apply bool_decide_eq_true|by right].
Qed.

Lemma keep_handles l (s : client E) : ∃ h, for_each l keep_handle s = (Ok tt, Client h (journal s) (env s) (log s)).
Proof. revert s. induction l as [|i l IH]; intros s; [by destruct s; eexists|]. cbn [for_each]. unfold mbind, M_bind. cbn. apply (IH (Client _ _ _ _)). Qed.

(** The deletions and the last listing. *)
Definition settles (owner : string) (f : file) (ev : event) : Prop :=
  match ev with Listed _ => True | SnapshotDeleted k _ => k ∈ journaled Snapshot owner f | _ => False end.

Lemma settling_emits f owner (ks : list (outcome unit)) : emits id (journal_is f) (settles owner f)
  (remaining ← list_owned_sandboxes owner;
   snapshots ← gets (λ s : client E, if has_journal then journal_ids Snapshot (Some owner) (journal s) else []);
   undeleted ← delete_all snapshots;
   raise_if (negb (bool_decide (failures ks = 0%nat ∧ remaining = [] ∧ undeleted = 0%nat))) (RuntimeError "CubeSandbox cleanup incomplete"))
  (λ o new, o = Ok tt → failures ks = 0%nat ∧ ∃ l rest, new = Listed (Ok l) :: rest ∧
     filter (λ i, belongs owner i = true) l = [] ∧ ∀ k, k ∈ journaled Snapshot owner f → deleted k rest).
Proof.
  apply emits_seq with (Q1 := λ o new, match o with Ok r => ∃ l, new = [Listed (Ok l)] ∧ r = filter (λ i, belongs owner i = true) l | Raise _ => True end).
  { eapply emits_seq; [by apply emits_call| |done]. intros l n1 [= ->]. apply emits_quiet. intros s Hs. split_and!; [done..|]. by exists l. }
  2:{ done. }
  intros r n1 (l & -> & ->). apply emits_seq with (Q1 := λ o new, o = Ok (journaled Snapshot owner f) ∧ new = []); [|intros ? ? [[= ->] ->]|by intros ? ? [? _]].
  { apply emits_quiet. intros s Hs. unfold journal_is in Hs. by rewrite <- Hs. }
  eapply emits_seq; [eapply emits_mono; [apply delete_all_emits| |done]| |done].
  { by intros ev (k & d & Hk & ->). }
  intros n n2 Hn. cbn in Hn. destruct (bool_decide _) eqn:Eb; apply emits_quiet; intros s Hs; (split_and!; [done..|]); [|done].
  apply bool_decide_eq_true in Eb as (? & ? & ->). intros _. split; [done|]. exists l, n2. rewrite app_nil_r. by split_and!; [..|apply Hn].
Qed.

Lemma cleanup_emits f owner : emits id (journal_is f) (λ _, True) (kill_owned_sandboxes has_journal owner) (λ o new,
  ∃ a rest, new = Listed a :: rest ∧ match a with
    | Raise _ => rest = [] ∧ is_ok o = false
    | Ok l => ∃ n1 n2, rest = n1 ++ n2 ∧ Forall (λ ev, ∃ i, victim owner f l i ∧ kills i ev) n1 ∧ Forall (settles owner f) n2 ∧
        (o = Ok tt → (∀ i, victim owner f l i → gone i n1) ∧ ∃ l' n3, n2 = Listed (Ok l') :: n3 ∧
           filter (λ i, belongs owner i = true) l' = [] ∧ ∀ k, k ∈ journaled Snapshot owner f → deleted k n3)
    end).
Proof.
  apply emits_seq with (Q1 := λ o new, o = Ok (journaled Sandbox owner f) ∧ new = []); [|intros ? ? [[= ->] ->]|by intros ? ? [? _]].
  { apply emits_quiet. intros s Hs. unfold journal_is in Hs. by rewrite <- Hs. }
  eapply emits_seq; [by apply emits_call| |].
  2:{ intros e n ->. by exists (Raise e), []. }
  intros l n1 ->. cbv zeta. apply emits_seq with (Q1 := λ o new, is_ok o = true ∧ new = []); [|intros [] ? [_ ->]|by intros ? ? [? _]].
  { apply emits_quiet. intros s Hs. unfold id. edestruct keep_handles as [h ->]. done. }
  set (ids := info_id <$> _).
  eapply emits_seq; [eapply emits_forall, (attempt_all_emits f (λ ev, ∃ i, victim owner f l i ∧ kills i ev) gone)| |by intros ? ? (_ & ? & ? & _)].
  { intros i Hi%elem_of_victims. eapply emits_mono; [apply kill_sandbox_emits| |done]. intros ev Hev. by exists i. }
  { apply gone_app. }
  intros os n1 [Hp1 (os' & [= <-] & Hq1)]. destruct (interrupted os) as [e|] eqn:Ei.
  { apply emits_quiet. intros s Hs. split_and!; [done..|]. exists (Ok l), n1. rewrite app_nil_r. split; [done|]. exists n1, []. rewrite app_nil_r. by split_and!. }
  eapply emits_mono; [apply emits_forall, settling_emits|done|]. intros o n2 _ [Hp2 Hq2]. exists (Ok l), (n1 ++ n2). split; [done|].
  exists n1, n2. split_and!; [done..|]. intros Hok. destruct (Hq2 Hok) as (Hf & l' & n3 & Hn).
  split; [|by exists l', n3]. intros i Hi. apply Hq1; [done..|by apply elem_of_victims].
Qed.
End cleanup.

(** ** Creation *)

Section creation.
Context {E : Type} `{!Api E} (has_journal : bool).
Notation C := (M (client E)).

Definition not_posted (ev : event) : Prop := match ev with Posted _ _ => False | _ => True end.
(** A listing showed [i] as the only VM with the metadata. *)
Definition confirmed (r : creation) (i : string) (new : list event) : Prop :=
  ∃ l j, Listed (Ok l) ∈ new ∧ filter (λ i, carries (c_owner r) i = true) l = [j] ∧ info_id j = i.
Definition journaled_as (e : entry) (s s' : client E) : Prop := has_journal = true → journal s' = append_line All e (journal s).

Lemma record_spec e (s s' : client E) o : record_if_journal has_journal e s = (o, s') →
  log s' = log s ∧ (is_ok o = true → journaled_as e s s').
Proof.
  unfold record_if_journal, journaled_as, record. destruct has_journal; [|by intros [= <- <-]].
  destruct (journal_write e (env s)) as [[w [x|]] e']; by intros [= <- <-].
Qed.

Lemma resolve_emits f o : emits id (journal_is (E := E) f) not_posted (resolve o)
  (reaches (λ j new, ∃ l, Listed (Ok l) ∈ new ∧ filter (λ i, carries o i = true) l = [j])).
Proof.
  unfold resolve. eapply emits_seq; [by apply emits_call| |done]. intros l n ->. apply emits_quiet. intros s Hs.
  destruct (filter _ l) as [|j [|]] eqn:El; cbn; split_and!; try done. exists l. split; [by left|done].
Qed.
Lemma verify_emits f i : emits id (journal_is (E := E) f) not_posted (verify_guest i) (reaches (λ _ _, True)).
Proof.
  unfold verify_guest. eapply emits_seq; [by apply emits_call| |done]. intros c n _. apply emits_quiet. intros s Hs. by destruct (negb _).
Qed.

Lemma recover_spec r s o s' : recover has_journal r s = (o, s') →
  ∃ new, log s' = log s ++ new ∧ Forall not_posted new ∧
    ∀ i, o = Ok i → confirmed r i new ∧ journaled_as (Entry Sandbox i (c_owner r)) s s'.
Proof.
  set (f := journal s). unfold recover.
  destruct (emits_try id (journal_is f) not_posted (read_with_backoff pause 10 (1 # 4) 2 (resolve (c_owner r)))
    (λ _, raise (RuntimeError "CubeSandbox create timed out and ownership reconciliation failed"))
    (reaches (λ j new, ∃ l, Listed (Ok l) ∈ new ∧ filter (λ i, carries (c_owner r) i = true) l = [j])) (λ _ o _, is_ok o = false)) with (s := s)
    as (Hs1 & n1 & Hl1 & Hp1 & Hq1); [|by intros e; apply emits_quiet|done|].
  { apply emits_backoff; [intros q; apply emits_pause|apply resolve_emits|]. intros j n1 n2 (l & Hl & Hf). exists l. split; [apply elem_of_app; by right|done]. }
  unfold id in Hl1. unfold mbind at 1, M_bind at 1. destruct (try_exception _ _ s) as [[j|e] s1]; cbn [fst snd] in *.
  2:{ intros [= <- <-]. by exists n1. }
  destruct Hq1 as [(l & Hl & Hf)|(? & ? & ? & _ & _ & ?)]; [|done].
  unfold mbind at 1, M_bind at 1. destruct (record_if_journal _ _ s1) as [[[]|e] s2] eqn:Er; apply record_spec in Er as [Hl2 Hj2].
  2:{ intros [= <- <-]. exists n1. by rewrite Hl2. }
  destruct (emits_backoff id (journal_is (journal s2)) not_posted pause (verify_guest (info_id j)) (λ _ _, True) 10 (1 # 4) 2) as [_ Hv];
    [intros q; apply emits_pause|apply verify_emits|done|].
  destruct (Hv s2 eq_refl) as (Hs3 & n3 & Hl3 & Hp3 & _). unfold id in Hl3. unfold mbind, M_bind.
  destruct (read_with_backoff _ _ _ _ _ s2) as [[[]|e] s3]; cbn [fst snd] in *; intros [= <- <-]; exists (n1 ++ n3).
  all: rewrite Hl3, Hl2, Hl1, app_assoc; (split; [done|]); (split; [by apply Forall_app|]); intros i; try done.
  intros [= <-]. split; [exists l, j; split_and!; [apply elem_of_app; by left|done..]|].
  intros Hh. unfold journal_is in Hs1, Hs3. rewrite Hs3, Hj2 by done. by rewrite Hs1.
Qed.

Lemma finish_spec r i (s s' : client E) o : (keep_handle i ;; record_if_journal has_journal (Entry Sandbox i (c_owner r)) ;; mret i) s = (o, s') →
  log s' = log s ∧ ∀ i', o = Ok i' → i' = i ∧ journaled_as (Entry Sandbox i (c_owner r)) s s'.
Proof.
  unfold mbind, M_bind, keep_handle. cbn [modify]. destruct (record_if_journal _ _ _) as [[[]|e] s2] eqn:Er; apply record_spec in Er as [Hl Hj];
    intros [= <- <-]; (split; [done|]); intros i'; [intros [= <-]|done]. split; [done|by apply Hj].
Qed.

Lemma append_whole e f : unterminated f = None → unterminated (append_line All e f) = None ∧ Some e ∈ terminated (append_line All e f).
Proof. intros Hf. cbn. rewrite Hf. split; [done|]. apply elem_of_app. right. by left. Qed.

Lemma create_spec r s o s' : create_sandbox has_journal r s = (o, s') →
  ∃ a rest, log s' = log s ++ Posted (posted r) a :: rest ∧ Forall not_posted rest ∧
    ∀ i, o = Ok i → (a = Ok i ∨ confirmed r i rest) ∧
      (has_journal = true → unterminated (journal s) = None → unterminated (journal s') = None ∧ Some (Entry Sandbox i (c_owner r)) ∈ terminated (journal s')).
Proof.
  unfold create_sandbox. unfold mbind at 1, M_bind at 1, try_exception, try_except, call. destruct (api_create (posted r) (env s)) as [a e1].
  set (s1 := Client _ _ _ _). destruct a as [i|e].
  { intros Hf. apply finish_spec in Hf as [Hl Hf]. exists (Ok i), []. rewrite Hl. split_and!; [done|done|]. intros i' Hi'.
    destruct (Hf i' Hi') as [-> Hj]. split; [by left|]. intros Hh Hu. rewrite (Hj Hh). by apply append_whole. }
  destruct (is_exception e && ambiguous (E := E) e) eqn:Ea.
  2:{ destruct (is_exception e); cbn in Ea; [rewrite Ea|]; intros [= <- <-]; by exists (Raise e), []. }
  apply andb_prop in Ea as [-> ->]. destruct (recover has_journal r s1) as [[i|e'] s2] eqn:Er; apply recover_spec in Er as (new & Hl & Hp & Hq).
  2:{ intros [= <- <-]. exists (Raise e), new. rewrite Hl. cbn. by rewrite <- app_assoc. }
  intros Hf. apply finish_spec in Hf as [Hl2 Hf]. exists (Raise e), new. rewrite Hl2, Hl. cbn. rewrite <- app_assoc. split_and!; [done|done|].
  intros i' Hi'. destruct (Hf i' Hi') as [-> Hj2]. destruct (Hq i eq_refl) as [Hc Hj1]. split; [by right|]. intros Hh Hu.
  rewrite (Hj2 Hh). apply append_whole. rewrite (Hj1 Hh). by apply append_whole.
Qed.

Lemma journaled_found k e f : Some e ∈ terminated f → e_kind e = k → e_id e ∈ journal_ids k (Some (task_uid (e_owner e))) f.
Proof.
  intros He Hk. apply elem_of_unique_ids. split; [|by intros ?%elem_of_nil]. apply list_elem_of_omap.
  exists (Some e). split; [apply elem_of_app; by left|]. cbn. by rewrite !bool_decide_eq_true_2.
Qed.
End creation.

(** ** What the client guarantees *)

Section theorems.
Context {E : Type} `{!Api E} (has_journal : bool).

(** C10: a cleanup destroys nothing that is not the task's.  Whatever the SDK
    answers and however often deletions are retried, every VM it destroys was on
    its first listing and is journaled for the task or carries its metadata, every
    snapshot it deletes is journaled for the task, and it creates nothing. *)
Theorem only_owned_destroyed (owner : string) (s : client E) :
  ∃ new, log (kill_owned_sandboxes has_journal owner s).2 = log s ++ new ∧ Forall (λ ev, match ev with
    | Killed i _ => ∃ l, head new = Some (Listed (Ok l)) ∧ victim has_journal owner (journal s) l i
    | SnapshotDeleted k _ => k ∈ journaled has_journal Snapshot owner (journal s)
    | Listed _ => True
    | _ => False
    end) new.
Proof.
  destruct (cleanup_emits has_journal (journal s) owner s eq_refl) as (_ & new & Hl & _ & a & rest & -> & Ha). exists (Listed a :: rest).
  split; [done|]. constructor; [done|]. destruct a as [l|e]; [|by destruct Ha as [-> _]].
  destruct Ha as (n1 & n2 & -> & H1 & H2 & _). apply Forall_app. split; (eapply Forall_impl; [done|]).
  - intros ev (i & Hi & Hk). destruct ev; try done. cbn in Hk. subst. by exists l.
  - intros ev Hev. by destruct ev.
Qed.

(** C11: a cleanup that returns is complete: every VM of the task that its first
    listing showed was destroyed, or a later listing no longer had it; the listing
    after that shows none with the task's metadata; and the deletion of every
    snapshot journaled for the task returned, or was refused as there is none. *)
Theorem cleanup_is_complete (owner : string) (s s' : client E) (Hrun : kill_owned_sandboxes has_journal owner s = (Ok tt, s')) :
  ∃ l kills l' rest, log s' = log s ++ Listed (Ok l) :: kills ++ Listed (Ok l') :: rest ∧
    (∀ i, victim has_journal owner (journal s) l i → gone i kills) ∧
    (∀ j, j ∈ l' → belongs owner j = false) ∧
    (∀ k, k ∈ journaled has_journal Snapshot owner (journal s) → deleted (E := E) k rest).
Proof.
  destruct (cleanup_emits has_journal (journal s) owner s eq_refl) as (_ & new & Hl & _ & a & rest & -> & Ha). unfold id in Hl. rewrite Hrun in Hl, Ha.
  destruct a as [l|e]; [|by destruct Ha]. destruct Ha as (n1 & n2 & -> & _ & _ & H). destruct (H eq_refl) as (Hg & l' & n3 & -> & Hf & Hd).
  exists l, n1, l', n3. split_and!; [done..| |done]. intros j Hj. destruct (belongs owner j) eqn:Eb; [|done].
  assert (j ∈ filter (λ i, belongs owner i = true) l') as Hin by (by apply list_elem_of_filter). rewrite Hf in Hin. by apply elem_of_nil in Hin.
Qed.

(** A creation posts to Cube once, whatever fails, and a VM that it returns is
    the one the answer named, or the only one a later listing showed with the
    task's metadata.  With a journal whose last line is whole, the journal then has
    the VM under its task. *)
Theorem created_is_owned (r : creation) (s s' : client E) (o : outcome string) (Hrun : create_sandbox has_journal r s = (o, s')) :
  ∃ a rest, log s' = log s ++ Posted (posted r) a :: rest ∧ Forall not_posted rest ∧
    ∀ i, o = Ok i → (a = Ok i ∨ confirmed r i rest) ∧
      (has_journal = true → unterminated (journal s) = None → i ∈ journaled has_journal Sandbox (task_uid (c_owner r)) (journal s')).
Proof.
  apply create_spec in Hrun as (a & rest & Hl & Hp & Hq). exists a, rest. split_and!; [done..|]. intros i Hi. destruct (Hq i Hi) as [Hc Hj].
  split; [done|]. intros Hh Hu. destruct (Hj Hh Hu) as [_ He]. unfold journaled. rewrite Hh. by apply (journaled_found Sandbox _ _ He).
Qed.
End theorems.

(** ** A small Cube *)

Module Demo.
(** Its VMs, how many answers get lost, and how much of the next record is written. *)
Record cube := Cube { vms : list info; loses : nat; writes : list (written * option exn) }.
Definition lose {A} (a : A) (c : cube) : outcome A * cube :=
  match loses c with
  | O => (Ok a, c)
  | S n => (Raise (ApiError 504), Cube (vms c) n (writes c))
  end.
#[export] Instance cube_api : Api cube := {|
  api_create p c := lose "vm-1" (Cube (Info (Some "vm-1") None (Some (p_metadata p)) (Some "running") :: vms c) (loses c) (writes c));
  api_list c := (Ok (vms c), c);
  api_connect i c := (Ok i, c);
  api_probe i c := (Ok 0, c);
  api_kill i c := lose tt (Cube (filter (λ j, info_id j ≠ i) (vms c)) (loses c) (writes c));
  api_create_snapshot i c := (Ok "snap-1", c);
  api_delete_snapshot k c := (Ok tt, c);
  api_sleep q c := (Ok tt, c);
  journal_write e c := match writes c with w :: ws => (w, Cube (vms c) (loses c) ws) | [] => ((All, None), c) end;
  connection_lost _ := false;
  says_missing _ := false;
|}.
Definition mine : ownership := Ownership "run" "attempt" "task" "experiment" "session" "policy".
Definition other : ownership := Ownership "run" "attempt" "other" "experiment" "session" "policy".
Definition asked : creation := Creation "template" "node" mine None true None None.
Definition client_of (vms : list info) (n : nat) (ws : list (written * option exn)) : client cube := Client ∅ (File [] None) (Cube vms n ws) [].
Definition theirs : info := Info (Some "vm-9") None (Some (metadata other)) None.
End Demo.
Import Demo.

Definition created : client cube := (create_sandbox true asked (client_of [theirs] 1 [])).2.
Lemma created_is_owned_witness : ∃ o s' a rest, create_sandbox true asked (client_of [theirs] 1 []) = (o, s') ∧ o = Ok "vm-1" ∧
  log s' = Posted (posted asked) a :: rest ∧ Forall not_posted rest ∧ "vm-1" ∈ journaled true Sandbox "task" (journal s').
Proof.
  destruct (@created_is_owned cube cube_api true asked (client_of [theirs] 1 []) created (Ok "vm-1") ltac:(vm_compute; reflexivity)) as (a & rest & Hl & Hp & Hq).
  exists (Ok "vm-1"), created, a, rest. split_and!; [vm_compute; reflexivity|reflexivity|exact Hl|exact Hp|]. by apply (Hq "vm-1" eq_refl).
Defined.

(** The answer of the deletion is lost; the cleanup still returns, and the VM of the
    other task is still there. *)
Definition lossy : client cube := let s := created in Client (handles s) (journal s) (Cube (vms (env s)) 1 (writes (env s))) (log s).
Lemma cleanup_is_complete_witness : ∃ s' l kills l' rest, kill_owned_sandboxes true "task" lossy = (Ok tt, s') ∧ vms (env s') = [theirs] ∧
  log s' = log lossy ++ Listed (Ok l) :: kills ++ Listed (Ok l') :: rest ∧ (∀ i, victim true "task" (journal lossy) l i → gone i kills).
Proof.
  set (s' := (kill_owned_sandboxes true "task" lossy).2).
  destruct (@cleanup_is_complete cube cube_api true "task" lossy s' ltac:(vm_compute; reflexivity)) as (l & ks & l' & rest & Hl & Hv & _). exists s', l, ks, l', rest.
  split_and!; [vm_compute; reflexivity|vm_compute; reflexivity|exact Hl|exact Hv].
Defined.

(** A record that was cut off takes the next one with it: the line of the second VM
    is not JSON, although its record returned. *)
Example torn_record_hides_next :
  let s1 := (record (Entry Snapshot "snap-1" mine) (client_of [] 0 [(Part, Some (OSError "ENOSPC"))])) in
  let s2 := record (Entry Snapshot "snap-2" mine) s1.2 in
  is_ok s1.1 = false ∧ s2.1 = Ok tt ∧ journal_ids Snapshot (Some "task") (journal s2.2) = [].
Proof. split_and!; vm_compute; reflexivity. Qed.
