(* ===== verification/FairPools.v ===== *)
(** * FIFO resource pools (src/clawbox/replay/lifecycle.py)

    [FairSemaphore], [FairResourcePool] and [FairWeightedResourcePool] grant_turn callers
    in the order of their tickets.  They share the queue and differ in what is
    admitted, the class [Resource].  A call of [acquire] runs under the condition's
    lock up to its wait and again after every wake-up; these blocks, of any number of
    callers in any order, are the steps of [step]. *)
From S2P Require Import Prelude.

(** ** Tickets *)

Record line := Line { next_ticket : Z; serving : Z; cancelled : gset Z }.
Definition line_init : line := Line 0 0 ∅.

(** [_advance_cancelled]: the loop removes a ticket in every turn. *)
Fixpoint advance (fuel : nat) (l : line) : line :=
  match fuel with
  | O => l
  | S n =>
      if decide (serving l ∈ cancelled l)
      then advance n (Line (next_ticket l) (serving l + 1) (cancelled l ∖ {[serving l]}))
      else l
  end.
Definition advance_cancelled (l : line) : line := advance (size (cancelled l)) l.

Definition take_ticket (l : line) : line := Line (next_ticket l + 1) (serving l) (cancelled l).
(** After an admission, and after a caller gave up. *)
Definition served (l : line) : line := advance_cancelled (Line (next_ticket l) (serving l + 1) (cancelled l)).
Definition cancel (t : Z) (l : line) : line := advance_cancelled (Line (next_ticket l) (serving l) ({[t]} ∪ cancelled l)).

(** ** What is admitted *)

(** Requests [A] and leases [L] of a resource [R]: whether a request is accepted at
    all, the lease it gets once there is enough, and the return of a lease. *)
Class Resource (R A L : Type) := {
  valid : A → R → bool;
  take : A → R → option (L * R);
  give : L → R → outcome R;
}.
(** What a resource promises to its pool. *)
Class ResourceLaws (R A L : Type) `{!Resource R A L} (conserved : R → Prop) := {
  take_conserves : ∀ a r x r', conserved r → valid a r = true → take a r = Some (x, r') → conserved r' ∧ ∀ b, valid b r' = valid b r;
  give_conserves : ∀ x r r', conserved r → give x r = Ok r' → conserved r' ∧ ∀ b, valid b r' = valid b r;
}.

(** [FairSemaphore] *)
Record semaphore := Semaphore { sem_capacity : Z; sem_available : Z }.
Definition semaphore_init (value : Z) : outcome semaphore :=
  if value <? 1 then Raise (ValueError "semaphore value must be positive") else Ok (Semaphore value value).
#[export] Instance semaphore_resource : Resource semaphore unit unit := {|
  valid _ _ := true;
  take _ s := if sem_available s <=? 0 then None else Some (tt, Semaphore (sem_capacity s) (sem_available s - 1));
  give _ s := if sem_capacity s <=? sem_available s then Raise (ValueError "semaphore released too many times")
              else Ok (Semaphore (sem_capacity s) (sem_available s + 1));
|}.
Definition semaphore_ok (s : semaphore) : Prop := 0 <= sem_available s <= sem_capacity s.

(** [FairResourcePool] *)
Section resources.
Context {X : Type} `{EqDecision X}.
Record resources := Resources { every : list X; available : list X; leased : list X }.
Definition resources_init (l : list X) : outcome resources :=
  if bool_decide (l = []) then Raise (ValueError "resource pool must not be empty")
  else if bool_decide (NoDup l) then Ok (Resources l l []) else Raise (ValueError "resource pool entries must be unique").
(** Appended and then sorted by the position among all. *)
Definition put_back (x : X) (r : resources) : list X := filter (λ y, y ∈ x :: available r) (every r).
#[export] Instance resources_resource : Resource resources unit X := {|
  valid _ _ := true;
  take _ r := match available r with [] => None | x :: l => Some (x, Resources (every r) l (x :: leased r)) end;
  give x r := if decide (x ∈ leased r) then Ok (Resources (every r) (put_back x r) (filter (λ y, y ≠ x) (leased r)))
              else Raise (ValueError "resource was not leased from this pool");
|}.
(** Nothing is leased twice or lost, and what is available is in order. *)
Definition resources_ok (r : resources) : Prop :=
  NoDup (every r) ∧ NoDup (leased r) ∧ leased r ⊆ every r ∧ available r = filter (λ y, y ∉ leased r) (every r).
End resources.
Arguments resources : clear implicits.

(** [FairWeightedResourcePool] *)
Record weighted := Weighted { w_capacity : Z; w_available : Z; w_leased : gmap Z Z; next_lease : Z }.
Definition weighted_init (capacity : Z) : outcome weighted :=
  if capacity <=? 0 then Raise (ValueError "weighted resource capacity must be positive") else Ok (Weighted capacity capacity ∅ 0).
#[export] Instance weighted_resource : Resource weighted Z Z := {|
  valid amount w := (0 <? amount) && (amount <=? w_capacity w);
  take amount w := if w_available w <? amount then None
    else Some (next_lease w, Weighted (w_capacity w) (w_available w - amount) (<[next_lease w := amount]> (w_leased w)) (next_lease w + 1));
  give lease w := match w_leased w !! lease with
    | Some amount => Ok (Weighted (w_capacity w) (w_available w + amount) (delete lease (w_leased w)) (next_lease w))
    | None => Raise (ValueError "weighted resource lease is unknown")
    end;
|}.
Definition weighted_ok (w : weighted) : Prop :=
  0 <= w_available w ∧ w_available w + msum (λ _ a, a) (w_leased w) = w_capacity w ∧
  map_Forall (λ lease a, lease < next_lease w ∧ 0 < a) (w_leased w).

(** ** The pool *)

Section pool.
Context {R A L : Type} `{!Resource R A L}.

Record pool := Pool { queue : line; resource : R }.

(** The condition of the [while] loop of the caller with ticket [t], and what
    follows the loop. *)
Definition grant_turn (t : Z) (a : A) (p : pool) : option (L * pool) :=
  if decide (t = serving (queue p)) then
    '(x, r) ← take a (resource p); Some (x, Pool (served (queue p)) r)
  else None.
Definition abandon (t : Z) (p : pool) : pool := Pool (cancel t (queue p)) (resource p).
Definition release (x : L) (p : pool) : outcome pool := r ← give x (resource p); Ok (Pool (queue p) r).

(** Callers in their wait: the request, and whether a notification is pending. *)
Record system := System { the_pool : pool; waiting : gmap Z (A * bool); granted : list (Z * L) }.
Definition notify_all (s : system) : system := System (the_pool s) ((λ '(a, _), (a, true)) <$> waiting s) (granted s).

(** A turn of the loop: admitted, out of time, or waiting (again). *)
Definition turn (t : Z) (a : A) (expired : bool) (s : system) : system :=
  match grant_turn t a (the_pool s) with
  | Some (x, p) => notify_all (System p (delete t (waiting s)) (granted s ++ [(t, x)]))
  | None =>
      if expired then notify_all (System (abandon t (the_pool s)) (delete t (waiting s)) (granted s))
      else System (the_pool s) (<[t := (a, false)]> (waiting s)) (granted s)
  end.

Inductive event :=
  | Acquire (a : A) (expired : bool)
  | Wake (t : Z) (expired : bool)      (** notified, out of time, or for no reason *)
  | Release (x : L).

Definition step (e : event) (s : system) : system :=
  match e with
  | Acquire a expired =>
      if valid a (resource (the_pool s)) then
        let q := queue (the_pool s) in
        turn (next_ticket q) a expired (System (Pool (take_ticket q) (resource (the_pool s))) (waiting s) (granted s))
      else s
  | Wake t expired => match waiting s !! t with Some (a, _) => turn t a expired s | None => s end
  | Release x => match release x (the_pool s) with Ok p => notify_all (System p (waiting s) (granted s)) | Raise _ => s end
  end.
Definition run (r : R) (l : list event) : system := foldl (λ s e, step e s) (System (Pool line_init r) ∅ []) l.
End pool.
Arguments system : clear implicits.
Arguments pool : clear implicits.
Arguments event : clear implicits.

(** ** The line of tickets *)

(** The tickets from the one served on are those of callers in their wait and the
    cancelled ones, and the one served is not cancelled. *)
Definition covers (w : gset Z) (l : line) : Prop :=
  w ## cancelled l ∧ serving l <= next_ticket l ∧ ∀ t, serving l <= t < next_ticket l ↔ t ∈ w ∪ cancelled l.
Definition line_ok (w : gset Z) (l : line) : Prop := covers w l ∧ serving l ∉ cancelled l.

Lemma line_advance_ok w n l : covers w l → (size (cancelled l) <= n)%nat →
  line_ok w (advance n l) ∧ next_ticket (advance n l) = next_ticket l ∧ serving l <= serving (advance n l).
Proof.
  revert l. induction n as [|n IH]; intros [nx sv c] (Hd & Hle & Hi) Hn; cbn [advance next_ticket serving cancelled] in *.
  { split_and!; [|done|lia]. split; [done|]. cbn. assert (size c = 0%nat) as Hc by lia. apply size_empty_inv in Hc. set_solver. }
  destruct (decide (sv ∈ c)) as [Hin|]; [|by split_and!; [split|..]].
  assert (sv < nx) as Hsv by (assert (sv <= sv < nx) by (apply Hi; set_solver); lia).
  destruct (IH (Line nx (sv + 1) (c ∖ {[sv]}))) as (Hok & Hnx & Hsv'); cbn [next_ticket serving cancelled] in *.
  - split_and!; cbn; [set_solver|lia|]. intros t. split.
    + intros Ht. assert (t ∈ w ∪ c) by (apply Hi; lia). assert (t ≠ sv) by lia. set_solver.
    + intros Ht. assert (sv <= t < nx) by (apply Hi; set_solver). destruct (decide (t = sv)) as [->|]; [set_solver|lia].
  - rewrite size_difference by set_solver. rewrite size_singleton. lia.
  - split_and!; [done..|lia].
Qed.

Lemma take_ticket_ok w l : line_ok w l → line_ok ({[next_ticket l]} ∪ w) (take_ticket l).
Proof.
  intros [(Hd & Hle & Hi) Hs]. assert (next_ticket l ∉ w ∪ cancelled l) as Hn by (rewrite <- Hi; lia).
  split; [|done]. split_and!; cbn; [set_solver|lia|]. intros t. destruct (decide (t = next_ticket l)) as [->|]; [set_solver by lia|].
  assert (t ∈ {[next_ticket l]} ∪ w ∪ cancelled l ↔ t ∈ w ∪ cancelled l) as -> by set_solver. rewrite <- Hi. lia.
Qed.
Lemma served_ok w l : line_ok w l → serving l ∈ w → line_ok (w ∖ {[serving l]}) (served l) ∧ serving l < serving (served l).
Proof.
  intros [(Hd & Hle & Hi) Hs] Hw. assert (serving l < next_ticket l) by (assert (serving l <= serving l < next_ticket l) by (apply Hi; set_solver); lia).
  unfold served, advance_cancelled. set (l' := Line _ _ _).
  destruct (line_advance_ok (w ∖ {[serving l]}) (size (cancelled l')) l') as (Hok & _ & Hlt); [|done|change (serving l') with (serving l + 1) in Hlt; split; [done|lia]].
  split_and!; cbn; [set_solver|lia|]. intros t. destruct (decide (t = serving l)) as [->|]; [split; [lia|set_solver]|].
  assert (t ∈ w ∖ {[serving l]} ∪ cancelled l ↔ t ∈ w ∪ cancelled l) as -> by set_solver. rewrite <- Hi. lia.
Qed.
Lemma cancel_ok w t l : line_ok w l → t ∈ w → line_ok (w ∖ {[t]}) (cancel t l) ∧ serving l <= serving (cancel t l).
Proof.
  intros [(Hd & Hle & Hi) Hs] Hw. unfold cancel, advance_cancelled. set (l' := Line _ _ _).
  destruct (line_advance_ok (w ∖ {[t]}) (size (cancelled l')) l') as (Hok & _ & Hlt); [|done|done].
  split_and!; cbn; [set_solver|lia|]. intros u. rewrite Hi. destruct (decide (u = t)) as [->|]; set_solver.
Qed.

(** ** What every run keeps *)

Section runs.
Context {R A L : Type} `{!Resource R A L} (conserved : R → Prop) `{!ResourceLaws R A L conserved}.
Notation system := (system R A L).
Notation rsc s := (resource (the_pool s)).

Definition requests_ok (s : system) : Prop := map_Forall (λ _ '(a, _), valid a (rsc s) = true) (waiting s).
Definition granted_ok (s : system) : Prop :=
  StronglySorted Z.lt (granted s).*1 ∧ Forall (λ t, t < serving (queue (the_pool s))) (granted s).*1.
(** The caller that is next is awake if it can be admitted. *)
Definition head_awake (s : system) : Prop :=
  ∀ a, waiting s !! serving (queue (the_pool s)) = Some (a, false) → take a (rsc s) = None.
Record system_ok (s : system) : Prop := SystemOk {
  ok_resource : conserved (rsc s);
  ok_line : line_ok (dom (waiting s)) (queue (the_pool s));
  ok_requests : requests_ok s;
  ok_granted : granted_ok s;
  ok_head : head_awake s;
}.

Lemma waiting_notified (s : system) : dom (waiting (notify_all s)) = dom (waiting s).
Proof. destruct s. cbn. apply dom_fmap_L. Qed.
Lemma notified_ok (s : system) : conserved (rsc s) → line_ok (dom (waiting s)) (queue (the_pool s)) → requests_ok s → granted_ok s → system_ok (notify_all s).
Proof.
  intros Hc Hl Hr Hg. split; [done|by rewrite waiting_notified| |done|].
  - intros t [a b] Ht. cbn in Ht. apply lookup_fmap_Some in Ht as ([a' b'] & [= -> <-] & Ht). exact (Hr t _ Ht).
  - intros a Ha. cbn in Ha. by apply lookup_fmap_Some in Ha as ([a' b'] & [= -> <-] & _).
Qed.

Lemma granted_later q (l : list (Z * L)) t x : StronglySorted Z.lt l.*1 → Forall (λ t, t < q) l.*1 → q <= t →
  StronglySorted Z.lt (l ++ [(t, x)]).*1.
Proof.
  intros Hs Hf Ht. rewrite fmap_app. apply StronglySorted_app. split_and!; [|done|by repeat constructor].
  intros u v Hu Hv. cbn in Hv. apply list_elem_of_singleton in Hv as ->. pose proof (proj1 (Forall_forall _ _) Hf u Hu). cbn in *. lia.
Qed.

Lemma turn_ok t a expired (s : system) : conserved (rsc s) → line_ok ({[t]} ∪ dom (waiting s)) (queue (the_pool s)) →
  requests_ok s → valid a (rsc s) = true → granted_ok s → (∀ u b, u ≠ t → u = serving (queue (the_pool s)) → waiting s !! u = Some (b, false) → take b (rsc s) = None) →
  system_ok (turn t a expired s).
Proof.
  intros Hc Hl Hr Hv [Hg1 Hg2] Hh. unfold turn, grant_turn.
  assert (({[t]} ∪ dom (waiting s)) ∖ {[t]} = dom (delete t (waiting s))) as Hdom by (rewrite dom_delete_L; set_solver).
  assert (∀ r, (∀ b, valid b r = valid b (rsc s)) → ∀ q g, requests_ok (System (Pool q r) (delete t (waiting s)) g)) as Hreq.
  { intros r Hr' q g u [b c] Hu. cbn in *. apply lookup_delete_Some in Hu as [_ Hu]. rewrite Hr'. exact (Hr u _ Hu). }
  destruct (decide (t = serving _)) as [->|Hne]; [destruct (take a _) as [[x r]|] eqn:Et|]; cbn.
  { destruct (take_conserves (conserved := conserved) a _ x r Hc Hv Et) as [Hc' Hv'].
    destruct (served_ok _ _ Hl) as [Hl' Hlt]; [set_solver|]. rewrite Hdom in Hl'. apply notified_ok; [done|done|by apply Hreq|].
    split; cbn; [by eapply granted_later|]. rewrite fmap_app. apply Forall_app. split; [eapply Forall_impl; [done|]; cbn; lia|by repeat constructor]. }
  all: destruct expired; cbn.
  1, 3: match goal with |- context[abandon ?u _] => destruct (cancel_ok _ u _ Hl) as [Hl' Hle]; [set_solver|] end; rewrite Hdom in Hl';
    apply notified_ok; [done|done|by apply Hreq|]; split; cbn; [done|eapply Forall_impl; [done|]; cbn; lia].
  - split; [done|cbn; by rewrite dom_insert_L| |done|].
    + intros u [b c] Hu. cbn in Hu. apply lookup_insert_Some in Hu as [[<- [= <- <-]]|[_ Hu]]; [done|exact (Hr u _ Hu)].
    + intros b Hb. cbn in *. rewrite lookup_insert_eq in Hb. by simplify_eq.
  - split; [done|cbn; by rewrite dom_insert_L| |done|].
    + intros u [b c] Hu. cbn in Hu. apply lookup_insert_Some in Hu as [[<- [= <- <-]]|[_ Hu]]; [done|exact (Hr u _ Hu)].
    + intros b Hb. cbn in *. rewrite lookup_insert_ne in Hb by done. by eapply Hh.
Qed.

Lemma pool_step_ok e (s : system) : system_ok s → system_ok (step e s).
Proof.
  intros [Hc Hl Hr Hg Hh]. destruct e as [a expired|t expired|x]; cbn.
  - destruct (valid a _) eqn:Hv; [|done]. apply turn_ok; [done|cbn; by apply take_ticket_ok|done|done|done|].
    intros u b _ -> Hu. by apply Hh.
  - destruct (waiting s !! t) as [[a b]|] eqn:Et; [|done]. apply turn_ok; [done| |done|exact (Hr t _ Et)|done|].
    + assert ({[t]} ∪ dom (waiting s) = dom (waiting s)) as -> by (apply elem_of_dom_2 in Et; set_solver). done.
    + intros u c _ -> Hu. by apply Hh.
  - unfold release. destruct (give x _) as [r|e] eqn:Eg; cbn; [|done].
    destruct (give_conserves (conserved := conserved) x _ r Hc Eg) as [Hc' Hv']. apply notified_ok; [done|done| |done].
    intros u [b c] Hu. cbn. rewrite Hv'. exact (Hr u _ Hu).
Qed.

Lemma pool_run_ok r l : conserved r → system_ok (run r l).
Proof.
  intros Hr. unfold run. assert (system_ok (System (Pool line_init r) ∅ [])) as H0.
  { split; [done| |done|by split; constructor|done]. split; [|set_solver]. split_and!; cbn; [set_solver|lia|]. intros t. rewrite dom_empty_L. set_solver by lia. }
  revert H0. generalize (System (Pool line_init r) ∅ [] : system). induction l as [|e l IH]; intros s Hs; [done|]. by apply IH, pool_step_ok.
Qed.

(** C16: the pools are first come, first served, and never sleep on work.  In every
    run of acquisitions, wake-ups, timeouts and releases, requests are granted in
    the order of their tickets; while anyone waits, the ticket being served belongs
    to a waiting caller, so no cancelled ticket blocks the line; that caller is awake
    or cannot be admitted yet, and its next turn admits it once it can be. *)
Theorem fair_admission (r : R) (l : list (event A L)) (Hr : conserved r) :
  let s := run r l in
  StronglySorted Z.lt (granted s).*1 ∧ conserved (rsc s) ∧
  (waiting s ≠ ∅ → ∃ a awake, waiting s !! serving (queue (the_pool s)) = Some (a, awake) ∧
     (∀ t, t ∈ dom (waiting s) → serving (queue (the_pool s)) <= t) ∧
     (awake = true ∨ take a (rsc s) = None) ∧
     ∀ x r' expired, take a (rsc s) = Some (x, r') →
       granted (step (Wake (serving (queue (the_pool s))) expired) s) = granted s ++ [(serving (queue (the_pool s)), x)]).
Proof.
  cbv zeta. destruct (pool_run_ok r l Hr) as [Hc [(Hd & Hle & Hi) Hs] Hq [Hg _] Hh]. set (s := run r l) in *.
  split_and!; [done..|]. intros Hw. assert (∃ u, u ∈ dom (waiting s)) as [u Hu].
  { apply set_choose_L. intros He%dom_empty_iff_L. done. }
  assert (serving (queue (the_pool s)) <= u < next_ticket (queue (the_pool s))) as Hu' by (apply Hi; set_solver).
  assert (serving (queue (the_pool s)) ∈ dom (waiting s)) as Hin.
  { assert (serving (queue (the_pool s)) ∈ dom (waiting s) ∪ cancelled (queue (the_pool s))) by (apply Hi; lia). set_solver. }
  apply elem_of_dom in Hin as [[a b] Ha]. exists a, b. split_and!; [done| |destruct b; [by left|right; by apply Hh]|].
  - intros t Ht. assert (serving (queue (the_pool s)) <= t < next_ticket (queue (the_pool s))) by (apply Hi; set_solver). lia.
  - intros x r' expired Ht. cbn. rewrite Ha. unfold turn, grant_turn. by rewrite decide_True, Ht by done.
Qed.
End runs.

(** ** The three pools *)

#[export] Instance semaphore_laws : ResourceLaws semaphore unit unit semaphore_ok.
Proof.
  split.
  - intros [] s x r [H1 H2] _. cbn. destruct (Z.leb_spec (sem_available s) 0); [done|]. intros [= _ <-]. split; [split; cbn; lia|done].
  - intros [] s s' [H1 H2]. cbn. destruct (Z.leb_spec (sem_capacity s) (sem_available s)); [done|]. intros [= <-]. split; [split; cbn; lia|done].
Qed.

#[export] Instance weighted_laws : ResourceLaws weighted Z Z weighted_ok.
Proof.
  split.
  - intros a w x r (H1 & H2 & H3) Hv. cbn in *. apply andb_prop in Hv as [Ha _]. apply Z.ltb_lt in Ha.
    destruct (Z.ltb_spec (w_available w) a); [done|]. intros [= <- <-]. split; [|done].
    assert (w_leased w !! next_lease w = None) as Hn.
    { destruct (w_leased w !! next_lease w) eqn:E; [|done]. apply H3 in E as [? _]. lia. }
    split_and!; cbn; [lia|rewrite msum_insert_new by done; lia|]. apply map_Forall_insert; [done|]. split; [lia|].
    eapply map_Forall_impl; [done|]. cbn. intros. lia.
  - intros x w w' (H1 & H2 & H3). cbn. destruct (w_leased w !! x) as [a|] eqn:E; [|done]. intros [= <-]. split; [|done].
    destruct (H3 x a E) as [Hx Ha]. rewrite (msum_delete _ _ _ _ E) in H2.
    split_and!; cbn; [lia|lia|]. by apply map_Forall_delete.
Qed.

Lemma filter_iff_in {X} (P Q : X → Prop) `{∀ x, Decision (P x), ∀ x, Decision (Q x)} (l : list X) :
  (∀ x, x ∈ l → P x ↔ Q x) → filter P l = filter Q l.
Proof.
  induction l as [|x l IH]; intros H1; [done|]. rewrite !filter_cons, IH by (intros y Hy; apply H1; by right).
  assert (P x ↔ Q x) by (apply H1; left). destruct (decide (P x)), (decide (Q x)); tauto.
Qed.
Lemma filter_tail {X} `{EqDecision X} (P : X → Prop) `{∀ x, Decision (P x)} (l : list X) x r :
  NoDup l → filter P l = x :: r → r = filter (λ y, P y ∧ y ≠ x) l ∧ x ∈ l ∧ P x.
Proof.
  intros Hd Hf. assert (x ∈ filter P l) as Hx by (rewrite Hf; left). apply list_elem_of_filter in Hx as [Hp Hx]. split_and!; [|done..].
  assert (filter (λ y, P y ∧ y ≠ x) l = filter (λ y, y ≠ x) (filter P l)) as ->.
  { rewrite list_filter_filter. apply list_filter_iff. intros y. tauto. }
  apply (NoDup_filter P) in Hd. rewrite Hf in Hd |- *. apply NoDup_cons in Hd as [Hn Hd].
  rewrite filter_cons_False by tauto. symmetry. apply filter_all. apply Forall_forall. intros y Hy ->. done.
Qed.

#[export] Instance resources_laws {X} `{EqDecision X} : ResourceLaws (resources X) unit X resources_ok.
Proof.
  split.
  - intros [] r x r' (H1 & H2 & H3 & H4) _. cbn. destruct (available r) as [|y l] eqn:E; [done|]. intros [= <- <-]. split; [|done].
    destruct (filter_tail _ _ _ _ H1 (eq_sym H4)) as (Hl & Hy & Hn). split_and!; cbn; [done|by constructor| |].
    + intros z [->|Hz]%elem_of_cons; [done|by apply H3].
    + rewrite Hl. apply list_filter_iff. intros z. rewrite elem_of_cons. tauto.
  - intros x r r' (H1 & H2 & H3 & H4). cbn. destruct (decide _) as [Hx|]; [|done]. intros [= <-]. split; [|done].
    split_and!; cbn; [done|by apply NoDup_filter|intros z [_ Hz]%list_elem_of_filter; by apply H3|].
    unfold put_back. apply filter_iff_in. intros z Hz. rewrite elem_of_cons, list_elem_of_filter, H4, list_elem_of_filter.
    destruct (decide (z = x)); naive_solver.
Qed.

(** A heavy request at the head of the line holds back a light one behind it. *)
Definition demo : list (event Z Z) := [Acquire 6 false; Acquire 6 false; Acquire 2 false; Wake 2 false; Acquire 3 true].
Lemma fair_admission_witness : let s := run (Weighted 10 10 ∅ 0) demo in
  granted s = [(0, 0)] ∧ weighted_ok (resource (the_pool s)) ∧ dom (waiting s) = {[1; 2]} ∧
  granted (step (Wake 1 false) (step (Release 0) s)) = [(0, 0); (1, 1)].
Proof.
  assert (weighted_ok (Weighted 10 10 ∅ 0)) as H0 by (split_and!; [done|done|apply map_Forall_empty]).
  destruct (fair_admission weighted_ok (Weighted 10 10 ∅ 0) demo H0) as (_ & Hc & _).
  split_and!; [vm_compute; reflexivity|exact Hc|vm_compute; reflexivity|vm_compute; reflexivity].
Defined.
(** The resources come back in their order. *)
Example resources_in_order : let s := run (Resources ["a"; "b"; "c"] ["a"; "b"; "c"] []) [Acquire tt false; Acquire tt false; Release "a"; Acquire tt false; Release "b"] in
  granted s = [(0, "a"); (1, "b"); (2, "a")] ∧ available (resource (the_pool s)) = ["b"; "c"].
Proof. split_and!; vm_compute; reflexivity. Qed.
