(* ===== verification/MemoryAdmission.v ===== *)
(** * Memory admission of the replay runner (src/clawbox/replay/lifecycle.py)

    [FeedbackMemoryAdmission] admits predicted growth against the measured resident
    memory, first come, first served; [AtomicMemoryAdmission] admits increments of
    two pools together, by priority.  The measurements are readings that may raise;
    a loop of [acquire] runs block by block between its waits. *)
From S2P Require Import Prelude Dict Ordering FairPools.

(** ** Live resident memory plus future growth *)

Module Feedback.
Record config := Config { budget : Z; headroom : Z }.
Definition check_config (budget headroom : Z) (poll : Q) : outcome config :=
  if budget <=? 0 then Raise (ValueError "memory admission budget must be positive")
  else if (headroom <? 0) || (budget <=? headroom) then Raise (ValueError "memory safety headroom must be non-negative and below budget")
  else if Qle_bool poll 0 then Raise (ValueError "memory admission poll interval must be positive")
  else Ok (Config budget headroom).

Record lease := Lease { predicted : Z; at_admit : Z; realized : Z; unrealized : Z; exceeded : bool }.
Record admission := Admission {
  queue : line; leases : dict Z lease; next_lease : Z;
  last_resident : Z; peak_resident : Z; peak_charge : Z; over_budget : Z; exceeded_leases : Z;
}.
Definition admission_init : admission := Admission line_init ∅ 0 0 0 0 0 0.
Record status := Status { st_resident : Z; st_outstanding : Z; st_charge : Z; st_remaining : Z }.
(** What the callbacks answer: the whole memory, and the one a lease measures. *)
Record readings := Readings { resident : outcome Z; resident_of : Z → outcome Z }.

Section admission.
Context (c : config).

Definition outstanding (s : admission) : Z := dsum (λ _ l, unrealized l) (leases s).
Definition charge_of (r : Z) (s : admission) : Z := r + outstanding s + headroom c.
(** [_status_locked] *)
Definition status_of (r : Z) (s : admission) : status :=
  Status r (outstanding s) (charge_of r s) (Z.max 0 (budget c - charge_of r s)).

Definition refreshed (r : Z) (l : lease) : lease :=
  let realized := Z.max 0 (Z.max 0 r - at_admit l) in
  Lease (predicted l) (at_admit l) realized (Z.max 0 (predicted l - realized)) (exceeded l || (predicted l <? realized)).
Definition refresh (rd : readings) (k : Z) : M admission unit :=
  r ← lift (resident_of rd k);
  modify (λ s, match leases s !! k with
    | Some l => Admission (queue s) (<[k := refreshed r l]> (leases s)) (next_lease s) (last_resident s) (peak_resident s) (peak_charge s) (over_budget s)
                  (exceeded_leases s + if exceeded (refreshed r l) && negb (exceeded l) then 1 else 0)
    | None => s
    end).
(** [_read_locked] *)
Definition read_locked (rd : readings) (measured : option Z) : M admission Z :=
  r ← lift (match measured with Some b => Ok b | None => resident rd end);
  let r := Z.max 0 r in
  modify (λ s, Admission (queue s) (leases s) (next_lease s) r (Z.max (peak_resident s) r) (peak_charge s) (over_budget s) (exceeded_leases s)) ;;
  s ← get;
  for_each (keys (leases s)) (refresh rd) ;;
  modify (λ s, Admission (queue s) (leases s) (next_lease s) (last_resident s) (peak_resident s) (Z.max (peak_charge s) (charge_of r s))
                 (over_budget s + if budget c <? charge_of r s then 1 else 0) (exceeded_leases s)) ;;
  mret r.

Definition set_queue (q : line) (s : admission) : admission :=
  Admission q (leases s) (next_lease s) (last_resident s) (peak_resident s) (peak_charge s) (over_budget s) (exceeded_leases s).
(** [acquire]: the ticket, *)
Definition enter (increment : Z) : M admission Z :=
  raise_if (increment <=? 0) (ValueError "predicted incremental memory must be positive") ;;
  s ← get; modify (set_queue (take_ticket (queue s))) ;; mret (next_ticket (queue s)).
(** a turn of the loop, *)
Definition turn (t increment : Z) (rd : readings) : M admission (option (Z * status)) :=
  r ← read_locked rd None;
  s ← get;
  if bool_decide (t = serving (queue s)) && (st_charge (status_of r s) + increment <=? budget c) then
    let k := next_lease s in
    modify (λ s, Admission (queue s) (leases s) (k + 1) (last_resident s) (peak_resident s) (peak_charge s) (over_budget s) (exceeded_leases s)) ;;
    own ← lift (resident_of rd k);
    modify (λ s, Admission (served (queue s)) (<[k := Lease increment (Z.max 0 own) 0 increment false]> (leases s)) (next_lease s)
                   (last_resident s) (peak_resident s) (peak_charge s) (over_budget s) (exceeded_leases s)) ;;
    s ← get; mret (Some (k, status_of r s))
  else mret None.
(** and its end without a lease. *)
Definition abandon (t : Z) : M admission unit := modify (λ s, set_queue (cancel t (queue s)) s).

(** [release], [observe] *)
Definition release (k : Z) (rd : readings) : M admission status :=
  r ← read_locked rd None;
  s ← get;
  raise_if (negb (bool_decide (is_Some (leases s !! k)))) (ValueError "memory admission lease is unknown") ;;
  modify (λ s, Admission (queue s) (delete k (leases s)) (next_lease s) (last_resident s) (peak_resident s) (peak_charge s) (over_budget s) (exceeded_leases s)) ;;
  s ← get; mret (status_of r s).
Definition observe (measured : option Z) (rd : readings) : M admission status :=
  r ← read_locked rd measured; s ← get; mret (status_of r s).
(** [metrics]: the growth that was both predicted and realized. *)
Definition realized_predicted (s : admission) : Z := dsum (λ _ l, Z.min (realized l) (predicted l)) (leases s).
End admission.

(** ** Its invariant *)

Definition lease_ok (k : Z) (l : lease) : Prop :=
  0 < predicted l ∧ 0 <= realized l ∧ unrealized l = Z.max 0 (predicted l - realized l) ∧ (predicted l < realized l → exceeded l = true).
Definition admission_ok (s : admission) : Prop :=
  dict_all lease_ok (leases s) ∧ ∀ k, k ∈ keys (leases s) → k < next_lease s.

Lemma refreshed_ok k r l : lease_ok k l → lease_ok k (refreshed r l).
Proof.
  intros (H1 & H2 & H3 & H4). split_and!; cbn; [done|lia|done|]. intros Hr. apply orb_true_iff. right. by apply Z.ltb_lt.
Qed.

(** What a reading of all leases does. *)
Definition reread (rd : readings) (ks : list Z) (d d' : dict Z lease) : Prop :=
  keys d' = keys d ∧ ∀ k, match d !! k with
    | Some l => ∃ v, d' !! k = Some (if decide (k ∈ ks) then refreshed v l else l) ∧ (k ∈ ks → resident_of rd k = Ok v)
    | None => d' !! k = None
    end.

Lemma reread_skip rd k ks j (l : lease) (d' : dict Z lease) : j ≠ k →
  (∃ v, d' !! j = Some (if decide (j ∈ ks) then refreshed v l else l) ∧ (j ∈ ks → resident_of rd j = Ok v)) →
  ∃ v, d' !! j = Some (if decide (j ∈ k :: ks) then refreshed v l else l) ∧ (j ∈ k :: ks → resident_of rd j = Ok v).
Proof.
  intros Hj (v & -> & Hv). exists v. destruct (decide (j ∈ ks)), (decide (j ∈ k :: ks)); rewrite ?elem_of_cons in *; split; try done; try tauto.
Qed.

Lemma refresh_all rd ks s u s' : NoDup ks → for_each ks (refresh rd) s = (Ok u, s') →
  queue s' = queue s ∧ next_lease s' = next_lease s ∧ reread rd ks (leases s) (leases s').
Proof.
  revert s. induction ks as [|k ks IH]; intros s Hd Hrun.
  { injection Hrun as <- <-. split_and!; [done..|]. split; [done|]. intros k. destruct (leases s !! k) eqn:E; [|done].
    exists 0. rewrite decide_False by (intros H; by apply elem_of_nil in H). split; [done|]. intros H. by apply elem_of_nil in H. }
  apply NoDup_cons in Hd as [Hk Hd]. cbn [for_each] in Hrun. apply bind_ok_inv in Hrun as ([] & s1 & H1 & H2).
  unfold refresh in H1. rewrite bind_lift in H1. destruct (resident_of rd k) as [r|] eqn:Er; [|done]. injection H1 as H1.
  apply (IH s1 Hd) in H2 as (Hq & Hn & Hkeys & Hall). subst s1.
  destruct (leases s !! k) as [l|] eqn:E; cbn [queue next_lease leases] in *.
  2:{ split_and!; [done..|]. split; [done|]. intros j. specialize (Hall j). destruct (leases s !! j) eqn:Ej; [|done].
      apply (reread_skip rd k ks); [congruence|done]. }
  split_and!; [done..|]. split; [rewrite Hkeys, keys_insert; by rewrite decide_True by (apply dict_lookup_key; eauto)|].
  intros j. specialize (Hall j). destruct (decide (j = k)) as [->|Hne].
  - rewrite dict_lookup_insert_eq in Hall. rewrite E. destruct Hall as (v & -> & _). exists r. rewrite decide_False by done. rewrite decide_True by left. done.
  - rewrite dict_lookup_insert_ne in Hall by done. destruct (leases s !! j); [|done]. by apply (reread_skip rd k ks).
Qed.

Lemma read_spec c rd m s r s' : dict_ok (leases s) → read_locked c rd m s = (Ok r, s') →
  queue s' = queue s ∧ next_lease s' = next_lease s ∧ 0 <= r ∧ reread rd (keys (leases s)) (leases s) (leases s').
Proof.
  intros Hd. unfold read_locked. rewrite bind_lift. destruct (match m with Some b => Ok b | None => resident rd end) as [v|]; [|done].
  cbv zeta. intros (u & s1 & H1 & H)%bind_ok_inv. injection H1 as _ <-. rewrite bind_get in H. cbn [leases] in H.
  apply bind_ok_inv in H as (u' & s2 & H2 & H). apply refresh_all in H2 as (Hq & Hn & Hr); [|done].
  injection H as <- <-. cbn in *. split_and!; [done..|lia|done].
Qed.

Lemma reread_ok rd d d' : dict_all lease_ok d → reread rd (keys d) d d' → dict_all lease_ok d'.
Proof.
  intros [Hd Hall] [Hk Hr]. split; [unfold dict_ok; by rewrite Hk|]. intros k l' Hl. specialize (Hr k).
  destruct (d !! k) as [l|] eqn:E; [|congruence]. destruct Hr as (v & E' & _). rewrite decide_True in E' by (apply dict_lookup_key; eauto).
  assert (l' = refreshed v l) as -> by congruence. apply refreshed_ok. by apply Hall.
Qed.

(** Growth is admitted within the budget.  When a turn grants a lease, its
    ticket is the one being served, and what was measured in that turn, plus the
    growth of every lease that has not shown up in its own measurement yet, plus the
    new lease in full, plus the headroom, is within the budget. *)
Theorem admitted_within_budget (c : config) (t increment : Z) (rd : readings) (s s' : admission) (k : Z) (st : status)
    (Hok : admission_ok s) (Hinc : 0 < increment) (Hrun : turn c t increment rd s = (Ok (Some (k, st)), s')) :
  t = serving (queue s) ∧ admission_ok s' ∧ st_charge st <= budget c ∧
  (∃ v, resident rd = Ok v ∧ st_charge st = Z.max 0 v + dsum (λ _ l, unrealized l) (leases s') + headroom c) ∧
  unrealized <$> leases s' !! k = Some increment ∧
  ∀ j l, leases s !! j = Some l → ∃ v, resident_of rd j = Ok v ∧ leases s' !! j = Some (refreshed v l).
Proof.
  destruct Hok as [[Hd Hall] Hk]. unfold turn in Hrun. apply bind_ok_inv in Hrun as (r & s1 & Hr & H).
  assert (∃ v, resident rd = Ok v ∧ r = Z.max 0 v) as (v & Hv & ->).
  { unfold read_locked in Hr. rewrite bind_lift in Hr. destruct (resident rd) as [v|]; [|done]. exists v. split; [done|]. cbv zeta in Hr.
    apply bind_ok_inv in Hr as (? & ? & _ & Hr). apply bind_ok_inv in Hr as (? & ? & _ & Hr). apply bind_ok_inv in Hr as (? & ? & _ & Hr).
    apply bind_ok_inv in Hr as (? & ? & _ & Hr). by injection Hr. }
  apply read_spec in Hr as (Hq & Hn & _ & Hre); [|done]. rewrite bind_get in H.
  destruct (bool_decide _ && _) eqn:Eb; [|done]. apply andb_prop in Eb as [Et%bool_decide_eq_true Eb%Z.leb_le].
  cbv zeta in H. apply bind_ok_inv in H as (? & s2 & Hs2 & H). injection Hs2 as _ <-. cbn [st_charge status_of] in *.
  rewrite bind_lift in H. destruct (resident_of rd (next_lease s1)) as [own|]; [|done].
  apply bind_ok_inv in H as (? & s3 & Hs3 & H). injection Hs3 as _ <-. rewrite bind_get in H. injection H as <- <- <-. cbn [leases queue next_lease] in *.
  assert (leases s1 !! next_lease s1 = None) as Hfresh.
  { apply dict_lookup_none. rewrite (proj1 Hre), Hn. intros Hin. apply Hk in Hin. lia. }
  set (d := <[next_lease s1 := _]> _). assert (dsum (λ _ l, unrealized l) d = outstanding s1 + increment) as Hsum by (unfold d; by rewrite dsum_insert_new).
  split_and!.
  - congruence.
  - split; [change (dict_all lease_ok d); apply dict_all_insert; [by eapply reread_ok|]; split_and!; cbn; lia|].
    change (∀ j, j ∈ keys d → j < next_lease s1 + 1). intros j. unfold d. rewrite keys_insert, decide_False by (by apply dict_lookup_none).
    rewrite elem_of_app, list_elem_of_singleton, (proj1 Hre), Hn. intros [Hj| ->]; [apply Hk in Hj|]; lia.
  - unfold status_of, charge_of, outstanding in *. cbn [leases st_charge]. rewrite Hsum. lia.
  - exists v. split; [done|]. done.
  - unfold d. by rewrite dict_lookup_insert_eq.
  - intros j l Hj. pose proof (proj2 Hre j) as Hj'. rewrite Hj in Hj'. destruct Hj' as (w & Ew & Hw). exists w.
    assert (j ∈ keys (leases s)) as Hin by (apply dict_lookup_key; eauto). split; [by apply Hw|]. rewrite decide_True in Ew by done.
    unfold d. rewrite dict_lookup_insert_ne; [done|]. rewrite Hn. apply Hk in Hin. lia.
Qed.

Definition c : config := Config 100 10.
Definition steady : readings := Readings (Ok 40) (λ _, Ok 25).
(** One lease of 30 bytes, of which 5 have shown up. *)
Definition one : admission := Admission (Line 1 0 ∅) [(0, Lease 30 20 0 30 false)] 1 0 0 0 0 0.
Lemma admitted_within_budget_witness : ∃ st s', turn c 0 25 steady one = (Ok (Some (1, st)), s') ∧ st_charge st = 100 ∧ admission_ok s'.
Proof.
  assert (admission_ok one) as H0.
  { split; [split; [apply NoDup_singleton|]|intros k ->%list_elem_of_singleton; done]. intros k l Hl.
    apply dict_lookup_elem in Hl. apply list_elem_of_singleton in Hl as [= -> ->]. split_and!; cbn; lia. }
  destruct (turn c 0 25 steady one) as [o s'] eqn:E. assert (o = Ok (Some (1, Status 40 50 100 0))) as -> by (by injection E).
  destruct (admitted_within_budget c 0 25 steady one s' 1 _ H0 ltac:(lia) E) as (_ & Hok & _). exists (Status 40 50 100 0), s'. split_and!; [done|done|exact Hok].
Defined.

(** A measurement that raises leaves its ticket neither waiting nor cancelled:
    nobody behind it is admitted any more, however much room there is. *)
Example failed_reading_blocks_line :
  let broken := Readings (Raise (OSError "ENOENT")) (λ _, Ok 0) in
  let s1 := (enter 10 admission_init).2 in
  let s2 := turn c 0 10 broken s1 in
  let s3 := enter 10 s2.2 in
  is_ok s2.1 = false ∧ s3.1 = Ok 1 ∧ (turn c 1 10 (Readings (Ok 0) (λ _, Ok 0)) s3.2).1 = Ok None.
Proof. split_and!; vm_compute; reflexivity. Qed.
End Feedback.

(** ** Two pools at once *)

Module Atomic.
(** A pool's limits: normal work stays below [high] with its headroom, checkpoints
    and restores below [hard] with theirs. *)
Record limits := Limits { high : Z; hard : Z; headroom : Z; emergency : Z }.
Record config := Config { parent : limits; tool : limits }.
Definition check_limits (l : limits) : outcome unit :=
  if negb ((0 <? high l) && (high l <? hard l)) then Raise (ValueError "memory limits must satisfy 0 < high < hard")
  else if negb ((0 <=? headroom l) && (headroom l <? high l)) then Raise (ValueError "normal headroom is invalid")
  else if negb ((0 <=? emergency l) && (emergency l <? hard l)) then Raise (ValueError "emergency headroom is invalid")
  else Ok tt.

Inductive request_class := Restore | Checkpoint | Continuation | Lifetime | Boot.
#[export] Instance request_class_eq_dec : EqDecision request_class.
Proof. solve_decision. Defined.
Definition priority (r : request_class) : Z := match r with Restore => 0 | Checkpoint => 1 | Continuation => 2 | Lifetime => 3 | Boot => 4 end.
Definition is_emergency (r : request_class) : bool := match r with Restore | Checkpoint => true | _ => false end.

(** Where a waiter is: in its turn, asleep until it is notified, or asleep for at
    most the polling interval. *)
Inductive place := Running | Asleep | Polling.
Record waiter := Waiter { w_class : request_class; w_parent : Z; w_tool : Z; w_place : place }.
(** What a lease grew by, in one pool. *)
Record growth := Growth { increment : Z; at_admit : Z; realized : Z; unrealized : Z; peak : Z }.
Record lease := Lease { l_ticket : Z; l_class : request_class; l_parent : growth; l_tool : growth }.
Record meter := Meter { peak_charge : Z; peak_resident : Z; over_high : Z; over_hard : Z }.
Record admission := Admission {
  next_ticket : Z; next_lease : Z; waiters : dict Z waiter; handoff : option Z; leases : dict Z lease;
  completed : list lease; timed_out : list Z; m_parent : meter; m_tool : meter;
}.
Definition admission_init : admission := Admission 0 0 ∅ None ∅ [] [] (Meter 0 0 0 0) (Meter 0 0 0 0).
Record status := Status { p_resident : Z; p_unrealized : Z; t_resident : Z; t_unrealized : Z }.
Definition p_charge (s : status) : Z := p_resident s + p_unrealized s.
Definition t_charge (s : status) : Z := t_resident s + t_unrealized s.
Record readings := Readings { r_parent : outcome Z; r_tool : outcome Z; of_parent : Z → outcome Z; of_tool : Z → outcome Z }.

Section admission.
Context (c : config).
Notation A := (M admission).

(** Assignments. *)
Definition set_waiters (w : dict Z waiter) (s : admission) : admission :=
  Admission (next_ticket s) (next_lease s) w (handoff s) (leases s) (completed s) (timed_out s) (m_parent s) (m_tool s).
Definition set_handoff (h : option Z) (s : admission) : admission :=
  Admission (next_ticket s) (next_lease s) (waiters s) h (leases s) (completed s) (timed_out s) (m_parent s) (m_tool s).
Definition set_leases (d : dict Z lease) (s : admission) : admission :=
  Admission (next_ticket s) (next_lease s) (waiters s) (handoff s) d (completed s) (timed_out s) (m_parent s) (m_tool s).
Definition set_counters (t l : Z) (s : admission) : admission :=
  Admission t l (waiters s) (handoff s) (leases s) (completed s) (timed_out s) (m_parent s) (m_tool s).
Definition set_logs (done : list lease) (late : list Z) (s : admission) : admission :=
  Admission (next_ticket s) (next_lease s) (waiters s) (handoff s) (leases s) done late (m_parent s) (m_tool s).
Definition set_meters (p t : meter) (s : admission) : admission :=
  Admission (next_ticket s) (next_lease s) (waiters s) (handoff s) (leases s) (completed s) (timed_out s) p t.

(** [_refresh_locked] *)
Definition grown (reading : Z) (g : growth) : growth :=
  let now := Z.max 0 (reading - at_admit g) in
  Growth (increment g) (at_admit g) now (Z.max 0 (increment g - now)) (Z.max (peak g) now).
Definition refresh (rd : readings) (k : Z) : A unit :=
  p ← lift (of_parent rd k);
  t ← lift (of_tool rd k);
  modify (λ s, match leases s !! k with
    | Some l => set_leases (<[k := Lease (l_ticket l) (l_class l) (grown p (l_parent l)) (grown t (l_tool l))]> (leases s)) s
    | None => s
    end).
Definition refresh_locked (rd : readings) : A (Z * Z) :=
  p ← lift (r_parent rd);
  t ← lift (r_tool rd);
  s ← get;
  for_each (keys (leases s)) (refresh rd) ;;
  mret (Z.max 0 p, Z.max 0 t).

Definition metered (l : limits) (resident charge : Z) (m : meter) : meter :=
  Meter (Z.max (peak_charge m) charge) (Z.max (peak_resident m) resident)
    (over_high m + if high l <? resident then 1 else 0) (over_hard m + if hard l <? resident then 1 else 0).
(** [_status_locked] *)
Definition status_locked (rd : readings) : A status :=
  '(p, t) ← refresh_locked rd;
  s ← get;
  let st := Status p (dsum (λ _ l, unrealized (l_parent l)) (leases s)) t (dsum (λ _ l, unrealized (l_tool l)) (leases s)) in
  modify (λ s, set_meters (metered (parent c) p (p_charge st) (m_parent s)) (metered (tool c) t (t_charge st) (m_tool s)) s) ;;
  mret st.

(** [_fits_locked] *)
Definition limit_of (r : request_class) (l : limits) : Z := if is_emergency r then hard l - emergency l else high l - headroom l.
Definition fits (st : status) (w : waiter) : bool :=
  (p_charge st + w_parent w <=? limit_of (w_class w) (parent c)) && (t_charge st + w_tool w <=? limit_of (w_class w) (tool c)).
(** The order of the waiters. *)
Definition by_priority (a b : Z * waiter) : comparison :=
  lex (priority (w_class a.2) ?= priority (w_class b.2)) (a.1 ?= b.1).
Definition ordered (s : admission) : list (Z * waiter) := sort_by by_priority (waiters s : list (Z * waiter)).
(** [_selected_waiter_locked] *)
Definition selected (st : status) (s : admission) : option Z :=
  match ordered s with
  | [] => None
  | first :: rest =>
      if fits st first.2 then Some first.1
      else fst <$> find (λ w, bool_decide (w_class w.2 = Checkpoint) && fits st w.2) rest
  end.

Definition live_handoff (s : admission) : option Z := match handoff s with Some t => if waiters s !! t then Some t else None | None => None end.
Definition notify (t : Z) (s : admission) : admission :=
  match waiters s !! t with
  | Some w => set_waiters (<[t := Waiter (w_class w) (w_parent w) (w_tool w) Running]> (waiters s)) s
  | None => s
  end.
(** [_wake_evaluator_locked] *)
Definition wake_evaluator : A unit :=
  modify (λ s, let s := set_handoff (live_handoff s) s in
    match live_handoff s with
    | Some t => notify t s
    | None => match min_by by_priority (waiters s : list (Z * waiter)) with Some (t, _) => notify t s | None => s end
    end).

(** [acquire]: the ticket *)
Definition enter (r : request_class) (p t : Z) : A Z :=
  raise_if ((p <? 0) || (t <? 0) || ((p =? 0) && (t =? 0))) (ValueError "at least one non-negative memory increment is required") ;;
  s ← get;
  modify (λ s, set_counters (next_ticket s + 1) (next_lease s) (set_waiters (<[next_ticket s := Waiter r p t Running]> (waiters s)) s)) ;;
  mret (next_ticket s).

(** A turn ends with a lease, without one, or asleep again. *)
Inductive verdict := Granted (k : Z) (st : status) | TimedOut | Waiting.
Definition sleep (t : Z) (p : place) (s : admission) : admission :=
  match waiters s !! t with
  | Some w => set_waiters (<[t := Waiter (w_class w) (w_parent w) (w_tool w) p]> (waiters s)) s
  | None => s
  end.
Definition drop_waiter (t : Z) (s : admission) : admission := set_waiters (delete t (waiters s)) s.
Definition forget_handoff (t : Z) (s : admission) : admission := if decide (handoff s = Some t) then set_handoff None s else s.
Definition timed_out_now (t : Z) : A verdict :=
  modify (λ s, set_logs (completed s) (timed_out s ++ [t]) (drop_waiter t s)) ;; modify (forget_handoff t) ;; wake_evaluator ;; mret TimedOut.

(** The lease of the selected waiter; [rd'] is what is read after it. *)
Definition grant (t : Z) (w : waiter) (rd rd' : readings) : A verdict :=
  s ← get;
  let k := next_lease s in
  modify (λ s, set_counters (next_ticket s) (k + 1) s) ;;
  p ← lift (of_parent rd k);
  q ← lift (of_tool rd k);
  modify (λ s, set_handoff None (drop_waiter t (set_leases (<[k := Lease t (w_class w) (Growth (w_parent w) (Z.max 0 p) 0 (w_parent w) 0)
    (Growth (w_tool w) (Z.max 0 q) 0 (w_tool w) 0)]> (leases s)) s))) ;;
  st ← status_locked rd';
  wake_evaluator ;;
  mret (Granted k st).

(** A turn of the loop of the caller with ticket [t]. *)
Definition turn_body (t : Z) (rd rd' : readings) (expired : bool) : A verdict :=
  modify (λ s, set_handoff (live_handoff s) s) ;;
  s ← get;
  let evaluator := match handoff s with Some h => Some h | None => fst <$> head (ordered s) end in
  if bool_decide (evaluator ≠ Some t) then
    if expired then
      modify (λ s, set_logs (completed s) (timed_out s ++ [t]) (drop_waiter t s)) ;; wake_evaluator ;; mret TimedOut
    else modify (sleep t Asleep) ;; mret Waiting
  else
    st ← status_locked rd;
    s ← get;
    match selected st s, waiters s !! t with
    | Some u, Some w =>
        if decide (u = t) then grant t w rd rd'
        else
          modify (set_handoff (Some u)) ;; wake_evaluator ;;
          (if expired then timed_out_now t else modify (sleep t Polling) ;; mret Waiting)
    | _, _ =>
        modify (set_handoff None) ;;
        (if expired then timed_out_now t else modify (sleep t Polling) ;; mret Waiting)
    end.
Definition turn (t : Z) (rd rd' : readings) (expired : bool) : A verdict :=
  try_except (turn_body t rd rd' expired)
    (λ e, modify (drop_waiter t) ;; modify (forget_handoff t) ;; wake_evaluator ;; raise e).

(** [release], [observe], [record_lease_growth] *)
Definition release (k : Z) (rd rd' : readings) : A status :=
  refresh_locked rd ;;
  s ← get;
  match leases s !! k with
  | None => raise (ValueError "memory admission lease is unknown")
  | Some l =>
      modify (λ s, set_logs (completed s ++ [l]) (timed_out s) (set_leases (delete k (leases s)) s)) ;;
      st ← status_locked rd'; wake_evaluator ;; mret st
  end.
Definition observe (rd : readings) : A status := st ← status_locked rd; wake_evaluator ;; mret st.
Definition record_lease_growth (k p t : Z) : A unit :=
  s ← get;
  match leases s !! k with
  | None => raise (ValueError "memory admission lease is unknown")
  | Some l =>
      let raised (g : growth) x := Growth (increment g) (at_admit g) (realized g) (unrealized g) (Z.max (peak g) (Z.max 0 x)) in
      modify (λ s, set_leases (<[k := Lease (l_ticket l) (l_class l) (raised (l_parent l) p) (raised (l_tool l) t)]> (leases s)) s) ;;
      wake_evaluator
  end.
(** How far a completed lease exceeded its prediction. *)
Definition underprediction (g : growth) : Z := Z.max 0 (peak g - increment g).
End admission.

(** ** What a turn decides *)

Section decisions.
Context (c : config).
Notation A := (M admission).

Lemma by_priority_ok : cmp_ok by_priority.
Proof. apply (cmp_ok_lex _ _ (cmp_ok_Z (λ x : Z * waiter, priority (w_class x.2))) (cmp_ok_Z fst)). Qed.
Lemma le_not_lt (x y : Z * waiter) : cmp_le by_priority x y → by_priority y x ≠ Lt.
Proof. unfold cmp_le. rewrite (cmp_opp _ by_priority_ok y x). by destruct (by_priority y x). Qed.

(** The waiter is first, or a checkpoint that overtakes a first one that does not
    fit, and no checkpoint before it fits. *)
Definition may_go (st : status) (ws : dict Z waiter) (t : Z) (w : waiter) : Prop :=
  (∀ u w', ws !! u = Some w' → cmp_le by_priority (t, w) (u, w')) ∨
  w_class w = Checkpoint ∧
  (∃ v w'', ws !! v = Some w'' ∧ fits c st w'' = false ∧ ∀ u w', ws !! u = Some w' → cmp_le by_priority (v, w'') (u, w')) ∧
  ∀ u w', ws !! u = Some w' → by_priority (u, w') (t, w) = Lt → w_class w' = Checkpoint → fits c st w' = false.

Lemma find_split {X} (f : X → bool) (l : list X) x : find f l = Some x → ∃ l1 l2, l = l1 ++ x :: l2 ∧ f x = true ∧ ∀ y, y ∈ l1 → f y = false.
Proof.
  induction l as [|y l IH]; cbn; [done|]. destruct (f y) eqn:E.
  { intros [= ->]. exists [], l. split_and!; [done|done|]. intros z Hz. by apply elem_of_nil in Hz. }
  intros (l1 & l2 & -> & Hx & Hl)%IH. exists (y :: l1), l2. split_and!; [done|done|]. intros z [->|Hz]%elem_of_cons; [done|by apply Hl].
Qed.

Lemma selected_spec st s t : dict_ok (waiters s) → selected c st s = Some t →
  ∃ w, waiters s !! t = Some w ∧ fits c st w = true ∧ may_go st (waiters s) t w.
Proof.
  intros Hd. unfold selected. pose proof (sort_by_sorted by_priority (waiters s : list _) by_priority_ok) as Hs.
  pose proof (sort_by_perm by_priority (waiters s : list _)) as Hp. fold (ordered s) in Hs, Hp.
  assert (∀ u w, waiters s !! u = Some w ↔ (u, w) ∈ ordered s) as Hin.
  { intros u w. rewrite Hp. split; [apply dict_lookup_elem|by apply dict_elem_lookup]. }
  destruct (ordered s) as [|[v w''] rest]; [done|]. apply StronglySorted_cons in Hs as [Hfirst Hs]. cbn [fst snd].
  assert (∀ u w', waiters s !! u = Some w' → cmp_le by_priority (v, w'') (u, w')) as Hleast.
  { intros u w' Hu%Hin. apply elem_of_cons in Hu as [->|Hu]; [by apply cmp_le_refl, by_priority_ok|]. by apply (proj1 (Forall_forall _ _) Hfirst). }
  destruct (fits c st w'') eqn:Ef; [intros [= <-]; exists w''; split_and!; [apply Hin; left|done|by left]|].
  destruct (find _ rest) as [[t' w]|] eqn:Efind; [|done]. intros [= ->]. apply find_split in Efind as (l1 & l2 & -> & Hw & Hl1).
  apply andb_prop in Hw as [Hc%bool_decide_eq_true Hw]. cbn in Hc, Hw. exists w. split_and!; [apply Hin; right; apply elem_of_app; right; left|done|].
  right. split_and!; [done| |].
  - exists v, w''. split_and!; [apply Hin; left|done|done].
  - intros u w' Hu%Hin Hlt Hcp. apply elem_of_cons in Hu as [[= -> ->]|Hu]; [done|]. apply elem_of_app in Hu as [Hu|Hu].
    + specialize (Hl1 _ Hu). cbn in Hl1. by rewrite bool_decide_eq_true_2 in Hl1.
    + exfalso. apply elem_of_cons in Hu as [[= -> ->]|Hu]; [unfold by_priority in Hlt; by rewrite !Z.compare_refl in Hlt|].
      apply StronglySorted_app in Hs as (_ & _ & Hs). apply StronglySorted_cons in Hs as [Hs _].
      by apply (le_not_lt (t, w) (u, w')); [apply (proj1 (Forall_forall _ _) Hs)|].
Qed.

(** Measuring leaves the waiters alone. *)
Definition same_queue (s0 s : admission) : Prop := waiters s = waiters s0 ∧ handoff s = handoff s0.
Lemma refresh_queue s0 rd : preserves (same_queue s0) (refresh_locked rd).
Proof.
  unfold refresh_locked. apply preserves_bind; [by intros s Hs|intros p]. apply preserves_bind; [by intros s Hs|intros t].
  apply preserves_bind; [by intros s Hs|intros s1]. apply preserves_bind; [|by intros ? s Hs].
  apply preserves_for_each. intros k. unfold refresh. apply preserves_bind; [by intros s Hs|intros v]. apply preserves_bind; [by intros s Hs|intros q].
  apply preserves_modify. intros s Hs. by destruct (leases s !! k).
Qed.
Lemma status_queue s0 rd : preserves (same_queue s0) (status_locked c rd).
Proof.
  unfold status_locked. apply preserves_bind; [apply refresh_queue|intros [p t]]. apply preserves_bind; [by intros s Hs|intros s1].
  apply preserves_bind; [|by intros ? s Hs]. apply preserves_modify. by intros s Hs.
Qed.

Lemma notify_lookup u t s : waiters s !! t = None → waiters (notify u s) !! t = None.
Proof.
  intros Ht. unfold notify. destruct (waiters s !! u) as [w|] eqn:Eu; [|done]. cbn.
  destruct (decide (u = t)) as [->|]; [congruence|by rewrite dict_lookup_insert_ne].
Qed.
Lemma wake_lookup t : preserves (λ s, waiters s !! t = None) wake_evaluator.
Proof.
  intros s Ht. unfold wake_evaluator, modify. set (s0 := set_handoff _ s). cbn [snd]. destruct (live_handoff s0); [by apply notify_lookup|].
  destruct (min_by _ _) as [[u w]|]; [by apply notify_lookup|done].
Qed.

Lemma handler_raises {X} t e (s s' : admission) (x : X) :
  (modify (drop_waiter t) ;; modify (forget_handoff t) ;; wake_evaluator ;; raise e) s ≠ (Ok x, s').
Proof. done. Qed.

(** A turn that grants has measured, selected its own ticket and entered [grant]. *)
Lemma granting_turn t rd rd' expired s s' k st' : turn c t rd rd' expired s = (Ok (Granted k st'), s') →
  ∃ w st s1, status_locked c rd (set_handoff (live_handoff s) s) = (Ok st, s1) ∧ selected c st s1 = Some t ∧ waiters s1 !! t = Some w ∧
    grant c t w rd rd' s1 = (Ok (Granted k st'), s').
Proof.
  unfold turn, try_except. destruct (turn_body c t rd rd' expired s) as [[v|e] s''] eqn:Eb; [|by intros H%handler_raises].
  intros [= -> ->]. unfold turn_body in Eb. apply bind_ok_inv in Eb as ([] & s0 & H0 & H). injection H0 as <-. rewrite bind_get in H.
  cbv zeta in H. destruct (bool_decide _); [destruct expired; done|]. apply bind_ok_inv in H as (st & s1 & Hst & H). rewrite bind_get in H.
  destruct (selected c st s1) as [u|] eqn:Es; [destruct (waiters s1 !! t) as [w|] eqn:Ew; [destruct (decide (u = t)) as [->|]|]|].
  { by exists w, st, s1. }
  all: by destruct expired.
Qed.

Lemma grant_spec t w rd rd' s s' k st' : grant c t w rd rd' s = (Ok (Granted k st'), s') → dict_ok (waiters s) → waiters s' !! t = None ∧ k = next_lease s.
Proof.
  intros H Hd. unfold grant in H. rewrite bind_get in H. cbv zeta in H. apply bind_ok_inv in H as ([] & s1 & H1 & H). injection H1 as <-.
  rewrite bind_lift in H. destruct (of_parent rd _) as [p|]; [|done]. rewrite bind_lift in H. destruct (of_tool rd _) as [q|]; [|done].
  apply bind_ok_inv in H as ([] & s2 & H2 & H). apply bind_ok_inv in H as (st & s3 & H3 & H). apply bind_ok_inv in H as ([] & s4 & H4 & H).
  injection H as <- <- <-. split; [|done].
  assert (waiters s3 !! t = None) as Ht.
  { pose proof (status_queue s2 rd' s2 (conj eq_refl eq_refl)) as [Hw _]. rewrite H3 in Hw. cbn in Hw. rewrite Hw. injection H2 as <-. cbn. by apply dict_lookup_delete_eq. }
  pose proof (wake_lookup t s3 Ht) as Hk. by rewrite H4 in Hk.
Qed.

(** Who gets memory.  When a turn grants a lease, its waiter fits both pools
    with what was measured in that turn, below HIGH for normal work and below the
    hard limit for checkpoints and restores; it is the first by priority and age, or
    a checkpoint that goes ahead of a first one that does not fit, no checkpoint
    before it fitting; and it has left the queue. *)
Theorem atomic_policy (t : Z) (rd rd' : readings) (expired : bool) (s s' : admission) (k : Z) (st' : status)
    (Hok : dict_ok (waiters s)) (Hrun : turn c t rd rd' expired s = (Ok (Granted k st'), s')) :
  ∃ w st s1, status_locked c rd (set_handoff (live_handoff s) s) = (Ok st, s1) ∧ waiters s !! t = Some w ∧
    p_charge st + w_parent w <= limit_of (w_class w) (parent c) ∧ t_charge st + w_tool w <= limit_of (w_class w) (tool c) ∧
    may_go st (waiters s) t w ∧ waiters s' !! t = None.
Proof.
  apply granting_turn in Hrun as (w & st & s1 & Hst & Hsel & Hw & Hg). set (s0 := set_handoff (live_handoff s) s) in *.
  pose proof (status_queue s0 rd s0 (conj eq_refl eq_refl)) as [Hq _]. rewrite Hst in Hq. cbn in Hq.
  assert (dict_ok (waiters s1)) as Hd by (by rewrite Hq). destruct (selected_spec st s1 t Hd Hsel) as (w' & Hw' & Hf & Hgo).
  assert (w' = w) as -> by congruence. rewrite Hq in Hw, Hgo. unfold fits in Hf. apply andb_prop in Hf as [Hp%Z.leb_le Ht%Z.leb_le].
  exists w, st, s1. split_and!; [done..|]. by apply grant_spec in Hg as [? _].
Qed.

(** Nobody but [t] enters the queue. *)
Definition none_enters (s0 : admission) (t : Z) (s : admission) : Prop :=
  dict_ok (waiters s) ∧ ∀ u, u ≠ t → is_Some (waiters s !! u) → is_Some (waiters s0 !! u).

Lemma put_back_enters s0 t s u w : none_enters s0 t s → is_Some (waiters s !! u) → none_enters s0 t (set_waiters (<[u := w]> (waiters s)) s).
Proof.
  intros [Hd Hn] Hu. split; [by apply insert_ok|]. intros v Hv. cbn. destruct (decide (u = v)) as [->|]; [intros _; by apply Hn|].
  rewrite dict_lookup_insert_ne by done. by apply Hn.
Qed.
Lemma notify_enters s0 t u s : none_enters s0 t s → none_enters s0 t (notify u s).
Proof. intros H. unfold notify. destruct (waiters s !! u) eqn:E; [|done]. by apply put_back_enters. Qed.
Lemma sleep_enters s0 t u p s : none_enters s0 t s → none_enters s0 t (sleep u p s).
Proof. intros H. unfold sleep. destruct (waiters s !! u) eqn:E; [|done]. by apply put_back_enters. Qed.
Lemma drop_enters s0 t u s : none_enters s0 t s → none_enters s0 t (drop_waiter u s).
Proof.
  intros [Hd Hn]. split; [by apply delete_ok|]. intros v Hv. cbn. destruct (decide (u = v)) as [->|]; [rewrite dict_lookup_delete_eq by done; by intros []|].
  rewrite dict_lookup_delete_ne by done. by apply Hn.
Qed.
Lemma wake_enters s0 t : preserves (none_enters s0 t) wake_evaluator.
Proof.
  intros s H. unfold wake_evaluator, modify. set (s1 := set_handoff _ s). cbn [snd]. destruct (live_handoff s1); [by apply notify_enters|].
  destruct (min_by _ _) as [[u w]|]; [by apply notify_enters|done].
Qed.
Lemma status_enters s0 t rd : preserves (none_enters s0 t) (status_locked c rd).
Proof.
  intros s H. destruct (status_queue s rd s (conj eq_refl eq_refl)) as [Hw _]. unfold none_enters. by rewrite Hw.
Qed.
Lemma timed_out_enters s0 t u : preserves (none_enters s0 t) (timed_out_now u).
Proof.
  unfold timed_out_now. apply preserves_bind; [apply preserves_modify; intros s Hs; by apply (drop_enters s0 t u s)|intros _].
  apply preserves_bind; [|intros _; apply preserves_bind; [apply wake_enters|intros _; apply preserves_ret]].
  apply preserves_modify. intros s Hs. unfold forget_handoff. by destruct (decide _).
Qed.
Lemma grant_enters s0 t w rd rd' : preserves (none_enters s0 t) (grant c t w rd rd').
Proof.
  unfold grant. apply preserves_bind; [apply preserves_get|intros s1]. cbv zeta. apply preserves_bind; [by apply preserves_modify|intros _].
  apply preserves_bind; [by intros s Hs|intros p]. apply preserves_bind; [by intros s Hs|intros q].
  apply preserves_bind; [apply preserves_modify; intros s Hs; by apply (drop_enters s0 t t s)|intros _].
  apply preserves_bind; [apply status_enters|intros st]. apply preserves_bind; [apply wake_enters|intros _; apply preserves_ret].
Qed.
Lemma body_enters s0 t rd rd' expired : preserves (none_enters s0 t) (turn_body c t rd rd' expired).
Proof.
  unfold turn_body. apply preserves_bind; [by apply preserves_modify|intros _]. apply preserves_bind; [apply preserves_get|intros s1]. cbv zeta.
  destruct (bool_decide _); [destruct expired|].
  - apply preserves_bind; [apply preserves_modify; intros s Hs; by apply (drop_enters s0 t t s)|intros _].
    apply preserves_bind; [apply wake_enters|intros _; apply preserves_ret].
  - apply preserves_bind; [apply preserves_modify; intros s Hs; by apply sleep_enters|intros _; apply preserves_ret].
  - apply preserves_bind; [apply status_enters|intros st]. apply preserves_bind; [apply preserves_get|intros s2].
    assert (preserves (none_enters s0 t) (if expired then timed_out_now t else modify (sleep t Polling) ;; mret Waiting)) as Hend.
    { destruct expired; [apply timed_out_enters|]. apply preserves_bind; [apply preserves_modify; intros s Hs; by apply sleep_enters|intros _; apply preserves_ret]. }
    destruct (selected c st s2) as [u|]; [destruct (waiters s2 !! t) as [w|]; [destruct (decide (u = t)); [apply grant_enters|]|]|].
    all: apply preserves_bind; [by apply preserves_modify|intros _]; try exact Hend.
    apply preserves_bind; [apply wake_enters|intros _; exact Hend].
Qed.

(** A turn that fails leaves nothing behind: its waiter is gone, it is not the
    one to evaluate next, and nobody else entered the queue. *)
Theorem failed_turn_leaves_queue (t : Z) (rd rd' : readings) (expired : bool) (s s' : admission) (e : exn)
    (Hok : dict_ok (waiters s)) (Hrun : turn c t rd rd' expired s = (Raise e, s')) :
  waiters s' !! t = None ∧ handoff s' ≠ Some t ∧ ∀ u, u ≠ t → is_Some (waiters s' !! u) → is_Some (waiters s !! u).
Proof.
  unfold turn, try_except in Hrun. pose proof (body_enters s t rd rd' expired s (conj Hok (λ u _ H, H))) as Hb.
  destruct (turn_body c t rd rd' expired s) as [[v|e0] s1]; [done|]. cbn [snd] in Hb.
  unfold mbind, M_bind, modify in Hrun. cbn [raise] in Hrun. set (s2 := forget_handoff t (drop_waiter t s1)) in *.
  assert (none_enters s t s2) as H2 by (unfold s2, forget_handoff; destruct (decide _); by apply drop_enters).
  assert (waiters s2 !! t = None) as Ht by (unfold s2, forget_handoff; destruct (decide _); cbn; apply dict_lookup_delete_eq, Hb).
  assert (handoff s2 ≠ Some t) as Hh by (unfold s2, forget_handoff; destruct (decide _); done).
  pose proof (wake_lookup t s2 Ht) as Hw. pose proof (wake_enters s t s2 H2) as [_ He].
  assert (handoff (wake_evaluator s2).2 ≠ Some t) as Hh'.
  { unfold wake_evaluator, modify. set (s3 := set_handoff _ s2). cbn [snd].
    assert (∀ u, handoff (notify u s3) = handoff s3) as Hn by (intros u; unfold notify; by destruct (waiters s3 !! u)).
    assert (handoff s3 ≠ Some t) as Hs3 by (unfold s3, live_handoff; cbn; destruct (handoff s2) as [h|]; [|done]; destruct (waiters s2 !! h); congruence).
    destruct (live_handoff s3); [by rewrite Hn|]. destruct (min_by _ _) as [[u w]|]; [by rewrite Hn|done]. }
  destruct (wake_evaluator s2) as [[[]|e1] s3] eqn:Ew; injection Hrun as <- <-; by split_and!.
Qed.
End decisions.

(** ** A run *)

Definition pools : config := Config (Limits 100 200 10 10) (Limits 100 200 10 10).
Definition at_bytes (b : Z) : readings := Readings (Ok b) (Ok b) (λ _, Ok b) (λ _, Ok b).
Definition broken : readings := Readings (Raise (OSError "ENOENT")) (Ok 0) (λ _, Ok 0) (λ _, Ok 0).
(** A restore of 100 bytes is first, a checkpoint of 10 comes after it. *)
Definition two : admission := (enter Checkpoint 10 0 (enter Restore 100 100 admission_init).2).2.
Lemma two_ok : dict_ok (waiters two).
Proof. unfold dict_ok. vm_compute. repeat constructor; set_solver. Qed.

(** With 150 bytes in use the restore does not fit, and hands over. *)
Definition handed : admission := (turn pools 0 (at_bytes 150) (at_bytes 150) false two).2.
Lemma atomic_policy_witness : ∃ w st, p_charge st = 150 ∧ w_class w = Checkpoint ∧ may_go pools st (waiters handed) 1 w ∧ handoff handed = Some 1.
Proof.
  set (s' := (turn pools 1 (at_bytes 150) (at_bytes 150) false handed).2).
  destruct (atomic_policy pools 1 (at_bytes 150) (at_bytes 150) false handed s' 0 (Status 150 10 150 0)) as (w & st & s1 & Hst & Hw & _ & _ & Hgo & _).
  - unfold dict_ok. vm_compute. repeat constructor; set_solver.
  - vm_compute. reflexivity.
  - exists w, st. assert (w = Waiter Checkpoint 10 0 Running) as -> by (vm_compute in Hw; congruence).
    assert (st = Status 150 0 150 0) as -> by (vm_compute in Hst; congruence). split_and!; [done|done|exact Hgo|by vm_compute].
Defined.

Lemma failed_turn_leaves_queue_witness : ∃ e s', turn pools 0 broken broken false two = (Raise e, s') ∧ waiters s' !! 0 = None ∧ is_Some (waiters s' !! 1).
Proof.
  set (s' := (turn pools 0 broken broken false two).2).
  destruct (failed_turn_leaves_queue pools 0 broken broken false two s' (OSError "ENOENT") two_ok) as (H & _ & _); [by vm_compute|].
  exists (OSError "ENOENT"), s'. split_and!; [by vm_compute|exact H|vm_compute; by eexists].
Defined.

(** A hand-over can put everyone to sleep: the restore goes back to sleep while the
    checkpoint is the one to evaluate, the checkpoint finds that it does not fit any
    more and takes the hand-over back without waking the restore.  Nobody measures
    again, although the memory may be free. *)
Example handover_sleeps :
  let s1 := (turn pools 0 (at_bytes 150) (at_bytes 150) false handed).2 in
  let s2 := (turn pools 1 (at_bytes 185) (at_bytes 185) false s1).2 in
  let s3 := (turn pools 1 (at_bytes 0) (at_bytes 0) false s2).2 in
  (w_place <$> vals (waiters s3)) = [Asleep; Asleep] ∧ selected pools (Status 0 0 0 0) s3 = Some 0.
Proof. split_and!; vm_compute; reflexivity. Qed.

(** A reading that fails after the lease is entered leaks the lease. *)
Example granted_lease_leaks :
  let s := turn pools 0 (at_bytes 0) broken false (enter Restore 10 10 admission_init).2 in
  is_ok s.1 = false ∧ keys (leases s.2) = [0] ∧ waiters s.2 = [].
Proof. split_and!; vm_compute; reflexivity. Qed.
End Atomic.
