(* ===== verification/InstallGate.v ===== *)
(** * The gate of the package installs (src/clawbox/experiments/worker.py)

    [DependencyInstallGate] bounds the package installs of an arm: a semaphore
    counts the free permits and a table under a lock names their holders.  Callers
    are threads whose blocks interleave freely: a block is the code up to the next
    lock or semaphore. *)
From S2P Require Import Prelude Dict.

Module Gate.
(** The semaphore and [self.active]. *)
Record gate := Gate { free : Z; active : gmap string (string * Q) }.
Definition gate_init (limit : Z) : gate := Gate limit ∅.

(** Where a caller is: [acquire] between its check, the semaphore and the entry in
    the table; [release] between the removal and the semaphore. *)
Inductive phase :=
  | Checked (execution session : string)
  | Permitted (execution session : string)
  | Popped (execution : string)
  | Returned (answer : outcome bool).
Notation thread := phase.

Inductive request := Acquire (execution session : string) | Release (execution : string).
(** The first block of a call. *)
Definition call (r : request) (g : gate) : gate * thread :=
  match r with
  | Acquire e s =>
      match active g !! e with
      | Some _ => (g, Returned (Raise (RuntimeError "dependency install permit already active")))
      | None => (g, Checked e s)
      end
  | Release e =>
      match active g !! e with
      | Some _ => (Gate (free g) (delete e (active g)), Popped e)
      | None => (g, Returned (Ok false))
      end
  end.
(** The next block of a thread; [now] is the clock, and [expired] the end of the
    wait for a permit. *)
Definition advance (now : Q) (expired : bool) (g : gate) (t : thread) : gate * thread :=
  match t with
  | Checked e s =>
      if 0 <? free g then (Gate (free g - 1) (active g), Permitted e s)
      else if expired then (g, Returned (Raise (TimeoutError "dependency install concurrency wait exceeded")))
      else (g, t)
  | Permitted e s => (Gate (free g) (<[e := (s, now)]> (active g)), Returned (Ok true))
  | Popped e => (Gate (free g + 1) (active g), Returned (Ok true))
  | Returned _ => (g, t)
  end.
(** [release_session]: the executions to release. *)
Definition executions_of (session : string) (g : gate) : list string :=
  omap (λ '(e, (s, _)), if decide (s = session) then Some e else None) (map_to_list (active g)).

Record system := System { the_gate : gate; threads : list thread }.
Inductive event := Call (r : request) | Step (i : nat) (now : Q) (expired : bool).
Definition step (ev : event) (s : system) : system :=
  match ev with
  | Call r => let '(g, t) := call r (the_gate s) in System g (threads s ++ [t])
  | Step i now expired =>
      match threads s !! i with
      | Some t => let '(g, t') := advance now expired (the_gate s) t in System g (<[i := t']> (threads s))
      | None => s
      end
  end.
Definition run (limit : Z) (l : list event) : system := foldl (λ s e, step e s) (System (gate_init limit) []) l.

(** The permits that threads hold on the way. *)
Definition carried (t : thread) : Z := match t with Permitted _ _ | Popped _ => 1 | _ => 0 end.
(** The executions between their check and their entry. *)
Definition entering (t : thread) : option string := match t with Checked e _ | Permitted e _ => Some e | _ => None end.
(** No execution is acquired again while an acquire of it is under way. *)
Definition fresh_call (s : system) (ev : event) : Prop :=
  match ev with Call (Acquire e _) => e ∉ omap entering (threads s) | _ => True end.
Fixpoint all_fresh (s : system) (l : list event) : Prop :=
  match l with [] => True | ev :: l' => fresh_call s ev ∧ all_fresh (step ev s) l' end.

Definition in_use (s : system) : Z := Z.of_nat (size (active (the_gate s))) + zsum (carried <$> threads s).

(** Whatever callers do, the permits in use and the free ones never exceed the
    limit; they are all of it as long as no acquire is doubled. *)
Definition bounded (limit : Z) (s : system) : Prop := 0 <= free (the_gate s) ∧ free (the_gate s) + in_use s <= limit.
Definition conserved (limit : Z) (s : system) : Prop :=
  0 <= free (the_gate s) ∧ free (the_gate s) + in_use s = limit ∧
  NoDup (omap entering (threads s)) ∧ ∀ e, e ∈ omap entering (threads s) → active (the_gate s) !! e = None.

Lemma step_split i now expired s : step (Step i now expired) s = s ∨
  ∃ l1 t l2, threads s = l1 ++ t :: l2 ∧
    step (Step i now expired) s = System (advance now expired (the_gate s) t).1 (l1 ++ (advance now expired (the_gate s) t).2 :: l2).
Proof.
  cbn. destruct (threads s !! i) as [t|] eqn:E; [|by left]. right. apply list_elem_of_split_length in E as (l1 & l2 & Hl & ->).
  exists l1, t, l2. split; [done|]. rewrite Hl. destruct (advance _ _ _ t) as [g t']. by rewrite insert_app_r_alt, Nat.sub_diag by done.
Qed.

Lemma in_use_app g l1 t l2 : in_use (System g (l1 ++ t :: l2)) = Z.of_nat (size (active g)) + carried t + zsum (carried <$> l1 ++ l2).
Proof. unfold in_use. cbn. rewrite !fmap_app, !zsum_app, fmap_cons, zsum_cons. lia. Qed.

(** What one block does to the books. *)
Lemma advance_books now expired g t : 0 <= free g → let '(g', t') := advance now expired g t in
  0 <= free g' ∧ free g' + Z.of_nat (size (active g')) + carried t' <= free g + Z.of_nat (size (active g)) + carried t ∧
  ((∀ e, entering t = Some e → active g !! e = None) → free g' + Z.of_nat (size (active g')) + carried t' = free g + Z.of_nat (size (active g)) + carried t).
Proof.
  intros Hf. destruct t as [e s|e s|e|a]; cbn; [destruct (Z.ltb_spec 0 (free g)); [|destruct expired]|..]; cbn; try (split_and!; lia).
  destruct (active g !! e) as [x|] eqn:E.
  - rewrite map_size_insert_Some by eauto. split_and!; [done|lia|]. intros H. by rewrite H in E.
  - rewrite map_size_insert_None by done. split_and!; lia.
Qed.
Lemma call_books r g : 0 <= free g → let '(g', t') := call r g in
  0 <= free g' ∧ free g' + Z.of_nat (size (active g')) + carried t' = free g + Z.of_nat (size (active g)).
Proof.
  intros Hf. destruct r as [e s|e]; cbn; destruct (active g !! e) as [x|] eqn:E; cbn; try lia.
  rewrite map_size_delete, E. assert (size (active g) ≠ 0%nat); [|lia]. intros H0%map_size_empty_inv. by rewrite H0 in E.
Qed.

Lemma step_bounded limit ev s : bounded limit s → bounded limit (step ev s).
Proof.
  intros [H1 H2]. destruct ev as [r|i now expired].
  - cbn. pose proof (call_books r (the_gate s) H1) as H. destruct (call r (the_gate s)) as [g t]. destruct H as [H H'].
    split; [done|]. rewrite in_use_app, app_nil_r. cbn. unfold in_use in H2. lia.
  - destruct (step_split i now expired s) as [->|(l1 & t & l2 & Hl & ->)]; [done|]. destruct s as [g ts]. cbn in *. subst ts.
    rewrite in_use_app in H2. pose proof (advance_books now expired g t H1) as H. destruct (advance now expired g t) as [g' t'].
    split; cbn; [tauto|]. rewrite in_use_app. lia.
Qed.

(** The executions on their way in, once a thread has moved. *)
Lemma advance_entering now expired g t : let '(g', t') := advance now expired g t in
  (entering t' = entering t ∧ active g' = active g) ∨ (entering t' = None ∧ active g' = active g) ∨
  (∃ e x, entering t = Some e ∧ entering t' = None ∧ active g' = <[e := x]> (active g)).
Proof. destruct t as [e s|e s|e|a]; cbn; [destruct (0 <? free g); [|destruct expired]|..]; cbn; eauto 10. Qed.

Lemma call_entering r g : let '(g', t) := call r g in
  (∀ e, active g !! e = None → active g' !! e = None) ∧
  ∀ e, entering t = Some e → active g' !! e = None ∧ ∃ session, r = Acquire e session.
Proof.
  destruct r as [e s|e]; cbn; destruct (active g !! e) eqn:E; cbn; (split; [try done|try done]).
  - intros e' [= <-]. eauto.
  - intros e' He'. rewrite lookup_delete_None. by right.
Qed.

Lemma step_conserved limit ev s : fresh_call s ev → conserved limit s → conserved limit (step ev s).
Proof.
  intros Hfresh (H1 & H2 & H3 & H4). destruct ev as [r|i now expired].
  - cbn. pose proof (call_books r (the_gate s) H1) as H. pose proof (call_entering r (the_gate s)) as He.
    destruct (call r (the_gate s)) as [g t]. destruct H as [H H'], He as [Ha He].
    split_and!; cbn; [done|rewrite in_use_app, app_nil_r; cbn; unfold in_use in H2; lia|..]; rewrite omap_app; cbn.
    + destruct (entering t) as [e|]; [|by rewrite app_nil_r]. destruct (He e eq_refl) as (_ & session & ->). cbn in Hfresh.
      apply NoDup_app. split_and!; [done| |apply NoDup_singleton]. by intros e' He' ->%list_elem_of_singleton.
    + intros e [Hin|Hin]%elem_of_app; [by apply Ha, H4|]. destruct (entering t) as [e'|]; [|by apply elem_of_nil in Hin].
      apply list_elem_of_singleton in Hin as ->. by apply He.
  - destruct (step_split i now expired s) as [->|(l1 & t & l2 & Hl & ->)]; [done|]. destruct s as [g ts]. cbn in *. subst ts. clear Hfresh.
    rewrite in_use_app in H2. rewrite omap_app in H3, H4. cbn in H3, H4.
    pose proof (advance_books now expired g t H1) as H. pose proof (advance_entering now expired g t) as He.
    destruct (advance now expired g t) as [g' t']. destruct H as (Hf & _ & Heq).
    assert (∀ e, entering t = Some e → active g !! e = None) as Hin by (intros e Ee; apply H4; rewrite Ee; set_solver). specialize (Heq Hin).
    split_and!; [done|rewrite in_use_app; cbn; lia|..]; cbn; rewrite omap_app; cbn.
    + destruct He as [[-> _]|[[-> _]|(e & x & Ee & -> & _)]]; [done|..]; [|rewrite Ee in H3]; [destruct (entering t); [|done]|];
        apply NoDup_app in H3 as (? & Hd & [? ?]%NoDup_cons); apply NoDup_app; (split_and!; [done| |done]); intros e' He' He''; apply (Hd e' He'); by right.
    + intros e Hin'. destruct He as [[Ee Ea]|[[Ee Ea]|(e' & x & Ee & Ee' & Ea)]].
      * rewrite Ea. apply H4. by rewrite <- Ee.
      * rewrite Ea. apply H4. rewrite Ee in Hin'. destruct (entering t); set_solver.
      * rewrite Ee' in Hin'. rewrite Ee in H3, H4. rewrite Ea, lookup_insert_ne; [apply H4; set_solver|]. intros ->.
        apply NoDup_app in H3 as (_ & Hd & [Hn _]%NoDup_cons). apply elem_of_app in Hin' as [Hin'|Hin']; [by apply (Hd _ Hin'); left|done].
Qed.

Lemma steps_bounded limit l s : bounded limit s → bounded limit (foldl (λ s e, step e s) s l).
Proof. revert s. induction l as [|ev l IH]; intros s Hb; cbn; [done|]. by apply IH, step_bounded. Qed.
Lemma steps_conserved limit l s : conserved limit s → all_fresh s l → conserved limit (foldl (λ s e, step e s) s l).
Proof. revert s. induction l as [|ev l IH]; intros s Hb; cbn; [done|]. intros [Hf Hl]. apply IH; [by apply step_conserved|done]. Qed.

Lemma quiet_carried ts : Forall (λ t, carried t = 0) ts → zsum (carried <$> ts) = 0.
Proof. induction 1 as [|t ts Ht _ IH]; [done|]. rewrite fmap_cons, zsum_cons. lia. Qed.

(** The gate bounds the installs.  In every interleaving of acquires and
    releases of any executions, the installs that run, those on their way in or out,
    and the free permits never exceed the limit.  They are exactly the limit while
    no execution is acquired a second time before its first acquire has ended; then
    no permit is lost, and when no call is under way each missing one is held. *)
Theorem gate_bounded (limit : Z) (l : list event) (Hl : 0 <= limit) :
  bounded limit (run limit l) ∧
  (all_fresh (System (gate_init limit) []) l → conserved limit (run limit l) ∧
     (Forall (λ t, carried t = 0) (threads (run limit l)) → free (the_gate (run limit l)) = limit - Z.of_nat (size (active (the_gate (run limit l)))))).
Proof.
  unfold run. set (s0 := System (gate_init limit) []).
  assert (in_use s0 = 0) as Hu by done.
  assert (bounded limit s0) as Hb by (split; cbn; [done|rewrite Hu; lia]).
  assert (conserved limit s0) as Hc by (split_and!; cbn; [done|rewrite Hu; lia|constructor|by intros e ?%elem_of_nil]).
  split; [by apply steps_bounded|]. intros Hf. pose proof (steps_conserved limit l s0 Hc Hf) as H. split; [done|].
  intros Hq%quiet_carried. destruct H as (_ & H & _). unfold in_use in H. lia.
Qed.

(** Two installs at a limit of two; the first is released. *)
Definition demo_installs : list event :=
  [Call (Acquire "e1" "s1"); Step 0 0 false; Step 0 1 false; Call (Acquire "e2" "s2"); Step 1 1 false; Step 1 2 false;
   Call (Release "e1"); Step 2 3 false].
Lemma gate_bounded_witness :
  free (the_gate (run 2 demo_installs)) = 1 ∧ Z.of_nat (size (active (the_gate (run 2 demo_installs)))) = 1 ∧
  bounded 2 (run 2 demo_installs) ∧ conserved 2 (run 2 demo_installs).
Proof.
  split; [vm_compute; reflexivity|]. split; [vm_compute; reflexivity|]. split; [apply (gate_bounded 2 demo_installs); lia|].
  apply (gate_bounded 2 demo_installs); [lia|]. cbn. set_solver.
Defined.

(** The check of [acquire] and its entry are apart: two acquires of one execution
    that overlap take two permits for one entry, and only one ever comes back. *)
Definition doubled_acquire : list event :=
  [Call (Acquire "e" "s"); Call (Acquire "e" "s"); Step 0 0 false; Step 1 0 false; Step 0 1 false; Step 1 1 false;
   Call (Release "e"); Step 2 2 false; Call (Release "e")].
Example doubled_acquire_leaks :
  threads (run 2 doubled_acquire) = [Returned (Ok true); Returned (Ok true); Returned (Ok true); Returned (Ok false)] ∧
  active (the_gate (run 2 doubled_acquire)) = ∅ ∧ free (the_gate (run 2 doubled_acquire)) = 1.
Proof. vm_compute. done. Qed.
End Gate.
