(* ===== verification/EventLog.v ===== *)
(** * The event log of the worker (src/clawbox/experiments/worker.py)

    [EventWriter]: any thread encodes its events and puts them in a queue; one
    consumer numbers them, collects rows and writes them in batches.  [flush] puts
    a barrier in the queue and waits until the consumer has met it, [close] puts a
    sentinel and joins the consumer.  [write] takes no lock: it looks at [closed]
    before and after its [put].  A run interleaves the blocks of all threads with
    those of the consumer; the stream may fail at any of its operations. *)
From S2P Require Import Prelude.

Module Log.
(** What the queue holds: a payload, an [Event] or [None]. *)
Inductive item := Payload (p : string) | Barrier | Stop.
#[export] Instance item_eq_dec : EqDecision item.
Proof. solve_decision. Defined.

(** The outcome of the operations on the stream of one block.  A failing one may
    have accepted some rows and brought some of the accepted ones to the file; a row
    that was cut counts as missing. *)
Inductive io := Fine | Fails (accepted reached : nat).

Inductive consumer := Running | Leaving | Finished.

(** [self.pending] is the history of its puts and the number of items taken; a
    barrier is named by its place in it.  [buffered] is what the stream holds back. *)
Record writer := Writer {
  queue : list item; taken : nat; sequence : nat; rows : list (nat * string); buffered : list (nat * string);
  file : list (nat * string); error : bool; closed : bool; locked : bool; barriers : gset nat; phase : consumer }.
Definition writer_init : writer := Writer [] 0 0 [] [] [] false false false ∅ Running.

Definition put (x : item) (w : writer) : writer :=
  Writer (queue w ++ [x]) (taken w) (sequence w) (rows w) (buffered w) (file w) (error w) (closed w) (locked w) (barriers w) (phase w).
Definition set_closed (w : writer) : writer :=
  Writer (queue w) (taken w) (sequence w) (rows w) (buffered w) (file w) (error w) true true (barriers w) (phase w).
Definition unlock (w : writer) : writer :=
  Writer (queue w) (taken w) (sequence w) (rows w) (buffered w) (file w) (error w) (closed w) false (barriers w) (phase w).
Definition set_barrier (n : nat) (w : writer) : writer :=
  Writer (queue w) (taken w) (sequence w) (rows w) (buffered w) (file w) (error w) (closed w) (locked w) ({[n]} ∪ barriers w) (phase w).
Definition set_phase (c : consumer) (w : writer) : writer :=
  Writer (queue w) (taken w) (sequence w) (rows w) (buffered w) (file w) (error w) (closed w) (locked w) (barriers w) c.
Definition take_item (w : writer) : writer :=
  Writer (queue w) (S (taken w)) (sequence w) (rows w) (buffered w) (file w) (error w) (closed w) (locked w) (barriers w) (phase w).
Definition add_row (p : string) (w : writer) : writer :=
  Writer (queue w) (taken w) (S (sequence w)) (rows w ++ [(sequence w, p)]) (buffered w) (file w) (error w) (closed w) (locked w) (barriers w) (phase w).
Definition set_stream (b f : list (nat * string)) (e : bool) (w : writer) : writer :=
  Writer (queue w) (taken w) (sequence w) [] b f e (closed w) (locked w) (barriers w) (phase w).

(** *** The consumer *)

(** [save] *)
Definition save (r : io) (w : writer) : writer :=
  if error w then set_stream (buffered w) (file w) true w
  else match r with
       | Fine => set_stream [] (file w ++ buffered w ++ rows w) false w
       | Fails accepted reached =>
           let held := buffered w ++ take accepted (rows w) in
           set_stream (drop reached held) (file w ++ take reached held) true w
       end.
(** [self.stream.close()] in the [finally] block. *)
Definition close_stream (r : io) (w : writer) : writer :=
  match r with
  | Fine => set_stream [] (file w ++ buffered w) (error w) w
  | Fails _ reached => set_stream (drop reached (buffered w)) (file w ++ take reached (buffered w)) true w
  end.

Definition FLUSH_EVENT_COUNT : nat := 128.

(** One round of [_write_pending]: [elapsed] tells whether the flush interval has
    passed, and with an empty queue that the wait for an item has timed out. *)
Definition consume (elapsed : bool) (r : io) (w : writer) : writer :=
  match phase w with
  | Running =>
      match queue w !! taken w with
      | None => if elapsed && negb (bool_decide (rows w = [])) then save r w else w
      | Some Stop => set_phase Leaving (save r (take_item w))
      | Some Barrier => set_barrier (taken w) (save r (take_item w))
      | Some (Payload p) =>
          let w' := add_row p (take_item w) in
          if (FLUSH_EVENT_COUNT <=? length (rows w'))%nat || elapsed then save r w' else w'
      end
  | Leaving => set_phase Finished (close_stream r w)
  | Finished => w
  end.

(** *** The callers *)

Inductive thread :=
  | Encoded (p : string)            (** [write]: both checks passed *)
  | Put (k : nat) (p : string)      (** [write]: the event is item [k] *)
  | Flushing                        (** [flush]: before the lock *)
  | Waiting (n : nat)               (** [flush]: waits for barrier [n] *)
  | Closing                         (** [close]: before the lock *)
  | Closed                          (** [close]: [closed] is set, the lock held *)
  | Joining                         (** waits for the end of the consumer *)
  | Wrote (k : nat) (p : string)    (** [write] returned; the event is item [k] *)
  | Returned                        (** [flush] or [close] returned *)
  | Raised (e : exn).

#[export] Instance thread_eq_dec : EqDecision thread.
Proof. solve_decision. Defined.

Inductive call := Write (p : string) | Flush | Close.
Definition write_failed : exn := RuntimeError "experiment event log write failed".
Definition writer_closed : exn := RuntimeError "event writer is closed".

Definition start (c : call) (w : writer) : thread :=
  match c with
  | Write p => if error w then Raised write_failed else if closed w then Raised writer_closed else Encoded p
  | Flush => Flushing
  | Close => Closing
  end.
Definition check_error (w : writer) : thread := if error w then Raised write_failed else Returned.
(** The next block of a thread; a thread that has to wait stays as it is. *)
Definition advance (t : thread) (w : writer) : writer * thread :=
  match t with
  | Encoded p => (put (Payload p) w, Put (length (queue w)) p)
  | Put k p => (w, if closed w then Raised writer_closed else Wrote k p)
  | Flushing => if locked w then (w, t) else if closed w then (w, Joining) else (put Barrier w, Waiting (length (queue w)))
  | Waiting n => (w, if bool_decide (n ∈ barriers w) then check_error w else t)
  | Closing => if locked w then (w, t) else if closed w then (w, Joining) else (set_closed w, Closed)
  | Closed => (unlock (put Stop w), Joining)
  | Joining => (w, match phase w with Finished => check_error w | _ => t end)
  | Wrote _ _ | Returned | Raised _ => (w, t)
  end.

Record system := System { the_writer : writer; threads : list thread }.
Inductive event := Call (c : call) | Step (i : nat) | Consume (elapsed : bool) (r : io).
Definition step (s : system) (ev : event) : system :=
  match ev with
  | Call c => System (the_writer s) (threads s ++ [start c (the_writer s)])
  | Step i =>
      match threads s !! i with
      | Some t => let '(w, t') := advance t (the_writer s) in System w (<[i := t']> (threads s))
      | None => s
      end
  | Consume elapsed r => System (consume elapsed r (the_writer s)) (threads s)
  end.
Definition run_from (s : system) (l : list event) : system := foldl step s l.
Definition run (l : list event) : system := run_from (System writer_init []) l.

(** ** What is written *)

(** The events of a stretch of the queue, and the rows they have to give. *)
Definition payloads (l : list item) : list string := omap (λ x, match x with Payload p => Some p | _ => None end) l.
Definition numbered (l : list string) : list (nat * string) := zip (seq 0 (length l)) l.
Definition rows_to (n : nat) (q : list item) : list (nat * string) := numbered (payloads (take n q)).
#[global] Arguments rows_to : simpl never.
#[global] Arguments payloads : simpl never.

Lemma payloads_app l1 l2 : payloads (l1 ++ l2) = payloads l1 ++ payloads l2.
Proof. apply omap_app. Qed.
Lemma payloads_one x : length (payloads [x]) = match x with Payload _ => 1%nat | _ => 0%nat end.
Proof. by destruct x. Qed.
Lemma numbered_length l : length (numbered l) = length l.
Proof. unfold numbered. rewrite length_zip_with, length_seq. lia. Qed.
Lemma numbered_snoc l p : numbered (l ++ [p]) = numbered l ++ [(length l, p)].
Proof.
  unfold numbered. rewrite length_app, seq_app, zip_with_app by (by rewrite length_seq). done.
Qed.
Lemma numbered_app_prefix l1 l2 : numbered l1 `prefix_of` numbered (l1 ++ l2).
Proof.
  induction l2 as [|p l2 IH] using rev_ind; [by rewrite app_nil_r|]. rewrite app_assoc, numbered_snoc.
  by apply prefix_app_r.
Qed.
Lemma rows_to_mono n m q : (n <= m)%nat → rows_to n q `prefix_of` rows_to m q.
Proof.
  intros H. unfold rows_to. rewrite <- (take_drop n (take m q)), take_take, Nat.min_l, payloads_app by done.
  apply numbered_app_prefix.
Qed.
Lemma rows_to_snoc n q x : (n <= length q)%nat → rows_to n (q ++ [x]) = rows_to n q.
Proof. intros H. unfold rows_to. by rewrite take_app_le. Qed.
Lemma rows_to_S n q x : q !! n = Some x →
  rows_to (S n) q = rows_to n q ++ match x with Payload p => [(length (payloads (take n q)), p)] | _ => [] end.
Proof.
  intros H. unfold rows_to. rewrite (take_S_r _ _ _ H), payloads_app. destruct x; cbn; rewrite ?app_nil_r; [apply numbered_snoc|done|done].
Qed.
Lemma rows_to_in k n q p : q !! k = Some (Payload p) → (k < n)%nat → (length (payloads (take k q)), p) ∈ rows_to n q.
Proof.
  intros H Hn. eapply elem_of_prefix; [|apply (rows_to_mono (S k)); lia]. rewrite (rows_to_S _ _ _ H).
  apply elem_of_app. right. by apply list_elem_of_singleton.
Qed.

(** ** The consumer loses nothing *)

(** Unless the stream has failed, the rows of the first [n] items are in the file. *)
Definition covered (n : nat) (w : writer) : Prop := error w = false → rows_to n (queue w) `prefix_of` file w.
(** The file is a beginning of the log; together with the collected rows it is all
    of the log up to the item taken last, until the stream fails. *)
Definition stream_ok (w : writer) : Prop :=
  file w ++ buffered w `prefix_of` rows_to (taken w) (queue w) ∧
  (error w = false → buffered w = [] ∧ file w ++ rows w = rows_to (taken w) (queue w)).

(** What every step leaves: the queue and the file grow, a failure stays. *)
Record grows (w w' : writer) : Prop := Grows {
  g_queue : queue w `prefix_of` queue w'; g_file : file w `prefix_of` file w'; g_error : error w' = false → error w = false;
  g_closed : closed w = true → closed w' = true }.

Lemma covered_grows n w w' : (n <= length (queue w))%nat → covered n w → grows w w' → covered n w'.
Proof.
  intros Hn Hc [[l Hq] Hf He _] He'. unfold covered, rows_to in *. rewrite Hq, take_app_le by done. etrans; [by apply Hc, He|done].
Qed.

Lemma save_frame r w : let w' := save r w in queue w' = queue w ∧ taken w' = taken w ∧ sequence w' = sequence w ∧ rows w' = [] ∧
  closed w' = closed w ∧ locked w' = locked w ∧ barriers w' = barriers w ∧ phase w' = phase w.
Proof. unfold save. destruct (error w), r; done. Qed.
Lemma save_stream r w : stream_ok w → stream_ok (save r w) ∧ covered (taken w) (save r w) ∧
  file w `prefix_of` file (save r w) ∧ (error (save r w) = false → error w = false).
Proof.
  unfold stream_ok, covered, save. intros [H1 H2]. destruct (error w) eqn:He; cbn; [by split_and!|].
  destruct (H2 eq_refl) as [Hb Hr]. rewrite Hb in *. destruct r as [|a k]; cbn.
  - rewrite !app_nil_r, Hr. split_and!; [done|done|done|by exists (rows w)|done].
  - rewrite <- app_assoc, take_drop. split_and!; [|done|done|by eexists|done].
    rewrite <- Hr. exists (drop a (rows w)). by rewrite <- app_assoc, take_drop.
Qed.
Lemma close_frame r w : let w' := close_stream r w in queue w' = queue w ∧ taken w' = taken w ∧ sequence w' = sequence w ∧ rows w' = [] ∧
  closed w' = closed w ∧ locked w' = locked w ∧ barriers w' = barriers w ∧ phase w' = phase w.
Proof. unfold close_stream. by destruct r. Qed.
Lemma close_stream_ok r w : rows w = [] → stream_ok w → stream_ok (close_stream r w) ∧
  file w `prefix_of` file (close_stream r w) ∧ (error (close_stream r w) = false → error w = false).
Proof.
  unfold stream_ok, close_stream. intros Hr [H1 H2]. rewrite Hr in H2. destruct r as [|a k]; cbn.
  - rewrite !app_nil_r. split_and!; [done| |by eexists|done]. intros He. destruct (H2 He) as [Hb H]. rewrite Hb in *. by rewrite app_nil_r in *.
  - rewrite <- app_assoc, take_drop. split_and!; [done|done|by eexists|done].
Qed.

Record core (w : writer) : Prop := Core {
  i_taken : (taken w <= length (queue w))%nat;
  i_sequence : sequence w = length (payloads (take (taken w) (queue w)));
  i_stream : stream_ok w;
  i_open : closed w = false → Stop ∉ queue w;
  i_closed : closed w = true → locked w = false → Stop ∈ queue w;
  i_barriers : ∀ n, n ∈ barriers w → (n < taken w)%nat ∧ covered n w }.
Record inv (w : writer) : Prop := Inv {
  i_core : core w;
  i_running : phase w = Running → Stop ∉ take (taken w) (queue w);
  i_left : phase w ≠ Running → rows w = [] ∧ ∃ n, queue w !! n = Some Stop ∧ (n < taken w)%nat ∧ covered n w }.

Lemma inv_init : inv writer_init.
Proof.
  split; [split|..]; cbn; try done; set_solver.
Qed.

(** Taking the next item. *)
Lemma take_item_stream x w : queue w !! taken w = Some x → (∀ p, x ≠ Payload p) → stream_ok w → stream_ok (take_item w).
Proof.
  intros Hx Hp. unfold stream_ok. cbn. rewrite (rows_to_S _ _ _ Hx). destruct x as [p| |]; [by destruct (Hp p)|..]; by rewrite app_nil_r.
Qed.
Lemma add_row_stream p w : queue w !! taken w = Some (Payload p) → sequence w = length (payloads (take (taken w) (queue w))) →
  stream_ok w → stream_ok (add_row p (take_item w)).
Proof.
  intros Hx Hs [H1 H2]. unfold stream_ok. cbn. rewrite (rows_to_S _ _ _ Hx), Hs. split; [by apply prefix_app_r|].
  intros [Hb Hr]%H2. by rewrite app_assoc, Hr.
Qed.

Lemma covered_le n m w : (n <= m)%nat → covered m w → covered n w.
Proof. intros Hn Hc He. etrans; [by apply rows_to_mono|by apply Hc]. Qed.
Lemma grows_refl w : grows w w.
Proof. by split. Qed.
Lemma grows_trans w1 w2 w3 : grows w1 w2 → grows w2 w3 → grows w1 w3.
Proof. intros [] []. split; [by etrans|by etrans|tauto|tauto]. Qed.

Lemma save_spec r w : stream_ok w → stream_ok (save r w) ∧ covered (taken w) (save r w) ∧ grows w (save r w).
Proof.
  intros H. destruct (save_stream r w H) as (? & ? & ? & ?). destruct (save_frame r w) as (Hq & _ & _ & _ & Hc & _).
  split_and!; [done|done|]. split; [by rewrite Hq|done|done|by rewrite Hc].
Qed.

Lemma save_core r w : core w → core (save r w).
Proof.
  intros []. destruct (save_spec r w i_stream0) as (Hs & _ & Hg). destruct (save_frame r w) as (Hq & Ht & Hn & _ & Hc & Hl & Hb & _).
  split; rewrite ?Hq, ?Ht, ?Hn, ?Hc, ?Hl, ?Hb; [done..|]. intros n [Hn' H]%i_barriers0. split; [done|].
  eapply covered_grows; [|done..]. lia.
Qed.
Lemma take_item_core x w : queue w !! taken w = Some x → (∀ p, x ≠ Payload p) → core w → core (take_item w).
Proof.
  intros Hx Hp []. split; cbn; [apply lookup_lt_Some in Hx; lia| |by eapply take_item_stream|done|done|].
  - rewrite (take_S_r _ _ _ Hx), payloads_app, length_app, payloads_one, i_sequence0. destruct x as [p| |]; [by destruct (Hp p)|lia|lia].
  - intros n [Hn Hc]%i_barriers0. split; [lia|done].
Qed.
Lemma add_row_core p w : queue w !! taken w = Some (Payload p) → core w → core (add_row p (take_item w)).
Proof.
  intros Hx []. split; cbn; [apply lookup_lt_Some in Hx; lia| |by apply add_row_stream|done|done|].
  - rewrite (take_S_r _ _ _ Hx), payloads_app, length_app, payloads_one, i_sequence0. lia.
  - intros n [Hn Hc]%i_barriers0. split; [lia|done].
Qed.
Lemma take_not_stop x w : queue w !! taken w = Some x → x ≠ Stop → Stop ∉ take (taken w) (queue w) → Stop ∉ take (S (taken w)) (queue w).
Proof. intros Hx Hs H. rewrite (take_S_r _ _ _ Hx). set_solver. Qed.

Lemma save_inv r w : inv w → phase w = Running → inv (save r w).
Proof.
  intros [Hc Hr Hl] Hp. destruct (save_frame r w) as (Hq & Ht & _ & _ & _ & _ & _ & Hp').
  split; rewrite ?Hq, ?Ht, ?Hp'; [by apply save_core|done|by rewrite Hp].
Qed.
Lemma grows_take w : grows w (take_item w).
Proof. by split. Qed.

Lemma set_phase_inv c n w : core w → c ≠ Running → rows w = [] → queue w !! n = Some Stop → (n < taken w)%nat → covered n w → inv (set_phase c w).
Proof. intros [] Hc Hr Hn Ht Hv. split; cbn; [by split|done|]. intros _. split; [done|]. by exists n. Qed.
Lemma close_core r w : core w → rows w = [] → core (close_stream r w) ∧ grows w (close_stream r w).
Proof.
  intros [] Hr. destruct (close_stream_ok r w Hr i_stream0) as (Hs & Hf & He). destruct (close_frame r w) as (Hq & Ht & Hn & _ & Hc & Hl & Hb & _).
  assert (grows w (close_stream r w)) as Hg by (split; rewrite ?Hq, ?Hc; done). split; [|done].
  split; rewrite ?Hq, ?Ht, ?Hn, ?Hc, ?Hl, ?Hb; [done..|]. intros n [Hn' H]%i_barriers0. split; [done|]. eapply covered_grows; [|done..]. lia.
Qed.

Lemma consume_inv elapsed r w : inv w → inv (consume elapsed r w) ∧ grows w (consume elapsed r w).
Proof.
  intros Hi. destruct Hi as [Hc Hr Hl] eqn:Ei. clear Ei. unfold consume. destruct (phase w) eqn:Hp; [| |done].
  - specialize (Hr eq_refl). destruct (queue w !! taken w) as [x|] eqn:Hx.
    2: { destruct (_ && _); [|done]. split; [by apply save_inv|]. apply save_spec, Hc. }
    assert (S (taken w) <= length (queue w))%nat as Hlt by (apply lookup_lt_Some in Hx; lia).
    destruct x as [p| |].
    + set (w0 := add_row p (take_item w)).
      assert (inv w0 ∧ grows w w0) as [Hw Hg].
      { split; [|by split]. split; [by apply add_row_core| |by cbn; rewrite Hp]. intros _. by apply (take_not_stop _ w Hx). }
      destruct (_ || elapsed); [|done]. split; [by apply save_inv|]. eapply grows_trans; [done|]. apply save_spec, Hw.
    + set (w0 := take_item w). assert (core w0) as Hw by (by eapply take_item_core).
      destruct (save_spec r w0 (i_stream _ Hw)) as (_ & Hv & Hg). destruct (save_frame r w0) as (Hq & Ht & _ & _ & _ & _ & Hb & Hp').
      assert (inv (save r w0)) as [[] Hr' _].
      { apply save_inv; [|done]. split; [done| |by cbn; rewrite Hp]. intros _. by apply (take_not_stop _ w Hx). }
      split; [|destruct Hg; by split]. split; cbn; [split; cbn; try done|done|by rewrite Hp'; cbn; rewrite Hp].
      intros n [->%elem_of_singleton|Hn]%elem_of_union; [|by apply i_barriers0]. rewrite Ht. cbn. split; [lia|].
      apply (covered_le _ (taken w0)); [cbn; lia|exact Hv].
    + set (w0 := take_item w). assert (core w0) as Hw by (by eapply take_item_core).
      destruct (save_spec r w0 (i_stream _ Hw)) as (_ & Hv & Hg). destruct (save_frame r w0) as (Hq & Ht & _ & Hrows & _ & _ & _ & Hp').
      split; [|destruct Hg; by split]. apply (set_phase_inv _ (taken w)); [by apply save_core|done|done|by rewrite Hq|rewrite Ht; cbn; lia|].
      apply (covered_le _ (taken w0)); [cbn; lia|exact Hv].
  - destruct Hl as (Hrows & n & Hn & Ht & Hv); [done|]. destruct (close_core r w Hc Hrows) as [Hc' Hg].
    split; [|destruct Hg; by split]. destruct (close_frame r w) as (Hq & Ht' & _ & Hr' & _).
    apply (set_phase_inv _ n); [done|done|done|by rewrite Hq|by rewrite Ht'|]. eapply covered_grows; [|done..]. destruct Hc. lia.
Qed.

(** ** The callers *)

(** Item [k] is before any sentinel. *)
Definition before_stop (k : nat) (w : writer) : Prop := ∀ m, queue w !! m = Some Stop → (k < m)%nat.
Definition thread_ok (w : writer) (t : thread) : Prop :=
  match t with
  | Put k p => queue w !! k = Some (Payload p)
  | Wrote k p => before_stop k w ∧ queue w !! k = Some (Payload p)
  | Waiting n => before_stop n w ∧ queue w !! n = Some Barrier
  | Closed => closed w = true
  | Joining => Stop ∈ queue w
  | _ => True
  end.

Lemma before_stop_grows k w w' : (k < length (queue w))%nat → before_stop k w → queue w `prefix_of` queue w' → before_stop k w'.
Proof.
  intros Hk H [l Hq] m Hm. destruct (decide (m < length (queue w))%nat) as [Hl|Hl]; [|lia].
  apply H. by rewrite Hq, lookup_app_l in Hm.
Qed.
Lemma thread_ok_grows w w' t : grows w w' → thread_ok w t → thread_ok w' t.
Proof.
  intros [Hq _ _ Hc]. assert (∀ k x, queue w !! k = Some x → queue w' !! k = Some x) as Hl by (intros k x Hx; by eapply prefix_lookup_Some).
  destruct t; cbn; try done.
  - auto.
  - intros [Hb Hn]. split; [|auto]. eapply before_stop_grows; [by eapply lookup_lt_Some|done..].
  - intros H. by eapply elem_of_prefix.
  - intros [Hb Hp]. split; [|auto]. eapply before_stop_grows; [by eapply lookup_lt_Some|done..].
Qed.

Lemma put_inv x w : inv w → (x = Stop → closed w = true) → inv (put x w) ∧ grows w (put x w).
Proof.
  intros [[] Hr Hl] Hx. assert (grows w (put x w)) as Hg by (split; [by eexists|done..]). split; [|done].
  split; [split|..]; cbn; [rewrite length_app; cbn; lia|by rewrite take_app_le| | | | | |].
  - unfold stream_ok. cbn. by rewrite rows_to_snoc.
  - intros Ho. rewrite not_elem_of_app, list_elem_of_singleton. split; [auto|]. intros <-. by rewrite (Hx eq_refl) in Ho.
  - intros H1 H2. apply elem_of_app. auto.
  - intros n [Hn Hc]%i_barriers0. split; [done|]. eapply covered_grows; [|done..]. lia.
  - by rewrite take_app_le.
  - intros (Hrows & n & Hn & Ht & Hc)%Hl. split; [done|]. exists n. split_and!; [by apply lookup_app_l_Some|done|].
    eapply covered_grows; [|done..]. lia.
Qed.
Lemma set_closed_inv w : inv w → inv (set_closed w) ∧ grows w (set_closed w).
Proof. intros [[] Hr Hl]. split; [|by split]. by split; [split|..]. Qed.
Lemma unlock_inv w : inv w → Stop ∈ queue w → inv (unlock w) ∧ grows w (unlock w).
Proof. intros [[] Hr Hl] Hs. split; [|by split]. by split; [split|..]. Qed.

Lemma no_stop_before k w : Stop ∉ queue w → before_stop k w.
Proof. intros H m Hm. destruct H. by eapply list_elem_of_lookup_2. Qed.
Lemma lookup_put x w : queue (put x w) !! length (queue w) = Some x.
Proof. cbn. by rewrite lookup_app_r, Nat.sub_diag. Qed.

Lemma check_error_ok w : thread_ok w (check_error w).
Proof. unfold check_error. by destruct (error w). Qed.
#[local] Hint Resolve check_error_ok grows_refl : log.
Lemma advance_inv w t : inv w → thread_ok w t → inv (advance t w).1 ∧ grows w (advance t w).1 ∧ thread_ok (advance t w).1 (advance t w).2.
Proof.
  intros Hi Ht. pose proof (i_core _ Hi) as []. destruct t; cbn [advance fst snd thread_ok] in *; auto with log.
  - destruct (put_inv (Payload p) w Hi) as [? ?]; [done|]. split_and!; [done|done|apply lookup_put].
  - split_and!; [done|apply grows_refl|]. destruct (closed w); [done|]. split; [by apply no_stop_before, i_open0|done].
  - destruct (locked w) eqn:El; [by auto with log|]. destruct (closed w) eqn:Ec; cbn; [by split_and!; auto with log|].
    destruct (put_inv Barrier w Hi) as [? ?]; [done|]. split_and!; [done|done| |apply lookup_put].
    intros m Hm. destruct (decide (m < length (queue w))%nat) as [Hl|Hl]; [|destruct (decide (m = length (queue w))) as [->|]; [|lia]].
    + destruct (i_open0 eq_refl). apply (list_elem_of_lookup_2 _ m). cbn in Hm. by rewrite lookup_app_l in Hm.
    + by rewrite lookup_put in Hm.
  - split_and!; [done|apply grows_refl|]. case_bool_decide; [apply check_error_ok|done].
  - destruct (locked w) eqn:El; [by auto with log|]. destruct (closed w) eqn:Ec; cbn; [by split_and!; auto with log|].
    destruct (set_closed_inv w Hi). by split_and!.
  - destruct (put_inv Stop w Hi) as [Hp Hg]; [done|]. assert (Stop ∈ queue (put Stop w)) as Hs by (cbn; set_solver).
    destruct (unlock_inv _ Hp Hs) as [Hu Hg']. split_and!; [done|by eapply grows_trans|done].
  - split_and!; [done|apply grows_refl|]. destruct (phase w); [done|done|apply check_error_ok].
Qed.

(** *** Every run *)

Record sys_ok (s : system) : Prop := SysOk { s_inv : inv (the_writer s); s_threads : Forall (thread_ok (the_writer s)) (threads s) }.

Lemma start_ok c w : thread_ok w (start c w).
Proof. destruct c; cbn; [destruct (error w); [done|]; by destruct (closed w)|done|done]. Qed.

Lemma log_step_ok s ev : sys_ok s → sys_ok (step s ev) ∧ grows (the_writer s) (the_writer (step s ev)).
Proof.
  intros [Hi Ht]. destruct ev as [c|i|elapsed r]; cbn.
  - split; [|apply grows_refl]. split; cbn; [done|]. apply Forall_app. split; [done|]. constructor; [apply start_ok|constructor].
  - destruct (threads s !! i) as [t|] eqn:E; [|by split; [|apply grows_refl]].
    destruct (advance_inv (the_writer s) t Hi (proj1 (Forall_lookup _ _) Ht i t E)) as (Hi' & Hg & Ht').
    destruct (advance t (the_writer s)) as [w t']. cbn in *. split; [|done]. split; cbn; [done|]. apply Forall_insert; [|done].
    eapply Forall_impl; [done|]. intros u. by apply thread_ok_grows.
  - destruct (consume_inv elapsed r (the_writer s) Hi) as [Hi' Hg]. split; [|done]. split; cbn; [done|].
    eapply Forall_impl; [done|]. intros u. by apply thread_ok_grows.
Qed.
Lemma log_run_from_ok l s : sys_ok s → sys_ok (run_from s l) ∧ grows (the_writer s) (the_writer (run_from s l)).
Proof.
  revert s. induction l as [|ev l IH]; intros s Hs; cbn; [by split; [|apply grows_refl]|].
  destruct (log_step_ok s ev Hs) as [H1 H2]. destruct (IH _ H1) as [H3 H4]. split; [done|]. by eapply grows_trans.
Qed.
Lemma log_init_ok : sys_ok (System writer_init []).
Proof. split; [apply inv_init|constructor]. Qed.

(** What a flush or close that was called after event [k] was written has reached:
    [j] is its thread. *)
Definition reached (k j : nat) (s : system) : Prop :=
  match threads s !! j with
  | Some (Waiting n) => (k < n)%nat
  | Some Returned => rows_to (S k) (queue (the_writer s)) `prefix_of` file (the_writer s)
  | _ => True
  end.

Lemma rows_to_grows k w w' : (k < length (queue w))%nat → grows w w' →
  rows_to (S k) (queue w) `prefix_of` file w → rows_to (S k) (queue w') `prefix_of` file w'.
Proof. intros Hk [[l Hq] Hf _ _] H. unfold rows_to in *. rewrite Hq, take_app_le by lia. by etrans. Qed.

Lemma check_reached k w n : error w = false → (k < n)%nat → covered n w → rows_to (S k) (queue w) `prefix_of` file w.
Proof. intros He Hk Hc. by apply (covered_le (S k) n). Qed.

(** Such a thread returns only once the rows are in the file. *)
Lemma advance_reached k w t : inv w → before_stop k w → (k < length (queue w))%nat → thread_ok w t →
  (∀ n, t = Waiting n → (k < n)%nat) → t ≠ Returned →
  let '(w', t') := advance t w in (∀ n, t' = Waiting n → (k < n)%nat) ∧ (t' = Returned → rows_to (S k) (queue w') `prefix_of` file w').
Proof.
  intros [[] Hr Hl] Hb Hk Ht Hw Hret. destruct t; cbn; try done.
  - by destruct (closed w).
  - destruct (locked w); [done|]. destruct (closed w); [done|]. split; [|done]. by intros n [= <-].
  - case_bool_decide as Hin; [|split; [by intros ? [= <-]; apply Hw|done]]. unfold check_error. destruct (error w) eqn:He; [done|]. split; [done|]. intros _.
    apply (check_reached _ _ n); [done|by apply Hw|by apply i_barriers0].
  - destruct (locked w); [done|]. by destruct (closed w).
  - destruct (phase w) eqn:Hp; [done|done|]. unfold check_error. destruct (error w) eqn:He; [done|]. split; [done|]. intros _.
    destruct Hl as (_ & n & Hn & _ & Hc); [done|]. apply (check_reached _ _ n); [done|by apply Hb|done].
Qed.

Lemma step_reached k p j ev s : sys_ok s → thread_ok (the_writer s) (Wrote k p) → (j < length (threads s))%nat → reached k j s → reached k j (step s ev).
Proof.
  intros Hs [Hb Hk%lookup_lt_Some] Hj Hr. destruct (log_step_ok s ev Hs) as [_ Hg]. unfold reached in *.
  assert (∀ t, threads s !! j = Some t → threads (step s ev) !! j = Some t → reached k j (step s ev)) as Hsame.
  { intros t E E'. unfold reached. rewrite E', E in *. destruct t; try done. by eapply rows_to_grows. }
  destruct (lookup_lt_is_Some_2 _ _ Hj) as [t E]. destruct ev as [c|i|elapsed r].
  - apply (Hsame t E). cbn. by apply lookup_app_l_Some.
  - destruct (decide (i = j)) as [->|Hi].
    2: { apply (Hsame t E). cbn. destruct (threads s !! i) as [u|]; [|done]. destruct (advance u (the_writer s)). cbn. by rewrite list_lookup_insert_ne. }
    destruct (decide (t = Returned)) as [->|Ht].
    { apply (Hsame _ E). cbn. rewrite E. cbn. by rewrite list_lookup_insert_eq. }
    rewrite E in Hr. destruct Hs as [Hi Hts].
    pose proof (advance_reached k (the_writer s) t Hi Hb Hk (proj1 (Forall_lookup _ _) Hts j t E)) as H.
    cbn. rewrite E. destruct (advance t (the_writer s)) as [w t']. cbn. rewrite list_lookup_insert_eq by done.
    destruct H as [H1 H2]; [by intros n ->|done|]. destruct t'; try done; [by apply H1|by apply H2].
  - by apply (Hsame t E).
Qed.

Lemma step_length s ev : (length (threads s) <= length (threads (step s ev)))%nat.
Proof.
  destruct ev as [c|i|elapsed r]; cbn; [rewrite length_app; lia| |done].
  destruct (threads s !! i); [|done]. destruct (advance _ _). cbn. by rewrite length_insert.
Qed.
Lemma run_reached k p j l s : sys_ok s → thread_ok (the_writer s) (Wrote k p) → (j < length (threads s))%nat → reached k j s → reached k j (run_from s l).
Proof.
  revert s. induction l as [|ev l IH]; intros s Hs Hk Hj Hr; cbn; [done|]. destruct (log_step_ok s ev Hs) as [Hs' Hg].
  apply IH; [done|by eapply thread_ok_grows|pose proof (step_length s ev); lia|by eapply step_reached].
Qed.

(** C27: the event log loses nothing that it has confirmed.  In every run, whatever
    the threads and the stream do, the file is a beginning of the log: its rows are
    the events in the order of their puts, numbered from 0 without a gap.  And when
    a [write] has returned and a [flush] or [close] that was called later returns
    too, the row of that event is in the file, with its number; this holds although
    [write] takes no lock and may race with [close], and although the stream may
    fail at any time (then [flush] and [close] raise). *)
Theorem flushed_is_written (l1 l2 : list event) (i k : nat) (p : string) (c : call)
    (Hw : threads (run l1) !! i = Some (Wrote k p)) (Hc : c = Flush ∨ c = Close) :
  let s := run_from (run l1) (Call c :: l2) in
  file (the_writer s) `prefix_of` numbered (payloads (queue (the_writer s))) ∧
  (threads s !! length (threads (run l1)) = Some Returned →
   queue (the_writer s) !! k = Some (Payload p) ∧ (length (payloads (take k (queue (the_writer s)))), p) ∈ file (the_writer s)).
Proof.
  destruct (log_run_from_ok l1 _ log_init_ok) as [H1 _]. fold (run l1) in H1. set (s1 := run l1) in *.
  assert (thread_ok (the_writer s1) (Wrote k p)) as Hk by (by apply (proj1 (Forall_lookup _ _) (s_threads _ H1) i)).
  destruct (log_run_from_ok (Call c :: l2) _ H1) as [H2 Hg]. cbn zeta. split.
  - destruct H2 as [[[] _ _] _]. destruct i_stream0 as [Hf _]. etrans; [|etrans; [apply Hf|]]; [by eexists|].
    rewrite <- (take_drop (taken (the_writer (run_from s1 (Call c :: l2)))) (queue _)) at 2. rewrite payloads_app. apply numbered_app_prefix.
  - intros Hret. destruct (thread_ok_grows _ _ _ Hg Hk) as [_ Hp]. split; [done|].
    eapply elem_of_prefix; [apply rows_to_in; [done|]|].
    1: instantiate (1 := S k); lia.
    change (run_from s1 (Call c :: l2)) with (run_from (step s1 (Call c)) l2) in *. assert (reached k (length (threads s1)) (step s1 (Call c))) as Hr.
    { unfold reached. cbn. rewrite lookup_app_r, Nat.sub_diag by done. by destruct Hc as [-> | ->]. }
    apply (run_reached k p _ l2) in Hr; [|by apply log_step_ok|by apply (thread_ok_grows _ _ (Wrote k p) (proj2 (log_step_ok _ _ H1)))|cbn; rewrite length_app; cbn; lia].
    unfold reached in Hr. by rewrite Hret in Hr.
Qed.

(** ** Every wait ends *)

Definition consumes (l : list event) : nat := foldr (λ ev n, match ev with Consume _ _ => S n | _ => n end) 0%nat l.

(** Item [m] is [x], and no sentinel is before it. *)
Definition comes (m : nat) (x : item) (w : writer) : Prop := queue w !! m = Some x ∧ ∀ n, queue w !! n = Some Stop → (m <= n)%nat.

Lemma comes_grows m x w w' : comes m x w → grows w w' → comes m x w'.
Proof.
  intros [Hm Hn] [[l Hq] _ _ _]. split; [rewrite Hq; by apply lookup_app_l_Some|]. intros n H. apply lookup_lt_Some in Hm.
  destruct (decide (n < length (queue w))%nat) as [Hl|]; [|lia]. apply Hn. by rewrite Hq, lookup_app_l in H.
Qed.

Lemma advance_frame t w : taken (advance t w).1 = taken w ∧ phase (advance t w).1 = phase w ∧ barriers (advance t w).1 = barriers w.
Proof. destruct t; cbn; try done; destruct (locked w); try done; by destruct (closed w). Qed.
Lemma step_frame s ev : (∀ e r, ev ≠ Consume e r) → taken (the_writer (step s ev)) = taken (the_writer s) ∧
  phase (the_writer (step s ev)) = phase (the_writer s) ∧ barriers (the_writer (step s ev)) = barriers (the_writer s).
Proof.
  intros Hn. destruct ev as [c|i|e r]; cbn; [done| |by destruct (Hn e r)]. destruct (threads s !! i) as [t|]; [|done].
  pose proof (advance_frame t (the_writer s)) as H. by destruct (advance t (the_writer s)).
Qed.

(** A measure of what the consumer still has to do that every round lowers. *)
Lemma run_rounds (f : nat → consumer → nat) m x
    (Hf : ∀ w e r, inv w → comes m x w → (f (taken (consume e r w)) (phase (consume e r w)) <= pred (f (taken w) (phase w)))%nat) l s :
  sys_ok s → comes m x (the_writer s) →
  (f (taken (the_writer (run_from s l))) (phase (the_writer (run_from s l))) <= f (taken (the_writer s)) (phase (the_writer s)) - consumes l)%nat.
Proof.
  revert s. induction l as [|ev l IH]; intros s Hs Hc; cbn; [lia|]. destruct (log_step_ok s ev Hs) as [Hs' Hg].
  etrans; [apply IH; [done|by eapply comes_grows]|]. destruct ev as [c|i|e r].
  - done.
  - destruct (step_frame s (Step i)) as (-> & -> & _); done.
  - pose proof (Hf (the_writer s) e r (s_inv _ Hs) Hc). cbn in *. fold (consumes l). lia.
Qed.

Lemma consume_taken e r w : taken (consume e r w) = match phase w, queue w !! taken w with Running, Some _ => S (taken w) | _, _ => taken w end ∧
  phase (consume e r w) = match phase w, queue w !! taken w with Running, Some Stop => Leaving | Running, _ => Running | _, _ => Finished end.
Proof.
  unfold consume. destruct (phase w) eqn:Hp; [|..].
  - destruct (queue w !! taken w) as [[p| |]|]; cbn.
    + destruct (_ || _); [|by cbn; rewrite Hp]. by destruct (save_frame r (add_row p (take_item w))) as (_ & -> & _ & _ & _ & _ & _ & ->).
    + by destruct (save_frame r (take_item w)) as (_ & -> & _ & _ & _ & _ & _ & ->).
    + by destruct (save_frame r (take_item w)) as (_ & -> & _).
    + destruct (_ && _); [|by rewrite Hp]. by destruct (save_frame r w) as (_ & -> & _ & _ & _ & _ & _ & ->).
  - cbn. by destruct (close_frame r w) as (_ & -> & _).
  - by rewrite Hp.
Qed.

(** While the consumer has not left, it has met no sentinel. *)
Lemma running_before m x w : inv w → comes m x w → phase w ≠ Running → (m < taken w)%nat.
Proof. intros [_ _ Hl] [_ Hm] (_ & n & Hn & Ht & _)%Hl. apply Hm in Hn. lia. Qed.
Lemma comes_item m x w : comes m x w → (taken w <= m)%nat → ∃ y, queue w !! taken w = Some y.
Proof. intros [Hm%lookup_lt_Some _] Ht. apply lookup_lt_is_Some_2. lia. Qed.

Lemma barrier_rounds m w e r : inv w → comes m Barrier w → (S m - taken (consume e r w) <= pred (S m - taken w))%nat.
Proof.
  intros Hi Hc. destruct (consume_taken e r w) as [-> _]. destruct (decide (taken w <= m)%nat) as [Ht|]; [|destruct (phase w), (queue w !! taken w); lia].
  destruct (comes_item _ _ _ Hc Ht) as [y ->]. destruct (phase w) eqn:Hp; [lia|..]; pose proof (running_before m Barrier w Hi Hc); rewrite Hp in *; naive_solver lia.
Qed.

Definition to_finish (m t : nat) (c : consumer) : nat := match c with Running => S (S m - t) | Leaving => 1 | Finished => 0 end.
Lemma stop_rounds m w e r : inv w → comes m Stop w → (to_finish m (taken (consume e r w)) (phase (consume e r w)) <= pred (to_finish m (taken w) (phase w)))%nat.
Proof.
  intros Hi Hc. destruct (consume_taken e r w) as [-> ->]. destruct (phase w) eqn:Hp; cbn; [|by destruct (queue w !! taken w) as [[]|]; cbn; lia..].
  assert (taken w <= m)%nat as Ht.
  { destruct (decide (taken w <= m)%nat); [done|]. destruct (i_running _ Hi Hp). apply (list_elem_of_lookup_2 _ m).
    rewrite lookup_take_lt by lia. apply Hc. }
  destruct (comes_item _ _ _ Hc Ht) as [y Hy]. rewrite Hy. destruct y; cbn; lia.
Qed.

(** Every barrier that the consumer has met is set. *)
Definition marked (w : writer) : Prop := ∀ n, (n < taken w)%nat → queue w !! n = Some Barrier → n ∈ barriers w.
Lemma consume_marked e r w : inv w → marked w → marked (consume e r w).
Proof.
  intros Hi Hm n. destruct (consume_inv e r w Hi) as [_ [[l Hq] _ _ _]]. rewrite (proj1 (consume_taken e r w)).
  assert (barriers w ⊆ barriers (consume e r w) ∧ (phase w = Running → queue w !! taken w = Some Barrier → taken w ∈ barriers (consume e r w)) ∧ queue (consume e r w) = queue w) as (Hb & Hn & ->).
  { clear. unfold consume. destruct (phase w); [|..]; [|by destruct r|done]. destruct (queue w !! taken w) as [[p| |]|].
    - destruct (_ || _); [|done]. by destruct (save_frame r (add_row p (take_item w))) as (-> & _ & _ & _ & _ & _ & -> & _).
    - cbn. destruct (save_frame r (take_item w)) as (-> & _ & _ & _ & _ & _ & -> & _). cbn. set_solver.
    - cbn. by destruct (save_frame r (take_item w)) as (-> & _ & _ & _ & _ & _ & -> & _).
    - destruct (_ && _); [|done]. by destruct (save_frame r w) as (-> & _ & _ & _ & _ & _ & -> & _). }
  intros Ht Hx. destruct (decide (n < taken w)%nat) as [Hl|Hl]; [by apply Hb, Hm|].
  destruct (phase w); [|lia..]. destruct (queue w !! taken w) eqn:E; [|lia]. assert (n = taken w) as -> by lia. apply Hn; congruence.
Qed.
Lemma run_marked l s : sys_ok s → marked (the_writer s) → marked (the_writer (run_from s l)).
Proof.
  revert s. induction l as [|ev l IH]; intros s Hs Hm; cbn; [done|]. apply IH; [by apply log_step_ok|].
  destruct ev as [c|i|e r]; [done| |apply consume_marked; [apply Hs|done]].
  destruct (step_frame s (Step i)) as (Ht & _ & Hb); [done|]. intros n Hn Hx. rewrite Hb. rewrite Ht in Hn. apply Hm; [done|].
  destruct (log_step_ok s (Step i) Hs) as [_ [[q Hq] _ _ _]]. rewrite Hq, lookup_app_l in Hx; [done|]. pose proof (i_taken _ (i_core _ (s_inv _ Hs))). lia.
Qed.

(** The lock is held by a [close] between its two assignments. *)
Definition lock_held (s : system) : Prop := locked (the_writer s) = true → Closed ∈ threads s.
Lemma advance_locked t w : locked (advance t w).1 = true → (locked w = true ∧ t ≠ Closed) ∨ (advance t w).2 = Closed.
Proof.
  destruct t; cbn; try (by left); try done; destruct (locked w) eqn:E; try (by left); destruct (closed w); cbn; rewrite ?E; try done; by right.
Qed.
Lemma run_lock_held l s : lock_held s → lock_held (run_from s l).
Proof.
  revert s. induction l as [|ev l IH]; intros s Hs; cbn; [done|]. apply IH. unfold lock_held in *. destruct ev as [c|i|e r]; cbn.
  - intros H. apply elem_of_app. auto.
  - destruct (threads s !! i) as [t|] eqn:E; [|done]. assert (i < length (threads s))%nat as Hi by (by eapply lookup_lt_Some).
    pose proof (advance_locked t (the_writer s)) as H. destruct (advance t (the_writer s)) as [w t']. cbn in *.
    intros [[Hl Ht] | ->]%H; [|apply (list_elem_of_lookup_2 _ i); by apply list_lookup_insert_eq].
    specialize (Hs Hl). apply list_elem_of_lookup in Hs as [j Hj]. apply (list_elem_of_lookup_2 _ j).
    rewrite list_lookup_insert_ne; [done|]. intros ->. congruence.
  - intros H. apply Hs. unfold consume in H. destruct (phase (the_writer s)); [|..]; [|by destruct r|done].
    destruct (queue (the_writer s) !! taken (the_writer s)) as [[p| |]|].
    all: try (destruct (_ || _)); try (destruct (_ && _)); try done.
    all: match type of H with context [save ?x ?w] => destruct (save_frame x w) as (_ & _ & _ & _ & _ & Hl & _) end.
    all: cbn in H, Hl; congruence.
Qed.

Lemma first_stop (q : list item) : Stop ∈ q → ∃ m, q !! m = Some Stop ∧ ∀ n, q !! n = Some Stop → (m <= n)%nat.
Proof.
  induction q as [|x q IH]; [by intros ?%elem_of_nil|]. destruct (decide (x = Stop)) as [->|Hx]; [intros _; exists 0%nat; split; [done|lia]|].
  intros [|Hs]%elem_of_cons; [congruence|]. destruct (IH Hs) as (m & Hm & Hn). exists (S m). split; [done|].
  intros [|n] H; [cbn in H; congruence|]. apply Hn in H. lia.
Qed.

(** Every wait of the event log ends.  In every run, a [flush] that waits for
    its barrier and a [flush] or [close] that joins the consumer get on as soon as
    the consumer has made as many rounds as items are left, and one to leave, no
    matter what other threads do meanwhile and whether the stream fails: their next
    block returns, or raises when the stream has failed.  And a caller that waits
    for the lock waits for a [close] that is ready to free it with its next block. *)
Theorem waits_end (l1 l2 : list event) (i : nat) (t : thread)
    (Ht : threads (run l1) !! i = Some t) (Hw : t = Joining ∨ ∃ n, t = Waiting n)
    (Hl : (S (length (queue (the_writer (run l1)))) <= taken (the_writer (run l1)) + consumes l2)%nat) :
  let s := run_from (run l1) l2 in let w := the_writer s in
  advance t w = (w, if error w then Raised write_failed else Returned) ∧
  (locked w = true → ∃ j, threads s !! j = Some Closed ∧ locked (advance Closed w).1 = false).
Proof.
  destruct (log_run_from_ok l1 _ log_init_ok) as [H1 _]. fold (run l1) in H1. set (s1 := run l1) in *.
  destruct (log_run_from_ok l2 _ H1) as [H2 Hg]. pose proof (proj1 (Forall_lookup _ _) (s_threads _ H1) i t Ht) as Hok.
  cbn zeta. split.
  - destruct Hw as [->|[n ->]]; cbn in Hok |- *.
    + destruct (first_stop _ Hok) as [m Hm]. pose proof (run_rounds (to_finish m) m Stop (stop_rounds m) l2 s1 H1 Hm) as Hr.
      assert (to_finish m (taken (the_writer s1)) (phase (the_writer s1)) <= consumes l2)%nat as Hle.
      { destruct Hm as [Hm%lookup_lt_Some _]. pose proof (i_taken _ (i_core _ (s_inv _ H1))). unfold to_finish. destruct (phase (the_writer s1)); lia. }
      destruct (phase (the_writer (run_from s1 l2))); cbn in Hr; [lia..|done].
    + assert (comes n Barrier (the_writer s1)) as Hc.
      { destruct Hok as [Hb Hx]. split; [done|]. intros m Hm%Hb. lia. }
      pose proof (run_rounds (λ t _, S n - t)%nat n Barrier (barrier_rounds n) l2 s1 H1 Hc) as Hr. cbn in Hr.
      assert (n ∈ barriers (the_writer (run_from s1 l2))) as Hin.
      { apply run_marked; [done| |destruct Hc as [Hc%lookup_lt_Some _]; lia|by apply (comes_grows n Barrier _ _ Hc Hg)].
        apply run_marked; [apply log_init_ok|]. intros k Hk. cbn in Hk. lia. }
      by rewrite bool_decide_eq_true_2 by done.
  - intros Hlk. assert (lock_held (run_from s1 l2)) as Hh by (apply run_lock_held, run_lock_held; done).
    specialize (Hh Hlk). apply list_elem_of_lookup in Hh as [j Hj]. by exists j.
Qed.

(** Two events, a flush after the first one, and a close that the second write
    races with: [closed] is set before its [put]. *)
Definition demo_written : list event := [Call (Write "a"); Step 0; Step 0].
Definition demo_rest : list event :=
  [Step 1; Consume false Fine; Call (Write "b"); Consume true Fine; Step 1; Call Close; Step 3; Step 2; Step 3; Step 2; Consume false Fine;
   Consume false Fine; Consume false Fine; Step 3].
Lemma flushed_is_written_witness :
  threads (run_from (run demo_written) (Call Flush :: demo_rest)) = [Wrote 0 "a"; Returned; Raised writer_closed; Returned] ∧
  (0%nat, "a") ∈ file (the_writer (run_from (run demo_written) (Call Flush :: demo_rest))).
Proof.
  split; [vm_compute; reflexivity|].
  destruct (flushed_is_written demo_written demo_rest 0 0 "a" Flush) as [_ H]; [vm_compute; reflexivity|by left|].
  destruct H as [_ H]; [vm_compute; reflexivity|]. exact H.
Defined.
(** The late write raises, and its event is in the log all the same. *)
Example late_write_is_logged : let w := the_writer (run_from (run demo_written) (Call Flush :: demo_rest)) in
  file w = [(0%nat, "a"); (1%nat, "b")] ∧ phase w = Finished.
Proof. vm_compute. done. Qed.

Lemma waits_end_witness :
  let s := run_from (run (demo_written ++ [Call Flush; Step 1])) [Consume false Fine; Consume false (Fails 0 0); Consume false Fine] in
  advance (Waiting 1) (the_writer s) = (the_writer s, Raised write_failed) ∧ locked (the_writer s) = false.
Proof.
  split; [|vm_compute; reflexivity].
  destruct (waits_end (demo_written ++ [Call Flush; Step 1]) [Consume false Fine; Consume false (Fails 0 0); Consume false Fine] 1 (Waiting 1)) as [H _];
    [vm_compute; reflexivity|right; by exists 1%nat|vm_compute; lia|].
  rewrite H. vm_compute. reflexivity.
Defined.
End Log.
