(* ===== verification/ActivityTracker.v ===== *)
(** * The activity of an arm (src/clawbox/experiments/worker.py)

    [ArmActivityTracker] derives from the events of the worker which sessions wait,
    start, run and have ended.  Producers only put compact transitions in a bounded
    queue, without a lock; a reporting snapshot applies them, under a lock, before
    it reads the state. *)
From S2P Require Import Prelude.

Module Tracker.
(** The attributes of the tracker: times by session, sessions and times by
    execution, sets of sessions. *)
Inductive timed := vm_create_waiting | vm_creating | agent_starting | llm_waiting | vm_prepare_waiting | vm_preparing.
Inductive operations := dependency_install_waiting | dependency_install_active | tool_admission_waiting | tool_admitted_waiting_start | tool_executing.
Inductive sessions := offered | activated | ever_activated | completed | failed.
#[export] Instance timed_eq_dec : EqDecision timed. Proof. solve_decision. Defined.
#[export] Instance operations_eq_dec : EqDecision operations. Proof. solve_decision. Defined.
#[export] Instance sessions_eq_dec : EqDecision sessions. Proof. solve_decision. Defined.

Record state := State {
  times : timed → gmap string Q;
  owners : operations → gmap string (string * Q);
  sets : sessions → gset string }.
Definition state_init : state := State (λ _, ∅) (λ _, ∅) (λ _, ∅).

(** The keys of an event that are kept; an absent one is empty. *)
Record transition := Transition { name : string; session_id : string; execution_id : string; event_phase : string; valid : bool }.
#[export] Instance transition_eq_dec : EqDecision transition. Proof. solve_decision. Defined.

Definition EVENTS : list string :=
  ["session_dispatched"; "sandbox_prepare_gate_wait_started"; "sandbox_prepare_gate_acquired"; "sandbox_prepare_gate_released";
   "sandbox_create_gate_wait_started"; "sandbox_create_gate_acquired"; "pair_ready"; "agent_runnable"; "model_wait_started"; "model_response_ready";
   "dependency_install_gate_wait_started"; "dependency_install_gate_acquired"; "dependency_install_gate_released";
   "dependency_install_gate_wait_timed_out"; "tool_admission_queued"; "tool_admitted"; "tool_progress_timing"; "tool_completed";
   "tool_admission_abandoned"; "tool_admission_failed"; "session_complete"; "session_failed"].
Definition MAX_PENDING_TRANSITIONS : nat := 4096.

(** ** Applying a transition *)

(** The statements of [_apply], for the session and execution of the event. *)
Inductive stmt :=
  | Set_ (f : timed) | Pop (f : timed)
  | SetOp (f : operations) | PopOp (f : operations)
  | Add (f : sessions) | Discard (f : sessions)
  | DropSession.
Definition update {F V} `{EqDecision F} (f : F) (g : V → V) (m : F → V) : F → V := λ f', if decide (f = f') then g (m f') else m f'.
(** [_drop_session_operations] *)
Definition drop_session_operations (s : string) (st : state) : state :=
  State (times st) (λ f, filter (λ kv, kv.2.1 ≠ s) (owners st f)) (sets st).
Definition exec (s e : string) (now : Q) (st : state) (c : stmt) : state :=
  match c with
  | Set_ f => State (update f <[s := now]> (times st)) (owners st) (sets st)
  | Pop f => State (update f (delete s) (times st)) (owners st) (sets st)
  | SetOp f => State (times st) (update f <[e := (s, now)]> (owners st)) (sets st)
  | PopOp f => State (times st) (update f (delete e) (owners st)) (sets st)
  | Add f => State (times st) (owners st) (update f (λ x, {[s]} ∪ x) (sets st))
  | Discard f => State (times st) (owners st) (update f (λ x, x ∖ {[s]}) (sets st))
  | DropSession => drop_session_operations s st
  end.

Definition body (t : transition) : list stmt :=
  let named n := bool_decide (name t = n) in
  let execution := negb (bool_decide (execution_id t = "")) in
  if named "session_dispatched" then [Add offered]
  else if named "sandbox_prepare_gate_wait_started" then [Set_ vm_prepare_waiting]
  else if named "sandbox_prepare_gate_acquired" then [Pop vm_prepare_waiting; Set_ vm_preparing]
  else if named "sandbox_prepare_gate_released" then [Pop vm_preparing]
  else if named "sandbox_create_gate_wait_started" then [Set_ vm_create_waiting]
  else if named "sandbox_create_gate_acquired" then [Pop vm_create_waiting; Set_ vm_creating]
  else if named "pair_ready" then [Pop vm_creating; Set_ agent_starting]
  else if named "agent_runnable" then [Pop vm_creating; Pop agent_starting; Add activated; Add ever_activated]
  else if named "model_wait_started" then [Set_ llm_waiting]
  else if named "model_response_ready" then [Pop llm_waiting]
  else if named "dependency_install_gate_wait_started" && execution then [SetOp dependency_install_waiting]
  else if named "dependency_install_gate_acquired" && execution then [PopOp dependency_install_waiting; SetOp dependency_install_active]
  else if (named "dependency_install_gate_released" || named "dependency_install_gate_wait_timed_out") && execution
  then [PopOp dependency_install_waiting; PopOp dependency_install_active]
  else if named "tool_admission_queued" && execution then [SetOp tool_admission_waiting]
  else if named "tool_admitted" && execution then [PopOp tool_admission_waiting; SetOp tool_admitted_waiting_start]
  else if named "tool_progress_timing" && execution then
    (if bool_decide (event_phase t = "start") then [PopOp tool_admission_waiting; PopOp tool_admitted_waiting_start; SetOp tool_executing]
     else if bool_decide (event_phase t = "end") then [PopOp tool_executing] else [])
  else if (named "tool_completed" || named "tool_admission_abandoned" || named "tool_admission_failed") && execution
  then [PopOp tool_admission_waiting; PopOp tool_admitted_waiting_start; PopOp tool_executing]
  else if named "session_complete" || named "session_failed" then
    [Pop vm_prepare_waiting; Pop vm_preparing; Pop vm_create_waiting; Pop vm_creating; Pop agent_starting; Pop llm_waiting;
     Discard activated; DropSession] ++
    (if named "session_complete" && valid t then [Add completed; Discard failed] else [Add failed; Discard completed])
  else [].
Definition apply (st : state) (tn : transition * Q) : state :=
  let '(t, now) := tn in
  if bool_decide (session_id t = "") then st
  else foldl (exec (session_id t) (execution_id t) now) st (body t).
Definition replay (l : list (transition * Q)) : state := foldl apply state_init l.

(** ** The report *)

Definition oldest (now : Q) (l : list Q) : Q := match l with [] => 0 | x :: l' => Qmax 0 (now - foldl Qmin x l') end.
Definition terminal (st : state) : gset string := sets st completed ∪ sets st failed.
Definition running (st : state) : gset string := sets st activated ∖ terminal st.
Definition zsize {C} `{Size C} (c : C) : Z := Z.of_nat (size c).
Definition tasks (m : gmap string (string * Q)) : Z := zsize (list_to_set (fst <$> (map_to_list m).*2) : gset string).
Definition starts (m : gmap string (string * Q)) : list Q := snd <$> (map_to_list m).*2.

Definition counts (total_sessions : Z) (st : state) : list (string * Z) :=
  [("total_sessions", total_sessions);
   ("not_yet_offered_sessions", Z.max 0 (total_sessions - zsize (sets st offered)));
   ("offered_sessions", zsize (sets st offered));
   ("offered_not_activated_sessions", zsize ((sets st offered ∖ sets st ever_activated) ∖ terminal st));
   ("vm_prepare_waiting_sessions", zsize (times st vm_prepare_waiting));
   ("vm_preparing_sessions", zsize (times st vm_preparing));
   ("vm_create_waiting_sessions", zsize (times st vm_create_waiting));
   ("vm_creating_sessions", zsize (times st vm_creating));
   ("pair_ready_agent_starting_sessions", zsize (times st agent_starting));
   ("activated_running_sessions", zsize (running st));
   ("idle_at_llm_sessions", zsize (dom (times st llm_waiting) ∩ running st));
   ("agent_active_sessions", zsize (running st ∖ dom (times st llm_waiting)));
   ("dependency_install_waiting_operations", zsize (owners st dependency_install_waiting));
   ("dependency_install_waiting_tasks", tasks (owners st dependency_install_waiting));
   ("dependency_install_active_operations", zsize (owners st dependency_install_active));
   ("dependency_install_active_tasks", tasks (owners st dependency_install_active));
   ("tool_admission_waiting_operations", zsize (owners st tool_admission_waiting));
   ("tool_admission_waiting_tasks", tasks (owners st tool_admission_waiting));
   ("tool_admitted_waiting_start_operations", zsize (owners st tool_admitted_waiting_start));
   ("tool_executing_operations", zsize (owners st tool_executing));
   ("tool_executing_tasks", tasks (owners st tool_executing));
   ("completed_sessions", zsize (sets st completed));
   ("failed_sessions", zsize (sets st failed))].
Definition times_of (started now : Q) (st : state) : list (string * Q) :=
  let elapsed := Qmax (now - started) (1 # 1000000000) in
  [("vm_prepare_wait_oldest_seconds", oldest now (map_to_list (times st vm_prepare_waiting)).*2);
   ("vm_create_wait_oldest_seconds", oldest now (map_to_list (times st vm_create_waiting)).*2);
   ("agent_starting_oldest_seconds", oldest now (map_to_list (times st agent_starting)).*2);
   ("dependency_install_wait_oldest_seconds", oldest now (starts (owners st dependency_install_waiting)));
   ("tool_admission_wait_oldest_seconds", oldest now (starts (owners st tool_admission_waiting)));
   ("offered_rate_per_second", (inject_Z (zsize (sets st offered)) / elapsed)%Q);
   ("activation_rate_per_second", (inject_Z (zsize (sets st ever_activated)) / elapsed)%Q);
   ("completion_rate_per_second", (inject_Z (zsize (terminal st)) / elapsed)%Q)].

(** ** Producers and snapshots *)

(** [self.pending] is the history of its puts and the number of items taken. *)
Record tracker := Tracker { queue : list (transition * Q); applied : nat; dropped : Z; locked : bool; the_state : state }.
Definition tracker_init : tracker := Tracker [] 0 0 false state_init.
Definition pending (w : tracker) : nat := length (queue w) - applied w.

Inductive thread :=
  | Ignored                                  (** [observe]: not a transition *)
  | Observing (t : transition) (now : Q)     (** [observe]: before the look at the queue *)
  | Putting (t : transition) (now : Q)       (** [observe]: there was room *)
  | Dropping                                 (** [observe]: there was none *)
  | Counting (n : Z)                         (** [observe]: [dropped_transitions] was [n] *)
  | Observed (k : nat) (t : transition)      (** [observe] returned; the transition is item [k] *)
  | Dropped                                  (** [observe] returned; the transition is lost *)
  | Snapping                                 (** [snapshot]: before the lock *)
  | Draining (n : nat)                       (** [snapshot]: [n] items to apply *)
  | Measuring (d : Z)                        (** [snapshot]: [dropped_transitions] was [d] *)
  | Reported (exact : bool) (st : state).    (** [snapshot] returned *)

Inductive call := Observe (t : transition) (now : Q) | Snapshot.
Definition start (c : call) : thread :=
  match c with
  | Observe t now => if bool_decide (name t ∉ EVENTS) || bool_decide (session_id t = "") then Ignored else Observing t now
  | Snapshot => Snapping
  end.
(** The next block of a thread.  The lock is held from the first item to the
    report, so the whole report is read from one state. *)
Definition advance (h : thread) (w : tracker) : tracker * thread :=
  match h with
  | Observing t now => (w, if (MAX_PENDING_TRANSITIONS <=? pending w)%nat then Dropping else Putting t now)
  | Putting t now => (Tracker (queue w ++ [(t, now)]) (applied w) (dropped w) (locked w) (the_state w), Observed (length (queue w)) t)
  | Dropping => (w, Counting (dropped w))
  | Counting n => (Tracker (queue w) (applied w) (n + 1) (locked w) (the_state w), Dropped)
  | Snapping =>
      if locked w then (w, h)
      else (Tracker (queue w) (applied w) (dropped w) true (the_state w), Draining (pending w `min` MAX_PENDING_TRANSITIONS))
  | Draining (S n) =>
      match queue w !! applied w with
      | Some tn => (Tracker (queue w) (S (applied w)) (dropped w) (locked w) (apply (the_state w) tn), Draining n)
      | None => (w, h)
      end
  | Draining 0 => (w, Measuring (dropped w))
  | Measuring d =>
      (Tracker (queue w) (applied w) (dropped w) false (the_state w),
       Reported (negb (negb (d =? 0) || negb (pending w =? 0)%nat)) (the_state w))
  | Ignored | Observed _ _ | Dropped | Reported _ _ => (w, h)
  end.
Record system := System { the_tracker : tracker; threads : list thread }.
Inductive event := Call (c : call) | Step (i : nat).
Definition step (s : system) (ev : event) : system :=
  match ev with
  | Call c => System (the_tracker s) (threads s ++ [start c])
  | Step i =>
      match threads s !! i with
      | Some h => let '(w, h') := advance h (the_tracker s) in System w (<[i := h']> (threads s))
      | None => s
      end
  end.
Definition run_from (s : system) (l : list event) : system := foldl step s l.
Definition run (l : list event) : system := run_from (System tracker_init []) l.

(** ** Sessions do not depend on each other *)

(** What the state tells of session [s], when [owner] tells whose each execution is. *)
Record agree (owner : string → string) (s : string) (st st' : state) : Prop := Agree {
  a_times : ∀ f, times st f !! s = times st' f !! s;
  a_owners : ∀ f e, owner e = s → owners st f !! e = owners st' f !! e;
  a_sets : ∀ f, s ∈ sets st f ↔ s ∈ sets st' f }.
(** The entries of executions belong to their sessions. *)
Definition owned (owner : string → string) (st : state) : Prop := ∀ f e x, owners st f !! e = Some x → x.1 = owner e.
Definition owned_by (owner : string → string) (t : transition) : Prop := execution_id t ≠ "" → session_id t = owner (execution_id t).

#[export] Instance agree_equiv owner s : Equivalence (agree owner s).
Proof.
  split.
  - by intros st.
  - intros st st' []. split; intros; symmetry; auto.
  - intros st1 st2 st3 [H1 H2 H3] [H4 H5 H6]. split; intros; [by rewrite H1|by rewrite H2, H5|by rewrite H3].
Qed.

Definition needs_execution (c : stmt) : bool := match c with SetOp _ | PopOp _ => true | _ => false end.
Lemma body_no_execution t : execution_id t = "" → forallb (λ c, negb (needs_execution c)) (body t) = true.
Proof.
  intros He. unfold body. rewrite (bool_decide_eq_true_2 _ He). cbn. rewrite !andb_false_r.
  repeat match goal with |- context [if ?b then _ else _] => destruct b end; reflexivity.
Qed.
Lemma body_executions t c : c ∈ body t → needs_execution c = true → execution_id t ≠ "".
Proof.
  intros Hc Hn He%body_no_execution. rewrite forallb_forall in He. apply list_elem_of_In, He in Hc. by rewrite Hn in Hc.
Qed.

Lemma drop_lookup s m e : filter (λ kv : string * (string * Q), kv.2.1 ≠ s) m !! e = (m : gmap string (string * Q)) !! e ≫= λ x, if decide (x.1 = s) then None else Some x.
Proof.
  rewrite map_lookup_filter. destruct (m !! e) as [x|]; cbn; [|done]. unfold guard. cbn. destruct (decide (x.1 ≠ s)), (decide (x.1 = s)); naive_solver.
Qed.

Lemma exec_owned owner s e now c st : (needs_execution c = true → owner e = s) → owned owner st → owned owner (exec s e now st c).
Proof.
  intros He Ho f e' x. destruct c; cbn; unfold update; try apply Ho.
  - destruct (decide _); [|apply Ho]. intros [[<- <-]|[_ Hx]]%lookup_insert_Some; [by rewrite He|by apply (Ho f)].
  - destruct (decide _); [|apply Ho]. intros [_ Hx]%lookup_delete_Some. by apply (Ho f).
  - rewrite drop_lookup. intros (y & Hy & H)%bind_Some. destruct (decide _); simplify_eq. by apply (Ho f).
Qed.
Lemma exec_same owner s e now c st st' : agree owner s st st' → agree owner s (exec s e now st c) (exec s e now st' c).
Proof.
  intros [H1 H2 H3]. destruct c; (split; intros; cbn; unfold update; try case_decide; subst; auto).
  - by rewrite !lookup_insert_eq.
  - by rewrite !lookup_delete_eq.
  - rewrite !lookup_insert. case_decide; auto.
  - rewrite !lookup_delete. case_decide; auto.
  - specialize (H3 f0). set_solver.
  - specialize (H3 f0). set_solver.
  - rewrite !drop_lookup. by rewrite H2.
Qed.
(** A statement for another session leaves the view alone. *)
Lemma exec_other owner s s' e now c st : s' ≠ s → (needs_execution c = true → owner e = s') → owned owner st → agree owner s (exec s' e now st c) st.
Proof.
  intros Hs He Ho. destruct c; (split; intros; cbn; unfold update; try case_decide; subst; auto).
  - by rewrite lookup_insert_ne.
  - by rewrite lookup_delete_ne.
  - rewrite lookup_insert_ne; [done|]. intros ->. by rewrite He in Hs.
  - rewrite lookup_delete_ne; [done|]. intros ->. by rewrite He in Hs.
  - set_solver.
  - set_solver.
  - rewrite drop_lookup. destruct (owners st f !! e0) as [x|] eqn:E; [|done]. cbn. rewrite (Ho _ _ _ E). by rewrite decide_False.
Qed.

Lemma execs_owned owner s e now l st : (∀ c, c ∈ l → needs_execution c = true → owner e = s) → owned owner st → owned owner (foldl (exec s e now) st l).
Proof.
  revert st. induction l as [|c l IH]; intros st He Ho; [done|]. cbn. apply IH; [intros; eapply He; [by right|done]|].
  apply exec_owned; [|done]. apply He. left.
Qed.
Lemma execs_same owner s e now l st st' : agree owner s st st' → agree owner s (foldl (exec s e now) st l) (foldl (exec s e now) st' l).
Proof. revert st st'. induction l as [|c l IH]; intros st st' H; [done|]. cbn. by apply IH, exec_same. Qed.
Lemma execs_other owner s s' e now l st : s' ≠ s → (∀ c, c ∈ l → needs_execution c = true → owner e = s') → owned owner st →
  agree owner s (foldl (exec s' e now) st l) st.
Proof.
  revert st. induction l as [|c l IH]; intros st Hs He Ho; [done|]. cbn. assert (needs_execution c = true → owner e = s') by (apply He; left).
  etrans; [apply IH; [done|intros; eapply He; [by right|done]|by apply exec_owned]|by apply exec_other].
Qed.

Lemma body_owner owner t c : owned_by owner t → c ∈ body t → needs_execution c = true → owner (execution_id t) = session_id t.
Proof. intros Ho Hc Hn. symmetry. apply Ho. by eapply body_executions. Qed.

Lemma apply_owned owner st tn : owned_by owner tn.1 → owned owner st → owned owner (apply st tn).
Proof.
  destruct tn as [t now]. unfold apply. case_bool_decide; intros Ht Ho; [done|]. apply execs_owned; [|done]. intros c. by apply body_owner.
Qed.
Lemma apply_agree owner s st st' tn : owned_by owner tn.1 → owned owner st → owned owner st' → agree owner s st st' → agree owner s (apply st tn) (apply st' tn).
Proof.
  destruct tn as [t now]. unfold apply. case_bool_decide; intros Ht Ho Ho' Ha; [done|]. destruct (decide (session_id t = s)) as [<-|Hs]; [by apply execs_same|].
  etrans; [apply execs_other; [done|intros c; by apply body_owner|done]|]. etrans; [done|]. symmetry. apply execs_other; [done|intros c; by apply body_owner|done].
Qed.
Lemma apply_other owner s st tn : owned_by owner tn.1 → owned owner st → session_id tn.1 ≠ s → agree owner s (apply st tn) st.
Proof.
  destruct tn as [t now]. unfold apply. case_bool_decide; intros Ht Ho Hs; [done|]. apply execs_other; [done|intros c; by apply body_owner|done].
Qed.

Definition of_session (s : string) (l : list (transition * Q)) : list (transition * Q) := filter (λ tn, session_id tn.1 = s) l.
Definition all_owned (owner : string → string) (l : list (transition * Q)) : Prop := Forall (λ tn, owned_by owner tn.1) l.
Lemma init_owned owner : owned owner state_init.
Proof. intros f e x. cbn. by rewrite lookup_empty. Qed.
Lemma replay_owned owner l : all_owned owner l → owned owner (replay l).
Proof.
  unfold replay. induction l as [|tn l IH] using rev_ind; [intros _; apply init_owned|]. intros [H1 [H2 _]%Forall_cons]%Forall_app.
  rewrite foldl_app. apply apply_owned; [exact H2|by apply IH].
Qed.
Lemma replay_of_session owner s l : all_owned owner l → agree owner s (replay l) (replay (of_session s l)).
Proof.
  unfold replay, of_session. induction l as [|tn l IH] using rev_ind; [done|]. intros [H1 [H2 _]%Forall_cons]%Forall_app.
  pose proof (replay_owned owner l H1) as Ho. assert (owned owner (replay (of_session s l))) as Ho' by (apply replay_owned; by apply Forall_filter).
  unfold replay, of_session in *. rewrite filter_app, !foldl_app. cbn [foldl]. destruct (decide (session_id tn.1 = s)) as [Hs|Hs].
  - rewrite filter_cons_True by done. apply apply_agree; [exact H2|done|done|by apply IH].
  - rewrite filter_cons_False by done. etrans; [by apply apply_other|]. by apply IH.
Qed.

(** C28: the report does not depend on how sessions interleave.  When no execution
    id is shared by two sessions, two histories in which every session has the same
    transitions with the same times in the same order give the same state, hence
    the same counts; and what a state tells of one session is what the transitions
    of that session alone give. *)
Theorem interleaving_irrelevant (owner : string → string) (l l' : list (transition * Q))
    (Hl : all_owned owner l) (Hl' : all_owned owner l') (Hs : ∀ s, of_session s l = of_session s l') :
  (∀ s, agree owner s (replay l) (replay (of_session s l))) ∧
  (∀ f, times (replay l) f = times (replay l') f) ∧ (∀ f, owners (replay l) f = owners (replay l') f) ∧
  (∀ f, sets (replay l) f = sets (replay l') f) ∧ ∀ total, counts total (replay l) = counts total (replay l').
Proof.
  assert (∀ s, agree owner s (replay l) (replay l')) as Ha.
  { intros s. etrans; [by apply replay_of_session|]. rewrite Hs. symmetry. by apply replay_of_session. }
  assert (∀ f, times (replay l) f = times (replay l') f) as H1 by (intros f; apply map_eq; intros s; by destruct (Ha s)).
  assert (∀ f, owners (replay l) f = owners (replay l') f) as H2 by (intros f; apply map_eq; intros e; by destruct (Ha (owner e)) as [_ H _]; apply H).
  assert (∀ f, sets (replay l) f = sets (replay l') f) as H3 by (intros f; apply set_eq; intros s; by destruct (Ha s)).
  split_and!; [intros s; by apply replay_of_session|done..|]. intros total. unfold counts, running, terminal. by rewrite !H1, !H2, !H3.
Qed.

(** Two sessions, interleaved in two ways. *)
Definition tr (n s e : string) : transition := Transition n s e "" true.
Definition demo_owner (e : string) : string := if bool_decide (e = "e1") then "s1" else "s2".
Definition demo_a : list (transition * Q) := [(tr "session_dispatched" "s1" "", 0%Q); (tr "tool_admission_queued" "s1" "e1", 1%Q)].
Definition demo_b : list (transition * Q) := [(tr "agent_runnable" "s2" "", 0%Q); (tr "tool_admission_queued" "s2" "e2", 2%Q); (tr "session_complete" "s2" "", 3%Q)].
Lemma interleaving_irrelevant_witness :
  counts 2 (replay (demo_a ++ demo_b)) = counts 2 (replay (demo_b ++ demo_a)) ∧
  sets (replay (demo_a ++ demo_b)) completed = {["s2"]} ∧ owners (replay (demo_b ++ demo_a)) tool_admission_waiting !! "e1" = Some ("s1", 1%Q).
Proof.
  split; [|split; [vm_compute; reflexivity|vm_compute; reflexivity]].
  apply (interleaving_irrelevant demo_owner (demo_a ++ demo_b) (demo_b ++ demo_a)).
  - repeat constructor; unfold owned_by; cbn; done.
  - repeat constructor; unfold owned_by; cbn; done.
  - intros s. unfold of_session. rewrite !filter_app. unfold demo_a, demo_b. rewrite !filter_cons. cbn.
    destruct (decide ("s1" = s)) as [<-|]; [reflexivity|]. by rewrite app_nil_r.
Defined.

(** ** An exact report is complete *)

Definition thread_ok (w : tracker) (h : thread) : Prop :=
  match h with
  | Observed k t => ∃ now, queue w !! k = Some (t, now)
  | Dropped => 0 < dropped w
  | Counting n => 0 <= n
  | _ => True
  end.
Record tracker_ok (w : tracker) : Prop := TrackerOk {
  t_applied : (applied w <= length (queue w))%nat; t_state : the_state w = replay (take (applied w) (queue w)); t_dropped : 0 <= dropped w }.
(** Producers only add, and a loss is not forgotten. *)
Definition later (w w' : tracker) : Prop := queue w `prefix_of` queue w' ∧ (0 < dropped w → 0 < dropped w').

Lemma thread_ok_later w w' h : later w w' → thread_ok w h → thread_ok w' h.
Proof.
  intros [Hq Hd]. destruct h; cbn; try done. intros [now H]. exists now. by eapply prefix_lookup_Some.
Qed.

Lemma tracker_advance_ok h w : tracker_ok w → thread_ok w h →
  tracker_ok (advance h w).1 ∧ later w (advance h w).1 ∧ thread_ok (advance h w).1 (advance h w).2.
Proof.
  intros [H1 H2 H3] Hh. assert (later w w) as Hr by done.
  destruct h as [|t now|t now| |n|k t| | |[|n]|d|b st]; cbn [advance]; try (by split_and!).
  - destruct (_ <=? _)%nat; by split_and!.
  - split_and!; [split; cbn; [rewrite length_app; lia|by rewrite take_app_le|done]|split; [by eexists|done]|].
    exists now. cbn. by rewrite lookup_app_r, Nat.sub_diag.
  - cbn in Hh. split_and!; [split; cbn; [done|done|lia]|split; [done|cbn; lia]|cbn; lia].
  - destruct (locked w); by split_and!.
  - destruct (queue w !! applied w) as [tn|] eqn:E; [|by split_and!].
    split_and!; [split; cbn; [apply lookup_lt_Some in E; lia| |done]|done|done].
    rewrite (take_S_r _ _ _ E). unfold replay in *. by rewrite foldl_app, <- H2.
Qed.

Record sys_ok (s : system) : Prop := SysOk { s_tracker : tracker_ok (the_tracker s); s_threads : Forall (thread_ok (the_tracker s)) (threads s) }.
Lemma tracker_step_ok s ev : sys_ok s → sys_ok (step s ev) ∧ later (the_tracker s) (the_tracker (step s ev)).
Proof.
  intros [Hi Ht]. destruct ev as [c|i]; cbn.
  - split; [|done]. split; cbn; [done|]. apply Forall_app. split; [done|]. constructor; [|constructor].
    destruct c as [t now|]; cbn; [|done]. by destruct (_ || _).
  - destruct (threads s !! i) as [h|] eqn:E; [|done].
    destruct (tracker_advance_ok h (the_tracker s) Hi (proj1 (Forall_lookup _ _) Ht i h E)) as (Hi' & Hg & Ht').
    destruct (advance h (the_tracker s)) as [w h']. cbn in *. split; [|done]. split; cbn; [done|]. apply Forall_insert; [|done].
    eapply Forall_impl; [done|]. intros u. by apply thread_ok_later.
Qed.
Lemma tracker_later_trans w1 w2 w3 : later w1 w2 → later w2 w3 → later w1 w3.
Proof. intros [] []. split; [by etrans|auto]. Qed.
Lemma tracker_run_from_ok l s : sys_ok s → sys_ok (run_from s l) ∧ later (the_tracker s) (the_tracker (run_from s l)).
Proof.
  revert s. induction l as [|ev l IH]; intros s Hs; cbn; [done|]. destruct (tracker_step_ok s ev Hs) as [H1 H2].
  destruct (IH _ H1) as [H3 H4]. split; [done|]. by eapply tracker_later_trans.
Qed.
Lemma tracker_init_ok : sys_ok (System tracker_init []).
Proof. by split; [split|constructor]. Qed.

(** What a snapshot that starts after [w0] has found. *)
Definition found (w0 : tracker) (w : tracker) (h : thread) : Prop :=
  match h with
  | Snapping | Draining _ => True
  | Measuring d => 0 < dropped w0 → d ≠ 0
  | Reported true st => ¬ 0 < dropped w0 ∧ ∃ q, queue w0 `prefix_of` q ∧ q `prefix_of` queue w ∧ st = replay q
  | Reported false _ => True
  | _ => False
  end.
Lemma advance_found w0 w h : tracker_ok w → later w0 w → found w0 w h → found w0 (advance h w).1 (advance h w).2.
Proof.
  intros [H1 H2 H3] [Hq Hd] Hf. destruct h as [|t now|t now| |n|k t| | |[|n]|d|b st]; cbn [advance]; try done.
  - by destruct (locked w).
  - intros H%Hd. cbn. lia.
  - by destruct (queue w !! applied w).
  - cbn in *. destruct (Z.eqb_spec d 0) as [->|]; [|done]. cbn. rewrite negb_involutive. destruct (Nat.eqb_spec (pending w) 0) as [Hp|]; [|done].
    split; [tauto|]. exists (queue w). split_and!; [done|done|]. rewrite H2. unfold pending in Hp. by rewrite take_ge by lia.
Qed.
Lemma found_later w0 w w' h : later w w' → found w0 w h → found w0 w' h.
Proof. intros [Hq _]. destruct h as [| | | | | | | | | |[|] ?]; cbn; try done. intros (? & q & ? & ? & ?). split; [done|]. exists q. split_and!; [done|by etrans|done]. Qed.

Lemma run_found w0 j l s h : sys_ok s → later w0 (the_tracker s) → threads s !! j = Some h → found w0 (the_tracker s) h →
  ∃ h', threads (run_from s l) !! j = Some h' ∧ found w0 (the_tracker (run_from s l)) h'.
Proof.
  revert s h. induction l as [|ev l IH]; intros s h Hs Hl Hj Hf; cbn; [by exists h|]. destruct (tracker_step_ok s ev Hs) as [Hs' Hl'].
  assert (later w0 (the_tracker (step s ev))) as Hl'' by (by eapply tracker_later_trans).
  destruct ev as [c|i].
  { apply (IH _ h); [done|done|cbn; by apply lookup_app_l_Some|by apply (found_later _ _ _ _ Hl')]. }
  destruct (decide (i = j)) as [->|Hi].
  - apply (IH _ (advance h (the_tracker s)).2); [done|done|..]; cbn; rewrite Hj; destruct (advance h (the_tracker s)) as [w h'] eqn:E; cbn.
    + rewrite list_lookup_insert_eq; [done|by eapply lookup_lt_Some].
    + pose proof (advance_found w0 (the_tracker s) h (s_tracker _ Hs) Hl Hf) as H. by rewrite E in H.
  - apply (IH _ h); [done|done| |by apply (found_later _ _ _ _ Hl')].
    cbn. destruct (threads s !! i) as [u|]; [|done]. destruct (advance u (the_tracker s)). cbn. by rewrite list_lookup_insert_ne.
Qed.

(** A snapshot that calls itself exact is complete.  In every interleaving of
    producers and snapshots, when a snapshot reports [exact], no producer that had
    returned before it was called has lost a transition, not even when the updates
    of the unlocked loss counter race; and the reported state is the one that the
    transitions give when they are applied one after the other in the order of their
    puts, every transition that had been observed before the call among them. *)
Theorem exact_snapshot (l1 l2 : list event) (st : state)
    (Hr : threads (run_from (run l1) (Call Snapshot :: l2)) !! length (threads (run l1)) = Some (Reported true st)) :
  Dropped ∉ threads (run l1) ∧
  ∃ q, q `prefix_of` queue (the_tracker (run_from (run l1) (Call Snapshot :: l2))) ∧ st = replay q ∧
    ∀ i k t, threads (run l1) !! i = Some (Observed k t) → ∃ now, q !! k = Some (t, now).
Proof.
  destruct (tracker_run_from_ok l1 _ tracker_init_ok) as [H1 _]. fold (run l1) in H1. set (s1 := run l1) in *.
  destruct (tracker_step_ok s1 (Call Snapshot) H1) as [H2 Hl].
  destruct (run_found (the_tracker s1) (length (threads s1)) l2 (step s1 (Call Snapshot)) Snapping H2 Hl) as (h & Hh & Hf);
    [cbn; by rewrite lookup_app_r, Nat.sub_diag|done|].
  change (run_from s1 (Call Snapshot :: l2)) with (run_from (step s1 (Call Snapshot)) l2) in *. rewrite Hh in Hr. injection Hr as ->.
  destruct Hf as (Hd & q & Hq & Hq' & ->). pose proof (s_threads _ H1) as Ht. split.
  - intros Hin. apply Hd. by apply (proj1 (Forall_forall _ _) Ht Dropped).
  - exists q. split_and!; [done|done|]. intros i k t Hk. apply (proj1 (Forall_lookup _ _) Ht) in Hk as [now Hk]. exists now. by eapply prefix_lookup_Some.
Qed.

(** One transition before the call and one during it. *)
Definition demo_observed : list event := [Call (Observe (tr "session_dispatched" "s1" "") 0); Step 0; Step 0].
Definition demo_snapshot : list event := [Step 1; Call (Observe (tr "session_failed" "s2" "") 1); Step 1; Step 2; Step 1; Step 1].
Lemma exact_snapshot_witness : ∃ st, threads (run_from (run demo_observed) (Call Snapshot :: demo_snapshot)) !! 1%nat = Some (Reported true st) ∧
  counts 3 st = counts 3 (replay [(tr "session_dispatched" "s1" "", 0%Q)]) ∧ Dropped ∉ threads (run demo_observed).
Proof.
  eexists. split; [vm_compute; reflexivity|]. split; [vm_compute; reflexivity|].
  refine (proj1 (exact_snapshot demo_observed demo_snapshot _ _)). vm_compute. reflexivity.
Defined.
(** A transition that comes after the end of its session stays for good: here a
    tool that is admitted once its session has failed waits for its start forever. *)
Example late_transition_stays : let st := replay [(tr "session_failed" "s1" "", 0%Q); (tr "tool_admitted" "s1" "e1", 1%Q)] in
  owners st tool_admitted_waiting_start !! "e1" = Some ("s1", 1%Q) ∧ sets st failed = {["s1"]}.
Proof. vm_compute. done. Qed.
End Tracker.
