(* ===== verification/ModelGateway.v ===== *)
(** * The model gateway (src/clawbox/replay/model_gateway.py, process_sessions.py)

    A gateway answers the model calls of one session from a recorded trace or from
    an upstream model.  A guest may lose its connection at any time and ask again,
    so a request keeps its answer until it has been delivered.  Callers and the
    producer that each new request starts are threads; a block is the code under
    one hold of [self._lock].  HTTP, hashing and JSON are outside: the fingerprint
    of a payload, the request id, the search for a session report in a text and the
    rendering of a recorded action are functions the model is given. *)
From S2P Require Import Prelude Dict.

(** ** Payloads *)

(** A message; [content] is [None] when it is not a string, [others] stands for its
    other fields. *)
Record message := Message { role : string; tool_call_id : string; content : option string; others : string }.
#[export] Instance message_eq_dec : EqDecision message. Proof. solve_decision. Defined.
(** The payload without [model]: [fields] are the fields besides [messages]. *)
Record canonical := Canonical { messages : list message; fields : gmap string string }.
#[export] Instance canonical_eq_dec : EqDecision canonical. Proof. solve_decision. Defined.
(** A request body; [body_messages] is [None] when [messages] is not an array. *)
Record payload := Payload { body_messages : option (list message); body_fields : gmap string string }.
Definition stream_of (fields : gmap string string) : bool := bool_decide (fields !! "stream" = Some "true").

(** [_checkpoint_retry_duplicate_message] *)
Definition duplicate_at (left right : list message) (index : nat) : bool :=
  match right !! index, right !! pred index with
  | Some duplicate, Some previous =>
      bool_decide (duplicate = previous) && bool_decide (role duplicate = "user") && bool_decide (take index right ++ drop (S index) right = left)
  | _, _ => false
  end.
Definition checkpoint_retry_matches (previous current : canonical) : bool :=
  bool_decide (fields previous = fields current) &&
  bool_decide (length (messages current) = S (length (messages previous))) &&
  existsb (duplicate_at (messages previous) (messages current)) (seq 1 (pred (length (messages current)))).

(** ** Background sessions of a recording *)

Record binding := Binding { session_id : string; pid : string; recorded_pid : string }.
#[export] Instance binding_eq_dec : EqDecision binding. Proof. solve_decision. Defined.
Notation bindings := (dict string binding).

Section bind.
(** [_RUNNING.search]: the session and the pid that a text reports. *)
Context (running : string → option (string * string)).

(** The tool message of a call id; the last one counts. *)
Definition observed (actual : list message) (call : string) : option message :=
  last (filter (λ m, role m = "tool" ∧ tool_call_id m = call) actual).
Definition bind_one (actual : list message) (result : bindings) (m : message) : outcome bindings :=
  if negb (bool_decide (role m = "tool")) then Ok result
  else match observed actual (tool_call_id m) ≫= content, content m with
       | Some after, Some before =>
           match running before, running after with
           | Some (old, old_pid), Some (new, new_pid) =>
               let b := Binding new new_pid old_pid in
               if bool_decide (is_Some (result !! old)) && negb (bool_decide (result !! old = Some b))
               then Raise (ValueError "OpenClaw background session changed identity within one run")
               else if existsb (λ kv, negb (bool_decide (kv.1 = old)) && bool_decide (session_id kv.2 = new)) (result : list _)
               then Raise (ValueError "two recorded background sessions map to one process")
               else Ok (<[old := b]> result)
           | _, _ => Ok result
           end
       | _, _ => Ok result
       end.
(** [expected] is [None] when the recorded input has no message list. *)
Definition bind_process_sessions (expected : option (list message)) (actual : list message) (b : bindings) : outcome bindings :=
  match expected with
  | None => Ok b
  | Some ms => foldl (λ o m, match o with Ok r => bind_one actual r m | Raise e => Raise e end) (Ok b) ms
  end.

(** Two recorded sessions never stand for one process of this run. *)
Definition bindings_ok (b : bindings) : Prop := dict_ok b ∧ ∀ k k' x x', b !! k = Some x → b !! k' = Some x' → session_id x = session_id x' → k = k'.

Lemma bind_one_ok actual b m b' : bindings_ok b → bind_one actual b m = Ok b' →
  bindings_ok b' ∧ ∀ k x, b !! k = Some x → b' !! k = Some x.
Proof.
  intros Hb. unfold bind_one. destruct (negb _); [by intros [= <-]|].
  destruct (observed actual (tool_call_id m) ≫= content) as [after|]; [|by intros [= <-]]. destruct (content m) as [before|]; [|by intros [= <-]].
  destruct (running before) as [[old op]|]; [|by intros [= <-]]. destruct (running after) as [[new np]|]; [|by intros [= <-]].
  set (x := Binding new np op). destruct (_ && _) eqn:E1; [done|]. destruct (existsb _ _) eqn:E2; [done|]. intros [= <-].
  assert (∀ y, b !! old = Some y → y = x) as Hsame.
  { intros y Hy. rewrite Hy in E1. rewrite bool_decide_eq_true_2 in E1 by eauto. apply negb_false_iff, bool_decide_eq_true in E1. by injection E1. }
  assert (∀ k y, b !! k = Some y → session_id y = new → k = old) as Hnew.
  { intros k y Hy Hs. destruct (decide (k = old)); [done|]. assert (existsb (λ kv, negb (bool_decide (kv.1 = old)) && bool_decide (session_id kv.2 = new)) (b : list _) = true); [|congruence].
    apply existsb_exists. exists (k, y). split; [by apply list_elem_of_In, dict_lookup_elem|]. cbn.
    rewrite bool_decide_eq_false_2 by done. by rewrite bool_decide_eq_true_2. }
  destruct Hb as [Hd Hu]. split; [split; [by apply insert_ok|]|].
  - assert (∀ k y, <[old := x]> b !! k = Some y → (k = old ∧ y = x) ∨ (k ≠ old ∧ b !! k = Some y)) as Hcase.
    { intros k y. destruct (decide (k = old)) as [->|Hk]; [rewrite dict_lookup_insert_eq; intros [= <-]; by left|].
      rewrite dict_lookup_insert_ne by done. by right. }
    intros k k' y y' [[-> ->]|[Hk Hy]]%Hcase [[-> ->]|[Hk' Hy']]%Hcase Hs; [done| |by apply (Hnew _ y)|by apply (Hu _ _ y y')].
    symmetry. by apply (Hnew _ y').
  - intros k y Hy. destruct (decide (k = old)) as [->|Hk]; [|by rewrite dict_lookup_insert_ne].
    rewrite dict_lookup_insert_eq. by rewrite (Hsame _ Hy).
Qed.
Lemma bind_fold_ok actual ms o b' : foldl (λ o m, match o with Ok r => bind_one actual r m | Raise e => Raise e end) o ms = Ok b' →
  ∃ b, o = Ok b ∧ (bindings_ok b → bindings_ok b' ∧ ∀ k x, b !! k = Some x → b' !! k = Some x).
Proof.
  revert o. induction ms as [|m ms IH]; intros o; cbn; [intros ->; by exists b'|].
  intros (b1 & H1 & Hb)%IH. destruct o as [b|e]; [|done]. exists b. split; [done|]. intros H. destruct (bind_one_ok _ _ _ _ H H1) as [H2 H3].
  destruct (Hb H2) as [H4 H5]. split; [done|]. auto.
Qed.
Lemma bound_ok expected actual b b' : bindings_ok b → bind_process_sessions expected actual b = Ok b' →
  bindings_ok b' ∧ ∀ k x, b !! k = Some x → b' !! k = Some x.
Proof.
  intros Hb. destruct expected as [ms|]; cbn; [|by intros [= <-]]. intros (b0 & [= <-] & H)%bind_fold_ok. by apply H.
Qed.
End bind.

(** ** The gateway *)

Module Gateway.
Record answer := Answer { status : Z; content_type : string; body : string }.
#[export] Instance answer_eq_dec : EqDecision answer. Proof. solve_decision. Defined.
Definition no_body (code : Z) : answer := Answer code "application/json" "".

(** A recorded action: the message list of its input, and its response for given
    sessions and for a streaming or plain request ([_replay_response] after
    [rebind_process_sessions], and the deferral of timeouts). *)
Record action := Action { input : option (list message); render : bindings → bool → outcome answer }.
Inductive mode := Replay (actions : list action) | Api.

(** [reply] is the status, type and body; [delivered_at] tells whether
    [delivered_unix_s] is set, [generated] whether [model_generated_unix_s] is. *)
Record request (Id : Type) := Request {
  request_id : Id; replay_index : option nat; request_fingerprint : string; sent : canonical; replay_process_sessions : bindings;
  ready : bool; reply : answer; error : string; generated : bool;
  http_attempts : Z; reconnect_attempts : Z; delivery_failures : Z; delivered : bool; delivered_at : bool; production_attempts : Z }.
Arguments Request {Id} _ _ _ _ _ _ _ _ _ _ _ _ _ _ _.
Arguments request_id {Id} _. Arguments replay_index {Id} _. Arguments request_fingerprint {Id} _. Arguments sent {Id} _.
Arguments replay_process_sessions {Id} _. Arguments ready {Id} _. Arguments reply {Id} _. Arguments error {Id} _. Arguments generated {Id} _.
Arguments http_attempts {Id} _. Arguments reconnect_attempts {Id} _. Arguments delivery_failures {Id} _. Arguments delivered {Id} _.
Arguments delivered_at {Id} _. Arguments production_attempts {Id} _.

Section gateway.
(** The id of the [n]-th request with a fingerprint, in the namespace of the
    session, and the fingerprint of a payload. *)
Context {Id : Type} `{!EqDecision Id} (key : string → nat → Id) (fingerprint : canonical → string).
Context (running : string → option (string * string)).
Context (the_mode : mode) (max_model_steps : option nat).
Notation request := (request Id).

Definition new_request (id : Id) (index : option nat) (fp : string) (c : canonical) (b : bindings) : request :=
  Request id index fp c b false (Answer 0 "application/json" "") "" false 0 0 0 false false 0.
Definition finish (a : answer) (e : string) (r : request) : request :=
  Request (request_id r) (replay_index r) (request_fingerprint r) (sent r) (replay_process_sessions r) true a e (generated r)
    (http_attempts r) (reconnect_attempts r) (delivery_failures r) (delivered r) (delivered_at r) (production_attempts r).
Definition set_generated (r : request) : request :=
  Request (request_id r) (replay_index r) (request_fingerprint r) (sent r) (replay_process_sessions r) (ready r) (reply r) (error r) true
    (http_attempts r) (reconnect_attempts r) (delivery_failures r) (delivered r) (delivered_at r) (production_attempts r).
Definition count_attempt (r : request) : request :=
  Request (request_id r) (replay_index r) (request_fingerprint r) (sent r) (replay_process_sessions r) (ready r) (reply r) (error r) (generated r)
    (http_attempts r + 1) (if 1 <? http_attempts r + 1 then reconnect_attempts r + 1 else reconnect_attempts r)
    (delivery_failures r) (delivered r) (delivered_at r) (production_attempts r).
Definition count_production (r : request) : request :=
  Request (request_id r) (replay_index r) (request_fingerprint r) (sent r) (replay_process_sessions r) (ready r) (reply r) (error r) (generated r)
    (http_attempts r) (reconnect_attempts r) (delivery_failures r) (delivered r) (delivered_at r) (production_attempts r + 1).
Definition set_delivered (r : request) : request :=
  Request (request_id r) (replay_index r) (request_fingerprint r) (sent r) (replay_process_sessions r) (ready r) (reply r) (error r) (generated r)
    (http_attempts r) (reconnect_attempts r) (delivery_failures r) true true (production_attempts r).
Definition count_failure (r : request) : request :=
  Request (request_id r) (replay_index r) (request_fingerprint r) (sent r) (replay_process_sessions r) (ready r) (reply r) (error r) (generated r)
    (http_attempts r) (reconnect_attempts r) (delivery_failures r + 1) (delivered r) (delivered_at r) (production_attempts r).

(** [self._requests] in its insertion order; [deliveries] is the evidence file,
    [revision] counts the calls of [_persist]. *)
Record gateway := Gateway_ {
  requests : list request; replay_failure : option string; process_sessions : bindings; cancelled : bool; prefix_stop : option bool;
  deliveries : list (Id * Z); revision : Z }.
Definition gateway_init : gateway := Gateway_ [] None ∅ false None [] 0.

Definition find (id : Id) (g : gateway) : option request := List.find (λ r, bool_decide (request_id r = id)) (requests g).
(** [self._requests[id]] after its mutation by [f], with [_persist]. *)
Definition set_requests (l : list request) (g : gateway) : gateway :=
  Gateway_ l (replay_failure g) (process_sessions g) (cancelled g) (prefix_stop g) (deliveries g) (revision g + 1).
Definition update (id : Id) (f : request → request) (g : gateway) : gateway :=
  set_requests ((λ r, if decide (request_id r = id) then f r else r) <$> requests g) g.
(** [self._requests[id] = r]: in place when the id is there. *)
Definition put (r : request) (g : gateway) : gateway :=
  set_requests (if find (request_id r) g then (λ r', if decide (request_id r' = request_id r) then r else r') <$> requests g else requests g ++ [r]) g.
Definition fail_replay (reason : string) (g : gateway) : gateway :=
  Gateway_ (requests g) (Some reason) (process_sessions g) (cancelled g) (prefix_stop g) (deliveries g) (revision g).
Definition set_sessions (b : bindings) (g : gateway) : gateway :=
  Gateway_ (requests g) (replay_failure g) b (cancelled g) (prefix_stop g) (deliveries g) (revision g).
Definition set_stop (d : bool) (g : gateway) : gateway :=
  Gateway_ (requests g) (replay_failure g) (process_sessions g) (cancelled g) (Some d) (deliveries g) (revision g).
Definition set_cancelled (g : gateway) : gateway :=
  Gateway_ (requests g) (replay_failure g) (process_sessions g) true (prefix_stop g) (deliveries g) (revision g).
Definition log_delivery (id : Id) (code : Z) (g : gateway) : gateway :=
  Gateway_ (requests g) (replay_failure g) (process_sessions g) (cancelled g) (prefix_stop g) (deliveries g ++ [(id, code)]) (revision g).

Definition actions : list action := match the_mode with Replay l => l | Api => [] end.
Definition is_replay : bool := match the_mode with Replay _ => true | Api => false end.
(** A configured prefix of the trace. *)
Definition prefix_limit : option nat :=
  match max_model_steps with Some m => if (m <=? length actions)%nat then Some m else None | None => None end.

(** *** A call *)

Inductive thread :=
  | Starting (id : Id) (c : canonical)          (** the request is in the ledger; the producer is not started *)
  | Waiting (id : Id)                           (** waits for [ready] *)
  | Returned (id : Id) (a : answer)
  | Stopped                                     (** the control response at the end of a prefix *)
  | Raised (e : exn)
  | Producing (id : Id) (c : canonical)         (** the producer of a request *)
  | Asking (id : Id) (c : canonical)
  | Generated (id : Id) (a : answer)
  | Calling (id : Id) (a : answer)
  | Publishing (id : Id) (a : answer) (e : string)
  | Ended.

Definition matching (fp : string) (g : gateway) : list request := filter (λ r, request_fingerprint r = fp) (requests g).
(** The undelivered request that a payload asks for again. *)
Definition retried (c : canonical) (g : gateway) : option request :=
  let same := match last (matching (fingerprint c) g) with Some r => if delivered r then None else Some r | None => None end in
  match same with
  | Some r => Some r
  | None =>
      if is_replay then
        match last (filter (λ r, delivered r = false) (requests g)) with
        | Some r => if checkpoint_retry_matches (sent r) c then Some r else None
        | None => None
        end
      else None
  end.
Definition count_http (http : bool) (id : Id) (g : gateway) : gateway := if http then update id count_attempt g else g.
Definition create (http : bool) (c : canonical) (index : option nat) (b : bindings) (g : gateway) : gateway * thread :=
  let fp := fingerprint c in
  let id := key fp (length (matching fp g)) in
  (count_http http id (put (new_request id index fp c b) g), Starting id c).

(** The first block of [_complete_with_identity]. *)
Definition enter (http : bool) (p : payload) (g : gateway) : gateway * thread :=
  match body_messages p with
  | None => (g, Raised (ValueError "messages must be an array"))
  | Some ms =>
      let c := Canonical ms (body_fields p) in
      if cancelled g then (g, Raised (RuntimeError "model gateway session is closed"))
      else match replay_failure g with
      | Some reason => (g, Raised (ValueError ("replay session already diverged: " +:+ reason)))
      | None =>
          match retried c g with
          | Some r => (count_http http (request_id r) g, Waiting (request_id r))
          | None =>
              if is_replay then
                let index := length (requests g) in
                if match prefix_limit with Some m => (m <=? index)%nat | None => false end
                then (set_stop (default false (prefix_stop g)) g, Stopped)
                else match actions !! index with
                | None => (fail_replay "trace_exhausted" g, Raised (ValueError "OpenClaw made more model calls than the replay trace contains"))
                | Some act =>
                    match bind_process_sessions running (input act) (messages c) (process_sessions g) with
                    | Raise e => (fail_replay "process_session_identity_mismatch" g, Raised e)
                    | Ok b => create http c (Some index) b (set_sessions b g)
                    end
                end
              else create http c None (process_sessions g) g
          end
      end
  end.

(** What the outside decides in a block: whether the wait has timed out, what the
    upstream answers, what the callback before the response does. *)
Record choice := Choice { expired : bool; upstream : outcome answer; callback : outcome unit }.
Definition message_of (e : exn) : string :=
  match e with ValueError m | RuntimeError m | KeyError m | TypeError m | TimeoutError m | AssertionError m | OSError m => m | _ => "" end.
(** A failure of the producer is what the guest gets to see. *)
Definition surfaced (id : Id) (e : exn) : thread := Publishing id (Answer 500 "application/json" "") (message_of e).
Definition ok_status (code : Z) : bool := (200 <=? code) && (code <? 300).
Definition upstream_error (code : Z) : string := "upstream model returned HTTP " +:+ pretty.pretty code.

(** The next block of a thread; [Some t] is a thread that it starts. *)
Definition advance (ch : choice) (t : thread) (g : gateway) : gateway * thread * option thread :=
  match t with
  | Starting id c => (g, Waiting id, Some (Producing id c))
  | Waiting id =>
      match find id g with
      | Some r =>
          if ready r then (g, if bool_decide (error r = "") then Returned id (reply r) else Raised (RuntimeError (error r)), None)
          else if expired ch
          then (update id (finish (no_body 504) "model gateway request timed out") g, Raised (TimeoutError "model gateway request timed out"), None)
          else (g, t, None)
      | None => (g, Raised (KeyError "request"), None)
      end
  | Producing id c => (update id count_production g, Asking id c, None)
  | Asking id c =>
      match the_mode, find id g ≫= replay_index with
      | Replay l, Some k =>
          (** [self._cancelled.wait(...)]: ends with the cancellation or the recorded duration *)
          if cancelled g then (g, Ended, None)
          else match l !! k with
               | Some act =>
                   (g, match render act (from_option replay_process_sessions ∅ (find id g)) (stream_of (fields c)) with
                       | Ok a => Generated id a | Raise e => surfaced id e end, None)
               | None => (g, surfaced id IndexError, None)
               end
      | Replay _, None => (g, surfaced id (AssertionError ""), None)
      | Api, _ => (g, match upstream ch with Ok a => Generated id a | Raise e => surfaced id e end, None)
      end
  | Generated id a =>
      match find id g with
      | Some r => if ready r then (g, Ended, None) else (update id set_generated g, Calling id a, None)
      | None => (g, surfaced id (KeyError "request"), None)
      end
  | Calling id a =>
      (g, if negb (ok_status (status a)) then Publishing id a (upstream_error (status a))
          else match callback ch with Ok _ => Publishing id a "" | Raise e => surfaced id e end, None)
  | Publishing id a e =>
      match find id g with
      | Some r => if ready r then (g, Ended, None) else (update id (finish a e) g, Ended, None)
      | None => (g, Ended, None)
      end
  | Returned _ _ | Stopped | Raised _ | Ended => (g, t, None)
  end.

(** *** Deliveries and the end of a session *)

(** [mark_delivery]; the evidence file may refuse the line. *)
Definition mark_delivery (id : Id) (is_delivered writes : bool) (g : gateway) : outcome unit * gateway :=
  match find id g with
  | None => (Raise (KeyError "unknown gateway request"), g)
  | Some r =>
      if is_delivered then
        if delivered_at r then (Ok tt, update id set_delivered g)
        else if writes then (Ok tt, update id set_delivered (log_delivery id (status (reply r)) g))
        else (Raise (OSError "deliveries"), g)
      else (Ok tt, update id count_failure g)
  end.
Definition mark_stop (is_delivered : bool) (g : gateway) : gateway :=
  match prefix_stop g with Some d => set_stop (d || is_delivered) g | None => g end.
Definition closed_error : string := "model gateway session closed before response completed".
Definition cancel_pending (g : gateway) : gateway :=
  set_requests ((λ r, if ready r then r else finish (no_body 503) closed_error r) <$> requests g) (set_cancelled g).

(** *** Runs *)

Record system := System { the_gateway : gateway; threads : list thread }.
Inductive event :=
  | Call (http : bool) (p : payload) | Step (i : nat) (ch : choice)
  | Mark (id : Id) (is_delivered writes : bool) | MarkStop (is_delivered : bool) | Cancel.
Definition step (s : system) (ev : event) : system :=
  match ev with
  | Call http p => let '(g, t) := enter http p (the_gateway s) in System g (threads s ++ [t])
  | Step i ch =>
      match threads s !! i with
      | Some t => let '(g, t', started) := advance ch t (the_gateway s) in System g (<[i := t']> (threads s) ++ option_list started)
      | None => s
      end
  | Mark id d w => System (mark_delivery id d w (the_gateway s)).2 (threads s)
  | MarkStop d => System (mark_stop d (the_gateway s)) (threads s)
  | Cancel => System (cancel_pending (the_gateway s)) (threads s)
  end.
Definition run_from (s : system) (l : list event) : system := foldl step s l.
Definition run (l : list event) : system := run_from (System gateway_init []) l.

(** *** The verdict *)

(** [replay_completeness] *)
Definition incomplete (require_delivery : bool) (r : request) : bool :=
  negb (ready r) || negb (bool_decide (error r = "")) || negb (status (reply r) =? 200) || (require_delivery && negb (delivered r)).
Definition expected_steps : nat := default (length actions) prefix_limit.
Definition consumed (g : gateway) : list nat := merge_sort le (omap replay_index (requests g)).
Definition complete (require_delivery : bool) (g : gateway) : bool :=
  (negb is_replay ||
     (bool_decide (length (requests g) = expected_steps) && bool_decide (consumed g = seq 0 expected_steps) && bool_decide (replay_failure g = None))) &&
  negb (existsb (incomplete require_delivery) (requests g)) &&
  (negb is_replay || negb (bool_decide (is_Some prefix_limit)) || default false (prefix_stop g)).

(** ** What every run keeps *)

(** How a request may change: its identity never, its answer once. *)
Record evolves (r r' : request) : Prop := Evolves {
  e_id : request_id r' = request_id r; e_index : replay_index r' = replay_index r; e_fp : request_fingerprint r' = request_fingerprint r;
  e_sent : sent r' = sent r; e_ready : ready r = true → ready r' = true ∧ reply r' = reply r ∧ error r' = error r;
  e_delivered : delivered r = true → delivered r' = true; e_at : delivered_at r = true → delivered_at r' = true }.
Lemma evolves_refl r : evolves r r.
Proof. by split. Qed.
Lemma evolves_trans r1 r2 r3 : evolves r1 r2 → evolves r2 r3 → evolves r1 r3.
Proof. intros [] []. split; try congruence; [|auto..]. intros H. destruct e_ready0 as (? & <- & <-); [done|]. auto. Qed.

(** The earlier requests with a fingerprint. *)
Definition occurrences (fp : string) (k : nat) (l : list request) : nat := length (filter (λ r, request_fingerprint r = fp) (take k l)).
Record entry_ok (l : list request) (k : nat) (r : request) : Prop := EntryOk {
  o_id : request_id r = key (request_fingerprint r) (occurrences (request_fingerprint r) k l);
  o_index : replay_index r = if is_replay then Some k else None }.
Record gateway_ok (g : gateway) : Prop := GatewayOk {
  k_entries : ∀ k r, requests g !! k = Some r → entry_ok (requests g) k r;
  k_bound : is_replay = true → (length (requests g) <= expected_steps)%nat;
  k_cancelled : cancelled g = true → Forall (λ r, ready r = true) (requests g);
  k_sessions : bindings_ok (process_sessions g);
  k_deliveries : NoDup (deliveries g).*1;
  k_logged : ∀ id code, (id, code) ∈ deliveries g → ∃ r, r ∈ requests g ∧ request_id r = id ∧ delivered_at r = true }.

(** The ledger only grows, and its entries evolve. *)
Record later (g g' : gateway) : Prop := Later {
  l_entries : ∀ k r, requests g !! k = Some r → ∃ r', requests g' !! k = Some r' ∧ evolves r r';
  l_cancelled : cancelled g = true → cancelled g' = true }.
Lemma at_least_refl g : later g g.
Proof. split; [|done]. intros k r Hr. exists r. split; [done|apply evolves_refl]. Qed.
Lemma gateway_later_trans g1 g2 g3 : later g1 g2 → later g2 g3 → later g1 g3.
Proof.
  intros [H1 H2] [H3 H4]. split; [|auto]. intros k r Hr. destruct (H1 _ _ Hr) as (r2 & Hr2 & E2). destruct (H3 _ _ Hr2) as (r3 & Hr3 & E3).
  exists r3. split; [done|by eapply evolves_trans].
Qed.

Lemma occurrences_fmap f l fp k : (∀ r, request_fingerprint (f r) = request_fingerprint r) → occurrences fp k (f <$> l) = occurrences fp k l.
Proof.
  intros Hf. unfold occurrences. rewrite <- fmap_take. induction (take k l) as [|r l' IH]; [done|]. rewrite fmap_cons, !filter_cons, Hf.
  destruct (decide _); cbn; by rewrite IH.
Qed.
Lemma entry_ok_fmap f l k r : (∀ r, evolves r (f r)) → entry_ok l k r → entry_ok (f <$> l) k (f r).
Proof.
  intros Hf [H1 H2]. pose proof (Hf r) as []. split; rewrite ?e_id0, ?e_fp0, ?e_index0; [|done].
  rewrite occurrences_fmap; [done|]. intros r'. apply Hf.
Qed.

(** Mutations of the entries keep the invariant. *)
Lemma set_requests_ok f g : (∀ r, evolves r (f r)) → gateway_ok g → gateway_ok (set_requests (f <$> requests g) g) ∧ later g (set_requests (f <$> requests g) g).
Proof.
  intros Hf []. split; [split; cbn; [|by rewrite length_fmap| |done|done|]|split; cbn; [|done]].
  - intros k r. rewrite list_lookup_fmap. destruct (requests g !! k) as [r0|] eqn:E; [|done]. intros [= <-]. by apply entry_ok_fmap, k_entries0.
  - intros Hc. apply Forall_fmap. eapply Forall_impl; [by apply k_cancelled0|]. intros r Hr. by apply (e_ready _ _ (Hf r)).
  - intros id code (r & Hr & Hi & Hd)%k_logged0. exists (f r). split_and!; [by apply list_elem_of_fmap_2|by rewrite (e_id _ _ (Hf r))|by apply (e_at _ _ (Hf r))].
  - intros k r Hr. exists (f r). split; [|done]. by rewrite list_lookup_fmap, Hr.
Qed.
Lemma update_ok id f g : (∀ r, evolves r (f r)) → gateway_ok g → gateway_ok (update id f g) ∧ later g (update id f g).
Proof. intros Hf. apply set_requests_ok. intros r. destruct (decide _); [done|apply evolves_refl]. Qed.
Lemma same_entries_ok g g' : requests g' = requests g → cancelled g' = cancelled g → deliveries g' = deliveries g → bindings_ok (process_sessions g') →
  gateway_ok g → gateway_ok g' ∧ later g g'.
Proof.
  intros Hr Hc Hd Hb []. split; [split; rewrite ?Hr, ?Hc, ?Hd; done|]. split; [|by rewrite Hc]. intros k r Hk. exists r. rewrite Hr. split; [done|apply evolves_refl].
Qed.

Lemma find_spec id g : match find id g with Some r => r ∈ requests g ∧ request_id r = id | None => ∀ r, r ∈ requests g → request_id r ≠ id end.
Proof.
  unfold find. destruct (List.find _ _) as [r|] eqn:E.
  - apply find_some in E as [H1 H2]. split; [by apply list_elem_of_In|by apply bool_decide_eq_true in H2].
  - intros r Hr Hid. pose proof (find_none _ _ E r (proj1 (list_elem_of_In _ _) Hr)) as H. cbn in H. by rewrite bool_decide_eq_true_2 in H.
Qed.

Context `{!Inj2 (=) (=) (=) key}.

Lemma occurrences_mono fp k k' l : (k <= k')%nat → (occurrences fp k l <= occurrences fp k' l)%nat.
Proof.
  intros H. unfold occurrences. rewrite <- (take_drop k (take k' l)), take_take, Nat.min_l, filter_app, length_app by done. lia.
Qed.
Lemma occurrences_after k l r : l !! k = Some r → occurrences (request_fingerprint r) (S k) l = S (occurrences (request_fingerprint r) k l).
Proof. intros Hr. unfold occurrences. rewrite (take_S_r _ _ _ Hr), filter_app, length_app, filter_cons_True by done. cbn. lia. Qed.
(** Request ids are distinct. *)
Lemma ids_unique g k k' r r' : gateway_ok g → requests g !! k = Some r → requests g !! k' = Some r' → request_id r = request_id r' → k = k'.
Proof.
  intros [] Hk Hk' Hid. rewrite (o_id _ _ _ (k_entries0 _ _ Hk)), (o_id _ _ _ (k_entries0 _ _ Hk')) in Hid.
  apply (inj2 key) in Hid as [Hf Ho]. destruct (decide (k < k')%nat) as [Hlt|]; [|destruct (decide (k' < k)%nat) as [Hlt|]; [|lia]].
  - pose proof (occurrences_after _ _ _ Hk). pose proof (occurrences_mono (request_fingerprint r) (S k) k' (requests g) Hlt). rewrite Hf in *. lia.
  - pose proof (occurrences_after _ _ _ Hk'). pose proof (occurrences_mono (request_fingerprint r') (S k') k (requests g) Hlt). rewrite <- Hf in *. lia.
Qed.
Lemma find_entry g k r : gateway_ok g → requests g !! k = Some r → find (request_id r) g = Some r.
Proof.
  intros Hg Hk. pose proof (find_spec (request_id r) g) as H. destruct (find _ g) as [r'|].
  - destruct H as [[k' Hk']%list_elem_of_lookup Hid]. assert (k = k') as <- by (by eapply ids_unique). congruence.
  - destruct (H r); [by eapply list_elem_of_lookup_2|done].
Qed.
Lemma find_later g g' id r : gateway_ok g → gateway_ok g' → later g g' → find id g = Some r → ∃ r', find id g' = Some r' ∧ evolves r r'.
Proof.
  intros Hg Hg' [Hl _] Hf. pose proof (find_spec id g) as H. rewrite Hf in H. destruct H as [[k Hk]%list_elem_of_lookup <-].
  destruct (Hl _ _ Hk) as (r' & Hk' & E). exists r'. split; [|done]. rewrite <- (e_id _ _ E). by eapply find_entry.
Qed.

(** The id of a new request is new. *)
Lemma fresh_key g fp : gateway_ok g → find (key fp (length (matching fp g))) g = None.
Proof.
  intros []. pose proof (find_spec (key fp (length (matching fp g))) g) as H. destruct (find _ g) as [r|]; [|done]. exfalso.
  destruct H as [[k Hk]%list_elem_of_lookup Hid]. rewrite (o_id _ _ _ (k_entries0 _ _ Hk)) in Hid. apply (inj2 key) in Hid as [<- Ho].
  pose proof (occurrences_after _ _ _ Hk). apply lookup_lt_Some in Hk as Hlt.
  pose proof (occurrences_mono (request_fingerprint r) (S k) (length (requests g)) (requests g) Hlt) as Hm.
  unfold occurrences at 2 in Hm. rewrite take_ge in Hm by done. unfold matching in Ho. lia.
Qed.

Lemma put_ok index fp c b g :
  index = (if is_replay then Some (length (requests g)) else None) → (is_replay = true → (length (requests g) < expected_steps)%nat) → cancelled g = false →
  gateway_ok g → let g' := put (new_request (key fp (length (matching fp g))) index fp c b) g in
  gateway_ok g' ∧ later g g' ∧ is_Some (find (key fp (length (matching fp g))) g').
Proof.
  intros Hi Hb Hc Hg. pose proof (fresh_key g fp Hg) as Hf. destruct Hg as [].
  set (r := new_request _ index fp c b). cbn zeta. unfold put. cbn [request_id r]. change (request_id r) with (key fp (length (matching fp g))). rewrite Hf.
  assert (∀ k, (k <= length (requests g))%nat → ∀ fp', occurrences fp' k (requests g ++ [r]) = occurrences fp' k (requests g)) as Ho.
  { intros k Hk fp'. unfold occurrences. by rewrite take_app_le. }
  split_and!.
  - split; cbn; [| |by rewrite Hc|done|done|].
    + intros k r'. destruct (decide (k < length (requests g))%nat) as [Hk|Hk].
      * rewrite lookup_app_l by done. intros Hr. destruct (k_entries0 _ _ Hr). split; [|done]. rewrite Ho by lia. done.
      * rewrite lookup_app_r by lia. destruct (k - length (requests g))%nat as [|n] eqn:E; [|by rewrite lookup_cons, lookup_nil]. intros [= <-].
        assert (k = length (requests g)) as -> by lia. split; [|done]. cbn. rewrite Ho by done. unfold occurrences, matching. by rewrite take_ge.
    + intros H. rewrite length_app. cbn. specialize (Hb H). lia.
    + intros id code (r' & Hr & Hx)%k_logged0. exists r'. split; [|done]. apply elem_of_app. by left.
  - split; cbn; [|done]. intros k r' Hk. exists r'. split; [by apply lookup_app_l_Some|apply evolves_refl].
  - match goal with |- is_Some ?x => destruct x eqn:E end; [done|]. exfalso. pose proof (find_spec (key fp (length (matching fp g))) (set_requests (requests g ++ [r]) g)) as H.
    rewrite E in H. apply (H r); [|done]. cbn. apply elem_of_app. right. apply list_elem_of_singleton. done.
Qed.

Definition thread_ok (g : gateway) (t : thread) : Prop :=
  match t with
  | Starting id _ | Waiting id | Producing id _ | Asking id _ | Generated id _ | Calling id _ | Publishing id _ _ => is_Some (find id g)
  | Returned id a => ∃ r, find id g = Some r ∧ ready r = true ∧ reply r = a ∧ error r = ""
  | _ => True
  end.
Lemma thread_ok_keeps g g' t : gateway_ok g → gateway_ok g' → later g g' → thread_ok g t → thread_ok g' t.
Proof.
  intros Hg Hg' Hl. assert (∀ id, is_Some (find id g) → is_Some (find id g')) as Hs.
  { intros id [r Hr]. destruct (find_later _ _ _ _ Hg Hg' Hl Hr) as (r' & ? & _). by exists r'. }
  destruct t; cbn; auto. intros (r & Hr & H1 & H2 & H3). destruct (find_later _ _ _ _ Hg Hg' Hl Hr) as (r' & Hr' & E).
  exists r'. split; [done|]. destruct (e_ready _ _ E H1) as (? & ? & ?). split_and!; congruence.
Qed.

Lemma count_http_ok http id g : gateway_ok g → gateway_ok (count_http http id g) ∧ later g (count_http http id g).
Proof. intros Hg. destruct http; cbn; [by apply update_ok|]. split; [done|apply at_least_refl]. Qed.
Lemma create_ok http c b index g :
  index = (if is_replay then Some (length (requests g)) else None) → (is_replay = true → (length (requests g) < expected_steps)%nat) → cancelled g = false →
  gateway_ok g → gateway_ok (create http c index b g).1 ∧ later g (create http c index b g).1 ∧ thread_ok (create http c index b g).1 (create http c index b g).2.
Proof.
  intros Hi Hb Hc Hg. destruct (put_ok index (fingerprint c) c b g Hi Hb Hc Hg) as (H1 & H2 & H3). unfold create. cbn [fst snd].
  destruct (count_http_ok http (key (fingerprint c) (length (matching (fingerprint c) g))) _ H1) as [H4 H5]. split_and!; [done|by eapply gateway_later_trans|].
  destruct H3 as [r Hr]. destruct (find_later _ _ _ _ H1 H4 H5 Hr) as (r' & Hr' & _). by exists r'.
Qed.

Lemma retried_found c g r : gateway_ok g → retried c g = Some r → find (request_id r) g = Some r ∧ delivered r = false.
Proof.
  intros Hg H. assert (r ∈ requests g ∧ delivered r = false) as [[k Hk]%list_elem_of_lookup Hd]; [|split; [by eapply find_entry|done]].
  unfold retried in H. destruct (last (matching (fingerprint c) g)) as [r'|] eqn:E; [destruct (delivered r') eqn:Ed|].
  2: { injection H as ->. split; [|done]. apply last_Some in E as [l E]. assert (r ∈ matching (fingerprint c) g) as Hr by (rewrite E; set_solver).
       by apply list_elem_of_filter in Hr as [_ Hr]. }
  all: destruct is_replay; [|done]; destruct (last (filter _ _)) as [r2|] eqn:E2; [|done]; destruct (checkpoint_retry_matches _ _); [|done]; injection H as ->.
  all: apply last_Some in E2 as [l E2]; assert (r ∈ filter (λ r, delivered r = false) (requests g)) as Hr by (rewrite E2; set_solver).
  all: by apply list_elem_of_filter in Hr as [? ?].
Qed.

Lemma expected_bound k : match prefix_limit with Some m => (m <=? k)%nat | None => false end = false → (k < length actions)%nat → (k < expected_steps)%nat.
Proof. unfold expected_steps. destruct prefix_limit as [m|]; cbn; [|done]. intros H%Nat.leb_gt _. done. Qed.

Lemma entered_ok http p g : gateway_ok g → gateway_ok (enter http p g).1 ∧ later g (enter http p g).1 ∧ thread_ok (enter http p g).1 (enter http p g).2.
Proof.
  intros Hg. assert (∀ g' e, requests g' = requests g → cancelled g' = cancelled g → deliveries g' = deliveries g → process_sessions g' = process_sessions g →
    gateway_ok (g', Raised e).1 ∧ later g (g', Raised e).1 ∧ thread_ok (g', Raised e).1 (g', Raised e).2) as Hsame.
  { intros g' e H1 H2 H3 H4. destruct (same_entries_ok g g' H1 H2 H3) as [? ?]; [rewrite H4; apply Hg|done|]. by split_and!. }
  unfold enter. destruct (body_messages p) as [ms|]; [|by apply Hsame]. destruct (cancelled g) eqn:Hc; [by apply Hsame|]. destruct (replay_failure g); [by apply Hsame|].
  set (c := Canonical ms (body_fields p)). destruct (retried c g) as [r|] eqn:Hr.
  { destruct (retried_found _ _ _ Hg Hr) as [Hf _]. destruct (count_http_ok http (request_id r) g Hg) as [H1 H2]. split_and!; [done|done|].
    cbn. destruct (find_later _ _ _ _ Hg H1 H2 Hf) as (r' & Hr' & _). by exists r'. }
  destruct is_replay eqn:Hm; [|apply create_ok; [by rewrite Hm|by rewrite Hm|done|done]].
  destruct (match prefix_limit with Some m => _ | None => _ end) eqn:Hp.
  { destruct (same_entries_ok g (set_stop (default false (prefix_stop g)) g)) as [? ?]; [done..|apply Hg|done|]. by split_and!. }
  destruct (actions !! length (requests g)) as [act|] eqn:Ha; [|by apply Hsame].
  destruct (bind_process_sessions _ _ _ _) as [b|e] eqn:Hb; [|by apply Hsame].
  destruct (same_entries_ok g (set_sessions b g)) as [H1 H2]; [done..|by eapply bound_ok, Hb; apply Hg|done|].
  destruct (create_ok http c b (Some (length (requests g))) (set_sessions b g)) as (H3 & H4 & H5);
    [by rewrite Hm|intros _; cbn; apply expected_bound; [done|by eapply lookup_lt_Some]|done|done|].
  split_and!; [done|by eapply gateway_later_trans|done].
Qed.

Lemma finish_evolves a e r : ready r = false → evolves r (finish a e r).
Proof. intros H. split; try done. congruence. Qed.
(** Only a request that is not ready gets an answer. *)
Lemma update_finish_ok id a e g r : gateway_ok g → find id g = Some r → ready r = false →
  gateway_ok (update id (finish a e) g) ∧ later g (update id (finish a e) g).
Proof.
  intros Hg Hf Hr. assert (update id (finish a e) g = update id (λ r, if ready r then r else finish a e r) g) as ->.
  { unfold update. f_equal. apply list_fmap_ext. intros k r' Hk. destruct (decide (request_id r' = id)) as [<-|]; [|done].
    rewrite (find_entry _ _ _ Hg Hk) in Hf. injection Hf as ->. by rewrite Hr. }
  apply update_ok; [|done]. intros r'. destruct (ready r') eqn:E; [apply evolves_refl|by apply finish_evolves].
Qed.

Lemma advance_ok_gateway ch t g : gateway_ok g → thread_ok g t → let '(g', t', started) := advance ch t g in
  gateway_ok g' ∧ later g g' ∧ thread_ok g' t' ∧ from_option (thread_ok g') True started.
Proof.
  intros Hg Ht. pose proof (at_least_refl g) as Hl. destruct t as [id c|id|id a| |e|id c|id c|id a|id a|id a e|]; cbn [advance]; try (by split_and!).
  - cbn in Ht. destruct (find id g) as [r|] eqn:Hf; [|by split_and!]. destruct (ready r) eqn:Hr.
    + case_bool_decide; split_and!; try done. by exists r.
    + destruct (expired ch); [|split_and!; try done; cbn; by rewrite Hf]. destruct (update_finish_ok id (no_body 504) "model gateway request timed out" g r Hg Hf Hr). by split_and!.
  - destruct (update_ok id count_production g) as [H1 H2]; [done|done|]. split_and!; [done|done| |done]. by apply (thread_ok_keeps g _ (Asking id c)).
  - destruct the_mode as [l|]; [|destruct (upstream ch); by split_and!]. destruct (find id g ≫= replay_index) as [k|]; [|by split_and!].
    destruct (cancelled g); [by split_and!|]. destruct (l !! k) as [act|]; [|by split_and!]. destruct (render _ _ _); by split_and!.
  - destruct Ht as [r Hf]. rewrite Hf. destruct (ready r) eqn:Hr; [by split_and!|]. destruct (update_ok id set_generated g) as [H1 H2]; [done|done|].
    split_and!; [done|done| |done]. apply (thread_ok_keeps g _ (Calling id a) Hg H1 H2). by exists r.
  - destruct (negb _); [by split_and!|]. destruct (callback ch); by split_and!.
  - destruct Ht as [r Hf]. rewrite Hf. destruct (ready r) eqn:Hr; [by split_and!|]. destruct (update_finish_ok id a e g r Hg Hf Hr). by split_and!.
Qed.

Lemma mark_ok id d w g : gateway_ok g → gateway_ok (mark_delivery id d w g).2 ∧ later g (mark_delivery id d w g).2.
Proof.
  intros Hg. unfold mark_delivery. destruct (find id g) as [r|] eqn:Hf; [|by split; [|apply at_least_refl]].
  destruct d; [|by apply update_ok]. destruct (delivered_at r) eqn:Hd; [by apply update_ok|]. destruct w; [|by split; [|apply at_least_refl]]. cbn.
  destruct (update_ok id set_delivered g) as [[] Hl]; [done|done|]. pose proof (find_spec id g) as H. rewrite Hf in H. destruct H as [Hr Hi]. split.
  - split; cbn; try done.
    + rewrite fmap_app. apply NoDup_app. split_and!; [apply Hg| |apply NoDup_singleton]. cbn. intros i Hin ->%list_elem_of_singleton.
      apply list_elem_of_fmap in Hin as ([i' code] & -> & Hin). destruct (k_logged _ Hg _ _ Hin) as (r' & [k' Hk']%list_elem_of_lookup & Hi' & Hd').
      cbn in *. rewrite <- Hi', (find_entry _ _ _ Hg Hk') in Hf. congruence.
    + intros i code [(r' & Hr' & Hi' & Hd')%(k_logged _ Hg)|[= -> ->]%list_elem_of_singleton]%elem_of_app.
      * exists (if decide (request_id r' = id) then set_delivered r' else r'). split_and!; [apply list_elem_of_fmap; by exists r'|by destruct (decide _)|by destruct (decide _)].
      * exists (set_delivered r). split_and!; [|done|done]. apply list_elem_of_fmap. exists r. split; [|done]. by rewrite decide_True.
  - destruct Hl as [H1 H2]. by split.
Qed.

Lemma cancelled_ok g : gateway_ok g → gateway_ok (cancel_pending g) ∧ later g (cancel_pending g).
Proof.
  intros Hg. set (f := λ r : request, if ready r then r else finish (no_body 503) closed_error r).
  assert (∀ r, evolves r (f r)) as Hf.
  { intros r. unfold f. destruct (ready r) eqn:E; [apply evolves_refl|by apply finish_evolves]. }
  destruct (set_requests_ok f g Hf Hg) as [[] [H1 _]]. split; [|by split]. split; try done.
  intros _. apply Forall_fmap, Forall_forall. intros r _. cbn. unfold f. by destruct (ready r) eqn:E.
Qed.
Lemma mark_stop_ok d g : gateway_ok g → gateway_ok (mark_stop d g) ∧ later g (mark_stop d g).
Proof.
  intros Hg. unfold mark_stop. destruct (prefix_stop g); [|by split; [|apply at_least_refl]]. apply same_entries_ok; [done..|apply Hg|done].
Qed.

Record sys_ok (s : system) : Prop := SysOk { s_gateway : gateway_ok (the_gateway s); s_threads : Forall (thread_ok (the_gateway s)) (threads s) }.
Lemma gateway_step_ok s ev : sys_ok s → sys_ok (step s ev) ∧ later (the_gateway s) (the_gateway (step s ev)).
Proof.
  intros [Hg Ht].
  assert (∀ g', gateway_ok g' → later (the_gateway s) g' → Forall (thread_ok g') (threads s)) as Hts.
  { intros g' Hg' Hl. eapply Forall_impl; [done|]. intros t. by apply thread_ok_keeps. }
  destruct ev as [http p|i ch|id d w|d|]; cbn.
  - destruct (entered_ok http p _ Hg) as (H1 & H2 & H3). destruct (enter http p (the_gateway s)) as [g' t]. cbn in *.
    split; [|done]. split; cbn; [done|]. apply Forall_app. split; [by apply Hts|by constructor].
  - destruct (threads s !! i) as [t|] eqn:E; [|by split; [|apply at_least_refl]].
    pose proof (advance_ok_gateway ch t _ Hg (proj1 (Forall_lookup _ _) Ht i t E)) as H.
    destruct (advance ch t (the_gateway s)) as [[g' t'] started]. destruct H as (H1 & H2 & H3 & H4).
    split; [|done]. split; cbn; [done|]. apply Forall_app. split; [by apply Forall_insert; [apply Hts|]|]. destruct started; [by constructor|constructor].
  - destruct (mark_ok id d w _ Hg) as [H1 H2]. split; [|done]. by split; [|apply Hts].
  - destruct (mark_stop_ok d _ Hg) as [H1 H2]. split; [|done]. by split; [|apply Hts].
  - destruct (cancelled_ok _ Hg) as [H1 H2]. split; [|done]. by split; [|apply Hts].
Qed.
Lemma gateway_run_ok l s : sys_ok s → sys_ok (run_from s l) ∧ later (the_gateway s) (the_gateway (run_from s l)).
Proof.
  revert s. induction l as [|ev l IH]; intros s Hs; cbn; [split; [done|apply at_least_refl]|]. destruct (gateway_step_ok s ev Hs) as [H1 H2].
  destruct (IH _ H1) as [H3 H4]. split; [done|by eapply gateway_later_trans].
Qed.
Lemma gateway_init_ok : sys_ok (System gateway_init []).
Proof.
  split; [|constructor]. split; cbn; [|intros _; lia|done|by split; [apply dict_empty_ok|]|constructor|by intros ? ? ?%elem_of_nil].
  intros k r H. by rewrite lookup_nil in H.
Qed.
Lemma run_app l1 l2 : run (l1 ++ l2) = run_from (run l1) l2.
Proof. unfold run, run_from. apply foldl_app. Qed.

Lemma indices_in_order g : gateway_ok g → is_replay = true → replay_index <$> requests g = Some <$> seq 0 (length (requests g)).
Proof.
  intros [] Hm. apply list_eq. intros k. rewrite !list_lookup_fmap. destruct (requests g !! k) as [r|] eqn:E; cbn.
  - rewrite (o_index _ _ _ (k_entries0 _ _ E)), Hm. by rewrite lookup_seq_lt by (by eapply lookup_lt_Some).
  - apply lookup_ge_None in E. by rewrite lookup_seq_ge.
Qed.
Lemma omap_index (l : list request) ks : replay_index <$> l = Some <$> ks → omap replay_index l = ks.
Proof.
  revert ks. induction l as [|r l IH]; intros [|k ks]; try done. rewrite !fmap_cons. intros [= H1 H2]. cbn. rewrite H1. by f_equal; apply IH.
Qed.
Lemma consumed_in_order g : gateway_ok g → is_replay = true → consumed g = seq 0 (length (requests g)).
Proof.
  intros Hg Hm. unfold consumed. rewrite (omap_index _ _ (indices_in_order g Hg Hm)).
  apply (StronglySorted_unique le).
  - apply Sorted_StronglySorted; [intros ???; lia|]. apply Sorted_merge_sort. intros ??; lia.
  - generalize 0%nat. induction (length (requests g)) as [|n IH]; intros k; cbn; constructor; [apply IH|]. apply Forall_forall. intros x Hx%elem_of_seq. lia.
  - apply merge_sort_Permutation.
Qed.

(** C18: a replay goes through the trace in order.  In every run of guests that ask,
    lose their connections and ask again in any order, while producers are at work:
    the requests in the ledger are those of the first actions of the trace, each
    exactly once and in order, never more than the trace or the configured prefix
    has; their ids are distinct, each delivery is logged once, and no two sessions
    of the recording stand for one process of the run. *)
Theorem replay_in_order (l : list event) (Hm : is_replay = true) :
  let g := the_gateway (run l) in
  replay_index <$> requests g = Some <$> seq 0 (length (requests g)) ∧ consumed g = seq 0 (length (requests g)) ∧
  (length (requests g) <= expected_steps)%nat ∧ NoDup (request_id <$> requests g) ∧ NoDup (deliveries g).*1 ∧ bindings_ok (process_sessions g).
Proof.
  destruct (gateway_run_ok l _ gateway_init_ok) as [[Hg _] _]. fold (run l) in Hg. cbn zeta.
  split_and!; [by apply indices_in_order|by apply consumed_in_order|by apply (k_bound _ Hg)| |apply Hg|apply Hg].
  apply NoDup_alt. intros k k' id. rewrite !list_lookup_fmap. intros (r & Hr & ->)%fmap_Some (r' & Hr' & Hi)%fmap_Some. by eapply ids_unique.
Qed.

(** C17: an answer is final.  Once a request is ready, with the answer of its
    producer, a timeout or the end of the session, nothing that happens later
    changes it: every call for this request that returns, before or after, gets this
    very answer, and none gets one when it carries an error.  And once the session
    is closed no caller waits any longer. *)
Theorem answers_are_final (l1 l2 : list event) (k : nat) (r : request)
    (Hk : requests (the_gateway (run l1)) !! k = Some r) (Hr : ready r = true) :
  let s := run (l1 ++ l2) in
  (∃ r', requests (the_gateway s) !! k = Some r' ∧ request_id r' = request_id r ∧ ready r' = true ∧ reply r' = reply r ∧ error r' = error r) ∧
  (∀ i a, threads s !! i = Some (Returned (request_id r) a) → a = reply r ∧ error r = "") ∧
  (cancelled (the_gateway s) = true → ∀ i id ch, threads s !! i = Some (Waiting id) → (advance ch (Waiting id) (the_gateway s)).1.2 ≠ Waiting id).
Proof.
  destruct (gateway_run_ok l1 _ gateway_init_ok) as [H1 _]. fold (run l1) in H1. cbn zeta. rewrite run_app.
  destruct (gateway_run_ok l2 _ H1) as [[Hg Ht] Hl]. destruct (l_entries _ _ Hl _ _ Hk) as (r' & Hk' & E).
  destruct (e_ready _ _ E Hr) as (E1 & E2 & E3). split_and!.
  - exists r'. split_and!; [done|apply E|done..].
  - intros i a Hi. apply (proj1 (Forall_lookup _ _) Ht) in Hi as (r2 & Hf & _ & <- & He).
    rewrite <- (e_id _ _ E), (find_entry _ _ _ Hg Hk') in Hf. injection Hf as <-. split; congruence.
  - intros Hc i id ch Hi. apply (proj1 (Forall_lookup _ _) Ht) in Hi as [r2 Hf]. pose proof (find_spec id (the_gateway (run_from (run l1) l2))) as H.
    rewrite Hf in H. destruct H as [Hin _]. cbn [advance]. rewrite Hf. rewrite (proj1 (Forall_forall _ _) (k_cancelled _ Hg Hc) r2 Hin). by case_bool_decide.
Qed.

Lemma incomplete_spec d (r : request) : incomplete d r = false ↔
  ready r = true ∧ error r = "" ∧ status (reply r) = 200 ∧ (d = true → delivered r = true).
Proof.
  unfold incomplete. rewrite !orb_false_iff, !negb_false_iff, bool_decide_eq_true, Z.eqb_eq, andb_false_iff, negb_false_iff.
  destruct d; intuition congruence.
Qed.
Lemma answered_spec d (l : list request) : existsb (incomplete d) l = false ↔
  Forall (λ r, ready r = true ∧ error r = "" ∧ status (reply r) = 200 ∧ (d = true → delivered r = true)) l.
Proof.
  induction l as [|r l IH]; cbn; [split; [constructor|done]|]. by rewrite orb_false_iff, incomplete_spec, IH, Forall_cons.
Qed.

(** The verdict on a replay is exact.  A session is reported complete just when
    its ledger holds one request for every action of the trace (of the configured
    prefix, whose final control response must have been delivered), in order, each
    answered with status 200 and without error, delivered when this is asked for,
    and the session has not diverged. *)
Theorem verdict_is_exact (l : list event) (require_delivery : bool) (Hm : is_replay = true) :
  let g := the_gateway (run l) in
  complete require_delivery g = true ↔
    replay_index <$> requests g = Some <$> seq 0 expected_steps ∧ replay_failure g = None ∧ (is_Some prefix_limit → prefix_stop g = Some true) ∧
    Forall (λ r, ready r = true ∧ error r = "" ∧ status (reply r) = 200 ∧ (require_delivery = true → delivered r = true)) (requests g).
Proof.
  destruct (gateway_run_ok l _ gateway_init_ok) as [[Hg _] _]. fold (run l) in Hg. cbn zeta.
  unfold complete. rewrite Hm, (consumed_in_order _ Hg Hm), (indices_in_order _ Hg Hm). cbn [negb orb].
  rewrite !andb_true_iff, negb_true_iff, answered_spec, !bool_decide_eq_true, orb_true_iff, negb_true_iff, bool_decide_eq_false.
  assert (Some <$> seq 0 (length (requests (the_gateway (run l)))) = Some <$> seq 0 expected_steps ↔ length (requests (the_gateway (run l))) = expected_steps) as ->.
  { split; [|by intros ->]. intros H. apply (f_equal length) in H. by rewrite !length_fmap, !length_seq in H. }
  assert ((¬ is_Some prefix_limit ∨ default false (prefix_stop (the_gateway (run l))) = true) ↔ (is_Some prefix_limit → prefix_stop (the_gateway (run l)) = Some true)) as ->.
  { destruct (decide (is_Some prefix_limit)), (prefix_stop (the_gateway (run l))) as [[]|]; naive_solver. }
  split; [intros [[[[? _] ?] ?] ?]|intros (-> & ? & ? & ?)]; split_and!; done.
Qed.
End gateway.

(** ** Examples *)

Definition demo_key (f : string) (n : nat) : string * nat := (f, n).
#[local] Instance demo_key_inj : Inj2 (=) (=) (=) demo_key.
Proof. intros f n f' n' [= -> ->]. done. Qed.
Definition demo_print (c : canonical) : string := foldr (λ m s, String.append (role m) (String.append (default "" (content m)) s)) "" (messages c).
Definition demo_action (text : string) : action := Action None (λ _ _, Ok (Answer 200 "application/json" text)).
Definition demo_trace : mode := Replay [demo_action "one"; demo_action "two"].
Definition demo_ask (text : string) : payload := Payload (Some [Message "user" "" (Some text) ""]) ∅.
Definition idle : choice := Choice false (Raise IndexError) (Ok tt).
(** A new request: its call is thread [i], its producer thread [j]. *)
Definition served (p : payload) (i j : nat) : list (event (Id := string * nat)) :=
  [Call true p; Step i idle; Step j idle; Step j idle; Step j idle; Step j idle; Step j idle; Step i idle].
Notation demo_run := (run demo_key demo_print (λ _, None) demo_trace None).
Notation delivery p writes := (Mark (p, 0%nat) true writes).

(** A connection that is lost before the delivery: the guest asks again, and gets
    the same answer from the same request. *)
Definition demo_lost : list (event (Id := string * nat)) :=
  served (demo_ask "a") 0 1 ++ [Mark ("usera", 0%nat) false true; Call true (demo_ask "a"); Step 2 idle; delivery "usera" true].
Definition demo_all : list (event (Id := string * nat)) := demo_lost ++ served (demo_ask "b") 3 4 ++ [delivery "userb" true].
Lemma replay_in_order_witness :
  threads (demo_run demo_all) !! 0%nat = threads (demo_run demo_all) !! 2%nat ∧
  consumed (the_gateway (demo_run demo_all)) = [0%nat; 1%nat] ∧ NoDup (request_id <$> requests (the_gateway (demo_run demo_all))).
Proof.
  split; [vm_compute; reflexivity|].
  destruct (replay_in_order demo_key demo_print (λ _, None) demo_trace None demo_all eq_refl) as (_ & H1 & _ & H2 & _).
  split; [|exact H2]. refine (eq_trans H1 _). vm_compute. reflexivity.
Defined.
Lemma demo_first : ∃ r, requests (the_gateway (demo_run demo_lost)) !! 0%nat = Some r ∧ ready r = true ∧ body (reply r) = "one".
Proof. eexists. split; [vm_compute; reflexivity|]. split; vm_compute; reflexivity. Qed.
Lemma answers_are_final_witness : ∃ r r', requests (the_gateway (demo_run demo_lost)) !! 0%nat = Some r ∧ body (reply r) = "one" ∧
  requests (the_gateway (demo_run (demo_lost ++ [Cancel]))) !! 0%nat = Some r' ∧ reply r' = reply r.
Proof.
  destruct demo_first as (r & E & Hr & Hb).
  destruct (answers_are_final demo_key demo_print (λ _, None) demo_trace None demo_lost [Cancel] 0 r E Hr) as [(r' & H1 & _ & _ & H2 & _) _].
  exists r, r'. split; [exact E|]. split; [exact Hb|]. split; [exact H1|exact H2].
Defined.
Lemma verdict_is_exact_witness : complete demo_trace None true (the_gateway (demo_run demo_all)) = true ∧
  Forall (λ r, delivered r = true) (requests (the_gateway (demo_run demo_all))).
Proof.
  split; [vm_compute; reflexivity|].
  destruct (verdict_is_exact demo_key demo_print (λ _, None) demo_trace None demo_all true eq_refl) as [H _].
  destruct H as (_ & _ & _ & H); [vm_compute; reflexivity|]. eapply Forall_impl; [exact H|]. intros r (_ & _ & _ & Hd). by apply Hd.
Defined.

(** The listener marks the delivery before it writes the response and takes it back
    when the write fails; but [mark_delivery] only counts the failure.  The guest
    asks again with the same payload and is taken to be one step ahead: it gets the
    second action of the trace, and the first response is lost. *)
Example failed_write_skips_step :
  let s := demo_run (served (demo_ask "a") 0 1 ++ [Mark ("usera", 0%nat) true true; Mark ("usera", 0%nat) false true] ++ served (demo_ask "a") 2 3) in
  threads s !! 2%nat = Some (Returned ("usera", 1%nat) (Answer 200 "application/json" "two")) ∧ consumed (the_gateway s) = [0%nat; 1%nat].
Proof. vm_compute. done. Qed.
End Gateway.

(** ** The ledger on disk *)

Module Flush.
Import Gateway.
Section flush.
Context {Id : Type} `{!EqDecision Id} (key : string → nat → Id) (fingerprint : canonical → string).
Context (running : string → option (string * string)) (the_mode : mode) (max_model_steps : option nat) (retain_all : bool).
Notation gateway := (@gateway Id).
Notation gateway_step := (step key fingerprint running the_mode max_model_steps).

(** [_request_failed]: whether the content of a request is needed for diagnosis. *)
Definition request_failed (r : request Id) : bool :=
  negb (ready r) || negb (bool_decide (error r = "")) || negb (status (reply r) =? 200) || negb (delivered r).
(** A record keeps payload and response, or neither. *)
Inductive record := Full (r : request Id) | Reduced (id : Id) (index : option nat) (code : Z).
Definition record_of (r : request Id) : record :=
  if retain_all || request_failed r then Full r else Reduced (request_id r) (replay_index r) (status (reply r)).
Definition ledger (g : gateway) : list record := record_of <$> requests g.

(** The file with the revision it was taken at (kept beside it for the statements
    only), [_persisted_revision], and the holder of [_flush_lock]. *)
Record store := Store { file : option (Z * list record); persisted : Z; holder : option nat }.
Inductive flush :=
  | Waiting (c : Z)                               (** called at revision [c] *)
  | Holding (c : Z)
  | Writing (c r : Z) (snapshot : list record)
  | Marking (c r : Z)
  | Flushed (c : Z)
  | Failed.

(** The next block of flush [i]; [writes] tells whether the file is replaced. *)
Definition advance (i : nat) (writes : bool) (g : gateway) (t : flush) (d : store) : store * flush :=
  match t with
  | Waiting c => match holder d with Some _ => (d, t) | None => (Store (file d) (persisted d) (Some i), Holding c) end
  | Holding c =>
      if (revision g =? persisted d) && bool_decide (is_Some (file d))
      then (Store (file d) (persisted d) None, Flushed c)
      else (d, Writing c (revision g) (ledger g))
  | Writing c r snapshot =>
      if writes then (Store (Some (r, snapshot)) (persisted d) (holder d), Marking c r)
      else (Store (file d) (persisted d) None, Failed)
  | Marking c r => (Store (file d) (if revision g =? r then r else persisted d) None, Flushed c)
  | Flushed _ | Failed => (d, t)
  end.
Record system := System { sessions : @Gateway.system Id; disk : store; flushes : list flush }.
Inductive event := Model (ev : @Gateway.event Id) | Call | Step (i : nat) (writes : bool).
Definition step (s : system) (ev : event) : system :=
  match ev with
  | Model ev => System (gateway_step (sessions s) ev) (disk s) (flushes s)
  | Call => System (sessions s) (disk s) (flushes s ++ [Waiting (revision (the_gateway (sessions s)))])
  | Step i writes =>
      match flushes s !! i with
      | Some t => let '(d, t') := advance i writes (the_gateway (sessions s)) t (disk s) in System (sessions s) d (<[i := t']> (flushes s))
      | None => s
      end
  end.
Definition system_init : system := System (Gateway.System gateway_init []) (Store None (-1) None) [].
Definition run (l : list event) : system := foldl step system_init l.

(** *** The revision tells every change *)

Definition tracked (g g' : gateway) : Prop := revision g <= revision g' ∧ (revision g' = revision g → requests g' = requests g).
Lemma tracked_refl g : tracked g g.
Proof. done. Qed.
Lemma tracked_trans g1 g2 g3 : tracked g1 g2 → tracked g2 g3 → tracked g1 g3.
Proof. intros [H1 H2] [H3 H4]. split; [lia|]. intros H. rewrite H4, H2; [done|lia|lia]. Qed.
Lemma tracked_set l g : tracked g (set_requests l g).
Proof. split; cbn; lia. Qed.
Lemma tracked_same g g' : revision g' = revision g → requests g' = requests g → tracked g g'.
Proof. intros H1 H2. split; [lia|done]. Qed.
#[local] Hint Resolve tracked_refl tracked_set : core.
#[local] Hint Extern 1 (tracked _ (update _ _ _)) => apply tracked_set : core.
#[local] Hint Extern 2 (tracked _ _) => (apply tracked_same; reflexivity) : core.
Lemma tracked_count http id g : tracked g (count_http http id g).
Proof. destruct http; cbn; auto. Qed.
Lemma tracked_create http c index b g : tracked g (create key fingerprint http c index b g).1.
Proof. unfold create. cbn [fst]. eapply tracked_trans; [apply tracked_set|apply tracked_count]. Qed.
Lemma tracked_enter http p g : tracked g (enter key fingerprint running the_mode max_model_steps http p g).1.
Proof.
  unfold enter. repeat (case_match; cbn [fst]; auto using tracked_count, tracked_create).
  all: (eapply tracked_trans; [|apply tracked_create]); auto.
Qed.
Lemma tracked_advance ch t g : tracked g (Gateway.advance the_mode ch t g).1.1.
Proof. destruct t; cbn [Gateway.advance]; repeat (case_match; cbn [fst]; auto); cbn [fst]; auto. Qed.
Lemma tracked_mark id d w g : tracked g (mark_delivery id d w g).2.
Proof.
  unfold mark_delivery. repeat (case_match; cbn [snd]; auto).
  all: (eapply tracked_trans; [|apply tracked_set]); auto.
Qed.
Lemma tracked_step s ev : tracked (the_gateway s) (the_gateway (gateway_step s ev)).
Proof.
  destruct ev as [http p|i ch|id d w|d|]; cbn.
  - pose proof (tracked_enter http p (the_gateway s)) as H. by destruct (enter _ _ _ _ _ http p (the_gateway s)).
  - destruct (Gateway.threads s !! i) as [t|]; [|auto]. pose proof (tracked_advance ch t (the_gateway s)) as H.
    by destruct (Gateway.advance the_mode ch t (the_gateway s)) as [[g' t'] st].
  - apply tracked_mark.
  - unfold mark_stop. destruct (prefix_stop _); auto.
  - unfold cancel_pending. split; cbn; lia.
Qed.

(** *** The file is current *)

Definition content_ok (g : gateway) (f : Z * list record) : Prop := f.1 <= revision g ∧ (f.1 = revision g → f.2 = ledger g).
Definition flush_ok (i : nat) (g : gateway) (d : store) (t : flush) : Prop :=
  match t with
  | Waiting c => c <= revision g ∧ holder d ≠ Some i
  | Holding c => c <= revision g ∧ holder d = Some i
  | Writing c r snapshot => c <= r ∧ content_ok g (r, snapshot) ∧ holder d = Some i ∧ from_option (λ f, f.1 <= r) True (file d) ∧ persisted d <= r ∧ (file d = None ∨ persisted d < r)
  | Marking c r => c <= r ∧ holder d = Some i ∧ r <= revision g ∧ ∃ f, file d = Some f ∧ f.1 = r
  | Flushed c => c <= revision g ∧ holder d ≠ Some i ∧ ∃ f, file d = Some f ∧ c <= f.1
  | Failed => holder d ≠ Some i
  end.
Record flush_sys_ok (s : system) : Prop := FlushSysOk {
  f_persisted : persisted (disk s) <= revision (the_gateway (sessions s)) ∧ (persisted (disk s) = -1 ∨ ∃ f, file (disk s) = Some f ∧ persisted (disk s) <= f.1);
  f_content : from_option (content_ok (the_gateway (sessions s))) True (file (disk s));
  f_holder : ∀ i, holder (disk s) = Some i → (i < length (flushes s))%nat;
  f_flushes : ∀ i t, flushes s !! i = Some t → flush_ok i (the_gateway (sessions s)) (disk s) t }.

Lemma content_tracked g g' f : tracked g g' → content_ok g f → content_ok g' f.
Proof. intros [H1 H2] [H3 H4]. split; [lia|]. intros H. rewrite H4 by lia. unfold ledger. by rewrite H2 by lia. Qed.
Lemma flush_tracked i g g' d t : tracked g g' → flush_ok i g d t → flush_ok i g' d t.
Proof.
  intros Ht. pose proof (proj1 Ht) as Hr. destruct t; cbn; try (intuition lia).
  intros (H1 & H2 & H3). split; [done|]. split; [by eapply content_tracked|done].
Qed.
(** Only the holder of the lock touches the file. *)
Lemma flush_other i j g d d' t : i ≠ j → holder d = Some i ∨ holder d = None → holder d' = Some i ∨ holder d' = None →
  (∃ f', file d' = Some f' ∧ from_option (λ f, f.1 <= f'.1) True (file d)) ∨ file d' = file d →
  flush_ok j g d t → flush_ok j g d' t.
Proof.
  intros Hij Hd Hd' Hf. assert (holder d ≠ Some j) as Hn by (destruct Hd; congruence). assert (holder d' ≠ Some j) as Hn' by (destruct Hd'; congruence).
  destruct t; cbn; try (intuition congruence). intros (H1 & _ & f & H3 & H4). split_and!; [done|done|].
  destruct Hf as [(f' & Hf' & Hle)|Hf]; [|exists f; by rewrite Hf]. exists f'. rewrite H3 in Hle. cbn in Hle. split; [done|lia].
Qed.

Lemma flush_advance i w g d t :
  persisted d <= revision g ∧ (persisted d = -1 ∨ ∃ f, file d = Some f ∧ persisted d <= f.1) → from_option (content_ok g) True (file d) → flush_ok i g d t → -1 < revision g →
  let '(d', t') := advance i w g t d in
  (persisted d' <= revision g ∧ (persisted d' = -1 ∨ ∃ f, file d' = Some f ∧ persisted d' <= f.1)) ∧ from_option (content_ok g) True (file d') ∧ flush_ok i g d' t' ∧
  ((d' = d) ∨ ((holder d = Some i ∨ holder d = None) ∧ (holder d' = Some i ∨ holder d' = None) ∧
     ((∃ f', file d' = Some f' ∧ from_option (λ f, f.1 <= f'.1) True (file d)) ∨ file d' = file d))).
Proof.
  intros [Hp1 Hp2] Hf Ht Hrev. destruct t as [c|c|c r sn|c r|c|]; cbn [advance] in *.
  - destruct (holder d) as [j|] eqn:Hh; [split; [done|]; split; [done|]; split; [done|]; by left|].
    destruct Ht as [H1 _]. split; [done|]. split; [done|]. split; [done|]. right. cbn. auto.
  - destruct Ht as [H1 Hh]. destruct (_ && _) eqn:E.
    + apply andb_true_iff in E as [E1%Z.eqb_eq E2%bool_decide_eq_true]. split; [done|]. split; [done|]. split; [|right; cbn; auto].
      cbn. split; [done|]. split; [done|]. destruct E2 as [f Ef]. destruct Hp2 as [Hp|(f' & Ef' & Hp)]; [lia|]. exists f'. split; [done|lia].
    + split; [done|]. split; [done|]. split; [|by left]. cbn. split; [done|]. split; [done|]. split; [done|]. split; [|split; [done|]].
      * destruct (file d); [apply Hf|done].
      * destruct (file d) eqn:Ef; [|by left]. right. rewrite bool_decide_eq_true_2, andb_true_r in E by eauto. apply Z.eqb_neq in E. lia.
  - destruct Ht as (H1 & H2 & Hh & H4 & H5 & H6). pose proof (proj1 H2) as H2'. cbn in H2'. destruct w; cbn.
    + split; [split; [done|right; exists (r, sn); split; [done|cbn; lia]]|]. split; [done|]. split; [split; [done|split; [done|split; [done|by exists (r, sn)]]]|].
      right. split; [auto|]. split; [auto|]. left. by exists (r, sn).
    + split; [done|]. split; [done|]. split; [done|]. right. auto.
  - destruct Ht as (H1 & Hh & H3 & f & Ef & Hr). cbn. split; [|split; [done|split; [split; [lia|split; [done|exists f; split; [done|lia]]]|right; auto]]].
    destruct (Z.eqb_spec (revision g) r); [|done]. split; [lia|]. right. exists f. split; [done|lia].
  - split; [done|]. split; [done|]. split; [done|]. by left.
  - split; [done|]. split; [done|]. split; [done|]. by left.
Qed.

Lemma step_flush_ok s ev : -1 < revision (the_gateway (sessions s)) → flush_sys_ok s → flush_sys_ok (step s ev) ∧ tracked (the_gateway (sessions s)) (the_gateway (sessions (step s ev))).
Proof.
  intros Hrev [Hp Hf Hh Ht]. destruct ev as [ev| |i w]; cbn.
  - pose proof (tracked_step (sessions s) ev) as H. split; [|done]. split; cbn; [| |done|].
    + destruct H as [H _]. split; [lia|apply Hp].
    + revert Hf. destruct (file (disk s)); cbn; [by apply content_tracked|done].
    + intros j t Hj. eapply flush_tracked; [done|by apply Ht].
  - split; [|apply tracked_refl]. split; cbn; [done|done|intros i Hi%Hh; rewrite length_app; lia|].
    intros j t [Hj|[Hj Ht']]%lookup_app_Some; [by apply Ht|].
    destruct (j - length (flushes s))%nat as [|n] eqn:E; [|by rewrite lookup_cons, lookup_nil in Ht']. injection Ht' as <-. cbn. split; [done|].
    intros Hi%Hh. lia.
  - destruct (flushes s !! i) as [t|] eqn:E; [|split; [by split|apply tracked_refl]]. apply lookup_lt_Some in E as Hi.
    pose proof (flush_advance i w (the_gateway (sessions s)) (disk s) t Hp Hf (Ht i t E) Hrev) as H.
    destruct (advance i w (the_gateway (sessions s)) t (disk s)) as [d' t']. destruct H as (H1 & H2 & H3 & H4). split; [|apply tracked_refl]. split; cbn; [done|done| |].
    + rewrite length_insert. destruct H4 as [->|(H4 & [H5|H5] & _)]; [done|by intros ? [= <-]%(eq_trans (eq_sym H5))|by intros ? ?%(eq_trans (eq_sym H5))].
    + intros j u. destruct (decide (i = j)) as [<-|Hij].
      * rewrite list_lookup_insert_eq by done. by intros [= <-].
      * rewrite list_lookup_insert_ne by done. intros Hu%Ht. destruct H4 as [->|(H4 & H5 & H6)]; [done|]. by apply (flush_other i j _ (disk s)).
Qed.
Lemma flush_init_ok : flush_sys_ok system_init.
Proof. split; cbn; [split; [lia|by left]|done|done|]. intros i t H. by rewrite lookup_nil in H. Qed.
Lemma flush_run_ok l s : -1 < revision (the_gateway (sessions s)) → flush_sys_ok s → flush_sys_ok (foldl step s l) ∧ tracked (the_gateway (sessions s)) (the_gateway (sessions (foldl step s l))).
Proof.
  revert s. induction l as [|ev l IH]; intros s Hr Hs; cbn; [split; [done|apply tracked_refl]|]. destruct (step_flush_ok s ev Hr Hs) as [H1 H2].
  pose proof (proj1 H2). destruct (IH (step s ev)) as [H3 H4]; [lia|done|]. split; [done|by eapply tracked_trans].
Qed.

(** A flush leaves the current ledger.  In every run of a session with any
    number of flushes and failing writes: the revision that is taken to be on disk
    is never ahead of the file, and when a flush that was called at revision [c] has
    returned, the file holds the ledger of that revision or a later one; so if the
    session has not changed since, the file is the ledger as it is. *)
Theorem flush_is_current (l : list event) (i : nat) (c : Z) (Hi : flushes (run l) !! i = Some (Flushed c)) :
  let s := run l in let g := the_gateway (sessions s) in
  ∃ r records, file (disk s) = Some (r, records) ∧ c <= r <= revision g ∧ (r = revision g → records = ledger g) ∧
    (revision g = c → records = ledger g) ∧ (persisted (disk s) = revision g → records = ledger g).
Proof.
  destruct (flush_run_ok l system_init ltac:(cbn; lia) flush_init_ok) as [[[Hp1 Hp2] Hf _ Ht] Hg]. fold (run l) in *. cbn zeta.
  destruct (Ht i _ Hi) as (H1 & _ & [r records] & Hr & Hc). rewrite Hr in Hf, Hp2. destruct Hf as [Hf1 Hf2]. cbn in *.
  exists r, records. split; [done|]. split; [lia|]. split; [done|]. split; [intros; apply Hf2; lia|]. intros Hp. apply Hf2.
  destruct Hg as [Hg _]. cbn in Hg. destruct Hp2 as [|(f & [= <-] & Hp2)]; [lia|]. cbn in Hp2. lia.
Qed.
End flush.

Definition demo_flushes : list (event (Id := string * nat)) :=
  (Model <$> demo_all) ++ [Call; Call; Step 0 true; Step 1 true; Step 0 true; Step 0 true; Step 0 true; Step 1 true; Step 1 true].
Notation demo_flushed := (run demo_key demo_print (λ _, None) demo_trace None false demo_flushes).
Lemma demo_flushed_at : flushes demo_flushed !! 1%nat = Some (Flushed (revision (the_gateway (sessions demo_flushed)))).
Proof. vm_compute. reflexivity. Qed.
Lemma flush_is_current_witness :
  ∃ r records, file (disk demo_flushed) = Some (r, records) ∧ records = ledger false (the_gateway (sessions demo_flushed)).
Proof.
  pose proof (flush_is_current demo_key demo_print (λ _, None) demo_trace None false demo_flushes 1 _ demo_flushed_at) as H.
  cbn zeta in H. destruct H as (r & records & H1 & _ & _ & H2 & _). exists r, records. split; [exact H1|]. apply H2. reflexivity.
Defined.
End Flush.
