(* ===== verification/GatewaySessions.v ===== *)
(** * Sessions of the managed gateway (src/clawbox/experiments/model_gateway.py)

    One listener serves the model gateways of all sessions.  [SessionGatewayState]
    counts the requests under way, refuses new ones while it drains, and sees to
    it that the ledger is written once more when the last request ends after a drain
    has given up.  A checkpoint of the guest raises the delivery generation, so that
    a response to a connection from before it is not delivered.  The gateway itself
    ([ModelGateway]) appears here by its effects only. *)
From S2P Require Import Prelude.

Module Session.
(** What is asked of the gateway, in order. *)
Inductive effect := Release | Cancel_pending | Flush | Mark (i : nat) (delivered : bool).

Record session := Session { active_requests : nat; draining : bool; delivery_generation : Z; flush_when_idle : bool; effects : list effect }.
Definition session_init : session := Session 0 false 0 false [].
Definition log (e : effect) (s : session) : session :=
  Session (active_requests s) (draining s) (delivery_generation s) (flush_when_idle s) (effects s ++ [e]).

Definition acquire (s : session) : bool * session :=
  if draining s then (false, s)
  else (true, Session (S (active_requests s)) (draining s) (delivery_generation s) (flush_when_idle s) (effects s)).
(** The block of [release] under the condition; the answer is its local [flush]. *)
Definition release (s : session) : bool * session :=
  let active := pred (active_requests s) in
  if (active =? 0)%nat
  then (draining s && flush_when_idle s, Session active (draining s) (delivery_generation s) false (effects s ++ [Release]))
  else (false, Session active (draining s) (delivery_generation s) (flush_when_idle s) (effects s ++ [Release])).
Definition invalidate_pending_delivery (s : session) : session :=
  Session (active_requests s) (draining s) (delivery_generation s + 1) (flush_when_idle s) (effects s).
Definition may_deliver (generation : Z) (s : session) : bool := generation =? delivery_generation s.
Definition set_draining (s : session) : session :=
  Session (active_requests s) true (delivery_generation s) (flush_when_idle s) (effects s).
Definition set_idle_flush (s : session) : session :=
  Session (active_requests s) (draining s) (delivery_generation s) true (effects s).

Inductive thread :=
  | Arriving                         (** [_acquire]: the session is found *)
  | Refused
  | Serving                          (** acquired; before [delivery_generation] *)
  | Completing (generation : Z)      (** in [complete_http] *)
  | Completed (generation : Z)       (** the response is there *)
  | Denied                           (** the connection is from before a checkpoint *)
  | Allowed
  | Writing                          (** delivery is marked; the response is written *)
  | Failing                          (** the write failed *)
  | Ending                           (** the [finally] block *)
  | Idle_flush                       (** [release] has to flush *)
  | Ended
  | Draining                         (** [drain]: before the condition *)
  | Emptying                         (** [drain]: waits for the requests *)
  | Giving_up                        (** [drain]: before [cancel_pending] *)
  | Flushing (drained : bool)
  | Drained (drained : bool).

(** The next block of thread [i]; [fails] is a failure of the gateway or of the
    socket, [expired] the end of the time to drain. *)
Definition advance (i : nat) (fails expired : bool) (t : thread) (s : session) : session * thread :=
  match t with
  | Arriving => let '(ok, s') := acquire s in (s', if ok then Serving else Refused)
  | Serving => (s, Completing (delivery_generation s))
  | Completing g => (s, if fails then Ending else Completed g)
  | Completed g => (s, if may_deliver g s then Allowed else Denied)
  | Denied => (log (Mark i false) s, Ending)
  | Allowed => (log (Mark i true) s, Writing)
  | Writing => (s, if fails then Failing else Ending)
  | Failing => (log (Mark i false) s, Ending)
  | Ending => let '(flush, s') := release s in (s', if flush then Idle_flush else Ended)
  | Idle_flush => (log Flush s, Ended)
  | Draining => (set_draining s, Emptying)
  | Emptying =>
      if (active_requests s =? 0)%nat then (s, Flushing true)
      else if expired then (set_idle_flush s, Giving_up)
      else (s, t)
  | Giving_up => (log Cancel_pending s, Flushing false)
  | Flushing b => (log Flush s, Drained b)
  | Refused | Ended | Drained _ => (s, t)
  end.

Record system := System { the_session : session; threads : list thread }.
Inductive event := Request | Drain | Invalidate | Step (i : nat) (fails expired : bool).
Definition step (s : system) (ev : event) : system :=
  match ev with
  | Request => System (the_session s) (threads s ++ [Arriving])
  | Drain => System (the_session s) (threads s ++ [Draining])
  | Invalidate => System (invalidate_pending_delivery (the_session s)) (threads s)
  | Step i fails expired =>
      match threads s !! i with
      | Some t => let '(x, t') := advance i fails expired t (the_session s) in System x (<[i := t']> (threads s))
      | None => s
      end
  end.
Definition run_from (s : system) (l : list event) : system := foldl step s l.
Definition run (l : list event) : system := run_from (System session_init []) l.

(** ** Requests and drains *)

Definition serving (t : thread) : bool :=
  match t with Serving | Completing _ | Completed _ | Denied | Allowed | Writing | Failing | Ending => true | _ => false end.
(** A drain that waits no longer. *)
Definition past (t : thread) : bool := match t with Giving_up | Flushing _ | Drained _ => true | _ => false end.
(** A thread that is about to flush. *)
Definition due (t : thread) : bool := match t with Idle_flush | Giving_up | Flushing _ => true | _ => false end.
(** No request has ended since the last flush. *)
Definition settled (l : list effect) : Prop := ∃ l1 l2, l = l1 ++ Flush :: l2 ∧ Release ∉ l2.
Definition count (f : thread → bool) (l : list thread) : nat := length (filter (λ t, f t = true) l).

#[global] Arguments count : simpl never.
Record books (x : session) (serves : nat) (is_draining is_past is_due : Prop) : Prop := Books {
  n_active : active_requests x = serves;
  n_draining : is_draining → draining x = true;
  n_past : is_past → is_draining;
  n_idle : is_past → active_requests x = 0%nat ∨ flush_when_idle x = true;
  n_settled : is_past → active_requests x = 0%nat → settled (effects x) ∨ is_due }.
Definition session_ok (s : system) : Prop :=
  books (the_session s) (count serving (threads s)) (Exists (λ t, past t = true ∨ t = Emptying) (threads s))
    (Exists (λ t, past t = true) (threads s)) (Exists (λ t, due t = true) (threads s)).

Lemma count_app f l1 l2 : count f (l1 ++ l2) = (count f l1 + count f l2)%nat.
Proof. unfold count. by rewrite filter_app, length_app. Qed.
Lemma count_one f t : count f [t] = if f t then 1%nat else 0%nat.
Proof. unfold count. rewrite filter_cons. cbn. destruct (f t); [by rewrite decide_True|by rewrite decide_False]. Qed.
Lemma count_cons f t l : count f (t :: l) = ((if f t then 1 else 0) + count f l)%nat.
Proof. change (t :: l) with ([t] ++ l). by rewrite count_app, count_one. Qed.

Lemma settled_log e l : e ≠ Release → settled l → settled (l ++ [e]).
Proof.
  intros He (l1 & l2 & -> & H). exists l1, (l2 ++ [e]). split; [by rewrite <- app_assoc|]. rewrite not_elem_of_app, list_elem_of_singleton. by split; [|congruence].
Qed.
Lemma settled_flush l : settled (l ++ [Flush]).
Proof. exists l, []. split; [done|apply not_elem_of_nil]. Qed.

#[local] Hint Resolve settled_log settled_flush : core.
Lemma books_impl x n d p q d' p' q' : (d' → d) → (p' → p) → (q → q') → (p' → d') → books x n d p q → books x n d' p' q'.
Proof. intros H1 H2 H3 H4 []. split; [done|tauto|tauto|tauto|]. intros Hp Ha. destruct n_settled0; tauto. Qed.

Lemma release_books x n (d p q : Prop) : books x (S n) d p q →
  books (release x).2 n d p (q ∨ (release x).1 = true).
Proof.
  intros []. unfold release. rewrite n_active0. cbn [pred]. destruct (Nat.eqb_spec n 0) as [->|Hn]; cbn; (split; cbn; [done|done|done|..]).
  - auto.
  - intros Hp _. right. right. destruct (n_idle0 Hp) as [|Hf]; [congruence|]. by rewrite (n_draining0 (n_past0 Hp)), Hf.
  - intros Hp. destruct (n_idle0 Hp); [congruence|auto].
  - intros _ ?. congruence.
Qed.
Lemma release_flags x : draining (release x).2 = draining x.
Proof. unfold release. by destruct (_ =? _)%nat. Qed.
Lemma log_books e x n d p q : e ≠ Release → books x n d p q → books (log e x) n d p q.
Proof. intros He []. split; cbn; try done. intros Hp Ha. destruct (n_settled0 Hp Ha); auto. Qed.
Lemma flush_books x n (d p q d' p' q' : Prop) : (d' → d) → (p' → p) → (p' → d') → books x n d p q → books (log Flush x) n d' p' q'.
Proof. intros H1 H2 H3 []. split; cbn; auto. Qed.

Lemma turn_books i fails expired t x n (d p q : Prop) :
  books x ((if serving t then 1 else 0) + n) ((past t = true ∨ t = Emptying) ∨ d) (past t = true ∨ p) (due t = true ∨ q) → (p → d) →
  let '(x', t') := advance i fails expired t x in
  books x' ((if serving t' then 1 else 0) + n) ((past t' = true ∨ t' = Emptying) ∨ d) (past t' = true ∨ p) (due t' = true ∨ q).
Proof.
  intros H Hpd.
  assert (∀ t' : thread, serving t' = serving t → past t' = past t → due t' = due t → t' ≠ Emptying → books x ((if serving t' then 1 else 0) + n) ((past t' = true ∨ t' = Emptying) ∨ d) (past t' = true ∨ p) (due t' = true ∨ q)) as Hsame.
  { intros t' -> -> -> He. eapply books_impl, H; tauto. }
  destruct t as [| | |g|g| | | | | | | | | | |b|b]; cbn [advance]; try (by apply Hsame); try done.
  - unfold acquire. destruct (draining x) eqn:Ed; [by apply Hsame|]. cbn. destruct H as []. cbn in *.
    assert (¬ d) as Hd by (intros Hd; rewrite n_draining0 in Ed; [done|tauto]).
    split; cbn; [by rewrite n_active0|intros [[?|?]|?]; done|intros [?|?]; [done|tauto]|intros [?|?]; [done|tauto]|intros [?|?]; [done|tauto]].
  - destruct fails; by apply Hsame.
  - destruct (may_deliver g x); by apply Hsame.
  - eapply books_impl, log_books, H; cbn; intuition congruence.
  - eapply books_impl, log_books, H; cbn; intuition congruence.
  - destruct fails; by apply Hsame.
  - eapply books_impl, log_books, H; cbn; intuition congruence.
  - cbn in H. pose proof (release_books _ _ _ _ _ H) as Hr. destruct (release x) as [fl x'] eqn:E. cbn in Hr.
    destruct fl; cbn [serving]; (eapply books_impl, Hr; cbn; intuition congruence).
  - eapply flush_books, H; cbn; intuition congruence.
  - destruct H as []. split; cbn in *; [done|done|intuition congruence|intuition congruence|intuition congruence].
  - destruct (Nat.eqb_spec (active_requests x) 0) as [Ha|Ha]; [|destruct expired; [|done]].
    + destruct H as []. split; cbn in *; intuition congruence.
    + destruct H as []. split; cbn in *; intuition congruence.
  - eapply books_impl, log_books, H; cbn; intuition congruence.
  - eapply flush_books, H; cbn; intuition congruence.
Qed.

#[local] Instance books_proper x n : Proper (iff ==> iff ==> iff ==> iff) (books x n).
Proof. intros d d' Hd p p' Hp q q' Hq. split; intros []; split; tauto. Qed.
Lemma Exists_mid {A} (P : A → Prop) l1 x l2 : Exists P (l1 ++ x :: l2) ↔ P x ∨ Exists P (l1 ++ l2).
Proof. rewrite !Exists_app, Exists_cons. tauto. Qed.
Lemma Exists_past_draining ts : Exists (λ t, past t = true) ts → Exists (λ t, past t = true ∨ t = Emptying) ts.
Proof. intros H. eapply Exists_impl; [exact H|]. auto. Qed.

(** A thread that is not a request under way, a drain past its wait or a pending
    flush joins. *)
Lemma joined_ok x ts t : serving t = false → past t = false → due t = false → t ≠ Emptying → session_ok (System x ts) → session_ok (System x (ts ++ [t])).
Proof.
  intros H1 H2 H3 H4. unfold session_ok. cbn. rewrite count_app, count_one, H1, Nat.add_0_r, !Exists_app, !Exists_cons, !Exists_nil, H2, H3.
  apply books_proper; intuition congruence.
Qed.
Lemma session_step_ok s ev : session_ok s → session_ok (step s ev).
Proof.
  destruct s as [x ts]. intros H. destruct ev as [| | |i fails expired]; cbn [step the_session threads].
  - by apply joined_ok.
  - by apply joined_ok.
  - destruct H. by split.
  - destruct (ts !! i) as [t|] eqn:E; [|done]. apply list_elem_of_split_length in E as (l1 & l2 & -> & ->). unfold session_ok in H. cbn in H.
    rewrite !Exists_mid, count_app, count_cons in H. pose proof (turn_books (length l1) fails expired t x (count serving l1 + count serving l2)
      (Exists (λ t, past t = true ∨ t = Emptying) (l1 ++ l2)) (Exists (λ t, past t = true) (l1 ++ l2)) (Exists (λ t, due t = true) (l1 ++ l2))) as Ha.
    destruct (advance (length l1) fails expired t x) as [x' t']. rewrite insert_app_r_alt, Nat.sub_diag by done. unfold session_ok. cbn.
    rewrite !Exists_mid, count_app, count_cons.
    replace (count serving l1 + ((if serving t' then 1 else 0) + count serving l2))%nat with ((if serving t' then 1 else 0) + (count serving l1 + count serving l2))%nat by lia.
    apply Ha; [|apply Exists_past_draining].
    by replace ((if serving t then 1 else 0) + (count serving l1 + count serving l2))%nat with (count serving l1 + ((if serving t then 1 else 0) + count serving l2))%nat by lia.
Qed.
Lemma session_run_ok l s : session_ok s → session_ok (run_from s l).
Proof. revert s. induction l as [|ev l IH]; intros s Hs; cbn; [done|]. by apply IH, session_step_ok. Qed.
Lemma session_init_ok : session_ok (System session_init []).
Proof. split; cbn; [done|..]; by intros ?%Exists_nil. Qed.

(** Once a session drains, no request joins it. *)
Lemma run_draining l s : draining (the_session s) = true → draining (the_session (run_from s l)) = true.
Proof.
  revert s. induction l as [|ev l IH]; intros s Hs; cbn; [done|]. apply IH. destruct ev as [| | |i fails expired]; cbn; try done.
  destruct (threads s !! i) as [t|]; [|done]. destruct t; cbn; try done.
  - unfold acquire. by rewrite Hs.
  - pose proof (release_flags (the_session s)) as H. destruct (release (the_session s)). cbn in *. congruence.
  - destruct (_ =? _)%nat; [done|]. by destruct expired.
Qed.
Lemma step_serving s ev : draining (the_session s) = true → (count serving (threads (step s ev)) <= count serving (threads s))%nat.
Proof.
  intros Hd. destruct ev as [| | |i fails expired]; cbn; [by rewrite count_app, count_one, Nat.add_0_r..|done|].
  destruct (threads s !! i) as [t|] eqn:E; [|done]. apply list_elem_of_split_length in E as (l1 & l2 & Ht & ->).
  assert (∀ t', serving t = true ∨ serving t' = false → (count serving (<[length l1 := t']> (threads s)) <= count serving (threads s))%nat) as H.
  { intros t' H. rewrite Ht, insert_app_r_alt, Nat.sub_diag by done. cbn [insert list_insert]. rewrite !count_app, !count_cons. destruct (serving t), (serving t'); lia || (exfalso; destruct H; congruence). }
  destruct t; cbn; try (by apply H; auto).
  - unfold acquire. rewrite Hd. apply H. auto.
  - destruct (release (the_session s)) as [[] ?]; apply H; auto.
  - destruct (_ =? _)%nat; [|destruct expired]; apply H; auto.
Qed.
Lemma run_serving l s : draining (the_session s) = true → (count serving (threads (run_from s l)) <= count serving (threads s))%nat.
Proof.
  revert s. induction l as [|ev l IH]; intros s Hs; cbn; [done|]. etrans; [apply IH|by apply step_serving].
  by apply (run_draining [ev]).
Qed.

Lemma session_run_app l1 l2 : run (l1 ++ l2) = run_from (run l1) l2.
Proof. unfold run, run_from. apply foldl_app. Qed.
Lemma run_past l s : Exists (λ t, past t = true) (threads s) → Exists (λ t, past t = true) (threads (run_from s l)).
Proof.
  revert s. induction l as [|ev l IH]; intros s Hs; cbn; [done|]. apply IH. destruct ev as [| | |i fails expired]; cbn; [apply Exists_app; by left..|done|].
  destruct (threads s !! i) as [t|] eqn:E; [|done]. destruct (advance i fails expired t (the_session s)) as [x t'] eqn:Ea. cbn.
  apply Exists_exists in Hs as (u & Hu & Hp). apply list_elem_of_lookup in Hu as [j Hj]. apply Exists_exists. destruct (decide (i = j)) as [->|Hij].
  - exists t'. split; [apply (list_elem_of_lookup_2 _ j), list_lookup_insert_eq; by eapply lookup_lt_Some|].
    assert (t = u) as -> by congruence. destruct u; try done; cbn in Ea; by injection Ea as <- <-.
  - exists u. split; [|done]. apply (list_elem_of_lookup_2 _ j). by rewrite list_lookup_insert_ne.
Qed.


(** Two requests; a checkpoint makes the first one reconnect, and a drain gives up on
    the second, whose end flushes once more. *)
Definition demo_before : list event :=
  [Request; Request; Step 0 false false; Step 1 false false; Step 0 false false; Step 1 false false; Invalidate; Step 0 false false; Step 0 false false; Step 0 false false; Step 0 false false;
   Drain; Step 2 false false; Step 2 false true; Step 2 false false; Step 2 false false].
Definition demo_after : list event := [Request; Step 3 false false; Step 1 true false; Step 1 false false; Step 1 false false].
End Session.
