(* ===== verification/Supervisor.v ===== *)
(** * Supervision of a run (src/clawbox/experiments/supervisor.py)

    [ExperimentSupervisor] runs the arms of an experiment one after the other, each
    in a worker process that creates VMs and journals them.  Its state is kept in the
    file run-state.json, so that a run that was interrupted is resumed: the resources
    of the interrupted arm are cleaned up first, and trials that are complete are not
    repeated.  [abort_run] and [cleanup_run] end a run from another process.

    The supervisor may die between any two of its effects, and the worker runs beside
    it.  An effect therefore takes a turn from a list: what the workers did in the
    meantime, and what the effect answers or raises.  A list that ends is the death
    of the supervisor, which no handler sees. *)
From S2P Require Import Prelude Dict.
From Stdlib Require Import Ascii.

(** ** Results *)

Inductive RunStatus := SUCCEEDED | FAILED | TIMED_OUT | REJECTED | CANCELLED.
Inductive FailureCategory :=
  WORKLOAD | AGENT | INFERENCE | TOOL | SANDBOX | ADMISSION | CAPACITY | OOM | TIMEOUT | VALIDATION | INFRASTRUCTURE.
#[export] Instance run_status_eq_dec : EqDecision RunStatus.
Proof. solve_decision. Defined.
#[export] Instance failure_category_eq_dec : EqDecision FailureCategory.
Proof. solve_decision. Defined.

(** The entries of [correctness] that are read or written here; one that counts or
    lists is the truth of its value. *)
Record Correctness := {
  cleanup_verified : option bool; validation_passed : option bool; failure : option string;
  native_tool_telemetry_loss_total : bool; session_failures : bool; arm_interrupted : bool; infrastructure_failure : bool }.
Record ExperimentArm := { arm_id : string; spec_digest : string }.
Record ResultEnvelope := {
  attempt_id : string; arm : ExperimentArm; status : RunStatus; failure_category : option FailureCategory; correctness : Correctness }.
#[export] Instance correctness_eq_dec : EqDecision Correctness.
Proof. solve_decision. Defined.
#[export] Instance arm_eq_dec : EqDecision ExperimentArm.
Proof. solve_decision. Defined.
#[export] Instance envelope_eq_dec : EqDecision ResultEnvelope.
Proof. solve_decision. Defined.

(** The validator of a stored envelope. *)
Definition status_and_failure_category_agree (r : ResultEnvelope) : bool :=
  match status r, failure_category r with
  | SUCCEEDED, Some _ => false
  | SUCCEEDED, None | CANCELLED, _ | _, Some _ => true
  | _, None => false
  end.

Definition is_trial_outcome (r : ResultEnvelope) : bool :=
  let c := correctness r in
  if negb (bool_decide (cleanup_verified c = Some true)) then false
  else if bool_decide (status r = SUCCEEDED) then negb (native_tool_telemetry_loss_total c)
  else if bool_decide (failure_category r = Some INFRASTRUCTURE) then false
  else if bool_decide (failure_category r ∈ [Some OOM; Some TIMEOUT; Some ADMISSION]) then true
  else session_failures c && negb (arm_interrupted c || infrastructure_failure c).

(** ** The state of a run *)

(** A directory for artifacts: the one of the attempt, or of an invocation. *)
Inductive root := Root (attempt arm : string) (resumed_ns : option nat).
#[export] Instance root_eq_dec : EqDecision root.
Proof. solve_decision. Defined.
#[export] Instance root_countable : Countable root.
Proof.
  apply (inj_countable' (λ r, match r with Root a b c => (a, b, c) end) (λ x, Root x.1.1 x.1.2 x.2)). by intros [].
Defined.
(** Where the VMs of an invocation are journalled, and the task they belong to. *)
Definition journal : Type := root * string.

Inductive arm_status := Pending | Running | Interrupted | Not_run | Ended (s : RunStatus).
Record arm_state := {
  a_status : arm_status; a_attempt_id : option string; task_uid : option string; artifact_root : option root;
  a_cleanup_verified : bool; worker : option nat }.
Definition pending_arm : arm_state :=
  {| a_status := Pending; a_attempt_id := None; task_uid := None; artifact_root := None; a_cleanup_verified := false; worker := None |}.

Inductive run_state := Starting | Run_running | Succeeded | Run_failed | Run_cancelled | Destroyed.
#[export] Instance run_state_eq_dec : EqDecision run_state.
Proof. solve_decision. Defined.
(** The document run-state.json, less what only reports (phase, times, texts). *)
Record state := { s_attempt_id : string; s_state : run_state; s_digest : string; supervisor : nat; arms : dict string arm_state }.

Definition with_arms (a : dict string arm_state) (s : state) : state :=
  {| s_attempt_id := s_attempt_id s; s_state := s_state s; s_digest := s_digest s; supervisor := supervisor s; arms := a |}.
Definition with_state (x : run_state) (s : state) : state :=
  {| s_attempt_id := s_attempt_id s; s_state := x; s_digest := s_digest s; supervisor := supervisor s; arms := arms s |}.
Definition with_status (x : arm_status) (a : arm_state) : arm_state :=
  {| a_status := x; a_attempt_id := a_attempt_id a; task_uid := task_uid a; artifact_root := artifact_root a;
     a_cleanup_verified := a_cleanup_verified a; worker := worker a |}.
Definition with_verified (b : bool) (a : arm_state) : arm_state :=
  {| a_status := a_status a; a_attempt_id := a_attempt_id a; task_uid := task_uid a; artifact_root := artifact_root a;
     a_cleanup_verified := b; worker := worker a |}.
Definition with_worker (p : nat) (a : arm_state) : arm_state :=
  {| a_status := a_status a; a_attempt_id := a_attempt_id a; task_uid := task_uid a; artifact_root := artifact_root a;
     a_cleanup_verified := a_cleanup_verified a; worker := Some p |}.

(** ** Files, processes and turns *)

(** What a worker, or anyone but the supervisor, does: a live worker creates a VM,
    a worker ends, the VMs of a journal go away. *)
Inductive move := Boot (pid : nat) | Exit (pid : nat) | Settle (j : journal).
(** What an effect reads: whether the deadline has passed and a heartbeat is due, the
    exit status of a child ([None] if it did not end), the result file that the
    worker left (if it can be read), the clock. *)
Record reading := { late : bool; heartbeat : bool; code : option Z; child : option ResultEnvelope; now : nat }.
Record turn := Turn { moves : list move; answer : outcome reading }.

(** [memory] is the attribute [state]; a process is named by its identity, a worker
    is known by its journal and its parent; [owned] are the journals that have VMs. *)
Record world := World {
  turns : list turn; memory : option state; disk : option state; root_exists : bool; dirs : gset root;
  results : gmap string ResultEnvelope; markers : gmap string string;
  archive : gmap (string * string) ResultEnvelope; summary : list ResultEnvelope;
  workers : gmap nat (journal * nat); next_pid : nat; supervisors : gset nat; owned : gset journal }.

Definition set_turns t w := World t (memory w) (disk w) (root_exists w) (dirs w) (results w) (markers w) (archive w) (summary w) (workers w) (next_pid w) (supervisors w) (owned w).
Definition set_memory m w := World (turns w) m (disk w) (root_exists w) (dirs w) (results w) (markers w) (archive w) (summary w) (workers w) (next_pid w) (supervisors w) (owned w).
Definition set_disk d w := World (turns w) (memory w) d (root_exists w) (dirs w) (results w) (markers w) (archive w) (summary w) (workers w) (next_pid w) (supervisors w) (owned w).
Definition make_root w := World (turns w) (memory w) (disk w) true (dirs w) (results w) (markers w) (archive w) (summary w) (workers w) (next_pid w) (supervisors w) (owned w).
Definition add_dir r w := World (turns w) (memory w) (disk w) (root_exists w) ({[r]} ∪ dirs w) (results w) (markers w) (archive w) (summary w) (workers w) (next_pid w) (supervisors w) (owned w).
Definition set_result id r w := World (turns w) (memory w) (disk w) (root_exists w) (dirs w) (<[id := r]> (results w)) (markers w) (archive w) (summary w) (workers w) (next_pid w) (supervisors w) (owned w).
Definition set_markers m w := World (turns w) (memory w) (disk w) (root_exists w) (dirs w) (results w) m (archive w) (summary w) (workers w) (next_pid w) (supervisors w) (owned w).
Definition archive_result k r w := World (turns w) (memory w) (disk w) (root_exists w) (dirs w) (results w) (markers w) (<[k := r]> (archive w)) (summary w) (workers w) (next_pid w) (supervisors w) (owned w).
Definition set_summary l w := World (turns w) (memory w) (disk w) (root_exists w) (dirs w) (results w) (markers w) (archive w) l (workers w) (next_pid w) (supervisors w) (owned w).
Definition set_workers x w := World (turns w) (memory w) (disk w) (root_exists w) (dirs w) (results w) (markers w) (archive w) (summary w) x (next_pid w) (supervisors w) (owned w).
Definition spawn j parent w := World (turns w) (memory w) (disk w) (root_exists w) (dirs w) (results w) (markers w) (archive w) (summary w) (<[next_pid w := (j, parent)]> (workers w)) (S (next_pid w)) (supervisors w) (owned w).
Definition set_supervisors x w := World (turns w) (memory w) (disk w) (root_exists w) (dirs w) (results w) (markers w) (archive w) (summary w) (workers w) (next_pid w) x (owned w).
Definition set_owned x w := World (turns w) (memory w) (disk w) (root_exists w) (dirs w) (results w) (markers w) (archive w) (summary w) (workers w) (next_pid w) (supervisors w) x.

Definition move_one (w : world) (m : move) : world :=
  match m with
  | Boot pid => match workers w !! pid with Some (j, _) => set_owned ({[j]} ∪ owned w) w | None => w end
  | Exit pid => set_workers (delete pid (workers w)) w
  | Settle j => set_owned (owned w ∖ {[j]}) w
  end.
Definition move_all (l : list move) (w : world) : world := foldl move_one w l.

(** ** Programs that may be killed *)

Inductive reply (A : Type) := Done (a : A) | Raised (e : exn) | Killed.
Arguments Done {A} _.
Arguments Raised {A} _.
Arguments Killed {A}.
Definition P (A : Type) : Type := world → reply A * world.
#[export] Instance P_ret : MRet P := λ A a w, (Done a, w).
#[export] Instance P_bind : MBind P := λ A B k m w,
  match m w with
  | (Done a, w') => k a w'
  | (Raised e, w') => (Raised e, w')
  | (Killed, w') => (Killed, w')
  end.
Definition throw {A} (e : exn) : P A := λ w, (Raised e, w).
Definition look : P world := λ w, (Done w, w).
Definition change (f : world → world) : P unit := λ w, (Done tt, f w).
(** [try: m except BaseException as e: h(e)] *)
Definition catch {A} (m : P A) (h : exn → P A) : P A := λ w,
  match m w with
  | (Raised e, w') => h e w'
  | x => x
  end.
(** [except Exception] *)
Definition catch_exception {A} (m : P A) (h : exn → P A) : P A := catch m (λ e, if is_exception e then h e else throw e).

(** One effect. *)
Definition tick : P reading := λ w,
  match turns w with
  | [] => (Killed, w)
  | t :: rest =>
      let w := move_all (moves t) (set_turns rest w) in
      match answer t with Ok r => (Done r, w) | Raise e => (Raised e, w) end
  end.

Definition the_state (w : world) : state :=
  default {| s_attempt_id := ""; s_state := Starting; s_digest := ""; supervisor := 0; arms := ∅ |} (memory w).
Definition set_state (f : state → state) : P unit := change (λ w, set_memory (Some (f (the_state w))) w).
(** [self.state["arms"][id]] is changed in place. *)
Definition alter_arm (id : string) (f : arm_state → arm_state) : P unit :=
  set_state (λ s, with_arms (<[id := f (default pending_arm (arms s !! id))]> (arms s)) s).
Definition _write_state : P unit := tick ≫= λ _, change (λ w, set_disk (memory w) w).
Definition terminate_process_tree (pid : nat) : P unit := tick ≫= λ _, change (λ w, set_workers (delete pid (workers w)) w).
Definition process_is_alive (pid : nat) (w : world) : bool := bool_decide (is_Some (workers w !! pid)).

(** ** The supervisor *)

Section supervisor.
Context (sha256 : string → string).

(** [ExperimentSupervisor.__init__]; [spec] appears by its digest. *)
Record ExperimentSupervisor := {
  self_attempt_id : string; owner_id : string; resume : bool; self_digest : string; self_pid : nat; has_receipt : bool }.

Definition _attempt_task_uid (owner attempt arm : string) : string :=
  let zero := String (ascii_of_nat 0) "" in
  ("clawbox-" +:+ String.substring 0 20 (sha256 (owner +:+ zero +:+ attempt +:+ zero +:+ arm)))%string.

(** [_cleanup]: a helper process destroys what the journal names.  When it does not
    end in time it is terminated. *)
Definition _cleanup (uid : string) (r : root) : P bool :=
  tick ≫= λ x,
  match code x with
  | Some 0 => change (λ w, set_owned (owned w ∖ {[(r, uid)]}) w) ≫= λ _, mret true
  | Some _ => mret false
  | None => tick ≫= λ _, mret false
  end.

(** The body of the loop of [_recover_for_resume]: the arm afterwards, and whether it
    is a failure. *)
Definition recover_arm (a : arm_state) : P (arm_state * bool) :=
  look ≫= λ w,
  match worker a with
  | Some pid => if process_is_alive pid w then terminate_process_tree pid else mret tt
  | None => mret tt
  end ≫= λ _,
  if a_cleanup_verified a then mret (a, false)
  else match task_uid a, artifact_root a with
       | Some u, Some r =>
           catch_exception (_cleanup u r) (λ _, mret false) ≫= λ cleaned,
           let a := with_verified cleaned a in
           mret (if cleaned then match a_status a with Running => with_status Interrupted a | _ => a end else a, negb cleaned)
       | _, _ => mret (a, false)
       end.
Fixpoint recover_arms (l : list (string * arm_state)) : P (list (string * arm_state) * bool) :=
  match l with
  | [] => mret ([], false)
  | (id, a) :: l' =>
      recover_arm a ≫= λ x, recover_arms l' ≫= λ y, mret ((id, x.1) :: y.1, x.2 || y.2)
  end.
Definition _recover_for_resume (s : state) : P state :=
  recover_arms (arms s) ≫= λ x : list (string * arm_state) * bool,
  let s := with_arms x.1 s in
  tick ≫= λ _, change (set_disk (Some s)) ≫= λ _,
  if x.2 then throw (RuntimeError "cannot resume until interrupted resources are cleaned") else mret s.

Definition read_run_state : P state :=
  look ≫= λ w, match disk w with Some s => mret s | None => throw (ValueError "run state does not exist") end.

Definition run_is_active (s : state) (w : world) : bool :=
  bool_decide (s_state s = Run_running) && bool_decide (supervisor s ∈ supervisors w).

(** [self.state.setdefault("arms", {}).setdefault(arm_id, ...)] *)
Definition setdefault_arm (s : state) (a : ExperimentArm) : state :=
  match arms s !! arm_id a with
  | Some _ => s
  | None => with_arms (<[arm_id a := pending_arm]> (arms s)) s
  end.

Definition _initialize (c : ExperimentSupervisor) (l : list ExperimentArm) : P unit :=
  (if resume c then
     read_run_state ≫= λ s, look ≫= λ w,
     if run_is_active s w then throw (RuntimeError "run is already active")
     else if negb (bool_decide (s_digest s = self_digest c)) then throw (ValueError "resume spec digest does not match the frozen run spec")
     else _recover_for_resume s ≫= λ s,
       (if bool_decide (s_attempt_id s = self_attempt_id c) then mret tt else tick ≫= λ _, mret tt) ≫= λ _,
       change (set_memory (Some {| s_attempt_id := self_attempt_id c; s_state := Run_running; s_digest := s_digest s;
                                   supervisor := self_pid c; arms := arms s |}))
   else
     look ≫= λ w,
     if root_exists w then throw (ValueError "result directory already exists")
     else tick ≫= λ _, change make_root ≫= λ _, tick ≫= λ _,
       (if has_receipt c then tick ≫= λ _, mret tt else mret tt) ≫= λ _,
       change (set_memory (Some {| s_attempt_id := self_attempt_id c; s_state := Run_running; s_digest := self_digest c;
                                   supervisor := self_pid c; arms := foldl (λ d a, <[arm_id a := pending_arm]> d) ∅ l |}))) ≫= λ _,
  set_state (λ s, foldl setdefault_arm s l) ≫= λ _, _write_state.

(** A result that a resumed run need not produce again. *)
Definition _completed_result (c : ExperimentSupervisor) (a : ExperimentArm) (w : world) : option ResultEnvelope :=
  r ← results w !! arm_id a; m ← markers w !! arm_id a;
  if status_and_failure_category_agree r && is_trial_outcome r && bool_decide (attempt_id r = self_attempt_id c)
     && bool_decide (arm_id (arm r) = arm_id a) && bool_decide (spec_digest (arm r) = spec_digest a)
     && bool_decide (m = spec_digest a) && bool_decide (cleanup_verified (correctness r) = Some true)
  then Some r else None.

(** [_store_result] *)
Definition _store_result (r : ResultEnvelope) : P unit :=
  let id := arm_id (arm r) in
  look ≫= λ w,
  match results w !! id with
  | Some p => if bool_decide (attempt_id p = attempt_id r) then mret tt
              else tick ≫= λ _, change (archive_result (attempt_id p, id) p)
  | None => mret tt
  end ≫= λ _,
  tick ≫= λ _, change (set_result id r) ≫= λ _,
  tick ≫= λ _, change (λ w, set_markers (if is_trial_outcome r then <[id := spec_digest (arm r)]> (markers w) else delete id (markers w)) w).

(** The loop that waits for the worker; whether it has timed out.  An iteration is
    one turn. *)
Fixpoint poll_loop (pid : nat) (l : list turn) (w : world) : reply bool * world :=
  match l with
  | [] => (Killed, set_turns [] w)
  | t :: rest =>
      let w := move_all (moves t) (set_turns rest w) in
      match answer t with
      | Raise e => (Raised e, w)
      | Ok x =>
          if negb (process_is_alive pid w) then (Done false, w)
          else if late x then (terminate_process_tree pid ≫= λ _, mret true) w
          else poll_loop pid rest (if heartbeat x then set_disk (memory w) w else w)
      end
  end.

Definition correctness_failed (why : string) (verified : option bool) (c : Correctness) : Correctness :=
  {| cleanup_verified := verified; validation_passed := Some false; failure := Some why;
     native_tool_telemetry_loss_total := native_tool_telemetry_loss_total c; session_failures := session_failures c;
     arm_interrupted := arm_interrupted c; infrastructure_failure := infrastructure_failure c |}.
Definition correctness_cleaned (c : Correctness) : Correctness :=
  {| cleanup_verified := Some true; validation_passed := validation_passed c; failure := failure c;
     native_tool_telemetry_loss_total := native_tool_telemetry_loss_total c; session_failures := session_failures c;
     arm_interrupted := arm_interrupted c; infrastructure_failure := infrastructure_failure c |}.

Definition _synthetic_result (c : ExperimentSupervisor) (a : ExperimentArm) (s : RunStatus) (detail : string) (verified : bool) : ResultEnvelope :=
  {| attempt_id := self_attempt_id c; arm := a; status := s;
     failure_category := Some (match s with TIMED_OUT => TIMEOUT | _ => INFRASTRUCTURE end);
     correctness := {| cleanup_verified := Some verified; validation_passed := Some false; failure := Some detail;
       native_tool_telemetry_loss_total := false; session_failures := false; arm_interrupted := false; infrastructure_failure := false |} |}.

(** The worker's result file, when it is valid and of this arm. *)
Definition accepted_child (a : ExperimentArm) (x : option ResultEnvelope) : option ResultEnvelope :=
  r ← x;
  if status_and_failure_category_agree r && bool_decide (arm_id (arm r) = arm_id a) && bool_decide (spec_digest (arm r) = spec_digest a)
  then Some r else None.
(** The result of an arm from how the worker and the cleanup ended. *)
Definition arm_result (c : ExperimentSupervisor) (a : ExperimentArm) (timed_out : bool) (return_code : option Z)
    (x : option ResultEnvelope) (verified : bool) : ResultEnvelope :=
  let r :=
    if timed_out then _synthetic_result c a TIMED_OUT "worker exceeded arm execution plus finalization timeout" verified
    else match x with
         | None => _synthetic_result c a FAILED "worker exited without a valid arm result" verified
         | Some r =>
             if negb (bool_decide (return_code = Some 0)) && bool_decide (status r = SUCCEEDED)
             then {| attempt_id := attempt_id r; arm := arm r; status := FAILED; failure_category := Some INFRASTRUCTURE;
                     correctness := correctness_failed "worker exited with a status" (cleanup_verified (correctness r)) (correctness r) |}
             else r
         end in
  if verified
  then {| attempt_id := attempt_id r; arm := arm r; status := status r; failure_category := failure_category r;
          correctness := correctness_cleaned (correctness r) |}
  else {| attempt_id := attempt_id r; arm := arm r; status := FAILED; failure_category := Some INFRASTRUCTURE;
          correctness := correctness_failed "cleanup was not verified" (Some false) (correctness r) |}.

(** [_run_arm] up to the start of the worker; the artifact root. *)
Definition begin_arm (c : ExperimentSupervisor) (a : ExperimentArm) : P (root * string) :=
  let uid := _attempt_task_uid (owner_id c) (self_attempt_id c) (arm_id a) in
  tick ≫= λ x, look ≫= λ w,
  let first := Root (self_attempt_id c) (arm_id a) None in
  (if bool_decide (first ∈ dirs w)
   then if resume c then mret (Root (self_attempt_id c) (arm_id a) (Some (now x))) else throw (ValueError "attempt already exists")
   else mret first) ≫= λ r,
  (if bool_decide (r ∈ dirs w) then throw (OSError "EEXIST") else change (add_dir r)) ≫= λ _,
  alter_arm (arm_id a) (λ s, {| a_status := Running; a_attempt_id := Some (self_attempt_id c); task_uid := Some uid;
                                artifact_root := Some r; a_cleanup_verified := false; worker := worker s |}) ≫= λ _,
  _write_state ≫= λ _, mret (r, uid).

(** From the start of the worker to its end: its exit status and whether it has timed
    out. *)
Definition watch_arm (c : ExperimentSupervisor) (a : ExperimentArm) (j : journal) : P (option Z * bool) :=
  tick ≫= λ _, look ≫= λ w, let pid := next_pid w in
  change (spawn j (self_pid c)) ≫= λ _,
  tick ≫= λ _, alter_arm (arm_id a) (with_worker pid) ≫= λ _, _write_state ≫= λ _,
  catch (λ w, poll_loop pid (turns w) w) (λ e,
    terminate_process_tree pid ≫= λ _, _write_state ≫= λ _,
    _cleanup j.2 j.1 ≫= λ verified,
    alter_arm (arm_id a) (λ s, with_status (Ended (match e with KeyboardInterrupt => CANCELLED | _ => FAILED end)) (with_verified verified s)) ≫= λ _,
    _write_state ≫= λ _, throw e) ≫= λ timed_out,
  tick ≫= λ x, mret (code x, timed_out).

Definition _run_arm (c : ExperimentSupervisor) (a : ExperimentArm) : P ResultEnvelope :=
  begin_arm c a ≫= λ j,
  watch_arm c a j ≫= λ '(return_code, timed_out),
  _write_state ≫= λ _,
  _cleanup j.2 j.1 ≫= λ verified,
  alter_arm (arm_id a) (with_verified verified) ≫= λ _,
  tick ≫= λ x,
  let r := arm_result c a timed_out return_code (accepted_child a (child x)) verified in
  _store_result r ≫= λ _,
  tick ≫= λ _,
  alter_arm (arm_id a) (with_status (Ended (status r))) ≫= λ _,
  _write_state ≫= λ _, mret r.

Definition write_summary (l : list ResultEnvelope) : P unit := tick ≫= λ _, change (set_summary l).

(** The loop of [run]; [done] is [self.results]. *)
Fixpoint run_arms (c : ExperimentSupervisor) (l : list ExperimentArm) (done : list ResultEnvelope) : P (list ResultEnvelope) :=
  match l with
  | [] => mret done
  | a :: l' =>
      look ≫= λ w,
      match _completed_result c a w with
      | Some previous => alter_arm (arm_id a) (with_status (Ended (status previous))) ≫= λ _, run_arms c l' (done ++ [previous])
      | None =>
          _run_arm c a ≫= λ r,
          write_summary (done ++ [r]) ≫= λ _,
          if is_trial_outcome r then run_arms c l' (done ++ [r]) else mret (done ++ [r])
      end
  end.

Definition complete (l : list ExperimentArm) (rs : list ResultEnvelope) : bool :=
  (length rs =? length l)%nat && forallb (λ r, bool_decide (status r = SUCCEEDED)) rs.
Definition mark_not_run (s : state) (a : ExperimentArm) : state :=
  match arms s !! arm_id a with
  | Some x => match a_status x with Pending => with_arms (<[arm_id a := with_status Not_run x]> (arms s)) s | _ => s end
  | None => s
  end.

Definition run (c : ExperimentSupervisor) (l : list ExperimentArm) : P (list ResultEnvelope) :=
  _initialize c l ≫= λ _,
  catch (run_arms c l []) (λ e,
    set_state (with_state (match e with KeyboardInterrupt => Run_cancelled | _ => Run_failed end)) ≫= λ _,
    _write_state ≫= λ _, throw e) ≫= λ rs,
  set_state (λ s, with_state (if complete l rs then Succeeded else Run_failed) (foldl mark_not_run s l)) ≫= λ _,
  write_summary rs ≫= λ _, _write_state ≫= λ _, mret rs.

(** ** Ending a run from outside *)

(** The body of the loop of [cleanup_run]. *)
Fixpoint cleanup_arms (l : list (string * arm_state)) : P (list (string * arm_state) * bool) :=
  match l with
  | [] => mret ([], false)
  | (id, a) :: l' =>
      match task_uid a, artifact_root a with
      | Some u, Some r =>
          catch_exception (_cleanup u r) (λ _, mret false) ≫= λ cleaned,
          cleanup_arms l' ≫= λ y, mret ((id, with_verified cleaned a) :: y.1, negb cleaned || y.2)
      | _, _ => cleanup_arms l' ≫= λ y, mret ((id, a) :: y.1, y.2)
      end
  end.
Definition cleanup_run : P unit :=
  read_run_state ≫= λ s,
  cleanup_arms (arms s) ≫= λ x : list (string * arm_state) * bool,
  catch_exception (tick ≫= λ _, mret false) (λ _, mret true) ≫= λ storage,
  let failures := x.2 || storage in
  tick ≫= λ _,
  change (set_disk (Some (with_state (if failures then Run_failed else Destroyed) (with_arms x.1 s)))) ≫= λ _,
  if failures then throw (RuntimeError "run cleanup incomplete") else mret tt.

Definition cancel_arm (a : arm_state) : arm_state :=
  match a_status a with Pending | Running => with_status (Ended CANCELLED) a | _ => a end.
(** The tree of a process are its children while it lives. *)
Definition terminate_supervisor (pid : nat) : P unit :=
  tick ≫= λ _, change (λ w, set_supervisors (supervisors w ∖ {[pid]}) (set_workers (filter (λ x, x.2.2 ≠ pid) (workers w)) w)).
Definition abort_run : P unit :=
  read_run_state ≫= λ s, look ≫= λ w,
  (if bool_decide (supervisor s ∈ supervisors w) then terminate_supervisor (supervisor s) else mret tt) ≫= λ _,
  cleanup_run ≫= λ _,
  read_run_state ≫= λ s,
  tick ≫= λ _, change (set_disk (Some (with_state Run_cancelled (with_arms ((λ x, (x.1, cancel_arm x.2)) <$> (arms s : list _)) s)))).

(** ** Histories of a run *)

(** A supervisor that runs out of turns either died ([survives] is false) or is still
    there when the next command is given. *)
Inductive invocation :=
  | Supervise (c : ExperimentSupervisor) (l : list ExperimentArm) (ts : list turn) (survives : bool)
  | Abort (ts : list turn)
  | Destroy (ts : list turn).

Definition invoke (w : world) (i : invocation) : world :=
  match i with
  | Supervise c l ts survives =>
      let '(x, w') := run c l (set_memory None (set_supervisors ({[self_pid c]} ∪ supervisors w) (set_turns ts w))) in
      match x, survives with
      | Killed, true => w'
      | _, _ => set_supervisors (supervisors w' ∖ {[self_pid c]}) w'
      end
  | Abort ts => (abort_run (set_turns ts w)).2
  | Destroy ts => (cleanup_run (set_turns ts w)).2
  end.
Definition world_init : world := World [] None None false ∅ ∅ ∅ ∅ [] ∅ 0 ∅ ∅.
Definition history (l : list invocation) : world := foldl invoke world_init l.

(** ** Reasoning about programs that may be killed

    [wp m Q X C]: the worlds from which [m] ends in [Q], raises in [X] and is killed
    in [C]. *)
Definition wp {A} (m : P A) (Q : A → world → Prop) (X C : world → Prop) : world → Prop := λ w,
  match m w with
  | (Done a, w') => Q a w'
  | (Raised _, w') => X w'
  | (Killed, w') => C w'
  end.

Lemma ret_wp {A} (a : A) Q X C w : Q a w → wp (mret a) Q X C w.
Proof. done. Qed.
Lemma wp_throw {A} e Q (X C : world → Prop) w : X w → wp (throw e : P A) Q X C w.
Proof. done. Qed.
Lemma wp_look Q X C w : Q w w → wp look Q X C w.
Proof. done. Qed.
Lemma wp_change f (Q : unit → world → Prop) X C w : Q tt (f w) → wp (change f) Q X C w.
Proof. done. Qed.
Lemma bind_wp {A B} (m : P A) (k : A → P B) Q X C w : wp m (λ a, wp (k a) Q X C) X C w → wp (m ≫= k) Q X C w.
Proof. unfold wp. cbn. unfold mbind, P_bind. by destruct (m w) as [[] w']. Qed.
Lemma mono_wp {A} (m : P A) Q Q' (X X' C C' : world → Prop) w :
  wp m Q X C w → (∀ a w', Q a w' → Q' a w') → (∀ w', X w' → X' w') → (∀ w', C w' → C' w') → wp m Q' X' C' w.
Proof. unfold wp. destruct (m w) as [[] w']; auto. Qed.
Lemma wp_catch {A} (m : P A) h Q (X C : world → Prop) w : wp m Q (λ w', ∀ e, wp (h e) Q X C w') C w → wp (catch m h) Q X C w.
Proof. unfold wp, catch. destruct (m w) as [[a|e|] w']; [done|intros H; exact (H e)|done]. Qed.
Lemma wp_catch_exception {A} (m : P A) h Q (X C : world → Prop) w :
  wp m Q (λ w', X w' ∧ ∀ e, wp (h e) Q X C w') C w → wp (catch_exception m h) Q X C w.
Proof.
  intros H. apply wp_catch. eapply mono_wp; [exact H|done| |done]. intros w' [HX Hh] e. destruct (is_exception e); [done|by apply wp_throw].
Qed.

(** What holds whatever the workers do and whatever turns are left. *)
Definition stable (I : world → Prop) : Prop := (∀ w m, I w → I (move_one w m)) ∧ ∀ w t, I w → I (set_turns t w).
Lemma stable_moves I l w : stable I → I w → I (move_all l w).
Proof. intros [H _]. revert w. induction l as [|m l IH]; intros w Hw; cbn; [done|]. by apply IH, H. Qed.
Lemma stable_turn I l t w : stable I → I w → I (move_all l (set_turns t w)).
Proof. intros H Hw. apply stable_moves; [done|]. by apply H. Qed.
Lemma wp_tick (I : world → Prop) Q (X C : world → Prop) w :
  stable I → I w → (∀ x w', I w' → Q x w') → (∀ w', I w' → X w' ∧ C w') → wp tick Q X C w.
Proof.
  intros HI Hw HQ HX. unfold wp, tick. destruct (turns w) as [|t rest]; [by apply HX|].
  pose proof (stable_turn I (moves t) rest w HI Hw) as H. destruct (answer t); [by apply HQ|by apply HX].
Qed.

(** ** Where VMs may be

    [within K O w]: the live workers satisfy [K] and the journals with VMs [O]. *)
Definition within (K : nat → journal * nat → Prop) (O : journal → Prop) (w : world) : Prop :=
  (∀ pid x, workers w !! pid = Some x → K pid x) ∧ ∀ j, j ∈ owned w → O j.
Lemma within_impl (K K' : nat → journal * nat → Prop) (O O' : journal → Prop) w :
  (∀ pid x, K pid x → K' pid x) → (∀ j, O j → O' j) → within K O w → within K' O' w.
Proof. intros HK HO [H1 H2]. split; eauto. Qed.

(** What the workers do not touch. *)
Definition fields (w : world) := (memory w, disk w, root_exists w, dirs w, results w, markers w).
Lemma fields_move w m : fields (move_one w m) = fields w.
Proof. destruct m as [pid|pid|j]; cbn; [|done..]. by destruct (workers w !! pid) as [[]|]. Qed.
Lemma stable_and I J : stable I → stable J → stable (λ w, I w ∧ J w).
Proof. intros [H1 H2] [H3 H4]. split; intros w x []; auto. Qed.
Lemma stable_fields R : stable (λ w, R (fields w)).
Proof. split; intros w x H; [by rewrite fields_move|exact H]. Qed.
Lemma stable_within (K : nat → journal * nat → Prop) (O : journal → Prop) : (∀ pid x, K pid x → O x.1) → stable (within K O).
Proof.
  intros HKO. split; intros w x [H1 H2]; [|by split]. destruct x as [pid|pid|j]; cbn.
  - destruct (workers w !! pid) as [[j p]|] eqn:E; [|by split]. split; cbn; [done|].
    intros j' [->%elem_of_singleton|Hj]%elem_of_union; [|auto]. exact (HKO _ _ (H1 _ _ E)).
  - split; cbn; [|done]. intros p x [_ Hp]%lookup_delete_Some. auto.
  - split; cbn; [done|]. set_solver.
Qed.

Definition journal_of (a : arm_state) : option journal :=
  match artifact_root a, task_uid a with Some r, Some u => Some (r, u) | _, _ => None end.
(** The state names the journal, and says that it is not known to be clean. *)
Definition noted (l : list (string * arm_state)) (j : journal) : Prop :=
  ∃ id a, (id, a) ∈ l ∧ journal_of a = Some j ∧ a_cleanup_verified a = false.
Definition notes (o : option state) (j : journal) : Prop := ∃ s, o = Some s ∧ noted (arms s) j.

(** No worker and no VM is left. *)
Definition calm : world → Prop := within (λ _ _, False) (λ _, False).
(** Live workers and VMs belong to journals that run-state.json names. *)
Definition accounted (w : world) : Prop := within (λ _ x, notes (disk w) x.1) (notes (disk w)) w.
(** run-state.json names every live worker, with its journal. *)
Definition known (w : world) : Prop := ∀ pid x, workers w !! pid = Some x →
  ∃ s id a, disk w = Some s ∧ (id, a) ∈ (arms s : list _) ∧ journal_of a = Some x.1 ∧ a_cleanup_verified a = false ∧ worker a = Some pid.

(** The stages of an arm: nothing runs yet or any more; only [pid] may run; only
    journal [j] may have VMs, and the files name it. *)
Definition rooted (w : world) : Prop := root_exists w = true.
Definition noting (j : journal) (w : world) : Prop := rooted w ∧ notes (disk w) j ∧ notes (memory w) j.
Definition lone (pid : nat) (j : journal) (w : world) : Prop := within (λ p x, p = pid ∧ x.1 = j) (.= j) w ∧ noting j w.
Definition quiet (j : journal) (w : world) : Prop := within (λ _ _, False) (.= j) w ∧ noting j w.
Definition acc (w : world) : Prop :=
  rooted w ∧ (calm w ∨ ∃ j, within (λ _ x, x.1 = j) (.= j) w ∧ notes (disk w) j ∧ notes (memory w) j).

Lemma calm_calm w : calm w ↔ workers w = ∅ ∧ owned w = ∅.
Proof.
  split.
  - intros [H1 H2]. split; [apply map_empty; intros i; destruct (workers w !! i) eqn:E; [by destruct (H1 _ _ E)|done]|set_solver].
  - intros [H1 H2]. split; rewrite ?H1, ?H2; [by intros ? ? ?%lookup_empty_Some|set_solver].
Qed.
Lemma stable_calm : stable calm.
Proof. by apply stable_within. Qed.
Lemma stable_rooted_calm : stable (λ w, rooted w ∧ calm w).
Proof. apply stable_and; [|exact stable_calm]. apply (stable_fields (λ x, x.1.1.1.2 = true)). Qed.
Lemma stable_noting j : stable (noting j).
Proof. apply (stable_fields (λ x, x.1.1.1.2 = true ∧ notes x.1.1.1.1.2 j ∧ notes x.1.1.1.1.1 j)). Qed.
Lemma stable_lone pid j : stable (lone pid j).
Proof. apply stable_and; [|exact (stable_noting j)]. apply stable_within. by intros p x []. Qed.
Lemma stable_quiet j : stable (quiet j).
Proof. apply stable_and; [|exact (stable_noting j)]. by apply stable_within. Qed.
Lemma stable_acc : stable acc.
Proof.
  assert (∀ j, stable (λ w, within (λ _ x, x.1 = j) (.= j) w ∧ noting j w)) as H.
  { intros j. apply stable_and; [|exact (stable_noting j)]. by apply stable_within. }
  split; intros w x [Hr [Hc|(j & Hw & Hd & Hm)]].
  - destruct (proj1 stable_rooted_calm w x) as [H1 H2]; [done|]. split; auto.
  - destruct (proj1 (H j) w x) as [H1 (H2 & H3 & H4)]; [done|]. split; [done|]. right. by exists j.
  - split; auto.
  - split; [done|]. right. by exists j.
Qed.
Lemma lone_acc pid j w : lone pid j w → acc w.
Proof. intros [Hw (Hr & Hd & Hm)]. split; [done|]. right. exists j. split; [|done]. eapply within_impl, Hw; [by intros p x []|done]. Qed.
Lemma quiet_lone pid j w : quiet j w → lone pid j w.
Proof. intros [Hw H]. split; [|done]. by eapply within_impl, Hw. Qed.
Lemma quiet_acc j w : quiet j w → acc w.
Proof. intros H. by eapply (lone_acc 0), quiet_lone. Qed.
Lemma calm_acc w : rooted w ∧ calm w → acc w.
Proof. intros []. split; auto. Qed.
Lemma calm_quiet j w : rooted w ∧ calm w → notes (disk w) j → notes (memory w) j → quiet j w.
Proof. intros [Hr Hc] Hd Hm. split; [|done]. by eapply within_impl, Hc. Qed.
Lemma acc_accounted w : acc w → accounted w.
Proof.
  intros [_ [Hc|(j & Hw & Hd & _)]]; [by eapply within_impl, Hc|]. eapply within_impl, Hw; [by intros p x ->|by intros ? ->].
Qed.
#[local] Hint Resolve lone_acc quiet_acc calm_acc : core.

(** *** The arm *)

Lemma alter_elem (l : dict string arm_state) id f (x : string * arm_state) : x ∈ (l : list _) →
  x ∈ (<[id := f (default pending_arm (l !! id))]> l : list _) ∨ (id, f x.2) ∈ (<[id := f (default pending_arm (l !! id))]> l : list _).
Proof.
  induction l as [|[k v] l IH]; intros Hx; [by apply elem_of_nil in Hx|]. rewrite lookup_dict_cons, insert_dict_cons.
  destruct (decide (k = id)) as [->|Hk]; apply elem_of_cons in Hx as [->|Hx]; cbn.
  - right. apply list_elem_of_here.
  - left. by apply list_elem_of_further.
  - left. apply list_elem_of_here.
  - destruct (IH Hx); [left|right]; by apply list_elem_of_further.
Qed.
Lemma noted_alter l id f j : (∀ a, journal_of a = Some j → a_cleanup_verified a = false → journal_of (f a) = Some j ∧ a_cleanup_verified (f a) = false) →
  noted l j → noted (<[id := f (default pending_arm ((l : dict string arm_state) !! id))]> (l : dict string arm_state)) j.
Proof.
  intros Hf (k & a & Ha & Hj & Hv). destruct (alter_elem l id f (k, a) Ha) as [H|H]; [by exists k, a|]. exists id, (f a). split; [done|]. by apply Hf.
Qed.
Lemma notes_state s o j : notes o j → o = Some s → noted (arms s) j.
Proof. by intros (s' & -> & H) [= ->]. Qed.
Lemma the_state_memory w s : memory w = Some s → the_state w = s.
Proof. unfold the_state. by intros ->. Qed.
(** A change of an arm that keeps its journal and does not claim it clean. *)
Lemma quiet_alter j id f w : (∀ a, journal_of a = Some j → a_cleanup_verified a = false → journal_of (f a) = Some j ∧ a_cleanup_verified (f a) = false) →
  notes (memory w) j → notes (Some (with_arms (<[id := f (default pending_arm (arms (the_state w) !! id))]> (arms (the_state w))) (the_state w))) j.
Proof.
  intros Hf (s & Hs & Hn). rewrite (the_state_memory w s Hs). eexists. split; [done|]. by apply noted_alter.
Qed.
Lemma wp_alter id f (Q : unit → world → Prop) X C w :
  Q tt (set_memory (Some (with_arms (<[id := f (default pending_arm (arms (the_state w) !! id))]> (arms (the_state w))) (the_state w))) w) →
  wp (alter_arm id f) Q X C w.
Proof. done. Qed.

(** An effect in a stage of an arm. *)
Lemma tick_acc (I : world → Prop) Q w : stable I → I w → (∀ w', I w' → acc w') → (∀ x w', I w' → Q x w') → wp tick Q acc acc w.
Proof. intros HI Hw Ha HQ. eapply wp_tick; [exact HI|done|done|]. intros w' H. auto. Qed.
Lemma write_acc (I : world → Prop) (Q : unit → world → Prop) w : stable I → I w → (∀ w', I w' → acc w') →
  (∀ w', I w' → Q tt (set_disk (memory w') w')) → wp _write_state Q acc acc w.
Proof. intros HI Hw Ha HQ. apply bind_wp. eapply tick_acc; [exact HI|done|done|]. intros _ w' H. by apply wp_change, HQ. Qed.
Lemma write_lone pid j w (Q : unit → world → Prop) : lone pid j w → (∀ w', lone pid j w' → Q tt w') → wp _write_state Q acc acc w.
Proof.
  intros Hw HQ. eapply write_acc; [apply (stable_lone pid j)|done|eauto|]. intros w' [H1 (Hr & Hd & Hm)]. by apply HQ.
Qed.
Lemma write_quiet j w (Q : unit → world → Prop) : quiet j w → (∀ w', quiet j w' → Q tt w') → wp _write_state Q acc acc w.
Proof.
  intros Hw HQ. eapply write_acc; [apply (stable_quiet j)|done|eauto|]. intros w' [H1 (Hr & Hd & Hm)]. by apply HQ.
Qed.
Lemma write_calm w (Q : unit → world → Prop) : rooted w ∧ calm w → (∀ w', rooted w' ∧ calm w' → Q tt w') → wp _write_state Q acc acc w.
Proof. intros Hw HQ. eapply write_acc; [apply stable_rooted_calm|done|eauto|]. intros w' H. by apply HQ. Qed.

Lemma begin_ok c a w : rooted w ∧ calm w → wp (begin_arm c a) quiet acc acc w.
Proof.
  intros Hw. unfold begin_arm. apply bind_wp. eapply tick_acc; [apply stable_rooted_calm|done|eauto|]. clear w Hw. intros x w Hw. cbn beta.
  apply bind_wp, wp_look. cbv zeta. apply bind_wp.
  assert (∀ r, wp ((if bool_decide (r ∈ dirs w) then throw (OSError "EEXIST") else change (add_dir r)) ≫= λ _,
    alter_arm (arm_id a) (λ s, {| a_status := Running; a_attempt_id := Some (self_attempt_id c);
      task_uid := Some (_attempt_task_uid (owner_id c) (self_attempt_id c) (arm_id a)); artifact_root := Some r; a_cleanup_verified := false; worker := worker s |}) ≫= λ _,
    _write_state ≫= λ _, mret (r, _attempt_task_uid (owner_id c) (self_attempt_id c) (arm_id a))) quiet acc acc w) as Hr.
  { intros r. apply bind_wp. case_bool_decide; [by apply wp_throw; auto|]. apply wp_change, bind_wp, wp_alter.
    set (j := (r, _attempt_task_uid (owner_id c) (self_attempt_id c) (arm_id a))). apply bind_wp.
    eapply (write_acc (λ w, (rooted w ∧ calm w) ∧ notes (memory w) j)); [|split; [done|]|by intros w' []; auto|].
    - apply stable_and; [exact stable_rooted_calm|]. apply (stable_fields (λ x, notes x.1.1.1.1.1 j)).
    - eexists. split; [done|]. cbn. eexists (arm_id a), _. split; [apply dict_lookup_elem, dict_lookup_insert_eq|]. by split.
    - intros w' [Hc Hm]. apply ret_wp. by apply calm_quiet. }
  case_bool_decide; [|apply ret_wp, Hr]. destruct (resume c); [apply ret_wp, Hr|]. apply wp_throw; auto.
Qed.

(** What stays true when VMs go away. *)
Definition shrinks (I : world → Prop) : Prop := ∀ w X, I w → I (set_owned (owned w ∖ X) w).
Lemma cleanup_ok (I : world → Prop) u r w : stable I → shrinks I → I w →
  wp (_cleanup u r) (λ b w', I w' ∧ (b = true → (r, u) ∉ owned w')) I I w.
Proof.
  intros HI Hs Hw. apply bind_wp. eapply (wp_tick I); [done|done| |auto]. clear w Hw. intros x w Hw. destruct (code x) as [[|p|p]|].
  - apply bind_wp, wp_change, ret_wp. split; [by apply Hs|]. cbn. set_solver.
  - by apply ret_wp.
  - by apply ret_wp.
  - apply bind_wp. eapply (wp_tick I); [done|done| |auto]. intros _ w' Hw'. by apply ret_wp.
Qed.
Lemma shrinks_within K O w X : within K O w → within K O (set_owned (owned w ∖ X) w).
Proof. intros [H1 H2]. split; cbn; [done|set_solver]. Qed.
Lemma cleanup_quiet j w (Q : bool → world → Prop) : quiet j w →
  (∀ w', quiet j w' → Q false w') → (∀ w', quiet j w' → calm w' → Q true w') → wp (_cleanup j.2 j.1) Q acc acc w.
Proof.
  intros Hw Hf Ht. eapply mono_wp; [apply (cleanup_ok (quiet j))| |eauto..].
  - exact (stable_quiet j).
  - intros w' X [H1 H2]. split; [by apply shrinks_within|done].
  - done.
  - intros [] w' [Hq Hb]; [|by apply Hf]. apply Ht; [done|]. destruct Hq as [[H1 H2] _]. split; [done|]. intros j' Hj'.
    apply (Hb eq_refl). rewrite (H2 _ Hj') in Hj'. by destruct j.
Qed.

Lemma poll_loop_ok pid j l w : lone pid j w → wp (poll_loop pid l) (λ _, quiet j) (lone pid j) (lone pid j) w.
Proof.
  revert w. induction l as [|t l IH]; intros w Hw; unfold wp in *; cbn; [by apply stable_lone|].
  pose proof (stable_turn _ (moves t) l w (stable_lone pid j) Hw) as H. set (w1 := move_all (moves t) (set_turns l w)) in *. clearbody w1. clear w Hw.
  destruct (answer t) as [x|e]; [|done]. unfold process_is_alive. case_bool_decide as Hp; cbn.
  - destruct (late x).
    + change (wp (terminate_process_tree pid ≫= λ _, mret true) (λ _, quiet j) (lone pid j) (lone pid j) w1). apply bind_wp, bind_wp.
      eapply (wp_tick (lone pid j)); [apply stable_lone|done| |auto]. intros _ w [[H1 H2] H3]. apply wp_change, ret_wp. split; [|done].
      split; cbn; [|done]. intros p y [Hne Hy]%lookup_delete_Some. by destruct (H1 _ _ Hy) as [-> _].
    + apply IH. destruct (heartbeat x); [|done]. destruct H as [H1 (H2 & H3 & H4)]. by split.
  - destruct H as [[H1 H2] H3]. split; [|done]. split; [|done]. intros p y Hy. apply Hp. destruct (H1 _ _ Hy) as [-> _]. eauto.
Qed.

Lemma terminate_lone pid j w (Q : unit → world → Prop) : lone pid j w → (∀ w', quiet j w' → Q tt w') → wp (terminate_process_tree pid) Q acc acc w.
Proof.
  intros Hw HQ. apply bind_wp. eapply tick_acc; [apply (stable_lone pid j)|done|eauto|]. intros _ w' [[H1 H2] H3]. apply wp_change, HQ. split; [|done].
  split; cbn; [|done]. intros p y [Hne Hy]%lookup_delete_Some. by destruct (H1 _ _ Hy) as [-> _].
Qed.

(** The journal stays noted, or the world is calm. *)
Lemma settle_arm j id f w b (Q : unit → world → Prop) : quiet j w → (b = true → calm w) →
  (b = false → ∀ a, journal_of a = Some j → a_cleanup_verified a = false → journal_of (f a) = Some j ∧ a_cleanup_verified (f a) = false) →
  (∀ w', (rooted w' ∧ calm w') ∨ (b = false ∧ quiet j w') → Q tt w') → wp (alter_arm id f) Q acc acc w.
Proof.
  intros [Hw (Hr & Hd & Hm)] Hc Hf HQ. apply wp_alter, HQ. destruct b; [left; split; [done|]; by apply (Hc eq_refl)|]. right. split; [done|]. split; [done|].
  split_and!; [done|done|]. by apply quiet_alter; [apply Hf|].
Qed.

Lemma watch_ok c a j w : quiet j w → wp (watch_arm c a j) (λ _, quiet j) acc acc w.
Proof.
  intros Hw. apply bind_wp. eapply tick_acc; [apply (stable_quiet j)|done|eauto|]. clear w Hw. intros _ w [[H1 H2] H3]. apply bind_wp, wp_look. cbv zeta.
  set (pid := next_pid w). apply bind_wp, wp_change.
  assert (lone pid j (spawn j (self_pid c) w)) as Hl.
  { split; [|done]. split; cbn; [|done]. intros p x [[<- <-]|[_ Hx]]%lookup_insert_Some; [done|]. by apply H1 in Hx. }
  clearbody pid. set (w1 := spawn j (self_pid c) w) in *. clearbody w1. clear w H1 H2 H3.
  apply bind_wp. eapply tick_acc; [apply (stable_lone pid j)|done|eauto|]. clear w1 Hl. intros _ w [Hw (Hr & Hd & Hm)]. apply bind_wp, wp_alter.
  assert (lone pid j (set_memory (Some (with_arms (<[arm_id a := with_worker pid (default pending_arm (arms (the_state w) !! arm_id a))]> (arms (the_state w))) (the_state w))) w)) as Hl.
  { split; [done|]. split_and!; [done|done|]. apply quiet_alter; [|done]. by intros []. }
  apply bind_wp. eapply write_lone; [exact Hl|]. clear w Hw Hr Hd Hm Hl. intros w Hw. apply bind_wp, wp_catch.
  eapply mono_wp; [exact (poll_loop_ok pid j (turns w) w Hw)| |intros w' Hw' e|by eauto].
  - intros b w' Hw'. apply bind_wp. eapply tick_acc; [apply (stable_quiet j)|done|eauto|]. intros x w'' Hq. by apply ret_wp.
  - apply bind_wp. eapply terminate_lone; [done|]. clear w Hw w' Hw'. intros w Hw. apply bind_wp. eapply write_quiet; [done|]. clear w Hw. intros w Hw.
    apply bind_wp. assert (∀ (Q : bool → world → Prop) b w', quiet j w' → (b = true → calm w') → wp (alter_arm (arm_id a) (λ s, with_status (Ended (match e with KeyboardInterrupt => CANCELLED | _ => FAILED end)) (with_verified b s)) ≫= λ _,
      _write_state ≫= λ _, throw e) Q acc acc w') as Hb.
    { clear. intros Q b w Hw Hb. apply bind_wp. eapply settle_arm; [done|exact Hb|by intros -> []|]. intros w' [Hc|[_ Hq]]; apply bind_wp.
      - eapply write_calm; [done|]. intros w'' H. apply wp_throw; auto.
      - eapply write_quiet; [done|]. intros w'' H. apply wp_throw; eauto. }
    eapply cleanup_quiet; [done|by intros w' Hq; apply (Hb _ false)|by intros w' Hq Hc; apply (Hb _ true)].
Qed.

(** After the cleanup: clean, or not verified. *)
Definition parted (b : bool) (j : journal) (w : world) : Prop := (rooted w ∧ calm w) ∨ (b = false ∧ quiet j w).
Lemma stable_parted b j : stable (parted b j).
Proof.
  split; intros w x [H|[-> H]]; [left; by apply stable_rooted_calm|right; split; [done|by apply stable_quiet]|by left|by right].
Qed.
Lemma parted_acc b j w : parted b j w → acc w.
Proof. intros [|[_ ?]]; eauto. Qed.
#[local] Hint Resolve parted_acc : core.
Definition same_stage (w w' : world) : Prop :=
  memory w' = memory w ∧ disk w' = disk w ∧ root_exists w' = root_exists w ∧ workers w' = workers w ∧ owned w' = owned w.
Lemma parted_same b j w w' : same_stage w w' → parted b j w → parted b j w'.
Proof.
  intros (H1 & H2 & H3 & H4 & H5) [[Hr [Hc Hc']]|[Hb [[Hw Hw'] (Hr & Hd & Hm)]]]; [left|right].
  - unfold rooted. rewrite H3. split; [done|]. split; by rewrite ?H4, ?H5.
  - split; [done|]. unfold quiet, noting, rooted. rewrite H1, H2, H3. split; [|done]. split; by rewrite ?H4, ?H5.
Qed.
Lemma tick_parted b j w Q : parted b j w → (∀ x w', parted b j w' → Q x w') → wp tick Q acc acc w.
Proof. intros H HQ. eapply tick_acc; [apply (stable_parted b j)|done|eauto|done]. Qed.
Lemma write_parted b j w (Q : unit → world → Prop) : parted b j w → (∀ w', parted b j w' → Q tt w') → wp _write_state Q acc acc w.
Proof. intros [H|[-> H]] HQ; [eapply write_calm|eapply write_quiet]; [done| |done|]; intros w' H'; apply HQ; [by left|by right]. Qed.
Lemma store_parted b j r w (Q : unit → world → Prop) : parted b j w → (∀ w', parted b j w' → Q tt w') → wp (_store_result r) Q acc acc w.
Proof.
  intros Hw HQ. apply bind_wp, wp_look, bind_wp.
  assert (∀ w', parted b j w' → wp (tick ≫= λ _, change (set_result (arm_id (arm r)) r) ≫= λ _, tick ≫= λ _,
    change (λ w, set_markers (if is_trial_outcome r then <[arm_id (arm r) := spec_digest (arm r)]> (markers w) else delete (arm_id (arm r)) (markers w)) w)) Q acc acc w') as H.
  { intros w' H. apply bind_wp. eapply tick_parted; [done|]. intros _ w1 H1. apply bind_wp, wp_change, bind_wp. eapply tick_parted; [by eapply parted_same, H1|].
    intros _ w2 H2. apply wp_change, HQ. by eapply parted_same, H2. }
  destruct (results w !! arm_id (arm r)) as [p|]; [|by apply ret_wp, H]. case_bool_decide; [by apply ret_wp, H|].
  apply bind_wp. eapply tick_parted; [done|]. intros _ w1 H1. apply wp_change, H. by eapply parted_same, H1.
Qed.
Lemma trial_verified c a t rc x b : is_trial_outcome (arm_result c a t rc x b) = true → b = true.
Proof. by destruct b. Qed.

Lemma run_arm_ok c a w : rooted w ∧ calm w →
  wp (_run_arm c a) (λ r w', acc w' ∧ (is_trial_outcome r = true → rooted w' ∧ calm w')) acc acc w.
Proof.
  intros Hw. apply bind_wp. eapply mono_wp; [by apply begin_ok| |done..]. clear w Hw. intros j w Hw.
  apply bind_wp. eapply mono_wp; [by apply watch_ok| |done..]. clear w Hw. intros [rc t] w Hw.
  apply bind_wp. eapply write_quiet; [done|]. clear w Hw. intros w Hw. apply bind_wp.
  assert (∀ b w, quiet j w → (b = true → calm w) → wp (alter_arm (arm_id a) (with_verified b) ≫= λ _, tick ≫= λ x,
    let r := arm_result c a t rc (accepted_child a (child x)) b in _store_result r ≫= λ _, tick ≫= λ _,
    alter_arm (arm_id a) (with_status (Ended (status r))) ≫= λ _, _write_state ≫= λ _, mret r)
    (λ r w', acc w' ∧ (is_trial_outcome r = true → rooted w' ∧ calm w')) acc acc w) as H.
  { clear. intros b w Hw Hb. apply bind_wp. eapply settle_arm; [done|exact Hb|by intros -> []|]. clear w Hw Hb. intros w Hw. change (parted b j w) in Hw.
    apply bind_wp. eapply tick_parted; [done|]. clear w Hw. intros x w Hw. cbv zeta. apply bind_wp. eapply store_parted; [done|]. clear w Hw. intros w Hw.
    apply bind_wp. eapply tick_parted; [done|]. clear w Hw. intros _ w Hw. apply bind_wp, wp_alter.
    set (r := arm_result c a t rc (accepted_child a (child x)) b). set (w1 := set_memory _ w). assert (parted b j w1) as H1.
    { destruct Hw as [Hc|[-> [Hq (Hr & Hd & Hm)]]]; [by left|right]. split; [done|]. split; [done|]. split_and!; [done|done|].
      apply quiet_alter; [|done]. by intros []. }
    clearbody w1. apply bind_wp. eapply write_parted; [done|]. intros w2 H2. apply ret_wp. split; [eauto|]. intros Ht%trial_verified. subst b.
    by destruct H2 as [|[]]. }
  eapply cleanup_quiet; [done|by intros w' Hq; apply H|by intros w' Hq Hc; apply H].
Qed.

(** The loop over the arms, and the end of a run. *)
Lemma set_state_acc f w (Q : unit → world → Prop) X C : rooted w ∧ calm w → (∀ w', rooted w' ∧ calm w' → Q tt w') → wp (set_state f) Q X C w.
Proof. intros Hw HQ. by apply wp_change, HQ. Qed.
Lemma tick_calm w Q : rooted w ∧ calm w → (∀ x w', rooted w' ∧ calm w' → Q x w') → wp tick Q acc acc w.
Proof. intros H HQ. eapply tick_acc; [exact stable_rooted_calm|done|eauto|done]. Qed.
Lemma tick_any w Q : acc w → (∀ x w', acc w' → Q x w') → wp tick Q acc acc w.
Proof. intros H HQ. by eapply tick_acc; [exact stable_acc|..]. Qed.
Lemma run_arms_ok c l : ∀ done w, rooted w ∧ calm w → wp (run_arms c l done) (λ _, acc) acc acc w.
Proof.
  induction l as [|a l IH]; intros done w Hw; [by apply ret_wp; auto|]. apply bind_wp, wp_look.
  destruct (_completed_result c a w) as [p|].
  - apply bind_wp, set_state_acc; [done|]. intros w' Hw'. by apply IH.
  - apply bind_wp. eapply mono_wp; [by apply run_arm_ok| |by auto..]. intros r w' [Ha Ht].
    destruct (is_trial_outcome r) eqn:E.
    + apply bind_wp, bind_wp. eapply tick_calm; [auto|]. intros _ w'' Hc. apply wp_change. by apply IH.
    + apply bind_wp, bind_wp. eapply tick_any; [done|]. intros _ w'' Hc. apply wp_change, ret_wp. exact Hc.
Qed.

(** *** Recovery *)

(** The file says [s] and accounts for what there is. *)
Definition holds (s : state) (w : world) : Prop :=
  within (λ _ x, noted (arms s) x.1) (noted (arms s)) w ∧ disk w = Some s ∧ rooted w.
(** What is left are the workers of the arms [l] and the VMs of [l] and [F]. *)
Definition left (l F : list (string * arm_state)) (w : world) : Prop :=
  within (λ pid x, ∃ id a, (id, a) ∈ l ∧ journal_of a = Some x.1 ∧ a_cleanup_verified a = false ∧ worker a = Some pid) (λ j, noted l j ∨ noted F j) w.
Lemma stable_holds s : stable (holds s).
Proof. apply stable_and; [by apply stable_within|]. apply (stable_fields (λ x, x.1.1.1.1.2 = Some s ∧ x.1.1.1.2 = true)). Qed.
Lemma stable_left l F : stable (left l F).
Proof. apply stable_within. intros pid x (id & a & H1 & H2 & H3 & _). left. by exists id, a. Qed.
Lemma noted_app l1 l2 j : noted (l1 ++ l2) j ↔ noted l1 j ∨ noted l2 j.
Proof. unfold noted. setoid_rewrite elem_of_app. naive_solver. Qed.
Lemma noted_cons id a l j : noted ((id, a) :: l) j ↔ (journal_of a = Some j ∧ a_cleanup_verified a = false) ∨ noted l j.
Proof. unfold noted. setoid_rewrite elem_of_cons. naive_solver. Qed.
Lemma noted_nil j : ¬ noted [] j.
Proof. by intros (id & a & H%elem_of_nil & _). Qed.

(** The worker of the arm [a] is gone, those of [l] may be left. *)
Definition gone (s : state) (a : arm_state) (l F : list (string * arm_state)) (w : world) : Prop :=
  holds s w ∧
  within (λ pid x, ∃ id a, (id, a) ∈ l ∧ journal_of a = Some x.1 ∧ a_cleanup_verified a = false ∧ worker a = Some pid)
    (λ j, (journal_of a = Some j ∧ a_cleanup_verified a = false) ∨ noted l j ∨ noted F j) w.
Lemma left_killed s id a l F w : (∀ pid, worker a = Some pid → workers w !! pid = None) → holds s w → left ((id, a) :: l) F w → gone s a l F w.
Proof.
  intros Ha Hs [H1 H2]. split; [done|]. split.
  - intros pid x Hx. destruct (H1 _ _ Hx) as (k & b & [[= -> ->]|Hb]%elem_of_cons & H); [|by exists k, b]. destruct H as (_ & _ & Hw). by rewrite (Ha _ Hw) in Hx.
  - intros j Hj. specialize (H2 j Hj). rewrite noted_cons in H2. tauto.
Qed.
Lemma stable_gone s a l F : stable (gone s a l F).
Proof.
  apply stable_and; [apply stable_holds|]. apply stable_within. intros pid x (k & b & H1 & H2 & H3 & _). right. left. by exists k, b.
Qed.
Lemma shrinks_gone s a l F : shrinks (gone s a l F).
Proof. intros w X [[H1 H2] H3]. split; [split; [by apply shrinks_within|done]|by apply shrinks_within]. Qed.
Lemma kill_worker_ok s id a l F w : holds s w → left ((id, a) :: l) F w →
  wp (match worker a with Some pid => if process_is_alive pid w then terminate_process_tree pid else mret tt | None => mret tt end)
    (λ _, gone s a l F) (holds s) (holds s) w.
Proof.
  intros Hs Hl. unfold process_is_alive. destruct (worker a) as [pid|] eqn:Ew; [case_bool_decide as Hp|].
  - apply bind_wp. eapply (wp_tick (λ w, holds s w ∧ left ((id, a) :: l) F w)); [|by split| |by intros w' []].
    { apply stable_and; [apply stable_holds|apply stable_left]. }
    clear w Hs Hl Hp. intros _ w [[[H1 H2] H3] [H4 H5]]. apply wp_change, (left_killed s id).
    + rewrite Ew. intros p [= <-]. apply lookup_delete_eq.
    + split; [|done]. split; cbn; [|done]. intros p x [_ Hx]%lookup_delete_Some. eauto.
    + split; cbn; [|done]. intros p x [_ Hx]%lookup_delete_Some. eauto.
  - apply ret_wp. apply (left_killed s id); [|done..]. rewrite Ew. intros p [= <-]. by apply eq_None_not_Some.
  - apply ret_wp. apply (left_killed s id); [by rewrite Ew|done..].
Qed.
(** What the arm [a] becomes. *)
Lemma gone_left s id a a' l F w : gone s a l F w → journal_of a' = journal_of a →
  (a_cleanup_verified a' = false ∨ ∀ j, j ∈ owned w → ¬ (journal_of a = Some j ∧ a_cleanup_verified a = false)) → left l (F ++ [(id, a')]) w.
Proof.
  intros [_ [H2 H3]] Hj Hb. split; [done|]. intros j H. rewrite noted_app, noted_cons, Hj.
  destruct (H3 j H) as [[Hj1 Hj2]|[?|?]]; [|by left|by right; left]. destruct Hb as [->|Hb]; [|by destruct (Hb j H)]. auto.
Qed.
Lemma recover_arm_ok s id a l F w : holds s w → left ((id, a) :: l) F w →
  wp (recover_arm a) (λ x w', holds s w' ∧ left l (F ++ [(id, x.1)]) w' ∧ (x.2 = false → ∀ j, ¬ noted [(id, x.1)] j)) (holds s) (holds s) w.
Proof.
  intros Hs Hl. apply bind_wp, wp_look, bind_wp. eapply mono_wp; [exact (kill_worker_ok s id a l F w Hs Hl)| |done..]. clear w Hs Hl. intros x w Hw. cbn beta in *. clear x.
  destruct (a_cleanup_verified a) eqn:Ev.
  { apply ret_wp. split; [by apply Hw|]. split; [|].
    - eapply gone_left; [done|done|]. right. intros j _ [_ ?]. congruence.
    - intros _ j. cbn. rewrite noted_cons, Ev. by intros [[_ ?]|?%noted_nil]. }
  destruct (journal_of a) as [j|] eqn:Ej.
  2: { replace (match task_uid a, artifact_root a with Some u, Some r => _ | _, _ => _ end) with (mret (a, false) : P (arm_state * bool))
         by (unfold journal_of in Ej; by destruct (artifact_root a), (task_uid a)).
       apply ret_wp. split; [by apply Hw|]. split; [eapply gone_left; [done|done|]; right; intros j _ [? _]; congruence|].
       intros _ j. cbn. rewrite noted_cons, Ej. by intros [[? _]|?%noted_nil]. }
  unfold journal_of in Ej. destruct (artifact_root a) as [r|] eqn:Er, (task_uid a) as [u|] eqn:Eu; try done. injection Ej as <-.
  apply bind_wp. eapply wp_catch_exception, mono_wp; [by apply (cleanup_ok (gone s a l F)); [apply stable_gone|apply shrinks_gone|]| |intros w' Hw'|by intros w' []].
  - intros b w' [Hw' Hn]. apply ret_wp. cbn [fst snd]. split; [by apply Hw'|]. split.
    + eapply gone_left; [done|by destruct b, a as [[] ? ? ? ? ?]|]. destruct b; [right|by left]. unfold journal_of. rewrite Er, Eu. intros j Hj [[= <-] _]. by apply (Hn eq_refl).
    + intros ->%negb_false_iff j. rewrite noted_cons. intros [[_ H]|H]; [|by apply noted_nil in H]. cbn in H. by destruct (a_status a).
  - split; [by apply Hw'|]. intros _. apply ret_wp, ret_wp. cbn [fst snd]. split; [by apply Hw'|]. split; [|done]. by eapply gone_left; [done|by destruct a|left].
Qed.
Lemma recover_arms_ok s l : ∀ F w, holds s w → left l F w →
  wp (recover_arms l) (λ x w', holds s w' ∧ left [] (F ++ x.1) w' ∧ (x.2 = false → ∀ j, ¬ noted x.1 j)) (holds s) (holds s) w.
Proof.
  induction l as [|[id a] l IH]; intros F w Hs Hl; cbn [recover_arms].
  { apply ret_wp. cbn. rewrite app_nil_r. split_and!; [done|done|]. intros _. apply noted_nil. }
  apply bind_wp. eapply mono_wp; [exact (recover_arm_ok s id a l F w Hs Hl)| |done..]. clear w Hs Hl. intros [a' f] w (Hs & Hl & Hf). cbn [fst snd] in *.
  apply bind_wp. eapply mono_wp; [exact (IH _ w Hs Hl)| |done..]. clear w Hs Hl. intros [l' f'] w (Hs & Hl & Hf'). cbn [fst snd] in *.
  apply ret_wp. cbn [fst snd]. rewrite <- app_assoc in Hl. split_and!; [done|done|]. intros [H1 H2]%orb_false_iff j. rewrite noted_cons. intros [H|H].
  - apply (Hf H1 j). rewrite noted_cons. by left.
  - by apply (Hf' H2 j).
Qed.
Lemma left_nil F w : left [] F w → within (λ _ _, False) (noted F) w.
Proof. apply within_impl; [by intros pid x (id & a & H%elem_of_nil & _)|]. intros j [[]%noted_nil|H]; done. Qed.

(** The worlds between commands. *)
Definition orderly (w : world) : Prop := accounted w ∧ (root_exists w = false → calm w ∧ disk w = None).
Lemma acc_orderly w : acc w → orderly w.
Proof. intros H. split; [by apply acc_accounted|]. destruct H as [Hr _]. unfold rooted in Hr. congruence. Qed.
Lemma holds_orderly s w : holds s w → orderly w.
Proof.
  intros (Hw & Hd & Hr). split; [|unfold rooted in Hr; congruence]. unfold accounted. rewrite Hd.
  eapply within_impl, Hw; intros; by exists s.
Qed.
Lemma orderly_holds s w : orderly w → disk w = Some s → holds s w.
Proof.
  intros [Hw Hr] Hd. split; [|split; [done|]].
  - unfold accounted in Hw. rewrite Hd in Hw. eapply within_impl, Hw; [intros ? x H|intros j H]; exact (notes_state s _ _ H eq_refl).
  - unfold rooted. destruct (root_exists w) eqn:E; [done|]. destruct (Hr eq_refl). congruence.
Qed.
Lemma calm_holds s w : rooted w ∧ calm w → disk w = Some s → holds s w.
Proof. intros [Hr Hc] Hd. split; [|done]. by eapply within_impl, Hc. Qed.
Lemma calm_orderly w : rooted w ∧ calm w → orderly w.
Proof. auto using acc_orderly. Qed.
#[local] Hint Resolve acc_orderly holds_orderly calm_orderly : core.

Lemma recover_ok s w : holds s w → known w → wp (_recover_for_resume s) (λ _ w', rooted w' ∧ calm w') orderly orderly w.
Proof.
  intros Hs Hk. apply bind_wp. assert (left (arms s) [] w) as Hl.
  { destruct Hs as ([H1 H2] & Hd & Hr). split; [|by auto]. intros pid x Hx. destruct (Hk _ _ Hx) as (s' & id & a & Hs' & H). rewrite Hd in Hs'. injection Hs' as <-. by exists id, a. }
  eapply mono_wp; [exact (recover_arms_ok s _ [] w Hs Hl)| |eauto..]. clear w Hs Hk Hl. intros [l f] w (Hs & Hl%left_nil & Hf). cbn [fst snd] in *. cbv zeta.
  apply bind_wp. eapply (wp_tick (λ w, holds s w ∧ within (λ _ _, False) (noted l) w)); [|done| |by intros w' []; eauto].
  { apply stable_and; [apply stable_holds|by apply stable_within]. }
  clear w Hs Hl. intros _ w [(Hw & Hd & Hr) Hl]. apply bind_wp, wp_change. destruct f.
  - apply wp_throw, (holds_orderly (with_arms l s)). split; [|done]. by eapply within_impl, Hl.
  - apply ret_wp. split; [done|]. eapply within_impl, Hl; [done|]. exact (Hf eq_refl).
Qed.

Lemma initialize_ok c l w : orderly w → (resume c = true → known w) → wp (_initialize c l) (λ _ w', rooted w' ∧ calm w') orderly orderly w.
Proof.
  intros Hw Hk. assert (∀ w, rooted w ∧ calm w → ∀ f, wp (set_state f ≫= λ _, _write_state) (λ _ w', rooted w' ∧ calm w') orderly orderly w) as Hend.
  { clear. intros w Hw f. apply bind_wp, set_state_acc; [done|]. clear w Hw. intros w Hw. eapply mono_wp; [apply (write_calm w (λ _ w', rooted w' ∧ calm w')); [done|by intros]|done|eauto..]. }
  apply bind_wp. destruct (resume c); [specialize (Hk eq_refl)|].
  - apply bind_wp, bind_wp, wp_look. destruct (disk w) as [s|] eqn:Hd; [|by apply wp_throw]. pose proof (orderly_holds s w Hw Hd) as Hs.
    apply ret_wp, bind_wp, wp_look. destruct (run_is_active s w); [by apply wp_throw|]. destruct (negb _); [by apply wp_throw|].
    apply bind_wp. eapply mono_wp; [by apply recover_ok| |done..]. clear w Hw Hk Hd Hs s. intros s w Hw. apply bind_wp.
    assert (∀ w, rooted w ∧ calm w → ∀ m, wp (change (set_memory m)) (λ _, wp (set_state (λ s, foldl setdefault_arm s l) ≫= λ _, _write_state) (λ _ w', rooted w' ∧ calm w') orderly orderly) orderly orderly w) as H.
    { clear w Hw. intros w Hw m. by apply wp_change, Hend. }
    case_bool_decide; [by apply ret_wp, H|]. apply bind_wp. eapply (wp_tick (λ w, rooted w ∧ calm w)); [apply stable_rooted_calm|done| |by split; apply calm_orderly].
    clear w Hw. intros _ w Hw. by apply ret_wp, H.
  - apply bind_wp, wp_look. destruct (root_exists w) eqn:Hr; [by apply wp_throw|]. destruct (proj2 Hw Hr) as [Hc Hd].
    apply bind_wp. eapply (wp_tick (λ w, calm w ∧ disk w = None)); [|done| |].
    { apply stable_and; [apply stable_calm|]. apply (stable_fields (λ x, x.1.1.1.1.2 = None)). }
    2: { intros w' [H1 H2]. assert (orderly w'); [|done]. split; [|done]. by eapply within_impl, H1. }
    clear w Hw Hk Hr Hc Hd. intros _ w [Hc _]. apply bind_wp, wp_change. assert (rooted (make_root w) ∧ calm (make_root w)) as Hw by done. clear Hc. revert Hw. generalize (make_root w). clear w. intros w Hw.
    assert (∀ w Q, rooted w ∧ calm w → (∀ x w', rooted w' ∧ calm w' → Q x w') → wp tick Q orderly orderly w) as Ht.
    { clear. intros w Q Hw HQ. eapply mono_wp; [by eapply tick_calm|done|eauto..]. }
    apply bind_wp, Ht; [done|]. clear w Hw. intros _ w Hw. apply bind_wp. destruct (has_receipt c).
    + apply bind_wp, Ht; [done|]. clear w Hw. intros _ w Hw. by apply ret_wp, wp_change, Hend.
    + by apply ret_wp, wp_change, Hend.
Qed.

Lemma notes_step f w (Q : unit → world → Prop) X C : (∀ s j, noted (arms s) j → noted (arms (f s)) j) → acc w → (∀ w', acc w' → Q tt w') → wp (set_state f) Q X C w.
Proof.
  intros Hf [Hr H] HQ. apply wp_change, HQ. split; [done|]. destruct H as [H|(j & Hw & Hd & Hm)]; [by left|right]. exists j. split; [done|]. split; [done|].
  destruct Hm as (s & Hs & Hn). cbn. rewrite (the_state_memory w s Hs). eexists. split; [done|]. by apply Hf.
Qed.
Lemma mark_noted l s j : noted (arms s) j → noted (arms (foldl mark_not_run s l)) j.
Proof.
  revert s. induction l as [|a l IH]; intros s H; cbn; [done|]. apply IH. unfold mark_not_run. destruct (arms s !! arm_id a) as [x|] eqn:E; [|done].
  destruct (a_status x); [|done..]. cbn. pose proof (noted_alter (arms s) (arm_id a) (with_status Not_run) j) as Hn. rewrite E in Hn. apply Hn; [|done]. by intros [].
Qed.
Lemma write_any w (Q : unit → world → Prop) : acc w → (∀ w', acc w' → Q tt w') → wp _write_state Q acc acc w.
Proof.
  intros Hw HQ. apply bind_wp, tick_any; [done|]. clear w Hw. intros _ w [Hr H]. apply wp_change, HQ. split; [done|].
  destruct H as [H|(j & Hw & Hd & Hm)]; [by left|right]. by exists j.
Qed.
Lemma run_stays c l w : orderly w → (resume c = true → known w) → wp (run c l) (λ _, acc) orderly orderly w.
Proof.
  intros Hw Hk. apply bind_wp. eapply mono_wp; [by apply initialize_ok| |done..]. clear w Hw Hk. intros ? w Hw. cbn beta in Hw. apply (mono_wp _ (λ _, acc) _ acc _ acc); [|done|exact acc_orderly|exact acc_orderly].
  apply bind_wp, wp_catch. eapply mono_wp; [by apply run_arms_ok| | |done].
  - clear w Hw. intros rs w Hw. apply bind_wp, notes_step; [intros s j; apply mark_noted|done|]. clear w Hw. intros w Hw.
    apply bind_wp, bind_wp, tick_any; [done|]. clear w Hw. intros _ w Hw. apply wp_change, bind_wp, write_any; [exact Hw|]. clear w Hw. intros w Hw. by apply ret_wp.
  - clear w Hw. intros w Hw e. apply bind_wp, notes_step; [done|done|]. clear w Hw. intros w Hw. apply bind_wp, write_any; [done|]. clear w Hw. intros w Hw. by apply wp_throw.
Qed.

(** *** Commands from outside *)

Definition idle : world → Prop := within (λ _ _, False) (λ _, True).
Lemma stable_idle : stable idle.
Proof. by apply stable_within. Qed.
Lemma cleanup_arms_ok s l : ∀ F w, holds s w → idle w → left l F w →
  wp (cleanup_arms l) (λ x w', holds s w' ∧ idle w' ∧ left [] (F ++ x.1) w' ∧ (x.2 = false → ∀ j, ¬ noted x.1 j)) (holds s) (holds s) w.
Proof.
  induction l as [|[id a] l IH]; intros F w Hs Hi Hl; cbn [cleanup_arms].
  { apply ret_wp. cbn. rewrite app_nil_r. split_and!; [done..|]. intros _. apply noted_nil. }
  assert (gone s a l F w) as Hg.
  { apply (left_killed s id); [|done|done]. intros pid _. destruct (workers w !! pid) eqn:E; [|done]. by destruct (proj1 Hi _ _ E). }
  assert (∀ a' f w, (f = false → ∀ j, ¬ noted [(id, a')] j) → holds s w → idle w → left l (F ++ [(id, a')]) w →
    wp (cleanup_arms l ≫= λ y, mret ((id, a') :: y.1, f || y.2)) (λ x w', holds s w' ∧ idle w' ∧ left [] (F ++ x.1) w' ∧ (x.2 = false → ∀ j, ¬ noted x.1 j)) (holds s) (holds s) w) as Hnext.
  { clear w Hs Hi Hl Hg. intros a' f w Hf Hs Hi Hl. apply bind_wp. eapply mono_wp; [exact (IH _ w Hs Hi Hl)| |done..]. clear w Hs Hi Hl.
    intros [l' f'] w (Hs & Hi & Hl & Hf'). apply ret_wp. cbn [fst snd] in *. rewrite <- app_assoc in Hl. split_and!; [done..|].
    intros [H1 H2]%orb_false_iff j. rewrite noted_cons. intros [H|H]; [|by apply (Hf' H2 j)]. apply (Hf H1 j). rewrite noted_cons. by left. }
  destruct (journal_of a) as [j|] eqn:Ej.
  2: { replace (match task_uid a, artifact_root a with Some u, Some r => _ | _, _ => _ end) with (cleanup_arms l ≫= λ y, mret ((id, a) :: y.1, y.2))
         by (unfold journal_of in Ej; by destruct (artifact_root a), (task_uid a)).
       apply (Hnext a false); [|done|done|].
       - intros _ j. rewrite noted_cons, Ej. by intros [[? _]|?%noted_nil].
       - eapply gone_left; [done|done|]. right. intros j _ [? _]. congruence. }
  unfold journal_of in Ej. destruct (artifact_root a) as [r|] eqn:Er, (task_uid a) as [u|] eqn:Eu; try done. injection Ej as <-.
  apply bind_wp. eapply wp_catch_exception, mono_wp; [apply (cleanup_ok (λ w, gone s a l F w ∧ idle w)); [apply stable_and; [apply stable_gone|exact stable_idle]| |done]| |intros w' [Hw' Hi']|by intros w' [[]]].
  - intros w' X [H1 H2]. split; [by apply shrinks_gone|by apply shrinks_within].
  - intros b w' [[Hw' Hi'] Hn]. apply Hnext.
    + intros ->%negb_false_iff j. rewrite noted_cons. by intros [[_ ?]|?%noted_nil].
    + by apply Hw'.
    + done.
    + eapply gone_left; [done|by destruct a|]. destruct b; [right|by left]. unfold journal_of. rewrite Er, Eu. intros j Hj [[= <-] _]. by apply (Hn eq_refl).
  - split; [by apply Hw'|]. intros _. apply ret_wp, Hnext; [done|by apply Hw'|done|]. by eapply gone_left; [done|by destruct a|left].
Qed.
Lemma left_all s w : holds s w → idle w → left (arms s) [] w.
Proof.
  intros [[H1 H2] _] [H3 _]. split; [|by auto]. intros pid x Hx. by destruct (H3 _ _ Hx).
Qed.
Lemma cleanup_run_ok w : orderly w → idle w → wp cleanup_run (λ _ w', rooted w' ∧ calm w') orderly orderly w.
Proof.
  intros Hw Hi. apply bind_wp, bind_wp, wp_look. destruct (disk w) as [s|] eqn:Hd; [|by apply wp_throw]. pose proof (orderly_holds s w Hw Hd) as Hs.
  apply ret_wp, bind_wp. eapply mono_wp; [by apply (cleanup_arms_ok s _ []), left_all| |by eauto..]. clear w Hw Hi Hd Hs. intros [l f] w (Hs & Hi & Hl%left_nil & Hf). cbn [fst snd] in *.
  set (I := λ w, holds s w ∧ within (λ _ _, False) (noted l) w). assert (stable I) as HI by (apply stable_and; [apply stable_holds|by apply stable_within]).
  assert (∀ w' : world, I w' → orderly w') as Ho by (intros w' []; eauto).
  assert (∀ b w, I w → wp (let failures := f || b in tick ≫= λ _, change (set_disk (Some (with_state (if failures then Run_failed else Destroyed) (with_arms l s)))) ≫= λ _,
    if failures then throw (RuntimeError "run cleanup incomplete") else mret tt) (λ _ w', rooted w' ∧ calm w') orderly orderly w) as Hend.
  { clear w Hs Hi Hl. intros b w Hw. cbv zeta. apply bind_wp. eapply (wp_tick I); [done|done| |by eauto]. clear w Hw. intros _ w [(Hw & Hd & Hr) Hl]. apply bind_wp, wp_change.
    destruct (f || b) eqn:E.
    - apply wp_throw. eapply holds_orderly. split; [|by split]. by eapply within_impl, Hl.
    - apply ret_wp. split; [done|]. apply orb_false_iff in E as [E _]. eapply within_impl, Hl; [done|]. exact (Hf E). }
  apply bind_wp, wp_catch_exception, bind_wp. eapply (wp_tick I); [done|by split| |].
  - clear w Hs Hi Hl. intros _ w Hw. by apply ret_wp, Hend.
  - clear w Hs Hi Hl. intros w Hw. split; [|by eauto]. split; [by eauto|]. intros _. by apply ret_wp, Hend.
Qed.
(** The workers are children of a supervisor that lives. *)
Definition attended (w : world) : Prop := ∀ s pid x, disk w = Some s → workers w !! pid = Some x → x.2 = supervisor s ∧ supervisor s ∈ supervisors w.
Lemma abort_ok w : orderly w → attended w → wp abort_run (λ _, orderly) orderly orderly w.
Proof.
  intros Hw Ha. apply bind_wp, bind_wp, wp_look. destruct (disk w) as [s|] eqn:Hd; [|by apply wp_throw]. pose proof (orderly_holds s w Hw Hd) as Hs.
  apply ret_wp, bind_wp, wp_look, bind_wp. eapply (mono_wp _ (λ _ w', orderly w' ∧ idle w') _ orderly _ orderly); [|clear w Hw Ha Hd Hs s|done..].
  - case_bool_decide as Hl.
    + apply bind_wp. eapply (wp_tick (λ w, holds s w ∧ within (λ _ x, x.2 = supervisor s) (λ _, True) w)); [|split; [done|]| |by intros w' []; eauto].
      * apply stable_and; [apply stable_holds|by apply stable_within].
      * split; [|done]. intros pid x Hx. by apply (Ha s pid x).
      * clear w Hw Ha Hd Hs Hl. intros _ w [[[H1 H2] H3] [H4 _]]. apply wp_change. split.
        -- eapply holds_orderly. split; [|exact H3]. split; cbn; [|done]. intros pid x [Hx _]%map_lookup_filter_Some. eauto.
        -- split; cbn; [|done]. intros pid x [Hx Hne]%map_lookup_filter_Some. apply Hne. by apply (H4 pid).
    + apply ret_wp. split; [done|]. split; [|done]. intros pid x Hx. by destruct (Ha s pid x Hd Hx).
  - intros [] w [Hw Hi]. apply bind_wp. eapply mono_wp; [by apply cleanup_run_ok| |done..]. clear w Hw Hi. intros ? w Hw. cbn beta in Hw. apply bind_wp, bind_wp, wp_look.
    destruct (disk w) as [s|]; [|by apply wp_throw; eauto]. apply ret_wp, bind_wp. eapply (wp_tick (λ w, rooted w ∧ calm w)); [apply stable_rooted_calm|done| |by split; eauto].
    clear w Hw. intros _ w Hw. by apply wp_change, calm_orderly.
Qed.

(** What a command relies on: a resumed run knows the workers that are left, an abort
    finds a living supervisor or no worker, and a run is destroyed once no worker is
    left. *)
Definition steady (w : world) (i : invocation) : Prop :=
  match i with
  | Supervise c _ _ _ => resume c = true → known w
  | Abort _ => attended w
  | Destroy _ => workers w = ∅
  end.
Lemma invoke_orderly w i : orderly w → steady w i → orderly (invoke w i).
Proof.
  intros Hw Hi. destruct i as [c l ts survives|ts|ts]; cbn in *.
  - set (w0 := set_memory _ _). assert (wp (run c l) (λ _, acc) orderly orderly w0) as H by (apply run_stays; [exact Hw|exact Hi]).
    unfold wp in H. destruct (run c l w0) as [[rs|e|] w'].
    1: apply acc_orderly in H. 1-2: exact H. by destruct survives.
  - pose proof (abort_ok (set_turns ts w) Hw Hi) as H. unfold wp in H. by destruct (abort_run _) as [[] w'].
  - assert (wp cleanup_run (λ _ w', rooted w' ∧ calm w') orderly orderly (set_turns ts w)) as H.
    { apply cleanup_run_ok; [exact Hw|]. split; [|done]. cbn. rewrite Hi. by intros pid x ?%lookup_empty_Some. }
    unfold wp in H. destruct (cleanup_run _) as [[] w']; [by apply calm_orderly|done..].
Qed.
Fixpoint steadily (w : world) (l : list invocation) : Prop :=
  match l with
  | [] => True
  | i :: l' => steady w i ∧ steadily (invoke w i) l'
  end.
Lemma history_from l : ∀ w, orderly w → steadily w l → orderly (foldl invoke w l).
Proof. induction l as [|i l IH]; intros w Hw Hl; cbn; [done|]. destruct Hl. apply IH; [by apply invoke_orderly|done]. Qed.
Lemma init_orderly : orderly world_init.
Proof. split; [|split; [|done]]; split; cbn; (by intros ? ? ?%lookup_empty_Some) || set_solver. Qed.
Lemma history_orderly l : steadily world_init l → orderly (history l).
Proof. apply history_from, init_orderly. Qed.

(** [known], decided. *)
Definition knows (w : world) (pid : nat) (x : journal * nat) : bool :=
  match disk w with
  | Some s => existsb (λ '(_, a), bool_decide (journal_of a = Some x.1) && negb (a_cleanup_verified a) && bool_decide (worker a = Some pid)) (arms s)
  | None => false
  end.
Lemma knows_known w : forallb (λ '(pid, x), knows w pid x) (map_to_list (workers w)) = true → known w.
Proof.
  intros H pid x Hx. rewrite forallb_forall in H. specialize (H (pid, x)). rewrite <- list_elem_of_In, elem_of_map_to_list in H. specialize (H Hx).
  unfold knows in H. destruct (disk w) as [s|]; [|done]. apply existsb_exists in H as ([id a] & Ha & H). apply andb_true_iff in H as [H Hw].
  apply andb_true_iff in H as [Hj Hv]. case_bool_decide; [|done]. case_bool_decide; [|done]. exists s, id, a. split_and!; [done|by apply list_elem_of_In|done|by apply negb_true_iff|done].
Qed.

(** ** Files of other arms

    [keeps X w0]: the results, markers and artifact roots of the arms in [X] are those
    of [w0]. *)
Definition keeps (X : string → Prop) (w0 w : world) : Prop := ∀ k, X k →
  results w !! k = results w0 !! k ∧ markers w !! k = markers w0 !! k ∧ ∀ n ns, Root n k ns ∈ dirs w ↔ Root n k ns ∈ dirs w0.
Definition inv {A} (I : world → Prop) (m : P A) : Prop := ∀ w, I w → wp m (λ _, I) I I w.
Lemma inv_ret {A} I (a : A) : inv I (mret a).
Proof. by intros w H. Qed.
Lemma inv_throw {A} I e : inv I (throw e : P A).
Proof. by intros w H. Qed.
Lemma inv_look I : inv I look.
Proof. by intros w H. Qed.
Lemma inv_change I f : (∀ w, I w → I (f w)) → inv I (change f).
Proof. intros H w Hw. by apply H. Qed.
Lemma inv_bind {A B} I (m : P A) (k : A → P B) : inv I m → (∀ a, inv I (k a)) → inv I (m ≫= k).
Proof. intros Hm Hk w Hw. apply bind_wp. eapply mono_wp; [by apply Hm| |done..]. intros a w' Hw'. by apply Hk. Qed.
Lemma inv_catch {A} I (m : P A) h : inv I m → (∀ e, inv I (h e)) → inv I (catch m h).
Proof. intros Hm Hh w Hw. apply wp_catch. eapply mono_wp; [by apply Hm|done| |done]. intros w' Hw' e. by apply Hh. Qed.
Lemma inv_tick I : stable I → inv I tick.
Proof. intros HI w Hw. by eapply wp_tick. Qed.

Lemma stable_keeps X w0 : stable (keeps X w0).
Proof.
  apply (stable_fields (λ x, ∀ k, X k → x.1.2 !! k = results w0 !! k ∧ x.2 !! k = markers w0 !! k ∧ ∀ n ns, Root n k ns ∈ x.1.1.2 ↔ Root n k ns ∈ dirs w0)).
Qed.
Lemma files_refl X w : keeps X w w.
Proof. by intros k _. Qed.
Lemma keeps_mono (X Y : string → Prop) w0 w : (∀ k, Y k → X k) → keeps X w0 w → keeps Y w0 w.
Proof. intros H Hk k Hy. by apply Hk, H. Qed.
Lemma files_trans X w0 w1 w : keeps X w0 w1 → keeps X w1 w → keeps X w0 w.
Proof. intros H1 H2 k Hk. destruct (H1 k Hk) as (A1 & A2 & A3), (H2 k Hk) as (B1 & B2 & B3). split_and!; [congruence|congruence|]. intros n ns. by rewrite B3. Qed.

(** Programs that touch no file of the arms. *)
Local Ltac inv_tac := repeat lazymatch goal with
  | |- inv _ (_ ≫= _) => apply inv_bind; [|intros ?]
  | |- inv _ tick => apply inv_tick, stable_keeps
  | |- inv _ (mret _) => apply inv_ret
  | |- inv _ (throw _) => apply inv_throw
  | |- inv _ look => apply inv_look
  | |- inv _ (change (set_result _ _)) => fail
  | |- inv _ (change (add_dir _)) => fail
  | |- inv _ (change _) => apply inv_change; intros ? ?; assumption
  | |- inv _ (catch _ _) => apply inv_catch; [|intros ?]
  | |- inv _ (match ?x with _ => _ end) => destruct x
  | |- inv _ (let _ := _ in _) => cbv zeta
  end.
Lemma inv_initialize c l X w0 : inv (keeps X w0) (_initialize c l).
Proof.
  assert (∀ uid r, inv (keeps X w0) (_cleanup uid r)) as Hc by (intros; unfold _cleanup; inv_tac).
  assert (∀ x, inv (keeps X w0) (recover_arms x)) as Hr.
  { induction x as [|[id a] x IH]; cbn; [apply inv_ret|]. apply inv_bind; [|intros; apply inv_bind; [done|intros; apply inv_ret]].
    unfold recover_arm, catch_exception, terminate_process_tree. inv_tac. apply Hc. }
  unfold _initialize, read_run_state, _recover_for_resume, set_state, _write_state. inv_tac; apply Hr.
Qed.
Lemma inv_poll pid l X w0 : inv (keeps X w0) (poll_loop pid l).
Proof.
  induction l as [|t l IH]; intros w Hw; unfold wp; cbn; [exact Hw|]. pose proof (stable_turn _ (moves t) l w (stable_keeps X w0) Hw) as H.
  destruct (answer t) as [x|e]; [|done]. destruct (negb _); [done|]. destruct (late x).
  - apply (inv_bind (keeps X w0) (terminate_process_tree pid) (λ _, mret true)); [unfold terminate_process_tree; inv_tac|by intros; apply inv_ret|done].
  - apply IH. by destruct (heartbeat x).
Qed.
Lemma inv_bind_value {A B} I (R : A → Prop) (m : P A) (k : A → P B) :
  (∀ w, I w → wp m (λ a w', I w' ∧ R a) I I w) → (∀ a, R a → inv I (k a)) → inv I (m ≫= k).
Proof. intros Hm Hk w Hw. apply bind_wp. eapply mono_wp; [by apply Hm| |done..]. intros a w' [Hw' Ha]. by apply Hk. Qed.
Lemma inv_begin c a X w0 : (∀ k, X k → k ≠ arm_id a) → inv (keeps X w0) (begin_arm c a).
Proof.
  intros HX. unfold begin_arm. apply inv_bind; [apply inv_tick, stable_keeps|intros x]. apply inv_bind; [apply inv_look|intros w'].
  apply (inv_bind_value _ (λ r, ∃ n ns, r = Root n (arm_id a) ns)).
  - intros w Hw. repeat case_match; [apply ret_wp|by apply wp_throw|apply ret_wp]; split; eauto.
  - intros r (n & ns & ->). unfold alter_arm, set_state, _write_state. inv_tac. apply inv_change. intros w Hw k Hk. destruct (Hw k Hk) as (H1 & H2 & H3).
    split_and!; [done|done|]. intros n' ns'. cbn. rewrite elem_of_union, elem_of_singleton, H3. split; [|by right]. intros [[= _ -> _]|?]; [|done]. by destruct (HX _ Hk).
Qed.
Lemma inv_watch c a j X w0 : inv (keeps X w0) (watch_arm c a j).
Proof.
  assert (∀ uid r, inv (keeps X w0) (_cleanup uid r)) as Hc by (intros; unfold _cleanup; inv_tac).
  unfold watch_arm, alter_arm, set_state, _write_state, terminate_process_tree. inv_tac; [intros w; by apply inv_poll|apply Hc].
Qed.
(** What [_store_result] leaves. *)
Definition stored (r : ResultEnvelope) (w : world) : Prop :=
  results w !! arm_id (arm r) = Some r ∧ (is_trial_outcome r = true → markers w !! arm_id (arm r) = Some (spec_digest (arm r))).
Lemma store_stored r X w0 w : (∀ k, X k → k ≠ arm_id (arm r)) → keeps X w0 w →
  wp (_store_result r) (λ _ w', keeps X w0 w' ∧ stored r w') (keeps X w0) (keeps X w0) w.
Proof.
  intros HX Hw. apply bind_wp, wp_look, bind_wp. eapply mono_wp; [|clear w Hw|done..].
  - assert (∀ x : option ResultEnvelope, inv (keeps X w0) (match x with Some p => if bool_decide (attempt_id p = attempt_id r) then mret tt else tick ≫= λ _, change (archive_result (attempt_id p, arm_id (arm r)) p) | None => mret tt end)) as H by (intros x; inv_tac).
    by apply H.
  - intros [] w Hw. apply bind_wp. eapply (wp_tick (keeps X w0)); [apply stable_keeps|done| |auto]. clear w Hw. intros _ w Hw. apply bind_wp, wp_change, bind_wp.
    eapply (wp_tick (λ w, keeps X w0 w ∧ results w !! arm_id (arm r) = Some r)); [|split; [|apply lookup_insert_eq]| |by intros w' []].
    + apply stable_and; [apply stable_keeps|]. apply (stable_fields (λ x, x.1.2 !! arm_id (arm r) = Some r)).
    + intros k Hk. destruct (Hw k Hk) as (H1 & H2 & H3). cbn. rewrite lookup_insert_ne by (intros <-; by destruct (HX _ Hk)). by split_and!.
    + clear w Hw. intros _ w [Hw Hr]. apply wp_change. split; [|split; [done|intros ->; apply lookup_insert_eq]]. intros k Hk. destruct (Hw k Hk) as (H1 & H2 & H3). cbn.
      split_and!; [done| |done]. pose proof (HX _ Hk). destruct (is_trial_outcome r); [by rewrite lookup_insert_ne|by rewrite lookup_delete_ne].
Qed.
Lemma arm_result_arm c a t rc x b : arm_id (arm (arm_result c a t rc (accepted_child a x) b)) = arm_id a ∧ spec_digest (arm (arm_result c a t rc (accepted_child a x) b)) = spec_digest a.
Proof.
  assert (∀ r, accepted_child a x = Some r → arm_id (arm r) = arm_id a ∧ spec_digest (arm r) = spec_digest a) as H.
  { intros r. unfold accepted_child. intros (r' & -> & H)%bind_Some. repeat case_bool_decide; rewrite ?andb_false_r in H; destruct (status_and_failure_category_agree r'); try done. by injection H as <-. }
  unfold arm_result. destruct t, b; try done; (destruct (accepted_child a x) as [r|]; [|done]); (destruct (H r eq_refl); by destruct (negb _ && _)).
Qed.

(** An arm that runs leaves the files of the others as they are. *)
Lemma run_arm_stored c a X w0 w : (∀ k, X k → k ≠ arm_id a) → keeps X w0 w →
  wp (_run_arm c a) (λ r w', keeps X w0 w' ∧ stored r w' ∧ arm_id (arm r) = arm_id a ∧ spec_digest (arm r) = spec_digest a) (keeps X w0) (keeps X w0) w.
Proof.
  intros HX Hw. apply bind_wp. eapply mono_wp; [by apply inv_begin| |done..]. clear w Hw. intros j w Hw. cbn beta in Hw.
  apply bind_wp. eapply mono_wp; [exact (inv_watch c a j X w0 w Hw)| |done..]. clear w Hw. intros [rc t] w Hw. cbn beta in Hw.
  assert (∀ w, keeps X w0 w → wp _write_state (λ _, keeps X w0) (keeps X w0) (keeps X w0) w) as Hwr.
  { change (inv (keeps X w0) _write_state). unfold _write_state. inv_tac. }
  apply bind_wp. eapply mono_wp; [exact (Hwr w Hw)| |done..]. clear w Hw. intros [] w Hw. cbn beta in Hw.
  apply bind_wp. eapply mono_wp; [apply (cleanup_ok (keeps X w0)); [apply stable_keeps|by intros w' Y H'|exact Hw]| |done..]. clear w Hw. intros b w [Hw _].
  apply bind_wp, wp_change, bind_wp. eapply (wp_tick (keeps X w0)); [apply stable_keeps|done| |auto]. clear w Hw. intros x w Hw. cbv zeta.
  destruct (arm_result_arm c a t rc (child x) b) as [H1 H2]. set (r := arm_result _ _ _ _ _ _) in *. clearbody r.
  apply bind_wp. eapply mono_wp; [by apply store_stored; [rewrite H1|]| |done..]. clear w Hw. intros [] w [Hw Hs].
  assert (stable (λ w, keeps X w0 w ∧ stored r w)) as HI.
  { apply stable_and; [apply stable_keeps|]. apply (stable_fields (λ x, x.1.2 !! arm_id (arm r) = Some r ∧ (is_trial_outcome r = true → x.2 !! arm_id (arm r) = Some (spec_digest (arm r))))). }
  apply bind_wp. eapply wp_tick; [exact HI|by split| |by intros w' []]. clear w Hw Hs. intros _ w [Hw Hs]. apply bind_wp, wp_change, bind_wp, bind_wp.
  eapply wp_tick; [exact HI|by split| |by intros w' []]. clear w Hw Hs. intros _ w [Hw Hs]. by apply wp_change, ret_wp.
Qed.

(** *** The arms of a run *)

Notation ids l := (arm_id <$> l).
(** Arms that are not of this run, or complete from the start. *)
Definition spare (c : ExperimentSupervisor) (l : list ExperimentArm) (w0 : world) (k : string) : Prop :=
  k ∉ ids l ∨ ∃ a, a ∈ l ∧ arm_id a = k ∧ is_Some (_completed_result c a w0).
Lemma completed_keeps (X : string → Prop) c a w0 w : X (arm_id a) → keeps X w0 w → _completed_result c a w = _completed_result c a w0.
Proof. intros HX H. unfold _completed_result. destruct (H _ HX) as (-> & -> & _). done. Qed.
Lemma arm_ids_unique l a b : NoDup (ids l) → a ∈ l → b ∈ l → arm_id a = arm_id b → a = b.
Proof.
  intros Hl [i Hi]%list_elem_of_lookup [j Hj]%list_elem_of_lookup Hab.
  assert (i = j) as ->; [|congruence]. eapply NoDup_lookup; [done|rewrite list_lookup_fmap, Hi; done|]. by rewrite list_lookup_fmap, Hj, Hab.
Qed.
Lemma run_arms_keeps c l0 w0 : NoDup (ids l0) → ∀ l done, l ⊆ l0 → inv (keeps (spare c l0 w0) w0) (run_arms c l done).
Proof.
  intros Hl0. induction l as [|a l IH]; intros done Hl; [apply inv_ret|]. assert (l ⊆ l0) as Hl' by set_solver. assert (a ∈ l0) as Ha by set_solver.
  intros w Hw. apply bind_wp, wp_look. destruct (_completed_result c a w) as [p|] eqn:Ec.
  - apply bind_wp, wp_change. by apply (IH (done ++ [p]) Hl').
  - apply bind_wp. eapply mono_wp; [apply (run_arm_stored c a (spare c l0 w0) w0); [|done]| |done..].
    + intros k [Hk|(b & Hb & Hk & [p Hp])] ->; [by apply Hk, list_elem_of_fmap_2|]. assert (b = a) as -> by by apply (arm_ids_unique l0).
      erewrite (completed_keeps (spare c l0 w0)) in Ec; [by rewrite Hp in Ec| |done]. right. by exists a.
    + clear w Hw Ec. intros r w (Hw & _). apply (inv_bind (keeps (spare c l0 w0) w0) (write_summary (done ++ [r]))); [unfold write_summary; inv_tac| |done].
      intros []. destruct (is_trial_outcome r); [by apply IH|apply inv_ret].
Qed.

(** The result [r] is one of arm [a], and on disk. *)
Definition fits (w : world) (a : ExperimentArm) (r : ResultEnvelope) : Prop :=
  arm_id (arm r) = arm_id a ∧ spec_digest (arm r) = spec_digest a ∧ stored r w.
Lemma fits_keeps (X : string → Prop) w w' a r : X (arm_id a) → keeps X w w' → fits w a r → fits w' a r.
Proof. intros HX H (H1 & H2 & H3 & H4). split_and!; [done..|]. unfold stored. rewrite H1 in *. destruct (H _ HX) as (-> & -> & _). done. Qed.
Lemma completed_fits c a w r : _completed_result c a w = Some r → fits w a r ∧ is_trial_outcome r = true.
Proof.
  unfold _completed_result. intros (x & Hx & (m & Hm & H)%bind_Some)%bind_Some. repeat case_bool_decide; rewrite ?andb_false_r in H; try done.
  destruct (status_and_failure_category_agree x), (is_trial_outcome x) eqn:Et; try done. injection H as <-. split; [|done]. split; [done|]. split; [done|]. split; [congruence|intros _; congruence].
Qed.

(** The results are those of the first arms, and only the last one may not be the
    outcome of a trial. *)
Definition in_order (w : world) (l : list ExperimentArm) (rs : list ResultEnvelope) : Prop :=
  (length rs <= length l)%nat ∧ Forall2 (fits w) (take (length rs) l) rs ∧ (∀ i r, rs !! i = Some r → is_trial_outcome r = false → S i = length rs) ∧
  ((length rs < length l)%nat → ∃ r, last rs = Some r ∧ is_trial_outcome r = false).
Lemma in_order_cons w a l r rs : fits w a r → is_trial_outcome r = true → in_order w l rs → in_order w (a :: l) (r :: rs).
Proof.
  intros Ha Hr (H1 & H2 & H3 & H4). split_and!; cbn; [lia|by constructor| |].
  - intros [|i] x Hi Hx; cbn in Hi; [congruence|]. by rewrite (H3 i x Hi Hx).
  - intros Hlt. destruct H4 as (x & Hx & ?); [lia|]. exists x. split; [|done]. by destruct rs.
Qed.
Lemma run_arms_in_order c l : NoDup (ids l) → ∀ done w,
  wp (run_arms c l done) (λ rs w', keeps (λ k, k ∉ ids l) w w' ∧ ∃ new, rs = done ++ new ∧ in_order w' l new) (λ _, True) (λ _, True) w.
Proof.
  induction l as [|a l IH]; intros Hl done w.
  { apply ret_wp. split; [apply files_refl|]. exists []. rewrite app_nil_r. split; [done|]. split_and!; cbn; [lia|constructor|done|lia]. }
  cbn [fmap list_fmap] in *. apply NoDup_cons in Hl as [Ha Hl].
  assert (∀ r w1 w2, keeps (λ k, k ∉ arm_id a :: ids l) w w1 → fits w1 a r → is_trial_outcome r = true → keeps (λ _, True) w1 w2 →
    wp (run_arms c l (done ++ [r])) (λ rs w', keeps (λ k, k ∉ arm_id a :: ids l) w w' ∧ ∃ new, rs = done ++ new ∧ in_order w' (a :: l) new) (λ _, True) (λ _, True) w2) as Hrest.
  { intros r w1 w2 Hk Hf Ht H12. eapply mono_wp; [apply IH; done| |done..]. intros rs w' (Hk' & new & -> & Ho). split.
    - eapply files_trans; [exact Hk|]. eapply files_trans; [eapply keeps_mono, H12; done|]. eapply keeps_mono, Hk'. intros k H. by apply not_elem_of_cons in H as [].
    - exists (r :: new). split; [by rewrite <- app_assoc|]. apply in_order_cons; [|done|done]. eapply (fits_keeps (λ k, k ∉ ids l)); [exact Ha|exact Hk'|].
      by eapply (fits_keeps (λ _, True)). }
  apply bind_wp, wp_look. destruct (_completed_result c a w) as [p|] eqn:Ec.
  - apply bind_wp, wp_change. destruct (completed_fits c a w p Ec). apply (Hrest p w); [apply files_refl|done|done|by intros k _].
  - apply bind_wp. eapply mono_wp; [apply (run_arm_stored c a (λ k, k ∉ arm_id a :: ids l) w)| |done..].
    + intros k Hk ->. apply Hk. by left.
    + apply files_refl.
    + intros r w1 (Hk & Hs & Hid & Hd). assert (fits w1 a r) as Hf by done. apply bind_wp. eapply (mono_wp _ (λ _, keeps (λ _, True) w1)); [|clear Hs|done..].
      * assert (inv (keeps (λ _, True) w1) (write_summary (done ++ [r]))) as Hi by (unfold write_summary; inv_tac).
        by eapply mono_wp; [exact (Hi w1 (files_refl _ _))|..].
      * intros [] w2 H12. destruct (is_trial_outcome r) eqn:Et; [by eapply Hrest|]. apply ret_wp. split; [by eapply files_trans; [exact Hk|eapply keeps_mono, H12]|].
        exists [r]. split; [done|]. split_and!; cbn; [lia| | |].
        -- constructor; [by eapply (fits_keeps (λ _, True))|constructor].
        -- intros [|i] x Hi; [done|by destruct i].
        -- intros _. by exists r.
Qed.

(** ** The theorems *)

Lemma stable_summary R : stable (λ w, R (summary w)).
Proof. split; intros w x H; [|done]. destruct x as [pid|pid|j]; cbn; [|done..]. by destruct (workers w !! pid) as [[]|]. Qed.
Lemma in_order_keeps w w' l rs : keeps (λ _, True) w w' → in_order w l rs → in_order w' l rs.
Proof. intros H (H1 & H2 & H3 & H4). split_and!; [done| |done|done]. eapply Forall2_impl; [done|]. intros a r. by apply (fits_keeps (λ _, True)). Qed.
Definition verdict (l : list ExperimentArm) (rs : list ResultEnvelope) : run_state := if complete l rs then Succeeded else Run_failed.
Lemma finish_ok l rs w : in_order w l rs →
  wp (set_state (λ s, with_state (if complete l rs then Succeeded else Run_failed) (foldl mark_not_run s l)) ≫= λ _, write_summary rs ≫= λ _, _write_state ≫= λ _, mret rs)
    (λ rs' w', rs' = rs ∧ in_order w' l rs ∧ summary w' = rs ∧ ∃ s, disk w' = Some s ∧ s_state s = verdict l rs) (λ _, True) (λ _, True) w.
Proof.
  intros Ho. apply bind_wp, wp_change. set (w1 := set_memory _ w). set (I := λ w1, keeps (λ _, True) w w1 ∧ ∃ s, memory w1 = Some s ∧ s_state s = verdict l rs).
  assert (I w1) as H1 by (split; [by intros k _|by eexists]). clearbody w1.
  assert (stable I) as HI by (apply stable_and; [apply stable_keeps|apply (stable_fields (λ x, ∃ s, x.1.1.1.1.1 = Some s ∧ s_state s = verdict l rs))]).
  apply bind_wp, bind_wp. eapply (wp_tick I); [exact HI|exact H1| |done]. clear w1 H1. intros _ w1 H1. apply wp_change, bind_wp, bind_wp.
  eapply (wp_tick (λ w, I w ∧ summary w = rs)); [apply stable_and; [exact HI|apply (stable_summary (.= rs))]|by split| |done].
  clear w1 H1. intros _ w1 [[Hk Hs] Hsum]. apply wp_change, ret_wp. split_and!; [done|by apply (in_order_keeps w)|done|done].
Qed.
Lemma wp_any {A} (m : P A) w : wp m (λ _ _, True) (λ _, True) (λ _, True) w.
Proof. unfold wp. by destruct (m w) as [[] ?]. Qed.
Lemma run_done c l w : NoDup (ids l) →
  wp (run c l) (λ rs w', in_order w' l rs ∧ summary w' = rs ∧ ∃ s, disk w' = Some s ∧ s_state s = verdict l rs) (λ _, True) (λ _, True) w.
Proof.
  intros Hl. apply bind_wp. eapply mono_wp; [apply (wp_any (_initialize c l))| |done..]. clear w. intros [] w _. apply bind_wp, wp_catch. eapply mono_wp; [by apply run_arms_in_order| | |done].
  - intros rs w' (_ & new & -> & Ho). eapply mono_wp; [by apply finish_ok| |done..]. by intros rs w'' (-> & ? & ? & ?).
  - intros w' _ e. apply bind_wp, wp_change, bind_wp. eapply mono_wp; [apply wp_any|by intros; apply wp_throw|done..].
Qed.
Lemma complete_true l rs : complete l rs = true ↔ length rs = length l ∧ Forall (λ r, status r = SUCCEEDED) rs.
Proof. unfold complete. rewrite andb_true_iff, Nat.eqb_eq, forallb_forall, Forall_forall. setoid_rewrite bool_decide_eq_true. setoid_rewrite list_elem_of_In. done. Qed.
Lemma run_files c l w : NoDup (ids l) → inv (keeps (spare c l w) w) (run c l).
Proof.
  intros Hl. unfold run. apply inv_bind; [apply inv_initialize|intros _]. apply inv_bind.
  - apply inv_catch; [by apply run_arms_keeps|]. intros e. unfold set_state, _write_state. inv_tac.
  - intros rs. unfold set_state, write_summary, _write_state. inv_tac.
Qed.

(** The world in which a supervisor starts. *)
Definition launched (c : ExperimentSupervisor) (ts : list turn) (w : world) : world :=
  set_memory None (set_supervisors ({[self_pid c]} ∪ supervisors w) (set_turns ts w)).

(** C12: no VM is forgotten.  Take any history of runs, resumed runs, aborts and
    destructions of a run, with deaths of the supervisor between any two of its
    effects, failures of any effect, and workers that create VMs at any time.  If each
    resumed run knows the workers that are still alive, and each abort and destruction
    reaches them, then at the end every VM that is left and every worker that is alive
    belongs to a journal that run-state.json names and does not call clean. *)
Theorem resources_accounted (l : list invocation) (Hl : steadily world_init l) :
  (∀ j, j ∈ owned (history l) → notes (disk (history l)) j) ∧
  ∀ pid j parent, workers (history l) !! pid = Some (j, parent) → notes (disk (history l)) j.
Proof.
  destruct (history_orderly l Hl) as [[H1 H2] _]. split; [exact H2|]. intros pid j parent Hp. exact (H1 _ _ Hp).
Qed.


(** C15: the verdict of a run is what its results say.  A run that returns has results
    for its first arms, in order, each of that arm and stored on disk with its marker if
    it is the outcome of a trial; all but the last are such outcomes, and if arms were
    left out the last one is not.  The summary lists the results, and run-state.json says
    that the run succeeded exactly when every arm has a result and all succeeded. *)
Theorem run_verdict (c : ExperimentSupervisor) (l : list ExperimentArm) (w w' : world) (rs : list ResultEnvelope)
    (Hl : NoDup (ids l)) (Hrun : run c l w = (Done rs, w')) :
  in_order w' l rs ∧ summary w' = rs ∧
  ∃ s, disk w' = Some s ∧ (s_state s = Succeeded ↔ length rs = length l ∧ Forall (λ r, status r = SUCCEEDED) rs).
Proof.
  pose proof (run_done c l w Hl) as H. unfold wp in H. rewrite Hrun in H. destruct H as (H1 & H2 & s & Hs & Hv). split_and!; [done..|]. exists s. split; [done|].
  rewrite <- complete_true, Hv. unfold verdict. by destruct (complete l rs).
Qed.

(** C14: a complete trial is not repeated.  If the result of an arm is complete when a
    run starts, then whatever happens in the run (and whenever it dies) the result stays
    complete as it is, no artifact root is made for another invocation of the arm, and a
    run that returns has it as the arm's result. *)
Theorem completed_trials_stay (c : ExperimentSupervisor) (l : list ExperimentArm) (w : world) (i : nat) (a : ExperimentArm) (r : ResultEnvelope)
    (Hl : NoDup (ids l)) (Hi : l !! i = Some a) (Hr : _completed_result c a w = Some r) :
  let '(x, w') := run c l w in
  _completed_result c a w' = Some r ∧ (∀ n ns, Root n (arm_id a) ns ∈ dirs w' → Root n (arm_id a) ns ∈ dirs w) ∧
  ∀ rs, x = Done rs → (i < length rs)%nat → rs !! i = Some r.
Proof.
  assert (spare c l w (arm_id a)) as Hs by (right; exists a; split_and!; [by eapply list_elem_of_lookup_2|done|by eexists]).
  pose proof (run_files c l w Hl w (files_refl _ _)) as Hk. pose proof (run_done c l w Hl) as Hd. unfold wp in *. destruct (run c l w) as [x w'].
  assert (keeps (spare c l w) w w') as H by by destruct x. clear Hk. destruct (H _ Hs) as (Hres & _ & Hdirs). split_and!.
  - by rewrite (completed_keeps (spare c l w) c a w).
  - intros n ns. by rewrite Hdirs.
  - intros rs -> Hlt. destruct Hd as ((_ & Hf & _) & _). apply lookup_lt_is_Some in Hlt as [p Hp]. rewrite Hp. f_equal.
    assert (take (length rs) l !! i = Some a) as Ht by (rewrite lookup_take_lt by (by eapply lookup_lt_Some); done).
    destruct (Forall2_lookup_lr _ _ _ _ _ _ Hf Ht Hp) as (Hid & _ & Hst & _). destruct (completed_fits c a w r Hr) as [(Hid' & _ & Hst' & _) _]. congruence.
Qed.
End supervisor.

(** ** Runs of an example *)

Module Demo.
Definition cube := Build_ExperimentArm "a" "da".
Definition local := Build_ExperimentArm "b" "db".
Definition first := Build_ExperimentSupervisor "t1" "owner" false "spec" 100 false.
Definition again := Build_ExperimentSupervisor "t1" "owner" true "spec" 101 false.
Definition good (a : ExperimentArm) : ResultEnvelope :=
  Build_ResultEnvelope "t1" a SUCCEEDED None (Build_Correctness None (Some true) None false false false false).
Definition fine (m : list move) : turn := Turn m (Ok (Build_reading false false (Some 0) None 7)).
Definition left_result (a : ExperimentArm) : turn := Turn [] (Ok (Build_reading false false (Some 0) (Some (good a)) 7)).
Definition idles (n : nat) : list turn := replicate n (fine []).
(** An arm: the start of worker [pid], which makes a VM and ends, and the effects
    after it. *)
Definition whole_arm (a : ExperimentArm) (pid : nat) : list turn :=
  idles 5 ++ [fine [Boot pid]; fine [Exit pid]] ++ idles 3 ++ [left_result a] ++ idles 5.
Definition id_hash (s : string) : string := s.
Notation history := (history id_hash).

(** The supervisor dies while the first worker runs; the resumed run stops it and runs
    both arms. *)
Definition dies : invocation := Supervise first [cube; local] (idles 8 ++ [fine [Boot 0]]) false.
Definition resumes : invocation := Supervise again [cube; local] (idles 4 ++ whole_arm cube 1 ++ whole_arm local 2 ++ idles 2) false.
Example interrupted : let w := history [dies] in
  size (owned w) = 1%nat ∧ size (workers w) = 1%nat ∧ disk w ≫= (λ s, a_status <$> (arms s !! "a"%string)) = Some Running.
Proof. vm_compute. done. Qed.
Example resumed : let w := history [dies; resumes] in
  owned w = ∅ ∧ workers w = ∅ ∧ (arm_id ∘ arm <$> summary w) = ["a"%string; "b"%string] ∧ s_state <$> disk w = Some Succeeded.
Proof. vm_compute. done. Qed.

(** The supervisor dies after it has started the worker and before it has written its
    identity: the resumed run does not know the worker, which goes on. *)
Definition dies_early : invocation := Supervise first [cube; local] (idles 6) false.
Definition resumes_blind : invocation := Supervise again [cube; local] (idles 1 ++ [fine [Boot 0]]) false.
Example unknown_worker_survives : let w := history [dies_early; resumes_blind] in
  size (workers w) = 1%nat ∧ size (owned w) = 1%nat ∧ disk w ≫= (λ s, a_cleanup_verified <$> (arms s !! "a"%string)) = Some true.
Proof. vm_compute. done. Qed.
(** The supervisor has died and its worker has not: an abort cleans up beside the
    worker, and a resumed run stops the worker but not the VM it has made since. *)
Definition aborts : invocation := Abort (idles 3 ++ [fine [Boot 0]]).
Definition resumes_after : invocation := Supervise again [cube; local] (idles 2) false.
Example abort_misses_orphan : let w := history [dies; aborts] in
  size (workers w) = 1%nat ∧ size (owned w) = 1%nat ∧ s_state <$> disk w = Some Run_cancelled ∧
  disk w ≫= (λ s, a_cleanup_verified <$> (arms s !! "a"%string)) = Some true.
Proof. vm_compute. done. Qed.
Example orphan_leaks : let w := history [dies; aborts; resumes_after] in workers w = ∅ ∧ size (owned w) = 1%nat.
Proof. vm_compute. done. Qed.

(** *** Witnesses *)

Lemma dies_steady : steadily id_hash world_init [dies; resumes].
Proof. split; [done|]. split; [intros _; apply knows_known; by vm_compute|done]. Qed.
Lemma dies_known : known (history [dies]).
Proof. apply knows_known. by vm_compute. Qed.
Lemma dies_owned : (Root "t1" "a" None, _attempt_task_uid id_hash "owner" "t1" "a") ∈ owned (history [dies]).
Proof. apply (bool_decide_unpack _). by vm_compute. Qed.
Lemma resources_accounted_witness :
  steadily id_hash world_init [dies] ∧
  notes (disk (history [dies])) (Root "t1" "a" None, _attempt_task_uid id_hash "owner" "t1" "a").
Proof.
  split; [split; done|]. refine (proj1 (resources_accounted id_hash [dies] _) _ dies_owned). split; done.
Defined.
Definition resumed_turns : list turn := idles 4.
Definition resumed_world : world := (run id_hash again [cube; local] (launched again (idles 4 ++ whole_arm cube 1 ++ whole_arm local 2 ++ idles 2) (history [dies]))).2.
Definition clean (r : ResultEnvelope) : ResultEnvelope :=
  Build_ResultEnvelope (attempt_id r) (arm r) (status r) (failure_category r) (correctness_cleaned (correctness r)).
Lemma resumed_run : run id_hash again [cube; local] (launched again (idles 4 ++ whole_arm cube 1 ++ whole_arm local 2 ++ idles 2) (history [dies])) =
  (Done [clean (good cube); clean (good local)], resumed_world).
Proof. vm_compute. done. Qed.
Lemma two_ids : NoDup (arm_id <$> [cube; local]).
Proof. by apply (bool_decide_unpack _). Qed.
Lemma run_verdict_witness : summary resumed_world = [clean (good cube); clean (good local)] ∧
  in_order resumed_world [cube; local] [clean (good cube); clean (good local)].
Proof.
  destruct (run_verdict id_hash again [cube; local] _ resumed_world _ two_ids resumed_run) as (H1 & H2 & _). by split.
Defined.
(** The supervisor dies in the second arm; the run that resumes does not repeat the
    first. *)
Definition dies_late : invocation := Supervise first [cube; local] (idles 3 ++ whole_arm cube 0 ++ idles 5 ++ [fine [Boot 1]]) false.
Definition late_turns : list turn := idles 4 ++ whole_arm local 2 ++ idles 2.
Lemma late_completed : _completed_result again cube (launched again late_turns (history [dies_late])) = Some (clean (good cube)).
Proof. vm_compute. done. Qed.
Lemma completed_trials_stay_witness :
  (run id_hash again [cube; local] (launched again late_turns (history [dies_late]))).1 = Done [clean (good cube); clean (good local)] ∧
  let '(x, w') := run id_hash again [cube; local] (launched again late_turns (history [dies_late])) in _completed_result again cube w' = Some (clean (good cube)).
Proof.
  split; [vm_compute; reflexivity|].
  pose proof (completed_trials_stay id_hash again [cube; local] (launched again late_turns (history [dies_late])) 0 cube _ two_ids eq_refl late_completed) as H.
  destruct (run _ _ _ _). exact (proj1 H).
Defined.
End Demo.
