(* ===== verification/KnowledgeOwner.v ===== *)
(** * Owners of the knowledge base (src/clawbox/experiments/knowledge/processes.py)

    A worker keeps the knowledge base of its sessions in child processes.  [_Owner] is
    the end of the worker: callers submit requests and wait for futures, a sender and a
    reader thread serve the pipe, and a semaphore bounds what is outstanding.  [_owner]
    is the loop of the child: it runs the requests of one session one at a time, the
    commits of a transaction are written by a thread of their own, and a close waits
    for all that was accepted.  A run interleaves the blocks of all of these, and the
    child may die at any moment. *)
From S2P Require Import Prelude.

Module Owner.
(** What is asked: [close], a method without a session ([summary], [metrics]), a method
    of a session that answers at once, or a transaction of a session. *)
Inductive operation := Close | Global | Plain (session : string) | Transaction (session : string).
Record job := Job { ident : nat; op : operation }.
Definition session_of (j : job) : option string :=
  match op j with Plain s | Transaction s => Some s | Close | Global => None end.
(** The result of a request, the exception of the method, or the failure that
    [_Owner._fail] reports. *)
Inductive answer := Value | Error | Exited.

(** ** The child *)

Inductive message := Request (j : job) | Continuation (j : job) | Commit (j : job) (failed : bool).
(** [Stopped]: by [close]; [Dead]: by anything else. *)
Inductive phase := Up | Stopped | Dead.
Record child := Child {
  inbox : list message; pending : gmap string (list job); busy : gset string; stopping : option job;
  writing : list job; replies : list (nat * answer); child_phase : phase; started : list job }.
Definition child_init : child := Child [] ∅ ∅ None [] [] Up [].

Definition set_inbox (l : list message) (c : child) : child := Child l (pending c) (busy c) (stopping c) (writing c) (replies c) (child_phase c) (started c).
Definition set_pending (m : gmap string (list job)) (c : child) : child := Child (inbox c) m (busy c) (stopping c) (writing c) (replies c) (child_phase c) (started c).
Definition set_busy (b : gset string) (c : child) : child := Child (inbox c) (pending c) b (stopping c) (writing c) (replies c) (child_phase c) (started c).
Definition set_stopping (j : job) (c : child) : child := Child (inbox c) (pending c) (busy c) (Some j) (writing c) (replies c) (child_phase c) (started c).
Definition set_writing (l : list job) (c : child) : child := Child (inbox c) (pending c) (busy c) (stopping c) l (replies c) (child_phase c) (started c).
Definition send (r : nat * answer) (c : child) : child := Child (inbox c) (pending c) (busy c) (stopping c) (writing c) (replies c ++ [r]) (child_phase c) (started c).
Definition set_phase (p : phase) (c : child) : child := Child (inbox c) (pending c) (busy c) (stopping c) (writing c) (replies c) p (started c).
(** The request is taken up: the first thing its method does. *)
Definition start (j : job) (c : child) : child := Child (inbox c) (pending c) (busy c) (stopping c) (writing c) (replies c) (child_phase c) (started c ++ [j]).

(** [pending[session]] of the [defaultdict]. *)
Definition waiting (s : string) (c : child) : list job := default [] (pending c !! s).

(** [reply]: then the next request of the session is put in the inbox. *)
Definition reply (j : job) (a : answer) (c : child) : child :=
  let c := send (ident j, a) c in
  match session_of j with
  | None => c
  | Some s =>
      match waiting s c with
      | next :: rest => set_inbox (inbox c ++ [Continuation next]) (set_pending (<[s := rest]> (pending c)) c)
      | [] => set_busy (busy c ∖ {[s]}) c
      end
  end.

(** What the method does when it is called or resumed: it returns a value that can be
    sent, one that cannot, it raises, or (a transaction) it yields a commit. *)
Inductive result := Returns | Unsendable | Raises | Yields.
(** [advance] and the calls around it; [guarded] inside the [try] of a request.  A
    result that cannot be sent is an error there, and the end of the child otherwise. *)
Definition finish (guarded : bool) (j : job) (r : result) (c : child) : child :=
  match r with
  | Returns => reply j Value c
  | Raises => reply j Error c
  | Unsendable => if guarded then reply j Error c else set_phase Dead c
  | Yields => match op j with
              | Transaction _ => set_writing (writing c ++ [j]) c
              | _ => reply j Value c
              end
  end.

Definition take_up (j : job) (r : result) (c : child) : child := finish true j r (start j c).

Definition handle_message (r : result) (m : message) (c : child) : child :=
  match m with
  | Commit j _ => finish false j r c
  | Continuation j => take_up j r c
  | Request j =>
      match op j, session_of j with
      | Close, _ => set_stopping j c
      | _, Some s =>
          if bool_decide (s ∈ busy c) then set_pending (<[s := waiting s c ++ [j]]> (pending c)) c
          else take_up j r (set_busy ({[s]} ∪ busy c) c)
      | _, None => take_up j r c
      end
  end.

Definition drained (c : child) : bool :=
  bool_decide (busy c = ∅) && bool_decide (map_Forall (λ _ l, l = []) (pending c)).
(** An iteration of the loop of [_owner]. *)
Definition iterate (r : result) (c : child) : child :=
  match child_phase c, stopping c, drained c with
  | Up, Some j, true => set_phase Stopped (send (ident j, Value) c)
  | Up, _, _ =>
      match inbox c with
      | [] => c
      | m :: rest => handle_message r m (set_inbox rest c)
      end
  | _, _, _ => c
  end.
(** The journal thread has written, or failed to write, a commit. *)
Definition written (failed : bool) (c : child) : child :=
  match child_phase c, writing c with
  | Up, j :: rest => set_inbox (inbox c ++ [Commit j failed]) (set_writing rest c)
  | _, _ => c
  end.

(** ** The worker's end *)

(** A caller: before the semaphore, before the lock, and when it has its future or the
    exception. *)
Inductive thread := Calling (o : operation) | Entered (o : operation) | Accepted (i : nat) | Raised (e : exn).
(** The reader: it waits for a reply, has taken a future out of [pending], has released
    the semaphore, and fails what is left when the pipe ends.  The sender ends after the
    close, or fails what is left when the pipe is broken. *)
Inductive reader := Receiving | Popped (i : nat) (a : answer) | Released (i : nat) (a : answer) | Reader_failing (l : list nat) | Reader_released (i : nat) (l : list nat) | Reader_done.
Inductive sender := Sending | Sender_failing (l : list nat) | Sender_released (i : nat) (l : list nat) | Sender_done.

(** [futures] is the attribute [pending]; [answers] are the futures that are set, in
    order. *)
Record owner := Owner {
  capacity : nat; futures : list nat; sequence : nat; error : bool; closing : bool; outbox : list job; pipe : list job;
  answers : list (nat * answer); the_reader : reader; the_sender : sender; the_child : child; threads : list thread }.
Definition owner_init (limit : nat) : owner := Owner limit [] 0 false false [] [] [] Receiving Sending child_init [].

Definition set_capacity n w := Owner n (futures w) (sequence w) (error w) (closing w) (outbox w) (pipe w) (answers w) (the_reader w) (the_sender w) (the_child w) (threads w).
Definition set_futures l w := Owner (capacity w) l (sequence w) (error w) (closing w) (outbox w) (pipe w) (answers w) (the_reader w) (the_sender w) (the_child w) (threads w).
Definition set_error w := Owner (capacity w) [] (sequence w) true (closing w) (outbox w) (pipe w) (answers w) (the_reader w) (the_sender w) (the_child w) (threads w).
Definition set_queues o p w := Owner (capacity w) (futures w) (sequence w) (error w) (closing w) o p (answers w) (the_reader w) (the_sender w) (the_child w) (threads w).
Definition set_answer x w := Owner (capacity w) (futures w) (sequence w) (error w) (closing w) (outbox w) (pipe w) (answers w ++ [x]) (the_reader w) (the_sender w) (the_child w) (threads w).
Definition set_reader r w := Owner (capacity w) (futures w) (sequence w) (error w) (closing w) (outbox w) (pipe w) (answers w) r (the_sender w) (the_child w) (threads w).
Definition set_sender r w := Owner (capacity w) (futures w) (sequence w) (error w) (closing w) (outbox w) (pipe w) (answers w) (the_reader w) r (the_child w) (threads w).
Definition set_child c w := Owner (capacity w) (futures w) (sequence w) (error w) (closing w) (outbox w) (pipe w) (answers w) (the_reader w) (the_sender w) c (threads w).
Definition set_threads l w := Owner (capacity w) (futures w) (sequence w) (error w) (closing w) (outbox w) (pipe w) (answers w) (the_reader w) (the_sender w) (the_child w) l.
Definition release w := set_capacity (S (capacity w)) w.

Definition queue_full : exn := RuntimeError "KB owner queue is full; increase execution.kb_queue_capacity for a new run".
Definition owner_exited : exn := RuntimeError "KB owner exited; reconcile and resume the same attempt".
Definition owner_closing : exn := RuntimeError "KB owner is closing".
Definition is_close (o : operation) : bool := match o with Close => true | _ => false end.

(** The block of [submit] under the lock. *)
Definition accept (o : operation) (w : owner) : owner :=
  let i := S (sequence w) in
  Owner (capacity w) (futures w ++ [i]) i (error w) (closing w || is_close o) (outbox w ++ [Job i o]) (pipe w) (answers w) (the_reader w) (the_sender w) (the_child w) (threads w).
(** [submit], by blocks. *)
Definition submit (t : thread) (w : owner) : owner * thread :=
  match t with
  | Calling o => match capacity w with 0%nat => (w, Raised queue_full) | S n => (set_capacity n w, Entered o) end
  | Entered o =>
      if error w then (release w, Raised owner_exited)
      else if closing w then (release w, Raised owner_closing)
      else (accept o w, Accepted (S (sequence w)))
  | _ => (w, t)
  end.

Definition child_down (w : owner) : bool := match child_phase (the_child w) with Up => false | _ => true end.

(** [_receive], by blocks; an empty pipe without a child ends in [_fail]. *)
Definition receive (w : owner) : owner :=
  match the_reader w with
  | Receiving =>
      match replies (the_child w) with
      | (i, a) :: rest =>
          let c := the_child w in
          let w := set_child (Child (inbox c) (pending c) (busy c) (stopping c) (writing c) rest (child_phase c) (started c)) w in
          if bool_decide (i ∈ futures w) then set_reader (Popped i a) (set_futures (filter (λ k, k ≠ i) (futures w)) w) else w
      | [] => if child_down w then set_reader (Reader_failing (futures w)) (set_error w) else w
      end
  | Popped i a => set_reader (Released i a) (release w)
  | Released i a => set_reader Receiving (set_answer (i, a) w)
  | Reader_failing (i :: l) => set_reader (Reader_released i l) (release w)
  | Reader_released i l => set_reader (Reader_failing l) (set_answer (i, Exited) w)
  | Reader_failing [] => set_reader Reader_done w
  | Reader_done => w
  end.

(** [_send], by blocks; a pipe without a child ends in [_fail]. *)
Definition send_request (w : owner) : owner :=
  match the_sender w with
  | Sending =>
      match outbox w with
      | j :: rest =>
          if child_down w then set_sender (Sender_failing (futures w)) (set_error (set_queues rest (pipe w) w))
          else set_sender (if is_close (op j) then Sender_done else Sending) (set_queues rest (pipe w ++ [j]) w)
      | [] => w
      end
  | Sender_failing (i :: l) => set_sender (Sender_released i l) (release w)
  | Sender_released i l => set_sender (Sender_failing l) (set_answer (i, Exited) w)
  | Sender_failing [] => set_sender Sender_done w
  | Sender_done => w
  end.

(** The thread [receive] of the child takes a request from the pipe. *)
Definition child_receives (w : owner) : owner :=
  match pipe w with
  | j :: rest => if child_down w then w else set_queues (outbox w) rest (set_child (set_inbox (inbox (the_child w) ++ [Request j]) (the_child w)) w)
  | [] => w
  end.

Inductive event := Call (o : operation) | Step (k : nat) | Send | Receive | Child_receives | Iterate (r : result) | Written (failed : bool) | Die.
Definition step (w : owner) (ev : event) : owner :=
  match ev with
  | Call o => set_threads (threads w ++ [Calling o]) w
  | Step k => match threads w !! k with
              | Some t => let '(w', t') := submit t w in set_threads (<[k := t']> (threads w)) w'
              | None => w
              end
  | Send => send_request w
  | Receive => receive w
  | Child_receives => child_receives w
  | Iterate r => set_child (iterate r (the_child w)) w
  | Written failed => set_child (written failed (the_child w)) w
  | Die => set_child (match child_phase (the_child w) with Up => set_phase Dead (the_child w) | _ => the_child w end) w
  end.
Definition run_from (w : owner) (l : list event) : owner := foldl step w l.
Definition run (limit : nat) (l : list event) : owner := run_from (owner_init limit) l.

(** ** The worker's books *)

Definition reader_held (r : reader) : list nat :=
  match r with Popped i _ | Released i _ => [i] | Reader_failing l => l | Reader_released i l => i :: l | Receiving | Reader_done => [] end.
Definition sender_held (r : sender) : list nat :=
  match r with Sender_failing l => l | Sender_released i l => i :: l | Sending | Sender_done => [] end.
(** Futures that were taken out of [futures] and are not set yet; those among them
    whose place in the semaphore is not given back. *)
Definition held (w : owner) : list nat := reader_held (the_reader w) ++ sender_held (the_sender w).
Definition unreleased (w : owner) : nat :=
  (match the_reader w with Popped _ _ => 1 | Reader_failing l | Reader_released _ l => length l | _ => 0 end +
   match the_sender w with Sender_failing l | Sender_released _ l => length l | _ => 0 end)%nat.
Definition is_admitted (t : thread) : bool := match t with Entered _ => true | _ => false end.
Definition admitted (l : list thread) : nat := length (filter (λ t, is_admitted t = true) l).
#[global] Arguments admitted : simpl never.

Definition reader_ended (r : reader) : bool := match r with Reader_failing _ | Reader_released _ _ | Reader_done => true | _ => false end.

Record books (limit : nat) (w : owner) : Prop := Books {
  b_futures : futures w ++ held w ++ (answers w).*1 ≡ₚ seq 1 (sequence w);
  b_capacity : (capacity w + length (futures w) + unreleased w + admitted (threads w) = limit)%nat;
  b_error : error w = true → futures w = [];
  b_ended : reader_ended (the_reader w) = true → error w = true }.

Lemma admitted_app l1 l2 : admitted (l1 ++ l2) = (admitted l1 + admitted l2)%nat.
Proof. unfold admitted. by rewrite filter_app, length_app. Qed.
Lemma admitted_cons t l : admitted (t :: l) = ((if is_admitted t then 1 else 0) + admitted l)%nat.
Proof. unfold admitted. rewrite filter_cons. destruct (is_admitted t); [by rewrite decide_True|by rewrite decide_False]. Qed.
Lemma admitted_insert k t t' l : l !! k = Some t → (admitted (<[k := t']> l) + (if is_admitted t then 1 else 0) = admitted l + (if is_admitted t' then 1 else 0))%nat.
Proof.
  intros E. apply list_elem_of_split_length in E as (l1 & l2 & -> & ->). rewrite insert_app_r_alt, Nat.sub_diag by done. cbn [insert list_insert].
  rewrite !admitted_app, !admitted_cons. lia.
Qed.
Lemma NoDup_take_out i (l : list nat) : NoDup l → i ∈ l → l ≡ₚ i :: filter (λ k, k ≠ i) l.
Proof.
  intros Hl Hi. apply NoDup_Permutation; [done|constructor; [|by apply NoDup_filter]|].
  - rewrite list_elem_of_filter. naive_solver.
  - intros k. rewrite elem_of_cons, list_elem_of_filter. destruct (decide (k = i)) as [->|]; naive_solver.
Qed.
Lemma books_nodup limit w : books limit w → NoDup (futures w) ∧ NoDup (held w) ∧ NoDup (answers w).*1.
Proof. intros [H _ _ _]. assert (NoDup (futures w ++ held w ++ (answers w).*1)) as Hn by (rewrite H; apply NoDup_seq). apply NoDup_app in Hn as (? & _ & (? & _ & ?)%NoDup_app). done. Qed.

(** What leaves the books as they are. *)
Lemma books_child limit c w : books limit w → books limit (set_child c w).
Proof. intros []. by split. Qed.
Lemma books_queues limit o p w : books limit w → books limit (set_queues o p w).
Proof. intros []. by split. Qed.

Lemma receive_books limit w : books limit w → books limit (receive w).
Proof.
  intros H. pose proof (books_nodup _ _ H) as (Hn & _ & _). destruct H as [Hp Hc He Hd]. unfold receive, held, unreleased in *.
  destruct (the_reader w) as [|i a|i a|[|i l]|i l|] eqn:Er; cbn in *.
  - destruct (replies (the_child w)) as [|[i a] rest].
    + destruct (child_down w); [|by split; unfold held, unreleased; rewrite ?Er]. split; unfold held, unreleased; cbn; [|lia|done|done].
      rewrite <- Hp. solve_Permutation.
    + case_bool_decide as Hi; [|by split; unfold held, unreleased; cbn; rewrite ?Er]. cbn in *. pose proof (NoDup_take_out i _ Hn Hi) as Hi'. split; unfold held, unreleased; cbn.
      * rewrite <- Hp. rewrite Hi' at 2. solve_Permutation.
      * pose proof (Permutation_length Hi') as Hl. cbn in Hl. lia.
      * intros E. by rewrite (He E).
      * done.
  - split; unfold held, unreleased; cbn; [done|lia|done|done].
  - split; unfold held, unreleased; cbn; [|done|done|done]. rewrite <- Hp, fmap_app. cbn. solve_Permutation.
  - split; unfold held, unreleased; cbn; [done|lia|done|done].
  - split; unfold held, unreleased; cbn; [done|lia|done|done].
  - split; unfold held, unreleased; cbn; [|done|done|done]. rewrite <- Hp, fmap_app. cbn. solve_Permutation.
  - split; unfold held, unreleased; rewrite ?Er; cbn; [done|lia|done|done].
Qed.
Lemma send_books limit w : books limit w → books limit (send_request w).
Proof.
  intros [Hp Hc He Hd]. unfold send_request, held, unreleased in *. destruct (the_sender w) as [|[|i l]|i l|] eqn:Er; cbn in *.
  - destruct (outbox w) as [|j rest]; [by split; unfold held, unreleased; rewrite ?Er|]. destruct (child_down w).
    + split; unfold held, unreleased; cbn; [|lia|done|done]. rewrite <- Hp. solve_Permutation.
    + destruct (is_close (op j)); split; unfold held, unreleased; cbn; rewrite ?Er; done.
  - split; unfold held, unreleased; cbn; [done|lia|done|done].
  - split; unfold held, unreleased; cbn; [done|lia|done|done].
  - split; unfold held, unreleased; cbn; [|done|done|done]. rewrite <- Hp, fmap_app. cbn. solve_Permutation.
  - split; unfold held, unreleased; rewrite ?Er; cbn; [done|lia|done|done].
Qed.
Lemma submit_books limit w k t : books limit w → threads w !! k = Some t →
  let '(w', t') := submit t w in books limit (set_threads (<[k := t']> (threads w)) w').
Proof.
  intros H Hk. pose proof (λ t', admitted_insert k t t' _ Hk) as Ha. destruct H as [Hp Hc He Hd].
  destruct t as [o|o|i|e]; cbn in *.
  - destruct (capacity w) as [|n] eqn:Ec; (split; [done|cbn; unfold unreleased in *; cbn|done|done]).
    + specialize (Ha (Raised queue_full)). cbn in Ha. lia.
    + specialize (Ha (Entered o)). cbn in Ha. lia.
  - destruct (error w) eqn:Ee; [|destruct (closing w)].
    + split; [done| |by intros _; apply He|by intros _]. cbn. unfold unreleased in *. cbn. specialize (Ha (Raised owner_exited)). cbn in Ha. lia.
    + split; [done| |cbn; congruence|cbn; rewrite Ee; done]. cbn. unfold unreleased in *. cbn. specialize (Ha (Raised owner_closing)). cbn in Ha. lia.
    + split; cbn; rewrite ?Ee; [| |done|done].
      * change (1%nat :: seq 2 (sequence w)) with (seq 1 (S (sequence w))). rewrite seq_S, <- Hp. unfold held. cbn. solve_Permutation.
      * unfold unreleased in *. cbn. rewrite length_app. specialize (Ha (Accepted (S (sequence w)))). cbn in *. lia.
  - split; [done| |done|done]. cbn. specialize (Ha (Accepted i)). cbn in Ha. unfold unreleased in *. cbn. lia.
  - split; [done| |done|done]. cbn. specialize (Ha (Raised e)). cbn in Ha. unfold unreleased in *. cbn. lia.
Qed.
Lemma step_books limit w ev : books limit w → books limit (step w ev).
Proof.
  intros H. destruct ev as [o|k| | | |r|f|]; cbn [step].
  - destruct H. split; [done| |done|done]. cbn. rewrite admitted_app. change (admitted [Calling o]) with 0%nat. unfold unreleased in *. cbn in *. lia.
  - destruct (threads w !! k) as [t|] eqn:Hk; [|done]. pose proof (submit_books limit w k t H Hk) as Hs. by destruct (submit t w).
  - by apply send_books.
  - by apply receive_books.
  - unfold child_receives. destruct (pipe w); [done|]. destruct (child_down w); [done|]. by apply books_queues, books_child.
  - by apply books_child.
  - by apply books_child.
  - by apply books_child.
Qed.
Lemma init_books limit : books limit (owner_init limit).
Proof. split; cbn; [done| |done|done]. unfold unreleased. change (admitted []) with 0%nat. cbn. lia. Qed.
Lemma run_books limit l w : books limit w → books limit (run_from w l).
Proof. revert w. induction l as [|ev l IH]; intros w Hw; cbn; [done|]. by apply IH, step_books. Qed.

(** ** The jobs of a session *)

Definition jobs_of (s : string) (l : list job) : list job := filter (λ j, session_of j = Some s) l.
Definition requests (l : list message) : list job := omap (λ m, match m with Request j => Some j | _ => None end) l.
Definition continuations (l : list message) : list job := omap (λ m, match m with Continuation j => Some j | _ => None end) l.
Definition commits (l : list message) : list job := omap (λ m, match m with Commit j _ => Some j | _ => None end) l.
#[global] Arguments jobs_of : simpl never.
#[global] Arguments requests : simpl never.
#[global] Arguments continuations : simpl never.
#[global] Arguments commits : simpl never.
Definition slot (s : string) (j : job) : nat := if decide (session_of j = Some s) then 1 else 0.

(** The jobs of session [s] that are begun, then those that are not, in the order in
    which they will be; [T] is what has not reached the child. *)
Definition line (s : string) (c : child) (T : list job) : list job :=
  jobs_of s (started c) ++ jobs_of s (continuations (inbox c)) ++ waiting s c ++ jobs_of s (requests (inbox c)) ++ jobs_of s T.
(** [k] of the session's jobs run at the moment, the numbers are at most [n]. *)
Record lane (s : string) (k : nat) (c : child) (T : list job) (n : nat) : Prop := Lane {
  l_sorted : StronglySorted lt (ident <$> line s c T);
  l_bound : Forall (λ j, ident j <= n)%nat (line s c T);
  l_open : (length (jobs_of s (writing c)) + length (jobs_of s (commits (inbox c))) + length (jobs_of s (continuations (inbox c))) + k <= if bool_decide (s ∈ busy c) then 1 else 0)%nat;
  l_idle : s ∉ busy c → waiting s c = [];
  l_own : Forall (λ j, session_of j = Some s) (waiting s c) }.

Lemma jobs_of_app s l1 l2 : jobs_of s (l1 ++ l2) = jobs_of s l1 ++ jobs_of s l2.
Proof. apply filter_app. Qed.
Lemma jobs_of_cons s j l : jobs_of s (j :: l) = (if decide (session_of j = Some s) then [j] else []) ++ jobs_of s l.
Proof. unfold jobs_of. rewrite filter_cons. by destruct (decide _). Qed.
Lemma jobs_of_nil s : jobs_of s [] = [].
Proof. done. Qed.
Lemma requests_app l1 l2 : requests (l1 ++ l2) = requests l1 ++ requests l2.
Proof. apply omap_app. Qed.
Lemma continuations_app l1 l2 : continuations (l1 ++ l2) = continuations l1 ++ continuations l2.
Proof. apply omap_app. Qed.
Lemma commits_app l1 l2 : commits (l1 ++ l2) = commits l1 ++ commits l2.
Proof. apply omap_app. Qed.
Lemma requests_cons m l : requests (m :: l) = (match m with Request j => [j] | _ => [] end) ++ requests l.
Proof. by destruct m. Qed.
Lemma continuations_cons m l : continuations (m :: l) = (match m with Continuation j => [j] | _ => [] end) ++ continuations l.
Proof. by destruct m. Qed.
Lemma commits_cons m l : commits (m :: l) = (match m with Commit j _ => [j] | _ => [] end) ++ commits l.
Proof. by destruct m. Qed.
#[local] Hint Rewrite jobs_of_app jobs_of_cons jobs_of_nil requests_app continuations_app commits_app requests_cons continuations_cons commits_cons app_nil_r : lanes.

Lemma waiting_insert s s' l c c' : pending c' = <[s' := l]> (pending c) → waiting s c' = if decide (s' = s) then l else waiting s c.
Proof. unfold waiting. intros ->. destruct (decide (s' = s)) as [->|]; [by rewrite lookup_insert_eq|by rewrite lookup_insert_ne]. Qed.

(** A lane is decided by its line and its counts. *)
Lemma lane_line s k k' c c' T T' n n' : line s c' T' = line s c T → (n <= n')%nat →
  (length (jobs_of s (writing c)) + length (jobs_of s (commits (inbox c))) + length (jobs_of s (continuations (inbox c))) + k <= (if bool_decide (s ∈ busy c) then 1 else 0) →
   length (jobs_of s (writing c')) + length (jobs_of s (commits (inbox c'))) + length (jobs_of s (continuations (inbox c'))) + k' <= (if bool_decide (s ∈ busy c') then 1 else 0))%nat →
  (s ∉ busy c' → waiting s c' = []) → Forall (λ j, session_of j = Some s) (waiting s c') → lane s k c T n → lane s k' c' T' n'.
Proof.
  intros Hl Hn Ho Hi Hw []. split; rewrite ?Hl; try done; [|auto]. eapply Forall_impl; [done|]. cbn. lia.
Qed.

(** The change from [c] to [c'] is none of session [s]. *)
Record elsewhere (s : string) (c c' : child) : Prop := {
  e_started : jobs_of s (started c') = jobs_of s (started c); e_continuations : jobs_of s (continuations (inbox c')) = jobs_of s (continuations (inbox c));
  e_waiting : waiting s c' = waiting s c; e_requests : jobs_of s (requests (inbox c')) = jobs_of s (requests (inbox c));
  e_writing : jobs_of s (writing c') = jobs_of s (writing c); e_commits : jobs_of s (commits (inbox c')) = jobs_of s (commits (inbox c));
  e_busy : s ∈ busy c' ↔ s ∈ busy c }.
Lemma lane_elsewhere s k c c' T n : elsewhere s c c' → lane s k c T n → lane s k c' T n.
Proof.
  intros [] []. split; unfold line in *; rewrite ?e_started0, ?e_continuations0, ?e_waiting0, ?e_requests0, ?e_writing0, ?e_commits0; try done.
  - by rewrite (bool_decide_ext _ (s ∈ busy c)).
  - by rewrite e_busy0.
Qed.
Lemma reply_elsewhere s j a c : session_of j ≠ Some s → (∀ s', session_of j = Some s' → Forall (λ j, session_of j = Some s') (waiting s' c)) → elsewhere s c (reply j a c).
Proof.
  intros Hj Hw. unfold reply. destruct (session_of j) as [s'|] eqn:Ej; [|done]. change (waiting s' (send _ c)) with (waiting s' c). assert (s' ≠ s) as Hs by congruence.
  specialize (Hw s' eq_refl). destruct (waiting s' c) as [|next rest] eqn:Ew; [split; cbn; try done; set_solver|].
  apply Forall_cons in Hw as [Hn _]. split; cbn; try done; autorewrite with lanes; rewrite ?Hn; rewrite ?decide_False by congruence; rewrite ?app_nil_r; try done.
  unfold waiting. cbn. by rewrite lookup_insert_ne.
Qed.
Lemma reply_lane s j a c T n : session_of j = Some s → lane s 1 c T n → lane s 0 (reply j a c) T n.
Proof.
  intros Hj H. pose proof (l_open _ _ _ _ _ H) as Ho. pose proof (l_own _ _ _ _ _ H) as Hw. unfold reply. rewrite Hj. change (waiting s (send _ c)) with (waiting s c).
  destruct (waiting s c) as [|next rest] eqn:Ew.
  - eapply lane_line, H; cbn; [done|done| |done|change (Forall (λ j, session_of j = Some s) (waiting s c)); by rewrite Ew].
    intros _. destruct (bool_decide _); lia.
  - apply Forall_cons in Hw as [Hn Hw]. eapply lane_line, H; [|done| | |].
    + unfold line. cbn. autorewrite with lanes. rewrite (waiting_insert s s rest c) by done. rewrite !decide_True, Ew by done. by rewrite <- !app_assoc.
    + cbn. autorewrite with lanes. rewrite decide_True, length_app by done. cbn. lia.
    + intros Hb. cbn in Hb. rewrite bool_decide_false in Ho by done. lia.
    + rewrite (waiting_insert s s rest c) by done. by rewrite decide_True.
Qed.
Lemma finish_lane s g j r c T n : (∀ s', lane s' (slot s' j) c T n) → lane s 0 (finish g j r c) T n.
Proof.
  intros H. assert (∀ a, lane s 0 (reply j a c) T n) as Hr.
  { intros a. specialize (H s) as Hs. unfold slot in Hs. destruct (decide (session_of j = Some s)) as [E|E]; [by apply reply_lane|].
    eapply lane_elsewhere, Hs. apply reply_elsewhere; [done|]. intros s' Hs'. by destruct (H s'). }
  assert (∀ p, lane s 0 (set_phase p c) T n) as Hp by (intros p; eapply lane_line, H; try done; [cbn; lia|by destruct (H s)..]).
  destruct r; [apply Hr|destruct g; [apply Hr|apply Hp]|apply Hr|]. destruct j as [i [| |s'|s']]; [apply Hr..|]. specialize (H s). unfold slot in H. cbn in H.
  assert (session_of (Job i (Transaction s')) = Some s') as Ej by done.
  destruct (decide (Some s' = Some s)) as [[= ->]|E]; (eapply lane_line, H; [done|done| |by destruct H..]); cbn; autorewrite with lanes; rewrite Ej.
  - rewrite decide_True, length_app by done. cbn. lia.
  - rewrite decide_False, app_nil_r by done. lia.
Qed.
Lemma take_up_lane j r c T n s : (∀ s', lane s' (slot s' j) (start j c) T n) → lane s 0 (take_up j r c) T n.
Proof. apply finish_lane. Qed.
Definition lanes (c : child) (T : list job) (n : nat) : Prop := ∀ s, lane s 0 c T n.
(** A job taken off the inbox, which is the next of its session, begins. *)
Lemma start_lane s j m rest c c' T n : inbox c = m :: rest → lane s 0 c T n →
  inbox c' = rest → pending c' = pending c → writing c' = writing c → started c' = started c ++ [j] →
  (busy c' = busy c ∨ ∃ s', session_of j = Some s' ∧ busy c' = {[s']} ∪ busy c) →
  match m with
  | Request j' => j' = j ∧ (∀ s, session_of j = Some s → s ∉ busy c ∧ s ∈ busy c')
  | Continuation j' => j' = j
  | Commit _ _ => False
  end → lane s (slot s j) c' T n.
Proof.
  intros Hin H Hi Hp Hwr Hst Hb Hm. pose proof (l_open _ _ _ _ _ H) as Ho. pose proof (l_idle _ _ _ _ _ H) as Hidle. pose proof (l_own _ _ _ _ _ H) as Hown.
  assert (waiting s c' = waiting s c) as Hw by (unfold waiting; by rewrite Hp).
  assert (s ∈ busy c → s ∈ busy c') as Hbs by (destruct Hb as [->|(? & _ & ->)]; set_solver).
  rewrite Hin in Ho. autorewrite with lanes in Ho. unfold slot.
  assert (s ∉ busy c' → waiting s c' = []) as Hidle' by (rewrite Hw; auto).
  destruct (decide (session_of j = Some s)) as [E|E].
  - destruct m as [j'|j'|? ?]; [destruct Hm as [-> Hm]; destruct (Hm s E) as [Hn Hy]; rewrite (bool_decide_false (s ∈ busy c)) in Ho by done|subst j'|done].
    + assert (jobs_of s (continuations rest) = []) as Hc by (apply nil_length_inv; autorewrite with lanes in Ho; cbn in Ho; lia).
      eapply lane_line, H; [|done| |done|by rewrite Hw].
      * unfold line. rewrite Hi, Hw, Hst, Hin. autorewrite with lanes. rewrite decide_True by done. rewrite Hc, (Hidle Hn). cbn. by rewrite <- app_assoc.
      * intros _. rewrite Hi, Hwr, (bool_decide_true (s ∈ busy c')) by done. rewrite Hc. autorewrite with lanes in Ho. cbn in Ho. cbn. lia.
    + autorewrite with lanes in Ho. rewrite decide_True in Ho by done. cbn in Ho. destruct (bool_decide (s ∈ busy c)) eqn:Eb; [|lia]. apply bool_decide_eq_true in Eb.
      eapply lane_line, H; [|done| |done|by rewrite Hw].
      * unfold line. rewrite Hi, Hw, Hst, Hin. autorewrite with lanes. rewrite decide_True by done. by rewrite <- !app_assoc.
      * intros _. rewrite Hi, Hwr, (bool_decide_true (s ∈ busy c')) by auto. lia.
  - eapply lane_elsewhere, H. split; rewrite ?Hi, ?Hst, ?Hwr, ?Hin; autorewrite with lanes; try done.
    + by rewrite decide_False, app_nil_r by done.
    + destruct m as [| |]; autorewrite with lanes; [done|subst; by rewrite decide_False by done|done].
    + destruct m as [| |]; autorewrite with lanes; [destruct Hm as [-> _]; by rewrite decide_False by done|done|done].
    + destruct m; [done|done|done].
    + destruct Hb as [->|(s' & Hs' & ->)]; [done|]. assert (s' ≠ s) by congruence. set_solver.
Qed.
(** A request of a busy session waits. *)
Lemma queue_lane s s' j rest c T n : inbox c = Request j :: rest → session_of j = Some s' → s' ∈ busy c → lane s 0 c T n →
  lane s 0 (set_pending (<[s' := waiting s' c ++ [j]]> (pending c)) (set_inbox rest c)) T n.
Proof.
  intros Hin Hj Hb H. pose proof (l_own _ _ _ _ _ H) as Hown. set (c' := set_pending _ _).
  assert (waiting s c' = if decide (s' = s) then waiting s' c ++ [j] else waiting s c) as Hw by by apply waiting_insert.
  destruct (decide (s' = s)) as [->|Hs].
  - eapply lane_line, H; [|done| | |].
    + unfold line. rewrite Hw, Hin. cbn. autorewrite with lanes. rewrite decide_True by done. by rewrite <- !app_assoc.
    + rewrite Hin. cbn. by autorewrite with lanes.
    + done.
    + rewrite Hw. apply Forall_app. by split; [|constructor].
  - eapply lane_elsewhere, H. split; cbn; rewrite ?Hin; autorewrite with lanes; try done. by rewrite decide_False by congruence.
Qed.
Lemma handle_lanes r m rest c T n : inbox c = m :: rest → lanes c T n → lanes (handle_message r m (set_inbox rest c)) T n.
Proof.
  intros Hin H s. destruct m as [j|j|j f]; cbn [handle_message].
  - assert (∀ c', inbox c' = rest → pending c' = pending c → writing c' = writing c → started c' = started c ++ [j] → busy c' = busy c → session_of j = None → ∀ s', lane s' (slot s' j) c' T n) as Hnone.
    { intros c' ? ? ? ? ? Hj s'. eapply (start_lane s' j); [done|apply H|done..|by left|split; [done|congruence]]. }
    assert (∀ s', session_of j = Some s' → lane s 0 (if bool_decide (s' ∈ busy c) then set_pending (<[s' := waiting s' c ++ [j]]> (pending c)) (set_inbox rest c)
      else take_up j r (set_busy ({[s']} ∪ busy c) (set_inbox rest c))) T n) as Hsess.
    { intros s' Hj. case_bool_decide as Hb; [by apply (queue_lane s s')|]. apply take_up_lane. intros s0.
      eapply (start_lane s0 j); [done|apply H|done..|right; by exists s'|]. split; [done|]. rewrite Hj. intros ? [= <-]. cbn. set_solver. }
    unfold session_of in Hnone, Hsess |- *. destruct (op j) as [| |s'|s'] eqn:Eo.
    + eapply lane_elsewhere, (H s). unfold set_stopping. split; try done; cbn; rewrite Hin; autorewrite with lanes; try done. unfold session_of. by rewrite Eo.
    + apply take_up_lane. intros s0. by apply Hnone.
    + by apply Hsess.
    + by apply Hsess.
  - apply take_up_lane. intros s'. eapply start_lane; [done|apply H|done..|by left|done].
  - apply finish_lane. intros s'. specialize (H s'). eapply lane_line, H; [|done| |by apply H..].
    + unfold line. cbn. rewrite Hin. by autorewrite with lanes.
    + rewrite Hin. autorewrite with lanes. cbn. unfold slot. destruct (decide _); cbn; lia.
Qed.

(** ** The requests of the whole *)

Lemma StronglySorted_sub {A} (R : A → A → Prop) l1 l2 : sublist l1 l2 → StronglySorted R l2 → StronglySorted R l1.
Proof.
  induction 1 as [|x l1 l2 H IH|x l1 l2 H IH]; intros Hs; [done| |]; apply StronglySorted_inv in Hs as [Hs Hx]; [|auto].
  constructor; [auto|]. apply Forall_forall. intros y Hy. rewrite Forall_forall in Hx. apply Hx. by eapply elem_of_sublist.
Qed.
Lemma jobs_of_sub s l1 l2 : sublist l1 l2 → sublist (jobs_of s l1) (jobs_of s l2).
Proof. induction 1; rewrite ?jobs_of_cons; [done|by apply sublist_app|by apply sublist_inserts_l]. Qed.
Lemma lane_sub s k c T T' n : sublist T' T → lane s k c T n → lane s k c T' n.
Proof.
  intros HT []. assert (sublist (line s c T') (line s c T)) as Hl by (unfold line; repeat apply sublist_app; try done; by apply jobs_of_sub).
  split; try done; [eapply StronglySorted_sub, l_sorted0; by apply fmap_sublist|]. apply Forall_forall. intros j Hj. rewrite Forall_forall in l_bound0. apply l_bound0.
  by eapply elem_of_sublist.
Qed.
Lemma lane_accept s k c T n o : lane s k c T n → lane s k c (T ++ [Job (S n) o]) (S n).
Proof.
  intros H. destruct (decide (session_of (Job (S n) o) = Some s)) as [E|E].
  2: { eapply lane_line, H; [|lia|done|apply H|apply H]. unfold line. autorewrite with lanes. by rewrite decide_False, app_nil_r by done. }
  assert (line s c (T ++ [Job (S n) o]) = line s c T ++ [Job (S n) o]) as Hl.
  { unfold line. autorewrite with lanes. rewrite decide_True by done. by rewrite <- !app_assoc. }
  destruct H. split; rewrite ?Hl; try done.
  - rewrite fmap_app. apply StronglySorted_app_2; [|done|cbn; by repeat constructor]. intros x y (j & -> & Hj)%list_elem_of_fmap. cbn. rewrite list_elem_of_singleton. intros ->.
    rewrite Forall_forall in l_bound0. specialize (l_bound0 _ Hj). cbn. lia.
  - apply Forall_app. split; [eapply Forall_impl; [done|]; cbn; lia|by repeat constructor].
Qed.

(** A job is in the child, or its reply is under way. *)
Definition has (c : child) (k : job) : Prop :=
  k ∈ requests (inbox c) ∨ k ∈ continuations (inbox c) ∨ k ∈ commits (inbox c) ∨ k ∈ writing c ∨ (∃ s, k ∈ waiting s c) ∨ stopping c = Some k.
Definition owes (c : child) (k : job) : Prop := has c k ∨ ident k ∈ (replies c).*1.

Lemma reply_owes j a c k : owes c k ∨ k = j → owes (reply j a c) k.
Proof.
  intros H. assert (ident k ∈ (replies (send (ident j, a) c)).*1 ∨ has c k) as [Hr|Hh].
  { assert ((replies (send (ident j, a) c)).*1 = (replies c).*1 ++ [ident j]) as -> by (cbn; by rewrite fmap_app). rewrite elem_of_app, list_elem_of_singleton. destruct H as [[H|H]| ->]; auto. }
  - right. unfold reply. destruct (session_of j); [|done]. by destruct (waiting _ _).
  - unfold reply. destruct (session_of j) as [s|]; [|by left]. change (waiting s (send _ c)) with (waiting s c). destruct (waiting s c) as [|next rest] eqn:Ew; [by left|].
    left. unfold has in *. cbn. rewrite requests_app, continuations_app, commits_app, !elem_of_app. destruct Hh as [H'|[H'|[H'|[H'|[[s' Hs']|H']]]]]; [tauto..| |tauto].
    set (c' := set_inbox _ _). assert (waiting s' c' = if decide (s = s') then rest else waiting s' c) as Hw by by apply waiting_insert.
    destruct (decide (s = s')) as [<-|]; [|right; right; right; right; left; exists s'; by rewrite Hw].
    rewrite Ew, elem_of_cons in Hs'. destruct Hs' as [->|Hs']; [|right; right; right; right; left; exists s; by rewrite Hw]. right. left. right. apply list_elem_of_here.
Qed.
Lemma finish_owes g j r c k : owes c k ∨ k = j → owes (finish g j r c) k ∨ child_phase (finish g j r c) = Dead.
Proof.
  intros H. destruct r; [left; by apply reply_owes|destruct g; [left; by apply reply_owes|by right]|left; by apply reply_owes|].
  unfold finish. destruct (op j); [left; by apply reply_owes..|]. left. unfold owes, has in *. cbn. rewrite elem_of_app, list_elem_of_singleton. naive_solver.
Qed.
Lemma handle_owes r m rest c k : inbox c = m :: rest → (stopping c ≠ None → requests (inbox c) = []) → owes c k →
  owes (handle_message r m (set_inbox rest c)) k ∨ child_phase (handle_message r m (set_inbox rest c)) = Dead.
Proof.
  intros Hin Hst H. set (c1 := set_inbox rest c). assert (owes c1 k ∨ k = match m with Request j | Continuation j | Commit j _ => j end) as H1.
  { destruct H as [H|H]; [|by left; right]. unfold has in H. rewrite Hin, requests_cons, continuations_cons, commits_cons, !elem_of_app in H.
    unfold owes, has. cbn. destruct m; rewrite ?list_elem_of_singleton, ?elem_of_nil in H; naive_solver. }
  destruct m as [j|j|j f]; cbn [handle_message]; [|by apply finish_owes..].
  assert (stopping c1 = None) as Hnone.
  { cbn. destruct (stopping c); [|done]. rewrite Hin, requests_cons in Hst. by discriminate Hst. }
  clearbody c1. assert (owes (set_stopping j c1) k) as Hclose.
  { unfold owes, has in *. cbn. rewrite Hnone in H1. naive_solver. }
  assert (∀ s, session_of j = Some s → owes (if bool_decide (s ∈ busy c1) then set_pending (<[s := waiting s c1 ++ [j]]> (pending c1)) c1 else take_up j r (set_busy ({[s]} ∪ busy c1) c1)) k ∨
    child_phase (if bool_decide (s ∈ busy c1) then set_pending (<[s := waiting s c1 ++ [j]]> (pending c1)) c1 else take_up j r (set_busy ({[s]} ∪ busy c1) c1)) = Dead) as Hs.
  { intros s _. case_bool_decide; [left|by apply finish_owes]. set (c' := set_pending _ _).
    assert (∀ s', waiting s' c' = if decide (s = s') then waiting s c1 ++ [j] else waiting s' c1) as Hw by (intros s'; by apply waiting_insert).
    assert (k ∈ waiting s c1 ++ [j] → owes c' k) as Hk by (intros Hk; left; right; right; right; right; left; exists s; by rewrite Hw, decide_True).
    rewrite elem_of_app, list_elem_of_singleton in Hk. destruct H1 as [[H1|H1]|H1]; [|by right|by auto].
    destruct H1 as [H1|[H1|[H1|[H1|[[s' Hs']|H1]]]]]; try (left; unfold has; cbn; tauto).
    destruct (decide (s = s')) as [->|Hne]; [auto|]. left. right. right. right. right. left. exists s'. by rewrite Hw, decide_False. }
  unfold session_of in Hs |- *. destruct (op j); [by left|by apply finish_owes|by apply Hs..].
Qed.

(** What taking up a message leaves alone. *)
Definition real (l : list (nat * answer)) : Prop := Forall (λ x, x.2 ≠ Exited) l.
Definition sessional (c : child) : Prop := Forall (λ j, is_Some (session_of j)) (writing c ++ commits (inbox c) ++ continuations (inbox c)).
Record modest (c c' : child) : Prop := {
  m_requests : requests (inbox c') = requests (inbox c); m_stopping : stopping c' = stopping c;
  m_phase : child_phase c' = child_phase c ∨ child_phase c' = Dead; m_real : real (replies c) → real (replies c');
  m_sessional : sessional c → sessional c' }.
Lemma reply_modest j a c : a ≠ Exited → (∀ s, Forall (λ j, session_of j = Some s) (waiting s c)) → modest c (reply j a c).
Proof.
  intros Ha Hw. assert (real (replies c) → real (replies c ++ [(ident j, a)])) as Hr by (intros Hr; apply Forall_app; split; [done|by constructor]).
  unfold reply. destruct (session_of j) as [s|]; [|split; try done; by left]. change (waiting s (send _ c)) with (waiting s c). specialize (Hw s).
  destruct (waiting s c) as [|next rest]; [split; try done; by left|]. apply Forall_cons in Hw as [Hn _].
  split; [|done|by left|done|]; unfold sessional; cbn; autorewrite with lanes; [done|]. intros Hs. rewrite !Forall_app in *.
  destruct Hs as (? & ? & ?). split_and!; [done..|]. constructor; [by eexists|constructor].
Qed.
Lemma finish_modest g j r c : (∀ s, Forall (λ j, session_of j = Some s) (waiting s c)) → modest c (finish g j r c).
Proof.
  intros Hw. destruct r; [by apply reply_modest|destruct g; [by apply reply_modest|]|by apply reply_modest|].
  - split; try done. by right.
  - unfold finish. destruct j as [i [| |s|s]]; cbn [op]; [by apply reply_modest..|]. split; try done; [by left|]. unfold sessional. cbn. intros H. rewrite <- app_assoc. rewrite !Forall_app in *.
    destruct H as (? & ? & ?). split_and!; [done|by repeat constructor|done|done].
Qed.
Lemma take_up_modest j r c : (∀ s, Forall (λ j, session_of j = Some s) (waiting s c)) → modest c (take_up j r c).
Proof. intros Hw. by destruct (finish_modest true j r (start j c) Hw). Qed.
Lemma handle_modest r m rest c : inbox c = m :: rest → (∀ s, Forall (λ j, session_of j = Some s) (waiting s c)) →
  match m with
  | Request j => op j = Close ∧ handle_message r m (set_inbox rest c) = set_stopping j (set_inbox rest c) ∨ op j ≠ Close ∧ modest (set_inbox rest c) (handle_message r m (set_inbox rest c))
  | _ => modest (set_inbox rest c) (handle_message r m (set_inbox rest c))
  end.
Proof.
  intros Hin Hw. destruct m as [j|j|j f]; [|by apply take_up_modest|by apply finish_modest]. cbn [handle_message].
  assert (∀ s, modest (set_inbox rest c) (if bool_decide (s ∈ busy (set_inbox rest c)) then set_pending (<[s := waiting s (set_inbox rest c) ++ [j]]> (pending (set_inbox rest c))) (set_inbox rest c)
    else take_up j r (set_busy ({[s]} ∪ busy (set_inbox rest c)) (set_inbox rest c)))) as Hs.
  { intros s. case_bool_decide; [split; try done; by left|].
    destruct (take_up_modest j r (set_busy ({[s]} ∪ busy (set_inbox rest c)) (set_inbox rest c)) Hw). by split. }
  unfold session_of. destruct (op j) eqn:Eo; [by left|right..]; (split; [done|]); [by apply take_up_modest|apply Hs..].
Qed.
Lemma sessional_rest m rest c : inbox c = m :: rest → sessional c → sessional (set_inbox rest c).
Proof. intros Hin. unfold sessional. rewrite Hin. autorewrite with lanes. cbn. rewrite !Forall_app. tauto. Qed.

(** The requests on their way, from the child's inbox to the outbox. *)
Definition incoming (w : owner) : list job := requests (inbox (the_child w)) ++ pipe w ++ outbox w.
Definition not_close (j : job) : Prop := is_close (op j) = false.
(** Someone will still answer request [i]. *)
Definition expected (w : owner) (i : nat) : Prop := ∃ k, ident k = i ∧ (k ∈ outbox w ∨ k ∈ pipe w ∨ has (the_child w) k).
Definition reader_fine (r : reader) : Prop := match r with Popped _ a | Released _ a => a ≠ Exited | Reader_failing (_ :: _) | Reader_released _ _ => False | _ => True end.
Definition sender_fine (r : sender) : Prop := match r with Sender_failing (_ :: _) | Sender_released _ _ => False | _ => True end.
Definition honest (w : owner) : Prop := real (replies (the_child w)) ∧ real (answers w) ∧ reader_fine (the_reader w) ∧ sender_fine (the_sender w).

Record flow (w : owner) : Prop := {
  f_lanes : lanes (the_child w) (pipe w ++ outbox w) (sequence w);
  f_session : sessional (the_child w);
  f_order : StronglySorted (λ j _, not_close j) (incoming w);
  f_open : closing w = false → Forall not_close (incoming w) ∧ stopping (the_child w) = None;
  f_stop : stopping (the_child w) ≠ None → incoming w = [];
  f_up : child_phase (the_child w) = Up → error w = false ∧ ∀ i, i ∈ futures w → expected w i ∨ i ∈ (replies (the_child w)).*1;
  f_stopped : child_phase (the_child w) = Stopped → closing w = true ∧ incoming w = [] ∧ ∀ i, i ∈ futures w → i ∈ (replies (the_child w)).*1;
  f_honest : child_phase (the_child w) ≠ Dead → honest w }.

Lemma lanes_own c T n s : lanes c T n → Forall (λ j, session_of j = Some s) (waiting s c).
Proof. intros H. apply (H s). Qed.
Lemma lanes_elsewhere c c' T n : (∀ s, elsewhere s c c') → lanes c T n → lanes c' T n.
Proof. intros He H s. by eapply lane_elsewhere. Qed.
(** A drained child has no job left but the close. *)
Lemma drained_has c T n k : lanes c T n → sessional c → drained c = true → requests (inbox c) = [] → has c k → stopping c = Some k.
Proof.
  intros Hl Hs [Hb Hp]%andb_true_iff Hr Hk. apply bool_decide_eq_true in Hb, Hp. unfold has in Hk. rewrite Hr in Hk.
  assert (k ∉ writing c ++ commits (inbox c) ++ continuations (inbox c)) as Hn.
  { intros Hin. unfold sessional in Hs. rewrite Forall_forall in Hs. destruct (Hs k Hin) as [s Ek]. pose proof (l_open _ _ _ _ _ (Hl s)) as Ho. rewrite Hb, bool_decide_false in Ho by set_solver.
    assert (jobs_of s (writing c ++ commits (inbox c) ++ continuations (inbox c)) = []) as He.
    { apply nil_length_inv. rewrite !jobs_of_app, !length_app. lia. }
    assert (k ∈ jobs_of s (writing c ++ commits (inbox c) ++ continuations (inbox c))) as Hj by (apply list_elem_of_filter; done). rewrite He in Hj. by apply elem_of_nil in Hj. }
  rewrite !not_elem_of_app in Hn. destruct Hk as [?%elem_of_nil|[?|[?|[?|[[s Hw]|?]]]]]; [done|tauto..| |done].
  unfold waiting in Hw. destruct (pending c !! s) as [l|] eqn:E; [|by apply elem_of_nil in Hw]. apply (map_Forall_lookup_1 _ _ _ _ Hp) in E. cbn in *. subst l. by apply elem_of_nil in Hw.
Qed.
Lemma expected_weaken w w' i : (∀ k, k ∈ outbox w ∨ k ∈ pipe w ∨ has (the_child w) k → k ∈ outbox w' ∨ k ∈ pipe w' ∨ has (the_child w') k) → expected w i → expected w' i.
Proof. intros H (k & Hk & Hw). exists k. auto. Qed.

Lemma StronglySorted_suffix {A} (R : A → A → Prop) l1 l2 : StronglySorted R (l1 ++ l2) → StronglySorted R l2.
Proof. by intros (_ & _ & ?)%StronglySorted_app. Qed.
Lemma handle_flow w r m rest : flow w → child_phase (the_child w) = Up → inbox (the_child w) = m :: rest →
  flow (set_child (handle_message r m (set_inbox rest (the_child w))) w).
Proof.
  intros [Hl Hs Ho Hop Hst Hup Hsd Hh] Ep Hin. specialize (Hup Ep) as [He Hf]. specialize (Hh ltac:(congruence)) as (Hr1 & Hr2 & Hr3 & Hr4).
  assert (stopping (the_child w) ≠ None → requests (inbox (the_child w)) = []) as Hst'.
  { intros E%Hst. unfold incoming in E. by apply app_nil in E as [? _]. }
  pose proof (handle_modest r m rest (the_child w) Hin (λ s, lanes_own _ _ _ s Hl)) as Hm. pose proof (handle_lanes r m rest _ _ _ Hin Hl) as Hl'.
  assert (∀ i, i ∈ futures w → (expected (set_child (handle_message r m (set_inbox rest (the_child w))) w) i ∨ i ∈ (replies (handle_message r m (set_inbox rest (the_child w)))).*1) ∨
    child_phase (handle_message r m (set_inbox rest (the_child w))) = Dead) as Hf'.
  { assert (∀ k, owes (the_child w) k → (expected (set_child (handle_message r m (set_inbox rest (the_child w))) w) (ident k) ∨ ident k ∈ (replies (handle_message r m (set_inbox rest (the_child w)))).*1) ∨
      child_phase (handle_message r m (set_inbox rest (the_child w))) = Dead) as Hk.
    { intros k Hk. destruct (handle_owes r m rest _ k Hin Hst' Hk) as [[H|H]|H]; [left; left; exists k|left; right|right]; auto. }
    intros i Hi. destruct (Hf i Hi) as [(k & <- & [H|[H|H]])|H]; [left; left; exists k; by auto|left; left; exists k; by auto|apply Hk; by left|].
    apply list_elem_of_fmap in H as ([i' a] & -> & H). apply (Hk (Job i' Close)). right. cbn. by apply (list_elem_of_fmap_2 fst _ (i', a)). }
  assert (sessional (set_inbox rest (the_child w))) as Hs' by by eapply sessional_rest.
  assert (incoming w = match m with Request j => [j] | _ => [] end ++ requests rest ++ pipe w ++ outbox w) as HR by (unfold incoming; rewrite Hin, requests_cons; by rewrite <- app_assoc).
  set (c' := handle_message r m (set_inbox rest (the_child w))) in *.
  assert (modest (set_inbox rest (the_child w)) c' → flow (set_child c' w)) as Hmod.
  { intros [M1 M2 M3 M4 M5]. cbn in M1, M2, M3, M4. assert (incoming (set_child c' w) = requests rest ++ pipe w ++ outbox w) as HR' by (unfold incoming; cbn; by rewrite M1).
    split; rewrite ?HR'; cbn; try done.
    - auto.
    - rewrite HR in Ho. by eapply StronglySorted_suffix.
    - intros E. rewrite M2. destruct (Hop E) as [H1 H2]. rewrite HR in H1. by apply Forall_app in H1 as [_ ?].
    - rewrite M2. intros E%Hst. rewrite HR in E. by apply app_nil in E as [_ ?].
    - intros E. split; [done|]. intros i Hi. destruct (Hf' i Hi); [done|congruence].
    - destruct M3; congruence.
    - intros _. by split_and!; [apply M4|..]. }
  destruct m as [j|j|j f]; [|by apply Hmod..]. destruct Hm as [[Ej Ec]|[_ Hm]]; [|by apply Hmod].
  clearbody c'. subst c'. cbn [app] in HR. assert (requests rest ++ pipe w ++ outbox w = []) as Hnil.
  { rewrite HR in Ho. apply StronglySorted_inv in Ho as [_ Ho]. destruct (requests rest ++ pipe w ++ outbox w) as [|k l]; [done|]. apply Forall_cons in Ho as [Ho _]. unfold not_close in Ho. by rewrite Ej in Ho. }
  assert (incoming (set_child (set_stopping j (set_inbox rest (the_child w))) w) = []) as HR' by exact Hnil.
  assert (closing w = false → False) as Hcl.
  { intros E. destruct (Hop E) as [H1 _]. rewrite HR in H1. apply Forall_cons in H1 as [H1 _]. unfold not_close in H1. by rewrite Ej in H1. }
  split; rewrite ?HR'; cbn; try done.
  - constructor.
  - intros E. split; [done|]. intros i Hi. destruct (Hf' i Hi) as [|E']; [done|]. cbn in E'. congruence.
  - congruence.
Qed.
Lemma iterate_flow w r : flow w → flow (set_child (iterate r (the_child w)) w).
Proof.
  intros H. destruct (child_phase (the_child w)) eqn:Ep; [|unfold iterate; rewrite Ep; by destruct w..].
  unfold iterate. rewrite Ep. pose proof (λ m rest, handle_flow w r m rest H Ep) as Hm.
  destruct H as [Hl Hs Ho Hop Hst Hup Hsd Hh]. specialize (Hup Ep) as [He Hf]. specialize (Hh ltac:(congruence)) as (Hr1 & Hr2 & Hr3 & Hr4).
  assert (flow (set_child (match inbox (the_child w) with [] => the_child w | m :: rest => handle_message r m (set_inbox rest (the_child w)) end) w)) as Hi.
  { destruct (inbox (the_child w)) as [|m rest] eqn:Ei; [|by apply Hm]. split; cbn; try done; intros; split_and!; done. }
  destruct (stopping (the_child w)) as [j|] eqn:Es; [|done]. destruct (drained (the_child w)) eqn:Ed; [|done].
  assert (incoming w = []) as Hin by auto. unfold incoming in Hin. apply app_nil in Hin as [Hin1 [Hin2 Hin3]%app_nil].
  assert (Hcl : closing w = true). { destruct (closing w); [done|]. destruct (Hop eq_refl). congruence. }
  split; cbn.
  - eapply lanes_elsewhere, Hl. by split.
  - done.
  - done.
  - congruence.
  - unfold incoming. cbn. by rewrite Hin1, Hin2, Hin3.
  - done.
  - intros _. split; [done|]. split; [unfold incoming; cbn; by rewrite Hin1, Hin2, Hin3|]. intros i Hi'. rewrite fmap_app, elem_of_app.
    destruct (Hf i Hi') as [(k & <- & [Hk|[Hk|Hk]])|Hk]; [rewrite Hin3 in Hk; by apply elem_of_nil in Hk|rewrite Hin2 in Hk; by apply elem_of_nil in Hk| |by left].
    right. assert (stopping (the_child w) = Some k) as Hk' by by eapply drained_has. assert (k = j) as -> by congruence. cbn. apply list_elem_of_here.
  - intros _. split_and!; [|done..]. apply Forall_app. split; [done|by constructor].
Qed.

Lemma written_flow w failed : flow w → flow (set_child (written failed (the_child w)) w).
Proof.
  intros H. unfold written. destruct (child_phase (the_child w)) eqn:Ep; [|by destruct w..]. destruct (writing (the_child w)) as [|j rest] eqn:Ew; [by destruct w|].
  destruct H as [Hl Hs Ho Hop Hst Hup Hsd Hh]. set (c' := set_inbox _ _).
  assert (incoming (set_child c' w) = incoming w) as HR by (unfold incoming; cbn; by autorewrite with lanes).
  split; rewrite ?HR; try done.
  - intros s. eapply lane_line, (Hl s); [|done| |apply (Hl s)|apply (Hl s)].
    + unfold line. cbn. by autorewrite with lanes.
    + cbn. rewrite Ew. autorewrite with lanes. rewrite !length_app. lia.
  - unfold sessional in *. cbn. rewrite Ew in Hs. autorewrite with lanes. rewrite !Forall_app in *. rewrite Forall_cons in Hs. destruct Hs as ([? ?] & ? & ?). by split_and!; [| |constructor|].
  - intros _. destruct (Hup Ep) as [He Hf]. split; [done|]. intros i Hi. destruct (Hf i Hi) as [Hx|Hx]; [left|by right]. eapply expected_weaken, Hx. intros k.
    cbn. unfold has. cbn. autorewrite with lanes. rewrite !elem_of_app, Ew, elem_of_cons, list_elem_of_singleton. tauto.
Qed.
Lemma die_flow w : flow w → flow (set_child (match child_phase (the_child w) with Up => set_phase Dead (the_child w) | _ => the_child w end) w).
Proof.
  intros H. destruct (child_phase (the_child w)) eqn:Ep; [|by destruct w..]. destruct H as [Hl Hs Ho Hop Hst Hup Hsd Hh]. split; try done. eapply lanes_elsewhere, Hl. by split.
Qed.
Lemma child_receives_flow w : flow w → flow (child_receives w).
Proof.
  intros H. unfold child_receives. destruct (pipe w) as [|j rest] eqn:Ei; [done|]. unfold child_down. destruct (child_phase (the_child w)) eqn:Ep; [|done..].
  destruct H as [Hl Hs Ho Hop Hst Hup Hsd Hh]. set (w' := set_queues _ _ _).
  assert (incoming w' = incoming w) as HR by (unfold incoming; cbn; rewrite Ei; autorewrite with lanes; by rewrite <- app_assoc).
  split; rewrite ?HR; try done.
  - intros s. eapply lane_line, (Hl s); [|done| |apply (Hl s)|apply (Hl s)].
    + unfold line. cbn. rewrite Ei. autorewrite with lanes. by rewrite <- !app_assoc.
    + cbn. by autorewrite with lanes.
  - unfold sessional in *. cbn. by autorewrite with lanes.
  - intros _. destruct (Hup Ep) as [He Hf]. split; [done|]. intros i Hi. destruct (Hf i Hi) as [Hx|Hx]; [left|by right]. eapply expected_weaken, Hx. intros k.
    cbn. unfold has. cbn. rewrite Ei. autorewrite with lanes. rewrite !elem_of_app, elem_of_cons, list_elem_of_singleton. tauto.
Qed.
Lemma send_flow w : flow w → flow (send_request w).
Proof.
  intros H. unfold send_request. destruct (the_sender w) as [|[|i l]|i l|] eqn:Er; try done.
  - destruct (outbox w) as [|j rest] eqn:Eo; [done|]. destruct H as [Hl Hs Ho Hop Hst Hup Hsd Hh]. unfold child_down. destruct (child_phase (the_child w)) eqn:Ep.
    + set (w' := set_sender _ _). assert (incoming w' = incoming w) as HR by (unfold incoming; cbn; by rewrite Eo, <- (app_assoc (pipe w))).
      split; rewrite ?HR; try done.
      * cbn. rewrite <- app_assoc. cbn. by rewrite <- Eo.
      * intros _. destruct (Hup eq_refl) as [He Hf]. split; [done|]. intros i Hi. destruct (Hf i Hi) as [Hx|Hx]; [left|by right]. eapply expected_weaken, Hx. intros k.
        cbn. rewrite Eo, !elem_of_app, elem_of_cons, list_elem_of_singleton. tauto.
      * cbn. congruence.
      * intros _. destruct Hh as (? & ? & ? & ?); [congruence|]. split_and!; [done..|]. cbn. by destruct (is_close (op j)).
    + destruct (Hsd eq_refl) as (_ & HR & _). unfold incoming in HR. apply app_nil in HR as [_ [_ HR]%app_nil]. congruence.
    + set (w' := set_sender _ _). assert (sublist (incoming w') (incoming w)) as HR by (unfold incoming; cbn; rewrite Eo; repeat apply sublist_app; try done; by apply sublist_cons).
      split; cbn; try done; try congruence.
      * intros s. eapply lane_sub, (Hl s). rewrite Eo. apply sublist_app; [done|by apply sublist_cons].
      * by eapply StronglySorted_sub.
      * intros E. destruct (Hop E) as [H1 H2]. split; [|done]. apply Forall_forall. intros k Hk. rewrite Forall_forall in H1. apply H1. by eapply elem_of_sublist.
      * intros E%Hst. rewrite E in HR. by apply sublist_nil_r in HR.
  - destruct H as [Hl Hs Ho Hop Hst Hup Hsd Hh]. split; try done. intros E. destruct (Hh E) as (? & ? & ? & _). by split_and!.
  - destruct H as [Hl Hs Ho Hop Hst Hup Hsd Hh]. split; try done. intros E. destruct (Hh E) as (_ & _ & _ & Hf). by rewrite Er in Hf.
  - destruct H as [Hl Hs Ho Hop Hst Hup Hsd Hh]. split; try done. intros E. destruct (Hh E) as (_ & _ & _ & Hf). by rewrite Er in Hf.
Qed.
Lemma receive_flow w : flow w → flow (receive w).
Proof.
  intros H. unfold receive. destruct (the_reader w) as [|i a|i a|[|i l]|i l|] eqn:Er; try done.
  - destruct (replies (the_child w)) as [|[i a] rest] eqn:Es.
    + unfold child_down. destruct (child_phase (the_child w)) eqn:Ep; [done|..]; destruct H as [Hl Hs Ho Hop Hst Hup Hsd Hh]; (split; try done; cbn; try congruence).
      * intros _. destruct (Hsd Ep) as (H1 & H2 & _). split_and!; [done|exact H2|]. by intros i ?%elem_of_nil.
      * intros E. destruct (Hh E) as (? & ? & _ & ?). split_and!; [done..| |done]. cbn. destruct (Hsd Ep) as (_ & _ & Hf). rewrite Es in Hf.
        destruct (futures w) as [|i l]; [done|]. specialize (Hf i (list_elem_of_here _ _)). by apply elem_of_nil in Hf.
    + set (c' := Child _ _ _ _ _ _ _ _). set (w1 := set_child c' w). assert (∀ k, has c' k ↔ has (the_child w) k) as Hhas by done.
      assert (∀ fs r, (∀ k, k ∈ fs → k ∈ futures w ∧ k ≠ i) → (child_phase (the_child w) ≠ Dead → reader_fine r) → flow (set_reader r (set_futures fs w1))) as Hgo.
      { intros fs r Hfs Hr. destruct H as [Hl Hs Ho Hop Hst Hup Hsd Hh]. rewrite Es in *. split; try done; cbn.
        - eapply lanes_elsewhere, Hl. by split.
        - intros Ep. destruct (Hup Ep) as [He Hf]. split; [done|]. intros k [Hk Hne]%Hfs. destruct (Hf k Hk) as [Hx|Hx]; [left; exact Hx|]. cbn in Hx. apply elem_of_cons in Hx as [->|?]; [done|by right].
        - intros Ep. destruct (Hsd Ep) as (H1 & H2 & Hf). split_and!; [done..|]. intros k [Hk Hne]%Hfs. specialize (Hf k Hk). cbn in Hf. apply elem_of_cons in Hf as [->|?]; done.
        - intros Ep. destruct (Hh Ep) as (H1 & H2 & H3 & H4). rewrite Es in H1. apply Forall_cons in H1 as [_ H1]. split_and!; [done|done|by apply Hr|done]. }
      cbn [futures set_child]. case_bool_decide as Hi.
      * apply Hgo; [intros k [? ?]%list_elem_of_filter; done|]. intros Ep. destruct H as [_ _ _ _ _ _ _ Hh]. destruct (Hh Ep) as (H1 & _). rewrite Es in H1. by apply Forall_cons in H1 as [? _].
      * assert (w1 = set_reader Receiving (set_futures (futures w) w1)) as -> by (unfold w1; destruct w; cbn in *; by subst). apply Hgo; [|done]. intros k Hk. split; [done|]. by intros ->.
  - destruct H as [Hl Hs Ho Hop Hst Hup Hsd Hh]. split; try done. intros E. destruct (Hh E) as (? & ? & Hr & ?). rewrite Er in Hr. by split_and!.
  - destruct H as [Hl Hs Ho Hop Hst Hup Hsd Hh]. split; try done. intros E. destruct (Hh E) as (? & ? & Hr & ?). rewrite Er in Hr. split_and!; [done| |done|done]. apply Forall_app. by split; [|constructor].
  - destruct H as [Hl Hs Ho Hop Hst Hup Hsd Hh]. split; try done. intros E. by destruct (Hh E) as (? & ? & _ & ?).
  - destruct H as [Hl Hs Ho Hop Hst Hup Hsd Hh]. split; try done. intros E. destruct (Hh E) as (_ & _ & Hr & _). by rewrite Er in Hr.
  - destruct H as [Hl Hs Ho Hop Hst Hup Hsd Hh]. split; try done. intros E. destruct (Hh E) as (_ & _ & Hr & _). by rewrite Er in Hr.
Qed.
Lemma accept_flow o w : flow w → error w = false → closing w = false → flow (accept o w).
Proof.
  intros [Hl Hs Ho Hop Hst Hup Hsd Hh] He Hc. destruct (Hop Hc) as [Hn Hnone].
  assert (incoming (accept o w) = incoming w ++ [Job (S (sequence w)) o]) as HR by (unfold incoming; cbn; by rewrite <- !app_assoc).
  split; rewrite ?HR; try done.
  - intros s. cbn. rewrite app_assoc. apply lane_accept, Hl.
  - apply StronglySorted_app_2; [|done|by repeat constructor]. intros x y Hx _. rewrite Forall_forall in Hn. by apply Hn.
  - cbn. rewrite Hc. cbn. intros Hclose. split; [|done]. apply Forall_app. by repeat constructor.
  - cbn. intros Ep. destruct (Hup Ep) as [_ Hf]. split; [done|]. intros i [Hi| ->%list_elem_of_singleton]%elem_of_app.
    + destruct (Hf i Hi) as [Hx|Hx]; [left|by right]. eapply expected_weaken, Hx. intros k. cbn. rewrite elem_of_app. tauto.
    + left. exists (Job (S (sequence w)) o). split; [done|]. left. cbn. rewrite elem_of_app, list_elem_of_singleton. by right.
  - cbn. intros Ep. destruct (Hsd Ep). congruence.
Qed.
Lemma submit_flow t w : flow w → flow (submit t w).1.
Proof.
  intros H. assert (∀ n, flow (set_capacity n w)) as Hn by (intros n; by destruct H). destruct t as [o|o|i|e]; cbn; try done.
  - destruct (capacity w); [done|apply Hn].
  - destruct (error w) eqn:Ee; [apply Hn|]. destruct (closing w) eqn:Ec; [apply Hn|]. by apply accept_flow.
Qed.
Lemma threads_flow l w : flow w → flow (set_threads l w).
Proof. by intros []. Qed.
Lemma step_flow w ev : flow w → flow (step w ev).
Proof.
  intros H. destruct ev as [o|k| | | |r|f|]; cbn [step].
  - by apply threads_flow.
  - destruct (threads w !! k) as [t|]; [|done]. pose proof (submit_flow t w H). destruct (submit t w). by apply threads_flow.
  - by apply send_flow.
  - by apply receive_flow.
  - by apply child_receives_flow.
  - by apply iterate_flow.
  - by apply written_flow.
  - by apply die_flow.
Qed.
Lemma init_flow limit : flow (owner_init limit).
Proof.
  split; try done.
  - intros s. split; cbn; first [done|by constructor|lia].
  - constructor.
  - constructor.
  - intros _. split; [done|]. by intros i ?%elem_of_nil.
  - intros _. by split_and!; [constructor|constructor| |].
Qed.
Lemma run_flow l w : flow w → flow (run_from w l).
Proof. revert w. induction l as [|ev l IH]; intros w Hw; cbn; [done|]. by apply IH, step_flow. Qed.
Lemma reached limit l : books limit (run limit l) ∧ flow (run limit l).
Proof. split; [apply run_books, init_books|apply run_flow, init_flow]. Qed.
Lemma where_is limit w i : books limit w → (1 <= i <= sequence w)%nat → i ∈ futures w ∨ i ∈ held w ∨ i ∈ (answers w).*1.
Proof. intros [Hp _ _ _] Hi. assert (i ∈ futures w ++ held w ++ (answers w).*1) as H by (rewrite Hp; apply elem_of_seq; lia). by rewrite !elem_of_app in H. Qed.

(** ** The theorems *)

(** C20: every request that the owner accepts is answered exactly once.  In every run,
    whatever the child does and whenever it dies, no request is answered twice and no
    answer is made up; while the child lives, an accepted request that is not answered
    is on its way to the child, in the child, or on its way back; and when the reader
    and the sender have dealt with the end of the child, every accepted request has its
    answer and every place in the queue is free again. *)
Theorem answered_exactly_once (limit : nat) (l : list event) :
  let w := run limit l in
  NoDup (answers w).*1 ∧ (∀ i, i ∈ (answers w).*1 → (1 <= i <= sequence w)%nat) ∧
  (child_phase (the_child w) = Up → ∀ i, (1 <= i <= sequence w)%nat → i ∈ (answers w).*1 ∨ i ∈ held w ∨ i ∈ (replies (the_child w)).*1 ∨ expected w i) ∧
  (the_reader w = Reader_done → sender_held (the_sender w) = [] →
     (answers w).*1 ≡ₚ seq 1 (sequence w) ∧ (capacity w + admitted (threads w) = limit)%nat).
Proof.
  cbv zeta. destruct (reached limit l) as [Hb Hf]. destruct (books_nodup _ _ Hb) as (_ & _ & Hn). split_and!.
  - done.
  - intros i Hi. assert (i ∈ seq 1 (sequence (run limit l))) as H by (rewrite <- (b_futures _ _ Hb), !elem_of_app; auto). apply elem_of_seq in H. lia.
  - intros Ep i Hi. destruct (where_is _ _ _ Hb Hi) as [H|[H|H]]; [|auto..]. destruct (f_up _ Hf Ep) as [_ Hx]. destruct (Hx i H); auto.
  - intros Hr Hs. destruct Hb as [Hp Hc He Hd]. assert (futures (run limit l) = []) as E by (apply He, Hd; by rewrite Hr).
    unfold held in Hp. rewrite E, Hr, Hs in Hp. split; [exact Hp|]. unfold unreleased in Hc. rewrite E, Hr in Hc. cbn in Hc.
    destruct (the_sender (run limit l)) as [|ls|i ls|]; cbn in *; try lia; subst; cbn in *; lia || done.
Qed.

(** C21: the requests of a session are served in order and one at a time.  In every
    run, the child begins the requests of a session in the order in which they were
    accepted, whatever is queued in the pipe, in the inbox or behind a transaction that
    waits for its commit; and at most one transaction of a session is under way. *)
Theorem sessions_in_order (limit : nat) (l : list event) (s : string) :
  let w := run limit l in
  StronglySorted lt (ident <$> line s (the_child w) (pipe w ++ outbox w)) ∧ StronglySorted lt (ident <$> jobs_of s (started (the_child w))) ∧
  (length (jobs_of s (writing (the_child w))) + length (jobs_of s (commits (inbox (the_child w)))) <= 1)%nat.
Proof.
  cbv zeta. destruct (reached limit l) as [_ Hf]. destruct (f_lanes _ Hf s) as [H1 _ H3 _ _]. split_and!; [done| |destruct (bool_decide _); lia].
  unfold line in H1. rewrite fmap_app in H1. by apply StronglySorted_app in H1 as (_ & ? & _).
Qed.

(** C22: a close loses nothing.  When the child has stopped because it was closed, every
    accepted request has an answer of the child, received or still in the pipe, and none
    is answered by the failure that reports a lost child. *)
Theorem close_is_graceful (limit : nat) (l : list event) (Hs : child_phase (the_child (run limit l)) = Stopped) :
  let w := run limit l in
  (∀ i, (1 <= i <= sequence w)%nat → i ∈ (replies (the_child w)).*1 ∨ i ∈ reader_held (the_reader w) ∨ i ∈ (answers w).*1) ∧
  real (replies (the_child w)) ∧ real (answers w) ∧ ∀ o, (submit (Entered o) w).2 ≠ Accepted (S (sequence w)).
Proof.
  cbv zeta. destruct (reached limit l) as [Hb Hf]. destruct (f_stopped _ Hf Hs) as (Hc & _ & Hx). destruct (f_honest _ Hf) as (H1 & H2 & H3 & H4); [congruence|]. split_and!; [|done|done|].
  - intros i Hi. destruct (where_is _ _ _ Hb Hi) as [H|[H|H]]; [auto| |auto]. unfold held in H. apply elem_of_app in H as [H|H]; [auto|].
    destruct (the_sender (run limit l)) as [|[|j ls]|j ls|]; try done; by apply elem_of_nil in H.
  - intros o. cbn. rewrite Hc. by destruct (error _).
Qed.

(** Two requests of one session, one of another, and the close; the commit of the first
    holds the second back. *)
Definition demo : list event :=
  [Call (Transaction "a"); Call (Plain "a"); Call (Plain "b"); Call Close; Step 0; Step 0; Step 1; Step 1; Step 2; Step 2; Step 3; Step 3;
   Send; Send; Send; Send; Child_receives; Child_receives; Child_receives; Child_receives;
   Iterate Yields; Iterate Returns; Iterate Raises; Iterate Returns; Written false; Iterate Returns; Iterate Returns; Iterate Returns;
   Receive; Receive; Receive].
Example demo_replies : let w := run 4 demo in
  (answers w, replies (the_child w), (ident <$> started (the_child w))) = ([(3, Error)], [(1, Value); (2, Value); (4, Value)], [1; 3; 2])%nat.
Proof. vm_compute. done. Qed.
Lemma close_is_graceful_witness : child_phase (the_child (run 4 demo)) = Stopped ∧ real (replies (the_child (run 4 demo))) ∧ real (answers (run 4 demo)).
Proof.
  assert (child_phase (the_child (run 4 demo)) = Stopped) as Hs by (vm_compute; reflexivity).
  split; [exact Hs|]. destruct (close_is_graceful 4 demo Hs) as (_ & H1 & H2 & _). by split.
Defined.
(** The child dies with the commit under way. *)
Definition demo_dies : list event := take 21 demo ++ [Die] ++ replicate 10 Receive.
Example demo_exited : let w := run 4 demo_dies in
  (answers w, capacity w) = ([(1, Exited); (2, Exited); (3, Exited); (4, Exited)], 4)%nat ∧ the_reader w = Reader_done.
Proof. vm_compute. done. Qed.
End Owner.
