(* ===== verification/ArmOutcome.v ===== *)
(** * The outcome of an arm (src/clawbox/experiments/worker.py, results.py)

    [collect_session_results] drains the futures of the sessions, the end of
    [ExperimentWorker._run_arm] derives from it, from the controls that are closed and
    from the cleanup whether the arm has failed and of what kind, and
    [observed_tool_concurrency] sweeps over the intervals of the Tool operations.  The
    envelope is the one that [Supervisor] reads. *)
From S2P Require Import Prelude Ordering Supervisor.
From Stdlib Require Import Ascii.

(** An exception, by what is asked of it: an [ArmInfrastructureError], a [TimeoutError]
    or any other, with its text. *)
Inductive failure := Infrastructure (text : string) | Timed_out (text : string) | Other (text : string).
#[export] Instance failure_eq_dec : EqDecision failure.
Proof. solve_decision. Defined.
Definition text_of (f : failure) : string := match f with Infrastructure t | Timed_out t | Other t => t end.

Module Collect.
Record session := Session { valid : bool; telemetry_loss : Z }.
(** A future that is done: its result, a failure to write the event about it, and the
    health check after it. *)
Record landing := Landing { future : nat; result : session + failure; logged : option failure; health_after : option failure }.
Record round := Round { health : option failure; expired : bool; done : list landing }.
(** The lists that are filled, and [first_failure]. *)
Record collected := Collected { sessions : list (nat * session); failures : list (nat * failure); first_failure : option failure }.
Definition collected_init : collected := Collected [] [] None.

(** The body of the loop over the futures; what it raises. *)
Definition land (x : landing) (c : collected) : collected * option failure :=
  match result x with
  | inr e =>
      let recorded := Collected (sessions c) (failures c ++ [(future x, e)]) (first_failure c) in
      match logged x, e with
      | Some f, _ => (recorded, Some f)
      | None, Infrastructure _ => (recorded, Some e)
      | None, _ =>
          match health_after x with
          | Some f => (recorded, Some f)
          | None => (Collected (sessions recorded) (failures recorded) (match first_failure c with None => Some e | f => f end), None)
          end
      end
  | inl s => (Collected (sessions c ++ [(future x, s)]) (failures c) (first_failure c), health_after x)
  end.
(** The futures that [wait] returns are pending ones. *)
Fixpoint lands (l : list landing) (pending : list nat) (c : collected) : list nat * collected * option failure :=
  match l with
  | [] => (pending, c, None)
  | x :: l' =>
      if bool_decide (future x ∈ pending) then
        match land x c with
        | (c, Some e) => (pending, c, Some e)
        | (c, None) => lands l' (filter (λ k, k ≠ future x) pending) c
        end
      else lands l' pending c
  end.
Inductive ending := Returned (first : option failure) | Raised (f : failure) | Waiting.
Definition unfinished : failure := Timed_out "session futures unfinished".
Fixpoint collect (rounds : list round) (pending : list nat) (c : collected) : collected * ending :=
  match pending, rounds with
  | [], _ => (c, Returned (first_failure c))
  | _, [] => (c, Waiting)
  | _, r :: rounds' =>
      match health r with
      | Some f => (c, Raised f)
      | None =>
          if expired r then (c, Raised unfinished)
          else match lands (done r) pending c with
               | (_, c, Some f) => (c, Raised f)
               | (pending, c, None) => collect rounds' pending c
               end
      end
  end.
Definition collect_session_results (futures : list nat) (rounds : list round) : collected * ending := collect rounds futures collected_init.

(** ** Every future is collected once *)

Definition seen (c : collected) : list nat := (sessions c).*1 ++ (failures c).*1.
Definition is_infrastructure (f : failure) : bool := match f with Infrastructure _ => true | _ => false end.
(** The first failure is the first one collected, and none so far ended the arm. *)
Definition going (c : collected) : Prop :=
  first_failure c = snd <$> head (failures c) ∧ Forall (λ x, is_infrastructure x.2 = false) (failures c).
Lemma take_out (i : nat) (l : list nat) : NoDup l → i ∈ l → l ≡ₚ i :: filter (λ k, k ≠ i) l.
Proof.
  intros Hl Hi. apply NoDup_Permutation; [done|constructor; [|by apply NoDup_filter]|].
  - rewrite list_elem_of_filter. naive_solver.
  - intros k. rewrite elem_of_cons, list_elem_of_filter. destruct (decide (k = i)) as [->|]; naive_solver.
Qed.
Lemma land_seen x c c' o : land x c = (c', o) → seen c' ≡ₚ future x :: seen c ∧ (o = None → going c → going c').
Proof.
  unfold land, seen, going. intros H. destruct (result x) as [s|e].
  - injection H as <- <-. cbn. rewrite fmap_app. split; [cbn; solve_Permutation|done].
  - assert (∀ f, seen (Collected (sessions c) (failures c ++ [(future x, e)]) f) ≡ₚ future x :: seen c) as Hs.
    { intros f. unfold seen. cbn. rewrite fmap_app. cbn. solve_Permutation. }
    destruct (logged x); [injection H as <- <-; split; [apply Hs|done]|]. destruct e as [t|t|t]; [injection H as <- <-; split; [apply Hs|done]|..].
    all: destruct (health_after x); injection H as <- <-; (split; [apply Hs|]); [done|]; intros _ [-> Hf]; cbn.
    all: split; [by destruct (failures c)|apply Forall_app; split; [done|by constructor]].
Qed.
Lemma lands_seen l : ∀ pending c pending' c' o, NoDup pending → lands l pending c = (pending', c', o) →
  (o = None → NoDup pending' ∧ seen c' ++ pending' ≡ₚ seen c ++ pending ∧ (going c → going c')) ∧ ∃ rest, seen c' ++ rest ≡ₚ seen c ++ pending.
Proof.
  induction l as [|x l IH]; intros pending c pending' c' o Hp H; cbn in H.
  { injection H as <- <- <-. split; [done|by exists pending]. }
  case_bool_decide as Hx; [|by eapply IH]. destruct (land x c) as [c1 o1] eqn:E. destruct (land_seen x c c1 o1 E) as [Hs Hg]. pose proof (take_out _ _ Hp Hx) as Ht.
  assert (seen c1 ++ filter (λ k, k ≠ future x) pending ≡ₚ seen c ++ pending) as Hc by (rewrite Hs; rewrite Ht at 2; solve_Permutation).
  destruct o1 as [f|].
  - injection H as <- <- <-. split; [done|by eexists].
  - destruct (IH _ _ _ _ _ (NoDup_filter _ _ Hp) H) as [H1 (rest & H2)]. split; [|exists rest; by rewrite H2].
    intros Ho. destruct (H1 Ho) as (? & Hp' & ?). split_and!; [done|by rewrite Hp'|]. auto.
Qed.
Lemma collect_seen rounds : ∀ pending c, NoDup pending → ∃ rest, seen (collect rounds pending c).1 ++ rest ≡ₚ seen c ++ pending ∧
  (∀ f, (collect rounds pending c).2 = Returned f → going c → rest = [] ∧ f = first_failure (collect rounds pending c).1 ∧ going (collect rounds pending c).1).
Proof.
  assert (∀ pending (c c' : collected) e, (∀ f, e ≠ Returned f) → seen c' ≡ₚ seen c → ∃ rest, seen (c', e).1 ++ rest ≡ₚ seen c ++ pending ∧
    (∀ f, (c', e).2 = Returned f → going c → rest = [] ∧ f = first_failure (c', e).1 ∧ going (c', e).1)) as Hstop.
  { intros pending c c' e He Hs. exists pending. cbn. rewrite Hs. split; [done|]. intros f Hf. by destruct (He f). }
  assert (∀ rounds c, ∃ rest, seen (collect rounds [] c).1 ++ rest ≡ₚ seen c ++ [] ∧
    (∀ f, (collect rounds [] c).2 = Returned f → going c → rest = [] ∧ f = first_failure (collect rounds [] c).1 ∧ going (collect rounds [] c).1)) as Hnil.
  { intros rs c. exists []. destruct rs; (split; [done|]); by intros f [= <-]. }
  induction rounds as [|r rounds IH]; intros [|i pending] c Hp; [apply Hnil|by apply Hstop|apply Hnil|]. cbn [collect].
  destruct (health r); [by apply Hstop|]. destruct (expired r); [by apply Hstop|]. destruct (lands (done r) (i :: pending) c) as [[pending' c'] o] eqn:E.
  destruct (lands_seen _ _ _ _ _ _ Hp E) as [H1 (rest & H2)]. destruct o as [f|]; [exists rest; by split|].
  destruct (H1 eq_refl) as (Hp' & Hs & Hg). destruct (IH pending' c' Hp') as (rest' & Hr & Hf). exists rest'. split; [by rewrite Hr|]. intros f Hf' Hgo. auto.
Qed.

(** C23: every session is counted once.  However the futures of the sessions end, the
    results and the failures that are collected are those of different sessions of the
    arm; and if the collection returns, every session is in one of the two lists, what
    it returns is the first failure that was collected, if there is one, and no failure
    of the infrastructure is among them: such a failure ends the arm. *)
Theorem collected_once (futures : list nat) (rounds : list round) (Hf : NoDup futures) :
  let '(c, e) := collect_session_results futures rounds in
  NoDup (seen c) ∧ seen c ⊆ futures ∧
  ∀ f, e = Returned f → seen c ≡ₚ futures ∧ f = snd <$> head (failures c) ∧ Forall (λ x, is_infrastructure x.2 = false) (failures c).
Proof.
  unfold collect_session_results. destruct (collect_seen rounds futures collected_init Hf) as (rest & Hr & He). destruct (collect rounds futures collected_init) as [c e].
  cbn in *. assert (NoDup (seen c ++ rest)) as Hn by by rewrite Hr. apply NoDup_app in Hn as (Hn & _ & _). split_and!; [done| |].
  - intros k Hk. rewrite <- Hr, elem_of_app. by left.
  - intros f Hret. destruct (He f Hret) as (-> & -> & H1 & H2); [by split; [|constructor]|]. rewrite app_nil_r in Hr. by split_and!.
Qed.
Definition demo_rounds : list round :=
  [Round None false [Landing 1 (inr (Other "tool failed")) None None]; Round None false [Landing 0 (inl (Session true 0)) None None; Landing 2 (inr (Timed_out "late")) None None]].
Lemma collected_once_witness : collect_session_results [0; 1; 2]%nat demo_rounds =
    (Collected [(0%nat, Session true 0)] [(1%nat, Other "tool failed"); (2%nat, Timed_out "late")] (Some (Other "tool failed")), Returned (Some (Other "tool failed"))) ∧
  let '(c, e) := collect_session_results [0; 1; 2]%nat demo_rounds in NoDup (seen c).
Proof.
  split; [vm_compute; reflexivity|].
  assert (NoDup [0; 1; 2]%nat) as Hf by (apply (bool_decide_unpack _); vm_compute; exact I).
  pose proof (collected_once [0; 1; 2]%nat demo_rounds Hf) as H. destruct (collect_session_results _ _). exact (proj1 H).
Defined.
End Collect.

(** ** Status and category *)

Module Verdict.
(** [text.lower()], of ASCII letters, and [marker in text]. *)
Definition lower_char (c : ascii) : ascii :=
  let n := nat_of_ascii c in if (65 <=? n)%nat && (n <=? 90)%nat then ascii_of_nat (n + 32) else c.
Fixpoint lower (s : string) : string := match s with String c s' => String (lower_char c) (lower s') | EmptyString => EmptyString end.
Fixpoint contains (marker s : string) : bool :=
  String.prefix marker s || match s with String _ s' => contains marker s' | EmptyString => false end.
Definition markers : list (string * FailureCategory) :=
  [("capacity", CAPACITY); ("out of memory", OOM); ("oom", OOM); ("validation", VALIDATION); ("admission", ADMISSION); ("sandbox", SANDBOX);
   ("tool", TOOL); ("inference", INFERENCE); ("agent", AGENT); ("workload", WORKLOAD)]%string.
Fixpoint marked (l : list (string * FailureCategory)) (s : string) : FailureCategory :=
  match l with
  | [] => INFRASTRUCTURE
  | (m, c) :: l' => if contains m s then c else marked l' s
  end.
Definition failure_category_for (s : RunStatus) (detail : string) : option FailureCategory :=
  match s with
  | SUCCEEDED | CANCELLED => None
  | TIMED_OUT => Some TIMEOUT
  | FAILED | REJECTED => Some (marked markers (lower detail))
  end.

Definition classify_arm_failure (f : option failure) (domain_oom_kills : Z) (infrastructure_error : option failure) (session_failure : bool) : option FailureCategory :=
  match infrastructure_error with
  | Some _ => Some INFRASTRUCTURE
  | None =>
      if negb (domain_oom_kills =? 0) then Some OOM
      else match f with
           | Some (Timed_out _) => Some TIMEOUT
           | None => None
           | Some f =>
               let category := failure_category_for FAILED (text_of f) in
               if session_failure && bool_decide (category = Some INFRASTRUCTURE) then Some AGENT else category
           end
  end.

(** How the sessions ended: [collect_session_results] returned, or the [try] block
    raised. *)
Inductive body := Collected (first : option failure) | Aborted (f : failure).
Definition interrupted (b : body) : bool := match b with Aborted _ => true | _ => false end.
(** What the [finally] block meets: the failures of the reporter, of the policy events,
    of the controllers of the domains, of the samplers; of the cleanup of the VMs and of
    the priority domain, Tool calls that are still placed; and the OOM kills. *)
Record finally := Finally {
  reporter : option failure; policy_check : option failure; controllers : list (option failure); runtime_memory : option failure; topology : option failure;
  kill_sandboxes : option failure; priority_close : option failure; calls_left : bool; domain_oom_kills : Z; host_oom_kills : Z }.

(** [a or b] *)
Definition either {A} (a b : option A) : option A := match a with Some _ => a | None => b end.
(** [failure] and [infrastructure_error]. *)
Definition errors : Type := option failure * option failure.
Definition both (x : errors) (e : option failure) : errors := (either x.1 e, either x.2 e).
Definition caught (b : body) : errors :=
  match b with
  | Collected first => (first, None)
  | Aborted f => (Some f, match f with Infrastructure _ => Some f | _ => None end)
  end.
Definition cleanup_error (x : finally) : option failure :=
  either (either (kill_sandboxes x) (priority_close x)) (if calls_left x then Some (Other "C2 Tool-call CPU assignments remained after session finalization") else None).
Definition oom_errors (x : finally) (e : errors) : errors :=
  let e := if negb (domain_oom_kills x =? 0) then (either e.1 (Some (Other "experiment cgroup OOM kills")), e.2) else e in
  if negb (host_oom_kills x =? 0) then
    (either e.1 (Some (Other "host OOM kill observed during arm")),
     if domain_oom_kills x <? host_oom_kills x then either e.2 (Some (Other "host OOM kills occurred outside the experiment cgroup")) else e.2)
  else e.
Definition finalize (b : body) (x : finally) : errors :=
  oom_errors x (both (foldl both (caught b) ([reporter x; policy_check x] ++ controllers x ++ [runtime_memory x; topology x])) (cleanup_error x)).

(** The envelope of the arm; [session_failures] tells whether any was collected. *)
Definition envelope (attempt : string) (a : ExperimentArm) (c : Collect.collected) (b : body) (x : finally) : ResultEnvelope :=
  let '(f, i) := finalize b x in
  let failed := negb (bool_decide (Collect.failures c = [])) in
  {| attempt_id := attempt; arm := a; status := match f with None => SUCCEEDED | Some _ => FAILED end;
     failure_category := classify_arm_failure f (domain_oom_kills x) i (failed && negb (interrupted b));
     correctness := {| cleanup_verified := None; validation_passed := Some (bool_decide (f = None) && forallb (λ s, Collect.valid s.2) (Collect.sessions c));
       Supervisor.failure := text_of <$> f; native_tool_telemetry_loss_total := negb (foldr (λ s acc, Collect.telemetry_loss s.2 + acc) 0 (Collect.sessions c) =? 0);
       session_failures := failed; arm_interrupted := interrupted b;
       infrastructure_failure := match i with Some e => negb (bool_decide (text_of e = ""%string)) | None => false end |} |}.

(** ** The envelope and its reader *)

(** An infrastructure error and OOM kills come with a failure. *)
Definition founded (x : finally) (e : errors) : Prop := e.2 ≠ None → e.1 ≠ None.
Lemma both_founded x e o : founded x e → founded x (both e o).
Proof. destruct e as [[f|] [i|]], o; unfold founded; cbn; auto. Qed.
Lemma finalize_founded b x : founded x (finalize b x) ∧ (domain_oom_kills x ≠ 0 → (finalize b x).1 ≠ None).
Proof.
  assert (∀ l e, founded x e → founded x (foldl both e l)) as Hl.
  { induction l as [|o l IH]; intros e He; cbn; [done|]. by apply IH, both_founded. }
  unfold finalize. set (e := both _ _). assert (founded x e) as He by (apply both_founded, Hl; destruct b as [|[]]; unfold founded; cbn; congruence).
  clearbody e. unfold oom_errors. destruct (Z.eqb_spec (domain_oom_kills x) 0), (Z.eqb_spec (host_oom_kills x) 0); cbn; destruct e as [[f|] [i|]]; unfold founded in *; cbn in *; split; try done; intros; try done; auto.
Qed.
Lemma either_none {A} (a b : option A) : either a b = None ↔ a = None ∧ b = None.
Proof. destruct a, b; naive_solver. Qed.
Lemma both_none l e : (foldl both e l).1 = None ↔ e.1 = None ∧ Forall (.= None) l.
Proof. revert e. induction l as [|o l IH]; intros e; cbn; [naive_solver|]. rewrite IH, Forall_cons. cbn. rewrite either_none. tauto. Qed.
Lemma finalize_none b x : (finalize b x).1 = None ↔
  b = Collected None ∧ Forall (.= None) ([reporter x; policy_check x] ++ controllers x ++ [runtime_memory x; topology x; kill_sandboxes x; priority_close x]) ∧
  calls_left x = false ∧ domain_oom_kills x = 0 ∧ host_oom_kills x = 0.
Proof.
  assert (∀ e, (oom_errors x e).1 = None ↔ e.1 = None ∧ domain_oom_kills x = 0 ∧ host_oom_kills x = 0) as Ho.
  { intros [f i]. unfold oom_errors. destruct (Z.eqb_spec (domain_oom_kills x) 0), (Z.eqb_spec (host_oom_kills x) 0); cbn; rewrite ?either_none; naive_solver. }
  unfold finalize. rewrite Ho. cbn [both fst]. rewrite either_none, both_none. unfold cleanup_error. rewrite !either_none, !Forall_app, !Forall_cons, !Forall_nil.
  assert ((caught b).1 = None ↔ b = Collected None) as Hb by (destruct b as [[]|]; cbn; naive_solver). rewrite Hb. destruct (calls_left x); naive_solver.
Qed.

Lemma envelope_agrees attempt a c b x : status_and_failure_category_agree (envelope attempt a c b x) = true.
Proof.
  destruct (finalize_founded b x) as [Hf Ho]. unfold envelope, founded in *. destruct (finalize b x) as [f i]. cbn in *.
  unfold status_and_failure_category_agree. cbn. destruct f as [f|].
  - unfold classify_arm_failure. destruct i; [done|]. destruct (negb _); [done|]. by destruct f; cbn; try destruct (_ && _).
  - destruct i; [by destruct (Hf (λ E, ltac:(discriminate E)))|]. unfold classify_arm_failure. destruct (Z.eqb_spec (domain_oom_kills x) 0) as [|H]; [done|]. by destruct (Ho H).
Qed.
Lemma marked_not_timeout s : marked markers s ≠ TIMEOUT.
Proof. cbn. by repeat case_match. Qed.
#[global] Arguments marked : simpl never.
#[global] Arguments failure_category_for : simpl never.
(** The part of [is_trial_outcome] for a failed arm. *)
Lemma categorised_trial f kills s i :
  let category := classify_arm_failure (Some f) kills None (s && negb i) in
  (if bool_decide (category = Some INFRASTRUCTURE) then false
   else if bool_decide (category ∈ [Some OOM; Some TIMEOUT; Some ADMISSION]) then true else s && negb (i || false)) = true ↔
  kills ≠ 0 ∨ (∃ t, f = Timed_out t) ∨ s && negb i = true ∨ marked markers (lower (text_of f)) = OOM ∨ marked markers (lower (text_of f)) = ADMISSION.
Proof.
  cbv zeta. rewrite orb_false_r. unfold classify_arm_failure, failure_category_for. pose proof (marked_not_timeout (lower (text_of f))) as Ht.
  destruct (Z.eqb_spec kills 0) as [->|Hk]; cbn [negb]; [|cbn; naive_solver].
  destruct f as [t|t|t]; cbn [text_of] in *; [|cbn; naive_solver|]; (set (m := marked _ _) in *; clearbody m; destruct (s && negb i), m; cbn; naive_solver).
Qed.
(** What the supervisor makes of the envelope of a worker that ends well. *)
Lemma envelope_result c attempt a l b x : let r := envelope attempt a l b x in
  arm_result c a false (Some 0) (accepted_child a (Some r)) true =
  {| attempt_id := attempt_id r; arm := arm r; status := status r; failure_category := failure_category r; correctness := correctness_cleaned (correctness r) |}.
Proof.
  cbv zeta. assert (accepted_child a (Some (envelope attempt a l b x)) = Some (envelope attempt a l b x)) as ->.
  { unfold accepted_child. cbn. rewrite envelope_agrees. assert (arm (envelope attempt a l b x) = a) as -> by (unfold envelope; by destruct (finalize b x)).
    by rewrite !bool_decide_true. }
  unfold arm_result. rewrite (bool_decide_true (Some 0 = Some 0)) by done. done.
Qed.

(** C24: the envelope of an arm is valid.  However the sessions end, whatever the closing
    of the controls and the cleanup raise and whatever OOM kills are counted, the status
    and the category of the result agree, so that the validator of the envelope, which
    the worker runs before anything is stored and the supervisor runs again, accepts it;
    and it says [SUCCEEDED] exactly when no failure of any kind was met. *)
Theorem envelope_is_valid (attempt : string) (a : ExperimentArm) (c : Collect.collected) (b : body) (x : finally) :
  let r := envelope attempt a c b x in
  status_and_failure_category_agree r = true ∧
  (status r = SUCCEEDED ↔ b = Collected None ∧ Forall (.= None) ([reporter x; policy_check x] ++ controllers x ++ [runtime_memory x; topology x; kill_sandboxes x; priority_close x]) ∧
     calls_left x = false ∧ domain_oom_kills x = 0 ∧ host_oom_kills x = 0).
Proof.
  cbv zeta. split; [apply envelope_agrees|]. rewrite <- finalize_none. unfold envelope. destruct (finalize b x) as [[f|] i]; by cbn.
Qed.

(** Which arms count as trials.  An arm whose worker ends well and whose VMs are
    verified to be gone is taken as the outcome of a trial, which the supervisor does
    not repeat, exactly when no error of the infrastructure was met and it succeeded
    without losing telemetry, or an OOM kill was counted in the arm's domain, or it
    failed by a timeout, or by failures of sessions while the arm itself was not
    interrupted, or by an error whose text names memory or admission. *)
Theorem trial_iff (c : ExperimentSupervisor) (attempt : string) (a : ExperimentArm) (l : Collect.collected) (b : body) (x : finally) :
  let r := envelope attempt a l b x in
  is_trial_outcome (arm_result c a false (Some 0) (accepted_child a (Some r)) true) = true ↔
  (finalize b x).2 = None ∧
  match (finalize b x).1 with
  | None => native_tool_telemetry_loss_total (correctness r) = false
  | Some f => domain_oom_kills x ≠ 0 ∨ (∃ t, f = Timed_out t) ∨ (Collect.failures l ≠ [] ∧ interrupted b = false) ∨
      marked markers (lower (text_of f)) = OOM ∨ marked markers (lower (text_of f)) = ADMISSION
  end.
Proof.
  cbv zeta. rewrite envelope_result. destruct (finalize_founded b x) as [Hf Ho]. unfold envelope, founded, is_trial_outcome in *. destruct (finalize b x) as [f i]. cbn in Hf, Ho |- *.
  destruct i as [i|]; [destruct f; [cbn; naive_solver|by destruct (Hf (λ E, ltac:(discriminate E)))]|].
  destruct f as [f|]; [|destruct (Z.eqb_spec (domain_oom_kills x) 0) as [|H]; [|by destruct (Ho H)]; cbn; destruct (_ =? 0); naive_solver].
  etrans; [exact (categorised_trial f (domain_oom_kills x) (negb (bool_decide (Collect.failures l = []))) (interrupted b))|].
  rewrite andb_true_iff, !negb_true_iff, bool_decide_eq_false. naive_solver.
Qed.


(** The marker "oom" is found inside other words. *)
Example headroom_is_oom : failure_category_for FAILED "insufficient guest headroom for the VM pressure probe" = Some OOM.
Proof. vm_compute. done. Qed.
End Verdict.

(** ** Concurrency of the Tool operations *)

Module Sweep.
(** An operation: [start_unix_s] and [end_unix_s]. *)
Definition span : Type := Q * Q.
Definition edge : Type := Q * Z.
Definition compare_edges (x y : edge) : comparison := lex (Qcompare x.1 y.1) (Z.compare x.2 y.2).
Definition edges_of (l : list span) : list edge :=
  flat_map (λ s, if Qltb s.1 s.2 then [(s.1, 1); (s.2, -1)] else []) l.
Record sweep := Sweeping { active : Z; peak : Z; area : Q; previous : Q }.
Definition advance (s : sweep) (e : edge) : sweep :=
  let a := active s + e.2 in
  Sweeping a (Z.max (peak s) a) (area s + inject_Z (active s) * (e.1 - previous s))%Q e.1.
(** [min((t for t, _ in edges), default=0.)] and [max]. *)
Definition first_time (l : list edge) : Q := match l with [] => 0%Q | e :: l' => foldl (λ t e, if Qltb e.1 t then e.1 else t) e.1 l' end.
Definition last_time (l : list edge) : Q := match l with [] => 0%Q | e :: l' => foldl (λ t e, if Qltb t e.1 then e.1 else t) e.1 l' end.
Definition swept (l : list edge) : sweep := foldl advance (Sweeping 0 0 0%Q (first_time l)) (sort_by compare_edges l).
(** A span of the timeline of a session; [execution_scope] may be missing. *)
Record recorded := Recorded { name : string; execution_scope : option string; start_unix_s : Q; end_unix_s : Q }.
Definition counted (scope : option string) (r : recorded) : bool :=
  bool_decide (name r = "tool.operation") && match scope with None => true | Some _ => bool_decide (execution_scope r = scope) end.
(** The intervals that are swept, over the [recorded_time_spans] of each session. *)
Definition tool_spans (sessions : list (list recorded)) (scope : option string) : list span :=
  (λ r, (start_unix_s r, end_unix_s r)) <$> filter (λ r, counted scope r = true) (concat sessions).
Record concurrency := Concurrency { peak_of : option Z; mean_over_tool_window : option Q; interval_count : nat }.
Definition observed_tool_concurrency (sessions : list (list recorded)) (scope : option string) : concurrency :=
  let l := edges_of (tool_spans sessions scope) in
  let s := swept l in
  let window := (last_time l - first_time l)%Q in
  Concurrency (match l with [] => None | _ => Some (peak s) end)
    (if Qeq_bool window 0 then None else Some (area s / window)%Q) (length l / 2).

(** The reference: how many operations run at time [t], and how long they all run. *)
Definition running (t : Q) (s : span) : bool := Qle_bool s.1 t && Qltb t s.2.
Definition overlap (t : Q) (l : list span) : Z := Z.of_nat (length (filter (λ s, running t s = true) l)).
Definition total (l : list span) : Q := foldr (λ s acc, if Qltb s.1 s.2 then (s.2 - s.1 + acc)%Q else acc) 0%Q l.

(** *** Area *)

Definition deltas (l : list edge) : Z := zsum (snd <$> l).
Definition weights (l : list edge) : Q := foldr (λ e acc, (inject_Z e.2 * e.1 + acc)%Q) 0%Q l.
Lemma foldl_active l s : active (foldl advance s l) = active s + deltas l.
Proof.
  revert s. induction l as [|e l IH]; intros s; [unfold deltas; cbn; lia|]. cbn [foldl]. rewrite IH. unfold deltas. rewrite fmap_cons, zsum_cons. cbn. lia.
Qed.
Lemma weights_cons e l : weights (e :: l) = (inject_Z e.2 * e.1 + weights l)%Q.
Proof. done. Qed.
Lemma foldl_area l s : (area (foldl advance s l) - inject_Z (active (foldl advance s l)) * previous (foldl advance s l) ==
  area s - inject_Z (active s) * previous s - weights l)%Q.
Proof.
  revert s. induction l as [|e l IH]; intros s; [unfold weights; cbn [foldl foldr]; ring|]. cbn [foldl]. rewrite IH, weights_cons. cbn [active area previous advance]. rewrite inject_Z_plus. ring.
Qed.
Lemma weights_perm l1 l2 : l1 ≡ₚ l2 → (weights l1 == weights l2)%Q.
Proof. induction 1; rewrite ?weights_cons; [reflexivity|by rewrite IHPermutation|ring|etrans; eassumption]. Qed.
Lemma edges_deltas l : deltas (edges_of l) = 0.
Proof.
  induction l as [|s l IH]; [done|]. unfold edges_of. cbn [flat_map]. destruct (Qltb s.1 s.2); [|exact IH].
  change (1 + (-1 + deltas (edges_of l)) = 0). rewrite IH. done.
Qed.
Lemma edges_weights l : (weights (edges_of l) == - total l)%Q.
Proof.
  induction l as [|s l IH]; [reflexivity|].
  change (weights ((if Qltb s.1 s.2 then [(s.1, 1%Z); (s.2, (-1)%Z)] else []) ++ edges_of l) == - (if Qltb s.1 s.2 then s.2 - s.1 + total l else total l))%Q.
  destruct (Qltb s.1 s.2); [|exact IH]. cbn [app]. rewrite !weights_cons, IH. cbn [fst snd]. change (inject_Z 1) with 1%Q. change (inject_Z (-1)) with (-(1))%Q. ring.
Qed.
Lemma swept_area l : (area (swept (edges_of l)) == total l)%Q.
Proof.
  unfold swept. pose proof (foldl_area (sort_by compare_edges (edges_of l)) (Sweeping 0 0 0%Q (first_time (edges_of l)))) as H.
  rewrite foldl_active in H. cbn [active] in H. assert (deltas (sort_by compare_edges (edges_of l)) = 0) as Hd.
  { unfold deltas. rewrite (zsum_permutation _ (snd <$> edges_of l)) by (by rewrite sort_by_perm). apply edges_deltas. }
  rewrite Hd in H. rewrite (weights_perm _ (edges_of l)), edges_weights in H by apply sort_by_perm. cbn [area active previous] in H.
  change (inject_Z (0 + 0)) with 0%Q in H. change (inject_Z 0) with 0%Q in H. rewrite !Qmult_0_l in H. lra.
Qed.

(** *** Peak *)

Lemma deltas_app l1 l2 : deltas (l1 ++ l2) = deltas l1 + deltas l2.
Proof. unfold deltas. by rewrite fmap_app, zsum_app. Qed.
Lemma deltas_cons e l : deltas (e :: l) = e.2 + deltas l.
Proof. done. Qed.
Lemma foldl_peak l : ∀ s, let r := foldl advance s l in
  peak s <= peak r ∧ (∀ l1 l2, l = l1 ++ l2 → l1 ≠ [] → active s + deltas l1 <= peak r) ∧
  (peak r = peak s ∨ ∃ l1 e l2, l = l1 ++ e :: l2 ∧ peak r = active s + deltas (l1 ++ [e])).
Proof.
  induction l as [|e l IH]; intros s; cbn [foldl].
  { split_and!; [done| |by left]. by intros [] ? [=]. }
  destruct (IH (advance s e)) as (H1 & H2 & H3). cbn [active peak advance] in H1, H2, H3. cbn zeta. split_and!; [lia| |].
  - intros [|e' l1] l2 Hl Hne; [done|]. injection Hl as <- ->. rewrite deltas_cons. destruct l1 as [|e1 l1]; [change (deltas []) with 0; lia|].
    specialize (H2 (e1 :: l1) l2 eq_refl ltac:(done)). lia.
  - destruct H3 as [H3|(l1 & e' & l2 & -> & H3)].
    + destruct (Z.max_spec (peak s) (active s + e.2)) as [[_ Hm]|[_ Hm]]; rewrite Hm in H3; [right|by left].
      exists [], e, l. split; [done|]. rewrite H3. cbn [app]. rewrite deltas_cons. change (deltas []) with 0. lia.
    + right. exists (e :: l1), e', l2. split; [done|]. rewrite H3. cbn [app]. rewrite deltas_cons. lia.
Qed.
Definition until (t : Q) (l : list edge) : list edge := filter (λ e, Qle_bool e.1 t = true) l.
Lemma until_cons t e l : until t (e :: l) = if Qle_bool e.1 t then e :: until t l else until t l.
Proof. unfold until. rewrite filter_cons. by destruct (Qle_bool e.1 t). Qed.
Lemma until_app t l1 l2 : until t (l1 ++ l2) = until t l1 ++ until t l2.
Proof. apply filter_app. Qed.
Lemma overlap_cons t s l : overlap t (s :: l) = (if running t s then 1 else 0) + overlap t l.
Proof. unfold overlap. rewrite filter_cons. destruct (running t s); cbn [decide decide_rel]; case_decide; cbn; try lia; done. Qed.
Lemma overlap_until t l : overlap t l = deltas (until t (edges_of l)).
Proof.
  induction l as [|s l IH]; [done|]. rewrite overlap_cons, IH. unfold running.
  change (edges_of (s :: l)) with ((if Qltb s.1 s.2 then [(s.1, 1%Z); (s.2, (-1)%Z)] else []) ++ edges_of l).
  destruct (Qltb_spec s.1 s.2), (Qle_bool_spec s.1 t), (Qltb_spec t s.2); try lra; cbn [app andb]; rewrite ?until_cons; cbn [fst];
    destruct (Qle_bool_spec s.1 t), (Qle_bool_spec s.2 t); try lra; rewrite ?deltas_cons; cbn [snd]; lia.
Qed.
Lemma until_perm t l1 l2 : l1 ≡ₚ l2 → deltas (until t l1) = deltas (until t l2).
Proof. intros H. unfold deltas, until. apply zsum_permutation. by rewrite H. Qed.
Lemma compare_ok : cmp_ok compare_edges.
Proof. unfold compare_edges. apply cmp_ok_lex; [apply cmp_ok_Q|apply cmp_ok_Z]. Qed.
Lemma compare_le x y : cmp_le compare_edges x y → (x.1 < y.1)%Q ∨ (x.1 == y.1)%Q ∧ x.2 <= y.2.
Proof.
  unfold cmp_le, compare_edges. destruct (Qcompare_spec x.1 y.1); cbn; [|auto|done]. rewrite Z.compare_ngt_iff. intros ?. right. split; [done|lia].
Qed.
(** What a sorted list has until [t] is a prefix of it. *)
Lemma until_prefix t l : StronglySorted (cmp_le compare_edges) l → ∃ l2, l = until t l ++ l2.
Proof.
  induction 1 as [|e l Hs IH He]; [by exists []|]. rewrite until_cons. destruct (Qle_bool_spec e.1 t) as [H|H].
  - destruct IH as (l2 & Hl). exists l2. cbn. by rewrite <- Hl.
  - exists (e :: l). assert (until t l = []) as ->; [|done]. clear Hs IH. induction He as [|e' l He' _ IH]; [done|]. rewrite until_cons.
    destruct (Qle_bool_spec e'.1 t) as [H'|H']; [|exact IH]. apply compare_le in He'. exfalso. destruct He' as [?|[? _]]; lra.
Qed.
(** From a start on, what is at the same time are starts. *)
Lemma until_same e l : e.2 = 1 → Forall (cmp_le compare_edges e) l → Forall (λ x, x.2 = 1 ∨ x.2 = -1) l → 0 <= deltas (until e.1 l).
Proof.
  intros He Hl Hd. induction l as [|x l IH]; [done|]. apply Forall_cons in Hl as [Hx Hl], Hd as [Hdx Hd]. rewrite until_cons. specialize (IH Hl Hd).
  destruct (Qle_bool_spec x.1 e.1) as [H|H]; [|done]. rewrite deltas_cons. apply compare_le in Hx. destruct Hx as [?|[_ ?]]; [lra|lia].
Qed.
Lemma until_all t l : Forall (λ e, (e.1 <= t)%Q) l → until t l = l.
Proof. induction 1 as [|e l He _ IH]; [done|]. rewrite until_cons, IH. by destruct (Qle_bool_spec e.1 t). Qed.
Lemma edges_units l : Forall (λ e, e.2 = 1 ∨ e.2 = -1) (edges_of l).
Proof. induction l as [|s l IH]; [constructor|]. unfold edges_of. cbn [flat_map]. destruct (Qltb s.1 s.2); [|exact IH]. cbn. repeat (constructor; [auto|]). exact IH. Qed.

Lemma swept_bound l t : overlap t l <= peak (swept (edges_of l)).
Proof.
  rewrite overlap_until, <- (until_perm t (sort_by compare_edges (edges_of l))) by apply sort_by_perm.
  destruct (until_prefix t _ (sort_by_sorted _ (edges_of l) compare_ok)) as (l2 & Hl).
  destruct (foldl_peak (sort_by compare_edges (edges_of l)) (Sweeping 0 0 0%Q (first_time (edges_of l)))) as (H1 & H2 & _). fold (swept (edges_of l)) in *.
  cbn [active peak] in *. destruct (until t (sort_by compare_edges (edges_of l))) as [|e l1] eqn:E; [exact H1|]. exact (H2 _ _ Hl ltac:(done)).
Qed.
Lemma edges_none l : edges_of l = [] ↔ Forall (λ s, (s.2 <= s.1)%Q) l.
Proof.
  induction l as [|s l IH]; [by split|]. rewrite Forall_cons, <- IH. unfold edges_of. cbn [flat_map]. fold (edges_of l).
  destruct (Qltb_spec s.1 s.2) as [H|H]; cbn [app]; [split; [done|intros [? _]; lra]|]. apply Qnot_lt_le in H. tauto.
Qed.
Lemma overlap_start l s : s ∈ l → (s.1 < s.2)%Q → 1 <= overlap s.1 l.
Proof.
  intros Hs Hlt. unfold overlap. destruct (filter _ l) as [|x l'] eqn:E; [|cbn; lia]. exfalso. eapply filter_nil_not_elem_of; [exact E| |exact Hs].
  unfold running. apply andb_true_iff. split; [apply Qle_bool_iff; lra|]. by destruct (Qltb_spec s.1 s.2).
Qed.
Lemma swept_reached l : edges_of l ≠ [] → ∃ t, overlap t l = peak (swept (edges_of l)).
Proof.
  intros Hne. destruct (foldl_peak (sort_by compare_edges (edges_of l)) (Sweeping 0 0 0%Q (first_time (edges_of l)))) as (H1 & H2 & H3). fold (swept (edges_of l)) in *.
  cbn [active peak] in *. pose proof (sort_by_sorted _ (edges_of l) compare_ok) as Hs. pose proof (sort_by_perm compare_edges (edges_of l)) as Hp.
  destruct H3 as [H3|(l1 & e & l2 & Hl & H3)].
  - exfalso. apply Hne, edges_none, Forall_forall. intros s Hin. destruct (Qlt_le_dec s.1 s.2) as [Hlt|]; [|done].
    pose proof (overlap_start l s Hin Hlt). pose proof (swept_bound l s.1). lia.
  - rewrite Hl in Hs. apply StronglySorted_app in Hs as (Hle & _ & He). apply StronglySorted_inv in He as [_ He].
    assert (Forall (λ e, e.2 = 1 ∨ e.2 = -1) (l1 ++ e :: l2)) as Hu by (rewrite <- Hl, Hp; apply edges_units). apply Forall_app in Hu as [_ [Hu Hu2]%Forall_cons].
    destruct Hu as [Hu|Hu].
    + exists e.1. apply Z.le_antisymm; [apply swept_bound|]. rewrite overlap_until, <- (until_perm _ _ _ Hp), Hl, H3. rewrite until_app, until_cons.
      assert (Qle_bool e.1 e.1 = true) as -> by (apply Qle_bool_iff; lra). rewrite until_all.
      * rewrite !deltas_app, !deltas_cons. change (deltas []) with 0. pose proof (until_same e l2 Hu He Hu2). lia.
      * apply Forall_forall. intros x Hx. specialize (Hle x e Hx (list_elem_of_here _ _)). apply compare_le in Hle. destruct Hle as [?|[? _]]; lra.
    + exfalso. rewrite deltas_app, deltas_cons in H3. change (deltas []) with 0 in H3. destruct l1 as [|x l1]; [change (deltas []) with 0 in H3; lia|].
      specialize (H2 (x :: l1) (e :: l2) Hl ltac:(done)). lia.
Qed.
Lemma edges_length l : length (edges_of l) = (2 * length (filter (λ s, Qltb s.1 s.2 = true) l))%nat.
Proof.
  induction l as [|s l IH]; [done|]. change (edges_of (s :: l)) with ((if Qltb s.1 s.2 then [(s.1, 1%Z); (s.2, (-1)%Z)] else []) ++ edges_of l).
  rewrite filter_cons. unfold span, edge in *. destruct (Qltb s.1 s.2); case_decide; try done; cbn [app length]; lia.
Qed.

End Sweep.
