(* ===== verification/CpuUsage.v ===== *)
(** * CPU usage of the quality-of-service classes (src/clawbox/experiments/cpu_qos.py)

    [CpuQosUsageSampler] sums the CPU ticks of registered vCPU threads per class.
    [register] and [sample] read /proc without the lock: each is a locked block, a
    number of readings and a second locked block, and the blocks and readings of
    several callers interleave freely.  A reading is of the moment at which it is made. *)
From S2P Require Import Prelude.

Module Usage.
Inductive qos := ls | be.
#[export] Instance qos_eq_dec : EqDecision qos.
Proof. solve_decision. Defined.
(** A dictionary with the keys "ls" and "be". *)
Record per (A : Type) := Per { of_ls : A; of_be : A }.
Arguments Per {A}. Arguments of_ls {A}. Arguments of_be {A}.
Definition at_ {A} (q : qos) (p : per A) : A := match q with ls => of_ls p | be => of_be p end.
Definition update {A} (q : qos) (f : A → A) (p : per A) : per A :=
  match q with ls => Per (f (of_ls p)) (of_be p) | be => Per (of_ls p) (f (of_be p)) end.
Definition both {A} (a : A) : per A := Per a a.

(** A thread: its id and its start time. *)
Notation key := (Z * Z)%type.
(** [vm_key] names a VM. *)
Record entry := Entry { vm_key : string; qos_class : qos; previous_ticks : Z; read_epoch : Z }.
#[export] Instance entry_eq_dec : EqDecision entry.
Proof. solve_decision. Defined.
Record change := Change { new_threads : Z; departed_threads : Z; lost_exit_tail_threads : Z; registration_failures : Z }.
Definition no_change : change := Change 0 0 0 0.
Record sampler := Sampler {
  hz : Z; logical_cpus : Z; threads : gmap key entry; vm_keys : gmap string (gset key); tid_keys : gmap Z key; pending : per change;
  total_ticks : per Z; total_samples : per Z; total_lost : per Z; last_sample : Q; sample_epoch : Z }.
(** The constructor, with the clock at its end. *)
Definition sampler_init (cpus ticks_per_second : Z) (clock : Q) : outcome sampler :=
  if cpus =? 0 then Raise (ValueError "CPU QoS usage requires an explicit nonempty CPU capacity mask")
  else if ticks_per_second <=? 0 then Raise (ValueError "CPU accounting clock ticks must be positive")
  else Ok (Sampler ticks_per_second cpus ∅ ∅ ∅ (both no_change) (both 0) (both 0) (both 0) clock 0).
Definition set_books (t : gmap key entry) (v : gmap string (gset key)) (i : gmap Z key) (s : sampler) : sampler :=
  Sampler (hz s) (logical_cpus s) t v i (pending s) (total_ticks s) (total_samples s) (total_lost s) (last_sample s) (sample_epoch s).
Definition set_pending (p : per change) (s : sampler) : sampler :=
  Sampler (hz s) (logical_cpus s) (threads s) (vm_keys s) (tid_keys s) p (total_ticks s) (total_samples s) (total_lost s) (last_sample s) (sample_epoch s).
Definition set_totals (t n l : per Z) (s : sampler) : sampler :=
  Sampler (hz s) (logical_cpus s) (threads s) (vm_keys s) (tid_keys s) (pending s) t n l (last_sample s) (sample_epoch s).
Definition set_epoch (clock : Q) (e : Z) (s : sampler) : sampler :=
  Sampler (hz s) (logical_cpus s) (threads s) (vm_keys s) (tid_keys s) (pending s) (total_ticks s) (total_samples s) (total_lost s) clock e.

Definition arrived (c : change) : change := Change (new_threads c + 1) (departed_threads c) (lost_exit_tail_threads c) (registration_failures c).
Definition departed (c : change) : change := Change (new_threads c) (departed_threads c + 1) (lost_exit_tail_threads c + 1) (registration_failures c).
Definition failed (n : Z) (c : change) : change := Change (new_threads c) (departed_threads c) (lost_exit_tail_threads c) (registration_failures c + n).

(** [_drop] *)
Definition drop (k : key) (s : sampler) : outcome sampler :=
  match threads s !! k with
  | None => Raise (KeyError "thread")
  | Some e =>
      match vm_keys s !! vm_key e with
      | None => Raise (KeyError "vm")
      | Some ks => Ok (set_pending (update (qos_class e) departed (pending s))
          (set_books (delete k (threads s)) (<[vm_key e := ks ∖ {[k]}]> (vm_keys s)) (delete k.1 (tid_keys s)) s))
      end
  end.
Fixpoint each {A} (f : A → sampler → outcome sampler) (l : list A) (s : sampler) : outcome sampler :=
  match l with
  | [] => Ok s
  | x :: l' => f x s ≫= each f l'
  end.

(** ** [register] *)

(** What [_read] returns. *)
Notation reading := (option (key * Z)).
(** The thread that has the id gives way if it is another or belongs elsewhere. *)
Definition displace (vm : string) (q : qos) (k : key) (s : sampler) : outcome sampler :=
  match tid_keys s !! k.1 with
  | None => Ok s
  | Some p =>
      if bool_decide (p ≠ k) then drop p s
      else match threads s !! p with
           | None => Raise (KeyError "thread")
           | Some e => if bool_decide (vm_key e = vm ∧ qos_class e = q) then Ok s else drop p s
           end
  end.
Definition insert_new (vm : string) (q : qos) (epoch : Z) (k : key) (ticks : Z) (s : sampler) : outcome sampler :=
  match threads s !! k with
  | Some _ => Ok s
  | None =>
      match vm_keys s !! vm with
      | None => Raise (KeyError "vm")
      | Some ks => Ok (set_pending (update q arrived (pending s))
          (set_books (<[k := Entry vm q ticks epoch]> (threads s)) (<[vm := ks ∪ {[k]}]> (vm_keys s)) (<[k.1 := k]> (tid_keys s)) s))
      end
  end.
Definition enroll (vm : string) (q : qos) (epoch : Z) (r : reading) (s : sampler) : outcome sampler :=
  match r with
  | None => Ok s
  | Some (k, ticks) => displace vm q k s ≫= insert_new vm q epoch k ticks
  end.
Definition present (got : list reading) : gset key := list_to_set (omap (fmap fst) got).
Definition unread (got : list reading) : Z := Z.of_nat (length (filter (λ r : reading, r = None) got)).
Definition set_default (vm : string) (s : sampler) : sampler :=
  match vm_keys s !! vm with
  | Some _ => s
  | None => set_books (threads s) (<[vm := ∅]> (vm_keys s)) (tid_keys s) s
  end.
(** The second locked block. *)
Definition enrolled (vm : string) (q : qos) (epoch : Z) (got : list reading) (s : sampler) : outcome sampler :=
  let s := set_pending (update q (failed (unread got)) (pending s)) s in
  each drop (elements (default ∅ (vm_keys s !! vm) ∖ present got)) s ≫= λ s,
  each (enroll vm q epoch) got (set_default vm s).

(** ** [sample] *)

Record tally := Tally { ticks : per Z; observed : per Z; crossed_boundary : per Z }.
Definition tally_init : tally := Tally (both 0) (both 0) (both 0).
Definition counted (q : qos) (d : Z) (crossed : bool) (a : tally) : tally :=
  Tally (update q (Z.add d) (ticks a)) (update q (Z.add 1) (observed a)) (if crossed then update q (Z.add 1) (crossed_boundary a) else crossed_boundary a).
(** The body of the loop over the snapshot. *)
Definition visit (epoch : Z) (readings : gmap key (key * Z)) (x : key * entry) (s : sampler) (a : tally) : outcome (sampler * tally) :=
  let '(k, e) := x in
  if bool_decide (threads s !! k ≠ Some e) then Ok (s, a)
  else match readings !! k with
       | Some (k', now) =>
           if bool_decide (k' ≠ k) || (now <? previous_ticks e) then s ← drop k s; Ok (s, a)
           else Ok (set_books (<[k := Entry (vm_key e) (qos_class e) now (epoch + 1)]> (threads s)) (vm_keys s) (tid_keys s) s,
                    counted (qos_class e) (now - previous_ticks e) (negb (read_epoch e =? epoch)) a)
       | None => s ← drop k s; Ok (s, a)
       end.
Fixpoint visits (epoch : Z) (readings : gmap key (key * Z)) (l : list (key * entry)) (s : sampler) (a : tally) : outcome (sampler * tally) :=
  match l with
  | [] => Ok (s, a)
  | x :: l' => '(s, a) ← visit epoch readings x s a; visits epoch readings l' s a
  end.
(** [sum(f(state) for state in self._threads.values())] of a condition. *)
Definition count (f : entry → bool) (s : sampler) : Z := msum (λ _ e, if f e then 1 else 0) (threads s).
Definition of_class (q : qos) (e : entry) : bool := bool_decide (qos_class e = q).
Definition unaligned (q : qos) (epoch : Z) (s : sampler) : Z := count (λ e, of_class q e && negb (read_epoch e =? epoch + 1)) s.

Record class := Class {
  changes : change; sampled_threads : Z; unaligned_interval_threads : Z; registered_threads : Z; observed_cpu_seconds : option Q;
  observed_load_fraction : option Q; observed_load_fraction_lower_bound : option Q; complete : bool; lost_exit_tail : bool;
  cumulative_observed_cpu_seconds : option Q; cumulative_complete : bool }.
Definition truthy (z : Z) : bool := negb (z =? 0).
(** The body of the loop over the classes. *)
Definition classify (q : qos) (epoch : Z) (elapsed : Q) (a : tally) (s : sampler) : sampler * class :=
  let c := at_ q (pending s) in
  let missing := lost_exit_tail_threads c + registration_failures c in
  let not_aligned := at_ q (crossed_boundary a) + unaligned q epoch s in
  let s' := set_totals (update q (Z.add (at_ q (ticks a))) (total_ticks s)) (update q (Z.add (at_ q (observed a))) (total_samples s))
    (update q (Z.add missing) (total_lost s)) s in
  let partial := truthy missing || truthy not_aligned in
  let seconds := if truthy (at_ q (observed a)) || negb partial then Some (inject_Z (at_ q (ticks a)) / inject_Z (hz s))%Q else None in
  let load := match seconds with Some x => if Qltb 0 elapsed then Some (x / elapsed / inject_Z (logical_cpus s))%Q else None | None => None end in
  (set_pending (update q (λ _, no_change) (pending s')) s',
   Class c (at_ q (observed a)) not_aligned (count (of_class q) s) seconds (if partial then None else load) (if truthy missing && negb (truthy not_aligned) then load else None)
     (negb partial) (truthy (lost_exit_tail_threads c))
     (if truthy (at_ q (total_samples s')) || negb (truthy (at_ q (total_lost s'))) then Some (inject_Z (at_ q (total_ticks s')) / inject_Z (hz s))%Q else None)
     (negb (truthy (at_ q (total_lost s'))))).
Record report := Report { elapsed_seconds : Q; sample_read_seconds : Q; classes : per class }.
(** The second locked block and the report. *)
Definition sampled (read_started sampled_at : Q) (snapshot : gmap key entry) (readings : gmap key (key * Z)) (s : sampler) : outcome (sampler * report) :=
  let elapsed := (sampled_at - last_sample s)%Q in
  let epoch := sample_epoch s in
  '(s, a) ← visits epoch readings (map_to_list snapshot) (set_epoch sampled_at (epoch + 1) s) tally_init;
  let '(s, c_ls) := classify ls epoch elapsed a s in
  let '(s, c_be) := classify be epoch elapsed a s in
  Ok (s, Report elapsed (sampled_at - read_started)%Q (Per c_ls c_be)).

(** ** Callers that interleave *)

(** A call of [register] or [sample] between its two blocks; a sample remembers when
    its snapshot was taken. *)
Inductive caller :=
  | Registering (vm : string) (q : qos) (epoch : Z) (todo : list Z) (got : list reading)
  | Sampling (began : nat) (read_started : Q) (snapshot : gmap key entry) (todo : list key) (got : gmap key (key * Z))
  | Over.
(** [now] counts the steps; [window] is the beginning of the last sample that was
    committed. *)
Record world := World { books : sampler; callers : list caller; now : nat; window : nat; reports : list report }.
Definition world_init (s : sampler) : world := World s [] 0 0 [].
Inductive event := Register (vm : string) (q : option qos) (tids : list Z) | Sample (clock : Q) | Read (i : nat) | Commit (i : nat) (clock : Q).

Section kernel.
(** /proc: the start time and the ticks of a thread at a moment, if they can be read. *)
Variable stat : nat → Z → option (Z * Z).
Definition _read (t : nat) (tid : Z) : reading := '(start, n) ← stat t tid; Some ((tid, start), n).
Definition set_caller (i : nat) (c : caller) (w : world) : world := World (books w) (<[i := c]> (callers w)) (now w) (window w) (reports w).
Definition act (ev : event) (w : world) : outcome world :=
  match ev with
  | Register vm q tids =>
      match q with
      | None => Ok w
      | Some q => Ok (World (books w) (callers w ++ [Registering vm q (sample_epoch (books w)) (remove_dups tids) []]) (now w) (window w) (reports w))
      end
  | Sample clock =>
      Ok (World (books w) (callers w ++ [Sampling (now w) clock (threads (books w)) (map_to_list (threads (books w))).*1 ∅]) (now w) (window w) (reports w))
  | Read i =>
      Ok match callers w !! i with
         | Some (Registering vm q epoch (t :: todo) got) => set_caller i (Registering vm q epoch todo (got ++ [_read (now w) t])) w
         | Some (Sampling began started snap (k :: todo) got) => set_caller i (Sampling began started snap todo (partial_alter (λ _, _read (now w) k.1) k got)) w
         | _ => w
         end
  | Commit i clock =>
      match callers w !! i with
      | Some (Registering vm q epoch [] got) =>
          s ← enrolled vm q epoch got (books w); Ok (World s (<[i := Over]> (callers w)) (now w) (window w) (reports w))
      | Some (Sampling began started snap [] got) =>
          '(s, r) ← sampled started clock snap got (books w); Ok (World s (<[i := Over]> (callers w)) (now w) began (reports w ++ [r]))
      | _ => Ok w
      end
  end.
Definition step (ev : event) (w : world) : outcome world :=
  w ← act ev w; Ok (World (books w) (callers w) (S (now w)) (window w) (reports w)).
Fixpoint run (l : list event) (w : world) : outcome world :=
  match l with
  | [] => Ok w
  | ev :: l' => step ev w ≫= run l'
  end.
End kernel.
(** ** The books agree *)

Record books_ok (s : sampler) : Prop := {
  tid_of : ∀ k e, threads s !! k = Some e → tid_keys s !! k.1 = Some k;
  vm_of : ∀ k e, threads s !! k = Some e → ∃ ks, vm_keys s !! vm_key e = Some ks ∧ k ∈ ks;
  tid_back : ∀ t k, tid_keys s !! t = Some k → k.1 = t ∧ is_Some (threads s !! k);
  vm_back : ∀ v ks k, vm_keys s !! v = Some ks → k ∈ ks → ∃ e, threads s !! k = Some e ∧ vm_key e = v }.
(** What the reports have not told yet balances with what they have told, [B]. *)
Definition balanced (B : qos → Z) (s : sampler) : Prop := ∀ q, let c := at_ q (pending s) in
  count (of_class q) s = B q + new_threads c - departed_threads c ∧
  lost_exit_tail_threads c = departed_threads c ∧ 0 <= departed_threads c ∧ 0 <= registration_failures c.
Definition sound (B : qos → Z) (s : sampler) : Prop := books_ok s ∧ balanced B s.
(** What registrations and departures leave alone. *)
Definition frame (s : sampler) := (hz s, logical_cpus s, (total_ticks s, total_samples s, total_lost s), (last_sample s, sample_epoch s)).

Lemma at_update {A} q q' (f : A → A) p : at_ q (update q' f p) = if decide (q = q') then f (at_ q p) else at_ q p.
Proof. by destruct q, q'. Qed.
Lemma class_cases q e : of_class q e = if decide (qos_class e = q) then true else false.
Proof. unfold of_class. by repeat case_decide. Qed.
Lemma drop_sound B k e s : sound B s → threads s !! k = Some e →
  ∃ s', drop k s = Ok s' ∧ sound B s' ∧ threads s' = delete k (threads s) ∧ frame s' = frame s ∧
    dom (vm_keys s') = dom (vm_keys s) ∧ tid_keys s' = delete k.1 (tid_keys s) ∧ pending s' = update (qos_class e) departed (pending s).
Proof.
  intros [Hb Hc] Hk. destruct (vm_of s Hb k e Hk) as (ks & Hv & Hin). pose proof (tid_of s Hb k e Hk) as Ht. unfold drop. rewrite Hk, Hv. eexists. split; [reflexivity|]. split_and!; [split|done..| |done|done].
  - split; cbn [threads tid_keys vm_keys set_pending set_books].
    + intros k' e' [Hne H]%lookup_delete_Some. pose proof (tid_of s Hb _ _ H) as Ht'. rewrite lookup_delete_ne; [done|]. intros E. rewrite <- E in Ht'. congruence.
    + intros k' e' [Hne H]%lookup_delete_Some. destruct (vm_of s Hb _ _ H) as (ks' & Hv' & Hin'). destruct (decide (vm_key e' = vm_key e)) as [E|E].
      * rewrite E, lookup_insert_eq. eexists. split; [done|]. rewrite E in Hv'. simplify_eq. set_solver.
      * rewrite lookup_insert_ne by done. eauto.
    + intros t k' [Hne H]%lookup_delete_Some. destruct (tid_back s Hb _ _ H) as [<- Hs]. split; [done|]. rewrite lookup_delete_ne by congruence. done.
    + intros v ks' k' H Hin'. apply lookup_insert_Some in H as [[<- <-]|[Hne H]].
      * destruct (vm_back s Hb _ _ k' Hv) as (e' & H' & E); [set_solver|]. exists e'. split; [|done]. rewrite lookup_delete_ne; [done|]. set_solver.
      * destruct (vm_back s Hb _ _ k' H Hin') as (e' & H' & E). exists e'. split; [|done]. rewrite lookup_delete_ne; [done|]. congruence.
  - intros q. destruct (Hc q) as (H1 & H2 & H3 & H4). unfold count in *. cbn [threads pending set_pending set_books]. rewrite at_update, msum_delete_default, Hk. cbn [from_option]. rewrite class_cases.
    destruct (decide (q = qos_class e)), (decide (qos_class e = q)); try congruence; cbn; lia.
  - cbn. rewrite dom_insert_L. apply elem_of_dom_2 in Hv. set_solver.
Qed.
Lemma drops_sound B l : ∀ s, sound B s → NoDup l → (∀ k, k ∈ l → is_Some (threads s !! k)) →
  ∃ s', each drop l s = Ok s' ∧ sound B s' ∧ threads s' ⊆ threads s ∧ frame s' = frame s.
Proof.
  induction l as [|k l IH]; intros s Hs Hn Hl; [by exists s|]. apply NoDup_cons in Hn as [Hk Hn]. destruct (Hl k) as [e He]; [set_solver|]. cbn [each].
  destruct (drop_sound B k e s Hs He) as (s1 & -> & Hs1 & Ht & Hf & _). cbn [mbind outcome_bind]. destruct (IH s1 Hs1 Hn) as (s2 & -> & Hs2 & Hsub & Hf2).
  { intros k' Hk'. rewrite Ht, lookup_delete_ne by (intros ->; done). apply Hl. set_solver. }
  exists s2. split_and!; [done..| |congruence]. etrans; [exact Hsub|]. rewrite Ht. apply delete_subseteq.
Qed.
Lemma displace_sound B vm q k s : sound B s → ∃ s', displace vm q k s = Ok s' ∧ sound B s' ∧ threads s' ⊆ threads s ∧ frame s' = frame s ∧
  dom (vm_keys s') = dom (vm_keys s) ∧ (tid_keys s' !! k.1 = None ∨ is_Some (threads s' !! k)).
Proof.
  intros Hs. unfold displace. destruct (tid_keys s !! k.1) as [p|] eqn:E; [|by exists s; auto 10]. destruct (tid_back s (proj1 Hs) _ _ E) as [Hp [e He]].
  destruct (drop_sound B p e s Hs He) as (s1 & E1 & Hs1 & Ht & Hf & Hd & Hi & _).
  assert (drop p s = Ok s1 → ∃ s', drop p s = Ok s' ∧ sound B s' ∧ threads s' ⊆ threads s ∧ frame s' = frame s ∧ dom (vm_keys s') = dom (vm_keys s) ∧ (tid_keys s' !! k.1 = None ∨ is_Some (threads s' !! k))) as Hdrop.
  { intros _. exists s1. split_and!; [done..| | | |]; [rewrite Ht; apply delete_subseteq|done|done|]. left. by rewrite Hi, Hp, lookup_delete_eq. }
  destruct (decide (p = k)) as [->|Hpk]; [|rewrite bool_decide_true by done; by apply Hdrop]. rewrite bool_decide_false by auto.
  rewrite He.
  case_bool_decide; [|by apply Hdrop]. exists s. split_and!; eauto.
Qed.
Lemma insert_sound B vm q epoch k n s : sound B s → vm ∈ dom (vm_keys s) → tid_keys s !! k.1 = None ∨ is_Some (threads s !! k) →
  ∃ s', insert_new vm q epoch k n s = Ok s' ∧ sound B s' ∧ (∀ k' e, threads s' !! k' = Some e → threads s !! k' = Some e ∨ k' = k ∧ e = Entry vm q n epoch) ∧
    frame s' = frame s ∧ dom (vm_keys s') = dom (vm_keys s).
Proof.
  intros [Hb Hc] [ks Hv]%elem_of_dom Hk. unfold insert_new. destruct (threads s !! k) as [e|] eqn:E; [exists s; split_and!; [done|by split|auto|done|done]|]. rewrite Hv.
  destruct Hk as [Hk|[? ?]]; [|done]. eexists. split; [reflexivity|]. split_and!; [split| |done|].
  - split; cbn [threads tid_keys vm_keys set_pending set_books].
    + intros k' e' [[<- <-]|[Hne H]]%lookup_insert_Some; [by rewrite lookup_insert_eq|]. pose proof (tid_of s Hb _ _ H) as Ht. rewrite lookup_insert_ne; [done|]. congruence.
    + intros k' e' [[<- <-]|[Hne H]]%lookup_insert_Some; [cbn; rewrite lookup_insert_eq; eexists; split; [done|set_solver]|].
      destruct (vm_of s Hb _ _ H) as (ks' & Hv' & Hin'). destruct (decide (vm_key e' = vm)) as [Ev|]; [|rewrite lookup_insert_ne by done; eauto].
      rewrite Ev in Hv' |- *. rewrite lookup_insert_eq. simplify_eq. eexists. split; [done|set_solver].
    + intros t k' [[<- <-]|[Hne H]]%lookup_insert_Some; [by rewrite lookup_insert_eq|]. destruct (tid_back s Hb _ _ H) as [<- [e' H']]. rewrite lookup_insert_ne by congruence. eauto.
    + intros v ks' k' [[<- <-]|[Hne H]]%lookup_insert_Some Hin.
      * destruct (decide (k' = k)) as [->|]; [rewrite lookup_insert_eq; by eexists|]. destruct (vm_back s Hb _ _ k' Hv) as (e' & ? & ?); [set_solver|]. rewrite lookup_insert_ne by done. eauto.
      * destruct (vm_back s Hb _ _ k' H Hin) as (e' & ? & ?). rewrite lookup_insert_ne by congruence. eauto.
  - intros q'. destruct (Hc q') as (H1 & H2 & H3 & H4). unfold count in *. cbn [threads pending set_pending set_books]. rewrite at_update, msum_insert_new by done. rewrite class_cases. cbn [qos_class].
    destruct (decide (q' = q)), (decide (q = q')); try congruence; cbn; lia.
  - cbn. intros k' e [[<- <-]|[_ H]]%lookup_insert_Some; auto.
  - cbn. rewrite dom_insert_L. apply elem_of_dom_2 in Hv. set_solver.
Qed.
(** The entries that an enrolment adds. *)
Definition adds (vm : string) (q : qos) (epoch : Z) (got : list reading) (s s' : sampler) : Prop :=
  ∀ k e, threads s' !! k = Some e → threads s !! k = Some e ∨ ∃ n, Some (k, n) ∈ got ∧ e = Entry vm q n epoch.
Lemma enrolls_sound B vm q epoch got : ∀ s, sound B s → vm ∈ dom (vm_keys s) →
  ∃ s', each (enroll vm q epoch) got s = Ok s' ∧ sound B s' ∧ adds vm q epoch got s s' ∧ frame s' = frame s.
Proof.
  induction got as [|r got IH]; intros s Hs Hv; [exists s; split_and!; [done..| |done]; by left|]. cbn [each].
  assert (∃ s1, enroll vm q epoch r s = Ok s1 ∧ sound B s1 ∧ adds vm q epoch [r] s s1 ∧ frame s1 = frame s ∧ vm ∈ dom (vm_keys s1)) as (s1 & -> & Hs1 & Ha & Hf & Hv1).
  { destruct r as [[k n]|]; [|exists s; split_and!; [done..| |done|done]; by left]. cbn [enroll]. destruct (displace_sound B vm q k s Hs) as (s1 & -> & Hs1 & Hsub & Hf & Hd & Ht). cbn [mbind outcome_bind].
    destruct (insert_sound B vm q epoch k n s1 Hs1 ltac:(by rewrite Hd) Ht) as (s2 & -> & Hs2 & Hi & Hf2 & Hd2). exists s2. split_and!; [done..| |congruence|by rewrite Hd2, Hd].
    intros k' e [H|[-> ->]]%Hi; [left; by eapply lookup_weaken|right]. exists n. split; [constructor|done]. }
  cbn [mbind outcome_bind]. destruct (IH s1 Hs1 Hv1) as (s2 & -> & Hs2 & Ha2 & Hf2). exists s2. split_and!; [done..| |congruence].
  intros k e [H|(n & Hn & ->)]%Ha2; [|right; exists n; split; [by constructor|done]]. destruct (Ha k e H) as [?|(n & Hn & ->)]; [by left|right]. exists n. split; [|done].
  apply list_elem_of_singleton in Hn as ->. constructor.
Qed.
Lemma set_default_sound B vm s : sound B s → sound B (set_default vm s) ∧ vm ∈ dom (vm_keys (set_default vm s)) ∧ threads (set_default vm s) = threads s ∧ frame (set_default vm s) = frame s.
Proof.
  intros [Hb Hc]. unfold set_default. destruct (vm_keys s !! vm) as [ks|] eqn:E; [split_and!; [done|by eapply elem_of_dom_2|done|done]|]. split_and!; [|cbn; set_solver|done|done]. split; [|exact Hc].
  split; cbn [threads tid_keys vm_keys set_books]; [apply Hb| |apply Hb|].
  - intros k e H. destruct (vm_of s Hb k e H) as (ks & Hv & Hin). exists ks. split; [|done]. rewrite lookup_insert_ne; [done|]. congruence.
  - intros v ks k [[<- <-]|[_ H]]%lookup_insert_Some Hin; [set_solver|]. by eapply vm_back.
Qed.
Lemma enrolled_sound B vm q epoch got s : sound B s → ∃ s', enrolled vm q epoch got s = Ok s' ∧ sound B s' ∧ adds vm q epoch got s s' ∧ frame s' = frame s.
Proof.
  intros Hs. unfold enrolled. set (s1 := set_pending _ s). assert (sound B s1) as Hs1.
  { destruct Hs as [Hb Hc]. split; [by destruct Hb; split|]. intros q'. destruct (Hc q') as (H1 & H2 & H3 & H4). cbn. rewrite at_update. unfold count in *. cbn. destruct (decide _); cbn; unfold unread; split_and!; lia. }
  destruct (drops_sound B (elements (default ∅ (vm_keys s1 !! vm) ∖ present got)) s1 Hs1) as (s2 & -> & Hs2 & Hsub & Hf); [apply NoDup_elements| |].
  { intros k [Hk _]%elem_of_elements%elem_of_difference. destruct (vm_keys s1 !! vm) as [ks|] eqn:E; [|cbn in Hk; set_solver]. destruct (vm_back s1 (proj1 Hs1) vm ks k E Hk) as (e & -> & _). done. }
  cbn [mbind outcome_bind]. destruct (set_default_sound B vm s2 Hs2) as (Hs3 & Hv & Ht & Hf3). destruct (enrolls_sound B vm q epoch got _ Hs3 Hv) as (s4 & -> & Hs4 & Ha & Hf4).
  exists s4. split_and!; [done..| |rewrite Hf4, Hf3, Hf; done]. intros k e [H|H]%Ha; [left|by right]. rewrite Ht in H. exact (lookup_weaken _ _ _ _ H Hsub).
Qed.
(** ** What the loop over the snapshot counts *)

Section swept.
Variables (s0 : sampler) (l : list (key * entry)) (readings : gmap key (key * Z)) (epoch : Z).
Hypothesis earlier : ∀ k e, threads s0 !! k = Some e → read_epoch e <= epoch.
Hypothesis earlier_l : ∀ k e, (k, e) ∈ l → read_epoch e <= epoch.
(** A thread that was read now, and what it has used since it was read before. *)
Definition aligned (q : qos) (e : entry) : bool := of_class q e && (read_epoch e =? epoch + 1).
Definition gain (q : qos) (k : key) (e : entry) : Z := if aligned q e then previous_ticks e - default 0 (previous_ticks <$> threads s0 !! k) else 0.
Record swept_ok (s : sampler) (a : tally) : Prop := {
  from : ∀ k e, threads s !! k = Some e → threads s0 !! k = Some e ∨
    ∃ e0 n, threads s0 !! k = Some e0 ∧ (k, e0) ∈ l ∧ readings !! k = Some (k, n) ∧ previous_ticks e0 <= n ∧ e = Entry (vm_key e0) (qos_class e0) n (epoch + 1);
  gone : ∀ k e0, threads s0 !! k = Some e0 → is_Some (threads s !! k) ∨ 0 < departed_threads (at_ (qos_class e0) (pending s));
  gains : ∀ q, at_ q (ticks a) = msum (gain q) (threads s);
  crossed : ∀ q, 0 <= at_ q (crossed_boundary a) ∧ (at_ q (crossed_boundary a) = 0 →
    ∀ k e, threads s !! k = Some e → aligned q e = true → ∃ e0, threads s0 !! k = Some e0 ∧ read_epoch e0 = epoch);
  tallied : ∀ q, 0 <= at_ q (observed a) ∧ (at_ q (observed a) = 0 → at_ q (ticks a) = 0) }.

Lemma swept_init s : threads s = threads s0 → swept_ok s tally_init.
Proof.
  intros Ht. split; rewrite ?Ht; [by left|left; by eexists| | |by intros []].
  - intros q. rewrite (msum_ext _ (λ _ _, 0)), msum_zero; [by destruct q|]. intros k e He. unfold gain, aligned. apply earlier in He. destruct (Z.eqb_spec (read_epoch e) (epoch + 1)); [lia|]. by rewrite andb_false_r.
  - intros q. split; [by destruct q|]. intros _ k e He [_ H]%andb_true_iff. apply earlier in He. lia.
Qed.
Lemma gain_before q k e : threads s0 !! k = Some e → gain q k e = 0.
Proof. intros H%earlier. unfold gain, aligned. destruct (Z.eqb_spec (read_epoch e) (epoch + 1)); [lia|]. by rewrite andb_false_r. Qed.
Lemma swept_drop B k e s a : sound B s → swept_ok s a → threads s0 !! k = Some e → threads s !! k = Some e →
  ∃ s', drop k s = Ok s' ∧ sound B s' ∧ swept_ok s' a ∧ frame s' = frame s.
Proof.
  intros Hs Ha H0 Hk. destruct (drop_sound B k e s Hs Hk) as (s' & -> & Hs' & Ht & Hf & _ & _ & Hp). exists s'. split_and!; [done..| |done]. split; rewrite ?Ht.
  - intros k' e' [_ H]%lookup_delete_Some. by apply (from _ _ Ha).
  - intros k' e' H. rewrite Hp, at_update. destruct (proj2 Hs (qos_class e')) as (_ & _ & Hd & _). destruct (decide (qos_class e' = qos_class e)) as [E|E]; [right; cbn; lia|].
    rewrite lookup_delete_ne by congruence. by apply (gone _ _ Ha).
  - intros q. rewrite msum_delete_default, Hk. cbn [from_option]. rewrite gain_before, (gains _ _ Ha) by done. lia.
  - intros q. destruct (crossed _ _ Ha q) as [H1 H2]. split; [done|]. intros H3 k' e' [_ H]%lookup_delete_Some. eauto.
  - apply (tallied _ _ Ha).
Qed.
Lemma swept_count B k e n s a : sound B s → swept_ok s a → (k, e) ∈ l → threads s0 !! k = Some e → threads s !! k = Some e → readings !! k = Some (k, n) → previous_ticks e <= n →
  let s' := set_books (<[k := Entry (vm_key e) (qos_class e) n (epoch + 1)]> (threads s)) (vm_keys s) (tid_keys s) s in
  sound B s' ∧ swept_ok s' (counted (qos_class e) (n - previous_ticks e) (negb (read_epoch e =? epoch)) a).
Proof.
  intros [Hb Hc] Ha Hl H0 Hk Hr Hn. cbv zeta. split; [split|split]; cbn [threads tid_keys vm_keys pending set_books].
  - split; cbn [threads tid_keys vm_keys set_books].
    + intros k' e' [[<- <-]|[_ H]]%lookup_insert_Some; by eapply tid_of.
    + intros k' e' [[<- <-]|[_ H]]%lookup_insert_Some; [by apply (vm_of s Hb k e)|by eapply vm_of].
    + intros t k' H. destruct (tid_back s Hb _ _ H) as [<- Hs]. split; [done|]. by apply lookup_insert_is_Some'; right.
    + intros v ks k' H Hin. destruct (vm_back s Hb _ _ k' H Hin) as (e' & He' & Ev). destruct (decide (k = k')) as [<-|]; [|rewrite lookup_insert_ne by done; eauto].
      rewrite lookup_insert_eq. eexists. split; [done|]. cbn. congruence.
  - intros q. destruct (Hc q) as (H1 & H2 & H3 & H4). unfold count in *. cbn [threads pending set_books]. rewrite msum_insert, Hk. cbn [from_option]. change (of_class q (Entry _ (qos_class e) _ _)) with (of_class q e). split_and!; [lia|done..].
  - intros k' e' [[<- <-]|[_ H]]%lookup_insert_Some; [right; by exists e, n|by apply (from _ _ Ha)].
  - intros k' e' H. destruct (gone _ _ Ha k' e' H) as [?|?]; [left|by right]. by apply lookup_insert_is_Some'; right.
  - intros q. rewrite msum_insert, Hk. cbn [from_option]. rewrite (gain_before q k e) by done. cbn [ticks counted]. rewrite at_update, (gains _ _ Ha).
    assert (gain q k (Entry (vm_key e) (qos_class e) n (epoch + 1)) = if of_class q e then n - previous_ticks e else 0) as ->.
    { unfold gain, aligned. rewrite H0. cbn. rewrite Z.eqb_refl, andb_true_r. done. }
    rewrite class_cases. destruct (decide (q = qos_class e)), (decide (qos_class e = q)); try congruence; lia.
  - intros q. destruct (crossed _ _ Ha q) as [H1 H2]. cbn [crossed_boundary counted].
    assert (∀ b : bool, at_ q (if b then update (qos_class e) (Z.add 1) (crossed_boundary a) else crossed_boundary a) =
      at_ q (crossed_boundary a) + if b && of_class q e then 1 else 0) as ->.
    { intros []; [rewrite at_update, class_cases|cbn; lia]. destruct (decide (q = qos_class e)), (decide (qos_class e = q)); cbn; try congruence; lia. }
    split; [destruct (_ && _); lia|]. intros Hz k' e' [[<- <-]|[_ H]]%lookup_insert_Some He'.
    + exists e. split; [done|]. apply andb_true_iff in He' as [Hq _]. change (of_class q e = true) in Hq. rewrite Hq, andb_true_r in Hz. destruct (Z.eqb_spec (read_epoch e) epoch); [done|]. cbn in Hz. lia.
    + apply H2 with e'; [|done..]. destruct (_ && _); lia.
  - intros q. destruct (tallied _ _ Ha q) as [H1 H2]. cbn [observed ticks counted]. rewrite !at_update. destruct (decide (q = qos_class e)); [lia|done].
Qed.
Lemma visits_sound B l' : l' ⊆ l → ∀ s a, sound B s → swept_ok s a →
  ∃ s' a', visits epoch readings l' s a = Ok (s', a') ∧ sound B s' ∧ swept_ok s' a' ∧ frame s' = frame s.
Proof.
  intros Hl. induction l' as [|[k e] l' IH]; intros s a Hs Ha; [by exists s, a|]. cbn [visits].
  assert (∃ s' a', visit epoch readings (k, e) s a = Ok (s', a') ∧ sound B s' ∧ swept_ok s' a' ∧ frame s' = frame s) as (s1 & a1 & -> & Hs1 & Ha1 & Hf1).
  { unfold visit. case_bool_decide as Hk; [by exists s, a|]. assert (Hin : (k, e) ∈ l) by (apply Hl; set_solver).
    assert (threads s0 !! k = Some e) as H0. { destruct (from _ _ Ha k e Hk) as [|(e0 & n & _ & _ & _ & _ & ->)]; [done|]. apply earlier_l in Hin. cbn in Hin. lia. }
    destruct (swept_drop B k e s a Hs Ha H0 Hk) as (s' & E & Hd). destruct (readings !! k) as [[k' n]|] eqn:Hr; [|rewrite E; exists s', a; split; [reflexivity|exact Hd]].
    destruct (bool_decide_reflect (k' ≠ k)) as [|Ek]; [cbn [orb]; rewrite E; exists s', a; split; [reflexivity|exact Hd]|]. apply dec_stable in Ek as ->. cbn [orb].
    destruct (Z.ltb_spec n (previous_ticks e)); [rewrite E; exists s', a; split; [reflexivity|exact Hd]|]. do 2 eexists. split; [reflexivity|].
    destruct (swept_count B k e n s a Hs Ha Hin H0 Hk Hr) as [? ?]; [done|]. by split_and!. }
  cbn [mbind outcome_bind]. destruct (IH ltac:(set_solver) s1 a1 Hs1 Ha1) as (s2 & a2 & -> & Hs2 & Ha2 & Hf2). exists s2, a2. split_and!; [done..|congruence].
Qed.
End swept.

(** ** A sample *)

Lemma classify_apart q q' epoch elapsed a s : q ≠ q' → (classify q epoch elapsed a (classify q' epoch elapsed a s).1).2 = (classify q epoch elapsed a s).2.
Proof. by destruct q, q'. Qed.
(** What a class has gained and lost, as a report tells it. *)
Definition net (q : qos) (r : report) : Z := let c := changes (at_ q (classes r)) in new_threads c - departed_threads c.
Definition seconds_of (q : qos) (r : report) : Q := default 0%Q (observed_cpu_seconds (at_ q (classes r))).
Lemma classify_seconds q epoch elapsed a s : (at_ q (observed a) = 0 → at_ q (ticks a) = 0) →
  (default 0 (observed_cpu_seconds (classify q epoch elapsed a s).2) == inject_Z (at_ q (ticks a)) / inject_Z (hz s))%Q.
Proof.
  intros H. cbn. unfold truthy. destruct (Z.eqb_spec (at_ q (observed a)) 0) as [E|E]; cbn [negb orb]; [|reflexivity]. destruct (negb _); [reflexivity|]. cbn. rewrite H by done. unfold Qdiv. ring.
Qed.
Lemma sampled_sound B started clock snap readings s : sound B s →
  (∀ k e, threads s !! k = Some e → read_epoch e <= sample_epoch s) → (∀ k e, snap !! k = Some e → read_epoch e <= sample_epoch s) →
  ∃ s' r s1 a, sampled started clock snap readings s = Ok (s', r) ∧ threads s' = threads s1 ∧ sound B s1 ∧ swept_ok s (map_to_list snap) readings (sample_epoch s) s1 a ∧
    sound (λ q, B q + net q r) s' ∧ sample_epoch s' = sample_epoch s + 1 ∧ hz s' = hz s ∧
    (∀ q, at_ q (total_ticks s') = at_ q (total_ticks s) + at_ q (ticks a)) ∧
    ∀ q, at_ q (classes r) = (classify q (sample_epoch s) (clock - last_sample s)%Q a s1).2 ∧ hz s1 = hz s.
Proof.
  intros Hs He Hl. unfold sampled. set (s0 := set_epoch _ _ s). assert (Hs0 : sound B s0) by (destruct Hs as [[] ?]; split; [by split|done]).
  destruct (visits_sound s (map_to_list snap) readings (sample_epoch s) He (λ k e Hk, Hl k e (proj1 (elem_of_map_to_list _ _ _) Hk)) B (map_to_list snap) ltac:(done) s0 tally_init Hs0)
    as (s1 & a & E & Hs1 & Ha & Hf); [by apply swept_init|]. rewrite E. cbn [mbind outcome_bind]. clear E.
  assert (hz s1 = hz s ∧ total_ticks s1 = total_ticks s ∧ sample_epoch s1 = sample_epoch s + 1) as (Hz & Ht & Hep) by (unfold frame in Hf; injection Hf; by cbn).
  pose proof (classify_apart be ls (sample_epoch s) (clock - last_sample s)%Q a s1 ltac:(done)) as Hap.
  destruct (classify ls _ _ a s1) as [s2 c1] eqn:E1. cbn [fst] in Hap. destruct (classify be _ _ a s2) as [s3 c2] eqn:E2. cbn [snd] in Hap.
  pose proof (f_equal fst E1) as F1. pose proof (f_equal fst E2) as F2. pose proof (f_equal snd E1) as G1. cbn [fst snd] in F1, F2, G1. subst c1 c2. exists s3. eexists. exists s1, a. split; [reflexivity|].
  rewrite <- F2, <- F1. split_and!; [reflexivity|exact Hs1|exact Ha| |done..| |].
  - destruct Hs1 as [[] Hc]. split; [by split|]. intros q. destruct (Hc q) as (H1 & H2 & H3 & H4). unfold net. destruct q; cbn in *; unfold count in *; cbn; split_and!; lia.
  - intros q. rewrite <- Ht. destruct q; cbn; lia.
  - intros []; (split; [done|exact Hz]).
Qed.
(** ** Where the figures come from *)

Section origin.
Variable stat : nat → Z → option (Z * Z).
(** The thread had used [n] ticks at the moment [t]. *)
Definition used_at (t : nat) (k : key) (n : Z) : Prop := stat t k.1 = Some (k.2, n).
(** A figure of an epoch: read before [hi], and in the current window if the epoch is
    the current one. *)
Definition dated (w : world) (hi : nat) (k : key) (n : Z) (epoch : Z) : Prop :=
  epoch <= sample_epoch (books w) ∧ ∃ t, (t <= hi)%nat ∧ used_at t k n ∧ (epoch = sample_epoch (books w) → (window w <= t)%nat).
Definition dated_threads (w : world) (hi : nat) (m : gmap key entry) : Prop :=
  ∀ k e, m !! k = Some e → dated w hi k (previous_ticks e) (read_epoch e).
Definition honest (w : world) (c : caller) : Prop :=
  match c with
  | Registering _ _ epoch _ got => epoch <= sample_epoch (books w) ∧ ∀ k n, Some (k, n) ∈ got → dated w (now w) k n epoch
  | Sampling began _ snap _ got => (began <= now w)%nat ∧ dated_threads w began snap ∧
      ∀ k k' n, got !! k = Some (k', n) → ∃ t, (began <= t <= now w)%nat ∧ used_at t k' n
  | Over => True
  end.
Definition told (w : world) (q : qos) : Z := zsum (net q <$> reports w).
Definition seconds_told (w : world) (q : qos) : Q := foldr (λ r acc, (seconds_of q r + acc)%Q) 0%Q (reports w).
Definition ticks_ok (w : world) : Prop := ∀ q, (inject_Z (at_ q (total_ticks (books w))) / inject_Z (hz (books w)) == seconds_told w q)%Q.
Record world_ok (w : world) : Prop := {
  w_sound : sound (told w) (books w);
  w_dated : dated_threads w (now w) (threads (books w));
  w_honest : Forall (honest w) (callers w);
  w_ticks : ticks_ok w;
  w_window : (window w <= now w)%nat }.

Lemma dated_later w w' hi hi' k n epoch : (hi <= hi')%nat → dated w hi k n epoch → sample_epoch (books w) = sample_epoch (books w') → window w' = window w → dated w' hi' k n epoch.
Proof. intros Hh [H1 (t & H2 & H3 & H4)] E1 E2. split; [lia|]. exists t. split_and!; [lia|done|]. rewrite <- E1, E2. auto. Qed.
Lemma dated_over w w' hi k n epoch : dated w hi k n epoch → sample_epoch (books w) < sample_epoch (books w') → dated w' hi k n epoch.
Proof. intros [H1 (t & H2 & H3 & H4)] E. split; [lia|]. exists t. split_and!; [done..|lia]. Qed.
(** What others have in their hands stays dated when time passes or an epoch ends. *)
Lemma honest_later w w' c : honest w c → (now w <= now w')%nat →
  (sample_epoch (books w) = sample_epoch (books w') ∧ window w' = window w ∨ sample_epoch (books w) < sample_epoch (books w')) → honest w' c.
Proof.
  intros Hc Hn He. assert (∀ hi hi' k n epoch, (hi <= hi')%nat → dated w hi k n epoch → dated w' hi' k n epoch) as Hd.
  { intros hi hi' k n epoch Hh H. destruct He as [[E1 E2]|E]; [by eapply dated_later|]. apply (dated_over _ w') in H; [|done]. destruct H as [H1 (t & H2 & H3)]. split; [done|]. exists t. split; [lia|done]. }
  destruct c as [vm q epoch todo got|began started snap todo got|]; cbn in *; [| |done].
  - destruct Hc as [H1 H2]. split; [lia|]. intros k n Hk. exact (Hd (now w) (now w') k n epoch Hn (H2 k n Hk)).
  - destruct Hc as (H1 & H2 & H3). split_and!; [lia|intros k e Hk; exact (Hd began began _ _ _ (le_n _) (H2 k e Hk))|].
    intros k k' n Hk. destruct (H3 k k' n Hk) as (t & Ht & Hu). exists t. split; [lia|done].
Qed.
Lemma read_origin t tid k n : _read stat t tid = Some (k, n) → k.1 = tid ∧ used_at t k n.
Proof. unfold _read, used_at. destruct (stat t tid) as [[start m]|] eqn:E; [|done]. cbn. intros [= <- <-]. by cbn. Qed.

(** The effect of committing a sample. *)
Definition exactly (w : world) (began : nat) (w' : world) (q : qos) (c : class) : Prop :=
  complete c = true →
  departed_threads (changes c) = 0 ∧ registration_failures (changes c) = 0 ∧
  (∀ k e, threads (books w) !! k = Some e → qos_class e = q → is_Some (threads (books w') !! k)) ∧
  (∀ k e', threads (books w') !! k = Some e' → qos_class e' = q → ∃ e t t', threads (books w) !! k = Some e ∧
     (window w <= t <= began)%nat ∧ used_at t k (previous_ticks e) ∧ (began <= t' <= now w)%nat ∧ used_at t' k (previous_ticks e') ∧ previous_ticks e <= previous_ticks e') ∧
  observed_cpu_seconds c = Some (inject_Z (msum (λ k e', if of_class q e' then previous_ticks e' - default 0 (previous_ticks <$> threads (books w) !! k) else 0)%Z (threads (books w'))) / inject_Z (hz (books w)))%Q.

Lemma count_none f s : count f s = 0 → ∀ k e, threads s !! k = Some e → f e = false.
Proof.
  unfold count. intros H k e He. pose proof (msum_lookup_le (λ _ e, if f e then 1 else 0) (threads s) k e) as Hle. cbn in Hle. rewrite H in Hle.
  destruct (f e) eqn:E; [|done]. enough (1 <= 0) by lia. apply Hle; [|done]. intros k' v _. by destruct (f v).
Qed.
Lemma count_nonneg f s : 0 <= count f s.
Proof. apply msum_nonneg. intros k v _. by destruct (f v). Qed.
Lemma sound_ext B B' s : (∀ q, B q = B' q) → sound B s → sound B' s.
Proof. intros H [Hb Hc]. split; [done|]. intros q. rewrite <- H. apply Hc. Qed.
Lemma told_snoc w s c b r q : told (World s c (now w) b (reports w ++ [r])) q = told w q + net q r.
Proof. unfold told. cbn [reports]. rewrite fmap_app, zsum_app. change (zsum (net q <$> [r])) with (net q r + 0). lia. Qed.
Lemma seconds_snoc w s c b r q : (seconds_told (World s c (now w) b (reports w ++ [r])) q == seconds_told w q + seconds_of q r)%Q.
Proof.
  unfold seconds_told. cbn [reports]. induction (reports w) as [|x l IH]; cbn [app foldr]; [ring|]. rewrite IH. ring.
Qed.
(** A class that is complete has no thread that was not read now. *)
Lemma complete_class q epoch elapsed a s B : sound B s → 0 <= at_ q (crossed_boundary a) → complete (classify q epoch elapsed a s).2 = true →
  departed_threads (at_ q (pending s)) = 0 ∧ registration_failures (at_ q (pending s)) = 0 ∧ at_ q (crossed_boundary a) = 0 ∧
  (∀ k e, threads s !! k = Some e → qos_class e = q → read_epoch e = epoch + 1) ∧
  observed_cpu_seconds (classify q epoch elapsed a s).2 = Some (inject_Z (at_ q (ticks a)) / inject_Z (hz s))%Q.
Proof.
  intros [_ Hs] Hx H. destruct (Hs q) as (_ & Hl & Hd & Hf). pose proof (count_nonneg (λ e, of_class q e && negb (read_epoch e =? epoch + 1)) s) as Hu.
  cbn in H |- *. rewrite H. unfold truthy in H. apply negb_true_iff, orb_false_iff in H as [H1%negb_false_iff%Z.eqb_eq H2%negb_false_iff%Z.eqb_eq].
  unfold unaligned in H2. split_and!; [lia..| |by rewrite orb_true_r]. intros k e He Hq.
  pose proof (count_none (λ e, of_class q e && negb (read_epoch e =? epoch + 1)) s ltac:(lia) k e He) as Hn. cbn in Hn. unfold of_class in Hn. rewrite bool_decide_true in Hn by done.
  by apply negb_false_iff, Z.eqb_eq in Hn.
Qed.
Lemma sample_exact w i began started snap got clock : world_ok w → callers w !! i = Some (Sampling began started snap [] got) →
  ∃ s' r, sampled started clock snap got (books w) = Ok (s', r) ∧
    let w' := World s' (<[i := Over]> (callers w)) (now w) began (reports w ++ [r]) in world_ok w' ∧ ∀ q, exactly w began w' q (at_ q (classes r)).
Proof.
  intros [Hs Hd Hc Ht Hw] Hi. pose proof (Forall_lookup_1 _ _ _ _ Hc Hi) as (Hb & Hsn & Hg).
  destruct (sampled_sound (told w) started clock snap got (books w) Hs (λ k e Hk, proj1 (Hd k e Hk)) (λ k e Hk, proj1 (Hsn k e Hk)))
    as (s' & r & s1 & a & E & Hth & Hs1 & Ha & Hs' & Hep & Hz & Htt & Hcl). exists s', r. split; [exact E|]. cbv zeta. split; [split|].
  - eapply sound_ext; [|exact Hs']. intros q. symmetry. apply told_snoc.
  - intros k e He. cbn [books now] in *. rewrite Hth in He. unfold dated. cbn [books window]. rewrite Hep. destruct (from _ _ _ _ _ _ Ha k e He) as [H|(e0 & n & H0 & Hl & Hr & Hle & ->)].
    + destruct (Hd k e H) as [H1 (t & H2 & H3 & H4)]. split; [lia|]. exists t. split_and!; [done..|lia].
    + cbn. split; [lia|]. destruct (Hg k k n Hr) as (t & Ht1 & Ht2). exists t. split_and!; [lia|done|lia].
  - cbn [callers]. apply Forall_insert; [|done]. eapply Forall_impl; [exact Hc|]. intros c Hh. eapply honest_later; [exact Hh|cbn; lia|right; cbn; lia].
  - intros q. rewrite seconds_snoc. cbn [books]. rewrite Htt, Hz, inject_Z_plus, <- (Ht q). destruct (Hcl q) as [Hq Hz1]. unfold seconds_of. rewrite Hq, classify_seconds by apply (tallied _ _ _ _ _ _ Ha). rewrite Hz1. unfold Qdiv. ring.
  - exact Hb.
  - intros q. destruct (Hcl q) as [-> Hz1]. intros Hcomp. destruct (crossed _ _ _ _ _ _ Ha q) as [Hx0 Hx]. destruct (complete_class _ _ _ _ _ _ Hs1 Hx0 Hcomp) as (H1 & H2 & H3 & H4 & H5).
    cbn [books window now]. rewrite Hth, H5, Hz1. split_and!; [exact H1|exact H2| | |].
    + intros k e He <-. destruct (gone _ _ _ _ _ _ Ha k e He) as [?|?]; [done|lia].
    + intros k e' He' Hq. destruct (from _ _ _ _ _ _ Ha k e' He') as [H|(e0 & n & H0 & Hl & Hr & Hle & ->)].
      { pose proof (proj1 (Hd k e' H)). specialize (H4 k e' He' Hq). lia. }
      destruct (Hx H3 k _ He') as (e & He & Hep0). { unfold aligned, of_class. rewrite bool_decide_true by done. cbn. apply Z.eqb_refl. }
      rewrite H0 in He. injection He as <-. apply elem_of_map_to_list in Hl. destruct (Hsn k e0 Hl) as [_ (t & Ht1 & Ht2 & Ht3)]. destruct (Hg k k n Hr) as (t' & Ht4 & Ht5).
      exists e0, t, t'. split_and!; try done; try lia.
    + do 3 f_equal. rewrite (gains _ _ _ _ _ _ Ha q). apply msum_ext. intros k e' He'. unfold gain, aligned. destruct (of_class q e') eqn:Eq; [|done]. cbn [andb].
      unfold of_class in Eq. apply bool_decide_eq_true in Eq. rewrite (H4 k e' He' Eq), Z.eqb_refl. done.
Qed.

Lemma usage_act_ok w ev : world_ok w → ∃ w', act stat ev w = Ok w' ∧ world_ok w' ∧ now w' = now w.
Proof.
  intros Hw. pose proof Hw as [Hs Hd Hc Ht Hwn]. destruct ev as [vm [q|] tids|clock|i|i clock]; cbn [act].
  - eexists. split; [reflexivity|]. split; [|done]. split; [done..| |done|done]. cbn. apply Forall_app. split; [exact Hc|]. constructor; [|done]. cbn. split; [lia|]. intros k n H. by apply not_elem_of_nil in H.
  - eauto.
  - eexists. split; [reflexivity|]. split; [|done]. split; [done..| |done|done]. cbn. apply Forall_app. split; [exact Hc|]. constructor; [|done]. cbn. split_and!; [lia|exact Hd|]. intros k k' n H. by rewrite lookup_empty in H.
  - destruct (callers w !! i) as [[vm q epoch [|t todo] got|began started snap [|k todo] got|]|] eqn:Ei; try (eexists; split; [reflexivity|by split]).
    all: pose proof (Forall_lookup_1 _ _ _ _ Hc Ei) as Hi; eexists; (split; [reflexivity|]); (split; [|done]); (split; [done..| |done|done]); cbn [callers set_caller]; apply Forall_insert; [exact Hc|cbn].
    + destruct Hi as [H1 H2]. split; [done|]. intros k n [H|H]%elem_of_app; [by apply H2|]. apply list_elem_of_singleton in H. symmetry in H. apply read_origin in H as [H H']. split; [done|].
      exists (now w). by split_and!.
    + destruct Hi as (H1 & H2 & H3). split_and!; [done..|]. intros k0 k' n. destruct (decide (k0 = k)) as [->|Hne]; [|rewrite lookup_partial_alter_ne by done; apply H3].
      rewrite lookup_partial_alter_eq. intros [_ H]%read_origin. exists (now w). split; [lia|done].
  - destruct (callers w !! i) as [[vm q epoch [|t todo] got|began started snap [|k todo] got|]|] eqn:Ei; try (eexists; split; [reflexivity|by split]).
    + destruct (enrolled_sound (told w) vm q epoch got (books w) Hs) as (s' & -> & Hs' & Ha & Hf). eexists. split; [reflexivity|]. split; [|done].
      assert (hz s' = hz (books w) ∧ total_ticks s' = total_ticks (books w) ∧ sample_epoch s' = sample_epoch (books w)) as (Hz & Htt & Hep) by (unfold frame in Hf; injection Hf; by cbn).
      pose proof (Forall_lookup_1 _ _ _ _ Hc Ei) as [Hi1 Hi2]. split; cbn [books callers reports].
      * exact Hs'.
      * intros k e [H|(n & Hn & ->)]%Ha; [apply Hd in H|apply Hi2 in Hn]; (eapply dated_later; [|eassumption|by cbn..]; done).
      * apply Forall_insert; [|done]. eapply Forall_impl; [exact Hc|]. intros c Hh. eapply honest_later; [exact Hh|done|left; by cbn].
      * intros q'. cbn [books]. rewrite Htt, Hz. apply Ht.
      * exact Hwn.
    + destruct (sample_exact w i began started snap got clock Hw Ei) as (s' & r & -> & Hw' & _). eexists. by split.
Qed.
Lemma usage_run_ok l : ∀ w, world_ok w → ∃ w', run stat l w = Ok w' ∧ world_ok w'.
Proof.
  induction l as [|ev l IH]; intros w Hw; [by exists w|]. cbn [run]. unfold step. destruct (usage_act_ok w ev Hw) as (w1 & -> & Hw1 & Hn). cbn [mbind outcome_bind]. apply IH.
  pose proof Hw1 as [Hs Hd Hc Ht Hwn]. split; cbn; [exact Hs| |eapply Forall_impl; [exact Hc|]; intros c Hh; eapply honest_later; [exact Hh|cbn; lia|by left]|exact Ht|lia].
  intros k e H%Hd. eapply dated_later; [|exact H|by cbn..]. cbn. lia.
Qed.
Lemma usage_init_ok cpus hz clock s : sampler_init cpus hz clock = Ok s → world_ok (world_init s).
Proof.
  unfold sampler_init. intros H. destruct (cpus =? 0); [done|]. destruct (Z.leb_spec hz 0); [done|]. injection H as <-. split; [split| |constructor| |done].
  - split; cbn; intros *; by rewrite lookup_empty.
  - by intros [].
  - intros k e; cbn; by rewrite lookup_empty.
  - intros q. destruct q; cbn; unfold Qdiv; ring.
Qed.

(** The books of the sampler always agree.  However registrations and samples of
    several callers interleave, no lookup of the books fails; a thread id is registered
    for one thread at a time; of each class the arrivals less the departures that were
    told, with those not yet told, are the threads that are registered, every departure
    is told as a lost tail; and the cumulative CPU time is the sum of the CPU times of
    all reports. *)
Theorem usage_books_agree (cpus ticks_per_second : Z) (clock : Q) (s : sampler) (Hs : sampler_init cpus ticks_per_second clock = Ok s) (l : list event) :
  ∃ w, run stat l (world_init s) = Ok w ∧
  (∀ k k' e e', threads (books w) !! k = Some e → threads (books w) !! k' = Some e' → k.1 = k'.1 → k = k') ∧
  (∀ q, let c := at_ q (pending (books w)) in
    count (of_class q) (books w) = zsum (net q <$> reports w) + new_threads c - departed_threads c ∧ lost_exit_tail_threads c = departed_threads c) ∧
  ∀ q, (inject_Z (at_ q (total_ticks (books w))) / inject_Z (hz (books w)) == foldr (λ r acc, (seconds_of q r + acc)%Q) 0%Q (reports w))%Q.
Proof.
  destruct (usage_run_ok l (world_init s) (usage_init_ok _ _ _ _ Hs)) as (w & E & [[Hb Hc] _ _ Ht _]). exists w. split_and!; [exact E| | |exact Ht].
  - intros k k' e e' H H' Hk. apply (tid_of _ Hb) in H, H'. congruence.
  - intros q. destruct (Hc q) as (H1 & H2 & _). by split.
Qed.

(** C26: a complete figure is exact.  Take any run of the sampler and commit a sample
    that has read its snapshot.  For a class whose coverage is called complete, no
    thread has departed and no registration has failed since the sample before; every
    thread of the class was read between the beginning of that sample and the beginning
    of this one, and again since; and the CPU time of the report is the sum over the
    threads of what they used between these two readings. *)
Theorem complete_is_exact (cpus ticks_per_second : Z) (clock : Q) (s : sampler) (Hs : sampler_init cpus ticks_per_second clock = Ok s)
    (l : list event) (w : world) (Hw : run stat l (world_init s) = Ok w)
    (i : nat) (began : nat) (started : Q) (snap : gmap key entry) (got : gmap key (key * Z)) (Hi : callers w !! i = Some (Sampling began started snap [] got)) (sampled_at : Q) :
  ∃ w' r, act stat (Commit i sampled_at) w = Ok w' ∧ reports w' = reports w ++ [r] ∧ ∀ q, let c := at_ q (classes r) in complete c = true →
    departed_threads (changes c) = 0 ∧ registration_failures (changes c) = 0 ∧
    (∀ k e, threads (books w) !! k = Some e → qos_class e = q → is_Some (threads (books w') !! k)) ∧
    (∀ k e', threads (books w') !! k = Some e' → qos_class e' = q → ∃ e t t', threads (books w) !! k = Some e ∧
       (window w <= t <= began)%nat ∧ used_at t k (previous_ticks e) ∧ (began <= t' <= now w)%nat ∧ used_at t' k (previous_ticks e') ∧ previous_ticks e <= previous_ticks e') ∧
    observed_cpu_seconds c = Some (inject_Z (msum (λ k e', if of_class q e' then previous_ticks e' - default 0 (previous_ticks <$> threads (books w) !! k) else 0)%Z (threads (books w'))) / inject_Z (hz (books w)))%Q.
Proof.
  destruct (usage_run_ok l (world_init s) (usage_init_ok _ _ _ _ Hs)) as (w0 & E & Hok). rewrite Hw in E. injection E as <-.
  destruct (sample_exact w i began started snap got sampled_at Hok Hi) as (s' & r & E & _ & Hx). cbn [act]. rewrite Hi, E. cbn. eexists _, r. split_and!; [reflexivity|done|]. intros q. exact (Hx q).
Qed.
End origin.

Module Demo.
(** One thread, which started at 100 and uses ten ticks per step. *)
Definition stat (t : nat) (tid : Z) : option (Z * Z) := if tid =? 7 then Some (100, 10 * Z.of_nat t) else None.
Definition start : sampler := Sampler 100 4 ∅ ∅ ∅ (both no_change) (both 0) (both 0) (both 0) 0%Q 0.
Definition enrolled_and_sampled : list event := [Register "vm" (Some ls) [7]; Read 0; Commit 0 0%Q; Sample 1%Q; Read 1; Commit 1 2%Q; Sample 3%Q; Read 2].
Definition after : world := match run stat enrolled_and_sampled (world_init start) with Ok w => w | Raise _ => world_init start end.
Lemma usage_books_agree_witness : sampler_init 4 100 0%Q = Ok start ∧ ∃ w, run stat enrolled_and_sampled (world_init start) = Ok w.
Proof.
  split; [reflexivity|]. destruct (usage_books_agree stat 4 100 0%Q start eq_refl enrolled_and_sampled) as (w & H & _). exact (ex_intro _ w H).
Defined.
Lemma complete_is_exact_witness : (match act stat (Commit 2 4%Q) after with Ok w' => (λ r, (complete (of_ls (classes r)), observed_cpu_seconds (of_ls (classes r)))) <$> reports w' | Raise _ => [] end) = [(true, Some (30 # 100)); (true, Some (30 # 100))] ∧
  ∃ w' r, act stat (Commit 2 4%Q) after = Ok w' ∧ reports w' = reports after ++ [r].
Proof.
  split; [vm_compute; reflexivity|].
  assert (run stat enrolled_and_sampled (world_init start) = Ok after) as Hw by (vm_compute; reflexivity).
  assert (callers after !! 2%nat = Some (Sampling 6 3%Q (threads (books after)) [] {[(7, 100) := ((7, 100), 70)]})) as Hi by (vm_compute; reflexivity).
  destruct (complete_is_exact stat 4 100 0%Q start eq_refl enrolled_and_sampled after Hw 2 6 3%Q _ _ Hi 4%Q) as (w' & r & H1 & H2 & _).
  exact (ex_intro _ w' (ex_intro _ r (conj H1 H2))).
Defined.
(** Two registrations of one VM at once: the first has read the thread before a sample,
    the second takes it out after the sample, and the first puts its older reading in.
    The ticks in between are summed twice: 130 of 110; the coverage says partial. *)
Definition race : list event :=
  [Register "vm" (Some ls) [7]; Read 0; Commit 0 0%Q; Register "vm" (Some ls) [7]; Read 1; Sample 1%Q; Read 2; Commit 2 2%Q;
   Register "vm" (Some ls) []; Commit 3 0%Q; Commit 1 0%Q; Sample 3%Q; Read 4; Commit 4 4%Q].
Example counted_twice : match run stat race (world_init start) with
  | Ok w => (at_ ls (total_ticks (books w)), snd <$> stat 12 7, snd <$> stat 1 7, (λ r, complete (of_ls (classes r))) <$> reports w) = (130, Some 120, Some 10, [true; false])
  | Raise _ => False
  end.
Proof. vm_compute. reflexivity. Qed.
End Demo.
End Usage.
