(* ===== verification/Placement.v ===== *)
(** * Compute placement (topology.py, numa_placement.py, cpu_slots.py under
      src/clawbox/experiments/)

    CPU lists, the static checks on compute nodes, the CPU monitor, and the
    load-aware choice of a compute domain for a session.  The coordinators'
    memory feedback and admission results are arguments. *)
From S2P Require Import Prelude Dict Ordering PyStrings.
From Stdlib Require Import Ascii.

(** ** CPU lists *)

(** [s.isdigit()] *)
Definition is_digits (s : string) : bool :=
  let cs := String.list_ascii_of_string s in
  negb (bool_decide (cs = [])) && forallb (λ c, bool_decide (is_Some (digit c))) cs.

(** [set(range(first, last + 1))] *)
Definition cpu_range (first last_ : Z) : gset Z := list_to_set (seqZ first (last_ + 1 - first)).

Definition parse_part (part : string) : outcome (gset Z) :=
  let bounds := split_on "-"%char (strip part) in
  if negb (bool_decide (length bounds = 1%nat ∨ length bounds = 2%nat))
     || existsb (λ b, negb (is_digits b)) bounds
  then Raise (ValueError "invalid CPU list")
  else
    first ← int (hd "" bounds);
    last_ ← int (List.last bounds "");
    if last_ <? first then Raise (ValueError "invalid CPU range")
    else Ok (cpu_range first last_).

Fixpoint parse_parts (parts : list string) (cpus : gset Z) : outcome (gset Z) :=
  match parts with
  | [] => Ok cpus
  | part :: parts' => more ← parse_part part; parse_parts parts' (cpus ∪ more)
  end.

Definition parse_cpu_list (value : string) : outcome (gset Z) :=
  cpus ← parse_parts (split_on ","%char value) ∅;
  if bool_decide (cpus = ∅) then Raise (ValueError "CPU list must not be empty") else Ok cpus.

(** ** Compute nodes *)

Record compute_node := ComputeNode {
  node_id : string;
  numa_node : Z;
  cpus : string;
  memory_capacity_mib : Z;
  low_watermark_mib : Z;
  high_watermark_mib : Z;
}.

(** [ComputeNode.valid] *)
Definition node_valid (n : compute_node) : outcome unit :=
  parse_cpu_list (cpus n) ≫= λ _,
  if (low_watermark_mib n <? high_watermark_mib n) && (high_watermark_mib n <? memory_capacity_mib n)
  then Ok tt else Raise (ValueError "compute node requires LOW < HIGH < local capacity").

Fixpoint disjoint_cpus (nodes : list compute_node) (shared : option Z) (assigned : gset Z) : outcome unit :=
  match nodes with
  | [] => Ok tt
  | n :: nodes' =>
      if bool_decide (shared = Some (numa_node n))
      then Raise (ValueError "shared memory NUMA node cannot be a compute node")
      else
        cs ← parse_cpu_list (cpus n);
        if negb (bool_decide (cs ∩ assigned = ∅))
        then Raise (ValueError "compute-node CPU sets must not overlap")
        else disjoint_cpus nodes' shared (assigned ∪ cs)
  end.

(** [validate_compute_nodes] *)
Definition validate_compute_nodes (nodes : list compute_node) (shared : option Z) : outcome unit :=
  if negb (bool_decide (NoDup (node_id <$> nodes)))
  then Raise (ValueError "compute node IDs must be unique")
  else if negb (bool_decide (NoDup (numa_node <$> nodes)))
  then Raise (ValueError "compute NUMA nodes must be distinct")
  else disjoint_cpus nodes shared ∅.

(** [place_session]; [next] of an exhausted generator raises. *)
Definition place_session (nodes : list compute_node) (index : Z) (explicit : list string)
    : outcome compute_node :=
  if (index <? 0) || bool_decide (length nodes = 0%nat)
  then Raise (ValueError "placement requires compute nodes and a non-negative session index")
  else if bool_decide (explicit ≠ []) then
    match nth_error explicit (Z.to_nat index) with
    | None => Raise (ValueError "session_compute_nodes does not cover this concurrency")
    | Some name =>
        match List.find (λ n, bool_decide (node_id n = name)) nodes with
        | Some n => Ok n
        | None => Raise (RuntimeError "StopIteration")
        end
    end
  else
    match nth_error nodes (Z.to_nat (index mod Z.of_nat (length nodes))) with
    | Some n => Ok n
    | None => Raise IndexError
    end.

(** ** SMT-disjoint CPU slots (cpu_slots.py) *)

(** [SessionCpuSlots.__init__]: [siblings] reads a CPU's thread siblings. *)
Fixpoint physical_of (siblings : Z → outcome (gset Z)) (cs : list Z) : outcome (list (gset Z)) :=
  match cs with
  | [] => Ok []
  | c :: cs' => s ← siblings c; rest ← physical_of siblings cs'; Ok (s :: rest)
  end.

Fixpoint check_slots (siblings : Z → outcome (gset Z)) (slots : list string)
    (occupied : list (gset Z)) : outcome (list (gset Z)) :=
  match slots with
  | [] => Ok occupied
  | slot :: slots' =>
      cs ← parse_cpu_list slot;
      physical ← physical_of siblings (elements cs);
      if existsb (λ p, bool_decide (p ∈ occupied)) physical
      then Raise (ValueError "session_cpu_slots must not share SMT siblings across slots")
      else check_slots siblings slots' (occupied ++ physical)
  end.

(** The pool of free slots and the leases: [lease] blocks while none is free. *)
Record slots := Slots { available : list nat; assigned : dict Z nat }.

Definition lease_enter (index : Z) (s : slots) : option (nat * slots) :=
  match available s with
  | [] => None
  | slot :: rest => Some (slot, Slots rest (<[index := slot]> (assigned s)))
  end.

(** [del self.assigned[index]] raises before the slot is put back. *)
Definition lease_exit (index : Z) (slot : nat) : M slots unit :=
  s ← get;
  raise_if (bool_decide (assigned s !! index = None)) (KeyError "index") ;;
  put (Slots (available s ++ [slot]) (delete index (assigned s))).

(** ** The CPU monitor *)

(** One line of /proc/stat: a CPU's total and idle time. *)
Fixpoint ints (fields : list string) : outcome (list Z) :=
  match fields with
  | [] => Ok []
  | f :: fs => z ← int f; zs ← ints fs; Ok (z :: zs)
  end.

Definition cpu_number (field : string) : option string :=
  let cs := String.list_ascii_of_string field in
  let name := String.string_of_list_ascii (drop 3 cs) in
  if bool_decide (take 3 cs = ["c"; "p"; "u"]%char) && is_digits name then Some name else None.

Definition sub_fields (from to : nat) (fields : list string) : list string :=
  drop from (take to fields).

Fixpoint parse_stat (ls : list string) (stat : gmap Z (Z * Z)) : outcome (gmap Z (Z * Z)) :=
  match ls with
  | [] => Ok stat
  | line :: ls' =>
      let fields := words line in
      match fields with
      | [] => Raise IndexError
      | f0 :: _ =>
          match cpu_number f0 with
          | None => parse_stat ls' stat
          | Some name =>
              values ← ints (sub_fields 1 9 fields);
              match values !! 3%nat, values !! 4%nat with
              | Some idle, Some iowait =>
                  c ← int name;
                  parse_stat ls' (<[c := (zsum values, idle + iowait)]> stat)
              | _, _ => Raise IndexError
              end
          end
      end
  end.

(** One line of /proc/schedstat: run and wait time. *)
Fixpoint parse_schedstat (ls : list string) (sched : gmap Z (Z * Z)) : outcome (gmap Z (Z * Z)) :=
  match ls with
  | [] => Ok sched
  | line :: ls' =>
      let fields := words line in
      match fields with
      | [] => Raise IndexError
      | f0 :: _ =>
          match cpu_number f0, fields !! 7%nat, fields !! 8%nat with
          | Some name, Some run, Some wait =>
              if (10 <=? length fields)%nat then
                r ← int run; w ← int wait; c ← int name;
                parse_schedstat ls' (<[c := (r, w)]> sched)
              else parse_schedstat ls' sched
          | _, _, _ => parse_schedstat ls' sched
          end
      end
  end.

Record cpu_sample := CpuSample { cs_total : Z; cs_idle : Z; cs_run_wait : option (Z * Z) }.

Record cpu_values := CpuValues { utilization : option Q; scheduling_pressure : option Q }.

Definition sum_over (f : Z → Z) (cs : gset Z) : Z := zsum (f <$> elements cs).

(** The counters of one domain. *)
Definition domain_sample (stat sched : gmap Z (Z * Z)) (cs : gset Z) : outcome cpu_sample :=
  if bool_decide (cs ⊆ dom stat) then
    Ok (CpuSample (sum_over (λ c, (default (0, 0) (stat !! c)).1) cs)
                  (sum_over (λ c, (default (0, 0) (stat !! c)).2) cs)
                  (if bool_decide (cs ⊆ dom sched)
                   then Some (sum_over (λ c, (default (0, 0) (sched !! c)).1) cs,
                              sum_over (λ c, (default (0, 0) (sched !! c)).2) cs)
                   else None))
  else Raise (RuntimeError "configured CPUs missing from /proc/stat").

(** Rates between two samples of a domain. *)
Definition domain_values (old : option cpu_sample) (new : cpu_sample) : cpu_values :=
  CpuValues
    (match old with
     | Some o => if (cs_total o <? cs_total new) && (cs_idle o <=? cs_idle new)
                 then Some (Qmax 0 (Qmin 1 (1 - inject_Z (cs_idle new - cs_idle o)
                                               / inject_Z (cs_total new - cs_total o))))
                 else None
     | None => None
     end)
    (match old ≫= cs_run_wait, cs_run_wait new with
     | Some (r0, w0), Some (r1, w1) =>
         let run := r1 - r0 in let wait := w1 - w0 in
         if (0 <=? run) && (0 <=? wait) && (0 <? run + wait)
         then Some (inject_Z wait / inject_Z (run + wait))%Q else None
     | _, _ => None
     end).

(** [CpuMonitor.sample]: at most one read per interval. *)
Record monitor := Monitor {
  m_cpus : list (string * gset Z);
  m_interval : Q;
  m_previous : option (dict string cpu_sample);
  m_last : Q;
  m_values : dict string cpu_values;
}.

Fixpoint sample_domains (stat sched : gmap Z (Z * Z)) (previous : option (dict string cpu_sample))
    (ds : list (string * gset Z)) (sample : dict string cpu_sample) (values : dict string cpu_values)
    : outcome (dict string cpu_sample) * dict string cpu_values :=
  match ds with
  | [] => (Ok sample, values)
  | (k, cs) :: ds' =>
      match domain_sample stat sched cs with
      | Raise e => (Raise e, values)
      | Ok new => sample_domains stat sched previous ds' (<[k := new]> sample)
                    (<[k := domain_values (p ← previous; p !! k) new]> values)
      end
  end.

Definition monitor_sample (now : Q) (stat_lines : list string) (sched_lines : option (list string))
    : M monitor (dict string cpu_values) :=
  m ← get;
  if Qltb (now - m_last m) (m_interval m) then mret (m_values m)
  else
    stat ← lift (parse_stat stat_lines ∅);
    sched ← lift (match sched_lines with Some ls => parse_schedstat ls ∅ | None => Ok ∅ end);
    let '(o, values) := sample_domains stat sched (m_previous m) (m_cpus m) ∅ (m_values m) in
    put (Monitor (m_cpus m) (m_interval m) (m_previous m) (m_last m) values) ;;
    sample ← lift o;
    put (Monitor (m_cpus m) (m_interval m) (Some sample) now values) ;;
    mret values.

(** ** Load-aware session placement *)

(** What one placement attempt reads about a domain under the shared lock:
    the monitor's rates, and the coordinator's memory feedback. *)
Record domain_view := DomainView {
  dv_values : cpu_values;
  dv_used : Z;
  dv_pending : Z;
  dv_reasons : bool;               (** the pressure reasons are not empty *)
  dv_new_session_blocked : bool;
  dv_resident_accounting : bool;
  dv_operation_headroom : Z;
  dv_budget : Z;
}.

Record session := Session { s_domain : string; s_vcpus : Z; s_template : option string }.

Record placement := Placement {
  capacity : dict string Q;
  sessions : dict string session;
  waiting : list string;
  template_affinity_decisions : Z;
  template_cache_hits : Z;
}.

Definition with_sessions (ss : dict string session) (p : placement) : placement :=
  Placement (capacity p) ss (waiting p) (template_affinity_decisions p) (template_cache_hits p).
Definition with_waiting (w : list string) (p : placement) : placement :=
  Placement (capacity p) (sessions p) w (template_affinity_decisions p) (template_cache_hits p).

(** vCPUs offered to the sessions of a domain. *)
Definition offered (k : string) (ss : dict string session) : Z :=
  dsum (λ _ s, if decide (s_domain s = k) then s_vcpus s else 0) ss.

Definition capacity_of (p : placement) (k : string) : Q := default 0%Q (capacity p !! k).

Record request := Request {
  r_session : string;
  r_vcpus : Z;
  r_memory : Z;                    (** bytes *)
  r_fixed : option string;
  r_template : option string;
  r_template_aware : bool;
  r_sharing : bool;
  r_slack : Q;
}.

Record candidate := Candidate {
  cd_blocked : bool;
  cd_score : Q;
  cd_key : string;
  cd_peers : Z;
}.

Definition qmax_list (x : Q) (l : list Q) : Q := foldl Qmax x l.

Definition option_list {A} (o : option A) : list A := match o with Some a => [a] | None => [] end.

(** One turn of the [for key in keys] loop. *)
Definition candidate_of (p : placement) (r : request) (view : string → domain_view) (k : string)
    : option candidate :=
  let off := offered k (sessions p) in
  if Qltb (capacity_of p k) (inject_Z (off + r_vcpus r)) then None
  else
    let v := view k in
    let memory_pressure := (inject_Z (dv_used v + dv_pending v + r_memory r + dv_operation_headroom v)
                            / inject_Z (dv_budget v))%Q in
    let cpu_pressure := qmax_list (inject_Z off / capacity_of p k)
      (option_list (utilization (dv_values v)) ++ option_list (scheduling_pressure (dv_values v))) in
    let blocked := dv_reasons v || (dv_new_session_blocked v && negb (dv_resident_accounting v)) in
    let peers := dsum (λ _ s, if decide (s_domain s = k ∧ s_template s = r_template r) then 1 else 0)
                   (sessions p) in
    Some (Candidate blocked ((cpu_pressure + memory_pressure) / 2) k peers).

Definition candidates (p : placement) (r : request) (view : string → domain_view) (ks : list string)
    : list candidate := omap (candidate_of p r view) ks.

Definition compare_bool (a b : bool) : comparison :=
  match a, b with false, true => Lt | true, false => Gt | _, _ => Eq end.

(** [min(ranked, key=lambda x: x[:3])] *)
Definition plain_order (a b : candidate) : comparison :=
  lex (compare_bool (cd_blocked a) (cd_blocked b))
  (lex (Qcompare (cd_score a) (cd_score b)) (String.compare (cd_key a) (cd_key b))).

(** [(-same_template_peers, score, key)] *)
Definition affinity_order (a b : candidate) : comparison :=
  lex (Z.compare (cd_peers b) (cd_peers a))
  (lex (Qcompare (cd_score a) (cd_score b)) (String.compare (cd_key a) (cd_key b))).

Definition score_order (a b : candidate) : comparison := Qcompare (cd_score a) (cd_score b).

Definition truthy (s : option string) : bool :=
  match s with Some s => negb (bool_decide (s = "")) | None => false end.

Definition affinity_applied (r : request) (feasible : list candidate) : bool :=
  bool_decide (r_fixed r = None) && r_template_aware r && truthy (r_template r) && r_sharing r
  && negb (bool_decide (length feasible = 0%nat)).

Definition feasible (cs : list candidate) : list candidate :=
  filter (λ c, cd_blocked c = false) cs.
Definition ranked (cs : list candidate) : list candidate :=
  match feasible cs with [] => cs | f => f end.

(** The choice among the candidates of one attempt. *)
Definition choose (r : request) (cs : list candidate) : option candidate :=
  best ← min_by score_order (ranked cs);
  if affinity_applied r (feasible cs)
  then min_by affinity_order
         (filter (λ c, Is_true (Qle_bool (cd_score c) (cd_score best + r_slack r))) (feasible cs))
  else min_by plain_order (ranked cs).

(** The atomic block of one attempt: rank, choose and record the session. *)
Definition try_place (r : request) (view : string → domain_view) : M placement (option candidate) :=
  p ← get;
  let ks := match r_fixed r with Some k => [k] | None => keys (capacity p) end in
  let cs := candidates p r view ks in
  match choose r cs with
  | None => mret None
  | Some c =>
      put (Placement (capacity p)
             (<[r_session r := Session (cd_key c) (r_vcpus r) (r_template r)]> (sessions p))
             (waiting p)
             (template_affinity_decisions p + if r_template_aware r then 1 else 0)
             (template_cache_hits p
              + if affinity_applied r (feasible cs) && (0 <? cd_peers c) then 1 else 0)) ;;
      mret (Some c)
  end.

Definition forget (sid : string) (p : placement) : placement :=
  with_sessions (delete sid (sessions p)) p.

(** One attempt: what it observed, what other threads did since the last one,
    and the results of the coordinator's [acquire] and of [emit]. *)
Record attempt := Attempt {
  at_view : string → domain_view;
  at_between : placement → placement;
  at_meanwhile : placement → placement;   (** while the coordinator admits *)
  at_admit : outcome unit;
  at_emit : outcome unit;
}.

Fixpoint place_loop (r : request) (attempts : list attempt) : M placement string :=
  match attempts with
  | [] => raise (AdmissionTimeout "NUMA placement timed out")
  | a :: attempts' =>
      modify (at_between a) ;;
      chosen ← try_place r (at_view a);
      match chosen with
      | None => place_loop r attempts'
      | Some c =>
          modify (at_meanwhile a) ;;
          match at_admit a with
          | Raise (AdmissionTimeout _) => modify (forget (r_session r)) ;; place_loop r attempts'
          | Raise e => modify (forget (r_session r)) ;; raise e
          | Ok _ =>
              match at_emit a with
              | Raise e => modify (forget (r_session r)) ;; raise e
              | Ok _ => mret (cd_key c)
              end
          end
      end
  end.

(** [SessionPlacement.acquire] and [_acquire], given what the domains' budgets
    allow; the arbitration gates only serialise the attempts. *)
Definition acquire (r : request) (budget headroom : string → Z) (attempts : list attempt)
    : M placement string :=
  p ← get;
  raise_if (bool_decide (is_Some (sessions p !! r_session r)) || bool_decide (r_session r ∈ waiting p))
    (RuntimeError "duplicate session placement") ;;
  modify (λ p, with_waiting (r_session r :: waiting p) p) ;;
  let ks := match r_fixed r with Some k => [k] | None => keys (capacity p) end in
  try_finally
    (raise_if (negb (forallb (λ k, bool_decide (is_Some (capacity p !! k))) ks)) (KeyError "domain") ;;
     raise_if (negb (existsb (λ k, Qle_bool (inject_Z (r_vcpus r)) (capacity_of p k)) ks))
       (ValueError "VM pair exceeds placement CPU capacity") ;;
     raise_if (negb (existsb (λ k, r_memory r + headroom k <=? budget k) ks))
       (ValueError "VM pair plus policy operation headroom exceeds placement memory budget") ;;
     place_loop r attempts)
    (modify (λ p, with_waiting (filter (λ s, s ≠ r_session r) (waiting p)) p)).

(** [release] *)
Definition release (sid : string) : M placement unit := modify (forget sid).

(** ** CPU rates are fractions *)

Lemma Qmax_cases x y : (Qmax x y = x ∧ (y <= x)%Q) ∨ (Qmax x y = y ∧ (x <= y)%Q).
Proof.
  unfold Qmax, GenericMinMax.gmax. destruct (x ?= y)%Q eqn:E.
  - left. split; [done|]. apply Qeq_alt in E. lra.
  - right. split; [done|]. apply Qlt_alt in E. lra.
  - left. split; [done|]. apply Qgt_alt in E. lra.
Qed.
Lemma Qmin_cases x y : (Qmin x y = x ∧ (x <= y)%Q) ∨ (Qmin x y = y ∧ (y <= x)%Q).
Proof.
  unfold Qmin, GenericMinMax.gmin. destruct (x ?= y)%Q eqn:E.
  - left. split; [done|]. apply Qeq_alt in E. lra.
  - left. split; [done|]. apply Qlt_alt in E. lra.
  - right. split; [done|]. apply Qgt_alt in E. lra.
Qed.

Definition fraction (o : option Q) : Prop := from_option (λ q, 0 <= q ∧ q <= 1)%Q True o.

Lemma domain_values_fraction old new :
  fraction (utilization (domain_values old new)) ∧
  fraction (scheduling_pressure (domain_values old new)).
Proof.
  split; unfold domain_values; simpl.
  - destruct old as [o|]; [|done]. destruct (_ && _); [|done]. simpl.
    destruct (Qmax_cases 0 (Qmin 1 (1 - inject_Z (cs_idle new - cs_idle o)
      / inject_Z (cs_total new - cs_total o)))) as [[-> ?]|[-> ?]]; [lra|].
    destruct (Qmin_cases 1 (1 - inject_Z (cs_idle new - cs_idle o)
      / inject_Z (cs_total new - cs_total o))) as [[E ?]|[E ?]]; rewrite E in *; lra.
  - destruct (old ≫= cs_run_wait) as [[r0 w0]|]; [|done].
    destruct (cs_run_wait new) as [[r1 w1]|]; [|done].
    destruct ((0 <=? r1 - r0) && (0 <=? w1 - w0) && (0 <? r1 - r0 + (w1 - w0))) eqn:E; [|done].
    apply andb_prop in E as [E E3%Z.ltb_lt]. apply andb_prop in E as [E1%Z.leb_le E2%Z.leb_le].
    simpl. assert (Hd : (0 < inject_Z (r1 - r0 + (w1 - w0)))%Q) by (change 0%Q with (inject_Z 0); by rewrite <- Zlt_Qlt).
    split.
    + apply Qle_shift_div_l; [done|]. rewrite Qmult_0_l.
      change 0%Q with (inject_Z 0). by rewrite <- Zle_Qle.
    + apply Qle_shift_div_r; [done|]. rewrite Qmult_1_l, <- Zle_Qle. lia.
Qed.

(** ** The choice *)

Lemma compare_bool_ok {A} (h : A → bool) : cmp_ok (λ a b, compare_bool (h a) (h b)).
Proof. split; [intros a b; by destruct (h a), (h b)|intros a b c; by destruct (h a), (h b), (h c)]. Qed.

Lemma plain_order_ok : cmp_ok plain_order.
Proof. unfold plain_order. auto using cmp_ok_lex, compare_bool_ok, cmp_ok_Q, cmp_ok_string. Qed.

Lemma affinity_order_ok : cmp_ok affinity_order.
Proof.
  unfold affinity_order. apply cmp_ok_lex; [|auto with clawbox].
  split; [intros; apply Z.compare_antisym|].
  intros a b c H1 H2. apply Z.compare_ngt_iff in H1, H2. apply Z.compare_ngt_iff. lia.
Qed.

Lemma ranked_in cs c : c ∈ ranked cs → c ∈ cs ∧ (feasible cs ≠ [] → cd_blocked c = false).
Proof.
  unfold ranked. destruct (feasible cs) as [|f fs] eqn:E; [naive_solver|].
  intros Hc. assert (c ∈ feasible cs) as Hf by (by rewrite E).
  apply list_elem_of_filter in Hf as [? ?]. done.
Qed.

Lemma choose_in r cs c : choose r cs = Some c → c ∈ cs.
Proof.
  unfold choose. destruct (min_by score_order (ranked cs)) as [best|]; [|done]. simpl.
  destruct (affinity_applied r (feasible cs)); intros E.
  - destruct (min_by_spec _ _ _ affinity_order_ok E) as [Hin _].
    apply list_elem_of_filter in Hin as [_ Hin]. by apply list_elem_of_filter in Hin as [_ ?].
  - destruct (min_by_spec _ _ _ plain_order_ok E) as [Hin _]. by apply ranked_in in Hin as [? _].
Qed.

Lemma choose_some r cs : cs ≠ [] → is_Some (choose r cs) ∨ (r_slack r < 0)%Q.
Proof.
  intros Hne. assert (Hr : ranked cs ≠ []).
  { unfold ranked. by destruct (feasible cs). }
  unfold choose. destruct (min_by_some score_order _ Hr) as [best Eb]. rewrite Eb. simpl.
  destruct (affinity_applied r (feasible cs)) eqn:Ea; [|left; by apply min_by_some].
  destruct (Qlt_le_dec (r_slack r) 0) as [|Hs]; [by right|left]. apply min_by_some.
  destruct (min_by_spec _ _ _ (cmp_ok_Q cd_score) Eb) as [Hbin _].
  intros En. assert (best ∈ filter (λ c, Is_true (Qle_bool (cd_score c) (cd_score best + r_slack r)))
    (feasible cs)) as Hin; [|rewrite En in Hin; by apply not_elem_of_nil in Hin].
  apply list_elem_of_filter. split.
  - destruct (Qle_bool_spec (cd_score best) (cd_score best + r_slack r)); [done|lra].
  - unfold ranked in Hbin. destruct (feasible cs) eqn:Ef; [|done].
    unfold affinity_applied in Ea. by apply andb_prop in Ea as [_ ?].
Qed.

(** ** Capacity *)

Definition capacity_ok (p : placement) : Prop :=
  dict_all (λ _ s, 0 <= s_vcpus s) (sessions p) ∧
  ∀ k, 0 < offered k (sessions p) → (inject_Z (offered k (sessions p)) <= capacity_of p k)%Q.

Lemma offered_nonneg k ss : dict_all (λ _ s, 0 <= s_vcpus s) ss → 0 <= offered k ss.
Proof.
  intros Hss. apply dsum_nonneg. intros sid s Hin. case_decide; [|done].
  by apply (dict_all_elem _ _ Hss) in Hin.
Qed.

Lemma offered_insert k ss sid s : dict_all (λ _ s, 0 <= s_vcpus s) ss →
  offered k (<[sid := s]> ss) <= offered k ss + if decide (s_domain s = k) then s_vcpus s else 0.
Proof.
  intros Hss. unfold offered. destruct (ss !! sid) as [old|] eqn:E.
  - rewrite (dsum_insert _ _ _ _ _ E). pose proof (proj2 Hss sid old E). simpl in *.
    case_decide; case_decide; lia.
  - rewrite dsum_insert_new by done. done.
Qed.

Lemma offered_delete k ss sid : dict_all (λ _ s, 0 <= s_vcpus s) ss →
  offered k (delete sid ss) <= offered k ss.
Proof.
  intros Hss. unfold offered. destruct (ss !! sid) as [old|] eqn:E.
  - rewrite (dsum_delete _ _ _ _ E). pose proof (proj2 Hss sid old E). simpl in *. case_decide; lia.
  - by rewrite delete_notin.
Qed.

Lemma capacity_ok_forget sid p : capacity_ok p → capacity_ok (forget sid p).
Proof.
  intros [Hs Hc]. split; [by apply dict_all_delete|]. intros k Hk. simpl in *.
  pose proof (offered_delete k (sessions p) sid Hs) as Hle.
  specialize (Hc k ltac:(lia)). unfold capacity_of in *. simpl.
  eapply Qle_trans; [|exact Hc]. by rewrite <- Zle_Qle.
Qed.

Lemma candidate_of_spec p r view k c : candidate_of p r view k = Some c →
  cd_key c = k ∧ (inject_Z (offered k (sessions p) + r_vcpus r) <= capacity_of p k)%Q.
Proof.
  unfold candidate_of. destruct (Qltb_spec (capacity_of p k) (inject_Z (offered k (sessions p) + r_vcpus r)));
    intros; simplify_eq/=. split; [done|lra].
Qed.

Lemma preserves_try_place r view : 0 <= r_vcpus r → preserves capacity_ok (try_place r view).
Proof.
  intros Hv p [Hs Hc]. unfold try_place, mbind, M_bind, get, put, mret, M_ret.
  destruct (choose r _) as [c|] eqn:Ech; [|done]. simpl.
  pose proof (choose_in _ _ _ Ech) as Hin.
  unfold candidates in Hin. apply list_elem_of_omap in Hin as (k & _ & Hk).
  destruct (candidate_of_spec _ _ _ _ _ Hk) as [<- Hfit].
  split; simpl; [by apply dict_all_insert|]. intros k Hpos.
  pose proof (offered_insert k (sessions p) (r_session r)
    (Session (cd_key c) (r_vcpus r) (r_template r)) Hs) as Hle. simpl in Hle.
  unfold capacity_of in *. simpl. destruct (decide (cd_key c = k)) as [<-|].
  - eapply Qle_trans; [|exact Hfit]. by rewrite <- Zle_Qle.
  - specialize (Hc k ltac:(lia)). eapply Qle_trans; [|exact Hc]. rewrite <- Zle_Qle. lia.
Qed.

(** Other threads of the same placement keep the capacity too. *)
Definition attempt_ok (a : attempt) : Prop :=
  (∀ p, capacity_ok p → capacity_ok (at_between a p)) ∧
  (∀ p, capacity_ok p → capacity_ok (at_meanwhile a p)).

Lemma preserves_place_loop r attempts : 0 <= r_vcpus r → Forall attempt_ok attempts →
  preserves capacity_ok (place_loop r attempts).
Proof.
  intros Hv. induction 1 as [|a attempts [Hb Hm] _ IH]; simpl; [apply preserves_raise|].
  assert (Hforget : preserves capacity_ok (modify (forget (r_session r))))
    by (apply preserves_modify; intros; by apply capacity_ok_forget).
  apply preserves_bind; [by apply preserves_modify|intros _].
  apply preserves_bind; [by apply preserves_try_place|intros [c|]]; [|done].
  apply preserves_bind; [by apply preserves_modify|intros _].
  destruct (at_admit a) as [[]|e].
  - destruct (at_emit a); [apply preserves_ret|].
    apply preserves_bind; [done|intros; apply preserves_raise].
  - destruct e; apply preserves_bind; try done; intros; first [done|apply preserves_raise].
Qed.

Lemma preserves_acquire r budget headroom attempts : 0 <= r_vcpus r → Forall attempt_ok attempts →
  preserves capacity_ok (acquire r budget headroom attempts).
Proof.
  intros Hv Ha. unfold acquire. apply preserves_bind; [apply preserves_get|intros p0].
  apply preserves_bind; [apply preserves_raise_if|intros _].
  apply preserves_bind; [apply preserves_modify; by intros p []|intros _].
  apply preserves_finally; [|apply preserves_modify; by intros p []].
  apply preserves_bind; [apply preserves_raise_if|intros _].
  apply preserves_bind; [apply preserves_raise_if|intros _].
  apply preserves_bind; [apply preserves_raise_if|intros _].
  by apply preserves_place_loop.
Qed.

(** A run of placements and releases. *)
Inductive placement_op :=
  | Acquire (r : request) (budget headroom : string → Z) (attempts : list attempt)
  | Release (sid : string).

Definition placement_exec (o : placement_op) (p : placement) : placement :=
  match o with
  | Acquire r b h atts => (acquire r b h atts p).2
  | Release sid => (release sid p).2
  end.

Definition placement_op_ok (o : placement_op) : Prop :=
  match o with
  | Acquire r _ _ atts => 0 <= r_vcpus r ∧ Forall attempt_ok atts
  | Release _ => True
  end.

Definition fresh_placement (cap : dict string Q) : placement := Placement cap ∅ [] 0 0.

Lemma placement_run_ok cap os : Forall placement_op_ok os →
  capacity_ok (foldl (λ p o, placement_exec o p) (fresh_placement cap) os).
Proof.
  intros Hos. assert (H0 : capacity_ok (fresh_placement cap)).
  { split; [apply dict_all_empty|]. intros k. simpl. unfold offered, dsum, zsum. simpl. lia. }
  revert H0. generalize (fresh_placement cap). induction Hos as [|o os Ho _ IH]; intros p Hp; [done|].
  simpl. apply IH. destruct o as [r b h atts|sid]; simpl.
  - destruct Ho. by apply preserves_acquire.
  - by apply capacity_ok_forget.
Qed.

(** Placement never over-commits a domain's CPUs.  However acquisitions
    and releases interleave, and whatever the coordinators, monitors and other
    threads answer, the vCPUs offered to the sessions placed on a domain never
    exceed its capacity. *)
Theorem placement_respects_capacity cap os k :
  Forall placement_op_ok os →
  let p := foldl (λ p o, placement_exec o p) (fresh_placement cap) os in
  0 < offered k (sessions p) → (inject_Z (offered k (sessions p)) <= capacity_of p k)%Q.
Proof. intros Hos p. by apply (placement_run_ok cap os Hos). Qed.

(** The choice of a domain is the documented one.  A domain without
    pressure is chosen whenever there is one; without template affinity the
    choice is the least (pressure, score, name); with affinity its score is
    within the slack of every unpressured domain, and no unpressured domain
    within the slack has more sessions of the same template. *)
Theorem placement_choice r cs c :
  choose r cs = Some c →
  c ∈ cs ∧ (feasible cs ≠ [] → cd_blocked c = false) ∧
  (affinity_applied r (feasible cs) = false → ∀ c', c' ∈ ranked cs → plain_order c c' ≠ Gt) ∧
  (affinity_applied r (feasible cs) = true →
     (∀ c', c' ∈ feasible cs → (cd_score c <= cd_score c' + r_slack r)%Q) ∧
     ∀ c', c' ∈ feasible cs → (∀ c'', c'' ∈ feasible cs → (cd_score c' <= cd_score c'' + r_slack r)%Q) →
       cd_peers c' <= cd_peers c).
Proof.
  unfold choose. destruct (min_by score_order (ranked cs)) as [best|] eqn:Eb; [|done]. simpl.
  destruct (min_by_spec _ _ _ (cmp_ok_Q cd_score) Eb) as [Hbin Hbest]. rewrite Forall_forall in Hbest.
  destruct (affinity_applied r (feasible cs)) eqn:Ea; intros E.
  - destruct (min_by_spec _ _ _ affinity_order_ok E) as [Hin Hmin]. rewrite Forall_forall in Hmin.
    apply list_elem_of_filter in Hin as [Hle Hin].
    assert (Hf : feasible cs = ranked cs).
    { unfold ranked. destruct (feasible cs); [by apply not_elem_of_nil in Hin|done]. }
    assert (Hsc : (cd_score c <= cd_score best + r_slack r)%Q)
      by (by destruct (Qle_bool_spec (cd_score c) (cd_score best + r_slack r))).
    assert (Hb : ∀ c', c' ∈ feasible cs → (cd_score best <= cd_score c')%Q).
    { intros c' Hc'. rewrite Hf in Hc'. apply Qle_alt. by apply Hbest. }
    pose proof Hin as Hin'. apply list_elem_of_filter in Hin' as [Hbl Hcs].
    split_and!; [done|done|done|]. intros _. split.
    + intros c' Hc'. specialize (Hb c' Hc'). lra.
    + intros c' Hc' Hall. assert (Hm : cmp_le affinity_order c c').
      { apply Hmin. apply list_elem_of_filter. split; [|done].
        destruct (Qle_bool_spec (cd_score c') (cd_score best + r_slack r)) as [|Hn]; [done|].
        exfalso. apply Hn. apply Hall. by rewrite Hf. }
      unfold cmp_le, affinity_order in Hm.
      destruct (Z.compare_spec (cd_peers c') (cd_peers c)); [lia..|done].
  - destruct (min_by_spec _ _ _ plain_order_ok E) as [Hin Hmin]. rewrite Forall_forall in Hmin.
    destruct (ranked_in cs c Hin). split_and!; [done..|auto|done].
Qed.

Definition calm_view : string → domain_view := λ k,
  DomainView (CpuValues (Some (1 # 2)) None) 100 20 (bool_decide (k = "n1")) false false 10 1000.
Definition ask (sid : string) (n : Z) : request :=
  Request sid n 200 None (Some "py") true true (1 # 10).
Definition two_nodes : dict string Q := <["n0" := 8%Q]> (<["n1" := 4%Q]> ∅).
Definition try_now (o : outcome unit) : attempt := Attempt calm_view id id o (Ok tt).
Definition placement_script : list placement_op :=
  [Acquire (ask "a" 3) (λ _, 1000) (λ _, 10) [try_now (Ok tt)];
   Acquire (ask "b" 4) (λ _, 1000) (λ _, 10) [try_now (Raise (AdmissionTimeout "t")); try_now (Ok tt)];
   Acquire (ask "c" 4) (λ _, 1000) (λ _, 10) [try_now (Ok tt)];
   Acquire (ask "d" 4) (λ _, 1000) (λ _, 10) [try_now (Ok tt)]; Release "a"].

Lemma placement_respects_capacity_witness :
  let p := foldl (λ p o, placement_exec o p) (fresh_placement two_nodes) placement_script in
  (inject_Z (offered "n0" (sessions p)) <= capacity_of p "n0")%Q.
Proof.
  apply (placement_respects_capacity two_nodes placement_script "n0").
  - unfold placement_script.
    repeat (apply Forall_cons; split;
      [first [exact I|split; [done|repeat (apply Forall_cons; split; [split; by intros|]); constructor]]|]).
    constructor.
  - vm_compute. reflexivity.
Defined.

Lemma placement_choice_witness :
  let cs := [Candidate false (1 # 2) "n0" 0; Candidate true (1 # 4) "n1" 3;
             Candidate false (11 # 20) "n2" 2; Candidate false (9 # 10) "n3" 5] in
  let c := Candidate false (11 # 20) "n2" 2 in
  c ∈ cs ∧ (feasible cs ≠ [] → cd_blocked c = false) ∧
  (affinity_applied (ask "a" 1) (feasible cs) = false → ∀ c', c' ∈ ranked cs → plain_order c c' ≠ Gt) ∧
  (affinity_applied (ask "a" 1) (feasible cs) = true →
     (∀ c', c' ∈ feasible cs → (cd_score c <= cd_score c' + (1 # 10))%Q) ∧
     ∀ c', c' ∈ feasible cs → (∀ c'', c'' ∈ feasible cs → (cd_score c' <= cd_score c'' + (1 # 10))%Q) →
       cd_peers c' <= cd_peers c).
Proof. apply (placement_choice (ask "a" 1)). vm_compute. reflexivity. Defined.

(** ** CPU lists round-trip *)

Definition render_range (r : Z * Z) : chars :=
  String.list_ascii_of_string (str r.1) ++ "-"%char :: String.list_ascii_of_string (str r.2).

Fixpoint render_ranges (rs : list (Z * Z)) : chars :=
  match rs with
  | [] => []
  | [r] => render_range r
  | r :: rs' => render_range r ++ ","%char :: render_ranges rs'
  end.

(** The kernel's textual form, e.g. [0-3,8-11]. *)
Definition render_cpus (rs : list (Z * Z)) : string := String.string_of_list_ascii (render_ranges rs).

Definition range_ok (r : Z * Z) : Prop := 0 <= r.1 ∧ r.1 <= r.2.

Lemma is_digits_str n : 0 <= n → is_digits (str n) = true.
Proof.
  intros Hn. destruct (str_chars n Hn) as (_ & Hd & Hne). unfold is_digits.
  rewrite bool_decide_false by done. simpl. apply forallb_forall. intros c Hc.
  rewrite Forall_forall in Hd. apply bool_decide_eq_true. apply Hd. by apply list_elem_of_In.
Qed.

Lemma not_sep_digits (sep : ascii) n : 0 <= n → ¬ is_Some (digit sep) →
  Forall (λ c, bool_decide (c = sep) = false) (String.list_ascii_of_string (str n)).
Proof.
  intros Hn Hs. destruct (str_chars n Hn) as (_ & Hd & _). eapply Forall_impl; [exact Hd|].
  simpl. intros c Hc. apply bool_decide_eq_false. by intros ->.
Qed.

Lemma parse_render_range r : range_ok r →
  parse_part (String.string_of_list_ascii (render_range r)) = Ok (cpu_range r.1 r.2).
Proof.
  destruct r as [a b]. intros [Ha Hb]; simpl in *.
  assert (Hb0 : 0 <= b) by lia.
  destruct (str_chars a Ha) as (Ea & Hda & Hna), (str_chars b Hb0) as (Eb & Hdb & Hnb).
  unfold parse_part. rewrite strip_between.
  - unfold split_on, render_range. rewrite String.list_ascii_of_string_of_list_ascii. simpl.
    rewrite split_chars_cons; [|by apply not_sep_digits; [|intros [? ?]]|done].
    rewrite split_chars_last by (by apply not_sep_digits; [|intros [? ?]]).
    simpl. rewrite <- Ea, <- Eb, !is_digits_str, !int_str by done. simpl.
    destruct (Z.ltb_spec b a); [lia|done].
  - unfold render_range. simpl. destruct (String.list_ascii_of_string (str a)) as [|c cs]; [done|].
    apply Forall_cons in Hda as [Hc _]. exists c, (cs ++ "-"%char :: String.list_ascii_of_string (str b)).
    split; [done|]. by destruct (digit_not_special c Hc).
  - unfold render_range. simpl.
    destruct (exists_last Hnb) as (z & c & E). rewrite E in Hdb |- *.
    apply Forall_app in Hdb as [_ Hc]. apply Forall_cons in Hc as [Hc _].
    exists c, (String.list_ascii_of_string (str a) ++ "-"%char :: z).
    split; [by rewrite <- (assoc_L (++))|]. by destruct (digit_not_special c Hc).
Qed.

Lemma render_range_nocomma r : range_ok r →
  Forall (λ c, bool_decide (c = ","%char) = false) (render_range r).
Proof.
  intros [Ha Hb]. unfold render_range. apply Forall_app. split.
  - apply not_sep_digits; [done|by intros [? ?]].
  - constructor; [done|]. apply not_sep_digits; [lia|by intros [? ?]].
Qed.

Lemma split_render rs : rs ≠ [] → Forall range_ok rs →
  split_on ","%char (render_cpus rs) = (λ r, String.string_of_list_ascii (render_range r)) <$> rs.
Proof.
  intros Hne Hrs. unfold split_on, render_cpus. rewrite String.list_ascii_of_string_of_list_ascii.
  induction Hrs as [|r rs Hr Hrs IH]; [done|]. destruct rs as [|r' rs]; simpl.
  - by rewrite split_chars_last by (by apply render_range_nocomma).
  - rewrite split_chars_cons; [|by apply render_range_nocomma|done].
    rewrite fmap_cons. f_equal. by apply IH.
Qed.

Definition ranges_set (rs : list (Z * Z)) : gset Z := ⋃ ((λ r, cpu_range r.1 r.2) <$> rs).

Lemma parse_parts_render rs acc : Forall range_ok rs →
  parse_parts ((λ r, String.string_of_list_ascii (render_range r)) <$> rs) acc =
  Ok (acc ∪ ranges_set rs).
Proof.
  intros Hrs. revert acc. induction Hrs as [|r rs Hr _ IH]; intros acc.
  - simpl. unfold ranges_set. simpl. f_equal. set_solver.
  - rewrite fmap_cons. simpl. rewrite parse_render_range by done. simpl. rewrite IH.
    unfold ranges_set. simpl. f_equal. set_solver.
Qed.

(** The CPU list parser inverts the kernel's format.  Any non-empty list
    of ranges with natural bounds, printed as [first-last] and joined by
    commas, parses to exactly the union of the ranges. *)
Theorem cpu_list_roundtrip rs : rs ≠ [] → Forall range_ok rs →
  parse_cpu_list (render_cpus rs) = Ok (ranges_set rs).
Proof.
  intros Hne Hrs. unfold parse_cpu_list. rewrite split_render, parse_parts_render by done.
  simpl. rewrite (left_id_L ∅ (∪)). rewrite bool_decide_false; [done|].
  destruct Hrs as [|r rs [Ha Hb] _]; [done|]. unfold ranges_set. simpl.
  assert (r.1 ∈ cpu_range r.1 r.2); [|set_solver].
  unfold cpu_range. rewrite elem_of_list_to_set, elem_of_seqZ. lia.
Qed.

Lemma cpu_list_roundtrip_witness : parse_cpu_list "0-3,8-8,12-15" = Ok (ranges_set [(0, 3); (8, 8); (12, 15)]).
Proof.
  apply (cpu_list_roundtrip [(0, 3); (8, 8); (12, 15)]); [done|].
  repeat (constructor; [split; simpl; lia|]). constructor.
Defined.

(** ** Node checks and static placement *)

Definition node_cpus (n : compute_node) : gset Z :=
  match parse_cpu_list (cpus n) with Ok s => s | Raise _ => ∅ end.

Lemma disjoint_cpus_spec nodes shared acc : disjoint_cpus nodes shared acc = Ok tt →
  Forall (λ n, shared ≠ Some (numa_node n) ∧ is_ok (parse_cpu_list (cpus n)) = true ∧
               node_cpus n ## acc) nodes ∧
  ∀ i j n m, nodes !! i = Some n → nodes !! j = Some m → i ≠ j → node_cpus n ## node_cpus m.
Proof.
  revert acc. induction nodes as [|n nodes IH]; intros acc E; simpl in E; [done|].
  case_bool_decide as Hs; [done|].
  destruct (parse_cpu_list (cpus n)) as [cs|] eqn:Ec; [|done]. simpl in E.
  case_bool_decide as Hd; [|done]. simpl in E. destruct (IH _ E) as [Hall Hpair].
  assert (Hn : node_cpus n = cs) by (unfold node_cpus; by rewrite Ec).
  rewrite Forall_forall in Hall. split.
  - constructor; [split_and!; [done|by rewrite Ec|rewrite Hn; set_solver]|].
    rewrite Forall_forall. intros m Hm. destruct (Hall m Hm) as (? & ? & ?). split_and!; set_solver.
  - assert (Hhead : ∀ m, m ∈ nodes → node_cpus n ## node_cpus m).
    { intros m Hm. destruct (Hall m Hm) as (_ & _ & ?). rewrite Hn. set_solver. }
    intros [|i] [|j] x y Hi Hj Hij; simplify_eq/=.
    + apply Hhead. by eapply list_elem_of_lookup_2.
    + symmetry. apply Hhead. by eapply list_elem_of_lookup_2.
    + eapply Hpair; eauto.
Qed.

(** Validated compute nodes are isolated, and sessions are dealt to them
    in turn.  When the checks pass, node ids and NUMA nodes are distinct, none
    is the shared node, every CPU list parses and no CPU belongs to two nodes;
    and without an explicit map the session of each index goes to one of the
    nodes, the one [length nodes] indices later to the same one. *)
Theorem validated_placement nodes shared index :
  validate_compute_nodes nodes shared = Ok tt → nodes ≠ [] → 0 <= index →
  (∀ i j n m, nodes !! i = Some n → nodes !! j = Some m → i ≠ j →
     node_id n ≠ node_id m ∧ numa_node n ≠ numa_node m ∧ node_cpus n ## node_cpus m) ∧
  Forall (λ n, shared ≠ Some (numa_node n) ∧ is_ok (parse_cpu_list (cpus n)) = true) nodes ∧
  ∃ n, n ∈ nodes ∧ place_session nodes index [] = Ok n ∧
       place_session nodes (index + Z.of_nat (length nodes)) [] = Ok n.
Proof.
  intros Hv Hne Hi. unfold validate_compute_nodes in Hv.
  case_bool_decide as Hids; [|done]. simpl in Hv. case_bool_decide as Hnuma; [|done]. simpl in Hv.
  destruct (disjoint_cpus_spec _ _ _ Hv) as [Hall Hpair]. split_and!.
  - intros i j n m En Em Hij. split_and!; [..|by eapply Hpair].
    + intros E. apply Hij. eapply NoDup_lookup; [exact Hids|rewrite list_lookup_fmap, En; done|].
      rewrite list_lookup_fmap, Em. by rewrite E.
    + intros E. apply Hij. eapply NoDup_lookup; [exact Hnuma|rewrite list_lookup_fmap, En; done|].
      rewrite list_lookup_fmap, Em. by rewrite E.
  - eapply Forall_impl; [exact Hall|]. naive_solver.
  - assert (Hlen : 0 < Z.of_nat (length nodes)) by (destruct nodes; [done|simpl; lia]).
    pose proof (Z.mod_pos_bound index (Z.of_nat (length nodes)) Hlen) as Hmod.
    destruct (nth_error nodes (Z.to_nat (index mod Z.of_nat (length nodes)))) as [n|] eqn:E.
    2: { apply nth_error_None in E. lia. }
    exists n. split; [apply nth_error_In in E; by apply list_elem_of_In|].
    unfold place_session. rewrite !bool_decide_false by (simpl; lia || done).
    rewrite Zplus_mod, Z_mod_same_full, Z.add_0_r, Z.mod_mod by lia. rewrite E.
    destruct (Z.ltb_spec index 0), (Z.ltb_spec (index + Z.of_nat (length nodes)) 0); by try lia.
Qed.

Definition host_nodes : list compute_node :=
  [ComputeNode "n0" 0 "0-3,8" 4096 1024 2048; ComputeNode "n1" 1 "4-7" 4096 1024 2048].

Lemma validated_placement_witness :
  (∀ i j n m, host_nodes !! i = Some n → host_nodes !! j = Some m → i ≠ j →
     node_id n ≠ node_id m ∧ numa_node n ≠ numa_node m ∧ node_cpus n ## node_cpus m) ∧
  Forall (λ n, Some 2 ≠ Some (numa_node n) ∧ is_ok (parse_cpu_list (cpus n)) = true) host_nodes ∧
  ∃ n, n ∈ host_nodes ∧ place_session host_nodes 5 [] = Ok n ∧
       place_session host_nodes (5 + Z.of_nat (length host_nodes)) [] = Ok n.
Proof. apply (validated_placement host_nodes (Some 2) 5); [vm_compute; reflexivity|done|lia]. Defined.
