(* ===== verification/CpuTopology.v ===== *)
(** * CPU masks and cluster groups (src/clawbox/experiments/priority.py)

    The masks that narrow a Tool VM to one last-level-cache cluster:
    [_format_cpu_list] prints a mask, [physical_cluster_groups] lists the clusters
    that the permitted CPUs cover, read from sysfs.  The answers of sysfs are an
    argument. *)
From S2P Require Import Prelude Ordering PyStrings Placement.
From Stdlib Require Import Ascii.

(** [sorted(cpus)] of a set *)
Definition sorted_cpus (cs : gset Z) : list Z := sort_by Z.compare (elements cs).

(** ** Masks *)

(** One turn of the loop of [_format_cpu_list]; the last range is kept first. *)
Definition add_cpu (ranges : list (Z * Z)) (cpu : Z) : list (Z * Z) :=
  match ranges with
  | (first, last_) :: rest => if cpu =? last_ + 1 then (first, cpu) :: rest else (cpu, cpu) :: ranges
  | [] => [(cpu, cpu)]
  end.
Definition show_range (r : Z * Z) : string :=
  if r.1 =? r.2 then str r.1 else (str r.1 ++ "-" ++ str r.2)%string.
(** [_format_cpu_list] *)
Definition format_cpu_list (cs : gset Z) : string :=
  String.concat "," (show_range <$> rev (foldl add_cpu [] (sorted_cpus cs))).

(** ** Clusters *)

(** What sysfs says of a CPU: the type, level and shared CPUs of each readable
    cache index, its cluster, and its thread siblings. *)
Record sysfs := Sysfs {
  cache_indexes : Z → list (outcome (string * string * string));
  cluster_cpus_list : Z → outcome string;
  thread_siblings_list : Z → outcome string;
}.

Fixpoint compare_tuples (a b : list Z) : comparison :=
  match a, b with
  | [], [] => Eq
  | [], _ => Lt
  | _, [] => Gt
  | x :: a', y :: b' => lex (Z.compare x y) (compare_tuples a' b')
  end.
Definition compare_bools (a b : bool) : comparison :=
  match a, b with false, true => Lt | true, false => Gt | _, _ => Eq end.

(** An entry of [cache_candidates]: the level, whether it is unified, the CPUs. *)
Definition cache : Type := Z * bool * list Z.
Definition compare_caches (a b : cache) : comparison :=
  lex (Z.compare a.1.1 b.1.1) (lex (compare_bools a.1.2 b.1.2) (compare_tuples a.2 b.2)).

Definition cache_of (index : outcome (string * string * string)) : option cache :=
  match index with
  | Raise _ => None
  | Ok (kind, level, shared) =>
      match int (strip level), parse_cpu_list shared with
      | Ok l, Ok cs =>
          let unified := bool_decide (strip kind = "Unified") in
          if unified || bool_decide (strip kind = "Data") then Some (l, unified, sorted_cpus cs) else None
      | _, _ => None
      end
  end.

(** [max(cache_candidates)[2]] *)
Definition llc_of (fs : sysfs) (cpu : Z) : outcome (list Z) :=
  match min_by (λ a b, CompOpp (compare_caches a b)) (omap cache_of (cache_indexes fs cpu)) with
  | None => Raise (RuntimeError "CPU has no readable LLC sharing metadata")
  | Some c => Ok c.2
  end.

(** [except OSError]: of a sysfs file that cannot be read. *)
Definition read_or (what : string) (o : outcome string) : outcome string :=
  match o with Raise (OSError _) => Raise (RuntimeError what) | _ => o end.

(** The members of a cluster: one permitted CPU per physical core, and every
    permitted CPU; [None] when a core has no permitted CPU. *)
Fixpoint scan_members (fs : sysfs) (allowed : gset Z) (members : list Z) (cores : list (list Z))
    (representatives logical : list Z) : outcome (option (list Z * list Z)) :=
  match members with
  | [] => Ok (Some (representatives, logical))
  | member :: members' =>
      text ← read_or "CPU has no readable SMT sibling metadata" (thread_siblings_list fs member);
      cs ← parse_cpu_list text;
      let siblings := sorted_cpus cs in
      if bool_decide (siblings = []) || bool_decide (siblings ∈ cores)
      then scan_members fs allowed members' cores representatives logical
      else
        match sorted_cpus (cs ∩ allowed) with
        | [] => Ok None
        | first :: rest =>
            scan_members fs allowed members' (siblings :: cores) (representatives ++ [first]) (logical ++ first :: rest)
        end
  end.

(** The loop over the permitted CPUs. *)
Fixpoint scan_cpus (fs : sysfs) (allowed : gset Z) (min_physical_cores : Z) (include_smt : bool)
    (cs : list Z) (seen : list (list Z * list Z)) (groups : list string) : outcome (list string) :=
  match cs with
  | [] => Ok groups
  | cpu :: cs' =>
      llc ← llc_of fs cpu;
      text ← read_or "CPU has no readable LLC cluster metadata" (cluster_cpus_list fs cpu);
      members ← parse_cpu_list text;
      let cluster := sorted_cpus members in
      if bool_decide ((llc, cluster) ∈ seen)
      then scan_cpus fs allowed min_physical_cores include_smt cs' seen groups
      else if bool_decide (cluster = []) || negb (forallb (λ c, bool_decide (c ∈ llc)) cluster)
      then Raise (RuntimeError "CPU cluster is not contained in reported LLC")
      else
        found ← scan_members fs allowed cluster [] [] [];
        let groups' :=
          match found with
          | Some (representatives, logical) =>
              if min_physical_cores <=? Z.of_nat (length representatives)
              then groups ++ [format_cpu_list (list_to_set (if include_smt then logical else representatives))]
              else groups
          | None => groups
          end in
        scan_cpus fs allowed min_physical_cores include_smt cs' ((llc, cluster) :: seen) groups'
  end.

(** [physical_cluster_groups] *)
Definition physical_cluster_groups (fs : sysfs) (cpus : string) (min_physical_cores : Z) (include_smt : bool)
    : outcome (list string) :=
  allowed ← parse_cpu_list cpus;
  groups ← scan_cpus fs allowed min_physical_cores include_smt (sorted_cpus allowed) [] [];
  match groups with
  | [] => Raise (RuntimeError "no complete LLC cluster with enough permitted physical cores exists")
  | _ => Ok groups
  end.

(** ** Printed masks parse *)

Lemma cmp_ok_Zcompare : cmp_ok Z.compare.
Proof. exact (cmp_ok_Z (λ z, z)). Qed.

Lemma elem_of_sorted_cpus c cs : c ∈ sorted_cpus cs ↔ c ∈ cs.
Proof. unfold sorted_cpus. by rewrite sort_by_perm, elem_of_elements. Qed.

Lemma sorted_cpus_nil cs : sorted_cpus cs = [] ↔ cs = ∅.
Proof.
  split; intros H; [|by subst].
  apply set_eq. intros c. rewrite <- elem_of_sorted_cpus, H. set_solver.
Qed.

Lemma chars_app x y :
  String.list_ascii_of_string (x ++ y)%string = String.list_ascii_of_string x ++ String.list_ascii_of_string y.
Proof. induction x as [|c x IH]; [done|]. simpl. by rewrite IH. Qed.

Lemma chars_inj x y : String.list_ascii_of_string x = String.list_ascii_of_string y → x = y.
Proof.
  intros H. by rewrite <- (String.string_of_list_ascii_of_string x), H, String.string_of_list_ascii_of_string.
Qed.

(** [show_range] differs from the kernel's form only in one-CPU ranges. *)
Lemma show_render_range a b : a ≠ b → show_range (a, b) = String.string_of_list_ascii (render_range (a, b)).
Proof.
  intros Hne. unfold show_range. cbn [fst snd]. rewrite (proj2 (Z.eqb_neq a b) Hne). apply chars_inj.
  by rewrite String.list_ascii_of_string_of_list_ascii, !chars_app.
Qed.

Lemma parse_show_range r : range_ok r → parse_part (show_range r) = Ok (cpu_range r.1 r.2).
Proof.
  destruct r as [a b]. intros Hr. destruct (decide (a = b)) as [->|Hne].
  - destruct Hr as [Ha _]. cbn [fst snd] in *. unfold show_range, parse_part. cbn [fst snd]. rewrite Z.eqb_refl, strip_str by done.
    destruct (str_chars b Ha) as (E & Hd & _). unfold split_on.
    rewrite split_chars_last by (apply not_sep_digits; [done|by intros [? ?]]). simpl.
    rewrite <- E, is_digits_str, int_str by done. simpl. by rewrite Z.ltb_irrefl.
  - rewrite show_render_range by done. by apply parse_render_range.
Qed.

Lemma show_range_nocomma r : range_ok r →
  Forall (λ c, bool_decide (c = ","%char) = false) (String.list_ascii_of_string (show_range r)).
Proof.
  destruct r as [a b]. intros Hr. destruct (decide (a = b)) as [->|Hne].
  - unfold show_range. cbn [fst snd]. rewrite Z.eqb_refl. apply not_sep_digits; [apply Hr|by intros [? ?]].
  - rewrite show_render_range, String.list_ascii_of_string_of_list_ascii by done. by apply render_range_nocomma.
Qed.

Lemma split_concat (parts : list string) : parts ≠ [] →
  Forall (λ p, Forall (λ c, bool_decide (c = ","%char) = false) (String.list_ascii_of_string p)) parts →
  split_on ","%char (String.concat "," parts) = parts.
Proof.
  intros Hne Hp. induction Hp as [|p parts Hc Hp IH]; [done|]. unfold split_on in *.
  destruct parts as [|q parts].
  - cbn [String.concat]. rewrite split_chars_last by done. simpl. by rewrite String.string_of_list_ascii_of_string.
  - change (String.concat "," (p :: q :: parts)) with (p ++ String ","%char (String.concat "," (q :: parts)))%string.
    rewrite chars_app. cbn [String.list_ascii_of_string]. rewrite split_chars_cons by done.
    rewrite fmap_cons, IH by done. simpl. by rewrite String.string_of_list_ascii_of_string.
Qed.

Lemma parse_parts_show rs acc : Forall range_ok rs → parse_parts (show_range <$> rs) acc = Ok (acc ∪ ranges_set rs).
Proof.
  intros Hrs. revert acc. induction Hrs as [|r rs Hr _ IH]; intros acc; simpl.
  - unfold ranges_set. simpl. f_equal. set_solver.
  - rewrite parse_show_range by done. simpl. rewrite IH. unfold ranges_set. simpl. f_equal. set_solver.
Qed.

(** The ranges of [_format_cpu_list] cover the CPUs it has been given. *)
Lemma ranges_set_rev rs : ranges_set (rev rs) = ranges_set rs.
Proof.
  unfold ranges_set. apply set_eq. intros c. rewrite !elem_of_union_list.
  split; intros (X & HX & Hc); exists X; (split; [|done]); revert HX; rewrite !list_elem_of_fmap;
    intros (r & -> & Hr); exists r; (split; [done|]); revert Hr; rewrite !list_elem_of_In, <- in_rev; done.
Qed.

Lemma cpu_range_single c : cpu_range c c = {[c]}.
Proof.
  apply set_eq. intros x. unfold cpu_range. rewrite elem_of_list_to_set, elem_of_seqZ, elem_of_singleton. lia.
Qed.

Lemma foldl_add_cpu l : ∀ rs, Forall range_ok rs → Forall (λ c, 0 <= c) l →
  Forall range_ok (foldl add_cpu rs l) ∧ ranges_set (foldl add_cpu rs l) = ranges_set rs ∪ list_to_set l.
Proof.
  induction l as [|c l IH]; intros rs Hrs Hl; simpl; [split; [done|set_solver]|].
  apply Forall_cons in Hl as [Hc Hl].
  assert (Forall range_ok (add_cpu rs c) ∧ ranges_set (add_cpu rs c) = ranges_set rs ∪ {[c]}) as [H1 H2].
  { unfold add_cpu. destruct rs as [|[a b] rs].
    - split; [by repeat constructor|]. unfold ranges_set. simpl. rewrite cpu_range_single. set_solver.
    - apply Forall_cons in Hrs as [[Ha Hb] Hrs]. cbn [fst snd] in *. destruct (Z.eqb_spec c (b + 1)) as [->|Hne].
      + split; [constructor; [split; cbn; lia|done]|]. unfold ranges_set. simpl.
        assert (cpu_range a (b + 1) = cpu_range a b ∪ {[b + 1]}) as ->; [|set_solver].
        apply set_eq. intros x. unfold cpu_range. rewrite elem_of_union, !elem_of_list_to_set, !elem_of_seqZ, elem_of_singleton. lia.
      + split; [by repeat constructor|]. unfold ranges_set. simpl. rewrite cpu_range_single. set_solver. }
  destruct (IH _ H1 Hl) as [H3 H4]. split; [done|]. rewrite H4, H2. set_solver.
Qed.

Lemma cpu_mask_parses cs : cs ≠ ∅ → (∀ c, c ∈ cs → 0 <= c) → parse_cpu_list (format_cpu_list cs) = Ok cs.
Proof.
  intros Hne Hpos. unfold parse_cpu_list, format_cpu_list.
  destruct (foldl_add_cpu (sorted_cpus cs) []) as [H1 H2]; [done| |].
  { apply Forall_forall. intros c Hc. apply Hpos. by apply elem_of_sorted_cpus. }
  assert (ranges_set (rev (foldl add_cpu [] (sorted_cpus cs))) = cs) as Hset.
  { rewrite ranges_set_rev, H2. unfold ranges_set. simpl. rewrite (left_id_L ∅ (∪)).
    apply set_eq. intros c. by rewrite elem_of_list_to_set, elem_of_sorted_cpus. }
  set (rs := rev _) in *. assert (Forall range_ok rs) as Hrs by (by apply Forall_rev).
  assert (rs ≠ []) as Hrsne by (by intros E; rewrite E in Hset).
  rewrite split_concat; [|by destruct rs|].
  - rewrite parse_parts_show, Hset by done. simpl. rewrite (left_id_L ∅ (∪)). by rewrite bool_decide_false.
  - apply Forall_fmap. eapply Forall_impl; [done|]. intros r. apply show_range_nocomma.
Qed.

(** A mask reads back as the CPUs it was printed from.  [_format_cpu_list]
    of a non-empty set of CPU numbers is text that [parse_cpu_list] maps to
    exactly that set. *)
Theorem cpu_mask_roundtrip cs : cs ≠ ∅ → (∀ c, c ∈ cs → 0 <= c) → parse_cpu_list (format_cpu_list cs) = Ok cs.
Proof.
  apply cpu_mask_parses.
Qed.

Lemma cpu_mask_roundtrip_witness : format_cpu_list {[0; 1; 2; 8; 12; 13]} = "0-2,8,12-13"%string ∧
  parse_cpu_list (format_cpu_list {[0; 1; 2; 8; 12; 13]}) = Ok {[0; 1; 2; 8; 12; 13]}.
Proof.
  split; [by vm_compute|]. apply cpu_mask_roundtrip; [set_solver|]. intros c Hc. set_unfold in Hc. lia.
Defined.

(** ** What the groups are *)

Definition siblings_at (fs : sysfs) (c : Z) : outcome (gset Z) :=
  text ← read_or "CPU has no readable SMT sibling metadata" (thread_siblings_list fs c); parse_cpu_list text.
Definition cluster_at (fs : sysfs) (c : Z) : outcome (gset Z) :=
  text ← read_or "CPU has no readable LLC cluster metadata" (cluster_cpus_list fs c); parse_cpu_list text.

(** What the kernel guarantees: siblings and clusters partition the CPUs, a
    cluster is a union of cores, and its CPUs share their last-level cache. *)
Record sysfs_ok (fs : sysfs) : Prop := {
  sib_self : ∀ c S, siblings_at fs c = Ok S → c ∈ S;
  sib_same : ∀ c d S, siblings_at fs c = Ok S → d ∈ S → siblings_at fs d = Ok S;
  clu_self : ∀ c K, cluster_at fs c = Ok K → c ∈ K;
  clu_same : ∀ c d K, cluster_at fs c = Ok K → d ∈ K → cluster_at fs d = Ok K;
  clu_sib : ∀ c S K, siblings_at fs c = Ok S → cluster_at fs c = Ok K → S ⊆ K;
  clu_llc : ∀ c d K, cluster_at fs c = Ok K → d ∈ K → llc_of fs d = llc_of fs c;
}.

(** A mask of cluster [K]: inside the permitted CPUs, with a permitted CPU of
    every physical core of the cluster — all of them, or exactly one. *)
Record mask_of (fs : sysfs) (allowed : gset Z) (min : Z) (smt : bool) (K S : gset Z) : Prop := {
  mask_allowed : S ⊆ allowed ∩ K;
  mask_complete : ∀ m, m ∈ K → ∃ T, siblings_at fs m = Ok T ∧ T ∩ allowed ≠ ∅ ∧
    if smt then T ∩ allowed ⊆ S else ∃ r, T ∩ S = {[r]};
  mask_cores : ∃ reps : list Z, min <= Z.of_nat (length reps) ∧ (∀ r, r ∈ reps → r ∈ S) ∧
    ∀ i j r r', reps !! i = Some r → reps !! j = Some r' → i ≠ j → siblings_at fs r ≠ siblings_at fs r';
}.

Lemma sorted_cpus_inj S T : sorted_cpus S = sorted_cpus T → S = T.
Proof. intros H. apply set_eq. intros c. by rewrite <- !elem_of_sorted_cpus, H. Qed.

Lemma parse_digits_nonneg cs : ∀ acc z, 0 <= acc → parse_digits acc cs = Some z → 0 <= z.
Proof.
  induction cs as [|c cs IH]; intros acc z Ha; simpl; [congruence|].
  destruct (digit c) as [d|] eqn:E; [|done]. simpl. apply IH. unfold digit in E.
  destruct (Z.leb_spec 48 (Z.of_N (N_of_ascii c))); [|done]. cbn [andb] in E. case_match; [|done]. injection E. lia.
Qed.

Lemma int_digits_nonneg s z : is_digits s = true → int s = Ok z → 0 <= z.
Proof.
  unfold is_digits, int, parse_int, strip. intros [Hne Hd]%andb_prop.
  assert (Forall (λ c, is_Some (digit c)) (String.list_ascii_of_string s)) as Hds.
  { apply Forall_forall. intros c Hc. rewrite forallb_forall in Hd. apply list_elem_of_In in Hc.
    apply Hd in Hc. by apply bool_decide_eq_true in Hc. }
  rewrite (drop_spaces_digits _ Hds), (drop_spaces_digits (rev _)) by (by apply Forall_rev).
  rewrite rev_involutive, String.list_ascii_of_string_of_list_ascii.
  destruct (String.list_ascii_of_string s) as [|c cs]; [done|]. apply Forall_cons in Hds as [Hc _].
  destruct (digit_not_special c Hc) as (_ & H1 & H2 & _). rewrite !decide_False by done.
  destruct (parse_nat (c :: cs)) eqn:E; [|done]. intros [= <-]. unfold parse_nat in E. by eapply parse_digits_nonneg; [|exact E].
Qed.

Lemma parse_part_nonneg part S : parse_part part = Ok S → ∀ c, c ∈ S → 0 <= c.
Proof.
  unfold parse_part. set (bs := split_on _ _). intros H.
  destruct (negb (bool_decide (length bs = 1%nat ∨ length bs = 2%nat)) || _) eqn:E; [done|].
  apply orb_false_elim in E as [El Ed]. apply negb_false_iff, bool_decide_eq_true in El.
  destruct (int (hd "" bs)) as [first|] eqn:Ef; [|done]. simpl in H. destruct (int (List.last bs "")) as [l|]; [|done].
  simpl in H. case_match; [done|]. injection H as <-. intros c. unfold cpu_range. rewrite elem_of_list_to_set, elem_of_seqZ.
  intros [Hc _]. destruct bs as [|b bs']; [simpl in El; lia|]. simpl in Ef, Ed.
  apply orb_false_elim in Ed as [Eb _]. apply negb_false_iff in Eb. pose proof (int_digits_nonneg _ _ Eb Ef). lia.
Qed.

Lemma parse_cpu_list_spec s S : parse_cpu_list s = Ok S → S ≠ ∅ ∧ ∀ c, c ∈ S → 0 <= c.
Proof.
  unfold parse_cpu_list. intros H. destruct (parse_parts _ ∅) as [cs|] eqn:E; [|done]. simpl in H.
  case_bool_decide as Hne; [done|]. injection H as <-. split; [done|].
  assert (∀ parts acc cs, parse_parts parts acc = Ok cs → (∀ c, c ∈ acc → 0 <= c) → ∀ c, c ∈ cs → 0 <= c) as Hp;
    [|by eapply Hp; [exact E|set_solver]].
  clear. induction parts as [|p parts IH]; intros acc cs; simpl; [by intros [= <-]|].
  destruct (parse_part p) as [S|] eqn:Ep; [|done]. simpl. intros E Hacc. eapply IH; [exact E|].
  intros c [Hc|Hc]%elem_of_union; [by apply Hacc|by eapply parse_part_nonneg].
Qed.

(** The cores that a scan has met, one representative each. *)
Record scanned (fs : sysfs) (allowed : gset Z) (cores : list (list Z)) (reps logical : list Z) : Prop := {
  sc_nodup : NoDup cores;
  sc_reps : Forall2 (λ k r, r ∈ k ∧ r ∈ allowed) (rev cores) reps;
  sc_logical : ∀ c, c ∈ logical ↔ c ∈ allowed ∧ ∃ k, k ∈ cores ∧ c ∈ k;
  sc_cores : ∀ k, k ∈ cores → ∃ c S, siblings_at fs c = Ok S ∧ k = sorted_cpus S;
}.

Lemma scan_members_spec fs allowed ms : ∀ cores reps logical reps' logical',
  scan_members fs allowed ms cores reps logical = Ok (Some (reps', logical')) →
  scanned fs allowed cores reps logical →
  ∃ cores', scanned fs allowed cores' reps' logical' ∧ (∀ k, k ∈ cores → k ∈ cores') ∧
    (∀ m, m ∈ ms → ∃ S, siblings_at fs m = Ok S ∧ sorted_cpus S ∈ cores') ∧
    (∀ k, k ∈ cores' → k ∈ cores ∨ ∃ m S, m ∈ ms ∧ siblings_at fs m = Ok S ∧ k = sorted_cpus S).
Proof.
  induction ms as [|m ms IH]; intros cores reps logical reps' logical'; cbn [scan_members].
  { intros [= <- <-] Hs. exists cores. split_and!; [done|done|by intros m ?%not_elem_of_nil|by left]. }
  destruct (read_or _ (thread_siblings_list fs m)) as [text|] eqn:Et; [|done]. cbn [mbind outcome_bind].
  destruct (parse_cpu_list text) as [S|] eqn:Es; [|done]. cbn [mbind outcome_bind].
  assert (siblings_at fs m = Ok S) as Hm by (unfold siblings_at; by rewrite Et).
  destruct (parse_cpu_list_spec _ _ Es) as [Hne _]. rewrite bool_decide_false by (by rewrite sorted_cpus_nil). cbn [orb].
  case_bool_decide as Hin; intros H Hs.
  - destruct (IH _ _ _ _ _ H Hs) as (cores' & H1 & H2 & H3 & H4). exists cores'. split_and!; [done|done| |].
    + intros m' [->|Hm']%elem_of_cons; [by exists S; auto|by apply H3].
    + intros k [Hk|(m' & T & Hm' & HT & ->)]%H4; [by left|right; exists m', T; by split_and!; [right|..]].
  - destruct (sorted_cpus (S ∩ allowed)) as [|r rest] eqn:Er; [done|].
    assert (∀ c, c ∈ r :: rest ↔ c ∈ S ∧ c ∈ allowed) as Hr by (intros c; by rewrite <- Er, elem_of_sorted_cpus, elem_of_intersection).
    destruct Hs as [Hnd Hrep Hlog Hco].
    assert (scanned fs allowed (sorted_cpus S :: cores) (reps ++ [r]) (logical ++ r :: rest)) as Hs'.
    { split.
      - by constructor.
      - simpl. apply Forall2_app; [done|]. repeat constructor; [apply elem_of_sorted_cpus|]; apply (Hr r); by left.
      - intros c. rewrite elem_of_app, Hlog, Hr. split.
        + intros [[? (k & ? & ?)]|[? ?]]; (split; [done|]); [exists k; by split; [right|]|].
          exists (sorted_cpus S). split; [by left|by apply elem_of_sorted_cpus].
        + intros [? (k & [->|Hk]%elem_of_cons & Hc)]; [right; by rewrite <- elem_of_sorted_cpus|left; eauto].
      - intros k [->|Hk]%elem_of_cons; [by exists m, S|by apply Hco]. }
    destruct (IH _ _ _ _ _ H Hs') as (cores' & H1 & H2 & H3 & H4). exists cores'. split_and!; [done| | |].
    + intros k Hk. apply H2. by right.
    + intros m' [->|Hm']%elem_of_cons; [exists S; split; [done|apply H2; by left]|by apply H3].
    + intros k [Hk|(m' & T & Hm' & HT & ->)]%H4; [|right; exists m', T; by split_and!; [right|..]].
      apply elem_of_cons in Hk as [->|Hk]; [right; exists m, S; by split_and!; [left|..]|by left].
Qed.

Lemma scanned_nil fs allowed : scanned fs allowed [] [] [].
Proof.
  split; [constructor|constructor| |by intros k ?%not_elem_of_nil].
  intros c. split; [by intros ?%not_elem_of_nil|by intros (_ & k & ?%not_elem_of_nil & _)].
Qed.

(** A representative and its core. *)
Lemma scanned_rep fs allowed cores reps logical i r : scanned fs allowed cores reps logical → reps !! i = Some r →
  ∃ k, rev cores !! i = Some k ∧ k ∈ cores ∧ r ∈ k ∧ r ∈ allowed.
Proof.
  intros [_ Hr _ _] Hi. destruct (Forall2_lookup_r _ _ _ _ _ Hr Hi) as (k & Hk & ? & ?). exists k. split_and!; [done| |done..].
  apply list_elem_of_lookup_2 in Hk. by rewrite list_elem_of_In, <- in_rev, <- list_elem_of_In in Hk.
Qed.

Lemma scanned_core_rep fs allowed cores reps logical k : scanned fs allowed cores reps logical → k ∈ cores →
  ∃ i r, rev cores !! i = Some k ∧ reps !! i = Some r ∧ r ∈ k ∧ r ∈ allowed.
Proof.
  intros [_ Hr _ _] Hk. rewrite list_elem_of_In, in_rev, <- list_elem_of_In in Hk.
  apply list_elem_of_lookup in Hk as [i Hi]. destruct (Forall2_lookup_l _ _ _ _ _ Hr Hi) as (r & ? & ? & ?). by exists i, r.
Qed.

(** The core of a CPU determines its siblings. *)
Lemma scanned_siblings fs allowed cores reps logical k r : sysfs_ok fs → scanned fs allowed cores reps logical →
  k ∈ cores → r ∈ k → ∃ S, siblings_at fs r = Ok S ∧ k = sorted_cpus S.
Proof.
  intros Hok [_ _ _ Hc] Hk Hr. destruct (Hc k Hk) as (c & S & HS & ->). exists S. split; [|done].
  apply (sib_same _ Hok c); [done|by apply elem_of_sorted_cpus].
Qed.

Lemma scanned_apart fs allowed cores reps logical i j r r' : sysfs_ok fs → scanned fs allowed cores reps logical →
  reps !! i = Some r → reps !! j = Some r' → i ≠ j → siblings_at fs r ≠ siblings_at fs r'.
Proof.
  intros Hok Hs Hi Hj Hne. destruct (scanned_rep _ _ _ _ _ _ _ Hs Hi) as (k & Hk & Hkc & Hr & _).
  destruct (scanned_rep _ _ _ _ _ _ _ Hs Hj) as (k' & Hk' & Hkc' & Hr' & _).
  destruct (scanned_siblings _ _ _ _ _ _ _ Hok Hs Hkc Hr) as (S & -> & ->).
  destruct (scanned_siblings _ _ _ _ _ _ _ Hok Hs Hkc' Hr') as (S' & -> & ->). intros [= ->].
  apply Hne. apply (NoDup_lookup (rev cores) i j (sorted_cpus S')); [|done..].
  apply NoDup_ListNoDup, NoDup_rev, NoDup_ListNoDup, Hs.
Qed.

Lemma scanned_mask fs allowed min smt members cores reps logical : sysfs_ok fs →
  scanned fs allowed cores reps logical →
  (∀ m, m ∈ sorted_cpus members → ∃ S, siblings_at fs m = Ok S ∧ sorted_cpus S ∈ cores) →
  (∀ k, k ∈ cores → ∃ m S, m ∈ sorted_cpus members ∧ siblings_at fs m = Ok S ∧ k = sorted_cpus S) →
  (∀ m, m ∈ members → cluster_at fs m = Ok members) → min <= Z.of_nat (length reps) →
  mask_of fs allowed min smt members (list_to_set (if smt then logical else reps)).
Proof.
  intros Hok Hs Hm Hk Hcl Hmin.
  assert (∀ r, r ∈ reps → r ∈ logical) as Hrl.
  { intros r [i Hi]%list_elem_of_lookup. destruct (scanned_rep _ _ _ _ _ _ _ Hs Hi) as (k & _ & ? & ? & ?).
    apply (sc_logical _ _ _ _ _ Hs). eauto. }
  assert (∀ c, c ∈ (if smt then logical else reps) → c ∈ logical) as Hlog by (destruct smt; auto).
  split.
  - intros c [Hal (k & Hkc & Hck)]%elem_of_list_to_set%Hlog%(sc_logical _ _ _ _ _ Hs). apply elem_of_intersection. split; [done|].
    destruct (Hk k Hkc) as (m & S & Hmm & HS & ->). apply elem_of_sorted_cpus in Hmm, Hck.
    by apply (clu_sib _ Hok m S members HS (Hcl m Hmm)).
  - intros m Hmm. destruct (Hm m) as (T & HT & HTc); [by apply elem_of_sorted_cpus|]. exists T.
    destruct (scanned_core_rep _ _ _ _ _ _ Hs HTc) as (i & r & Hi & Hri & HrT & Hra). apply elem_of_sorted_cpus in HrT.
    split_and!; [done|set_solver|]. destruct smt.
    + intros c [Hc Hca]%elem_of_intersection. apply elem_of_list_to_set, (sc_logical _ _ _ _ _ Hs). split; [done|].
      exists (sorted_cpus T). by rewrite elem_of_sorted_cpus.
    + exists r. apply set_eq. intros c. rewrite elem_of_intersection, elem_of_list_to_set, elem_of_singleton.
      split; [|by intros ->; split; [|by eapply list_elem_of_lookup_2]]. intros [HcT [j Hj]%list_elem_of_lookup].
      destruct (decide (j = i)) as [->|Hne]; [congruence|]. exfalso. apply (scanned_apart _ _ _ _ _ _ _ _ _ Hok Hs Hj Hri Hne).
      by rewrite (sib_same _ Hok m c T), (sib_same _ Hok m r T).
  - exists reps. split_and!; [done| |intros; by eapply scanned_apart].
    intros r Hr. apply elem_of_list_to_set. destruct smt; auto.
Qed.

(** The groups found so far, each with its cluster. *)
Record groups_ok (fs : sysfs) (allowed : gset Z) (min : Z) (smt : bool) (seen : list (list Z * list Z))
    (groups : list string) (ks masks : list (gset Z)) : Prop := {
  go_nodup : NoDup ks;
  go_seen : ∀ K, K ∈ ks → ∃ c llc, cluster_at fs c = Ok K ∧ llc_of fs c = Ok llc ∧ (llc, sorted_cpus K) ∈ seen;
  go_masks : Forall2 (mask_of fs allowed min smt) ks masks;
  go_groups : Forall2 (λ g S, parse_cpu_list g = Ok S) groups masks;
}.

Lemma found_mask fs allowed min smt members reps logical : sysfs_ok fs → (∀ c, c ∈ allowed → 0 <= c) →
  members ≠ ∅ → (∀ m, m ∈ members → cluster_at fs m = Ok members) → min <= Z.of_nat (length reps) →
  scan_members fs allowed (sorted_cpus members) [] [] [] = Ok (Some (reps, logical)) →
  ∃ S, mask_of fs allowed min smt members S ∧
    parse_cpu_list (format_cpu_list (list_to_set (if smt then logical else reps))) = Ok S.
Proof.
  intros Hok Hpos Hne Hcl Hmin Hsc.
  destruct (scan_members_spec _ _ _ _ _ _ _ _ Hsc (scanned_nil _ _)) as (cores & Hs & _ & Hm & Hk).
  pose proof (scanned_mask fs allowed min smt members cores reps logical Hok Hs Hm) as Hmask.
  exists (list_to_set (if smt then logical else reps)). split.
  - apply Hmask; [|done..]. intros k Hkc. destruct (Hk k Hkc) as [?%not_elem_of_nil|(m & S & ?)]; [done|by exists m, S].
  - apply cpu_mask_parses.
    + destruct (set_choose_L members Hne) as [m Hmm]. destruct (Hm m) as (T & HT & HTc); [by apply elem_of_sorted_cpus|].
      destruct (scanned_core_rep _ _ _ _ _ _ Hs HTc) as (i & r & _ & Hi & HrT & Hra).
      assert (r ∈ (if smt then logical else reps)); [|set_solver].
      destruct smt; [|by eapply list_elem_of_lookup_2]. apply (sc_logical _ _ _ _ _ Hs). eauto.
    + intros c Hc. apply Hpos. apply elem_of_list_to_set in Hc. destruct smt; [by apply (sc_logical _ _ _ _ _ Hs) in Hc as [? _]|].
      apply list_elem_of_lookup in Hc as [i Hi]. by destruct (scanned_rep _ _ _ _ _ _ _ Hs Hi) as (k & _ & _ & _ & ?).
Qed.

Lemma groups_skip fs allowed min smt seen groups ks masks key :
  groups_ok fs allowed min smt seen groups ks masks → groups_ok fs allowed min smt (key :: seen) groups ks masks.
Proof.
  intros [Hn Hs Hm Hg]. split; [done| |done..].
  intros K HK. destruct (Hs K HK) as (c & llc & ? & ? & ?). exists c, llc. split_and!; [done..|by right].
Qed.

Lemma groups_add fs allowed min smt seen groups ks masks c llc K g S : sysfs_ok fs →
  groups_ok fs allowed min smt seen groups ks masks → cluster_at fs c = Ok K → llc_of fs c = Ok llc →
  (llc, sorted_cpus K) ∉ seen → mask_of fs allowed min smt K S → parse_cpu_list g = Ok S →
  groups_ok fs allowed min smt ((llc, sorted_cpus K) :: seen) (groups ++ [g]) (ks ++ [K]) (masks ++ [S]).
Proof.
  intros Hok [Hn Hs Hm Hg] Hc Hl Hseen HS Hgs. split.
  - apply NoDup_app. split_and!; [done| |apply NoDup_singleton]. intros K' HK' ->%list_elem_of_singleton.
    destruct (Hs K HK') as (c' & llc' & Hc' & Hl' & Hin). apply Hseen.
    rewrite (clu_llc _ Hok c c' K), Hl in Hl'; [by injection Hl' as <-|done|]. by apply (clu_self _ Hok).
  - intros K' [HK'| ->%list_elem_of_singleton]%elem_of_app; [|exists c, llc; split_and!; [done..|by left]].
    destruct (Hs K' HK') as (c' & llc' & ? & ? & ?). exists c', llc'. split_and!; [done..|by right].
  - apply Forall2_app; [done|]. constructor; [done|constructor].
  - apply Forall2_app; [done|]. constructor; [done|constructor].
Qed.

Lemma scan_cpus_ok fs allowed min smt cs : sysfs_ok fs → (∀ c, c ∈ allowed → 0 <= c) →
  ∀ seen groups groups' ks masks, scan_cpus fs allowed min smt cs seen groups = Ok groups' →
  groups_ok fs allowed min smt seen groups ks masks →
  ∃ seen' ks' masks', groups_ok fs allowed min smt seen' groups' ks' masks'.
Proof.
  intros Hok Hpos. induction cs as [|c cs IH]; intros seen groups groups' ks masks; cbn [scan_cpus].
  { intros [= <-] H. by exists seen, ks, masks. }
  destruct (llc_of fs c) as [llc|] eqn:El; [|done]. cbn [mbind outcome_bind].
  destruct (read_or _ (cluster_cpus_list fs c)) as [text|] eqn:Et; [|done]. cbn [mbind outcome_bind].
  destruct (parse_cpu_list text) as [K|] eqn:Ek; [|done]. cbn [mbind outcome_bind].
  assert (cluster_at fs c = Ok K) as HK by (unfold cluster_at; by rewrite Et).
  destruct (parse_cpu_list_spec _ _ Ek) as [Hne _].
  case_bool_decide as Hseen; [by apply IH|]. rewrite bool_decide_false by (by rewrite sorted_cpus_nil). cbn [orb].
  destruct (forallb _ _); [|done]. cbn [negb].
  destruct (scan_members _ _ _ _ _ _) as [[[reps logical]|]|] eqn:Ef; [..|done]; cbn [mbind outcome_bind]; intros H Hg.
  - destruct (Z.leb_spec min (Z.of_nat (length reps))) as [Hmin|]; [|by eapply IH; [exact H|by apply groups_skip]].
    destruct (found_mask fs allowed min smt K reps logical Hok Hpos Hne) as (S & HS & Hgs);
      [intros m Hm; by apply (clu_same _ Hok c)|done..|].
    eapply IH; [exact H|]. by eapply groups_add.
  - eapply IH; [exact H|]. by apply groups_skip.
Qed.

Lemma groups_disjoint fs allowed min smt seen groups ks masks i j S T : sysfs_ok fs →
  groups_ok fs allowed min smt seen groups ks masks → masks !! i = Some S → masks !! j = Some T → i ≠ j → S ## T.
Proof.
  intros Hok [Hn Hs Hm _] Hi Hj Hne.
  destruct (Forall2_lookup_r _ _ _ _ _ Hm Hi) as (K & HK & HS), (Forall2_lookup_r _ _ _ _ _ Hm Hj) as (L & HL & HT).
  destruct (Hs K) as (c & ? & Hc & _); [by eapply list_elem_of_lookup_2|].
  destruct (Hs L) as (d & ? & Hd & _); [by eapply list_elem_of_lookup_2|].
  intros cpu HxS HxT. apply (mask_allowed _ _ _ _ _ _ HS), elem_of_intersection in HxS as [_ HxK].
  apply (mask_allowed _ _ _ _ _ _ HT), elem_of_intersection in HxT as [_ HxL].
  pose proof (clu_same _ Hok c cpu K Hc HxK) as E. rewrite (clu_same _ Hok d cpu L Hd HxL) in E. injection E as ->.
  apply Hne. by eapply NoDup_lookup.
Qed.

(** C31: the cluster groups are whole and separate.  When the kernel's topology
    is a partition, each mask that [physical_cluster_groups] returns lies inside
    the permitted CPUs and one cluster, holds one permitted CPU of every physical
    core of that cluster (every permitted one with SMT) and at least
    [min_physical_cores] cores, and no two masks share a CPU; there is always at
    least one. *)
Theorem cluster_groups_sound fs cpus min smt groups : sysfs_ok fs →
  physical_cluster_groups fs cpus min smt = Ok groups →
  ∃ allowed masks, parse_cpu_list cpus = Ok allowed ∧ groups ≠ [] ∧
    Forall2 (λ g S, parse_cpu_list g = Ok S) groups masks ∧
    (∀ S, S ∈ masks → ∃ c K, cluster_at fs c = Ok K ∧ mask_of fs allowed min smt K S) ∧
    ∀ i j S T, masks !! i = Some S → masks !! j = Some T → i ≠ j → S ## T.
Proof.
  intros Hok. unfold physical_cluster_groups. destruct (parse_cpu_list cpus) as [allowed|] eqn:Ea; [|done]. cbn [mbind outcome_bind].
  destruct (parse_cpu_list_spec _ _ Ea) as [_ Hpos].
  destruct (scan_cpus fs allowed min smt (sorted_cpus allowed) [] []) as [gs|] eqn:Eg; [|done]. cbn [mbind outcome_bind]. intros H.
  assert (gs = groups ∧ groups ≠ []) as [-> Hne] by (destruct gs; [done|]; injection H as <-; done). clear H.
  destruct (scan_cpus_ok fs allowed min smt _ Hok Hpos _ _ _ [] [] Eg) as (seen & ks & masks & Hg).
  { split; [constructor|by intros K ?%not_elem_of_nil|constructor|constructor]. }
  exists allowed, masks. split_and!; [done|done|apply Hg| |intros; by eapply groups_disjoint].
  intros S [i Hi]%list_elem_of_lookup. destruct (Forall2_lookup_r _ _ _ _ _ (go_masks _ _ _ _ _ _ _ _ Hg) Hi) as (K & HK & HS).
  destruct (go_seen _ _ _ _ _ _ _ _ Hg K) as (c & _ & Hc & _); [by eapply list_elem_of_lookup_2|]. by exists c, K.
Qed.

(** Two clusters of two two-thread cores: CPUs [4k .. 4k+3]. *)
Definition demo_list (first last_ : Z) : outcome string := Ok (str first ++ "-" ++ str last_)%string.
Definition demo_fs : sysfs :=
  Sysfs (λ c, if bool_decide (c ∈ seqZ 0 8) then [Ok ("Unified", "3", "0-7")%string; Ok ("Data", "1", str c)] else [])
    (λ c, if bool_decide (c ∈ seqZ 0 8) then demo_list (c - c mod 4) (c - c mod 4 + 3) else Raise (OSError "ENOENT"))
    (λ c, if bool_decide (c ∈ seqZ 0 8) then demo_list (c - c mod 2) (c - c mod 2 + 1) else Raise (OSError "ENOENT")).

Lemma demo_inside (o : Z → outcome (gset Z)) c S : (∀ c, c ∉ seqZ 0 8 → is_ok (o c) = false) → o c = Ok S → c ∈ seqZ 0 8.
Proof.
  intros Ho Hc. destruct (decide (c ∈ seqZ 0 8)) as [|Hn]; [done|]. apply Ho in Hn. by rewrite Hc in Hn.
Qed.

Lemma demo_outside : (∀ c, c ∉ seqZ 0 8 → is_ok (siblings_at demo_fs c) = false) ∧
  (∀ c, c ∉ seqZ 0 8 → is_ok (cluster_at demo_fs c) = false).
Proof.
  unfold siblings_at, cluster_at. split; intros c Hc; cbn [demo_fs thread_siblings_list cluster_cpus_list];
    by rewrite bool_decide_false by done.
Qed.

Definition same_answer (o : Z → outcome (gset Z)) (d : Z) (c : Z) : bool := bool_decide (o d = o c).
Definition demo_check (o : Z → outcome (gset Z)) : bool :=
  forallb (λ c, match o c with
                | Ok cs => bool_decide (c ∈ cs) && forallb (λ d, same_answer o d c) (elements cs)
                | Raise _ => true end) (seqZ 0 8).
Definition demo_cross : bool :=
  forallb (λ c, match siblings_at demo_fs c, cluster_at demo_fs c with
                | Ok cs, Ok K => bool_decide (cs ⊆ K) && forallb (λ d, bool_decide (llc_of demo_fs d = llc_of demo_fs c)) (elements K)
                | _, _ => false end) (seqZ 0 8).

Lemma demo_check_spec o c S : demo_check o = true → c ∈ seqZ 0 8 → o c = Ok S →
  c ∈ S ∧ ∀ d, d ∈ S → o d = Ok S.
Proof.
  unfold demo_check. intros H Hc Ho. rewrite forallb_forall in H. specialize (H c). rewrite Ho in H.
  destruct (andb_prop _ _ (H (proj1 (list_elem_of_In _ _) Hc))) as [H1 H2]. apply bool_decide_eq_true in H1. split; [done|].
  intros d Hd. rewrite forallb_forall in H2. rewrite <- Ho. eapply bool_decide_eq_true_1, H2. by apply list_elem_of_In, elem_of_elements.
Qed.

Lemma demo_fs_ok : sysfs_ok demo_fs.
Proof.
  destruct demo_outside as [Hos Hoc].
  assert (demo_check (siblings_at demo_fs) = true) as Hs by (vm_compute; done).
  assert (demo_check (cluster_at demo_fs) = true) as Hc by (vm_compute; done).
  assert (demo_cross = true) as Hx by (vm_compute; done). unfold demo_cross in Hx. rewrite forallb_forall in Hx.
  split.
  - intros c S H. by apply (demo_check_spec _ c S Hs (demo_inside _ _ _ Hos H) H).
  - intros c d S H. by apply (demo_check_spec _ c S Hs (demo_inside _ _ _ Hos H) H).
  - intros c K H. by apply (demo_check_spec _ c K Hc (demo_inside _ _ _ Hoc H) H).
  - intros c d K H. by apply (demo_check_spec _ c K Hc (demo_inside _ _ _ Hoc H) H).
  - intros c S K HS HK. specialize (Hx c (proj1 (list_elem_of_In _ _) (demo_inside _ _ _ Hos HS))).
    rewrite HS, HK in Hx. by apply andb_prop in Hx as [?%bool_decide_eq_true _].
  - intros c d K HK Hd. pose proof (demo_inside _ _ _ Hoc HK) as Hin. specialize (Hx c (proj1 (list_elem_of_In _ _) Hin)).
    rewrite HK in Hx. destruct (siblings_at demo_fs c); [|done]. apply andb_prop in Hx as [_ Hx]. rewrite forallb_forall in Hx.
    eapply bool_decide_eq_true_1, Hx. by apply list_elem_of_In, elem_of_elements.
Qed.

Lemma cluster_groups_sound_witness :
  physical_cluster_groups demo_fs "0,2-7" 2 false = Ok ["0,2"; "4,6"]%string ∧
  ∃ allowed masks, parse_cpu_list "0,2-7" = Ok allowed ∧ ["0,2"; "4,6"]%string ≠ [] ∧
    Forall2 (λ g S, parse_cpu_list g = Ok S) ["0,2"; "4,6"]%string masks ∧
    (∀ S, S ∈ masks → ∃ c K, cluster_at demo_fs c = Ok K ∧ mask_of demo_fs allowed 2 false K S) ∧
    ∀ i j S T, masks !! i = Some S → masks !! j = Some T → i ≠ j → S ## T.
Proof.
  assert (physical_cluster_groups demo_fs "0,2-7" 2 false = Ok ["0,2"; "4,6"]%string) as H by (vm_compute; reflexivity).
  split; [exact H|]. exact (cluster_groups_sound demo_fs "0,2-7" 2 false _ demo_fs_ok H).
Defined.

(** A cluster with a core outside the permitted CPUs is left out, and SMT keeps
    the siblings. *)
Example cluster_incomplete : physical_cluster_groups demo_fs "2-7" 2 true = Ok ["4-7"]%string.
Proof. vm_compute. reflexivity. Qed.
