(* ===== verification/ToolCalls.v ===== *)
(** * CPU placement of Tool calls (src/clawbox/experiments/priority.py, [PriorityDomain])

    Under C2 a running Tool call narrows its VM to one cluster group.  Calls of
    one VM share the assignment, the poller promotes deferred calls and widens VMs
    under CPU pressure, and the last completion restores the full mask.

    Every operation holds its VM's session lock and works in blocks under the
    registry lock, which [_topology_io] drops for reads, affinity calls and
    events.  A thread advances by one block, together with the input or output
    after it that only concerns its own VM; the session locks are derived from
    where the threads are.  The Tool VM of a session is named by its index. *)
From S2P Require Import Prelude Dict Ordering Placement CpuTopology.

(** ** The domain *)

Record config := Config {
  sessions : gset Z;                             (** [_topology_sessions] *)
  placements : dict Z (option string * option Z);
  group_max_active : Z;
  min_duration : Q;
  include_smt : bool;
  pressure_ratio : Q;
  pressure_samples : Z;
  topology : sysfs;
}.

(** A set of active calls is an object: the poller compares identities. *)
Record calls := Calls { c_object : nat; c_ids : gset string }.

Definition cpu_times : Type := gmap Z (Z * Z).

Record domain := Domain {
  stopping : bool;
  call_keys : dict string Z;
  active_calls : dict Z calls;
  pending_started : dict Z Q;
  pending_vcpus : dict Z Z;
  capacity_bypassed : gset Z;
  full_masks : dict Z string;
  fine_masks : dict Z string;
  group_load : dict string Z;
  preferred_groups : dict Z string;
  expanded : gset Z;
  pressure_previous : dict Z (Q * Z);
  pressure_streak : dict Z Z;
  groups_by_pool : dict (string * Z) (list string);
  candidate_groups : gset string;
  cpu_sample_at : Q;
  previous_cpu_times : cpu_times;
  latest_utilization : dict string (option Q);
  vcpu_threads : dict Z (list Z);
  affinity : gmap Z (gset Z);                    (** of the threads, in the kernel *)
  next_object : nat;
}.

Definition domain_init (times : cpu_times) : domain :=
  Domain false ∅ ∅ ∅ ∅ ∅ ∅ ∅ ∅ ∅ ∅ ∅ ∅ ∅ ∅ 0 times ∅ ∅ ∅ 0.

(** The parts of a domain that change together. *)
Definition with_calls (ck : dict string Z) (ac : dict Z calls) (d : domain) : domain :=
  Domain (stopping d) ck ac (pending_started d) (pending_vcpus d) (capacity_bypassed d) (full_masks d) (fine_masks d)
    (group_load d) (preferred_groups d) (expanded d) (pressure_previous d) (pressure_streak d) (groups_by_pool d)
    (candidate_groups d) (cpu_sample_at d) (previous_cpu_times d) (latest_utilization d) (vcpu_threads d) (affinity d) (next_object d).
Definition with_pending (ps : dict Z Q) (pv : dict Z Z) (cb : gset Z) (d : domain) : domain :=
  Domain (stopping d) (call_keys d) (active_calls d) ps pv cb (full_masks d) (fine_masks d)
    (group_load d) (preferred_groups d) (expanded d) (pressure_previous d) (pressure_streak d) (groups_by_pool d)
    (candidate_groups d) (cpu_sample_at d) (previous_cpu_times d) (latest_utilization d) (vcpu_threads d) (affinity d) (next_object d).
Definition with_masks (fu fi : dict Z string) (gl : dict string Z) (d : domain) : domain :=
  Domain (stopping d) (call_keys d) (active_calls d) (pending_started d) (pending_vcpus d) (capacity_bypassed d) fu fi
    gl (preferred_groups d) (expanded d) (pressure_previous d) (pressure_streak d) (groups_by_pool d)
    (candidate_groups d) (cpu_sample_at d) (previous_cpu_times d) (latest_utilization d) (vcpu_threads d) (affinity d) (next_object d).
Definition with_pressure (ex : gset Z) (pp : dict Z (Q * Z)) (st : dict Z Z) (d : domain) : domain :=
  Domain (stopping d) (call_keys d) (active_calls d) (pending_started d) (pending_vcpus d) (capacity_bypassed d) (full_masks d) (fine_masks d)
    (group_load d) (preferred_groups d) ex pp st (groups_by_pool d)
    (candidate_groups d) (cpu_sample_at d) (previous_cpu_times d) (latest_utilization d) (vcpu_threads d) (affinity d) (next_object d).
Definition with_groups (gp : dict (string * Z) (list string)) (cg : gset string) (pr : dict Z string) (d : domain) : domain :=
  Domain (stopping d) (call_keys d) (active_calls d) (pending_started d) (pending_vcpus d) (capacity_bypassed d) (full_masks d) (fine_masks d)
    (group_load d) pr (expanded d) (pressure_previous d) (pressure_streak d) gp
    cg (cpu_sample_at d) (previous_cpu_times d) (latest_utilization d) (vcpu_threads d) (affinity d) (next_object d).
Definition with_sample (at_ : Q) (times : cpu_times) (lu : dict string (option Q)) (d : domain) : domain :=
  Domain (stopping d) (call_keys d) (active_calls d) (pending_started d) (pending_vcpus d) (capacity_bypassed d) (full_masks d) (fine_masks d)
    (group_load d) (preferred_groups d) (expanded d) (pressure_previous d) (pressure_streak d) (groups_by_pool d)
    (candidate_groups d) at_ times lu (vcpu_threads d) (affinity d) (next_object d).
Definition with_threads (vt : dict Z (list Z)) (af : gmap Z (gset Z)) (d : domain) : domain :=
  Domain (stopping d) (call_keys d) (active_calls d) (pending_started d) (pending_vcpus d) (capacity_bypassed d) (full_masks d) (fine_masks d)
    (group_load d) (preferred_groups d) (expanded d) (pressure_previous d) (pressure_streak d) (groups_by_pool d)
    (candidate_groups d) (cpu_sample_at d) (previous_cpu_times d) (latest_utilization d) vt af (next_object d).
Definition with_stopping (b : bool) (n : nat) (d : domain) : domain :=
  Domain b (call_keys d) (active_calls d) (pending_started d) (pending_vcpus d) (capacity_bypassed d) (full_masks d) (fine_masks d)
    (group_load d) (preferred_groups d) (expanded d) (pressure_previous d) (pressure_streak d) (groups_by_pool d)
    (candidate_groups d) (cpu_sample_at d) (previous_cpu_times d) (latest_utilization d) (vcpu_threads d) (affinity d) n.

(** ** Thread affinity *)

(** What happens to one vCPU thread: its mask is set, the thread is gone, the
    call fails, or the kernel applies something else. *)
Inductive fate := Applied | Gone | Refused (e : exn) | Other.
Record affinity_io := AffinityIO { discovered : outcome (list Z); fate_of : Z → fate }.

(** The loop over the threads: those set, whether one was gone. *)
Fixpoint set_threads (io : affinity_io) (requested : gset Z) (tids applied : list Z) (stale : bool) (af : gmap Z (gset Z))
    : outcome (list Z * bool) * gmap Z (gset Z) :=
  match tids with
  | [] => (Ok (applied, stale), af)
  | tid :: tids' =>
      match fate_of io tid with
      | Applied => set_threads io requested tids' (applied ++ [tid]) stale (<[tid := requested]> af)
      | Gone => set_threads io requested tids' applied true af
      | Refused e => (Raise e, af)
      | Other => (Raise (RuntimeError "vCPU affinity mismatch"), delete tid af)
      end
  end.

(** [_apply_thread_affinity_io] *)
Definition apply_thread_affinity (ix : Z) (mask : string) (strict : bool) (io : affinity_io) : M domain (list Z) :=
  d ← get;
  requested ← lift (parse_cpu_list mask);
  tids ← match vcpu_threads d !! ix with
         | Some tids => mret tids
         | None => lift (discovered io)
         end;
  (if bool_decide (is_Some (vcpu_threads d !! ix)) || bool_decide (tids = []) then mret tt
   else modify (λ d, with_threads (<[ix := tids]> (vcpu_threads d)) (affinity d) d)) ;;
  d ← get;
  let '(o, af) := set_threads io requested tids [] false (affinity d) in
  put (with_threads (vcpu_threads d) af d) ;;
  '(applied, stale) ← lift o;
  (if stale : bool then modify (λ d, with_threads (delete ix (vcpu_threads d)) (affinity d) d) else mret tt) ;;
  raise_if (strict && bool_decide (applied = [])) (RuntimeError "no vCPU threads available for topology placement") ;;
  mret applied.

(** ** Group utilization *)

(** [(current, previous, captured)] of [_cpu_observation] *)
Record observation := Observation { ob_current : cpu_times; ob_previous : cpu_times; ob_captured : Q }.

(** Busy and total ticks of a group between two reads. *)
Fixpoint tick_deltas (o : observation) (cs : list Z) (busy total : Z) : Z * Z :=
  match cs with
  | [] => (busy, total)
  | c :: cs' =>
      match ob_current o !! c, ob_previous o !! c with
      | Some (b, t), Some (b', t') => tick_deltas o cs' (busy + (b - b')) (total + (t - t'))
      | _, _ => tick_deltas o cs' busy total
      end
  end.
Definition group_utilization (o : observation) (group : string) : outcome (option Q) :=
  cs ← parse_cpu_list group;
  let '(busy, total) := tick_deltas o (elements cs) 0 0 in
  Ok (if 0 <? total then Some (Qmax 0 (Qmin 1 (inject_Z busy / inject_Z total))) else None).

Fixpoint utilizations (o : observation) (groups : list string) (u : dict string (option Q)) : outcome (dict string (option Q)) :=
  match groups with
  | [] => Ok u
  | g :: groups' => x ← group_utilization o g; utilizations o groups' (<[g := x]> u)
  end.
Definition update_dict (u : dict string (option Q)) (d : dict string (option Q)) : dict string (option Q) :=
  foldl (λ acc kv, <[kv.1 := kv.2]> acc) d (u : list _).

(** [_sample_group_utilization] *)
Definition sample_group_utilization (groups : list string) (o : observation) : M domain (dict string (option Q)) :=
  d ← get;
  if Qltb (ob_captured o) (cpu_sample_at d)
  then mret (foldl (λ acc g, <[g := default None (latest_utilization d !! g)]> acc) ∅ groups)
  else
    put (with_sample (ob_captured o) (previous_cpu_times d) (latest_utilization d) d) ;;
    u ← lift (utilizations o groups ∅);
    modify (λ d, with_sample (cpu_sample_at d) (ob_current o) (update_dict u (latest_utilization d)) d) ;;
    mret u.

(** ** Assigning a group *)

Definition load_of (d : domain) (g : string) : Z := default 0 (group_load d !! g).

(** The key of [min(available, key=...)]. *)
Definition group_order (d : domain) (ix : Z) (u : dict string (option Q)) : string → string → comparison := λ a b,
  let preferred := preferred_groups d !! ix in
  let util g := default None (u !! g) in
  lex (Z.compare (load_of d a) (load_of d b))
    (lex (compare_bools (negb (bool_decide (Some a = preferred))) (negb (bool_decide (Some b = preferred))))
      (lex (compare_bools (bool_decide (util a = None)) (bool_decide (util b = None)))
        (lex (Qcompare (default 0%Q (util a)) (default 0%Q (util b))) (String.compare a b)))).
Definition below_capacity (cfg : config) (d : domain) (g : string) : bool := load_of d g <? group_max_active cfg.

(** The first block of [_assign_tool_call]: the groups of the VM's CPUs. *)
Definition assign_groups (cfg : config) (ix : Z) (vcpus : Z) : M domain (string * list string) :=
  d ← get;
  full ← lift (match placements cfg !! ix with
               | Some (Some cpus, _) => Ok cpus
               | _ => Raise (RuntimeError "C2 has no selected-NUMA CPU mask for session")
               end);
  groups ← match groups_by_pool d !! (full, vcpus) with
           | Some groups => mret groups
           | None =>
               groups ← lift (physical_cluster_groups (topology cfg) full vcpus (include_smt cfg));
               modify (λ d, with_groups (<[(full, vcpus) := groups]> (groups_by_pool d)) (candidate_groups d) (preferred_groups d) d) ;;
               mret groups
           end;
  raise_if (Z.of_nat (length groups) <? 2) (RuntimeError "C2 requires at least two LLC/cluster physical-core groups") ;;
  modify (λ d, with_groups (groups_by_pool d) (candidate_groups d ∪ list_to_set groups) (preferred_groups d) d) ;;
  mret (full, groups).

(** The second block: sample, then reserve a group, or none when all are full. *)
Definition assign_choose (cfg : config) (ix : Z) (groups : list string) (o : observation) : M domain (option string) :=
  u ← sample_group_utilization groups o;
  d ← get;
  match min_by (group_order d ix u) (filter (λ g, below_capacity cfg d g = true) groups) with
  | None => mret None
  | Some g => put (with_masks (full_masks d) (fine_masks d) (<[g := load_of d g + 1]> (group_load d)) d) ;; mret (Some g)
  end.

Definition give_back_group (g : string) (d : domain) : domain :=
  with_masks (full_masks d) (fine_masks d) (<[g := load_of d g - 1]> (group_load d)) d.

(** The narrow mask is applied; when that fails the full mask is restored as far
    as possible and the group is given back. *)
Definition assign_apply (ix : Z) (g full : string) (io restore : affinity_io) : M domain (list Z) :=
  try_except (apply_thread_affinity ix g true io)
    (λ e, try_except (apply_thread_affinity ix full false restore ;; mret tt) (λ _, mret tt) ;;
          modify (give_back_group g) ;; raise e).

(** The last block publishes the assignment. *)
Definition assign_publish (ix : Z) (id g full : string) (pressure : option (Q * Z)) (d : domain) : domain :=
  Domain (stopping d) (<[id := ix]> (call_keys d)) (<[ix := Calls (next_object d) {[id]}]> (active_calls d))
    (pending_started d) (pending_vcpus d) (capacity_bypassed d) (<[ix := full]> (full_masks d)) (<[ix := g]> (fine_masks d))
    (group_load d) (<[ix := g]> (preferred_groups d)) (expanded d ∖ {[ix]})
    (match pressure with Some p => <[ix := p]> (pressure_previous d) | None => delete ix (pressure_previous d) end)
    (delete ix (pressure_streak d)) (groups_by_pool d) (candidate_groups d) (cpu_sample_at d) (previous_cpu_times d)
    (latest_utilization d) (vcpu_threads d) (affinity d) (S (next_object d)).

(** ** Calls *)

Inductive result :=
  | RShared | RDeferred | RBypassed | RAssigned (g : string) (applied : list Z)
  | RUnshared | RCompleted | RRestored (g full : string) (applied : list Z)
  | RStopped | RPolled | RTornDown.

(** [_acquire_tool_call] up to the CPU sample: a result, or the groups to choose from. *)
Definition acquire_tool_call (cfg : config) (ix : Z) (id : string) (vcpus : Z) (now : Q)
    : M domain (result + string * list string) :=
  d ← get;
  raise_if (bool_decide (ix ∉ sessions cfg)) (KeyError "session") ;;
  raise_if (bool_decide (is_Some (call_keys d !! id))) (RuntimeError "duplicate Tool-call CPU assignment") ;;
  raise_if (stopping d) (RuntimeError "Tool-call CPU placement is stopping for VM teardown") ;;
  match active_calls d !! ix with
  | Some c =>
      if bool_decide (c_ids c = ∅) then raise (AssertionError "empty call set")
      else put (with_calls (<[id := ix]> (call_keys d)) (<[ix := Calls (c_object c) (c_ids c ∪ {[id]})]> (active_calls d)) d) ;;
           mret (inl RShared)
  | None =>
      if Qltb 0 (min_duration cfg) then
        put (with_calls (<[id := ix]> (call_keys d)) (<[ix := Calls (next_object d) {[id]}]> (active_calls d))
               (with_pending (<[ix := now]> (pending_started d)) (<[ix := vcpus]> (pending_vcpus d)) (capacity_bypassed d)
                  (with_stopping (stopping d) (S (next_object d)) d))) ;;
        raise_if (match placements cfg !! ix with Some (Some _, _) => false | _ => true end)
          (RuntimeError "C2 has no selected-NUMA CPU mask for session") ;;
        mret (inl RDeferred)
      else
        fg ← assign_groups cfg ix vcpus;
        mret (inr fg)
  end.

(** [_release_tool_call] up to the affinity call of a last completion. *)
Definition release_tool_call (id : string) : M domain (result + Z) :=
  d ← get;
  match call_keys d !! id with
  | None => if stopping d then mret (inl RStopped) else raise (RuntimeError "no Tool-call CPU assignment for completion")
  | Some ix =>
      match active_calls d !! ix with
      | None => raise (KeyError "active calls")
      | Some c =>
          if (1 <? Z.of_nat (size (c_ids c))) then
            put (with_calls (delete id (call_keys d)) (<[ix := Calls (c_object c) (c_ids c ∖ {[id]})]> (active_calls d)) d) ;;
            mret (inl RUnshared)
          else if bool_decide (fine_masks d !! ix = None) then
            put (with_calls (delete id (call_keys d)) (delete ix (active_calls d))
                   (with_pending (delete ix (pending_started d)) (delete ix (pending_vcpus d)) (capacity_bypassed d ∖ {[ix]}) d)) ;;
            mret (inl RCompleted)
          else mret (inr ix)
      end
  end.

(** The rest of a last completion: the full mask comes back, the group is free. *)
Definition release_restore (ix : Z) (id : string) (io : affinity_io) : M domain result :=
  d ← get;
  match full_masks d !! ix with
  | None => raise (KeyError "full mask")
  | Some full =>
      applied ← apply_thread_affinity ix full true io;
      d ← get;
      match fine_masks d !! ix with
      | None => raise (KeyError "fine mask")
      | Some fine =>
          put (with_calls (delete id (call_keys d)) (delete ix (active_calls d))
                 (with_pressure (expanded d ∖ {[ix]}) (delete ix (pressure_previous d)) (delete ix (pressure_streak d))
                    (with_masks (delete ix (full_masks d)) (delete ix (fine_masks d))
                       (<[fine := load_of d fine - 1]> (group_load d)) d))) ;;
          mret (RRestored fine full applied)
      end
  end.

(** ** The poller *)

(** A pending call that is due: its groups; [None] when there is nothing to do. *)
Definition promote_groups (cfg : config) (ix : Z) (started now : Q) : M domain (option (calls * string * (string * list string))) :=
  d ← get;
  if negb (match pending_started d !! ix with Some at_ => Qeq_bool at_ started | None => false end)
     || Qltb (now - started) (min_duration cfg)
  then mret None
  else
    match active_calls d !! ix, pending_vcpus d !! ix with
    | Some c, Some vcpus =>
        match min_by String.compare (elements (c_ids c)) with
        | None => raise (ValueError "min() iterable argument is empty")
        | Some primary =>
            put (with_pending (delete ix (pending_started d)) (delete ix (pending_vcpus d)) (capacity_bypassed d) d) ;;
            fg ← assign_groups cfg ix vcpus;
            mret (Some (c, primary, fg))
        end
    | _, _ => raise (KeyError "pending call")
    end.

(** The calls that were pending stay one set, registered under their VM. *)
Definition keep_calls (ix : Z) (c : calls) (d : domain) : domain :=
  with_calls (foldl (λ ck id, <[id := ix]> ck) (call_keys d) (elements (c_ids c))) (<[ix := c]> (active_calls d)) d.
Definition bypass_calls (ix : Z) (c : calls) (d : domain) : domain :=
  let d' := keep_calls ix c d in
  with_pending (pending_started d') (pending_vcpus d') (capacity_bypassed d' ∪ {[ix]}) d'.

(** What the poller reads of an assigned VM: whether it has processes, its total
    CPU pressure, and the threads it widens. *)
Record expand_io := ExpandIO { populated : outcome bool; pressure_total : outcome Z; widen : affinity_io }.

Definition widen_call (ix : Z) (io : affinity_io) : M domain unit :=
  d ← get;
  full ← lift (match full_masks d !! ix with Some full => Ok full | None => Raise (KeyError "full mask") end);
  applied ← apply_thread_affinity ix full false io;
  if bool_decide (applied = []) then mret tt
  else modify (λ d, with_pressure (expanded d ∪ {[ix]}) (pressure_previous d) (pressure_streak d) d).

(** One turn of the second loop of [sample_topology_placement]. *)
Definition expand_call (cfg : config) (ix : Z) (fine : string) (object : option nat) (now : Q) (io : expand_io) : M domain unit :=
  d ← get;
  if negb (bool_decide (c_object <$> active_calls d !! ix = object ∧ fine_masks d !! ix = Some fine)) || bool_decide (ix ∈ expanded d)
  then mret tt
  else
    match populated io with
    | Raise (OSError "ENOENT") | Ok false => mret tt
    | Raise e => raise e
    | Ok true =>
        match pressure_total io with
        | Raise (OSError _ | RuntimeError _ | ValueError _) => widen_call ix (widen io)
        | Raise e => raise e
        | Ok total =>
            put (with_pressure (expanded d) (<[ix := (now, total)]> (pressure_previous d)) (pressure_streak d) d) ;;
            match pressure_previous d !! ix with
            | None => mret tt
            | Some (at_, before) =>
                if Qle_bool now at_ || (total <? before) then mret tt
                else
                  let ratio := (inject_Z (total - before) / ((now - at_) * inject_Z 1000000))%Q in
                  let streak := if Qle_bool (pressure_ratio cfg) ratio then default 0 (pressure_streak d !! ix) + 1 else 0 in
                  modify (λ d, with_pressure (expanded d) (pressure_previous d) (<[ix := streak]> (pressure_streak d)) d) ;;
                  if streak <? pressure_samples cfg then mret tt else widen_call ix (widen io)
            end
        end
    end.

(** [_finish_topology_teardown] *)
Definition finish_teardown (cancel : bool) (d : domain) : domain :=
  if cancel && negb (dempty (call_keys d)) then
    Domain (stopping d) ∅ ∅ ∅ ∅ ∅ ∅ ∅ ∅ (preferred_groups d) ∅ ∅ ∅ (groups_by_pool d) (candidate_groups d)
      (cpu_sample_at d) (previous_cpu_times d) (latest_utilization d) (vcpu_threads d) (affinity d) (next_object d)
  else d.

(** ** Threads *)

(** Where a thread is: before a call, outside the registry in the middle of one,
    or done. *)
Inductive thread :=
  | AcquireCall (ix : Z) (id : string) (vcpus : Z)
  | AcquireSample (ix : Z) (id full : string) (groups : list string)
  | AcquireChoose (ix : Z) (id full : string) (groups : list string) (o : observation)
  | AcquireApply (ix : Z) (id g full : string)
  | ReleaseCall (id : string)
  | ReleaseLocked (ix : Z) (id : string)
  | ReleaseApply (ix : Z) (id : string)
  | PollCall
  | PollObserve (todo : list (Z * Q)) (now : Q)
  | PollPending (todo : list (Z * Q)) (now : Q) (o : observation)
  | PollApply (ix : Z) (g full primary : string) (c : calls) (todo : list (Z * Q)) (now : Q) (o : observation)
  | PollSnapshot (now : Q)
  | PollExpand (todo : list (Z * string * option nat)) (now : Q)
  | TeardownCall (cancel : bool)
  | TeardownWait (cancel : bool)
  | Done (o : outcome result).

(** The session lock a thread is in, and the one its next block takes. *)
Definition session_of (th : thread) : option Z :=
  match th with
  | AcquireSample ix _ _ _ | AcquireChoose ix _ _ _ _ | AcquireApply ix _ _ _ | ReleaseApply ix _ | PollApply ix _ _ _ _ _ _ _ => Some ix
  | _ => None
  end.
Definition wants (th : thread) : option Z :=
  match th with
  | AcquireCall ix _ _ | ReleaseLocked ix _ | PollPending ((ix, _) :: _) _ _ | PollExpand ((ix, _, _) :: _) _ => Some ix
  | _ => None
  end.

(** What a block reads of the world. *)
Record world := World {
  clock : Q;
  proc_stat : cpu_times;
  narrow : affinity_io;            (** the affinity calls of the mask asked for *)
  undo : affinity_io;              (** those that restore it after a failure *)
  leaf_pressure : option Z;        (** the first CPU pressure of an assignment *)
  observed : expand_io;
}.
Definition observe (w : world) (d : domain) : observation := Observation (proc_stat w) (previous_cpu_times d) (clock w).

(** The previous times are read once the registry is back. *)
Definition reread (o : observation) (d : domain) : observation := Observation (ob_current o) (previous_cpu_times d) (ob_captured o).

(** How a block ends: where the thread is then. *)
Definition ended {A} (next : A → thread) (r : outcome A * domain) : thread * domain :=
  (match r.1 with Ok a => next a | Raise e => Done (Raise e) end, r.2).

(** A promotion that has its groups: reserve one or bypass the groups. *)
Definition promote (cfg : config) (ix : Z) (started now : Q) (o : observation)
    : M domain (option (string * string * string * calls)) :=
  found ← promote_groups cfg ix started now;
  match found with
  | None => mret None
  | Some (c, primary, (full, groups)) =>
      g ← assign_choose cfg ix groups o;
      match g with
      | None => modify (bypass_calls ix c) ;; mret None
      | Some g => mret (Some (g, full, primary, c))
      end
  end.

Definition advance (cfg : config) (th : thread) (w : world) (d : domain) : thread * domain :=
  match th with
  | AcquireCall ix id vcpus =>
      ended (λ r, match r with inl r => Done (Ok r) | inr (full, groups) => AcquireSample ix id full groups end)
        (acquire_tool_call cfg ix id vcpus (clock w) d)
  | AcquireSample ix id full groups => (AcquireChoose ix id full groups (observe w d), d)
  | AcquireChoose ix id full groups o =>
      ended (λ r, match r with None => Done (Ok RBypassed) | Some g => AcquireApply ix id g full end)
        (assign_choose cfg ix groups (reread o d) d)
  | AcquireApply ix id g full =>
      ended (λ applied, Done (Ok (RAssigned g applied)))
        ((applied ← assign_apply ix g full (narrow w) (undo w);
          modify (assign_publish ix id g full (pair (clock w) <$> leaf_pressure w)) ;; mret applied) d)
  | ReleaseCall id =>
      match call_keys d !! id with
      | None => (Done (if stopping d then Ok RStopped else Raise (RuntimeError "no Tool-call CPU assignment for completion")), d)
      | Some ix => (ReleaseLocked ix id, d)
      end
  | ReleaseLocked ix id =>
      ended (λ r, match r with inl r => Done (Ok r) | inr key => ReleaseApply key id end) (release_tool_call id d)
  | ReleaseApply ix id => ended (λ r, Done (Ok r)) (release_restore ix id (narrow w) d)
  | PollCall => if stopping d then (Done (Ok RPolled), d) else (PollObserve (pending_started d) (clock w), d)
  | PollObserve todo now => (PollPending todo now (observe w d), d)
  | PollPending ((ix, started) :: todo) now o =>
      if stopping d then (Done (Ok RPolled), d)
      else ended (λ r, match r with
                       | None => PollPending todo now o
                       | Some (g, full, primary, c) => PollApply ix g full primary c todo now o
                       end) (promote cfg ix started now o d)
  | PollPending [] now o =>
      if stopping d then (Done (Ok RPolled), d)
      else ended (λ _, PollSnapshot now) (sample_group_utilization (sort_by String.compare (elements (candidate_groups d))) o d)
  | PollSnapshot now =>
      (PollExpand ((λ kv : Z * string, (kv.1, kv.2, c_object <$> active_calls d !! kv.1)) <$> (fine_masks d : list _)) now, d)
  | PollApply ix g full primary c todo now o =>
      ended (λ _, PollPending todo now o)
        ((assign_apply ix g full (narrow w) (undo w) ;;
          modify (λ d, keep_calls ix c (assign_publish ix primary g full (pair (clock w) <$> leaf_pressure w) d))) d)
  | PollExpand ((ix, fine, object) :: todo) now =>
      if stopping d then (Done (Ok RPolled), d)
      else ended (λ _, PollExpand todo now) (expand_call cfg ix fine object now (observed w) d)
  | PollExpand [] now => (Done (Ok RPolled), d)
  | TeardownCall cancel => (TeardownWait cancel, with_stopping true (next_object d) d)
  | TeardownWait cancel => (Done (Ok RTornDown), finish_teardown cancel d)
  | Done _ => (th, d)
  end.

(** ** The system *)

Section system.
Context (cfg : config) (vm_of : string → Z).

Record system := System { dom_ : domain; threads : list thread }.
Definition system_init (times : cpu_times) : system := System (domain_init times) [].

(** What may call in; an execution belongs to one VM. *)
Definition entry (th : thread) : bool :=
  match th with
  | AcquireCall ix id _ => bool_decide (vm_of id = ix)
  | ReleaseCall _ | PollCall | TeardownCall _ => true
  | _ => false
  end.

Inductive event := Call (th : thread) | Advance (t : nat) (w : world).

(** A thread whose next block needs a session lock waits while another thread is
    in it; the teardown waits for all of them. *)
Definition locked (ths : list thread) (ix : Z) : bool := existsb (λ th, bool_decide (session_of th = Some ix)) ths.
Definition blocked (th : thread) (ths : list thread) : bool :=
  match th with
  | TeardownWait _ => existsb (λ th, bool_decide (is_Some (session_of th))) ths
  | _ => match wants th with Some ix => locked ths ix | None => false end
  end.

Definition step (ev : event) (s : system) : system :=
  match ev with
  | Call th => if entry th then System (dom_ s) (threads s ++ [th]) else s
  | Advance t w =>
      match threads s !! t with
      | None => s
      | Some th =>
          if blocked th (threads s) then s
          else let '(th', d') := advance cfg th w (dom_ s) in System d' (<[t := th']> (threads s))
      end
  end.
Definition run (evs : list event) (s : system) : system := foldl (λ s ev, step ev s) s evs.

(** ** Invariants *)

(** What the domain holds of one VM. *)
Record vm := Vm {
  v_active : option calls; v_started : option Q; v_vcpus : option Z; v_bypassed : bool;
  v_full : option string; v_fine : option string;
}.
Definition view (d : domain) (ix : Z) : vm :=
  Vm (active_calls d !! ix) (pending_started d !! ix) (pending_vcpus d !! ix) (bool_decide (ix ∈ capacity_bypassed d))
    (full_masks d !! ix) (fine_masks d !! ix).

(** An idle VM has nothing; a running one has calls, and is pending, narrowed or
    neither, but not both. *)
Record vm_ok (v : vm) : Prop := {
  vo_calls : ∀ c, v_active v = Some c → c_ids c ≠ ∅;
  vo_pending : is_Some (v_started v) ↔ is_Some (v_vcpus v);
  vo_started : is_Some (v_started v) → is_Some (v_active v) ∧ v_fine v = None ∧ v_bypassed v = false;
  vo_masks : is_Some (v_full v) ↔ is_Some (v_fine v);
  vo_fine : is_Some (v_fine v) → is_Some (v_active v);
  vo_bypassed : v_bypassed v = true → is_Some (v_active v) ∧ v_fine v = None;
}.

Record domain_ok (d : domain) : Prop := {
  do_dicts : dict_ok (call_keys d) ∧ dict_ok (active_calls d) ∧ dict_ok (pending_started d) ∧
    dict_ok (pending_vcpus d) ∧ dict_ok (full_masks d) ∧ dict_ok (fine_masks d);
  do_keys : ∀ id ix, call_keys d !! id = Some ix ↔ ∃ c, active_calls d !! ix = Some c ∧ id ∈ c_ids c;
  do_vm : ∀ id ix, call_keys d !! id = Some ix → vm_of id = ix;
  do_views : ∀ ix, vm_ok (view d ix);
}.

(** What a thread knows of its VM. *)
Definition thread_ok (d : domain) (th : thread) : Prop :=
  match th with
  | AcquireCall ix id _ | ReleaseLocked ix id => vm_of id = ix
  | AcquireSample ix id _ _ | AcquireChoose ix id _ _ _ | AcquireApply ix id _ _ => vm_of id = ix ∧ v_active (view d ix) = None
  | ReleaseApply ix id => vm_of id = ix ∧ ∃ c, v_active (view d ix) = Some c ∧ c_ids c = {[id]} ∧ is_Some (v_fine (view d ix))
  | PollApply ix _ _ primary c _ _ _ => v_active (view d ix) = Some c ∧ primary ∈ c_ids c ∧
      v_started (view d ix) = None ∧ v_fine (view d ix) = None ∧ v_bypassed (view d ix) = false
  | _ => True
  end.

(** The group a thread has reserved and not published. *)
Definition reserving (th : thread) : option string :=
  match th with AcquireApply _ _ g _ | PollApply _ g _ _ _ _ _ _ => Some g | _ => None end.
Definition counts (o : option string) (g : string) : Z := if decide (o = Some g) then 1 else 0.
Definition reserved (ths : list thread) (g : string) : Z := zsum ((λ th, counts (reserving th) g) <$> ths).
Definition narrowed (d : domain) (g : string) : Z := dsum (λ _ fine, counts (Some fine) g) (fine_masks d).

Record system_ok (s : system) : Prop := {
  so_domain : domain_ok (dom_ s);
  so_threads : ∀ t th, threads s !! t = Some th → thread_ok (dom_ s) th;
  so_sessions : ∀ t u th th' ix, threads s !! t = Some th → threads s !! u = Some th' →
    session_of th = Some ix → session_of th' = Some ix → t = u;
  so_load : ∀ g, load_of (dom_ s) g = narrowed (dom_ s) g + reserved (threads s) g;
  so_capacity : ∀ g, load_of (dom_ s) g <= group_max_active cfg;
}.

Lemma zsum_insert {A} (f : A → Z) (l : list A) (t : nat) (a b : A) : l !! t = Some a →
  zsum (f <$> <[t := b]> l) = zsum (f <$> l) - f a + f b.
Proof.
  revert t. induction l as [|c l IH]; intros [|t] Ht; simpl in Ht; [done..| |].
  - injection Ht as ->. change (<[O := b]> (a :: l)) with (b :: l). rewrite !fmap_cons, !zsum_cons. lia.
  - change (<[S t := b]> (c :: l)) with (c :: <[t := b]> l). rewrite !fmap_cons, !zsum_cons, (IH t Ht). lia.
Qed.

Lemma insert_cases {A} (l : list A) (t u : nat) (a b : A) : <[t := a]> l !! u = Some b → (u = t ∧ b = a) ∨ (u ≠ t ∧ l !! u = Some b).
Proof. intros [(<- & <- & _)|[? ?]]%list_lookup_insert_Some; [by left|right; split; [by apply not_eq_sym|done]]. Qed.

Lemma not_locked ths ix u th : locked ths ix = false → ths !! u = Some th → session_of th ≠ Some ix.
Proof.
  intros Hl Hu E. assert (locked ths ix = true); [|congruence]. unfold locked. apply existsb_exists. exists th.
  split; [by eapply list_elem_of_In, list_elem_of_lookup_2|by apply bool_decide_eq_true_2].
Qed.

(** A block that changes what the domain holds of [ix] only, run by the thread
    that is in that session or enters it. *)
Lemma system_step s t th th' d' ix : system_ok s → threads s !! t = Some th →
  session_of th = Some ix ∨ locked (threads s) ix = false →
  domain_ok d' → (∀ iy, iy ≠ ix → view d' iy = view (dom_ s) iy) → thread_ok d' th' →
  session_of th' = None ∨ session_of th' = Some ix →
  (∀ g, load_of d' g - narrowed d' g - counts (reserving th') g =
        load_of (dom_ s) g - narrowed (dom_ s) g - counts (reserving th) g) →
  (∀ g, load_of d' g <= group_max_active cfg) → system_ok (System d' (<[t := th']> (threads s))).
Proof.
  intros [Hd Ht Hu Hl Hc] Hth Hin Hd' Hv Hok Hs' Hload Hcap.
  assert (∀ u y, u ≠ t → threads s !! u = Some y → session_of y ≠ Some ix) as Hother.
  { intros u y Hne Hy E. destruct Hin as [Hin|Hin]; [by apply Hne, (Hu u t y th ix)|by eapply not_locked]. }
  split; cbn [dom_ threads]; [done| | | |done].
  - intros u y [[-> ->]|[Hne Hy]]%insert_cases; [done|]. pose proof (Ht u y Hy) as Hyok.
    pose proof (Hother u y Hne Hy) as Hns.
    destruct y; cbn [thread_ok session_of] in *; try done; rewrite Hv; [done|congruence..].
  - intros u1 u2 y1 y2 iy [[-> ->]|[Hn1 H1]]%insert_cases [[-> ->]|[Hn2 H2]]%insert_cases E1 E2; [done|..].
    + exfalso. destruct Hs' as [E|E]; [congruence|]. rewrite E in E1. injection E1 as <-. by apply (Hother u2 y2).
    + exfalso. destruct Hs' as [E|E]; [congruence|]. rewrite E in E2. injection E2 as <-. by apply (Hother u1 y1).
    + by eapply Hu.
  - intros g. specialize (Hload g). specialize (Hl g). unfold reserved in *.
    rewrite (zsum_insert _ _ _ th) by done. lia.
Qed.

(** ** Blocks that leave the calls alone *)

Record quiet (d d' : domain) : Prop := {
  qu_keys : call_keys d' = call_keys d;
  qu_active : active_calls d' = active_calls d;
  qu_started : pending_started d' = pending_started d;
  qu_vcpus : pending_vcpus d' = pending_vcpus d;
  qu_bypassed : capacity_bypassed d' = capacity_bypassed d;
  qu_full : full_masks d' = full_masks d;
  qu_fine : fine_masks d' = fine_masks d;
  qu_load : group_load d' = group_load d;
}.

Lemma quiet_refl d : quiet d d.
Proof. by split. Qed.
Lemma quiet_trans d1 d2 d3 : quiet d1 d2 → quiet d2 d3 → quiet d1 d3.
Proof. intros [] []. split; congruence. Qed.
Lemma quiet_view d d' ix : quiet d d' → view d' ix = view d ix.
Proof. intros [_ Ha Hs Hv Hb Hfu Hfi _]. unfold view. by rewrite Ha, Hs, Hv, Hb, Hfu, Hfi. Qed.
Lemma quiet_narrowed d d' g : quiet d d' → narrowed d' g = narrowed d g.
Proof. intros []. unfold narrowed. congruence. Qed.
Lemma quiet_load_of d d' g : quiet d d' → load_of d' g = load_of d g.
Proof. intros []. unfold load_of. congruence. Qed.
Lemma quiet_domain d d' : quiet d d' → domain_ok d → domain_ok d'.
Proof.
  intros Hq [H1 H2 H3 H4]. pose proof (λ ix, quiet_view d d' ix Hq) as Hview.
  destruct Hq as [Hk Ha Hs Hv _ Hfu Hfi _]. split.
  - by rewrite Hk, Ha, Hs, Hv, Hfu, Hfi.
  - intros id ix. by rewrite Hk, Ha.
  - intros id ix. rewrite Hk. apply H3.
  - intros ix. by rewrite Hview.
Qed.

Lemma apply_quiet ix mask strict io d : quiet d (apply_thread_affinity ix mask strict io d).2.
Proof.
  unfold apply_thread_affinity. rewrite bind_get, bind_lift. destruct (parse_cpu_list mask) as [requested|]; [|done].
  destruct (vcpu_threads d !! ix) as [tids|] eqn:Et.
  - unfold mbind, M_bind, get, put, lift, mret, M_ret, raise_if, raise, modify.
    rewrite bool_decide_true by (by eexists). cbn [orb].
    destruct (set_threads _ _ _ _ _ _) as [[[applied []]|] af]; try destruct (strict && _); by split.
  - unfold mbind, M_bind, get, put, lift, mret, M_ret, raise_if, raise, modify. destruct (discovered io) as [tids|]; [|done].
    destruct (_ || _); destruct (set_threads _ _ _ _ _ _) as [[[applied []]|] af]; try destruct (strict && _); by split.
Qed.

Lemma sample_quiet groups o d : quiet d (sample_group_utilization groups o d).2.
Proof.
  unfold sample_group_utilization. rewrite bind_get. destruct (Qltb _ _); [done|].
  unfold mbind, M_bind, put, lift, mret, M_ret, modify. by destruct (utilizations o groups ∅).
Qed.

Lemma assign_groups_quiet ix vcpus d : quiet d (assign_groups cfg ix vcpus d).2.
Proof.
  unfold assign_groups. rewrite bind_get, bind_lift. destruct (placements cfg !! ix) as [[[full|] node]|]; [|done..].
  unfold mbind, M_bind, lift, mret, M_ret, modify, raise_if, raise.
  destruct (groups_by_pool d !! (full, vcpus)); [|destruct (physical_cluster_groups _ _ _ _)]; try done; destruct (_ <? 2); by split.
Qed.

Lemma widen_quiet ix io d : quiet d (widen_call ix io d).2.
Proof.
  unfold widen_call. rewrite bind_get, bind_lift. destruct (full_masks d !! ix) as [full|]; [|done].
  pose proof (apply_quiet ix full false io d) as Ha. unfold mbind, M_bind, modify, mret, M_ret.
  destruct (apply_thread_affinity ix full false io d) as [[applied|e] d']; cbn [snd] in *; [|done].
  case_match; [done|]. by eapply quiet_trans.
Qed.

Lemma expand_quiet ix fine object now io d : quiet d (expand_call cfg ix fine object now io d).2.
Proof.
  unfold expand_call. rewrite bind_get. case_match; [done|].
  assert (∀ d', quiet d d' → quiet d (widen_call ix (widen io) d').2) as Hw
    by (intros d' ?; eapply quiet_trans; [done|apply widen_quiet]).
  destruct (populated io) as [[]|e]; [|done|by repeat case_match].
  destruct (pressure_total io) as [total|e]; [|destruct e; by first [apply Hw, quiet_refl|split]].
  unfold mbind, M_bind, put. destruct (pressure_previous d !! ix) as [[at_ before]|]; [|by split].
  destruct (Qle_bool now at_ || _); [by split|]. unfold modify. cbv zeta beta iota.
  destruct (_ <? pressure_samples cfg); [by split|by apply Hw].
Qed.

(** ** Blocks that change the calls of one VM *)

Lemma domain_ok_update d d' ix : domain_ok d →
  (dict_ok (call_keys d') ∧ dict_ok (active_calls d') ∧ dict_ok (pending_started d') ∧
    dict_ok (pending_vcpus d') ∧ dict_ok (full_masks d') ∧ dict_ok (fine_masks d')) →
  (∀ iy, iy ≠ ix → view d' iy = view d iy) → vm_ok (view d' ix) →
  (∀ id iy, iy ≠ ix → call_keys d' !! id = Some iy ↔ call_keys d !! id = Some iy) →
  (∀ id, call_keys d' !! id = Some ix ↔ ∃ c, active_calls d' !! ix = Some c ∧ id ∈ c_ids c) →
  (∀ id, call_keys d' !! id = Some ix → vm_of id = ix) → domain_ok d'.
Proof.
  intros [H1 H2 H3 H4] Hd Hv Hix Hk Hkx Hvm. split; [done|..].
  - intros id iy. destruct (decide (iy = ix)) as [->|Hne]; [apply Hkx|].
    rewrite Hk by done. rewrite H2. pose proof (Hv iy Hne) as E. unfold view in E. injection E as -> _. done.
  - intros id iy. destruct (decide (iy = ix)) as [->|Hne]; [apply Hvm|]. rewrite Hk by done. apply H3.
  - intros iy. destruct (decide (iy = ix)) as [->|Hne]; [done|]. by rewrite Hv.
Qed.

Lemma key_active d id ix : domain_ok d → call_keys d !! id = Some ix → ∃ c, active_calls d !! ix = Some c ∧ id ∈ c_ids c.
Proof. intros Hd. apply (do_keys _ Hd). Qed.

Lemma no_key_idle d id ix : domain_ok d → active_calls d !! ix = None → call_keys d !! id ≠ Some ix.
Proof. intros Hd Ha (c & Hc & _)%(key_active _ _ _ Hd). congruence. Qed.

(** Registering a call under its VM. *)
Lemma register_keys d id ix c : domain_ok d → call_keys d !! id = None → vm_of id = ix →
  (∀ id', id' ∈ c_ids c ↔ id' = id ∨ ∃ c0, active_calls d !! ix = Some c0 ∧ id' ∈ c_ids c0) →
  (∀ id' iy, iy ≠ ix → <[id := ix]> (call_keys d) !! id' = Some iy ↔ call_keys d !! id' = Some iy) ∧
  (∀ id', <[id := ix]> (call_keys d) !! id' = Some ix ↔ ∃ c', Some c = Some c' ∧ id' ∈ c_ids c') ∧
  (∀ id', <[id := ix]> (call_keys d) !! id' = Some ix → vm_of id' = ix).
Proof.
  intros Hd Hnone Hvm Hc. split_and!; intros id'; destruct (decide (id' = id)) as [->|Hne];
    try rewrite dict_lookup_insert_eq; try rewrite dict_lookup_insert_ne by congruence.
  - intros iy Hiy. split; [intros [= <-]; done|by rewrite Hnone].
  - done.
  - split; [|done]. intros _. exists c. split; [done|]. apply Hc. by left.
  - rewrite (do_keys _ Hd). split.
    + intros (c0 & ? & ?). exists c. split; [done|]. apply Hc. right. by exists c0.
    + intros (c' & [= <-] & [->|?]%Hc); done.
  - done.
  - apply (do_vm _ Hd).
Qed.

(** What an operation of VM [ix] may change; [delta] is what it adds to the load
    that no narrowed VM accounts for. *)
Record local (ix : Z) (delta : string → Z) (d d' : domain) : Prop := {
  lo_ok : domain_ok d';
  lo_views : ∀ iy, iy ≠ ix → view d' iy = view d iy;
  lo_load : ∀ g, load_of d' g - narrowed d' g = load_of d g - narrowed d g + delta g;
  lo_capacity : (∀ g, load_of d g <= group_max_active cfg) → ∀ g, load_of d' g <= group_max_active cfg;
}.
Notation nothing := (λ _ : string, 0).
Notation one g := (λ g', counts (Some g) g').
Notation minus_one g := (λ g', - counts (Some g) g').

Lemma quiet_local ix d d' : domain_ok d → quiet d d' → local ix nothing d d'.
Proof.
  intros Hd Hq. split; [by eapply quiet_domain|by intros; apply quiet_view|..].
  - intros g. rewrite (quiet_load_of d), (quiet_narrowed d) by done. lia.
  - intros Hc g. by rewrite (quiet_load_of d).
Qed.

Lemma local_trans ix a b d1 d2 d3 : local ix a d1 d2 → local ix b d2 d3 → local ix (λ g, a g + b g) d1 d3.
Proof.
  intros [H1 H2 H3 H4] [H5 H6 H7 H8]. split; [done| | |by auto].
  - intros iy Hne. by rewrite H6, H2.
  - intros g. rewrite H7, H3. lia.
Qed.

Ltac view_ne := intros iy Hiy; unfold view, with_calls, with_pending, with_masks, with_pressure, with_groups, with_stopping;
  cbn [active_calls pending_started pending_vcpus capacity_bypassed full_masks fine_masks];
  rewrite ?dict_lookup_insert_ne, ?dict_lookup_delete_ne by (by apply not_eq_sym);
  try reflexivity; f_equal; apply bool_decide_ext; clear -Hiy; set_solver.

Ltac same_load := intros g; unfold load_of, narrowed, with_calls, with_pending, with_masks, with_stopping, with_pressure;
  cbn [group_load fine_masks]; lia.

Lemma share_local d ix id c : domain_ok d → call_keys d !! id = None → vm_of id = ix → active_calls d !! ix = Some c →
  local ix nothing d (with_calls (<[id := ix]> (call_keys d)) (<[ix := Calls (c_object c) (c_ids c ∪ {[id]})]> (active_calls d)) d).
Proof.
  intros Hd Hid Hvm Hc. set (c' := Calls _ _). pose proof (do_dicts _ Hd) as (? & ? & ? & ? & ? & ?).
  destruct (register_keys d id ix c' Hd Hid Hvm) as (K1 & K2 & K3).
  { intros id'. cbn. rewrite elem_of_union, elem_of_singleton, Hc. naive_solver. }
  split; [|view_ne|same_load|done].
  apply (domain_ok_update d _ ix); [done| |view_ne| |done| |done].
  - cbn. split_and!; auto with clawbox.
  - pose proof (do_views _ Hd ix) as [V1 V2 V3 V4 V5 V6]. cbn in *.
    split; cbn; rewrite ?dict_lookup_insert_eq; [|done|..].
    + intros c0 [= <-]. cbn. set_solver.
    + intros [? ?]%V3. split; [by eexists|done].
    + done.
    + by eexists.
    + intros [? ?]%V6. split; [by eexists|done].
  - intros id'. cbn [with_calls call_keys active_calls]. rewrite dict_lookup_insert_eq. apply K2.
Qed.

(** A first call: deferred. *)
Lemma defer_local d ix id now vcpus : domain_ok d → call_keys d !! id = None → vm_of id = ix → active_calls d !! ix = None →
  local ix nothing d (with_calls (<[id := ix]> (call_keys d)) (<[ix := Calls (next_object d) {[id]}]> (active_calls d))
    (with_pending (<[ix := now]> (pending_started d)) (<[ix := vcpus]> (pending_vcpus d)) (capacity_bypassed d)
       (with_stopping (stopping d) (S (next_object d)) d))).
Proof.
  intros Hd Hid Hvm Ha. set (c' := Calls _ _). pose proof (do_dicts _ Hd) as (? & ? & ? & ? & ? & ?).
  destruct (register_keys d id ix c' Hd Hid Hvm) as (K1 & K2 & K3).
  { intros id'. cbn. rewrite elem_of_singleton, Ha. naive_solver. }
  split; [|view_ne|same_load|done].
  apply (domain_ok_update d _ ix); [done| |view_ne| |done| |done].
  - cbn. split_and!; auto with clawbox.
  - pose proof (do_views _ Hd ix) as [V1 V2 V3 V4 V5 V6]. cbn in *. rewrite Ha in *.
    assert (fine_masks d !! ix = None) as Hf by (apply eq_None_not_Some; intros [? ?]%V5; done).
    split; cbn; rewrite ?dict_lookup_insert_eq; [|by split; by eexists|..].
    + intros c0 [= <-]. cbn. set_solver.
    + intros _. split_and!; [by eexists|done|]. apply not_true_is_false. by intros [[? ?] ?]%V6.
    + done.
    + by eexists.
    + intros [[? ?] ?]%V6. done.
  - intros id'. cbn [with_calls call_keys active_calls]. rewrite dict_lookup_insert_eq. apply K2.
Qed.

(** An idle VM is narrowed to [g]. *)
Lemma publish_local d ix id g full pressure : domain_ok d → call_keys d !! id = None → vm_of id = ix →
  active_calls d !! ix = None → local ix (minus_one g) d (assign_publish ix id g full pressure d).
Proof.
  intros Hd Hid Hvm Ha. unfold assign_publish. set (c' := Calls _ _). pose proof (do_dicts _ Hd) as (? & ? & ? & ? & ? & ?).
  destruct (register_keys d id ix c' Hd Hid Hvm) as (K1 & K2 & K3).
  { intros id'. cbn. rewrite elem_of_singleton, Ha. naive_solver. }
  pose proof (do_views _ Hd ix) as [V1 V2 V3 V4 V5 V6]. cbn in V1, V2, V3, V4, V5, V6. rewrite Ha in *.
  assert (fine_masks d !! ix = None) as Hf by (apply eq_None_not_Some; intros [? ?]%V5; done).
  split; [|view_ne| |done].
  - apply (domain_ok_update d _ ix); [done| |view_ne| |done| |done].
    + cbn. split_and!; auto with clawbox.
    + split; cbn; rewrite ?dict_lookup_insert_eq; [|done|..].
      * intros c0 [= <-]. cbn. set_solver.
      * intros [[? ?] ?]%V3. done.
      * by split; eexists.
      * by eexists.
      * intros [[? ?] ?]%V6. done.
    + intros id'. cbn [with_calls call_keys active_calls]. rewrite dict_lookup_insert_eq. apply K2.
  - intros g'. unfold load_of, narrowed, with_calls, with_masks, with_pressure, with_groups, with_stopping. cbn [group_load fine_masks].
    rewrite dsum_insert_new by done. lia.
Qed.

(** Dropping a call from its VM. *)
Lemma unregister_keys d id ix c : domain_ok d → active_calls d !! ix = Some c → id ∈ c_ids c →
  (∀ id' iy, iy ≠ ix → delete id (call_keys d) !! id' = Some iy ↔ call_keys d !! id' = Some iy) ∧
  (∀ id', delete id (call_keys d) !! id' = Some ix ↔ id' ∈ c_ids c ∖ {[id]}) ∧
  (∀ id', delete id (call_keys d) !! id' = Some ix → vm_of id' = ix).
Proof.
  intros Hd Hc Hin. pose proof (do_dicts _ Hd) as [Hck _].
  assert (call_keys d !! id = Some ix) as Hid by (apply (do_keys _ Hd); eauto).
  split_and!; intros id'; destruct (decide (id' = id)) as [->|Hne];
    try rewrite dict_lookup_delete_eq by done; try rewrite dict_lookup_delete_ne by congruence.
  - intros iy Hiy. rewrite Hid. split; congruence.
  - done.
  - split; [done|set_solver].
  - rewrite (do_keys _ Hd), Hc. set_solver.
  - done.
  - apply (do_vm _ Hd).
Qed.

Lemma unshare_local d ix id c : domain_ok d → active_calls d !! ix = Some c → id ∈ c_ids c → (1 < size (c_ids c))%nat →
  local ix nothing d (with_calls (delete id (call_keys d)) (<[ix := Calls (c_object c) (c_ids c ∖ {[id]})]> (active_calls d)) d).
Proof.
  intros Hd Hc Hin Hsize. set (c' := Calls _ _). pose proof (do_dicts _ Hd) as (? & ? & ? & ? & ? & ?).
  destruct (unregister_keys d id ix c Hd Hc Hin) as (K1 & K2 & K3).
  split; [|view_ne|same_load|done]. apply (domain_ok_update d _ ix); [done| |view_ne| |done| |done].
  - cbn. split_and!; auto with clawbox.
  - pose proof (do_views _ Hd ix) as [V1 V2 V3 V4 V5 V6]. cbn in *.
    split; cbn; rewrite ?dict_lookup_insert_eq; [|done|..].
    + intros c0 [= <-]. cbn. intros E. assert (c_ids c ⊆ {[id]}) as Hs%subseteq_size by (by apply empty_difference_subseteq_L).
      rewrite size_singleton in Hs. lia.
    + intros [? ?]%V3. split; [by eexists|done].
    + done.
    + by eexists.
    + intros [? ?]%V6. split; [by eexists|done].
  - intros id'. cbn [with_calls call_keys active_calls]. rewrite dict_lookup_insert_eq, K2. split; [by exists c'|].
    by intros (c0 & [= <-] & ?).
Qed.

(** The last call of a VM that is not narrowed. *)
Lemma complete_local d ix id c : domain_ok d → active_calls d !! ix = Some c → c_ids c = {[id]} → fine_masks d !! ix = None →
  local ix nothing d (with_calls (delete id (call_keys d)) (delete ix (active_calls d))
    (with_pending (delete ix (pending_started d)) (delete ix (pending_vcpus d)) (capacity_bypassed d ∖ {[ix]}) d)).
Proof.
  intros Hd Hc Hids Hf. pose proof (do_dicts _ Hd) as (? & ? & ? & ? & ? & ?).
  destruct (unregister_keys d id ix c Hd Hc) as (K1 & K2 & K3); [set_solver|].
  split; [|view_ne|same_load|done]. apply (domain_ok_update d _ ix); [done| |view_ne| |done| |done].
  - cbn. split_and!; auto with clawbox.
  - pose proof (do_views _ Hd ix) as [V1 V2 V3 V4 V5 V6]. cbn in *. rewrite Hf in *.
    split; cbn; rewrite ?dict_lookup_delete_eq by done; try done.
    + by rewrite Hf.
    + rewrite Hf. by intros [? ?].
    + rewrite bool_decide_eq_true. set_solver.
  - intros id'. cbn [with_calls call_keys active_calls]. rewrite dict_lookup_delete_eq, K2, Hids by done.
    split; [set_solver|]. by intros (? & ? & _).
Qed.

(** The last call of a narrowed VM. *)
Lemma restore_local d ix id c fine : domain_ok d → active_calls d !! ix = Some c → c_ids c = {[id]} → fine_masks d !! ix = Some fine →
  local ix nothing d (with_calls (delete id (call_keys d)) (delete ix (active_calls d))
    (with_pressure (expanded d ∖ {[ix]}) (delete ix (pressure_previous d)) (delete ix (pressure_streak d))
       (with_masks (delete ix (full_masks d)) (delete ix (fine_masks d)) (<[fine := load_of d fine - 1]> (group_load d)) d))).
Proof.
  intros Hd Hc Hids Hf. pose proof (do_dicts _ Hd) as (? & ? & ? & ? & ? & ?).
  destruct (unregister_keys d id ix c Hd Hc) as (K1 & K2 & K3); [set_solver|].
  pose proof (do_views _ Hd ix) as [V1 V2 V3 V4 V5 V6]. cbn in V1, V2, V3, V4, V5, V6. rewrite Hf in *.
  split; [|view_ne| |].
  - apply (domain_ok_update d _ ix); [done| |view_ne| |done| |done].
    + cbn. split_and!; auto with clawbox.
    + split; cbn; rewrite ?dict_lookup_delete_eq by done; try done.
      * by intros (_ & ? & _)%V3.
      * by intros [_ ?]%V6.
    + intros id'. cbn [with_calls call_keys active_calls]. rewrite dict_lookup_delete_eq, K2, Hids by done.
      split; [set_solver|]. by intros (? & ? & _).
  - intros g. unfold load_of, narrowed, with_calls, with_masks, with_pressure. cbn [group_load fine_masks].
    rewrite (dsum_delete _ _ _ _ Hf). unfold counts. destruct (decide (Some fine = Some g)) as [[= ->]|Hne].
    + rewrite dict_lookup_insert_eq. cbn. lia.
    + rewrite dict_lookup_insert_ne by congruence. lia.
  - intros Hcap g. unfold load_of in *. cbn [with_calls with_masks with_pressure group_load]. destruct (decide (fine = g)) as [->|Hne].
    + rewrite dict_lookup_insert_eq. cbn. specialize (Hcap g). lia.
    + by rewrite dict_lookup_insert_ne.
Qed.

(** Reserving a group and giving it back. *)
Lemma load_local d ix g n : domain_ok d → (n = 1 ∧ below_capacity cfg d g = true ∨ n = -1) →
  local ix (λ g', n * counts (Some g) g') d (with_masks (full_masks d) (fine_masks d) (<[g := load_of d g + n]> (group_load d)) d).
Proof.
  intros Hd Hn. set (d' := with_masks _ _ _ _).
  assert (∀ g', load_of d' g' = load_of d g' + n * counts (Some g) g') as Hload.
  { intros g'. unfold load_of, d', counts. cbn [with_masks group_load]. destruct (decide (Some g = Some g')) as [[= ->]|Hne].
    - rewrite dict_lookup_insert_eq. unfold load_of. cbn. lia.
    - rewrite dict_lookup_insert_ne by congruence. lia. }
  split; [| |intros g'; rewrite Hload; change (narrowed d' g') with (narrowed d g'); lia|].
  - destruct Hd as [H1 H2 H3 H4]. by split.
  - done.
  - intros Hcap g'. rewrite Hload. specialize (Hcap g'). unfold counts, below_capacity in *.
    destruct (decide (Some g = Some g')) as [[= ->]|]; [|by rewrite Z.mul_0_r, Z.add_0_r]. destruct Hn as [[-> ?%Z.ltb_lt]| ->]; lia.
Qed.

(** ** The poller *)

Lemma kept_keys d ix c : domain_ok d → active_calls d !! ix = Some c →
  foldl (λ ck id, <[id := ix]> ck) (call_keys d) (elements (c_ids c)) = call_keys d.
Proof.
  intros Hd Hc. assert (∀ l, (∀ id, id ∈ l → id ∈ c_ids c) → foldl (λ ck id, <[id := ix]> ck) (call_keys d) l = call_keys d) as H.
  { induction l as [|id l IH]; [done|]. intros Hl. simpl. rewrite insert_id; [apply IH; intros; apply Hl; by right|].
    apply (do_keys _ Hd). exists c. split; [done|]. apply Hl. by left. }
  apply H. intros id. by rewrite elem_of_elements.
Qed.

(** The pending calls of a VM keep their registration when it is narrowed. *)
Lemma promoted_local d ix primary g full pressure c : domain_ok d → active_calls d !! ix = Some c → primary ∈ c_ids c →
  pending_started d !! ix = None → fine_masks d !! ix = None → bool_decide (ix ∈ capacity_bypassed d) = false →
  local ix (minus_one g) d (keep_calls ix c (assign_publish ix primary g full pressure d)).
Proof.
  intros Hd Hc Hp Hs Hf Hb. set (d' := keep_calls _ _ _).
  assert (call_keys d' = call_keys d) as Hck.
  { unfold d', keep_calls, assign_publish. cbn [with_calls call_keys]. rewrite (insert_id _ primary ix); [by apply kept_keys|].
    apply (do_keys _ Hd). eauto. }
  assert (active_calls d' = active_calls d) as Hac.
  { unfold d', keep_calls, assign_publish. cbn [with_calls active_calls]. by rewrite insert_insert, insert_id. }
  pose proof (do_dicts _ Hd) as (? & ? & ? & ? & ? & ?).
  assert (∀ iy, iy ≠ ix → view d' iy = view d iy) as Hv.
  { intros iy Hiy. unfold view. rewrite Hac. unfold d', keep_calls, assign_publish.
    cbn [with_calls pending_started pending_vcpus capacity_bypassed full_masks fine_masks].
    by rewrite !dict_lookup_insert_ne by (by apply not_eq_sym). }
  pose proof (do_views _ Hd ix) as [V1 V2 V3 V4 V5 V6]. cbn in V1, V2, V3, V4, V5, V6.
  split; [|done| |done].
  - apply (domain_ok_update d d' ix); [done| |done| |by intros; rewrite Hck|intros; rewrite Hck, Hac; apply (do_keys _ Hd)|].
    + rewrite Hck, Hac. cbn. split_and!; auto with clawbox.
    + unfold view. rewrite Hac. split; unfold d', keep_calls, assign_publish;
        cbn [v_active v_started v_vcpus v_bypassed v_full v_fine with_calls pending_started pending_vcpus capacity_bypassed full_masks fine_masks];
        rewrite ?dict_lookup_insert_eq; try done.
      * rewrite Hs. by intros [? ?].
      * by rewrite Hb.
    + intros id. rewrite Hck. apply (do_vm _ Hd).
  - intros g'. unfold load_of, narrowed, d', keep_calls, assign_publish. cbn [with_calls group_load fine_masks].
    rewrite dsum_insert_new by done. lia.
Qed.

Lemma bypassed_local d ix c : domain_ok d → active_calls d !! ix = Some c → pending_started d !! ix = None → fine_masks d !! ix = None →
  local ix nothing d (bypass_calls ix c d).
Proof.
  intros Hd Hc Hs Hf. set (d' := bypass_calls _ _ _).
  assert (call_keys d' = call_keys d) as Hck by (by apply kept_keys).
  assert (active_calls d' = active_calls d) as Hac by (by apply insert_id).
  pose proof (do_dicts _ Hd) as (? & ? & ? & ? & ? & ?).
  assert (∀ iy, iy ≠ ix → view d' iy = view d iy) as Hv.
  { intros iy Hiy. unfold view. rewrite Hac. unfold d', bypass_calls, keep_calls.
    cbn [with_calls with_pending pending_started pending_vcpus capacity_bypassed full_masks fine_masks].
    f_equal. apply bool_decide_ext. clear -Hiy. set_solver. }
  pose proof (do_views _ Hd ix) as [V1 V2 V3 V4 V5 V6]. cbn in V1, V2, V3, V4, V5, V6.
  split; [|done| |done].
  - apply (domain_ok_update d d' ix); [done| |done| |by intros; rewrite Hck|intros; rewrite Hck, Hac; apply (do_keys _ Hd)|].
    + rewrite Hck, Hac. cbn. split_and!; auto with clawbox.
    + unfold view. rewrite Hac. split; unfold d', bypass_calls, keep_calls;
        cbn [v_active v_started v_vcpus v_bypassed v_full v_fine with_calls with_pending pending_started pending_vcpus
             capacity_bypassed full_masks fine_masks]; try done.
      rewrite Hs. by intros [? ?].
    + intros id. rewrite Hck. apply (do_vm _ Hd).
  - intros g'. unfold load_of, narrowed, d', bypass_calls, keep_calls. cbn [with_calls with_pending group_load fine_masks]. lia.
Qed.

(** A due call leaves the pending ones. *)
Lemma due_local d ix : domain_ok d →
  local ix nothing d (with_pending (delete ix (pending_started d)) (delete ix (pending_vcpus d)) (capacity_bypassed d) d).
Proof.
  intros Hd. pose proof (do_dicts _ Hd) as (? & ? & ? & ? & ? & ?).
  assert (∀ iy, iy ≠ ix → view (with_pending (delete ix (pending_started d)) (delete ix (pending_vcpus d)) (capacity_bypassed d) d) iy
                          = view d iy) as Hv by view_ne.
  split; [|done|same_load|done]. apply (domain_ok_update d _ ix); [done| |done| |done|intros id; apply (do_keys _ Hd)|intros id; apply (do_vm _ Hd)].
  - cbn. split_and!; auto with clawbox.
  - pose proof (do_views _ Hd ix) as [V1 V2 V3 V4 V5 V6]. cbn in *.
    split; cbn; rewrite ?dict_lookup_delete_eq by done; done.
Qed.

(** ** What the operations do *)

Lemma quiet_active d d' ix : quiet d d' → active_calls d' !! ix = active_calls d !! ix.
Proof. intros Hq. by rewrite (qu_active _ _ Hq). Qed.

Lemma acquire_effect d ix id vcpus now o d' : domain_ok d → vm_of id = ix → acquire_tool_call cfg ix id vcpus now d = (o, d') →
  local ix nothing d d' ∧ ∀ fg, o = Ok (inr fg) → active_calls d' !! ix = None.
Proof.
  intros Hd Hvm. pose proof (quiet_local ix d d Hd (quiet_refl d)) as Hsame.
  unfold acquire_tool_call. rewrite bind_get, !bind_raise_if.
  case_bool_decide as Hs; [by intros [= <- <-]|]. case_bool_decide as Hid; [by intros [= <- <-]|].
  apply eq_None_not_Some in Hid. destruct (stopping d) eqn:Hst; [by intros [= <- <-]|].
  destruct (active_calls d !! ix) as [c|] eqn:Ha.
  - case_bool_decide; [by intros [= <- <-]|]. unfold put, mbind, M_bind, mret, M_ret. intros [= <- <-].
    split; [by apply share_local|done].
  - destruct (Qltb 0 (min_duration cfg)).
    + unfold put, mbind, M_bind, mret, M_ret. pose proof (defer_local d ix id now vcpus Hd Hid Hvm Ha) as Hl. rewrite Hst in Hl.
      destruct (placements cfg !! ix) as [[[] ?]|]; intros [= <- <-]; done.
    + pose proof (assign_groups_quiet ix vcpus d) as Hq. unfold mbind, M_bind, mret, M_ret.
      destruct (assign_groups cfg ix vcpus d) as [[fg|e] d1]; cbn [snd] in Hq; intros [= <- <-]; (split; [by apply quiet_local|]);
        [|done]. intros _ _. by rewrite (quiet_active d).
Qed.

Lemma one_call c id : id ∈ c_ids c → ¬ (1 < size (c_ids c))%nat → c_ids c = {[id]}.
Proof.
  intros Hin Hs. symmetry. apply set_subseteq_size_eq; [set_solver|]. rewrite size_singleton. lia.
Qed.

Lemma release_effect d ix id o d' : domain_ok d → vm_of id = ix → release_tool_call id d = (o, d') →
  local ix nothing d d' ∧ ∀ key, o = Ok (inr key) → key = ix ∧
    ∃ c, active_calls d' !! ix = Some c ∧ c_ids c = {[id]} ∧ is_Some (fine_masks d' !! ix).
Proof.
  intros Hd Hvm. pose proof (quiet_local ix d d Hd (quiet_refl d)) as Hsame.
  unfold release_tool_call. rewrite bind_get. destruct (call_keys d !! id) as [ix'|] eqn:Hid.
  - pose proof (do_vm _ Hd _ _ Hid) as E. rewrite Hvm in E. subst ix'.
    destruct (key_active _ _ _ Hd Hid) as (c & Hc & Hin). rewrite Hc.
    destruct (Z.ltb_spec 1 (Z.of_nat (size (c_ids c)))).
    + intros [= <- <-]. split; [|done]. apply unshare_local; [done..|lia].
    + assert (c_ids c = {[id]}) as Hids by (apply one_call; [done|lia]). case_bool_decide as Hf; intros [= <- <-].
      * split; [by apply (complete_local d ix id c)|done].
      * split; [done|]. intros key [= <-]. split; [done|]. exists c. split_and!; [done..|by apply not_eq_None_Some].
  - destruct (stopping d); intros [= <- <-]; done.
Qed.

Lemma restore_effect d ix id io o d' c : domain_ok d → active_calls d !! ix = Some c → c_ids c = {[id]} →
  is_Some (fine_masks d !! ix) → release_restore ix id io d = (o, d') → local ix nothing d d'.
Proof.
  intros Hd Hc Hids [fine Hf]. unfold release_restore. rewrite bind_get.
  destruct (full_masks d !! ix) as [full|]; [|by intros [= <- <-]; apply quiet_local].
  pose proof (apply_quiet ix full true io d) as Hq. unfold mbind at 1, M_bind at 1.
  destruct (apply_thread_affinity ix full true io d) as [[applied|e] d1]; cbn [snd] in Hq; [|by intros [= <- <-]; apply quiet_local].
  rewrite bind_get, (qu_fine _ _ Hq), Hf. intros [= <- <-].
  pose proof (quiet_local ix d d1 Hd Hq) as H1.
  pose proof (restore_local d1 ix id c fine (lo_ok _ _ _ _ H1)) as H2.
  rewrite (quiet_active d), (qu_fine _ _ Hq) in H2 by done.
  pose proof (local_trans _ _ _ _ _ _ H1 (H2 Hc Hids Hf)) as [L1 L2 L3 L4]. by split.
Qed.

Lemma assign_apply_effect ix g full io restore d o d' : assign_apply ix g full io restore d = (o, d') →
  (∃ applied, o = Ok applied ∧ quiet d d') ∨ (∃ e d1, o = Raise e ∧ quiet d d1 ∧ d' = give_back_group g d1).
Proof.
  unfold assign_apply, try_except. pose proof (apply_quiet ix g true io d) as Hq.
  destruct (apply_thread_affinity ix g true io d) as [[applied|e] d1]; cbn [snd] in Hq; [intros [= <- <-]; left; eauto|].
  unfold mbind, M_bind, mret, M_ret, modify, raise. pose proof (apply_quiet ix full false restore d1) as Hq'.
  destruct (apply_thread_affinity ix full false restore d1) as [[applied|e'] d2]; cbn [snd] in Hq'; intros [= <- <-]; right;
    exists e, d2; split_and!; try done; by eapply quiet_trans.
Qed.

Lemma give_back_local ix g d d1 : domain_ok d → quiet d d1 → local ix (minus_one g) d (give_back_group g d1).
Proof.
  intros Hd Hq. pose proof (quiet_local ix d d1 Hd Hq) as H1.
  pose proof (load_local d1 ix g (-1) (lo_ok _ _ _ _ H1) ltac:(by right)) as H2.
  pose proof (local_trans _ _ _ _ _ _ H1 H2) as [L1 L2 L3 L4]. split; [done..| |done].
  intros g'. rewrite L3. lia.
Qed.

Lemma group_effect ix groups ob d o d' : domain_ok d → assign_choose cfg ix groups ob d = (o, d') →
  (quiet d d' ∧ ∀ g, o ≠ Ok (Some g)) ∨
  (∃ g, o = Ok (Some g) ∧ local ix (one g) d d' ∧ ∀ iy, view d' iy = view d iy).
Proof.
  intros Hd. unfold assign_choose. pose proof (sample_quiet groups ob d) as Hq. unfold mbind at 1, M_bind at 1.
  destruct (sample_group_utilization groups ob d) as [[u|e] d1]; cbn [snd] in Hq; [|by intros [= <- <-]; left].
  rewrite bind_get. destruct (min_by _ _) as [g|] eqn:Hm; [|by intros [= <- <-]; left].
  intros [= <- <-]. right. exists g. split; [done|].
  assert (below_capacity cfg d1 g = true) as Hb.
  { apply min_by_elem in Hm. by apply list_elem_of_filter in Hm as [? _]. }
  pose proof (quiet_local ix d d1 Hd Hq) as H1.
  pose proof (load_local d1 ix g 1 (lo_ok _ _ _ _ H1) ltac:(by left)) as H2.
  pose proof (local_trans _ _ _ _ _ _ H1 H2) as [L1 L2 L3 L4]. split; [split; [done..| |done]|].
  - intros g'. rewrite L3. lia.
  - intros iy. by rewrite <- (quiet_view d d1).
Qed.

(** A promotion changes its VM, and may reserve a group for its calls. *)
Lemma promote_effect d ix started now ob o d' : domain_ok d → promote cfg ix started now ob d = (o, d') →
  ((∀ x, o ≠ Ok (Some x)) ∧ local ix nothing d d') ∨
  ∃ g full primary c, o = Ok (Some (g, full, primary, c)) ∧ local ix (one g) d d' ∧ active_calls d' !! ix = Some c ∧
    primary ∈ c_ids c ∧ pending_started d' !! ix = None ∧ fine_masks d' !! ix = None ∧
    bool_decide (ix ∈ capacity_bypassed d') = false.
Proof.
  intros Hd. pose proof (quiet_local ix d d Hd (quiet_refl d)) as Hsame.
  unfold promote. unfold mbind at 1, M_bind at 1. unfold promote_groups. rewrite bind_get.
  destruct (_ || _) eqn:Edue; [by intros [= <- <-]; left|].
  destruct (active_calls d !! ix) as [c|] eqn:Hc; [|by intros [= <- <-]; left].
  destruct (pending_vcpus d !! ix) as [vcpus|] eqn:Hv; [|by intros [= <- <-]; left].
  destruct (min_by _ _) as [primary|] eqn:Hm; [|by intros [= <- <-]; left].
  apply min_by_elem, elem_of_elements in Hm. rewrite bind_put.
  apply orb_false_elim in Edue as [Hst _]. apply negb_false_iff in Hst.
  destruct (pending_started d !! ix) as [at_|] eqn:Hs; [|done].
  pose proof (do_views _ Hd ix) as [_ _ V3 _ _ _]. cbn in V3. rewrite Hs in V3.
  destruct V3 as (_ & Hf & Hb); [by eexists|].
  pose proof (due_local d ix Hd) as H1. pose proof (do_dicts _ Hd) as (_ & _ & Hps & _).
  set (d1 := with_pending _ _ _ _) in *.
  assert (pending_started d1 !! ix = None) as Hs1 by (by apply dict_lookup_delete_eq).
  unfold mbind at 1, M_bind at 1. pose proof (assign_groups_quiet ix vcpus d1) as Hq.
  destruct (assign_groups cfg ix vcpus d1) as [[[full groups]|e] d2]; cbn [snd] in Hq.
  2:{ intros [= <- <-]. left. split; [done|]. by apply (local_trans _ _ _ _ _ _ H1 (quiet_local ix _ _ (lo_ok _ _ _ _ H1) Hq)). }
  pose proof (local_trans _ _ _ _ _ _ H1 (quiet_local ix _ _ (lo_ok _ _ _ _ H1) Hq)) as H2.
  cbn [mret M_ret]. unfold mret, M_ret. cbv beta iota. unfold mbind, M_bind.
  destruct (assign_choose cfg ix groups ob d2) as [o3 d3] eqn:E3.
  apply (group_effect ix) in E3; [|apply H2]. destruct E3 as [[Hq3 Hn]|(g & -> & H3 & Hv3)].
  - pose proof (local_trans _ _ _ _ _ _ H2 (quiet_local ix _ _ (lo_ok _ _ _ _ H2) Hq3)) as H4.
    destruct o3 as [[g|]|e]; [by destruct (Hn g)| |].
    + intros [= <- <-]. left. split; [done|].
      assert (active_calls d3 !! ix = Some c) as Hc3 by (by rewrite (qu_active _ _ Hq3), (qu_active _ _ Hq)).
      assert (pending_started d3 !! ix = None) as Hs3 by (by rewrite (qu_started _ _ Hq3), (qu_started _ _ Hq)).
      assert (fine_masks d3 !! ix = None) as Hf3 by (by rewrite (qu_fine _ _ Hq3), (qu_fine _ _ Hq)).
      exact (local_trans _ _ _ _ _ _ H4 (bypassed_local d3 ix c (lo_ok _ _ _ _ H4) Hc3 Hs3 Hf3)).
    + intros [= <- <-]. by left.
  - intros [= <- <-]. right. exists g, full, primary, c. split; [done|].
    pose proof (Hv3 ix) as Ev. rewrite (quiet_view d1 d2) in Ev by done. unfold view in Ev. injection Ev as Ea Es _ Eb _ Efi.
    pose proof (local_trans _ _ _ _ _ _ H2 H3) as [L1 L2 L3 L4]. split_and!; [split; [done..| |done]|by rewrite Ea|done|by rewrite Es|by rewrite Efi|by rewrite Eb].
    intros g'. rewrite L3. lia.
Qed.

(** ** Every run keeps the invariant *)

Lemma counts_none g : counts None g = 0.
Proof. done. Qed.

Lemma system_local s t th th' d' ix delta : system_ok s → threads s !! t = Some th →
  session_of th = Some ix ∨ locked (threads s) ix = false → local ix delta (dom_ s) d' → thread_ok d' th' →
  session_of th' = None ∨ session_of th' = Some ix →
  (∀ g, delta g = counts (reserving th') g - counts (reserving th) g) → system_ok (System d' (<[t := th']> (threads s))).
Proof.
  intros Hs Hth Hin [L1 L2 L3 L4] Hok Hs' Hdelta. eapply system_step; [done..| |apply L4, (so_capacity _ Hs)].
  intros g. rewrite L3, Hdelta. lia.
Qed.

(** A block outside the sessions. *)
Lemma system_quiet s t th th' d' : system_ok s → threads s !! t = Some th → quiet (dom_ s) d' → session_of th = None →
  thread_ok d' th' → session_of th' = None → reserving th' = reserving th → system_ok (System d' (<[t := th']> (threads s))).
Proof.
  intros [Hd Ht Hu Hl Hc] Hth Hq Hn Hok Hn' Hr. split; cbn [dom_ threads].
  - by eapply quiet_domain.
  - intros u y [[-> ->]|[Hne Hy]]%insert_cases; [done|]. pose proof (Ht u y Hy) as Hyok.
    destruct y; cbn [thread_ok] in *; try done; by rewrite (quiet_view (dom_ s)).
  - intros u1 u2 y1 y2 iy [[-> ->]|[Hn1 H1]]%insert_cases [[-> ->]|[Hn2 H2]]%insert_cases E1 E2; [congruence..|by eapply Hu].
  - intros g. rewrite (quiet_load_of (dom_ s)), (quiet_narrowed (dom_ s)), Hl by done. unfold reserved.
    rewrite (zsum_insert _ _ _ th), Hr by done. lia.
  - intros g. by rewrite (quiet_load_of (dom_ s)).
Qed.

Lemma ended_eq {A} (next : A → thread) (r : outcome A * domain) th' d' : ended next r = (th', d') →
  d' = r.2 ∧ th' = match r.1 with Ok a => next a | Raise e => Done (Raise e) end.
Proof. unfold ended. by intros [= <- <-]. Qed.

Lemma acquire_ok s t th th' d' w : system_ok s → threads s !! t = Some th → blocked th (threads s) = false →
  advance cfg th w (dom_ s) = (th', d') →
  match th with AcquireCall _ _ _ | AcquireSample _ _ _ _ | AcquireChoose _ _ _ _ _ | AcquireApply _ _ _ _ => True | _ => False end →
  system_ok (System d' (<[t := th']> (threads s))).
Proof.
  intros Hs Hth Hb Hadv Hkind. pose proof (so_domain _ Hs) as Hd. pose proof (so_threads _ Hs t th Hth) as Hok.
  pose proof (λ ix, quiet_local ix (dom_ s) (dom_ s) Hd (quiet_refl _)) as Hsame.
  destruct th as [ix id vcpus|ix id full groups|ix id full groups ob|ix id g full| | | | | | | | | | | |]; try done; cbn [advance blocked wants] in *.
  - apply ended_eq in Hadv as [-> ->]. destruct (acquire_tool_call _ _ _ _ _ _) as [o d'] eqn:E.
    apply acquire_effect in E as [Hl Hg]; [|done..]. cbn [fst snd].
    eapply (system_local s t _ _ d' ix); [done|done|by right|exact Hl|..].
    + destruct o as [[r|[full groups]]|e]; [done| |done]. split; [done|by eapply Hg].
    + destruct o as [[r|[full groups]]|e]; [by left|by right|by left].
    + intros g. by destruct o as [[r|[full groups]]|e].
  - injection Hadv as <- <-. eapply (system_local s t _ _ _ ix); [done|done|by left|apply Hsame|done|by right|done].
  - apply ended_eq in Hadv as [-> ->]. destruct (assign_choose _ _ _ _ _) as [o d'] eqn:E. cbn [fst snd]. destruct Hok as [Hvm Ha].
    apply (group_effect ix) in E as [[Hq Hn]|(g & -> & Hl & Hv)]; [| |done].
    + destruct o as [[g|]|e]; [by destruct (Hn g)| |];
        (eapply (system_local s t _ _ _ ix); [done|done|by left|by apply quiet_local|done|by left|done]).
    + eapply (system_local s t _ _ _ ix); [done|done|by left|exact Hl| |by right|].
      * split; [done|]. by rewrite Hv.
      * intros g'. cbn [reserving]. rewrite counts_none. lia.
  - apply ended_eq in Hadv as [-> ->]. destruct Hok as [Hvm Ha]. unfold mbind, M_bind.
    destruct (assign_apply _ _ _ _ _ _) as [o d1] eqn:E.
    apply assign_apply_effect in E as [(applied & -> & Hq)|(e & d2 & -> & Hq & ->)].
    + cbn [fst snd modify mret M_ret]. pose proof (quiet_domain _ _ Hq Hd) as Hd1.
      assert (active_calls d1 !! ix = None) as Ha1 by (by rewrite (quiet_active (dom_ s))).
      assert (call_keys d1 !! id = None) as Hid.
      { destruct (call_keys d1 !! id) as [iy|] eqn:E; [|done]. pose proof (do_vm _ Hd1 _ _ E) as E'. rewrite Hvm in E'. subst iy.
        by apply (no_key_idle d1 id ix Hd1) in E. }
      pose proof (publish_local d1 ix id g full (pair (clock w) <$> leaf_pressure w) Hd1 Hid Hvm Ha1) as Hl.
      eapply (system_local s t _ _ _ ix); [done|done|by left|exact (local_trans _ _ _ _ _ _ (quiet_local ix _ _ Hd Hq) Hl)|done|by left|].
      intros g'. cbn [reserving]. rewrite counts_none. lia.
    + cbn [fst snd]. eapply (system_local s t _ _ _ ix); [done|done|by left|by apply give_back_local|done|by left|].
      intros g'. cbn [reserving]. rewrite counts_none. lia.
Qed.

Lemma completion_ok s t th th' d' w : system_ok s → threads s !! t = Some th → blocked th (threads s) = false →
  advance cfg th w (dom_ s) = (th', d') →
  match th with ReleaseCall _ | ReleaseLocked _ _ | ReleaseApply _ _ => True | _ => False end →
  system_ok (System d' (<[t := th']> (threads s))).
Proof.
  intros Hs Hth Hb Hadv Hkind. pose proof (so_domain _ Hs) as Hd. pose proof (so_threads _ Hs t th Hth) as Hok.
  destruct th as [| | | |id|ix id|ix id| | | | | | | | |]; try done; cbn [advance blocked wants] in *.
  - destruct (call_keys (dom_ s) !! id) as [ix|] eqn:E; injection Hadv as <- <-;
      (eapply (system_quiet s t); [done|done|apply quiet_refl|done| |done|done]); [|done].
    by apply (do_vm _ Hd).
  - apply ended_eq in Hadv as [-> ->]. destruct (release_tool_call _ _) as [o d'] eqn:E.
    apply (release_effect _ ix) in E as [Hl Hg]; [|done..]. cbn [fst snd].
    eapply (system_local s t _ _ d' ix); [done|done|by right|exact Hl|..].
    + destruct o as [[r|key]|e]; [done| |done]. destruct (Hg key) as (-> & c & ? & ? & ?); [done|]. split; [done|]. by exists c.
    + destruct o as [[r|key]|e]; [by left| |by left]. right. by destruct (Hg key) as [-> _].
    + intros g. by destruct o as [[r|key]|e].
  - apply ended_eq in Hadv as [-> ->]. destruct Hok as (Hvm & c & Hc & Hids & Hf).
    destruct (release_restore _ _ _ _) as [o d'] eqn:E. eapply restore_effect in E; [|done..]. cbn [fst snd].
    eapply (system_local s t _ _ d' ix); [done|done|by left|exact E|..]; destruct o; try done; by left.
Qed.

Lemma poll_apply_ok s t ix g full primary c todo now o th' d' w :
  let th := PollApply ix g full primary c todo now o in
  system_ok s → threads s !! t = Some th → advance cfg th w (dom_ s) = (th', d') →
  system_ok (System d' (<[t := th']> (threads s))).
Proof.
  intros th Hs Hth Hadv. pose proof (so_domain _ Hs) as Hd. pose proof (so_threads _ Hs t th Hth) as Hok.
  subst th. cbn [advance thread_ok] in *. destruct Hok as (Hc & Hin & Hst & Hf & Hby).
  apply ended_eq in Hadv as [-> ->]. unfold mbind, M_bind.
  destruct (assign_apply _ _ _ _ _ _) as [oa d1] eqn:E.
  apply assign_apply_effect in E as [(applied & -> & Hq)|(e & d2 & -> & Hq & ->)].
  - cbn [fst snd modify]. pose proof (quiet_domain _ _ Hq Hd) as Hd1. pose proof (quiet_view _ _ ix Hq) as Hv.
    rewrite <- Hv in Hc, Hst, Hf, Hby.
    pose proof (promoted_local d1 ix primary g full (pair (clock w) <$> leaf_pressure w) c Hd1 Hc Hin) as Hl.
    specialize (Hl Hst Hf Hby).
    eapply (system_local s t _ _ _ ix); [done|done|by left|exact (local_trans _ _ _ _ _ _ (quiet_local ix _ _ Hd Hq) Hl)|done|by left|].
    intros g'. cbn [reserving]. rewrite counts_none. lia.
  - cbn [fst snd]. eapply (system_local s t _ _ _ ix); [done|done|by left|by apply give_back_local|done|by left|].
    intros g'. cbn [reserving]. rewrite counts_none. lia.
Qed.

Lemma poll_pending_ok s t ix started todo now o th' d' w :
  let th := PollPending ((ix, started) :: todo) now o in
  system_ok s → threads s !! t = Some th → locked (threads s) ix = false → advance cfg th w (dom_ s) = (th', d') →
  system_ok (System d' (<[t := th']> (threads s))).
Proof.
  intros th Hs Hth Hb Hadv. pose proof (so_domain _ Hs) as Hd. subst th. cbn [advance] in Hadv.
  destruct (stopping (dom_ s)).
  { injection Hadv as <- <-. eapply (system_quiet s t); [done|done|apply quiet_refl|done..]. }
  apply ended_eq in Hadv as [-> ->]. destruct (promote _ _ _ _ _ _) as [r d'] eqn:E.
  apply promote_effect in E as [[Hn Hl]|(g & full & primary & c & -> & Hl & Hc & Hin & Hst & Hf & Hby)]; [..|done].
  - cbn [fst snd]. eapply (system_local s t _ _ d' ix); [done|done|by right|exact Hl|..];
      destruct r as [[x|]|e]; try done; try (by destruct (Hn x)); by left.
  - cbn [fst snd]. eapply (system_local s t _ _ d' ix); [done|done|by right|exact Hl|done|by right|].
    intros g'. cbn [reserving]. rewrite counts_none. lia.
Qed.

Lemma poll_ok s t th th' d' w : system_ok s → threads s !! t = Some th → blocked th (threads s) = false →
  advance cfg th w (dom_ s) = (th', d') →
  match th with PollCall | PollObserve _ _ | PollPending _ _ _ | PollApply _ _ _ _ _ _ _ _ | PollSnapshot _ | PollExpand _ _ => True | _ => False end →
  system_ok (System d' (<[t := th']> (threads s))).
Proof.
  intros Hs Hth Hb Hadv Hkind. pose proof (so_domain _ Hs) as Hd.
  assert (∀ th'' d'', session_of th = None → quiet (dom_ s) d'' → thread_ok d'' th'' → session_of th'' = None →
    reserving th'' = reserving th → system_ok (System d'' (<[t := th'']> (threads s)))) as Hquiet by (intros; by eapply system_quiet).
  assert (∀ th'', session_of th = None → thread_ok (dom_ s) th'' → session_of th'' = None →
    reserving th'' = reserving th → system_ok (System (dom_ s) (<[t := th'']> (threads s)))) as Hstay
    by (intros; by apply Hquiet; [|apply quiet_refl|..]).
  destruct th as [| | | | | | | |todo now|[|[ix started] todo] now o| |now|[|[[ix fine] object] todo] now| | |];
    try done; try (by eapply poll_apply_ok); try (by eapply poll_pending_ok); cbn [advance] in Hadv.
  - destruct (stopping (dom_ s)); injection Hadv as <- <-; by apply Hstay.
  - injection Hadv as <- <-. by apply Hstay.
  - destruct (stopping (dom_ s)).
    + injection Hadv as <- <-. by apply Hstay.
    + apply ended_eq in Hadv as [-> ->].
      apply Hquiet; [done|apply sample_quiet|by destruct (sample_group_utilization _ _ _).1..].
  - injection Hadv as <- <-. by apply Hstay.
  - injection Hadv as <- <-. by apply Hstay.
  - destruct (stopping (dom_ s)).
    + injection Hadv as <- <-. by apply Hstay.
    + apply ended_eq in Hadv as [-> ->].
      apply Hquiet; [done|apply expand_quiet|by destruct (expand_call _ _ _ _ _ _ _).1..].
Qed.

(** The teardown runs when nobody is in a session, so nothing is reserved. *)
Lemma reserved_none ths g : existsb (λ th, bool_decide (is_Some (session_of th))) ths = false → reserved ths g = 0.
Proof.
  induction ths as [|th ths IH]; [done|]. intros [H1 H2]%orb_false_elim. apply bool_decide_eq_false in H1.
  unfold reserved. rewrite fmap_cons, zsum_cons. rewrite (IH H2 : zsum _ = 0).
  destruct th; try done; destruct H1; by eexists.
Qed.

Lemma nobody_inside ths u th : existsb (λ th, bool_decide (is_Some (session_of th))) ths = false → ths !! u = Some th →
  session_of th = None.
Proof.
  intros Hb Hu. destruct (session_of th) eqn:E; [|done]. exfalso. apply not_true_iff_false in Hb. apply Hb, existsb_exists.
  exists th. split; [by eapply list_elem_of_In, list_elem_of_lookup_2|]. apply bool_decide_eq_true_2. rewrite E. by eexists.
Qed.

Lemma thread_outside d d' th : session_of th = None → thread_ok d th → thread_ok d' th.
Proof. by destruct th. Qed.

Lemma cleared_ok d : domain_ok (finish_teardown true d) ∨ finish_teardown true d = d.
Proof.
  unfold finish_teardown. destruct (true && _); [left|by right]. split; try done.
  - cbn. split_and!; apply dict_empty_ok.
  - intros id ix. cbn. split; [done|]. by intros (? & ? & ?).
  - intros ix. split; cbn; try done; try (by intros [? ?]). by split; intros [? ?].
Qed.

Lemma teardown_ok s t th th' d' w : system_ok s → threads s !! t = Some th → blocked th (threads s) = false →
  advance cfg th w (dom_ s) = (th', d') → 0 <= group_max_active cfg →
  match th with TeardownCall _ | TeardownWait _ | Done _ => True | _ => False end →
  system_ok (System d' (<[t := th']> (threads s))).
Proof.
  intros Hs Hth Hb Hadv Hmax Hkind.
  destruct th as [| | | | | | | | | | | | |cancel|cancel|r]; try done; cbn [advance] in Hadv; injection Hadv as <- <-.
  - by eapply (system_quiet s t).
  - assert (system_ok (System (dom_ s) (<[t := Done (Ok RTornDown)]> (threads s)))) as Hstay
      by (eapply (system_quiet s t); [done|done|apply quiet_refl|done..]).
    destruct (cleared_ok (dom_ s)) as [Hd|E]; [|destruct cancel; [rewrite E|]; exact Hstay].
    unfold finish_teardown in *. destruct cancel; [|exact Hstay]. destruct (true && _); [|exact Hstay].
    destruct Hstay as [_ Ht Hu Hl Hc]. cbn [dom_ threads] in *. split; cbn [dom_ threads]; [done| |done| |done].
    + intros u y Hy. apply (thread_outside (dom_ s)); [|by eapply Ht].
      apply insert_cases in Hy as [[-> ->]|[Hne Hy]]; [done|]. by eapply nobody_inside.
    + intros g. unfold reserved. rewrite (zsum_insert _ _ _ (TeardownWait true)) by done.
      rewrite (reserved_none _ g Hb : zsum _ = 0). done.
  - eapply (system_quiet s t); [done|done|apply quiet_refl|done..].
Qed.

Lemma call_ok s th : system_ok s → entry th = true → system_ok (System (dom_ s) (threads s ++ [th])).
Proof.
  intros [Hd Ht Hu Hl Hc] He.
  assert (session_of th = None ∧ reserving th = None ∧ thread_ok (dom_ s) th) as (Hn & Hr & Hok).
  { destruct th; try done; cbn in *. by apply bool_decide_eq_true in He. }
  split; cbn [dom_ threads]; [done| | | |done].
  - intros u y [Hy|[_ Hy]]%lookup_app_Some; [by eapply Ht|]. by apply list_lookup_singleton_Some in Hy as [_ <-].
  - intros u1 u2 y1 y2 ix [H1|[_ H1]]%lookup_app_Some [H2|[_ H2]]%lookup_app_Some E1 E2; [by eapply Hu|..];
      repeat match goal with H : [_] !! _ = Some _ |- _ => apply list_lookup_singleton_Some in H as [_ <-] end; congruence.
  - intros g. rewrite Hl. unfold reserved. rewrite fmap_app, zsum_app. cbn. rewrite Hr, counts_none. lia.
Qed.

Lemma step_invariant ev s : 0 <= group_max_active cfg → system_ok s → system_ok (step ev s).
Proof.
  intros Hmax Hs. destruct ev as [th|t w]; cbn [step].
  - destruct (entry th) eqn:He; [|done]. by apply call_ok.
  - destruct (threads s !! t) as [th|] eqn:Hth; [|done]. destruct (blocked th (threads s)) eqn:Hb; [done|].
    destruct (advance cfg th w (dom_ s)) as [th' d'] eqn:Hadv.
    destruct th; first [by eapply acquire_ok|by eapply completion_ok|by eapply poll_ok|by eapply teardown_ok].
Qed.

Lemma run_invariant evs s : 0 <= group_max_active cfg → system_ok s → system_ok (run evs s).
Proof. intros Hmax. revert s. induction evs as [|ev evs IH]; intros s Hs; [done|]. by apply IH, step_invariant. Qed.

Lemma domain_init_ok times : 0 <= group_max_active cfg → system_ok (system_init times).
Proof.
  intros Hmax. split; cbn; try done. split; try done.
  - cbn. split_and!; apply dict_empty_ok.
  - intros id ix. cbn. split; [done|]. by intros (? & ? & ?).
  - intros ix. split; cbn; try done; try (by intros [? ?]). by split; intros [? ?].
Qed.

Lemma reachable_ok evs times : 0 <= group_max_active cfg → system_ok (run evs (system_init times)).
Proof. intros. by apply run_invariant, domain_init_ok. Qed.
End system.

(** ** Idle VMs *)

Lemma counts_nonneg o g : 0 <= counts o g.
Proof. unfold counts. case_decide; lia. Qed.

Lemma idle_view vm_of d : domain_ok vm_of d → ∀ ix, active_calls d !! ix = None → view d ix = Vm None None None false None None.
Proof.
  intros Hd ix Ha. pose proof (do_views _ _ Hd ix) as [V1 V2 V3 V4 V5 V6]. unfold view in *. cbn in *. rewrite Ha in *.
  assert (fine_masks d !! ix = None) as Hf by (apply eq_None_not_Some; intros [? ?]%V5; done).
  assert (pending_started d !! ix = None) as Hs by (apply eq_None_not_Some; intros [[? ?] _]%V3; done).
  rewrite Hf, Hs in *. f_equal.
  - apply eq_None_not_Some. intros H. by apply V2 in H as [? ?].
  - apply not_true_iff_false. by intros [[? ?] _]%V6.
  - apply eq_None_not_Some. intros H. by apply V4 in H as [? ?].
Qed.

Lemma idle_narrowed vm_of d : domain_ok vm_of d → call_keys d = ∅ → ∀ g, narrowed d g = 0.
Proof.
  intros Hd Hk g. assert (dempty (fine_masks d) = true) as E; [|unfold narrowed; by destruct (fine_masks d)].
  apply dempty_lookup. intros ix. destruct (active_calls d !! ix) as [c|] eqn:Ha.
  - exfalso. pose proof (do_views _ _ Hd ix) as [V1 _ _ _ _ _]. cbn in V1. apply V1 in Ha as Hne.
    apply set_choose_L in Hne as [id Hin]. assert (call_keys d !! id = Some ix) as E by (apply (do_keys _ _ Hd); eauto).
    by rewrite Hk in E.
  - pose proof (idle_view _ _ Hd ix Ha) as E. by injection E.
Qed.

Lemma idle_reserved ths : (∀ th, th ∈ ths → reserving th = None) → ∀ g, reserved ths g = 0.
Proof.
  intros Hr g. induction ths as [|th ths IH]; [done|]. unfold reserved. rewrite fmap_cons, zsum_cons.
  assert (reserved ths g = 0) as E by (apply IH; intros; apply Hr, list_elem_of_further; done).
  unfold reserved in E. rewrite E, (Hr th) by apply list_elem_of_here. done.
Qed.

(** ** Group loads *)

(** C30: at every point of every interleaving of acquisitions, completions, polls
    and the teardown, the load of a group is the number of VMs narrowed to it plus
    the number of assignments between their reservation and their publication,
    and it never exceeds the configured maximum. *)
Theorem groups_not_overcommitted (cfg : config) (vm_of : string → Z) (evs : list event) (times : cpu_times) (g : string)
    (Hmax : 0 <= group_max_active cfg) :
  let s := run cfg vm_of evs (system_init times) in
  0 <= narrowed (dom_ s) g ∧ 0 <= reserved (threads s) g ∧
  load_of (dom_ s) g = narrowed (dom_ s) g + reserved (threads s) g ∧ load_of (dom_ s) g <= group_max_active cfg.
Proof.
  intros s. pose proof (reachable_ok cfg vm_of evs times Hmax) as Hs. fold s in Hs. split_and!.
  - apply dsum_nonneg. intros k v _. apply counts_nonneg.
  - apply zsum_nonneg, Forall_forall. intros x (th & -> & _)%list_elem_of_fmap. apply counts_nonneg.
  - apply (so_load _ _ _ Hs).
  - apply (so_capacity _ _ _ Hs).
Qed.

(** In every reachable state an execution is registered exactly when it is
    one of the active calls of its VM; a VM with active calls is deferred,
    narrowed or bypassed, but never two of these, and an idle one is none of
    them; and when no call is registered and no operation is running, no group
    has load. *)
Theorem calls_consistent (cfg : config) (vm_of : string → Z) (evs : list event) (times : cpu_times)
    (Hmax : 0 <= group_max_active cfg) :
  let s := run cfg vm_of evs (system_init times) in let d := dom_ s in
  (∀ id ix, call_keys d !! id = Some ix ↔ ∃ c, active_calls d !! ix = Some c ∧ id ∈ c_ids c) ∧
  (∀ id ix, call_keys d !! id = Some ix → vm_of id = ix) ∧
  (∀ ix, vm_ok (view d ix)) ∧
  (∀ ix, active_calls d !! ix = None → view d ix = Vm None None None false None None) ∧
  (call_keys d = ∅ → (∀ th, th ∈ threads s → reserving th = None) → ∀ g, load_of d g = 0).
Proof.
  intros s d. pose proof (reachable_ok cfg vm_of evs times Hmax) as Hs. fold s in Hs. pose proof (so_domain _ _ _ Hs) as Hd.
  fold d in Hd. split_and!.
  - apply (do_keys _ _ Hd).
  - apply (do_vm _ _ Hd).
  - apply (do_views _ _ Hd).
  - apply (idle_view _ _ Hd).
  - intros Hk Hr g. rewrite (so_load _ _ _ Hs). fold d. rewrite (idle_narrowed _ _ Hd Hk), (idle_reserved _ Hr). done.
Qed.

(** ** The choice of a group *)

Lemma compare_bools_ok {A} (h : A → bool) : cmp_ok (λ a b, compare_bools (h a) (h b)).
Proof. split; [intros a b|intros a b c]; by destruct (h a), (h b); try destruct (h c). Qed.

Lemma group_order_ok d ix u : cmp_ok (group_order d ix u).
Proof. unfold group_order. auto using cmp_ok_lex, cmp_ok_Z, cmp_ok_Q, cmp_ok_string, compare_bools_ok. Qed.

Lemma sample_preferred groups o d : preferred_groups (sample_group_utilization groups o d).2 = preferred_groups d.
Proof.
  unfold sample_group_utilization. rewrite bind_get. destruct (Qltb _ _); [done|].
  unfold mbind, M_bind, put, lift, mret, M_ret, modify. by destruct (utilizations o groups ∅).
Qed.

Lemma same_order d d' ix u : quiet d d' → preferred_groups d' = preferred_groups d → group_order d' ix u = group_order d ix u.
Proof. intros Hq Hp. unfold group_order, load_of. by rewrite (qu_load _ _ Hq), Hp. Qed.

(** The group chosen for a call is one of its VM's groups below the maximum,
    and among those it is least: the smallest load, then the group the VM used
    before, then a known and low utilization, then the name; only its load
    grows, by one.  A call is sent to the full mask only when every group of its
    VM is at the maximum, and the choice fails only when the sample does. *)
Theorem assign_choice (cfg : config) (ix : Z) (groups : list string) (ob : observation) (d d' : domain) (o : outcome (option string))
    (Hrun : assign_choose cfg ix groups ob d = (o, d')) :
  match o with
  | Ok (Some g) =>
      (∃ u, (sample_group_utilization groups ob d).1 = Ok u ∧
        ∀ g', g' ∈ groups → load_of d g' < group_max_active cfg → cmp_le (group_order d ix u) g g') ∧
      g ∈ groups ∧ load_of d g < group_max_active cfg ∧ ∀ g', load_of d' g' = load_of d g' + counts (Some g) g'
  | Ok None => (∀ g, g ∈ groups → group_max_active cfg <= load_of d g) ∧ quiet d d'
  | Raise e => (sample_group_utilization groups ob d).1 = Raise e ∧ quiet d d'
  end.
Proof.
  revert Hrun. unfold assign_choose, mbind, M_bind. pose proof (sample_quiet groups ob d) as Hq.
  pose proof (sample_preferred groups ob d) as Hp.
  destruct (sample_group_utilization groups ob d) as [[u|e] d1]; cbn [fst snd] in *; [|by intros [= <- <-]].
  unfold get. rewrite (same_order d d1) by done.
  assert (∀ g, below_capacity cfg d1 g = true ↔ load_of d g < group_max_active cfg) as Hb
    by (intros g; unfold below_capacity; rewrite (quiet_load_of d d1) by done; apply Z.ltb_lt).
  destruct (min_by _ _) as [g|] eqn:Hm; unfold put, mret, M_ret; intros [= <- <-].
  - apply min_by_spec in Hm as [Hin Hleast]; [|apply group_order_ok]. apply list_elem_of_filter in Hin as [Hlt Hin].
    rewrite Hb in Hlt. split_and!; [|done|done|].
    + exists u. split; [done|]. intros g' Hg' Hlt'. rewrite Forall_forall in Hleast. apply Hleast.
      apply list_elem_of_filter. by rewrite Hb.
    + intros g'. unfold load_of at 1. cbn [with_masks group_load]. rewrite (quiet_load_of d d1) by done.
      unfold counts. case_decide as E.
      * injection E as <-. by rewrite dict_lookup_insert_eq.
      * rewrite dict_lookup_insert_ne by congruence. change (default 0 (group_load d1 !! g')) with (load_of d1 g').
        rewrite (quiet_load_of d d1) by done. lia.
  - split; [|done]. intros g Hg. destruct (Z.le_gt_cases (group_max_active cfg) (load_of d g)); [done|].
    assert (is_Some (min_by (group_order d ix u) (filter (λ g, below_capacity cfg d1 g = true) groups))) as [? E];
      [|by rewrite E in Hm].
    apply min_by_some. intros E. assert (g ∈ filter (λ g, below_capacity cfg d1 g = true) groups) as Hin
      by (apply list_elem_of_filter; rewrite Hb; split; [lia|done]).
    rewrite E in Hin. by apply elem_of_nil in Hin.
Qed.

(** ** The last completion *)

Definition is_applied (f : fate) : bool := match f with Applied => true | _ => false end.
Lemma is_applied_eq f : is_applied f = true → f = Applied.
Proof. by destruct f. Qed.

Lemma set_threads_spec io req tids applied stale af applied' stale' af' :
  set_threads io req tids applied stale af = (Ok (applied', stale'), af') →
  applied' = applied ++ filter (λ tid, is_applied (fate_of io tid) = true) tids ∧
  Forall (λ tid, fate_of io tid = Applied ∨ fate_of io tid = Gone) tids ∧
  (∀ tid, fate_of io tid = Applied → tid ∈ tids ∨ af !! tid = Some req → af' !! tid = Some req).
Proof.
  revert applied stale af. induction tids as [|tid tids IH]; intros applied stale af; cbn [set_threads].
  { intros [= <- <- <-]. rewrite app_nil_r. split_and!; [done..|]. intros tid _ [H|H]; [by apply elem_of_nil in H|done]. }
  destruct (fate_of io tid) eqn:Ef; [intros (-> & H2 & H3)%IH|intros (-> & H2 & H3)%IH|done|done].
  - rewrite filter_cons_True, <- app_assoc by (by rewrite Ef). split_and!; [done|by constructor; [left|]|].
    intros x Hx Hor. apply H3; [done|]. destruct (decide (x = tid)) as [->|Hne]; [right; by rewrite lookup_insert_eq|].
    rewrite lookup_insert_ne by done. destruct Hor as [[?|?]%elem_of_cons|?]; auto; done.
  - rewrite filter_cons_False by (by rewrite Ef). split_and!; [done|by constructor; [right|]|].
    intros x Hx Hor. apply H3; [done|]. destruct Hor as [[->|?]%elem_of_cons|?]; [congruence|auto..].
Qed.

Lemma apply_spec ix mask io d applied d' : apply_thread_affinity ix mask true io d = (Ok applied, d') →
  ∃ cpus tids, parse_cpu_list mask = Ok cpus ∧ (vcpu_threads d !! ix = Some tids ∨ discovered io = Ok tids) ∧
    applied = filter (λ tid, is_applied (fate_of io tid) = true) tids ∧ applied ≠ [] ∧
    Forall (λ tid, fate_of io tid = Applied ∨ fate_of io tid = Gone) tids ∧ ∀ tid, tid ∈ applied → affinity d' !! tid = Some cpus.
Proof.
  unfold apply_thread_affinity. rewrite bind_get, bind_lift. destruct (parse_cpu_list mask) as [cpus|]; [|done].
  intros Hrun. exists cpus.
  assert (∃ tids d1, (vcpu_threads d !! ix = Some tids ∨ discovered io = Ok tids) ∧
    (let '(o, af) := set_threads io cpus tids [] false (affinity d1) in
    put (with_threads (vcpu_threads d1) af d1) ;;
    '(applied, stale) ← lift o;
    (if stale : bool then modify (λ d, with_threads (delete ix (vcpu_threads d)) (affinity d) d) else mret tt) ;;
    raise_if (true && bool_decide (applied = [])) (RuntimeError "no vCPU threads available for topology placement") ;;
    mret applied) d1 = (Ok applied, d')) as (tids & d1 & Htids & Hset).
  { revert Hrun. destruct (vcpu_threads d !! ix) as [tids|].
    - rewrite bool_decide_true by (by eexists). intros Hrun. exists tids, d. split; [by left|exact Hrun].
    - rewrite bind_lift. destruct (discovered io) as [tids|]; [|done]. rewrite bool_decide_false by (by intros [? ?]).
      cbn [orb]. case_bool_decide; intros Hrun; [exists tids, d|exists tids, (with_threads (<[ix:=tids]> (vcpu_threads d)) (affinity d) d)];
        (split; [by right|exact Hrun]). }
  clear Hrun. exists tids. destruct (set_threads io cpus tids [] false (affinity d1)) as [[[ap stale]|e] af] eqn:Es; [|done].
  apply set_threads_spec in Es as (-> & H2 & H3). cbn [app] in *. revert Hset.
  unfold mbind, M_bind, put, lift, raise_if, raise, mret, M_ret, modify.
  destruct stale; (case_bool_decide as Hne; cbn [andb]; [done|intros [= <- <-]]); split_and!; try done;
    intros tid [?%is_applied_eq ?]%list_elem_of_filter; apply H3; [done|by left|done|by left].
Qed.

(** When the last call of a narrowed VM completes, every vCPU thread that is
    still there has the full mask again, the VM holds nothing any more and its
    group's load drops by one; when an affinity call fails, the call stays
    registered, the VM stays narrowed and its group keeps its load. *)
Theorem restore_or_keep (cfg : config) (vm_of : string → Z) (ix : Z) (id fine : string) (c : calls) (io : affinity_io)
    (d d' : domain) (o : outcome result)
    (Hd : domain_ok vm_of d) (Hc : active_calls d !! ix = Some c) (Hids : c_ids c = {[id]}) (Hf : fine_masks d !! ix = Some fine)
    (Hrun : release_restore ix id io d = (o, d')) :
  match o with
  | Ok r =>
      ∃ full applied cpus tids, r = RRestored fine full applied ∧ full_masks d !! ix = Some full ∧ parse_cpu_list full = Ok cpus ∧
        (vcpu_threads d !! ix = Some tids ∨ discovered io = Ok tids) ∧ applied ≠ [] ∧
        (∀ tid, tid ∈ tids → fate_of io tid = Gone ∨ affinity d' !! tid = Some cpus) ∧
        view d' ix = Vm None None None false None None ∧ call_keys d' !! id = None ∧
        ∀ g, load_of d' g = load_of d g - counts (Some fine) g
  | Raise _ => quiet d d'
  end.
Proof.
  revert Hrun. unfold release_restore. rewrite bind_get.
  destruct (full_masks d !! ix) as [full|] eqn:Hfull; [|by intros [= <- <-]].
  pose proof (apply_quiet ix full true io d) as Hq. unfold mbind at 1, M_bind at 1.
  destruct (apply_thread_affinity ix full true io d) as [[applied|e] d1] eqn:Ea; cbn [snd] in Hq; [|by intros [= <- <-]].
  rewrite bind_get, (qu_fine _ _ Hq), Hf. intros [= <- <-].
  apply apply_spec in Ea as (cpus & tids & Hcpus & Htids & -> & Hne & Hfates & Haff).
  exists full, (filter (λ tid, is_applied (fate_of io tid) = true) tids), cpus, tids.
  pose proof (quiet_domain _ _ _ Hq Hd) as Hd1.
  pose proof (restore_local cfg vm_of d1 ix id c fine Hd1) as Hl. rewrite (quiet_active d), (qu_fine _ _ Hq) in Hl by done.
  pose proof (do_dicts _ _ Hd1) as (Hk & Hac & _).
  split_and!; [done..| | | |].
  - intros tid Hin. rewrite Forall_forall in Hfates. destruct (Hfates tid Hin) as [Hap|]; [|by left]. right.
    apply Haff. apply list_elem_of_filter. by rewrite Hap.
  - apply (idle_view vm_of); [apply (Hl Hc Hids Hf)|]. by apply dict_lookup_delete_eq.
  - by apply dict_lookup_delete_eq.
  - intros g. rewrite <- (quiet_load_of d d1) by done. unfold counts. unfold load_of at 1.
    cbn [with_calls with_pressure with_masks group_load]. case_decide as E.
    + injection E as <-. by rewrite dict_lookup_insert_eq.
    + rewrite dict_lookup_insert_ne by congruence. unfold load_of. lia.
Qed.

(** ** Concrete runs *)

Definition demo_cfg : config := Config {[1; 2; 3]} ([(1, (Some "0-7", None)); (2, (Some "0-7", None)); (3, (Some "0-7", None))]%string : list _)
  1 0 false (1 # 2) 2 demo_fs.
Definition demo_vm (id : string) : Z := if (id =? "a")%string then 1 else if (id =? "b")%string then 2 else 3.
Definition demo_io : affinity_io := AffinityIO (Ok [100; 101]) (λ _, Applied).
Definition demo_world (t : Q) : world := World t ∅ demo_io demo_io (Some 0) (ExpandIO (Ok true) (Ok 0) demo_io).
Definition demo_call (t : nat) (ix : Z) (id : string) : list event :=
  [Call (AcquireCall ix id 2); Advance t (demo_world 1); Advance t (demo_world 1); Advance t (demo_world 1)].

(** Two VMs have reserved a group each, the second has not published it; the
    third finds all groups full. *)
Definition demo_run : list event :=
  demo_call 0 1 "a" ++ [Advance 0 (demo_world 1)] ++ demo_call 1 2 "b" ++ demo_call 2 3 "c".

Lemma groups_not_overcommitted_witness :
  let s := run demo_cfg demo_vm demo_run (system_init ∅) in
  (0 <= narrowed (dom_ s) "4,6" ∧ 0 <= reserved (threads s) "4,6" ∧
   load_of (dom_ s) "4,6" = narrowed (dom_ s) "4,6" + reserved (threads s) "4,6" ∧
   load_of (dom_ s) "4,6" <= group_max_active demo_cfg) ∧
  threads s = [Done (Ok (RAssigned "0,2" [100; 101])); AcquireApply 2 "b" "4,6" "0-7"; Done (Ok RBypassed)] ∧
  narrowed (dom_ s) "0,2" = 1 ∧ reserved (threads s) "4,6" = 1.
Proof.
  split; [apply (groups_not_overcommitted demo_cfg demo_vm demo_run ∅ "4,6"); vm_compute; done|].
  vm_compute. split_and!; reflexivity.
Defined.

(** Both calls are given back: no group has load. *)
Definition demo_end : list event :=
  demo_call 0 1 "a" ++ [Advance 0 (demo_world 1); Call (AcquireCall 1 "a" 2); Advance 1 (demo_world 2);
    Call (ReleaseCall "a"); Advance 2 (demo_world 3); Advance 2 (demo_world 3); Advance 2 (demo_world 3)].
Lemma calls_consistent_witness :
  let s := run demo_cfg demo_vm demo_end (system_init ∅) in
  (∀ g, load_of (dom_ s) g = 0) ∧ affinity (dom_ s) !! 100 = Some (list_to_set (seqZ 0 8)) ∧
  threads s !! 2%nat = Some (Done (Ok (RRestored "0,2" "0-7" [100; 101]))).
Proof.
  split; [|vm_compute; split; reflexivity].
  apply (calls_consistent demo_cfg demo_vm demo_end ∅); [vm_compute; done|vm_compute; reflexivity|].
  assert (Forall (λ th, reserving th = None) (threads (run demo_cfg demo_vm demo_end (system_init ∅)))) as H
    by (vm_compute; repeat constructor).
  by apply Forall_forall.
Defined.

(** One group is full: the call gets the other. *)
Definition demo_domain : domain := dom_ (run demo_cfg demo_vm (demo_call 0 1 "a" ++ [Advance 0 (demo_world 1)]) (system_init ∅)).
Lemma assign_choice_witness :
  ∃ g d', assign_choose demo_cfg 2 ["0,2"; "4,6"]%string (Observation ∅ ∅ 2) demo_domain = (Ok (Some g), d') ∧ g = "4,6"%string ∧
    load_of demo_domain g < group_max_active demo_cfg ∧ load_of d' g = load_of demo_domain g + counts (Some g) g.
Proof.
  destruct (assign_choose demo_cfg 2 ["0,2"; "4,6"]%string (Observation ∅ ∅ 2) demo_domain) as [o d'] eqn:E.
  assert (o = Ok (Some "4,6"%string)) as ->.
  { change o with (o, d').1. rewrite <- E. vm_compute. reflexivity. }
  exists "4,6"%string, d'. pose proof (assign_choice demo_cfg 2 _ _ _ _ _ E) as (_ & _ & Hlt & Hload).
  split_and!; [reflexivity|reflexivity|exact Hlt|apply Hload].
Defined.

Lemma restore_or_keep_witness :
  ∃ r d', release_restore 1 "a" demo_io demo_domain = (Ok r, d') ∧ r = RRestored "0,2" "0-7" [100; 101] ∧
    call_keys d' !! "a"%string = None ∧ view d' 1 = Vm None None None false None None.
Proof.
  destruct (release_restore 1 "a" demo_io demo_domain) as [o d'] eqn:E.
  assert (o = Ok (RRestored "0,2" "0-7" [100; 101])) as ->.
  { change o with (o, d').1. rewrite <- E. vm_compute. reflexivity. }
  exists (RRestored "0,2" "0-7" [100; 101]), d'.
  assert (domain_ok demo_vm demo_domain) as Hd.
  { apply (so_domain demo_cfg demo_vm (run demo_cfg demo_vm (demo_call 0 1 "a" ++ [Advance 0 (demo_world 1)]) (system_init ∅))),
      reachable_ok. vm_compute. discriminate. }
  assert (active_calls demo_domain !! 1 = Some (Calls 0 {["a"%string]})) as Hc by (vm_compute; reflexivity).
  assert (fine_masks demo_domain !! 1 = Some "0,2"%string) as Hf by (vm_compute; reflexivity).
  pose proof (restore_or_keep demo_cfg demo_vm 1 "a" "0,2" _ demo_io demo_domain d' _ Hd Hc eq_refl Hf E)
    as (full & ap & cs & tids & _ & _ & _ & _ & _ & _ & Hv & Hk & _).
  split_and!; [reflexivity|reflexivity|exact Hk|exact Hv].
Defined.
