(* ===== verification/PolicyExecutor.v ===== *)
(** * The coalescing event executor (src/clawbox/experiments/policy.py)

    [PolicyEventExecutor.submit_coalesced] keeps one job per key and at most
    one trailing edge.  The blocks under [self._lock] are [submit_coalesced],
    [next_operation], [record_failure] and [finish_or_continue]; a worker runs
    [_run_coalesced] as the sequence start, operation, (failure), decision. *)
From S2P Require Import Prelude Dict.

Section executor.
Context {K : Type} `{!EqDecision K}.

(** An operation with its arguments. *)
Definition call := nat.

Record entry := Entry { e_operation : call; e_dirty : bool; e_future : nat }.

Record executor := Executor {
  coalesced : dict K entry;
  failures : list exn;
  submitted_count : Z;
  coalesced_count : Z;
  executed_count : Z;
  next_future : nat;
}.

Definition executor_init : executor := Executor ∅ [] 0 0 0 0%nat.

(** [submit_coalesced]: the future, and whether a job was submitted for it. *)
Definition submit_coalesced (k : K) (op : call) (s : executor) : (nat * bool) * executor :=
  match coalesced s !! k with
  | Some e =>
      ((e_future e, false),
       Executor (<[k := Entry op true (e_future e)]> (coalesced s)) (failures s)
         (submitted_count s + 1) (coalesced_count s + 1) (executed_count s) (next_future s))
  | None =>
      ((next_future s, true),
       Executor (<[k := Entry op false (next_future s)]> (coalesced s)) (failures s)
         (submitted_count s + 1) (coalesced_count s) (executed_count s) (S (next_future s)))
  end.

(** The first block of the loop of [_run_coalesced]. *)
Definition next_operation (k : K) : M executor call :=
  s ← get;
  match coalesced s !! k with
  | None => raise (KeyError "coalesced")
  | Some e =>
      put (Executor (<[k := Entry (e_operation e) false (e_future e)]> (coalesced s)) (failures s)
             (submitted_count s) (coalesced_count s) (executed_count s + 1) (next_future s)) ;;
      mret (e_operation e)
  end.

Definition record_failure (e : exn) (s : executor) : executor :=
  Executor (coalesced s) (failures s ++ [e]) (submitted_count s) (coalesced_count s)
    (executed_count s) (next_future s).

(** The last block: [true] when the loop continues. *)
Definition finish_or_continue (k : K) : M executor bool :=
  s ← get;
  match coalesced s !! k with
  | None => raise (KeyError "coalesced")
  | Some e =>
      if e_dirty e then mret true
      else
        put (Executor (delete k (coalesced s)) (failures s) (submitted_count s)
               (coalesced_count s) (executed_count s) (next_future s)) ;;
        mret false
  end.

(** [check]: the first failure resurfaces. *)
Definition check (s : executor) : outcome unit :=
  match failures s with
  | [] => Ok tt
  | _ => Raise (RuntimeError "coalesced policy event failed")
  end.

(** [metrics] *)
Definition metrics (s : executor) : Z * Z * Z * nat * nat :=
  (submitted_count s, coalesced_count s, executed_count s, length (coalesced s : list _),
   length (failures s)).

(** ** Workers *)

Inductive job_phase :=
  | Queued                  (** before the first block, also when continuing *)
  | Operating (op : call)   (** [operation(...)] runs *)
  | Deciding (op : call).   (** it returned; before the last block *)

Record job := Job { j_key : K; j_phase : job_phase }.

(** The pool's jobs by future, with the last call submitted and the last one
    started for each key. *)
Record system := System {
  exec : executor;
  jobs : gmap nat job;
  submitted : dict K call;
  started : dict K call;
}.

Definition system_init : system := System executor_init ∅ ∅ ∅.

Inductive exec_event :=
  | Submit (k : K) (op : call)
  | Start (f : nat)
  | Return (f : nat) (o : outcome unit)
  | Decide (f : nat).

Definition exec_step (e : exec_event) (s : system) : option system :=
  match e with
  | Submit k op =>
      let '((f, new), x) := submit_coalesced k op (exec s) in
      Some (System x (if new then <[f := Job k Queued]> (jobs s) else jobs s)
              (<[k := op]> (submitted s)) (started s))
  | Start f =>
      j ← jobs s !! f;
      match j_phase j, next_operation (j_key j) (exec s) with
      | Queued, (Ok op, x) =>
          Some (System x (<[f := Job (j_key j) (Operating op)]> (jobs s)) (submitted s)
                  (<[j_key j := op]> (started s)))
      | _, _ => None
      end
  | Return f o =>
      j ← jobs s !! f;
      match j_phase j with
      | Operating op =>
          Some (System (match o with Ok _ => exec s | Raise e => record_failure e (exec s) end)
                  (<[f := Job (j_key j) (Deciding op)]> (jobs s)) (submitted s) (started s))
      | _ => None
      end
  | Decide f =>
      j ← jobs s !! f;
      match j_phase j, finish_or_continue (j_key j) (exec s) with
      | Deciding _, (Ok true, x) =>
          Some (System x (<[f := Job (j_key j) Queued]> (jobs s)) (submitted s) (started s))
      | Deciding _, (Ok false, x) =>
          Some (System x (delete f (jobs s)) (submitted s) (started s))
      | _, _ => None
      end
  end.

Fixpoint exec_run (es : list exec_event) (s : system) : option system :=
  match es with
  | [] => Some s
  | e :: es' => s' ← exec_step e s; exec_run es' s'
  end.

(** A job has picked up the call it runs. *)
Definition running (p : job_phase) (op : call) : Prop := p = Operating op ∨ p = Deciding op.

Record system_ok (s : system) : Prop := SystemOk {
  ok_dict : dict_ok (coalesced (exec s));
  (** Exactly the active keys have a job, and it is the entry's. *)
  ok_job : ∀ f j, jobs s !! f = Some j →
    ∃ e, coalesced (exec s) !! j_key j = Some e ∧ e_future e = f;
  ok_entry : ∀ k e, coalesced (exec s) !! k = Some e →
    ∃ j, jobs s !! e_future e = Some j ∧ j_key j = k;
  ok_fresh : ∀ k e, coalesced (exec s) !! k = Some e → (e_future e < next_future (exec s))%nat;
  (** The entry holds the latest submission; once picked up and clean, it is
      also the latest start. *)
  ok_latest : ∀ k e, coalesced (exec s) !! k = Some e → submitted s !! k = Some (e_operation e);
  ok_clean : ∀ k e j op, coalesced (exec s) !! k = Some e → jobs s !! e_future e = Some j →
    running (j_phase j) op → e_dirty e = false → started s !! k = Some (e_operation e);
  ok_idle : ∀ k, coalesced (exec s) !! k = None → started s !! k = submitted s !! k;
}.

Lemma system_init_ok : system_ok system_init.
Proof.
  split; try done. apply dict_empty_ok.
Qed.

Lemma submit_ok k op s s' : system_ok s → exec_step (Submit k op) s = Some s' → system_ok s'.
Proof.
  intros [H1 H2 H3 H4 H5 H6 H7] E. simpl in E. unfold submit_coalesced in E.
  destruct (coalesced (exec s) !! k) as [e|] eqn:Ek; simplify_eq/=.
  - split; simpl.
    + by apply insert_ok.
    + intros f j Ej. destruct (H2 f j Ej) as (e' & Ee & <-).
      destruct (decide (k = j_key j)) as [->|]; [rewrite dict_lookup_insert_eq|rewrite dict_lookup_insert_ne by done];
        [simplify_eq|]; eauto.
    + intros k' e' Ee. destruct (decide (k = k')) as [<-|].
      * rewrite dict_lookup_insert_eq in Ee. simplify_eq/=. eauto.
      * rewrite dict_lookup_insert_ne in Ee by done. eauto.
    + intros k' e' Ee. destruct (decide (k = k')) as [<-|].
      * rewrite dict_lookup_insert_eq in Ee. simplify_eq/=. eauto.
      * rewrite dict_lookup_insert_ne in Ee by done. eauto.
    + intros k' e' Ee. destruct (decide (k = k')) as [<-|].
      * rewrite dict_lookup_insert_eq in Ee. rewrite dict_lookup_insert_eq. by simplify_eq/=.
      * rewrite dict_lookup_insert_ne in Ee by done. rewrite dict_lookup_insert_ne by done. eauto.
    + intros k' e' j op' Ee Ej Hr Hd. destruct (decide (k = k')) as [<-|].
      * rewrite dict_lookup_insert_eq in Ee. by simplify_eq/=.
      * rewrite dict_lookup_insert_ne in Ee by done. eauto.
    + intros k' Ee. destruct (decide (k = k')) as [<-|].
      * by rewrite dict_lookup_insert_eq in Ee.
      * rewrite dict_lookup_insert_ne in Ee by done. rewrite dict_lookup_insert_ne by done. eauto.
  - set (f0 := next_future (exec s)) in *.
    assert (Hj : jobs s !! f0 = None).
    { destruct (jobs s !! f0) as [j|] eqn:Ej; [|done].
      destruct (H2 _ _ Ej) as (e & Ee & Hf). specialize (H4 _ _ Ee). lia. }
    split; simpl.
    + by apply insert_ok.
    + intros f j [[<- <-]|[Hf Ej]]%lookup_insert_Some; simpl.
      * rewrite dict_lookup_insert_eq. eauto.
      * destruct (H2 f j Ej) as (e & Ee & He). exists e. split; [|done].
        rewrite dict_lookup_insert_ne; [done|congruence].
    + intros k' e' Ee. destruct (decide (k = k')) as [<-|].
      * rewrite dict_lookup_insert_eq in Ee. simplify_eq/=. rewrite lookup_insert_eq. eauto.
      * rewrite dict_lookup_insert_ne in Ee by done. destruct (H3 _ _ Ee) as (j & Ej & Hk).
        specialize (H4 _ _ Ee). rewrite lookup_insert_ne by lia. eauto.
    + intros k' e' Ee. destruct (decide (k = k')) as [<-|].
      * rewrite dict_lookup_insert_eq in Ee. simplify_eq/=. lia.
      * rewrite dict_lookup_insert_ne in Ee by done. specialize (H4 _ _ Ee). lia.
    + intros k' e' Ee. destruct (decide (k = k')) as [<-|].
      * rewrite dict_lookup_insert_eq in Ee. rewrite dict_lookup_insert_eq. by simplify_eq/=.
      * rewrite dict_lookup_insert_ne in Ee by done. rewrite dict_lookup_insert_ne by done. eauto.
    + intros k' e' j op' Ee Ej Hr Hd. destruct (decide (k = k')) as [<-|].
      * rewrite dict_lookup_insert_eq in Ee. simplify_eq/=. rewrite lookup_insert_eq in Ej.
        simplify_eq/=. by destruct Hr.
      * rewrite dict_lookup_insert_ne in Ee by done. pose proof (H4 _ _ Ee).
        rewrite lookup_insert_ne in Ej by lia. eauto.
    + intros k' Ee. destruct (decide (k = k')) as [<-|].
      * by rewrite dict_lookup_insert_eq in Ee.
      * rewrite dict_lookup_insert_ne in Ee by done. rewrite dict_lookup_insert_ne by done. eauto.
Qed.

(** A step of a job that keeps its key's entry, up to the dirty flag. *)
Lemma job_step_ok s f j e p d x st :
  system_ok s → jobs s !! f = Some j → coalesced (exec s) !! j_key j = Some e →
  coalesced x = <[j_key j := Entry (e_operation e) d (e_future e)]> (coalesced (exec s)) →
  next_future x = next_future (exec s) →
  (∀ k, k ≠ j_key j → st !! k = started s !! k) →
  (∀ op, running p op → d = false → st !! j_key j = Some (e_operation e)) →
  system_ok (System x (<[f := Job (j_key j) p]> (jobs s)) (submitted s) st).
Proof.
  intros [H1 H2 H3 H4 H5 H6 H7] Ej Ee Hx Hn Hst Hd.
  destruct (H2 f j Ej) as (e0 & Ee0 & Hf). simplify_eq.
  split; simpl; rewrite ?Hx, ?Hn.
  - by apply insert_ok.
  - intros f' j' [[<- <-]|[Hf' Ej']]%lookup_insert_Some; simpl.
    + rewrite dict_lookup_insert_eq. eauto.
    + destruct (H2 f' j' Ej') as (e' & Ee' & He'). exists e'. split; [|done].
      rewrite dict_lookup_insert_ne; [done|]. intros Hk. rewrite <- Hk in Ee'. by simplify_eq.
  - intros k' e' Ee'. destruct (decide (j_key j = k')) as [<-|].
    + rewrite dict_lookup_insert_eq in Ee'. simplify_eq/=. rewrite lookup_insert_eq. eauto.
    + rewrite dict_lookup_insert_ne in Ee' by done. destruct (H3 _ _ Ee') as (j' & Ej' & Hk').
      rewrite lookup_insert_ne; [eauto|]. intros E. rewrite <- E in Ej'. by simplify_eq.
  - intros k' e' Ee'. destruct (decide (j_key j = k')) as [<-|].
    + rewrite dict_lookup_insert_eq in Ee'. simplify_eq/=. eauto.
    + rewrite dict_lookup_insert_ne in Ee' by done. eauto.
  - intros k' e' Ee'. destruct (decide (j_key j = k')) as [<-|].
    + rewrite dict_lookup_insert_eq in Ee'. simplify_eq/=. eauto.
    + rewrite dict_lookup_insert_ne in Ee' by done. eauto.
  - intros k' e' j' op' Ee' Ej' Hr Hcl. destruct (decide (j_key j = k')) as [<-|Hne].
    + rewrite dict_lookup_insert_eq in Ee'. simplify_eq/=. rewrite lookup_insert_eq in Ej'.
      simplify_eq/=. eauto.
    + rewrite dict_lookup_insert_ne in Ee' by done. rewrite Hst by done.
      destruct (H3 _ _ Ee') as (j2 & Ej2 & Hk2).
      rewrite lookup_insert_ne in Ej'; [eauto|]. intros E. rewrite <- E in Ej2. by simplify_eq.
  - intros k' Ee'. destruct (decide (j_key j = k')) as [<-|Hne].
    + by rewrite dict_lookup_insert_eq in Ee'.
    + rewrite dict_lookup_insert_ne in Ee' by done. rewrite Hst by done. eauto.
Qed.

Lemma retire_job_ok s f j e x :
  system_ok s → jobs s !! f = Some j → coalesced (exec s) !! j_key j = Some e →
  coalesced x = delete (j_key j) (coalesced (exec s)) → next_future x = next_future (exec s) →
  e_dirty e = false → (∃ op, running (j_phase j) op) →
  system_ok (System x (delete f (jobs s)) (submitted s) (started s)).
Proof.
  intros [H1 H2 H3 H4 H5 H6 H7] Ej Ee Hx Hn Hd [op Hr].
  destruct (H2 f j Ej) as (e0 & Ee0 & Hf). simplify_eq.
  assert (Hst : started s !! j_key j = submitted s !! j_key j)
    by (rewrite (H5 _ _ Ee); eauto).
  split; simpl; rewrite ?Hx, ?Hn.
  - by apply delete_ok.
  - intros f' j' [Hf' Ej']%lookup_delete_Some. destruct (H2 f' j' Ej') as (e' & Ee' & He').
    exists e'. split; [|done]. rewrite dict_lookup_delete_ne; [done|].
    intros Hk. rewrite <- Hk in Ee'. by simplify_eq.
  - intros k' e' [Hk Ee']%dict_lookup_delete_Some; [|done].
    destruct (H3 _ _ Ee') as (j' & Ej' & Hk'). exists j'. split; [|done].
    rewrite lookup_delete_ne; [done|]. intros E. rewrite <- E in Ej'. by simplify_eq.
  - intros k' e' [Hk Ee']%dict_lookup_delete_Some; [|done]. eauto.
  - intros k' e' [Hk Ee']%dict_lookup_delete_Some; [|done]. eauto.
  - intros k' e' j' op' [Hk Ee']%dict_lookup_delete_Some [_ Ej']%lookup_delete_Some; [|done]. eauto.
  - intros k' Ee'. destruct (decide (j_key j = k')) as [<-|Hne]; [done|].
    rewrite dict_lookup_delete_ne in Ee' by done. eauto.
Qed.

Lemma exec_step_ok e s s' : system_ok s → exec_step e s = Some s' → system_ok s'.
Proof.
  intros Hs E. destruct e as [k op|f|f o|f]; [by eapply submit_ok| | |]; simpl in E.
  all: destruct (jobs s !! f) as [j|] eqn:Ej; [|done]; simpl in E.
  all: destruct (ok_job s Hs f j Ej) as (e & Ee & Hf).
  - destruct (j_phase j); try done. unfold next_operation, mbind, M_bind, get, put, mret, M_ret in E.
    rewrite Ee in E. simplify_eq/=. eapply (job_step_ok s _ j e); eauto; simpl.
    + intros k Hk. by rewrite dict_lookup_insert_ne.
    + intros. apply dict_lookup_insert_eq.
  - destruct (j_phase j) as [|op|] eqn:Ep; try done. simplify_eq.
    apply (job_step_ok s _ j e (Deciding op) (e_dirty e)); auto.
    + rewrite insert_id; [by destruct o|]. rewrite Ee. by destruct e.
    + by destruct o.
    + intros op' _ Hd. eapply (ok_clean s Hs); eauto. rewrite Ep. by left.
  - destruct (j_phase j) as [| |op] eqn:Ep; try done.
    unfold finish_or_continue, mbind, M_bind, get, put, mret, M_ret in E. rewrite Ee in E.
    destruct (e_dirty e) eqn:Ed; simplify_eq/=.
    + apply (job_step_ok s _ j e Queued true); auto.
      * rewrite insert_id; [done|]. rewrite Ee. destruct e; simpl in *. by subst.
      * by intros op' [?|?].
    + eapply (retire_job_ok s _ j e); eauto. exists op. rewrite Ep. by right.
Qed.

Lemma exec_run_ok es s s' : system_ok s → exec_run es s = Some s' → system_ok s'.
Proof.
  revert s. induction es as [|e es IH]; intros s Hs Hr; simpl in Hr; [by simplify_eq|].
  destruct (exec_step e s) as [s1|] eqn:E; [|done]. simpl in Hr.
  by eapply IH; [eapply exec_step_ok|].
Qed.

(** Coalescing is single-flight and never loses the trailing edge.  In
    every interleaving of submissions and workers, failing operations
    included, two jobs never work on the same key, a key with an active entry
    always has its job (so a returned future completes), and whenever a key is
    idle its last submitted call was the last one started; while a job runs
    without a dirty mark, it was started with the latest submission. *)
Theorem coalesced_trailing_edge es s :
  exec_run es system_init = Some s →
  (∀ f f' j j', jobs s !! f = Some j → jobs s !! f' = Some j' → j_key j = j_key j' → f = f') ∧
  (∀ k e, coalesced (exec s) !! k = Some e → ∃ j, jobs s !! e_future e = Some j ∧ j_key j = k) ∧
  (∀ k, coalesced (exec s) !! k = None → started s !! k = submitted s !! k) ∧
  (∀ k e j op, coalesced (exec s) !! k = Some e → jobs s !! e_future e = Some j →
     running (j_phase j) op → e_dirty e = false → started s !! k = submitted s !! k).
Proof.
  intros Hr%exec_run_ok; [|apply system_init_ok]. split_and!.
  - intros f f' j j' Ej Ej' Hk. destruct (ok_job s Hr f j Ej) as (e & Ee & <-).
    destruct (ok_job s Hr f' j' Ej') as (e' & Ee' & <-). congruence.
  - apply (ok_entry s Hr).
  - apply (ok_idle s Hr).
  - intros k e j op Ee Ej Hrun Hd. rewrite (ok_latest s Hr k e Ee). by eapply (ok_clean s Hr).
Qed.
End executor.

Definition edges : list (exec_event (K := string)) :=
  [Submit "reclaim" 1%nat; Start 0%nat; Submit "reclaim" 2%nat; Submit "reclaim" 3%nat;
   Return 0%nat (Raise IndexError); Decide 0%nat; Start 0%nat; Return 0%nat (Ok tt); Decide 0%nat].

Lemma coalesced_trailing_edge_witness :
  let s := default system_init (exec_run edges system_init) in
  (started s !! "reclaim" = submitted s !! "reclaim" ∧ started s !! "reclaim" = Some 3%nat) ∧
  check (exec s) = Raise (RuntimeError "coalesced policy event failed").
Proof.
  split; [|reflexivity]. split; [|reflexivity].
  apply (coalesced_trailing_edge edges); [vm_compute; reflexivity|reflexivity].
Defined.
