(* ===== verification/PolicyControl.v ===== *)
(** * The control listener of native Tools (src/clawbox/experiments/policy_control.py, policy_http.py)

    [_Session] admits, starts, completes and abandons executions.  Each method
    runs its blocks under [self.condition] and its callback outside: a block is one
    function here, a call is a thread that passes through the blocks, and any
    interleaving of threads is a run of [step].  Execution objects outlive their
    entry in the table, as waiting threads keep their reference. *)
From S2P Require Import Prelude Dict PyStrings.
From Stdlib Require Import Ascii.

(** ** Requests and replies *)

(** What a request and a callback's reply hold that the session reads. *)
Record request := Request {
  rq_session : string;
  rq_execution : string;
  rq_sha : string;
  rq_phase : option string;
  rq_epoch : option Z;
  rq_sandbox : option string;
}.
Record reply := Reply {
  rp_decision : option string;
  rp_status : option string;
  rp_epoch : option Z;
  rp_sandbox : option string;
}.

(** [_IDENTITY] and [_SHA256] *)
Definition code (c : ascii) : Z := Z.of_N (N_of_ascii c).
Definition between (lo hi : ascii) (c : ascii) : bool := (code lo <=? code c) && (code c <=? code hi).
Definition identity_char (c : ascii) : bool :=
  between "A" "Z" c || between "a" "z" c || between "0" "9" c || bool_decide (c ∈ ["_"; "."; ":"; "-"]%char).
Definition is_identity (s : string) : bool :=
  let l := String.list_ascii_of_string s in
  (1 <=? Z.of_nat (length l)) && (Z.of_nat (length l) <=? 128) && forallb identity_char l.
Definition is_sha256 (s : string) : bool :=
  let l := String.list_ascii_of_string s in
  (Z.of_nat (length l) =? 64) && forallb (λ c, between "a" "f" c || between "0" "9" c) l.

(** [PolicyControlServer._validate] *)
Definition validate (session_id : string) (r : request) : outcome unit :=
  if negb (bool_decide (rq_session r = session_id)) then Raise (ValueError "wrong-session routing")
  else if negb (is_identity (rq_execution r)) then Raise (ValueError "invalid execution_id")
  else if negb (is_sha256 (rq_sha r)) then Raise (ValueError "invalid command_sha256")
  else Ok tt.

(** The status the transport answers an exception with. *)
Definition http_status (e : exn) : Z :=
  match e with
  | KeyError _ | TypeError _ | ValueError _ => 400
  | RuntimeError _ => 409
  | _ => 503
  end.

(** ** The session *)

Inductive lifecycle := Active | Draining | Closed.
#[export] Instance lifecycle_eq_dec : EqDecision lifecycle.
Proof. solve_decision. Defined.

(** [_Execution] *)
Record execution := Execution {
  ex_request : request;
  ex_admission : option reply;
  ex_admission_error : option exn;
  ex_completion : option (request * reply);
  ex_admitting : bool;
  ex_completing : bool;
  ex_started : bool;
  ex_finished : bool;
}.

(** [_Session]: its execution objects, and which of them [self.executions] holds. *)
Record session := Session {
  se_lifecycle : lifecycle;
  objects : list execution;
  executions : dict string nat;
}.
Definition session_init : session := Session Active [] ∅.

Definition set_admission (a : option reply) (err : option exn) (admitting : bool) (e : execution) : execution :=
  Execution (ex_request e) a err (ex_completion e) admitting (ex_completing e) (ex_started e) (ex_finished e).
Definition set_completion (c : option (request * reply)) (completing : bool) (e : execution) : execution :=
  Execution (ex_request e) (ex_admission e) (ex_admission_error e) c (ex_admitting e) completing (ex_started e) (ex_finished e).
Definition set_started (started finished : bool) (e : execution) : execution :=
  Execution (ex_request e) (ex_admission e) (ex_admission_error e) (ex_completion e) (ex_admitting e) (ex_completing e) started finished.
Definition update (x : nat) (f : execution → execution) (s : session) : session :=
  Session (se_lifecycle s) (alter f x (objects s)) (executions s).

(** ** Calls *)

Inductive result :=
  | RAdmitted (a : reply) (duplicate : bool)
  | RStarted (duplicate : bool)
  | RCompleted (c : reply) (duplicate : bool)
  | RCompletedBefore (c : request * reply)
  | RAbandoned
  | RDrained (closed : bool).

(** Where a thread is: before its first block, waiting on the condition, in a
    callback, or done.  An admission keeps the object it admitted. *)
Inductive thread :=
  | AdmitCall (r : request)
  | AdmitWait (r : request) (x : nat)
  | AdmitRun (r : request) (x : nat)
  | AdmitAnswered (r : request) (x : nat) (a : reply)
  | StartCall (r : request)
  | CompleteCall (r : request)
  | CompleteWait (r : request) (x : nat)
  | CompleteRun (r : request) (x : nat)
  | AbandonCall (r : request) (x : nat)
  | AbandonRun (r : request) (x : nat) (a : reply)
  | Abandoned (x : nat)
  | DrainCall
  | DrainWait
  | Done (o : outcome result).

(** The loop of a waiting admission. *)
Definition admission_wait (r : request) (x : nat) (s : session) : thread :=
  match objects s !! x with
  | None => Done (Raise (AssertionError "object"))
  | Some e =>
      if ex_admitting e then AdmitWait r x
      else match ex_admission e with
           | None => Done (Raise (RuntimeError "prior admission attempt failed"))
           | Some a => Done (Ok (RAdmitted a true))
           end
  end.

(** The first block of [admission]. *)
Definition enter_admission (r : request) (s : session) : thread * session :=
  if negb (bool_decide (se_lifecycle s = Active)) then (Done (Raise (RuntimeError "session is not active")), s)
  else
    match executions s !! rq_execution r with
    | None =>
        let x := length (objects s) in
        (AdmitRun r x,
         Session (se_lifecycle s) (objects s ++ [Execution r None None None true false false false])
           (<[rq_execution r := x]> (executions s)))
    | Some x =>
        match objects s !! x with
        | None => (Done (Raise (AssertionError "object")), s)
        | Some e =>
            if negb (bool_decide (rq_sha (ex_request e) = rq_sha r))
            then (Done (Raise (ValueError "execution_id was reused for a different command")), s)
            else (admission_wait r x s, s)
        end
    end.

(** The reply of the admission callback, or why it is none. *)
Definition admission_reply (cb : outcome reply) : outcome reply :=
  c ← cb;
  let d := default "ADMIT" (rp_decision c) in
  if bool_decide (d = "ADMIT") then Ok (Reply (Some d) (rp_status c) (rp_epoch c) (rp_sandbox c))
  else Raise (RuntimeError "admission callback must block or return ADMIT").

(** The last block of [admission]: the callback answered [cb]. *)
Definition finish_admission (r : request) (x : nat) (cb : outcome reply) (s : session) : thread * session :=
  match admission_reply cb with
  | Ok a => (AdmitAnswered r x a, update x (set_admission (Some a) None false) s)
  | Raise e => (Done (Raise e), update x (λ ex, set_admission (ex_admission ex) (Some e) false ex) s)
  end.

(** [execution_start], its callback called under the condition. *)
Definition execution_start (r : request) (cb : outcome unit) (s : session) : outcome result * session :=
  match x ← executions s !! rq_execution r; e ← objects s !! x; a ← ex_admission e; Some (x, e, a) with
  | None => (Raise (ValueError "start has no admitted execution"), s)
  | Some (x, e, a) =>
      if negb (bool_decide (rq_sha (ex_request e) = rq_sha r)) then (Raise (ValueError "start command does not match admission"), s)
      else if negb (bool_decide (rq_epoch r = rp_epoch a)) || negb (bool_decide (rq_sandbox r = rp_sandbox a))
      then (Raise (ValueError "start endpoint does not match admission"), s)
      else
        let phase := default "start" (rq_phase r) in
        if negb (bool_decide (phase ∈ ["start"; "end"])) then (Raise (ValueError "invalid guest execution phase"), s)
        else
          let is_start := bool_decide (phase = "start") in
          let duplicate := ex_finished e || (if ex_completion e then true else false) || ex_completing e
                           || (ex_started e && is_start) in
          if duplicate then (Ok (RStarted true), s)
          else match cb with
               | Ok _ => (Ok (RStarted false), update x (set_started true (negb is_start)) s)
               | Raise err => (Raise err, s)
               end
  end.

(** The waiting loop of [completion] and the claim after it. *)
Definition completion_wait (r : request) (x : nat) (s : session) : thread * session :=
  match objects s !! x with
  | None => (Done (Raise (AssertionError "object")), s)
  | Some e =>
      if ex_completing e then (CompleteWait r x, s)
      else match ex_completion e with
           | Some c => (Done (Ok (RCompletedBefore c)), s)
           | None => (CompleteRun r x, update x (set_completion None true) s)
           end
  end.

(** The first block of [completion]. *)
Definition enter_completion (r : request) (s : session) : thread * session :=
  match x ← executions s !! rq_execution r; e ← objects s !! x; a ← ex_admission e; Some (x, e) with
  | None => (Done (Raise (ValueError "completion has no admitted execution")), s)
  | Some (x, e) =>
      if negb (bool_decide (rq_sha (ex_request e) = rq_sha r))
      then (Done (Raise (ValueError "completion command does not match admission")), s)
      else completion_wait r x s
  end.

(** The last block of [completion]. *)
Definition finish_completion (r : request) (x : nat) (cb : outcome reply) (s : session) : thread * session :=
  match cb with
  | Ok c =>
      let c' := Reply (rp_decision c) (Some (default "COMPLETED" (rp_status c))) (rp_epoch c) (rp_sandbox c) in
      (Done (Ok (RCompleted c' false)), update x (set_completion (Some (r, c')) false) s)
  | Raise e => (Done (Raise e), update x (λ ex, set_completion (ex_completion ex) false ex) s)
  end.

(** The first block of [abandon_admission]. *)
Definition enter_abandon (r : request) (x : nat) (s : session) : thread * session :=
  match y ← executions s !! rq_execution r; e ← objects s !! y; a ← ex_admission e;
        if ex_completion e then None else Some (y, a) with
  | None => (Done (Ok RAbandoned), s)
  | Some (y, a) => (AbandonRun r y a, update y (λ ex, set_admission (ex_admission ex) (ex_admission_error ex) true ex) s)
  end.

(** The last block of [abandon_admission]. *)
Definition finish_abandon (r : request) (x : nat) (cb : outcome unit) (s : session) : thread * session :=
  match cb with
  | Ok _ =>
      let table := if bool_decide (executions s !! rq_execution r = Some x)
                   then delete (rq_execution r) (executions s) else executions s in
      (Abandoned x,
       update x (λ ex, set_admission (ex_admission ex) (ex_admission_error ex) false ex)
         (Session (se_lifecycle s) (objects s) table))
  | Raise e => (Done (Raise e), update x (λ ex, set_admission (ex_admission ex) (Some e) false ex) s)
  end.

(** An execution [drain] waits for. *)
Definition outstanding (e : execution) : bool :=
  (if ex_admission e then true else false) && negb (if ex_completion e then true else false).
Definition any_outstanding (s : session) : bool :=
  existsb (λ x : nat, match objects s !! x with Some e => outstanding e | None => false end) (vals (executions s)).

(** The loop of [drain] from its test on. *)
Definition drain_wait (s : session) : thread * session :=
  if any_outstanding s then (DrainWait, s)
  else (Done (Ok (RDrained true)), Session Closed (objects s) (executions s)).
Definition enter_drain (s : session) : thread * session :=
  if bool_decide (se_lifecycle s = Closed) then (Done (Ok (RDrained true)), s)
  else drain_wait (Session Draining (objects s) (executions s)).

(** ** Threads *)

(** [cb] is the answer of the callback a thread is in, when it is in one. *)
Definition advance (th : thread) (cb : outcome reply) (s : session) : thread * session :=
  let cb_unit := match cb with Ok _ => Ok tt | Raise e => Raise e end in
  match th with
  | AdmitCall r => enter_admission r s
  | AdmitWait r x => (admission_wait r x s, s)
  | AdmitRun r x => finish_admission r x cb s
  | StartCall r => let '(o, s') := execution_start r cb_unit s in (Done o, s')
  | CompleteCall r => enter_completion r s
  | CompleteWait r x => completion_wait r x s
  | CompleteRun r x => finish_completion r x cb s
  | AbandonCall r x => enter_abandon r x s
  | AbandonRun r x _ => finish_abandon r x cb_unit s
  | DrainCall => enter_drain s
  | DrainWait => drain_wait s
  | AdmitAnswered _ _ _ | Abandoned _ | Done _ => (th, s)
  end.

(** The system: the session, its threads, and a log of the callbacks. *)
Inductive callback := CbAdmit (x : nat) | CbComplete (x : nat) | CbCompleted (x : nat) | CbAbandon (x : nat).
Record system := System {
  sess : session;
  threads : list thread;
  callbacks : list callback;
}.
Definition system_init : system := System session_init [] [].

(** The callbacks a thread begins, and a completion callback that returned. *)
Definition logged (before after : thread) : list callback :=
  match before, after with
  | AdmitCall _, AdmitRun _ x => [CbAdmit x]
  | (CompleteCall _ | CompleteWait _ _), CompleteRun _ x => [CbComplete x]
  | CompleteRun _ x, Done (Ok _) => [CbCompleted x]
  | AbandonCall _ _, AbandonRun _ x _ => [CbAbandon x]
  | _, _ => []
  end.

(** What may call into the session. *)
Definition entry (th : thread) : bool :=
  match th with AdmitCall _ | StartCall _ | CompleteCall _ | DrainCall => true | _ => false end.

Inductive event :=
  | Call (th : thread)
  | Advance (t : nat) (cb : outcome reply)
  | Disconnect (t : nat)        (** the reply of an admission did not reach its caller *)
  | DrainTimeout (t : nat)
  | Discard.

Definition step (ev : event) (s : system) : system :=
  match ev with
  | Call th => if entry th then System (sess s) (threads s ++ [th]) (callbacks s) else s
  | Advance t cb =>
      match threads s !! t with
      | None => s
      | Some th =>
          let '(th', se') := advance th cb (sess s) in
          System se' (<[t := th']> (threads s)) (callbacks s ++ logged th th')
      end
  | Disconnect t =>
      match threads s !! t with
      | Some (AdmitAnswered r x _) => System (sess s) (<[t := AbandonCall r x]> (threads s)) (callbacks s)
      | _ => s
      end
  | DrainTimeout t =>
      match threads s !! t with
      | Some DrainWait => System (sess s) (<[t := Done (Ok (RDrained false))]> (threads s)) (callbacks s)
      | _ => s
      end
  | Discard => System (Session Closed (objects (sess s)) (executions (sess s))) (threads s) (callbacks s)
  end.
Definition run (evs : list event) (s : system) : system := foldl (λ s ev, step ev s) s evs.

(** ** The admission side of a run *)

(** What the admission side reads of an object. *)
Record ticket := Ticket { tk_request : request; tk_admission : option reply; tk_admitting : bool }.
Definition ticket_of (e : execution) : ticket := Ticket (ex_request e) (ex_admission e) (ex_admitting e).

(** The thread that owns an object: it admits it and may give it up. *)
Definition owner (th : thread) : option (request * nat) :=
  match th with
  | AdmitRun r x | AdmitAnswered r x _ | AbandonCall r x | AbandonRun r x _ => Some (r, x)
  | _ => None
  end.
(** The threads whose callback keeps other admissions waiting. *)
Definition admitting_in (x : nat) (th : thread) : bool :=
  match th with AdmitRun _ y | AbandonRun _ y _ => bool_decide (y = x) | _ => false end.

Definition admits (l : list callback) : list nat := omap (λ c, match c with CbAdmit x => Some x | _ => None end) l.
Definition abandons (l : list callback) : list nat := omap (λ c, match c with CbAbandon x => Some x | _ => None end) l.
Definition completeds (l : list callback) : list nat := omap (λ c, match c with CbCompleted x => Some x | _ => None end) l.

(** How far the owner is. *)
Definition stage (th : thread) (k : ticket) : Prop :=
  match th with
  | AdmitRun _ _ => tk_admission k = None
  | AdmitAnswered _ _ a | AbandonRun _ _ a => tk_admission k = Some a
  | AbandonCall _ _ => is_Some (tk_admission k)
  | _ => True
  end.

Record admission_ok (tickets : list ticket) (table : dict string nat) (ths : list thread) (log : list callback) : Prop := {
  ao_dict : dict_ok table;
  ao_table : ∀ id x, table !! id = Some x → ∃ k, tickets !! x = Some k ∧ rq_execution (tk_request k) = id;
  ao_owner : ∀ t th r x, ths !! t = Some th → owner th = Some (r, x) →
    table !! rq_execution r = Some x ∧ ∃ k, tickets !! x = Some k ∧ tk_request k = r ∧ stage th k;
  ao_unique : ∀ t1 t2 th1 th2 r1 r2 x, ths !! t1 = Some th1 → ths !! t2 = Some th2 →
    owner th1 = Some (r1, x) → owner th2 = Some (r2, x) → t1 = t2;
  ao_admitting : ∀ x k, tickets !! x = Some k → tk_admitting k = true → ∃ t th, ths !! t = Some th ∧ admitting_in x th = true;
  ao_admits : admits log = seq 0 (length tickets);
  ao_abandons : NoDup (abandons log) ∧ ∀ x, x ∈ abandons log → (x < length tickets)%nat ∧
    ∀ t th r, ths !! t = Some th → owner th = Some (r, x) → ∃ a, th = AbandonRun r x a;
}.

Lemma thread_cases (ths : list thread) t th' u y : <[t := th']> ths !! u = Some y →
  (u = t ∧ y = th') ∨ (u ≠ t ∧ ths !! u = Some y).
Proof. intros [(<- & <- & _)|[? ?]]%list_lookup_insert_Some; [by left|right; split; [by apply not_eq_sym|done]]. Qed.

Lemma thread_kept (ths : list thread) t th th' u y : ths !! t = Some th → ths !! u = Some y → u ≠ t →
  <[t := th']> ths !! u = Some y.
Proof. intros _ Hu Hne. by rewrite list_lookup_insert_ne by done. Qed.

Lemma thread_new (ths : list thread) t th th' : ths !! t = Some th → <[t := th']> ths !! t = Some th'.
Proof. intros H. apply list_lookup_insert_eq. by eapply lookup_lt_Some. Qed.

(** A thread that neither owns an object nor keeps admissions waiting. *)
Definition bystander (th : thread) : Prop := owner th = None.
Lemma bystander_waits th x : bystander th → admitting_in x th = false.
Proof. by destruct th. Qed.

(** The admission side does not see what bystanders do. *)
Lemma admission_bystander tickets table ths log t th th' l :
  admission_ok tickets table ths log → ths !! t = Some th → bystander th → bystander th' →
  admits l = [] → abandons l = [] → admission_ok tickets table (<[t := th']> ths) (log ++ l).
Proof.
  intros [Hd Ht Ho Hu Ha Hl [Hn Hb]] Hth Hby Hby' Hl1 Hl2.
  unfold admits, abandons in *. split; unfold admits, abandons; rewrite ?omap_app, ?Hl1, ?Hl2, ?app_nil_r; try done.
  - intros u y r x [[_ ->]|[_ Hy]]%thread_cases E; [by rewrite Hby' in E|by eapply Ho].
  - intros t1 t2 th1 th2 r1 r2 x [[_ ->]|[_ H1]]%thread_cases [[_ ->]|[_ H2]]%thread_cases E1 E2;
      try (by rewrite Hby' in *). by eapply Hu.
  - intros x k Hk Hadm. destruct (Ha x k Hk Hadm) as (u & y & Hy & Hin).
    destruct (decide (u = t)) as [->|Hne].
    + rewrite Hth in Hy. injection Hy as <-. by rewrite bystander_waits in Hin.
    + exists u, y. split; [by eapply thread_kept|done].
  - split; [done|]. intros x Hx. destruct (Hb x Hx) as [? Hown]. split; [done|].
    intros u y r [[_ ->]|[_ Hy]]%thread_cases E; [by rewrite Hby' in E|by eapply Hown].
Qed.

Lemma admission_call tickets table ths log th :
  admission_ok tickets table ths log → bystander th → admission_ok tickets table (ths ++ [th]) log.
Proof.
  intros [Hd Ht Ho Hu Ha Hl [Hn Hb]] Hby.
  assert (∀ u y, (ths ++ [th]) !! u = Some y → owner y ≠ None → ths !! u = Some y) as Hold.
  { intros u y [H|[_ H]]%lookup_app_Some Hy; [done|]. apply list_lookup_singleton_Some in H as [_ <-]. by destruct Hy. }
  split; try done.
  - intros u y r x Hy E. apply Hold in Hy; [by eapply Ho|congruence].
  - intros t1 t2 th1 th2 r1 r2 x H1 H2 E1 E2. apply Hold in H1, H2; [by eapply Hu|congruence..].
  - intros x k Hk Hadm. destruct (Ha x k Hk Hadm) as (u & y & Hy & Hin). exists u, y. split; [by apply lookup_app_l_Some|done].
  - split; [done|]. intros x Hx. destruct (Hb x Hx) as [? Hown]. split; [done|].
    intros u y r Hy E. apply Hold in Hy; [by eapply Hown|congruence].
Qed.

(** A new execution. *)
Lemma admission_new tickets table ths log t r :
  admission_ok tickets table ths log → ths !! t = Some (AdmitCall r) → table !! rq_execution r = None →
  admission_ok (tickets ++ [Ticket r None true]) (<[rq_execution r := length tickets]> table)
    (<[t := AdmitRun r (length tickets)]> ths) (log ++ [CbAdmit (length tickets)]).
Proof.
  intros [Hd Ht Ho Hu Ha Hl [Hn Hb]] Hth Hnone.
  assert (∀ x k, tickets !! x = Some k → (tickets ++ [Ticket r None true]) !! x = Some k) as Happ
    by (intros; by apply lookup_app_l_Some).
  assert ((tickets ++ [Ticket r None true]) !! length tickets = Some (Ticket r None true)) as Hnew
    by (by rewrite lookup_app_r, Nat.sub_diag by done).
  assert (∀ u th r' x, ths !! u = Some th → owner th = Some (r', x) → (x < length tickets)%nat) as Hlt.
  { intros u th r' x Hy E. destruct (Ho u th r' x Hy E) as (_ & k & Hk & _). by eapply lookup_lt_Some. }
  unfold admits, abandons in *. split; unfold admits, abandons; rewrite ?omap_app; cbn [omap list_omap]; rewrite ?app_nil_r.
  - by apply insert_ok.
  - intros id x. destruct (decide (id = rq_execution r)) as [->|Hne].
    + rewrite dict_lookup_insert_eq. intros [= <-]. by exists (Ticket r None true).
    + rewrite dict_lookup_insert_ne by done. intros (k & Hk & E)%Ht. exists k. auto.
  - intros u th r' x [[_ ->]|[_ Hy]]%thread_cases E.
    + injection E as <- <-. split; [apply dict_lookup_insert_eq|by exists (Ticket r None true)].
    + destruct (Ho u th r' x Hy E) as (H1 & k & Hk & H2). split; [|by eauto].
      rewrite dict_lookup_insert_ne; [done|]. intros Heq. rewrite <- Heq in H1. congruence.
  - intros t1 t2 th1 th2 r1 r2 x [[-> ->]|[_ H1]]%thread_cases [[-> ->]|[_ H2]]%thread_cases E1 E2; [done|..].
    + injection E1 as _ <-. pose proof (Hlt _ _ _ _ H2 E2). lia.
    + injection E2 as _ <-. pose proof (Hlt _ _ _ _ H1 E1). lia.
    + by eapply Hu.
  - intros x k [Hk|[Hx Hk]]%lookup_app_Some Hadm.
    + destruct (Ha x k Hk Hadm) as (u & y & Hy & Hin). exists u, y. split; [|done].
      eapply thread_kept; [done..|]. intros ->. rewrite Hth in Hy. injection Hy as <-. done.
    + apply list_lookup_singleton_Some in Hk as [Hx' _]. assert (x = length tickets) as -> by lia.
      exists t, (AdmitRun r (length tickets)). split; [by eapply thread_new|]. by apply bool_decide_eq_true_2.
  - rewrite Hl, length_app. cbn [length]. by rewrite seq_app.
  - split; [done|]. intros x Hx. destruct (Hb x Hx) as [? Hown]. split; [rewrite length_app; cbn; lia|].
    intros u y r' [[_ ->]|[_ Hy]]%thread_cases E; [injection E as _ <-; lia|by eapply Hown].
Qed.

(** The owner of an object moves on, and lets go of it or not. *)
Lemma owner_step tickets table ths log t th th' r x g table' l :
  admission_ok tickets table ths log → ths !! t = Some th → owner th = Some (r, x) →
  (∀ k, tk_request (g k) = tk_request k) →
  owner th' = Some (r, x) ∧ table' = table ∨ bystander th' ∧ (table' = table ∨ table' = delete (rq_execution r) table) →
  (∀ k, tickets !! x = Some k → stage th k → stage th' (g k) ∧ (tk_admitting (g k) = true → admitting_in x th' = true)) →
  admits l = [] →
  abandons l = [] ∧ (bystander th' ∨ ∀ a, th ≠ AbandonRun r x a) ∨
    abandons l = [x] ∧ (∃ a, th' = AbandonRun r x a) ∧ (∀ a, th ≠ AbandonRun r x a) →
  admission_ok (alter g x tickets) table' (<[t := th']> ths) (log ++ l).
Proof.
  intros [Hd Ht Ho Hu Ha Hl [Hn Hb]] Hth Hown Hg Hth' Hstage Hl1 Hl2.
  destruct (Ho t th r x Hth Hown) as (Htab & k0 & Hk0 & Hr0 & Hst0). destruct (Hstage k0 Hk0 Hst0) as [Hst1 Hadm1].
  assert (∀ y k, tickets !! y = Some k → ∃ k', alter g x tickets !! y = Some k' ∧ tk_request k' = tk_request k) as Htk.
  { intros y k Hk. destruct (decide (y = x)) as [->|Hne].
    - exists (g k). by rewrite list_lookup_alter_eq, Hk.
    - exists k. by rewrite list_lookup_alter_ne by done. }
  assert (alter g x tickets !! x = Some (g k0)) as Hgk by (by rewrite list_lookup_alter_eq, Hk0).
  assert (∀ u y r' z, u ≠ t → ths !! u = Some y → owner y = Some (r', z) → z ≠ x) as Hother.
  { intros u y r' z Hne Hy E ->. apply Hne. by eapply Hu. }
  assert (∀ u y r' z, <[t := th']> ths !! u = Some y → owner y = Some (r', z) →
    (u = t ∧ y = th' ∧ r' = r ∧ z = x ∧ table' = table) ∨ (u ≠ t ∧ ths !! u = Some y ∧ z ≠ x)) as Hcase.
  { intros u y r' z [[-> ->]|[Hne Hy]]%thread_cases E; [left|right; split_and!; [done|done|by eapply Hother]].
    destruct Hth' as [[E' ->]|[E' _]]; [|by rewrite E' in E]. rewrite E' in E. by injection E as <- <-. }
  unfold admits, abandons in *. split; unfold admits, abandons; rewrite ?omap_app, ?Hl1, ?app_nil_r.
  - destruct Hth' as [[_ ->]|[_ [->| ->]]]; [done|done|by apply delete_ok].
  - intros id y Hy. assert (table !! id = Some y) as (k & Hk & E)%Ht.
    { destruct Hth' as [[_ ->]|[_ [->| ->]]]; [done|done|]. by apply dict_lookup_delete_Some in Hy as [_ ?]. }
    destruct (Htk y k Hk) as (k' & ? & ?). exists k'. split; [done|congruence].
  - intros u y r' z Hy E. destruct (Hcase u y r' z Hy E) as [(-> & -> & -> & -> & ->)|(Hne & Hy' & Hz)].
    + split; [done|]. exists (g k0). by rewrite Hg.
    + destruct (Ho u y r' z Hy' E) as (H1 & k & Hk & H2). split; [|exists k; by rewrite list_lookup_alter_ne by done].
      destruct Hth' as [[_ ->]|[_ [->| ->]]]; [done|done|].
      rewrite dict_lookup_delete_ne; [done|]. intros Heq. rewrite <- Heq in H1. congruence.
  - intros t1 t2 th1 th2 r1 r2 z H1 H2 E1 E2.
    destruct (Hcase t1 th1 r1 z H1 E1) as [(T1 & _ & _ & Hz1 & _)|(_ & H1' & Hz1)],
      (Hcase t2 th2 r2 z H2 E2) as [(T2 & _ & _ & Hz2 & _)|(_ & H2' & Hz2)]; [congruence|done|done|by eapply Hu].
  - intros y k Hk Hadm. destruct (decide (y = x)) as [->|Hne].
    + rewrite Hgk in Hk. injection Hk as <-. exists t, th'. split; [by eapply thread_new|by apply Hadm1].
    + rewrite list_lookup_alter_ne in Hk by done. destruct (Ha y k Hk Hadm) as (u & w & Hw & Hin). exists u, w.
      split; [|done]. eapply thread_kept; [done..|]. intros ->. rewrite Hth in Hw. injection Hw as <-.
      destruct th; try done; apply bool_decide_eq_true in Hin; simpl in Hown; congruence.
  - by rewrite length_alter.
  - destruct Hl2 as [[Hl2 Hq]|(Hl2 & [a ->] & Hq)]; rewrite Hl2, ?app_nil_r.
    + split; [done|]. intros y Hy. destruct (Hb y Hy) as [Hlt Hrun]. rewrite length_alter. split; [done|].
      intros u w r' Hw E. destruct (Hcase u w r' y Hw E) as [(-> & -> & -> & -> & _)|(Hne & Hw' & Hz)]; [|by eapply Hrun].
      destruct Hq as [Hq|Hq]; [by rewrite Hq in E|]. destruct (Hrun t th r Hth Hown) as [a ->]. by destruct (Hq a).
    + assert (x ∉ omap (λ c, match c with CbAbandon x => Some x | _ => None end) log) as Hni.
      { intros Hin. destruct (Hb x Hin) as [_ Hrun]. destruct (Hrun t th r Hth Hown) as [a' ->]. by destruct (Hq a'). }
      split; [apply NoDup_app; split_and!; [done|set_solver|apply NoDup_singleton]|].
      intros y Hy. rewrite length_alter. apply elem_of_app in Hy as [Hy|Hy%list_elem_of_singleton].
      * destruct (Hb y Hy) as [Hlt Hrun]. split; [done|]. intros u w r' Hw E.
        destruct (Hcase u w r' y Hw E) as [(_ & -> & -> & -> & _)|(Hne & Hw' & Hz)]; [by eexists|by eapply Hrun].
      * subst y. split; [by eapply lookup_lt_Some|]. intros u w r' Hw E.
        destruct (Hcase u w r' x Hw E) as [(_ & -> & -> & _ & _)|(Hne & Hw' & Hz)]; [by eexists|done].
Qed.

(** ** The completion side of a run *)

Record mark := Mark { mk_completion : option (request * reply); mk_completing : bool }.
Definition mark_of (e : execution) : mark := Mark (ex_completion e) (ex_completing e).

Record completion_ok (marks : list mark) (ths : list thread) (log : list callback) : Prop := {
  co_run : ∀ t r x, ths !! t = Some (CompleteRun r x) → marks !! x = Some (Mark None true);
  co_unique : ∀ t1 t2 r1 r2 x, ths !! t1 = Some (CompleteRun r1 x) → ths !! t2 = Some (CompleteRun r2 x) → t1 = t2;
  co_completing : ∀ x m, marks !! x = Some m → mk_completing m = true → ∃ t r, ths !! t = Some (CompleteRun r x);
  co_completeds : NoDup (completeds log) ∧
    ∀ x, x ∈ completeds log ↔ ∃ m, marks !! x = Some m ∧ is_Some (mk_completion m);
}.

(** A thread outside the completion callback. *)
Definition idle (th : thread) : Prop := match th with CompleteRun _ _ => False | _ => True end.

Lemma completion_idle marks ths log t th th' l :
  completion_ok marks ths log → ths !! t = Some th → idle th → idle th' → completeds l = [] →
  completion_ok marks (<[t := th']> ths) (log ++ l).
Proof.
  intros [Hr Hu Hc [Hn Hs]] Hth Hi Hi' Hl. unfold completeds in *.
  split; unfold completeds; rewrite ?omap_app, ?Hl, ?app_nil_r; [| | |done].
  - intros u r x [[_ E]|[_ Hy]]%thread_cases; [by subst th'|by eapply Hr].
  - intros t1 t2 r1 r2 x [[_ E]|[_ H1]]%thread_cases [[_ E']|[_ H2]]%thread_cases; try (by subst th'). by eapply Hu.
  - intros x m Hm E. destruct (Hc x m Hm E) as (u & r & Hy). exists u, r. eapply thread_kept; [done..|].
    intros ->. rewrite Hth in Hy. injection Hy as ->. done.
Qed.

Lemma completion_call marks ths log th :
  completion_ok marks ths log → idle th → completion_ok marks (ths ++ [th]) log.
Proof.
  intros [Hr Hu Hc Hs] Hi.
  assert (∀ u r x, (ths ++ [th]) !! u = Some (CompleteRun r x) → ths !! u = Some (CompleteRun r x)) as Hold.
  { intros u r x [H|[_ H]]%lookup_app_Some; [done|]. apply list_lookup_singleton_Some in H as [_ ->]. done. }
  split; [|..|done].
  - intros u r x Hy%Hold. by eapply Hr.
  - intros t1 t2 r1 r2 x H1%Hold H2%Hold. by eapply Hu.
  - intros x m Hm E. destruct (Hc x m Hm E) as (u & r & Hy). exists u, r. by apply lookup_app_l_Some.
Qed.

Lemma completion_new marks ths log : completion_ok marks ths log → completion_ok (marks ++ [Mark None false]) ths log.
Proof.
  intros [Hr Hu Hc [Hn Hs]]. split; [|done| |].
  - intros u r x Hy. apply lookup_app_l_Some. by eapply Hr.
  - intros x m [Hm|[_ Hm]]%lookup_app_Some E; [by eapply Hc|]. apply list_lookup_singleton_Some in Hm as [_ <-]. done.
  - split; [done|]. intros x. rewrite Hs. split.
    + intros (m & Hm & ?). exists m. split; [by apply lookup_app_l_Some|done].
    + intros (m & [Hm|[_ Hm]]%lookup_app_Some & E); [by exists m|].
      apply list_lookup_singleton_Some in Hm as [_ <-]. by destruct E.
Qed.

(** A completion is claimed. *)
Lemma completion_claim marks ths log t th r x :
  completion_ok marks ths log → ths !! t = Some th → idle th → marks !! x = Some (Mark None false) →
  completion_ok (alter (λ _, Mark None true) x marks) (<[t := CompleteRun r x]> ths) log.
Proof.
  intros [Hr Hu Hc [Hn Hs]] Hth Hi Hm. split.
  - intros u r' y [[_ E]|[_ Hy]]%thread_cases.
    + injection E as -> ->. by rewrite list_lookup_alter_eq, Hm.
    + apply Hr in Hy. destruct (decide (y = x)) as [->|]; [congruence|]. by rewrite list_lookup_alter_ne.
  - intros t1 t2 r1 r2 y [[-> E1]|[_ H1]]%thread_cases [[-> E2]|[_ H2]]%thread_cases; [done| | |by eapply Hu].
    + injection E1 as -> ->. apply Hr in H2. congruence.
    + injection E2 as -> ->. apply Hr in H1. congruence.
  - intros y m Hy E. destruct (decide (y = x)) as [->|Hne].
    + exists t, r. by eapply thread_new.
    + rewrite list_lookup_alter_ne in Hy by done. destruct (Hc y m Hy E) as (u & r' & Hu'). exists u, r'.
      eapply thread_kept; [done..|]. intros ->. rewrite Hth in Hu'. injection Hu' as ->. done.
  - split; [done|]. intros y. rewrite Hs. destruct (decide (y = x)) as [->|Hne].
    + rewrite list_lookup_alter_eq, Hm. split; intros (m & E & Hsome); injection E as <-; by destruct Hsome.
    + by rewrite list_lookup_alter_ne.
Qed.

(** The completion callback ends, with a completion to record or not. *)
Lemma completion_end marks ths log t th' r x c l :
  completion_ok marks ths log → ths !! t = Some (CompleteRun r x) → idle th' →
  completeds l = (if c : option (request * reply) then [x] else []) →
  completion_ok (alter (λ _, Mark c false) x marks) (<[t := th']> ths) (log ++ l).
Proof.
  intros [Hr Hu Hc [Hn Hs]] Hth Hi Hl. pose proof (Hr t r x Hth) as Hm. unfold completeds in *.
  assert (∀ u r' y, <[t := th']> ths !! u = Some (CompleteRun r' y) → ths !! u = Some (CompleteRun r' y) ∧ y ≠ x) as Hold.
  { intros u r' y [[_ E]|[Hne Hy]]%thread_cases; [by subst th'|]. split; [done|]. intros ->. apply Hne. by eapply Hu. }
  split; unfold completeds; rewrite ?omap_app, ?Hl.
  - intros u r' y [Hy Hne]%Hold. rewrite list_lookup_alter_ne by done. by eapply Hr.
  - intros t1 t2 r1 r2 y [H1 _]%Hold [H2 _]%Hold. by eapply Hu.
  - intros y m Hy E. destruct (decide (y = x)) as [->|Hne].
    + rewrite list_lookup_alter_eq, Hm in Hy. injection Hy as <-. done.
    + rewrite list_lookup_alter_ne in Hy by done. destruct (Hc y m Hy E) as (u & r' & Hu'). exists u, r'.
      eapply thread_kept; [done..|]. intros ->. rewrite Hth in Hu'. by injection Hu' as -> ->.
  - assert (x ∉ omap (λ c, match c with CbCompleted x => Some x | _ => None end) log) as Hni.
    { rewrite Hs. rewrite Hm. intros (m & [= <-] & Hsome). by destruct Hsome. }
    split.
    + destruct c; [|by rewrite app_nil_r]. apply NoDup_app. split_and!; [done|set_solver|apply NoDup_singleton].
    + intros y. rewrite elem_of_app, Hs. destruct (decide (y = x)) as [->|Hne].
      * rewrite list_lookup_alter_eq, Hm. cbn. destruct c as [c|].
        -- split; [intros _; by eexists|intros _; right; by left].
        -- split; [intros [(m & [= <-] & Hsome)|[]%elem_of_nil]; by destruct Hsome|intros (m & [= <-] & Hsome); by destruct Hsome].
      * rewrite list_lookup_alter_ne by done. split; [intros [?|Hy]; [done|]|by left].
        destruct c; [by apply list_elem_of_singleton in Hy|by apply elem_of_nil in Hy].
Qed.

(** ** Runs *)

Definition waits_on (th : thread) : option nat :=
  match th with AdmitWait _ x | CompleteWait _ x => Some x | _ => None end.

Record system_ok (s : system) : Prop := {
  so_admission : admission_ok (ticket_of <$> objects (sess s)) (executions (sess s)) (threads s) (callbacks s);
  so_completion : completion_ok (mark_of <$> objects (sess s)) (threads s) (callbacks s);
  so_waits : ∀ t th x, threads s !! t = Some th → waits_on th = Some x → (x < length (objects (sess s)))%nat;
}.

Lemma fmap_alter {A B} (f : A → B) (g : A → A) (h : B → B) (i : nat) (l : list A) :
  (∀ x, f (g x) = h (f x)) → f <$> alter g i l = alter h i (f <$> l).
Proof.
  intros H. apply list_eq. intros j. rewrite list_lookup_fmap. destruct (decide (j = i)) as [->|Hne].
  - rewrite !list_lookup_alter_eq, list_lookup_fmap. destruct (l !! i); [|done]. simpl. by rewrite H.
  - by rewrite !list_lookup_alter_ne, list_lookup_fmap by done.
Qed.
Lemma fmap_alter_same {A B} (f : A → B) (g : A → A) (i : nat) (l : list A) : (∀ x, f (g x) = f x) → f <$> alter g i l = f <$> l.
Proof.
  intros H. apply list_eq. intros j. rewrite !list_lookup_fmap. destruct (decide (j = i)) as [->|Hne].
  - rewrite list_lookup_alter_eq. destruct (l !! i); [|done]. simpl. by rewrite H.
  - by rewrite list_lookup_alter_ne by done.
Qed.

Lemma waits_insert s t th' n : (∀ u th x, threads s !! u = Some th → waits_on th = Some x → (x < length (objects (sess s)))%nat) →
  (length (objects (sess s)) <= n)%nat → (∀ x, waits_on th' = Some x → (x < n)%nat) →
  ∀ u th x, <[t := th']> (threads s) !! u = Some th → waits_on th = Some x → (x < n)%nat.
Proof.
  intros H Hn Hth' u th x [[_ ->]|[_ Hu]]%thread_cases E; [by apply Hth'|]. specialize (H u th x Hu E). lia.
Qed.

(** Nothing happens but that a thread moves. *)
Lemma inv_quiet s t th th' se' : system_ok s → threads s !! t = Some th →
  bystander th → bystander th' → idle th → idle th' → logged th th' = [] →
  ticket_of <$> objects se' = ticket_of <$> objects (sess s) → mark_of <$> objects se' = mark_of <$> objects (sess s) →
  executions se' = executions (sess s) → (∀ x, waits_on th' = Some x → (x < length (objects (sess s)))%nat) →
  system_ok (System se' (<[t := th']> (threads s)) (callbacks s ++ logged th th')).
Proof.
  intros [Ha Hc Hw] Hth Hb Hb' Hi Hi' Hl Ht Hm He Hwait. rewrite Hl.
  assert (length (objects se') = length (objects (sess s))) as Hlen by (apply (f_equal length) in Ht; by rewrite !length_fmap in Ht).
  split; cbn [sess threads callbacks].
  - rewrite Ht, He. by eapply admission_bystander.
  - rewrite Hm. by eapply completion_idle.
  - rewrite Hlen. by apply waits_insert.
Qed.

(** The owner of an object moves, the completion side standing still. *)
Lemma inv_owner s t th th' r x f g se' : system_ok s → threads s !! t = Some th → owner th = Some (r, x) →
  objects se' = alter f x (objects (sess s)) → (∀ e, ticket_of (f e) = g (ticket_of e)) → (∀ e, mark_of (f e) = mark_of e) →
  (∀ k, tk_request (g k) = tk_request k) →
  owner th' = Some (r, x) ∧ executions se' = executions (sess s) ∨
    bystander th' ∧ (executions se' = executions (sess s) ∨ executions se' = delete (rq_execution r) (executions (sess s))) →
  (∀ k, (ticket_of <$> objects (sess s)) !! x = Some k → stage th k →
     stage th' (g k) ∧ (tk_admitting (g k) = true → admitting_in x th' = true)) →
  admits (logged th th') = [] →
  abandons (logged th th') = [] ∧ (bystander th' ∨ ∀ a, th ≠ AbandonRun r x a) ∨
    abandons (logged th th') = [x] ∧ (∃ a, th' = AbandonRun r x a) ∧ (∀ a, th ≠ AbandonRun r x a) →
  idle th' → completeds (logged th th') = [] → waits_on th' = None →
  system_ok (System se' (<[t := th']> (threads s)) (callbacks s ++ logged th th')).
Proof.
  intros [Ha Hc Hw] Hth Hown Hobj Hg Hmk Hreq Hth' Hstage Hl1 Hl2 Hi Hl3 Hwait. split; cbn [sess threads callbacks].
  - rewrite Hobj, (fmap_alter _ _ g) by done. by eapply owner_step.
  - rewrite Hobj, fmap_alter_same by done. eapply completion_idle; [done..| |done|done]. by destruct th.
  - rewrite Hobj, length_alter. apply waits_insert; [done|done|]. intros y Hy. by rewrite Hwait in Hy.
Qed.

Lemma ticket_lookup s x k : (ticket_of <$> objects s) !! x = Some k → ∃ e, objects s !! x = Some e ∧ k = ticket_of e.
Proof. rewrite list_lookup_fmap. destruct (objects s !! x) as [e|]; [|done]. intros [= <-]. by exists e. Qed.

Lemma finish_admission_ok s t r x cb th' se' : system_ok s → threads s !! t = Some (AdmitRun r x) →
  finish_admission r x cb (sess s) = (th', se') →
  system_ok (System se' (<[t := th']> (threads s)) (callbacks s ++ logged (AdmitRun r x) th')).
Proof.
  intros Hs Hth. unfold finish_admission. destruct (admission_reply cb) as [a|e]; intros [= <- <-].
  - eapply (inv_owner _ _ _ _ r x _ (λ k, Ticket (tk_request k) (Some a) false)); try done.
    + by left.
    + left. split; [done|by right].
  - eapply (inv_owner _ _ _ _ r x _ (λ k, Ticket (tk_request k) (tk_admission k) false)); try done.
    + right. split; [done|by left].
    + left. split; [done|by left].
Qed.

Lemma enter_abandon_ok s t r x th' se' : system_ok s → threads s !! t = Some (AbandonCall r x) →
  enter_abandon r x (sess s) = (th', se') →
  system_ok (System se' (<[t := th']> (threads s)) (callbacks s ++ logged (AbandonCall r x) th')).
Proof.
  intros Hs Hth. destruct (ao_owner _ _ _ _ (so_admission s Hs) t _ r x Hth eq_refl) as (Htab & k & Hk & Hreq & Hst).
  apply ticket_lookup in Hk as (e & He & ->). destruct Hst as [a Ha]. cbn in Ha.
  assert (enter_abandon r x (sess s) = if ex_completion e then (Done (Ok RAbandoned), sess s)
    else (AbandonRun r x a, update x (λ ex, set_admission (ex_admission ex) (ex_admission_error ex) true ex) (sess s))) as ->.
  { unfold enter_abandon. rewrite Htab. cbn. rewrite He. cbn. rewrite Ha. by destruct (ex_completion e). }
  destruct (ex_completion e) eqn:Ec; intros [= <- <-].
  - eapply (inv_owner _ _ _ _ r x id id); try done.
    + apply list_eq. intros j. destruct (decide (j = x)) as [->|]; [|by rewrite list_lookup_alter_ne].
      rewrite list_lookup_alter_eq. by destruct (objects (sess s) !! x).
    + right. split; [done|by left].
    + intros k Hk _. split; [done|]. intros Hadm.
      destruct (ao_admitting _ _ _ _ (so_admission s Hs) x k Hk Hadm) as (u & y & Hy & Hin).
      assert (∃ r', owner y = Some (r', x)) as [r' Hown].
      { destruct y; try done; apply bool_decide_eq_true in Hin; subst; by eexists. }
      assert (u = t) as -> by (eapply (ao_unique _ _ _ _ (so_admission s Hs)); [exact Hy|exact Hth|exact Hown|done]).
      rewrite Hth in Hy. by injection Hy as <-.
    + left. split; [done|by left].
  - eapply (inv_owner _ _ _ _ r x _ (λ k, Ticket (tk_request k) (tk_admission k) true)); try done.
    + by left.
    + intros k Hk _. apply ticket_lookup in Hk as (e' & He' & ->). rewrite He in He'. injection He' as <-.
      split; [done|]. intros _. by apply bool_decide_eq_true_2.
    + right. split_and!; [done|by eexists|done].
Qed.

Lemma finish_abandon_ok s t r x a cb th' se' : system_ok s → threads s !! t = Some (AbandonRun r x a) →
  finish_abandon r x cb (sess s) = (th', se') →
  system_ok (System se' (<[t := th']> (threads s)) (callbacks s ++ logged (AbandonRun r x a) th')).
Proof.
  intros Hs Hth. unfold finish_abandon. destruct cb as [u|e]; intros [= <- <-];
    (eapply (inv_owner _ _ _ _ r x _ (λ k, Ticket (tk_request k) (tk_admission k) false)); try done; [right|left; split; [done|by left]]).
  - split; [done|]. cbn [update executions]. case_bool_decide; [by right|by left].
  - split; [done|by left].
Qed.

Lemma admission_wait_quiet r x s : (x < length (objects s))%nat →
  let th := admission_wait r x s in bystander th ∧ idle th ∧ ∀ y, waits_on th = Some y → (y < length (objects s))%nat.
Proof.
  intros Hx. unfold admission_wait. destruct (objects s !! x); [|done]. destruct (ex_admitting _).
  - split_and!; [done|done|]. by intros y [= <-].
  - by destruct (ex_admission _).
Qed.

Lemma enter_admission_ok s t r th' se' : system_ok s → threads s !! t = Some (AdmitCall r) →
  enter_admission r (sess s) = (th', se') →
  system_ok (System se' (<[t := th']> (threads s)) (callbacks s ++ logged (AdmitCall r) th')).
Proof.
  intros Hs Hth. unfold enter_admission.
  assert (∀ o, system_ok (System (sess s) (<[t := Done o]> (threads s)) (callbacks s ++ logged (AdmitCall r) (Done o)))) as Hdone.
  { intros o. by apply inv_quiet. }
  destruct (negb (bool_decide (se_lifecycle (sess s) = Active))); [intros [= <- <-]; apply Hdone|].
  destruct (executions (sess s) !! rq_execution r) as [x|] eqn:Htab.
  - destruct (objects (sess s) !! x) as [e|] eqn:He; [|intros [= <- <-]; apply Hdone].
    destruct (negb _); intros [= <- <-]; [apply Hdone|].
    destruct (admission_wait_quiet r x (sess s)) as (H1 & H2 & H3); [by eapply lookup_lt_Some|].
    apply inv_quiet; try done. by destruct (admission_wait r x (sess s)).
  - intros [= <- <-]. destruct Hs as [Ha Hc Hw]. split; cbn [sess threads callbacks objects executions logged].
    + rewrite fmap_app. pose proof (admission_new _ _ _ _ t r Ha Hth Htab) as Hn. by rewrite length_fmap in Hn.
    + rewrite fmap_app. by eapply completion_idle; [apply completion_new| |..].
    + apply waits_insert; [done|rewrite length_app; cbn; lia|done].
Qed.

Lemma completion_wait_ok s t th r x th' se' : system_ok s → threads s !! t = Some th →
  th = CompleteCall r ∨ th = CompleteWait r x → completion_wait r x (sess s) = (th', se') →
  system_ok (System se' (<[t := th']> (threads s)) (callbacks s ++ logged th th')).
Proof.
  intros Hs Hth Hcall. assert (bystander th ∧ idle th) as [Hb Hi] by (by destruct Hcall as [-> | ->]).
  unfold completion_wait. destruct (objects (sess s) !! x) as [e|] eqn:He.
  2:{ intros [= <- <-]. apply inv_quiet; try done. by destruct Hcall as [-> | ->]. }
  destruct (ex_completing e) eqn:Ec.
  { intros [= <- <-]. apply inv_quiet; try done; [by destruct Hcall as [-> | ->]|]. intros y [= <-]. by eapply lookup_lt_Some. }
  destruct (ex_completion e) eqn:Ecc; intros [= <- <-].
  { apply inv_quiet; try done. by destruct Hcall as [-> | ->]. }
  assert (logged th (CompleteRun r x) = [CbComplete x]) as -> by (by destruct Hcall as [-> | ->]).
  destruct Hs as [Ha Hc Hw]. split; cbn [sess threads callbacks objects executions update].
  - rewrite fmap_alter_same by done. by eapply admission_bystander.
  - rewrite (fmap_alter _ _ (λ _, Mark None true)) by done. assert (completeds [CbComplete x] = []) as Hl by done.
    pose proof (completion_claim _ _ _ t th r x Hc Hth Hi) as Hcl.
    assert ((mark_of <$> objects (sess s)) !! x = Some (Mark None false)) as Hm.
    { rewrite list_lookup_fmap, He. unfold mark_of. cbn. by rewrite Ec, Ecc. }
    destruct (Hcl Hm) as [H1 H2 H3 H4]. split; [done..|]. unfold completeds in *. rewrite omap_app. cbn. by rewrite app_nil_r.
  - rewrite length_alter. apply waits_insert; [done|done|]. done.
Qed.

Lemma enter_completion_ok s t r th' se' : system_ok s → threads s !! t = Some (CompleteCall r) →
  enter_completion r (sess s) = (th', se') →
  system_ok (System se' (<[t := th']> (threads s)) (callbacks s ++ logged (CompleteCall r) th')).
Proof.
  intros Hs Hth. unfold enter_completion.
  assert (∀ o, system_ok (System (sess s) (<[t := Done o]> (threads s)) (callbacks s ++ logged (CompleteCall r) (Done o)))) as Hdone.
  { intros o. by apply inv_quiet. }
  destruct (x ← executions (sess s) !! rq_execution r; _) as [[x e]|]; [|intros [= <- <-]; apply Hdone].
  destruct (negb _); [intros [= <- <-]; apply Hdone|]. apply completion_wait_ok; [done|done|by left].
Qed.

Lemma finish_completion_ok s t r x cb th' se' : system_ok s → threads s !! t = Some (CompleteRun r x) →
  finish_completion r x cb (sess s) = (th', se') →
  system_ok (System se' (<[t := th']> (threads s)) (callbacks s ++ logged (CompleteRun r x) th')).
Proof.
  intros [Ha Hc Hw] Hth. unfold finish_completion.
  assert (mark_of <$> objects (sess s) = (mark_of <$> objects (sess s))) as Hm by done.
  assert (∃ e, objects (sess s) !! x = Some e ∧ ex_completion e = None) as (e0 & He0 & Hn0).
  { pose proof (co_run _ _ _ Hc t r x Hth) as Hr. rewrite list_lookup_fmap in Hr.
    destruct (objects (sess s) !! x) as [e0|]; [|done]. exists e0. split; [done|]. by injection Hr. }
  destruct cb as [c|e]; intros [= <- <-]; split; cbn [sess threads callbacks objects executions update].
  - rewrite fmap_alter_same by done. by eapply admission_bystander.
  - set (c' := Reply _ _ _ _). rewrite (fmap_alter _ _ (λ _, Mark (Some (r, c')) false)) by done.
    by apply (completion_end _ _ _ t _ r x (Some (r, c'))).
  - rewrite length_alter. by apply waits_insert.
  - rewrite fmap_alter_same by done. by eapply admission_bystander.
  - assert (mark_of <$> alter (λ ex, set_completion (ex_completion ex) false ex) x (objects (sess s)) =
      alter (λ _, Mark None false) x (mark_of <$> objects (sess s))) as ->.
    { rewrite (fmap_alter _ _ (λ m, Mark (mk_completion m) false)) by done. apply list_eq. intros j.
      destruct (decide (j = x)) as [->|]; [|by rewrite !list_lookup_alter_ne by done].
      rewrite !list_lookup_alter_eq, list_lookup_fmap, He0. cbn. by rewrite Hn0. }
    by apply (completion_end _ _ _ t _ r x None).
  - rewrite length_alter. by apply waits_insert.
Qed.

Lemma start_quiet r cb se o se' : execution_start r cb se = (o, se') →
  ticket_of <$> objects se' = ticket_of <$> objects se ∧ mark_of <$> objects se' = mark_of <$> objects se ∧
  executions se' = executions se.
Proof.
  unfold execution_start. destruct (x ← executions se !! rq_execution r; _) as [[[x e] a]|]; [|by intros [= _ <-]].
  repeat case_match; intros [= _ <-]; try done; cbn; by rewrite !fmap_alter_same by done.
Qed.

Lemma advance_ok s t th cb th' se' : system_ok s → threads s !! t = Some th → advance th cb (sess s) = (th', se') →
  system_ok (System se' (<[t := th']> (threads s)) (callbacks s ++ logged th th')).
Proof.
  intros Hs Hth. destruct th as [r|r x|r x|r x a|r|r|r x|r x|r x|r x a|x| | |o]; cbn [advance].
  - by apply enter_admission_ok.
  - intros [= <- <-]. destruct (admission_wait_quiet r x (sess s)) as (H1 & H2 & H3); [by eapply (so_waits s Hs t)|].
    by apply inv_quiet.
  - by apply finish_admission_ok.
  - intros [= <- <-]. rewrite list_insert_id by done. rewrite app_nil_r. by destruct s.
  - destruct (execution_start _ _ _) as [o se1] eqn:E. intros [= <- <-]. apply start_quiet in E as (? & ? & ?). by apply inv_quiet.
  - by apply enter_completion_ok.
  - apply completion_wait_ok; [done|done|by right].
  - by apply finish_completion_ok.
  - by apply enter_abandon_ok.
  - by apply finish_abandon_ok.
  - intros [= <- <-]. rewrite list_insert_id by done. rewrite app_nil_r. by destruct s.
  - unfold enter_drain, drain_wait. repeat case_match; intros [= <- <-]; by apply inv_quiet.
  - unfold drain_wait. repeat case_match; intros [= <- <-]; by apply inv_quiet.
  - intros [= <- <-]. rewrite list_insert_id by done. rewrite app_nil_r. by destruct s.
Qed.

Lemma disconnect_ok s t r x a : system_ok s → threads s !! t = Some (AdmitAnswered r x a) →
  system_ok (System (sess s) (<[t := AbandonCall r x]> (threads s)) (callbacks s)).
Proof.
  intros Hs Hth.
  assert (system_ok (System (sess s) (<[t := AbandonCall r x]> (threads s)) (callbacks s ++ logged (AdmitAnswered r x a) (AbandonCall r x)))) as Hok;
    [|by rewrite app_nil_r in Hok].
  eapply (inv_owner _ _ _ _ r x id id); try done.
  - apply list_eq. intros j. destruct (decide (j = x)) as [->|]; [|by rewrite list_lookup_alter_ne].
    rewrite list_lookup_alter_eq. by destruct (objects (sess s) !! x).
  - by left.
  - intros k Hk Hst. split; [by eexists|]. intros Hadm.
    destruct (ao_admitting _ _ _ _ (so_admission s Hs) x k Hk Hadm) as (u & y & Hy & Hin).
    assert (∃ r', owner y = Some (r', x)) as [r' Hown].
    { destruct y; try done; apply bool_decide_eq_true in Hin; subst; by eexists. }
    assert (u = t) as -> by (eapply (ao_unique _ _ _ _ (so_admission s Hs)); [exact Hy|exact Hth|exact Hown|done]).
    rewrite Hth in Hy. by injection Hy as <-.
  - left. split; [done|by right].
Qed.

Lemma step_session_ok ev s : system_ok s → system_ok (step ev s).
Proof.
  intros Hs. destruct ev as [th|t cb|t|t|]; cbn [step].
  - destruct (entry th) eqn:E; [|done]. assert (bystander th ∧ idle th ∧ waits_on th = None) as (Hb & Hi & Hw) by (by destruct th).
    destruct Hs as [Ha Hc Hws]. split; cbn [sess threads callbacks].
    + by apply admission_call.
    + by apply completion_call.
    + intros u y x [Hu|[_ Hu]]%lookup_app_Some E'; [by eapply Hws|].
      apply list_lookup_singleton_Some in Hu as [_ <-]. congruence.
  - destruct (threads s !! t) as [th|] eqn:Hth; [|done].
    destruct (advance th cb (sess s)) as [th' se'] eqn:E. by eapply advance_ok.
  - destruct (threads s !! t) as [[]|] eqn:Hth; try done. by eapply disconnect_ok.
  - destruct (threads s !! t) as [[]|] eqn:Hth; try done.
    pose proof (inv_quiet s t DrainWait (Done (Ok (RDrained false))) (sess s) Hs Hth) as Hq. rewrite app_nil_r in Hq.
    by apply Hq.
  - destruct Hs as [Ha Hc Hw]. by split.
Qed.

Lemma init_ok : system_ok system_init.
Proof.
  split; [split|split|]; cbn; try done; try (intros; set_solver).
  - constructor.
  - split; [constructor|]. by intros x ?%elem_of_nil.
  - split; [constructor|]. intros x. split; [by intros ?%elem_of_nil|by intros (m & Hm & _)].
Qed.

Lemma run_session_ok evs : ∀ s, system_ok s → system_ok (run evs s).
Proof. induction evs as [|ev evs IH]; [done|]. intros s Hs. by apply IH, step_session_ok. Qed.

(** ** Results stay *)

(** The objects of [s] are in [s'] with the admission and completion they had. *)
Definition results_kept (s s' : system) : Prop := ∀ x e, objects (sess s) !! x = Some e →
  ∃ e', objects (sess s') !! x = Some e' ∧ ex_request e' = ex_request e ∧
    (∀ a, ex_admission e = Some a → ex_admission e' = Some a) ∧
    (∀ c, ex_completion e = Some c → ex_completion e' = Some c).

Lemma results_kept_refl s : results_kept s s.
Proof. intros x e He. by exists e. Qed.

Lemma results_kept_same s s' : objects (sess s') = objects (sess s) → results_kept s s'.
Proof. intros H x e He. rewrite H. by exists e. Qed.

Lemma results_kept_alter s s' y f : objects (sess s') = alter f y (objects (sess s)) →
  (∀ e, objects (sess s) !! y = Some e → ex_request (f e) = ex_request e ∧
    (∀ a, ex_admission e = Some a → ex_admission (f e) = Some a) ∧
    (∀ c, ex_completion e = Some c → ex_completion (f e) = Some c)) → results_kept s s'.
Proof.
  intros H Hf x e He. rewrite H. destruct (decide (x = y)) as [->|Hne].
  - exists (f e). rewrite list_lookup_alter_eq, He. split; [done|by apply Hf].
  - exists e. by rewrite list_lookup_alter_ne.
Qed.

Lemma start_kept r cb se o se' : execution_start r cb se = (o, se') →
  objects se' = objects se ∨ ∃ x a b, objects se' = alter (set_started a b) x (objects se).
Proof.
  unfold execution_start. destruct (x ← executions se !! rq_execution r; _) as [[[x e] a]|]; [|intros [= _ <-]; by left].
  repeat case_match; intros [= _ <-]; try (by left); right; by eexists _, _, _.
Qed.

Lemma completion_wait_kept s r x th' se' ths log : completion_wait r x (sess s) = (th', se') →
  results_kept s (System se' ths log).
Proof.
  unfold completion_wait. repeat case_match; intros [= <- <-]; try (by apply results_kept_same).
  eapply results_kept_alter; [done|]. cbn. intros e' He'. split_and!; [done|done|]. intros c Hc. congruence.
Qed.

Lemma advance_kept s t th cb th' se' ths log : system_ok s → threads s !! t = Some th →
  advance th cb (sess s) = (th', se') → results_kept s (System se' ths log).
Proof.
  intros Hs Hth. destruct th as [r|r x|r x|r x a|r|r|r x|r x|r x|r x a|x| | |o]; cbn [advance];
    try (by intros [= <- <-]; apply results_kept_same).
  - unfold enter_admission. repeat case_match; intros [= <- <-]; try (by apply results_kept_same).
    intros y ex Hex. exists ex. cbn. split; [by apply lookup_app_l_Some|done].
  - destruct (ao_owner _ _ _ _ (so_admission s Hs) t _ r x Hth eq_refl) as (_ & k & Hk & _ & Hst).
    apply ticket_lookup in Hk as (e0 & He0 & ->). cbn in Hst. unfold finish_admission.
    destruct (admission_reply cb); intros [= <- <-]; (eapply results_kept_alter; [done|]; cbn; intros ex Hex;
      rewrite He0 in Hex; injection Hex as <-; split_and!; [done| |done]; intros; congruence).
  - destruct (execution_start _ _ _) as [o se1] eqn:E. intros [= <- <-]. apply start_kept in E as [E|(x & a & b & E)].
    + by apply results_kept_same.
    + by eapply results_kept_alter.
  - unfold enter_completion. repeat case_match; try (intros [= <- <-]; by apply results_kept_same). apply completion_wait_kept.
  - apply completion_wait_kept.
  - pose proof (co_run _ _ _ (so_completion s Hs) t r x Hth) as Hm. rewrite list_lookup_fmap in Hm.
    unfold finish_completion. destruct cb; intros [= <- <-]; (eapply results_kept_alter; [done|]; cbn; intros ex Hex;
      rewrite Hex in Hm; injection Hm as Hn _; split_and!; [done|done|]; intros; congruence).
  - unfold enter_abandon. repeat case_match; intros [= <- <-]; [|by apply results_kept_same].
    eapply results_kept_alter; [done|]. done.
  - unfold finish_abandon. repeat case_match; intros [= <- <-]; (by eapply results_kept_alter).
  - unfold enter_drain, drain_wait. repeat case_match; intros [= <- <-]; by apply results_kept_same.
  - unfold drain_wait. repeat case_match; intros [= <- <-]; by apply results_kept_same.
Qed.

Lemma results_kept_trans s1 s2 s3 : results_kept s1 s2 → results_kept s2 s3 → results_kept s1 s3.
Proof.
  intros H1 H2 x e He. destruct (H1 x e He) as (e1 & He1 & R1 & A1 & C1). destruct (H2 x e1 He1) as (e2 & He2 & R2 & A2 & C2).
  exists e2. split_and!; [done|congruence|auto|auto].
Qed.

Lemma run_kept evs : ∀ s, system_ok s → results_kept s (run evs s).
Proof.
  induction evs as [|ev evs IH]; intros s Hs; [apply results_kept_refl|].
  eapply results_kept_trans; [|by apply IH, step_session_ok]. destruct ev as [th|t cb|t|t|]; cbn [step].
  - destruct (entry th); by apply results_kept_same.
  - destruct (threads s !! t) as [th|] eqn:Hth; [|by apply results_kept_same].
    destruct (advance th cb (sess s)) as [th' se'] eqn:E. by eapply advance_kept.
  - destruct (threads s !! t) as [[]|]; by apply results_kept_same.
  - destruct (threads s !! t) as [[]|]; by apply results_kept_same.
  - by apply results_kept_same.
Qed.

(** Callbacks run once and results stay.  In every interleaving of
    admissions, starts, completions, lost replies, drains and discards, the
    admission callback runs once per execution, the callback that gives an
    admission back at most once, and a completion callback returns at most once;
    no two completion callbacks of an execution overlap; and the admission and
    the completion an execution has recorded are never changed, so every
    duplicate is answered with the same reply. *)
Theorem callbacks_once evs evs' :
  let s := run evs system_init in
  (NoDup (admits (callbacks s)) ∧ NoDup (abandons (callbacks s)) ∧ NoDup (completeds (callbacks s))) ∧
  (∀ t1 t2 r1 r2 x, threads s !! t1 = Some (CompleteRun r1 x) → threads s !! t2 = Some (CompleteRun r2 x) → t1 = t2) ∧
  (∀ x e, objects (sess s) !! x = Some e → ∃ e', objects (sess (run evs' s)) !! x = Some e' ∧
     (∀ a, ex_admission e = Some a → ex_admission e' = Some a) ∧
     (∀ c, ex_completion e = Some c → ex_completion e' = Some c)).
Proof.
  intros s. pose proof (run_session_ok evs _ init_ok) as Hs. fold s in Hs. destruct Hs as [Ha Hc Hw]. split_and!.
  - rewrite (ao_admits _ _ _ _ Ha). apply NoDup_ListNoDup, seq_NoDup.
  - apply (ao_abandons _ _ _ _ Ha).
  - apply (co_completeds _ _ _ Hc).
  - apply (co_unique _ _ _ Hc).
  - intros x e He. destruct (run_kept evs' s (run_session_ok evs _ init_ok) x e He) as (e' & ? & _ & ? & ?). by exists e'.
Qed.

(** C35: no caller waits for nobody.  In every run, a duplicate admission that
    waits either waits for a thread that is in the admission or the give-back
    callback of its execution, or its next turn ends its call; the same holds of a
    duplicate completion, which otherwise ends or takes the completion over; and
    a thread in a callback is out of it when the callback answers. *)
Theorem waiters_have_runner evs t th :
  let s := run evs system_init in
  threads s !! t = Some th →
  match th with
  | AdmitWait r x => (∃ u th', threads s !! u = Some th' ∧ admitting_in x th' = true) ∨
      ∀ cb, ∃ o, (advance th cb (sess s)).1 = Done o
  | CompleteWait r x => (∃ u r', threads s !! u = Some (CompleteRun r' x)) ∨
      ∀ cb, (∃ o, (advance th cb (sess s)).1 = Done o) ∨ (advance th cb (sess s)).1 = CompleteRun r x
  | AdmitRun _ _ | CompleteRun _ _ | AbandonRun _ _ _ => ∀ cb x, admitting_in x (advance th cb (sess s)).1 = false ∧ idle (advance th cb (sess s)).1
  | _ => True
  end.
Proof.
  intros s Hth. pose proof (run_session_ok evs _ init_ok) as Hs. fold s in Hs.
  destruct th as [r|r x|r x|r x a|r|r|r x|r x|r x|r x a|x| | |o]; try done; cbn [advance].
  - destruct (lookup_lt_is_Some_2 (objects (sess s)) x) as [e He]; [by eapply (so_waits s Hs t)|].
    unfold admission_wait. rewrite He. destruct (ex_admitting e) eqn:E; [left|right].
    + apply (ao_admitting _ _ _ _ (so_admission s Hs) x (ticket_of e)); [by rewrite list_lookup_fmap, He|done].
    + intros _. destruct (ex_admission e); by eexists.
  - intros cb y. unfold finish_admission. by destruct (admission_reply cb).
  - destruct (lookup_lt_is_Some_2 (objects (sess s)) x) as [e He]; [by eapply (so_waits s Hs t)|].
    unfold completion_wait. rewrite He. destruct (ex_completing e) eqn:E; [left|right].
    + apply (co_completing _ _ _ (so_completion s Hs) x (mark_of e)); [by rewrite list_lookup_fmap, He|done].
    + intros _. destruct (ex_completion e); [left; by eexists|by right].
  - intros cb y. unfold finish_completion. by destruct cb.
  - intros cb y. unfold finish_abandon. by destruct cb.
Qed.

(** ** Closing *)

(** No thread is in the admission callback. *)
Definition no_admission (s : system) : Prop := ∀ t r x, threads s !! t ≠ Some (AdmitRun r x).

(** What stays true of a session that was closed with nothing outstanding. *)
Record settled (s0 s : system) : Prop := {
  st_closed : se_lifecycle (sess s) = Closed;
  st_objects : length (objects (sess s)) = length (objects (sess s0));
  st_quiet : no_admission s;
  st_table : ∀ id x, executions (sess s) !! id = Some x → executions (sess s0) !! id = Some x;
  st_done : ∀ x e, objects (sess s) !! x = Some e → ∃ e0, objects (sess s0) !! x = Some e0 ∧
    (ex_admission e0 = None → ex_admission e = None) ∧ (is_Some (ex_completion e0) → is_Some (ex_completion e));
}.

Lemma settled_same s0 s s' : settled s0 s → se_lifecycle (sess s') = Closed → objects (sess s') = objects (sess s) →
  executions (sess s') = executions (sess s) → no_admission s' → settled s0 s'.
Proof. intros [H1 H2 H3 H4 H5] Hl Ho He Hn. split; rewrite ?Ho, ?He; done. Qed.

Lemma settled_alter s0 s s' y f : settled s0 s → se_lifecycle (sess s') = Closed → no_admission s' →
  objects (sess s') = alter f y (objects (sess s)) →
  (executions (sess s') = executions (sess s) ∨ ∃ id, executions (sess s') = delete id (executions (sess s))) →
  dict_ok (executions (sess s)) →
  (∀ e, objects (sess s) !! y = Some e → (ex_admission e = None → ex_admission (f e) = None) ∧
    (is_Some (ex_completion e) → is_Some (ex_completion (f e)))) → settled s0 s'.
Proof.
  intros [H1 H2 H3 H4 H5] Hl Hn Ho He Hd Hf. split; [done|by rewrite Ho, length_alter|done| |].
  - intros id x Hx. apply H4. destruct He as [He|[k He]]; rewrite He in Hx; [done|].
    by apply dict_lookup_delete_Some in Hx as [_ ?].
  - intros x e Hx. rewrite Ho in Hx. destruct (decide (x = y)) as [->|Hne].
    + rewrite list_lookup_alter_eq in Hx. destruct (objects (sess s) !! y) as [e1|] eqn:E; [|done]. injection Hx as <-.
      destruct (H5 y e1 E) as (e0 & ? & ? & ?). destruct (Hf e1 eq_refl). exists e0. split_and!; auto.
    + rewrite list_lookup_alter_ne in Hx by done. by apply H5.
Qed.

Lemma no_admission_insert s t th' log se : no_admission s → (∀ r x, th' ≠ AdmitRun r x) →
  no_admission (System se (<[t := th']> (threads s)) log).
Proof. intros H Hn u r x [[_ E]|[_ E]]%thread_cases; [by apply (Hn r x)|by apply (H u r x)]. Qed.

Lemma completion_wait_settled s0 s r x th' se' ths log : system_ok s → settled s0 s →
  completion_wait r x (sess s) = (th', se') → no_admission (System se' ths log) → settled s0 (System se' ths log).
Proof.
  intros Hs Hq. pose proof (ao_dict _ _ _ _ (so_admission s Hs)). unfold completion_wait.
  repeat case_match; intros [= <- <-] Hn; try (by eapply settled_same; [done|apply Hq|..]).
  eapply settled_alter; [done|apply Hq|done|reflexivity|by left|done|]. cbn. intros ex Hex. split; [done|]. congruence.
Qed.

Lemma completion_wait_thread r x s : ∀ r' y, (completion_wait r x s).1 ≠ AdmitRun r' y.
Proof. intros r' y. unfold completion_wait. repeat case_match; done. Qed.

Lemma advance_settled s0 s t th cb th' se' log : system_ok s → settled s0 s → threads s !! t = Some th →
  advance th cb (sess s) = (th', se') → settled s0 (System se' (<[t := th']> (threads s)) log).
Proof.
  intros Hs Hq Hth. pose proof (ao_dict _ _ _ _ (so_admission s Hs)) as Hd. pose proof (st_quiet _ _ Hq) as Hn.
  pose proof (st_closed _ _ Hq) as Hcl.
  assert (∀ th'' se'', (∀ r x, th'' ≠ AdmitRun r x) → no_admission (System se'' (<[t := th'']> (threads s)) log)) as Hna
    by (intros; by apply no_admission_insert).
  destruct th as [r|r x|r x|r x a|r|r|r x|r x|r x|r x a|x| | |o]; cbn [advance].
  - unfold enter_admission. rewrite Hcl. cbn. intros [= <- <-]. eapply settled_same; [done..|]. by apply Hna.
  - intros [= <- <-]. eapply settled_same; [done..|]. apply Hna. intros. unfold admission_wait. repeat case_match; done.
  - by destruct (Hn t r x).
  - intros [= <- <-]. eapply settled_same; [done..|]. by apply Hna.
  - destruct (execution_start _ _ _) as [o se1] eqn:E. intros [= <- <-].
    assert (se_lifecycle se1 = Closed ∧ executions se1 = executions (sess s)) as [H1 H2].
    { revert E. unfold execution_start. destruct (x ← executions (sess s) !! rq_execution r; _) as [[[x e] a]|];
        repeat case_match; intros [= _ <-]; done. }
    apply start_kept in E as [E|(x & a & b & E)]; [eapply settled_same; [done..|]; by apply Hna|].
    eapply settled_alter; [done|done|by apply Hna|exact E|by left|done|done].
  - unfold enter_completion. repeat case_match; try (intros [= <- <-]; eapply settled_same; [done..|]; by apply Hna).
    intros E. eapply completion_wait_settled; [done|done|exact E|]. apply Hna. intros r' y ->.
    by apply (completion_wait_thread r n (sess s) r' y); rewrite E.
  - intros E. eapply completion_wait_settled; [done|done|exact E|]. apply Hna. intros r' y ->.
    by apply (completion_wait_thread r x (sess s) r' y); rewrite E.
  - unfold finish_completion. destruct cb; intros [= <- <-];
      (eapply settled_alter; [done|done|by apply Hna|reflexivity|by left|done|]); cbn; intros ex Hex; [|done].
    split; [done|by eexists].
  - unfold enter_abandon. repeat case_match; intros [= <- <-]; [|eapply settled_same; [done..|]; by apply Hna].
    eapply settled_alter; [done|done|by apply Hna|reflexivity|by left|done|done].
  - unfold finish_abandon. destruct (match cb with Ok _ => Ok tt | Raise e => Raise e end); intros [= <- <-];
      (eapply settled_alter; [done|done|by apply Hna|reflexivity| |done|done]); [|by left].
    cbn. case_bool_decide; [right; by eexists|by left].
  - intros [= <- <-]. eapply settled_same; [done..|]. by apply Hna.
  - unfold enter_drain. rewrite Hcl. cbn. intros [= <- <-]. eapply settled_same; [done..|]. by apply Hna.
  - unfold drain_wait. case_match; intros [= <- <-]; (eapply settled_same; [done|..]; try done); by apply Hna.
  - intros [= <- <-]. eapply settled_same; [done..|]. by apply Hna.
Qed.

Lemma step_settled s0 s ev : system_ok s → settled s0 s → settled s0 (step ev s).
Proof.
  intros Hs Hq. pose proof (st_quiet _ _ Hq) as Hn. pose proof (st_closed _ _ Hq) as Hcl.
  destruct ev as [th|t cb|t|t|]; cbn [step].
  - destruct (entry th) eqn:E; [|done]. eapply settled_same; [done..|].
    intros u r x [Hu|[_ Hu]]%lookup_app_Some; [by apply (Hn u r x)|]. apply list_lookup_singleton_Some in Hu as [_ ->]. done.
  - destruct (threads s !! t) as [th|] eqn:Hth; [|done].
    destruct (advance th cb (sess s)) as [th' se'] eqn:E. by eapply advance_settled.
  - destruct (threads s !! t) as [[]|] eqn:Hth; try done. eapply settled_same; [done..|]. by apply no_admission_insert.
  - destruct (threads s !! t) as [[]|] eqn:Hth; try done. eapply settled_same; [done..|]. by apply no_admission_insert.
  - by eapply settled_same.
Qed.

Lemma run_settled s0 evs : ∀ s, system_ok s → settled s0 s → settled s0 (run evs s).
Proof. induction evs as [|ev evs IH]; [done|]. intros s Hs Hq. apply IH; [by apply step_session_ok|by apply step_settled]. Qed.

Lemma none_outstanding s : dict_ok (executions s) → any_outstanding s = false ↔
  ∀ id x e, executions s !! id = Some x → objects s !! x = Some e → outstanding e = false.
Proof.
  intros Hd. unfold any_outstanding. split.
  - intros H id x e Hx He. destruct (outstanding e) eqn:E; [|done]. rewrite <- H. symmetry. apply existsb_exists.
    exists x. split; [|by rewrite He]. apply list_elem_of_In. unfold vals.
    apply list_elem_of_fmap. exists (id, x). split; [done|by apply dict_lookup_elem].
  - intros H. apply not_true_is_false. intros (x & Hx & E)%existsb_exists. apply list_elem_of_In in Hx.
    unfold vals in Hx. apply list_elem_of_fmap in Hx as ([id y] & -> & Hin). apply dict_elem_lookup in Hin; [|done].
    cbn in E. destruct (objects s !! y) as [e|] eqn:He; [|done]. by rewrite (H id y e) in E.
Qed.

(** A drained session is over.  When a drain closes a session, none of its
    admitted executions lacks a completion; and unless some admission callback is
    still running at that moment, the session then stays closed, takes no new
    execution and has nothing outstanding whatever happens later. *)
Theorem drained_is_final evs t th cb :
  let s := run evs system_init in
  threads s !! t = Some th → th = DrainCall ∨ th = DrainWait → se_lifecycle (sess s) ≠ Closed →
  (advance th cb (sess s)).1 = Done (Ok (RDrained true)) →
  let s' := step (Advance t cb) s in
  se_lifecycle (sess s') = Closed ∧ any_outstanding (sess s') = false ∧
  (no_admission s' → ∀ evs', let s'' := run evs' s' in
     se_lifecycle (sess s'') = Closed ∧ any_outstanding (sess s'') = false ∧
     length (objects (sess s'')) = length (objects (sess s'))).
Proof.
  intros s Hth Hcall Hl Hdone s'. pose proof (run_session_ok evs _ init_ok) as Hs. fold s in Hs.
  assert (se_lifecycle (sess s') = Closed ∧ any_outstanding (sess s') = false) as [Hc Ho].
  { unfold s'. cbn [step]. rewrite Hth. revert Hdone. destruct Hcall as [-> | ->]; cbn [advance].
    - unfold enter_drain, drain_wait. rewrite bool_decide_eq_false_2 by done.
      destruct (any_outstanding _) eqn:E; [done|]. intros _. by split.
    - unfold drain_wait. destruct (any_outstanding _) eqn:E; [done|]. intros _. by split. }
  split_and!; [done|done|]. intros Hn evs' s''. pose proof (step_session_ok (Advance t cb) s Hs) as Hs'.
  assert (settled s' s') as Hq. { split; try done. intros x e He. by exists e. }
  pose proof (run_settled s' evs' s' Hs' Hq) as Hq'. fold s'' in Hq'.
  split_and!; [apply Hq'| |apply Hq'].
  pose proof (ao_dict _ _ _ _ (so_admission _ Hs')) as Hd.
  pose proof (ao_dict _ _ _ _ (so_admission _ (run_session_ok evs' s' Hs'))) as Hd'.
  apply none_outstanding; [done|]. intros id x e Hx He.
  destruct (st_done _ _ Hq' x e He) as (e0 & He0 & Ha & Hcm). apply (st_table _ _ Hq') in Hx.
  pose proof (proj1 (none_outstanding _ Hd) Ho id x e0 Hx He0) as Hout. unfold outstanding in *.
  destruct (ex_admission e0); [|by rewrite Ha]. destruct (ex_completion e0) eqn:E; [|done].
  destruct (ex_completion e); [by destruct (ex_admission e)|]. by destruct Hcm.
Qed.

(** ** What the callbacks do not exclude *)

Definition demo_request : request := Request "session" "call-1" "sha" None (Some 1) (Some "vm").
Definition demo_reply : reply := Reply None None (Some 1) (Some "vm").
Definition yes : outcome reply := Ok demo_reply.

(** The reply of an admission is lost and its reservation is being given back when
    a duplicate waits: the duplicate is told it is admitted all the same. *)
Definition lost_reply : list event :=
  [Call (AdmitCall demo_request); Advance 0 yes; Advance 0 yes; Disconnect 0; Advance 0 yes;
   Call (AdmitCall demo_request); Advance 1 yes; Advance 0 yes; Advance 1 yes].
Example abandoned_admission_is_answered :
  let s := run lost_reply system_init in
  threads s = [Abandoned 0; Done (Ok (RAdmitted (Reply (Some "ADMIT") None (Some 1) (Some "vm")) true))] ∧
  abandons (callbacks s) = [0%nat] ∧ executions (sess s) = ∅.
Proof. vm_compute. done. Qed.

(** A drain closes the session while an admission callback runs, which then
    leaves an execution admitted in a closed session. *)
Definition drain_race : list event :=
  [Call (AdmitCall demo_request); Advance 0 yes; Call DrainCall; Advance 1 yes; Advance 0 yes].
Example drain_misses_admission :
  let s := run drain_race system_init in
  se_lifecycle (sess s) = Closed ∧ any_outstanding (sess s) = true ∧ threads s !! 1%nat = Some (Done (Ok (RDrained true))).
Proof. vm_compute. done. Qed.

(** A duplicate was answered and completes while the lost reply's reservation is
    given back: both callbacks release the same execution. *)
Definition double_release : list event :=
  [Call (AdmitCall demo_request); Advance 0 yes; Advance 0 yes; Call (AdmitCall demo_request); Advance 1 yes;
   Call (CompleteCall demo_request); Advance 2 yes; Disconnect 0; Advance 0 yes; Advance 2 yes; Advance 0 yes].
Example abandoned_and_completed :
  callbacks (run double_release system_init) = [CbAdmit 0; CbComplete 0; CbAbandon 0; CbCompleted 0].
Proof. vm_compute. done. Qed.

Lemma waiters_have_runner_witness :
  let s := run (take 7 lost_reply) system_init in
  threads s !! 1%nat = Some (AdmitWait demo_request 0) ∧ ∃ u th', threads s !! u = Some th' ∧ admitting_in 0 th' = true.
Proof.
  intros s. assert (threads s !! 1%nat = Some (AdmitWait demo_request 0)) as H by (vm_compute; reflexivity). split; [exact H|].
  destruct (waiters_have_runner (take 7 lost_reply) 1 _ H) as [Hr|Hd]; [exact Hr|].
  destruct (Hd yes) as [o Ho]. vm_compute in Ho. discriminate.
Defined.

Definition demo_drain : list event :=
  [Call (AdmitCall demo_request); Advance 0 yes; Advance 0 yes; Call DrainCall; Advance 1 yes;
   Call (CompleteCall demo_request); Advance 2 yes; Advance 2 yes].
Lemma drained_is_final_witness :
  let s := run demo_drain system_init in
  threads s !! 1%nat = Some DrainWait ∧ any_outstanding (sess (step (Advance 1 yes) s)) = false.
Proof.
  intros s. assert (threads s !! 1%nat = Some DrainWait) as H by (vm_compute; reflexivity). split; [exact H|].
  apply (drained_is_final demo_drain 1 DrainWait yes H); [by right|vm_compute; discriminate|vm_compute; reflexivity].
Defined.
