(* ===== verification/Coordinator.v ===== *)
(** * State of the admission coordinator (src/clawbox/experiments/policy.py)

    The attributes of [PolicyCoordinator], their constructor, and the pieces
    every operation shares: the session objects, the admission queue and its
    wake-ups, the demand ledger it embeds, and the wait metrics.  Sessions.v
    holds the session operations and eviction, Admission.v the admission
    decision, Acquire.v the blocking reservation. *)
From S2P Require Import Prelude Dict DemandLedger.

Definition mib : Z := 1024 * 1024.

(** ** Data *)

(** A [Pausable] VM, by identity; [resident] is read from the VM. *)
Definition vm := nat.
Definition residency := vm → bool.

(** [SessionState] *)
Record session := Session {
  session_id : string;
  lifecycle : vm;
  tool_active : bool;
  eviction_eligible : bool;
  eviction_in_progress : bool;
  last_used : Q;
  runtime_lifecycle : option vm;
  pair_before_pause : bool;      (** the hook is set *)
  runtime_before_pause : bool;
  wait_id : option string;
  wait_started : option Q;
  response_ready : bool;
}.

(** [AdmissionRequest] *)
Record request := Request {
  r_session : string;
  r_amount : Z;
  r_class : string;
  r_capacity : bool;
  r_total : option Z;
  r_queued : Q;
}.

(** The reason strings of an admission check. *)
Inductive blocker :=
  | ResidentCapacityBudget
  | ConfiguredMemoryBudget
  | EmergencyFreeMemory
  | Demand (r : reason)           (** the ledger's own reasons *)
  | ExecutionAlreadyInflight
  | LocalHighHysteresis
  | FifoPredecessor.
#[export] Instance blocker_eq_dec : EqDecision blocker.
Proof. solve_decision. Defined.

Record config := Config {
  keep_resident : bool;          (** reclamation is RESIDENT *)
  wait_aware : bool;             (** eviction is WAIT_AWARE_PRESSURE *)
  runtime_snapshot : bool;
  os_managed_lifecycle : bool;
  resident_capacity_accounting : bool;
  budget_bytes : Z;
  progress_budget_bytes : Z;
  emergency_free_bytes : Z;
  operation_headroom_bytes : Z;
  startup_headroom_bytes : Z;
  demand_scope : string;
  reclaims_cache : bool;         (** [reclaim_cache] is set *)
}.

(** The admission queue; tickets are fresh objects. *)
Record queue := Queue {
  waiters : list nat;
  waiter_requests : gmap nat request;
  waiter_blockers : gmap nat (list blocker);
  waiter_events : gmap nat bool;
  progress_waiters : gset nat;
}.

Record meters := Meters {
  blocked_seconds : Q;
  peak_commitment_bytes : Z;
  pause_count : Z;
  pause_service_seconds : Q;
  resume_count : Z;
  resume_service_seconds : Q;
  admission_count : Z;
  max_admission_queue_depth : Z;
  admission_wait_samples : list Q;
  lifecycle_wait_samples : dict string (list Q);
  safety_intervention_count : Z;
  safety_interventions_by_reason : dict blocker Z;
  checkpoint_capacity_skips : Z;
  fast_path_count : Z;
}.

(** [reservations], [capacity_claims] and [resident_capacity_claims] *)
Record books := Books {
  reservations : gmap string Z;
  capacity_claims : gmap string Z;
  resident_capacity_claims : gmap string Z;
}.

(** The background cache reclamation: raised error, running, last start. *)
Record reclaimer := Reclaimer {
  reclaim_error : bool;
  reclaim_running : bool;
  last_reclaim : option Q;
}.

(** Session objects live in a store because callers keep them across waits:
    [sessions] maps an id to its current object. *)
Record coordinator := Coordinator {
  cfg : config;
  demand : ledger;
  memory_samples : gmap string (probe * probe);   (** Tool, lifecycle *)
  bookkeeping : books;
  adm : queue;
  store : gmap nat session;
  sessions : dict string nat;
  next_object : nat;
  meter : meters;
  admission_blocked : bool;
  reclaim : reclaimer;
}.

Definition meters_init : meters :=
  Meters 0 0 0 0 0 0 0 0 [] (<["restore" := []]> (<["create" := []]> ∅)) 0 ∅ 0 0.

(** [__init__]; [demand_ledger] is the ledger shared by the arm, or a new one. *)
Definition init (keep wait runtime os_managed resident_accounting : bool)
    (budget_mib emergency_free_mib operation_headroom_mib : Z) (progress_budget_mib : option Z)
    (startup_headroom_mib : Z) (scope : string) (reclaims : bool) (demand_ledger : option ledger)
    : outcome coordinator :=
  let budget := budget_mib * mib in
  let progress := match progress_budget_mib with Some p => p * mib | None => budget end in
  if progress <? budget then
    Raise (ValueError "progress budget cannot be below the admission budget")
  else
    d ← match demand_ledger with
        | Some d => Ok d
        | None => DemandLedger.init progress (emergency_free_mib * mib) 0 false (8 # 10)
        end;
    Ok (Coordinator
          (Config keep wait runtime os_managed resident_accounting budget progress
             (emergency_free_mib * mib) (operation_headroom_mib * mib)
             (if resident_accounting then 0 else startup_headroom_mib * mib) scope reclaims)
          d ∅ (Books ∅ ∅ ∅) (Queue [] ∅ ∅ ∅ ∅) ∅ ∅ 0%nat meters_init false
          (Reclaimer false false None)).

(** ** Updates *)

Definition with_demand (d : ledger) (c : coordinator) : coordinator :=
  Coordinator (cfg c) d (memory_samples c) (bookkeeping c) (adm c) (store c) (sessions c)
    (next_object c) (meter c) (admission_blocked c) (reclaim c).
Definition with_samples (m : gmap string (probe * probe)) (c : coordinator) : coordinator :=
  Coordinator (cfg c) (demand c) m (bookkeeping c) (adm c) (store c) (sessions c)
    (next_object c) (meter c) (admission_blocked c) (reclaim c).
Definition with_books (b : books) (c : coordinator) : coordinator :=
  Coordinator (cfg c) (demand c) (memory_samples c) b (adm c) (store c) (sessions c)
    (next_object c) (meter c) (admission_blocked c) (reclaim c).
Definition with_adm (q : queue) (c : coordinator) : coordinator :=
  Coordinator (cfg c) (demand c) (memory_samples c) (bookkeeping c) q (store c) (sessions c)
    (next_object c) (meter c) (admission_blocked c) (reclaim c).
Definition with_sessions (st : gmap nat session) (ss : dict string nat) (n : nat)
    (c : coordinator) : coordinator :=
  Coordinator (cfg c) (demand c) (memory_samples c) (bookkeeping c) (adm c) st ss n (meter c)
    (admission_blocked c) (reclaim c).
Definition with_meter (m : meters) (c : coordinator) : coordinator :=
  Coordinator (cfg c) (demand c) (memory_samples c) (bookkeeping c) (adm c) (store c) (sessions c)
    (next_object c) m (admission_blocked c) (reclaim c).
Definition with_blocked (b : bool) (c : coordinator) : coordinator :=
  Coordinator (cfg c) (demand c) (memory_samples c) (bookkeeping c) (adm c) (store c) (sessions c)
    (next_object c) (meter c) b (reclaim c).
Definition with_reclaim (r : reclaimer) (c : coordinator) : coordinator :=
  Coordinator (cfg c) (demand c) (memory_samples c) (bookkeeping c) (adm c) (store c) (sessions c)
    (next_object c) (meter c) (admission_blocked c) r.

(** Running a ledger operation inside the coordinator. *)
Definition on_demand {A} (m : M ledger A) : M coordinator A := λ c,
  let '(r, d) := m (demand c) in (r, with_demand d c).

Definition msum_vals (m : gmap string Z) : Z := msum (λ _ v, v) m.

(** ** The admission queue *)

(** A request whose claim is already booked: the same VM's polling must not
    stall other VMs. *)
Definition inflight (d : ledger) (sid cls : string) : bool :=
  bool_decide (is_Some (claims d !! (sid, cls))) && negb (bool_decide (cls = "tool_admission")).

Definition progress_wake_batch : nat := 8.

(** [_signal_admission_waiters_locked]: [first] until a runnable waiter was
    seen, [progress] runnable progress waiters so far. *)
Fixpoint signal_from (d : ledger) (q : queue) (first : bool) (progress : nat) (ts : list nat)
    (ev : gmap nat bool) : gmap nat bool :=
  match ts with
  | [] => ev
  | t :: ts' =>
      match waiter_requests q !! t, ev !! t with
      | Some r, Some _ =>
          if inflight d (r_session r) (r_class r) then signal_from d q first progress ts' ev
          else
            let ev1 := if first then <[t := true]> ev else ev in
            if bool_decide (t ∈ progress_waiters q) then
              signal_from d q false (S progress) ts'
                (if (S progress <=? progress_wake_batch)%nat then <[t := true]> ev1 else ev1)
            else signal_from d q false progress ts' ev1
      | _, _ => signal_from d q first progress ts' ev
      end
  end.

Definition with_events (ev : gmap nat bool) (q : queue) : queue :=
  Queue (waiters q) (waiter_requests q) (waiter_blockers q) ev (progress_waiters q).

Definition signal_waiters (c : coordinator) : coordinator :=
  with_adm (with_events (signal_from (demand c) (adm c) true 0%nat (waiters (adm c))
                           (waiter_events (adm c))) (adm c)) c.

(** [set_new_session_admission_blocked] *)
Definition set_new_session_admission_blocked (b : bool) (c : coordinator) : coordinator :=
  signal_waiters (with_blocked b c).

(** ** Reservations *)

(** [_release_from] on one of the two ledgers. *)
Inductive which_book := Reservations | CapacityClaims.

Definition book_of (w : which_book) (b : books) : gmap string Z :=
  match w with Reservations => reservations b | CapacityClaims => capacity_claims b end.
Definition with_book (w : which_book) (m : gmap string Z) (b : books) : books :=
  match w with
  | Reservations => Books m (capacity_claims b) (resident_capacity_claims b)
  | CapacityClaims => Books (reservations b) m (resident_capacity_claims b)
  end.

Definition release_from (w : which_book) (sid : string) (amount_mib : Z) : M coordinator unit :=
  c ← get;
  let amount := amount_mib * mib in
  let b := book_of w (bookkeeping c) in
  let current := default 0 (b !! sid) in
  raise_if (current <? amount) (RuntimeError "reservation underflow") ;;
  put (signal_waiters (with_books (with_book w (if amount =? current then delete sid b
                                                else <[sid := current - amount]> b)
                                     (bookkeeping c)) c)).

(** [release] *)
Definition release (sid : string) (amount_mib : Z) (wait_class : string) (total_mib : option Z)
    : M coordinator unit :=
  let total := default amount_mib total_mib in
  if bool_decide (wait_class = "tool_admission") && (amount_mib =? 0) && (total =? 0) then mret tt
  else
    release_from Reservations sid amount_mib ;;
    (if bool_decide (wait_class = "tool_admission")
     then on_demand (release_amount (sid, wait_class) (total * mib) (amount_mib * mib))
     else on_demand (DemandLedger.release (sid, wait_class))) ;;
    modify signal_waiters.

(** [release_capacity] and [release_resident_capacity] *)
Definition release_capacity (sid : string) (amount_mib : Z) : M coordinator unit :=
  release_from CapacityClaims sid amount_mib.

Definition release_resident_capacity (sid : string) (c : coordinator) : coordinator :=
  let b := bookkeeping c in
  signal_waiters (with_books (Books (reservations b) (capacity_claims b)
                                (delete sid (resident_capacity_claims b))) c).

(** ** Metrics *)

(** [_record_wait_locked] *)
Definition record_wait (wait_class : string) (waited : Q) : M coordinator unit :=
  c ← get;
  let m := meter c in
  if decide (wait_class = "tool_admission") then
    put (with_meter (Meters (blocked_seconds m + waited) (peak_commitment_bytes m) (pause_count m)
           (pause_service_seconds m) (resume_count m) (resume_service_seconds m)
           (admission_count m + 1) (max_admission_queue_depth m)
           (admission_wait_samples m ++ [waited]) (lifecycle_wait_samples m)
           (safety_intervention_count m) (safety_interventions_by_reason m)
           (checkpoint_capacity_skips m) (fast_path_count m)) c)
  else
    match lifecycle_wait_samples m !! wait_class with
    | None => raise (ValueError "unknown reservation wait class")
    | Some samples =>
        put (with_meter (Meters (blocked_seconds m) (peak_commitment_bytes m) (pause_count m)
               (pause_service_seconds m) (resume_count m) (resume_service_seconds m)
               (admission_count m) (max_admission_queue_depth m) (admission_wait_samples m)
               (<[wait_class := samples ++ [waited]]> (lifecycle_wait_samples m))
               (safety_intervention_count m) (safety_interventions_by_reason m)
               (checkpoint_capacity_skips m) (fast_path_count m)) c)
    end.

Definition count_fast_path (c : coordinator) : coordinator :=
  let m := meter c in
  with_meter (Meters (blocked_seconds m) (peak_commitment_bytes m) (pause_count m)
    (pause_service_seconds m) (resume_count m) (resume_service_seconds m) (admission_count m)
    (max_admission_queue_depth m) (admission_wait_samples m) (lifecycle_wait_samples m)
    (safety_intervention_count m) (safety_interventions_by_reason m)
    (checkpoint_capacity_skips m) (fast_path_count m + 1)) c.

Definition count_resume (elapsed : Q) (c : coordinator) : coordinator :=
  let m := meter c in
  with_meter (Meters (blocked_seconds m) (peak_commitment_bytes m) (pause_count m)
    (pause_service_seconds m) (resume_count m + 1) (resume_service_seconds m + elapsed)
    (admission_count m) (max_admission_queue_depth m) (admission_wait_samples m)
    (lifecycle_wait_samples m) (safety_intervention_count m) (safety_interventions_by_reason m)
    (checkpoint_capacity_skips m) (fast_path_count m)) c.

Definition count_pauses (paused : list Q) (c : coordinator) : coordinator :=
  let m := meter c in
  with_meter (Meters (blocked_seconds m) (peak_commitment_bytes m)
    (pause_count m + Z.of_nat (length paused))
    (pause_service_seconds m + foldr Qplus 0%Q paused) (resume_count m) (resume_service_seconds m)
    (admission_count m) (max_admission_queue_depth m) (admission_wait_samples m)
    (lifecycle_wait_samples m) (safety_intervention_count m) (safety_interventions_by_reason m)
    (checkpoint_capacity_skips m) (fast_path_count m)) c.

Definition count_capacity_skip (c : coordinator) : coordinator :=
  let m := meter c in
  with_meter (Meters (blocked_seconds m) (peak_commitment_bytes m) (pause_count m)
    (pause_service_seconds m) (resume_count m) (resume_service_seconds m) (admission_count m)
    (max_admission_queue_depth m) (admission_wait_samples m) (lifecycle_wait_samples m)
    (safety_intervention_count m) (safety_interventions_by_reason m)
    (checkpoint_capacity_skips m + 1) (fast_path_count m)) c.

Definition raise_peak (c : coordinator) : coordinator :=
  let m := meter c in
  let b := bookkeeping c in
  with_meter (Meters (blocked_seconds m)
    (Z.max (peak_commitment_bytes m) (msum_vals (capacity_claims b) + msum_vals (reservations b)))
    (pause_count m) (pause_service_seconds m) (resume_count m) (resume_service_seconds m)
    (admission_count m) (max_admission_queue_depth m) (admission_wait_samples m)
    (lifecycle_wait_samples m) (safety_intervention_count m) (safety_interventions_by_reason m)
    (checkpoint_capacity_skips m) (fast_path_count m)) c.

Definition raise_depth (c : coordinator) : coordinator :=
  let m := meter c in
  let depth := msum (λ _ r, if decide (r_class r = "tool_admission") then 1 else 0)
                 (waiter_requests (adm c)) in
  with_meter (Meters (blocked_seconds m) (peak_commitment_bytes m) (pause_count m)
    (pause_service_seconds m) (resume_count m) (resume_service_seconds m) (admission_count m)
    (Z.max (max_admission_queue_depth m) depth) (admission_wait_samples m)
    (lifecycle_wait_samples m) (safety_intervention_count m) (safety_interventions_by_reason m)
    (checkpoint_capacity_skips m) (fast_path_count m)) c.

(** A safety reason counted once per request. *)
Definition count_safety (r : blocker) (c : coordinator) : coordinator :=
  let m := meter c in
  with_meter (Meters (blocked_seconds m) (peak_commitment_bytes m) (pause_count m)
    (pause_service_seconds m) (resume_count m) (resume_service_seconds m) (admission_count m)
    (max_admission_queue_depth m) (admission_wait_samples m) (lifecycle_wait_samples m)
    (safety_intervention_count m + 1)
    (<[r := default 0 (safety_interventions_by_reason m !! r) + 1]> (safety_interventions_by_reason m))
    (checkpoint_capacity_skips m) (fast_path_count m)) c.

(** ** The queue's well-formedness *)

(** Every structure of the queue speaks of the same tickets. *)
Record queue_ok (q : queue) : Prop := QueueOk {
  q_nodup : NoDup (waiters q);
  q_requests : ∀ t, is_Some (waiter_requests q !! t) ↔ t ∈ waiters q;
  q_events : ∀ t, is_Some (waiter_events q !! t) ↔ t ∈ waiters q;
  q_blockers : ∀ t, is_Some (waiter_blockers q !! t) → t ∈ waiters q;
  q_progress : ∀ t, t ∈ progress_waiters q → t ∈ waiters q;
}.

Lemma signal_from_dom d q first p ts ev t :
  is_Some (signal_from d q first p ts ev !! t) ↔ is_Some (ev !! t).
Proof.
  revert first p ev. induction ts as [|t' ts IH]; intros first p ev; simpl; [done|].
  destruct (waiter_requests q !! t') as [r|]; [|apply IH].
  destruct (ev !! t') as [b|] eqn:E; [|apply IH].
  assert (Hset : ∀ e : gmap nat bool, (∀ t, is_Some (e !! t) ↔ is_Some (ev !! t)) →
                 ∀ t, is_Some (<[t' := true]> e !! t) ↔ is_Some (ev !! t)).
  { intros e He t0. destruct (decide (t' = t0)) as [<-|Hne].
    - rewrite lookup_insert_eq, E. by split.
    - rewrite lookup_insert_ne by done. apply He. }
  repeat case_match; rewrite IH; try done; repeat apply Hset; done.
Qed.

Lemma signal_queue_ok c : queue_ok (adm c) → queue_ok (adm (signal_waiters c)).
Proof.
  intros [H1 H2 H3 H4 H5]. split; try done. intros t. simpl. by rewrite signal_from_dom.
Qed.

(** A coordinator with a 4 GiB budget and a 512 MiB floor, for the witnesses. *)
Definition demo_ledger : ledger :=
  Ledger (4096 * mib) (512 * mib) 0 (8 # 10) false false None false None ∅ 0 ∅ 0 None None 0.
Definition demo : coordinator :=
  Coordinator (Config false true true false false (4096 * mib) (4096 * mib) (512 * mib) 0 0 "node0" false)
    demo_ledger ∅ (Books ∅ ∅ ∅) (Queue [] ∅ ∅ ∅ ∅) ∅ ∅ 0 meters_init false (Reclaimer false false None).

Example demo_init : init false true true false false 4096 512 0 None 0 "node0" false None = Ok demo.
Proof. reflexivity. Qed.
