(* ===== verification/Sessions.v ===== *)
(** * Sessions and eviction (src/clawbox/experiments/policy.py)

    The session operations of [PolicyCoordinator], the choice of a victim, the
    checkpoint of a claimed pair, and the protocol that keeps Tool activity,
    eviction and idle NUMA return apart.  An operation that waits
    ([while state.eviction_in_progress: wait()]) holds on to the session object
    it looked up, so it is split at the wait: the part before it returns the
    object, and [activate] / [proceed] is the part after, enabled once the
    object is no longer being evicted. *)
From S2P Require Import Prelude Dict Ordering DemandLedger Coordinator.

(** ** Session objects *)

Definition update (o : nat) (f : session → session) (c : coordinator) : coordinator :=
  with_sessions (alter f o (store c)) (sessions c) (next_object c) c.

Definition set_activity (active eligible : bool) (used : Q) (s : session) : session :=
  Session (session_id s) (lifecycle s) active eligible (eviction_in_progress s) used
    (runtime_lifecycle s) (pair_before_pause s) (runtime_before_pause s) (wait_id s)
    (wait_started s) (response_ready s).
Definition set_eviction (in_progress eligible : bool) (s : session) : session :=
  Session (session_id s) (lifecycle s) (tool_active s) eligible in_progress (last_used s)
    (runtime_lifecycle s) (pair_before_pause s) (runtime_before_pause s) (wait_id s)
    (wait_started s) (response_ready s).
Definition set_wait (w : option string) (started : option Q) (ready eligible : bool) (used : Q)
    (s : session) : session :=
  Session (session_id s) (lifecycle s) (tool_active s) eligible (eviction_in_progress s) used
    (runtime_lifecycle s) (pair_before_pause s) (runtime_before_pause s) w started ready.
Definition set_runtime (v : vm) (pair before : bool) (s : session) : session :=
  Session (session_id s) (lifecycle s) (tool_active s) (eviction_eligible s)
    (eviction_in_progress s) (last_used s) (Some v) pair before (wait_id s)
    (wait_started s) (response_ready s).

(** [self._sessions[session_id]] and [self._sessions.get(session_id)] *)
Definition session_of (sid : string) : M coordinator nat :=
  c ← get;
  match sessions c !! sid with Some o => mret o | None => raise (KeyError sid) end.
Definition session_state (sid : string) (c : coordinator) : option session :=
  sessions c !! sid ≫= λ o, store c !! o.

(** ** Operations *)

(** [register] *)
Definition register (sid : string) (v : vm) (now : Q) (c : coordinator) : coordinator :=
  with_sessions
    (<[next_object c := Session sid v false false false now None false false None None false]> (store c))
    (<[sid := next_object c]> (sessions c)) (S (next_object c)) c.

(** [register_runtime] *)
Definition register_runtime (sid : string) (v : vm) (pair before : bool) : M coordinator unit :=
  o ← session_of sid;
  modify (update o (set_runtime v pair before)).

(** [begin_model_wait] *)
Definition begin_model_wait (sid wid : string) (now : Q) : M coordinator unit :=
  o ← session_of sid;
  modify (update o (set_wait (Some wid) (Some now) false true now)).

(** [complete_model_wait] up to its wait: the object to wait for, unless the
    wait it completes has been replaced. *)
Definition complete_model_wait (sid wid : string) : M coordinator (option nat) :=
  o ← session_of sid;
  c ← get;
  match store c !! o with
  | Some s =>
      if decide (wait_id s = Some wid) then
        put (update o (λ s, set_wait (wait_id s) (wait_started s) true false (last_used s) s) c) ;;
        mret (Some o)
      else mret None
  | None => mret None
  end.

(** [unregister] *)
Definition unregister (sid : string) : M coordinator unit :=
  c ← get;
  put (with_sessions (store c) (delete sid (sessions c)) (next_object c)
         (with_samples (delete sid (memory_samples c)) c)) ;;
  for_each (filter (λ k : key, k.1 = sid) (keys (claims (demand c))))
    (λ k, on_demand (DemandLedger.release k)) ;;
  modify (λ c,
    let b := bookkeeping c in
    signal_waiters (with_books (Books (delete sid (reservations b)) (delete sid (capacity_claims b))
                                  (delete sid (resident_capacity_claims b))) c)).

(** [while active and state.eviction_in_progress: wait()] *)
Definition must_wait (o : nat) (active : bool) (c : coordinator) : bool :=
  active && from_option eviction_in_progress false (store c !! o).

(** The body of [set_tool_active], [set_tool_active_if_registered] and
    [begin_unaccounted_tool] after their wait; [None] while it waits. *)
Definition activate (o : nat) (active : bool) (now : Q) (c : coordinator) : option coordinator :=
  if must_wait o active c then None
  else Some (update o (set_activity active (negb active) now) c).

(** [complete_model_wait] after its wait changes nothing more. *)
Definition proceed (o : nat) (c : coordinator) : option unit :=
  if must_wait o true c then None else Some tt.

(** [set_tool_active_if_registered] before its wait *)
Definition session_if_registered (sid : string) (c : coordinator) : option nat := sessions c !! sid.

(** [claim_memory_return] *)
Definition claim_memory_return (sid : string) : M coordinator bool :=
  c ← get;
  match sessions c !! sid ≫= λ o, (λ s, (o, s)) <$> store c !! o with
  | None => mret false
  | Some (o, s) =>
      if tool_active s || eviction_in_progress s
         || bool_decide (is_Some (claims (demand c) !! (sid, "tool_admission")))
      then mret false
      else
        put (update o (λ s, set_eviction true (eviction_eligible s) s) c) ;;
        mret true
  end.

(** [release_memory_return] *)
Definition release_memory_return (sid : string) (c : coordinator) : coordinator :=
  match sessions c !! sid with
  | Some o => update o (λ s, set_eviction false (eviction_eligible s) s) c
  | None => c
  end.

(** [set_eviction_eligible] *)
Definition set_eviction_eligible (sid : string) (eligible : bool) (now : Q) : M coordinator unit :=
  o ← session_of sid;
  modify (update o (λ s, set_activity (tool_active s) eligible now s)).

(** [tool_active] *)
Definition is_tool_active (sid : string) : M coordinator bool :=
  o ← session_of sid;
  c ← get;
  mret (from_option tool_active false (store c !! o)).

(** ** Memory probes *)

(** [register_memory]: the sampler is bound before its first reading, which
    may raise. *)
Definition bind_claim (k : key) (sample : option probe) (baseline : option (Z * Z)) (d : ledger)
    : ledger :=
  match claims d !! k with
  | Some cl =>
      with_claims (<[k := Claim (c_id cl) (c_scope cl) (c_amount cl) (c_local cl)
                            (match sample with Some p => Some p | None => c_sample cl end)
                            (default (c_baseline cl) baseline)]> (claims d)) d
  | None => d
  end.

Definition register_memory (rd : readings) (sid : string) (tool life : probe) : M coordinator unit :=
  modify (λ c, with_samples (<[sid := (tool, life)]> (memory_samples c)) c) ;;
  c ← get;
  match claims (demand c) !! (sid, "create") with
  | None => mret tt
  | Some _ =>
      put (with_demand (bind_claim (sid, "create") (Some life) None (demand c)) c) ;;
      b ← lift (rd life);
      modify (λ c, with_demand (bind_claim (sid, "create") None (Some b) (demand c)) c)
  end.

(** [bind_tool_memory]: a lock-free lookup, the reading, and the publication
    of baseline and sampler if the claim is still the same unbound object.
    [meanwhile] is what other threads do during the reading. *)
Inductive bind_status := NoClaim | NoSampler | AlreadyBound | Bound | ClaimChanged.

Definition bind_tool_memory (rd : readings) (meanwhile : coordinator → coordinator) (sid : string)
    : M coordinator bind_status :=
  let k := (sid, "tool_admission") in
  c ← get;
  match claims (demand c) !! k, memory_samples c !! sid with
  | None, _ => mret NoClaim
  | Some _, None => mret NoSampler
  | Some cl, Some (tool, _) =>
      if decide (is_Some (c_sample cl)) then mret AlreadyBound
      else
        modify meanwhile ;;
        b ← lift (rd tool);
        c' ← get;
        match claims (demand c') !! k with
        | Some cl' =>
            if decide (c_id cl' = c_id cl ∧ c_sample cl' = None) then
              put (with_demand (bind_claim k (Some tool) (Some b) (demand c')) c') ;;
              mret Bound
            else mret ClaimChanged
        | None => mret ClaimChanged
        end
  end.

(** ** Victims *)

(** The candidates of [_select_victim_locked], in registration order. *)
Definition idle (c : coordinator) (resident : residency) (exclude : string) (s : session) : bool :=
  negb (bool_decide (session_id s = exclude)) && eviction_eligible s
  && negb (eviction_in_progress s) && negb (tool_active s) && resident (lifecycle s)
  && (negb (wait_aware (cfg c)) || (bool_decide (is_Some (wait_id s)) && negb (response_ready s))).

Definition candidates (c : coordinator) (resident : residency) (exclude : string)
    : list (nat * session) :=
  omap (λ o, s ← store c !! o; if idle c resident exclude s then Some (o, s) else None)
    (vals (sessions c)).

(** [_select_victim_locked] *)
Definition by_last_used (a b : nat * session) : comparison :=
  Qcompare (last_used a.2) (last_used b.2).
Definition select_victim (resident : residency) (exclude : string) (c : coordinator)
    : option (nat * session) :=
  if keep_resident (cfg c) then None else min_by by_last_used (candidates c resident exclude).

(** [_claim_victim_locked] and [victim_for_restore] *)
Definition claim_victim (resident : residency) (exclude : string)
    : M coordinator (option (nat * session)) :=
  c ← get;
  match select_victim resident exclude c with
  | Some (o, s) =>
      put (update o (λ s, set_eviction true (eviction_eligible s) s) c) ;; mret (Some (o, s))
  | None => mret None
  end.

(** [release_victim] *)
Definition release_victim (o : nat) (c : coordinator) : coordinator :=
  signal_waiters (update o (set_eviction false false) c).

(** The scope of an eviction: the Runtime too when it is idle in a model wait. *)
Definition runtime_scope (c : coordinator) (resident : residency) (s : session) : option vm :=
  if runtime_snapshot (cfg c) && bool_decide (is_Some (wait_id s)) && negb (response_ready s)
  then v ← runtime_lifecycle s; if resident v then Some v else None
  else None.

(** [watermark_reclaim_candidate]; a VM's configured and reserved bytes. *)
Definition watermark_reclaim_candidate (resident : residency) (configured reserved : vm → Z)
    (c : coordinator) : option (string * Z * Z * nat) :=
  '(o, s) ← select_victim resident "" c;
  let vms := lifecycle s :: option_list (runtime_scope c resident s) in
  Some (session_id s, zsum (configured <$> vms), zsum (reserved <$> vms), length vms).

(** ** Checkpointing a claimed pair *)

(** [SnapshotTier] *)
Inductive tier := LocalTier | WarmTier | ColdTier.
#[export] Instance tier_eq_dec : EqDecision tier.
Proof. solve_decision. Defined.

(** What the checkpoint does outside the coordinator, in order. *)
Inductive act :=
  | Reserved (v : vm) (t : option tier)
  | Unreserved (v : vm) (t : option tier)
  | PairHook
  | RuntimeHook
  | Checkpointed (v : vm) (t : option tier).

(** The VM's side: [reserve_checkpoint] (absent on some VMs) and its outcome,
    tiered storage with a cold root, the hooks and [checkpoint_and_evict],
    which returns its service time when it paused the VM. *)
Record vm_ops := VmOps {
  has_reserve : vm → bool;
  reserve_outcome : vm → option tier → outcome unit;
  tiered_with_cold : vm → bool;
  pair_hook : outcome unit;
  runtime_hook : outcome unit;
  checkpoint_outcome : vm → option tier → outcome (option Q);
}.

Definition is_capacity_error (e : exn) : bool :=
  match e with WarmCapacityError _ => true | _ => false end.

(** Actions performed, with the reservations still held. *)
Record checkpointing := Checkpointing { acts : list act; held : list (vm * option tier) }.

Definition perform (a : act) (s : checkpointing) : checkpointing :=
  Checkpointing (acts s ++ [a]) (held s).

(** [reservations.enter_context(vm.reserve_checkpoint(tier=tier))] *)
Definition enter_reservation (ops : vm_ops) (t : option tier) (v : vm) : M checkpointing unit :=
  lift (reserve_outcome ops v t) ;;
  modify (λ s, Checkpointing (acts s ++ [Reserved v t]) (held s ++ [(v, t)])).

(** Leaving the [ExitStack]: the latest reservation first. *)
Definition close_reservations (s : checkpointing) : checkpointing :=
  Checkpointing (acts s ++ ((λ vt : vm * option tier, Unreserved vt.1 vt.2) <$> rev (held s))) [].

(** [checkpoint_reservations] up to its [yield]: the tier granted. *)
Definition checkpoint_reservations (ops : vm_ops) (vms : list vm) (t : option tier)
    : M checkpointing (option tier) :=
  try_except
    (for_each vms (λ v, if has_reserve ops v then enter_reservation ops t v else mret tt) ;; mret t)
    (λ e,
      if is_capacity_error e then
        modify close_reservations ;;
        raise_if (bool_decide (is_Some t) || negb (forallb (tiered_with_cold ops) vms)) e ;;
        for_each vms (enter_reservation ops (Some ColdTier)) ;;
        mret (Some ColdTier)
      else raise e).

Definition checkpoint (ops : vm_ops) (t : option tier) (v : vm) : M checkpointing (option Q) :=
  q ← lift (checkpoint_outcome ops v t);
  modify (perform (Checkpointed v t)) ;;
  mret q.

(** A hook of the session, when it is set. *)
Definition run_hook (b : bool) (o : outcome unit) (a : act) : M checkpointing unit :=
  if b then lift o ;; modify (perform a) else mret tt.

(** The [with] block of [evict_one_for_watermark]. *)
Definition checkpoint_pair (ops : vm_ops) (s : session) (runtime : option vm) (t : option tier)
    : M checkpointing (option Q * option Q) :=
  run_hook (bool_decide (is_Some runtime) && pair_before_pause s) (pair_hook ops) PairHook ;;
  tool_elapsed ← checkpoint ops t (lifecycle s);
  match runtime with
  | None => mret (tool_elapsed, None)
  | Some v =>
      run_hook (runtime_before_pause s) (runtime_hook ops) RuntimeHook ;;
      runtime_elapsed ← checkpoint ops t v;
      mret (tool_elapsed, runtime_elapsed)
  end.

Definition evict_vms (ops : vm_ops) (s : session) (runtime : option vm) (t : option tier)
    : (bool * outcome (option Q * option Q)) * checkpointing :=
  match checkpoint_reservations ops (lifecycle s :: option_list runtime) t (Checkpointing [] []) with
  | (Raise e, w) => ((false, Raise e), close_reservations w)
  | (Ok t', w) =>
      let '(r, w') := checkpoint_pair ops s runtime t' w in ((true, r), close_reservations w')
  end.

(** [evict_one_for_watermark]: [meanwhile] is what other threads do while the
    coordinator's lock is released, [on_pause] the pause callback. *)
Definition evict_one_for_watermark (resident : residency) (ops : vm_ops)
    (meanwhile : coordinator → coordinator) (on_pause : outcome unit) (t : option tier)
    (exclude : string) (c : coordinator) : (outcome bool * list act) * coordinator :=
  match claim_victim resident exclude c with
  | (Raise e, c1) => ((Raise e, []), c1)
  | (Ok None, c1) => ((Ok false, []), c1)
  | (Ok (Some (o, s)), c1) =>
      let runtime := runtime_scope c1 resident s in
      let '((ready, r), w) := evict_vms ops s runtime t in
      let c2 := meanwhile c1 in
      match r with
      | Ok (te, re) =>
          let paused := option_list te ++ option_list re in
          let c3 := count_pauses paused c2 in
          ((match paused, on_pause with
            | _ :: _, Raise e => Raise e
            | _, _ => Ok (negb (bool_decide (paused = [])))
            end, acts w), release_victim o c3)
      | Raise e =>
          if is_capacity_error e && negb ready then
            ((Ok false, acts w),
             update o (λ s, set_eviction (eviction_in_progress s)
                              (negb (tool_active s) && negb (response_ready s)) s)
               (release_victim o (count_capacity_skip c2)))
          else ((Raise e, acts w), release_victim o c2)
      end
  end.

(** ** Interleavings *)

(** A thread inside an operation that waits or holds a claimed session.  The
    object a memory return claimed is recorded although the code keeps only
    the id. *)
Inductive thread :=
  | Starting (o : nat) (active : bool)
  | Completing (o : nat)
  | Evicting (o : nat)
  | Returning (sid : string) (o : nat).

Definition owner (th : thread) : option nat :=
  match th with Evicting o | Returning _ o => Some o | _ => None end.

Record system := System { co : coordinator; threads : gmap nat thread }.

Inductive event :=
  | Register (sid : string) (v : vm) (now : Q)
  | RegisterRuntime (sid : string) (v : vm) (pair before : bool)
  | BeginWait (sid wid : string) (now : Q)
  | CompleteWait (t : nat) (sid wid : string)
  | Proceed (t : nat)
  | Unregister (sid : string)
  | EnterTool (t : nat) (sid : string) (active : bool)
  | Activate (t : nat) (now : Q)
  | Revert (o : nat) (now : Q)       (** a failed [begin_tool_admission] *)
  | SetEligible (sid : string) (eligible : bool) (now : Q)
  | ClaimReturn (t : nat) (sid : string)
  | ReleaseReturn (t : nat)
  | ClaimVictim (t : nat) (resident : residency) (exclude : string)
  | ReleaseVictim (t : nat) (skipped : bool)
  | MoveLedger (d : ledger).            (** other operations move the demand ledger *)

(** The [finally] of an eviction. *)
Definition finish_eviction (o : nat) (skipped : bool) (c : coordinator) : coordinator :=
  if skipped then
    update o (λ s, set_eviction (eviction_in_progress s)
                     (negb (tool_active s) && negb (response_ready s)) s) (release_victim o c)
  else release_victim o c.

(** An operation without a wait: its state, whether it returned or raised. *)
Definition run_op {A} (m : M coordinator A) (s : system) : option system :=
  Some (System (m (co s)).2 (threads s)).
Definition enter (t : nat) (th : thread) (c : coordinator) (s : system) : option system :=
  if decide (threads s !! t = None) then Some (System c (<[t := th]> (threads s))) else None.
Definition leave (t : nat) (c : coordinator) (s : system) : option system :=
  Some (System c (delete t (threads s))).

Definition step (e : event) (s : system) : option system :=
  let c := co s in
  match e with
  | Register sid v now => run_op (modify (register sid v now)) s
  | RegisterRuntime sid v p b => run_op (register_runtime sid v p b) s
  | BeginWait sid wid now => run_op (begin_model_wait sid wid now) s
  | CompleteWait t sid wid =>
      match complete_model_wait sid wid c with
      | (Ok (Some o), c') => enter t (Completing o) c' s
      | (_, c') => Some (System c' (threads s))
      end
  | Proceed t =>
      match threads s !! t with
      | Some (Completing o) => _ ← proceed o c; leave t c s
      | _ => None
      end
  | Unregister sid => run_op (unregister sid) s
  | EnterTool t sid active =>
      match session_of sid c with
      | (Ok o, c') => enter t (Starting o active) c' s
      | (_, c') => Some (System c' (threads s))
      end
  | Activate t now =>
      match threads s !! t with
      | Some (Starting o active) => c' ← activate o active now c; leave t c' s
      | _ => None
      end
  | Revert o now => run_op (modify (update o (set_activity false true now))) s
  | SetEligible sid b now => run_op (set_eviction_eligible sid b now) s
  | ClaimReturn t sid =>
      match claim_memory_return sid c, sessions c !! sid with
      | (Ok true, c'), Some o => enter t (Returning sid o) c' s
      | (_, c'), _ => Some (System c' (threads s))
      end
  | ReleaseReturn t =>
      match threads s !! t with
      | Some (Returning sid _) => leave t (release_memory_return sid c) s
      | _ => None
      end
  | ClaimVictim t resident exclude =>
      match claim_victim resident exclude c with
      | (Ok (Some (o, _)), c') => enter t (Evicting o) c' s
      | (_, c') => Some (System c' (threads s))
      end
  | ReleaseVictim t skipped =>
      match threads s !! t with
      | Some (Evicting o) => leave t (finish_eviction o skipped c) s
      | _ => None
      end
  | MoveLedger d => run_op (modify (with_demand d)) s
  end.

Fixpoint run (es : list event) (s : system) : option system :=
  match es with
  | [] => Some s
  | e :: es' => s' ← step e s; run es' s'
  end.

(** ** The protocol keeps Tools out of evictions *)

(** Ids registered by a sequence of events. *)
Definition registered (es : list event) : list string :=
  omap (λ e, match e with Register sid _ _ => Some sid | _ => None end) es.

Definition fenced (st : session) : Prop := ¬ (tool_active st ∧ eviction_in_progress st).

Record system_ok (seen : list string) (s : system) : Prop := SystemOk {
  so_fresh : ∀ o, is_Some (store (co s) !! o) → (o < next_object (co s))%nat;
  so_fenced : ∀ o st, store (co s) !! o = Some st → fenced st;
  so_dict : dict_ok (sessions (co s));
  so_current : ∀ sid o, sessions (co s) !! sid = Some o →
    ∃ st, store (co s) !! o = Some st ∧ session_id st = sid;
  so_unique : ∀ o1 o2 s1 s2, store (co s) !! o1 = Some s1 → store (co s) !! o2 = Some s2 →
    session_id s1 = session_id s2 → o1 = o2;
  so_seen : ∀ o st, store (co s) !! o = Some st → session_id st ∈ seen;
  so_owner : ∀ t th o, threads s !! t = Some th → owner th = Some o →
    ∃ st, store (co s) !! o = Some st ∧ eviction_in_progress st ∧
          (∀ sid, th = Returning sid o → session_id st = sid);
  so_single : ∀ t1 t2 th1 th2 o, threads s !! t1 = Some th1 → threads s !! t2 = Some th2 →
    owner th1 = Some o → owner th2 = Some o → t1 = t2;
  so_flagged : ∀ o st, store (co s) !! o = Some st → eviction_in_progress st →
    sessions (co s) !! session_id st = Some o →
    ∃ t th, threads s !! t = Some th ∧ owner th = Some o;
}.

(** An update that keeps the id and the flag, and activates a Tool only
    outside an eviction. *)
Definition quiet (f : session → session) (st : session) : Prop :=
  session_id (f st) = session_id st ∧ eviction_in_progress (f st) = eviction_in_progress st ∧
  (tool_active (f st) → tool_active st ∨ ¬ eviction_in_progress st).

Lemma store_update o f c : store (update o f c) = alter f o (store c).
Proof. done. Qed.

Lemma alter_Some (f : session → session) o o' (m : gmap nat session) st :
  alter f o m !! o' = Some st →
  (o' = o ∧ ∃ st0, m !! o = Some st0 ∧ st = f st0) ∨ (o' ≠ o ∧ m !! o' = Some st).
Proof.
  destruct (decide (o = o')) as [<-|]; [rewrite lookup_alter_eq|rewrite lookup_alter_ne by done].
  - intros (st0 & E & ->)%fmap_Some. left. eauto.
  - by right.
Qed.

(** Two systems with the same sessions, up to other attributes. *)
Lemma system_ok_ext seen c c' ts ts' :
  store c' = store c → sessions c' = sessions c → next_object c' = next_object c →
  (∀ t th o, owner th = Some o → ts' !! t = Some th ↔ ts !! t = Some th) →
  system_ok seen (System c ts) → system_ok seen (System c' ts').
Proof.
  intros E1 E2 E3 Ht []. split; simpl in *; rewrite ?E1, ?E2, ?E3; try done.
  - intros t th o Eth Ho. rewrite (Ht _ _ o Ho) in Eth. by eapply so_owner0.
  - intros t1 t2 th1 th2 o H1 H2 Ho1 Ho2. rewrite (Ht _ _ o Ho1) in H1. rewrite (Ht _ _ o Ho2) in H2.
    by eapply so_single0.
  - intros o st Es Hf Hs. destruct (so_flagged0 o st Es Hf Hs) as (t & th & Eth & Ho).
    exists t, th. by rewrite (Ht _ _ o Ho).
Qed.

Lemma quiet_update_ok seen c ts o f :
  (∀ st, store c !! o = Some st → quiet f st) →
  system_ok seen (System c ts) → system_ok seen (System (update o f c) ts).
Proof.
  intros Hq []. split; simpl in *; try done.
  - intros o' Ho. apply so_fresh0. by apply lookup_alter_is_Some in Ho.
  - intros o' st [[-> (st0 & E & ->)]|[Hne E]]%alter_Some; [|eauto].
    destruct (Hq st0 E) as (_ & Hf & Ha). unfold fenced in *. rewrite Hf. intros [Ht Hp].
    destruct (Ha Ht); [|done]. by apply (so_fenced0 o st0 E).
  - intros sid o' Ho. destruct (so_current0 sid o' Ho) as (st & E & Hs).
    destruct (decide (o = o')) as [<-|]; [rewrite lookup_alter_eq, E|rewrite lookup_alter_ne by done].
    + simpl. eexists. split; [done|]. by rewrite (proj1 (Hq st E)).
    + eauto.
  - intros o1 o2 s1 s2 H1%alter_Some H2%alter_Some.
    destruct H1 as [[-> (st1 & E1 & ->)]|[? E1]], H2 as [[-> (st2 & E2 & ->)]|[? E2]]; try done;
      try rewrite (proj1 (Hq _ E1)); try rewrite (proj1 (Hq _ E2)); eauto.
  - intros o' st [[-> (st0 & E & ->)]|[Hne E]]%alter_Some; [|eauto].
    rewrite (proj1 (Hq st0 E)). eauto.
  - intros t th o' Eth Ho. destruct (so_owner0 t th o' Eth Ho) as (st & E & Hp & Hr).
    destruct (decide (o = o')) as [<-|]; [rewrite lookup_alter_eq, E|rewrite lookup_alter_ne by done].
    + destruct (Hq st E) as (Hi & Hf & _). eexists. simpl. split; [done|]. rewrite Hf. split; [done|].
      by rewrite Hi.
    + eauto.
  - intros o' st [[-> (st0 & E & ->)]|[Hne E]]%alter_Some; [|eauto].
    destruct (Hq st0 E) as (Hi & Hf & _). rewrite Hi, Hf. eauto.
Qed.

Lemma register_ok seen c ts sid v now : sid ∉ seen →
  system_ok seen (System c ts) → system_ok (seen ++ [sid]) (System (register sid v now c) ts).
Proof.
  intros Hsid []. simpl in *.
  assert (Hn : store c !! next_object c = None).
  { destruct (store c !! next_object c) eqn:E; [|done].
    assert (next_object c < next_object c)%nat; [by apply so_fresh0; rewrite E|lia]. }
  split; simpl; try done.
  - intros o [st [[<- _]|[_ E]]%lookup_insert_Some]; [lia|].
    assert (o < next_object c)%nat; [apply so_fresh0; by rewrite E|lia].
  - intros o st [[<- <-]|[_ E]]%lookup_insert_Some; [by intros [? ?]|eauto].
  - by apply insert_ok.
  - intros sid' o. destruct (decide (sid = sid')) as [<-|].
    + rewrite dict_lookup_insert_eq. intros [= <-]. rewrite lookup_insert_eq. eauto.
    + rewrite dict_lookup_insert_ne by done. intros E. destruct (so_current0 _ _ E) as (st & Es & Hs).
      rewrite lookup_insert_ne; [eauto|]. congruence.
  - intros o1 o2 s1 s2 [[<- <-]|[_ E1]]%lookup_insert_Some [[<- <-]|[_ E2]]%lookup_insert_Some; simpl.
    + done.
    + intros ->. by apply so_seen0 in E2.
    + intros <-. by apply so_seen0 in E1.
    + eauto.
  - intros o st [[<- <-]|[_ E]]%lookup_insert_Some; simpl; [set_solver|].
    apply so_seen0 in E. set_solver.
  - intros t th o Eth Ho. destruct (so_owner0 t th o Eth Ho) as (st & E & Hp & Hr).
    rewrite lookup_insert_ne; [eauto|]. congruence.
  - intros o st [[<- <-]|[Hne E]]%lookup_insert_Some; simpl; [done|]. intros Hf.
    destruct (decide (sid = session_id st)) as [->|].
    + by apply so_seen0 in E.
    + rewrite dict_lookup_insert_ne by done. eauto.
Qed.

(** Taking the flag of an idle object, with a new owner. *)
Lemma claim_ok seen c ts t th o st :
  store c !! o = Some st → tool_active st = false → eviction_in_progress st = false →
  ts !! t = None → owner th = Some o → (∀ sid, th = Returning sid o → session_id st = sid) →
  system_ok seen (System c ts) →
  system_ok seen (System (update o (λ s, set_eviction true (eviction_eligible s) s) c)
                    (<[t:=th]> ts)).
Proof.
  intros Est Hact Hfl Ht Hth Hsid []. simpl in *.
  assert (Hno : ∀ t' th', ts !! t' = Some th' → owner th' ≠ Some o).
  { intros t' th' E Ho. destruct (so_owner0 t' th' o E Ho) as (? & ? & Hp & _). simplify_eq.
    by rewrite Hfl in Hp. }
  split; simpl; try done.
  - intros o' Ho. apply so_fresh0. by apply lookup_alter_is_Some in Ho.
  - intros o' st' [[-> (st0 & E & ->)]|[Hne E]]%alter_Some; [|eauto].
    unfold fenced. simpl. simplify_eq. rewrite Hact. by intros [? ?].
  - intros sid o' Ho. destruct (so_current0 sid o' Ho) as (st' & E & Hs).
    destruct (decide (o = o')) as [<-|]; [rewrite lookup_alter_eq, E|rewrite lookup_alter_ne by done];
      simpl; eauto.
  - intros o1 o2 s1 s2 [[-> (st1 & E1 & ->)]|[? E1]]%alter_Some [[-> (st2 & E2 & ->)]|[? E2]]%alter_Some;
      simpl; eauto.
  - intros o' st' [[-> (st0 & E & ->)]|[Hne E]]%alter_Some; simpl; eauto.
  - intros t' th' o' [[<- <-]|[Hne E]]%lookup_insert_Some Ho.
    + simplify_eq. rewrite lookup_alter_eq, Est. simpl. eauto.
    + destruct (so_owner0 t' th' o' E Ho) as (st' & E' & Hp & Hr).
      rewrite lookup_alter_ne; [eauto|]. intros <-. by apply (Hno t' th').
  - intros t1 t2 th1 th2 o' [[<- <-]|[H1 E1]]%lookup_insert_Some [[<- <-]|[H2 E2]]%lookup_insert_Some Ho1 Ho2.
    + done.
    + simplify_eq. by destruct (Hno t2 th2).
    + simplify_eq. by destruct (Hno t1 th1).
    + eauto.
  - intros o' st' [[-> (st0 & E & ->)]|[Hne E]]%alter_Some Hp Hs.
    + exists t, th. by rewrite lookup_insert_eq.
    + destruct (so_flagged0 o' st' E Hp Hs) as (t' & th' & E' & Ho). exists t', th'.
      rewrite lookup_insert_ne; [done|]. congruence.
Qed.

(** Giving the flag back. *)
Lemma unclaim_ok seen c ts t th o el :
  ts !! t = Some th → owner th = Some o →
  system_ok seen (System c ts) →
  system_ok seen (System (update o (λ s, set_eviction false (el s) s) c) (delete t ts)).
Proof.
  intros Ht Hth []. simpl in *.
  split; simpl; try done.
  - intros o' Ho. apply so_fresh0. by apply lookup_alter_is_Some in Ho.
  - intros o' st' [[-> (st0 & E & ->)]|[Hne E]]%alter_Some; [|eauto]. by intros [? ?].
  - intros sid o' Ho. destruct (so_current0 sid o' Ho) as (st' & E & Hs).
    destruct (decide (o = o')) as [<-|]; [rewrite lookup_alter_eq, E|rewrite lookup_alter_ne by done];
      simpl; eauto.
  - intros o1 o2 s1 s2 [[-> (st1 & E1 & ->)]|[? E1]]%alter_Some [[-> (st2 & E2 & ->)]|[? E2]]%alter_Some;
      simpl; eauto.
  - intros o' st' [[-> (st0 & E & ->)]|[Hne E]]%alter_Some; simpl; eauto.
  - intros t' th' o' [Hne E]%lookup_delete_Some Ho.
    destruct (so_owner0 t' th' o' E Ho) as (st' & E' & Hp & Hr).
    rewrite lookup_alter_ne; [eauto|]. intros <-. by apply Hne, (so_single0 t t' th th' o).
  - intros t1 t2 th1 th2 o' [H1 E1]%lookup_delete_Some [H2 E2]%lookup_delete_Some. eauto.
  - intros o' st' [[-> (st0 & E & ->)]|[Hne E]]%alter_Some Hp Hs; [done|].
    destruct (so_flagged0 o' st' E Hp Hs) as (t' & th' & E' & Ho). exists t', th'.
    rewrite lookup_delete_ne; [done|]. intros <-. congruence.
Qed.

(** A return whose session is gone: the object keeps its flag, unregistered. *)
Lemma abandon_ok seen c ts t th o st :
  ts !! t = Some th → owner th = Some o → store c !! o = Some st →
  sessions c !! session_id st = None →
  system_ok seen (System c ts) → system_ok seen (System c (delete t ts)).
Proof.
  intros Ht Hth Est Hs []. simpl in *. split; simpl; try done.
  - intros t' th' o' [Hne E]%lookup_delete_Some. eauto.
  - intros t1 t2 th1 th2 o' [H1 E1]%lookup_delete_Some [H2 E2]%lookup_delete_Some. eauto.
  - intros o' st' E Hp Hs'. destruct (so_flagged0 o' st' E Hp Hs') as (t' & th' & E' & Ho).
    exists t', th'. rewrite lookup_delete_ne; [done|]. intros <-. congruence.
Qed.

Lemma unregister_sessions sid c :
  store (unregister sid c).2 = store c ∧ next_object (unregister sid c).2 = next_object c ∧
  sessions (unregister sid c).2 = delete sid (sessions c).
Proof.
  set (I c' := store c' = store c ∧ next_object c' = next_object c ∧
               sessions c' = delete sid (sessions c)).
  assert (Hd : ∀ k, preserves I (on_demand (DemandLedger.release k))).
  { intros k c' Hc'. unfold on_demand. by destruct (DemandLedger.release k (demand c')). }
  change (I (unregister sid c).2). unfold unregister. do 2 erewrite bind_ok by reflexivity.
  apply preserves_bind; [by apply preserves_for_each|intros _; by apply preserves_modify|done].
Qed.

Lemma unregister_ok seen c ts sid :
  system_ok seen (System c ts) → system_ok seen (System (unregister sid c).2 ts).
Proof.
  destruct (unregister_sessions sid c) as (E1 & E2 & E3). intros [].
  split; simpl in *; rewrite ?E1, ?E2, ?E3; try done.
  - by apply delete_ok.
  - intros sid' o [_ E]%dict_lookup_delete_Some; eauto.
  - intros o st E Hp [_ Hs]%dict_lookup_delete_Some; eauto.
Qed.

(** ** Every event keeps the protocol *)

Lemma run_op_ok {A} seen (m : M coordinator A) s s' :
  run_op m s = Some s' → system_ok seen (System (m (co s)).2 (threads s)) → system_ok seen s'.
Proof. intros [= <-]. done. Qed.

Lemma session_of_state sid c : (session_of sid c).2 = c.
Proof. unfold session_of, mbind, M_bind, get. by destruct (sessions c !! sid). Qed.

(** An operation that looks a session up and updates its object quietly. *)
Lemma session_update_ok seen sid f s :
  (∀ st, quiet f st) → system_ok seen s →
  system_ok seen (System ((o ← session_of sid; modify (update o f)) (co s)).2 (threads s)).
Proof.
  intros Hq Hs. destruct s as [c ts]. simpl.
  unfold session_of, mbind, M_bind, get, modify, raise, mret, M_ret.
  destruct (sessions c !! sid) as [o|]; [|done]. by apply quiet_update_ok.
Qed.

(** A thread that owns no session may come and go. *)
Lemma enter_ok seen t th c s s' :
  owner th = None → enter t th c s = Some s' → system_ok seen (System c (threads s)) →
  system_ok seen s'.
Proof.
  unfold enter. intros Hth E. case_decide as Ht; simplify_eq. apply system_ok_ext; try done.
  intros t' th' o Ho. destruct (decide (t = t')) as [<-|].
  - rewrite lookup_insert_eq, Ht. split; intros; simplify_eq.
  - by rewrite lookup_insert_ne.
Qed.

Lemma leave_system_ok seen t th c s s' :
  threads s !! t = Some th → owner th = None → leave t c s = Some s' →
  system_ok seen (System c (threads s)) → system_ok seen s'.
Proof.
  unfold leave. intros Ht Hth [= <-]. apply system_ok_ext; try done.
  intros t' th' o Ho. destruct (decide (t = t')) as [<-|].
  - rewrite lookup_delete_eq, Ht. split; intros; simplify_eq.
  - by rewrite lookup_delete_ne.
Qed.

Lemma complete_ok seen sid wid c ts :
  system_ok seen (System c ts) → system_ok seen (System (complete_model_wait sid wid c).2 ts).
Proof.
  intros Hs. unfold complete_model_wait, session_of, mbind, M_bind, get, mret, M_ret, put, raise.
  destruct (sessions c !! sid) as [o|]; [|done].
  destruct (store c !! o) as [st|]; [|done]. case_decide; [|done].
  apply quiet_update_ok; [|done]. intros st' _. by repeat split; auto.
Qed.

Lemma activate_ok seen o active now c c' ts :
  activate o active now c = Some c' → system_ok seen (System c ts) → system_ok seen (System c' ts).
Proof.
  unfold activate, must_wait. destruct (active && _) eqn:E; [done|]. intros [= <-] Hs.
  apply quiet_update_ok; [|done]. intros st Est. split_and!; [done..|]. simpl. rewrite Est in E. simpl in E.
  destruct active; [|done]. right. simpl in E. rewrite E. by intros [].
Qed.

Lemma claim_return_spec sid c c' :
  claim_memory_return sid c = (Ok true, c') →
  ∃ o st, sessions c !! sid = Some o ∧ store c !! o = Some st ∧ tool_active st = false ∧
    eviction_in_progress st = false ∧ c' = update o (λ s, set_eviction true (eviction_eligible s) s) c.
Proof.
  unfold claim_memory_return, mbind, M_bind, get, put, mret, M_ret.
  destruct (sessions c !! sid) as [o|] eqn:Eo; [|done]. simpl.
  destruct (store c !! o) as [st|] eqn:Es; [|done]. simpl.
  destruct (tool_active st) eqn:Ea; [done|]. destruct (eviction_in_progress st) eqn:Ef; [done|].
  simpl. case_bool_decide; [done|]. intros [= <-]. eauto 10.
Qed.

Lemma claim_return_false sid c c' r : claim_memory_return sid c = (r, c') → r ≠ Ok true → c' = c.
Proof.
  unfold claim_memory_return, mbind, M_bind, get, put, mret, M_ret.
  destruct (sessions c !! sid) as [o|]; [|by intros [= <- <-]]. simpl.
  destruct (store c !! o) as [st|]; [|by intros [= <- <-]]. simpl.
  destruct (_ || _); intros [= <- <-]; done.
Qed.

(** What the choice of a victim guarantees. *)
Lemma idle_candidates_spec c resident exclude o st :
  (o, st) ∈ candidates c resident exclude ↔
  (∃ sid, (sid, o) ∈ (sessions c : list _)) ∧ store c !! o = Some st ∧
  idle c resident exclude st = true.
Proof.
  unfold candidates, vals. rewrite list_elem_of_omap. split.
  - intros (o' & Ho & E). apply list_elem_of_fmap in Ho as ([sid o''] & -> & Hin).
    simpl in *. destruct (store c !! o'') as [st'|] eqn:Es; [|done]. simpl in E.
    destruct (idle c resident exclude st') eqn:Ei; simplify_eq. eauto.
  - intros ([sid Hin] & Es & Ei). exists o. split.
    + apply list_elem_of_fmap. by exists (sid, o).
    + by rewrite Es; simpl; rewrite Ei.
Qed.

Lemma select_victim_spec resident exclude c o st :
  select_victim resident exclude c = Some (o, st) →
  keep_resident (cfg c) = false ∧ (o, st) ∈ candidates c resident exclude ∧
  Forall (cmp_le by_last_used (o, st)) (candidates c resident exclude).
Proof.
  unfold select_victim. destruct (keep_resident (cfg c)); [done|]. intros E.
  apply min_by_spec in E; [done|]. apply (cmp_ok_Q (λ a : nat * session, last_used a.2)).
Qed.

Lemma claim_victim_spec resident exclude c r c' :
  claim_victim resident exclude c = (r, c') →
  match r with
  | Ok (Some (o, st)) =>
      select_victim resident exclude c = Some (o, st) ∧
      c' = update o (λ s, set_eviction true (eviction_eligible s) s) c
  | _ => c' = c
  end.
Proof.
  unfold claim_victim, mbind, M_bind, get, put, mret, M_ret.
  destruct (select_victim resident exclude c) as [[o st]|]; intros [= <- <-]; done.
Qed.

Lemma idle_spec c resident exclude st : idle c resident exclude st = true →
  session_id st ≠ exclude ∧ eviction_eligible st = true ∧ eviction_in_progress st = false ∧
  tool_active st = false ∧ resident (lifecycle st) = true ∧
  (wait_aware (cfg c) = true → is_Some (wait_id st) ∧ response_ready st = false).
Proof.
  unfold idle. rewrite !andb_true_iff, !negb_true_iff. intros (((((H1 & H2) & H3) & H4) & H5) & H6).
  apply bool_decide_eq_false in H1. split_and!; [done..|]. intros Hw. rewrite Hw in H6. simpl in H6.
  apply andb_true_iff in H6 as [Hw' Hr]. split; [by apply bool_decide_eq_true in Hw'|by apply negb_true_iff].
Qed.

Lemma release_return_ok seen sid o t c ts :
  ts !! t = Some (Returning sid o) → system_ok seen (System c ts) →
  system_ok seen (System (release_memory_return sid c) (delete t ts)).
Proof.
  intros Ht Hs. destruct (so_owner _ _ Hs t _ o Ht eq_refl) as (st & Est & Hp & Hid).
  simpl in Est. specialize (Hid sid eq_refl). unfold release_memory_return.
  destruct (sessions c !! sid) as [o'|] eqn:Eo.
  - destruct (so_current _ _ Hs sid o' Eo) as (st' & Est' & Hid'). simpl in Est'.
    assert (o' = o) as -> by (apply (so_unique _ _ Hs o' o st' st Est' Est); congruence).
    by eapply unclaim_ok.
  - apply (abandon_ok seen c ts t (Returning sid o) o st); try done. by rewrite Hid.
Qed.

Lemma step_ok e seen s s' :
  (∀ sid v now, e = Register sid v now → sid ∉ seen) →
  system_ok seen s → step e s = Some s' → system_ok (seen ++ registered [e]) s'.
Proof.
  intros Hreg Hs E. destruct s as [c ts].
  destruct e as [sid v now|sid v p b|sid wid now|t sid wid|t|sid|t sid active|t now|o now
                |sid b now|t sid|t|t resident exclude|t skipped|d];
    cbn [registered omap list_omap] in *; rewrite ?app_nil_r.
  - injection E as <-. by apply register_ok; [eapply Hreg|].
  - injection E as <-. apply (session_update_ok seen sid (set_runtime v p b) (System c ts)); [|done].
    intros st. by repeat split; auto.
  - injection E as <-.
    apply (session_update_ok seen sid (set_wait (Some wid) (Some now) false true now) (System c ts));
      [|done]. intros st. by repeat split; auto.
  - cbn [step co] in E. pose proof (complete_ok seen sid wid c ts Hs) as H.
    destruct (complete_model_wait sid wid c) as [[[o|]|e] c']; simpl in H; simplify_eq; try done.
    by apply (enter_ok seen t (Completing o) _ _ _ eq_refl E).
  - cbn [step co threads] in E. destruct (ts !! t) as [[| o| |]|] eqn:Et; try done.
    destruct (proceed o c); [|done].
    by apply (leave_system_ok seen t (Completing o) _ (System c ts) _ Et eq_refl E).
  - injection E as <-. by apply unregister_ok.
  - cbn [step co] in E. pose proof (session_of_state sid c) as H.
    destruct (session_of sid c) as [[o|e] c']; simpl in H; subst; simplify_eq; [|done].
    by apply (enter_ok seen t (Starting o active) _ _ _ eq_refl E).
  - cbn [step co threads] in E. destruct (ts !! t) as [[o active| | |]|] eqn:Et; try done.
    destruct (activate o active now c) as [c'|] eqn:Ea; [|done].
    apply (leave_system_ok seen t (Starting o active) _ (System c ts) _ Et eq_refl E). by eapply activate_ok.
  - injection E as <-. apply quiet_update_ok; [|done]. intros st _. by repeat split.
  - injection E as <-. 
    apply (session_update_ok seen sid (λ s, set_activity (tool_active s) b now s) (System c ts)); [|done].
    intros st. by repeat split; auto.
  - cbn [step co] in E. destruct (claim_memory_return sid c) as [r c'] eqn:Ec.
    destruct (decide (r = Ok true)) as [->|Hne].
    + destruct (claim_return_spec _ _ _ Ec) as (o & st & Eo & Est & Ha & Hf & ->).
      rewrite Eo in E. unfold enter in E. case_decide as Ht; simplify_eq.
      apply (claim_ok seen c ts t (Returning sid o) o st); try done. intros sid' [= <-].
      destruct (so_current _ _ Hs sid o Eo) as (st' & Est' & Hid). simpl in Est'. by simplify_eq.
    + rewrite (claim_return_false _ _ _ _ Ec Hne) in E.
      destruct r as [[]|], (sessions c !! sid); simplify_eq; done.
  - cbn [step co threads] in E. destruct (ts !! t) as [[| | |sid o]|] eqn:Et; try done.
    injection E as <-. by eapply release_return_ok.
  - cbn [step co] in E. destruct (claim_victim resident exclude c) as [r c'] eqn:Ec.
    apply claim_victim_spec in Ec. destruct r as [[[o st]|]|]; simplify_eq; try done.
    destruct Ec as [Esel ->]. unfold enter in E. case_decide as Ht; simplify_eq.
    apply select_victim_spec in Esel as (_ & (_ & Est & Hi)%idle_candidates_spec & _).
    apply idle_spec in Hi as (_ & _ & Hf & Ha & _).
    by apply (claim_ok seen c ts t (Evicting o) o st).
  - cbn [step co threads] in E. destruct (ts !! t) as [[| |o|]|] eqn:Et; try done.
    injection E as <-. unfold finish_eviction.
    assert (H : system_ok seen (System (release_victim o c) (delete t ts))).
    { eapply (system_ok_ext seen (update o (set_eviction false false) c) _ (delete t ts)); try done.
      by eapply (unclaim_ok seen c ts t _ o (λ _, false)). }
    destruct skipped; [|done]. apply quiet_update_ok; [|done]. intros st _. by repeat split; auto.
  - injection E as <-. by eapply system_ok_ext; [..|exact Hs].
Qed.

Lemma run_system_ok es seen s s' :
  NoDup (seen ++ registered es) → system_ok seen s → run es s = Some s' →
  system_ok (seen ++ registered es) s'.
Proof.
  revert seen s. induction es as [|e es IH]; intros seen s Hn Hs E.
  { simpl in E. simplify_eq. by rewrite app_nil_r. }
  cbn [run] in E. destruct (step e s) as [s1|] eqn:E1; [|done]. simpl in E.
  change (registered (e :: es)) with (registered ([e] ++ es)) in *.
  unfold registered in Hn |- *. rewrite omap_app, (assoc_L (++)) in Hn |- *.
  apply (IH _ s1); [done| |done]. eapply step_ok; [|done..].
  intros sid v now -> Hin. simpl in Hn.
  apply NoDup_app in Hn as [Hn _]. apply NoDup_app in Hn as (_ & Hn & _).
  apply (Hn sid Hin). set_solver.
Qed.

Definition empty_system (c : coordinator) : Prop := store c = ∅ ∧ sessions c = ∅.

Lemma system_init_ok' c : empty_system c → system_ok [] (System c ∅).
Proof.
  intros [E1 E2]. split; simpl; rewrite ?E1, ?E2; intros *;
    rewrite ?lookup_empty; try done; try apply dict_empty_ok; intros [? ?]; done.
Qed.

(** C32: a Tool never runs while its VM is being evicted.  In every
    interleaving of the session operations in which no id is registered
    twice, no session is active and under eviction at once; whoever holds a
    claimed session (an evictor or an idle memory return) holds it alone, and
    the session stays flagged and its Tool inactive until it lets go; and a
    registered session is only flagged while someone holds it, so the
    operations waiting for it are woken. *)
Theorem eviction_fences_tools c es s :
  empty_system c → NoDup (registered es) → run es (System c ∅) = Some s →
  (∀ o st, store (co s) !! o = Some st → ¬ (tool_active st ∧ eviction_in_progress st)) ∧
  (∀ t th o, threads s !! t = Some th → owner th = Some o →
     (∃ st, store (co s) !! o = Some st ∧ eviction_in_progress st ∧ ¬ tool_active st) ∧
     ∀ t' th', threads s !! t' = Some th' → owner th' = Some o → t' = t) ∧
  (∀ sid o st, sessions (co s) !! sid = Some o → store (co s) !! o = Some st →
     eviction_in_progress st → ∃ t th, threads s !! t = Some th ∧ owner th = Some o).
Proof.
  intros Hc Hn Hr. apply (run_system_ok es [] _ s) in Hr; [|done|by apply system_init_ok'].
  destruct Hr as [Hfr Hfe Hd Hcu Hu Hse Ho Hsi Hfl]. split_and!.
  - intros o st E. by apply (Hfe o).
  - intros t th o Et Hth. split; [|intros t' th' Et' Hth'; by eapply Hsi].
    destruct (Ho t th o Et Hth) as (st & E & Hp & _). exists st. split_and!; [done..|].
    intros Ha. by apply (Hfe o st E).
  - intros sid o st Eo E Hp. destruct (Hcu sid o Eo) as (st' & E' & <-). simplify_eq. by apply (Hfl o st).
Qed.

Definition everyone : residency := λ _, true.

(** A Tool start waits out an eviction that a finished model wait overtook. *)
Definition overlap : list event :=
  [Register "s1" 1%nat 0; Register "s2" 2%nat 1; BeginWait "s1" "w" 2;
   ClaimVictim 0%nat everyone ""; CompleteWait 1%nat "s1" "w"; EnterTool 2%nat "s1" true;
   Activate 2%nat 3; Proceed 1%nat].
Definition overlap' : list event :=
  take 6 overlap ++ [ReleaseVictim 0%nat false; Proceed 1%nat; Activate 2%nat 3].

Definition after (es : list event) : system := default (System demo ∅) (run es (System demo ∅)).

Lemma eviction_fences_tools_witness :
  run overlap (System demo ∅) = None ∧
  (∀ o st, store (co (after overlap')) !! o = Some st → ¬ (tool_active st ∧ eviction_in_progress st)) ∧
  tool_active <$> session_state "s1" (co (after overlap')) = Some true.
Proof.
  split; [vm_compute; reflexivity|]. split; [|vm_compute; reflexivity].
  apply (eviction_fences_tools demo overlap').
  - by split.
  - apply (bool_decide_unpack _). vm_compute. exact I.
  - vm_compute. reflexivity.
Defined.

(** The victim is the idle session that was used longest ago.  It is
    registered, resident, not excluded, not running a Tool, not already under
    eviction and, under wait-aware eviction, in a model wait whose response is
    not ready; no other such session has an older last use; and there is no
    victim only if the policy keeps every VM resident or no session is idle. *)
Theorem victim_is_lru resident exclude c :
  match select_victim resident exclude c with
  | Some (o, st) =>
      keep_resident (cfg c) = false ∧
      (∃ sid, (sid, o) ∈ (sessions c : list _)) ∧ store c !! o = Some st ∧
      session_id st ≠ exclude ∧ eviction_eligible st = true ∧ eviction_in_progress st = false ∧
      tool_active st = false ∧ resident (lifecycle st) = true ∧
      (wait_aware (cfg c) = true → is_Some (wait_id st) ∧ response_ready st = false) ∧
      (∀ sid' o' st', (sid', o') ∈ (sessions c : list _) → store c !! o' = Some st' →
         idle c resident exclude st' = true → (last_used st <= last_used st')%Q)
  | None =>
      keep_resident (cfg c) = true ∨
      ∀ sid' o' st', (sid', o') ∈ (sessions c : list _) → store c !! o' = Some st' →
        idle c resident exclude st' = false
  end.
Proof.
  destruct (select_victim resident exclude c) as [[o st]|] eqn:E.
  - apply select_victim_spec in E as (Hk & Hin & Hall).
    apply idle_candidates_spec in Hin as (Hreg & Est & Hi).
    destruct (idle_spec _ _ _ _ Hi) as (H1 & H2 & H3 & H4 & H5 & H6). split_and!; try done.
    intros sid' o' st' Ho' Es' Hi'. rewrite Forall_forall in Hall.
    assert (Hin : (o', st') ∈ candidates c resident exclude) by (apply idle_candidates_spec; eauto).
    specialize (Hall _ Hin). unfold cmp_le, by_last_used in Hall. by apply Qle_alt.
  - unfold select_victim in E. destruct (keep_resident (cfg c)); [by left|right].
    intros sid' o' st' Ho' Es'. destruct (idle c resident exclude st') eqn:Hi; [|done].
    assert (Hin : (o', st') ∈ candidates c resident exclude) by (apply idle_candidates_spec; eauto).
    destruct (min_by_some by_last_used (candidates c resident exclude)) as [? ?]; [|congruence].
    intros E0. rewrite E0 in Hin. by apply elem_of_nil in Hin.
Qed.

(** ** A pair is checkpointed whole or not at all *)

(** Replaying the actions of an eviction against the stack of reservations
    held: they close in reverse order, and a VM that reserves checkpoints is
    only checkpointed at the tier of a reservation it holds. *)
Fixpoint replay (ops : vm_ops) (a : list act) (stack : list (vm * option tier))
    : option (list (vm * option tier)) :=
  match a with
  | [] => Some stack
  | Reserved v t :: a' => replay ops a' ((v, t) :: stack)
  | Unreserved v t :: a' =>
      match stack with
      | vt :: stack' => if decide (vt = (v, t)) then replay ops a' stack' else None
      | [] => None
      end
  | Checkpointed v t :: a' =>
      if decide (has_reserve ops v = false ∨ (v, t) ∈ stack) then replay ops a' stack else None
  | _ :: a' => replay ops a' stack
  end.

Definition checkpointed (a : list act) : list (vm * option tier) :=
  omap (λ x, match x with Checkpointed v t => Some (v, t) | _ => None end) a.

Lemma replay_app ops a b st : replay ops (a ++ b) st = replay ops a st ≫= replay ops b.
Proof.
  revert st. induction a as [|x a IH]; intros st; [done|]. destruct x; simpl; try apply IH.
  - destruct st as [|vt st]; [done|]. case_decide; [apply IH|done].
  - case_decide; [apply IH|done].
Qed.

(** The recorded actions replay to the reservations recorded as held. *)
Definition replayed (ops : vm_ops) (w : checkpointing) : Prop :=
  replay ops (acts w) [] = Some (rev (held w)).

Lemma replayed_acts ops a a' h h' :
  replayed ops (Checkpointing a h) → replay ops a' (rev h) = Some (rev h') →
  replayed ops (Checkpointing (a ++ a') h').
Proof. unfold replayed. simpl. intros E E'. by rewrite replay_app, E. Qed.

Lemma enter_replayed ops t v w : replayed ops w →
  replayed ops (enter_reservation ops t v w).2 ∧
  checkpointed (acts (enter_reservation ops t v w).2) = checkpointed (acts w) ∧
  ((enter_reservation ops t v w).1 = Ok tt →
   held (enter_reservation ops t v w).2 = held w ++ [(v, t)]).
Proof.
  intros H. unfold enter_reservation, lift, modify, mbind, M_bind.
  destruct (reserve_outcome ops v t) as [[]|e]; simpl; [|done].
  split; [|split; [unfold checkpointed; rewrite omap_app; apply app_nil_r|done]].
  destruct w as [a h]. eapply replayed_acts; [done|]. simpl. by rewrite rev_app_distr.
Qed.

Lemma close_replayed ops w : replayed ops w →
  replayed ops (close_reservations w) ∧
  checkpointed (acts (close_reservations w)) = checkpointed (acts w) ∧
  held (close_reservations w) = [].
Proof.
  intros H. destruct w as [a h]. split_and!; [|unfold checkpointed; simpl; rewrite omap_app|done].
  - eapply replayed_acts; [done|]. clear H. simpl. induction (rev h) as [|[v t] l IH]; [done|].
    simpl. by rewrite decide_True.
  - rewrite <- (app_nil_r (omap _ a)) at 2. f_equal. by induction (rev h).
Qed.

(** Reserving for a list of VMs, each if [guard] holds. *)
Lemma reserve_each ops t (guard : vm → bool) vms w :
  let m := for_each vms (λ v, if guard v then enter_reservation ops t v else mret tt) in
  replayed ops w →
  replayed ops (m w).2 ∧ checkpointed (acts (m w).2) = checkpointed (acts w) ∧
  ((m w).1 = Ok tt → (∀ vt, vt ∈ held w → vt ∈ held (m w).2) ∧
                     ∀ v, v ∈ vms → guard v = true → (v, t) ∈ held (m w).2).
Proof.
  simpl. revert w. induction vms as [|v vms IH]; intros w H; simpl.
  { split_and!; [done..|]. intros _. split; [done|]. by intros v ?%not_elem_of_nil. }
  unfold mbind, M_bind. destruct (guard v) eqn:G.
  - destruct (enter_replayed ops t v w H) as (H1 & H2 & H3).
    destruct (enter_reservation ops t v w) as [[[]|e] w1]; simpl in *; [|done].
    destruct (IH w1 H1) as (H4 & H5 & H6). split_and!; [done|congruence|]. intros Hok.
    destruct (H6 Hok) as [H7 H8]. rewrite H3 in H7 by done. split; [set_solver|].
    intros v' [->|Hin]%elem_of_cons Hg; [|by apply H8]. set_solver.
  - simpl. destruct (IH w H) as (H4 & H5 & H6). split_and!; [done..|]. intros Hok.
    destruct (H6 Hok) as [H7 H8]. split; [done|].
    intros v' [->|Hin]%elem_of_cons Hg; [congruence|by apply H8].
Qed.

(** Which tier the reservations were granted at. *)
Definition granted (ops : vm_ops) (vms : list vm) (t t' : option tier) : Prop :=
  t' = t ∨ (t = None ∧ t' = Some ColdTier ∧ forallb (tiered_with_cold ops) vms = true).

Lemma checkpoint_reservations_spec ops vms t r w :
  checkpoint_reservations ops vms t (Checkpointing [] []) = (r, w) →
  replayed ops w ∧ checkpointed (acts w) = [] ∧
  (∀ t', r = Ok t' → granted ops vms t t' ∧
     ∀ v, v ∈ vms → has_reserve ops v = true → (v, t') ∈ held w).
Proof.
  unfold checkpoint_reservations, try_except.
  destruct (reserve_each ops t (has_reserve ops) vms (Checkpointing [] [])) as (H1 & H2 & H3); [done|].
  unfold mbind at 1, M_bind at 1.
  destruct (for_each vms _ (Checkpointing [] [])) as [[[]|e] w1]; simpl in H1, H2, H3.
  { intros [= <- <-]. split_and!; [done..|]. intros t' [= <-]. split; [by left|]. by apply H3. }
  destruct (is_capacity_error e); [|by intros [= <- <-]].
  destruct (close_replayed ops w1 H1) as (H4 & H5 & _).
  unfold mbind at 1, M_bind at 1, modify. revert H4 H5. generalize (close_reservations w1).
  intros w2 H4 H5. rewrite H2 in H5. unfold raise_if.
  destruct (bool_decide (is_Some t)) eqn:Et; [by intros [= <- <-]|]. simpl.
  destruct (forallb (tiered_with_cold ops) vms) eqn:Ec; [|by intros [= <- <-]].
  unfold mbind at 1, M_bind at 1. simpl.
  destruct (reserve_each ops (Some ColdTier) (λ _, true) vms w2 H4) as (H6 & H7 & H8).
  unfold mbind at 1, M_bind at 1.
  destruct (for_each vms _ w2) as [[[]|e'] w3]; simpl in H6, H7, H8;
    intros [= <- <-]; (split_and!; [done|congruence|]); [|done].
  intros t' [= <-]. split; [|by intros v Hv _; apply H8].
  right. by destruct t.
Qed.

Lemma checkpoint_replayed ops t v w :
  replayed ops w → (has_reserve ops v = true → (v, t) ∈ held w) →
  replayed ops (checkpoint ops t v w).2 ∧ held (checkpoint ops t v w).2 = held w ∧
  (checkpointed (acts (checkpoint ops t v w).2) = checkpointed (acts w) ++
   if is_ok (checkpoint ops t v w).1 then [(v, t)] else []).
Proof.
  intros H Hv. unfold checkpoint, lift, modify, mbind, M_bind.
  destruct (checkpoint_outcome ops v t) as [q|e]; simpl; [|by rewrite app_nil_r].
  destruct w as [a h]. split_and!; [|done|unfold checkpointed; by rewrite omap_app].
  eapply replayed_acts; [done|]. simpl. rewrite decide_True; [done|].
  destruct (has_reserve ops v); [right|by left]. rewrite list_elem_of_In, <- in_rev, <- list_elem_of_In. by apply Hv.
Qed.

Lemma hook_replayed ops (b : bool) (o : outcome unit) a w :
  (a = PairHook ∨ a = RuntimeHook) → replayed ops w →
  replayed ops (run_hook b o a w).2 ∧ held (run_hook b o a w).2 = held w ∧
  checkpointed (acts (run_hook b o a w).2) = checkpointed (acts w).
Proof.
  intros Ha H. unfold run_hook. destruct b; [|done]. unfold lift, modify, mbind, M_bind.
  destruct o as [[]|e]; [|done]. destruct w as [acts0 h]. split_and!; [|done|].
  - eapply replayed_acts; [done|]. by destruct Ha as [-> | ->].
  - unfold checkpointed. simpl. rewrite omap_app. destruct Ha as [-> | ->]; apply app_nil_r.
Qed.

(** The pair of a victim: its Tool VM and the Runtime in scope. *)
Definition pair (s : session) (runtime : option vm) : list vm := lifecycle s :: option_list runtime.

Lemma checkpoint_pair_spec ops s runtime t r w0 w :
  (∀ v, v ∈ pair s runtime → has_reserve ops v = true → (v, t) ∈ held w0) →
  replayed ops w0 → checkpointed (acts w0) = [] →
  checkpoint_pair ops s runtime t w0 = (r, w) →
  replayed ops w ∧
  (checkpointed (acts w) `prefix_of` ((λ v, (v, t)) <$> pair s runtime)) ∧
  (is_ok r = true → checkpointed (acts w) = (λ v, (v, t)) <$> pair s runtime).
Proof.
  intros Hheld H0 E0. unfold checkpoint_pair, mbind at 1, M_bind at 1.
  destruct (hook_replayed ops (bool_decide (is_Some runtime) && pair_before_pause s)
              (pair_hook ops) PairHook w0) as (H1 & H2 & H3); [by left|done|].
  destruct (run_hook _ _ _ w0) as [[[]|e] w1]; simpl in H1, H2, H3; rewrite E0 in H3.
  2: { intros [= <- <-]. rewrite H3. split_and!; [done|apply prefix_nil|done]. }
  unfold mbind at 1, M_bind at 1.
  destruct (checkpoint_replayed ops t (lifecycle s) w1) as (H4 & H5 & H6); [done| |].
  { rewrite H2. apply Hheld. by left. }
  destruct (checkpoint ops t (lifecycle s) w1) as [[te|e] w2]; simpl in H4, H5, H6; rewrite H3 in H6.
  2: { intros [= <- <-]. rewrite H6. split_and!; [done|apply prefix_nil|done]. }
  destruct runtime as [v|]; [|intros [= <- <-]; by rewrite H6].
  unfold mbind at 1, M_bind at 1.
  destruct (hook_replayed ops (runtime_before_pause s) (runtime_hook ops) RuntimeHook w2)
    as (H7 & H8 & H9); [by right|done|].
  destruct (run_hook _ _ _ w2) as [[[]|e] w3]; simpl in H7, H8, H9; rewrite H6 in H9.
  2: { intros [= <- <-]. rewrite H9. split_and!; [done|by exists [(v, t)]|done]. }
  unfold mbind at 1, M_bind at 1.
  destruct (checkpoint_replayed ops t v w3) as (HA & HB & HC); [done| |].
  { rewrite H8, H5, H2. apply Hheld. right. by left. }
  destruct (checkpoint ops t v w3) as [[re|e] w4]; simpl in HA, HB, HC; rewrite H9 in HC;
    intros [= <- <-]; rewrite HC; split_and!; try done. by exists [(v, t)].
Qed.

Lemma evict_vms_spec ops s runtime t ready r w :
  evict_vms ops s runtime t = ((ready, r), w) →
  replay ops (acts w) [] = Some [] ∧
  (ready = false → checkpointed (acts w) = [] ∧ is_ok r = false) ∧
  (∃ t', checkpointed (acts w) `prefix_of` ((λ v, (v, t')) <$> pair s runtime) ∧
         (ready = true → granted ops (pair s runtime) t t') ∧
         (is_ok r = true → checkpointed (acts w) = (λ v, (v, t')) <$> pair s runtime)).
Proof.
  unfold evict_vms. fold (pair s runtime).
  destruct (checkpoint_reservations _ _ _ _) as [[t'|e] w0] eqn:E;
    destruct (checkpoint_reservations_spec _ _ _ _ _ E) as (H1 & H2 & H3).
  - destruct (H3 t' eq_refl) as [Hg Hh].
    destruct (checkpoint_pair ops s runtime t' w0) as [r' w1] eqn:Ep. intros [= <- <- <-].
    destruct (checkpoint_pair_spec ops s runtime t' _ w0 _ Hh H1 H2 Ep) as (H4 & H5 & H6).
    destruct (close_replayed ops w1 H4) as (H7 & H8 & H9).
    unfold replayed in H7. rewrite H9 in H7. split_and!; [done..|]. exists t'.
    unfold close_reservations in H8. simpl in H8 |- *. by rewrite H8.
  - destruct (close_replayed ops w0 H1) as (H7 & H8 & H9). intros [= <- <- <-].
    unfold replayed in H7. rewrite H9 in H7. unfold close_reservations in H8. simpl in H8 |- *.
    rewrite H8, H2. split_and!; [done..|]. exists t. split_and!; [apply prefix_nil|done..].
Qed.

Lemma finish_flag o c st : store c !! o = Some st →
  ∃ st', store (release_victim o c) !! o = Some st' ∧ eviction_in_progress st' = false ∧
         eviction_eligible st' = false.
Proof.
  intros E. exists (set_eviction false false st). split; [|done].
  unfold release_victim. simpl. by rewrite lookup_alter_eq, E.
Qed.

(** An eviction checkpoints the claimed pair whole or not at all, and
    never leaves its victim stuck.  Whatever the VMs, the hooks and other
    threads do: every checkpoint reservation is released in reverse order, a
    VM that reserves is only checkpointed under its own reservation; the VMs
    checkpointed are a prefix of the pair (Tool first) at one tier, the one
    asked for or, when tiered storage backs every VM of an untiered request,
    the cold one; if the eviction returns, that is nothing or the whole pair,
    and the whole pair if it reports success; and on every outcome the victim
    is no longer under eviction, nor eligible while its Tool is active or its
    response is ready. *)
Theorem eviction_all_or_nothing resident ops meanwhile on_pause t exclude c o st c1 st2 r a c' :
  claim_victim resident exclude c = (Ok (Some (o, st)), c1) →
  store (meanwhile c1) !! o = Some st2 →
  evict_one_for_watermark resident ops meanwhile on_pause t exclude c = ((r, a), c') →
  let p := pair st (runtime_scope c1 resident st) in
  replay ops a [] = Some [] ∧
  (∃ t', checkpointed a `prefix_of` ((λ v, (v, t')) <$> p) ∧
     (checkpointed a ≠ [] → granted ops p t t') ∧
     (is_ok r = true → checkpointed a = [] ∨ checkpointed a = (λ v, (v, t')) <$> p) ∧
     (r = Ok true → checkpointed a = (λ v, (v, t')) <$> p)) ∧
  (∃ st', store c' !! o = Some st' ∧ eviction_in_progress st' = false ∧
     (eviction_eligible st' = true → tool_active st' = false ∧ response_ready st' = false)).
Proof.
  intros Hc Est E p. unfold evict_one_for_watermark in E. rewrite Hc in E.
  destruct (evict_vms _ _ _ _) as [[ready r'] w] eqn:Ev.
  destruct (evict_vms_spec _ _ _ _ _ _ _ Ev) as (H1 & H2 & t' & H3 & H4 & H5).
  fold p in H3, H4, H5.
  assert (Hg : checkpointed (acts w) ≠ [] → granted ops p t t').
  { intros Hne. apply H4. destruct ready; [done|]. by destruct (H2 eq_refl). }
  destruct r' as [[te re]|e].
  - specialize (H5 eq_refl). destruct (finish_flag o (count_pauses (option_list te ++ option_list re)
      (meanwhile c1)) st2 Est) as (st' & E' & Hf & He).
    injection E as <- <- <-. split_and!; [done| |].
    + exists t'. split_and!; [done..|by right|done].
    + exists st'. split_and!; [done..|]. by rewrite He.
  - destruct (is_capacity_error e && negb ready) eqn:Ee; injection E as <- <- <-.
    + apply andb_true_iff in Ee as [_ Hr%negb_true_iff]. destruct (H2 Hr) as [Hnil _].
      split_and!; [done| |].
      * exists t'. split_and!; [done..|by left|done].
      * destruct (finish_flag o (count_capacity_skip (meanwhile c1)) st2 Est) as (st' & E' & Hf & He).
        eexists. rewrite store_update, lookup_alter_eq, E'. split; [done|]. split; [done|].
        simpl. rewrite andb_true_iff, !negb_true_iff. done.
    + split_and!; [done| |].
      * exists t'. by split_and!.
      * destruct (finish_flag o (meanwhile c1) st2 Est) as (st' & E' & Hf & He).
        exists st'. split_and!; [done..|]. by rewrite He.
Qed.

(** A pair whose WARM reservation fails after its first half falls back to
    the cold tier. *)
Definition full_warm : vm_ops :=
  VmOps (λ _, true)
    (λ v t, if decide (t = None ∧ v = 11%nat) then Raise (WarmCapacityError "full") else Ok tt)
    (λ _, true) (Ok tt) (Ok tt) (λ _ _, Ok (Some 1%Q)).
Definition waiting : coordinator :=
  co (default (System demo ∅)
    (run [Register "s1" 10%nat 0; RegisterRuntime "s1" 11%nat true true; BeginWait "s1" "w" 2]
       (System demo ∅))).

Lemma eviction_all_or_nothing_witness :
  let '((r, a), c') := evict_one_for_watermark everyone full_warm id (Ok tt) None "" waiting in
  r = Ok true ∧ replay full_warm a [] = Some [] ∧
  checkpointed a = [(10%nat, Some ColdTier); (11%nat, Some ColdTier)].
Proof.
  destruct (evict_one_for_watermark everyone full_warm id (Ok tt) None "" waiting)
    as [[r a] c'] eqn:E.
  split; [by vm_compute in E; injection E as <- _ _|].
  split; [|by vm_compute in E; injection E as _ <- _].
  eapply (eviction_all_or_nothing everyone full_warm id (Ok tt) None "" waiting 0%nat).
  - vm_compute. reflexivity.
  - vm_compute. reflexivity.
  - exact E.
Defined.
