(* ===== verification/Admission.v ===== *)
(** * The admission decision (src/clawbox/experiments/policy.py)

    [_pressure_reasons] decides whether a request fits the memory budgets, and
    [_admission_head_locked] / [_feasible_progress_prefix_locked] which waiting
    request may be decided next.  Kernel and cgroup readings are outcomes in a
    [probes] record; several of them are taken with the admission lock
    released, so the record also says what other threads do meanwhile. *)
From S2P Require Import Prelude Dict DemandLedger Coordinator.

(** One evaluation's view of the outside: the samples taken under the lock
    (physical, global, and both again after an exact reading), the readings of
    the claims' cgroups, the counters of the congestion check, and the effect
    [p_gap n] of other threads at the [n]-th release of the lock. *)
Record probes := Probes {
  p_readings : readings;
  p_page : Z;
  p_check : outcome unit;
  p_physical : outcome (Z * Z);
  p_global : outcome (Z * Z);
  p_physical' : outcome (Z * Z);
  p_global' : outcome (Z * Z);
  p_kernel : kernel;
  p_times : Q * Q;
  p_shared : measured;
  p_resident : vm → bool;
  p_gap : nat → coordinator → coordinator;
}.

(** The observations a caller carries into the lock. *)
Record observations := Observations {
  o_physical : option (Z * Z);
  o_global : option (Z * Z);
  o_pending : option measured;
}.

Definition no_observations : observations := Observations None None None.

(** [_physical_sample_locked] and [_global_sample_locked], unless a sample
    was carried in. *)
Definition sample_locked (e : probes) (n : nat) (o : outcome (Z * Z)) (carried : option (Z * Z))
    : M coordinator (Z * Z) :=
  match carried with
  | Some s => mret s
  | None => modify (p_gap e n) ;; lift o
  end.

(** [demand.pending_breakdown_without_condition(scope)]: (global, scoped). *)
Definition exact_pending (e : probes) : M coordinator (Z * Z) := λ c,
  let d1 := (start_pending_observation (demand c)).2 in
  let '(r, d) := pending_breakdown (p_readings e) (demand_scope (cfg c)) (p_times e).1 (p_times e).2
                   (λ d, demand (p_gap e 2 (with_demand d c))) (p_shared e) (demand c) in
  (r, with_demand d (p_gap e 2 (with_demand d1 c))).

(** The budget a check is made against. *)
Definition effective_budget (c : coordinator) (existing_progress : bool) (used : Z) : Z :=
  if existing_progress &&
     ((budget_bytes (cfg c) <=? used) || bool_decide (reservations (bookkeeping c) = ∅))
  then progress_budget_bytes (cfg c) else budget_bytes (cfg c).

Definition claimed_capacity (c : coordinator) (capacity_claim : bool) (additional : Z) : Z :=
  msum_vals (capacity_claims (bookkeeping c)) + (if capacity_claim then additional else 0).

Definition local_upper (c : coordinator) : Z :=
  pending_upper_bound (Some (demand_scope (cfg c))) (demand c).
Definition global_upper (c : coordinator) : Z := pending_upper_bound None (demand c).

(** What a request asks of [_pressure_reasons]. *)
Record ask := Ask {
  a_bytes : Z;
  a_capacity : bool;
  a_progress : bool;
  a_total : option Z;
  a_first_only : bool;
}.

(** The figures the decision is made on. *)
Record figures := Figures {
  f_used : Z;
  f_available : Z;
  f_capacity : Z;
  f_global : Z * Z;
  f_effective : Z;
  f_global_pending : Z;
  f_incremental : Z;
}.

(** [tuple(dict.fromkeys(reasons))] *)
Definition fromkeys (rs : list blocker) : list blocker :=
  keys (foldl (λ (d : dict blocker unit) r, <[r := tt]> d) ∅ rs).

(** The closing part of [_pressure_reasons]. *)
Definition verdict (e : probes) (q : ask) (f : figures) : M coordinator (list blocker) :=
  c ← get;
  let incremental := f_incremental f + (if a_capacity q then 0 else a_bytes q) in
  let charged := Z.max (f_used f) (f_capacity f) + incremental + operation_headroom_bytes (cfg c) in
  ds ← on_demand (reasons (p_readings e) (p_page e) (p_check e) (Ok (f_global f)) (p_kernel e)
                    (default (a_bytes q) (a_total q)) (operation_headroom_bytes (cfg c))
                    (Some (f_global_pending f)));
  mret (fromkeys
    ((if (f_effective f <? charged) && negb (a_progress q && (a_bytes q =? 0))
      then [ConfiguredMemoryBudget] else []) ++
     (if f_available f <? emergency_free_bytes (cfg c) then [EmergencyFreeMemory] else []) ++
     (Demand <$> ds))).

(** The early exits for queue selection. *)
Definition base_blocker (c : coordinator) (q : ask) (used capacity gused effective : Z)
    : option blocker :=
  let headroom := operation_headroom_bytes (cfg c) in
  let base_local := Z.max used capacity + (if a_capacity q then 0 else a_bytes q) + headroom in
  if (effective <? base_local) && negb (a_progress q && (a_bytes q =? 0))
  then Some ConfiguredMemoryBudget
  else if DemandLedger.capacity (demand c) <?
            gused + margin (demand c) + default (a_bytes q) (a_total q) + headroom
  then Some (Demand GlobalMemoryBudget)
  else None.

(** The exact figures: pending demand from the carried observation or from a
    reading with the lock released, after which every aggregate is read again. *)
Definition exact_figures (e : probes) (q : ask) (o : observations) (used available : Z)
    (global : Z * Z) : M coordinator figures :=
  match o_pending o with
  | Some m =>
      c ← get;
      '(g, l) ← lift (pending_from_observation (demand_scope (cfg c)) m (demand c));
      mret (Figures used available (claimed_capacity c (a_capacity q) (a_bytes q)) global
              (effective_budget c (a_progress q) used) g l)
  | None =>
      '(g, l) ← exact_pending e;
      '(used', available') ← sample_locked e 3 (p_physical' e) None;
      c ← get;
      global' ← sample_locked e 4 (p_global' e) None;
      c' ← get;
      mret (Figures used' available' (claimed_capacity c (a_capacity q) (a_bytes q)) global'
              (effective_budget c' (a_progress q) used') g l)
  end.

(** The conservative bound already fits both budgets. *)
Definition bound_fits (c : coordinator) (q : ask) (used capacity gused effective : Z) : bool :=
  let headroom := operation_headroom_bytes (cfg c) in
  (Z.max used capacity + local_upper c + (if a_capacity q then 0 else a_bytes q) + headroom
     <=? effective) &&
  (gused + global_upper c + margin (demand c) + default (a_bytes q) (a_total q) + headroom
     <=? DemandLedger.capacity (demand c)).

(** [_pressure_reasons] *)
Definition pressure_reasons (e : probes) (q : ask) (o : observations) : M coordinator (list blocker) :=
  c ← get;
  if resident_capacity_accounting (cfg c) then
    mret (if budget_bytes (cfg c) <? msum_vals (resident_capacity_claims (bookkeeping c)) + a_bytes q
          then [ResidentCapacityBudget] else [])
  else
    '(used, available) ← sample_locked e 0 (p_physical e) (o_physical o);
    c ← get;
    let capacity := claimed_capacity c (a_capacity q) (a_bytes q) in
    let effective := effective_budget c (a_progress q) used in
    global ← sample_locked e 1 (p_global e) (o_global o);
    c ← get;
    (if a_first_only q then lift (p_check e) else mret tt) ;;
    match (if a_first_only q then base_blocker c q used capacity global.1 effective else None) with
    | Some b => mret [b]
    | None =>
        if bound_fits c q used capacity global.1 effective then
          modify count_fast_path ;;
          verdict e q (Figures used available capacity global effective (global_upper c) (local_upper c))
        else
          f ← exact_figures e q o used available global;
          verdict e q f
    end.

(** The same decision without the conservative short cut. *)
Definition exact_reasons (e : probes) (q : ask) (o : observations) : M coordinator (list blocker) :=
  c ← get;
  if resident_capacity_accounting (cfg c) then
    mret (if budget_bytes (cfg c) <? msum_vals (resident_capacity_claims (bookkeeping c)) + a_bytes q
          then [ResidentCapacityBudget] else [])
  else
    '(used, available) ← sample_locked e 0 (p_physical e) (o_physical o);
    global ← sample_locked e 1 (p_global e) (o_global o);
    f ← exact_figures e q o used available global;
    verdict e q f.

(** ** Observations taken outside the lock *)

Definition creation_queued (c : coordinator) : bool :=
  negb (dempty (claims (demand c))) &&
  bool_decide (map_Exists (λ _ r, r_class r = "create") (waiter_requests (adm c))).

(** [_pending_observation_needed] *)
Definition pending_observation_needed (c : coordinator) (additional total : Z) (progress : bool)
    (physical global : Z * Z) : bool :=
  let effective := effective_budget c progress physical.1 in
  let headroom := operation_headroom_bytes (cfg c) in
  let cap := DemandLedger.capacity (demand c) in
  let base_local := physical.1 + additional + headroom in
  let base_global := global.1 + margin (demand c) + total + headroom in
  if ((effective <? base_local) && negb (progress && (additional =? 0))) || (cap <? base_global)
  then creation_queued c
  else
    (effective <? physical.1 + local_upper c + additional + headroom) ||
    (cap <? global.1 + global_upper c + margin (demand c) + total + headroom).

(** [_admission_observations]; the samples are shared with other callers. *)
Definition admission_observations (physical global : outcome (Z * Z))
    : M coordinator (option (Z * Z) * option (Z * Z)) :=
  c ← get;
  if resident_capacity_accounting (cfg c) then mret (None, None)
  else p ← lift physical; g ← lift global; mret (Some p, Some g).

(** [demand.pending_observation]: measured by this thread, or by the leader it
    joins. *)
Definition pending_observation (e : probes) : M coordinator measured :=
  '(f, _, snapshot) ← on_demand start_pending_observation;
  modify (p_gap e 2) ;;
  match snapshot with
  | Some sn =>
      on_demand (publish_observation (p_times e).1 (p_times e).2 (measure (p_readings e) sn)) ;;
      on_demand (finish_observation f) ;;
      mret (measure (p_readings e) sn)
  | None => mret (p_shared e)
  end.

(** [_admission_snapshot] *)
Definition admission_snapshot (e : probes) (additional total : Z) (progress : bool)
    : M coordinator observations :=
  '(physical, global) ← admission_observations (p_physical e) (p_global e);
  match physical, global with
  | Some p, Some g =>
      c ← get;
      if creation_queued c || pending_observation_needed c additional total progress p g then
        m ← pending_observation e;
        '(physical, global) ← admission_observations (p_physical' e) (p_global' e);
        mret (Observations physical global (Some m))
      else mret (Observations (Some p) (Some g) None)
  | _, _ => mret (Observations physical global None)
  end.

(** [pressure] *)
Definition pressure (e e' : probes) (additional : Z) : M coordinator bool :=
  o ← admission_snapshot e additional additional false;
  rs ← pressure_reasons e' (Ask additional false false None false) o;
  mret (negb (bool_decide (rs = []))).

(** [projected_local_commitment] *)
Definition projected_local_commitment (e : probes) (additional_mib : Z) : M coordinator Z :=
  '(_, pending) ← exact_pending e;
  '(used, _) ← sample_locked e 3 (p_physical' e) None;
  c ← get;
  mret (Z.max used (msum_vals (capacity_claims (bookkeeping c))) + pending + additional_mib * mib
        + operation_headroom_bytes (cfg c)).

(** [local_commitment_exceeds] *)
Definition local_commitment_exceeds (e : probes) (additional_mib limit : Z) : M coordinator bool :=
  '(used, _) ← lift (p_physical e);
  c ← get;
  let rest c := additional_mib * mib + operation_headroom_bytes (cfg c) in
  let floor c used := Z.max used (msum_vals (capacity_claims (bookkeeping c))) in
  if floor c used + local_upper c + rest c <=? limit then
    modify count_fast_path ;; mret false
  else
    m ← pending_observation e;
    '(used, _) ← lift (p_physical' e);
    c ← get;
    '(_, pending) ← lift (pending_from_observation (demand_scope (cfg c)) m (demand c));
    mret (limit <? floor c used + pending + rest c).

(** ** Queue selection *)

(** [_startup_headroom_needed] *)
Definition startup_headroom_needed (resident : vm → bool) (sid : string) (c : coordinator) : bool :=
  existsb (λ so : string * nat,
    match store c !! so.2 with
    | Some s => negb (bool_decide (so.1 = sid)) && resident (lifecycle s)
                && from_option resident true (runtime_lifecycle s)
    | None => false
    end) (sessions c).

Definition startup_extra (e : probes) (sid : string) (c : coordinator) : Z :=
  if startup_headroom_needed (p_resident e) sid c then startup_headroom_bytes (cfg c) else 0.

(** The outcome of a pass over the queue: start over, or the head. *)
Inductive pass := Retry | Head (t : option nat).

(** The creation [oldest] at the front of the queue may be admitted. *)
Definition creation_fits (e : probes) (o : observations) (oldest : request) : M coordinator bool :=
  c ← get;
  if admission_blocked c && negb (resident_capacity_accounting (cfg c)) then mret false
  else
    rs ← pressure_reasons e (Ask (r_amount oldest + startup_extra e (r_session oldest) c)
                               (r_capacity oldest) false None true) o;
    mret (bool_decide (rs = [])).

Fixpoint scan (e : probes) (o : observations) (snapshot ts : list nat) (first : option nat)
    : M coordinator pass :=
  match ts with
  | [] => mret (Head first)
  | t :: ts' =>
      c ← get;
      match waiter_requests (adm c) !! t with
      | None => mret Retry
      | Some r =>
          if inflight (demand c) (r_session r) (r_class r) then scan e o snapshot ts' first
          else
            let f := default t first in
            if bool_decide (t ∈ progress_waiters (adm c)) then
              match waiter_requests (adm c) !! f with
              | None => mret Retry
              | Some oldest =>
                  if negb (bool_decide (f = t)) && bool_decide (r_class oldest = "create") then
                    fits ← creation_fits e o oldest;
                    c' ← get;
                    if negb (bool_decide (waiters (adm c') = snapshot)) then mret Retry
                    else mret (Head (Some (if fits : bool then f else t)))
                  else mret (Head (Some t))
              end
            else scan e o snapshot ts' (Some f)
      end
  end.

(** [_admission_head_locked]: one pass per entry of [es]; [None] while it still
    retries. *)
Fixpoint admission_head (es : list probes) (o : observations)
    : M coordinator (option (option nat)) :=
  match es with
  | [] => mret None
  | e :: es' =>
      c ← get;
      p ← scan e o (waiters (adm c)) (waiters (adm c)) None;
      match p with
      | Head t => mret (Some t)
      | Retry => admission_head es' o
      end
  end.

Definition request_total (r : request) : Z := default (r_amount r) (r_total r).

(** [_feasible_progress_prefix_locked] *)
Fixpoint prefix_from (d : ledger) (q : queue) (ticket : nat) (ts : list nat) (loc tot : Z) (n : nat)
    : outcome (option (Z * Z)) :=
  match ts with
  | [] => Ok None
  | t :: ts' =>
      match waiter_requests q !! t with
      | None => Raise (KeyError "ticket")
      | Some r =>
          if inflight d (r_session r) (r_class r) || negb (bool_decide (t ∈ progress_waiters q)) then
            prefix_from d q ticket ts' loc tot n
          else if (progress_wake_batch <? S n)%nat then Ok None
          else if decide (t = ticket) then Ok (Some (loc + r_amount r, tot + request_total r))
          else prefix_from d q ticket ts' (loc + r_amount r) (tot + request_total r) (S n)
      end
  end.

Definition feasible_progress_prefix (ticket : nat) (head : option nat) (c : coordinator)
    : outcome (option (Z * Z)) :=
  match head with
  | None => Ok None
  | Some h =>
      if negb (bool_decide (ticket ∈ progress_waiters (adm c))) then Ok None
      else
        match waiter_requests (adm c) !! h with
        | None => Raise (KeyError "head")
        | Some r =>
            if negb (bool_decide (r_class r = "tool_admission")) then Ok None
            else prefix_from (demand c) (adm c) ticket (waiters (adm c)) 0 0 0
        end
  end.

(** [blocked_demand_pressure] *)
Definition blocked_demand_pressure (e : probes) (es : list probes) (e' : probes)
    : M coordinator (option bool) :=
  o ← admission_snapshot e 0 0 true;
  h ← admission_head es o;
  match h with
  | None => mret None
  | Some None =>
      rs ← pressure_reasons e' (Ask 0 false false None false) o;
      mret (Some (negb (bool_decide (rs = []))))
  | Some (Some t) =>
      c ← get;
      match waiter_requests (adm c) !! t with
      | None => raise (KeyError "head")
      | Some r =>
          let extra := if decide (r_class r = "create") then startup_extra e' (r_session r) c else 0 in
          rs ← pressure_reasons e' (Ask (r_amount r + extra) (r_capacity r)
                                     (bool_decide (r_class r = "tool_admission")) None false) o;
          mret (Some (negb (bool_decide (rs = []))))
      end
  end.

(** ** The conservative short cut decides like the exact reading *)

Lemma grew_refl rd : grew rd rd.
Proof. intros p v v' E E'. rewrite E in E'. by injection E' as <-. Qed.

Lemma observed_bounds rd cs0 scope l g sc :
  claims_ok cs0 → ledger_ok l →
  pending_from_observation scope (measure rd (freeze cs0)) l = Ok (g, sc) →
  0 <= g <= pending_upper_bound None l ∧ 0 <= sc <= pending_upper_bound (Some scope) l.
Proof.
  intros Hc0 [Hc Hb] E.
  destruct (reconcile_bounds rd rd cs0 scope (claims l) g sc (grew_refl rd) Hc0 (proj2 Hc) E)
    as [[H1 H2] [H3 H4]].
  simpl. rewrite (books_scope _ _ scope Hb), (proj1 Hb).
  assert (0 <= dsum (left_global rd) (claims l) ∧ 0 <= dsum (left_scoped rd scope) (claims l)); [|lia].
  split; apply dsum_nonneg; intros k c Hin; destruct (left_bounds rd scope k c (proj2 Hc k c Hin)); lia.
Qed.

(** Under the capacity and without congestion, the amount of pending demand
    does not matter to the ledger. *)
Lemma reasons_slack rd ps check s k additional extra p p' l :
  congested l = false →
  s.1 + p + margin l + extra + additional <= capacity l →
  s.1 + p' + margin l + extra + additional <= capacity l →
  reasons rd ps check (Ok s) k additional extra (Some p) l =
  reasons rd ps check (Ok s) k additional extra (Some p') l.
Proof.
  intros Hc H H'. unfold reasons, lift, mbind, M_bind, mret, M_ret, get, modify.
  destruct check; [|done]. destruct s as [used available]. simpl in *.
  destruct (severe_total ps k used l) as (sv & l1 & Es). rewrite Es.
  destruct (severe_keeps _ _ _ _ _ _ Es) as (_ & _ & _ & Hcg & _).
  unfold step_congestion. rewrite Hcg, Hc. simpl.
  destruct (Z.ltb_spec (capacity l) (used + p + margin l + extra + additional)); [lia|].
  destruct (Z.ltb_spec (capacity l) (used + p' + margin l + extra + additional)); [lia|].
  by destruct sv.
Qed.

Definition with_pending (g l : Z) (f : figures) : figures :=
  Figures (f_used f) (f_available f) (f_capacity f) (f_global f) (f_effective f) g l.

(** Both budgets hold for the figures of a request. *)
Definition within (c : coordinator) (q : ask) (f : figures) : Prop :=
  Z.max (f_used f) (f_capacity f) + (f_incremental f + (if a_capacity q then 0 else a_bytes q))
    + operation_headroom_bytes (cfg c) <= f_effective f ∧
  (f_global f).1 + f_global_pending f + margin (demand c) + operation_headroom_bytes (cfg c)
    + default (a_bytes q) (a_total q) <= DemandLedger.capacity (demand c).

(** Two evaluations with the same verdict and the same ledger afterwards. *)
Definition agree {A} (r r' : outcome A * coordinator) : Prop :=
  r.1 = r'.1 ∧ demand r.2 = demand r'.2.

Lemma verdict_agree e q f g l c :
  congested (demand c) = false → within c q f → within c q (with_pending g l f) →
  agree (verdict e q f (count_fast_path c)) (verdict e q (with_pending g l f) c).
Proof.
  intros Hc [H1 H2] [H3 H4]. simpl in H3, H4. unfold verdict, mbind, M_bind, get, on_demand. simpl.
  rewrite (reasons_slack _ _ _ (f_global f) _ _ _ (f_global_pending f) g) by (try done; lia).
  destruct (reasons _ _ _ _ _ _ _ _ _) as [[ds|] d]; [|done]. split; [|done]. simpl.
  destruct (Z.ltb_spec (f_effective f) (Z.max (f_used f) (f_capacity f)
    + (f_incremental f + (if a_capacity q then 0 else a_bytes q)) + operation_headroom_bytes (cfg c))); [lia|].
  destruct (Z.ltb_spec (f_effective f) (Z.max (f_used f) (f_capacity f)
    + (l + (if a_capacity q then 0 else a_bytes q)) + operation_headroom_bytes (cfg c))); [lia|].
  done.
Qed.

Lemma elem_of_fromkeys rs r : r ∈ fromkeys rs ↔ r ∈ rs.
Proof.
  unfold fromkeys.
  assert (H : ∀ d : dict blocker unit, r ∈ keys (foldl (λ (d : dict blocker unit) r, <[r := tt]> d) d rs) ↔ r ∈ keys d ∨ r ∈ rs).
  { induction rs as [|x rs IH]; intros d; simpl; [set_solver|].
    rewrite IH, keys_insert. case_decide; set_solver. }
  rewrite H. set_solver.
Qed.

Lemma fromkeys_nil rs : fromkeys rs = [] ↔ rs = [].
Proof.
  split; [|by intros ->]. intros E. destruct rs as [|r rs]; [done|].
  assert (r ∈ fromkeys (r :: rs)) as Hin by (apply elem_of_fromkeys; by left).
  rewrite E in Hin. by apply elem_of_nil in Hin.
Qed.

(** A verdict without reasons means the budgets hold. *)
Lemma verdict_nil e q f c c' : verdict e q f c = (Ok [], c') →
  (f_effective f <? Z.max (f_used f) (f_capacity f)
     + (f_incremental f + (if a_capacity q then 0 else a_bytes q)) + operation_headroom_bytes (cfg c))
   && negb (a_progress q && (a_bytes q =? 0)) = false ∧
  emergency_free_bytes (cfg c) <= f_available f ∧
  (f_global f).1 + f_global_pending f + margin (demand c) + operation_headroom_bytes (cfg c)
    + default (a_bytes q) (a_total q) <= DemandLedger.capacity (demand c).
Proof.
  unfold verdict, mbind, M_bind, get, on_demand.
  destruct (reasons _ _ _ _ _ _ _ _ _) as [[ds|] d] eqn:E; [|done]. intros E0. injection E0 as H <-.
  apply (proj1 (fromkeys_nil _)) in H.
  apply app_nil in H as [H1 [H2 H3%fmap_nil_inv]%app_nil]. subst.
  unfold reasons in E. apply bind_ok_inv in E as (u & l1 & E1 & E).
  apply bind_ok_inv in E as ([used avail] & l2 & E2 & E). apply bind_ok_inv in E as (p & l3 & E3 & E).
  unfold lift in E1, E2. injection E1 as _ <-. injection E2 as E2 <-. injection E3 as <- <-.
  apply bind_ok_inv in E as (l4 & l5 & E4 & E). injection E4 as <- <-.
  apply bind_ok_inv in E as (sv & l6 & E5 & E). apply bind_ok_inv in E as (? & l7 & E6 & E).
  apply bind_ok_inv in E as (l8 & l9 & E7 & E). injection E7 as <- <-. injection E as E <-.
  apply app_nil in E as [Ha _]. rewrite E2. simpl. split_and!.
  - by destruct (_ && _).
  - destruct (Z.ltb_spec (f_available f) (emergency_free_bytes (cfg c))); [done|lia].
  - destruct (Z.ltb_spec (DemandLedger.capacity (demand c)) (used + f_global_pending f
      + margin (demand c) + operation_headroom_bytes (cfg c) + default (a_bytes q) (a_total q))); [done|lia].
Qed.

Section carried.
Context (e : probes) (q : ask) (c : coordinator) (phys glob : Z * Z) (m : measured) (g l : Z).
Hypothesis measured_now : resident_capacity_accounting (cfg c) = false.
Hypothesis exact : pending_from_observation (demand_scope (cfg c)) m (demand c) = Ok (g, l).

Let o := Observations (Some phys) (Some glob) (Some m).
Let capacity := claimed_capacity c (a_capacity q) (a_bytes q).
Let effective := effective_budget c (a_progress q) phys.1.
Let bounded := Figures phys.1 phys.2 capacity glob effective (global_upper c) (local_upper c).
Let read := with_pending g l bounded.

(** The part of [pressure_reasons] after the early exits. *)
Definition after_exits : outcome (list blocker) * coordinator :=
  if bound_fits c q phys.1 capacity glob.1 effective then verdict e q bounded (count_fast_path c)
  else verdict e q read c.

Lemma exact_reasons_carried : exact_reasons e q o c = verdict e q read c.
Proof.
  unfold exact_reasons, exact_figures, mbind, M_bind, get, mret, M_ret, lift. simpl.
  rewrite measured_now. destruct phys as [used available]. simpl. rewrite exact. reflexivity.
Qed.

Lemma pressure_reasons_carried :
  pressure_reasons e q o c =
  if a_first_only q then
    match p_check e with
    | Raise x => (Raise x, c)
    | Ok _ =>
        match base_blocker c q phys.1 capacity glob.1 effective with
        | Some b => (Ok [b], c)
        | None => after_exits
        end
    end
  else after_exits.
Proof.
  unfold after_exits, read, bounded, effective, capacity.
  unfold pressure_reasons, exact_figures, mbind, M_bind, get, mret, M_ret, lift, modify. simpl.
  rewrite measured_now. destruct phys as [used available]. simpl.
  destruct (a_first_only q).
  - destruct (p_check e) as [[]|]; [|done]. destruct (base_blocker _ _ _ _ _ _); [done|].
    destruct (bound_fits _ _ _ _ _ _); [done|]. by rewrite exact.
  - destruct (bound_fits _ _ _ _ _ _); [done|]. by rewrite exact.
Qed.

Lemma after_exits_agree :
  congested (demand c) = false → 0 <= g <= global_upper c → 0 <= l <= local_upper c →
  agree after_exits (verdict e q read c).
Proof.
  intros Hc Hg Hl. unfold after_exits. destruct (bound_fits _ _ _ _ _ _) eqn:E; [|done].
  unfold bound_fits in E. apply andb_true_iff in E as [E1%Z.leb_le E2%Z.leb_le].
  apply verdict_agree; [done|..]; split; simpl; lia.
Qed.

(** The early exits reject only what the exact figures reject. *)
Lemma base_blocker_sound b r :
  0 <= g → 0 <= l → base_blocker c q phys.1 capacity glob.1 effective = Some b →
  verdict e q read c ≠ (Ok [], r).
Proof.
  intros Hg Hl E Hv. apply verdict_nil in Hv as (H1 & _ & H3). simpl in H1, H3.
  unfold base_blocker in E.
  destruct (negb (a_progress q && (a_bytes q =? 0))) eqn:Ep.
  - rewrite !andb_true_r in *.
    destruct (Z.ltb_spec effective (Z.max phys.1 capacity + (if a_capacity q then 0 else a_bytes q)
      + operation_headroom_bytes (cfg c))).
    + apply Z.ltb_ge in H1. lia.
    + destruct (Z.ltb_spec (DemandLedger.capacity (demand c)) (glob.1 + margin (demand c)
        + default (a_bytes q) (a_total q) + operation_headroom_bytes (cfg c))); [lia|done].
  - rewrite andb_false_r in E.
    destruct (Z.ltb_spec (DemandLedger.capacity (demand c)) (glob.1 + margin (demand c)
        + default (a_bytes q) (a_total q) + operation_headroom_bytes (cfg c))); [lia|done].
Qed.

Lemma verdict_check x : p_check e = Raise x → (verdict e q read c).1 = Raise x.
Proof.
  intros E. unfold verdict, mbind, M_bind, get, on_demand, reasons, lift. by rewrite E.
Qed.
End carried.

(** The admission short cuts never change a decision.  Whenever the
    readings are carried in and the ledger is not congested: charging claims at
    their nominal bound when that bound fits gives the same reasons, and leaves
    the ledger in the same state, as reading every claim; and the early exits of
    queue selection accept exactly the requests the full evaluation accepts.
    The observation may be of an earlier state of the ledger. *)
Theorem pressure_short_cuts e q c phys glob rd cs0 g l :
  let m := measure rd (freeze cs0) in
  let o := Observations (Some phys) (Some glob) (Some m) in
  claims_ok cs0 → ledger_ok (demand c) → congested (demand c) = false →
  pending_from_observation (demand_scope (cfg c)) m (demand c) = Ok (g, l) →
  (a_first_only q = false → agree (pressure_reasons e q o c) (exact_reasons e q o c)) ∧
  ((pressure_reasons e q o c).1 = Ok [] ↔ (exact_reasons e q o c).1 = Ok []).
Proof.
  intros m o Hc0 Hl Hcong E.
  destruct (resident_capacity_accounting (cfg c)) eqn:Hres.
  { unfold pressure_reasons, exact_reasons, mbind, M_bind, get. by rewrite Hres. }
  destruct (observed_bounds _ _ _ _ _ _ Hc0 Hl E) as [Hg Hlo].
  pose proof (after_exits_agree e q c phys glob g l Hcong Hg Hlo) as Ha.
  unfold o. rewrite (exact_reasons_carried e q c phys glob m g l Hres E).
  rewrite (pressure_reasons_carried e q c phys glob m g l Hres E).
  split; [by intros ->|]. destruct (a_first_only q); [|by rewrite (proj1 Ha)].
  destruct (p_check e) as [[]|x] eqn:Ex.
  2: { by rewrite (verdict_check e q c phys glob g l x Ex). }
  destruct (base_blocker _ _ _ _ _ _) as [b|] eqn:Eb; [|by rewrite (proj1 Ha)].
  split; [done|]. intros Hv.
  destruct (verdict e q _ c) as [r c'] eqn:Ev. simpl in Hv. subst r.
  by eapply base_blocker_sound in Eb; [destruct (Eb Ev)|lia..].
Qed.

(** A ledger with one claim of 100 MiB, half consumed. *)
Definition half_consumed : readings := λ _, Ok (50 * mib, 50 * mib).
Definition booked : coordinator :=
  with_demand (add (λ _, Ok (0, 0)) ("s1", "create") "node0" (100 * mib) (100 * mib) (Some 1%nat) demo_ledger).2
    demo.
Definition quiet_probes : probes :=
  Probes half_consumed 4096 (Ok tt) (Ok (0, 8192 * mib)) (Ok (0, 8192 * mib)) (Ok (0, 8192 * mib))
    (Ok (0, 8192 * mib)) (Kernel 0 0 ∅ None 0) (0%Q, 0%Q) ∅ (λ _, true) (λ _ c, c).

Lemma booked_ok : ledger_ok (demand booked).
Proof.
  apply add_safe; [|by intros p|unfold mib; lia..].
  by apply (ledger_init_ok (4096 * mib) (512 * mib) 0 false (8 # 10)).
Qed.

(** Near the budget the bound does not fit and the claims are read. *)
Lemma pressure_short_cuts_witness :
  let o := Observations (Some (3900 * mib, 8192 * mib)) (Some (3900 * mib, 8192 * mib))
             (Some (measure half_consumed (freeze (claims (demand booked))))) in
  let q := Ask (120 * mib) false true None true in
  (pressure_reasons quiet_probes q o booked).1 = Ok [] ↔ (exact_reasons quiet_probes q o booked).1 = Ok [].
Proof.
  apply (pressure_short_cuts quiet_probes (Ask (120 * mib) false true None true) booked
           (3900 * mib, 8192 * mib) (3900 * mib, 8192 * mib) half_consumed
           (claims (demand booked)) (50 * mib) (50 * mib)).
  - apply booked_ok.
  - apply booked_ok.
  - reflexivity.
  - vm_compute. reflexivity.
Defined.

(** With a congested ledger the short cut does change the decision: the
    nominal bound is above the exit ratio, the consumed one is not. *)
Definition congested_booked : coordinator :=
  with_demand (with_congestion true (Some 0%Q) (demand booked)) booked.

Example short_cut_prolongs_congestion :
  let o := Observations (Some (3200 * mib, 8192 * mib)) (Some (3200 * mib, 8192 * mib))
             (Some (measure half_consumed (freeze (claims (demand booked))))) in
  let q := Ask (20 * mib) false true None false in
  (pressure_reasons quiet_probes q o congested_booked).1 = Ok [Demand SustainedMemoryCongestion] ∧
  (exact_reasons quiet_probes q o congested_booked).1 = Ok [].
Proof. split; vm_compute; reflexivity. Qed.

(** ** Which waiter may be admitted next *)

(** The waiters whose claim is not already in flight, in queue order, and
    those of them that belong to existing sessions. *)
Definition may_run (d : ledger) (q : queue) (t : nat) : bool :=
  from_option (λ r, negb (inflight d (r_session r) (r_class r))) false (waiter_requests q !! t).
Definition runnable_of (d : ledger) (q : queue) (ts : list nat) : list nat :=
  filter (λ t, may_run d q t = true) ts.
Definition progress_of (d : ledger) (q : queue) (ts : list nat) : list nat :=
  filter (λ t, t ∈ progress_waiters q) (runnable_of d q ts).
Definition runnable (c : coordinator) : list nat := runnable_of (demand c) (adm c) (waiters (adm c)).
Definition runnable_progress (c : coordinator) : list nat :=
  progress_of (demand c) (adm c) (waiters (adm c)).

(** FIFO, except that the first request of an existing session overtakes a
    front that is not one itself, unless that front is a creation that fits. *)
Definition head_policy (fits : bool) (c : coordinator) : option nat :=
  match head (runnable c), head (runnable_progress c) with
  | Some f, Some p =>
      match waiter_requests (adm c) !! f with
      | Some r => if fits && bool_decide (f ≠ p) && bool_decide (r_class r = "create")
                  then Some f else Some p
      | None => Some p
      end
  | f, _ => f
  end.

(** The creation at the front is admissible now. *)
Definition front_fits (e : probes) (o : observations) (c : coordinator) : bool :=
  match head (runnable c) ≫= λ f, waiter_requests (adm c) !! f with
  | Some r => match (creation_fits e o r c).1 with Ok b => b | Raise _ => false end
  | None => false
  end.

Lemma runnable_cons d q t ts :
  runnable_of d q (t :: ts) = if may_run d q t then t :: runnable_of d q ts else runnable_of d q ts.
Proof. unfold runnable_of. rewrite filter_cons. by destruct (may_run d q t). Qed.

Lemma progress_cons d q t ts :
  progress_of d q (t :: ts) =
  if may_run d q t && bool_decide (t ∈ progress_waiters q) then t :: progress_of d q ts
  else progress_of d q ts.
Proof.
  unfold progress_of. rewrite runnable_cons. destruct (may_run d q t); [|done]. simpl.
  rewrite filter_cons. by case_decide; [rewrite bool_decide_true|rewrite bool_decide_false].
Qed.

Definition front (first : option nat) (l : list nat) : option nat :=
  match first with Some f => Some f | None => head l end.

(** One pass over a well-formed queue. *)
Lemma scan_spec e o snapshot ts first c :
  (∀ t, t ∈ ts → is_Some (waiter_requests (adm c) !! t)) →
  (∀ f, first = Some f → is_Some (waiter_requests (adm c) !! f)) →
  scan e o snapshot ts first c =
  match head (progress_of (demand c) (adm c) ts) with
  | None => (Ok (Head (front first (runnable_of (demand c) (adm c) ts))), c)
  | Some p =>
      let f := default p (front first (runnable_of (demand c) (adm c) ts)) in
      match waiter_requests (adm c) !! f with
      | None => (Ok Retry, c)
      | Some oldest =>
          if negb (bool_decide (f = p)) && bool_decide (r_class oldest = "create") then
            (fits ← creation_fits e o oldest;
             c' ← get;
             if negb (bool_decide (waiters (adm c') = snapshot)) then mret Retry
             else mret (Head (Some (if fits : bool then f else p)))) c
          else (Ok (Head (Some p)), c)
      end
  end.
Proof.
  revert first. induction ts as [|t ts IH]; intros first Hts Hf; [by destruct first|].
  cbn [scan]. unfold mbind at 1, M_bind at 1, get. rewrite progress_cons, runnable_cons.
  assert (Hmay : may_run (demand c) (adm c) t =
    from_option (λ r, negb (inflight (demand c) (r_session r) (r_class r))) false
      (waiter_requests (adm c) !! t)) by done.
  destruct (Hts t) as [r Er]; [by left|]. rewrite Er in Hmay |- *. simpl in Hmay. rewrite Hmay.
  destruct (inflight (demand c) (r_session r) (r_class r)) eqn:Ei.
  - simpl. apply IH; [|done]. intros t' Ht'. apply Hts. by right.
  - simpl. case_bool_decide as Hp.
    + simpl. destruct first as [f|]; simpl.
      * destruct (Hf f eq_refl) as [rf Erf]. rewrite Erf. by destruct (_ && _).
      * rewrite Er, bool_decide_true by done. done.
    + rewrite IH.
      * by destruct first.
      * intros t' Ht'. apply Hts. by right.
      * intros f [= <-]. destruct first as [f|]; simpl; [by apply Hf|by rewrite Er].
Qed.

(** ** Wake-ups *)

Lemma signal_mono d q first p ts ev t :
  ev !! t = Some true → signal_from d q first p ts ev !! t = Some true.
Proof.
  revert first p ev. induction ts as [|t' ts IH]; intros first p ev E; [done|]. simpl.
  destruct (waiter_requests q !! t') as [r|]; [|by apply IH].
  destruct (ev !! t') as [b|]; [|by apply IH].
  assert (Hset : ∀ m : gmap nat bool, m !! t = Some true → <[t':=true]> m !! t = Some true).
  { intros m Em. destruct (decide (t' = t)) as [->|]; [by rewrite lookup_insert_eq|].
    by rewrite lookup_insert_ne. }
  repeat case_match; apply IH; auto.
Qed.

Lemma signal_spec d q first p ts ev t :
  (∀ t, t ∈ ts → is_Some (ev !! t)) →
  (first = true ∧ head (runnable_of d q ts) = Some t) ∨
  t ∈ take (progress_wake_batch - p) (progress_of d q ts) →
  signal_from d q first p ts ev !! t = Some true.
Proof.
  revert first p ev. induction ts as [|t' ts IH]; intros first p ev Hev H.
  { change (progress_of d q []) with ([] : list nat) in H. rewrite take_nil in H.
    destruct H as [[_ ?]|H%elem_of_nil]; done. }
  cbn [signal_from]. rewrite runnable_cons, progress_cons in H. unfold may_run in H.
  destruct (waiter_requests q !! t') as [r|]; simpl in H.
  2: { apply IH; [|done]. intros; apply Hev; by right. }
  destruct (Hev t') as [b ->]; [by left|].
  destruct (inflight d (r_session r) (r_class r)); simpl in H.
  { apply IH; [|done]. intros; apply Hev; by right. }
  assert (Hdom : ∀ m : gmap nat bool, (∀ t, is_Some (ev !! t) → is_Some (m !! t)) →
    ∀ t, is_Some (ev !! t) → is_Some (<[t':=true]> m !! t)).
  { intros m Hm t0 Ht0. apply lookup_insert_is_Some'. right. by apply Hm. }
  assert (Hev' : ∀ m : gmap nat bool, (∀ t, is_Some (ev !! t) → is_Some (m !! t)) →
    ∀ t, t ∈ ts → is_Some (m !! t)) by (intros m Hm t0 Ht0; apply Hm, Hev; by right).
  assert (Hd1 : ∀ t, is_Some (ev !! t) → is_Some ((if first then <[t':=true]> ev else ev) !! t))
    by (destruct first; auto).
  destruct H as [[-> [= <-]]|H].
  { (* the front *)
    assert (E : <[t':=true]> ev !! t' = Some true) by apply lookup_insert_eq.
    destruct (bool_decide (t' ∈ progress_waiters q)); [|by apply signal_mono].
    apply signal_mono. case_match; [apply lookup_insert_eq|done]. }
  case_bool_decide as Hp.
  - destruct (progress_wake_batch - p)%nat as [|k] eqn:Ek; [by apply elem_of_nil in H|].
    destruct (Nat.leb_spec (S p) progress_wake_batch); [|lia]. simpl in H.
    apply elem_of_cons in H as [->|H]; [apply signal_mono, lookup_insert_eq|].
    apply IH; [by apply Hev', Hdom|right]. by replace (progress_wake_batch - S p)%nat with k by lia.
  - apply IH; [by apply Hev'|by right].
Qed.

(** The waiters [signal_waiters] wakes. *)
Lemma signalled c t : queue_ok (adm c) →
  head (runnable c) = Some t ∨ t ∈ take progress_wake_batch (runnable_progress c) →
  waiter_events (adm (signal_waiters c)) !! t = Some true.
Proof.
  intros Hq H. simpl. apply signal_spec.
  - intros t' Ht'. by apply (q_events _ Hq).
  - rewrite Nat.sub_0_r. destruct H; [by left|by right].
Qed.

(** ** Decisions leave the queue and the claims alone *)

Lemma reasons_view rd ps ck s k a x p v :
  preserves (λ l, view l = v) (reasons rd ps ck (Ok s) k a x (Some p)).
Proof.
  unfold reasons. apply preserves_bind; [by intros l|intros _].
  apply preserves_bind; [by intros l|intros [used available]].
  apply preserves_bind; [auto with clawbox|intros p'].
  apply preserves_bind; [auto with clawbox|intros l0].
  apply preserves_bind; [|intros sv; apply preserves_bind; [|intros _; auto with clawbox]].
  - intros l Hl. by rewrite severe_view.
  - apply preserves_modify. intros l Hl. unfold step_congestion. by repeat case_match.
Qed.

Lemma view_claims l l' : view l' = view l → claims l' = claims l.
Proof. by intros [= ? ? ?]. Qed.

Definition same_queue (q : queue) (cs : dict key claim) (c : coordinator) : Prop :=
  adm c = q ∧ claims (demand c) = cs.

Lemma preserves_verdict e q f qu cs : preserves (same_queue qu cs) (verdict e q f).
Proof.
  unfold verdict. apply preserves_bind; [auto with clawbox|intros c0].
  apply preserves_bind; [|intros; auto with clawbox]. intros c [H1 H2]. unfold on_demand.
  destruct (reasons _ _ _ _ _ _ _ _ (demand c)) as [r d] eqn:E. split; [done|].
  pose proof (reasons_view (p_readings e) (p_page e) (p_check e) (f_global f) (p_kernel e)
    (default (a_bytes q) (a_total q)) (operation_headroom_bytes (cfg c0)) (f_global_pending f) _
    (demand c) eq_refl) as H. rewrite E in H. apply view_claims in H. simpl in *. congruence.
Qed.

Lemma preserves_pressure e q phys glob m qu cs :
  preserves (same_queue qu cs)
    (pressure_reasons e q (Observations (Some phys) (Some glob) (Some m))).
Proof.
  unfold pressure_reasons. apply preserves_bind; [auto with clawbox|intros c].
  destruct (resident_capacity_accounting (cfg c)); [auto with clawbox|].
  apply preserves_bind; [by intros ?|intros [used available]].
  apply preserves_bind; [auto with clawbox|intros c1].
  apply preserves_bind; [by intros ?|intros global].
  apply preserves_bind; [auto with clawbox|intros c2].
  apply preserves_bind; [destruct (a_first_only q); [by intros ?|auto with clawbox]|intros _].
  destruct (if a_first_only q then _ else _); [auto with clawbox|].
  destruct (bound_fits _ _ _ _ _ _).
  - apply preserves_bind; [by apply preserves_modify|intros _]. apply preserves_verdict.
  - apply preserves_bind; [|intros f; apply preserves_verdict]. unfold exact_figures. cbn [o_pending].
    apply preserves_bind; [auto with clawbox|intros c3].
    apply preserves_bind; [by intros ?|intros [g l]; auto with clawbox].
Qed.

Lemma creation_fits_keeps e phys glob m r c :
  let o := Observations (Some phys) (Some glob) (Some m) in
  same_queue (adm c) (claims (demand c)) (creation_fits e o r c).2.
Proof.
  intros o. apply (preserves_bind (same_queue _ _)); [auto with clawbox| |done]. intros c1.
  destruct (_ && _); [auto with clawbox|].
  apply preserves_bind; [apply preserves_pressure|intros; auto with clawbox].
Qed.

Lemma head_in_queue c t : head (runnable c) = Some t → t ∈ waiters (adm c).
Proof.
  intros H. assert (t ∈ runnable c) as Hin by (destruct (runnable c); simplify_eq/=; by left).
  by apply list_elem_of_filter in Hin as [_ ?].
Qed.

Lemma progress_sublist d q ts : head (progress_of d q ts) ≠ None → head (runnable_of d q ts) ≠ None.
Proof. unfold progress_of. by destruct (runnable_of d q ts). Qed.

(** C33: who may be admitted next.  On a well-formed queue and with the
    observations carried in, the head is the oldest waiter that is not merely
    polling for a claim in flight; only an existing session's request overtakes
    it, the oldest such one, and never a creation that fits and is not held
    back.  One pass settles it, the queue is left as it was, and a signal wakes
    the waiter selected. *)
Theorem queue_head_policy e es phys glob m c :
  let o := Observations (Some phys) (Some glob) (Some m) in
  queue_ok (adm c) →
  match admission_head (e :: es) o c with
  | (Ok h, c') =>
      h = Some (head_policy (front_fits e o c) c) ∧ adm c' = adm c ∧
      ∀ t, h = Some (Some t) → waiter_events (adm (signal_waiters c')) !! t = Some true
  | (Raise x, _) =>
      ∃ f r, head (runnable c) = Some f ∧ waiter_requests (adm c) !! f = Some r ∧
             (creation_fits e o r c).1 = Raise x
  end.
Proof.
  intros o Hq.
  assert (Hreq : ∀ t, t ∈ waiters (adm c) → is_Some (waiter_requests (adm c) !! t))
    by (intros t Ht; by apply (q_requests _ Hq)).
  assert (Hsig : ∀ c' t, same_queue (adm c) (claims (demand c)) c' →
    head (runnable c) = Some t ∨ head (runnable_progress c) = Some t →
    waiter_events (adm (signal_waiters c')) !! t = Some true).
  { intros c' t [E1 E2] H.
    assert (Hd : runnable c' = runnable c ∧ runnable_progress c' = runnable_progress c).
    { unfold runnable, runnable_progress, progress_of, runnable_of, may_run, inflight. by rewrite E1, E2. }
    apply signalled; [by rewrite E1|]. rewrite (proj1 Hd), (proj2 Hd). destruct H as [H|H]; [by left|right].
    destruct (runnable_progress c); simplify_eq/=. by left. }
  cbn [admission_head]. unfold mbind at 1, M_bind at 1, get, mbind at 1, M_bind at 1.
  rewrite (scan_spec e o _ _ None c Hreq) by done. simpl front.
  fold (runnable c) (runnable_progress c). unfold head_policy, front_fits.
  destruct (head (runnable_progress c)) as [p|] eqn:Ep.
  2: { simpl. split_and!; [by destruct (head (runnable c))|done|].
       intros t [= E]. apply Hsig; [done|by left]. }
  destruct (head (runnable c)) as [f|] eqn:Ef.
  2: { exfalso. apply (progress_sublist (demand c) (adm c) (waiters (adm c))); [by fold (runnable_progress c); rewrite Ep|done]. }
  simpl. destruct (Hreq f) as [r Er]; [by apply head_in_queue|]. rewrite Er. simpl.
  destruct (negb (bool_decide (f = p)) && bool_decide (r_class r = "create")) eqn:Ec.
  - apply andb_true_iff in Ec as [Efp%negb_true_iff%bool_decide_eq_false Ecl%bool_decide_eq_true].
    rewrite (bool_decide_true (f ≠ p)), (bool_decide_true (r_class r = _)) by done. rewrite !andb_true_r.
    pose proof (creation_fits_keeps e phys glob m r c) as Hk. cbv zeta in Hk. fold o in Hk.
    unfold mbind, M_bind, get, mret, M_ret. destruct (creation_fits e o r c) as [[fits|x] c1] eqn:Efit;
      rewrite ?Efit in Hk.
    + simpl in Hk. rewrite (proj1 Hk), bool_decide_true by done. simpl.
      split_and!; [by destruct fits|apply Hk|]. intros t [= <-]. apply Hsig; [done|].
      destruct fits; auto.
    + exists f, r. by rewrite Efit.
  - split_and!; [|done|].
    + do 2 f_equal. destruct (match (creation_fits e o r c).1 with Ok b => b | _ => _ end); [|done]. simpl.
      apply andb_false_iff in Ec. destruct (decide (f = p)) as [->|];
        [by rewrite (bool_decide_false (p ≠ p)) by tauto|].
      rewrite (bool_decide_true (f ≠ p)) by done. rewrite (bool_decide_false (f = p)) in Ec by done.
      simpl. destruct Ec as [?|Ec]; [done|]. by rewrite Ec.
    + intros t [= <-]. apply Hsig; [done|by right].
Qed.

(** ** The batch of existing sessions *)

Definition amounts (f : request → Z) (q : queue) (ts : list nat) : Z :=
  zsum ((λ t, from_option f 0 (waiter_requests q !! t)) <$> ts).

Lemma amounts_cons f q t ts r : waiter_requests q !! t = Some r →
  amounts f q (t :: ts) = f r + amounts f q ts.
Proof. intros E. unfold amounts. rewrite fmap_cons, zsum_cons. by rewrite E. Qed.

Lemma prefix_from_spec d q ticket ts loc tot n :
  (∀ t, t ∈ ts → is_Some (waiter_requests q !! t)) →
  (∀ pre post, progress_of d q ts = pre ++ ticket :: post → ticket ∉ pre →
     prefix_from d q ticket ts loc tot n =
     Ok (if decide (n + length pre < progress_wake_batch)%nat
         then Some (loc + amounts r_amount q (pre ++ [ticket]),
                    tot + amounts request_total q (pre ++ [ticket])) else None)) ∧
  (ticket ∉ progress_of d q ts → prefix_from d q ticket ts loc tot n = Ok None).
Proof.
  revert loc tot n. induction ts as [|t ts IH]; intros loc tot n Hts.
  { split; [|done]. intros pre post E. by destruct pre. }
  destruct (Hts t) as [r Er]; [by left|].
  assert (Hts' : ∀ t, t ∈ ts → is_Some (waiter_requests q !! t)) by (intros; apply Hts; by right).
  cbn [prefix_from]. rewrite progress_cons. unfold may_run. rewrite Er. simpl.
  destruct (inflight d (r_session r) (r_class r)); simpl; [by apply IH|].
  case_bool_decide as Hp; simpl; [|by apply IH].
  destruct (Nat.ltb_spec progress_wake_batch (S n)) as [Hn|Hn].
  { split; [|done]. intros pre post E Hpre. by rewrite decide_False by lia. }
  destruct (decide (t = ticket)) as [->|Hne].
  - split; [|set_solver]. intros pre post E Hpre. destruct pre as [|x pre]; simplify_eq/=; [|set_solver].
    rewrite decide_True by lia. rewrite !(amounts_cons _ _ _ _ r) by done. unfold amounts. simpl.
    do 2 f_equal. unfold zsum. simpl. f_equal; lia.
  - destruct (IH (loc + r_amount r) (tot + request_total r) (S n) Hts') as [IH1 IH2]. split.
    + intros pre post E Hpre. destruct pre as [|x pre]; simplify_eq/=.
      rewrite (IH1 pre post) by (done || set_solver).
      rewrite !(amounts_cons _ _ _ _ r) by done. do 2 case_decide; try lia; [|done].
      do 2 f_equal. f_equal; lia.
    + intros Hin. apply IH2. set_solver.
Qed.

Lemma NoDup_middle {A} (pre post : list A) x : NoDup (pre ++ x :: post) → x ∉ pre.
Proof. intros (_ & H & _)%NoDup_app Hin. apply (H x Hin). by left. Qed.

(** Tool requests of existing sessions may be decided ahead of their
    turn, at a charge that protects everyone before them.  While a Tool request
    is the head, a waiting request among the first eight runnable ones of
    existing sessions is charged the sum over itself and all of those before
    it, exactly; later ones and all other waiters are not decided early; and
    everyone in such a batch is woken by a signal. *)
Theorem progress_batch_charge ticket h rh c :
  queue_ok (adm c) → waiter_requests (adm c) !! h = Some rh →
  (∀ pre post, runnable_progress c = pre ++ ticket :: post →
     feasible_progress_prefix ticket (Some h) c =
       Ok (if decide (r_class rh = "tool_admission" ∧ length pre < progress_wake_batch)%nat
           then Some (amounts r_amount (adm c) (pre ++ [ticket]),
                      amounts request_total (adm c) (pre ++ [ticket])) else None) ∧
     ((length pre < progress_wake_batch)%nat →
      ∀ t, t ∈ pre ++ [ticket] → waiter_events (adm (signal_waiters c)) !! t = Some true)) ∧
  (ticket ∉ runnable_progress c → feasible_progress_prefix ticket (Some h) c = Ok None).
Proof.
  intros Hq Eh.
  assert (Hreq : ∀ t, t ∈ waiters (adm c) → is_Some (waiter_requests (adm c) !! t))
    by (intros t Ht; by apply (q_requests _ Hq)).
  destruct (prefix_from_spec (demand c) (adm c) ticket (waiters (adm c)) 0 0 0 Hreq) as [H1 H2].
  fold (runnable_progress c) in H1, H2.
  unfold feasible_progress_prefix. rewrite Eh. split.
  - intros pre post E. split.
    + assert (Hin : ticket ∈ runnable_progress c) by (rewrite E; set_solver).
      assert (Hpre : ticket ∉ pre).
      { apply (NoDup_middle pre post). rewrite <- E. by apply NoDup_filter, NoDup_filter, Hq. }
      apply list_elem_of_filter in Hin as [Hin _]. rewrite bool_decide_true by done. simpl.
      case_bool_decide; simpl; [|by rewrite decide_False by tauto].
      rewrite (H1 pre post E Hpre). by do 2 case_decide; try tauto.
    + intros Hlen t Ht. apply signalled; [done|]. right. rewrite E.
      replace (pre ++ ticket :: post) with ((pre ++ [ticket]) ++ post) by by rewrite <- app_assoc.
      rewrite take_app_ge by (rewrite length_app; simpl; lia). set_solver.
  - intros Hin. rewrite (H2 Hin). by repeat case_match.
Qed.

(** Five existing sessions wait behind a creation that does not fit. *)
Definition waiting_room : coordinator :=
  let req (t : nat) := if decide (t = 0%nat) then Request "new" (4000 * mib) "create" false None 0
                       else Request (String.append "s" (pretty.pretty t)) (10 * mib) "tool_admission" false None 0 in
  let ts := [0; 1; 2; 3; 4; 5]%nat in
  with_adm (Queue ts (list_to_map ((λ t, (t, req t)) <$> ts)) ∅
              (list_to_map ((λ t, (t, false)) <$> ts)) (list_to_set [1; 2; 3; 4; 5]%nat)) booked.

Lemma waiting_room_ok : queue_ok (adm waiting_room).
Proof.
  split; simpl; intros *; rewrite <- ?elem_of_dom, ?dom_insert_L, ?dom_empty_L; try set_solver.
  apply (bool_decide_unpack _). vm_compute. exact I.
Qed.

Definition carried_room : observations :=
  Observations (Some (3900 * mib, 8192 * mib)) (Some (3900 * mib, 8192 * mib))
    (Some (measure half_consumed (freeze (claims (demand booked))))).

Lemma queue_head_policy_witness :
  (admission_head [quiet_probes] carried_room waiting_room).1 = Ok (Some (Some 1%nat)) ∧
  waiter_events (adm (signal_waiters (admission_head [quiet_probes] carried_room waiting_room).2))
    !! 1%nat = Some true.
Proof.
  pose proof (queue_head_policy quiet_probes [] (3900 * mib, 8192 * mib) (3900 * mib, 8192 * mib)
    (measure half_consumed (freeze (claims (demand booked)))) waiting_room waiting_room_ok) as H.
  assert (E : (admission_head [quiet_probes] carried_room waiting_room).1 = Ok (Some (Some 1%nat)))
    by (vm_compute; reflexivity).
  unfold carried_room in *. cbv zeta in H.
  destruct (admission_head _ _ _) as [r c']. simpl in E. subst r.
  split; [reflexivity|]. by apply H.
Defined.

Lemma progress_batch_charge_witness :
  feasible_progress_prefix 3%nat (Some 1%nat) waiting_room = Ok (Some (30 * mib, 30 * mib)).
Proof.
  destruct (progress_batch_charge 3%nat 1%nat (Request "s1" (10 * mib) "tool_admission" false None 0)
    waiting_room waiting_room_ok) as [H _]; [vm_compute; reflexivity|].
  destruct (H [1; 2]%nat [4; 5]%nat) as [-> _]; [vm_compute; reflexivity|].
  vm_compute. reflexivity.
Defined.
