(* ===== verification/Acquire.v ===== *)
(** * Blocking reservations (src/clawbox/experiments/policy.py)

    [PolicyCoordinator.acquire] queues a ticket, repeats a locked check until
    the request may be admitted, and commits its claim.  Each round of the loop
    is an [attempt] against a [turn]: the readings and clocks of that round and
    what other threads do whenever the round drops the lock.  [acquire] consumes
    a list of turns and is still waiting ([None]) when they run out. *)
From S2P Require Import Prelude Dict DemandLedger Coordinator Sessions Admission.

(** The arguments of a call, in bytes and seconds. *)
Record args := Args {
  g_session : string;
  g_amount : Z;
  g_total : Z;
  g_class : string;
  g_capacity : bool;
  g_head_timeout : option Q;
}.

Definition is_tool (a : args) : bool := bool_decide (g_class a = "tool_admission").
Definition is_create (a : args) : bool := bool_decide (g_class a = "create").

Record turn := Turn {
  t_heads : list probes;          (** passes of the queue-head loop *)
  t_probes : probes;              (** the memory check *)
  t_blocked_at : Q;               (** clock of the blocked-head timer *)
  t_reclaim_at : Q;               (** clock of the cache reclamation *)
  t_callback : option (outcome bool);   (** [pressure_relief], when set *)
  t_ops : vm_ops;
  t_on_pause : outcome unit;
  t_relieving : coordinator → coordinator;   (** others during the relief *)
  t_now : Q;                      (** clock of the deadline *)
  t_waiting : coordinator → coordinator;     (** others during the wait *)
  t_refresh : probes;             (** the observations taken before the lock *)
}.

(** [relieve_pressure]: the arm's action selector, or one eviction. *)
Definition relieve_pressure (tr : turn) (exclude : string) : M coordinator bool := λ c,
  match t_callback tr with
  | Some r => (r, t_relieving tr c)
  | None =>
      let '((r, _), c') := evict_one_for_watermark (p_resident (t_probes tr)) (t_ops tr)
                             (t_relieving tr) (t_on_pause tr) None exclude c in (r, c')
  end.

(** ** The ticket *)

Definition enqueue (a : args) (ticket : nat) (now : Q) (c : coordinator) : coordinator :=
  let q := adm c in
  let c := with_adm (Queue (waiters q ++ [ticket])
      (<[ticket := Request (g_session a) (g_amount a) (g_class a) (g_capacity a) (Some (g_total a)) now]>
         (waiter_requests q))
      (waiter_blockers q) (<[ticket := false]> (waiter_events q))
      (if negb (is_create a) && negb (g_capacity a) then {[ticket]} ∪ progress_waiters q
       else progress_waiters q)) c in
  if is_tool a then raise_depth c else c.

(** Taking the ticket out of every structure of the queue. *)
Fixpoint remove_first (t : nat) (l : list nat) : list nat :=
  match l with [] => [] | x :: l' => if decide (x = t) then l' else x :: remove_first t l' end.

Definition dequeue (ticket : nat) (c : coordinator) : coordinator :=
  let q := adm c in
  with_adm (Queue (remove_first ticket (waiters q)) (delete ticket (waiter_requests q))
              (delete ticket (waiter_blockers q)) (delete ticket (waiter_events q))
              (progress_waiters q ∖ {[ticket]})) c.

Definition set_blockers (ticket : nat) (rs : list blocker) (c : coordinator) : coordinator :=
  let q := adm c in
  with_adm (Queue (waiters q) (waiter_requests q) (<[ticket := rs]> (waiter_blockers q))
              (waiter_events q) (progress_waiters q)) c.

Definition clear_event (ticket : nat) : M coordinator unit :=
  c ← get;
  match waiter_events (adm c) !! ticket with
  | None => raise (KeyError "event")
  | Some _ => put (with_adm (with_events (<[ticket := false]> (waiter_events (adm c))) (adm c)) c)
  end.

(** ** One round *)

(** What a round hands to the next one. *)
Record carry := Carry {
  y_observed : observations;
  y_blocked_since : option Q;
  y_recorded : list blocker;
}.

Inductive round := Granted | Again (y : carry) | Unsettled.

(** Each reason counts once per request. *)
Definition record_reasons (recorded rs : list blocker) : M coordinator (list blocker) :=
  let fresh := filter (λ r, r ∉ recorded) rs in
  for_each (fromkeys fresh) (λ r, modify (count_safety r)) ;;
  mret (recorded ++ fresh).

(** The blocked-head timer: since when this request is blocked at the front. *)
Definition blocked_timer (a : args) (now : Q) (since : option Q) (blocked : bool)
    : M coordinator (option Q) :=
  if blocked then
    let s := default now since in
    raise_if (match g_head_timeout a with Some t => Qle_bool t (now - s) | None => false end)
      (AdmissionTimeout "placement head remains blocked") ;;
    mret (Some s)
  else mret None.

(** Request reclamation of clean file cache, at most every two seconds. *)
Definition start_reclaim (now : Q) (wanted : bool) (c : coordinator) : coordinator :=
  let r := reclaim c in
  if wanted && reclaims_cache (cfg c) && negb (reclaim_running r)
     && match last_reclaim r with Some t => Qle_bool 2 (now - t) | None => true end
  then with_reclaim (Reclaimer (reclaim_error r) true (last_reclaim r)) c else c.

(** [_reclaim_cache] when the call returns or raises. *)
Definition reclaim_finished (failed : bool) (now : Q) (c : coordinator) : coordinator :=
  with_reclaim (Reclaimer (reclaim_error (reclaim c) || failed) false (Some now)) c.

(** The reasons against the request in this round, and whether it may be
    decided at all. *)
Definition check_round (a : args) (ticket : nat) (tr : turn) (o : observations) (head : option nat)
    : M coordinator (bool * list blocker) :=
  c ← get;
  let at_head := bool_decide (head = Some ticket) in
  let same := inflight (demand c) (g_session a) (g_class a) in
  prefix ← (if at_head || same then mret None else lift (feasible_progress_prefix ticket head c));
  let can := at_head || bool_decide (is_Some prefix) in
  let charge := default (g_amount a, g_total a) prefix in
  let extra := if is_create a then startup_extra (t_probes tr) (g_session a) c else 0 in
  rs ← (if can then
          pressure_reasons (t_probes tr)
            (Ask (charge.1 + extra) (g_capacity a) (is_tool a) (Some (charge.2 + extra))
               (bool_decide (is_Some prefix))) o
        else mret []);
  c ← get;
  mret (can,
    rs ++ (if same then [ExecutionAlreadyInflight] else []) ++
    (if at_head && is_create a && admission_blocked c && negb (resident_capacity_accounting (cfg c))
     then [LocalHighHysteresis] else [])).

(** One round of the loop of [acquire]. *)
Definition attempt (a : args) (ticket : nat) (deadline : option Q) (tr : turn) (y : carry)
    : M coordinator round :=
  c ← get;
  raise_if (reclaim_error (reclaim c)) (RuntimeError "LOCAL cache reclamation failed") ;;
  found ← admission_head (t_heads tr) (y_observed y);
  match found with
  | None => mret Unsettled
  | Some head =>
      let at_head := bool_decide (head = Some ticket) in
      '(can, rs) ← check_round a ticket tr (y_observed y) head;
      if can && bool_decide (rs = []) then mret Granted
      else
        modify (set_blockers ticket (if can then rs else [FifoPredecessor])) ;;
        c ← get;
        let oldest := is_create a && negb at_head && bool_decide (list.head (waiters (adm c)) = Some ticket) in
        since ← blocked_timer a (t_blocked_at tr) (y_blocked_since y)
                  ((at_head && negb (bool_decide (rs = []))) || oldest);
        modify (start_reclaim (t_reclaim_at tr) (at_head && bool_decide (ConfiguredMemoryBudget ∈ rs))) ;;
        recorded ← record_reasons (y_recorded y) rs;
        relieved ← (if at_head && negb (resident_capacity_accounting (cfg c))
                       && negb (bool_decide (ExecutionAlreadyInflight ∈ rs))
                    then relieve_pressure tr (g_session a) else mret false);
        if relieved : bool then mret (Again (Carry no_observations since recorded))
        else
          raise_if (match deadline with Some d => Qle_bool (d - t_now tr) 0 | None => false end)
            (AdmissionTimeout "memory admission timed out") ;;
          clear_event ticket ;;
          modify (t_waiting tr) ;;
          o ← admission_snapshot (t_refresh tr) (g_amount a) (g_total a) (is_tool a);
          mret (Again (Carry o since recorded))
  end.

(** ** Commit *)

(** The sampler [register_memory] left for a lifecycle claim. *)
Definition sampler_for (a : args) (c : coordinator) : option probe :=
  if is_create a || bool_decide (g_class a = "restore")
  then snd <$> memory_samples c !! g_session a else None.

Definition book_claim (rd : readings) (a : args) : M coordinator unit :=
  c ← get;
  let k := (g_session a, g_class a) in
  if is_tool a && bool_decide (is_Some (claims (demand c) !! k))
  then on_demand (extend k (g_total a) (g_amount a))
  else on_demand (add rd k (demand_scope (cfg c)) (g_total a) (g_amount a) (sampler_for a c)).

(** The claim of a resident-capacity arm, then one of the two reservation
    ledgers. *)
Definition book_reservation (a : args) (c : coordinator) : coordinator :=
  let b := bookkeeping c in
  let b := if resident_capacity_accounting (cfg c) && is_create a
           then Books (reservations b) (capacity_claims b)
                  (<[g_session a := g_amount a]> (resident_capacity_claims b)) else b in
  let w := if g_capacity a then CapacityClaims else Reservations in
  with_books (with_book w (<[g_session a := default 0 (book_of w b !! g_session a) + g_amount a]>
                             (book_of w b)) b) c.

Definition commit (rd : readings) (a : args) (ticket : nat) : M coordinator unit :=
  c ← get;
  raise_if (negb (bool_decide (ticket ∈ waiters (adm c)))) (ValueError "deque.remove(x): x not in deque") ;;
  modify (dequeue ticket) ;;
  book_claim rd a ;;
  modify (λ c, signal_waiters (raise_peak (book_reservation a c))).

(** ** The call *)

Fixpoint rounds (rd : readings) (a : args) (ticket : nat) (deadline : option Q) (trs : list turn)
    (y : carry) (c : coordinator) : option (outcome unit * coordinator) :=
  match trs with
  | [] => None
  | tr :: trs' =>
      match attempt a ticket deadline tr y c with
      | (Ok Granted, c') => Some (commit rd a ticket c')
      | (Ok (Again y'), c') => rounds rd a ticket deadline trs' y' c'
      | (Ok Unsettled, _) => None
      | (Raise e, c') => Some (Raise e, c')
      end
  end.

(** The [except] clause. *)
Definition abandon (a : args) (ticket : nat) (waited : Q) (e : exn) : M coordinator unit :=
  modify (λ c, signal_waiters (dequeue ticket c)) ;;
  record_wait (g_class a) waited ;;
  raise e.

(** The queued part of [acquire]: [started] and [ended] are its clocks. *)
Definition queued_acquire (rd : readings) (a : args) (ticket : nat) (timeout : option Q)
    (started ended : Q) (o : observations) (trs : list turn) (c : coordinator)
    : option (outcome Q * coordinator) :=
  match rounds rd a ticket ((λ t, started + t)%Q <$> timeout) trs (Carry o None [])
          (enqueue a ticket started c) with
  | None => None
  | Some (Ok _, c') => Some ((record_wait (g_class a) (ended - started) ;; mret (ended - started)%Q) c')
  | Some (Raise e, c') => Some ((abandon a ticket (ended - started) e ;; mret 0%Q) c')
  end.

Definition first_observations (first : probes) (carried : option observations) (a : args)
    : M coordinator observations :=
  match carried with
  | Some o => mret o
  | None => admission_snapshot first (g_amount a) (g_total a) (is_tool a)
  end.

(** [acquire].  [physical] is the sample of an OS-managed creation, [first] the
    observations taken before queueing unless the caller carries them in. *)
Definition acquire (rd : readings) (physical : outcome (Z * Z)) (first : probes)
    (carried : option observations) (ticket : nat) (timeout : option Q) (started ended : Q)
    (trs : list turn) (a : args) (c : coordinator) : option (outcome Q * coordinator) :=
  if os_managed_lifecycle (cfg c) && is_create a then
    Some ((raise_if (negb ((g_amount a =? 0) && (g_total a =? 0)))
             (ValueError "OS-managed creation must not reserve configured memory") ;;
           s ← lift physical;
           raise_if (s.2 <? emergency_free_bytes (cfg c))
             (AdmissionTimeout "host emergency free-memory floor reached") ;;
           mret 0%Q) c)
  else if (g_amount a =? 0) && (g_total a =? 0) && negb (is_create a)
          && negb (bool_decide (g_class a = "restore")) then
    Some ((record_wait (g_class a) (ended - started) ;; mret (ended - started)%Q) c)
  else
    match first_observations first carried a c with
    | (Ok o, c') => queued_acquire rd a ticket timeout started ended o trs c'
    | (Raise e, c') => Some (Raise e, c')
    end.

(** ** Callers *)

(** [begin_tool_admission]: with [already_active] the caller has marked the
    session, else [o] is the session looked up before the wait. *)
Definition begin_observations (first : probes) (amount total : Z) (total_given : bool)
    : M coordinator observations :=
  if negb (amount =? 0) || (total_given && negb (total =? 0))
  then admission_snapshot first amount total true else mret no_observations.

Definition begin_active (sid : string) (now : Q)
    (acquire : coordinator → option (outcome Q * coordinator)) (c : coordinator)
    : option (outcome Q * coordinator) :=
  match acquire c with
  | Some (Raise e, c') =>
      Some ((o ← session_of sid; modify (update o (set_activity false true now)) ;; raise e) c')
  | r => r
  end.

Definition begin_idle (o : nat) (now now' : Q)
    (acquire : coordinator → option (outcome Q * coordinator)) (c : coordinator)
    : option (outcome Q * coordinator) :=
  match activate o true now c with
  | None => None
  | Some c1 =>
      match acquire c1 with
      | Some (Raise e, c2) => Some (Raise e, update o (set_activity false true now') c2)
      | r => r
      end
  end.

(** [try: body finally: self.release(...)] after an [acquire]. *)
Definition reserved {A} (acquire : coordinator → option (outcome Q * coordinator))
    (body : M coordinator A) (release : M coordinator unit) (c : coordinator)
    : option (outcome (A * Q) * coordinator) :=
  match acquire c with
  | None => None
  | Some (Raise e, c1) => Some (Raise e, c1)
  | Some (Ok waited, c1) => Some (try_finally (r ← body; mret (r, waited)) release c1)
  end.

(** A VM call by the service: its outcome, and what others do meanwhile. *)
Definition service {A} (others : coordinator → coordinator) (r : outcome A) : M coordinator A :=
  modify others ;; lift r.

(** [materialize] *)
Definition materialize {A} (sid : string) (amount_mib : Z)
    (acquire : coordinator → option (outcome Q * coordinator))
    (others : coordinator → coordinator) (operation : outcome A) (c : coordinator) :=
  reserved acquire (service others operation) (release sid amount_mib "create" None) c.

Definition status_code (e : exn) : option Z :=
  match e with HTTPException code _ => Some code | _ => None end.

(** [restore]: a capacity rejection is retried once, after one eviction. *)
Definition restore_service (others : coordinator → coordinator) (r : outcome Q) : M coordinator Q :=
  elapsed ← service others r;
  modify (count_resume elapsed) ;;
  mret elapsed.

Definition restore (sid : string) (amount_mib : Z)
    (acquire : coordinator → option (outcome Q * coordinator))
    (others others' : coordinator → coordinator) (first second : outcome Q)
    (evict : M coordinator bool) (c : coordinator) : option (outcome (Q * Q) * coordinator) :=
  reserved acquire
    (try_except (restore_service others first)
       (λ e,
         if bool_decide (status_code e = Some 409) then
           evicted ← evict;
           raise_if (negb evicted) (RuntimeError "restore capacity rejection") ;;
           restore_service others' second
         else raise e))
    (release sid amount_mib "restore" None) c.

(** [acquire_capacity] *)
Definition capacity_args (sid : string) (amount_mib : Z) : args :=
  Args sid (amount_mib * mib) (amount_mib * mib) "tool_admission" true None.

(** ** What one thread's rounds leave alone *)

Section rely.
Context (I : coordinator → Prop).

(** Changes that do not concern the queue, the books and the claims. *)
Hypothesis I_neutral : ∀ c c',
  adm c' = adm c → bookkeeping c' = bookkeeping c → view (demand c') = view (demand c) →
  cfg c' = cfg c → lifecycle_wait_samples (meter c') = lifecycle_wait_samples (meter c) → I c → I c'.

Definition gaps_keep (e : probes) : Prop := ∀ n c, I c → I (p_gap e n c).

Lemma keep_modify f : (∀ c, I c → I (f c)) → preserves I (modify f).
Proof. apply preserves_modify. Qed.

Lemma keep_demand {A} (m : M ledger A) : (∀ d, view (m d).2 = view d) → preserves I (on_demand m).
Proof.
  intros Hm c Hc. unfold on_demand. specialize (Hm (demand c)). destruct (m (demand c)) as [r d].
  by eapply I_neutral; [..|exact Hc].
Qed.

Lemma keep_sample e n o k : gaps_keep e → preserves I (sample_locked e n o k).
Proof.
  intros He. destruct k; simpl; [auto with clawbox|].
  apply preserves_bind; [apply keep_modify; apply He|by intros ? ?].
Qed.

Lemma keep_verdict e q f : preserves I (verdict e q f).
Proof.
  unfold verdict. apply preserves_bind; [auto with clawbox|intros c].
  apply preserves_bind; [|intros; auto with clawbox].
  apply keep_demand. intros d. by apply reasons_view.
Qed.

Lemma start_view d : view (start_pending_observation d).2 = view d.
Proof. unfold start_pending_observation, mbind, M_bind, get. by destruct (exact_sample_future d). Qed.

Lemma breakdown_view rd scope st en between shared d :
  view (pending_breakdown rd scope st en between shared d).2 =
  view (between (start_pending_observation d).2).
Proof.
  unfold pending_breakdown, mbind at 1, M_bind at 1.
  destruct (start_pending_observation d) as [[[[f ld] sn]|e] d1] eqn:E.
  - by destruct sn.
  - unfold start_pending_observation, mbind, M_bind, get in E. by destruct (exact_sample_future d).
Qed.

Lemma keep_exact e : gaps_keep e → preserves I (exact_pending e).
Proof.
  intros He c Hc. unfold exact_pending.
  set (d1 := (start_pending_observation (demand c)).2).
  assert (H1 : I (p_gap e 2 (with_demand d1 c))).
  { apply He. eapply I_neutral; [..|exact Hc]; try done. apply start_view. }
  destruct (pending_breakdown _ _ _ _ _ _ _) as [r d] eqn:E.
  eapply I_neutral; [..|exact H1]; try done.
  pose proof (breakdown_view (p_readings e) (demand_scope (cfg c)) (p_times e).1 (p_times e).2
    (λ d, demand (p_gap e 2 (with_demand d c))) (p_shared e) (demand c)) as H2.
  rewrite E in H2. exact H2.
Qed.

Lemma keep_figures e q o u av gl : gaps_keep e → preserves I (exact_figures e q o u av gl).
Proof.
  intros He. unfold exact_figures. destruct (o_pending o).
  - apply preserves_bind; [auto with clawbox|intros c].
    apply preserves_bind; [by intros ?|intros [? ?]; auto with clawbox].
  - apply preserves_bind; [by apply keep_exact|intros [? ?]].
    apply preserves_bind; [by apply keep_sample|intros [? ?]].
    apply preserves_bind; [auto with clawbox|intros c].
    apply preserves_bind; [by apply keep_sample|intros ?].
    apply preserves_bind; [auto with clawbox|intros c']. auto with clawbox.
Qed.

Lemma keep_pressure e q o : gaps_keep e → preserves I (pressure_reasons e q o).
Proof.
  intros He. unfold pressure_reasons. apply preserves_bind; [auto with clawbox|intros c].
  destruct (resident_capacity_accounting (cfg c)); [auto with clawbox|].
  apply preserves_bind; [by apply keep_sample|intros [used available]].
  apply preserves_bind; [auto with clawbox|intros c1].
  apply preserves_bind; [by apply keep_sample|intros global].
  apply preserves_bind; [auto with clawbox|intros c2].
  apply preserves_bind; [destruct (a_first_only q); [by intros ?|auto with clawbox]|intros _].
  destruct (if a_first_only q then _ else _); [auto with clawbox|].
  destruct (bound_fits _ _ _ _ _ _).
  - apply preserves_bind; [|intros _; apply keep_verdict].
    apply keep_modify. intros c3 Hc3. by eapply I_neutral; [..|exact Hc3].
  - apply preserves_bind; [by apply keep_figures|intros f; apply keep_verdict].
Qed.

Lemma keep_pending_observation e : gaps_keep e → preserves I (pending_observation e).
Proof.
  intros He. unfold pending_observation.
  apply preserves_bind; [apply keep_demand, start_view|intros [[f ld] sn]].
  apply preserves_bind; [apply keep_modify, He|intros _].
  destruct sn; [|auto with clawbox].
  apply preserves_bind; [by apply keep_demand|intros _].
  apply preserves_bind; [by apply keep_demand|intros _]. auto with clawbox.
Qed.

Lemma keep_observations p g : preserves I (admission_observations p g).
Proof.
  unfold admission_observations. apply preserves_bind; [auto with clawbox|intros c].
  destruct (resident_capacity_accounting (cfg c)); [auto with clawbox|].
  apply preserves_bind; [by intros ?|intros ?]. apply preserves_bind; [by intros ?|intros ?].
  auto with clawbox.
Qed.

Lemma keep_snapshot e a t pr : gaps_keep e → preserves I (admission_snapshot e a t pr).
Proof.
  intros He. unfold admission_snapshot.
  apply preserves_bind; [apply keep_observations|intros [[p|] [g|]]]; try (auto with clawbox; fail).
  apply preserves_bind; [auto with clawbox|intros c].
  destruct (_ || _); [|auto with clawbox].
  apply preserves_bind; [by apply keep_pending_observation|intros m].
  apply preserves_bind; [apply keep_observations|intros [? ?]]. auto with clawbox.
Qed.

Lemma keep_scan e o snap ts first : gaps_keep e → preserves I (scan e o snap ts first).
Proof.
  intros He. revert first. induction ts as [|t ts IH]; intros first; [apply preserves_ret|].
  cbn [scan]. apply preserves_bind; [auto with clawbox|intros c].
  destruct (waiter_requests (adm c) !! t) as [r|]; [|auto with clawbox].
  destruct (inflight _ _ _); [apply IH|]. case_bool_decide; [|apply IH].
  destruct (waiter_requests (adm c) !! _) as [old|]; [|auto with clawbox].
  destruct (_ && _); [|auto with clawbox].
  apply preserves_bind; [|intros fits; apply preserves_bind; [auto with clawbox|intros c'; destruct (negb _); auto with clawbox]].
  unfold creation_fits. apply preserves_bind; [auto with clawbox|intros c1].
  destruct (_ && _); [auto with clawbox|].
  apply preserves_bind; [by apply keep_pressure|intros; auto with clawbox].
Qed.

Lemma keep_head es o : Forall gaps_keep es → preserves I (admission_head es o).
Proof.
  induction 1 as [|e es He Hes IH]; [apply preserves_ret|]. cbn [admission_head].
  apply preserves_bind; [auto with clawbox|intros c].
  apply preserves_bind; [by apply keep_scan|intros [|t]]; [done|auto with clawbox].
Qed.
End rely.

(** ** Rounds *)

Section own.
Context (I : coordinator → Prop) (ticket : nat).
Hypothesis I_neutral : ∀ c c',
  adm c' = adm c → bookkeeping c' = bookkeeping c → view (demand c') = view (demand c) →
  cfg c' = cfg c → lifecycle_wait_samples (meter c') = lifecycle_wait_samples (meter c) → I c → I c'.
Hypothesis I_blockers : ∀ rs c, I c → I (set_blockers ticket rs c).
Hypothesis I_clear : ∀ c, is_Some (waiter_events (adm c) !! ticket) → I c →
  I (with_adm (with_events (<[ticket := false]> (waiter_events (adm c))) (adm c)) c).
Hypothesis I_signal : ∀ c, I c → I (signal_waiters c).

(** What the call relies on: other threads keep the invariant. *)
Record turn_ok (tr : turn) : Prop := TurnOk {
  tk_heads : Forall (gaps_keep I) (t_heads tr);
  tk_probes : gaps_keep I (t_probes tr);
  tk_refresh : gaps_keep I (t_refresh tr);
  tk_relieving : ∀ c, I c → I (t_relieving tr c);
  tk_waiting : ∀ c, I c → I (t_waiting tr c);
}.

Lemma keep_neutral f : (∀ c, adm (f c) = adm c ∧ bookkeeping (f c) = bookkeeping c ∧
  view (demand (f c)) = view (demand c) ∧ cfg (f c) = cfg c ∧
  lifecycle_wait_samples (meter (f c)) = lifecycle_wait_samples (meter c)) → ∀ c, I c → I (f c).
Proof. intros H c. destruct (H c) as (? & ? & ? & ? & ?). by apply I_neutral. Qed.

Lemma keep_release_victim o c : I c → I (release_victim o c).
Proof. intros Hc. by apply I_signal, (keep_neutral (update o _)). Qed.

Lemma keep_evict resident ops meanwhile on_pause t exclude c :
  (∀ c, I c → I (meanwhile c)) → I c →
  I (evict_one_for_watermark resident ops meanwhile on_pause t exclude c).2.
Proof.
  intros Hm Hc. unfold evict_one_for_watermark.
  destruct (claim_victim resident exclude c) as [r c1] eqn:E. apply claim_victim_spec in E.
  destruct r as [[[o st]|]|e]; [|by subst..]. destruct E as [_ ->].
  assert (H1 : I (meanwhile (update o (λ s, set_eviction true (eviction_eligible s) s) c)))
    by by apply Hm, (keep_neutral (update o _)).
  destruct (evict_vms _ _ _ _) as [[ready [[te re]|e]] w].
  - apply keep_release_victim. revert H1. by apply (keep_neutral (count_pauses _)).
  - destruct (_ && _); simpl; [|by apply keep_release_victim].
    apply (keep_neutral (update o _)); [done|]. apply keep_release_victim. revert H1.
    by apply (keep_neutral count_capacity_skip).
Qed.

Lemma keep_relief tr sid : turn_ok tr → preserves I (relieve_pressure tr sid).
Proof.
  intros Ht c Hc. unfold relieve_pressure. destruct (t_callback tr); [by apply Ht|].
  pose proof (keep_evict (p_resident (t_probes tr)) (t_ops tr) (t_relieving tr) (t_on_pause tr)
    None sid c (tk_relieving tr Ht) Hc) as H.
  by destruct (evict_one_for_watermark _ _ _ _ _ _ _) as [[r w] c'].
Qed.

Lemma keep_check a tr o head : turn_ok tr → preserves I (check_round a ticket tr o head).
Proof.
  intros Ht. unfold check_round. apply preserves_bind; [auto with clawbox|intros c].
  apply preserves_bind; [destruct (_ || _); [auto with clawbox|by intros ?]|intros prefix].
  apply preserves_bind; [|intros rs; auto with clawbox].
  destruct (_ || _); [|auto with clawbox]. apply keep_pressure; [done|apply Ht].
Qed.

Lemma keep_record recorded rs : preserves I (record_reasons recorded rs).
Proof.
  unfold record_reasons. apply preserves_bind; [|intros; auto with clawbox].
  apply preserves_for_each. intros r. apply preserves_modify. by apply keep_neutral.
Qed.

Lemma keep_attempt a deadline tr y : turn_ok tr → preserves I (attempt a ticket deadline tr y).
Proof.
  intros Ht. unfold attempt. apply preserves_bind; [auto with clawbox|intros c].
  apply preserves_bind; [auto with clawbox|intros _].
  apply preserves_bind; [apply keep_head; [done|apply Ht]|intros [head|]]; [|auto with clawbox].
  apply preserves_bind; [by apply keep_check|intros [can rs]].
  destruct (can && _); [auto with clawbox|].
  apply preserves_bind; [apply preserves_modify, I_blockers|intros _].
  apply preserves_bind; [auto with clawbox|intros c1].
  apply preserves_bind; [unfold blocked_timer; destruct (_ || _); auto with clawbox|intros since].
  apply preserves_bind.
  { apply preserves_modify, keep_neutral. intros c2. unfold start_reclaim. by destruct (_ && _). }
  intros _. apply preserves_bind; [apply keep_record|intros recorded].
  apply preserves_bind; [destruct (_ && _); [by apply keep_relief|auto with clawbox]|intros [|]];
    [auto with clawbox|].
  apply preserves_bind; [auto with clawbox|intros _].
  apply preserves_bind.
  { unfold clear_event. intros c2 Hc2. unfold mbind, M_bind, get, put, raise.
    destruct (waiter_events (adm c2) !! ticket) eqn:E; [|done]. by apply I_clear. }
  intros _. apply preserves_bind; [apply preserves_modify, Ht|intros _].
  apply preserves_bind; [apply keep_snapshot; [done|apply Ht]|intros o]. auto with clawbox.
Qed.

(** A call either fails keeping the invariant, or commits from a state that
    satisfies it, right after an attempt that admitted it. *)
Lemma rounds_spec rd a deadline trs y c r c' :
  Forall turn_ok trs → I c → rounds rd a ticket deadline trs y c = Some (r, c') →
  (I c' ∧ ∃ e, r = Raise e) ∨
  ∃ tr y' c0 c1, tr ∈ trs ∧ I c0 ∧ I c1 ∧
    attempt a ticket deadline tr y' c0 = (Ok Granted, c1) ∧ commit rd a ticket c1 = (r, c').
Proof.
  intros Hts. revert y c. induction Hts as [|tr trs Ht Hts IH]; intros y c Hc E; [done|].
  cbn [rounds] in E. pose proof (keep_attempt a deadline tr y Ht c Hc) as Hk.
  destruct (attempt a ticket deadline tr y c) as [[[|y'|]|e] c1] eqn:Ea; simpl in Hk; simplify_eq.
  - right. exists tr, y, c, c1. split_and!; [by left|done..].
  - destruct (IH y' c1 Hk E) as [?|(tr' & y2 & c2 & c3 & Hin & H)]; [by left|right].
    exists tr', y2, c2, c3. split; [by right|done].
  - left. eauto.
Qed.
End own.

(** An admission follows a clean check of the right charge.  When a round
    admits a request: its queue-head pass had settled; the session has no claim
    of that class in flight; and [_pressure_reasons] found nothing against
    either the request itself, with the startup headroom a creation needs, the
    request being the head and creations not held back, or against the sum of
    the batch up to the request. *)
Theorem admitted_after_check a ticket deadline tr y c0 c1 :
  attempt a ticket deadline tr y c0 = (Ok Granted, c1) →
  ∃ h c2 q, (admission_head (t_heads tr) (y_observed y) c0).1 = Ok (Some h) ∧
    pressure_reasons (t_probes tr) q (y_observed y) c2 = (Ok [], c1) ∧
    inflight (demand c2) (g_session a) (g_class a) = false ∧
    ((h = Some ticket ∧
      let extra := if is_create a then startup_extra (t_probes tr) (g_session a) c2 else 0 in
      q = Ask (g_amount a + extra) (g_capacity a) (is_tool a) (Some (g_total a + extra)) false ∧
      (is_create a && admission_blocked c1 && negb (resident_capacity_accounting (cfg c1)) = false)) ∨
     ∃ l g, feasible_progress_prefix ticket h c2 = Ok (Some (l, g)) ∧
      let extra := if is_create a then startup_extra (t_probes tr) (g_session a) c2 else 0 in
      q = Ask (l + extra) (g_capacity a) (is_tool a) (Some (g + extra)) true).
Proof.
  unfold attempt. intros E. apply bind_ok_inv in E as (c & c' & E1 & E). injection E1 as <- <-.
  apply bind_ok_inv in E as (u & c' & E1 & E). unfold raise_if in E1.
  destruct (reclaim_error (reclaim c0)); [done|]. injection E1 as _ <-.
  apply bind_ok_inv in E as (found & c2 & E1 & E). rewrite E1. destruct found as [h|]; [|done].
  apply bind_ok_inv in E as ([can rs] & c3 & E2 & E).
  destruct (can && bool_decide (rs = [])) eqn:Ec.
  2: { do 5 (apply bind_ok_inv in E as (? & ? & _ & E)).
       apply bind_ok_inv in E as ([|] & ? & _ & E); [done|].
       do 4 (apply bind_ok_inv in E as (? & ? & _ & E)). done. }
  injection E as <-. apply andb_true_iff in Ec as [-> ->%bool_decide_eq_true].
  unfold check_round in E2. apply bind_ok_inv in E2 as (? & ? & E & E2). injection E as <- <-.
  apply bind_ok_inv in E2 as (prefix & c4 & Ep & E2). apply bind_ok_inv in E2 as (rs & c5 & Er & E2).
  apply bind_ok_inv in E2 as (? & ? & E & E2). injection E as <- <-. injection E2 as Hcan E2 <-.
  apply app_nil in E2 as [-> [Hs Hb]%app_nil]. rewrite Hcan in Er.
  destruct (inflight (demand c2) (g_session a) (g_class a)) eqn:Ei; [done|]. rewrite orb_false_r in Ep.
  exists h, c2. case_bool_decide as Hh.
  - injection Ep as <- <-. simpl in Er. eexists. split; [done|]. split; [exact Er|]. split; [done|]. left.
    split; [done|]. split; [done|]. by destruct (_ && _).
  - simpl in Hcan. unfold lift in Ep. injection Ep as Ep <-. destruct prefix as [[l g]|]; [|done].
    eexists. split; [done|]. split; [exact Er|]. split; [done|]. right. exists l, g. done.
Qed.

(** ** The queue around a call *)

Definition queued (ticket : nat) (c : coordinator) : Prop :=
  queue_ok (adm c) ∧ ticket ∈ waiters (adm c).
Definition absent (ticket : nat) (c : coordinator) : Prop :=
  queue_ok (adm c) ∧ ticket ∉ waiters (adm c).

Lemma raise_depth_adm c : adm (raise_depth c) = adm c.
Proof. done. Qed.

Lemma enqueue_queued a ticket now c : absent ticket c → queued ticket (enqueue a ticket now c).
Proof.
  intros [[H1 H2 H3 H4 H5] Hn].
  assert (E : adm (enqueue a ticket now c) =
    Queue (waiters (adm c) ++ [ticket])
      (<[ticket := Request (g_session a) (g_amount a) (g_class a) (g_capacity a) (Some (g_total a)) now]>
         (waiter_requests (adm c)))
      (waiter_blockers (adm c)) (<[ticket := false]> (waiter_events (adm c)))
      (if negb (is_create a) && negb (g_capacity a) then {[ticket]} ∪ progress_waiters (adm c)
       else progress_waiters (adm c))) by (unfold enqueue; by destruct (is_tool a)).
  unfold queued. rewrite E. split; [|simpl; set_solver]. split; simpl.
  - apply NoDup_app. split_and!; [done|set_solver|apply NoDup_singleton].
  - intros t. rewrite lookup_insert_is_Some, H2. set_solver.
  - intros t. rewrite lookup_insert_is_Some, H3. set_solver.
  - intros t Ht. apply H4 in Ht. set_solver.
  - intros t Ht. destruct (_ && _); [apply elem_of_union in Ht as [?|Ht]; [set_solver|]|];
      apply H5 in Ht; set_solver.
Qed.

Lemma elem_of_remove_first t x l : NoDup l → x ∈ remove_first t l ↔ x ∈ l ∧ x ≠ t.
Proof.
  induction 1 as [|y l Hy Hl IH]; simpl; [set_solver|].
  case_decide as E; [subst|]; set_solver.
Qed.

Lemma NoDup_remove_first t l : NoDup l → NoDup (remove_first t l).
Proof.
  induction 1 as [|y l Hy Hl IH]; simpl; [constructor|]. case_decide; [done|].
  constructor; [|done]. rewrite elem_of_remove_first by done. tauto.
Qed.

Lemma dequeue_absent ticket c : queue_ok (adm c) → absent ticket (dequeue ticket c).
Proof.
  intros [H1 H2 H3 H4 H5]. unfold absent, dequeue. simpl.
  split; [|rewrite elem_of_remove_first by done; tauto]. split; simpl.
  - by apply NoDup_remove_first.
  - intros t. rewrite lookup_delete_is_Some, H2, elem_of_remove_first by done. naive_solver.
  - intros t. rewrite lookup_delete_is_Some, H3, elem_of_remove_first by done. naive_solver.
  - intros t. rewrite lookup_delete_is_Some, elem_of_remove_first by done. intros [? ?%H4]. naive_solver.
  - intros t [Ht%H5 Hn]%elem_of_difference. rewrite elem_of_remove_first by done. set_solver.
Qed.

Lemma set_blockers_queued ticket rs c : queued ticket c → queued ticket (set_blockers ticket rs c).
Proof.
  intros [[H1 H2 H3 H4 H5] Ht]. split; [|done]. split; try done. simpl. intros t.
  rewrite lookup_insert_is_Some. intros [<-|[_ ?]]; auto.
Qed.

Lemma clear_queued ticket c : queued ticket c →
  queued ticket (with_adm (with_events (<[ticket := false]> (waiter_events (adm c))) (adm c)) c).
Proof.
  intros [[H1 H2 H3 H4 H5] Ht]. split; [|done]. split; try done. simpl. intros t.
  rewrite lookup_insert_is_Some, H3. split; [by intros [<-|[_ ?]]|].
  destruct (decide (ticket = t)); auto.
Qed.

Lemma signal_queued ticket c : queued ticket c → queued ticket (signal_waiters c).
Proof. intros [H Ht]. split; [by apply signal_queue_ok|done]. Qed.

Lemma signal_absent ticket c : absent ticket c → absent ticket (signal_waiters c).
Proof. intros [H Ht]. split; [by apply signal_queue_ok|done]. Qed.

Lemma on_demand_adm {A} (m : M ledger A) c : adm (on_demand m c).2 = adm c.
Proof. unfold on_demand. by destruct (m (demand c)). Qed.

Lemma book_claim_adm rd a c : adm (book_claim rd a c).2 = adm c.
Proof. unfold book_claim, mbind, M_bind, get. destruct (_ && _); apply on_demand_adm. Qed.

Lemma record_wait_keeps cls w c : adm (record_wait cls w c).2 = adm c ∧
  bookkeeping (record_wait cls w c).2 = bookkeeping c ∧ demand (record_wait cls w c).2 = demand c.
Proof.
  unfold record_wait, mbind, M_bind, get, put, raise. case_decide; [done|].
  by destruct (lifecycle_wait_samples (meter c) !! cls).
Qed.

Lemma commit_absent rd a ticket c : queued ticket c → absent ticket (commit rd a ticket c).2.
Proof.
  intros [Hq Ht]. unfold commit, mbind at 1, M_bind at 1, get, raise_if.
  rewrite bool_decide_true by done. simpl. unfold mbind at 1, M_bind at 1, mret, M_ret.
  unfold mbind at 1, M_bind at 1, modify at 1. unfold mbind, M_bind.
  pose proof (dequeue_absent ticket c Hq) as Hd. pose proof (book_claim_adm rd a (dequeue ticket c)) as Hb.
  destruct (book_claim rd a (dequeue ticket c)) as [[[]|e] c1]; simpl in Hb.
  - apply signal_absent. unfold absent. simpl. by rewrite Hb.
  - unfold absent. simpl. by rewrite Hb.
Qed.

Lemma abandon_keeps {A} a ticket w e (k : unit → M coordinator A) c :
  let r := (abandon a ticket w e ≫= k) c in
  (∃ e', r.1 = Raise e') ∧ adm r.2 = adm (signal_waiters (dequeue ticket c)) ∧
  bookkeeping r.2 = bookkeeping c ∧ demand r.2 = demand c.
Proof.
  unfold abandon, mbind, M_bind, modify, raise.
  pose proof (record_wait_keeps (g_class a) w (signal_waiters (dequeue ticket c))) as (H1 & H2 & H3).
  destruct (record_wait _ _ _) as [[[]|e'] c1]; simpl in *; rewrite H1, H2, H3; eauto.
Qed.

Lemma recorded_keeps {A} cls w (x : A) c :
  let r := (record_wait cls w ;; mret x) c in
  adm r.2 = adm c ∧ bookkeeping r.2 = bookkeeping c ∧ demand r.2 = demand c.
Proof.
  unfold mbind, M_bind. pose proof (record_wait_keeps cls w c) as H.
  by destruct (record_wait cls w c) as [[[]|e] c1].
Qed.

(** A reservation leaves the queue as it found it.  However the call
    ends, by admission, a timeout, a failing reading or a failing relief, its
    ticket is in none of the queue's structures and they still agree with each
    other, provided other threads keep them consistent and leave the ticket
    alone while the call is queued. *)
Theorem acquire_leaves_queue rd physical first carried ticket timeout st en trs a c r c' :
  absent ticket c → gaps_keep (absent ticket) first → Forall (turn_ok (queued ticket)) trs →
  acquire rd physical first carried ticket timeout st en trs a c = Some (r, c') →
  absent ticket c'.
Proof.
  intros Hc Hf Hts E. unfold acquire in E.
  destruct (os_managed_lifecycle (cfg c) && is_create a).
  { injection E as E. unfold mbind, M_bind, raise_if, lift, mret, M_ret, raise in E.
    destruct (negb _); [by simplify_eq|]. destruct physical; [|by simplify_eq].
    destruct (_ <? _); by simplify_eq. }
  destruct (_ && negb _) eqn:Ez.
  { injection E as E. destruct (recorded_keeps (g_class a) (en - st) (en - st)%Q c) as (H & _).
    rewrite E in H. simpl in H. unfold absent. by rewrite H. }
  assert (Hs : absent ticket (first_observations first carried a c).2).
  { unfold first_observations. destruct carried; [done|].
    apply (keep_snapshot (absent ticket)); [|done..].
    intros c1 c2 E1 _ _ _ _ H. unfold absent. by rewrite E1. }
  destruct (first_observations first carried a c) as [[o|e] c1]; [|by simplify_eq]. simpl in Hs.
  unfold queued_acquire in E. destruct (rounds _ _ _ _ _ _ _) as [[r1 c2]|] eqn:Er; [|done].
  apply (rounds_spec (queued ticket)) in Er; try done.
  2: { intros c3 c4 E1 _ _ _ _ H. unfold queued. by rewrite E1. }
  2: { intros rs c3. apply set_blockers_queued. }
  2: { intros c3 _. apply clear_queued. }
  2: { apply signal_queued. }
  2: { by apply enqueue_queued. }
  assert (Hc2 : queue_ok (adm c2) ∧ (is_ok r1 = true → absent ticket c2)).
  { destruct Er as [[Hq [e ->]]|(tr & y & c3 & c4 & _ & _ & Hq & _ & Ec)].
    - split; [apply Hq|done].
    - pose proof (commit_absent rd a ticket c4 Hq) as H. rewrite Ec in H. split; [apply H|done]. }
  destruct Hc2 as [Hq Hok]. destruct r1 as [[]|e]; injection E as E.
  - destruct (recorded_keeps (g_class a) (en - st) (en - st)%Q c2) as (H & _).
    rewrite E in H. simpl in H. unfold absent. rewrite H. by apply Hok.
  - destruct (abandon_keeps a ticket (en - st) e (λ _, mret 0%Q) c2) as (_ & H & _).
    rewrite E in H. cbn [snd] in H. unfold absent. rewrite H.
    apply (signal_absent ticket), dequeue_absent, Hq.
Qed.

(** ** The books around a call *)

(** What the books say of one session and wait class. *)
Definition own (a : args) (c : coordinator) : option Z * option Z * option claim :=
  (reservations (bookkeeping c) !! g_session a, capacity_claims (bookkeeping c) !! g_session a,
   claims (demand c) !! (g_session a, g_class a)).

(** The wait class has a series in the metrics. *)
Definition waited (a : args) (c : coordinator) : bool :=
  is_tool a || bool_decide (is_Some (lifecycle_wait_samples (meter c) !! g_class a)).

(** Another thread's work: it keeps [P] and consistent books, and does not
    touch this session's. *)
Definition bystander (a : args) (P : coordinator → Prop) (f : coordinator → coordinator) : Prop :=
  ∀ c, P c → ledger_ok (demand c) → P (f c) ∧ ledger_ok (demand (f c)) ∧ own a (f c) = own a c ∧
  waited a (f c) = waited a c.

Record turn_spares (a : args) (ticket : nat) (tr : turn) : Prop := TurnSpares {
  ts_heads : Forall (λ e, ∀ n, bystander a (queued ticket) (p_gap e n)) (t_heads tr);
  ts_probes : ∀ n, bystander a (queued ticket) (p_gap (t_probes tr) n);
  ts_refresh : ∀ n, bystander a (queued ticket) (p_gap (t_refresh tr) n);
  ts_relieving : bystander a (queued ticket) (t_relieving tr);
  ts_waiting : bystander a (queued ticket) (t_waiting tr);
}.

Definition owned (a : args) (P : coordinator → Prop) (v : option Z * option Z * option claim)
    (c : coordinator) : Prop := P c ∧ ledger_ok (demand c) ∧ own a c = v ∧ waited a c = true.

Lemma bystander_owned a P v f : bystander a P f → ∀ c, owned a P v c → owned a P v (f c).
Proof. intros Hf c (H1 & H2 & H3 & H4). destruct (Hf c H1 H2) as (? & ? & ? & ?).
  split_and!; [done..|congruence|congruence]. Qed.

Lemma turn_spares_ok a ticket v tr : turn_spares a ticket tr → turn_ok (owned a (queued ticket) v) tr.
Proof.
  intros []. split; try (by intros n; apply bystander_owned); try by apply bystander_owned.
  eapply Forall_impl; [exact ts_heads0|]. intros e He n. by apply bystander_owned.
Qed.

Lemma owned_neutral a (P : coordinator → Prop) v :
  (∀ c c', adm c' = adm c → P c → P c') →
  ∀ c c', adm c' = adm c → bookkeeping c' = bookkeeping c → view (demand c') = view (demand c) →
  cfg c' = cfg c → lifecycle_wait_samples (meter c') = lifecycle_wait_samples (meter c) →
  owned a P v c → owned a P v c'.
Proof.
  intros HP c c' E1 E2 E3 _ E4 (H1 & H2 & H3 & H4). split_and!.
  - by eapply HP.
  - by eapply ledger_ok_view.
  - unfold own. by rewrite E2, (view_claims _ _ E3).
  - unfold waited. by rewrite E4.
Qed.

(** A claim that is added or extended is booked in full; a refused one leaves
    the ledger alone. *)
Lemma add_cases rd k sc am lo sm l :
  ledger_ok l → 0 <= am → 0 <= lo →
  (∃ e, add rd k sc am lo sm l = (Raise e, l)) ∨
  ∃ cl l', add rd k sc am lo sm l = (Ok tt, l') ∧ claims l !! k = None ∧ ledger_ok l' ∧
    claims l' = <[k := cl]> (claims l) ∧ c_amount cl = am ∧ c_local cl = lo.
Proof.
  intros Hl Ha Hlo. destruct Hl as [Hc Hb]. unfold add, mbind at 1, M_bind at 1, get, raise_if.
  destruct (claims l !! k) as [c0|] eqn:Ek; simpl.
  { left. eexists. reflexivity. }
  unfold mbind at 1, M_bind at 1, mret at 1, M_ret at 1, mbind at 1, M_bind at 1, lift.
  destruct (match sm with Some p => rd p | None => Ok (0, 0) end) as [b|e]; [right|left; eauto].
  set (cl := Claim (next_id l) sc am lo sm b).
  assert (Hok : claims_ok (<[k := cl]> (claims l))) by (by apply claims_ok_insert).
  unfold mbind, M_bind, put. cbn -[adjust_pending_upper_bound with_observation with_claims].
  match goal with |- context [adjust_pending_upper_bound sc am lo ?x] => set (l1 := x) end.
  destruct (adjust_ok (claims l) (<[k := cl]> (claims l)) l1 sc am lo) as (a' & m' & E & Hb');
    [done|done|unfold total; by rewrite dsum_insert_new| |].
  { intros s. unfold scope_total. rewrite dsum_insert_new, scoped_decide by done. done. }
  exists cl, (with_bound a' m' l1). split_and!; try done. rewrite Ek. exact E.
Qed.

Lemma extend_cases k am lo l cl :
  ledger_ok l → 0 <= am → 0 <= lo → claims l !! k = Some cl →
  ∃ l', extend k am lo l = (Ok tt, l') ∧ ledger_ok l' ∧
    claims l' = <[k := grown cl am lo]> (claims l).
Proof.
  intros [Hc Hb] Ha Hlo Ek. unfold extend, mbind at 1, M_bind at 1, get. rewrite Ek.
  destruct (claims_ok_lookup _ _ _ Hc Ek) as [Hca Hcl].
  destruct (grown_sums (claims l) k cl am lo Ek) as [Ht Hs].
  assert (Hok : claims_ok (<[k := grown cl am lo]> (claims l)))
    by (apply claims_ok_insert; [done|]; split; simpl; lia).
  destruct (adjust_ok (claims l) (<[k := grown cl am lo]> (claims l))
    (with_claims (<[k := grown cl am lo]> (claims l)) l) (c_scope cl) am lo)
    as (a' & m' & E & Hb'); [done..|].
  exists (with_bound a' m' (with_claims (<[k := grown cl am lo]> (claims l)) l)). by split_and!.
Qed.

(** The books after a successful reservation. *)
Definition booked_from (a : args) (v : option Z * option Z * option claim) (c : coordinator) : Prop :=
  let '(res, cap, cl0) := v in
  (if g_capacity a
   then (own a c).1 = (res, Some (default 0 cap + g_amount a))
   else (own a c).1 = (Some (default 0 res + g_amount a), cap)) ∧
  (∃ cl, (own a c).2 = Some cl ∧ c_amount cl = from_option c_amount 0 cl0 + g_total a ∧
         c_local cl = from_option c_local 0 cl0 + g_amount a) ∧
  (is_tool a = false → cl0 = None).

Lemma book_claim_eq rd a c :
  book_claim rd a c =
  if is_tool a && bool_decide (is_Some (claims (demand c) !! (g_session a, g_class a)))
  then on_demand (extend (g_session a, g_class a) (g_total a) (g_amount a)) c
  else on_demand (add rd (g_session a, g_class a) (demand_scope (cfg c)) (g_total a) (g_amount a)
                    (sampler_for a c)) c.
Proof. unfold book_claim, mbind, M_bind, get. by destruct (_ && _). Qed.

Lemma book_claim_cases rd a P v c :
  0 <= g_amount a → 0 <= g_total a → owned a P v c →
  (∃ e, book_claim rd a c = (Raise e, c)) ∨
  ∃ c', book_claim rd a c = (Ok tt, c') ∧ ledger_ok (demand c') ∧ bookkeeping c' = bookkeeping c ∧
    (∃ cl, claims (demand c') !! (g_session a, g_class a) = Some cl ∧
       c_amount cl = from_option c_amount 0 v.2 + g_total a ∧
       c_local cl = from_option c_local 0 v.2 + g_amount a) ∧ (is_tool a = false → v.2 = None).
Proof.
  intros Ha Ht (_ & Hl & <- & _). rewrite (book_claim_eq rd a c). unfold own. cbn [snd].
  destruct (is_tool a && _) eqn:Ek.
  - apply andb_true_iff in Ek as [Htool [cl E]%bool_decide_eq_true]. right.
    destruct (extend_cases (g_session a, g_class a) (g_total a) (g_amount a) (demand c) cl)
      as (l' & E' & Hl' & Hc'); [done..|]. unfold on_demand. cbv beta. rewrite E'.
    eexists. split; [done|]. simpl. rewrite E, Hc', dict_lookup_insert_eq.
    split_and!; [done|done| |by rewrite Htool]. eexists. split; [done|]. by simpl.
  - destruct (add_cases rd (g_session a, g_class a) (demand_scope (cfg c)) (g_total a) (g_amount a)
      (sampler_for a c) (demand c)) as [[e E]|(cl & l' & E & En & Hl' & Hc' & H1 & H2)]; [done..| |].
    + left. exists e. unfold on_demand. cbv beta. rewrite E. by destruct c.
    + right. unfold on_demand. cbv beta. rewrite E. eexists. split; [done|]. simpl.
      assert (En' : (own a c).2 = None) by exact En. unfold own in En'. simpl in En'.
      rewrite En', Hc', dict_lookup_insert_eq. split_and!; [done|done| |done].
      exists cl. simpl. split_and!; [done|lia..].
Qed.

Lemma book_reservation_own a c :
  (own a (book_reservation a c)).1 =
    (if g_capacity a
     then (reservations (bookkeeping c) !! g_session a,
           Some (default 0 (capacity_claims (bookkeeping c) !! g_session a) + g_amount a))
     else (Some (default 0 (reservations (bookkeeping c) !! g_session a) + g_amount a),
           capacity_claims (bookkeeping c) !! g_session a)) ∧
  demand (book_reservation a c) = demand c.
Proof.
  unfold own, book_reservation. destruct (g_capacity a); simpl; split; try done;
    destruct (_ && _); simpl; by rewrite lookup_insert_eq.
Qed.

Lemma commit_books rd a ticket v c r c' :
  0 <= g_amount a → 0 <= g_total a → owned a (queued ticket) v c →
  commit rd a ticket c = (r, c') →
  ledger_ok (demand c') ∧
  match r with Ok _ => booked_from a v c' | Raise _ => own a c' = v end.
Proof.
  intros Ha Ht Hc E. destruct Hc as ([Hq Hin] & Hl & Hv & Hw).
  unfold commit, mbind at 1, M_bind at 1, get, raise_if in E. rewrite bool_decide_true in E by done.
  simpl in E. unfold mbind at 1, M_bind at 1, mret, M_ret in E.
  unfold mbind at 1, M_bind at 1, modify at 1 in E. unfold mbind, M_bind in E.
  assert (Hd : owned a (λ _, True) v (dequeue ticket c)) by by split_and!.
  destruct (book_claim_cases rd a _ v _ Ha Ht Hd) as [[e Eb]|(c1 & Eb & Hl1 & Hb1 & Hcl & Hn)];
    rewrite Eb in E.
  { injection E as <- <-. by destruct Hd as (_ & ? & ? & _). }
  unfold modify in E. injection E as <- <-.
  destruct (book_reservation_own a c1) as [H1 H2]. split; [exact Hl1|].
  destruct v as [[res cap] cl0]. unfold own in Hv. injection Hv as Hr Hca Hcl0.
  unfold booked_from. simpl in Hcl, Hn. rewrite Hb1 in H1. simpl in H1. rewrite Hr, Hca in H1.
  split; [|split; [|done]].
  - unfold own in H1 |- *. simpl. by destruct (g_capacity a).
  - destruct Hcl as (cl & E1 & E2 & E3). exists cl. by split_and!.
Qed.

Lemma record_wait_ok a w c : waited a c = true →
  ∃ c', record_wait (g_class a) w c = (Ok tt, c') ∧ waited a c' = true.
Proof.
  unfold waited, is_tool, record_wait, mbind, M_bind, get, put. intros Hw.
  case_decide as Hcl; [rewrite bool_decide_true in * by done; eauto|].
  rewrite bool_decide_false in Hw |- * by done. simpl in Hw. apply bool_decide_eq_true in Hw as [x Hx].
  rewrite Hx. eexists. split; [done|]. simpl. rewrite dict_lookup_insert_eq.
  by apply bool_decide_eq_true.
Qed.

Lemma recorded_ok {A} a w (x : A) c : waited a c = true →
  ∃ c', (record_wait (g_class a) w ;; mret x) c = (Ok x, c') ∧
    bookkeeping c' = bookkeeping c ∧ demand c' = demand c ∧ waited a c' = true.
Proof.
  intros Hw. destruct (record_wait_ok a w c Hw) as (c' & E & Hw'). exists c'.
  destruct (record_wait_keeps (g_class a) w c) as (_ & H1 & H2). rewrite E in H1, H2.
  split_and!; try done. by rewrite (bind_ok _ _ _ _ _ E).
Qed.

Lemma abandon_runs {A} a ticket w e (k : unit → M coordinator A) c : waited a c = true →
  ∃ c', (abandon a ticket w e ≫= k) c = (Raise e, c') ∧
    bookkeeping c' = bookkeeping c ∧ demand c' = demand c ∧ waited a c' = true.
Proof.
  intros Hw. unfold abandon, mbind, M_bind, modify, raise.
  destruct (record_wait_ok a w (signal_waiters (dequeue ticket c)) Hw) as (c' & E & Hw').
  pose proof (record_wait_keeps (g_class a) w (signal_waiters (dequeue ticket c))) as (_ & H2 & H3).
  rewrite E in *. exists c'. by split_and!.
Qed.

Lemma own_ext a c c' : bookkeeping c' = bookkeeping c → demand c' = demand c → own a c' = own a c.
Proof. intros E1 E2. unfold own. by rewrite E1, E2. Qed.

Lemma booked_ext a v c c' : bookkeeping c' = bookkeeping c → demand c' = demand c →
  booked_from a v c → booked_from a v c'.
Proof. intros E1 E2. unfold booked_from. by rewrite (own_ext a c c' E1 E2). Qed.

Lemma commit_waited rd a ticket c : waited a (commit rd a ticket c).2 = waited a c.
Proof.
  unfold commit, mbind at 1, M_bind at 1, get, raise_if. destruct (negb _); [done|].
  unfold mbind, M_bind, mret, M_ret, modify.
  assert (H : waited a (book_claim rd a (dequeue ticket c)).2 = waited a c).
  { rewrite book_claim_eq. unfold on_demand. destruct (_ && _).
    - by destruct (extend _ _ _ _).
    - by destruct (add _ _ _ _ _ _ _). }
  by destruct (book_claim rd a (dequeue ticket c)) as [[[]|e] c1].
Qed.

(** The rounds of a call whose bystanders spare its books. *)
Lemma rounds_books rd a ticket deadline trs y v c r c' :
  0 <= g_amount a → 0 <= g_total a → Forall (turn_spares a ticket) trs →
  owned a (queued ticket) v c → rounds rd a ticket deadline trs y c = Some (r, c') →
  ledger_ok (demand c') ∧ waited a c' = true ∧
  match r with
  | Ok _ => booked_from a v c' ∧ ∃ tr y' c0 c1, tr ∈ trs ∧
      attempt a ticket deadline tr y' c0 = (Ok Granted, c1)
  | Raise _ => own a c' = v
  end.
Proof.
  intros Ha Ht Hts Hc E.
  assert (Hts' : Forall (turn_ok (owned a (queued ticket) v)) trs)
    by (eapply Forall_impl; [exact Hts|]; intros tr; apply turn_spares_ok).
  eapply (rounds_spec (owned a (queued ticket) v)) in E; try done.
  - destruct E as [((_ & Hl & Hv & Hw) & e & ->)|(tr & y' & c0 & c1 & Hin & _ & Hc1 & Hat & Ec)]; [done|].
    destruct (commit_books rd a ticket v c1 r c' Ha Ht Hc1 Ec) as [Hl Hb].
    pose proof (commit_waited rd a ticket c1) as Hw. rewrite Ec in Hw. simpl in Hw.
    destruct Hc1 as (_ & _ & _ & Hw1). split_and!; [done|congruence|].
    destruct r; [|done]. split; [done|]. eauto 10.
  - apply owned_neutral. intros c3 c4 E1 H. unfold queued. by rewrite E1.
  - intros rs c3 (H & ?). split; [by apply set_blockers_queued|done].
  - intros c3 _ (H & ?). split; [by apply clear_queued|done].
  - intros c3 (H & ?). split; [by apply signal_queued|done].
Qed.

(** What [acquire] does to this session's books while other threads spare
    them. *)
Lemma acquire_books rd physical first carried ticket timeout st en trs a c r c' :
  absent ticket c → ledger_ok (demand c) → waited a c = true → 0 <= g_amount a → 0 <= g_total a →
  (∀ n, bystander a (absent ticket) (p_gap first n)) → Forall (turn_spares a ticket) trs →
  acquire rd physical first carried ticket timeout st en trs a c = Some (r, c') →
  ledger_ok (demand c') ∧ waited a c' = true ∧
  match r with
  | Raise _ => own a c' = own a c
  | Ok _ =>
      (own a c' = own a c ∧
       (os_managed_lifecycle (cfg c) = true ∨ is_create a = false ∧ g_class a ≠ "restore") ∧
       g_amount a = 0 ∧ g_total a = 0) ∨
      booked_from a (own a c) c' ∧ ∃ tr y c0 c1, tr ∈ trs ∧
        attempt a ticket ((λ t, st + t)%Q <$> timeout) tr y c0 = (Ok Granted, c1)
  end.
Proof.
  intros Hc Hl Hw Ha Ht Hf Hts E. unfold acquire in E.
  destruct (os_managed_lifecycle (cfg c) && is_create a) eqn:Eos.
  { apply andb_true_iff in Eos as [Hos Hcr].
    injection E as E. unfold mbind, M_bind, raise_if, lift, mret, M_ret, raise in E.
    destruct (Z.eqb_spec (g_amount a) 0), (Z.eqb_spec (g_total a) 0); simpl in E; try (simplify_eq; by auto).
    destruct physical; [|simplify_eq; by auto]. destruct (_ <? _); simplify_eq; [by auto|].
    split_and!; [done..|]. left. auto. }
  destruct (_ && negb _) eqn:Ez.
  { injection E as E. apply andb_true_iff in Ez as [[[Ez1%Z.eqb_eq Ez2%Z.eqb_eq]%andb_true_iff Ez4]%andb_true_iff Ez3].
    apply negb_true_iff in Ez4. apply negb_true_iff, bool_decide_eq_false in Ez3.
    destruct (recorded_ok a (en - st) (en - st)%Q c Hw) as (c2 & E2 & H1 & H2 & H3).
    rewrite E2 in E. injection E as <- <-. rewrite (own_ext a c c2), H2 by done. auto 10. }
  assert (Hs : owned a (absent ticket) (own a c) (first_observations first carried a c).2).
  { unfold first_observations. destruct carried; [by split_and!|].
    apply (keep_snapshot (owned a (absent ticket) (own a c))); [| |by split_and!].
    - apply owned_neutral. intros c1 c2 E1 H. unfold absent. by rewrite E1.
    - intros n. by apply bystander_owned. }
  destruct (first_observations first carried a c) as [[o|e] c1].
  2: { simplify_eq. destruct Hs as (_ & ? & ? & ?). auto. }
  unfold queued_acquire in E. destruct (rounds _ _ _ _ _ _ _) as [[r1 c2]|] eqn:Er; [|done].
  assert (Hq : owned a (queued ticket) (own a c) (enqueue a ticket st c1)).
  { destruct Hs as (H1 & H2 & H3 & H4). split_and!; [by apply enqueue_queued|..];
      unfold enqueue; by destruct (is_tool a) eqn:Ht'; unfold waited in *; rewrite Ht' in *. }
  destruct (rounds_books rd a ticket _ trs _ _ _ _ _ Ha Ht Hts Hq Er) as (Hl2 & Hw2 & Hb).
  destruct r1 as [[]|e]; injection E as E.
  - destruct (recorded_ok a (en - st) (en - st)%Q c2 Hw2) as (c3 & E3 & H1 & H2 & H3).
    rewrite E3 in E. injection E as <- <-. rewrite H2. split_and!; [done..|]. right.
    destruct Hb as [Hb Hat]. split; [by eapply booked_ext|done].
  - destruct (abandon_runs a ticket (en - st) e (λ _, mret 0%Q) c2 Hw2) as (c3 & E3 & H1 & H2 & H3).
    rewrite E3 in E. injection E as <- <-. rewrite H2. split_and!; [done..|].
    by rewrite (own_ext a c2 c3).
Qed.

(** A reservation is booked exactly once, and only when it was admitted.
    While other threads spare this session's books: if the call raises, the
    session's reservation, capacity and demand claim are what they were; if it
    returns, either it asked for nothing, or some round's check admitted it and
    its amount was added once to the right reservation ledger and its demand
    claim created, or for a Tool grown, by its total and local bytes.  The
    demand ledger's bound stays exact. *)
Theorem acquire_books_once rd physical first carried ticket timeout st en trs a c r c' :
  absent ticket c → ledger_ok (demand c) → waited a c = true → 0 <= g_amount a → 0 <= g_total a →
  (∀ n, bystander a (absent ticket) (p_gap first n)) → Forall (turn_spares a ticket) trs →
  acquire rd physical first carried ticket timeout st en trs a c = Some (r, c') →
  ledger_ok (demand c') ∧
  match r with
  | Raise _ => own a c' = own a c
  | Ok _ =>
      (own a c' = own a c ∧ g_amount a = 0 ∧ g_total a = 0) ∨
      booked_from a (own a c) c' ∧ ∃ tr y c0 c1, tr ∈ trs ∧
        attempt a ticket ((λ t, st + t)%Q <$> timeout) tr y c0 = (Ok Granted, c1)
  end.
Proof.
  intros Hc Hl Hw Ha Ht Hf Hts E.
  destruct (acquire_books _ _ _ _ _ _ _ _ _ _ _ _ _ Hc Hl Hw Ha Ht Hf Hts E) as (H1 & H2 & H3).
  split; [done|]. destruct r; [|done]. destruct H3 as [(? & ? & ? & ?)|?]; auto.
Qed.

(** ** Giving a reservation back *)

Lemma release_claim k l cl : ledger_ok l → claims l !! k = Some cl →
  ∃ l', DemandLedger.release k l = (Ok tt, l') ∧ ledger_ok l' ∧ claims l' = delete k (claims l).
Proof.
  intros [Hc Hb] Ek. unfold DemandLedger.release, mbind at 1, M_bind at 1, get. rewrite Ek.
  assert (Hok : claims_ok (delete k (claims l))) by by apply claims_ok_delete.
  destruct (adjust_ok (claims l) (delete k (claims l)) (with_claims (delete k (claims l)) l)
    (c_scope cl) (- c_amount cl) (- c_local cl)) as (a' & m' & E & Hb'); [done|done|by apply total_delete| |].
  { intros s. by apply scope_total_delete. }
  exists (with_bound a' m' (with_claims (delete k (claims l)) l)). by split_and!.
Qed.

(** [release] of a lifecycle claim undoes its booking. *)
Lemma release_undoes sid m cls t c res cap :
  let a := Args sid (m * mib) (m * mib) cls false t in
  is_tool a = false → ledger_ok (demand c) → booked_from a (res, cap, None) c →
  0 <= default 0 res → res ≠ Some 0 →
  ∃ c', release sid m cls None c = (Ok tt, c') ∧ ledger_ok (demand c') ∧
        own a c' = (res, cap, None).
Proof.
  intros a Ht Hl (Hr & (cl & Hcl & _) & _) Hres Hne. unfold own in Hr, Hcl. simpl in Hr, Hcl.
  injection Hr as Hr Hca. unfold release.
  assert (Hb : bool_decide (cls = "tool_admission") = false) by exact Ht. rewrite Hb. cbn [andb].
  unfold mbind at 1, M_bind at 1, release_from at 1. unfold mbind at 1, M_bind at 1, get.
  cbn [book_of bookkeeping]. rewrite Hr. cbn [default from_option id].
  unfold raise_if. replace (default 0 res + m * mib <? m * mib) with false
    by (symmetry; apply Z.ltb_ge; lia).
  unfold mbind at 1, M_bind at 1, mret, M_ret, put.
  set (c1 := signal_waiters _). unfold mbind, M_bind.
  assert (Hd1 : demand c1 = demand c) by done.
  destruct (release_claim (sid, cls) (demand c1) cl) as (l' & E & Hl' & Hc'); [by rewrite Hd1|exact Hcl|].
  unfold on_demand. rewrite E. unfold modify. eexists. split; [done|]. split; [done|].
  unfold own. simpl. rewrite Hc', Hd1. f_equal; [f_equal|].
  - destruct (Z.eqb_spec (m * mib) (default 0 res + m * mib)) as [He|He].
    + rewrite lookup_delete_eq. destruct res as [x|]; [|done]. simpl in *. exfalso. apply Hne. f_equal. lia.
    + rewrite lookup_insert_eq. destruct res as [x|]; simpl in *; [f_equal; lia|lia].
  - done.
  - apply dict_lookup_delete_eq. apply Hl.
Qed.

(** A computation of this thread that spares the session's books. *)
Definition sparing {A} (a : args) (m : M coordinator A) : Prop :=
  ∀ v, preserves (owned a (λ _, True) v) m.

Lemma owned_booked a v c : owned a (λ _, True) (own a c) c → booked_from a v c →
  ∀ c', owned a (λ _, True) (own a c) c' → ledger_ok (demand c') ∧ booked_from a v c'.
Proof.
  intros _ Hb c' (_ & Hl & Ho & _). split; [done|]. unfold booked_from in *. by rewrite Ho.
Qed.

Lemma reserved_balanced {A} acq (body : M coordinator A) sid m cls t c r c' :
  let a := Args sid (m * mib) (m * mib) cls false t in
  is_tool a = false → waited a c = true →
  (∀ w c1, acq c = Some (Ok w, c1) → ledger_ok (demand c1) ∧ waited a c1 = true ∧
     booked_from a (own a c) c1) →
  (∀ e c1, acq c = Some (Raise e, c1) → ledger_ok (demand c1) ∧ own a c1 = own a c) →
  sparing a body → 0 <= default 0 (own a c).1.1 → (own a c).1.1 ≠ Some 0 →
  reserved acq body (release sid m cls None) c = Some (r, c') →
  ledger_ok (demand c') ∧ own a c' = own a c ∧
  (∀ x, r = Ok x → ∃ w c1 c2, acq c = Some (Ok w, c1) ∧ body c1 = (Ok x.1, c2) ∧ w = x.2).
Proof.
  intros a Ht Hw Hok Hraise Hbody Hres Hne E. unfold reserved in E.
  destruct (acq c) as [[[w|e] c1]|]; [| |done].
  2: { injection E as <- <-. destruct (Hraise e c1 eq_refl). by split_and!. }
  injection E as E. destruct (Hok w c1 eq_refl) as (Hl1 & Hw1 & Hb1).
  assert (Ho : owned a (λ _, True) (own a c1) c1) by done.
  assert (Ho2 := Hbody (own a c1) c1 Ho). unfold try_finally, mbind, M_bind in E.
  destruct (own a c) as [[res cap] cl0] eqn:Eown.
  assert (cl0 = None) as ->. { destruct Hb1 as (_ & _ & H). by apply H. }
  destruct (body c1) as [[x|e] c2] eqn:Eb; cbn [fst snd] in Ho2; unfold mret, M_ret in E;
    destruct (owned_booked a _ c1 Ho Hb1 c2 Ho2) as [Hl2 Hb2];
    destruct (release_undoes sid m cls t c2 res cap Ht Hl2 Hb2 Hres Hne) as (c3 & E3 & Hl3 & Ho3);
    rewrite E3 in E; injection E as <- <-; split_and!; try done.
  intros x' [= <-]. by exists w, c1, c2.
Qed.

Lemma sparing_service {A} a others (r : outcome A) :
  bystander a (λ _, True) others → sparing a (service others r).
Proof.
  intros Ho v. unfold service. apply preserves_bind; [|by intros _ ?].
  apply preserves_modify. by apply bystander_owned.
Qed.

Lemma sparing_restore_service a others r :
  bystander a (λ _, True) others → sparing a (restore_service others r).
Proof.
  intros Ho v. unfold restore_service. apply preserves_bind; [by apply sparing_service|intros q].
  apply preserves_bind; [|intros; auto with clawbox].
  apply preserves_modify. intros c. by apply owned_neutral.
Qed.

(** The second attempt of [restore]. *)
Lemma sparing_retry a others (r : outcome Q) evict :
  bystander a (λ _, True) others → sparing a evict → ∀ v e,
  preserves (owned a (λ _, True) v)
    (if bool_decide (status_code e = Some 409) then
       evicted ← evict;
       raise_if (negb evicted) (RuntimeError "restore capacity rejection") ;;
       restore_service others r
     else raise e).
Proof.
  intros Ho He v e. case_bool_decide; [|auto with clawbox].
  apply preserves_bind; [apply He|intros ev]. apply preserves_bind; [auto with clawbox|intros _].
  by apply sparing_restore_service.
Qed.

Lemma restore_service_ok others r c q c' :
  restore_service others r c = (Ok q, c') → r = Ok q.
Proof.
  unfold restore_service, service, mbind, M_bind, modify, lift, mret, M_ret.
  destruct r; intros E; by simplify_eq.
Qed.

Lemma restore_body_result others others' op1 op2 evict c q c' :
  try_except (restore_service others op1)
    (λ e, if bool_decide (status_code e = Some 409) then
            evicted ← evict;
            raise_if (negb evicted) (RuntimeError "restore capacity rejection") ;;
            restore_service others' op2
          else raise e) c = (Ok q, c') →
  op1 = Ok q ∨
  op2 = Ok q ∧ ∃ e c1 c2, op1 = Raise e ∧ status_code e = Some 409 ∧ evict c1 = (Ok true, c2).
Proof.
  unfold try_except. destruct (restore_service others op1 c) as [[x|e] c1] eqn:E.
  - intros [= -> <-]. left. by eapply restore_service_ok.
  - case_bool_decide as H409; [|done]. intros H. right.
    apply bind_ok_inv in H as (ev & c2 & Ee & H). apply bind_ok_inv in H as (u & c3 & Er & H).
    unfold raise_if in Er. destruct ev; [|done]. split; [by eapply restore_service_ok|].
    exists e, c1, c2. split_and!; [|done..].
    unfold restore_service, service, mbind, M_bind, modify, lift in E. destruct op1; [done|]. congruence.
Qed.

(** C34: a lifecycle reservation is always given back.  Whatever the create or
    restore calls and the eviction between two restore attempts do, once
    [restore] or [materialize] ends the session's reservation, its other books
    and the demand claim are what they were before, and the ledger's bound is
    exact; a restore that returns was served at the first attempt, or at the
    second after a capacity rejection (409) and a successful eviction. *)
Theorem reservation_given_back rd physical first carried ticket timeout st en trs
    sid m others others' op1 op2 evict c :
  let acq cls := acquire rd physical first carried ticket timeout st en trs
                   (Args sid (m * mib) (m * mib) cls false None) in
  let a cls := Args sid (m * mib) (m * mib) cls false None in
  0 <= m → absent ticket c → ledger_ok (demand c) →
  (∀ cls, waited (a cls) c = true → (∀ n, bystander (a cls) (absent ticket) (p_gap first n))) →
  (∀ cls, Forall (turn_spares (a cls) ticket) trs) →
  (∀ cls, bystander (a cls) (λ _, True) others ∧ bystander (a cls) (λ _, True) others' ∧
          sparing (a cls) evict) →
  0 <= default 0 (reservations (bookkeeping c) !! sid) → reservations (bookkeeping c) !! sid ≠ Some 0 →
  os_managed_lifecycle (cfg c) = false →
  (∀ r c', waited (a "restore") c = true →
     restore sid m (acq "restore") others others' op1 op2 evict c = Some (r, c') →
     ledger_ok (demand c') ∧ own (a "restore") c' = own (a "restore") c ∧
     (∀ q w, r = Ok (q, w) → op1 = Ok q ∨
        op2 = Ok q ∧ ∃ e c1 c2, op1 = Raise e ∧ status_code e = Some 409 ∧ evict c1 = (Ok true, c2))) ∧
  (∀ r c', waited (a "create") c = true →
     materialize sid m (acq "create") others op1 c = Some (r, c') →
     ledger_ok (demand c') ∧ own (a "create") c' = own (a "create") c ∧
     (∀ q w, r = Ok (q, w) → op1 = Ok q)).
Proof.
  intros acq a Hm Hc Hl Hf Hts Hev Hres Hne Hos.
  assert (Hamt : 0 <= m * mib) by (unfold mib; lia).
  assert (Hacq : ∀ cls r c1, cls = "restore" ∨ cls = "create" → waited (a cls) c = true →
    acq cls c = Some (r, c1) → ledger_ok (demand c1) ∧ waited (a cls) c1 = true ∧
    match r with Raise _ => own (a cls) c1 = own (a cls) c
               | Ok _ => booked_from (a cls) (own (a cls) c) c1 end).
  { intros cls r c1 Hcls Hw E.
    destruct (acquire_books _ _ _ _ _ _ _ _ _ (a cls) _ _ _ Hc Hl Hw Hamt Hamt (Hf cls Hw) (Hts cls) E)
      as (H1 & H2 & H3). split_and!; [done..|]. destruct r as [w|]; [|done].
    destruct H3 as [(_ & [Hcr|[Hcr Hre]] & _)|[H3 _]]; [congruence| |done].
    by destruct Hcls as [-> | ->]. }
  assert (Hbal : ∀ {A} cls (body : M coordinator A) r c',
    cls = "restore" ∨ cls = "create" → waited (a cls) c = true → sparing (a cls) body →
    reserved (acq cls) body (release sid m cls None) c = Some (r, c') →
    ledger_ok (demand c') ∧ own (a cls) c' = own (a cls) c ∧
    (∀ x, r = Ok x → ∃ w c1 c2, acq cls c = Some (Ok w, c1) ∧ body c1 = (Ok x.1, c2) ∧ w = x.2)).
  { intros A cls body r c' Hcls Hw Hb E.
    refine (reserved_balanced (acq cls) body sid m cls None c r c' _ Hw _ _ Hb Hres Hne E).
    - by destruct Hcls as [-> | ->].
    - intros w c1 Ea. by destruct (Hacq cls _ _ Hcls Hw Ea) as (? & ? & ?).
    - intros e c1 Ea. by destruct (Hacq cls _ _ Hcls Hw Ea) as (? & ? & ?). }
  split.
  - intros r c' Hw E. destruct (Hev "restore") as (Ho & Ho' & He).
    destruct (Hbal _ "restore" _ r c' (or_introl eq_refl) Hw (λ v, preserves_except _ _ _
      (sparing_restore_service _ _ op1 Ho v) (sparing_retry _ _ op2 evict Ho' He v)) E) as (H1 & H2 & H3).
    split_and!; [done..|]. intros q w ->. destruct (H3 _ eq_refl) as (w' & c1 & c2 & _ & Hb & _).
    by eapply restore_body_result.
  - intros r c' Hw E. destruct (Hev "create") as (Ho & _ & _).
    destruct (Hbal _ "create" _ r c' (or_intror eq_refl) Hw (sparing_service _ _ op1 Ho) E) as (H1 & H2 & H3).
    split_and!; [done..|]. intros q w ->. destruct (H3 _ eq_refl) as (w' & c1 & c2 & _ & Hb & _).
    unfold service, mbind, M_bind, modify, lift in Hb. by injection Hb.
Qed.

(** ** The deadline *)

(** The queue-head loop settles when others leave the queue's order alone
    during one of its passes. *)
Definition steady (tr : turn) : Prop :=
  ∃ e es, t_heads tr = e :: es ∧ ∀ n c, waiters (adm (p_gap e n c)) = waiters (adm c).

Lemma creation_fits_waiters e o r c :
  (∀ n c, waiters (adm (p_gap e n c)) = waiters (adm c)) →
  waiters (adm (creation_fits e o r c).2) = waiters (adm c).
Proof.
  intros He. apply (preserves_bind (λ c', waiters (adm c') = waiters (adm c))); [auto with clawbox| |done].
  intros c1. destruct (_ && _); [auto with clawbox|].
  apply preserves_bind; [|intros; auto with clawbox]. apply keep_pressure.
  - intros c2 c3 E1 _ _ _ _ E. congruence.
  - intros n c2 E. by rewrite He.
Qed.

Lemma head_settles tr o c r c' :
  steady tr → queue_ok (adm c) → admission_head (t_heads tr) o c = (Ok r, c') → r ≠ None.
Proof.
  intros (e & es & -> & He) Hq E. cbn [admission_head] in E.
  unfold mbind at 1, M_bind at 1, get, mbind at 1, M_bind at 1 in E.
  assert (Hreq : ∀ t, t ∈ waiters (adm c) → is_Some (waiter_requests (adm c) !! t))
    by (intros t Ht; by apply (q_requests _ Hq)).
  rewrite (scan_spec e o _ _ None c Hreq) in E by done. simpl front in E.
  fold (runnable c) (runnable_progress c) in E. unfold mret, M_ret in E.
  destruct (head (runnable_progress c)) as [p|] eqn:Ep; [|by simplify_eq/=].
  destruct (head (runnable c)) as [f|] eqn:Ef.
  2: { exfalso. apply (progress_sublist (demand c) (adm c) (waiters (adm c))); [|done].
       fold (runnable_progress c). by rewrite Ep. }
  simpl in E. destruct (Hreq f) as [old Er]; [by apply head_in_queue|]. rewrite Er in E. simpl in E.
  destruct (_ && _); [|by simplify_eq/=].
  pose proof (creation_fits_waiters e o old c He) as Hw.
  unfold mbind, M_bind, get in E. destruct (creation_fits e o old c) as [[fits|x] c1]; [|done].
  simpl in Hw. rewrite Hw, bool_decide_true in E by done. by simplify_eq/=.
Qed.

(** The relief of this round does not succeed. *)
Definition no_relief (tr : turn) : Prop := ∃ r, t_callback tr = Some r ∧ r ≠ Ok true.

Lemma attempt_late a ticket d tr y c r c' :
  no_relief tr → (d <= t_now tr)%Q → attempt a ticket (Some d) tr y c = (Ok r, c') →
  r = Granted ∨ r = Unsettled.
Proof.
  intros (rel & Hcb & Hrel) Hd E. unfold attempt in E.
  do 2 (apply bind_ok_inv in E as (? & ? & _ & E)).
  apply bind_ok_inv in E as ([h|] & ? & _ & E); [|injection E as <- _; by right].
  apply bind_ok_inv in E as ([can rs] & ? & _ & E).
  destruct (can && _); [injection E as <- _; by left|]. exfalso.
  do 5 (apply bind_ok_inv in E as (? & ? & _ & E)).
  apply bind_ok_inv in E as (relieved & ? & Er & E). destruct relieved.
  - destruct (_ && _); [|done]. unfold relieve_pressure in Er. rewrite Hcb in Er. congruence.
  - apply bind_ok_inv in E as (? & ? & Eq & _). unfold raise_if in Eq.
    destruct (Qle_bool_spec (d - t_now tr) 0); [done|lra].
Qed.

Lemma attempt_settles a ticket deadline tr y c c' :
  steady tr → queue_ok (adm c) → attempt a ticket deadline tr y c ≠ (Ok Unsettled, c').
Proof.
  intros Hs Hq E. unfold attempt in E.
  apply bind_ok_inv in E as (? & ? & E1 & E). injection E1 as <- <-.
  apply bind_ok_inv in E as (? & ? & E1 & E). unfold raise_if in E1.
  destruct (reclaim_error (reclaim c)); [done|]. injection E1 as _ <-.
  apply bind_ok_inv in E as ([h|] & ? & E1 & E); [|by eapply head_settles in E1].
  apply bind_ok_inv in E as ([can rs] & ? & _ & E). destruct (can && _); [done|].
  do 5 (apply bind_ok_inv in E as (? & ? & _ & E)).
  apply bind_ok_inv in E as ([|] & ? & _ & E); [done|].
  do 4 (apply bind_ok_inv in E as (? & ? & _ & E)). done.
Qed.

Lemma rounds_end rd a ticket d trs y c tr :
  Forall (turn_ok (queued ticket)) trs → Forall steady trs → queued ticket c →
  tr ∈ trs → no_relief tr → (d <= t_now tr)%Q →
  is_Some (rounds rd a ticket (Some d) trs y c).
Proof.
  intros Hts Hst Hc Hin Hno Hd. revert y c Hc.
  induction trs as [|tr' trs IH]; [by apply elem_of_nil in Hin|]. intros y c Hc.
  apply Forall_cons in Hts as [Ht Hts], Hst as [Hs Hst]. cbn [rounds].
  pose proof (keep_attempt (queued ticket) ticket) as Hk.
  specialize (Hk ltac:(intros c1 c2 E1 _ _ _ _ H; unfold queued; by rewrite E1)
    ltac:(intros rs c1; apply set_blockers_queued) ltac:(intros c1 _; apply clear_queued)
    (signal_queued ticket) a (Some d) tr' y Ht c Hc).
  destruct (attempt a ticket (Some d) tr' y c) as [[r|e] c1] eqn:E; [|done]. simpl in Hk.
  destruct r as [|y'|]; [done| |by destruct (attempt_settles a ticket (Some d) tr' y c c1 Hs (proj1 Hc))].
  apply elem_of_cons in Hin as [->|Hin]; [|by apply IH].
  by destruct (attempt_late a ticket d tr' y c (Again y') c1 Hno Hd E).
Qed.

(** A call with a timeout ends.  As soon as some round reads a clock past
    the deadline and its pressure relief does not succeed, the call has
    returned or raised, whatever the readings say, provided other threads keep
    the queue well formed and do not reorder it within a queue-head pass. *)
Theorem timeout_ends_call rd physical first carried ticket t st en trs a c tr :
  absent ticket c → gaps_keep (absent ticket) first →
  Forall (turn_ok (queued ticket)) trs → Forall steady trs →
  tr ∈ trs → no_relief tr → (st + t <= t_now tr)%Q →
  is_Some (acquire rd physical first carried ticket (Some t) st en trs a c).
Proof.
  intros Hc Hf Hts Hst Hin Hno Hd. unfold acquire. destruct (_ && is_create a); [done|].
  destruct (_ && negb _); [done|].
  assert (Hs : absent ticket (first_observations first carried a c).2).
  { unfold first_observations. destruct carried; [done|].
    apply (keep_snapshot (absent ticket)); [|done..].
    intros c1 c2 E1 _ _ _ _ H. unfold absent. by rewrite E1. }
  destruct (first_observations first carried a c) as [[o|e] c1]; [|done].
  unfold queued_acquire. simpl.
  destruct (rounds_end rd a ticket (st + t)%Q trs (Carry o None []) (enqueue a ticket st c1) tr Hts Hst)
    as [[[?|?] ?] ->]; try done. by apply enqueue_queued.
Qed.

(** ** Examples *)

Definition idle_vms : vm_ops :=
  VmOps (λ _, false) (λ _ _, Ok tt) (λ _, false) (Ok tt) (Ok tt) (λ _ _, Ok None).
Definition quiet_turn (now : Q) : turn :=
  Turn [quiet_probes] quiet_probes now now (Some (Ok false)) idle_vms (Ok tt) id now id quiet_probes.
(** The same round with memory exhausted. *)
Definition full_probes : probes :=
  Probes half_consumed 4096 (Ok tt) (Ok (4090 * mib, 8192 * mib)) (Ok (4090 * mib, 8192 * mib))
    (Ok (4090 * mib, 8192 * mib)) (Ok (4090 * mib, 8192 * mib)) (Kernel 0 0 ∅ None 0) (0%Q, 0%Q) ∅
    (λ _, true) (λ _ c, c).
Definition full_turn (now : Q) : turn :=
  Turn [full_probes] full_probes now now (Some (Ok false)) idle_vms (Ok tt) id now id full_probes.

Definition creation : args := Args "s9" (100 * mib) (100 * mib) "create" false None.
Definition create_call (trs : list turn) (first : probes) : option (outcome Q * coordinator) :=
  acquire half_consumed (Ok (0, 0)) first None 9%nat (Some 5%Q) 0 1 trs creation demo.

Lemma demo_absent t : absent t demo.
Proof.
  split; [|by apply not_elem_of_nil]. split; simpl; try (intros *; rewrite ?lookup_empty; set_solver).
  constructor.
Qed.

Lemma demo_ledger_ok : ledger_ok (demand demo).
Proof. by apply (ledger_init_ok (4096 * mib) (512 * mib) 0 false (8 # 10)). Qed.

Lemma id_bystander a P : bystander a P (λ c, c).
Proof. by intros c. Qed.

Lemma quiet_turn_spares a t now : turn_spares a t (quiet_turn now).
Proof.
  split; [|intros; apply id_bystander..].
  constructor; [intros n; apply id_bystander|constructor].
Qed.

Lemma full_turn_ok t now : turn_ok (queued t) (full_turn now).
Proof. split; [|by intros ?..]. constructor; [by intros ? ?|constructor]. Qed.

Lemma full_steady now : steady (full_turn now).
Proof. by exists full_probes, []. Qed.

Lemma timeout_ends_call_witness : is_Some (create_call [full_turn 1; full_turn 7] full_probes).
Proof.
  apply (timeout_ends_call half_consumed (Ok (0, 0)) full_probes None 9%nat 5 0 1
           [full_turn 1; full_turn 7] creation demo (full_turn 7)).
  - apply demo_absent.
  - by intros n c.
  - repeat (constructor; [apply full_turn_ok|]). constructor.
  - repeat (constructor; [apply full_steady|]). constructor.
  - right. left.
  - by exists (Ok false).
  - vm_compute. discriminate.
Defined.

Lemma acquire_leaves_queue_witness :
  absent 9%nat (from_option snd demo (create_call [full_turn 1; full_turn 7] full_probes)) ∧
  fst <$> create_call [full_turn 1; full_turn 7] full_probes =
    Some (Raise (AdmissionTimeout "memory admission timed out")).
Proof.
  split; [|vm_compute; reflexivity].
  destruct (create_call [full_turn 1; full_turn 7] full_probes) as [[r c']|] eqn:E; [|apply demo_absent].
  eapply (acquire_leaves_queue half_consumed (Ok (0, 0)) full_probes None 9%nat (Some 5%Q) 0 1
           [full_turn 1; full_turn 7] creation demo r c').
  - apply demo_absent.
  - by intros n c.
  - repeat (constructor; [apply full_turn_ok|]). constructor.
  - exact E.
Defined.

Lemma acquire_books_once_witness :
  let c' := from_option snd demo (create_call [quiet_turn 1] quiet_probes) in
  (own creation c').1 = (Some (100 * mib), None) ∧ ledger_ok (demand c').
Proof.
  destruct (create_call [quiet_turn 1] quiet_probes) as [[r c']|] eqn:E;
    [|vm_compute in E; discriminate].
  destruct (acquire_books_once half_consumed (Ok (0, 0)) quiet_probes None 9%nat (Some 5%Q) 0 1
              [quiet_turn 1] creation demo r c') as [H1 H2].
  - apply demo_absent.
  - apply demo_ledger_ok.
  - reflexivity.
  - vm_compute. discriminate.
  - vm_compute. discriminate.
  - intros n. apply id_bystander.
  - constructor; [apply quiet_turn_spares|constructor].
  - exact E.
  - split; [|exact H1]. vm_compute in E. injection E as <- <-. vm_compute. reflexivity.
Defined.

Lemma admitted_after_check_witness :
  ∃ h c2 q, (admission_head [quiet_probes] no_observations
      (enqueue creation 9%nat 0 demo)).1 = Ok (Some h) ∧
    ∃ c1, pressure_reasons quiet_probes q no_observations c2 = (Ok [], c1).
Proof.
  destruct (attempt creation 9%nat None (quiet_turn 1) (Carry no_observations None [])
              (enqueue creation 9%nat 0 demo)) as [r c1] eqn:E.
  destruct (admitted_after_check creation 9%nat None (quiet_turn 1) (Carry no_observations None [])
              (enqueue creation 9%nat 0 demo) c1) as (h & c2 & q & H1 & H2 & _).
  - rewrite E. f_equal. vm_compute in E. by injection E.
  - exists h, c2, q. split; [exact H1|]. by exists c1.
Defined.

Definition rejected : outcome Q := Raise (HTTPException 409 "no capacity").
Definition restoration : option (outcome (Q * Q) * coordinator) :=
  restore "s9" 100 (acquire half_consumed (Ok (0, 0)) quiet_probes None 9%nat (Some 5%Q) 0 1 [quiet_turn 1]
                      (Args "s9" (100 * mib) (100 * mib) "restore" false None))
    id id rejected (Ok 3%Q) (mret true) demo.

Lemma reservation_given_back_witness :
  own (Args "s9" (100 * mib) (100 * mib) "restore" false None) (from_option snd demo restoration) =
    (None, None, None) ∧
  fst <$> restoration = Some (Ok (3, 1 - 0)%Q).
Proof.
  split; [|vm_compute; reflexivity].
  destruct restoration as [[r c']|] eqn:E; [|reflexivity].
  destruct (reservation_given_back half_consumed (Ok (0, 0)) quiet_probes None 9%nat (Some 5%Q) 0 1
              [quiet_turn 1] "s9" 100 id id rejected (Ok 3%Q) (mret true) demo) as [H _].
  - discriminate.
  - apply demo_absent.
  - apply demo_ledger_ok.
  - intros cls _ n. apply id_bystander.
  - intros cls. constructor; [apply quiet_turn_spares|constructor].
  - intros cls. split_and!; [apply id_bystander..|]. by intros v c.
  - discriminate.
  - discriminate.
  - reflexivity.
  - by destruct (H r c' eq_refl E) as (_ & H2 & _).
Defined.

(** [acquire_capacity] also books a demand claim, which [release_capacity]
    leaves behind. *)
Example capacity_claim_survives :
  match acquire half_consumed (Ok (0, 0)) quiet_probes None 9%nat (Some 5%Q) 0 1 [quiet_turn 1]
          (capacity_args "s9" 100) demo with
  | Some (Ok _, c1) =>
      (release_capacity "s9" 100 c1).1 = Ok tt ∧
      c_amount <$> claims (demand (release_capacity "s9" 100 c1).2) !! ("s9", "tool_admission") =
        Some (100 * mib)
  | _ => False
  end.
Proof. vm_compute. done. Qed.
