(* ===== verification/NumaBorrow.v ===== *)
(** * Live borrowing of shared NUMA memory (src/clawbox/experiments/numa_borrow.py)

    [SandboxNumaBorrower] moves a microVM's allocation to the shared NUMA node
    and back.  Capacity is reserved in the shared pool before the rebind and
    given back only with physical evidence.  The kernel's answers (cgroup
    files, the rebind helper, /proc) are outcomes in the environment record of
    each operation; the shared pool is used through the interface [BorrowPool],
    which the WARM snapshot pool implements. *)
From S2P Require Import Prelude Dict PyStrings SnapshotPool Placement.
From Stdlib Require Import Ascii.

(** ** The shared pool as the borrower sees it *)

Class BorrowPool (P : Type) := {
  bp_reserve : string → Z → M P unit;
  bp_release : string → M P Z;
  bp_observe : Z → option string → M P Z;
  bp_held : P → string → option Z;
  bp_ok : P → Prop;
}.

Class BorrowLaws (P : Type) `{BorrowPool P} : Prop := {
  reserve_law : ∀ i b p, bp_ok p →
    bp_ok (bp_reserve i b p).2 ∧
    (bp_reserve i b p).1 = Ok tt ∧ bp_held p i = None ∧
      (∀ j, bp_held (bp_reserve i b p).2 j = if decide (j = i) then Some b else bp_held p j) ∨
    bp_ok (bp_reserve i b p).2 ∧ is_ok (bp_reserve i b p).1 = false ∧
      (∀ j, bp_held (bp_reserve i b p).2 j = bp_held p j);
  release_law : ∀ i p, bp_ok p →
    bp_ok (bp_release i p).2 ∧
    (is_ok (bp_release i p).1 = true ↔ is_Some (bp_held p i)) ∧
    (∀ j, bp_held (bp_release i p).2 j = if decide (j = i) then None else bp_held p j);
  observe_law : ∀ n w p, bp_ok p →
    bp_ok (bp_observe n w p).2 ∧ ∀ j, bp_held (bp_observe n w p).2 j = bp_held p j;
}.

#[export] Instance warm_pool (c : SnapshotPool.config) : BorrowPool SnapshotPool.pool := {
  bp_reserve := reserve_borrow c;
  bp_release := release_borrow;
  bp_observe := observe_shared_live c;
  bp_held p i := borrow_reservations p !! i;
  bp_ok := pool_ok c;
}.

#[export] Instance warm_pool_laws (c : SnapshotPool.config) :
  @BorrowLaws SnapshotPool.pool (warm_pool c).
Proof.
  split; simpl.
  - intros i b p Hp. destruct (keeps_reserve_borrow c i b p Hp) as (H1 & H2 & _). revert H1 H2.
    unfold reserve_borrow. unfold mbind, M_bind, raise_if, raise, mret, M_ret, get, put.
    destruct (bool_decide (i = "")); [by right|]. destruct (b <=? 0); [by right|].
    destruct (bool_decide (is_Some (borrow_reservations p !! i))) eqn:Ei; [by right|].
    destruct (borrow_capacity_bytes c <? _); [by right|].
    destruct (capacity_bytes c <? _); [by right|].
    unfold assert_capacity, mbind, M_bind, get, raise_if, raise, mret, M_ret.
    destruct (_ && _); [by intros _ ?|]. intros H1 _. left. split_and!; [done..| |].
    + by apply bool_decide_eq_false, eq_None_not_Some in Ei.
    + intros j. simpl. destruct (decide (j = i)) as [->|]; [apply dict_lookup_insert_eq|].
      by apply dict_lookup_insert_ne.
  - intros i p Hp. destruct (keeps_release_borrow c i p Hp) as (H1 & _ & _). revert H1.
    unfold release_borrow, mbind, M_bind, raise, mret, M_ret, get, put.
    destruct (borrow_reservations p !! i) as [b|] eqn:Ei; intros H1; split_and!; simpl; try done.
    + intros j. destruct (decide (j = i)) as [->|]; [apply dict_lookup_delete_eq, Hp|].
      by apply dict_lookup_delete_ne.
    + intros j. by destruct (decide (j = i)) as [->|].
  - intros n w p Hp. destruct (observe_ok c n w p Hp) as (H1 & _ & _). split; [done|]. intros j.
    unfold observe_shared_live, mbind, M_bind, raise_if, raise, mret, M_ret, get, modify.
    by destruct (n <? 0).
Qed.

(** ** Reading a cgroup *)

Definition path := string.

(** The files of a cgroup at one moment; [memory.current] is read twice. *)
Record files := Files {
  numa_stat : outcome string;
  current : outcome string;
  current_again : outcome string;
  mems : outcome string;
  mems_effective : outcome string;
  cpus_effective : outcome string;
}.

Definition primary : list string :=
  ["inactive_anon"; "active_anon"; "inactive_file"; "active_file"; "unevictable"].
Definition anon_rows : list string := ["inactive_anon"; "active_anon"].

(** The [N<node>=<bytes>] fields of a row. *)
Fixpoint parse_fields (fields : list string) (values : gmap Z Z) : outcome (gmap Z Z) :=
  match fields with
  | [] => Ok values
  | field :: fields' =>
      let '(node, separator, raw) := partition "="%char field in
      if separator && starts_with "N"%char node then
        n ← int (tail node);
        b ← int raw;
        parse_fields fields' (<[n := b]> values)
      else parse_fields fields' values
  end.

Fixpoint parse_rows (wanted : list string) (ls : list string) (rows : gmap string (gmap Z Z))
    : outcome (gmap string (gmap Z Z)) :=
  match ls with
  | [] => Ok rows
  | line :: ls' =>
      match words line with
      | name :: fields =>
          if bool_decide (name ∈ wanted) then
            values ← parse_fields fields ∅;
            parse_rows wanted ls' (<[name := values]> rows)
          else parse_rows wanted ls' rows
      | [] => parse_rows wanted ls' rows
      end
  end.

Definition node_total (wanted : list string) (rows : gmap string (gmap Z Z)) (n : Z) : Z :=
  zsum ((λ name, default 0 (default ∅ (rows !! name) !! n)) <$> wanted).

(** Resident bytes per node over the wanted rows. *)
Definition residents (wanted : list string) (rows : gmap string (gmap Z Z)) : gmap Z Z :=
  let nodes : gset Z := map_fold (λ _ values acc, dom values ∪ acc) ∅ rows in
  set_to_map (λ n, (n, node_total wanted rows n)) nodes.

(** [read_numa_lru_observation] *)
Definition read_numa_lru_observation (f : files) : outcome (gmap Z Z * Z * Z) :=
  text ← numa_stat f;
  rows ← parse_rows primary (lines text) ∅;
  let resident := residents primary rows in
  current_text ← current f;
  charged ← int (strip current_text);
  Ok (resident, Z.max 0 (charged - msum (λ _ v, v) resident), charged).

(** [read_numa_lru_bytes] *)
Definition read_numa_lru_bytes (f : files) : outcome (gmap Z Z * Z) :=
  '(resident, unattributed, _) ← read_numa_lru_observation f;
  Ok (resident, unattributed).

(** [read_numa_anon_bytes] *)
Definition read_numa_anon_bytes (f : files) : outcome (gmap Z Z) :=
  text ← numa_stat f;
  rows ← parse_rows anon_rows (lines text) ∅;
  Ok (residents anon_rows rows).

(** [NumaResidencyObservation], identifiers and clock apart. *)
Record observation := Observation {
  effective_mems : string;
  local_bytes : Z;
  shared_bytes : Z;
  other_numa_bytes : Z;
  unattributed_bytes : Z;
  charged_bytes : Z;
  reserved_bytes : Z;
}.

Record nodes := Nodes {
  local_node : Z;
  shared_node : Z;
  wanted_cpus : option string;
  cleanup_timeout : Q;
}.

Section borrower.
Context (cfg : nodes).

(** [_observe_leaf] *)
Definition observe_leaf (reserved : Z) (f : files) : outcome observation :=
  '(resident, unattributed) ← read_numa_lru_bytes f;
  text ← current_again f;
  charged ← int (strip text);
  effective ← mems_effective f;
  Ok (Observation (strip effective)
        (default 0 (resident !! local_node cfg) + unattributed)
        (default 0 (resident !! shared_node cfg))
        (msum (λ n v, if decide (n = local_node cfg ∨ n = shared_node cfg) then 0 else v) resident)
        unattributed charged reserved).

(** [_usage] and [_shared_usage] *)
Definition usage (f : files) : outcome (Z * Z) :=
  o ← observe_leaf 0 f; Ok (local_bytes o, shared_bytes o).
Definition shared_usage (f : files) : outcome Z :=
  '(resident, _) ← read_numa_lru_bytes f; Ok (default 0 (resident !! shared_node cfg)).

(** [_verify_cpus] *)
Definition verify_cpus (f : files) : outcome unit :=
  match wanted_cpus cfg with
  | None => Ok tt
  | Some cpus =>
      effective ← cpus_effective f;
      wanted ← parse_cpu_list cpus;
      given ← parse_cpu_list (strip effective);
      if bool_decide (wanted ⊆ given) then Ok tt
      else Raise (RuntimeError "VM cgroup excludes requested CPUs")
  end.

Definition on_node (n : Z) (text : string) : bool := bool_decide (strip text = str n).

(** ** State *)

(** [_BorrowedAllocation] *)
Record allocation := Allocation {
  al_leaf : path;
  al_capacity : Z;
  al_baseline : Z;          (** parent shared bytes before the borrow *)
}.

Context {P : Type} `{BorrowPool P}.

Record borrower := Borrower {
  shared_pool : P;
  borrowed : gmap string allocation;
  leaf_cache : gmap string (path * path);
  verified_leaves : gmap string path;
  initially_placed : gset string;
}.

Definition with_pool (p : P) (s : borrower) : borrower :=
  Borrower p (borrowed s) (leaf_cache s) (verified_leaves s) (initially_placed s).
Definition with_borrowed (b : gmap string allocation) (s : borrower) : borrower :=
  Borrower (shared_pool s) b (leaf_cache s) (verified_leaves s) (initially_placed s).
Definition with_leaves (c : gmap string (path * path)) (v : gmap string path) (s : borrower) : borrower :=
  Borrower (shared_pool s) (borrowed s) c v (initially_placed s).
Definition with_placed (p : gset string) (s : borrower) : borrower :=
  Borrower (shared_pool s) (borrowed s) (leaf_cache s) (verified_leaves s) p.

(** [__init__] *)
Definition borrower_init (p : P) : outcome borrower :=
  if local_node cfg =? shared_node cfg
  then Raise (ValueError "LOCAL and shared NUMA nodes must differ")
  else if Qltb (cleanup_timeout cfg) 0
  then Raise (ValueError "cleanup_timeout_seconds must be non-negative")
  else Ok (Borrower p ∅ ∅ ∅ ∅).

Definition on_pool {A} (m : M P A) : M borrower A := λ s,
  let '(r, p) := m (shared_pool s) in (r, with_pool p s).

(** [self._borrowed.pop(sandbox_id)] *)
Definition pop_borrowed (id : string) : M borrower unit :=
  s ← get;
  match borrowed s !! id with
  | Some _ => put (with_borrowed (delete id (borrowed s)) s)
  | None => raise (KeyError id)
  end.

(** ** The VM's cgroup *)

(** One entry of /proc: whether its command line names the sandbox, and the
    leaf its cgroup file resolves to ([None] for a missing 0:: line), with the
    checks made on that leaf. *)
Record proc_entry := ProcEntry {
  pe_names : outcome bool;
  pe_leaf : outcome (option path);
  pe_inside : bool;
  pe_writable : bool;
  pe_witness : path;
}.

Record leaf_env := LeafEnv {
  le_verified_valid : bool;   (** the verified leaf is inside the domain and exists *)
  le_cached_valid : bool;     (** its witness still runs the sandbox in that leaf *)
  le_procs : list proc_entry;
}.

(** Processes may vanish while they are read. *)
Definition vanished (e : exn) : bool :=
  match e with OSError n => bool_decide (n ∈ ["ENOENT"; "EACCES"; "ESRCH"]) | _ => false end.

Definition scan_entry (e : proc_entry) : outcome (option (path * path)) :=
  let r :=
    names ← pe_names e;
    if names : bool then
      leaf ← pe_leaf e;
      match leaf with
      | None => Ok None
      | Some l =>
          if negb (pe_inside e) then Raise (ValueError "not in the subpath")
          else if negb (pe_writable e)
          then Raise (RuntimeError "VM process is not in a writable leaf cpuset")
          else Ok (Some (l, pe_witness e))
      end
    else Ok None in
  match r with
  | Raise x => if vanished x then Ok None else Raise x
  | Ok x => Ok x
  end.

Fixpoint scan_procs (es : list proc_entry) (found : gmap path path) : outcome (gmap path path) :=
  match es with
  | [] => Ok found
  | e :: es' =>
      r ← scan_entry e;
      scan_procs es' (match r with Some (l, w) => <[l := w]> found | None => found end)
  end.

(** [_leaf_for] *)
Definition leaf_for (id : string) (v : leaf_env) : M borrower path :=
  s ← get;
  match verified_leaves s !! id with
  | Some l =>
      if le_verified_valid v then mret (Some l)
      else put (with_leaves (leaf_cache s) (delete id (verified_leaves s)) s) ;; mret None
  | None => mret None
  end ≫= λ verified,
  match verified with
  | Some l => mret l
  | None =>
      s ← get;
      match leaf_cache s !! id with
      | Some (l, _) =>
          if le_cached_valid v then mret (Some l)
          else put (with_leaves (delete id (leaf_cache s)) (verified_leaves s) s) ;; mret None
      | None => mret None
      end ≫= λ cached,
      match cached with
      | Some l => mret l
      | None =>
          found ← lift (scan_procs (le_procs v) ∅);
          match map_to_list found with
          | [(l, w)] =>
              modify (λ s, with_leaves (<[id := (l, w)]> (leaf_cache s)) (verified_leaves s) s) ;;
              mret l
          | _ => raise (RuntimeError "expected one cgroup for sandbox")
          end
      end
  end.

(** ** Moving a VM *)

Record move_env := MoveEnv {
  me_leaf : leaf_env;
  me_before : files;
  me_parent_before : files;
  me_others : P → P;              (** the pool while the rebind runs *)
  me_slot : outcome unit;         (** the transfer slot *)
  me_write : outcome unit;        (** the rebind *)
  me_effective : outcome string;
  me_undone : outcome string;     (** the effective node after the rollback write *)
  me_undo_files : files;
  me_after : files;
  me_parent_after : files;
}.

(** Reserving capacity and recording its owner before the rebind. *)
Definition claim_capacity (id : string) (capacity : Z) (leaf : path) (before : observation)
    (parent : files) : M borrower bool :=
  s ← get;
  match borrowed s !! id with
  | Some existing =>
      raise_if (negb (bool_decide (effective_mems before = str (local_node cfg))))
        (RuntimeError "sandbox is already using shared memory") ;;
      raise_if (negb (al_capacity existing =? capacity) || negb (bool_decide (al_leaf existing = leaf)))
        (RuntimeError "retained borrow reservation does not match the VM") ;;
      mret true
  | None =>
      parent_shared ← lift (shared_usage parent);
      on_pool (bp_reserve id capacity) ;;
      modify (λ s, with_borrowed (<[id := Allocation leaf capacity parent_shared]> (borrowed s)) s) ;;
      mret false
  end.

(** The rebind itself. *)
Definition rebind (v : move_env) (target : Z) : M borrower unit :=
  lift (me_slot v) ;;
  modify (λ s, with_pool (me_others v (shared_pool s)) s) ;;
  lift (me_write v) ;;
  effective ← lift (me_effective v);
  raise_if (negb (on_node target effective)) (RuntimeError "VM cpuset rebind did not take effect").

(** [rollback_safe] *)
Definition rollback_safe (e : exn) : bool :=
  match e with NumaRebindIncomplete => false | _ => true end.

(** Giving a reservation back when no shared page is left. *)
Definition release_if_empty (id : string) (f : files) : M borrower unit :=
  u ← lift (usage f);
  if u.2 =? 0 then on_pool (bp_release id) ;; pop_borrowed id else mret tt.

(** The [except] clause: undo the allocation policy after a failed borrow. *)
Definition undo {A} (id : string) (reserve : bool) (v : move_env) (e : exn) : M borrower A :=
  verified ← (if reserve && rollback_safe e then
                match me_undone v with
                | Ok local =>
                    if on_node (local_node cfg) local then
                      try_except (release_if_empty id (me_undo_files v)) (λ _, mret tt) ;; mret true
                    else mret false
                | Raise _ => mret false
                end
              else mret false);
  raise (match e with
         | NumaRebindTimeout => if verified : bool then NumaBorrowUnavailable else e
         | _ => e
         end).

(** What [NumaBorrowRecord] says of the move's effect. *)
Inductive effect :=
  | PolicyChangedWithGrowth | PolicyChangedNoGrowth | LocalRestoredReleased | LocalRestoredResidual.

Record move_record := MoveRecord {
  mr_reserved : Z;
  mr_source : Z;
  mr_target : Z;
  mr_before : observation;
  mr_after : observation;
  mr_released : bool;
  mr_reused : bool;
  mr_local_relief : Z;
  mr_local_growth : Z;
  mr_shared_growth : Z;
  mr_shared_reclaimed : Z;
  mr_effect : effect;
}.

Definition record_of (capacity target : Z) (reserve released reused : bool)
    (before after : observation) : move_record :=
  MoveRecord capacity (if reserve then local_node cfg else shared_node cfg) target before after
    released reused
    (Z.max 0 (local_bytes before - local_bytes after))
    (Z.max 0 (local_bytes after - local_bytes before))
    (Z.max 0 (shared_bytes after - shared_bytes before))
    (Z.max 0 (shared_bytes before - shared_bytes after))
    (if reserve then
       if shared_bytes before <? shared_bytes after then PolicyChangedWithGrowth else PolicyChangedNoGrowth
     else if released then LocalRestoredReleased else LocalRestoredResidual).

(** [_move_serialized] *)
Definition move_serialized (id : string) (capacity target : Z) (reserve : bool) (v : move_env)
    : M borrower move_record :=
  raise_if (capacity <=? 0) (ValueError "capacity_bytes must be positive") ;;
  leaf ← leaf_for id (me_leaf v);
  before ← lift (observe_leaf capacity (me_before v));
  lift (verify_cpus (me_before v)) ;;
  reused ← (if reserve then claim_capacity id capacity leaf before (me_parent_before v) else mret false);
  try_except (rebind v target) (undo id reserve v) ;;
  after ← lift (observe_leaf capacity (me_after v));
  let released := negb reserve && (shared_bytes after =? 0) in
  (if released then on_pool (bp_release id) ;; mret tt else mret tt) ;;
  live ← lift (shared_usage (me_parent_after v));
  on_pool (bp_observe live (if reserve then Some id else None)) ;;
  mret (record_of capacity target reserve released reused before after).

(** [borrow]: [idle] when no other migration holds the rebind lock. *)
Definition borrow (idle : bool) (id : string) (capacity : Z) (v : move_env) : M borrower move_record :=
  raise_if (negb idle) NumaBorrowUnavailable ;;
  move_serialized id capacity (shared_node cfg) true v.

(** [return_local] *)
Definition return_local (id : string) (v : move_env) : M borrower move_record :=
  s ← get;
  match borrowed s !! id with
  | None => raise (RuntimeError "sandbox is not using shared memory")
  | Some a =>
      r ← move_serialized id (al_capacity a) (local_node cfg) false v;
      (if mr_released r then pop_borrowed id else mret tt) ;;
      mret r
  end.

(** ** Pinning after a create or restore *)

Definition placement_sample_min_bytes : Z := 8 * 1024 * 1024.

Record pin_env := PinEnv {
  pn_verified : option (path * bool * bool);   (** the given cgroup: inside, writable *)
  pn_leaf : leaf_env;
  pn_files : files;
  pn_write : outcome unit;
  pn_effective : outcome string;               (** read again after that write *)
  pn_given : option (gmap Z Z);                (** anonymous residency already verified *)
  pn_residency : files;
  pn_usage : files;
}.

(** A large enough anonymous sample of which at most half is local. *)
Definition misplaced (anon : gmap Z Z) : bool :=
  let attributed := msum (λ _ v, v) anon in
  (placement_sample_min_bytes <=? attributed) &&
  (default 0 (anon !! local_node cfg) * 2 <=? attributed).

(** The retained allocation, moved to the leaf the VM now runs in. *)
Definition relocate (id : string) (leaf : path) : M borrower (option allocation) :=
  s ← get;
  match borrowed s !! id with
  | Some a =>
      if bool_decide (al_leaf a = leaf) then mret (Some a)
      else put (with_borrowed (<[id := Allocation leaf (al_capacity a) (al_baseline a)]> (borrowed s)) s) ;;
           mret (Some a)
  | None => mret None
  end.

(** [_pin_local]: the anonymous residency it judged by. *)
Definition pin_local (id : string) (v : pin_env) : M borrower (gmap Z Z) :=
  match pn_verified v with
  | Some (leaf, inside, writable) =>
      raise_if (negb inside) (RuntimeError "verified VM cgroup is outside the configured domain") ;;
      raise_if (negb writable) (RuntimeError "verified VM cgroup is not a writable leaf cpuset") ;;
      modify (λ s, with_leaves (leaf_cache s) (<[id := leaf]> (verified_leaves s)) s)
  | None => mret tt
  end ;;
  leaf ← leaf_for id (pn_leaf v);
  retained ← relocate id leaf;
  lift (verify_cpus (pn_files v)) ;;
  configured ← lift (mems (pn_files v));
  (if bool_decide (is_Some retained) && on_node (shared_node cfg) configured
   then lift (pn_write v) else mret tt) ;;
  lift (pn_effective v) ;;
  anon ← match pn_given v with
         | Some anon => mret anon
         | None => lift (read_numa_lru_bytes (pn_residency v)) ;; lift (read_numa_anon_bytes (pn_residency v))
         end;
  s ← get;
  raise_if (bool_decide (id ∉ initially_placed s) && misplaced anon)
    (RuntimeError "VM native LOCAL placement did not take effect") ;;
  modify (λ s, with_placed ({[id]} ∪ initially_placed s) s) ;;
  (if bool_decide (is_Some retained) then release_if_empty id (pn_usage v) else mret tt) ;;
  lift (if bool_decide (is_Some (wanted_cpus cfg)) then (_ ← cpus_effective (pn_files v); Ok tt) else Ok tt) ;;
  mret anon.

(** ** After destruction *)

Record destroy_env := DestroyEnv {
  ds_exists : bool;
  ds_events : outcome string;
  ds_reclaimable : bool;          (** memory.reclaim exists *)
  ds_reclaim_usage : files;
  ds_reclaim : outcome unit;
  ds_usage : files;
  ds_parent : files;
  ds_now : Q;                     (** the clock after a failed attempt *)
}.

(** [dict(line.split() for line in ...)] *)
Fixpoint parse_events (ls : list string) (d : gmap string string) : outcome (gmap string string) :=
  match ls with
  | [] => Ok d
  | line :: ls' =>
      match words line with
      | [k; v] => parse_events ls' (<[k := v]> d)
      | _ => Raise (ValueError "dictionary update sequence element")
      end
  end.

Definition swallowed (e : exn) : bool :=
  match e with
  | OSError _ | TimeoutError _ | RuntimeError _ | ValueError _ | NumaRebindTimeout | NumaRebindIncomplete
  | NumaBorrowUnavailable | WarmCapacityError _ => true
  | _ => false
  end.

(** The best-effort reclamation of an empty cgroup. *)
Definition reclaim_shared (v : destroy_env) : outcome unit :=
  match (u ← usage (ds_reclaim_usage v); if u.2 =? 0 then Ok tt else ds_reclaim v) with
  | Raise e => if swallowed e then Ok tt else Raise e
  | Ok x => Ok x
  end.

(** What shows that a destroyed VM holds no shared page. *)
Definition gone (a : allocation) (v : destroy_env) : outcome unit :=
  if ds_exists v then
    text ← ds_events v;
    events ← parse_events (lines text) ∅;
    let empty := bool_decide (events !! "populated" = Some "0") in
    (if empty && ds_reclaimable v then reclaim_shared v else Ok tt) ≫= λ _,
    shared ← (if empty then u ← usage (ds_usage v); Ok (u.2) else Ok 1);
    if shared =? 0 then Ok tt
    else Raise (RuntimeError "shared reservation retained: VM still has processes or shared pages")
  else
    parent ← shared_usage (ds_parent v);
    if al_baseline a <? parent
    then Raise (RuntimeError "shared reservation retained: removed VM cgroup has no residency evidence")
    else Ok tt.

(** One pass of [release_destroyed]. *)
Definition release_once (id : string) (v : destroy_env) : M borrower unit :=
  s ← get;
  match borrowed s !! id with
  | None => mret tt
  | Some a =>
      lift (gone a v) ;;
      on_pool (bp_release id) ;;
      pop_borrowed id
  end.

Definition retried (e : exn) : bool :=
  match e with
  | RuntimeError _ | NumaRebindTimeout | NumaRebindIncomplete | NumaBorrowUnavailable
  | WarmCapacityError _ => true
  | OSError n => bool_decide (n = "ENOENT")
  | _ => false
  end.

(** [release_destroyed]: one pass per environment until the deadline. *)
Fixpoint release_destroyed (id : string) (deadline : Q) (vs : list destroy_env)
    : M borrower (option unit) :=
  match vs with
  | [] => mret None
  | v :: vs' =>
      try_except (release_once id v ;; mret (Some tt))
        (λ e, if retried e && Qltb (ds_now v) deadline then release_destroyed id deadline vs' else raise e)
  end.

(** [allocates_shared] and [residency] *)
Definition allocates_shared (id : string) (effective : outcome string) (s : borrower) : outcome bool :=
  match borrowed s !! id with
  | None => Ok false
  | Some _ => text ← effective; Ok (on_node (shared_node cfg) text)
  end.

Definition residency (id : string) (f : files) (s : borrower) : outcome observation :=
  match borrowed s !! id with
  | None => Raise (RuntimeError "sandbox is not using shared memory")
  | Some a => observe_leaf (al_capacity a) f
  end.
(** [observe_resident] *)
Definition observe_resident (id : string) (v : leaf_env) (f : files) : M borrower observation :=
  leaf_for id v ;; lift (observe_leaf 0 f).

(** The public operations, with the kernel's answers to each. *)
Inductive op :=
  | Borrow (idle : bool) (id : string) (capacity : Z) (v : move_env)
  | ReturnLocal (id : string) (v : move_env)
  | PinLocal (id : string) (v : pin_env)
  | ReleaseDestroyed (id : string) (deadline : Q) (vs : list destroy_env).

Definition op_id (o : op) : string :=
  match o with Borrow _ id _ _ | ReturnLocal id _ | PinLocal id _ | ReleaseDestroyed id _ _ => id end.

Definition step (o : op) (s : borrower) : borrower :=
  match o with
  | Borrow idle id capacity v => (borrow idle id capacity v s).2
  | ReturnLocal id v => (return_local id v s).2
  | PinLocal id v => (pin_local id v s).2
  | ReleaseDestroyed id deadline vs => (release_destroyed id deadline vs s).2
  end.
Definition run (os : list op) (s : borrower) : borrower := foldl (λ s o, step o s) s os.

(** Whoever else uses the pool during a rebind leaves the borrows alone. *)
Definition calm (o : op) : Prop :=
  match o with
  | Borrow _ _ _ v | ReturnLocal _ v => ∀ p, bp_ok p →
      bp_ok (me_others v p) ∧ ∀ j, bp_held (me_others v p) j = bp_held p j
  | _ => True
  end.

(** ** The borrow ledger *)

Implicit Types (s : borrower) (id : string).

Definition held s id : option Z := bp_held (shared_pool s) id.

(** Every reservation of the pool has an owner that can give it back. *)
Definition owned s : Prop :=
  bp_ok (shared_pool s) ∧
  ∀ j b, held s j = Some b → ∃ a, borrowed s !! j = Some a ∧ al_capacity a = b.

(** What an operation on [id] may do to the ledger; [E] is the evidence that
    lets it give the reservation of [id] back. *)
Definition moves (E : Prop) id s s' : Prop :=
  owned s' ∧
  (∀ j, j ≠ id → held s' j = held s j ∧ borrowed s' !! j = borrowed s !! j) ∧
  (is_Some (held s id) → held s' id = held s id ∨ E).
Definition keeps {A} (E : Prop) id (m : M borrower A) : Prop :=
  ∀ s, owned s → moves E id s (m s).2.

Context {L : BorrowLaws P}.

Lemma moves_refl E id s : owned s → moves E id s s.
Proof. intros Hs. split; [done|]. split; [done|by left]. Qed.

Lemma moves_trans E id s1 s2 s3 : moves E id s1 s2 → moves E id s2 s3 → moves E id s1 s3.
Proof.
  intros (_ & Ho1 & Hi1) (Hw & Ho2 & Hi2). split; [done|split].
  - intros j Hj. destruct (Ho1 j Hj) as [<- <-]. by apply Ho2.
  - intros Hs. destruct (Hi1 Hs) as [Heq|]; [|by right].
    rewrite <- Heq in *. by apply Hi2.
Qed.

Lemma borrow_keeps_bind {A B} E id (m : M borrower A) (k : A → M borrower B) :
  keeps E id m → (∀ a s s', m s = (Ok a, s') → keeps E id (k a)) → keeps E id (m ≫= k).
Proof.
  intros Hm Hk s Hs. specialize (Hm s Hs). unfold mbind, M_bind.
  destruct (m s) as [[a|e] s'] eqn:Em; [|done].
  eapply moves_trans; [done|]. apply (Hk a s s' Em), Hm.
Qed.

Lemma borrow_keeps_pure {A} E id (m : M borrower A) : (∀ s, (m s).2 = s) → keeps E id m.
Proof. intros Hm s Hs. rewrite Hm. by apply moves_refl. Qed.
Lemma borrow_keeps_lift {A} E id (o : outcome A) : keeps E id (lift o).
Proof. by apply borrow_keeps_pure. Qed.
Lemma borrow_keeps_get E id : keeps E id get.
Proof. by apply borrow_keeps_pure. Qed.
Lemma borrow_keeps_ret {A} E id (a : A) : keeps E id (mret a).
Proof. by apply borrow_keeps_pure. Qed.
Lemma borrow_keeps_raise {A} E id e : keeps E id (raise e : M borrower A).
Proof. by apply borrow_keeps_pure. Qed.
Lemma borrow_keeps_raise_if E id b e : keeps E id (raise_if b e : M borrower unit).
Proof. apply borrow_keeps_pure. by destruct b. Qed.
Lemma borrow_keeps_except {A} E id (m : M borrower A) h :
  keeps E id m → (∀ e, keeps E id (h e)) → keeps E id (try_except m h).
Proof.
  intros Hm Hh s Hs. unfold try_except. specialize (Hm s Hs).
  destruct (m s) as [[a|e] s']; [done|]. eapply moves_trans; [done|]. apply Hh, Hm.
Qed.

(** Updates that leave pool and owners alone. *)
Lemma borrow_keeps_same {A} E id (m : M borrower A) :
  (∀ s, shared_pool (m s).2 = shared_pool s ∧ borrowed (m s).2 = borrowed s) → keeps E id m.
Proof.
  intros Hm s [Hok Hs]. destruct (Hm s) as [Hp Hb]. unfold moves, owned, held.
  rewrite Hp, Hb. by split_and!; [| | |left].
Qed.

Lemma borrow_keeps_pool {A} E id (m : M P A) :
  (∀ p, bp_ok p → bp_ok (m p).2 ∧ ∀ j, bp_held (m p).2 j = bp_held p j) →
  keeps E id (on_pool m).
Proof.
  intros Hm s [Hok Hs]. destruct (Hm _ Hok) as [H1 H2]. unfold on_pool.
  destruct (m (shared_pool s)) as [r p]. unfold moves, owned, held in *. simpl in *.
  split_and!; [done|..].
  - intros j b. rewrite H2. apply Hs.
  - intros j _. by rewrite H2.
  - left. apply H2.
Qed.

Lemma borrow_keeps_release E id : E → keeps E id (on_pool (bp_release id)).
Proof.
  intros HE s [Hok Hs]. destruct (release_law id _ Hok) as (H1 & _ & H2). unfold on_pool.
  destruct (bp_release id (shared_pool s)) as [r p]. unfold moves, owned, held in *. simpl in *.
  split_and!; [done|..].
  - intros j b. rewrite H2. case_decide; [done|apply Hs].
  - intros j Hj. by rewrite H2, decide_False.
  - by right.
Qed.

Lemma release_ok id s r s' : owned s → on_pool (bp_release id) s = (Ok r, s') →
  held s' id = None ∧ borrowed s' = borrowed s.
Proof.
  intros [Hok _]. destruct (release_law id _ Hok) as (_ & _ & H2). unfold on_pool, held.
  destruct (bp_release id (shared_pool s)) as [o p]. intros [= _ <-]. simpl in *.
  by rewrite H2, decide_True.
Qed.

(** Once the pool holds nothing for it, the owner may be dropped. *)
Lemma pop_moves E id s : owned s → held s id = None → moves E id s (pop_borrowed id s).2.
Proof.
  intros Hs Hn. unfold pop_borrowed, mbind, M_bind, get.
  destruct (borrowed s !! id) as [a|]; [|by apply moves_refl].
  destruct Hs as [Hok Ho]. unfold moves, owned, held in *. simpl. split_and!; [done|..].
  - intros j b Hj. destruct (decide (j = id)) as [->|]; [congruence|].
    rewrite lookup_delete_ne by done. by apply Ho.
  - intros j Hj. by rewrite lookup_delete_ne.
  - by left.
Qed.

Lemma borrow_keeps_give_back E id : E → keeps E id (on_pool (bp_release id) ;; pop_borrowed id).
Proof.
  intros HE s Hs. pose proof (borrow_keeps_release E id HE s Hs) as Hr. unfold mbind, M_bind.
  destruct (on_pool (bp_release id) s) as [[b|e] s'] eqn:Er; [|done].
  eapply moves_trans; [done|]. apply pop_moves; [apply Hr|]. by eapply release_ok.
Qed.

Lemma borrow_keeps_leaf_for E id v : keeps E id (leaf_for id v).
Proof.
  apply borrow_keeps_same. intros s. unfold leaf_for, mbind, M_bind, get, put, mret, M_ret, lift, raise, modify.
  destruct (verified_leaves s !! id) as [l|]; [destruct (le_verified_valid v); [done|]|]; simpl.
  all: destruct (leaf_cache s !! id) as [[l' w]|]; [destruct (le_cached_valid v); [done|]|]; simpl.
  all: destruct (scan_procs (le_procs v) ∅) as [found|e]; [simpl|done].
  all: by destruct (map_to_list found) as [|[? ?] [|? ?]].
Qed.

(** A reservation and the record of its owner appear together. *)
Lemma claim_moves E id b a s : owned s → borrowed s !! id = None → al_capacity a = b →
  moves E id s
    ((on_pool (bp_reserve id b) ;;
      modify (λ s, with_borrowed (<[id := a]> (borrowed s)) s)) s).2.
Proof.
  intros [Hok Ho] Hn <-. unfold mbind, M_bind, on_pool, modify.
  destruct (reserve_law id (al_capacity a) (shared_pool s) Hok) as [(H1 & H2 & H3 & H4)|(H1 & H2 & H4)];
    destruct (bp_reserve id (al_capacity a) (shared_pool s)) as [r p]; simpl in *.
  - subst r. unfold moves, owned, held in *. simpl. split_and!; [done|..].
    + intros j b. rewrite H4. case_decide as Hj; [subst j; intros [= <-]|].
      * exists a. by rewrite lookup_insert_eq.
      * intros Hb. rewrite lookup_insert_ne by done. by apply Ho.
    + intros j Hj. by rewrite H4, decide_False, lookup_insert_ne.
    + rewrite H3. by intros [? ?].
  - destruct r as [u|e]; [done|]. unfold moves, owned, held in *. simpl. split_and!; [done|..].
    + intros j b. rewrite H4. apply Ho.
    + intros j _. by rewrite H4.
    + left. apply H4.
Qed.

Lemma borrow_keeps_claim_capacity E id b leaf o f : keeps E id (claim_capacity id b leaf o f).
Proof.
  intros s Hs. unfold claim_capacity, mbind at 1, M_bind at 1, get.
  destruct (borrowed s !! id) as [a|] eqn:Ea.
  - revert s Hs Ea. intros s Hs _. revert s Hs.
    repeat (apply borrow_keeps_bind; [apply borrow_keeps_raise_if|intros _ _ _ _]). apply borrow_keeps_ret.
  - unfold mbind at 1, M_bind at 1, lift at 1.
    destruct (shared_usage f) as [parent|e]; [|by apply moves_refl].
    pose proof (claim_moves E id b (Allocation leaf b parent) s Hs Ea eq_refl) as Hc.
    unfold mbind, M_bind in *. destruct (on_pool (bp_reserve id b) s) as [[u|e] s1]; exact Hc.
Qed.

Lemma borrow_keeps_rebind E id v n :
  (∀ p, bp_ok p → bp_ok (me_others v p) ∧ ∀ j, bp_held (me_others v p) j = bp_held p j) →
  keeps E id (rebind v n).
Proof.
  intros Hv. unfold rebind.
  apply borrow_keeps_bind; [apply borrow_keeps_lift|intros _ _ _ _].
  apply borrow_keeps_bind.
  { exact (borrow_keeps_pool E id (modify (me_others v)) Hv). }
  intros _ _ _ _. apply borrow_keeps_bind; [apply borrow_keeps_lift|intros _ _ _ _].
  apply borrow_keeps_bind; [apply borrow_keeps_lift|intros ????]. apply borrow_keeps_raise_if.
Qed.

(** No shared page is charged to the cgroup. *)
Definition no_shared_pages (f : files) : Prop := ∃ local, usage f = Ok (local, 0).

Lemma borrow_keeps_release_if_empty E id f : (no_shared_pages f → E) → keeps E id (release_if_empty id f).
Proof.
  intros HE. unfold release_if_empty. apply borrow_keeps_bind; [apply borrow_keeps_lift|].
  intros [l n] s s' [= Hu _]. simpl. destruct (Z.eqb_spec n 0) as [->|]; [|apply borrow_keeps_ret].
  apply borrow_keeps_give_back, HE. by exists l.
Qed.

(** The rollback restored LOCAL and left no shared page behind. *)
Definition undone (v : move_env) : Prop :=
  ∃ text, me_undone v = Ok text ∧ on_node (local_node cfg) text = true ∧
    no_shared_pages (me_undo_files v).

Lemma borrow_keeps_undo {A} E id reserve v e : (undone v → E) → keeps E id (undo id reserve v e : M borrower A).
Proof.
  intros HE. unfold undo. apply borrow_keeps_bind; [|intros ????; apply borrow_keeps_raise].
  destruct (reserve && rollback_safe e); [|apply borrow_keeps_ret].
  destruct (me_undone v) as [text|] eqn:Et; [|apply borrow_keeps_ret].
  destruct (on_node (local_node cfg) text) eqn:En; [|apply borrow_keeps_ret].
  apply borrow_keeps_bind; [|intros ????; apply borrow_keeps_ret].
  apply borrow_keeps_except; [|intros ?; apply borrow_keeps_ret].
  apply borrow_keeps_release_if_empty. intros Hf. apply HE. by exists text.
Qed.

(** What lets [_move_serialized] give capacity back. *)
Definition move_evidence (capacity : Z) (reserve : bool) (v : move_env) : Prop :=
  if reserve then undone v
  else ∃ o, observe_leaf capacity (me_after v) = Ok o ∧ shared_bytes o = 0.

Lemma borrow_keeps_move id capacity n reserve v :
  (∀ p, bp_ok p → bp_ok (me_others v p) ∧ ∀ j, bp_held (me_others v p) j = bp_held p j) →
  keeps (move_evidence capacity reserve v) id (move_serialized id capacity n reserve v).
Proof.
  intros Hv. unfold move_serialized.
  apply borrow_keeps_bind; [apply borrow_keeps_raise_if|intros _ _ _ _].
  apply borrow_keeps_bind; [apply borrow_keeps_leaf_for|intros leaf _ _ _].
  apply borrow_keeps_bind; [apply borrow_keeps_lift|intros before _ _ _].
  apply borrow_keeps_bind; [apply borrow_keeps_lift|intros _ _ _ _].
  apply borrow_keeps_bind; [destruct reserve; [apply borrow_keeps_claim_capacity|apply borrow_keeps_ret]|intros reused _ _ _].
  apply borrow_keeps_bind.
  { apply borrow_keeps_except; [by apply borrow_keeps_rebind|]. intros e. destruct reserve.
    - by apply borrow_keeps_undo.
    - unfold undo. simpl. apply borrow_keeps_pure. done. }
  intros _ _ _ _. apply borrow_keeps_bind; [apply borrow_keeps_lift|]. intros after s s' [= Ha _].
  apply borrow_keeps_bind.
  { destruct reserve; simpl; [apply borrow_keeps_ret|].
    destruct (Z.eqb_spec (shared_bytes after) 0) as [Hz|]; [|apply borrow_keeps_ret].
    apply borrow_keeps_bind; [apply borrow_keeps_release; by exists after|intros; apply borrow_keeps_ret]. }
  intros _ _ _ _. apply borrow_keeps_bind; [apply borrow_keeps_lift|intros live _ _ _].
  apply borrow_keeps_bind; [apply borrow_keeps_pool; intros p Hp; by apply observe_law|intros ????; apply borrow_keeps_ret].
Qed.

Definition bystanders (v : move_env) : Prop :=
  ∀ p, bp_ok p → bp_ok (me_others v p) ∧ ∀ j, bp_held (me_others v p) j = bp_held p j.

Lemma borrow_keeps_owned {A} id (m : M borrower A) s a s' :
  keeps True id m → m s = (Ok a, s') → owned s → owned s'.
Proof. intros Hm Hr Hs. destruct (Hm s Hs) as [Ho _]. by rewrite Hr in Ho. Qed.

(** A returned record that says released left nothing in the pool. *)
Lemma move_released id capacity n v s r s' :
  owned s → bystanders v →
  move_serialized id capacity n false v s = (Ok r, s') → mr_released r = true → held s' id = None.
Proof.
  intros Hs Hv Hm Hr. unfold move_serialized in Hm.
  apply bind_ok_inv in Hm as (? & s1 & H1 & Hm).
  pose proof (borrow_keeps_owned id _ _ _ _ (borrow_keeps_raise_if True id _ _) H1 Hs) as K1.
  apply bind_ok_inv in Hm as (leaf & s2 & H2 & Hm).
  pose proof (borrow_keeps_owned id _ _ _ _ (borrow_keeps_leaf_for True id _) H2 K1) as K2.
  apply bind_ok_inv in Hm as (before & s3 & [= _ <-] & Hm).
  apply bind_ok_inv in Hm as (? & s4 & [= _ <-] & Hm).
  apply bind_ok_inv in Hm as (reused & s5 & [= <- <-] & Hm).
  apply bind_ok_inv in Hm as (? & s6 & H6 & Hm).
  assert (keeps True id (try_except (rebind v n) (undo id false v))) as K6.
  { apply borrow_keeps_except; [by apply borrow_keeps_rebind|]. intros e. unfold undo. by apply borrow_keeps_pure. }
  pose proof (borrow_keeps_owned id _ _ _ _ K6 H6 K2) as K7.
  apply bind_ok_inv in Hm as (after & s7 & [= _ <-] & Hm).
  apply bind_ok_inv in Hm as (? & s8 & H8 & Hm).
  apply bind_ok_inv in Hm as (live & s9 & [= _ <-] & Hm).
  apply bind_ok_inv in Hm as (? & s10 & H10 & [= <- <-]).
  simpl in Hr. rewrite Hr in H8. apply bind_ok_inv in H8 as (rel & s8' & H8 & [= _ <-]).
  destruct (release_ok id _ _ _ K7 H8) as [Hn _].
  pose proof (borrow_keeps_owned id _ _ _ _ (borrow_keeps_release True id I) H8 K7) as [K8 _].
  destruct (observe_law live None (shared_pool s8') K8) as [_ Ho].
  unfold on_pool in H10. destruct (bp_observe live None (shared_pool s8')) as [ov p].
  injection H10 as _ <-. unfold held in *. simpl. rewrite Ho. exact Hn.
Qed.

Lemma return_moves id v s : owned s → bystanders v →
  moves (∃ a, borrowed s !! id = Some a ∧ move_evidence (al_capacity a) false v) id s
    (return_local id v s).2.
Proof.
  intros Hs Hv. unfold return_local, mbind at 1, M_bind at 1, get.
  destruct (borrowed s !! id) as [a|]; [|by apply moves_refl].
  set (E := ∃ b, _). pose proof (borrow_keeps_move id (al_capacity a) (local_node cfg) false v Hv s Hs) as Hk.
  assert (moves E id s (move_serialized id (al_capacity a) (local_node cfg) false v s).2) as Hm.
  { destruct Hk as (H1 & H2 & H3). split; [done|split; [done|]]. intros Hi.
    destruct (H3 Hi); [by left|right; by exists a]. }
  unfold mbind at 1, M_bind at 1.
  destruct (move_serialized _ _ _ _ _ s) as [[r|e] s1] eqn:Em; [|done].
  eapply moves_trans; [exact Hm|]. destruct (mr_released r) eqn:Er.
  - pose proof (move_released id _ _ v s r s1 Hs Hv Em Er) as Hn.
    pose proof (pop_moves E id s1 (proj1 Hm) Hn) as Hp.
    unfold mbind, M_bind. by destruct (pop_borrowed id s1) as [[u|e] s2].
  - apply moves_refl, Hm.
Qed.

Lemma borrow_keeps_relocate E id leaf : keeps E id (relocate id leaf).
Proof.
  intros s [Hok Ho]. unfold relocate, mbind, M_bind, get, put, mret, M_ret.
  destruct (borrowed s !! id) as [a|] eqn:Ha; [|by apply moves_refl].
  case_bool_decide; [by apply moves_refl|]. unfold moves, owned, held in *. simpl. split_and!; [done|..].
  - intros j b Hj. destruct (decide (j = id)) as [->|].
    + rewrite lookup_insert_eq. destruct (Ho _ _ Hj) as (a' & Ha' & <-). simplify_eq. by eexists.
    + rewrite lookup_insert_ne by done. by apply Ho.
  - intros j Hj. by rewrite lookup_insert_ne.
  - by left.
Qed.

Lemma borrow_keeps_pin id v : keeps (no_shared_pages (pn_usage v)) id (pin_local id v).
Proof.
  unfold pin_local. apply borrow_keeps_bind.
  { destruct (pn_verified v) as [[[leaf i] w]|]; [|apply borrow_keeps_ret].
    repeat (apply borrow_keeps_bind; [apply borrow_keeps_raise_if|intros _ _ _ _]). by apply borrow_keeps_same. }
  intros _ _ _ _. apply borrow_keeps_bind; [apply borrow_keeps_leaf_for|intros leaf _ _ _].
  apply borrow_keeps_bind; [apply borrow_keeps_relocate|intros retained _ _ _].
  apply borrow_keeps_bind; [apply borrow_keeps_lift|intros _ _ _ _].
  apply borrow_keeps_bind; [apply borrow_keeps_lift|intros configured _ _ _].
  apply borrow_keeps_bind; [destruct (_ && _); [apply borrow_keeps_lift|apply borrow_keeps_ret]|intros _ _ _ _].
  apply borrow_keeps_bind; [apply borrow_keeps_lift|intros _ _ _ _].
  apply borrow_keeps_bind.
  { destruct (pn_given v); [apply borrow_keeps_ret|]. apply borrow_keeps_bind; [|intros _ _ _ _]; apply borrow_keeps_lift. }
  intros anon _ _ _. apply borrow_keeps_bind; [apply borrow_keeps_get|intros s _ _ _].
  apply borrow_keeps_bind; [apply borrow_keeps_raise_if|intros _ _ _ _].
  apply borrow_keeps_bind; [by apply borrow_keeps_same|intros _ _ _ _].
  apply borrow_keeps_bind.
  { case_bool_decide; [by apply borrow_keeps_release_if_empty|apply borrow_keeps_ret]. }
  intros _ _ _ _. apply borrow_keeps_bind; [apply borrow_keeps_lift|intros _ _ _ _; apply borrow_keeps_ret].
Qed.

(** A destroyed VM's pages are known to be gone: its empty cgroup holds none, or
    the cgroup is removed and the parent is back at its baseline. *)
Definition destroyed (a : allocation) (v : destroy_env) : Prop :=
  if ds_exists v then
    no_shared_pages (ds_usage v) ∧
    ∃ text events, ds_events v = Ok text ∧ parse_events (lines text) ∅ = Ok events ∧
      events !! "populated" = Some "0"
  else ∃ parent, shared_usage (ds_parent v) = Ok parent ∧ parent <= al_baseline a.

Lemma gone_destroyed a v : gone a v = Ok tt → destroyed a v.
Proof.
  unfold gone, destroyed, no_shared_pages. destruct (ds_exists v).
  - destruct (ds_events v) as [text|]; simpl; [|done].
    destruct (parse_events (lines text) ∅) as [events|] eqn:Ep; simpl; [|done].
    destruct (decide (events !! "populated" = Some "0")) as [Hp|Hp].
    2: { rewrite bool_decide_eq_false_2 by done. done. }
    rewrite bool_decide_eq_true_2 by done. destruct (if _ && _ then _ else _); simpl; [|done].
    destruct (usage (ds_usage v)) as [[l n]|]; simpl; [|done].
    destruct (Z.eqb_spec n 0) as [->|]; [|done]. intros _. eauto 10.
  - destruct (shared_usage (ds_parent v)) as [p|]; simpl; [|done].
    destruct (Z.ltb_spec (al_baseline a) p); [done|]. eauto.
Qed.

Lemma borrow_keeps_release_once id v s : owned s →
  moves (∃ a, borrowed s !! id = Some a ∧ destroyed a v) id s (release_once id v s).2.
Proof.
  intros Hs. unfold release_once, mbind at 1, M_bind at 1, get.
  destruct (borrowed s !! id) as [a|]; [|by apply moves_refl].
  revert s Hs. change (keeps (∃ b, Some a = Some b ∧ destroyed b v) id
    (lift (gone a v) ;; on_pool (bp_release id) ;; pop_borrowed id)).
  apply borrow_keeps_bind; [apply borrow_keeps_lift|]. intros [] s s' [= Hg _].
  apply borrow_keeps_give_back. exists a. split; [done|by apply gone_destroyed].
Qed.

Lemma release_once_raise id v s e s' : release_once id v s = (Raise e, s') →
  borrowed s' !! id = borrowed s !! id.
Proof.
  unfold release_once, mbind, M_bind, get, on_pool, lift, pop_borrowed, raise, put.
  destruct (borrowed s !! id) as [a|] eqn:Ea; [|done].
  destruct (gone a v); simpl; [|by intros [= _ <-]].
  destruct (bp_release id (shared_pool s)) as [[u|x] p]; simpl; [|by intros [= _ <-]].
  unfold mbind, M_bind, get. simpl. by rewrite Ea.
Qed.

Lemma release_destroyed_moves id deadline vs : ∀ s, owned s →
  moves (∃ a v, borrowed s !! id = Some a ∧ v ∈ vs ∧ destroyed a v) id s
    (release_destroyed id deadline vs s).2.
Proof.
  induction vs as [|v vs IH]; intros s Hs; simpl; [by apply moves_refl|].
  set (E := ∃ a w, _). assert (moves E id s (release_once id v s).2) as Hm.
  { destruct (borrow_keeps_release_once id v s Hs) as (H1 & H2 & H3). split; [done|split; [done|]].
    intros Hi. destruct (H3 Hi) as [|(a & Ha & Hd)]; [by left|right].
    exists a, v. split_and!; [done|apply elem_of_cons; by left|done]. }
  unfold try_except, mbind, M_bind. destruct (release_once id v s) as [[u|e] s1] eqn:Er; [exact Hm|].
  pose proof (release_once_raise id v s e s1 Er) as Hb.
  destruct (retried e && Qltb (ds_now v) deadline); [|exact Hm].
  eapply moves_trans; [exact Hm|]. destruct (IH s1 (proj1 Hm)) as (H1 & H2 & H3).
  split; [done|split; [done|]]. intros Hi. destruct (H3 Hi) as [|(a & w & Ha & Hw & Hd)]; [by left|right].
  exists a, w. split_and!; [congruence|apply elem_of_cons; by right|done].
Qed.

(** The evidence an operation needs to give its VM's reservation back. *)
Definition evidence (o : op) s : Prop :=
  match o with
  | Borrow _ _ _ v => undone v
  | ReturnLocal id v => ∃ a ob, borrowed s !! id = Some a ∧
      observe_leaf (al_capacity a) (me_after v) = Ok ob ∧ shared_bytes ob = 0
  | PinLocal _ v => no_shared_pages (pn_usage v)
  | ReleaseDestroyed id _ vs => ∃ a v, borrowed s !! id = Some a ∧ v ∈ vs ∧ destroyed a v
  end.

Lemma step_moves o s : owned s → calm o → moves (evidence o s) (op_id o) s (step o s).
Proof.
  intros Hs Hc. destruct o as [idle id b v|id v|id v|id d vs]; simpl in *.
  - revert s Hs. unfold borrow. apply borrow_keeps_bind; [apply borrow_keeps_raise_if|intros _ _ _ _].
    exact (borrow_keeps_move id b (shared_node cfg) true v Hc).
  - destruct (return_moves id v s Hs Hc) as (H1 & H2 & H3). split; [done|split; [done|]].
    intros Hi. destruct (H3 Hi) as [|(a & Ha & ob & Hob)]; [by left|right]. eauto.
  - by apply borrow_keeps_pin.
  - by apply release_destroyed_moves.
Qed.

Lemma run_owned os : ∀ s, owned s → Forall calm os → owned (run os s).
Proof.
  induction os as [|o os IH]; intros s Hs Hc; [done|].
  apply Forall_cons in Hc as [Ho Hc]. apply IH; [|done]. by apply (step_moves o s).
Qed.

Lemma release_once_succeeds id v s b :
  owned s → held s id = Some b → (∀ a, borrowed s !! id = Some a → gone a v = Ok tt) →
  let r := release_once id v s in
  r.1 = Ok tt ∧ held r.2 id = None ∧ borrowed r.2 !! id = None.
Proof.
  intros [Hok Ho] Hb Hg. destruct (Ho id b Hb) as (a & Ha & _). specialize (Hg a Ha).
  destruct (release_law id (shared_pool s) Hok) as (_ & [_ H2] & H3). unfold held in Hb.
  specialize (H2 (mk_is_Some _ _ Hb)). unfold release_once, mbind, M_bind, get, lift, on_pool.
  rewrite Ha, Hg. destruct (bp_release id (shared_pool s)) as [[z|e] p]; [|done].
  unfold pop_borrowed, mbind, M_bind, get, put. simpl. rewrite Ha. simpl. split; [done|].
  unfold held. simpl in *. by rewrite H3, decide_True, lookup_delete_eq.
Qed.


(** C38: capacity is given back only with physical evidence.  When an operation
    ends the reservation of a VM, it is the operation's own VM and no shared page
    was left: a rolled back borrow restored LOCAL and read zero shared bytes, a
    return or a pin read zero shared bytes, and a destruction found the cgroup
    empty of them or removed with the parent back at its baseline. *)
Theorem release_needs_evidence o s j b :
  owned s → calm o → held s j = Some b → held (step o s) j = None →
  j = op_id o ∧ evidence o s.
Proof.
  intros Hs Hc Hb Hn. destruct (step_moves o s Hs Hc) as (_ & Ho & Hi).
  destruct (decide (j = op_id o)) as [->|Hj].
  - split; [done|]. destruct Hi as [|?]; [by eexists|congruence|done].
  - destruct (Ho j Hj) as [He _]. congruence.
Qed.

Lemma msum_split (resident : gmap Z Z) x y : x ≠ y →
  default 0 (resident !! x) + default 0 (resident !! y) +
  msum (λ n v, if decide (n = x ∨ n = y) then 0 else v) resident = msum (λ _ v, v) resident.
Proof.
  intros Hxy. induction resident as [|n v m Hn IH] using map_ind.
  - by rewrite !msum_empty, !lookup_empty.
  - rewrite !msum_insert_new by done.
    destruct (decide (n = x)) as [->|Hx]; [|destruct (decide (n = y)) as [->|Hy]].
    + rewrite lookup_insert_eq, lookup_insert_ne, decide_True by auto. rewrite Hn in IH. simpl in *. lia.
    + rewrite lookup_insert_eq, lookup_insert_ne, decide_True by auto. rewrite Hn in IH. simpl in *. lia.
    + rewrite !lookup_insert_ne, decide_False by naive_solver. lia.
Qed.

(** An observation accounts for every byte.  The local, shared and other
    bytes of a residency observation add up to what the cgroup is charged or to
    what its nodes report, whichever is more: pages the kernel attributes to no
    node count as LOCAL, and none is counted twice. *)
Theorem observation_accounts r f o :
  local_node cfg ≠ shared_node cfg → observe_leaf r f = Ok o →
  ∃ resident unattributed charged, read_numa_lru_observation f = Ok (resident, unattributed, charged) ∧
  local_bytes o + shared_bytes o + other_numa_bytes o =
    Z.max charged (msum (λ _ v, v) resident).
Proof.
  intros Hn. unfold observe_leaf, read_numa_lru_bytes.
  destruct (read_numa_lru_observation f) as [[[resident un] charged]|e] eqn:E; simpl; [|done].
  destruct (current_again f) as [text|]; simpl; [|done].
  destruct (int (strip text)) as [c|]; simpl; [|done].
  destruct (mems_effective f) as [eff|]; simpl; [|done]. intros [= <-]. simpl.
  exists resident, un, charged. split; [done|].
  assert (un = Z.max 0 (charged - msum (λ _ v, v) resident)) as ->.
  { unfold read_numa_lru_observation in E. destruct (numa_stat f); simpl in E; [|done].
    destruct (parse_rows _ _ _); simpl in E; [|done]. destruct (current f); simpl in E; [|done].
    destruct (int _); simpl in E; [|done]. by injection E as <- <- <-. }
  pose proof (msum_split resident _ _ Hn). lia.
Qed.
End borrower.

(** ** Concrete runs on the WARM pool *)

Definition demo_nodes : nodes := Nodes 0 1 None 0.
Definition demo_pool_config : SnapshotPool.config := SnapshotPool.Config 1000 800 None 0 0 2 None 60 true.
Definition demo_pool : SnapshotPool.pool := match SnapshotPool.init demo_pool_config with Ok p => p | Raise _ => pool0 end.
#[local] Instance demo_warm : BorrowPool SnapshotPool.pool := warm_pool demo_pool_config.

(** A cgroup with [l] bytes on node 0, [h] on node 1, bound to [m]. *)
Definition demo_files (l h m : Z) : files :=
  Files (Ok ("active_anon N0=" +:+ str l +:+ " N1=" +:+ str h)) (Ok (str (l + h))) (Ok (str (l + h)))
    (Ok (str m)) (Ok (str m)) (Ok "0-3").
Definition demo_leaf : leaf_env := LeafEnv true true [ProcEntry (Ok true) (Ok (Some "vm1")) true true "7"].
Definition demo_move (effective : string) (after : files) (parent_after : files) : move_env (P := SnapshotPool.pool) :=
  MoveEnv demo_leaf (demo_files 500 0 0) (demo_files 500 0 0) id (Ok tt) (Ok tt) (Ok effective)
    (Ok "0") (demo_files 500 0 0) after parent_after.

Definition demo_borrower : borrower (P := SnapshotPool.pool) :=
  match borrower_init demo_nodes demo_pool with Ok s => s | Raise _ => Borrower demo_pool ∅ ∅ ∅ ∅ end.
Definition demo_ops : list (op (P := SnapshotPool.pool)) :=
  [Borrow true "vm1" 600 (demo_move "1" (demo_files 200 300 1) (demo_files 200 300 1))].
Definition demo_run := run demo_nodes demo_ops demo_borrower.

(** The cgroup is removed and the parent's shared residency is at its baseline. *)
Definition demo_removed : destroy_env :=
  DestroyEnv false (Raise (OSError "ENOENT")) false (demo_files 0 0 0) (Ok tt) (demo_files 0 0 0)
    (demo_files 200 0 0) 0.

Lemma demo_pool_ok : bp_ok demo_pool.
Proof. apply (pool_init_ok demo_pool_config). by vm_compute. Qed.

Lemma demo_calm : Forall calm demo_ops.
Proof. apply Forall_singleton. by intros p Hp. Qed.

Lemma demo_run_owned : owned demo_run.
Proof.
  apply (run_owned demo_nodes (L := warm_pool_laws demo_pool_config)).
  - split; [apply demo_pool_ok|]. done.
  - apply demo_calm.
Qed.


(** The VM comes back: every page is local again. *)
Definition demo_return : op :=
  ReturnLocal "vm1" (demo_move "0" (demo_files 500 0 0) (demo_files 500 0 0)).

Lemma release_needs_evidence_witness :
  held (step demo_nodes demo_return demo_run) "vm1" = None ∧
  "vm1" = op_id demo_return ∧ evidence demo_nodes demo_return demo_run.
Proof.
  split; [by vm_compute|].
  apply (release_needs_evidence demo_nodes (L := warm_pool_laws demo_pool_config) demo_return demo_run "vm1" 600).
  - apply demo_run_owned.
  - by intros.
  - by vm_compute.
  - by vm_compute.
Defined.

Lemma observation_accounts_witness :
  ∃ resident unattributed charged,
    read_numa_lru_observation (demo_files 200 300 0) = Ok (resident, unattributed, charged) ∧
    200 + 300 + 0 = Z.max charged (msum (λ _ v, v) resident).
Proof.
  apply (observation_accounts demo_nodes 0 (demo_files 200 300 0) (Observation "0" 200 300 0 0 500 0)).
  - done.
  - by vm_compute.
Defined.

(** The reservation of a VM that came back is released, but the parent's
    residency read fails before [return_local] drops the record.  The stale
    record makes every later cleanup fail: the pool knows no such borrow. *)
Definition demo_stale : borrower :=
  step demo_nodes
    (ReturnLocal "vm1" (demo_move "0" (demo_files 500 0 0)
      (Files (Raise (OSError "EIO")) (Ok "0") (Ok "0") (Ok "0") (Ok "0") (Ok "0")))) demo_run.

Example stale_borrow_blocks_cleanup :
  held demo_stale "vm1" = None ∧ is_Some (borrowed demo_stale !! "vm1") ∧
  release_once demo_nodes "vm1" demo_removed demo_stale =
    (Raise (RuntimeError "unknown shared-memory borrow"), demo_stale).
Proof. split; [by vm_compute|]. split; [by eexists|]. by vm_compute. Qed.
