(* ===== verification/Watermark.v ===== *)
(** * The LOCAL memory watermarks (src/clawbox/experiments/worker.py, [WatermarkController],
      and src/clawbox/experiments/memory_actions.py)

    A controller samples the memory of a compute node, latches the admission of new
    sessions between HIGH and LOW, and relieves pressure by one action at a time:
    it checkpoints an idle session, lends a VM shared memory, or takes borrowed
    memory back.  The coordinator, the borrower, the WARM pool and the lifecycles
    are what it acts on: the class [Environment] is their interface, and its laws
    say what the controller relies on.  Everything outside may change between two
    operations, so their results are whatever the environment returns. *)
From S2P Require Import Prelude Dict Ordering.

(** ** The cost of an action *)

Definition gib : Q := inject_Z (1024 * 1024 * 1024).

Record costs := Costs {
  live_borrow_service : Q; live_borrow_penalty : Q;
  warm_checkpoint : Q; warm_restore : Q;
  cold_checkpoint : option Q; cold_restore : option Q;
  restore_probability : Q;
}.
Inductive tier := Warm | Cold.
#[export] Instance tier_eq_dec : EqDecision tier.
Proof. solve_decision. Defined.
Inductive action := Reclaim | Borrow | Return | Wait.
#[export] Instance action_eq_dec : EqDecision action.
Proof. solve_decision. Defined.

(** [MemoryActionEstimate] *)
Record estimate := Estimate {
  e_action : action; e_bytes : Z; e_seconds : Q; e_immediate : Q; e_penalty : Q; e_restore : Q; e_tier : option tier;
}.

Definition valid_size (bytes : Z) : outcome Z :=
  if bytes <=? 0 then Raise (ValueError "configured_bytes must be positive") else Ok bytes.

(** [MemoryActionCostModel.borrow] *)
Definition borrow_estimate (c : costs) (bytes : Z) : outcome estimate :=
  b ← valid_size bytes;
  let g := (inject_Z b / gib)%Q in
  let immediate := (g * live_borrow_service c)%Q in
  let penalty := (g * live_borrow_penalty c)%Q in
  Ok (Estimate Borrow b (immediate + penalty) immediate penalty 0 None).

(** [MemoryActionCostModel.reclaim] *)
Definition reclaim_estimate (c : costs) (bytes : Z) (t : tier) : outcome estimate :=
  b ← valid_size bytes;
  let g := (inject_Z b / gib)%Q in
  '(checkpoint, restore) ← match t with
                           | Warm => Ok (warm_checkpoint c, warm_restore c)
                           | Cold => match cold_checkpoint c, cold_restore c with
                                     | Some ck, Some rs => Ok (ck, rs)
                                     | _, _ => Raise (ValueError "COLD action cost is not calibrated")
                                     end
                           end;
  let immediate := (g * checkpoint)%Q in
  let r := (g * restore * restore_probability c)%Q in
  Ok (Estimate Reclaim b (immediate + r) immediate 0 r (Some t)).

Definition positive (bytes : option Z) : option Z := b ← bytes; if 0 <? b then Some b else None.

(** The key of [min(estimates.values(), key=...)] *)
Definition by_cost (a b : estimate) : comparison :=
  lex (Qcompare (e_seconds a) (e_seconds b))
      (match e_action a, e_action b with
       | Reclaim, Reclaim => Eq | Reclaim, _ => Lt | _, Reclaim => Gt | _, _ => Eq
       end).

(** [MemoryActionCostModel.choose] *)
Definition choose (c : costs) (borrow_bytes reclaim_bytes : option Z) (t : tier) : outcome (option action) :=
  b ← match positive borrow_bytes with Some n => e ← borrow_estimate c n; Ok [e] | None => Ok [] end;
  r ← match positive reclaim_bytes with Some n => e ← reclaim_estimate c n t; Ok [e] | None => Ok [] end;
  Ok (e_action <$> min_by by_cost (b ++ r)).

(** ** The environment *)

Inductive scheduling := Static | Joint | LocalOnly | SnapshotOnly.
#[export] Instance scheduling_eq_dec : EqDecision scheduling.
Proof. solve_decision. Defined.

Record config := Config {
  low : Z; high : Z; hard : Z;
  memory_scheduling : scheduling;
  borrow_cooldown : Q; return_cooldown : Q;
  cost_model : option costs;
  snapshot_pause : bool;          (** [policy.reclamation is SNAPSHOT_PAUSE] *)
  destination_cold : bool;        (** [snapshot_destination == 'cold'] *)
  spills_to_cold : bool;          (** tiered storage with a COLD root *)
  has_borrower : bool;
}.

(** A lifecycle is named by its sandbox. *)
Notation vm := string (only parsing).
Record observation := Observation { local_bytes : Z; shared_bytes : Z; on_shared_node : bool }.
Record pool_view := PoolView { reserved_bytes : Z; committed_bytes : Z; external_warm_bytes : Z; capacity_bytes : Z; accounted_bytes : Z }.

Class Environment (E : Type) := {
  monotonic : E → Q;
  tier_usage : M E (Z * Z * Z);                    (** [sampler.tier_usage] *)
  observe_shared_live : Z → M E Z;                 (** [shared_pool] *)
  pool_snapshot : E → pool_view;
  spill_observed_excess : M E (list Z);
  borrow_headroom : E → Z;
  set_blocked : bool → E → E;                      (** [coordinator] *)
  blocked_demand_pressure : M E bool;
  evict_one : option tier → M E bool;
  reclaim_candidate : E → option (Z * Z);          (** configured and reservation bytes *)
  local_commitment_exceeds : Z → Z → M E bool;
  pending_upper_bound : E → Z;
  capacity_claims : E → bool;
  operation_headroom : E → Z;
  claim_return : string → M E bool;
  release_return : string → E → E;
  borrowed : vm → E → bool;                        (** [borrower] *)
  allocates_shared : vm → E → bool;
  borrow_busy : E → bool;                          (** [_borrow_lock] is taken elsewhere *)
  resident : vm → E → bool;                        (** lifecycles *)
  configured_bytes : vm → E → Z;
  observe : vm → M E (option observation);
  borrow_shared : vm → M E (option Q);             (** service seconds *)
  return_local : vm → M E (option (Q * bool));
  quarantine : vm → M E bool;
}.

(** What the controller relies on: nothing else latches the admission of new
    sessions, and every sample is one of the node's. *)
Class EnvironmentLaws (E : Type) `{!Environment E} := {
  latched : E → bool;
  samples : E → list Z;
  view e := (latched e, samples e);
  view_set : ∀ b e, view (set_blocked b e) = (b, samples e);
  view_usage : ∀ e, view (tier_usage e).2
    = (latched e, samples e ++ match (tier_usage e).1 with Ok (local, _, _) => [local] | Raise _ => [] end);
  view_release : ∀ sid e, view (release_return sid e) = view e;
  view_live : ∀ x e, view (observe_shared_live x e).2 = view e;
  view_spill : ∀ e, view (spill_observed_excess e).2 = view e;
  view_demand : ∀ e, view (blocked_demand_pressure e).2 = view e;
  view_evict : ∀ t e, view (evict_one t e).2 = view e;
  view_commitment : ∀ x y e, view (local_commitment_exceeds x y e).2 = view e;
  view_claim : ∀ sid e, view (claim_return sid e).2 = view e;
  view_observe : ∀ v e, view (observe v e).2 = view e;
  view_borrow : ∀ v e, view (borrow_shared v e).2 = view e;
  view_return : ∀ v e, view (return_local v e).2 = view e;
  view_quarantine : ∀ v e, view (quarantine v e).2 = view e;
}.

(** ** The controller *)

Record meters := Meters {
  high_crossings : Z;
  high_overshoot_byte_seconds : Q; hard_overshoot_byte_seconds : Q;
  high_overshoot_seconds : Q; hard_overshoot_seconds : Q;
  peak_local : Z; peak_shared : Z; peak_combined : Z; peak_shared_total : Z;
}.
Record counters := Counters {
  borrow_count : Z; borrow_service_seconds : Q;
  return_count : Z; return_release_count : Z; return_service_seconds : Q;
  reclaim_rejection_count : Z; checkpoint_timeout_count : Z; low_route_fast_path_count : Z;
}.
Record controller := Controller {
  lifecycles : dict string (vm * vm);              (** session: Tool and Runtime *)
  meter : meters;
  counts : counters;
  last_reactive : option Z;                        (** [_last_reactive_borrow_local_bytes] *)
  last_borrow : option Q;                          (** [None] is minus infinity *)
  last_return : option Q;
  rejection : option string;                       (** [_last_borrow_rejection] *)
  decisions : list action;                         (** the decision events *)
}.
Definition controller_init : controller :=
  Controller ∅ (Meters 0 0 0 0 0 0 0 0 0) (Counters 0 0 0 0 0 0 0 0) None None None None [].

Definition with_meter (m : meters) (c : controller) : controller :=
  Controller (lifecycles c) m (counts c) (last_reactive c) (last_borrow c) (last_return c) (rejection c) (decisions c).
Definition with_counts (k : counters) (c : controller) : controller :=
  Controller (lifecycles c) (meter c) k (last_reactive c) (last_borrow c) (last_return c) (rejection c) (decisions c).
Definition with_reactive (r : option Z) (c : controller) : controller :=
  Controller (lifecycles c) (meter c) (counts c) r (last_borrow c) (last_return c) (rejection c) (decisions c).
Definition with_rejection (r : option string) (c : controller) : controller :=
  Controller (lifecycles c) (meter c) (counts c) (last_reactive c) (last_borrow c) (last_return c) r (decisions c).
Definition with_lifecycles (l : dict string (vm * vm)) (c : controller) : controller :=
  Controller l (meter c) (counts c) (last_reactive c) (last_borrow c) (last_return c) (rejection c) (decisions c).

(** [register], [unregister] *)
Definition register (sid : string) (tool runtime : vm) (c : controller) : controller :=
  with_lifecycles (<[sid := (tool, runtime)]> (lifecycles c)) c.
Definition unregister (sid : string) (c : controller) : controller := with_lifecycles (delete sid (lifecycles c)) c.

Section controller.
Context {E : Type} `{!Environment E} (cfg : config).

Record state := State { ctl : controller; env : E }.
Notation St := (M state).

Definition on {A} (m : M E A) : St A := λ s, let '(o, e) := m (env s) in (o, State (ctl s) e).
Definition ask {A} (f : E → A) : St A := gets (λ s, f (env s)).
Definition update (f : controller → controller) : St unit := modify (λ s, State (f (ctl s)) (env s)).
Definition tell (f : E → E) : St unit := modify (λ s, State (ctl s) (f (env s))).

Definition borrowing_disabled : bool :=
  negb (has_borrower cfg) || bool_decide (memory_scheduling cfg = LocalOnly ∨ memory_scheduling cfg = SnapshotOnly).
Definition since (now : Q) (last : option Q) (cooldown : Q) : bool :=
  match last with None => false | Some t => Qltb (now - t) cooldown end.
Definition later_of (a b : option Q) : option Q :=
  match a, b with Some x, Some y => Some (Qmax x y) | None, b => b | a, None => a end.

Definition decide_event (a : action) : St unit :=
  update (λ c, Controller (lifecycles c) (meter c) (counts c) (last_reactive c) (last_borrow c) (last_return c) (rejection c) (decisions c ++ [a])).
Definition reject (why : string) : St bool := update (with_rejection (Some why)) ;; mret false.

(** The bookkeeping of a borrow. *)
Definition book_borrow (now seconds : Q) (c : controller) : controller :=
  let k := counts c in
  Controller (lifecycles c) (meter c)
    (Counters (borrow_count k + 1) (borrow_service_seconds k + seconds) (return_count k) (return_release_count k)
       (return_service_seconds k) (reclaim_rejection_count k) (checkpoint_timeout_count k) (low_route_fast_path_count k))
    (last_reactive c) (Some now) (last_return c) (rejection c) (decisions c).

(** [_record_borrow] *)
Definition record_borrow (v : vm) : St bool :=
  busy ← ask borrow_busy;
  if busy : bool then reject "borrow_in_progress"
  else
    update (with_rejection None) ;;
    if borrowing_disabled then reject "borrowing_disabled"
    else
      lent ← ask (λ e, borrowed v e && allocates_shared v e);
      if lent : bool then mret true
      else
        s ← get;
        if bool_decide (memory_scheduling cfg = Joint) && since (monotonic (env s)) (last_borrow (ctl s)) (borrow_cooldown cfg)
        then reject "borrow_cooldown"
        else
          r ← try_except (seconds ← on (borrow_shared v); mret (Some seconds))
                (λ e, match e with
                      | WarmCapacityError _ => update (with_rejection (Some "shared_capacity_unavailable")) ;; mret None
                      | NumaRebindIncomplete =>
                          update (with_rejection (Some "borrow_rebind_incomplete")) ;; on (quarantine v) ;; mret None
                      | NumaBorrowUnavailable => update (with_rejection (Some "borrow_rebind_unavailable")) ;; mret None
                      | e => raise e
                      end);
          match r with
          | None => mret false
          | Some None => reject "lifecycle_not_resident"
          | Some (Some seconds) => now ← ask monotonic; update (book_borrow now seconds) ;; mret true
          end.

Definition book_rejection (timed_out : bool) (c : controller) : controller :=
  let k := counts c in
  with_counts (Counters (borrow_count k) (borrow_service_seconds k) (return_count k) (return_release_count k)
    (return_service_seconds k) (reclaim_rejection_count k + 1) (checkpoint_timeout_count k + (if timed_out then 1 else 0))
    (low_route_fast_path_count k)) c.

(** [_reclaim_one] *)
Definition reclaim_one (t : option tier) : St bool :=
  try_exception (on (evict_one t))
    (λ e, match e with
          | ApiError 408 => update (book_rejection true) ;; mret false
          | PressureReclaimRejected => update (book_rejection false) ;; mret false
          | e => raise e
          end).

(** The VMs of the registry, in order. *)
Definition all_vms (c : controller) : list vm := (vals (lifecycles c)) ≫= λ p, [p.1; p.2].

(** The loop that ranks the candidates. *)
Fixpoint rank (vs : list vm) (acc : list (Z * vm)) : St (list (Z * vm)) :=
  match vs with
  | [] => mret acc
  | v :: vs' =>
      o ← on (observe v);
      rank vs' (match o with Some o => acc ++ [(- local_bytes o, v)] | None => acc end)
  end.
Definition by_local (a b : Z * vm) : comparison := lex (Z.compare a.1 b.1) (String.compare a.2 b.2).

(** [_next_borrow_candidate] *)
Definition next_borrow_candidate : St (option vm) :=
  if negb (has_borrower cfg) then mret None
  else
    headroom ← ask borrow_headroom;
    if headroom =? 0 then update (with_rejection (Some "shared_capacity_unavailable")) ;; mret None
    else
      s ← get;
      let candidates := filter (λ v, resident v (env s) && negb (borrowed v (env s) && allocates_shared v (env s))
                                     && (0 <? configured_bytes v (env s)) && (configured_bytes v (env s) <=? headroom) = true)
                          (all_vms (ctl s)) in
      (if bool_decide (candidates = []) then update (with_rejection (Some "no_capacity_eligible_borrow_candidate")) else mret tt) ;;
      ranked ← rank candidates [];
      mret (snd <$> min_by by_local ranked).

(** [_borrow_one] *)
Definition borrow_one : St bool :=
  c ← next_borrow_candidate;
  match c with None => mret false | Some v => record_borrow v end.

(** The victim and the tier a calibrated reclaim aims at: it must not make the
    WARM pool spill. *)
Definition plan_reclaim (candidate : option (Z * Z)) (pool : pool_view) : option (Z * Z) * tier :=
  let t := if destination_cold cfg then Cold else Warm in
  match candidate, t with
  | Some (_, required), Warm =>
      if required <=? 0 then (None, Warm)
      else if capacity_bytes pool <? accounted_bytes pool + required
           then if spills_to_cold cfg then (candidate, Cold) else (None, Warm)
           else (candidate, Warm)
  | _, _ => (candidate, t)
  end.

(** [order]: the chosen action first. *)
Definition action_order (chosen : option action) : list action :=
  match chosen with
  | Some Borrow => [Borrow; Reclaim]
  | Some a => a :: filter (λ x, x ≠ a) [Reclaim; Borrow]
  | None => [Reclaim; Borrow]
  end.

Fixpoint try_actions (order : list action) (borrow : option vm) (reclaim : option (Z * Z)) (t : tier) : St action :=
  match order with
  | [] => decide_event Wait ;; mret Wait
  | a :: order' =>
      done ← match a, borrow, reclaim with
             | Reclaim, _, Some _ => reclaim_one (Some t)
             | Borrow, Some v, _ => record_borrow v
             | _, _, _ => mret false
             end;
      if done : bool then decide_event a ;; mret a else try_actions order' borrow reclaim t
  end.

(** [_joint_relieve_pressure] *)
Definition relieve (preferred : option vm) : St action :=
  update (with_rejection None) ;;
  busy ← ask borrow_busy;
  let available := negb borrowing_disabled && negb busy in
  (if negb borrowing_disabled && busy then update (with_rejection (Some "borrow_in_progress")) else mret tt) ;;
  match cost_model cfg with
  | None =>
      reclaimed ← reclaim_one None;
      if reclaimed : bool then decide_event Reclaim ;; mret Reclaim
      else
        borrowed ← (if available then match preferred with Some v => record_borrow v | None => borrow_one end else mret false);
        let a := if borrowed : bool then Borrow else Wait in
        decide_event a ;; mret a
  | Some costs =>
      borrow ← (if available then match preferred with Some v => mret (Some v) | None => next_borrow_candidate end else mret None);
      s ← get;
      let '(reclaim, t) := plan_reclaim (reclaim_candidate (env s)) (pool_snapshot (env s)) in
      chosen ← lift (choose costs (flip configured_bytes (env s) <$> borrow) (fst <$> reclaim) t);
      try_actions (action_order chosen) borrow reclaim t
  end.

(** [progress_fits_below_low] *)
Definition progress_fits_below_low (mib : Z) : St bool :=
  s ← get;
  if capacity_claims (env s) then mret false
  else if peak_local (meter (ctl s)) + pending_upper_bound (env s) + mib * 1024 * 1024 + operation_headroom (env s) <=? low cfg
       then let k := counts (ctl s) in
            update (with_counts (Counters (borrow_count k) (borrow_service_seconds k) (return_count k) (return_release_count k)
              (return_service_seconds k) (reclaim_rejection_count k) (checkpoint_timeout_count k) (low_route_fast_path_count k + 1))) ;;
            mret true
       else mret false.

(** [route_progress_to_shared] *)
Definition route_progress_to_shared (v : vm) (mib : Z) : St bool :=
  if borrowing_disabled then mret false
  else
    lent ← ask (λ e, borrowed v e && allocates_shared v e);
    if lent : bool then mret true
    else
      fits ← progress_fits_below_low mib;
      if fits : bool then mret false
      else
        exceeds ← on (local_commitment_exceeds mib (if bool_decide (memory_scheduling cfg = Joint) then high cfg else hard cfg));
        if negb exceeds then mret false
        else
          here ← ask (resident v);
          if negb here then mret false
          else if bool_decide (memory_scheduling cfg = Joint)
               then a ← relieve (Some v); mret (bool_decide (a = Borrow))
               else record_borrow v.

(** ** Returning memory *)

(** [(shared_bytes, sandbox_id, session_id, lifecycle)], the Tool of a session or
    its Runtime. *)
Definition offer : Type := Z * vm * string * bool.
Definition by_shared (a b : offer) : comparison :=
  lex (Z.compare a.1.1.1 b.1.1.1) (lex (String.compare a.1.1.2 b.1.1.2) (String.compare a.1.2 b.1.2)).

(** The VMs of the registry; sandbox names are distinct. *)
Definition registered (c : controller) : list (string * vm * bool) :=
  (lifecycles c : list _) ≫= λ kv : string * (vm * vm), [(kv.1, kv.2.1, true); (kv.1, kv.2.2, false)].

(** The loop over the resident borrowers: those whose shared pages fit. *)
Fixpoint offers (vs : list (string * vm * bool)) (local : Z) (acc : list offer) : St (list offer) :=
  match vs with
  | [] => mret acc
  | (sid, v, tool) :: vs' =>
      o ← on (observe v);
      offers vs' local
        (match o with
         | Some o => if on_shared_node o && (local + shared_bytes o <=? high cfg) then acc ++ [(shared_bytes o, v, sid, tool)] else acc
         | None => acc
         end)
  end.

(** One candidate, fenced against its session's Tool when it is one. *)
Definition try_return (o : offer) : St (option (Q * bool)) :=
  let '(_, v, sid, tool) := o in
  mine ← (if tool : bool then on (claim_return sid) else mret true);
  if negb mine then mret None
  else
    try_finally
      (try_except (on (return_local v))
         (λ e, match e with NumaRebindIncomplete => on (quarantine v) ;; mret None | e => raise e end))
      (if tool then tell (release_return sid) else mret tt).

Fixpoint return_first (os : list offer) : St (option (Q * bool)) :=
  match os with
  | [] => mret None
  | o :: os' => r ← try_return o; match r with Some r => mret (Some r) | None => return_first os' end
  end.

Definition book_return (now seconds : Q) (released : bool) (c : controller) : controller :=
  let k := counts c in
  Controller (lifecycles c) (meter c)
    (Counters (borrow_count k) (borrow_service_seconds k) (return_count k + 1) (return_release_count k + (if released then 1 else 0))
       (return_service_seconds k + seconds) (reclaim_rejection_count k) (checkpoint_timeout_count k) (low_route_fast_path_count k))
    (last_reactive c) (last_borrow c) (Some now) (rejection c) (decisions c).

(** [_return_one] *)
Definition return_one (local : Z) : St bool :=
  if negb (has_borrower cfg) || negb (bool_decide (memory_scheduling cfg = Joint)) then mret false
  else
    s ← get;
    if since (monotonic (env s)) (later_of (last_borrow (ctl s)) (last_return (ctl s))) (return_cooldown cfg) then mret false
    else
      let vs := filter (λ x : string * vm * bool, resident x.1.2 (env s) && borrowed x.1.2 (env s) = true) (registered (ctl s)) in
      os ← offers vs local [];
      r ← return_first (sort_by by_shared os);
      match r with
      | None => mret false
      | Some (seconds, released) =>
          now ← ask monotonic;
          update (book_return now seconds released) ;; decide_event Return ;; mret true
      end.

(** ** One sample *)

Definition book_peaks (local shared combined total : Z) (c : controller) : controller :=
  let m := meter c in
  with_meter (Meters (high_crossings m) (high_overshoot_byte_seconds m) (hard_overshoot_byte_seconds m) (high_overshoot_seconds m)
    (hard_overshoot_seconds m) (Z.max (peak_local m) local) (Z.max (peak_shared m) shared) (Z.max (peak_combined m) combined)
    (Z.max (peak_shared_total m) total)) c.
Definition book_overshoot (elapsed : Q) (local : Z) (c : controller) : controller :=
  let m := meter c in
  with_meter (Meters (high_crossings m)
    (high_overshoot_byte_seconds m + inject_Z (Z.max 0 (local - high cfg)) * elapsed)
    (hard_overshoot_byte_seconds m + inject_Z (Z.max 0 (local - hard cfg)) * elapsed)
    (high_overshoot_seconds m + (if high cfg <? local then elapsed else 0))
    (hard_overshoot_seconds m + (if hard cfg <? local then elapsed else 0))
    (peak_local m) (peak_shared m) (peak_combined m) (peak_shared_total m)) c.
Definition book_crossing (c : controller) : controller :=
  let m := meter c in
  with_meter (Meters (high_crossings m + 1) (high_overshoot_byte_seconds m) (hard_overshoot_byte_seconds m) (high_overshoot_seconds m)
    (hard_overshoot_seconds m) (peak_local m) (peak_shared m) (peak_combined m) (peak_shared_total m)) c.

Definition growth_step : Z := 64 * 1024 * 1024.

(** The sample, its meters and the spill of excess WARM memory. *)
Definition measure (elapsed : Q) : St Z :=
  '(local, shared, combined) ← on tier_usage;
  excess ← on (observe_shared_live shared);
  pool ← ask pool_snapshot;
  let total := shared + (reserved_bytes pool + committed_bytes pool) + external_warm_bytes pool in
  update (book_peaks local shared combined total) ;;
  raise_if (capacity_bytes pool <? total) (RuntimeError "shared NUMA physical capacity exceeded") ;;
  (if negb (excess =? 0)
   then try_except (on spill_observed_excess ;; mret tt) (λ e, match e with WarmCapacityError _ => mret tt | e => raise e end)
   else mret tt) ;;
  update (book_overshoot elapsed local) ;;
  mret local.

(** The latch between HIGH and LOW. *)
Definition latch (local : Z) (above : bool) : St bool :=
  above ← (if (high cfg <=? local) && negb above
           then tell (set_blocked true) ;; update book_crossing ;; mret true
           else mret above);
  if (local <=? low cfg) && above then tell (set_blocked false) ;; mret false else mret above.

(** What is done about it: one action at most. *)
Definition respond (local : Z) (above : bool) : St unit :=
  let joint := bool_decide (memory_scheduling cfg = Joint) in
  blocked ← (if joint then on blocked_demand_pressure else mret false);
  returned ← (if (local <=? low cfg) && negb above && negb blocked then return_one local else mret false);
  if returned : bool then mret tt
  else if joint && (above || blocked) then relieve None ;; mret tt
  else
    a ← (if above && snapshot_pause cfg then relieve None else mret Wait);
    if negb (bool_decide (a = Wait)) then mret tt
    else if bool_decide (memory_scheduling cfg = LocalOnly ∨ memory_scheduling cfg = SnapshotOnly) then mret tt
    else if hard cfg <=? local then
      s ← get;
      if match last_reactive (ctl s) with None => true | Some r => r + growth_step <=? local end then
        ok ← borrow_one;
        raise_if (negb ok) (RuntimeError "LOCAL hard watermark reached with no borrowable VM") ;;
        update (with_reactive (Some local))
      else mret tt
    else mret tt.

(** [_sample_once] *)
Definition sample_once (elapsed : Q) (above : bool) : St bool :=
  local ← measure elapsed;
  above ← latch local above;
  respond local above ;;
  mret above.

(** The loop of [_run]: the times of the samples. *)
Fixpoint run (times : list Q) (previous : Q) (above : bool) : St bool :=
  match times with
  | [] => mret above
  | now :: times' =>
      above ← sample_once (Qmax 0 (now - previous)) above;
      run times' now above
  end.
End controller.

(** ** The latch *)

(** The specification: up at HIGH, down at LOW. *)
Definition hysteresis (cfg : config) (above : bool) (local : Z) : bool :=
  ((high cfg <=? local) || above) && negb (local <=? low cfg).
Definition rises (cfg : config) (above : bool) (local : Z) : Z := if (high cfg <=? local) && negb above then 1 else 0.
Fixpoint crossings (cfg : config) (above : bool) (locals : list Z) : Z :=
  match locals with
  | [] => 0
  | l :: ls => rises cfg above l + crossings cfg (hysteresis cfg above l) ls
  end.

Section latch.
Context {E : Type} `{!Environment E, !EnvironmentLaws E} (cfg : config).
Notation state := (@state E).

(** Everything but the sample and the latch leaves the view and the meters alone. *)
Definition same (s s' : state) : Prop := view (env s') = view (env s) ∧ meter (ctl s') = meter (ctl s).
Definition still {A} (m : M state A) : Prop := ∀ s, same s (m s).2.

Lemma same_refl s : same s s.
Proof. done. Qed.
Lemma same_trans s1 s2 s3 : same s1 s2 → same s2 s3 → same s1 s3.
Proof. intros [] []. split; congruence. Qed.

Lemma still_ret {A} (a : A) : still (mret a).
Proof. by intros s. Qed.
Lemma still_raise {A} e : still (raise e : M state A).
Proof. by intros s. Qed.
Lemma still_lift {A} (o : outcome A) : still (lift o).
Proof. by intros s. Qed.
Lemma still_get : still get.
Proof. by intros s. Qed.
Lemma still_ask {A} (f : E → A) : still (ask f).
Proof. by intros s. Qed.
Lemma still_raise_if b e : still (raise_if b e).
Proof. by intros s; destruct b. Qed.
Lemma still_bind {A B} (m : M state A) (k : A → M state B) : still m → (∀ a, still (k a)) → still (m ≫= k).
Proof.
  intros Hm Hk s. specialize (Hm s). unfold mbind, M_bind. destruct (m s) as [[a|e] s']; [|done].
  eapply same_trans; [exact Hm|apply Hk].
Qed.
Lemma still_except {A} (m : M state A) h : still m → (∀ e, still (h e)) → still (try_except m h).
Proof.
  intros Hm Hh s. specialize (Hm s). unfold try_except. destruct (m s) as [[a|e] s']; [done|].
  eapply same_trans; [exact Hm|apply Hh].
Qed.
Lemma still_finally {A} (m : M state A) fin : still m → still fin → still (try_finally m fin).
Proof.
  intros Hm Hf s. specialize (Hm s). unfold try_finally. destruct (m s) as [o s1]. specialize (Hf s1). destruct (fin s1) as [o' s2].
  eapply same_trans; [exact Hm|exact Hf].
Qed.
Lemma still_on {A} (m : M E A) : (∀ e, view (m e).2 = view e) → still (on m).
Proof. intros Hm s. unfold on. specialize (Hm (env s)). destruct (m (env s)) as [o e]. split; [exact Hm|done]. Qed.
Lemma still_update f : (∀ c, meter (f c) = meter c) → still (update f).
Proof. intros Hf s. split; [done|apply Hf]. Qed.
Lemma still_tell f : (∀ e, view (f e) = view e) → still (tell f).
Proof. intros Hf s. split; [apply Hf|done]. Qed.
End latch.

Create HintDb watermark.
#[export] Hint Resolve still_ret still_raise still_lift still_get still_ask still_raise_if still_bind still_except still_finally
  still_on still_update still_tell view_release view_live view_spill view_demand view_evict view_commitment view_claim view_observe
  view_borrow view_return view_quarantine : watermark.

Section operations.
Context {E : Type} `{!Environment E, !EnvironmentLaws E} (cfg : config).

Lemma still_reject why : still (reject why).
Proof. unfold reject. auto with watermark. Qed.
#[local] Hint Resolve still_reject : watermark.
Lemma still_decide a : still (decide_event a).
Proof. unfold decide_event. auto with watermark. Qed.
#[local] Hint Resolve still_decide : watermark.

Lemma still_record v : still (record_borrow cfg v).
Proof.
  unfold record_borrow. apply still_bind; [auto with watermark|]. intros []; [auto with watermark|].
  apply still_bind; [auto with watermark|]. intros _. destruct (borrowing_disabled cfg); [auto with watermark|].
  apply still_bind; [auto with watermark|]. intros []; [auto with watermark|]. apply still_bind; [auto with watermark|]. intros s.
  destruct (_ && _); [auto with watermark|]. apply still_bind.
  - apply still_except; [auto with watermark|]. intros []; auto 6 with watermark.
  - intros [[]|]; auto 6 with watermark.
Qed.
Lemma still_reclaim t : still (reclaim_one t).
Proof.
  unfold reclaim_one. apply still_except; [auto with watermark|]. intros e. destruct (is_exception e); [|auto with watermark].
  destruct e; auto with watermark. repeat case_match; auto 6 with watermark.
Qed.
#[local] Hint Resolve still_record still_reclaim : watermark.
Lemma still_rank vs : ∀ acc, still (rank vs acc).
Proof. induction vs; intros acc; cbn [rank]; auto with watermark. Qed.
#[local] Hint Resolve still_rank : watermark.
Lemma still_next : still (next_borrow_candidate cfg).
Proof.
  unfold next_borrow_candidate. destruct (negb _); [auto with watermark|]. apply still_bind; [auto with watermark|]. intros h.
  destruct (h =? 0); [auto 6 with watermark|]. apply still_bind; [auto with watermark|]. intros s.
  apply still_bind; [case_bool_decide; auto with watermark|]. intros _. auto with watermark.
Qed.
#[local] Hint Resolve still_next : watermark.
Lemma still_borrow_one : still (borrow_one cfg).
Proof. unfold borrow_one. apply still_bind; [auto with watermark|]. intros []; auto with watermark. Qed.
#[local] Hint Resolve still_borrow_one : watermark.
Lemma still_try order b r t : still (try_actions cfg order b r t).
Proof.
  induction order as [|a order IH]; cbn [try_actions]; [auto with watermark|]. apply still_bind.
  - destruct a, b, r; auto with watermark.
  - intros []; auto with watermark.
Qed.
#[local] Hint Resolve still_try : watermark.
Lemma still_relieve preferred : still (relieve cfg preferred).
Proof.
  unfold relieve. apply still_bind; [auto with watermark|]. intros _. apply still_bind; [auto with watermark|]. intros busy.
  cbv zeta. apply still_bind; [destruct (_ && _); auto with watermark|]. intros _. destruct (cost_model cfg) as [c|].
  - apply still_bind; [destruct (_ && _), preferred; auto with watermark|]. intros b. apply still_bind; [auto with watermark|]. intros s.
    destruct (plan_reclaim _ _ _) as [r t]. auto with watermark.
  - apply still_bind; [auto with watermark|]. intros []; [auto with watermark|].
    apply still_bind; [destruct (_ && _), preferred; auto with watermark|]. auto with watermark.
Qed.
#[local] Hint Resolve still_relieve : watermark.
Lemma still_offers vs local : ∀ acc, still (offers cfg vs local acc).
Proof. induction vs as [|[[sid v] tool] vs IH]; intros acc; cbn [offers]; auto with watermark. Qed.
Lemma still_try_return o : still (try_return o).
Proof.
  destruct o as [[[k v] sid] tool]. unfold try_return. apply still_bind; [destruct tool; auto with watermark|]. intros mine.
  destruct (negb mine); [auto with watermark|]. apply still_finally; [|destruct tool; auto with watermark].
  apply still_except; [auto with watermark|]. intros []; auto with watermark.
Qed.
#[local] Hint Resolve still_offers still_try_return : watermark.
Lemma still_first os : still (return_first os).
Proof. induction os; cbn [return_first]; [auto with watermark|]. apply still_bind; [auto with watermark|]. intros []; auto with watermark. Qed.
#[local] Hint Resolve still_first : watermark.
Lemma still_return_one local : still (return_one cfg local).
Proof.
  unfold return_one. destruct (_ || _); [auto with watermark|]. apply still_bind; [auto with watermark|]. intros s.
  destruct (since _ _ _); [auto with watermark|]. cbv zeta. apply still_bind; [auto with watermark|]. intros os.
  apply still_bind; [auto with watermark|]. intros [[]|]; auto 6 with watermark.
Qed.
#[local] Hint Resolve still_return_one : watermark.

Lemma still_respond local above : still (respond cfg local above).
Proof.
  unfold respond. cbv zeta. apply still_bind; [destruct (bool_decide _); auto with watermark|]. intros blocked.
  apply still_bind; [destruct (_ && _); auto with watermark|]. intros []; [auto with watermark|].
  destruct (_ && _); [auto with watermark|]. apply still_bind; [destruct (_ && _); auto with watermark|]. intros a.
  destruct (negb _); [auto with watermark|]. destruct (bool_decide _); [auto with watermark|]. destruct (hard cfg <=? local); [|auto with watermark].
  apply still_bind; [auto with watermark|]. intros s. destruct (match last_reactive _ with None => _ | Some _ => _ end); [|auto with watermark].
  apply still_bind; [auto with watermark|]. intros ok. auto with watermark.
Qed.
End operations.

Section runs.
Context {E : Type} `{!Environment E, !EnvironmentLaws E} (cfg : config).
Notation state := (@state E).

(** The meters after a complete measurement. *)
Definition measured (elapsed : Q) (local : Z) (m m' : meters) : Prop :=
  high_crossings m' = high_crossings m ∧ peak_local m' = Z.max (peak_local m) local ∧
  high_overshoot_byte_seconds m' = (high_overshoot_byte_seconds m + inject_Z (Z.max 0 (local - high cfg)) * elapsed)%Q ∧
  hard_overshoot_byte_seconds m' = (hard_overshoot_byte_seconds m + inject_Z (Z.max 0 (local - hard cfg)) * elapsed)%Q ∧
  high_overshoot_seconds m' = (high_overshoot_seconds m + (if high cfg <? local then elapsed else 0))%Q ∧
  hard_overshoot_seconds m' = (hard_overshoot_seconds m + (if hard cfg <? local then elapsed else 0))%Q.

Lemma measure_spec elapsed (s s' : state) o : measure cfg elapsed s = (o, s') →
  latched (env s') = latched (env s) ∧ high_crossings (meter (ctl s')) = high_crossings (meter (ctl s)) ∧
  match o with
  | Ok local => samples (env s') = samples (env s) ++ [local] ∧ measured elapsed local (meter (ctl s)) (meter (ctl s'))
  | Raise _ => ∃ extra, samples (env s') = samples (env s) ++ extra ∧ (length extra <= 1)%nat
  end.
Proof.
  unfold measure. unfold mbind at 1, M_bind at 1. unfold on at 1. pose proof (view_usage (env s)) as Hv.
  destruct (tier_usage (env s)) as [[[[local shared] combined]|e] e1]; cbn [fst snd] in Hv; unfold view in Hv; injection Hv as Hl Hsm.
  2:{ intros [= <- <-]. cbn. split_and!; [done..|]. exists []. split; [done|cbn; lia]. }
  unfold mbind at 1, M_bind at 1. unfold on at 1. cbn [env ctl]. pose proof (view_live shared e1) as Hv.
  destruct (observe_shared_live shared e1) as [[excess|e] e2]; cbn [snd] in Hv; unfold view in Hv; injection Hv as Hl2 Hsm2.
  2:{ intros [= <- <-]. cbn. rewrite Hl2, Hsm2, Hsm. split_and!; [done..|]. exists [local]. split; [done|cbn; lia]. }
  unfold ask, gets, update, modify. unfold mbind at 1, M_bind at 1. cbn [env ctl]. unfold mbind at 1, M_bind at 1. cbn [env ctl].
  rewrite bind_raise_if. destruct (_ <? _); [intros [= <- <-]; cbn; rewrite Hl2, Hsm2, Hsm; split_and!; [done..|exists [local]; split; [done|cbn; lia]]|].
  unfold mbind at 1, M_bind at 1.
  set (s2 := State _ e2). set (spill := if negb (excess =? 0) then _ else _ : M state unit).
  assert (still spill) as Hspill.
  { unfold spill. destruct (negb _); [|auto with watermark]. apply still_except; [auto with watermark|]. intros []; auto with watermark. }
  specialize (Hspill s2). destruct (spill s2) as [[[]|e] s3]; cbn [snd] in Hspill; destruct Hspill as [Hv Hm]; unfold view in Hv;
    injection Hv as Hl3 Hsm3; change (latched (env s2)) with (latched e2) in Hl3; change (samples (env s2)) with (samples e2) in Hsm3;
    intros [= <- <-]; cbn; rewrite Hl3, Hsm3, Hl2, Hsm2, Hsm, Hm; (split; [done|]); (split; [done|]).
  - split; [done|]. rewrite ?Hm. unfold s2. by split_and!.
  - exists [local]. split; [done|cbn; lia].
Qed.

Lemma latch_spec local above (s : state) : latched (env s) = above →
  ∃ s', latch cfg local above s = (Ok (hysteresis cfg above local), s') ∧ latched (env s') = hysteresis cfg above local ∧
    samples (env s') = samples (env s) ∧
    high_crossings (meter (ctl s')) = high_crossings (meter (ctl s)) + rises cfg above local ∧
    peak_local (meter (ctl s')) = peak_local (meter (ctl s)) ∧
    high_overshoot_byte_seconds (meter (ctl s')) = high_overshoot_byte_seconds (meter (ctl s)).
Proof.
  intros Ha. pose proof (λ b e, view_set b e) as Hset. unfold view in Hset. unfold latch, hysteresis, rises, tell, update, modify, mbind, M_bind, mret, M_ret.
  assert (∀ b e, latched (set_blocked b e) = b ∧ samples (set_blocked b e) = samples e) as Hset'
    by (intros b e; specialize (Hset b e); by injection Hset).
  destruct (high cfg <=? local), above, (local <=? low cfg); cbn; eexists; (split; [reflexivity|]); cbn;
    repeat rewrite ?(proj1 (Hset' _ _)), ?(proj2 (Hset' _ _)); split_and!; done || lia.
Qed.

Lemma respond_still local above (s s' : state) o : respond cfg local above s = (o, s') →
  latched (env s') = latched (env s) ∧ samples (env s') = samples (env s) ∧ meter (ctl s') = meter (ctl s).
Proof.
  intros Hr. pose proof (still_respond cfg local above s) as [Hv Hm]. rewrite Hr in Hv, Hm. cbn in *. unfold view in Hv. by injection Hv.
Qed.

(** A sample that is measured: what follows keeps the meters. *)
Lemma sample_spec elapsed above (s s' : state) o : latched (env s) = above → sample_once cfg elapsed above s = (o, s') →
  (∃ local, samples (env s') = samples (env s) ++ [local] ∧ latched (env s') = hysteresis cfg above local ∧
     high_crossings (meter (ctl s')) = high_crossings (meter (ctl s)) + rises cfg above local ∧
     (∀ a, o = Ok a → a = hysteresis cfg above local) ∧
     peak_local (meter (ctl s')) = Z.max (peak_local (meter (ctl s))) local ∧
     high_overshoot_byte_seconds (meter (ctl s'))
       = (high_overshoot_byte_seconds (meter (ctl s)) + inject_Z (Z.max 0 (local - high cfg)) * elapsed)%Q) ∨
  (∃ extra, is_ok o = false ∧ samples (env s') = samples (env s) ++ extra ∧ (length extra <= 1)%nat ∧
     latched (env s') = above ∧ high_crossings (meter (ctl s')) = high_crossings (meter (ctl s))).
Proof.
  intros Ha. unfold sample_once. unfold mbind at 1, M_bind at 1. destruct (measure cfg elapsed s) as [[local|e] s1] eqn:E1;
    apply measure_spec in E1 as (L1 & C1 & H1).
  - destruct H1 as [S1 (_ & P1 & O1 & _)]. destruct (latch_spec local above s1) as (s2 & E2 & L2 & S2 & C2 & P2 & O2); [congruence|].
    unfold mbind at 1, M_bind at 1. rewrite E2. unfold mbind, M_bind, mret, M_ret.
    destruct (respond cfg local (hysteresis cfg above local) s2) as [[[]|e] s3] eqn:E3; apply respond_still in E3 as (L3 & S3 & M3);
      intros [= <- <-]; left; exists local; rewrite M3; split_and!; try congruence; lia.
  - destruct H1 as (extra & S1 & Hlen). intros [= <- <-]. right. exists extra. split_and!; try done; congruence.
Qed.
End runs.

(** C36: however the samples turn out and whatever else changes meanwhile, the
    admission of new sessions is latched exactly as a hysteresis between HIGH and
    LOW says of the node's samples: up when a sample reaches HIGH, down when one
    falls to LOW, and the crossings counted are its rising edges.  When the
    controller stops on an error, at most its last sample is missing. *)
Theorem latch_follows_hysteresis {E : Type} `{!Environment E, !EnvironmentLaws E} (cfg : config) (times : list Q) (previous : Q)
    (above : bool) (s s' : @state E) (o : outcome bool)
    (Hinit : latched (env s) = above) (Hrun : run cfg times previous above s = (o, s')) :
  ∃ locals extra, samples (env s') = samples (env s) ++ locals ++ extra ∧ (length extra <= 1)%nat ∧
    latched (env s') = foldl (hysteresis cfg) above locals ∧
    high_crossings (meter (ctl s')) = high_crossings (meter (ctl s)) + crossings cfg above locals ∧
    ∀ a, o = Ok a → extra = [] ∧ length locals = length times ∧ a = latched (env s').
Proof.
  revert previous above s Hinit Hrun. induction times as [|now times IH]; intros previous above s Hinit; cbn [run].
  { intros [= <- <-]. exists [], []. rewrite app_nil_r. split_and!; [done|cbn; lia|done|cbn; lia|]. by intros a [= <-]. }
  unfold mbind, M_bind. destruct (sample_once _ _ above s) as [o1 s1] eqn:E1.
  apply sample_spec in E1 as [(l & S1 & L1 & C1 & A1 & _)|(extra & Ho & S1 & Hlen & L1 & C1)]; [| |done].
  - destruct o1 as [a|e].
    + rewrite (A1 a eq_refl). intros Hrun. apply IH in Hrun as (ls & extra & S2 & Hlen & L2 & C2 & A2); [|done].
      exists (l :: ls), extra. rewrite S2, S1, <- app_assoc. split_and!; [done|done|done|cbn [crossings]; lia|].
      intros a' Ha'. destruct (A2 a' Ha') as (? & ? & ?). split_and!; [done|cbn; congruence|done].
    + intros [= <- <-]. exists [l], []. split_and!; [done|cbn; lia|done|cbn; lia|done].
  - destruct o1; [done|]. intros [= <- <-]. exists [], extra. split_and!; [done|done|done|cbn; lia|done].
Qed.

(** The fast path that lets a Tool start without reading the node is sound:
    after any completed run, if it answers that the prediction fits, then every
    sample taken so far, with the pending claims, the prediction and the headroom
    on top, is at most LOW. *)
Theorem below_low_sound {E : Type} `{!Environment E, !EnvironmentLaws E} (cfg : config) (times : list Q) (previous : Q)
    (s s1 s2 : @state E) (above : bool) (mib : Z)
    (Hinit : latched (env s) = false) (Hpeak : Forall (λ l, l <= peak_local (meter (ctl s))) (samples (env s)))
    (Hrun : run cfg times previous false s = (Ok above, s1)) (Hfits : progress_fits_below_low cfg mib s1 = (Ok true, s2)) :
  Forall (λ l, l + pending_upper_bound (env s1) + mib * 1024 * 1024 + operation_headroom (env s1) <= low cfg) (samples (env s1)) ∧
  (length (samples (env s1)) = length (samples (env s)) + length times)%nat ∧ capacity_claims (env s1) = false.
Proof.
  assert (Forall (λ l, l <= peak_local (meter (ctl s1))) (samples (env s1)) ∧ (length (samples (env s1)) = length (samples (env s)) + length times)%nat) as [Hall Hlen].
  { clear Hfits. revert previous s Hinit Hpeak Hrun. generalize false as b. induction times as [|now times IH]; intros b previous s Hinit Hpeak; cbn [run].
    { intros [= _ <-]. split; [done|cbn; lia]. }
    unfold mbind, M_bind. destruct (sample_once _ _ b s) as [o1 s1'] eqn:E1.
    apply sample_spec in E1 as [(l & S1 & L1 & C1 & A1 & P1 & _)|(extra & Ho & S1 & Hlen & L1 & C1)]; [| |done].
    - destruct o1 as [a|e]; [|done]. rewrite (A1 a eq_refl). intros Hrun. apply IH in Hrun as [? Hn]; [|done|].
      + split; [done|]. rewrite Hn, S1, length_app. cbn. lia.
      + rewrite S1, P1. apply Forall_app. split; [eapply Forall_impl; [exact Hpeak|]; cbn; intros; lia|]. apply Forall_singleton. lia.
    - by destruct o1. }
  revert Hfits. unfold progress_fits_below_low. rewrite bind_get. destruct (capacity_claims (env s1)); [done|].
  destruct (Z.leb_spec (peak_local (meter (ctl s1)) + pending_upper_bound (env s1) + mib * 1024 * 1024 + operation_headroom (env s1)) (low cfg)); [|done].
  intros _. split_and!; [|done|done]. eapply Forall_impl; [exact Hall|]. cbn. intros. lia.
Qed.

(** ** Actions *)

Section actions.
Context {E : Type} `{!Environment E} (cfg : config).
Notation state := (@state E).

(** Memory moved so far: borrows, returns, and reclaims decided. *)
Definition acts (c : controller) : Z :=
  borrow_count (counts c) + return_count (counts c) + Z.of_nat (length (filter (λ a, a = Reclaim) (decisions c))).

Definition idle {A} (m : M state A) : Prop := ∀ s, acts (ctl (m s).2) = acts (ctl s).
(** At most one action, and then with a result [ok] accepts. *)
Definition once {A} (ok : outcome A → bool) (m : M state A) : Prop :=
  ∀ s, acts (ctl (m s).2) = acts (ctl s) ∨ (ok (m s).1 = true ∧ acts (ctl (m s).2) = acts (ctl s) + 1).

Lemma idle_once {A} ok (m : M state A) : idle m → once ok m.
Proof. intros Hm s. left. apply Hm. Qed.
Lemma idle_ret {A} (a : A) : idle (mret a).
Proof. by intros s. Qed.
Lemma idle_raise {A} e : idle (raise e : M state A).
Proof. by intros s. Qed.
Lemma idle_lift {A} (o : outcome A) : idle (lift o).
Proof. by intros s. Qed.
Lemma idle_get : idle get.
Proof. by intros s. Qed.
Lemma idle_ask {A} (f : E → A) : idle (ask f).
Proof. by intros s. Qed.
Lemma idle_tell (f : E → E) : idle (tell f).
Proof. by intros s. Qed.
Lemma idle_on {A} (m : M E A) : idle (on m).
Proof. intros s. unfold on. by destruct (m (env s)). Qed.
Lemma idle_raise_if b e : idle (raise_if b e).
Proof. by intros s; destruct b. Qed.
Lemma idle_update f : (∀ c, acts (f c) = acts c) → idle (update f).
Proof. intros Hf s. apply Hf. Qed.
Lemma idle_bind {A B} (m : M state A) (k : A → M state B) : idle m → (∀ a, idle (k a)) → idle (m ≫= k).
Proof. intros Hm Hk s. specialize (Hm s). unfold mbind, M_bind. destruct (m s) as [[a|e] s']; [|done]. cbn in Hm. by rewrite Hk. Qed.
Lemma idle_except {A} (m : M state A) h : idle m → (∀ e, idle (h e)) → idle (try_except m h).
Proof. intros Hm Hh s. specialize (Hm s). unfold try_except. destruct (m s) as [[a|e] s']; [done|]. cbn in Hm. by rewrite Hh. Qed.
Lemma idle_finally {A} (m : M state A) fin : idle m → idle fin → idle (try_finally m fin).
Proof.
  intros Hm Hf s. specialize (Hm s). unfold try_finally. destruct (m s) as [o s1]. specialize (Hf s1). destruct (fin s1) as [o' s2].
  cbn in *. congruence.
Qed.
Lemma once_after {A B} ok (m : M state A) (k : A → M state B) : idle m → (∀ a, once ok (k a)) → once ok (m ≫= k).
Proof. intros Hm Hk s. specialize (Hm s). unfold mbind, M_bind. destruct (m s) as [[a|e] s']; cbn in *; [rewrite <- Hm; apply Hk|by left]. Qed.
(** A first part that acted leaves nothing to do. *)
Lemma once_then {A B} ok ok' (m : M state A) (k : A → M state B) : once ok m →
  (∀ a, ok (Ok a) = true → ∀ s, acts (ctl (k a s).2) = acts (ctl s) ∧ ok' (k a s).1 = true) → (∀ e, ok (Raise e) = false) →
  (∀ a, ok (Ok a) = false → once ok' (k a)) → once ok' (m ≫= k).
Proof.
  intros Hm Hdone He Hk s. specialize (Hm s). unfold mbind, M_bind. destruct (m s) as [[a|e] s'].
  - destruct (ok (Ok a)) eqn:Eo.
    + destruct (Hdone a Eo s') as [H1 H2]. destruct Hm as [Hm|[_ Hm]]; cbn in Hm; [left|right]; rewrite H1; done.
    + destruct Hm as [Hm|[Hx _]]; [|cbn in Hx; congruence]. cbn in Hm. rewrite <- Hm. by apply Hk.
  - destruct Hm as [Hm|[Hx _]]; [by left|]. cbn in Hx. rewrite He in Hx. done.
Qed.
End actions.

Create HintDb acting.
#[export] Hint Resolve idle_once idle_ret idle_raise idle_lift idle_get idle_ask idle_tell idle_on idle_raise_if idle_update idle_bind
  idle_except idle_finally : acting.

Section one_action.
Context {E : Type} `{!Environment E} (cfg : config).
Notation state := (@state E).

Definition yes (o : outcome bool) : bool := match o with Ok b => b | Raise _ => false end.
Definition acted (o : outcome action) : bool := match o with Ok a => negb (bool_decide (a = Wait)) | Raise _ => false end.

Lemma idle_reject why : idle (reject why : M state bool).
Proof. unfold reject. auto with acting. Qed.
#[local] Hint Resolve idle_reject : acting.
Lemma once_record v : once yes (record_borrow cfg v : M state bool).
Proof.
  unfold record_borrow. apply once_after; [auto with acting|]. intros []; [auto with acting|].
  apply once_after; [auto with acting|]. intros _. destruct (borrowing_disabled cfg); [auto with acting|].
  apply once_after; [auto with acting|]. intros []; [auto with acting|]. apply once_after; [auto with acting|]. intros s.
  destruct (_ && _); [auto with acting|]. apply once_after.
  - apply idle_except; [auto with acting|]. intros []; auto 6 with acting.
  - intros [[q|]|]; [|auto with acting..]. apply once_after; [auto with acting|]. intros now s'.
    right. split; [done|]. unfold acts, update, modify, mbind, M_bind, mret, M_ret. cbn. lia.
Qed.
Lemma idle_reclaim t : idle (reclaim_one t : M state bool).
Proof.
  unfold reclaim_one. apply idle_except; [auto with acting|]. intros e. destruct (is_exception e); [|auto with acting].
  destruct e; auto with acting. repeat case_match; auto 6 with acting.
Qed.
Lemma decide_acts a s : acts (ctl (decide_event a s : outcome unit * state).2) = acts (ctl s) + (if bool_decide (a = Reclaim) then 1 else 0).
Proof.
  unfold decide_event, update, modify, acts. cbn. rewrite filter_app, length_app, filter_cons, filter_nil.
  case_bool_decide; destruct (decide (a = Reclaim)); cbn; try done; lia.
Qed.
Lemma idle_rank vs : ∀ acc, idle (rank vs acc : M state _).
Proof. induction vs; intros acc; cbn [rank]; auto with acting. Qed.
Lemma idle_next : idle (next_borrow_candidate cfg : M state _).
Proof.
  unfold next_borrow_candidate. destruct (negb _); [auto with acting|]. apply idle_bind; [auto with acting|]. intros h.
  destruct (h =? 0); [auto 6 with acting|]. apply idle_bind; [auto with acting|]. intros s.
  apply idle_bind; [case_bool_decide; auto with acting|]. intros _. apply idle_bind; [apply idle_rank|auto with acting].
Qed.
Lemma once_borrow_one : once yes (borrow_one cfg : M state bool).
Proof. unfold borrow_one. apply once_after; [apply idle_next|]. intros []; [apply once_record|auto with acting]. Qed.

Lemma bind_run {A B} (m : M state A) (k : A → M state B) s :
  (m ≫= k) s = match m s with (Ok a, s') => k a s' | (Raise e, s') => (Raise e, s') end.
Proof. done. Qed.
Lemma decide_run a (s : state) : ∃ s', (decide_event a ;; mret a) s = (Ok a, s') ∧
  acts (ctl s') = acts (ctl s) + (if bool_decide (a = Reclaim) then 1 else 0).
Proof. exists (decide_event a s).2. split; [done|apply decide_acts]. Qed.

Lemma once_decide (m : M state bool) a (k : M state action) : a ≠ Wait → once yes m ∧ a ≠ Reclaim ∨ idle m → once acted k →
  once acted (m ≫= λ b : bool, if b then decide_event a ;; mret a else k).
Proof.
  intros Ha Hm Hk s. rewrite (bind_run m). assert (acted (Ok a) = true) as Hok by (cbn; by rewrite bool_decide_false).
  destruct Hm as [[Hm Hr]|Hm]; specialize (Hm s); destruct (m s) as [[[]|e] s']; cbn [snd fst yes] in Hm.
  - destruct (decide_run a s') as (s2 & -> & Hd). rewrite bool_decide_false in Hd by done. cbn [fst snd].
    destruct Hm as [Hm|[_ Hm]]; [left; lia|right; split; [done|lia]].
  - destruct Hm as [Hm|[? _]]; [|done]. rewrite <- Hm. apply Hk.
  - destruct Hm as [Hm|[? _]]; [by left|done].
  - destruct (decide_run a s') as (s2 & -> & Hd). cbn [fst snd]. case_bool_decide; [right; split; [done|lia]|left; lia].
  - rewrite <- Hm. apply Hk.
  - by left.
Qed.

Lemma once_wait : once acted (decide_event Wait ;; mret Wait : M state action).
Proof. intros s. left. destruct (decide_run Wait s) as (s2 & -> & Hd). rewrite bool_decide_false in Hd by done. cbn [snd]. lia. Qed.

Lemma once_last (m : M state bool) : once yes m →
  once acted (b ← m; decide_event (if b : bool then Borrow else Wait) ;; mret (if b : bool then Borrow else Wait)).
Proof.
  intros Hm s. rewrite (bind_run m). specialize (Hm s). destruct (m s) as [[[]|e] s']; cbn [fst snd yes] in Hm.
  - destruct (decide_run Borrow s') as (s2 & -> & Hd). rewrite bool_decide_false in Hd by done. cbn [fst snd].
    destruct Hm as [|[_ ?]]; [left; lia|right; split; [done|lia]].
  - destruct (decide_run Wait s') as (s2 & -> & Hd). rewrite bool_decide_false in Hd by done. cbn [fst snd].
    destruct Hm as [|[? _]]; [left; lia|done].
  - destruct Hm as [|[? _]]; [by left|done].
Qed.

Lemma once_try order b r t : Forall (λ a, a = Reclaim ∨ a = Borrow) order → once acted (try_actions cfg order b r t : M state action).
Proof.
  induction 1 as [|a order Ha _ IH]; cbn [try_actions]; [apply once_wait|]. apply once_decide; [by destruct Ha as [-> | ->]| |done].
  destruct Ha as [-> | ->]; [right; destruct b, r; auto with acting; apply idle_reclaim|left; split; [|done]].
  destruct b; [apply once_record|auto with acting].
Qed.

Lemma choose_action c b r t a : choose c b r t = Ok (Some a) → a = Reclaim ∨ a = Borrow.
Proof.
  unfold choose, borrow_estimate, reclaim_estimate. destruct (positive b), (positive r); cbn; try (destruct (valid_size _); cbn; try done);
    try (destruct (valid_size _); cbn; try done); try (destruct t, (cold_checkpoint c), (cold_restore c); cbn; try done); try case_match;
    try (intros [= <-]); auto.
Qed.
Lemma order_actions chosen : (∀ a, chosen = Some a → a = Reclaim ∨ a = Borrow) → Forall (λ a, a = Reclaim ∨ a = Borrow) (action_order chosen).
Proof.
  intros Hc. assert (∀ a b, (a = Reclaim ∨ a = Borrow) → (b = Reclaim ∨ b = Borrow) → Forall (λ a, a = Reclaim ∨ a = Borrow) [a; b]) as H
    by (intros; by repeat apply Forall_cons_2).
  destruct chosen as [a|]; [|apply H; auto]. destruct (Hc a eq_refl) as [-> | ->]; apply H; auto.
Qed.

Lemma once_relieve preferred : once acted (relieve cfg preferred : M state action).
Proof.
  unfold relieve. apply once_after; [auto with acting|]. intros _. apply once_after; [auto with acting|]. intros busy. cbv zeta.
  apply once_after; [destruct (_ && _); auto with acting|]. intros _. destruct (cost_model cfg) as [c|].
  - apply once_after; [destruct (_ && _), preferred; auto using idle_next with acting|]. intros b. apply once_after; [auto with acting|]. intros s.
    destruct (plan_reclaim _ _ _) as [r t]. intros s'. rewrite bind_lift. destruct (choose _ _ _ _) as [chosen|e] eqn:Ec; [|by left].
    apply once_try, order_actions. intros a ->. by eapply choose_action.
  - apply once_decide; [done|right; apply idle_reclaim|].
    apply once_last. destruct (_ && _); [|auto with acting]. destruct preferred; [apply once_record|apply once_borrow_one].
Qed.

Lemma idle_offers vs local : ∀ acc, idle (offers cfg vs local acc : M state _).
Proof. induction vs as [|[[sid v] tool] vs IH]; intros acc; cbn [offers]; auto with acting. Qed.
Lemma idle_try_return o : idle (try_return o : M state _).
Proof.
  destruct o as [[[k v] sid] tool]. unfold try_return. apply idle_bind; [destruct tool; auto with acting|]. intros mine.
  destruct (negb mine); [auto with acting|]. apply idle_finally; [|destruct tool; auto with acting].
  apply idle_except; [auto with acting|]. intros []; auto with acting.
Qed.
Lemma idle_first os : idle (return_first os : M state _).
Proof. induction os; cbn [return_first]; [auto with acting|]. apply idle_bind; [apply idle_try_return|]. intros []; auto with acting. Qed.
Lemma once_return_one local : once yes (return_one cfg local : M state bool).
Proof.
  unfold return_one. destruct (_ || _); [auto with acting|]. apply once_after; [auto with acting|]. intros s.
  destruct (since _ _ _); [auto with acting|]. cbv zeta. apply once_after; [apply idle_offers|]. intros os.
  apply once_after; [apply idle_first|]. intros [[q b]|]; [|auto with acting]. apply once_after; [auto with acting|]. intros now s'.
  right. split; [done|]. unfold decide_event, update, modify, acts, mbind, M_bind, mret, M_ret. cbn.
  rewrite filter_app, length_app, filter_cons, filter_nil. destruct (decide (Return = Reclaim)); [done|]. cbn. lia.
Qed.

Definition any {A} (o : outcome A) : bool := true.
Lemma once_any {A B} ok (m : M state A) (k : A → M state B) : once ok m → (∀ a, ok (Ok a) = true → idle (k a)) →
  (∀ a, ok (Ok a) = false → once any (k a)) → once any (m ≫= k).
Proof.
  intros Hm Hd Hk s. specialize (Hm s). rewrite (bind_run m). destruct (m s) as [[a|e] s'].
  - destruct (ok (Ok a)) eqn:Eo.
    + cbn [snd] in Hm. rewrite (Hd a Eo). destruct Hm as [|[_ ?]]; [by left|by right].
    + destruct Hm as [Hm|[Hx _]]; [|cbn in Hx; congruence]. cbn in Hm. rewrite <- Hm. by apply Hk.
  - destruct Hm as [Hm|[_ Hm]]; [by left|by right].
Qed.

Lemma once_respond local above : once any (respond cfg local above : M state unit).
Proof.
  unfold respond. cbv zeta. apply once_after; [destruct (bool_decide _); auto with acting|]. intros blocked.
  apply (once_any yes); [destruct (_ && _); [apply once_return_one|auto with acting]| |].
  { intros [] Hy; [auto with acting|done]. }
  intros returned Hy. destruct returned; [done|]. destruct (_ && _).
  { apply (once_any acted); [apply once_relieve|auto with acting..]. }
  apply (once_any acted); [destruct (_ && _); [apply once_relieve|auto with acting]| |].
  - intros a Ha. cbn in Ha. rewrite Ha. auto with acting.
  - intros a Ha. cbn in Ha. rewrite Ha. cbv beta iota. destruct (bool_decide (memory_scheduling cfg = _ ∨ _)); [auto with acting|]. destruct (hard cfg <=? local); [|auto with acting].
    apply once_after; [auto with acting|]. intros s. destruct (match last_reactive _ with None => _ | Some _ => _ end); [|auto with acting].
    apply (once_any yes); [apply once_borrow_one|intros ok _; auto 6 with acting|intros ok _; apply idle_once; auto 6 with acting].
Qed.

Lemma idle_measure elapsed : idle (measure cfg elapsed : M state Z).
Proof.
  unfold measure. apply idle_bind; [auto with acting|]. intros [[local shared] combined]. apply idle_bind; [auto with acting|]. intros excess.
  apply idle_bind; [auto with acting|]. intros pool. cbv zeta. apply idle_bind; [auto with acting|]. intros _.
  apply idle_bind; [auto with acting|]. intros _. apply idle_bind; [|auto with acting].
  destruct (negb _); [|auto with acting]. apply idle_except; [auto with acting|]. intros []; auto with acting.
Qed.
Lemma idle_latch local above : idle (latch cfg local above : M state bool).
Proof. unfold latch. apply idle_bind; [destruct (_ && _); auto with acting|]. intros b. destruct (_ && _); auto with acting. Qed.
Lemma once_sample elapsed above : once any (sample_once cfg elapsed above : M state bool).
Proof.
  unfold sample_once. apply once_after; [apply idle_measure|]. intros local. apply once_after; [apply idle_latch|]. intros a.
  apply (once_any any); [apply once_respond|auto with acting..].
Qed.

(** *** Returning memory *)

Lemma on_run {A} (m : M E A) (s s' : state) o : on m s = (o, s') → ctl s' = ctl s ∧ m (env s) = (o, env s').
Proof. unfold on. destruct (m (env s)) as [o' e]. by intros [= <- <-]. Qed.

Lemma offers_spec vs local : ∀ acc (s s' : state) os, offers cfg vs local acc s = (Ok os, s') →
  ctl s' = ctl s ∧ ∀ x, x ∈ os → x ∈ acc ∨ ∃ sid v tool e o, (sid, v, tool) ∈ vs ∧ (observe v e).1 = Ok (Some o) ∧
    on_shared_node o = true ∧ local + shared_bytes o <= high cfg ∧ x = (shared_bytes o, v, sid, tool).
Proof.
  induction vs as [|[[sid v] tool] vs IH]; intros acc s s' os; cbn [offers].
  { intros [= <- <-]. split; [done|]. by left. }
  intros (o & s1 & [C1 H1]%on_run & [C2 H2]%IH)%bind_ok_inv. split; [congruence|]. intros x [Hx|(sid' & v' & tool' & e & o' & Hin & Hr)]%H2.
  - destruct o as [o|]; [|by left]. destruct (on_shared_node o && _) eqn:Ec; [|by left]. apply andb_prop in Ec as [En El%Z.leb_le].
    apply elem_of_app in Hx as [?|Hx%list_elem_of_singleton]; [by left|right]. exists sid, v, tool, (env s), o.
    split_and!; [by left|by rewrite H1|done..].
  - right. exists sid', v', tool', e, o'. split; [by right|done].
Qed.

Lemma try_return_spec k v sid tool (s s' : state) r : try_return (k, v, sid, tool) s = (Ok (Some r), s') →
  ctl s' = ctl s ∧ ∃ e e', return_local v e = (Ok (Some r), e') ∧ (tool = true → ∃ e0, claim_return sid e0 = (Ok true, e)) ∧
    env s' = if tool then release_return sid e' else e'.
Proof.
  unfold try_return. intros (mine & s1 & Hm & Hrun)%bind_ok_inv.
  assert (ctl s1 = ctl s ∧ (tool = true → claim_return sid (env s) = (Ok mine, env s1))) as [C1 Hclaim].
  { destruct tool; [apply on_run in Hm as [? ?]; done|by injection Hm as <- <-]. }
  destruct mine; cbn [negb] in Hrun; [|by injection Hrun]. revert Hrun. unfold try_finally, try_except.
  destruct (on (return_local v) s1) as [o2 s2] eqn:E2. apply on_run in E2 as [C2 E2]. destruct o2 as [r2|e2].
  - destruct tool; cbn; intros [= -> <-]; (split; [cbn; congruence|]); exists (env s1), (env s2); (split; [done|]); split; try done.
    intros _. exists (env s). by apply Hclaim.
  - intros Hrun. exfalso. revert Hrun. unfold on, mbind, M_bind, mret, M_ret, raise, tell, modify.
    destruct e2, tool; cbn; try (destruct (quarantine v (env s2)) as [[] ?]; cbn); done.
Qed.

Lemma return_first_spec os : ∀ (s s' : state) r, return_first os s = (Ok (Some r), s') → ctl s' = ctl s ∧
  ∃ k v sid tool e e', (k, v, sid, tool) ∈ os ∧ return_local v e = (Ok (Some r), e') ∧
    (tool = true → ∃ e0, claim_return sid e0 = (Ok true, e)).
Proof.
  induction os as [|[[[k v] sid] tool] os IH]; intros s s' r; cbn [return_first]; [done|].
  intros (r1 & s1 & H1 & Hrun)%bind_ok_inv. destruct r1 as [r1|].
  - injection Hrun as -> <-. apply try_return_spec in H1 as (C1 & e & e' & H2 & H3 & _). split; [done|].
    exists k, v, sid, tool, e, e'. split_and!; [by left|done..].
  - assert (ctl s1 = ctl s) as C1.
    { clear Hrun. revert H1. unfold try_return. intros (mine & s2 & Hm & Hrun)%bind_ok_inv.
      assert (ctl s2 = ctl s) as C2 by (destruct tool; [by apply on_run in Hm as [? _]|by injection Hm as <- <-]).
      destruct mine; [|by injection Hrun as <-]. cbn [negb] in Hrun. revert Hrun. unfold try_finally, try_except.
      destruct (on (return_local v) s2) as [o3 s3] eqn:E3. apply on_run in E3 as [C3 _].
      destruct o3 as [r3|e3]; [destruct tool; cbn; intros [= _ <-]; cbn; congruence|].
      unfold on, mbind, M_bind, mret, M_ret, raise, tell, modify.
      destruct e3, tool; cbn; try (destruct (quarantine v (env s3)) as [[] ?]; cbn); try done; intros [= <-]; cbn; congruence. }
    apply IH in Hrun as (C2 & k' & v' & sid' & tool' & e & e' & Hin & Hr). split; [congruence|].
    exists k', v', sid', tool', e, e'. split; [by right|done].
Qed.
End one_action.

Lemma since_false now a b cooldown : since now (later_of a b) cooldown = false →
  ∀ t, a = Some t ∨ b = Some t → (cooldown <= now - t)%Q.
Proof.
  intros Hs t Ht. assert (∀ x, Qltb (now - x) cooldown = false → (cooldown <= now - x)%Q) as Hge.
  { intros x Hx. destruct (Qltb_spec (now - x) cooldown) as [|Hn]; [done|]. by apply Qnot_lt_le. }
  destruct a as [a|], b as [b|]; cbn in Hs; try apply Hge in Hs; destruct Ht as [[= <-]|[= <-]]; try done.
  - pose proof (Q.le_max_l a b). lra.
  - pose proof (Q.le_max_r a b). lra.
Qed.

(** One sample moves memory at most once: it lends shared memory to one VM,
    takes it back from one, or checkpoints one session, and otherwise only
    waits; this holds for samples that fail, too. *)
Theorem one_action_per_sample {E : Type} `{!Environment E} (cfg : config) (elapsed : Q) (above : bool) (s s' : @state E) (o : outcome bool)
    (Hrun : sample_once cfg elapsed above s = (o, s')) :
  acts (ctl s') = acts (ctl s) ∨ acts (ctl s') = acts (ctl s) + 1.
Proof. pose proof (once_sample cfg elapsed above s) as H. rewrite Hrun in H. cbn in H. destruct H as [|[_ ?]]; auto. Qed.

(** Memory is only taken back from a resident borrower of a registered
    session, whose shared pages an observation has found on the shared node and
    small enough to keep the node at most at HIGH, whose Tool, if it is one, was
    claimed against its session, and when both cooldowns have passed; the
    controller then records one return and one decision. *)
Theorem return_is_safe {E : Type} `{!Environment E} (cfg : config) (local : Z) (s s' : @state E)
    (Hrun : return_one cfg local s = (Ok true, s')) :
  memory_scheduling cfg = Joint ∧ has_borrower cfg = true ∧
  (∀ t, last_borrow (ctl s) = Some t ∨ last_return (ctl s) = Some t → (return_cooldown cfg <= monotonic (env s) - t)%Q) ∧
  (∃ sid v tool e1 o e e' r, (sid, v, tool) ∈ registered (ctl s) ∧ resident v (env s) = true ∧ borrowed v (env s) = true ∧
    (observe v e1).1 = Ok (Some o) ∧ on_shared_node o = true ∧ local + shared_bytes o <= high cfg ∧
    return_local v e = (Ok (Some r), e') ∧ (tool = true → ∃ e0, claim_return sid e0 = (Ok true, e))) ∧
  return_count (counts (ctl s')) = return_count (counts (ctl s)) + 1 ∧ decisions (ctl s') = decisions (ctl s) ++ [Return].
Proof.
  revert Hrun. unfold return_one. destruct (_ || _) eqn:Ecfg; [done|]. apply orb_false_elim in Ecfg as [Hb%negb_false_iff Hj%negb_false_iff%bool_decide_eq_true].
  rewrite bind_get. destruct (since _ _ _) eqn:Es; [done|]. cbv zeta. intros (os & s1 & H1 & (r & s2 & H2 & H3)%bind_ok_inv)%bind_ok_inv.
  destruct r as [[q released]|]; [|by injection H3]. apply offers_spec in H1 as [C1 Hos].
  apply return_first_spec in H2 as (C2 & k & v & sid & tool & e & e' & Hin & Hr & Hclaim).
  rewrite sort_by_perm in Hin. destruct (Hos _ Hin) as [Hx|(sid' & v' & tool' & e1 & o & Hreg & Hobs & Hn & Hh & [= -> -> -> ->])];
    [by apply elem_of_nil in Hx|]. apply list_elem_of_filter in Hreg as [Hres Hreg]. cbn in Hres. apply andb_prop in Hres as [Hres Hbor].
  split_and!; [done..| | | |].
  - by apply since_false.
  - exists sid', v', tool', e1, o, e, e', (q, released). split_and!; done.
  - revert H3. unfold ask, gets, update, modify, decide_event, mbind, M_bind, mret, M_ret. intros [= <-]. cbn. by rewrite C2, C1.
  - revert H3. unfold ask, gets, update, modify, decide_event, mbind, M_bind, mret, M_ret. intros [= <-]. cbn. by rewrite C2, C1.
Qed.

(** ** A concrete node *)

(** A node whose samples are scripted, with two VMs of 4 GiB; a lent VM holds
    2 GiB on the shared node. *)
Record node := Node { n_latch : bool; n_samples : list Z; n_script : list (Z * Z); n_lent : list string; n_now : Q; n_victims : nat }.
Definition g : Z := 1024 * 1024 * 1024.
Definition demo_pool : pool_view := PoolView 0 0 0 (64 * g) (8 * g).
#[export] Instance node_environment : Environment node := {
  monotonic := n_now;
  tier_usage n := match n_script n with
                  | [] => (Raise (RuntimeError "cgroup is gone"), n)
                  | (l, s) :: script => (Ok (l, s, l + s), Node (n_latch n) (n_samples n ++ [l]) script (n_lent n) (n_now n + 10) (n_victims n))
                  end;
  observe_shared_live x n := (Ok 0, n);
  pool_snapshot n := demo_pool;
  spill_observed_excess n := (Ok [], n);
  borrow_headroom n := 8 * g;
  set_blocked b n := Node b (n_samples n) (n_script n) (n_lent n) (n_now n) (n_victims n);
  blocked_demand_pressure n := (Ok false, n);
  evict_one t n := match n_victims n with
                   | O => (Ok false, n)
                   | S k => (Ok true, Node (n_latch n) (n_samples n) (n_script n) (n_lent n) (n_now n) k)
                   end;
  reclaim_candidate n := match n_victims n with O => None | S _ => Some (4 * g, 4 * g) end;
  local_commitment_exceeds x y n := (Ok false, n);
  pending_upper_bound n := g;
  capacity_claims n := false;
  operation_headroom n := 0;
  claim_return sid n := (Ok true, n);
  release_return sid n := n;
  borrowed v n := bool_decide (v ∈ n_lent n);
  allocates_shared v n := bool_decide (v ∈ n_lent n);
  borrow_busy n := false;
  resident v n := true;
  configured_bytes v n := 4 * g;
  observe v n := (Ok (Some (Observation (2 * g) (2 * g) (bool_decide (v ∈ n_lent n)))), n);
  borrow_shared v n := (Ok (Some 1%Q), Node (n_latch n) (n_samples n) (n_script n) (v :: n_lent n) (n_now n) (n_victims n));
  return_local v n := (Ok (Some (1%Q, true)), Node (n_latch n) (n_samples n) (n_script n) (filter (λ x, x ≠ v) (n_lent n)) (n_now n) (n_victims n));
  quarantine v n := (Ok true, n);
}.
#[export] Instance node_laws : EnvironmentLaws node.
Proof.
  apply (Build_EnvironmentLaws node _ n_latch n_samples); try done.
  - intros n. cbn. destruct (n_script n) as [|[l s] script]; cbn; [by rewrite app_nil_r|done].
  - intros t n. cbn. by destruct (n_victims n).
Defined.

Definition demo_costs : costs := Costs 1 1 3 1 None None (1 # 2).
Definition demo_cfg : config := Config (10 * g) (20 * g) (30 * g) Joint 5 5 (Some demo_costs) false false false true.
Definition demo_controller : controller := register "s1" "t1" "r1" controller_init.
Definition demo_state (script : list (Z * Z)) (victims : nat) : @state node :=
  State demo_controller (Node false [] script [] 0 victims).

(** Up, an overshoot, down, and the borrowed memory comes back. *)
Definition demo_script : list (Z * Z) := [(5 * g, 0); (21 * g, 0); (15 * g, 2 * g); (9 * g, 2 * g); (9 * g, 0)].
Lemma latch_follows_hysteresis_witness :
  let s' := (run demo_cfg [1; 2; 3; 4; 5]%Q 0 false (demo_state demo_script 0)).2 in
  (∃ locals extra, samples (env s') = locals ++ extra ∧ latched (env s') = foldl (hysteresis demo_cfg) false locals ∧
    high_crossings (meter (ctl s')) = crossings demo_cfg false locals) ∧
  high_crossings (meter (ctl s')) = 1 ∧ latched (env s') = false ∧ decisions (ctl s') = [Borrow; Borrow; Return; Return].
Proof.
  destruct (run demo_cfg [1; 2; 3; 4; 5]%Q 0 false (demo_state demo_script 0)) as [o s'] eqn:Hrun.
  split.
  - assert (latched (env (demo_state demo_script 0)) = false) as Hlow by (vm_compute; reflexivity).
    destruct (latch_follows_hysteresis demo_cfg [1; 2; 3; 4; 5]%Q 0 false (demo_state demo_script 0) s' o Hlow Hrun)
      as (ls & extra & H1 & _ & H2 & H3 & _). exists ls, extra. split_and!; [exact H1|exact H2|exact H3].
  - cbn [snd]. replace s' with (run demo_cfg [1; 2; 3; 4; 5]%Q 0 false (demo_state demo_script 0)).2 by (by rewrite Hrun).
    vm_compute. split_and!; reflexivity.
Defined.

Lemma below_low_sound_witness :
  let s1 := (run demo_cfg [1]%Q 0 false (demo_state demo_script 0)).2 in
  Forall (λ l, l + pending_upper_bound (env s1) + 512 * 1024 * 1024 + operation_headroom (env s1) <= low demo_cfg) (samples (env s1)) ∧
  samples (env s1) = [5 * g].
Proof.
  destruct (run demo_cfg [1]%Q 0 false (demo_state demo_script 0)) as [o s1] eqn:Hrun.
  assert (o = Ok false) as -> by (change o with (o, s1).1; rewrite <- Hrun; vm_compute; reflexivity).
  assert (samples (env s1) = [5 * g]) as Hs by (change s1 with (Ok false, s1).2; rewrite <- Hrun; vm_compute; reflexivity).
  destruct (progress_fits_below_low demo_cfg 512 s1) as [o2 s2] eqn:Hfits.
  assert (o2 = Ok true) as ->.
  { change o2 with (o2, s2).1. rewrite <- Hfits. change s1 with (Ok false, s1).2. rewrite <- Hrun. vm_compute. reflexivity. }
  assert (latched (env (demo_state demo_script 0)) = false) as Hlow by (vm_compute; reflexivity).
  split; [|exact Hs]. apply (below_low_sound demo_cfg [1]%Q 0 (demo_state demo_script 0) s1 s2 false 512 Hlow (Forall_nil_2 _) Hrun Hfits).
Defined.

Lemma one_action_per_sample_witness :
  let s := demo_state [(25 * g, 0)] 1 in let s' := (sample_once demo_cfg 1 false s).2 in
  (acts (ctl s') = acts (ctl s) ∨ acts (ctl s') = acts (ctl s) + 1) ∧ decisions (ctl s') = [Borrow].
Proof.
  split; [|vm_compute; reflexivity].
  apply (one_action_per_sample demo_cfg 1 false (demo_state [(25 * g, 0)] 1) _ (sample_once demo_cfg 1 false (demo_state [(25 * g, 0)] 1)).1).
  apply surjective_pairing.
Defined.

Definition demo_lent : @state node := State demo_controller (Node false [] [] ["r1"]%string 0 0).
Lemma return_is_safe_witness :
  ∃ s', return_one demo_cfg (9 * g) demo_lent = (Ok true, s') ∧ decisions (ctl s') = [Return] ∧ n_lent (env s') = [] ∧
    ∃ sid v tool, (sid, v, tool) ∈ registered (ctl demo_lent) ∧ borrowed v (env demo_lent) = true.
Proof.
  destruct (return_one demo_cfg (9 * g) demo_lent) as [o s'] eqn:Hrun.
  assert (o = Ok true) as -> by (change o with (o, s').1; rewrite <- Hrun; vm_compute; reflexivity).
  assert (n_lent (env s') = []) as Hl by (change s' with (Ok true, s').2; rewrite <- Hrun; vm_compute; reflexivity).
  exists s'. destruct (return_is_safe demo_cfg (9 * g) demo_lent s' Hrun) as (_ & _ & _ & (sid & v & tool & e1 & ob & e & e' & r & H1 & _ & H2 & _) & _ & H3).
  split_and!; [reflexivity|exact H3|exact Hl|]. exists sid, v, tool. split; [exact H1|exact H2].
Defined.
