(* ===== verification/Pressure.v ===== *)
(** * Pressure feedback and bounded controls (src/clawbox/experiments/pressure.py)

    [PressureControl] keeps one [VMState] per session and role, follows the
    events of its model and tool executions, and, while a domain is short of
    memory, protects the working set of active VMs (memory.low) and boosts the
    ones about to release memory (cpu.weight).  The control files are part of
    the state; what the kernel reports about a VM is the environment of a poll.
    A VM object is identified by [v_id], since [poll] works on a snapshot of the
    registry and skips the objects that were replaced. *)
From S2P Require Import Prelude Dict Ordering PyStrings.
From Stdlib Require Import Ascii.

Definition path := string.
Definition mib : Z := 1024 * 1024.

(** ** Data *)

Inductive phase := ToolActive | LlmWaiting | Ready | Transition | Inactive.
#[export] Instance phase_eq_dec : EqDecision phase.
Proof. solve_decision. Defined.

Inductive role := Runtime | Tool.
#[export] Instance role_eq_dec : EqDecision role.
Proof. solve_decision. Defined.

Inductive control := CpuWeight | MemoryLow | MemoryHigh.
#[export] Instance control_eq_dec : EqDecision control.
Proof. solve_decision. Defined.
#[export] Instance control_countable : Countable control.
Proof.
  refine (inj_countable' (λ c, match c with CpuWeight => 0 | MemoryLow => 1 | MemoryHigh => 2 end)%nat
    (λ n, match n with 0 => CpuWeight | 1 => MemoryLow | _ => MemoryHigh end)%nat _).
  by intros [].
Defined.

(** [RuntimeControl] *)
Inductive runtime_control :=
  | Off | NoControl | PhaseMemcg | ReleaseCpu | PressureLifecycle | AdaptiveJoint | Explicit.

Definition adaptive (m : runtime_control) : bool :=
  match m with Explicit | PhaseMemcg | ReleaseCpu | PressureLifecycle | AdaptiveJoint => true | _ => false end.

(** [PressureControlSpec] *)
Record options := Options {
  release_history_samples : nat;
  release_forecast_ttl_factor : Q;
  psi_ratio : Q;
  exit_hysteresis_seconds : Q;
  cooldown_seconds : Q;
  action_window_seconds : Q;
  protection_budget_mib : Z;
  max_boosted_vms : nat;
  boost_cpu_weight : Z;
  min_release_mib : Z;
}.

(** The samples of a VM: [None] before the first. *)
Record sample := Sample {
  sm_at : Q;
  sm_memory_psi : option Z;
  sm_cpu_psi : option Z;
  sm_cpu : Z;
  sm_scan : Z;
  sm_oom : Z;
}.

(** The executions and model calls a VM knows of. *)
Record executions := Executions {
  active : gset string;
  pending : gset string;
  finished : gset string;
  waits : gset string;
  responses : gset string;
}.

(** The control part of a [VMState]. *)
Record controls := Controls {
  group : path;
  node : option Z;
  saved : control → string;
  previous : option sample;
  action_since : option Q;
  cooldown_until : Q;
  modified : gset control;
  cpu_idle : bool;
}.

(** [VMState] *)
Record vm := VM {
  v_id : nat;
  sandbox : string;
  generation : Z;
  v_phase : phase;
  v_events : executions;
  latest_event : string;
  current_bytes : Z;
  ctl : controls;
}.

Record forecast := Forecast {
  fo_generation : Z;
  fo_expires_at : Q;
  fo_expected_complete_at : Q;
  fo_releasable_bytes : Z;
  fo_baseline_bytes : option Z;
  fo_release_overhead_seconds : Q;
}.

(** An entry of [execution_records]. *)
Record exec_record := ExecRecord {
  er_key : string;
  er_baseline : option Z;
}.

Record counts := Counts {
  polls : Z;
  cpu_boosts : Z;
  memory_protections : Z;
  rollbacks : Z;
  oom_kill_events : Z;
}.

Record pressure := Pressure {
  vms : dict (string * role) vm;
  domains : gmap string string;
  last_pressure : gmap (option string) Q;
  release_forecasts : gmap (string * string) forecast;
  execution_records : gmap (string * string) exec_record;
  release_history : gmap string (list (Q * Z));
  parent_previous : option (Q * option Z * Z);
  stats : counts;
  control_files : gmap (path * control) string;
  next_vm : nat;
}.

Definition with_vms (v : dict (string * role) vm) (s : pressure) : pressure :=
  Pressure v (domains s) (last_pressure s) (release_forecasts s) (execution_records s)
    (release_history s) (parent_previous s) (stats s) (control_files s) (next_vm s).
Definition with_domains (d : gmap string string) (s : pressure) : pressure :=
  Pressure (vms s) d (last_pressure s) (release_forecasts s) (execution_records s)
    (release_history s) (parent_previous s) (stats s) (control_files s) (next_vm s).
Definition with_last_pressure (l : gmap (option string) Q) (s : pressure) : pressure :=
  Pressure (vms s) (domains s) l (release_forecasts s) (execution_records s)
    (release_history s) (parent_previous s) (stats s) (control_files s) (next_vm s).
Definition with_forecasts (f : gmap (string * string) forecast) (s : pressure) : pressure :=
  Pressure (vms s) (domains s) (last_pressure s) f (execution_records s)
    (release_history s) (parent_previous s) (stats s) (control_files s) (next_vm s).
Definition with_records (r : gmap (string * string) exec_record) (h : gmap string (list (Q * Z)))
    (s : pressure) : pressure :=
  Pressure (vms s) (domains s) (last_pressure s) (release_forecasts s) r h
    (parent_previous s) (stats s) (control_files s) (next_vm s).
Definition with_parent (p : option (Q * option Z * Z)) (s : pressure) : pressure :=
  Pressure (vms s) (domains s) (last_pressure s) (release_forecasts s) (execution_records s)
    (release_history s) p (stats s) (control_files s) (next_vm s).
Definition with_files (f : gmap (path * control) string) (c : counts) (s : pressure) : pressure :=
  Pressure (vms s) (domains s) (last_pressure s) (release_forecasts s) (execution_records s)
    (release_history s) (parent_previous s) c f (next_vm s).
Definition fresh_vm (s : pressure) : pressure :=
  Pressure (vms s) (domains s) (last_pressure s) (release_forecasts s) (execution_records s)
    (release_history s) (parent_previous s) (stats s) (control_files s) (S (next_vm s)).

Definition set_ctl (c : controls) (v : vm) : vm :=
  VM (v_id v) (sandbox v) (generation v) (v_phase v) (v_events v) (latest_event v) (current_bytes v) c.
Definition set_events (e : executions) (latest : string) (v : vm) : vm :=
  VM (v_id v) (sandbox v) (generation v) (v_phase v) e latest (current_bytes v) (ctl v).
Definition set_phase (p : phase) (v : vm) : vm :=
  VM (v_id v) (sandbox v) (generation v) p (v_events v) (latest_event v) (current_bytes v) (ctl v).
Definition set_previous (p : option sample) (c : controls) : controls :=
  Controls (group c) (node c) (saved c) p (action_since c) (cooldown_until c) (modified c) (cpu_idle c).
Definition set_action (a : option Q) (u : Q) (c : controls) : controls :=
  Controls (group c) (node c) (saved c) (previous c) a u (modified c) (cpu_idle c).
Definition set_modified (m : gset control) (c : controls) : controls :=
  Controls (group c) (node c) (saved c) (previous c) (action_since c) (cooldown_until c) m (cpu_idle c).

Definition count_rollbacks (n : Z) (c : counts) : counts :=
  Counts (polls c) (cpu_boosts c) (memory_protections c) (rollbacks c + n) (oom_kill_events c).

Definition pressure_init (files : gmap (path * control) string) : pressure :=
  Pressure ∅ ∅ ∅ ∅ ∅ ∅ None (Counts 0 0 0 0 0) files 0.

(** [refresh] *)
Definition phase_of (e : executions) : phase :=
  if bool_decide (active e ≠ ∅) then ToolActive
  else if bool_decide (pending e ≠ ∅) then Ready
  else if bool_decide (waits e ≠ ∅) then LlmWaiting else Inactive.
Definition refresh (v : vm) : vm := set_phase (phase_of (v_events v)) v.

(** ** Reading the kernel *)

(** [counters] *)
Fixpoint counters_of (ls : list string) (d : gmap string Z) : outcome (gmap string Z) :=
  match ls with
  | [] => Ok d
  | line :: ls' =>
      match words line with
      | [k; w] => n ← int w; counters_of ls' (<[k := n]> d)
      | _ => Raise (ValueError "not enough or too many values to unpack")
      end
  end.
Definition counters (text : string) : outcome (gmap string Z) := counters_of (lines text) ∅.

(** [dict(item.split('=') for item in ...)] *)
Fixpoint psi_items (items : list string) (d : gmap string string) : outcome (gmap string string) :=
  match items with
  | [] => Ok d
  | item :: items' =>
      match split_on "="%char item with
      | [k; w] => psi_items items' (<[k := w]> d)
      | _ => Raise (ValueError "dictionary update sequence element")
      end
  end.

(** [psi]; [None] for a missing file. *)
Definition psi (file : option string) : outcome (option Z) :=
  match file with
  | None => Ok None
  | Some text =>
      match filter (λ row, String.prefix "some " row = true) (lines text) with
      | [] => Raise StopIteration
      | line :: _ =>
          d ← psi_items (list.tail (words line)) ∅;
          match d !! "total" with
          | None => Raise (KeyError "total")
          | Some w => n ← int w; Ok (Some n)
          end
      end
  end.

Section control.
Context (mode : runtime_control) (protection_flag boost_flag : bool) (opt : options).

(** [__init__]: which mechanisms the mode enables. *)
Definition memory_protection : bool :=
  match mode with
  | Explicit => protection_flag | PhaseMemcg | AdaptiveJoint => true | _ => false
  end.
Definition cpu_release_boost : bool :=
  match mode with
  | Explicit => boost_flag | ReleaseCpu | AdaptiveJoint => true | _ => false
  end.

(** [_psi] *)
Definition required_psi (required : bool) (file : option string) : outcome (option Z) :=
  value ← psi file;
  if required && bool_decide (value = None)
  then Raise (RuntimeError "PSI is required by the enabled runtime control")
  else Ok value.

(** ** Giving controls back *)

(** One control of [_restore]: the saved value is written where the file exists. *)
Definition write_back (c : controls) (fn : gmap (path * control) string * Z) (name : control)
    : gmap (path * control) string * Z :=
  match fn.1 !! (group c, name) with
  | Some _ => (<[(group c, name) := saved c name]> fn.1, fn.2 + 1)
  | None => fn
  end.

(** [_restore]: the VM without its biases. *)
Definition restored_ctl (now : Q) (c : controls) : controls :=
  set_modified ∅ (set_action None
    (match action_since c with
     | Some _ => Qmax (cooldown_until c) (now + cooldown_seconds opt)%Q
     | None => cooldown_until c
     end) c).
Definition restore (now : Q) (v : vm) : M pressure vm :=
  s ← get;
  let fn := foldl (write_back (ctl v)) (control_files s, 0) (elements (modified (ctl v))) in
  put (with_files fn.1 (count_rollbacks fn.2 (stats s)) s) ;;
  mret (set_ctl (restored_ctl now (ctl v)) v).

Definition store_vm (k : string * role) (v : vm) : M pressure unit :=
  modify (λ s, with_vms (<[k := v]> (vms s)) s).

(** [self._restore(vm)] of a registered object *)
Definition restore_vm (now : Q) (k : string * role) (v : vm) : M pressure unit :=
  w ← restore now v; store_vm k w.

(** [self.vms[session, role]] *)
Definition vm_at (k : string * role) : M pressure vm :=
  s ← get; match vms s !! k with Some v => mret v | None => raise (KeyError "vms") end.

(** ** Registration *)

(** What the leaf of a VM looks like when it registers. *)
Record leaf_env := LeafEnv {
  lf_memory_psi : option string;
  lf_cpu_psi : option string;
  lf_cpu_idle : outcome string;
}.

Definition default_control (idle : bool) (name : control) : string :=
  match name with
  | CpuWeight => if idle then "0" else "100"
  | MemoryLow => "0"
  | MemoryHigh => "max"
  end.

Definition read_control (k : path * control) : M pressure string :=
  s ← get;
  match control_files s !! k with Some text => mret text | None => raise (OSError "ENOENT") end.

(** [(vm.group / name).read_text().strip()] for the three controls, and the
    checks on them. *)
Definition check_leaf (r : role) (g : path) (idle : bool) (e : leaf_env) : M pressure unit :=
  match r with
  | Tool => lift (required_psi memory_protection (lf_memory_psi e)) ;;
            lift (required_psi cpu_release_boost (lf_cpu_psi e)) ;; mret tt
  | Runtime => mret tt
  end ;;
  weight ← read_control (g, CpuWeight);
  low ← read_control (g, MemoryLow);
  high ← read_control (g, MemoryHigh);
  (if idle then t ← lift (lf_cpu_idle e);
     raise_if (negb (bool_decide (strip t = "1"))) (RuntimeError "Expected idle CPU group")
   else mret tt) ;;
  raise_if (negb (bool_decide (strip weight = default_control idle CpuWeight)
                  && bool_decide (strip low = default_control idle MemoryLow)
                  && bool_decide (strip high = default_control idle MemoryHigh)))
    (RuntimeError "adaptive VM leaf has nondefault controls").

(** [if previous is not None: self._restore(previous)] *)
Definition restore_at (k : string * role) (now : Q) : M pressure unit :=
  s ← get;
  match vms s !! k with
  | Some old => restore_vm now k old
  | None => mret tt
  end.

(** [register] *)
Definition register (session : string) (r : role) (g : path) (n : option Z) (coordinator : string)
    (idle : bool) (now : Q) (e : leaf_env) : M pressure unit :=
  let k := (session, r) in
  restore_at k now ;;
  check_leaf r g idle e ;;
  s ← get;
  let c := match vms s !! k with
           | Some old => set_previous None
               (Controls g n (default_control idle) None (action_since (ctl old))
                  (cooldown_until (ctl old)) (modified (ctl old)) idle)
           | None => Controls g n (default_control idle) None None 0 ∅ idle
           end in
  let v := match vms s !! k with
           | Some old => set_ctl c old
           | None => VM (next_vm s) "" 0 Transition (Executions ∅ ∅ ∅ ∅ ∅) "registered" 0 c
           end in
  modify (λ s, fresh_vm (with_domains (<[session := coordinator]> (domains s))
                           (with_vms (<[k := v]> (vms s)) s))).

(** [generation] *)
Definition new_generation (session : string) (r : role) (sb : string) (now : Q) : M pressure unit :=
  v ← vm_at (session, r);
  v ← restore now v;
  store_vm (session, r)
    (refresh (VM (v_id v) sb (generation v + 1) (v_phase v) (v_events v) "vmm_verified" (current_bytes v)
       (set_action (action_since (ctl v)) (now + cooldown_seconds opt)%Q (set_previous None (ctl v))))).

(** [transition] *)
Definition transition (session : string) (r : role) (now : Q) : M pressure unit :=
  v ← vm_at (session, r);
  v ← restore now v;
  store_vm (session, r) (set_phase Transition v).

(** [unregister] *)
Definition drop_vm (k : string * role) (now : Q) : M pressure unit :=
  s ← get;
  match vms s !! k with
  | Some v => put (with_vms (delete k (vms s)) s) ;; restore now v ;; mret tt
  | None => mret tt
  end.
Definition unregister (session : string) (now : Q) : M pressure unit :=
  for_each [Runtime; Tool] (λ r, drop_vm (session, r) now) ;;
  modify (λ s, with_domains (delete session (domains s)) s).

(** ** Executions and model calls *)

Inductive kind := ModelStart | ModelEnd | ReadyKind | Start | Complete.

Definition kind_name (k : kind) : string :=
  match k with
  | ModelStart => "model_start" | ModelEnd => "model_end" | ReadyKind => "ready"
  | Start => "start" | Complete => "complete"
  end.

Definition ends (k : kind) : bool := match k with Complete | ModelEnd => true | _ => false end.

Definition completes (k : kind) : bool := match k with Complete => true | _ => false end.

(** The identifier sets after an event. *)
Definition follow (r : role) (k : kind) (i : string) (e : executions) : executions :=
  match k with
  | ModelStart =>
      if bool_decide (i ∉ responses e)
      then Executions (active e) (pending e) (finished e) ({[i]} ∪ waits e) (responses e) else e
  | ModelEnd =>
      Executions (active e) (pending e) (finished e) (waits e ∖ {[i]}) ({[i]} ∪ responses e)
  | ReadyKind =>
      if bool_decide (r = Tool) && bool_decide (i ∉ finished e)
      then Executions (active e) ({[i]} ∪ pending e) (finished e) (waits e) (responses e) else e
  | Start =>
      if bool_decide (r = Tool) && bool_decide (i ∈ pending e) && bool_decide (i ∉ finished e)
      then Executions ({[i]} ∪ active e) (pending e ∖ {[i]}) (finished e) (waits e) (responses e) else e
  | Complete =>
      if bool_decide (r = Tool)
      then Executions (active e ∖ {[i]}) (pending e ∖ {[i]}) ({[i]} ∪ finished e) (waits e) (responses e)
      else e
  end.

(** Whether the event starts the execution on this VM. *)
Definition starts (r : role) (k : kind) (i : string) (e : executions) : bool :=
  match k with
  | Start => bool_decide (r = Tool) && bool_decide (i ∈ pending e) && bool_decide (i ∉ finished e)
  | _ => false
  end.

Definition qmax_of (l : list Q) : Q := foldr Qmax (default 0%Q (head l)) l.
Definition qmin_of (l : list Q) : Q := foldr Qmin (default 0%Q (head l)) l.
Definition zmin_of (l : list Z) : Z := foldr Z.min (default 0 (head l)) l.

(** [statistics.median] of a non-empty list *)
Definition median (l : list Q) : Q :=
  let s := sort_by Qcompare l in
  let n := length s in
  if Nat.even n then ((nth (n / 2 - 1) s 0 + nth (n / 2) s 0) / 2)%Q else nth (n / 2) s 0%Q.

(** The forecast a measured history of the same command gives. *)
Definition forecast_of (g : Z) (baseline : option Z) (now : Q) (history : list (Q * Z)) : option forecast :=
  let durations := history.*1 in
  let release := zmin_of history.*2 in
  if (release_history_samples opt <=? length history)%nat
     && Qle_bool (qmax_of durations) (2 * qmin_of durations)
     && (min_release_mib opt * mib <=? release)
  then Some (Forecast g (now + qmax_of durations * release_forecast_ttl_factor opt)
               (now + median durations) release baseline 0)
  else None.

(** The body of [event] for one role. *)
Definition event_on (session : string) (k : kind) (i : string) (now : Q) (r : role) : M pressure unit :=
  s ← get;
  match vms s !! (session, r) with
  | None => mret tt
  | Some v =>
      (if starts r k i (v_events v) then
         let record := execution_records s !! (session, i) in
         let history := default [] (record ≫= λ e, release_history s !! er_key e) in
         match forecast_of (generation v) (record ≫= er_baseline) now history with
         | Some f => modify (λ s, with_forecasts (<[(session, i) := f]> (release_forecasts s)) s)
         | None => mret tt
         end
       else if bool_decide (r = Tool) && completes k
       then modify (λ s, with_forecasts (delete (session, i) (release_forecasts s)) s)
       else mret tt) ;;
      let v' := refresh (set_events (follow r k i (v_events v)) (kind_name k +:+ ":" +:+ i) v) in
      (if ends k then restore_vm now (session, r) v'
       else store_vm (session, r) v')
  end.

(** [event] *)
Definition event (session : string) (k : kind) (i : string) (now : Q) : M pressure unit :=
  for_each [Runtime; Tool] (event_on session k i now).

(** [execution_ready] *)
Definition execution_ready (session execution command_key : string) (now : Q) : M pressure unit :=
  modify (λ s, with_records (<[(session, execution) := ExecRecord command_key None]> (execution_records s))
                 (release_history s) s) ;;
  event session ReadyKind execution now.

(** [execution_admitted] *)
Definition execution_admitted (session execution : string) (baseline : Z) : M pressure unit :=
  s ← get;
  match execution_records s !! (session, execution) with
  | None => raise (KeyError "execution_records")
  | Some r => put (with_records (<[(session, execution) := ExecRecord (er_key r) (Some baseline)]>
                                   (execution_records s)) (release_history s) s)
  end.

(** The measurements of a finished execution. *)
Record measured := Measured {
  ms_baseline : option Z;
  ms_peak : option Z;
  ms_final : option Z;
  ms_error : bool;
}.

(** [del history[:-8]] *)
Definition last8 {A} (l : list A) : list A := drop (length l - 8) l.

(** The bytes a command was seen to hold only while it ran. *)
Definition released_bytes (baseline peak final : Z) : Z :=
  Z.max 0 (Z.min (peak - baseline) (peak - final)).

(** The record of the execution is dropped and a valid measurement kept. *)
Definition recorded (session execution : string) (o : measured) (duration : Q) (success : bool)
    (s : pressure) : pressure :=
  let record := execution_records s !! (session, execution) in
  let s1 := with_records (delete (session, execution) (execution_records s)) (release_history s) s in
  match record, ms_baseline o, ms_peak o, ms_final o with
  | Some r, Some baseline, Some peak, Some final =>
      if negb (bool_decide (er_key r = "")) && success && negb (ms_error o)
         && (0 <=? baseline) && (0 <=? peak) && (0 <=? final) && Qltb 0 duration
      then with_records (execution_records s1)
             (<[er_key r := last8 (default [] (release_history s !! er_key r)
                                   ++ [(duration, released_bytes baseline peak final)])]>
                (release_history s)) s1
      else s1
  | _, _, _, _ => s1
  end.

(** [execution_complete] *)
Definition execution_complete (session execution : string) (o : measured) (duration : Q) (success : bool)
    (now : Q) : M pressure unit :=
  modify (recorded session execution o duration success) ;;
  event session Complete execution now.

(** ** Sampling and polling *)

(** What the kernel reports about an active VM. *)
Record vm_env := VmEnv {
  ve_stat : outcome string;
  ve_current : outcome string;
  ve_events : outcome string;
  ve_memory_psi : option string;
  ve_cpu_psi : option string;
  ve_cpu_stat : outcome string;
  ve_mems_effective : outcome string;
}.

(** ... read in the order of [_sample] *)
Record readings := Readings {
  rd_sample : sample;
  rd_stat : gmap string Z;
  rd_current : Z;
}.

Definition read_sample (now : Q) (e : vm_env) : outcome readings :=
  stat ← (t ← ve_stat e; counters t);
  current ← (t ← ve_current e; int t);
  events ← (t ← ve_events e; counters t);
  mp ← required_psi memory_protection (ve_memory_psi e);
  cp ← required_psi cpu_release_boost (ve_cpu_psi e);
  cpu ← (t ← ve_cpu_stat e; counters t);
  Ok (Readings (Sample now mp cp (default 0 (cpu !! "usage_usec")) (default 0 (stat !! "pgscan"))
                  (default 0 (events !! "oom_kill"))) stat current).

(** [stalled]: the share of the interval spent stalled reaches the ratio. *)
Definition stalled (now then_ : Q) (value before : option Z) : bool :=
  match value, before with
  | Some x, Some y =>
      Qltb 0 (now - then_)
      && Qle_bool (psi_ratio opt) (inject_Z (x - y) / ((now - then_) * inject_Z 1000000))
  | _, _ => false
  end.

Record signals := Signals {
  sg_reclaim : bool;
  sg_cpu_contended : bool;
  sg_working_set : Z;
  sg_current : Z;
}.

Definition working_set (r : readings) : Z :=
  Z.min (rd_current r) (default 0 (rd_stat r !! "anon") + default 0 (rd_stat r !! "active_file")).

Definition signals_of (r : readings) (before : option sample) : signals :=
  let s := rd_sample r in
  match before with
  | None => Signals false false (working_set r) (rd_current r)
  | Some p => Signals
      (stalled (sm_at s) (sm_at p) (sm_memory_psi s) (sm_memory_psi p) && (sm_scan p <? sm_scan s))
      (stalled (sm_at s) (sm_at p) (sm_cpu_psi s) (sm_cpu_psi p) && (sm_cpu p <? sm_cpu s))
      (working_set r) (rd_current r)
  end.

(** [_sample] *)
Definition sample_vm (k : string * role) (v : vm) (now : Q) (e : vm_env) : M pressure (vm * signals) :=
  r ← lift (read_sample now e);
  let before := previous (ctl v) in
  let v' := VM (v_id v) (sandbox v) (generation v) (v_phase v) (v_events v) (latest_event v)
              (rd_current r) (set_previous (Some (rd_sample r)) (ctl v)) in
  store_vm k v' ;;
  modify (λ s, with_files (control_files s)
    (Counts (polls (stats s)) (cpu_boosts (stats s)) (memory_protections (stats s)) (rollbacks (stats s))
       (oom_kill_events (stats s)
        + Z.max 0 (sm_oom (rd_sample r) - from_option sm_oom 0 before))) s) ;;
  mret (v', signals_of r before).

(** The local variables of one poll. *)
Record frame := Frame {
  fr_began : Q;
  fr_reclaim_contended : bool;
  fr_domains : gmap string string;
  fr_feedback : gmap string bool;       (** memory_blocked of each coordinator *)
}.

(** The budgets a poll has left. *)
Record left_over := Left {
  protection_left : Z;
  boosts_left : nat;
}.

Definition forecasts_of (session : string) (v : vm) (s : pressure) : list forecast :=
  omap (λ i, release_forecasts s !! (session, i)) (elements (active (v_events v))).

(** The forecasts that justify a boost. *)
Definition boostable (began : Q) (v : vm) (current : Z) (f : forecast) : bool :=
  (fo_generation f =? generation v) && Qltb began (fo_expires_at f)
  && (min_release_mib opt * mib <=? fo_releasable_bytes f)
  && match fo_baseline_bytes f with
     | Some b => min_release_mib opt * mib <=? current - b
     | None => false
     end
  && Qle_bool 0 (fo_release_overhead_seconds f).

(** [score] *)
Definition score (began : Q) (session : string) (v : vm) (s : pressure) : Q :=
  let valid := filter (λ f, (Qltb began (fo_expires_at f) && (fo_generation f =? generation v)) = true)
                 (forecasts_of session v s) in
  let rate f := (inject_Z (fo_releasable_bytes f)
                 / Qmax (action_window_seconds opt)
                     (fo_expected_complete_at f - began + fo_release_overhead_seconds f))%Q in
  qmax_of (rate <$> valid).

(** One write of the control loop. *)
Definition apply_control (k : string * role) (name : control) (value : string) : M pressure unit :=
  v ← vm_at k;
  text ← read_control (group (ctl v), name);
  if bool_decide (strip text = value) then mret tt
  else
    store_vm k (set_ctl (set_modified ({[name]} ∪ modified (ctl v)) (ctl v)) v) ;;
    modify (λ s, with_files (<[(group (ctl v), name) := value]> (control_files s))
      (let n := if bool_decide (value ∈ ["0"; "100"]) then 0 else 1 in
       let c := stats s in
       Counts (polls c) (cpu_boosts c + (if bool_decide (name = CpuWeight) then n else 0))
         (memory_protections c + (if bool_decide (name = MemoryLow) then n else 0))
         (rollbacks c) (oom_kill_events c)) s).

(** Whether the VM runs on its node; the file is read only when it matters. *)
Definition on_own_node (v : vm) (e : vm_env) : outcome bool :=
  match node (ctl v) with
  | None => Ok false
  | Some n => t ← ve_mems_effective e; Ok (bool_decide (strip t = str n))
  end.

(** The weight an active VM gets, and the boosts left. *)
Definition choose_weight (f : frame) (session : string) (v : vm) (blocked : bool) (g : signals)
    (boosts : nat) (e : vm_env) : M pressure (Z * nat) :=
  weight ← lift (int (saved (ctl v) CpuWeight));
  if blocked && negb (bool_decide (boosts = 0%nat)) && sg_cpu_contended g && negb (cpu_idle (ctl v))
     && bool_decide (is_Some (node (ctl v))) && cpu_release_boost then
    own ← lift (on_own_node v e);
    s ← get;
    if (own : bool) && existsb (boostable (fr_began f) v (sg_current g)) (forecasts_of session v s)
    then mret (boost_cpu_weight opt, pred boosts) else mret (weight, boosts)
  else mret (weight, boosts).

(** After the writes: how long the action has lasted. *)
Definition settle (f : frame) (k : string * role) (low weight : Z) : M pressure unit :=
  v ← vm_at k;
  saved_weight ← lift (int (saved (ctl v) CpuWeight));
  let c := ctl v in
  store_vm k (set_ctl
    (if negb (low =? 0) || negb (weight =? saved_weight)
     then set_action (Some (match action_since c with
                            | Some t => if Qeq_bool t 0 then fr_began f else t
                            | None => fr_began f end)) (cooldown_until c) c
     else set_action None (match action_since c with
                           | Some _ => (fr_began f + cooldown_seconds opt)%Q
                           | None => cooldown_until c end) c) v).

(** Acting on an active VM of a contended domain. *)
Definition act (f : frame) (k : string * role) (v : vm) (blocked : bool) (e : vm_env) (l : left_over)
    (now : Q) : M pressure left_over :=
  '(v, g) ← sample_vm k v (fr_began f) e;
  let c := ctl v in
  if Qltb (fr_began f) (cooldown_until c)
     || match action_since c with
        | Some t => Qle_bool (action_window_seconds opt) (fr_began f - t) | None => false end
  then
    let v1 := match action_since c with
              | Some t => set_ctl (set_action (Some t) (fr_began f + cooldown_seconds opt)%Q c) v
              | None => v end in
    restore_vm now k v1 ;; mret l
  else
    let low := if memory_protection && sg_reclaim g
               then Z.min (sg_working_set g) (protection_left l) else 0 in
    '(weight, boosts) ← choose_weight f k.1 v blocked g (boosts_left l) e;
    apply_control k MemoryLow (str low) ;;
    apply_control k CpuWeight (str weight) ;;
    settle f k low weight ;;
    mret (Left (protection_left l - low) boosts).

(** [vm.previous.clear()] *)
Definition clear_previous (k : string * role) : M pressure unit :=
  v ← vm_at k; store_vm k (set_ctl (set_previous None (ctl v)) v).

(** The body of [poll] for one VM of the snapshot. *)
Definition visit (f : frame) (env : string * role → vm_env) (now : Q) (kv : (string * role) * nat)
    (l : left_over) : M pressure left_over :=
  let '(k, i) := kv in
  s ← get;
  match vms s !! k with
  | None => mret l
  | Some v =>
      if negb (bool_decide (v_id v = i)) then mret l
      else
        let domain := fr_domains f !! k.1 in
        let blocked := default false (domain ≫= λ d, fr_feedback f !! d) in
        let before := default 0%Q (last_pressure s !! domain) in
        (if blocked then modify (λ s, with_last_pressure (<[domain := fr_began f]> (last_pressure s)) s)
         else mret tt) ;;
        let contended := blocked || fr_reclaim_contended f
                         || Qltb (fr_began f - before) (exit_hysteresis_seconds opt) in
        if negb (bool_decide (k.2 = Tool)) || negb (bool_decide (v_phase v = ToolActive)) then
          restore_vm now k v ;; mret l
        else if negb contended then
          restore_vm now k v ;; clear_previous k ;; mret l
        else act f k v blocked (env k) l now
  end.

Fixpoint visit_all (f : frame) (env : string * role → vm_env) (now : Q)
    (kvs : list ((string * role) * nat)) (l : left_over) : M pressure left_over :=
  match kvs with
  | [] => mret l
  | kv :: kvs' => l' ← visit f env now kv l; visit_all f env now kvs' l'
  end.

(** What a poll reads before it visits the VMs. *)
Record poll_env := PollEnv {
  pe_began : Q;
  pe_memory_psi : option string;
  pe_stat : outcome string;
  pe_feedback : gmap string bool;
  pe_vm : string * role → vm_env;
  pe_now : Q;
}.

(** [sorted(vms, key=score, reverse=True)] of the registry's snapshot *)
Definition visiting_order (began : Q) (s : pressure) : list ((string * role) * nat) :=
  (λ kv, (kv.1, v_id kv.2)) <$>
    sort_by (λ a b, Qcompare (score began b.1.1 b.2 s) (score began a.1.1 a.2 s)) (vms s : list _).

(** [poll] *)
Definition poll (e : poll_env) : M pressure unit :=
  memory ← lift (required_psi memory_protection (pe_memory_psi e));
  stat ← lift (t ← pe_stat e; counters t);
  s ← get;
  let scan := default 0 (stat !! "pgscan") in
  put (with_parent (Some (pe_began e, memory, scan)) s) ;;
  let contended := match parent_previous s with
                   | Some (t, m, n) => (n <? scan) && stalled (pe_began e) t memory m
                   | None => false
                   end in
  visit_all (Frame (pe_began e) contended (domains s) (pe_feedback e)) (pe_vm e) (pe_now e)
    (visiting_order (pe_began e) s)
    (Left (protection_budget_mib opt * mib) (max_boosted_vms opt)) ;;
  modify (λ s, with_files (control_files s)
    (let c := stats s in Counts (polls c + 1) (cpu_boosts c) (memory_protections c) (rollbacks c)
                           (oom_kill_events c)) s).

(** [_restore_all] *)
Definition restore_one (now : Q) (kv : (string * role) * nat) : M pressure unit :=
  s ← get;
  match vms s !! kv.1 with
  | Some v => if bool_decide (v_id v = kv.2) then restore_vm now kv.1 v else mret tt
  | None => mret tt
  end.
Definition restore_all (now : Q) : M pressure unit :=
  s ← get; for_each ((λ kv, (kv.1, v_id kv.2)) <$> (vms s : list _)) (restore_one now).

(** One turn of the control thread: a failed poll restores every control. *)
Definition poll_thread (e : poll_env) : M pressure unit :=
  try_except (poll e) (λ x, restore_all (pe_now e) ;; raise x).

(** ** Runs *)

Inductive op :=
  | Register (session : string) (r : role) (g : path) (n : option Z) (coordinator : string)
      (idle : bool) (now : Q) (e : leaf_env)
  | Generation (session : string) (r : role) (sb : string) (now : Q)
  | Pause (session : string) (r : role) (now : Q)
  | Happens (session : string) (k : kind) (i : string) (now : Q)
  | Announces (session execution key : string) (now : Q)
  | Begins (session execution : string) (baseline : Z)
  | Finishes (session execution : string) (o : measured) (duration : Q) (success : bool) (now : Q)
  | Unregister (session : string) (now : Q)
  | Poll (e : poll_env)
  | RestoreAll (now : Q)
  | Vanishes (g : path)                   (** a cgroup is removed *)
  | Appears (g : path) (idle : bool).     (** a new cgroup nobody has registered *)

Definition all_controls : list control := [CpuWeight; MemoryLow; MemoryHigh].
Definition vanish (g : path) (s : pressure) : pressure :=
  with_files (foldr (λ c fs, delete (g, c) fs) (control_files s) all_controls) (stats s) s.
Definition appear (g : path) (idle : bool) (s : pressure) : pressure :=
  if existsb (λ kv, bool_decide (group (ctl kv.2) = g)) (vms s : list _) then s
  else with_files (foldr (λ c fs, <[(g, c) := default_control idle c]> fs) (control_files s) all_controls)
         (stats s) s.

Definition step (o : op) : M pressure unit :=
  match o with
  | Register session r g n coordinator idle now e => register session r g n coordinator idle now e
  | Generation session r sb now => new_generation session r sb now
  | Pause session r now => transition session r now
  | Happens session k i now => event session k i now
  | Announces session execution key now => execution_ready session execution key now
  | Begins session execution baseline => execution_admitted session execution baseline
  | Finishes session execution o d ok now => execution_complete session execution o d ok now
  | Unregister session now => unregister session now
  | Poll e => poll_thread e
  | RestoreAll now => restore_all now
  | Vanishes g => modify (vanish g)
  | Appears g idle => modify (appear g idle)
  end.
Definition run (os : list op) (s : pressure) : pressure := foldl (λ s o, (step o s).2) s os.

(** ** The invariant *)

(** Each cgroup belongs to one VM. *)
Context (owner : path → string * role).

Definition op_owned (o : op) : Prop :=
  match o with Register session r g _ _ _ _ _ => owner g = (session, r) | _ => True end.

Record vm_ok (k : string * role) (v : vm) : Prop := VmOk {
  vm_tombs : finished (v_events v) ## active (v_events v) ∪ pending (v_events v);
  vm_answers : responses (v_events v) ## waits (v_events v);
  vm_modified : MemoryHigh ∉ modified (ctl v);
  vm_saved : saved (ctl v) = default_control (cpu_idle (ctl v));
  vm_owner : owner (group (ctl v)) = k;
}.

(** The controls a VM has not modified hold their saved value. *)
Definition clean (fs : gmap (path * control) string) (c : controls) : Prop :=
  ∀ name x, name ∉ modified c → fs !! (group c, name) = Some x → strip x = saved c name.

Definition ok_in (V : dict (string * role) vm) (fs : gmap (path * control) string) : Prop :=
  dict_ok V ∧ ∀ k v, V !! k = Some v → vm_ok k v ∧ clean fs (ctl v).
Definition pressure_ok (s : pressure) : Prop := ok_in (vms s) (control_files s).

(** A VM object survives with its tombstones, the sessions [D] apart. *)
Definition remembers (D : string → Prop) (s s' : pressure) : Prop :=
  ∀ k v, vms s !! k = Some v → D k.1 ∨
    ∃ v', vms s' !! k = Some v' ∧ v_id v' = v_id v ∧
      finished (v_events v) ⊆ finished (v_events v') ∧ responses (v_events v) ⊆ responses (v_events v').
Definition keeps {A} (D : string → Prop) (m : M pressure A) : Prop :=
  ∀ s, pressure_ok s → pressure_ok (m s).2 ∧ remembers D s (m s).2.

Lemma remembers_same D s s' : vms s' = vms s → remembers D s s'.
Proof. intros E k v Hv. right. exists v. by rewrite E. Qed.

Lemma remembers_trans D s1 s2 s3 : remembers D s1 s2 → remembers D s2 s3 → remembers D s1 s3.
Proof.
  intros H1 H2 k v Hv. destruct (H1 k v Hv) as [|(v2 & E2 & I2 & F2 & R2)]; [by left|].
  destruct (H2 k v2 E2) as [|(v3 & E3 & I3 & F3 & R3)]; [by left|right].
  exists v3. split_and!; [done|congruence|set_solver..].
Qed.

Lemma pressure_bind {A B} D (m : M pressure A) (f : A → M pressure B) :
  keeps D m → (∀ a, keeps D (f a)) → keeps D (m ≫= f).
Proof.
  intros Hm Hf s Hs. destruct (Hm s Hs) as [H1 H2]. unfold mbind, M_bind.
  destruct (m s) as [[a|e] s']; [|done]. destruct (Hf a s' H1) as [H3 H4].
  split; [done|]. by eapply remembers_trans.
Qed.

Lemma pressure_bind_at {A B} D (m : M pressure A) (f : A → M pressure B) s :
  pressure_ok (m s).2 ∧ remembers D s (m s).2 →
  (∀ a s', m s = (Ok a, s') → pressure_ok s' → pressure_ok (f a s').2 ∧ remembers D s' (f a s').2) →
  pressure_ok ((m ≫= f) s).2 ∧ remembers D s ((m ≫= f) s).2.
Proof.
  intros [H1 H2] Hf. unfold mbind, M_bind.
  destruct (m s) as [[a|e] s'] eqn:E; [|done]. destruct (Hf a s' eq_refl H1) as [H3 H4].
  split; [done|]. by eapply remembers_trans.
Qed.

Lemma pressure_bind_eq {A B} D (m : M pressure A) (f : A → M pressure B) s :
  pressure_ok s → keeps D m →
  (∀ a s', m s = (Ok a, s') → pressure_ok s' → pressure_ok (f a s').2 ∧ remembers D s' (f a s').2) →
  pressure_ok ((m ≫= f) s).2 ∧ remembers D s ((m ≫= f) s).2.
Proof. intros Hs Hm. apply pressure_bind_at. by apply Hm. Qed.

Lemma pressure_pure {A} D (m : M pressure A) : (∀ s, (m s).2 = s) → keeps D m.
Proof. intros Hm s Hs. rewrite Hm. split; [done|by apply remembers_same]. Qed.

(** Updates of the other tables. *)
Lemma pressure_modify D f :
  (∀ s, vms (f s) = vms s ∧ control_files (f s) = control_files s) → keeps D (modify f).
Proof.
  intros Hf s Hs. destruct (Hf s) as [Hv Hc]. unfold modify, pressure_ok. simpl.
  rewrite Hv, Hc. split; [done|by apply remembers_same].
Qed.

Lemma pressure_for_each {A} D (l : list A) (f : A → M pressure unit) :
  (∀ a, keeps D (f a)) → keeps D (for_each l f).
Proof.
  intros Hf. induction l as [|a l IH]; simpl; [by apply pressure_pure|].
  by apply pressure_bind.
Qed.

(** Reading a VM and going on with it. *)
Lemma pressure_vm_at {A} D k (f : vm → M pressure A) :
  (∀ v s, pressure_ok s → vms s !! k = Some v →
    pressure_ok (f v s).2 ∧ remembers D s (f v s).2) → keeps D (vm_at k ≫= f).
Proof.
  intros Hf s Hs. unfold vm_at, mbind, M_bind, get.
  destruct (vms s !! k) as [v|] eqn:Ev; simpl; [by apply Hf|].
  split; [done|by apply remembers_same].
Qed.

(** ** Files and restoration *)

Lemma saved_strips idle name : strip (default_control idle name) = default_control idle name.
Proof. by destruct name, idle; vm_compute. Qed.

Definition written (c : controls) (fs : gmap (path * control) string) : gmap (path * control) string :=
  (foldl (write_back c) (fs, 0) (elements (modified c))).1.

Lemma write_back_lookup c l : ∀ fn g name,
  (foldl (write_back c) fn l).1 !! (g, name) =
    (if decide (g = group c ∧ name ∈ l) then (λ _, saved c name) <$> fn.1 !! (g, name)
     else fn.1 !! (g, name)).
Proof.
  induction l as [|x l IH]; intros fn g name; simpl.
  { rewrite decide_False; [done|]. by intros [_ ?%elem_of_nil]. }
  rewrite IH. unfold write_back.
  destruct (decide (g = group c)) as [->|Hg].
  2: { rewrite !decide_False by tauto. destruct (fn.1 !! (group c, x)); [|done].
       simpl. rewrite lookup_insert_ne; [done|congruence]. }
  destruct (decide (name = x)) as [->|Hn].
  - rewrite (decide_True (P := group c = group c ∧ x ∈ x :: l)) by (split; [done|by left]).
    destruct (fn.1 !! (group c, x)) eqn:E; simpl.
    + rewrite lookup_insert_eq. by case_decide.
    + rewrite E. by case_decide.
  - replace (if decide (group c = group c ∧ name ∈ x :: l) then _ else _) with
      (if decide (group c = group c ∧ name ∈ l) then (λ _, saved c name) <$> fn.1 !! (group c, name)
       else fn.1 !! (group c, name)).
    2: { destruct (decide (name ∈ l)).
         - rewrite !decide_True; [done|split; [done|by right]|done].
         - rewrite !decide_False; [done| |by intros [_ ?]].
           intros [_ [?|?]%elem_of_cons]; done. }
    destruct (fn.1 !! (group c, x)); [|done]. simpl.
    by rewrite lookup_insert_ne by congruence.
Qed.

Lemma written_lookup c fs g name :
  written c fs !! (g, name) =
    if decide (g = group c ∧ name ∈ modified c) then (λ _, saved c name) <$> fs !! (g, name)
    else fs !! (g, name).
Proof.
  unfold written. rewrite write_back_lookup. simpl.
  apply decide_ext. by rewrite elem_of_elements.
Qed.

Lemma restore_eq now v s : ∃ n,
  restore now v s = (Ok (set_ctl (restored_ctl now (ctl v)) v),
    with_files (written (ctl v) (control_files s)) (count_rollbacks n (stats s)) s).
Proof. unfold restore, mbind, M_bind, get, put, mret, M_ret. by eexists. Qed.

(** Restoring leaves every existing control of the VM at its saved value. *)
Lemma written_clean k v fs now :
  vm_ok k v → clean fs (ctl v) → clean (written (ctl v) fs) (restored_ctl now (ctl v)).
Proof.
  intros Hv Hc name x _. simpl. rewrite written_lookup.
  destruct (decide (name ∈ modified (ctl v))) as [Hm|Hm].
  - rewrite decide_True by done. destruct (fs !! _); [|done]. intros [= <-].
    rewrite (vm_saved k v Hv). apply saved_strips.
  - rewrite decide_False by tauto. by apply Hc.
Qed.

Lemma restored_vm_ok now k v : vm_ok k v → vm_ok k (set_ctl (restored_ctl now (ctl v)) v).
Proof. intros [H1 H2 H3 H4 H5]. split; simpl; [done|done|set_solver|done|done]. Qed.

(** Other VMs do not notice changes under the group of [k]. *)
Lemma clean_apart (fs fs' : gmap (path * control) string) k k' v :
  vm_ok k' v → k' ≠ k → (∀ g n, owner g ≠ k → fs' !! (g, n) = fs !! (g, n)) →
  clean fs (ctl v) → clean fs' (ctl v).
Proof.
  intros Hv Hk Hfs Hc name x Hn. rewrite Hfs; [by apply Hc|]. by rewrite (vm_owner k' v Hv).
Qed.

Lemma ok_in_set V fs fs' k v :
  ok_in V fs → vm_ok k v → clean fs' (ctl v) →
  (∀ g n, owner g ≠ k → fs' !! (g, n) = fs !! (g, n)) → ok_in (<[k := v]> V) fs'.
Proof.
  intros [Hd HV] Hv Hc Hfs. split; [by apply insert_ok|]. intros k' v' E.
  destruct (decide (k' = k)) as [->|Hk].
  - rewrite dict_lookup_insert_eq in E. by simplify_eq.
  - rewrite dict_lookup_insert_ne in E by done. destruct (HV k' v' E) as [H1 H2].
    split; [done|]. by eapply clean_apart.
Qed.

Lemma ok_in_delete V fs fs' k :
  ok_in V fs → (∀ g n, owner g ≠ k → fs' !! (g, n) = fs !! (g, n)) → ok_in (delete k V) fs'.
Proof.
  intros [Hd HV] Hfs. split; [by apply delete_ok|]. intros k' v' E.
  apply dict_lookup_delete_Some in E as [Hk E]; [|done]. destruct (HV k' v' E) as [H1 H2].
  split; [done|]. by eapply clean_apart.
Qed.

Lemma written_apart k v fs : vm_ok k v →
  ∀ g n, owner g ≠ k → written (ctl v) fs !! (g, n) = fs !! (g, n).
Proof.
  intros Hv g n Hg. rewrite written_lookup, decide_False; [done|].
  intros [-> _]. by rewrite (vm_owner k v Hv) in Hg.
Qed.

(** What may replace the VM at [k]: the object with its tombstones. *)
Definition succeeds (v v' : vm) : Prop :=
  v_id v' = v_id v ∧ finished (v_events v) ⊆ finished (v_events v') ∧
  responses (v_events v) ⊆ responses (v_events v').

Lemma remembers_insert D s s' k v v' :
  vms s !! k = Some v → succeeds v v' → vms s' = <[k := v']> (vms s) → remembers D s s'.
Proof.
  intros Hv (H1 & H2 & H3) E k' w Hw. right. destruct (decide (k' = k)) as [->|Hk].
  - exists v'. rewrite E, dict_lookup_insert_eq. by simplify_eq.
  - exists w. rewrite E, dict_lookup_insert_ne by done. done.
Qed.

Definition stores (k : string * role) (v : vm) (s s' : pressure) : Prop :=
  pressure_ok s' ∧ vms s' = <[k := v]> (vms s).

(** [self._restore(vm)] and then an update of the VM that keeps its controls. *)
Lemma restore_store D k v v0 (f : vm → vm) now s :
  pressure_ok s → vms s !! k = Some v0 → succeeds v0 (f (set_ctl (restored_ctl now (ctl v)) v)) →
  vm_ok k v → clean (control_files s) (ctl v) →
  (∀ w, vm_ok k w → vm_ok k (f w)) →
  (∀ w fs, clean fs (ctl w) → clean fs (ctl (f w))) →
  let s' := ((w ← restore now v; store_vm k (f w)) s).2 in pressure_ok s' ∧ remembers D s s'.
Proof.
  intros Hs Hv0 Hsucc Hv Hc Hf1 Hf2. destruct (restore_eq now v s) as [n E].
  unfold mbind, M_bind. rewrite E. unfold store_vm, modify. simpl. split.
  - unfold pressure_ok. simpl. eapply ok_in_set; [exact Hs|by apply Hf1, restored_vm_ok| |].
    + by apply Hf2, (written_clean k).
    + by apply written_apart.
  - eapply remembers_insert; [exact Hv0|exact Hsucc|done].
Qed.

Lemma restored_succeeds now v0 v : succeeds v0 v → succeeds v0 (set_ctl (restored_ctl now (ctl v)) v).
Proof. done. Qed.

Lemma succeeds_refl v : succeeds v v.
Proof. done. Qed.

Lemma restore_keeps D k v now s :
  pressure_ok s → vms s !! k = Some v →
  let s' := (restore_vm now k v s).2 in pressure_ok s' ∧ remembers D s s'.
Proof.
  intros Hs Hv. destruct (proj2 Hs k v Hv) as [Hok Hc].
  by apply (restore_store D k v v (λ w, w)).
Qed.

Lemma restore_at_eq k now s : restore_at k now s =
  match vms s !! k with Some v => restore_vm now k v s | None => (Ok tt, s) end.
Proof. unfold restore_at at 1. unfold mbind at 1, M_bind at 1, get. by destruct (vms s !! k). Qed.

Lemma restore_at_keeps D k now : keeps D (restore_at k now).
Proof.
  intros s Hs. rewrite restore_at_eq.
  destruct (vms s !! k) as [v|] eqn:Ev; [by apply restore_keeps|].
  split; [done|by apply remembers_same].
Qed.

Lemma read_control_pure k s : (read_control k s).2 = s.
Proof. unfold read_control, mbind, M_bind, get. by destruct (control_files s !! k). Qed.

Lemma read_control_ok k s x s' : read_control k s = (Ok x, s') → s' = s ∧ control_files s !! k = Some x.
Proof.
  unfold read_control, mbind, M_bind, get. destruct (control_files s !! k); [|done].
  by intros [= <- <-].
Qed.

Lemma pressure_read D k : keeps D (read_control k).
Proof. apply pressure_pure, read_control_pure. Qed.
Lemma pressure_lift {A} D (o : outcome A) : keeps D (lift o).
Proof. by apply pressure_pure. Qed.
Lemma pressure_ret {A} D (a : A) : keeps D (mret a).
Proof. by apply pressure_pure. Qed.
Lemma pressure_get D : keeps D get.
Proof. by apply pressure_pure. Qed.
Lemma pressure_raise_if D b e : keeps D (raise_if b e).
Proof. apply pressure_pure. by destruct b. Qed.

Lemma check_leaf_keeps D r g idle e : keeps D (check_leaf r g idle e).
Proof.
  unfold check_leaf. apply pressure_bind.
  { destruct r; [apply pressure_ret|]. repeat (apply pressure_bind; [apply pressure_lift|intros _]). apply pressure_ret. }
  intros _. repeat (apply pressure_bind; [apply pressure_read|intros ?]).
  apply pressure_bind; [|intros _; apply pressure_raise_if].
  destruct idle; [|apply pressure_ret]. apply pressure_bind; [apply pressure_lift|intros ?; apply pressure_raise_if].
Qed.

Lemma check_leaf_ok r g idle e s u s' : check_leaf r g idle e s = (Ok u, s') →
  s' = s ∧ ∀ name x, control_files s !! (g, name) = Some x → strip x = default_control idle name.
Proof.
  unfold check_leaf. intros H. apply bind_ok_inv in H as (? & s1 & H1 & H).
  assert (s1 = s) as ->.
  { destruct r; [by injection H1|]. apply bind_ok_inv in H1 as (? & ? & [= _ <-] & H1).
    by apply bind_ok_inv in H1 as (? & ? & [= _ <-] & [= _ <-]). }
  apply bind_ok_inv in H as (weight & s2 & [-> H2]%read_control_ok & H).
  apply bind_ok_inv in H as (low & s3 & [-> H3]%read_control_ok & H).
  apply bind_ok_inv in H as (high & s4 & [-> H4]%read_control_ok & H).
  apply bind_ok_inv in H as (? & s5 & H5 & H).
  assert (s5 = s) as ->.
  { destruct idle; [|by injection H5]. apply bind_ok_inv in H5 as (t & ? & [= _ <-] & H5).
    unfold raise_if in H5. destruct (negb _); [done|]. by injection H5. }
  unfold raise_if in H. destruct (negb _) eqn:E; [done|]. injection H as _ <-. split; [done|].
  apply negb_false_iff in E. rewrite !andb_true_iff in E. destruct E as [[E1 E2] E3].
  apply bool_decide_eq_true in E1, E2, E3.
  intros [] text; [rewrite H2|rewrite H3|rewrite H4]; by intros [= <-].
Qed.

Lemma register_keeps D session r g n coordinator idle now e :
  owner g = (session, r) → keeps D (register session r g n coordinator idle now e).
Proof.
  intros Hg. unfold register. set (k := (session, r)).
  apply pressure_bind; [apply restore_at_keeps|intros _ s Hs].
  apply pressure_bind_eq; [done|apply check_leaf_keeps|].
  intros u s' [-> Hfs]%check_leaf_ok _. rewrite bind_get. unfold modify.
  unfold pressure_ok. destruct (vms s !! k) as [old|] eqn:Eo; cbn [snd vms control_files fresh_vm with_domains with_vms].
  - destruct (proj2 Hs k old Eo) as [[H1 H2 H3 H4 H5] _]. split.
    + eapply ok_in_set; [exact Hs| | |done].
      * by split.
      * intros name x _. apply Hfs.
    + eapply remembers_insert; [exact Eo| |done]. by repeat split.
  - split.
    + eapply ok_in_set; [exact Hs| | |done].
      * split; simpl; [set_solver..|done|done].
      * intros name x _. apply Hfs.
    + intros k' w Hw. right. exists w. cbn [vms fresh_vm with_domains with_vms].
      rewrite dict_lookup_insert_ne by congruence. done.
Qed.

Lemma generation_keeps D session r sb now : keeps D (new_generation session r sb now).
Proof.
  unfold new_generation. apply pressure_vm_at. intros v s Hs Hv.
  destruct (proj2 Hs _ v Hv) as [Hok Hc]. apply (restore_store D (session, r) v v
    (λ v, refresh (VM (v_id v) sb (generation v + 1) (v_phase v) (v_events v) "vmm_verified" (current_bytes v)
       (set_action (action_since (ctl v)) (now + cooldown_seconds opt)%Q (set_previous None (ctl v)))))); [done..| |done].
  intros w [H1 H2 H3 H4 H5]. by split.
Qed.

Lemma transition_keeps D session r now : keeps D (transition session r now).
Proof.
  unfold transition. apply pressure_vm_at. intros v s Hs Hv.
  destruct (proj2 Hs _ v Hv) as [Hok Hc].
  apply (restore_store D (session, r) v v (set_phase Transition)); [done..| |done].
  intros w [H1 H2 H3 H4 H5]. by split.
Qed.

(** An event keeps the identifiers that ended apart from the running ones. *)
Lemma follow_ok k r kd i v latest :
  vm_ok k v → let v' := refresh (set_events (follow r kd i (v_events v)) latest v) in
  vm_ok k v' ∧ succeeds v v'.
Proof.
  intros [H1 H2 H3 H4 H5]. unfold succeeds. simpl. split_and!; [|done|..].
  - split; simpl; [| |done..]; destruct kd; simpl; repeat case_bool_decide; simpl; set_solver.
  - destruct kd; simpl; repeat case_bool_decide; simpl; set_solver.
  - destruct kd; simpl; repeat case_bool_decide; simpl; set_solver.
Qed.

Lemma event_on_keeps D session kd i now r : keeps D (event_on session kd i now r).
Proof.
  intros s Hs. unfold event_on. rewrite bind_get. destruct (vms s !! (session, r)) as [v|] eqn:Ev.
  2: { split; [done|by apply remembers_same]. }
  set (v' := refresh _). destruct (proj2 Hs _ v Ev) as [Hok Hc].
  destruct (follow_ok (session, r) r kd i v (kind_name kd +:+ ":" +:+ i) Hok) as [Hok' Hsu].
  fold v' in Hok', Hsu. apply pressure_bind_eq; [done|..].
  { destruct (starts r kd i (v_events v)); [|destruct (_ && _)]; [destruct (forecast_of _ _ _ _)|..];
      first [by apply pressure_modify|apply pressure_ret]. }
  intros u s' E Hs'.
  assert (vms s' = vms s ∧ control_files s' = control_files s) as [Ev' Ef'].
  { revert E. destruct (starts r kd i (v_events v)); [|destruct (_ && _)]; [destruct (forecast_of _ _ _ _)|..];
      by intros [= <- <-]. }
  rewrite <- Ev' in Ev. rewrite <- Ef' in Hc. destruct (ends kd).
  - by apply (restore_store D (session, r) v' v (λ w, w)).
  - unfold store_vm, modify. simpl. split.
    + unfold pressure_ok. simpl. by eapply ok_in_set.
    + by eapply remembers_insert.
Qed.

Lemma event_keeps D session kd i now : keeps D (event session kd i now).
Proof. apply pressure_for_each. intros r. apply event_on_keeps. Qed.

Lemma ready_keeps D session execution key now : keeps D (execution_ready session execution key now).
Proof.
  unfold execution_ready. apply pressure_bind; [by apply pressure_modify|intros _; apply event_keeps].
Qed.

Lemma begins_keeps D session execution b : keeps D (execution_admitted session execution b).
Proof.
  intros s Hs. unfold execution_admitted. rewrite bind_get.
  destruct (execution_records s !! (session, execution)); (split; [done|by apply remembers_same]).
Qed.

Lemma complete_keeps D session execution o d ok now :
  keeps D (execution_complete session execution o d ok now).
Proof.
  unfold execution_complete. apply pressure_bind; [|intros _; apply event_keeps].
  apply pressure_modify. intros s. unfold recorded.
  destruct (execution_records s !! _), (ms_baseline o), (ms_peak o), (ms_final o); try done.
  by destruct (_ && _).
Qed.

Lemma drop_vm_keeps (D : string → Prop) k now : D k.1 → keeps D (drop_vm k now).
Proof.
  intros HD s Hs. unfold drop_vm. rewrite bind_get.
  destruct (vms s !! k) as [v|] eqn:Ev; [|split; [done|by apply remembers_same]].
  destruct (proj2 Hs k v Ev) as [Hok _]. split.
  - eapply ok_in_delete; [exact Hs|by apply written_apart].
  - intros k' w Hw. destruct (decide (k' = k)) as [->|Hk]; [by left|right]. exists w. split_and!; [|done..].
    change (delete k (vms s) !! k' = Some w). by rewrite dict_lookup_delete_ne.
Qed.

Lemma unregister_keeps session now : keeps (λ x, x = session) (unregister session now).
Proof.
  unfold unregister. apply pressure_bind; [|intros _; by apply pressure_modify].
  apply pressure_for_each. intros r. by apply drop_vm_keeps.
Qed.

Lemma store_keeps D k v0 v s :
  pressure_ok s → vms s !! k = Some v0 → succeeds v0 v → vm_ok k v → clean (control_files s) (ctl v) →
  pressure_ok (store_vm k v s).2 ∧ remembers D s (store_vm k v s).2.
Proof.
  intros Hs Hv Hsu Hok Hc. unfold store_vm, modify. simpl. split.
  - unfold pressure_ok. simpl. by eapply ok_in_set.
  - by eapply remembers_insert.
Qed.

(** The VM after a sample. *)
Definition sampled (v : vm) (r : readings) : vm :=
  VM (v_id v) (sandbox v) (generation v) (v_phase v) (v_events v) (latest_event v)
    (rd_current r) (set_previous (Some (rd_sample r)) (ctl v)).

Lemma sample_vm_ok k v now e s v' g s' :
  sample_vm k v now e s = (Ok (v', g), s') →
  ∃ r, read_sample now e = Ok r ∧ v' = sampled v r ∧ g = signals_of r (previous (ctl v)) ∧
    vms s' = <[k := v']> (vms s) ∧ control_files s' = control_files s.
Proof.
  unfold sample_vm. intros H. apply bind_ok_inv in H as (r & s1 & [= Hr <-] & H).
  apply bind_ok_inv in H as (? & s2 & [= _ <-] & H). apply bind_ok_inv in H as (? & s3 & [= _ <-] & H).
  injection H as <- <- <-. by exists r.
Qed.

Lemma sampled_vm_ok k v r : vm_ok k v → vm_ok k (sampled v r).
Proof. intros [H1 H2 H3 H4 H5]. by split. Qed.

Lemma sample_vm_keeps D k v now e s :
  pressure_ok s → vms s !! k = Some v →
  pressure_ok (sample_vm k v now e s).2 ∧ remembers D s (sample_vm k v now e s).2.
Proof.
  intros Hs Hv. destruct (proj2 Hs k v Hv) as [Hok Hc]. unfold sample_vm.
  apply pressure_bind_eq; [done|apply pressure_lift|]. intros r s' [= _ <-] _.
  pose proof (store_keeps D k v (sampled v r) s Hs Hv ltac:(done) (sampled_vm_ok k v r Hok) Hc) as Hst.
  exact Hst.
Qed.

Lemma apply_control_keeps D k name value : name ≠ MemoryHigh → keeps D (apply_control k name value).
Proof.
  intros Hn. unfold apply_control. apply pressure_vm_at. intros v s Hs Hv.
  apply pressure_bind_eq; [done|apply pressure_read|]. intros text s' [-> Ht]%read_control_ok _.
  case_bool_decide; [split; [done|by apply remembers_same]|].
  destruct (proj2 Hs k v Hv) as [[H1 H2 H3 H4 H5] Hc]. unfold store_vm, modify, mbind, M_bind. simpl. split.
  - unfold pressure_ok. simpl. eapply ok_in_set; [exact Hs| | |].
    + split; simpl; [done|done|set_solver|done|done].
    + intros nm x. simpl. intros Hnm. rewrite lookup_insert_ne by set_solver. apply Hc. set_solver.
    + intros g nm Hg. rewrite lookup_insert_ne; [done|]. intros [= <- _]. done.
  - eapply remembers_insert; [exact Hv| |done]. done.
Qed.

Lemma choose_weight_pure f session v blocked g boosts e s :
  (choose_weight f session v blocked g boosts e s).2 = s.
Proof.
  unfold choose_weight, mbind, M_bind, lift, get, mret, M_ret.
  destruct (int _) as [w|]; simpl; [|done].
  destruct (_ && cpu_release_boost); [|done].
  destruct (on_own_node v e); simpl; [|done]. by destruct (_ && existsb _ _).
Qed.

Lemma settle_keeps D f k low weight : keeps D (settle f k low weight).
Proof.
  unfold settle. apply pressure_vm_at. intros v s Hs Hv.
  apply pressure_bind_eq; [done|apply pressure_lift|]. intros w s' [= _ <-] _.
  destruct (proj2 Hs k v Hv) as [[H1 H2 H3 H4 H5] Hc].
  apply (store_keeps D k v); [done|done|done| |]; destruct (negb _ || negb _); try by split.
  all: exact Hc.
Qed.

Lemma act_keeps D f k v blocked e l now s :
  pressure_ok s → vms s !! k = Some v →
  pressure_ok (act f k v blocked e l now s).2 ∧ remembers D s (act f k v blocked e l now s).2.
Proof.
  intros Hs Hv. unfold act. apply pressure_bind_at; [by apply sample_vm_keeps|].
  intros [v1 g] s1 H1 Hs1. apply sample_vm_ok in H1 as (r & _ & -> & _ & Evs & Efs).
  assert (vms s1 !! k = Some (sampled v r)) as Hv1 by (rewrite Evs; apply dict_lookup_insert_eq).
  destruct (proj2 Hs1 k _ Hv1) as [Hok1 Hc1]. simpl.
  destruct (_ || _).
  - set (v1 := match action_since (ctl v) with Some _ => _ | None => _ end).
    assert (vm_ok k v1 ∧ clean (control_files s1) (ctl v1) ∧ succeeds (sampled v r) v1) as (Hok2 & Hc2 & Hsu).
    { subst v1. destruct Hok1 as [A1 A2 A3 A4 A5]. destruct (action_since (ctl v)); split_and!; try done.
      all: by split. }
    apply pressure_bind_at; [|intros ????; by apply pressure_ret].
    by apply (restore_store D k v1 (sampled v r) (λ w, w)).
  - apply pressure_bind_eq; [done|apply pressure_pure, choose_weight_pure|].
    intros [weight boosts] s2 _ Hs2.
    apply pressure_bind_eq; [done|by apply apply_control_keeps|]. intros _ s3 _ Hs3.
    apply pressure_bind_eq; [done|by apply apply_control_keeps|]. intros _ s4 _ Hs4.
    apply pressure_bind_eq; [done|by apply settle_keeps|]. intros _ s5 _ Hs5.
    by apply pressure_ret.
Qed.

Lemma clear_previous_keeps D k : keeps D (clear_previous k).
Proof.
  unfold clear_previous. apply pressure_vm_at. intros v s Hs Hv.
  destruct (proj2 Hs k v Hv) as [[H1 H2 H3 H4 H5] Hc]. by apply (store_keeps D k v).
Qed.

Lemma visit_keeps D f env now kv l : keeps D (visit f env now kv l).
Proof.
  destruct kv as [k i]. intros s Hs. unfold visit. rewrite bind_get.
  destruct (vms s !! k) as [v|] eqn:Ev; [|by apply pressure_ret].
  destruct (negb (bool_decide (v_id v = i))); [by apply pressure_ret|].
  set (blocked := default false _). apply pressure_bind_eq; [done|..].
  { destruct blocked; [by apply pressure_modify|apply pressure_ret]. }
  intros u s1 E1 Hs1. assert (vms s1 !! k = Some v) as Hv1 by (by destruct blocked; injection E1 as _ <-).
  destruct (negb _ || negb _).
  { apply pressure_bind_at; [by apply restore_keeps|intros ????; by apply pressure_ret]. }
  destruct (negb _); [|by apply act_keeps].
  apply pressure_bind_at; [by apply restore_keeps|intros _ s2 _ Hs2].
  apply pressure_bind_eq; [done|apply clear_previous_keeps|intros _ s3 _ Hs3]. by apply pressure_ret.
Qed.

Lemma visit_all_keeps D f env now kvs : ∀ l, keeps D (visit_all f env now kvs l).
Proof.
  induction kvs as [|kv kvs IH]; intros l; simpl; [apply pressure_ret|].
  apply pressure_bind; [apply visit_keeps|done].
Qed.

Lemma poll_keeps D e : keeps D (poll e).
Proof.
  unfold poll. apply pressure_bind; [apply pressure_lift|intros memory].
  apply pressure_bind; [apply pressure_lift|intros stat s Hs]. rewrite bind_get.
  apply pressure_bind_at; [split; [done|by apply remembers_same]|]. intros u s1 _ Hs1.
  apply pressure_bind_eq; [done|apply visit_all_keeps|]. intros l s2 _ Hs2. by apply pressure_modify.
Qed.

Lemma restore_all_keeps D now : keeps D (restore_all now).
Proof.
  unfold restore_all. apply pressure_bind; [apply pressure_get|intros s0].
  apply pressure_for_each. intros [k i] s Hs. unfold restore_one. rewrite bind_get. simpl.
  destruct (vms s !! k) as [v|] eqn:Ev; [|by apply pressure_ret].
  case_bool_decide; [by apply restore_keeps|by apply pressure_ret].
Qed.

Lemma poll_thread_keeps D e : keeps D (poll_thread e).
Proof.
  intros s Hs. unfold poll_thread, try_except. pose proof (poll_keeps D e s Hs) as Hp.
  destruct (poll e s) as [[u|x] s1]; [done|]. destruct Hp as [H1 H2].
  assert (keeps D (restore_all (pe_now e) ;; raise x : M pressure unit)) as Hr.
  { apply pressure_bind; [apply restore_all_keeps|intros _; by apply pressure_pure]. }
  destruct (Hr s1 H1) as [H3 H4].
  split; [done|by eapply remembers_trans].
Qed.

(** The kernel's own changes to cgroups. *)
Lemma foldr_controls_lookup (h : control → option string) (g : path) (fs : gmap (path * control) string) (g' : path) n :
  foldr (λ c fs, partial_alter (λ _, h c) (g, c) fs) fs all_controls !! (g', n) =
    if decide (g' = g) then h n else fs !! (g', n).
Proof.
  simpl. destruct (decide (g' = g)) as [->|Hg].
  - destruct n; repeat (rewrite lookup_partial_alter_eq || rewrite lookup_partial_alter_ne by congruence); done.
  - rewrite !lookup_partial_alter_ne by congruence. done.
Qed.

Lemma vanish_keeps D g : keeps D (modify (vanish g)).
Proof.
  intros s [Hd HV]. split; [|by apply remembers_same]. split; [done|]. intros k v Hv.
  destruct (HV k v Hv) as [Hok Hc]. split; [done|]. intros name x Hn.
  change (control_files (modify (vanish g) s).2) with
    (foldr (λ c fs, partial_alter (λ _, None) (g, c) fs) (control_files s) all_controls).
  rewrite (foldr_controls_lookup (λ _, None)). case_decide; [done|]. by apply Hc.
Qed.

Lemma appear_keeps D g idle : keeps D (modify (appear g idle)).
Proof.
  intros s [Hd HV]. split; [|apply remembers_same; unfold modify, appear; simpl; by destruct (existsb _ _)].
  unfold modify, appear. simpl. destruct (existsb _ _) eqn:E; [done|]. split; [done|]. intros k v Hv.
  destruct (HV k v Hv) as [Hok Hc]. split; [done|]. intros name x Hn.
  change (control_files (with_files _ _ s)) with
    (foldr (λ c fs, partial_alter (λ _, Some (default_control idle c)) (g, c) fs) (control_files s) all_controls).
  rewrite (foldr_controls_lookup (λ c, Some (default_control idle c))).
  destruct (decide (group (ctl v) = g)) as [Hg|]; [|by apply Hc].
  exfalso. rewrite <- not_true_iff_false in E. apply E. apply existsb_exists. exists (k, v).
  split; [by apply list_elem_of_In, dict_lookup_elem|]. by apply bool_decide_eq_true.
Qed.

(** The sessions an operation forgets. *)
Definition forgets (o : op) : string → Prop :=
  λ x, match o with Unregister session _ => x = session | _ => False end.

Lemma step_keeps o : op_owned o → keeps (forgets o) (step o).
Proof.
  intros Ho. destruct o; simpl in *.
  - by apply register_keeps.
  - apply generation_keeps.
  - apply transition_keeps.
  - apply event_keeps.
  - apply ready_keeps.
  - apply begins_keeps.
  - apply complete_keeps.
  - apply unregister_keeps.
  - apply poll_thread_keeps.
  - apply restore_all_keeps.
  - apply vanish_keeps.
  - apply appear_keeps.
Qed.

Lemma run_keeps os : ∀ s, pressure_ok s → Forall op_owned os →
  pressure_ok (run os s) ∧ remembers (λ x, ∃ o, o ∈ os ∧ forgets o x) s (run os s).
Proof.
  induction os as [|o os IH]; intros s Hs Ho; [split; [done|by apply remembers_same]|].
  apply Forall_cons in Ho as [Ho Hos]. destruct (step_keeps o Ho s Hs) as [H1 H2].
  destruct (IH _ H1 Hos) as [H3 H4]. split; [done|]. simpl.
  eapply remembers_trans.
  - intros k v Hv. destruct (H2 k v Hv) as [Hf|?]; [left|by right]. exists o. split; [by left|done].
  - intros k v Hv. destruct (H4 k v Hv) as [(o' & Hin & Hf)|?]; [left|by right].
    exists o'. split; [by right|done].
Qed.

Lemma pressure_init_ok files : pressure_ok (pressure_init files).
Proof. split; [apply dict_empty_ok|]. by intros k v Hv. Qed.

(** ** Tombstones *)

(** A completed execution never runs again.  Whatever is delivered late or
    twice, an identifier that completed on a VM is never active or pending on it
    again, and a model call that was answered is never waited for again, until the
    session is unregistered; pauses, restores and re-registrations of the VM keep
    the same object and its tombstones. *)
Theorem completed_stays_completed files os1 os2 k v :
  let s := run os1 (pressure_init files) in
  Forall op_owned os1 → Forall op_owned os2 → Forall (λ o, ¬ forgets o k.1) os2 →
  vms s !! k = Some v →
  ∃ v', vms (run os2 s) !! k = Some v' ∧ v_id v' = v_id v ∧
    (∀ i, i ∈ finished (v_events v) → i ∉ active (v_events v') ∧ i ∉ pending (v_events v')) ∧
    (∀ i, i ∈ responses (v_events v) → i ∉ waits (v_events v')).
Proof.
  intros s H1 H2 Hf Hv. destruct (run_keeps os1 _ (pressure_init_ok files) H1) as [Hs _].
  destruct (run_keeps os2 s Hs H2) as [Hs2 Hr].
  destruct (Hr k v Hv) as [(o & Ho & Hg)|(v' & Hv' & Hid & Hfin & Hres)].
  { rewrite Forall_forall in Hf. by destruct (Hf o Ho). }
  exists v'. split_and!; [done|done|..]; destruct (proj2 Hs2 k v' Hv') as [[T1 T2 _ _ _] _]; set_solver.
Qed.

(** ** Controls are given back *)

(** Every control file the VM still has holds its saved value. *)
Definition given_back (s : pressure) (v : vm) : Prop :=
  ∀ name x, control_files s !! (group (ctl v), name) = Some x → strip x = saved (ctl v) name.

Lemma restore_vm_spec now k v s :
  pressure_ok s → vms s !! k = Some v →
  let s' := (restore_vm now k v s).2 in
  (restore_vm now k v s).1 = Ok tt ∧
  vms s' = <[k := set_ctl (restored_ctl now (ctl v)) v]> (vms s) ∧
  control_files s' = written (ctl v) (control_files s).
Proof. done. Qed.

Lemma unmodified_given_back k v s :
  pressure_ok s → vms s !! k = Some v → modified (ctl v) = ∅ → given_back s v.
Proof. intros Hs Hv Hm name x. apply (proj2 Hs k v Hv). rewrite Hm. set_solver. Qed.

Lemma restore_one_spec now kv s k v' :
  vms (restore_one now kv s).2 !! k = Some v' →
  ∃ v, vms s !! k = Some v ∧ v_id v' = v_id v ∧
    (modified (ctl v') = modified (ctl v) ∨ modified (ctl v') = ∅) ∧
    (kv = (k, v_id v) → modified (ctl v') = ∅).
Proof.
  destruct kv as [k0 i]. unfold restore_one. rewrite bind_get. simpl.
  destruct (vms s !! k0) as [v0|] eqn:E0.
  2: { intros Hv. change (vms s !! k = Some v') in Hv. exists v'. split_and!; [done|done|by left|].
       intros [= -> _]. congruence. }
  case_bool_decide as Hi.
  2: { intros Hv. change (vms s !! k = Some v') in Hv. exists v'. split_and!; [done|done|by left|].
       intros [= -> ->]. congruence. }
  change (vms (restore_vm now k0 v0 s).2) with (<[k0 := set_ctl (restored_ctl now (ctl v0)) v0]> (vms s)).
  destruct (decide (k = k0)) as [->|Hk].
  - rewrite dict_lookup_insert_eq. intros [= <-]. exists v0. split_and!; [done|done|by right|done].
  - rewrite dict_lookup_insert_ne by done. intros Hv. exists v'. split_and!; [done|done|by left|].
    intros [= -> _]. done.
Qed.

Lemma restore_each_unmodified now kvs : ∀ s k v',
  vms (for_each kvs (restore_one now) s).2 !! k = Some v' →
  ∃ v, vms s !! k = Some v ∧ v_id v' = v_id v ∧
    (modified (ctl v') = modified (ctl v) ∨ modified (ctl v') = ∅) ∧
    ((k, v_id v) ∈ kvs → modified (ctl v') = ∅).
Proof.
  induction kvs as [|kv kvs IH]; intros s k v' Hv; simpl in Hv.
  { exists v'. split_and!; [done|done|by left|]. by intros ?%elem_of_nil. }
  assert (restore_one now kv s = (Ok tt, (restore_one now kv s).2)) as E.
  { unfold restore_one. rewrite bind_get. destruct (vms s !! kv.1); [|done]. by case_bool_decide. }
  unfold mbind, M_bind in Hv. rewrite E in Hv.
  destruct (IH _ k v' Hv) as (v1 & Hv1 & Hi1 & Hm1 & Hin1).
  destruct (restore_one_spec now kv s k v1 Hv1) as (v & Hv0 & Hi & Hm & Hin).
  exists v. split_and!; [done|congruence|destruct Hm1 as [->|]; [done|by right]|].
  intros [Heq|Hk]%elem_of_cons.
  - specialize (Hin (eq_sym Heq)). destruct Hm1 as [->|]; done.
  - apply Hin1. by rewrite Hi.
Qed.

Lemma restore_all_unmodified now s k v :
  vms (restore_all now s).2 !! k = Some v → modified (ctl v) = ∅.
Proof.
  unfold restore_all. rewrite bind_get. intros (v0 & Hv0 & _ & _ & Hin)%restore_each_unmodified.
  apply Hin, list_elem_of_fmap. exists (k, v0). split; [done|by apply dict_lookup_elem].
Qed.

Lemma event_on_unmodified session kd i now r s k v' :
  ends kd = true → vms (event_on session kd i now r s).2 !! k = Some v' →
  if decide (k = (session, r)) then modified (ctl v') = ∅ else vms s !! k = Some v'.
Proof.
  intros He. unfold event_on. rewrite bind_get.
  destruct (vms s !! (session, r)) as [v|] eqn:Ev.
  2: { intros Hv. change (vms s !! k = Some v') in Hv. case_decide; [congruence|done]. }
  rewrite He. set (w := refresh _). set (m := if starts r kd i (v_events v) then _ else _).
  assert (∃ s1, m s = (Ok tt, s1) ∧ vms s1 = vms s) as (s1 & Em & Es).
  { subst m. destruct (starts r kd i (v_events v)); [|destruct (_ && _)]; [destruct (forecast_of _ _ _ _)|..];
      by eexists. }
  unfold mbind at 1, M_bind at 1. rewrite Em.
  change (vms (restore_vm now (session, r) w s1).2) with
    (<[(session, r) := set_ctl (restored_ctl now (ctl w)) w]> (vms s1)). rewrite Es.
  case_decide as Hk; [subst k|].
  - rewrite dict_lookup_insert_eq. by intros [= <-].
  - by rewrite dict_lookup_insert_ne.
Qed.

Lemma event_on_total session kd i now r s : (event_on session kd i now r s).1 = Ok tt.
Proof.
  unfold event_on. rewrite bind_get. destruct (vms s !! (session, r)) as [v|]; [|done].
  unfold mbind at 1, M_bind at 1. destruct (starts r kd i (v_events v)); [|destruct (_ && _)];
    [destruct (forecast_of _ _ _ _)|..]; by destruct (ends kd).
Qed.

Lemma event_unmodified session kd i now s r v' :
  ends kd = true → vms (event session kd i now s).2 !! (session, r) = Some v' → modified (ctl v') = ∅.
Proof.
  intros He Hv. unfold event in Hv. simpl in Hv. unfold mbind, M_bind in Hv.
  pose proof (event_on_total session kd i now Runtime s) as T1.
  destruct (event_on session kd i now Runtime s) as [o1 s1] eqn:E1. simpl in T1. subst o1.
  pose proof (event_on_total session kd i now Tool s1) as T2.
  destruct (event_on session kd i now Tool s1) as [o2 s2] eqn:E2. simpl in T2. subst o2.
  change (vms s2 !! (session, r) = Some v') in Hv.
  pose proof (event_on_unmodified session kd i now Tool s1 (session, r) v' He) as H2.
  rewrite E2 in H2. specialize (H2 Hv). case_decide as Hr; [done|].
  pose proof (event_on_unmodified session kd i now Runtime s (session, r) v' He) as H1.
  rewrite E1 in H1. specialize (H1 H2). case_decide as Hr'; [done|]. by destruct r.
Qed.

Lemma given_back_apart s s' k k' v :
  vm_ok k' v → k' ≠ k → (∀ g n, owner g ≠ k → control_files s' !! (g, n) = control_files s !! (g, n)) →
  given_back s v → given_back s' v.
Proof.
  intros Hv Hk Hfs Hg name x. rewrite Hfs; [apply Hg|]. by rewrite (vm_owner k' v Hv).
Qed.

Lemma drop_vm_spec k now s :
  pressure_ok s →
  let s' := (drop_vm k now s).2 in
  (drop_vm k now s).1 = Ok tt ∧ vms s' = delete k (vms s) ∧
  (∀ g n, owner g ≠ k → control_files s' !! (g, n) = control_files s !! (g, n)) ∧
  (∀ v, vms s !! k = Some v → given_back s' v).
Proof.
  intros Hs. unfold drop_vm. rewrite bind_get. destruct (vms s !! k) as [v|] eqn:Ev.
  - destruct (proj2 Hs k v Ev) as [Hok Hc]. split_and!; [done|done|by apply written_apart|].
    intros v' [= <-] name x. apply (written_clean k v _ now Hok Hc). simpl. set_solver.
  - split_and!; [done| |done|done]. symmetry. by apply delete_notin.
Qed.

Lemma unregister_spec session now s r v :
  pressure_ok s → vms s !! (session, r) = Some v →
  let s' := (unregister session now s).2 in vms s' !! (session, r) = None ∧ given_back s' v.
Proof.
  intros Hs Hv. unfold unregister. simpl.
  destruct (drop_vm_spec (session, Runtime) now s Hs) as (T1 & V1 & F1 & G1).
  destruct (drop_vm_keeps (λ _, True) (session, Runtime) now I s Hs) as [Hs1 _].
  unfold mbind, M_bind. destruct (drop_vm (session, Runtime) now s) as [o1 s1]. simpl in *. subst o1.
  destruct (drop_vm_spec (session, Tool) now s1 Hs1) as (T2 & V2 & F2 & G2).
  destruct (drop_vm (session, Tool) now s1) as [o2 s2]. simpl in *. subst o2. simpl.
  destruct (proj2 Hs _ v Hv) as [Hok _]. pose proof (proj1 Hs) as Hd.
  assert (dict_ok (vms s1)) as Hd1 by (rewrite V1; by apply delete_ok).
  rewrite V2, V1. destruct r; split.
  - by rewrite dict_lookup_delete_ne, dict_lookup_delete_eq.
  - apply (given_back_apart s1 s2 (session, Tool) (session, Runtime) v); [done|done|done|by apply G1].
  - apply dict_lookup_delete_eq. by apply delete_ok.
  - apply G2. by rewrite V1, dict_lookup_delete_ne.
Qed.

(** Every control is given back.  In every run, when the controller stops or
    fails, every registered VM's control files hold their saved values; the same
    holds for a VM that is unregistered and for the VMs of a session whose
    execution or model call ends. *)
Theorem controls_given_back files os :
  let s := run os (pressure_init files) in
  Forall op_owned os →
  (∀ now k v, vms (restore_all now s).2 !! k = Some v → given_back (restore_all now s).2 v) ∧
  (∀ session r v now, vms s !! (session, r) = Some v →
    let s' := (unregister session now s).2 in vms s' !! (session, r) = None ∧ given_back s' v) ∧
  (∀ session kd i r v now, ends kd = true →
    let s' := (event session kd i now s).2 in vms s' !! (session, r) = Some v → given_back s' v).
Proof.
  intros s Ho. destruct (run_keeps os _ (pressure_init_ok files) Ho) as [Hs _]. split_and!.
  - intros now k v Hv. destruct (restore_all_keeps (λ _, False) now s Hs) as [Hs' _].
    eapply unmodified_given_back; [done|done|]. by eapply restore_all_unmodified.
  - intros session r v now Hv. by apply unregister_spec.
  - intros session kd i r v now He s' Hv. destruct (event_keeps (λ _, False) session kd i now s Hs) as [Hs' _].
    eapply unmodified_given_back; [exact Hs'|exact Hv|]. by eapply event_unmodified.
Qed.

(** ** The budgets of a poll *)

(** The protection and the boost a VM currently has. *)
Definition low_of (s : pressure) (k : string * role) : Z :=
  match vms s !! k ≫= λ v, control_files s !! (group (ctl v), MemoryLow) with
  | Some text => match int (strip text) with Ok n => n | Raise _ => 0 end
  | None => 0
  end.
Definition boosted (s : pressure) (k : string * role) : bool :=
  match vms s !! k with
  | Some v => match control_files s !! (group (ctl v), CpuWeight) with
              | Some text => negb (bool_decide (strip text = saved (ctl v) CpuWeight))
              | None => false
              end
  | None => false
  end.
Definition protected_total (s : pressure) : Z := zsum (low_of s <$> keys (vms s)).
Definition boosted_count (s : pressure) : Z := zsum ((λ k, Z.b2z (boosted s k)) <$> keys (vms s)).

(** The kernel's counters are not negative. *)
Definition sane (env : string * role → vm_env) : Prop :=
  ∀ k now r, read_sample now (env k) = Ok r → 0 <= working_set r.

(** A change of one VM and of the files of its group. *)
Definition updates (k : string * role) (s s' : pressure) : Prop :=
  ∃ v v', vms s !! k = Some v ∧ vms s' = <[k := v']> (vms s) ∧ v_id v' = v_id v ∧
    group (ctl v') = group (ctl v) ∧ saved (ctl v') = saved (ctl v) ∧
    ∀ g n, g ≠ group (ctl v) → control_files s' !! (g, n) = control_files s !! (g, n).

Lemma updates_trans k s1 s2 s3 : updates k s1 s2 → updates k s2 s3 → updates k s1 s3.
Proof.
  intros (v1 & v2 & H1 & H2 & H3 & H4 & H5 & H6) (w & v3 & G1 & G2 & G3 & G4 & G5 & G6).
  rewrite H2, dict_lookup_insert_eq in G1. injection G1 as <-. exists v1, v3.
  split_and!; [done| |congruence..|].
  - by rewrite G2, H2, insert_insert.
  - intros g n Hg. rewrite G6, H6; [done|done|congruence].
Qed.

Lemma updates_same k s s' v :
  vms s !! k = Some v → vms s' = vms s → control_files s' = control_files s → updates k s s'.
Proof.
  intros Hv Ev Ef. exists v, v. rewrite Ev, Ef. split_and!; [done| |done..]. symmetry. by apply insert_id.
Qed.

Lemma updates_lookup k s s' : updates k s s' → is_Some (vms s' !! k).
Proof. intros (v & v' & _ & -> & _). rewrite dict_lookup_insert_eq. by eexists. Qed.

(** Another VM does not see it. *)
Lemma updates_apart k s s' k' :
  pressure_ok s → updates k s s' → k' ≠ k →
  vms s' !! k' = vms s !! k' ∧ low_of s' k' = low_of s k' ∧ boosted s' k' = boosted s k'.
Proof.
  intros Hs (v & v' & H1 & H2 & _ & _ & _ & H6) Hk. unfold low_of, boosted.
  assert (vms s' !! k' = vms s !! k') as -> by (by rewrite H2, dict_lookup_insert_ne).
  split; [done|]. destruct (vms s !! k') as [w|] eqn:Ew; simpl; [|done].
  destruct (proj2 Hs k' w Ew) as [Hw _]. destruct (proj2 Hs k v H1) as [Hv _].
  rewrite !H6; [done|..]; intros E; apply Hk; by rewrite <- (vm_owner k' w Hw), <- (vm_owner k v Hv), E.
Qed.

Lemma updates_keys k s s' : updates k s s' → keys (vms s') = keys (vms s).
Proof.
  intros (v & v' & H1 & -> & _). rewrite keys_insert. destruct (decide _) as [|Hn]; [done|].
  exfalso. apply Hn, dict_lookup_key. by rewrite H1.
Qed.

(** Applying a control on a VM leaves that value in the file. *)
Lemma apply_control_ok k name value s u s' :
  apply_control k name value s = (Ok u, s') →
  updates k s s' ∧ ∃ v text, vms s' !! k = Some v ∧
    control_files s' !! (group (ctl v), name) = Some text ∧ (strip text = value ∨ text = value) ∧
    ∀ n, n ≠ name → control_files s' !! (group (ctl v), n) = control_files s !! (group (ctl v), n).
Proof.
  unfold apply_control. intros H. apply bind_ok_inv in H as (v & s1 & H1 & H).
  unfold vm_at in H1. rewrite bind_get in H1. destruct (vms s !! k) as [w|] eqn:Ev; [|done].
  injection H1 as <- <-. apply bind_ok_inv in H as (text & s2 & [-> Ht]%read_control_ok & H).
  case_bool_decide as Hx.
  - injection H as _ <-. split; [by eapply updates_same|]. exists w, text. split_and!; [done|done|by left|done].
  - apply bind_ok_inv in H as (? & s3 & [= _ <-] & H). injection H as _ <-. simpl. split.
    + exists w, (set_ctl (set_modified ({[name]} ∪ modified (ctl w)) (ctl w)) w).
      split_and!; [done..|]. intros g n Hg. simpl. rewrite lookup_insert_ne; [done|congruence].
    + eexists _, value. simpl. rewrite dict_lookup_insert_eq. split_and!; [done| |by right|].
      * simpl. by rewrite lookup_insert_eq.
      * intros n Hn. simpl. rewrite lookup_insert_ne; [done|congruence].
Qed.

Lemma default_weight_int idle : ∃ w, int (default_control idle CpuWeight) = Ok w ∧
  str w = default_control idle CpuWeight.
Proof. destruct idle; [exists 0|exists 100]; split; vm_compute; reflexivity. Qed.

(** A restored VM is neither protected nor boosted. *)
Lemma restore_vm_quiet now k v0 v s :
  pressure_ok s → vms s !! k = Some v0 → vm_ok k v → clean (control_files s) (ctl v) →
  v_id v = v_id v0 → group (ctl v) = group (ctl v0) → saved (ctl v) = saved (ctl v0) →
  let s' := (restore_vm now k v s).2 in
  (restore_vm now k v s).1 = Ok tt ∧ updates k s s' ∧ low_of s' k = 0 ∧ boosted s' k = false.
Proof.
  intros Hs Hv0 Hv Hc Hi Hg Hsv. set (s' := _.2). split; [done|].
  assert (clean (control_files s') (restored_ctl now (ctl v))) as Hc'
    by exact (written_clean k v _ now Hv Hc).
  assert (vms s' = <[k := set_ctl (restored_ctl now (ctl v)) v]> (vms s)) as Ev by done.
  assert (control_files s' = written (ctl v) (control_files s)) as Ef by done. clearbody s'.
  split_and!.
  - exists v0, (set_ctl (restored_ctl now (ctl v)) v). split_and!; [done..|].
    intros g n Hn. rewrite Ef, written_lookup, decide_False; [done|]. rewrite Hg. tauto.
  - unfold low_of. rewrite Ev, dict_lookup_insert_eq. simpl.
    destruct (control_files s' !! (group (ctl v), MemoryLow)) as [text|] eqn:Et; [|done].
    rewrite (Hc' MemoryLow text); [|set_solver|done]. simpl. rewrite (vm_saved k v Hv). by vm_compute.
  - unfold boosted. rewrite Ev, dict_lookup_insert_eq. simpl.
    destruct (control_files s' !! (group (ctl v), CpuWeight)) as [text|] eqn:Et; [|done].
    rewrite (Hc' CpuWeight text); [|set_solver|done]. simpl. by rewrite bool_decide_eq_true_2.
Qed.

(** An update that leaves the files alone changes neither. *)
Lemma same_files_same s s' k v v' :
  vms s !! k = Some v → vms s' !! k = Some v' → group (ctl v') = group (ctl v) →
  saved (ctl v') = saved (ctl v) →
  (∀ n, control_files s' !! (group (ctl v), n) = control_files s !! (group (ctl v), n)) →
  low_of s' k = low_of s k ∧ boosted s' k = boosted s k.
Proof. intros Hv Hv' Hg Hsv Hf. unfold low_of, boosted. rewrite Hv, Hv'. simpl. by rewrite Hg, Hsv, !Hf. Qed.

Lemma settle_ok f k low weight s u s' :
  settle f k low weight s = (Ok u, s') →
  updates k s s' ∧ low_of s' k = low_of s k ∧ boosted s' k = boosted s k.
Proof.
  unfold settle. intros H. apply bind_ok_inv in H as (v & s1 & H1 & H).
  unfold vm_at in H1. rewrite bind_get in H1. destruct (vms s !! k) as [w|] eqn:Ev; [|done].
  injection H1 as <- <-. apply bind_ok_inv in H as (sw & s2 & [= _ <-] & H). injection H as _ <-.
  split.
  - eexists w, _. split_and!; [done|reflexivity|done|by destruct (negb _ || negb _)..|done].
  - eapply same_files_same; [done|apply dict_lookup_insert_eq|by destruct (negb _ || negb _)..|done].
Qed.

Lemma choose_weight_ok f session v blocked g boosts e s w b s' :
  choose_weight f session v blocked g boosts e s = (Ok (w, b), s') →
  s' = s ∧ (int (saved (ctl v) CpuWeight) = Ok w ∧ b = boosts ∨ boosts = S b).
Proof.
  unfold choose_weight. intros H. apply bind_ok_inv in H as (w0 & s1 & [= Hw <-] & H).
  destruct (_ && cpu_release_boost) eqn:Ec.
  - apply bind_ok_inv in H as (own & s2 & [= _ <-] & H). rewrite bind_get in H.
    destruct (own && _); injection H as <- <- <-; (split; [done|]); [right|by left].
    destruct boosts; [|done]. by rewrite andb_false_r in Ec.
  - injection H as <- <- <-. split; [done|by left].
Qed.

(** What a visit may take from the budgets. *)
Definition within (s' : pressure) (k : string * role) (l l' : left_over) : Prop :=
  low_of s' k <= protection_left l - protection_left l' ∧ 0 <= protection_left l' ∧
  Z.b2z (boosted s' k) + Z.of_nat (boosts_left l') <= Z.of_nat (boosts_left l).

Lemma quiet_within s' k l : 0 <= protection_left l → low_of s' k = 0 → boosted s' k = false → within s' k l l.
Proof. intros Hl H1 H2. unfold within. rewrite H1, H2. simpl. lia. Qed.

(** The protection that was just written is what the VM has. *)
Lemma low_written k low s u s' : 0 <= low →
  apply_control k MemoryLow (str low) s = (Ok u, s') → low_of s' k = low.
Proof.
  intros Hl (_ & v & text & Hv & Ht & Hx & _)%apply_control_ok. unfold low_of. rewrite Hv. simpl. rewrite Ht.
  replace (strip text) with (str low); [by rewrite int_str|]. destruct Hx as [->| ->]; [done|].
  by rewrite strip_str.
Qed.

(** The saved weight is no boost. *)
Lemma weight_written k v weight s u s' :
  pressure_ok s → vms s !! k = Some v → int (saved (ctl v) CpuWeight) = Ok weight →
  apply_control k CpuWeight (str weight) s = (Ok u, s') → boosted s' k = false.
Proof.
  intros Hs Hv Hw (Hu & v' & text & Hv' & Ht & Hx & _)%apply_control_ok.
  destruct Hu as (w & w' & Hw1 & Ew & _ & _ & Hsv & _). unfold boosted. rewrite Hv', Ht.
  rewrite Ew, dict_lookup_insert_eq in Hv'. simplify_eq. rewrite Hsv.
  destruct (proj2 Hs k v Hv) as [Hok _]. rewrite (vm_saved k v Hok) in Hw |- *.
  destruct (default_weight_int (cpu_idle (ctl v))) as (w0 & E0 & E1). rewrite E0 in Hw. injection Hw as <-.
  rewrite bool_decide_eq_true_2; [done|]. rewrite E1 in Hx. destruct Hx as [->| ->]; [done|]. apply saved_strips.
Qed.

(** Writing the weight does not change the protection. *)
Lemma weight_keeps_low k value s u s' :
  apply_control k CpuWeight value s = (Ok u, s') → low_of s' k = low_of s k.
Proof.
  intros (Hu & v' & text & Hv' & _ & _ & Hsame)%apply_control_ok.
  destruct Hu as (w & w' & Hw1 & Ew & _ & Hg & _ & _). unfold low_of.
  rewrite Ew, dict_lookup_insert_eq in Hv'. simplify_eq. rewrite Ew, dict_lookup_insert_eq, Hw1. simpl.
  by rewrite Hsame, Hg.
Qed.

Lemma act_ok f k v blocked e l now s l' s' :
  pressure_ok s → vms s !! k = Some v → 0 <= protection_left l →
  (∀ r, read_sample (fr_began f) e = Ok r → 0 <= working_set r) →
  act f k v blocked e l now s = (Ok l', s') → updates k s s' ∧ within s' k l l'.
Proof.
  intros Hs Hv Hl Hsane H. unfold act in H. apply bind_ok_inv in H as ([v1 g] & s1 & H1 & H).
  pose proof (proj1 (sample_vm_keeps (λ _, True) k v (fr_began f) e s Hs Hv)) as Hs1. rewrite H1 in Hs1.
  apply sample_vm_ok in H1 as (r & Hr & -> & -> & Evs & Efs).
  assert (vms s1 !! k = Some (sampled v r)) as Hv1 by (rewrite Evs; apply dict_lookup_insert_eq).
  assert (updates k s s1) as Hu1.
  { exists v, (sampled v r). split_and!; [done|done|done..|]. intros g n _. by rewrite Efs. }
  simpl in Hs1. destruct (proj2 Hs1 k _ Hv1) as [Hok1 Hc1]. simpl in H. destruct (_ || _) in H.
  - apply bind_ok_inv in H as (? & s2 & H2 & H). injection H as <- <-.
    set (v2 := match action_since (ctl v) with Some _ => _ | None => _ end) in H2.
    destruct (restore_vm_quiet now k (sampled v r) v2 s1 Hs1 Hv1) as (_ & Hu & Hq1 & Hq2).
    + destruct Hok1. subst v2. by destruct (action_since (ctl v)).
    + subst v2. by destruct (action_since (ctl v)).
    + subst v2. by destruct (action_since (ctl v)).
    + subst v2. by destruct (action_since (ctl v)).
    + subst v2. by destruct (action_since (ctl v)).
    + rewrite H2 in Hu, Hq1, Hq2. split; [by eapply updates_trans|by apply quiet_within].
  - set (low := if _ && _ then _ else 0) in H.
    assert (0 <= low <= protection_left l) as Hlow.
    { subst low. destruct (_ && _); [|lia]. specialize (Hsane r Hr).
      replace (sg_working_set _) with (working_set r) by (by destruct (previous (ctl v))). lia. }
    apply bind_ok_inv in H as ([weight b] & s2 & [-> Hw]%choose_weight_ok & H).
    apply bind_ok_inv in H as (? & s3 & H3 & H). apply bind_ok_inv in H as (? & s4 & H4 & H).
    apply bind_ok_inv in H as (? & s5 & H5 & H). injection H as <- <-.
    pose proof (low_written k low s1 _ s3 (proj1 Hlow) H3) as Hlow3.
    pose proof (weight_keeps_low k _ s3 _ s4 H4) as Hlow4.
    apply settle_ok in H5 as (Hu5 & Hlow5 & Hb5).
    pose proof (apply_control_ok _ _ _ _ _ _ H3) as [Hu3 _].
    pose proof (apply_control_ok _ _ _ _ _ _ H4) as [Hu4 _].
    split; [by eauto using updates_trans|].
    unfold within. simpl. rewrite Hlow5, Hb5, Hlow4, Hlow3. split_and!; [lia|lia|].
    destruct Hw as [[Hw ->]| ->]; [|destruct (boosted s4 k); simpl; lia].
    pose proof (proj1 (apply_control_keeps (λ _, True) k MemoryLow (str low) ltac:(done) s1 Hs1)) as Hs3.
    rewrite H3 in Hs3. destruct Hu3 as (w & w' & Hw1 & Ew & _ & _ & Hsv & _).
    assert (vms s3 !! k = Some w') as Hw3 by (by rewrite Ew, dict_lookup_insert_eq).
    erewrite (weight_written k w' weight s3 _ s4 Hs3 Hw3); [simpl; lia| |exact H4].
    rewrite Hsv. rewrite Hv1 in Hw1. by injection Hw1 as <-.
Qed.

Lemma visit_ok f env now k i l s l' s' v :
  pressure_ok s → vms s !! k = Some v → v_id v = i → 0 <= protection_left l → sane env →
  visit f env now (k, i) l s = (Ok l', s') → updates k s s' ∧ within s' k l l'.
Proof.
  intros Hs Hv Hi Hl Hsane H. unfold visit in H. rewrite bind_get, Hv in H.
  rewrite bool_decide_eq_true_2 in H by done. simpl in H.
  set (blocked := default false _) in H. apply bind_ok_inv in H as (? & s1 & H1 & H).
  assert (vms s1 = vms s ∧ control_files s1 = control_files s) as [Ev1 Ef1]
    by (by destruct blocked; injection H1 as _ <-).
  assert (updates k s s1) as Hu1 by (by eapply updates_same).
  assert (pressure_ok s1) as Hs1 by (unfold pressure_ok; by rewrite Ev1, Ef1).
  rewrite <- Ev1 in Hv. destruct (proj2 Hs1 k v Hv) as [Hok Hc].
  destruct (restore_vm_quiet now k v v s1 Hs1 Hv Hok Hc eq_refl eq_refl eq_refl) as (_ & Hu & Hq1 & Hq2).
  destruct (negb _ || negb _) in H; [|destruct (negb _) in H].
  - apply bind_ok_inv in H as (? & s2 & H2 & H). injection H as <- <-. rewrite H2 in *. simpl in *.
    split; [by eapply updates_trans|by apply quiet_within].
  - apply bind_ok_inv in H as (? & s2 & H2 & H). rewrite H2 in *. simpl in Hu, Hq1, Hq2.
    apply bind_ok_inv in H as (? & s3 & H3 & H). injection H as <- <-.
    destruct (updates_lookup _ _ _ Hu) as [w Hw]. unfold clear_previous, vm_at in H3.
    unfold mbind at 1, M_bind at 1 in H3. rewrite bind_get, Hw in H3. injection H3 as _ <-.
    edestruct (same_files_same s2 (with_vms (<[k := set_ctl (set_previous None (ctl w)) w]> (vms s2)) s2) k w)
      as [E1 E2]; [exact Hw|apply dict_lookup_insert_eq|done..|].
    split; [|apply quiet_within; [done|by rewrite E1|by rewrite E2]].
    eapply updates_trans; [exact Hu1|]. eapply updates_trans; [exact Hu|].
    eexists w, _. by split_and!.
  - destruct (act_ok f k v blocked (env k) l now s1 l' s' Hs1 Hv Hl (λ r, Hsane k _ r) H) as [Hu2 Hw].
    split; [by eapply updates_trans|done].
Qed.

Lemma zsum_ext {A} (f g : A → Z) (l : list A) :
  (∀ x, x ∈ l → f x = g x) → zsum (f <$> l) = zsum (g <$> l).
Proof.
  induction l as [|x l IH]; intros Hfg; [done|]. rewrite !fmap_cons, !zsum_cons, Hfg, IH; [done| |by left].
  intros y Hy. apply Hfg. by right.
Qed.

Lemma visit_all_ok f env now kvs : ∀ l s l' s',
  pressure_ok s → NoDup kvs.*1 → (∀ k i, (k, i) ∈ kvs → ∃ v, vms s !! k = Some v ∧ v_id v = i) →
  0 <= protection_left l → sane env →
  visit_all f env now kvs l s = (Ok l', s') →
  keys (vms s') = keys (vms s) ∧ 0 <= protection_left l' ∧
  (∀ k, k ∉ kvs.*1 → low_of s' k = low_of s k ∧ boosted s' k = boosted s k) ∧
  zsum (low_of s' <$> kvs.*1) <= protection_left l - protection_left l' ∧
  zsum ((λ k, Z.b2z (boosted s' k)) <$> kvs.*1) <= Z.of_nat (boosts_left l) - Z.of_nat (boosts_left l').
Proof.
  induction kvs as [|[k i] kvs IH]; intros l s l' s' Hs Hnd Hin Hl Hsane H; cbn [visit_all] in H.
  { injection H as <- <-. split_and!; [done|done|done|cbn; lia..]. }
  apply bind_ok_inv in H as (l1 & s1 & H1 & H). apply NoDup_cons in Hnd as [Hk Hnd].
  destruct (Hin k i) as (v & Hv & Hi); [by left|].
  pose proof (visit_ok f env now k i l s l1 s1 v Hs Hv Hi Hl Hsane H1) as (Hu & Hw1 & Hw2 & Hw3).
  pose proof (proj1 (visit_keeps (λ _, True) f env now (k, i) l s Hs)) as Hs1. rewrite H1 in Hs1.
  assert (∀ k' i', (k', i') ∈ kvs → ∃ v, vms s1 !! k' = Some v ∧ v_id v = i') as Hin1.
  { intros k' i' Hk'. destruct (updates_apart k s s1 k' Hs Hu) as [-> _].
    - intros ->. apply Hk, list_elem_of_fmap. by exists (k, i').
    - apply Hin. by right. }
  destruct (IH l1 s1 l' s' Hs1 Hnd Hin1 Hw2 Hsane H) as (Hkeys & Hl' & Hout & Hz1 & Hz2).
  destruct (Hout k Hk) as [Ho1 Ho2].
  split_and!; [by rewrite Hkeys, (updates_keys k s s1 Hu)|done|..].
  - intros k' Hk'. rewrite fmap_cons, not_elem_of_cons in Hk'. destruct Hk' as [Hne Hk'].
    destruct (Hout k' Hk') as [-> ->]. by destruct (updates_apart k s s1 k' Hs Hu Hne) as (_ & -> & ->).
  - rewrite !fmap_cons, zsum_cons. simpl. rewrite Ho1. lia.
  - rewrite !fmap_cons, zsum_cons. simpl. rewrite Ho2. lia.
Qed.

Lemma unmodified_quiet s : pressure_ok s → (∀ k v, vms s !! k = Some v → modified (ctl v) = ∅) →
  protected_total s = 0 ∧ boosted_count s = 0.
Proof.
  intros Hs Hm. assert (∀ k, k ∈ keys (vms s) → low_of s k = 0 ∧ boosted s k = false) as H.
  { intros k [v Hv]%dict_lookup_key. destruct (proj2 Hs k v Hv) as [Hok Hc]. specialize (Hm k v Hv).
    unfold low_of, boosted. rewrite Hv. simpl. split.
    - destruct (control_files s !! (group (ctl v), MemoryLow)) as [text|] eqn:Et; [|done].
      rewrite (Hc MemoryLow text); [|set_solver|done]. rewrite (vm_saved k v Hok). by vm_compute.
    - destruct (control_files s !! (group (ctl v), CpuWeight)) as [text|] eqn:Et; [|done].
      rewrite (Hc CpuWeight text); [|set_solver|done]. by rewrite bool_decide_eq_true_2. }
  assert (∀ l : list (string * role), zsum ((λ _, 0) <$> l) = 0) as Hz by (by induction l).
  unfold protected_total, boosted_count. split.
  - rewrite (zsum_ext _ (λ _, 0)); [apply Hz|]. intros k Hk. by apply H.
  - rewrite (zsum_ext _ (λ _, 0)); [apply Hz|]. intros k Hk. destruct (H k Hk) as [_ ->]. done.
Qed.

Lemma visiting_order_keys began s : (visiting_order began s).*1 ≡ₚ keys (vms s).
Proof.
  unfold visiting_order, keys. rewrite <- list_fmap_compose. simpl. by rewrite sort_by_perm.
Qed.

Lemma visiting_order_found began s k i :
  dict_ok (vms s) → (k, i) ∈ visiting_order began s → ∃ v, vms s !! k = Some v ∧ v_id v = i.
Proof.
  intros Hd ([k' v] & [= -> ->] & Hin)%list_elem_of_fmap. rewrite sort_by_perm in Hin.
  exists v. split; [by apply dict_elem_lookup|done].
Qed.

Lemma poll_within_budget e s u s' :
  pressure_ok s → 0 <= protection_budget_mib opt → sane (pe_vm e) → poll e s = (Ok u, s') →
  protected_total s' <= protection_budget_mib opt * mib ∧
  boosted_count s' <= Z.of_nat (max_boosted_vms opt).
Proof.
  intros Hs Hb Hsane H. unfold poll in H. apply bind_ok_inv in H as (memory & s1 & [= _ <-] & H).
  apply bind_ok_inv in H as (stat & s2 & [= _ <-] & H). rewrite bind_get in H.
  apply bind_ok_inv in H as (? & s3 & [= _ <-] & H). apply bind_ok_inv in H as (l & s4 & H4 & H).
  injection H as _ <-.
  match type of H4 with visit_all _ _ _ _ _ ?x = _ => set (s3 := x) in H4 end.
  assert (pressure_ok s3) as Hs3 by done.
  apply visit_all_ok in H4 as (Hk & Hl & _ & H1 & H2); [|done|..|done].
  - unfold protected_total, boosted_count. simpl in *. rewrite Hk.
    change (keys (vms s3)) with (keys (vms s)). split.
    + etransitivity; [|etransitivity; [exact H1|lia]].
      apply Z.eq_le_incl, zsum_permutation. by rewrite visiting_order_keys.
    + etransitivity; [|etransitivity; [exact H2|lia]].
      apply Z.eq_le_incl, zsum_permutation. by rewrite visiting_order_keys.
  - rewrite visiting_order_keys. apply Hs.
  - intros k i Hin. by apply (visiting_order_found (pe_began e) s); [apply Hs|].
  - simpl. unfold mib. lia.
Qed.

(** A poll stays within its budgets.  After every turn of the control
    thread, in any run, the memory.low protection of all VMs together is at most
    the configured budget and at most [max_boosted_vms] of them run with a boosted
    CPU weight, whether the poll succeeds or fails half way, provided the kernel
    reports no negative counter. *)
Theorem poll_respects_budgets files os e :
  let s := run os (pressure_init files) in
  Forall op_owned os → 0 <= protection_budget_mib opt → sane (pe_vm e) →
  let s' := (poll_thread e s).2 in
  protected_total s' <= protection_budget_mib opt * mib ∧
  boosted_count s' <= Z.of_nat (max_boosted_vms opt).
Proof.
  intros s Ho Hb Hsane. destruct (run_keeps os _ (pressure_init_ok files) Ho) as [Hs _]. fold s in Hs.
  unfold poll_thread, try_except. pose proof (proj1 (poll_keeps (λ _, True) e s Hs)) as Hp.
  destruct (poll e s) as [[u|x] s1] eqn:Ep; [exact (poll_within_budget e s u s1 Hs Hb Hsane Ep)|]. simpl in Hp.
  unfold mbind, M_bind, raise.
  pose proof (proj1 (restore_all_keeps (λ _, True) (pe_now e) s1 Hp)) as Hr.
  destruct (unmodified_quiet (restore_all (pe_now e) s1).2 Hr) as [H1 H2].
  { intros k v Hv. by eapply restore_all_unmodified. }
  destruct (restore_all (pe_now e) s1) as [[]]; simpl in *; rewrite H1, H2; unfold mib; lia.
Qed.
End control.

(** ** A concrete run *)

Definition demo_options : options := Options 3 3 (1 # 10) 1 10 2 256 1 200 64.
Definition demo_owner (g : path) : string * role :=
  if bool_decide (g = "vm1") then ("s1", Tool) else ("s1", Runtime).

(** The kernel's view of the VM: microseconds stalled, pages scanned, OOM kills. *)
Definition demo_stat (total scan oom : Z) : string * role → vm_env := λ _,
  VmEnv (Ok ("pgscan " +:+ str scan +:+ String "010"%char "anon 800000000")) (Ok "900000000")
    (Ok ("oom_kill " +:+ str oom))
    (Some ("some avg10=0.00 total=" +:+ str total)) (Some ("some avg10=0.00 total=" +:+ str total))
    (Ok ("usage_usec " +:+ str total)) (Ok "0").
Definition demo_poll (at_ : Q) (total scan oom : Z) : poll_env :=
  PollEnv at_ (Some "some avg10=0.00 total=0") (Ok "pgscan 0") {["dom" := true]}
    (demo_stat total scan oom) at_.

Definition demo_leaf : leaf_env :=
  LeafEnv (Some "some avg10=0.00 total=0") (Some "some avg10=0.00 total=0") (Ok "0").
Definition demo_start : list op :=
  [Appears "vm1" false; Register "s1" Tool "vm1" (Some 0) "dom" false 0 demo_leaf;
   Announces "s1" "e1" "make" 1; Happens "s1" Start "e1" 1].
Definition demo_protect : list op := demo_start ++ [Poll (demo_poll 20 0 0 3); Poll (demo_poll 21 500000 9 3)].
Definition demo_finish : list op := [Happens "s1" Complete "e1" 22; Happens "s1" ReadyKind "e1" 23; Happens "s1" Start "e1" 24].

Definition demo_run (os : list op) : pressure :=
  run AdaptiveJoint false false demo_options os (pressure_init ∅).

Lemma demo_owned : Forall (op_owned demo_owner) demo_protect ∧ Forall (op_owned demo_owner) demo_finish.
Proof. split; repeat constructor. Qed.

Definition demo_vm : vm := default (VM 0 "" 0 Inactive (Executions ∅ ∅ ∅ ∅ ∅) "" 0
  (Controls "" None (default_control false) None None 0 ∅ false))
  (vms (demo_run (demo_protect ++ [Happens "s1" Complete "e1" 22])) !! ("s1", Tool)).

(** The completed execution is announced and started again: nothing happens. *)
Lemma completed_stays_completed_witness :
  "e1" ∈ finished (v_events demo_vm) ∧
  ∃ v', vms (run AdaptiveJoint false false demo_options
               [Happens "s1" ReadyKind "e1" 23; Happens "s1" Start "e1" 24]
               (demo_run (demo_protect ++ [Happens "s1" Complete "e1" 22]))) !! ("s1", Tool) = Some v' ∧
    v_id v' = v_id demo_vm ∧
    (∀ i, i ∈ finished (v_events demo_vm) → i ∉ active (v_events v') ∧ i ∉ pending (v_events v')) ∧
    (∀ i, i ∈ responses (v_events demo_vm) → i ∉ waits (v_events v')).
Proof.
  split; [by vm_compute|].
  apply (completed_stays_completed AdaptiveJoint false false demo_options demo_owner ∅
    (demo_protect ++ [Happens "s1" Complete "e1" 22])
    [Happens "s1" ReadyKind "e1" 23; Happens "s1" Start "e1" 24] ("s1", Tool) demo_vm).
  - repeat constructor.
  - repeat constructor.
  - repeat constructor; by intros ?.
  - vm_compute. reflexivity.
Defined.

(** The second poll protects the whole budget; the end of the tool gives it back. *)
Lemma controls_given_back_witness :
  let s := demo_run demo_protect in
  low_of s ("s1", Tool) = 268435456 ∧
  (∀ v, vms (event demo_options "s1" Complete "e1" 22 s).2 !! ("s1", Tool) = Some v →
     given_back (event demo_options "s1" Complete "e1" 22 s).2 v).
Proof.
  intros s. split; [by vm_compute|]. intros v Hv.
  destruct (controls_given_back AdaptiveJoint false false demo_options demo_owner ∅ demo_protect) as (_ & _ & H).
  - apply demo_owned.
  - by apply (H "s1" Complete "e1" Tool v 22%Q).
Defined.

Lemma poll_respects_budgets_witness :
  let s' := (poll_thread AdaptiveJoint false false demo_options (demo_poll 22 900000 12 3)
               (demo_run demo_protect)).2 in
  low_of s' ("s1", Tool) = 268435456 ∧
  protected_total s' <= protection_budget_mib demo_options * mib ∧
  boosted_count s' <= Z.of_nat (max_boosted_vms demo_options).
Proof.
  intros s'. split; [by vm_compute|].
  apply (poll_respects_budgets AdaptiveJoint false false demo_options demo_owner ∅ demo_protect
    (demo_poll 22 900000 12 3)).
  - apply demo_owned.
  - done.
  - intros k now r H. vm_compute in H. injection H as <-. by vm_compute.
Defined.

(** The kernel reports three OOM kills in all.  A poll that finds no contention
    clears the previous sample, and the next sample counts the three again. *)
Definition demo_quiet_poll : poll_env :=
  PollEnv 30 (Some "some avg10=0.00 total=0") (Ok "pgscan 0") ∅ (demo_stat 500000 9 3) 30.
Example oom_kills_counted_twice :
  oom_kill_events (stats (demo_run demo_protect)) = 3 ∧
  oom_kill_events (stats (demo_run (demo_protect ++ [Poll demo_quiet_poll; Poll (demo_poll 40 500000 9 3)]))) = 6.
Proof. by vm_compute. Qed.
