(* ===== verification/ControlTiming.v ===== *)
(** * Timing of control callbacks (src/clawbox/experiments/control_timing.py)

    Spans are buffered per thread in a bounded ring; when an operation ends, its
    ring is summarised: how long it lasted and how much of that was waiting for
    resources, lock reacquisition taken out.  Times are integers, nanoseconds of a
    monotonic clock; a point in time is the nanosecond that starts there. *)
From S2P Require Import Prelude Dict Ordering.

(** ** Sums over a range of integers *)

Fixpoint rsum (f : Z → Z) (lo : Z) (n : nat) : Z :=
  match n with O => 0 | S n' => f lo + rsum f (lo + 1) n' end.

Lemma rsum_ext f g n : ∀ lo, (∀ x, lo <= x < lo + Z.of_nat n → f x = g x) → rsum f lo n = rsum g lo n.
Proof.
  induction n as [|n IH]; intros lo H; [done|]. simpl. rewrite H by lia. f_equal. apply IH. intros x Hx. apply H. lia.
Qed.
Lemma rsum_plus f g n : ∀ lo, rsum (λ x, f x + g x) lo n = rsum f lo n + rsum g lo n.
Proof. induction n as [|n IH]; intros lo; simpl; [done|]. rewrite IH. lia. Qed.
Lemma rsum_zero n : ∀ lo, rsum (λ _, 0) lo n = 0.
Proof. induction n as [|n IH]; intros lo; simpl; [done|]. by rewrite IH. Qed.
Lemma rsum_bounds f n : ∀ lo, (∀ x, 0 <= f x <= 1) → 0 <= rsum f lo n <= Z.of_nat n.
Proof.
  induction n as [|n IH]; intros lo H; cbn [rsum]; [lia|]. specialize (IH (lo + 1) H). specialize (H lo). lia.
Qed.
Lemma rsum_zsum {A} (f : Z → A → Z) (l : list A) lo n :
  rsum (λ x, zsum (f x <$> l)) lo n = zsum ((λ w, rsum (λ x, f x w) lo n) <$> l).
Proof.
  induction l as [|w l IH]; [apply rsum_zero|]. rewrite fmap_cons, zsum_cons, <- IH, <- rsum_plus. done.
Qed.

(** ** Intervals *)

Notation interval := (Z * Z)%type (only parsing).

Definition inside (p : interval) (x : Z) : bool := (p.1 <=? x) && (x <? p.2).
Definition covers (l : list interval) (x : Z) : bool := existsb (λ p, inside p x) l.

(** How many of the points from [lo] on, [hi] excluded, satisfy [P]. *)
Definition count (P : Z → bool) (lo hi : Z) : Z := rsum (λ x, Z.b2z (P x)) lo (Z.to_nat (hi - lo)).

(** [sorted(intervals)] *)
Definition by_interval (p q : interval) : comparison := lex (Z.compare p.1 q.1) (Z.compare p.2 q.2).

(** One turn of the loop of [_merged_intervals]. *)
Definition merge_step (merged : list interval) (p : interval) : list interval :=
  match last merged with
  | Some (c, d) => if p.1 <=? d then removelast merged ++ [(c, Z.max d p.2)] else merged ++ [p]
  | None => merged ++ [p]
  end.
(** [_merged_intervals] *)
Definition merged_intervals (intervals : list interval) : list interval :=
  foldl merge_step [] (sort_by by_interval intervals).

(** The two-pointer loop of [_resource_wait_seconds] from [waits[i]] and [locks[j]] on. *)
Fixpoint overlap (waits : list interval) : list interval → Z :=
  fix over (locks : list interval) : Z :=
    match waits, locks with
    | (a, b) :: waits', (c, d) :: locks' =>
        Z.max 0 (Z.min b d - Z.max a c) + (if b <=? d then overlap waits' locks else over locks')
    | _, _ => 0
    end.

(** ** Spans *)

Record span := Span {
  sp_stage : string;
  sp_start : Z;
  sp_end : Z;
  sp_cpu : Z;
  sp_ok : bool;
  sp_reasons : list string;
}.

Definition waits : list string :=
  ["admission.condition_wait"; "admission.eviction_wait"; "placement.cpu_capacity_wait"].
Definition lock_waits : list string :=
  ["admission.lock.acquire"; "admission.condition.reacquire"; "admission.lifecycle_reacquire"].
Definition light_stages : list string := waits ++ lock_waits ++ ["callback"; "prepare.total"].

Definition is_wait (s : span) : bool := bool_decide (sp_stage s ∈ waits).
Definition is_lock_wait (s : span) : bool := bool_decide (sp_stage s ∈ lock_waits).
Definition extent (s : span) : interval := (sp_start s, sp_end s).

(** The wait intervals of [_resource_wait_seconds], clipped to [start, end]. *)
Definition clipped_waits (records : list span) (start end_ : Z) : list interval :=
  (λ s, (Z.max start (sp_start s), Z.min end_ (sp_end s))) <$>
    filter (λ s, is_wait s && (start <? sp_end s) && (sp_start s <? end_)) records.
Definition lock_intervals (records : list span) : list interval := extent <$> filter is_lock_wait records.

Definition resource_wait_ns (records : list span) (start end_ : Z) : Z :=
  let ws := merged_intervals (clipped_waits records start end_) in
  let ls := merged_intervals (lock_intervals records) in
  zsum ((λ p, p.2 - p.1) <$> ws) - overlap ws ls.

Definition seconds (ns : Z) : Q := inject_Z ns / inject_Z 1000000000.
(** [_resource_wait_seconds] *)
Definition resource_wait_seconds (records : list span) (start end_ : Z) : Q :=
  seconds (resource_wait_ns records start end_).

(** ** The per-thread buffers *)

(** [_Records]: a ring of the last spans. *)
Record ring := Ring { items : list span; dropped : Z; detailed : bool }.
Definition maxlen : Z := 8192.

Definition ring_append (s : span) (r : ring) : ring :=
  if Z.of_nat (length (items r)) =? maxlen
  then Ring (drop 1 (items r) ++ [s]) (dropped r + 1) (detailed r)
  else Ring (items r ++ [s]) (dropped r) (detailed r).

(** The rings of the scopes a thread is in, the innermost first. *)
Notation rings := (list ring) (only parsing).

(** [trace_scope] or [capture_spans] begins. *)
Definition enter (details_enabled : bool) (st : rings) : rings := Ring [] 0 details_enabled :: st.

(** A span ends: [span] records it, when it records at all. *)
Definition end_span (s : span) (st : rings) : rings :=
  match st with
  | [] => []
  | r :: st' =>
      if detailed r || bool_decide (sp_stage s ∈ light_stages) then ring_append s r :: st' else r :: st'
  end.

(** [capture_spans] ends: its spans go to the enclosing scope as well. *)
Definition leave_capture (st : rings) : rings :=
  match st with
  | r :: prev :: st' => foldl (λ p s, ring_append s p) prev (items r) :: st'
  | [_] => []
  | [] => []
  end.

(** [{k: f(v) for k, v in d.items()}] *)
Definition dmap_values {V W} (f : V → W) (d : dict string V) : dict string W :=
  (λ kv : string * V, (kv.1, f kv.2)) <$> (d : list _).

(** What [trace_scope] emits. *)
Record summary := Summary {
  su_duration : Q;
  su_cpu : Q;
  su_wait : Q;
  su_by_reason : dict string Q;
  su_preparation : option (Q * Q);
  su_spans : option (list span);
  su_gc : option (list interval);
  su_dropped : Z;
}.

(** ['+'.join(sorted(reasons)) or stage] *)
Definition reason_of (s : span) : string :=
  let joined := String.concat "+" (sort_by String.compare (sp_reasons s)) in
  if bool_decide (joined = "") then sp_stage s else joined.

(** [wait_groups] *)
Definition wait_groups (records : list span) : dict string (list span) :=
  foldl (λ d s, if is_wait s then <[reason_of s := default [] (d !! reason_of s) ++ [s]]> d else d) ∅ records.

Definition find_stage (stage : string) (records : list span) : option span :=
  find (λ s, bool_decide (sp_stage s = stage)) records.

Definition summarise (gc : list interval) (r : ring) (root : span) : summary :=
  let records := items r in
  let wait rs s := resource_wait_seconds rs (sp_start s) (sp_end s) in
  Summary (seconds (sp_end root - sp_start root)) (seconds (sp_cpu root)) (wait records root)
    (dmap_values (λ ws, wait (ws ++ filter is_lock_wait records) root) (wait_groups records))
    ((λ p, (seconds (sp_end p - sp_start p), wait records p)) <$> find_stage "prepare.total" records)
    (if detailed r then Some records else None)
    (if detailed r
     then Some (filter (λ g, (sp_start root <=? g.2) && (g.1 <=? sp_end root)) gc) else None)
    (dropped r).

(** [trace_scope] ends. *)
Definition leave_trace (gc : list interval) (st : rings) : outcome summary * rings :=
  match st with
  | [] => (Raise IndexError, [])
  | r :: st' => (match last (items r) with Some root => Ok (summarise gc r root) | None => Raise IndexError end, st')
  end.

(** ** Merging *)

Fixpoint merge_from (cur : interval) (rest : list interval) : list interval :=
  match rest with
  | [] => [cur]
  | p :: rest' =>
      if p.1 <=? cur.2 then merge_from (cur.1, Z.max cur.2 p.2) rest' else cur :: merge_from p rest'
  end.

Lemma merge_fold m cur rest : foldl merge_step (m ++ [cur]) rest = m ++ merge_from cur rest.
Proof.
  revert m cur. induction rest as [|p rest IH]; intros m [c d]; [done|]. cbn [foldl merge_from].
  unfold merge_step at 2. rewrite last_snoc, removelast_last. cbn [fst snd].
  destruct (p.1 <=? d); rewrite IH; [done|by rewrite <- app_assoc].
Qed.

(** Intervals in order that do not touch. *)
Definition before (p q : interval) : Prop := p.2 < q.1.
Definition proper (p : interval) : Prop := p.1 <= p.2.
Definition separated (l : list interval) : Prop := Forall proper l ∧ StronglySorted before l.

Lemma separated_cons p l : separated (p :: l) ↔ proper p ∧ Forall (before p) l ∧ separated l.
Proof.
  unfold separated. rewrite Forall_cons. split.
  - intros ([Hp Hl] & Hs%StronglySorted_inv). naive_solver.
  - intros (Hp & Hb & Hl & Hs). split_and!; [done..|by constructor].
Qed.

Lemma merge_from_spec rest : ∀ cur,
  proper cur → Forall proper rest → Forall (λ p, cur.1 <= p.1) rest → StronglySorted (λ p q, p.1 <= q.1) rest →
  separated (merge_from cur rest) ∧ Forall (λ p, cur.1 <= p.1) (merge_from cur rest) ∧
  ∀ x, covers (merge_from cur rest) x = inside cur x || covers rest x.
Proof.
  induction rest as [|p rest IH]; intros [c d] Hcur Hrest Hge Hs; cbn [merge_from].
  { split_and!; [|by repeat constructor|done]. split; repeat constructor. done. }
  apply Forall_cons in Hrest as [Hp Hrest], Hge as [Hcp Hge]. apply StronglySorted_inv in Hs as [Hs Hps].
  destruct p as [a b]. unfold proper in *. cbn [fst snd] in *. destruct (Z.leb_spec a d).
  - destruct (IH (c, Z.max d b)) as (H1 & H2 & H3); cbn [fst snd]; [lia|done..|].
    split_and!; [done..|]. intros x. rewrite H3. cbn [covers existsb]. rewrite orb_assoc. f_equal.
    unfold inside. cbn [fst snd]. apply eq_true_iff_eq.
    rewrite orb_true_iff, !andb_true_iff, !Z.leb_le, !Z.ltb_lt. lia.
  - destruct (IH (a, b)) as (H1 & H2 & H3); cbn [fst snd]; [done..|].
    split_and!; [apply separated_cons; split_and!; [done| |done]| |].
    + eapply Forall_impl; [exact H2|]. intros q Hq. unfold before. cbn [fst snd] in *. lia.
    + constructor; cbn; [lia|]. eapply Forall_impl; [exact H2|]. intros q Hq. cbn [fst snd] in *. lia.
    + intros x. cbn [covers existsb]. f_equal. apply H3.
Qed.

Lemma by_interval_ok : cmp_ok by_interval.
Proof. apply (cmp_ok_lex (λ p q : interval, Z.compare p.1 q.1) (λ p q : interval, Z.compare p.2 q.2)); apply cmp_ok_Z. Qed.

Lemma covers_elem l x : covers l x = true ↔ ∃ p, p ∈ l ∧ inside p x = true.
Proof. unfold covers. rewrite existsb_exists. by setoid_rewrite list_elem_of_In. Qed.

(** [_merged_intervals] covers the same points with separated intervals. *)
Lemma merged_spec l : Forall proper l →
  separated (merged_intervals l) ∧ ∀ x, covers (merged_intervals l) x = covers l x.
Proof.
  intros Hl. pose proof (sort_by_perm by_interval l) as Hperm.
  pose proof (sort_by_sorted by_interval l by_interval_ok) as Hs.
  assert (∀ x, covers (sort_by by_interval l) x = covers l x) as Hc.
  { intros x. apply eq_true_iff_eq. rewrite !covers_elem. by setoid_rewrite Hperm. }
  rewrite <- Hperm in Hl. unfold merged_intervals.
  destruct (sort_by by_interval l) as [|cur rest]; [by repeat constructor|].
  change (foldl merge_step [] (cur :: rest)) with (foldl merge_step ([] ++ [cur]) rest). rewrite merge_fold.
  apply Forall_cons in Hl as [Hcur Hrest]. apply StronglySorted_inv in Hs as [Hs Hge].
  assert (∀ p q, cmp_le by_interval p q → p.1 <= q.1) as Hle.
  { intros p q. unfold cmp_le, by_interval, lex. destruct (Z.compare_spec p.1 q.1); [lia|lia|done]. }
  destruct (merge_from_spec rest cur) as (H1 & _ & H3); [done|done| | |].
  - eapply Forall_impl; [exact Hge|]. eauto.
  - clear -Hs Hle. induction Hs as [|p rest Hs IH Hp]; constructor; [done|]. eapply Forall_impl; [exact Hp|]. eauto.
  - split; [done|]. intros x. rewrite <- Hc. apply H3.
Qed.

Lemma merged_within lo hi l :
  Forall (λ p, lo <= p.1 ∧ p.2 <= hi) l → Forall (λ p, lo <= p.1 ∧ p.2 <= hi) (merged_intervals l).
Proof.
  intros Hl. rewrite <- (sort_by_perm by_interval l) in Hl. unfold merged_intervals.
  destruct (sort_by by_interval l) as [|cur rest]; [done|].
  change (foldl merge_step [] (cur :: rest)) with (foldl merge_step ([] ++ [cur]) rest). rewrite merge_fold. simpl.
  revert cur Hl. induction rest as [|p rest IH]; intros [c d]; cbn [merge_from]; [done|].
  rewrite !Forall_cons. cbn [fst snd]. intros (? & ? & ?).
  destruct (p.1 <=? d); [apply IH|]; rewrite ?Forall_cons; cbn [fst snd]; (split_and!; try done; try lia).
  apply IH. by rewrite Forall_cons.
Qed.

(** ** The two-pointer overlap *)

Definition common (p q : interval) : Z := Z.max 0 (Z.min p.2 q.2 - Z.max p.1 q.1).
Definition all_common (ws ls : list interval) : Z := zsum ((λ p, zsum (common p <$> ls)) <$> ws).

Lemma zsum_all_zero {A} (f : A → Z) l : Forall (λ x, f x = 0) l → zsum (f <$> l) = 0.
Proof. induction 1 as [|x l Hx _ IH]; [done|]. rewrite fmap_cons, zsum_cons. lia. Qed.

Lemma all_common_cons_lock ws q ls :
  all_common ws (q :: ls) = zsum ((λ p, common p q) <$> ws) + all_common ws ls.
Proof.
  unfold all_common. induction ws as [|p ws IH]; [done|].
  rewrite !fmap_cons, !zsum_cons, IH. lia.
Qed.

Lemma overlap_common ws : ∀ ls, separated ws → separated ls → overlap ws ls = all_common ws ls.
Proof.
  induction ws as [|[a b] ws IHw]; intros ls Hw Hl; [by destruct ls|].
  induction ls as [|[c d] ls IHl].
  { unfold all_common. by rewrite zsum_all_zero by (by apply Forall_true). }
  apply separated_cons in Hw as (Hp & Hbw & Hws). apply separated_cons in Hl as (Hq & Hbl & Hls).
  cbn [overlap]. destruct (Z.leb_spec b d) as [Hbd|Hbd].
  - rewrite IHw; [|done|by apply separated_cons]. unfold all_common at 2. rewrite fmap_cons, zsum_cons.
    fold (all_common ws ((c, d) :: ls)). rewrite fmap_cons, zsum_cons.
    change (common (a, b) (c, d)) with (Z.max 0 (Z.min b d - Z.max a c)).
    rewrite (zsum_all_zero (common (a, b)) ls); [lia|]. eapply Forall_impl; [exact Hbl|].
    intros [c' d']. unfold common, before. cbn [fst snd]. lia.
  - change ((fix over (locks : list interval) : Z := _) ls) with (overlap ((a, b) :: ws) ls).
    rewrite IHl by done. rewrite all_common_cons_lock, fmap_cons, zsum_cons.
    change (common (a, b) (c, d)) with (Z.max 0 (Z.min b d - Z.max a c)).
    rewrite (zsum_all_zero (λ p, common p (c, d)) ws); [lia|]. eapply Forall_impl; [exact Hbw|].
    intros [a' b']. unfold common, before. cbn [fst snd]. lia.
Qed.

(** ** Counting points *)

Lemma rsum_inside p n : ∀ lo, rsum (λ x, Z.b2z (inside p x)) lo n =
  Z.max 0 (Z.min p.2 (lo + Z.of_nat n) - Z.max p.1 lo).
Proof.
  destruct p as [a b]. cbn [fst snd]. induction n as [|n IH]; intros lo; cbn [rsum]; [lia|].
  rewrite IH. unfold inside. cbn [fst snd]. destruct (Z.leb_spec a lo), (Z.ltb_spec lo b); simpl; lia.
Qed.

(** In separated intervals a point is covered by at most one of them. *)
Lemma covers_sum l x : separated l → Z.b2z (covers l x) = zsum ((λ p, Z.b2z (inside p x)) <$> l).
Proof.
  induction l as [|p l IH]; [done|]. intros (Hp & Hb & Hl)%separated_cons. rewrite fmap_cons, zsum_cons, <- IH by done.
  cbn [covers existsb]. destruct (inside p x) eqn:E; [|done].
  assert (covers l x = false) as Hc; [|unfold covers in Hc |- *; by rewrite Hc].
  apply not_true_is_false. intros (q & Hq & Hx)%covers_elem. rewrite Forall_forall in Hb. specialize (Hb q Hq).
  unfold inside, before in *. lia.
Qed.

Definition within (lo hi : Z) (p : interval) : Prop := lo <= p.1 ∧ p.2 <= hi.

Lemma count_covers ws lo hi : lo <= hi → separated ws → Forall (within lo hi) ws →
  count (covers ws) lo hi = zsum ((λ p, p.2 - p.1) <$> ws).
Proof.
  intros Hlo Hs Hw. unfold count.
  rewrite (rsum_ext _ (λ x, zsum ((λ p, Z.b2z (inside p x)) <$> ws))) by (intros; by apply covers_sum).
  rewrite (rsum_zsum (λ x p, Z.b2z (inside p x))). f_equal. apply list_fmap_ext. intros i p Hi.
  destruct Hs as [Hprop _]. rewrite Forall_lookup in Hprop, Hw. specialize (Hprop i p Hi). specialize (Hw i p Hi).
  rewrite rsum_inside. unfold proper, within in *. lia.
Qed.

Lemma inside_common p q x : Z.b2z (inside p x) * Z.b2z (inside q x) =
  Z.b2z (inside (Z.max p.1 q.1, Z.min p.2 q.2) x).
Proof.
  unfold inside. cbn [fst snd].
  destruct (Z.leb_spec p.1 x), (Z.ltb_spec x p.2), (Z.leb_spec q.1 x), (Z.ltb_spec x q.2),
    (Z.leb_spec (Z.max p.1 q.1) x), (Z.ltb_spec x (Z.min p.2 q.2)); simpl; lia.
Qed.

Lemma b2z_andb a b : Z.b2z (a && b) = Z.b2z a * Z.b2z b.
Proof. by destruct a, b. Qed.

Lemma zsum_mul_l {A} k (f : A → Z) l : k * zsum (f <$> l) = zsum ((λ x, k * f x) <$> l).
Proof. induction l as [|x l IH]; [simpl; lia|]. rewrite !fmap_cons, !zsum_cons, <- IH. lia. Qed.

Lemma count_both ws ls lo hi : lo <= hi → separated ws → separated ls → Forall (within lo hi) ws →
  count (λ x, covers ws x && covers ls x) lo hi = all_common ws ls.
Proof.
  intros Hlo Hs Hl Hw. unfold count, all_common.
  rewrite (rsum_ext _ (λ x, zsum ((λ p, zsum ((λ q, Z.b2z (inside p x) * Z.b2z (inside q x)) <$> ls)) <$> ws))).
  2:{ intros x _. rewrite b2z_andb, !covers_sum by done. rewrite Z.mul_comm, zsum_mul_l. f_equal.
      apply list_fmap_ext. intros i p _. rewrite Z.mul_comm. apply zsum_mul_l. }
  rewrite (rsum_zsum (λ x p, zsum ((λ q, Z.b2z (inside p x) * Z.b2z (inside q x)) <$> ls))).
  f_equal. apply list_fmap_ext. intros i p Hi.
  rewrite (rsum_zsum (λ x q, Z.b2z (inside p x) * Z.b2z (inside q x))). f_equal. apply list_fmap_ext. intros j q Hj.
  rewrite (rsum_ext _ (λ x, Z.b2z (inside (Z.max p.1 q.1, Z.min p.2 q.2) x))) by (intros; apply inside_common).
  rewrite rsum_inside. rewrite Forall_lookup in Hw. specialize (Hw i p Hi). unfold within, common in *. cbn [fst snd]. lia.
Qed.

(** ** The buffers stay small *)

Definition ring_ok (r : ring) : Prop := Z.of_nat (length (items r)) <= maxlen ∧ 0 <= dropped r.

Lemma ring_append_ok s r : ring_ok r → ring_ok (ring_append s r) ∧
  dropped (ring_append s r) + Z.of_nat (length (items (ring_append s r))) = dropped r + Z.of_nat (length (items r)) + 1.
Proof.
  unfold ring_append, ring_ok, maxlen. destruct (Z.eqb_spec (Z.of_nat (length (items r))) 8192) as [E|E]; simpl;
    rewrite ?length_app, ?length_drop; simpl; lia.
Qed.

Lemma ring_append_all l : ∀ r, ring_ok r → ring_ok (foldl (λ p s, ring_append s p) r l).
Proof. induction l as [|s l IH]; intros r H; [done|]. by apply IH, ring_append_ok. Qed.

(** Whatever spans end and scopes close, no buffer outgrows its ring. *)
Lemma rings_bounded st s b gc : Forall ring_ok st →
  Forall ring_ok (enter b st) ∧ Forall ring_ok (end_span s st) ∧ Forall ring_ok (leave_capture st) ∧
  Forall ring_ok (leave_trace gc st).2.
Proof.
  intros H. split_and!.
  - constructor; [|done]. split; simpl; unfold maxlen; lia.
  - destruct H as [|r st Hr H]; [constructor|]. cbn [end_span].
    destruct (detailed r || _); constructor; [by apply ring_append_ok|done|done|done].
  - destruct H as [|r st Hr H]; [constructor|]. destruct H as [|p st Hp H]; [constructor|].
    constructor; [by apply ring_append_all|done].
  - by destruct H.
Qed.

(** The spans an inner scope dropped are not counted by the outer one. *)
Example captured_drop_uncounted s :
  leave_capture [Ring [s] 5 true; Ring [] 0 true] = [Ring [s] 0 true].
Proof. reflexivity. Qed.

(** ** What the summary says *)

(** The nanoseconds of [start, end) in which a span of [sel] was open and no
    lock reacquisition was. *)
Definition waiting_time (sel lock : span → bool) (records : list span) (start end_ : Z) : Z :=
  count (λ x, existsb (λ s, sel s && inside (extent s) x) records &&
              negb (existsb (λ s, lock s && inside (extent s) x) records)) start end_.

Definition ordered_span (s : span) : Prop := sp_start s <= sp_end s.

Lemma clipped_covers records start end_ x : start <= x < end_ →
  covers (clipped_waits records start end_) x = existsb (λ s, is_wait s && inside (extent s) x) records.
Proof.
  intros Hx. unfold clipped_waits. induction records as [|s records IH]; [done|].
  rewrite filter_cons. cbn [existsb]. rewrite <- IH. unfold inside, extent. cbn [fst snd].
  destruct (is_wait s) eqn:Ew; cbn [andb]; [|by rewrite decide_False by (by intros [])].
  destruct (Z.ltb_spec start (sp_end s)), (Z.ltb_spec (sp_start s) end_); cbn [andb];
    ((rewrite decide_True by done; rewrite fmap_cons; cbn [covers existsb]; f_equal; unfold inside; cbn [fst snd])
     || (rewrite decide_False by (by intros []);
         rewrite (proj2 (andb_false_iff _ _)); [done|rewrite Z.leb_gt, Z.ltb_ge; lia])).
  apply eq_true_iff_eq. rewrite !andb_true_iff, !Z.leb_le, !Z.ltb_lt. lia.
Qed.

Lemma lock_covers records x :
  covers (lock_intervals records) x = existsb (λ s, is_lock_wait s && inside (extent s) x) records.
Proof.
  unfold lock_intervals. induction records as [|s records IH]; [done|]. rewrite filter_cons. cbn [existsb].
  rewrite <- IH. destruct (is_lock_wait s); [by rewrite decide_True by done|by rewrite decide_False by (by intros [])].
Qed.

Lemma resource_wait_time records start end_ : start <= end_ → Forall ordered_span records →
  resource_wait_ns records start end_ = waiting_time is_wait is_lock_wait records start end_.
Proof.
  intros Hse Hr.
  assert (Forall (λ p, proper p ∧ within start end_ p) (clipped_waits records start end_)) as Hclip.
  { apply Forall_fmap, Forall_forall. intros s [Hs Hin]%list_elem_of_filter.
    rewrite Forall_forall in Hr. specialize (Hr s Hin). unfold ordered_span in Hr.
    apply andb_prop_elim in Hs as [[_ H1]%andb_prop_elim H2].
    apply Is_true_true, Z.ltb_lt in H1, H2. unfold compose, proper, within. cbn [fst snd]. lia. }
  assert (Forall proper (lock_intervals records)) as Hlock.
  { apply Forall_fmap, Forall_filter. by eapply Forall_impl. }
  destruct (merged_spec (clipped_waits records start end_)) as [Hws Hwc].
  { eapply Forall_impl; [exact Hclip|]. by intros p []. }
  destruct (merged_spec _ Hlock) as [Hls Hlc].
  assert (Forall (within start end_) (merged_intervals (clipped_waits records start end_))) as Hwin.
  { apply merged_within. eapply Forall_impl; [exact Hclip|]. by intros p []. }
  unfold resource_wait_ns. rewrite overlap_common, <- (count_covers _ start end_), <- (count_both _ _ start end_) by done.
  unfold waiting_time, count.
  rewrite (rsum_ext (λ x, Z.b2z (covers (merged_intervals (clipped_waits records start end_)) x))
    (λ x, Z.b2z (existsb (λ s, is_wait s && inside (extent s) x) records &&
                 negb (existsb (λ s, is_lock_wait s && inside (extent s) x) records)) +
          Z.b2z (covers (merged_intervals (clipped_waits records start end_)) x &&
                 covers (merged_intervals (lock_intervals records)) x))).
  - rewrite rsum_plus. lia.
  - intros x Hx. rewrite Hwc, Hlc, lock_covers, clipped_covers by lia. by destruct (existsb _ _), (existsb _ _).
Qed.

Lemma waiting_time_bounds sel lock records start end_ : start <= end_ →
  0 <= waiting_time sel lock records start end_ <= end_ - start.
Proof.
  intros H. unfold waiting_time, count.
  pose proof (rsum_bounds (λ x, Z.b2z (existsb (λ s, sel s && inside (extent s) x) records &&
    negb (existsb (λ s, lock s && inside (extent s) x) records))) (Z.to_nat (end_ - start)) start) as Hb.
  assert (∀ b, 0 <= Z.b2z b <= 1) as Hz by (by intros []). specialize (Hb (λ x, Hz _)). lia.
Qed.

(** The records a wait group is evaluated with: its own waits and every lock. *)
Definition in_group (reason : string) (s : span) : bool := is_wait s && bool_decide (reason_of s = reason).

Lemma existsb_ext {A} (f g : A → bool) l : (∀ x, f x = g x) → existsb f l = existsb g l.
Proof. intros H. induction l as [|x l IH]; [done|]. cbn [existsb]. by rewrite H, IH. Qed.

Lemma existsb_filter {A} (p q : A → bool) l : existsb q (filter p l) = existsb (λ x, p x && q x) l.
Proof.
  induction l as [|x l IH]; [done|]. rewrite filter_cons. cbn [existsb]. rewrite <- IH.
  destruct (p x); [by rewrite decide_True by done|by rewrite decide_False by (by intros [])].
Qed.

Lemma wait_groups_lookup records reason ws : wait_groups records !! reason = Some ws →
  ws = filter (in_group reason) records.
Proof.
  intros H. assert (default [] (wait_groups records !! reason) = filter (in_group reason) records) as Hg;
    [|by rewrite H in Hg].
  clear H ws. unfold wait_groups. rewrite <- (app_nil_l (filter _ records)).
  assert (∀ (d : dict string (list span)), default [] (foldl (λ d s, if is_wait s
      then <[reason_of s := default [] (d !! reason_of s) ++ [s]]> d else d) d records !! reason) =
    default [] (d !! reason) ++ filter (in_group reason) records) as Hd; [|by rewrite Hd].
  induction records as [|s records IH]; intros d; cbn [foldl]; [by rewrite app_nil_r|].
  rewrite IH, filter_cons. destruct (decide (in_group reason s)) as [Hin|Hin].
  - apply Is_true_true, andb_prop in Hin as [-> <-%bool_decide_eq_true].
    rewrite dict_lookup_insert_eq. cbn [default from_option id]. by rewrite <- app_assoc.
  - destruct (is_wait s) eqn:Ew; [|done]. rewrite dict_lookup_insert_ne; [done|]. intros Hr. apply Hin.
    unfold in_group. by rewrite Ew, bool_decide_eq_true_2.
Qed.

Lemma stages_disjoint s : is_wait s = true → is_lock_wait s = true → False.
Proof.
  unfold is_wait, is_lock_wait. intros H1%bool_decide_eq_true H2%bool_decide_eq_true.
  repeat (apply elem_of_cons in H1 as [H1|H1]; [rewrite H1 in H2; set_solver|]). by apply elem_of_nil in H1.
Qed.

(** A group's time is the time only its own waits were open. *)
Lemma group_time records reason start end_ :
  waiting_time is_wait is_lock_wait (filter (in_group reason) records ++ filter is_lock_wait records) start end_ =
  waiting_time (in_group reason) is_lock_wait records start end_.
Proof.
  unfold waiting_time, count. apply rsum_ext. intros x _. rewrite !existsb_app, !existsb_filter.
  do 2 f_equal; [|f_equal].
  - transitivity (existsb (λ s, in_group reason s && inside (extent s) x) records || false);
      [f_equal|apply orb_false_r].
    + apply existsb_ext. intros s. unfold in_group. by destruct (is_wait s), (bool_decide _).
    + apply not_true_is_false. intros (s & _ & Hs)%existsb_exists. apply andb_prop in Hs as [H1 [H2 _]%andb_prop].
      by eapply stages_disjoint.
  - transitivity (false || existsb (λ s, is_lock_wait s && inside (extent s) x) records); [f_equal|done].
    + apply not_true_is_false. intros (s & _ & Hs)%existsb_exists. apply andb_prop in Hs as [H1 [H2 _]%andb_prop].
      unfold in_group in H1. apply andb_prop in H1 as [H1 _]. by eapply stages_disjoint.
    + apply existsb_ext. intros s. by destruct (is_lock_wait s).
Qed.

Lemma dmap_values_lookup {V W} (f : V → W) (d : dict string V) k : dmap_values f d !! k = f <$> d !! k.
Proof.
  induction d as [|[k0 v0] d IH]; [done|].
  change (dmap_values f ((k0, v0) :: d : dict string V)) with ((k0, f v0) :: dmap_values f d : dict string W).
  rewrite !lookup_dict_cons. case_decide; [by subst|done].
Qed.

(** The waiting time a callback reports is exact.  When a traced
    operation ends, the resource wait in its summary is the number of nanoseconds
    of the operation during which some wait span of its buffer was open and no
    lock reacquisition was, however the spans overlap or nest; it never exceeds
    the operation's duration; the wait reported for a reason counts the same for
    the waits of that reason alone; and so does the preparation's for its span. *)
Theorem resource_wait_exact gc r st sm st' root :
  leave_trace gc (r :: st) = (Ok sm, st') → last (items r) = Some root →
  Forall ordered_span (items r) →
  let time sel s := waiting_time sel is_lock_wait (items r) (sp_start s) (sp_end s) in
  su_wait sm = seconds (time is_wait root) ∧
  0 <= time is_wait root <= sp_end root - sp_start root ∧
  (∀ reason q, su_by_reason sm !! reason = Some q → q = seconds (time (in_group reason) root)) ∧
  (∀ d q, su_preparation sm = Some (d, q) → ∃ p, find_stage "prepare.total" (items r) = Some p ∧
     d = seconds (sp_end p - sp_start p) ∧ q = seconds (time is_wait p)).
Proof.
  intros H Hlast Hord time. unfold leave_trace in H. rewrite Hlast in H. injection H as <- <-.
  assert (∀ s, s ∈ items r → sp_start s <= sp_end s) as Hs by (by rewrite Forall_forall in Hord).
  assert (root ∈ items r) as Hroot by (by apply last_Some_elem_of).
  assert (∀ s, s ∈ items r → resource_wait_ns (items r) (sp_start s) (sp_end s) = time is_wait s) as Ht.
  { intros s Hin. by apply resource_wait_time; [apply Hs|]. }
  split_and!; cbn [summarise su_wait su_by_reason su_preparation].
  - unfold resource_wait_seconds. by rewrite Ht.
  - by apply waiting_time_bounds, Hs.
  - by apply waiting_time_bounds, Hs.
  - intros reason q. rewrite dmap_values_lookup. destruct (wait_groups (items r) !! reason) as [ws|] eqn:E; [|done].
    apply wait_groups_lookup in E as ->. intros [= <-]. unfold resource_wait_seconds, time. f_equal.
    rewrite <- group_time. apply resource_wait_time; [by apply Hs|].
    apply Forall_app. split; apply Forall_filter; by eapply Forall_impl.
  - intros d q. destruct (find_stage "prepare.total" (items r)) as [p|] eqn:E; [|done]. intros [= <- <-].
    exists p. split_and!; [done..|]. unfold resource_wait_seconds. rewrite Ht; [done|].
    apply find_some in E as [Hin _]. by apply list_elem_of_In.
Qed.

(** A wait of 40 ns, 10 of them spent on reacquiring the lock. *)
Definition demo_span (stage : string) (s e : Z) : span := Span stage s e 0 true [].
Definition demo_rings : rings :=
  foldl (λ st s, end_span s st) (enter true [])
    [demo_span "admission.condition.reacquire" 40 50; demo_span "admission.condition_wait" 10 50;
     demo_span "admission.eviction_wait" 45 60; demo_span "prepare.total" 0 55; demo_span "callback" 0 100].

Definition demo_ring : ring := default (Ring [] 0 true) (head demo_rings).

Lemma resource_wait_exact_witness :
  (leave_trace [] demo_rings).1 = Ok (summarise [] demo_ring (demo_span "callback" 0 100)) ∧
  su_wait (summarise [] demo_ring (demo_span "callback" 0 100)) = seconds 40.
Proof.
  split; [reflexivity|].
  destruct (resource_wait_exact [] demo_ring [] (summarise [] demo_ring (demo_span "callback" 0 100)) []
    (demo_span "callback" 0 100)) as [Hw _].
  - reflexivity.
  - reflexivity.
  - repeat constructor; vm_compute; discriminate.
  - rewrite Hw. reflexivity.
Defined.
