(* ===== verification/Layers.v ===== *)
(** * Layers over published evidence (src/clawbox/experiments/knowledge/layers.py)

    Chunked and shared sequences, overlay maps and the copy-on-access repository
    transaction.  The sequences promise what a Python list does ([PySequence]);
    the overlay map is a dict with the overlay's insertions; the transaction works
    on a store of shared objects and never writes to a published one. *)
From S2P Require Import Prelude Dict.

(** ** Python indices and slices *)

(** [l[i]] of a list. *)
Definition py_index {A} (l : list A) (i : Z) : outcome A :=
  let n := Z.of_nat (length l) in
  let j := if i <? 0 then i + n else i in
  if (0 <=? j) && (j <? n)
  then match l !! Z.to_nat j with Some x => Ok x | None => Raise IndexError end
  else Raise IndexError.

(** [slice.indices(n)]: start, stop and step. *)
Definition slice_indices (start stop step : option Z) (n : Z) : outcome (Z * Z * Z) :=
  let st := default 1 step in
  if st =? 0 then Raise (ValueError "slice step cannot be zero")
  else
    let '(lower, upper) := if st <? 0 then (-1, n - 1) else (0, n) in
    let clip (o : option Z) (d : Z) :=
      match o with
      | None => d
      | Some i => if i <? 0 then Z.max (i + n) lower else Z.min i upper
      end in
    Ok (clip start (if st <? 0 then upper else lower), clip stop (if st <? 0 then lower else upper), st).

(** [range(start, stop, step)] with a step other than zero. *)
Definition range_length (start stop step : Z) : Z :=
  if 0 <? step then Z.max 0 ((stop - start + step - 1) / step)
  else Z.max 0 ((start - stop - step - 1) / (- step)).
Definition py_range (start stop step : Z) : list Z :=
  (λ i, start + Z.of_nat i * step) <$> seq 0 (Z.to_nat (range_length start stop step)).

(** The elements of a list at some indices. *)
Fixpoint all_ok {A} (l : list (outcome A)) : outcome (list A) :=
  match l with
  | [] => Ok []
  | o :: l' => x ← o; xs ← all_ok l'; Ok (x :: xs)
  end.

(** [tuple(self[i] for i in range( *index.indices(len)))] with [get] for [self[i]]. *)
Definition get_slice {A} (get : Z → outcome A) (n : Z) (start stop step : option Z) : outcome (list A) :=
  '(a, b, st) ← slice_indices start stop step n;
  all_ok (get <$> py_range a b st).

Lemma range_in start stop step i : step ≠ 0 → i ∈ py_range start stop step →
  if 0 <? step then start <= i < stop else stop < i <= start.
Proof.
  intros Hs (j & -> & Hj%elem_of_seq)%list_elem_of_fmap. unfold range_length in Hj.
  destruct (Z.ltb_spec 0 step) as [Hp|Hp].
  - assert (Z.of_nat j < (stop - start + step - 1) / step) by lia.
    assert (Z.of_nat j + 1 <= (stop - start + step - 1) / step) as H1 by lia.
    apply (Z.mul_le_mono_nonneg_l _ _ step) in H1; [|lia].
    pose proof (Z.mul_div_le (stop - start + step - 1) step Hp). nia.
  - assert (Z.of_nat j + 1 <= (start - stop - step - 1) / - step) as H1 by lia.
    apply (Z.mul_le_mono_nonneg_l _ _ (- step)) in H1; [|lia].
    pose proof (Z.mul_div_le (start - stop - step - 1) (- step) ltac:(lia)). nia.
Qed.

(** Every index of a slice is an index of the list. *)
Lemma slice_in_bounds start stop step n a b st i : 0 <= n →
  slice_indices start stop step n = Ok (a, b, st) → i ∈ py_range a b st → 0 <= i < n.
Proof.
  intros Hn. unfold slice_indices. destruct (Z.eqb_spec (default 1 step) 0) as [|Hs]; [done|].
  set (d := default 1 step) in *. intros H Hi.
  destruct (Z.ltb_spec d 0) as [Hd|Hd]; injection H as <- <- <-; apply range_in in Hi; [|done| |done].
  - rewrite (proj2 (Z.ltb_ge _ _)) in Hi by lia.
    destruct start as [s|], stop as [t|]; repeat case_match; try lia.
  - rewrite (proj2 (Z.ltb_lt _ _)) in Hi by lia.
    destruct start as [s|], stop as [t|]; repeat case_match; try lia.
Qed.

Lemma all_ok_ext {A B} (f g : B → outcome A) l : (∀ i, i ∈ l → f i = g i) → all_ok (f <$> l) = all_ok (g <$> l).
Proof.
  induction l as [|x l IH]; intros H; [done|]. rewrite !fmap_cons. cbn [all_ok].
  rewrite H by (by left). rewrite IH; [done|]. intros i Hi. apply H. by right.
Qed.

Lemma all_ok_is_ok {A B} (f : B → outcome A) l : (∀ i, i ∈ l → is_ok (f i) = true) → is_ok (all_ok (f <$> l)) = true.
Proof.
  induction l as [|x l IH]; intros H; [done|]. rewrite fmap_cons. cbn [all_ok].
  specialize (H x (list_elem_of_here _ _)) as Hx. destruct (f x); [|done]. cbn.
  assert (is_ok (all_ok (f <$> l)) = true) as Hl by (apply IH; intros i Hi; apply H; by right).
  by destruct (all_ok (f <$> l)).
Qed.

(** ** What a sequence promises *)

Class PySequence (T : Type) (A : Type) := {
  seq_list : T → list A;
  seq_ok : T → Prop;
  seq_len : T → Z;
  seq_get : T → Z → outcome A;
  seq_len_law : ∀ s, seq_ok s → seq_len s = Z.of_nat (length (seq_list s));
  seq_get_law : ∀ s i, seq_ok s → seq_get s i = py_index (seq_list s) i;
}.

#[export] Instance list_sequence A : PySequence (list A) A.
Proof. exists id (λ _, True) (λ l, Z.of_nat (length l)) py_index; done. Defined.

Definition seq_slice `{PySequence T A} (s : T) (start stop step : option Z) : outcome (list A) :=
  get_slice (seq_get s) (seq_len s) start stop step.

(** A slice is the list's, and raises only for a step of zero. *)
Lemma seq_slice_law `{PySequence T A} (s : T) start stop step : seq_ok s →
  seq_slice s start stop step = get_slice (py_index (seq_list s)) (Z.of_nat (length (seq_list s))) start stop step ∧
  (is_ok (seq_slice s start stop step) = negb (default 1 step =? 0)).
Proof.
  intros Hs. unfold seq_slice, get_slice. rewrite seq_len_law by done.
  destruct (slice_indices start stop step (Z.of_nat (length (seq_list s)))) as [[[a b] st]|e] eqn:E; cbn.
  - split; [apply all_ok_ext; intros; by apply seq_get_law|].
    assert (default 1 step ≠ 0) as Hne.
    { unfold slice_indices in E. destruct (Z.eqb_spec (default 1 step) 0); [done|]. done. }
    rewrite (proj2 (Z.eqb_neq _ _)) by done. apply all_ok_is_ok. intros i Hi.
    rewrite seq_get_law by done. apply slice_in_bounds with (i := i) in E; [|lia|done].
    unfold py_index. rewrite (proj2 (Z.ltb_ge i 0)) by lia.
    rewrite (proj2 (Z.leb_le 0 i)), (proj2 (Z.ltb_lt i _)) by lia. cbn [andb].
    destruct (lookup_lt_is_Some_2 (seq_list s) (Z.to_nat i)) as [x ->]; [lia|done].
  - split; [done|]. unfold slice_indices in E. destruct (Z.eqb_spec (default 1 step) 0); [done|].
    by destruct (default 1 step <? 0).
Qed.

(** ** [ChunkedSamples] *)

Definition block_size : Z := 64.

Record chunked (V : Type) := Chunked { blocks : list (list V); tail_ : list V; size : Z }.
Arguments Chunked {V} _ _ _.
Arguments blocks {V} _.
Arguments tail_ {V} _.
Arguments size {V} _.

Section chunked.
Context {V : Type}.

Definition chunked_empty : chunked V := Chunked [] [] 0.
Definition chunked_append (v : V) (c : chunked V) : chunked V :=
  let '(bs, t) := if Z.of_nat (length (tail_ c)) =? block_size then (blocks c ++ [tail_ c], []) else (blocks c, tail_ c) in
  Chunked bs (t ++ [v]) (size c + 1).
(** [ChunkedSamples(values)] of an iterable; of another [ChunkedSamples] it is a copy of the fields. *)
Definition chunked_of (values : list V) : chunked V := foldl (λ c v, chunked_append v c) chunked_empty values.
(** [__iter__] *)
Definition chunked_list (c : chunked V) : list V := concat (blocks c) ++ tail_ c.
(** [__getitem__] of an integer *)
Definition chunked_get (c : chunked V) (index : Z) : outcome V :=
  let i := if index <? 0 then index + size c else index in
  if (0 <=? i) && (i <? size c) then
    let block := i / block_size in
    let from := if block <? Z.of_nat (length (blocks c)) then default [] (blocks c !! Z.to_nat block) else tail_ c in
    match from !! Z.to_nat (i mod block_size) with Some x => Ok x | None => Raise IndexError end
  else Raise IndexError.

(** Full blocks, a tail of at most one block, the size of both. *)
Record chunked_ok (c : chunked V) : Prop := ChunkedOk {
  ck_blocks : Forall (λ b, length b = 64%nat) (blocks c);
  ck_tail : (length (tail_ c) <= 64)%nat;
  ck_size : size c = Z.of_nat (length (chunked_list c));
}.

Lemma concat_length (bs : list (list V)) : Forall (λ b, length b = 64%nat) bs → length (concat bs) = (64 * length bs)%nat.
Proof. induction 1 as [|b bs Hb _ IH]; [done|]. simpl. rewrite length_app, IH. lia. Qed.

Lemma concat_lookup (bs : list (list V)) : Forall (λ b, length b = 64%nat) bs → ∀ q r, (r < 64)%nat →
  concat bs !! (64 * q + r)%nat = default [] (bs !! q) !! r.
Proof.
  induction 1 as [|b bs Hb _ IH]; intros q r Hr; [done|]. cbn [concat]. destruct q as [|q].
  - replace (64 * 0 + r)%nat with r by lia. by rewrite lookup_app_l by lia.
  - rewrite lookup_app_r by lia. rewrite Hb. replace (64 * S q + r - 64)%nat with (64 * q + r)%nat by lia. apply IH, Hr.
Qed.

Lemma chunked_empty_ok : chunked_ok chunked_empty.
Proof. split; [constructor|simpl; lia|done]. Qed.

Lemma chunked_append_spec v c : chunked_ok c →
  chunked_ok (chunked_append v c) ∧ chunked_list (chunked_append v c) = chunked_list c ++ [v].
Proof.
  intros [Hb Ht Hs]. unfold chunked_append, chunked_list, block_size in *.
  destruct (Z.eqb_spec (Z.of_nat (length (tail_ c))) 64) as [E|E]; cbn [blocks tail_ size].
  - assert (concat (blocks c ++ [tail_ c]) ++ [] ++ [v] = (concat (blocks c) ++ tail_ c) ++ [v]) as Heq.
    { rewrite concat_app. simpl. by rewrite app_nil_r, <- app_assoc. }
    split; [split; cbn [blocks tail_ size chunked_list]|done].
    + apply Forall_app. split; [done|]. repeat constructor. lia.
    + simpl. lia.
    + unfold chunked_list. cbn [blocks tail_]. rewrite Heq, length_app. simpl. lia.
  - split; [split; cbn [blocks tail_ size chunked_list]|by rewrite app_assoc].
    + done.
    + rewrite length_app. simpl. lia.
    + unfold chunked_list. cbn [blocks tail_]. rewrite app_assoc, length_app. simpl. lia.
Qed.

Lemma chunked_of_spec values : ∀ c, chunked_ok c →
  chunked_ok (foldl (λ c v, chunked_append v c) c values) ∧
  chunked_list (foldl (λ c v, chunked_append v c) c values) = chunked_list c ++ values.
Proof.
  induction values as [|v values IH]; intros c Hc; cbn [foldl]; [by rewrite app_nil_r|].
  destruct (chunked_append_spec v c Hc) as [Hok Hl]. destruct (IH _ Hok) as [H1 H2]. split; [done|].
  by rewrite H2, Hl, <- app_assoc.
Qed.

Lemma chunked_get_law c i : chunked_ok c → chunked_get c i = py_index (chunked_list c) i.
Proof.
  intros [Hb Ht Hs]. unfold chunked_get, py_index, block_size. rewrite <- Hs.
  set (j := if i <? 0 then i + size c else i).
  destruct (Z.leb_spec 0 j) as [H0|], (Z.ltb_spec j (size c)) as [Hj|]; [|done..]. cbn [andb].
  pose proof (Z.div_mod j 64 ltac:(lia)) as Hdm. pose proof (Z.mod_pos_bound j 64 ltac:(lia)) as Hm.
  assert (0 <= j / 64) as Hd by (apply Z.div_pos; lia).
  replace (Z.to_nat j) with (64 * Z.to_nat (j / 64) + Z.to_nat (j mod 64))%nat by lia.
  unfold chunked_list in *. rewrite length_app, concat_length in Hs by done.
  destruct (Z.ltb_spec (j / 64) (Z.of_nat (length (blocks c)))) as [Hl|Hl].
  - rewrite lookup_app_l by (rewrite concat_length by done; lia). by rewrite concat_lookup by (done || lia).
  - rewrite lookup_app_r by (rewrite concat_length by done; lia). rewrite concat_length by done.
    by replace (64 * Z.to_nat (j / 64) + Z.to_nat (j mod 64) - 64 * length (blocks c))%nat with (Z.to_nat (j mod 64)) by lia.
Qed.
End chunked.

#[export] Instance chunked_sequence V : PySequence (chunked V) V.
Proof.
  refine {| seq_list := chunked_list; seq_ok := chunked_ok; seq_len := size; seq_get := chunked_get |}.
  - intros s Hs. apply Hs.
  - apply chunked_get_law.
Defined.

(** ** [SharedSequence] *)

(** A published base of any sequence type and the writer's delta. *)
Record shared_seq (T V : Type) := SharedSeq { sh_base : T; sh_delta : chunked V }.
Arguments SharedSeq {T V} _ _.
Arguments sh_base {T V} _.
Arguments sh_delta {T V} _.

Section shared.
Context `{PySequence T V}.

(** [SharedSequence(base, delta)] of a plain base, and of another [SharedSequence]. *)
Definition shared_new (base : T) (delta : list V) : shared_seq T V := SharedSeq base (chunked_of delta).
Definition shared_fork (s : shared_seq T V) (delta : list V) : shared_seq T V :=
  SharedSeq (sh_base s) (foldl (λ c v, chunked_append v c) (sh_delta s) delta).

Definition shared_list (s : shared_seq T V) : list V := seq_list (sh_base s) ++ chunked_list (sh_delta s).
Definition shared_ok (s : shared_seq T V) : Prop := seq_ok (sh_base s) ∧ chunked_ok (sh_delta s).
Definition shared_len (s : shared_seq T V) : Z := seq_len (sh_base s) + size (sh_delta s).
Definition shared_get (s : shared_seq T V) (index : Z) : outcome V :=
  let i := if index <? 0 then index + shared_len s else index in
  if (i <? 0) || (shared_len s <=? i) then Raise IndexError
  else if i <? seq_len (sh_base s) then seq_get (sh_base s) i
  else chunked_get (sh_delta s) (i - seq_len (sh_base s)).

Lemma shared_len_law s : shared_ok s → shared_len s = Z.of_nat (length (shared_list s)).
Proof.
  intros [Hb Hd]. unfold shared_len, shared_list. rewrite seq_len_law, (ck_size _ Hd), length_app by done. lia.
Qed.

Lemma py_index_in {A} (l : list A) i : 0 <= i < Z.of_nat (length l) →
  py_index l i = match l !! Z.to_nat i with Some x => Ok x | None => Raise IndexError end.
Proof.
  intros Hi. unfold py_index. rewrite (proj2 (Z.ltb_ge i 0)) by lia.
  by rewrite (proj2 (Z.leb_le 0 i)), (proj2 (Z.ltb_lt i _)) by lia.
Qed.

Lemma shared_get_law s i : shared_ok s → shared_get s i = py_index (shared_list s) i.
Proof.
  intros Hs. unfold shared_get, py_index. rewrite <- shared_len_law by done.
  set (j := if i <? 0 then i + shared_len s else i).
  destruct (Z.ltb_spec j 0) as [Hn|H0], (Z.leb_spec 0 j) as [Hp|Hp]; [lia|done| |lia].
  destruct (Z.leb_spec (shared_len s) j) as [Hge|Hj], (Z.ltb_spec j (shared_len s)); [lia|done| |lia]. cbn [orb andb].
  destruct Hs as [Hb Hd]. unfold shared_len in Hj. rewrite (ck_size _ Hd) in Hj. unfold shared_list.
  pose proof (seq_len_law _ Hb) as Hl. destruct (Z.ltb_spec j (seq_len (sh_base s))).
  - rewrite seq_get_law, py_index_in by (done || lia). by rewrite lookup_app_l by lia.
  - rewrite chunked_get_law, py_index_in by (done || lia). rewrite lookup_app_r by lia.
    by replace (Z.to_nat j - length (seq_list (sh_base s)))%nat with (Z.to_nat (j - seq_len (sh_base s))) by lia.
Qed.
End shared.

#[export] Instance shared_sequence `{PySequence T V} : PySequence (shared_seq T V) V.
Proof.
  refine {| seq_list := shared_list; seq_ok := shared_ok; seq_len := shared_len; seq_get := shared_get |}.
  - intros s. apply shared_len_law.
  - intros s i. apply shared_get_law.
Defined.

(** ** [OverlayMap] *)

(** A published mapping, given by its items in iteration order, and the writer's
    delta. *)
Record overlay (V : Type) := Overlay { ov_base : dict string V; ov_delta : dict string V; extra_size : Z }.
Arguments Overlay {V} _ _ _.
Arguments ov_base {V} _.
Arguments ov_delta {V} _.
Arguments extra_size {V} _.

Section overlay.
Context {V : Type}.

Definition dict_has (k : string) (d : dict string V) : bool := bool_decide (is_Some (d !! k)).
Definition missing_in (base : dict string V) (ks : list string) : list string :=
  filter (λ k, negb (dict_has k base)) ks.

(** [OverlayMap(base, delta)] *)
Definition overlay_new (base delta : dict string V) : overlay V :=
  Overlay base delta (Z.of_nat (length (missing_in base (keys delta)))).
Definition overlay_get (m : overlay V) (k : string) : outcome V :=
  match ov_delta m !! k with
  | Some v => Ok v
  | None => match ov_base m !! k with Some v => Ok v | None => Raise (KeyError k) end
  end.
Definition overlay_set (m : overlay V) (k : string) (v : V) : overlay V :=
  Overlay (ov_base m) (<[k := v]> (ov_delta m))
    (if negb (dict_has k (ov_delta m)) && negb (dict_has k (ov_base m)) then extra_size m + 1 else extra_size m).
Definition overlay_del (m : overlay V) (k : string) : outcome (overlay V) :=
  Raise (TypeError "published evidence cannot be deleted").
(** [__iter__] *)
Definition overlay_keys (m : overlay V) : list string :=
  keys (ov_base m) ++ missing_in (ov_base m) (keys (ov_delta m)).
Definition overlay_len (m : overlay V) : Z := Z.of_nat (length (ov_base m : list _)) + extra_size m.
Definition overlay_has (m : overlay V) (k : string) : bool := dict_has k (ov_delta m) || dict_has k (ov_base m).
Definition overlay_copy (m : overlay V) : overlay V := Overlay (ov_base m) (ov_delta m) (extra_size m).

(** [fork_map] of a plain mapping ([inl]) or an overlay. *)
Definition fork_map (shared : bool) (value : dict string V + overlay V) : dict string V + overlay V :=
  match value with
  | inr m => inr (overlay_copy m)
  | inl d => if shared then inr (overlay_new d ∅) else inl d
  end.

(** The dict an overlay stands for: the base with the delta's insertions made. *)
Definition overlay_dict (m : overlay V) : dict string V :=
  foldl (λ d kv, <[kv.1 := kv.2]> d) (ov_base m) (ov_delta m : list (string * V)).
Definition overlay_ok (m : overlay V) : Prop :=
  dict_ok (ov_base m) ∧ dict_ok (ov_delta m) ∧
  extra_size m = Z.of_nat (length (missing_in (ov_base m) (keys (ov_delta m)))).

Lemma dict_has_spec k (d : dict string V) : dict_has k d = true ↔ k ∈ keys d.
Proof. unfold dict_has. by rewrite bool_decide_eq_true, dict_lookup_key. Qed.

Lemma foldl_insert_lookup (l : list (string * V)) : ∀ (d : dict string V) k, NoDup l.*1 →
  foldl (λ d kv, <[kv.1 := kv.2]> d) d l !! k =
    match (l : dict string V) !! k with Some v => Some v | None => d !! k end.
Proof.
  induction l as [|[k0 v0] l IH]; intros d k Hnd; [done|]. apply NoDup_cons in Hnd as [Hni Hnd].
  cbn [foldl fst snd]. rewrite IH by done. rewrite lookup_dict_cons. case_decide as Hk; [subst k0|].
  - rewrite (proj2 (dict_lookup_none (l : dict string V) k)) by done. apply dict_lookup_insert_eq.
  - rewrite dict_lookup_insert_ne by done. done.
Qed.

Lemma foldl_insert_keys (l : list (string * V)) : ∀ (d : dict string V), NoDup l.*1 →
  keys (foldl (λ d kv, <[kv.1 := kv.2]> d) d l) = keys d ++ missing_in d l.*1.
Proof.
  induction l as [|[k0 v0] l IH]; intros d Hnd; [by rewrite app_nil_r|]. apply NoDup_cons in Hnd as [Hni Hnd].
  cbn [foldl fst snd]. rewrite IH by done. rewrite keys_insert, fmap_cons. unfold missing_in. rewrite filter_cons.
  assert (∀ k, k ∈ l.*1 → dict_has k (<[k0 := v0]> d) = dict_has k d) as Hh.
  { intros k Hk. unfold dict_has. rewrite dict_lookup_insert_ne; [done|]. intros ->. done. }
  assert (filter (λ k, negb (dict_has k (<[k0 := v0]> d))) l.*1 = filter (λ k, negb (dict_has k d)) l.*1) as ->.
  { clear -Hh. induction l.*1 as [|k ks IH]; [done|]. rewrite !filter_cons, Hh by (by left).
    rewrite IH; [done|]. intros k' Hk'. apply Hh. by right. }
  cbn [fst]. case_decide as Hin.
  - by rewrite decide_False by (rewrite (proj2 (dict_has_spec k0 d)) by done; by intros []).
  - rewrite decide_True; [by rewrite <- app_assoc|].
    destruct (dict_has k0 d) eqn:E; [by apply dict_has_spec in E|done].
Qed.

(** Setting a key commutes with the insertions of other keys. *)
Lemma foldl_insert_absent (l : list (string * V)) (d : dict string V) k v : k ∉ l.*1 →
  foldl (λ d kv, <[kv.1 := kv.2]> d) d ((<[k := v]> (l : dict string V) : dict string V) : list (string * V)) =
  <[k := v]> (foldl (λ d kv, <[kv.1 := kv.2]> d) d l).
Proof.
  intros Hk. rewrite insert_new by (by apply (dict_lookup_none (l : dict string V))). by rewrite foldl_app.
Qed.

Lemma insert_swap_present (d : dict string V) k k' v v' : k ∈ keys d → k ≠ k' →
  <[k := v]> (<[k' := v']> d) = <[k' := v']> (<[k := v]> d).
Proof.
  intros Hk Hne. induction d as [|[k0 v0] d IH]; [by apply elem_of_nil in Hk|].
  rewrite !insert_dict_cons. destruct (decide (k0 = k)) as [->|Hk0].
  - rewrite decide_False by done. rewrite insert_dict_cons, decide_True by done.
    by rewrite insert_dict_cons, decide_False by done.
  - assert (k ∈ keys d) as Hk' by (by apply elem_of_cons in Hk as [->|]).
    destruct (decide (k0 = k')) as [->|]; rewrite !insert_dict_cons.
    + by rewrite decide_False, decide_True by done.
    + rewrite !decide_False by done. by rewrite IH.
Qed.

Lemma foldl_insert_push (l : list (string * V)) : ∀ (d : dict string V) k v, k ∈ keys d → k ∉ l.*1 →
  foldl (λ d kv, <[kv.1 := kv.2]> d) (<[k := v]> d) l = <[k := v]> (foldl (λ d kv, <[kv.1 := kv.2]> d) d l).
Proof.
  induction l as [|[k0 v0] l IH]; intros d k v Hk Hni; [done|]. cbn [foldl fst snd].
  rewrite fmap_cons in Hni. apply not_elem_of_cons in Hni as [Hne Hni].
  rewrite <- IH; [by rewrite (insert_swap_present d k k0)| |done].
  rewrite keys_insert. case_decide; [done|]. apply elem_of_app. by left.
Qed.

Lemma foldl_insert_present (l : list (string * V)) : ∀ (d : dict string V) k v, NoDup l.*1 → k ∈ l.*1 →
  foldl (λ d kv, <[kv.1 := kv.2]> d) d ((<[k := v]> (l : dict string V) : dict string V) : list (string * V)) =
  <[k := v]> (foldl (λ d kv, <[kv.1 := kv.2]> d) d l).
Proof.
  induction l as [|[k0 v0] l IH]; intros d k v Hnd Hk; [by apply elem_of_nil in Hk|].
  apply NoDup_cons in Hnd as [Hni Hnd]. rewrite insert_dict_cons. destruct (decide (k0 = k)) as [->|Hne].
  - cbn [foldl fst snd]. rewrite <- foldl_insert_push; [by rewrite insert_insert| |done].
    rewrite keys_insert. case_decide; [done|]. apply elem_of_app. right. by left.
  - rewrite fmap_cons in Hk. apply elem_of_cons in Hk as [->|Hk]; [done|]. cbn [foldl fst snd]. by apply IH.
Qed.

Lemma missing_insert base delta k v :
  Z.of_nat (length (missing_in base (keys (<[k := v]> delta : dict string V)))) =
  Z.of_nat (length (missing_in base (keys delta))) +
    (if negb (dict_has k delta) && negb (dict_has k base) then 1 else 0).
Proof.
  rewrite keys_insert. case_decide as Hin.
  - rewrite (proj2 (dict_has_spec k delta)) by done. simpl. lia.
  - assert (dict_has k delta = false) as -> by (apply not_true_is_false; by rewrite dict_has_spec).
    unfold missing_in. rewrite filter_app, length_app, filter_cons, filter_nil. cbn [negb andb].
    destruct (dict_has k base); cbn [negb]; [rewrite decide_False by (by intros [])|rewrite decide_True by done];
      simpl; lia.
Qed.

Lemma overlay_set_ok m k v : overlay_ok m → overlay_ok (overlay_set m k v) ∧
  overlay_dict (overlay_set m k v) = <[k := v]> (overlay_dict m).
Proof.
  intros (Hb & Hd & He). split.
  - split_and!; cbn [overlay_set ov_base ov_delta extra_size]; [done|by apply insert_ok|].
    rewrite missing_insert, <- He. destruct (negb _ && negb _); lia.
  - unfold overlay_dict. cbn [overlay_set ov_base ov_delta].
    destruct (decide (k ∈ (ov_delta m : list _).*1)); [by apply foldl_insert_present|by apply foldl_insert_absent].
Qed.
End overlay.

(** Layered sequences are lists.  A [ChunkedSamples] of some values, and a
    [SharedSequence] over any base that is a sequence, forked and extended by its
    writer, have the length of the concatenated lists, give its element for every
    index, negative ones and out-of-range errors included, and its elements for
    every slice; a slice raises only for a step of zero. *)
Theorem sequences_refine_list `{PySequence T V} (base : T) (delta more values : list V) : seq_ok base →
  let s := shared_fork (shared_new base delta) more in
  let l := seq_list base ++ delta ++ more in
  (seq_len s = Z.of_nat (length l) ∧ (∀ i, seq_get s i = py_index l i) ∧
   (∀ start stop step, seq_slice s start stop step = get_slice (py_index l) (Z.of_nat (length l)) start stop step ∧
      is_ok (seq_slice s start stop step) = negb (default 1 step =? 0))) ∧
  (chunked_list (chunked_of values) = values ∧ size (chunked_of values) = Z.of_nat (length values) ∧
   ∀ i, chunked_get (chunked_of values) i = py_index values i).
Proof.
  intros Hb s l. destruct (chunked_of_spec delta chunked_empty chunked_empty_ok) as [Hd1 Hd2].
  destruct (chunked_of_spec more _ Hd1) as [Hm1 Hm2]. rewrite Hd2 in Hm2.
  assert (seq_ok s) as Hs by (split; done).
  assert (seq_list s = l) as Hl by (change (seq_list s) with (seq_list base ++ chunked_list (sh_delta s)); unfold l; f_equal; exact Hm2).
  destruct (chunked_of_spec values chunked_empty chunked_empty_ok) as [Hv1 Hv2].
  change (chunked_ok (chunked_of values)) in Hv1. change (chunked_list (chunked_of values) = values) in Hv2. split; [rewrite <- Hl|].
  - split_and!; [by apply seq_len_law|intros; by apply seq_get_law|intros; by apply seq_slice_law].
  - split_and!; [done| |].
    + rewrite (ck_size _ Hv1). f_equal. by rewrite Hv2.
    + intros i. rewrite chunked_get_law by done. by rewrite Hv2.
Qed.

Lemma sequences_refine_list_witness :
  seq_slice (shared_fork (shared_new ([1; 2; 3] : list Z) [4; 5]) [6]) (Some (-1)) None (Some (-2)) = Ok [6; 4; 2].
Proof.
  destruct (sequences_refine_list ([1; 2; 3] : list Z) [4; 5] [6] [] ltac:(exact I)) as [(_ & _ & Hs) _].
  rewrite (proj1 (Hs (Some (-1)) None (Some (-2)))). reflexivity.
Defined.

(** An overlay is the dict its writer would have had.  After any insertions
    an [OverlayMap] answers every lookup, membership test and length as the dict
    made of the base and the delta does after the same insertions, iterates over
    the same keys in the same order, and has not changed the base. *)
Theorem overlay_refines_dict {V} (base delta : dict string V) (writes : list (string * V)) :
  dict_ok base → dict_ok delta →
  let m := foldl (λ m kv, overlay_set m kv.1 kv.2) (overlay_new base delta) writes in
  let d := foldl (λ d kv, <[kv.1 := kv.2]> d) (overlay_dict (overlay_new base delta)) writes in
  ov_base m = base ∧ overlay_keys m = keys d ∧ overlay_len m = Z.of_nat (length (d : list _)) ∧
  ∀ k, overlay_has m k = dict_has k d ∧
    overlay_get m k = match d !! k with Some v => Ok v | None => Raise (KeyError k) end.
Proof.
  intros Hb Hd m d.
  assert (overlay_ok m ∧ overlay_dict m = d ∧ ov_base m = base) as ((Hob & Hod & He) & Hm & Hbase).
  { unfold m, d. assert (overlay_ok (overlay_new base delta)) as Hok by done.
    assert (ov_base (overlay_new base delta) = base) as Hbs by done. revert Hok Hbs.
    generalize (overlay_new base delta). induction writes as [|[k v] writes IH]; intros m0 Hok Hbs; [done|].
    cbn [foldl fst snd]. destruct (overlay_set_ok m0 k v Hok) as [Hok' Hd']. rewrite <- Hd'. by apply IH. }
  assert (overlay_keys m = keys d) as Hk.
  { rewrite <- Hm. unfold overlay_dict. by rewrite foldl_insert_keys. }
  assert (∀ k, overlay_get m k = match d !! k with Some v => Ok v | None => Raise (KeyError k) end) as Hg.
  { intros k. rewrite <- Hm. unfold overlay_dict. rewrite foldl_insert_lookup by done.
    unfold overlay_get. by destruct (ov_delta m !! k). }
  split_and!; [done|done| |].
  - unfold overlay_len. rewrite He. transitivity (Z.of_nat (length (overlay_keys m))).
    + unfold overlay_keys. rewrite length_app. unfold keys at 2. rewrite length_fmap. lia.
    + rewrite Hk. unfold keys. by rewrite length_fmap.
  - intros k. split; [|done]. unfold overlay_has. specialize (Hg k). unfold overlay_get in Hg.
    unfold dict_has at 3. unfold dict_has.
    destruct (ov_delta m !! k), (ov_base m !! k), (d !! k); try done; cbn in *; try done.
Qed.

Lemma overlay_refines_dict_witness :
  let m := overlay_set (overlay_set (overlay_new ([("a", 1); ("b", 2)] : dict string Z) ([("b", 3)] : dict string Z)) "c" 4) "a" 5 in
  overlay_keys m = ["a"; "b"; "c"] ∧ overlay_get m "b" = Ok 3 ∧ overlay_get m "z" = Raise (KeyError "z").
Proof.
  assert (dict_ok ([("a", 1); ("b", 2)] : dict string Z) ∧ dict_ok ([("b", 3)] : dict string Z)) as [Hb Hd].
  { split; unfold dict_ok, keys; simpl; repeat constructor; set_solver. }
  destruct (overlay_refines_dict _ _ [("c", 4); ("a", 5)] Hb Hd) as (_ & Hk & _ & Hg).
  split_and!; [exact Hk|exact (proj2 (Hg "b"))|exact (proj2 (Hg "z"))].
Defined.

(** ** [RepositoryTransaction] *)

(** The store of the containers a writer can reach: published dicts and sample
    lists, [ChunkedSamples], and transactions.  References are shared freely. *)
Notation ref := nat (only parsing).

Inductive cell (V : Type) :=
  | CDict (data : dict string ref)
  | CList (values : list V)
  | CSamples (samples : chunked V)
  | CTx (data : dict string ref) (depth : Z) (owned : list string) (sealed : bool).
Arguments CDict {V} _.
Arguments CList {V} _.
Arguments CSamples {V} _.
Arguments CTx {V} _ _ _ _.

Section transaction.
Context {V : Type} (of_key : string → V).

Notation store := (list (cell V)).

Definition alloc (c : cell V) : M store ref := λ h, (Ok (length h), h ++ [c]).
Definition deref (r : ref) : M store (cell V) :=
  h ← get; match h !! r with Some c => mret c | None => raise (RuntimeError "dangling reference") end.
Definition assign (r : ref) (c : cell V) : M store unit := modify (λ h, <[r := c]> h).

(** [dict(source.data if isinstance(source, RepositoryTransaction) else source)]:
    a sample is no key-value pair. *)
Definition as_dict (c : cell V) : outcome (dict string ref) :=
  match c with
  | CDict d | CTx d _ _ _ => Ok d
  | CList [] => Ok ∅
  | CSamples s => match chunked_list s with [] => Ok ∅ | _ => Raise (TypeError "cannot convert to a dict") end
  | CList _ => Raise (TypeError "cannot convert to a dict")
  end.
(** [RepositoryTransaction(source, depth)] *)
Definition tx_new (source : ref) (depth : Z) : M store ref :=
  c ← deref source;
  d ← lift (as_dict c);
  alloc (CTx d depth [] false).

(** [ChunkedSamples(values)]; a mapping iterates over its keys. *)
Definition samples_new (values : ref) : M store ref :=
  c ← deref values;
  alloc (CSamples (match c with
                   | CSamples s => s
                   | CList l => chunked_of l
                   | CDict d | CTx d _ _ _ => chunked_of (of_key <$> keys d)
                   end)).

(** The private branch of a value. *)
Definition branch (value : ref) (depth : Z) : M store ref :=
  if 1 <? depth then tx_new value (depth - 1) else samples_new value.

Definition as_tx (c : cell V) : outcome (dict string ref * Z * list string * bool) :=
  match c with CTx d n o s => Ok (d, n, o, s) | _ => Raise (TypeError "not a transaction") end.

(** [__getitem__] *)
Definition tx_get (r : ref) (key : string) : M store ref :=
  c ← deref r;
  '(d, depth, owned, sealed) ← lift (as_tx c);
  match d !! key with
  | None => raise (KeyError key)
  | Some value =>
      if negb sealed && negb (bool_decide (key ∈ owned)) then
        value' ← branch value depth;
        assign r (CTx (<[key := value']> d) depth (key :: owned) sealed) ;;
        mret value'
      else mret value
  end.

(** [__setitem__] *)
Definition tx_set (r : ref) (key : string) (value : ref) : M store unit :=
  c ← deref r;
  '(d, depth, owned, sealed) ← lift (as_tx c);
  if (sealed : bool) then raise (TypeError "published repository is immutable")
  else
    value' ← branch value depth;
    assign r (CTx (<[key := value']> d) depth (if bool_decide (key ∈ owned) then owned else key :: owned) sealed).

(** [setdefault] *)
Definition tx_setdefault (r : ref) (key : string) (default_ : ref) : M store ref :=
  c ← deref r;
  '(d, _, _, _) ← lift (as_tx c);
  match d !! key with None => tx_set r key default_ | Some _ => mret tt end ;;
  tx_get r key.

(** [ChunkedSamples.append] *)
Definition samples_append (r : ref) (v : V) : M store unit :=
  c ← deref r;
  match c with
  | CSamples s => assign r (CSamples (chunked_append v s))
  | _ => raise (TypeError "no append")
  end.

(** [seal], to the levels below in turn. *)
Fixpoint tx_seal (fuel : nat) (r : ref) : M store unit :=
  match fuel with
  | O => raise (RuntimeError "deeper than the transaction")
  | S fuel' =>
      c ← deref r;
      '(_, depth, owned, _) ← lift (as_tx c);
      (if 1 <? depth then
         for_each owned (λ key,
           c ← deref r;
           '(d, _, _, _) ← lift (as_tx c);
           match d !! key with Some child => tx_seal fuel' child | None => raise (KeyError key) end)
       else mret tt) ;;
      c ← deref r;
      '(d, depth, owned, _) ← lift (as_tx c);
      assign r (CTx d depth owned true)
  end.

(** ** A writer over published containers *)

(** What a writer does with the references it holds; a default it makes is an
    empty dict or a list. *)
Inductive tx_op :=
  | WAlloc (values : option (list V))
  | WGet (r : ref) (key : string)
  | WSet (r : ref) (key : string) (value : ref)
  | WSetDefault (r : ref) (key : string) (value : ref)
  | WAppend (r : ref) (v : V).

(** The references a result adds to the writer's. *)
Definition held {A} (f : A → list ref) (o : outcome A) (handles : list ref) : list ref :=
  match o with Ok a => f a ++ handles | Raise _ => handles end.

(** A branch that is still being written. *)
Definition open_tx (h : store) (value : ref) : bool :=
  match h !! value with Some (CTx _ _ _ s) => negb s | _ => false end.

(** The writer uses only references it holds and stores no branch of its own a
    second time; a raised error ends the operation, not the writer. *)
Definition writer_step (hw : store * list ref) (op : tx_op) : store * list ref :=
  let '(h, hs) := hw in
  let holds r (run : store * list ref) := if bool_decide (r ∈ hs) then run else hw in
  let stores r value (run : store * list ref) := if open_tx h value then hw else holds r run in
  match op with
  | WAlloc None => let '(o, h') := alloc (CDict ∅) h in (h', held (λ r, [r]) o hs)
  | WAlloc (Some l) => let '(o, h') := alloc (CList l) h in (h', held (λ r, [r]) o hs)
  | WGet r key => holds r (let '(o, h') := tx_get r key h in (h', held (λ r', [r']) o hs))
  | WSet r key value => stores r value (let '(_, h') := tx_set r key value h in (h', hs))
  | WSetDefault r key value => stores r value (let '(o, h') := tx_setdefault r key value h in (h', held (λ r', [r']) o hs))
  | WAppend r v => holds r (let '(_, h') := samples_append r v h in (h', hs))
  end.

(** The cell a path of keys leads to, by the raw data. *)
Definition data_of (c : cell V) : dict string ref := match c with CDict d | CTx d _ _ _ => d | _ => ∅ end.
Fixpoint follow (h : store) (r : ref) (path : list string) : option ref :=
  match path with
  | [] => Some r
  | key :: path' => c ← h !! r; r' ← data_of c !! key; follow h r' path'
  end.

(** ** Isolation *)

Context (h0 : store).
Notation base := (length h0).

(** The published store refers only to itself, and its transactions are sealed. *)
Definition published : Prop := ∀ l c, h0 !! l = Some c →
  (∀ k r, data_of c !! k = Some r → (r < base)%nat) ∧
  match c with CTx _ _ _ s => s = true | _ => True end.
Context (Hpub : published).

(** A private child: a transaction one level down, or samples. *)
Definition private (h : store) (depth : Z) (r : ref) : Prop :=
  (base <= r)%nat ∧ if 1 <? depth then ∃ d o s, h !! r = Some (CTx d (depth - 1) o s) else ∃ s, h !! r = Some (CSamples s).

Record writer_ok (h : store) : Prop := WriterOk {
  wo_old : ∀ l, (l < base)%nat → h !! l = h0 !! l;
  wo_tx : ∀ r d n o s, (base <= r)%nat → h !! r = Some (CTx d n o s) → s = false ∧
    (∀ k, k ∈ o → is_Some (d !! k)) ∧
    (∀ k r', d !! k = Some r' → if bool_decide (k ∈ o) then private h n r' else (r' < base)%nat);
  wo_dict : ∀ r d, (base <= r)%nat → h !! r = Some (CDict d) → d = ∅;
}.

(** Cells are added, and those there keep their kind. *)
Definition keeps (h h' : store) : Prop :=
  (length h <= length h')%nat ∧ (∀ depth r, private h depth r → private h' depth r).

Lemma private_app h c depth r : private h depth r → private (h ++ [c]) depth r.
Proof.
  intros [Hr H]. split; [done|].
  destruct (1 <? depth); [destruct H as (d & o & s & E); exists d, o, s|destruct H as (s & E); exists s];
    by apply lookup_app_l_Some.
Qed.

(** A cell that a writer may add. *)
Definition addable (h : store) (c : cell V) : Prop :=
  match c with
  | CTx d _ o s => s = false ∧ o = [] ∧ ∀ k r, d !! k = Some r → (r < base)%nat
  | CDict d => d = ∅
  | _ => True
  end.

Lemma writer_ok_alloc h c : writer_ok h → (base <= length h)%nat → addable h c → writer_ok (h ++ [c]).
Proof.
  intros [Hold Htx Hd] Hlen Hc.
  assert (∀ r x, (h ++ [c]) !! r = Some x → h !! r = Some x ∨ (r = length h ∧ x = c)) as Hcase.
  { intros r x [H|[Hr H]]%lookup_app_Some; [by left|right]. apply list_lookup_singleton_Some in H as [? <-]. split; [lia|done]. }
  split.
  - intros l Hl. rewrite lookup_app_l by lia. by apply Hold.
  - intros r d n o s Hr [H|[-> <-]]%Hcase.
    + destruct (Htx r d n o s Hr H) as (-> & Ho & Hk). split_and!; [done..|]. intros k r' Hk'.
      specialize (Hk k r' Hk'). case_bool_decide; [by apply private_app|done].
    + destruct Hc as (-> & -> & Hc). split_and!; [done|by intros k ?%elem_of_nil|]. intros k r' Hk'.
      rewrite bool_decide_eq_false_2 by apply not_elem_of_nil. by eapply Hc.
  - intros r d Hr [H|[-> <-]]%Hcase; [by eapply Hd|done].
Qed.

Lemma private_insert h r c c' depth x : h !! r = Some c →
  match c with
  | CTx _ n _ _ => ∃ d o s, c' = CTx d n o s
  | CSamples _ => ∃ s, c' = CSamples s
  | _ => False
  end → private h depth x → private (<[r := c']> h) depth x.
Proof.
  intros Hr Hc [Hx H]. split; [done|]. destruct (decide (x = r)) as [->|Hne].
  - assert (<[r := c']> h !! r = Some c') as Hl by (apply list_lookup_insert_eq; by eapply lookup_lt_Some).
    destruct (1 <? depth).
    + destruct H as (d & o & s & E). rewrite Hr in E. injection E as ->. destruct Hc as (d' & o' & s' & ->). eauto.
    + destruct H as (s & E). rewrite Hr in E. injection E as ->. destruct Hc as (s' & ->). eauto.
  - rewrite list_lookup_insert_ne by done. done.
Qed.

Lemma lookup_insert_cell (h : store) r c x y : <[r := c]> h !! x = Some y → (x = r ∧ y = c) ∨ (x ≠ r ∧ h !! x = Some y).
Proof.
  destruct (decide (x = r)) as [->|Hne]; [|rewrite list_lookup_insert_ne by done; by right].
  intros H. left. split; [done|]. apply list_lookup_insert_Some in H as [(_ & -> & _)|(Hf & _)]; [done|done].
Qed.

(** Giving a transaction a private child, or samples more samples. *)
Lemma writer_ok_tx h r d n o s key c o' : writer_ok h → (base <= r)%nat → h !! r = Some (CTx d n o s) →
  private h n c → (∀ k, k ∈ o' ↔ k = key ∨ k ∈ o) → writer_ok (<[r := CTx (<[key := c]> d) n o' s]> h).
Proof.
  intros [Hold Htx Hd] Hr Hcell Hc Ho'.
  assert (∀ m x, private h m x → private (<[r := CTx (<[key := c]> d) n o' s]> h) m x) as Hkeep.
  { intros m x. apply (private_insert h r _ _ m x Hcell). by eexists _, _, _. }
  destruct (Htx r d n o s Hr Hcell) as (-> & Ho & Hk). split.
  - intros l Hl. rewrite list_lookup_insert_ne by lia. by apply Hold.
  - intros x d' n' o'' s' Hx [[-> [= -> -> -> ->]]|[Hne H]]%lookup_insert_cell.
    + split_and!; [done| |].
      * intros k [->|Hin]%Ho'; [rewrite dict_lookup_insert_eq; by eexists|].
        destruct (decide (k = key)) as [->|]; [rewrite dict_lookup_insert_eq; by eexists|].
        rewrite dict_lookup_insert_ne by done. by apply Ho.
      * intros k r' Hk'. destruct (decide (k = key)) as [->|Hkk].
        { rewrite dict_lookup_insert_eq in Hk'. injection Hk' as <-.
          rewrite bool_decide_eq_true_2 by (apply Ho'; by left). by apply Hkeep. }
        rewrite dict_lookup_insert_ne in Hk' by done. specialize (Hk k r' Hk').
        destruct (decide (k ∈ o)) as [Hin|Hin].
        -- rewrite bool_decide_eq_true_2 in Hk by done. rewrite bool_decide_eq_true_2 by (apply Ho'; by right).
           by apply Hkeep.
        -- rewrite bool_decide_eq_false_2 in Hk by done. rewrite bool_decide_eq_false_2; [done|].
           intros [?|?]%Ho'; done.
    + destruct (Htx x d' n' o'' s' Hx H) as (? & ? & Hk'). split_and!; [done..|]. intros k r' E.
      specialize (Hk' k r' E). case_bool_decide; [by apply Hkeep|done].
  - intros x d' Hx [[_ ?]|[Hne H]]%lookup_insert_cell; [done|by eapply Hd].
Qed.

Lemma writer_ok_samples h r s s' : writer_ok h → (base <= r)%nat → h !! r = Some (CSamples s) →
  writer_ok (<[r := CSamples s']> h).
Proof.
  intros [Hold Htx Hd] Hr Hcell.
  assert (∀ m x, private h m x → private (<[r := CSamples s']> h) m x) as Hkeep.
  { intros m x. apply (private_insert h r _ _ m x Hcell). by eexists. }
  split.
  - intros l Hl. rewrite list_lookup_insert_ne by lia. by apply Hold.
  - intros x d' n' o'' z Hx [[_ ?]|[Hne H]]%lookup_insert_cell; [done|].
    destruct (Htx x d' n' o'' z Hx H) as (? & ? & Hk'). split_and!; [done..|]. intros k r' E.
    specialize (Hk' k r' E). case_bool_decide; [by apply Hkeep|done].
  - intros x d' Hx [[_ ?]|[Hne H]]%lookup_insert_cell; [done|by eapply Hd].
Qed.

(** A value that may be stored: published, or a plain container. *)
Definition plain (h : store) (value : ref) : Prop :=
  (value < base)%nat ∨ match h !! value with Some (CTx _ _ _ _) => False | _ => True end.

Lemma data_of_as_dict c d : as_dict c = Ok d → d = data_of c.
Proof. destruct c as [?|[]|s|? ? ? ?]; simpl; try by intros [= <-]. by destruct (chunked_list s); [intros [= <-]|]. Qed.

(** Branching off a plain value adds one private cell. *)
Lemma branch_spec h value n o h' : writer_ok h → (base <= length h)%nat → plain h value →
  branch value n h = (o, h') →
  match o with
  | Raise _ => h' = h
  | Ok r => r = length h ∧ writer_ok h' ∧ private h' n r ∧ ∃ c, h' = h ++ [c]
  end.
Proof.
  intros Hok Hlen Hp. unfold branch, tx_new, samples_new, deref.
  destruct (h !! value) as [c|] eqn:Hc; rewrite ?bind_get.
  2:{ destruct (1 <? n); unfold mbind, M_bind, get; simpl; rewrite Hc; by intros [= <- <-]. }
  destruct (1 <? n) eqn:Hn; unfold mbind, M_bind, get; simpl; rewrite Hc; simpl.
  - destruct (as_dict c) as [d|e] eqn:Ed; simpl; [|by intros [= <- <-]]. unfold alloc. intros [= <- <-].
    apply data_of_as_dict in Ed as ->.
    assert (∀ k r, data_of c !! k = Some r → (r < base)%nat) as Hd.
    { destruct (decide (value < base)%nat) as [Hv|Hv].
      - rewrite (wo_old h Hok) in Hc by done. by destruct (Hpub value c Hc).
      - destruct Hp as [|Hp]; [done|]. rewrite Hc in Hp. destruct c as [d|l|sm|]; try done.
        rewrite (wo_dict h Hok value d) by (done || lia). done. }
    split_and!; [done|by apply writer_ok_alloc| |by eexists]. split; [done|]. rewrite Hn.
    eexists _, _, _. by rewrite lookup_app_r, Nat.sub_diag by done.
  - unfold alloc. intros [= <- <-]. split_and!; [done|by apply writer_ok_alloc| |by eexists].
    split; [done|]. rewrite Hn. eexists. by rewrite lookup_app_r, Nat.sub_diag by done.
Qed.

Lemma open_tx_plain h value : writer_ok h → open_tx h value = false → plain h value.
Proof.
  intros Hok Hv. unfold open_tx in Hv. destruct (decide (value < base)%nat) as [|Hge]; [by left|right].
  destruct (h !! value) as [[| | |d n o s]|] eqn:E; try done.
  destruct (wo_tx h Hok value d n o s) as [-> _]; [lia|done|done].
Qed.

(** What an operation of the writer leaves. *)
Definition leaves (h : store) {A} (f : A → list ref) (res : outcome A * store) : Prop :=
  writer_ok res.2 ∧ keeps h res.2 ∧
  match res.1 with Ok a => Forall (λ r, (base <= r)%nat) (f a) | Raise _ => True end.

Lemma keeps_refl h : keeps h h.
Proof. by split. Qed.
Lemma keeps_trans h1 h2 h3 : keeps h1 h2 → keeps h2 h3 → keeps h1 h3.
Proof. intros [H1 H2] [H3 H4]. split; [lia|auto]. Qed.
Lemma keeps_app h c : keeps h (h ++ [c]).
Proof. split; [rewrite length_app; lia|]. intros. by apply private_app. Qed.
Lemma keeps_tx h r d n o s d' o' s' : h !! r = Some (CTx d n o s) → keeps h (<[r := CTx d' n o' s']> h).
Proof.
  intros Hr. split; [by rewrite length_insert|]. intros m x. apply (private_insert h r _ _ m x Hr). by eexists _, _, _.
Qed.
Lemma keeps_samples h r s s' : h !! r = Some (CSamples s) → keeps h (<[r := CSamples s']> h).
Proof.
  intros Hr. split; [by rewrite length_insert|]. intros m x. apply (private_insert h r _ _ m x Hr). by eexists.
Qed.

Lemma leaves_same h {A} (f : A → list ref) e : writer_ok h → leaves h f (Raise e, h).
Proof. intros Hok. split_and!; [done|apply keeps_refl|done]. Qed.

Lemma assign_eq r c (h : store) : assign r c h = (Ok tt, <[r := c]> h).
Proof. done. Qed.
Lemma bind_deref {B} r (k : cell V → M store B) h :
  (deref r ≫= k) h = match h !! r with Some c => k c h | None => (Raise (RuntimeError "dangling reference"), h) end.
Proof. unfold deref, mbind, M_bind, get. cbn. by destruct (h !! r). Qed.

(** Storing a fresh branch under a key of the writer's transaction. *)
Lemma store_branch h r d n o s key value o' : writer_ok h → (base <= length h)%nat → (base <= r)%nat →
  h !! r = Some (CTx d n o s) → plain h value → (∀ k, k ∈ o' ↔ k = key ∨ k ∈ o) →
  leaves h (λ r', [r']) ((value' ← branch value n; assign r (CTx (<[key := value']> d) n o' s) ;; mret value') h).
Proof.
  intros Hok Hlen Hr Hcell Hp Ho'. destruct (branch value n h) as [[value'|e] h1] eqn:E;
    pose proof (branch_spec h value n _ _ Hok Hlen Hp E) as Hb.
  - rewrite (bind_ok _ _ _ _ _ E). destruct Hb as (-> & Hok1 & Hpr & c & ->).
    assert ((h ++ [c]) !! r = Some (CTx d n o s)) as Hcell1 by (by apply lookup_app_l_Some).
    rewrite (bind_ok _ _ _ _ _ (assign_eq _ _ _)). split_and!; cbn [fst snd mret M_ret].
    + by apply (writer_ok_tx _ r d n o s key).
    + eapply keeps_trans; [apply keeps_app|by eapply keeps_tx].
    + by repeat constructor.
  - rewrite (bind_raise _ _ _ _ _ E). simpl in Hb. subst h1. by apply leaves_same.
Qed.

Lemma tx_get_leaves h r key : writer_ok h → (base <= length h)%nat → (base <= r)%nat →
  leaves h (λ r', [r']) (tx_get r key h).
Proof.
  intros Hok Hlen Hr. unfold tx_get. rewrite bind_deref.
  destruct (h !! r) as [c|] eqn:Hc; [|by apply leaves_same]. rewrite bind_lift.
  destruct c as [| | |d n o s]; try by apply leaves_same. cbn [as_tx].
  destruct (d !! key) as [value|] eqn:Hk; [|by apply leaves_same].
  destruct (wo_tx h Hok r d n o s Hr Hc) as (-> & Ho & Hkids). specialize (Hkids key value Hk). cbn [negb andb].
  case_bool_decide as Hin; cbn [negb].
  - split_and!; [done|apply keeps_refl|]. repeat constructor. apply Hkids.
  - apply (store_branch h r d n o false key); [done..|by left|]. intros k. by rewrite elem_of_cons.
Qed.

Lemma tx_set_leaves h r key value : writer_ok h → (base <= length h)%nat → (base <= r)%nat → plain h value →
  leaves h (λ _, []) (tx_set r key value h).
Proof.
  intros Hok Hlen Hr Hp. unfold tx_set. rewrite bind_deref.
  destruct (h !! r) as [c|] eqn:Hc; [|by apply leaves_same]. rewrite bind_lift.
  destruct c as [| | |d n o s]; try by apply leaves_same. cbn [as_tx].
  destruct (wo_tx h Hok r d n o s Hr Hc) as (-> & Ho & Hkids).
  set (o' := if bool_decide (key ∈ o) then o else key :: o).
  assert (∀ k, k ∈ o' ↔ k = key ∨ k ∈ o) as Ho'.
  { intros k. unfold o'. case_bool_decide; [|by rewrite elem_of_cons]. split; [by right|]. by intros [->|]. }
  pose proof (store_branch h r d n o false key value o' Hok Hlen Hr Hc Hp Ho') as Hs. unfold leaves in *.
  destruct (branch value n h) as [[value'|e] h1] eqn:E.
  - rewrite !(bind_ok _ _ _ _ _ E) in *. split_and!; [apply Hs|apply Hs|constructor].
  - rewrite !(bind_raise _ _ _ _ _ E) in *. split_and!; [apply Hs|apply Hs|done].
Qed.

Lemma tx_setdefault_leaves h r key value : writer_ok h → (base <= length h)%nat → (base <= r)%nat → plain h value →
  leaves h (λ r', [r']) (tx_setdefault r key value h).
Proof.
  intros Hok Hlen Hr Hp. unfold tx_setdefault. rewrite bind_deref.
  destruct (h !! r) as [c|] eqn:Hc; [|by apply leaves_same]. rewrite bind_lift.
  destruct c as [| | |d n o s]; try by apply leaves_same. cbn [as_tx].
  destruct (d !! key); [by apply tx_get_leaves|].
  pose proof (tx_set_leaves h r key value Hok Hlen Hr Hp) as (H1 & H2 & _).
  destruct (tx_set r key value h) as [[[]|e] h1] eqn:E; cbn in H1, H2.
  - rewrite (bind_ok _ _ _ _ _ E). destruct (tx_get_leaves h1 r key H1 ltac:(destruct H2; lia) Hr) as (? & ? & ?).
    split_and!; [done|by eapply keeps_trans|done].
  - rewrite (bind_raise _ _ _ _ _ E). by split_and!.
Qed.

Lemma samples_append_leaves h r v : writer_ok h → (base <= r)%nat → leaves h (λ _, []) (samples_append r v h).
Proof.
  intros Hok Hr. unfold samples_append. rewrite bind_deref.
  destruct (h !! r) as [c|] eqn:Hc; [|by apply leaves_same]. destruct c as [| |s|]; try by apply leaves_same.
  rewrite assign_eq. split_and!; [by eapply writer_ok_samples|by eapply keeps_samples|constructor].
Qed.

Context (root : ref) (depth : Z).

Definition writer_inv (hw : store * list ref) : Prop :=
  writer_ok hw.1 ∧ (base <= length hw.1)%nat ∧ Forall (λ r, (base <= r)%nat) hw.2 ∧ private hw.1 (depth + 1) root.

Lemma writer_inv_leaves {A} h hs (f : A → list ref) res : writer_inv (h, hs) → leaves h f res →
  writer_inv (res.2, held f res.1 hs).
Proof.
  intros (_ & Hlen & Hhs & Hroot) (Hok & [Hle Hk] & Ho). split_and!; cbn in *; [done|lia| |by apply Hk].
  destruct (res.1); [by apply Forall_app|done].
Qed.

Lemma writer_step_inv op hw : writer_inv hw → writer_inv (writer_step hw op).
Proof.
  destruct hw as [h hs]. intros Hinv. pose proof Hinv as (Hok & Hlen & Hhs & _). cbn [fst snd] in *. rewrite Forall_forall in Hhs.
  assert (∀ A (f : A → list ref) res, leaves h f res →
    writer_inv (let '(o, h') := res in (h', held f o hs))) as Hstep.
  { intros A f [o h'] Hl. exact (writer_inv_leaves h hs f (o, h') Hinv Hl). }
  destruct op as [[l|]|r key|r key value|r key value|r v]; cbn [writer_step].
  - apply (Hstep _ (λ r, [r]) (alloc (CList l) h)). split_and!; cbn; [by apply writer_ok_alloc|apply keeps_app|by repeat constructor].
  - apply (Hstep _ (λ r, [r]) (alloc (CDict ∅) h)). split_and!; cbn; [by apply writer_ok_alloc|apply keeps_app|by repeat constructor].
  - case_bool_decide as Hr; [|done]. by apply (Hstep _ (λ r', [r'])), tx_get_leaves, Hhs.
  - destruct (open_tx h value) eqn:Hv; [done|]. case_bool_decide as Hr; [|done].
    pose proof (tx_set_leaves h r key value Hok Hlen (Hhs r Hr) (open_tx_plain h value Hok Hv)) as Hl.
    apply Hstep in Hl. destruct (tx_set r key value h) as [[]]; done.
  - destruct (open_tx h value) eqn:Hv; [done|]. case_bool_decide as Hr; [|done].
    apply (Hstep _ (λ r', [r'])), tx_setdefault_leaves; [done|done|by apply Hhs|by apply open_tx_plain].
  - case_bool_decide as Hr; [|done]. pose proof (samples_append_leaves h r v Hok (Hhs r Hr)) as Hl.
    apply Hstep in Hl. destruct (samples_append r v h) as [[]]; done.
Qed.

(** ** Sealing *)

(** The writer's transactions: an owned key leads to a private cell, any other to
    a published one. *)
Definition branches (h : store) : Prop := ∀ r d n o s, (base <= r)%nat → h !! r = Some (CTx d n o s) →
  (∀ k, k ∈ o → is_Some (d !! k)) ∧
  ∀ k c, d !! k = Some c → if bool_decide (k ∈ o) then private h n c else (c < base)%nat.

(** Only [sealed] flags of the writer's cells go up. *)
Definition seals (h h' : store) : Prop := ∀ l c, h' !! l = Some c →
  h !! l = Some c ∨ ∃ d n o s, (base <= l)%nat ∧ c = CTx d n o true ∧ h !! l = Some (CTx d n o s).
Definition seals_on (h h' : store) : Prop := seals h h' ∧ length h' = length h ∧
  ∀ l d n o, h !! l = Some (CTx d n o true) → h' !! l = Some (CTx d n o true).

(** The transaction and the branches it owns, [fuel] levels of them, are sealed. *)
Fixpoint sealed_below (fuel : nat) (h : store) (r : ref) : Prop :=
  match fuel with
  | O => False
  | S fuel' => ∃ d n o, h !! r = Some (CTx d n o true) ∧ (base <= r)%nat ∧
      (1 < n → ∀ k c, k ∈ o → d !! k = Some c → sealed_below fuel' h c)
  end.

Lemma seals_on_refl h : seals_on h h.
Proof. split_and!; [by left|done|done]. Qed.
Lemma seals_on_trans h1 h2 h3 : seals_on h1 h2 → seals_on h2 h3 → seals_on h1 h3.
Proof.
  intros (H1 & L1 & T1) (H2 & L2 & T2). split_and!; [|congruence|auto]. intros l c [H|(d & n & o & s & Hl & -> & H)]%H2; [by apply H1|].
  apply H1 in H as [H|(d' & n' & o' & s' & _ & [= -> -> -> ->] & H)]; right; eauto 10.
Qed.

Lemma seals_on_tx h h' r d n o s : seals_on h h' → h !! r = Some (CTx d n o s) → ∃ s', h' !! r = Some (CTx d n o s').
Proof.
  intros (H & L & T) Hr. destruct (h' !! r) as [c|] eqn:E.
  - apply H in E as [E|(d' & n' & o' & s' & _ & -> & E)]; rewrite Hr in E; [by injection E as <-; exists s|]. injection E as -> -> -> ->. by exists true.
  - apply lookup_ge_None in E. apply lookup_lt_Some in Hr. lia.
Qed.

Lemma seals_on_private h h' n c : seals_on h h' → private h n c → private h' n c.
Proof.
  intros Hs [Hc H]. split; [done|]. destruct (1 <? n).
  - destruct H as (d & o & s & H). destruct (seals_on_tx h h' c d (n - 1) o s Hs H) as [s' ?]. by exists d, o, s'.
  - destruct H as (s & H). destruct Hs as (Hs & L & _). destruct (h' !! c) as [x|] eqn:E.
    + apply Hs in E as [E|(d & m & o & z & _ & _ & E)]; rewrite H in E; [|done]. injection E as <-. by exists s.
    + apply lookup_ge_None in E. apply lookup_lt_Some in H. lia.
Qed.

Lemma seals_on_branches h h' : seals_on h h' → branches h → branches h'.
Proof.
  intros Hs Hb r d n o s Hr H.
  assert (∃ s0, h !! r = Some (CTx d n o s0)) as [s0 H0].
  { apply Hs in H as [H|(d' & n' & o' & s' & _ & [= -> -> -> ->] & H)]; eauto. }
  destruct (Hb r d n o s0 Hr H0) as [Ho Hk]. split; [done|]. intros k c E. specialize (Hk k c E).
  case_bool_decide; [by eapply seals_on_private|done].
Qed.

Lemma sealed_below_on fuel : ∀ h h' r, seals_on h h' → sealed_below fuel h r → sealed_below fuel h' r.
Proof.
  induction fuel as [|fuel IH]; intros h h' r Hs; [done|]. intros (d & n & o & H & Hr & Hk).
  exists d, n, o. split_and!; [by apply Hs|done|]. intros Hn k c Hin E. by eapply IH; [|eapply Hk].
Qed.

Lemma seal_cell h r d n o s : (base <= r)%nat → h !! r = Some (CTx d n o s) →
  seals_on h (<[r := CTx d n o true]> h).
Proof.
  intros Hr H. split_and!; [|by rewrite length_insert|].
  - intros l c [[-> ->]|[Hne Hl]]%lookup_insert_cell; [right; eauto 10|by left].
  - intros l d' n' o' Hl. destruct (decide (l = r)) as [->|]; [|by rewrite list_lookup_insert_ne].
    rewrite H in Hl. injection Hl as -> -> -> ->. apply list_lookup_insert_eq. by eapply lookup_lt_Some.
Qed.

(** Sealing succeeds with a level of fuel per level of the transaction. *)
Lemma tx_seal_spec fuel : ∀ h r d n o s, branches h → (base <= r)%nat → h !! r = Some (CTx d n o s) →
  n <= Z.of_nat (S fuel) → ∃ h', tx_seal (S fuel) r h = (Ok tt, h') ∧ seals_on h h' ∧ sealed_below (S fuel) h' r.
Proof.
  induction fuel as [|fuel IH]; intros h r d n o s Hb Hr H Hn.
  all: cbn [tx_seal]; rewrite bind_deref, H, bind_lift; cbn [as_tx]; destruct (Z.ltb_spec 1 n) as [H1|H1].
  - lia.
  - exists (<[r := CTx d n o true]> h). rewrite (bind_ok (mret tt) _ h tt h) by done.
    rewrite bind_deref, H, bind_lift. cbn [as_tx]. split_and!; [done|by eapply seal_cell|].
    exists d, n, o. split_and!; [|done|lia]. apply list_lookup_insert_eq. by eapply lookup_lt_Some.
  - set (body := λ key : string, _ : M store unit).
    assert (∀ l h1, seals_on h h1 → (∀ k, k ∈ l → k ∈ o) → ∃ h', for_each l body h1 = (Ok tt, h') ∧ seals_on h1 h' ∧
      ∀ k c, k ∈ l → d !! k = Some c → sealed_below (S fuel) h' c) as Hloop.
    { induction l as [|k l IHl]; intros h1 Hs1 Hl; [exists h1; split_and!; [done|apply seals_on_refl|by intros ? ? ?%elem_of_nil]|].
      destruct (seals_on_tx h h1 r d n o s Hs1 H) as [s1 E1].
      pose proof (seals_on_branches h h1 Hs1 Hb) as Hb1. destruct (Hb1 r d n o s1 Hr E1) as [Ho Hk].
      destruct (Ho k (Hl k (list_elem_of_here _ _))) as [c Hc]. specialize (Hk k c Hc).
      rewrite bool_decide_eq_true_2 in Hk by (apply Hl; by left). destruct Hk as [Hcb Hk].
      rewrite (proj2 (Z.ltb_lt 1 n)) in Hk by done. destruct Hk as (d' & o' & s' & Ec).
      destruct (IH h1 c d' (n - 1) o' s' Hb1 Hcb Ec ltac:(lia)) as (h2 & R2 & Hs2 & Hd2).
      destruct (IHl h2) as (h3 & R3 & Hs3 & Hd3); [by eapply seals_on_trans|intros; apply Hl; by right|].
      exists h3. cbn [for_each]. rewrite (bind_ok (body k) _ h1 tt h2).
      2:{ unfold body. rewrite bind_deref, E1, bind_lift. cbn [as_tx]. by rewrite Hc. }
      split_and!; [done|by eapply seals_on_trans|]. intros k' c' [->|Hk']%elem_of_cons E'; [|by eapply Hd3].
      rewrite Hc in E'. injection E' as <-. by eapply sealed_below_on. }
    destruct (Hloop o h (seals_on_refl h) (λ _ p, p)) as (h1 & R1 & Hs1 & Hd1).
    destruct (seals_on_tx h h1 r d n o s Hs1 H) as [s1 E1].
    pose proof (seal_cell h1 r d n o s1 Hr E1) as Hs2.
    exists (<[r := CTx d n o true]> h1). rewrite (bind_ok _ _ _ _ _ R1). rewrite bind_deref, E1, bind_lift. cbn [as_tx].
    split_and!; [done|by eapply seals_on_trans|].
    exists d, n, o. split_and!; [apply list_lookup_insert_eq; by eapply lookup_lt_Some|done|].
    intros _ k c Hk Hc. by eapply sealed_below_on; [|eapply Hd1].
  - exists (<[r := CTx d n o true]> h). rewrite (bind_ok (mret tt) _ h tt h) by done.
    rewrite bind_deref, H, bind_lift. cbn [as_tx]. split_and!; [done|by eapply seal_cell|].
    exists d, n, o. split_and!; [|done|lia]. apply list_lookup_insert_eq. by eapply lookup_lt_Some.
Qed.

(** What a reader of the sealed transaction can reach. *)
Definition readable (h : store) (r : ref) : Prop :=
  (r < base)%nat ∨ (∃ fuel, sealed_below fuel h r) ∨ ∃ s, h !! r = Some (CSamples s).

Lemma follow_readable h path : branches h → (∀ l, (l < base)%nat → h !! l = h0 !! l) → ∀ r r',
  readable h r → follow h r path = Some r' → readable h r'.
Proof.
  intros Hb Hold. induction path as [|key path IH]; intros r r' Hr; [by intros [= <-]|]. cbn [follow].
  destruct (h !! r) as [c|] eqn:Hc; [|done]. cbn. destruct (data_of c !! key) as [x|] eqn:Hx; [|done]. cbn.
  apply IH. destruct Hr as [Hr|[[fuel Hr]|[s Hr]]].
  - left. rewrite Hold in Hc by done. by eapply Hpub.
  - destruct fuel as [|fuel]; [done|]. destruct Hr as (d & n & o & E & Hbase & Hk). rewrite Hc in E. injection E as ->.
    cbn in Hx. destruct (Hb r d n o true Hbase Hc) as [_ Hkid]. specialize (Hkid key x Hx).
    case_bool_decide as Hin; [|by left]. right. destruct Hkid as [_ Hp]. destruct (Z.ltb_spec 1 n).
    + left. exists fuel. by eapply Hk.
    + by right.
  - rewrite Hr in Hc. by injection Hc as <-.
Qed.

Lemma readable_sealed h r d n o s : (∀ l, (l < base)%nat → h !! l = h0 !! l) →
  readable h r → h !! r = Some (CTx d n o s) → s = true.
Proof.
  intros Hold [Hr|[[fuel Hr]|[x Hr]]] H.
  - rewrite Hold in H by done. by destruct (Hpub r _ H).
  - destruct fuel; [done|]. destruct Hr as (? & ? & ? & E & _). congruence.
  - congruence.
Qed.

(** A sealed transaction answers without writing. *)
Lemma sealed_reads h r d n o key value : h !! r = Some (CTx d n o true) →
  (tx_get r key h).2 = h ∧ (tx_setdefault r key value h).2 = h ∧
  tx_set r key value h = (Raise (TypeError "published repository is immutable"), h).
Proof.
  intros H.
  assert (tx_set r key value h = (Raise (TypeError "published repository is immutable"), h)) as Hset.
  { unfold tx_set. by rewrite bind_deref, H, bind_lift. }
  assert ((tx_get r key h).2 = h) as Hget.
  { unfold tx_get. rewrite bind_deref, H, bind_lift. cbn [as_tx negb andb]. by destruct (d !! key). }
  split_and!; [done| |done]. unfold tx_setdefault. rewrite bind_deref, H, bind_lift. cbn [as_tx].
  destruct (d !! key); [done|]. by rewrite (bind_raise _ _ _ _ _ Hset).
Qed.
End transaction.

(** Published evidence stays published.  A writer opens a transaction over
    a published repository, reads, stores plain containers and appends samples
    through it and through every branch it is handed, in any order; none of the
    containers that existed before changes.  Sealing the transaction then
    succeeds, and whatever a reader reaches from it along any path of keys, each
    transaction on the way is sealed: it refuses writes and answers reads without
    touching the store. *)
Theorem published_stays_published {V} (of_key : string → V) h0 src depth root h1 ops :
  published h0 → 1 <= depth → tx_new src depth h0 = (Ok root, h1) →
  let h := (foldl (writer_step of_key) (h1, [root]) ops).1 in
  (∀ l, (l < length h0)%nat → h !! l = h0 !! l) ∧
  ∃ h', tx_seal (Z.to_nat depth) root h = (Ok tt, h') ∧ (∀ l, (l < length h0)%nat → h' !! l = h0 !! l) ∧
    ∀ path r d n o s, follow h' root path = Some r → h' !! r = Some (CTx d n o s) → s = true ∧
      ∀ key value, (tx_get of_key r key h').2 = h' ∧ (tx_setdefault of_key r key value h').2 = h' ∧
        tx_set of_key r key value h' = (Raise (TypeError "published repository is immutable"), h').
Proof.
  intros Hpub Hd Hnew h.
  assert (writer_inv h0 root depth (h1, [root])) as Hinv.
  { assert (writer_ok h0 h0) as Hok.
    { split; [done|intros r d n o s Hr H|intros r d Hr H]; apply lookup_lt_Some in H; lia. }
    assert (branch of_key src (depth + 1) h0 = (Ok root, h1)) as Hb.
    { unfold branch. rewrite (proj2 (Z.ltb_lt _ _)) by lia. by replace (depth + 1 - 1) with depth by lia. }
    assert (plain h0 h0 src) as Hp.
    { destruct (decide (src < length h0)%nat); [by left|right]. by rewrite lookup_ge_None_2 by lia. }
    apply (branch_spec of_key h0 Hpub h0 src (depth + 1) (Ok root) h1 Hok (le_n _) Hp) in Hb as (-> & H1 & H2 & c & ->).
    split_and!; cbn; [done|rewrite length_app; lia|by repeat constructor|done]. }
  assert (writer_inv h0 root depth (foldl (writer_step of_key) (h1, [root]) ops)) as (Hok & Hlen & _ & Hroot).
  { revert Hinv. generalize (h1, [root]). induction ops as [|op ops IH]; [done|]. intros hw Hw. by apply IH, writer_step_inv. }
  fold h in Hok, Hlen, Hroot. split; [apply Hok|].
  assert (branches h0 h) as Hb.
  { intros r d n o s Hr H. by destruct (wo_tx h0 h Hok r d n o s Hr H) as (_ & ? & ?). }
  destruct Hroot as [Hr H]. rewrite (proj2 (Z.ltb_lt _ _)) in H by lia. destruct H as (d & o & s & H).
  destruct (Z.to_nat depth) as [|fuel] eqn:Ef; [lia|].
  destruct (tx_seal_spec h0 fuel h root d _ o s Hb Hr H ltac:(lia)) as (h' & Hseal & Hs & Hbelow).
  assert (∀ l, (l < length h0)%nat → h' !! l = h0 !! l) as Hold.
  { intros l Hl. rewrite <- (wo_old h0 h Hok l Hl). destruct Hs as (Hs & L & _).
    destruct (h' !! l) as [c|] eqn:E; [apply Hs in E as [E|(? & ? & ? & ? & ? & _)]; [done|lia]|].
    symmetry. apply lookup_ge_None. apply lookup_ge_None in E. lia. }
  exists h'. split_and!; [done|done|]. intros path r d' n' o' s' Hpath Hcell.
  assert (s' = true) as ->.
  { eapply (readable_sealed h0 Hpub); [done| |done].
    eapply (follow_readable h0 Hpub); [by eapply seals_on_branches|done| |done]. right. left. by eexists. }
  split; [done|]. intros key value. by eapply sealed_reads.
Qed.

(** A repository with one target that has one sample. *)
Definition demo_published : list (cell Z) := [CDict [("repo", 1%nat)]; CDict [("target", 2%nat)]; CList [7]].
Definition demo_key (k : string) : Z := Z.of_nat (String.length k).
Definition demo_ops : list (@tx_op Z) :=
  [WGet 3 "repo"; WGet 4 "target"; WAppend 5 8%Z; WAlloc (Some []); WSetDefault 4 "other" 6; WAppend 7 9%Z]%nat.

Lemma demo_published_ok : published demo_published.
Proof.
  assert (∀ (k0 : string) (r0 : nat) k r, ([(k0, r0)] : dict string nat) !! k = Some r → r = r0) as Hone.
  { intros k0 r0 k r. rewrite lookup_dict_cons. case_decide; [by intros [= <-]|done]. }
  intros [|[|[|l]]] c H; [injection H as <-..|by apply lookup_lt_Some in H; simpl in H; lia];
    (split; [|done]); intros k r Hk; [apply Hone in Hk as ->; simpl; lia..|done].
Qed.

Lemma published_stays_published_witness :
  let h := (foldl (writer_step demo_key) ((tx_new 0%nat 2 demo_published).2, [3%nat]) demo_ops).1 in
  h !! 2%nat = Some (CList [7]) ∧ h !! 5%nat = Some (CSamples (chunked_of [7; 8])) ∧
  ∃ h', tx_seal 2 3 h = (Ok tt, h') ∧ h' !! 2%nat = Some (CList [7]).
Proof.
  intros h.
  destruct (published_stays_published demo_key demo_published 0 2 3 (tx_new 0%nat 2 demo_published).2 demo_ops
    demo_published_ok ltac:(lia) eq_refl) as (Hold & h' & Hs & Hold' & _).
  split_and!; [exact (Hold 2%nat ltac:(simpl; lia))|vm_compute; reflexivity|].
  exists h'. split; [exact Hs|exact (Hold' 2%nat ltac:(simpl; lia))].
Defined.
