(* ===== verification/SparseCopy.v ===== *)
(** * Sparse copies and digests (src/clawbox/experiments/snapshot_scheduling.py)

    [_copy_measured] copies the data extents of a snapshot file and leaves its
    holes alone; [_digest] hashes the size, the offsets and the bytes of the
    extents.  Both walk the file with SEEK_DATA and SEEK_HOLE.  A file is the list
    of its bytes, [None] inside a hole; the answers of lseek(2) and the lengths of
    short reads and writes are parameters, with their documented behaviour as
    hypotheses. *)
From S2P Require Import Prelude.

Notation byte := Z (only parsing).
Notation file := (list (option Z)) (only parsing).

(** What a reader sees: a hole reads as zeros. *)
Definition bytes_of (f : file) : list byte := default 0 <$> f.
Definition fsize (f : file) : Z := Z.of_nat (length f).

(** The file ends inside a hole. *)
Definition ends_in_hole (f : file) : Prop := last f = Some None.

Definition chunk_limit : Z := 4 * 1024 * 1024.

Section sparse.
Context (seek_data seek_hole : file → Z → outcome Z) (read_len write_len : Z → Z → Z).

(** [os.lseek(fd, offset, SEEK_DATA)], the offset itself on an [OSError] *)
Definition next_data (f : file) (offset : Z) : Z :=
  match seek_data f offset with Ok d => d | Raise _ => offset end.
(** [min(size, os.lseek(fd, data, SEEK_HOLE))], the size on an [OSError] *)
Definition next_hole (f : file) (data : Z) : Z :=
  match seek_hole f data with Ok h => Z.min (fsize f) h | Raise _ => fsize f end.

(** [os.read(fd, n)] at [pos]: at least one byte unless the file has ended. *)
Definition os_read (f : file) (pos n : Z) : list byte :=
  take (Z.to_nat (Z.min n (read_len pos n))) (drop (Z.to_nat pos) (bytes_of f)).

(** The bytes of a file from [pos] on replaced by [chunk]. *)
Definition write_at (t : file) (pos : Z) (chunk : list byte) : file :=
  take (Z.to_nat pos) t ++ (Some <$> chunk) ++ drop (Z.to_nat pos + length chunk) t.

(** [while view: written = os.write(fd, view); view = view[written:]] *)
Fixpoint write_all (fuel : nat) (t : file) (pos : Z) (view : list byte) : file :=
  match fuel, view with
  | O, _ | _, [] => t
  | S fuel', _ =>
      let n := Z.to_nat (write_len pos (Z.of_nat (length view))) in
      write_all fuel' (write_at t pos (take n view)) (pos + Z.of_nat n) (drop n view)
  end.

(** [while remaining: ...]: the extent from [pos] on. *)
Fixpoint copy_range (fuel : nat) (f t : file) (pos remaining copied : Z) : outcome (file * Z) :=
  match fuel with
  | O => Ok (t, copied)
  | S fuel' =>
      if remaining =? 0 then Ok (t, copied)
      else
        match os_read f pos (Z.min chunk_limit remaining) with
        | [] => Raise (RuntimeError "short read while copying")
        | chunk =>
            let n := Z.of_nat (length chunk) in
            copy_range fuel' f (write_all (length chunk) t pos chunk) (pos + n) (remaining - n) (copied + n)
        end
  end.

(** [while offset < size: ...]; [None] when [fuel] turns were not enough. *)
Fixpoint copy_loop (fuel : nat) (f t : file) (offset copied : Z) : option (outcome (file * Z)) :=
  match fuel with
  | O => None
  | S fuel' =>
      if offset <? fsize f then
        let data := next_data f offset in
        if fsize f <=? data then Some (Ok (t, copied))
        else
          let hole := next_hole f data in
          match copy_range (Z.to_nat (hole - data)) f t data (hole - data) copied with
          | Raise e => Some (Raise e)
          | Ok (t', copied') => copy_loop fuel' f t' hole copied'
          end
      else Some (Ok (t, copied))
  end.

(** [_copy_measured]: the new file and the bytes copied. *)
Definition copy_measured (fuel : nat) (f : file) : option (outcome (file * Z)) :=
  copy_loop fuel f (replicate (length f) None) 0 0.

(** [n.to_bytes(8, 'big')] *)
Definition to_bytes8 (n : Z) : list byte :=
  (λ i, Z.land (Z.shiftr n (8 * i)) 255) <$> [7; 6; 5; 4; 3; 2; 1; 0].

(** The bytes of an extent as [_digest] reads them. *)
Fixpoint hash_range (fuel : nat) (f : file) (pos remaining : Z) : outcome (list byte) :=
  match fuel with
  | O => Ok []
  | S fuel' =>
      if remaining =? 0 then Ok []
      else
        match os_read f pos (Z.min chunk_limit remaining) with
        | [] => Raise (RuntimeError "short read while hashing")
        | chunk =>
            let n := Z.of_nat (length chunk) in
            rest ← hash_range fuel' f (pos + n) (remaining - n);
            Ok (chunk ++ rest)
        end
  end.

Fixpoint hash_loop (fuel : nat) (f : file) (offset : Z) : option (outcome (list byte)) :=
  match fuel with
  | O => None
  | S fuel' =>
      if offset <? fsize f then
        let data := next_data f offset in
        if fsize f <=? data then Some (Ok [])
        else
          let hole := next_hole f data in
          match hash_range (Z.to_nat (hole - data)) f data (hole - data) with
          | Raise e => Some (Raise e)
          | Ok chunk =>
              match hash_loop fuel' f hole with
              | Some (Ok rest) => Some (Ok (to_bytes8 data ++ chunk ++ rest))
              | r => r
              end
          end
      else Some (Ok [])
  end.

(** [_digest]: what is hashed. *)
Definition digest_input (fuel : nat) (f : file) : option (outcome (list byte)) :=
  match hash_loop fuel f 0 with
  | Some (Ok rest) => Some (Ok (to_bytes8 (fsize f) ++ rest))
  | r => r
  end.

(** ** What lseek(2), read(2) and write(2) promise *)

Definition data_at (f : file) (p : Z) : Prop := ∃ b, f !! Z.to_nat p = Some (Some b).
Definition hole_at (f : file) (p : Z) : Prop := f !! Z.to_nat p = Some None.

(** SEEK_DATA finds the next data, or fails when only a hole is left. *)
Context (seek_data_law : ∀ f off, 0 <= off < fsize f →
  match seek_data f off with
  | Ok d => off <= d < fsize f ∧ data_at f d ∧ ∀ p, off <= p < d → hole_at f p
  | Raise _ => ∀ p, off <= p < fsize f → hole_at f p
  end).
(** SEEK_HOLE finds the next hole, the end of the file being one. *)
Context (seek_hole_law : ∀ f off, 0 <= off < fsize f →
  ∃ h, seek_hole f off = Ok h ∧ off <= h <= fsize f ∧
    (∀ p, off <= p < h → data_at f p) ∧ (h < fsize f → hole_at f h)).
Context (read_law : ∀ pos n, 0 < n → 0 < read_len pos n).
Context (write_law : ∀ pos n, 0 < n → 0 < write_len pos n <= n).

(** ** The copy *)

(** The target once the source is copied up to [k]. *)
Definition copied_to (f : file) (k : nat) : file := take k f ++ replicate (length f - k) None.

Lemma copied_all f : copied_to f (length f) = f.
Proof. unfold copied_to. by rewrite Nat.sub_diag, firstn_all, app_nil_r. Qed.

Lemma copied_none f : copied_to f 0 = replicate (length f) None.
Proof. unfold copied_to. by rewrite Nat.sub_0_r. Qed.

Lemma copied_step f k : f !! k = Some None → copied_to f (S k) = copied_to f k.
Proof.
  intros Hk. unfold copied_to. rewrite (take_S_r _ _ None Hk), <- app_assoc. f_equal.
  apply lookup_lt_Some in Hk. by replace (length f - k)%nat with (S (length f - S k)) by lia.
Qed.

Lemma copied_holes f k m : (∀ i, (k <= i < k + m)%nat → f !! i = Some None) → copied_to f (k + m) = copied_to f k.
Proof.
  induction m as [|m IH]; intros Hm; [by rewrite Nat.add_0_r|].
  replace (k + S m)%nat with (S (k + m)) by lia. rewrite copied_step by (apply Hm; lia).
  apply IH. intros i Hi. apply Hm. lia.
Qed.

(** The bytes of a data range are what [Some] was stripped from. *)
Lemma data_bytes_some f k m :
  (∀ i, (k <= i < k + m)%nat → ∃ b, f !! i = Some (Some b)) →
  Some <$> take m (drop k (bytes_of f)) = take m (drop k f).
Proof.
  intros Hm. apply list_eq. intros i. unfold bytes_of.
  rewrite list_lookup_fmap. destruct (decide (i < m)%nat) as [Hi|].
  - rewrite !lookup_take_lt by done. rewrite !lookup_drop, list_lookup_fmap.
    destruct (Hm (k + i)%nat) as [b ->]; [lia|done].
  - rewrite !lookup_take_ge by lia. done.
Qed.

Lemma write_at_copied f k m :
  (k + m <= length f)%nat → (∀ i, (k <= i < k + m)%nat → ∃ b, f !! i = Some (Some b)) →
  write_at (copied_to f k) (Z.of_nat k) (take m (drop k (bytes_of f))) = copied_to f (k + m).
Proof.
  intros Hl Hm. unfold write_at. rewrite Nat2Z.id, data_bytes_some by done.
  rewrite length_take, length_drop. unfold bytes_of. rewrite length_fmap, Nat.min_l by lia.
  unfold copied_to. rewrite take_app_le by (rewrite length_take; lia).
  rewrite take_take, Nat.min_id, drop_app_ge by (rewrite length_take; lia).
  rewrite length_take, Nat.min_l by lia. rewrite drop_replicate, <- take_take_drop, <- app_assoc.
  by replace (length f - k - (k + m - k))%nat with (length f - (k + m))%nat by lia.
Qed.

Lemma write_all_copied f fuel : ∀ k m,
  (m <= fuel)%nat → (k + m <= length f)%nat → (∀ i, (k <= i < k + m)%nat → ∃ b, f !! i = Some (Some b)) →
  write_all fuel (copied_to f k) (Z.of_nat k) (take m (drop k (bytes_of f))) = copied_to f (k + m).
Proof.
  assert (∀ k, length (drop k (bytes_of f)) = (length f - k)%nat) as Hlen.
  { intros k. unfold bytes_of. by rewrite length_drop, length_fmap. }
  induction fuel as [|fuel IH]; intros k m Hf Hl Hm; simpl.
  { replace m with 0%nat by lia. by rewrite Nat.add_0_r. }
  destruct (take m (drop k (bytes_of f))) as [|b view] eqn:Ev.
  - apply (f_equal length) in Ev. rewrite length_take, Hlen in Ev. simpl in Ev.
    replace m with 0%nat by lia. by rewrite Nat.add_0_r.
  - assert (length (b :: view) = m) as Hv by (rewrite <- Ev, length_take, Hlen; lia).
    rewrite Hv. rewrite <- Ev. assert (0 < m)%nat by (simpl in Hv; lia).
    destruct (write_law (Z.of_nat k) (Z.of_nat m)) as [Hw1 Hw2]; [lia|].
    set (n := Z.to_nat (write_len (Z.of_nat k) (Z.of_nat m))). assert (0 < n <= m)%nat by lia.
    rewrite take_take, Nat.min_l by lia. rewrite write_at_copied; [|lia|intros i Hi; apply Hm; lia].
    rewrite skipn_firstn_comm, drop_drop, <- Nat2Z.inj_add.
    rewrite IH; [f_equal; lia|lia|lia|intros i Hi; apply Hm; lia].
Qed.

(** The bytes from [k] to [k + m] are data. *)
Definition data_range (f : file) (k m : nat) : Prop :=
  ∀ i, (k <= i < k + m)%nat → ∃ b, f !! i = Some (Some b).

Lemma data_range_length f k m : data_range f k m → (0 < m)%nat → (k + m <= length f)%nat.
Proof.
  intros Hm Hp. destruct (Hm (k + m - 1)%nat) as [b Hb%lookup_lt_Some]; lia.
Qed.

Lemma os_read_some f k r :
  (0 < r)%nat → (k + r <= length f)%nat →
  ∃ m, (0 < m <= r)%nat ∧
    os_read f (Z.of_nat k) (Z.min chunk_limit (Z.of_nat r)) = take m (drop k (bytes_of f)) ∧
    length (take m (drop k (bytes_of f))) = m.
Proof.
  intros Hr Hl. set (n := Z.min chunk_limit (Z.of_nat r)). assert (0 < n) by (unfold n, chunk_limit; lia).
  pose proof (read_law (Z.of_nat k) n H) as Hrl.
  exists (Z.to_nat (Z.min n (read_len (Z.of_nat k) n))). split; [unfold n in *; lia|].
  unfold os_read. rewrite Nat2Z.id. split; [done|].
  unfold bytes_of. rewrite length_take, length_drop, length_fmap. unfold n in *. lia.
Qed.

Lemma copy_range_data f fuel : ∀ k r copied,
  (r <= fuel)%nat → data_range f k r →
  copy_range fuel f (copied_to f k) (Z.of_nat k) (Z.of_nat r) copied =
    Ok (copied_to f (k + r), copied + Z.of_nat r).
Proof.
  induction fuel as [|fuel IH]; intros k r copied Hf Hd; cbn [copy_range].
  { replace r with 0%nat by lia. by rewrite Nat.add_0_r, Z.add_0_r. }
  destruct (Z.eqb_spec (Z.of_nat r) 0) as [Hr|Hr].
  { replace r with 0%nat by lia. by rewrite Nat.add_0_r, Z.add_0_r. }
  pose proof (data_range_length f k r Hd ltac:(lia)) as Hl.
  destruct (os_read_some f k r) as (m & Hm & Er & Elen); [lia|done|]. rewrite Er.
  destruct (take m (drop k (bytes_of f))) as [|b view] eqn:Ev; [simpl in Elen; lia|].
  rewrite Elen, <- Ev, write_all_copied; [|lia|lia|intros i Hi; apply Hd; lia].
  replace (Z.of_nat k + Z.of_nat m) with (Z.of_nat (k + m)) by lia.
  replace (Z.of_nat r - Z.of_nat m) with (Z.of_nat (r - m)) by lia.
  rewrite IH; [|lia|intros i Hi; apply Hd; lia].
  replace (k + m + (r - m))%nat with (k + r)%nat by lia. do 2 f_equal. lia.
Qed.

Lemma hash_range_data f fuel : ∀ k r,
  (r <= fuel)%nat → data_range f k r →
  hash_range fuel f (Z.of_nat k) (Z.of_nat r) = Ok (take r (drop k (bytes_of f))).
Proof.
  induction fuel as [|fuel IH]; intros k r Hf Hd; cbn [hash_range].
  { by replace r with 0%nat by lia. }
  destruct (Z.eqb_spec (Z.of_nat r) 0) as [Hr|Hr]; [by replace r with 0%nat by lia|].
  pose proof (data_range_length f k r Hd ltac:(lia)) as Hl.
  destruct (os_read_some f k r) as (m & Hm & Er & Elen); [lia|done|]. rewrite Er.
  destruct (take m (drop k (bytes_of f))) as [|b view] eqn:Ev; [simpl in Elen; lia|].
  rewrite Elen. replace (Z.of_nat k + Z.of_nat m) with (Z.of_nat (k + m)) by lia.
  replace (Z.of_nat r - Z.of_nat m) with (Z.of_nat (r - m)) by lia.
  rewrite IH; [|lia|intros i Hi; apply Hd; lia]. rewrite <- Ev. cbn [mbind outcome_bind]. f_equal.
  rewrite <- (drop_drop (bytes_of f) m k), take_take_drop. f_equal. lia.
Qed.

(** One turn of either loop. *)
Inductive extent (f : file) (k : nat) : Prop :=
  | NextExtent (d m : nat) (_ : (k <= d)%nat) (_ : (0 < m)%nat) (_ : data_range f d m)
      (_ : ∀ i, (k <= i < d)%nat → f !! i = Some None)
      (_ : next_data f (Z.of_nat k) = Z.of_nat d) (_ : next_hole f (Z.of_nat d) = Z.of_nat (d + m))
      (_ : (d + m < length f)%nat → f !! (d + m)%nat = Some None)
  | TrailingHole (_ : ∀ i, (k <= i < length f)%nat → f !! i = Some None)
      (_ : next_data f (Z.of_nat k) = Z.of_nat k) (_ : next_hole f (Z.of_nat k) = Z.of_nat k).

Lemma next_extent f k : (k < length f)%nat → extent f k.
Proof.
  intros Hk. assert (0 <= Z.of_nat k < fsize f) as Hr by (unfold fsize; lia).
  pose proof (seek_data_law f _ Hr) as Hd.
  destruct (seek_data f (Z.of_nat k)) as [d|e] eqn:Ed.
  - destruct Hd as (Hd1 & Hd2 & Hd3). destruct (seek_hole_law f d) as (h & Eh & Hh1 & Hh2 & Hh3); [lia|].
    assert (h ≠ d) as Hne.
    { intros ->. destruct Hd2 as [b Hb]. specialize (Hh3 ltac:(lia)). unfold hole_at in Hh3. congruence. }
    apply (NextExtent f k (Z.to_nat d) (Z.to_nat (h - d))); [lia|lia|..].
    + intros i Hi. destruct (Hh2 (Z.of_nat i)) as [b Hb]; [lia|]. rewrite Nat2Z.id in Hb. by exists b.
    + intros i Hi. specialize (Hd3 (Z.of_nat i)). unfold hole_at in Hd3. rewrite Nat2Z.id in Hd3. apply Hd3. lia.
    + unfold next_data. rewrite Ed. lia.
    + unfold next_hole. rewrite Z2Nat.id, Eh by lia. lia.
    + intros Hl. replace (Z.to_nat d + Z.to_nat (h - d))%nat with (Z.to_nat h) in * by lia.
      apply Hh3. unfold fsize. lia.
  - assert (∀ i, (k <= i < length f)%nat → f !! i = Some None) as Hholes.
    { intros i Hi. specialize (Hd (Z.of_nat i)). unfold hole_at in Hd. rewrite Nat2Z.id in Hd.
      apply Hd. unfold fsize. lia. }
    apply TrailingHole; [done|by unfold next_data; rewrite Ed|].
    destruct (seek_hole_law f (Z.of_nat k) Hr) as (h & Eh & Hh1 & Hh2 & _). unfold next_hole. rewrite Eh.
    destruct (decide (h = Z.of_nat k)) as [->|Hne]; [lia|].
    destruct (Hh2 (Z.of_nat k)) as [b Hb]; [lia|]. rewrite Nat2Z.id, Hholes in Hb by lia. done.
Qed.

(** The bytes that are data. *)
Definition data_count (f : file) : Z := zsum ((λ b : option byte, if b then 1 else 0) <$> f).

Lemma data_count_holes f k m :
  (∀ i, (k <= i < k + m)%nat → f !! i = Some None) → data_count (take (k + m) f) = data_count (take k f).
Proof.
  induction m as [|m IH]; intros Hm; [by rewrite Nat.add_0_r|].
  replace (k + S m)%nat with (S (k + m)) by lia. rewrite (take_S_r _ _ None) by (apply Hm; lia).
  unfold data_count in *. rewrite fmap_app, zsum_app. rewrite IH by (intros i Hi; apply Hm; lia). cbn. lia.
Qed.

Lemma data_count_data f k m : data_range f k m → data_count (take (k + m) f) = data_count (take k f) + Z.of_nat m.
Proof.
  induction m as [|m IH]; intros Hm; [rewrite Nat.add_0_r; lia|].
  replace (k + S m)%nat with (S (k + m)) by lia. destruct (Hm (k + m)%nat) as [b Hb]; [lia|].
  rewrite (take_S_r _ _ _ Hb). unfold data_count in *. rewrite fmap_app, zsum_app.
  rewrite IH by (intros i Hi; apply Hm; lia). cbn. lia.
Qed.

Lemma last_is_lookup f : ends_in_hole f ↔ (0 < length f)%nat ∧ f !! (length f - 1)%nat = Some None.
Proof.
  unfold ends_in_hole. rewrite last_lookup. destruct f as [|b f]; simpl.
  - split; [done|]. intros [? _]. lia.
  - rewrite Nat.sub_0_r. split; [by split; [lia|]|by intros [_ ?]].
Qed.

Lemma copy_loop_complete f fuel : ¬ ends_in_hole f → ∀ k,
  (k <= length f)%nat → (length f - k < fuel)%nat →
  copy_loop fuel f (copied_to f k) (Z.of_nat k) (data_count (take k f)) = Some (Ok (f, data_count f)).
Proof.
  intros He. induction fuel as [|fuel IH]; intros k Hk Hf; [lia|]. cbn [copy_loop].
  destruct (Z.ltb_spec (Z.of_nat k) (fsize f)) as [Hlt|Hge]; unfold fsize in *.
  2: { replace k with (length f) by lia. by rewrite copied_all, firstn_all. }
  destruct (next_extent f k ltac:(lia)) as [d m H1 H2 H3 H4 H5 H6 _|H4 _ _].
  - pose proof (data_range_length f d m H3 H2) as Hl. rewrite H5, H6.
    destruct (Z.leb_spec (Z.of_nat (length f)) (Z.of_nat d)); [lia|].
    replace (Z.of_nat (d + m) - Z.of_nat d) with (Z.of_nat m) by lia. rewrite Nat2Z.id.
    replace d with (k + (d - k))%nat in * by lia. rewrite <- (copied_holes f k (d - k)).
    2: { intros i Hi. apply H4. lia. }
    rewrite copy_range_data by done. rewrite <- (data_count_holes f k (d - k)), <- data_count_data by (done || (intros i Hi; apply H4; lia)).
    apply IH; lia.
  - destruct He. apply last_is_lookup. split; [lia|]. apply H4. lia.
Qed.

Lemma hash_loop_complete f fuel : ¬ ends_in_hole f → ∀ k,
  (k <= length f)%nat → (length f - k < fuel)%nat → ∃ input, hash_loop fuel f (Z.of_nat k) = Some (Ok input).
Proof.
  intros He. induction fuel as [|fuel IH]; intros k Hk Hf; [lia|]. cbn [hash_loop].
  destruct (Z.ltb_spec (Z.of_nat k) (fsize f)) as [Hlt|Hge]; unfold fsize in *; [|by eexists].
  destruct (next_extent f k ltac:(lia)) as [d m H1 H2 H3 H4 H5 H6 _|H4 _ _].
  - pose proof (data_range_length f d m H3 H2) as Hl. rewrite H5, H6.
    destruct (Z.leb_spec (Z.of_nat (length f)) (Z.of_nat d)); [lia|].
    replace (Z.of_nat (d + m) - Z.of_nat d) with (Z.of_nat m) by lia. rewrite Nat2Z.id.
    rewrite hash_range_data by done. destruct (IH (d + m)%nat) as [rest ->]; [lia..|]. by eexists.
  - destruct He. apply last_is_lookup. split; [lia|]. apply H4. lia.
Qed.

(** A trailing hole is never left. *)
Lemma loops_diverge f fuel : ends_in_hole f → ∀ k t copied,
  (k < length f)%nat → t = copied_to f k →
  copy_loop fuel f t (Z.of_nat k) copied = None ∧ hash_loop fuel f (Z.of_nat k) = None.
Proof.
  intros [Hp He]%last_is_lookup. induction fuel as [|fuel IH]; intros k t copied Hk ->; [done|].
  cbn [copy_loop hash_loop]. destruct (Z.ltb_spec (Z.of_nat k) (fsize f)) as [Hlt|Hge]; unfold fsize in *; [|lia].
  destruct (next_extent f k Hk) as [d m H1 H2 H3 H4 H5 H6 H7|H4 H5 H6]; rewrite H5, H6.
  - pose proof (data_range_length f d m H3 H2) as Hl.
    destruct (Z.leb_spec (Z.of_nat (length f)) (Z.of_nat d)); [lia|].
    replace (Z.of_nat (d + m) - Z.of_nat d) with (Z.of_nat m) by lia. rewrite Nat2Z.id.
    replace (copied_to f k) with (copied_to f d).
    2: { replace d with (k + (d - k))%nat by lia. apply copied_holes. intros i Hi. apply H4. lia. }
    rewrite copy_range_data, hash_range_data by done.
    assert (d + m < length f)%nat as Hlt'.
    { destruct (decide (d + m = length f)%nat) as [Heq|]; [|lia].
      destruct (H3 (length f - 1)%nat) as [b Hb]; [lia|]. congruence. }
    destruct (IH (d + m)%nat (copied_to f (d + m)) (copied + Z.of_nat m) Hlt' eq_refl) as [-> ->]. done.
  - destruct (Z.leb_spec (Z.of_nat (length f)) (Z.of_nat k)); [lia|].
    rewrite Z.sub_diag. change (Z.to_nat 0) with 0%nat. cbn [copy_range hash_range].
    destruct (IH k (copied_to f k) copied Hk eq_refl) as [-> ->]. done.
Qed.

(** C39: a sparse copy is the file, and it ends exactly when the file does not
    end in a hole.  With more turns than bytes, [_copy_measured] returns a file
    equal to the source, holes included, and counts its data bytes, however short
    the kernel's reads and writes are, and [_digest] returns; on a file that ends
    inside a hole both loop for ever. *)
Theorem sparse_copy_refines f :
  (¬ ends_in_hole f → ∀ fuel, (length f < fuel)%nat →
     copy_measured fuel f = Some (Ok (f, data_count f)) ∧
     ∃ input, digest_input fuel f = Some (Ok input)) ∧
  (ends_in_hole f → ∀ fuel, copy_measured fuel f = None ∧ digest_input fuel f = None).
Proof.
  split.
  - intros He fuel Hf. split.
    { unfold copy_measured. rewrite <- copied_none. apply (copy_loop_complete f fuel He 0); lia. }
    destruct (hash_loop_complete f fuel He 0) as [input E]; [lia..|].
    unfold digest_input. change 0 with (Z.of_nat 0). rewrite E. by eexists.
  - intros He fuel. pose proof (proj1 (last_is_lookup f) He) as [Hp _].
    destruct (loops_diverge f fuel He 0 (copied_to f 0) 0 Hp eq_refl) as [H1 H2].
    unfold copy_measured, digest_input. change (Z.of_nat 0) with 0 in H2. rewrite H2.
    rewrite <- copied_none. split; [exact H1|done].
Qed.
End sparse.

(** ** A kernel that obeys the laws *)

(** The index of the first entry from [off] on that satisfies [p]. *)
Fixpoint find_from (p : option Z → bool) (off : nat) (f : file) (i : nat) : option nat :=
  match f with
  | [] => None
  | b :: f' => if (off <=? i)%nat && p b then Some i else find_from p off f' (S i)
  end.
Definition is_data (b : option Z) : bool := if b then true else false.
Definition linux_seek_data (f : file) (off : Z) : outcome Z :=
  match find_from is_data (Z.to_nat off) f 0 with Some d => Ok (Z.of_nat d) | None => Raise (OSError "ENXIO") end.
Definition linux_seek_hole (f : file) (off : Z) : outcome Z :=
  match find_from (λ b, negb (is_data b)) (Z.to_nat off) f 0 with
  | Some h => Ok (Z.of_nat h) | None => Ok (fsize f) end.

Lemma find_from_spec p off f : ∀ i,
  match find_from p off f i with
  | Some j => (off <= j)%nat ∧ (i <= j)%nat ∧ (∃ b, f !! (j - i)%nat = Some b ∧ p b = true) ∧
      ∀ n b, (off <= n)%nat → (i <= n < j)%nat → f !! (n - i)%nat = Some b → p b = false
  | None => ∀ n b, (off <= n)%nat → (i <= n)%nat → f !! (n - i)%nat = Some b → p b = false
  end.
Proof.
  induction f as [|b f IH]; intros i; simpl; [by intros n b Hn Hi E|].
  destruct ((off <=? i)%nat && p b) eqn:E.
  - apply andb_prop in E as [E1%Nat.leb_le E2]. split_and!; [done|done| |intros; lia].
    exists b. by rewrite Nat.sub_diag.
  - assert (∀ c, (off <= i)%nat → (b :: f) !! (i - i)%nat = Some c → p c = false) as Hb.
    { rewrite Nat.sub_diag. intros c Ho%Nat.leb_le [= <-]. by rewrite Ho in E. }
    specialize (IH (S i)). destruct (find_from p off f (S i)) as [j|].
    + destruct IH as (H1 & H2 & (c & Hc & Hp) & H4). split_and!; [done|lia|..].
      * exists c. replace (j - i)%nat with (S (j - S i)) by lia. done.
      * intros n d Hn Hi Hd. destruct (decide (n = i)) as [->|]; [by apply Hb|].
        apply (H4 n d); [done|lia|]. by replace (n - i)%nat with (S (n - S i)) in Hd by lia.
    + intros n d Hn Hi Hd. destruct (decide (n = i)) as [->|]; [by apply Hb|].
      apply (IH n d); [done|lia|]. by replace (n - i)%nat with (S (n - S i)) in Hd by lia.
Qed.

Lemma linux_seek_data_law f off : 0 <= off < fsize f →
  match linux_seek_data f off with
  | Ok d => off <= d < fsize f ∧ data_at f d ∧ ∀ p, off <= p < d → hole_at f p
  | Raise _ => ∀ p, off <= p < fsize f → hole_at f p
  end.
Proof.
  intros Ho. unfold linux_seek_data, hole_at, data_at, fsize in *.
  assert (∀ p, off <= p < Z.of_nat (length f) →
    (∀ b, f !! Z.to_nat p = Some b → is_data b = false) → f !! Z.to_nat p = Some None) as Hno.
  { intros p Hp Hb. destruct (lookup_lt_is_Some_2 f (Z.to_nat p)) as [b Eb]; [lia|].
    specialize (Hb b Eb). by destruct b. }
  pose proof (find_from_spec is_data (Z.to_nat off) f 0) as Hf.
  destruct (find_from is_data (Z.to_nat off) f 0) as [d|].
  - destruct Hf as (H1 & _ & (b & Hb & Hp) & H4). rewrite Nat.sub_0_r in Hb.
    pose proof (lookup_lt_Some _ _ _ Hb). split_and!; [lia|lia|..].
    + rewrite Nat2Z.id. destruct b as [x|]; [by exists x|done].
    + intros p Hr. apply Hno; [lia|]. intros c Hc. apply (H4 (Z.to_nat p)); [lia|lia|by rewrite Nat.sub_0_r].
  - intros p Hr. apply Hno; [lia|]. intros c Hc. apply (Hf (Z.to_nat p)); [lia|lia|by rewrite Nat.sub_0_r].
Qed.

Lemma linux_seek_hole_law f off : 0 <= off < fsize f →
  ∃ h, linux_seek_hole f off = Ok h ∧ off <= h <= fsize f ∧
    (∀ p, off <= p < h → data_at f p) ∧ (h < fsize f → hole_at f h).
Proof.
  intros Ho. unfold linux_seek_hole, hole_at, data_at, fsize in *.
  assert (∀ p, off <= p < Z.of_nat (length f) →
    (∀ b, f !! Z.to_nat p = Some b → negb (is_data b) = false) → ∃ b, f !! Z.to_nat p = Some (Some b)) as Hyes.
  { intros p Hp Hb. destruct (lookup_lt_is_Some_2 f (Z.to_nat p)) as [b Eb]; [lia|].
    specialize (Hb b Eb). destruct b as [x|]; [by exists x|done]. }
  pose proof (find_from_spec (λ b, negb (is_data b)) (Z.to_nat off) f 0) as Hf.
  destruct (find_from (λ b, negb (is_data b)) (Z.to_nat off) f 0) as [h|]; eexists; split; [done|..|done|].
  - destruct Hf as (H1 & _ & (b & Hb & Hp) & H4). rewrite Nat.sub_0_r in Hb.
    pose proof (lookup_lt_Some _ _ _ Hb). split_and!; [lia|lia|..].
    + intros p Hr. apply Hyes; [lia|]. intros c Hc. apply (H4 (Z.to_nat p)); [lia|lia|by rewrite Nat.sub_0_r].
    + intros _. rewrite Nat2Z.id. by destruct b.
  - split_and!; [lia|lia|..|lia]. intros p Hr. apply Hyes; [lia|]. intros c Hc.
    apply (Hf (Z.to_nat p)); [lia|lia|by rewrite Nat.sub_0_r].
Qed.

(** Ten bytes with a hole in the middle, read and written three at a time. *)
Definition demo_file : file :=
  [Some 1; Some 2; Some 3; Some 4; None; None; None; Some 5; Some 6; Some 7].

Lemma sparse_copy_refines_witness :
  (copy_measured linux_seek_data linux_seek_hole (λ _ _, 3) (λ _ n, Z.min n 2) 11 demo_file =
     Some (Ok (demo_file, 7)) ∧
   ∃ input, digest_input linux_seek_data linux_seek_hole (λ _ _, 3) 11 demo_file = Some (Ok input)) ∧
  ∀ fuel, copy_measured linux_seek_data linux_seek_hole (λ _ _, 3) (λ _ n, Z.min n 2) fuel (demo_file ++ [None]) = None ∧
    digest_input linux_seek_data linux_seek_hole (λ _ _, 3) fuel (demo_file ++ [None]) = None.
Proof.
  assert (∀ f, _) as H by exact (sparse_copy_refines linux_seek_data linux_seek_hole (λ _ _, 3) (λ _ n, Z.min n 2)
    linux_seek_data_law linux_seek_hole_law ltac:(lia) ltac:(lia)).
  split.
  - apply (H demo_file); [by intros [=]|simpl; lia].
  - apply (H (demo_file ++ [None])). done.
Defined.
