(* ===== verification/SnapshotCompression.v ===== *)
(** * Compressed RAM snapshots (src/clawbox/cube/snapshot_compression.py)

    A snapshot owns a RAM file and layer files, some of them hard links of one
    another.  [compress_snapshot] packs every exclusively owned inode into a
    container, writes a manifest and unlinks the originals; [decompress_snapshot]
    brings them back.  The disk maps names to inodes; every system call may fail,
    be interrupted, or leave a torn file, as an arbitrary [world] says.  The zstd
    tool is a parameter.  A path is named by how the code builds it from the
    snapshot's path; the content of a JSON file is the value [json.loads] gives. *)
From S2P Require Import Prelude Dict.

(** ** Paths and contents *)

Inductive layer := Ram | Layer (name : string).
#[export] Instance layer_eq_dec : EqDecision layer.
Proof. solve_decision. Defined.

Inductive path :=
  | Own (p : layer)               (** the snapshot and its [.layers] *)
  | Sidecar                       (** [.lineage.json] *)
  | Elsewhere (name : string)
  | Manifest | ManifestTmp        (** [.zstd-pages.json] *)
  | Container (i : nat) | ContainerTmp (i : nat)
  | Decompressing (p : layer).
#[export] Instance path_eq_dec : EqDecision path.
Proof. solve_decision. Defined.

Definition layer_code (p : layer) : option string := match p with Ram => None | Layer n => Some n end.
Definition layer_of (c : option string) : layer := match c with None => Ram | Some n => Layer n end.
Definition path_code (p : path) : nat * (option string * nat) :=
  match p with
  | Own p => (0, (layer_code p, 0)) | Sidecar => (1, (None, 0)) | Elsewhere n => (2, (Some n, 0))
  | Manifest => (3, (None, 0)) | ManifestTmp => (4, (None, 0)) | Container i => (5, (None, i)) | ContainerTmp i => (6, (None, i))
  | Decompressing p => (7, (layer_code p, 0))
  end%nat.
Definition path_of (c : nat * (option string * nat)) : path :=
  match c with
  | (0, (n, _)) => Own (layer_of n) | (1, _) => Sidecar | (2, (Some n, _)) => Elsewhere n | (3, _) => Manifest
  | (4, _) => ManifestTmp | (5, (_, i)) => Container i | (6, (_, i)) => ContainerTmp i | (_, (n, _)) => Decompressing (layer_of n)
  end%nat.
#[export] Instance path_countable : Countable path.
Proof. refine (inj_countable' path_code path_of _). by intros [[]| | | | | | |[]]. Defined.

(** The JSON a run of the tool prints. *)
Record metrics := Metrics {
  input_allocated_bytes : Z; chunk_size : Z; hole_chunks : Z; zstd_chunks : Z; chunk_count : Z;
  logical_bytes : Z; index_bytes : Z; payload_bytes : Z; wall_seconds : Q; cpu_seconds : Q; peak_rss_kib : Z;
}.

#[export] Instance Q_eq_dec : EqDecision Q.
Proof. solve_decision. Defined.
#[export] Instance metrics_eq_dec : EqDecision metrics.
Proof. solve_decision. Defined.

(** An entry of [groups] in the manifest. *)
Record record := Rec { paths : list layer; mode : Z; container : nat; rec_metrics : metrics }.
#[export] Instance record_eq_dec : EqDecision record.
Proof. solve_decision. Defined.

(** The metrics of a compressed snapshot; those of the second half are added
    once the manifest is on disk. *)
Record aggregate := Aggregate {
  group_count : Z; shared_allocated_bytes_skipped : Z; baseline_allocated_bytes : Z; compressed_container_allocated_bytes : Z;
  total_hole_chunks : Z; total_zstd_chunks : Z; total_chunk_count : Z; total_logical_bytes : Z; total_index_bytes : Z;
  total_payload_bytes : Z; compress_wall_seconds : Q; compress_cpu_seconds : Q; compress_peak_rss_kib : Z; agg_chunk_size : Z;
  sizes : option (Z * Z * Z);     (** manifest, compressed and saved bytes *)
}.
Record document := Document { groups : list record; doc_metrics : aggregate }.

Inductive content := Bytes (data : string) | Doc (d : document) | Lineage (layers : list (string * bool)).

(** ** The disk *)

Record disk := Disk {
  names : gmap path nat;
  inodes : gmap nat (content * Z);
  container_dir : bool;
  fresh : nat;
  ticks : nat;
  records : list record;           (** [records] of the running [compress_snapshot] *)
}.

Inductive call := Stat | Read | Write | Replace | Link | Unlink | Mkdir | Rmtree | Chmod | Spawn.
#[export] Instance call_eq_dec : EqDecision call.
Proof. solve_decision. Defined.
Inductive operation := Compress | Decompress.

(** How the system calls of a run turn out, by their number: failures, what a
    failed write leaves, the entries [rmtree] cannot remove. *)
Record world := World {
  fault : call → nat → option exn;
  torn : nat → option content;
  kept : nat → path → bool;
}.
Definition quiet_world : world := World (λ _ _, None) (λ _, None) (λ _ _, false).

Definition with_names (ns : gmap path nat) (s : disk) : disk :=
  Disk ns (inodes s) (container_dir s) (fresh s) (ticks s) (records s).
Definition with_dir (b : bool) (s : disk) : disk := Disk (names s) (inodes s) b (fresh s) (ticks s) (records s).
Definition with_records (rs : list record) (s : disk) : disk :=
  Disk (names s) (inodes s) (container_dir s) (fresh s) (ticks s) rs.
Definition tick (s : disk) : disk := Disk (names s) (inodes s) (container_dir s) (fresh s) (S (ticks s)) (records s).

Definition file (s : disk) (p : path) : option (content * Z) := names s !! p ≫= λ i, inodes s !! i.

(** Writing a name: in place, or a new inode. *)
Definition created_mode : Z := 420.
Definition store (p : path) (c : content) (s : disk) : disk :=
  match names s !! p with
  | Some i => Disk (names s) (<[i := (c, from_option snd created_mode (inodes s !! i))]> (inodes s)) (container_dir s)
                (fresh s) (ticks s) (records s)
  | None => Disk (<[p := fresh s]> (names s)) (<[fresh s := (c, created_mode)]> (inodes s)) (container_dir s)
              (S (fresh s)) (ticks s) (records s)
  end.
(** Names of the container directory. *)
Definition inside (p : path) : bool := match p with Container _ | ContainerTmp _ => true | _ => false end.

(** [st_nlink] *)
Definition nlink (s : disk) (i : nat) : nat := size (filter (λ kv : path * nat, kv.2 = i) (names s)).

Section program.
Context (tool : operation → content → option content * outcome metrics) (allocated : content → Z) (w : world).

Definition sys (c : call) : M disk unit := λ s,
  (match fault w c (ticks s) with Some e => Raise e | None => Ok tt end, tick s).
Definition exists_ (p : path) : M disk bool := gets (λ s, bool_decide (is_Some (names s !! p))).
Definition stat (p : path) : M disk (nat * content * Z) :=
  sys Stat ;; s ← get;
  match names s !! p ≫= λ i, pair i <$> inodes s !! i with
  | Some (i, (c, m)) => mret (i, c, m)
  | None => raise (OSError "ENOENT")
  end.
Definition read_text (p : path) : M disk content :=
  sys Read ;; s ← get;
  match file s p with Some (c, _) => mret c | None => raise (OSError "ENOENT") end.

(** A call that writes [p]: a failed one may leave a torn file. *)
Definition writing (c : call) (p : path) (m : M disk unit) : M disk unit := λ s,
  match fault w c (ticks s) with
  | Some e => (Raise e, match torn w (ticks s) with Some junk => store p junk (tick s) | None => tick s end)
  | None => m (tick s)
  end.
Definition write_text (p : path) (c : content) : M disk unit := writing Write p (modify (store p c)).
Definition replace (a b : path) : M disk unit :=
  sys Replace ;; s ← get;
  match names s !! a with
  | None => raise (OSError "ENOENT")
  | Some i => put (with_names (<[b := i]> (delete a (names s))) s)
  end.
Definition link (a b : path) : M disk unit :=
  sys Link ;; s ← get;
  match names s !! a, names s !! b with
  | Some i, None => put (with_names (<[b := i]> (names s)) s)
  | _, _ => raise (OSError "EEXIST or ENOENT")
  end.
(** [unlink(missing_ok=True)] *)
Definition unlink (p : path) : M disk unit := sys Unlink ;; modify (λ s, with_names (delete p (names s)) s).
Definition mkdir_containers : M disk unit :=
  sys Mkdir ;; s ← get; raise_if (container_dir s) (OSError "EEXIST") ;; put (with_dir true s).
Definition chmod (p : path) (m : Z) : M disk unit :=
  sys Chmod ;; s ← get;
  match names s !! p with
  | None => raise (OSError "ENOENT")
  | Some i => put (Disk (names s) (alter (λ x : content * Z, (x.1, m)) i (inodes s)) (container_dir s) (fresh s) (ticks s) (records s))
  end.
(** [rmtree(ignore_errors=True)] of the container directory; only an interrupt
    gets through. *)
Definition rmtree : M disk unit := λ s,
  let gone p := inside p && negb (kept w (ticks s) p) in
  let ns := filter (λ kv : path * nat, gone kv.1 = false) (names s) in
  let s' := with_dir (bool_decide (map_Exists (λ p _, inside p = true) ns)) (with_names ns (tick s)) in
  (match fault w Rmtree (ticks s) with
   | Some e => if is_exception e then Ok tt else Raise e
   | None => Ok tt end, s').

(** [_run]: the tool reads [source] and writes [destination]. *)
Definition spawn (op : operation) (source destination : path) : M disk metrics :=
  s ← get;
  let '(out, res) := match file s source with
                     | Some (c, _) => tool op c
                     | None => (None, Raise (RuntimeError "snapshot operation failed"))
                     end in
  writing Spawn destination (match out with Some c => modify (store destination c) | None => mret tt end) ;;
  lift res.

Definition atomic_json (c : content) : M disk unit := write_text ManifestTmp c ;; replace ManifestTmp Manifest.

(** ** Compression *)

(** [list(dict.fromkeys(l))] *)
Definition fromkeys {A} `{EqDecision A} (l : list A) : list A :=
  foldl (λ acc x, if bool_decide (x ∈ acc) then acc else acc ++ [x]) [] l.

#[global] Arguments fromkeys : simpl never.

(** The snapshot and the layers that are not external. *)
Definition candidates : M disk (list layer) :=
  b ← exists_ Sidecar;
  if b : bool then
    c ← read_text Sidecar;
    match c with
    | Lineage layers => mret (Ram :: (Layer ∘ fst <$> filter (λ l, l.2 = false) layers))
    | _ => raise (KeyError "layers")
    end
  else mret [Ram].

(** [groups.setdefault(inode, []).append(path)] *)
Fixpoint group_paths (ps : list layer) (gs : dict nat (list layer)) : M disk (dict nat (list layer)) :=
  match ps with
  | [] => mret gs
  | p :: ps' =>
      b ← exists_ (Own p);
      if b : bool then
        x ← stat (Own p);
        let i := x.1.1 in
        group_paths ps' (<[i := default [] (gs !! i) ++ [p]]> gs)
      else group_paths ps' gs
  end.

(** Only groups no name outside the snapshot refers to are safe. *)
Fixpoint safe_groups (gs : list (list layer)) (safe : list (list layer)) (skipped : Z) : M disk (list (list layer) * Z) :=
  match gs with
  | [] => mret (safe, skipped)
  | ps :: gs' =>
      let unique := fromkeys ps in
      match unique with
      | [] => raise IndexError
      | p :: _ =>
          '(i, c, _) ← stat (Own p);
          s ← get;
          if bool_decide (length unique < nlink s i)%nat
          then sys Stat ;; safe_groups gs' safe (skipped + allocated c)
          else safe_groups gs' (safe ++ [unique]) skipped
      end
  end.
Definition owned_groups : M disk (list (list layer) * Z) :=
  ps ← candidates;
  gs ← group_paths ps ∅;
  safe_groups (vals gs) [] 0.

(** The loop that packs every group into a container. *)
Fixpoint pack_groups (index : nat) (gs : list (list layer)) : M disk unit :=
  match gs with
  | [] => mret tt
  | ps :: gs' =>
      match ps with
      | [] => raise IndexError
      | source :: _ =>
          m ← spawn Compress (Own source) (ContainerTmp index);
          replace (ContainerTmp index) (Container index) ;;
          x ← stat (Own source);
          modify (λ s, with_records (records s ++ [Rec ps (Z.land x.2 511) index m]) s) ;;
          pack_groups (S index) gs'
      end
  end.

Fixpoint allocated_of (cs : list nat) (sum : Z) : M disk Z :=
  match cs with
  | [] => mret sum
  | c :: cs' => '(_, content, _) ← stat (Container c); allocated_of cs' (sum + allocated content)
  end.

Definition qsum (l : list Q) : Q := foldr Qplus 0%Q l.
Definition total (f : metrics → Z) (rs : list record) : Z := zsum (f ∘ rec_metrics <$> rs).
Definition aggregate_of (rs : list record) (skipped containers : Z) : aggregate :=
  Aggregate (Z.of_nat (length rs)) skipped (total input_allocated_bytes rs) containers
    (total hole_chunks rs) (total zstd_chunks rs) (total chunk_count rs) (total logical_bytes rs) (total index_bytes rs)
    (total payload_bytes rs) (qsum (wall_seconds ∘ rec_metrics <$> rs)) (qsum (cpu_seconds ∘ rec_metrics <$> rs))
    (foldr Z.max 0 (peak_rss_kib ∘ rec_metrics <$> rs)) (from_option (chunk_size ∘ rec_metrics) 0 (head rs)) None.
Definition with_sizes (manifest : Z) (a : aggregate) : aggregate :=
  let compressed := compressed_container_allocated_bytes a + manifest in
  Aggregate (group_count a) (shared_allocated_bytes_skipped a) (baseline_allocated_bytes a) (compressed_container_allocated_bytes a)
    (total_hole_chunks a) (total_zstd_chunks a) (total_chunk_count a) (total_logical_bytes a) (total_index_bytes a)
    (total_payload_bytes a) (compress_wall_seconds a) (compress_cpu_seconds a) (compress_peak_rss_kib a) (agg_chunk_size a)
    (Some (manifest, compressed, baseline_allocated_bytes a - compressed)).

(** The [try] up to the manifest; no original is touched before it is on disk. *)
Definition pack (gs : list (list layer)) (skipped : Z) : M disk aggregate :=
  pack_groups 0 gs ;;
  s ← get;
  containers ← allocated_of (container <$> records s) 0;
  let agg := aggregate_of (records s) skipped containers in
  atomic_json (Doc (Document (records s) agg)) ;;
  x ← stat Manifest;
  let agg := with_sizes (allocated x.1.2) agg in
  atomic_json (Doc (Document (records s) agg)) ;;
  mret agg.

(** [for record in records: for raw in record["paths"]: unlink] *)
Definition unlink_originals : M disk unit :=
  s ← get;
  for_each (records s) (λ r, for_each (paths r) (λ p, unlink (Own p))).

(** The handler of the [try]. *)
Definition discard (e : exn) : M disk aggregate :=
  s ← get;
  for_each (records s) (λ r, unlink (Container (container r))) ;;
  rmtree ;;
  unlink Manifest ;;
  raise e.

Definition compress_snapshot : M disk aggregate :=
  b ← exists_ Manifest;
  if b : bool then
    c ← read_text Manifest;
    match c with Doc d => mret (doc_metrics d) | _ => raise (KeyError "metrics") end
  else
    '(gs, skipped) ← owned_groups;
    raise_if (bool_decide (gs = [])) (RuntimeError "snapshot has no exclusively owned RAM layer to compress") ;;
    mkdir_containers ;;
    modify (with_records []) ;;
    try_exception (agg ← pack gs skipped; unlink_originals ;; mret agg) discard.

(** ** Decompression *)

(** One record of the manifest: the first path comes back from the container. *)
Definition unpack (r : record) (canonical : layer) : M disk metrics :=
  sys Mkdir ;;
  unlink (Decompressing canonical) ;;
  m ← spawn Decompress (Container (container r)) (Decompressing canonical);
  chmod (Decompressing canonical) (mode r) ;;
  mret m.
Definition restore_canonical (r : record) (canonical : layer) : M disk (list metrics) :=
  b ← exists_ (Own canonical);
  if b : bool then mret []
  else m ← unpack r canonical; replace (Decompressing canonical) (Own canonical) ;; mret [m].
Definition restore_alias (canonical alias : layer) : M disk unit :=
  b ← exists_ (Own alias);
  if b : bool then mret tt else sys Mkdir ;; link (Own canonical) (Own alias).
(** [path.exists() and os.path.samefile(canonical, path)] *)
Definition same_file (s : disk) (p q : path) : bool := bool_decide (is_Some (names s !! p) ∧ names s !! p = names s !! q).
Definition restore_record (r : record) : M disk (list metrics) :=
  match paths r with
  | [] => raise IndexError
  | canonical :: aliases =>
      ms ← restore_canonical r canonical;
      for_each aliases (restore_alias canonical) ;;
      s ← get;
      raise_if (negb (forallb (λ p, same_file s (Own p) (Own canonical)) (paths r)))
        (RuntimeError "snapshot decompression did not restore hardlink identity") ;;
      mret ms
  end.
Fixpoint restore_records (rs : list record) : M disk (list metrics) :=
  match rs with
  | [] => mret []
  | r :: rs' => ms ← restore_record r; ms' ← restore_records rs'; mret (ms ++ ms')
  end.

(** The containers and the manifest go once every record is back. *)
Definition drop_containers (d : document) : M disk unit :=
  for_each (groups d) (λ r, unlink (Container (container r))) ;; rmtree ;; unlink Manifest.

Definition decompress_snapshot : M disk (option (aggregate * list metrics)) :=
  b ← exists_ Manifest;
  if b : bool then
    c ← read_text Manifest;
    match c with
    | Doc d => ms ← restore_records (groups d); drop_containers d ;; mret (Some (doc_metrics d, ms))
    | _ => raise (KeyError "groups")
    end
  else mret None.

Definition remove_compressed_snapshot : M disk unit :=
  b ← exists_ Manifest;
  (if b : bool then
     c ← read_text Manifest;
     match c with
     | Doc d => for_each (groups d) (λ r, unlink (Container (container r)))
     | _ => raise (KeyError "groups")
     end
   else mret tt) ;;
  rmtree ;; unlink Manifest.
End program.

(** ** Names and inodes *)

Definition user (p : path) : bool := match p with Own _ | Sidecar | Elsewhere _ => true | _ => false end.

(** Names point to inodes; only names of the user share one; modes are
    permission bits. *)
Record disk_ok (s : disk) : Prop := {
  ok_bound : ∀ p i, names s !! p = Some i → (i < fresh s)%nat ∧ is_Some (inodes s !! i);
  ok_shared : ∀ p q i, names s !! p = Some i → names s !! q = Some i → p ≠ q → user p = true ∧ user q = true;
  ok_mode : ∀ i c m, inodes s !! i = Some (c, m) → Z.land m 511 = m;
}.

(** [s'] differs from [s] in the names of [P] only, and those have inodes of
    their own. *)
Record touches (P : path → bool) (s s' : disk) : Prop := {
  to_ok : disk_ok s';
  to_fresh : (fresh s <= fresh s')%nat;
  to_outside : ∀ q, P q = false → names s' !! q = names s !! q ∧ ∀ i, names s !! q = Some i → inodes s' !! i = inodes s !! i;
  to_inside : ∀ q i, P q = true → names s' !! q = Some i → (fresh s <= i)%nat ∨ ∃ p, P p = true ∧ names s !! p = Some i;
}.

Lemma touches_refl P s : disk_ok s → touches P s s.
Proof. intros Hs. split; [done|lia|done|]. intros q i Hq Hi. right. by exists q. Qed.

Lemma touches_trans P s1 s2 s3 : touches P s1 s2 → touches P s2 s3 → touches P s1 s3.
Proof.
  intros [A1 A2 A3 A4] [B1 B2 B3 B4]. split; [done|lia|..].
  - intros q Hq. destruct (A3 q Hq) as [E1 E2]. destruct (B3 q Hq) as [E3 E4]. split; [congruence|].
    intros i Hi. rewrite E4 by congruence. by apply E2.
  - intros q i Hq [Hi|(p & Hp & Hi)]%B4; [left; lia| |done]. by apply A4 in Hi.
Qed.

Lemma touches_weaken (P Q : path → bool) s s' : (∀ p, P p = true → Q p = true) → touches P s s' → touches Q s s'.
Proof.
  intros HPQ [A1 A2 A3 A4]. split; [done..| |].
  - intros q Hq. apply A3. apply not_true_iff_false. intros E%HPQ. congruence.
  - intros q i Hq Hi. destruct (P q) eqn:E.
    + destruct (A4 q i E Hi) as [?|(p & ? & ?)]; [by left|right; exists p; auto].
    + right. exists q. split; [done|]. by rewrite <- (proj1 (A3 q E)).
Qed.

(** A file of an untouched name. *)
Lemma touches_file P s s' p : touches P s s' → P p = false → file s' p = file s p.
Proof.
  intros [_ _ A3 _] Hp. destruct (A3 p Hp) as [E1 E2]. unfold file. rewrite E1.
  destruct (names s !! p) as [i|] eqn:E; [|done]. cbn. by apply E2.
Qed.

(** ** What the system calls touch *)

Definition only (p : path) : path → bool := λ q, bool_decide (q = p).
Definition both (p p' : path) : path → bool := λ q, bool_decide (q = p ∨ q = p').
Lemma only_true p q : only p q = true ↔ q = p.
Proof. apply bool_decide_eq_true. Qed.
Lemma both_true p p' q : both p p' q = true ↔ q = p ∨ q = p'.
Proof. apply bool_decide_eq_true. Qed.

Lemma same_disk s s' : names s' = names s → inodes s' = inodes s → fresh s' = fresh s → disk_ok s → disk_ok s'.
Proof. intros E1 E2 E3 [H1 H2 H3]. split; rewrite ?E1, ?E2, ?E3; done. Qed.

Lemma same_touches P s s' : names s' = names s → inodes s' = inodes s → fresh s' = fresh s → disk_ok s → touches P s s'.
Proof.
  intros E1 E2 E3 Hs. split; [by eapply same_disk|lia|..].
  - intros q _. by rewrite E1, E2.
  - intros q i Hq. rewrite E1. intros Hi. right. by exists q.
Qed.

Lemma store_touches p c s : disk_ok s → user p = false → touches (only p) s (store p c s).
Proof.
  intros Hs Hp. destruct Hs as [H1 H2 H3]. unfold store. destruct (names s !! p) as [i|] eqn:Ei.
  - assert (∀ q j, q ≠ p → names s !! q = Some j → j ≠ i) as Hne.
    { intros q j Hq Hj ->. destruct (H2 q p i) as [_ ?]; [done..|congruence]. }
    split; cbn; [split; cbn|lia|..].
    + intros q j Hj. split; [by eapply H1|]. destruct (decide (j = i)) as [->|]; [rewrite lookup_insert_eq; by eexists|].
      rewrite lookup_insert_ne by done. by eapply H1.
    + done.
    + intros j c' m. destruct (decide (j = i)) as [->|]; [rewrite lookup_insert_eq|rewrite lookup_insert_ne by done; apply H3].
      intros [= <- <-]. destruct (inodes s !! i) as [[c0 m0]|] eqn:E; [by eapply H3|done].
    + intros q ?%bool_decide_eq_false. split; [done|]. intros j Hj. by rewrite lookup_insert_ne by (by apply not_eq_sym, (Hne q)).
    + intros q j ->%bool_decide_eq_true Hj. right. exists p. by rewrite only_true.
  - assert (∀ q j, names s !! q = Some j → j ≠ fresh s) as Hne by (intros q j Hj; apply H1 in Hj as [? _]; lia).
    split; cbn; [split; cbn|lia|..].
    + intros q j [[<- <-]|[Hq Hj]]%lookup_insert_Some; [split; [lia|]; rewrite lookup_insert_eq; by eexists|].
      pose proof (Hne q j Hj). destruct (H1 q j Hj) as [? ?]. split; [lia|]. by rewrite lookup_insert_ne.
    + intros q1 q2 j [[<- <-]|[Hq1 Hj1]]%lookup_insert_Some [[E1 E2]|[Hq2 Hj2]]%lookup_insert_Some; [done| | |by eapply H2].
      * by apply Hne in Hj2.
      * subst. by apply Hne in Hj1.
    + intros j c' m. destruct (decide (j = fresh s)) as [->|]; [rewrite lookup_insert_eq; by intros [= <- <-]|].
      rewrite lookup_insert_ne by done. apply H3.
    + intros q ?%bool_decide_eq_false. rewrite lookup_insert_ne by (by apply not_eq_sym). split; [done|].
      intros j Hj. by rewrite lookup_insert_ne by (by apply not_eq_sym, (Hne q)).
    + intros q j ->%bool_decide_eq_true. rewrite lookup_insert_eq. intros [= <-]. by left.
Qed.

(** Moving a name over another, of which the first is not the user's. *)
Lemma move_touches a b i s : disk_ok s → names s !! a = Some i → user a = false → a ≠ b →
  touches (both a b) s (with_names (<[b := i]> (delete a (names s))) s).
Proof.
  intros Hs Ha Hu Hab. pose proof Hs as [H1 H2 H3].
  assert (∀ q, q ≠ a → names s !! q ≠ Some i) as Hne.
  { intros q Hq Hi. destruct (H2 a q i) as [? _]; [done..|congruence]. }
  split; cbn; [split; cbn; [| |done]|lia|..].
  - intros q j [[<- <-]|[_ [_ Hj]%lookup_delete_Some]]%lookup_insert_Some; [by eapply H1|by eapply H1].
  - intros q1 q2 j [[<- <-]|[Hq1 [Hn1 Hj1]%lookup_delete_Some]]%lookup_insert_Some
      [[E1 E2]|[Hq2 [Hn2 Hj2]%lookup_delete_Some]]%lookup_insert_Some Hq; [done| | |by eapply H2].
    + exfalso. by apply (Hne q2); [apply not_eq_sym|].
    + subst. exfalso. by apply (Hne q1); [apply not_eq_sym|].
  - intros q Hq%not_true_iff_false. rewrite both_true in Hq. split; [|done].
    rewrite lookup_insert_ne by naive_solver. by rewrite lookup_delete_ne by naive_solver.
  - intros q j Hq [[<- <-]|[_ [_ Hj]%lookup_delete_Some]]%lookup_insert_Some; right; [exists a|exists q; done].
    split; [|done]. apply both_true. by left.
Qed.

Lemma remove_touches (P : path → bool) (m : gmap path nat) s : disk_ok s → m ⊆ names s →
  (∀ q, P q = false → m !! q = names s !! q) → touches P s (with_names m s).
Proof.
  intros Hs Hm HP. pose proof Hs as [H1 H2 H3].
  assert (∀ q i, m !! q = Some i → names s !! q = Some i) as Hsub by (intros; by eapply lookup_weaken).
  split; cbn; [split; cbn; [| |done]|lia|..].
  - intros q i Hi%Hsub. by eapply H1.
  - intros p q i Hp%Hsub Hq%Hsub. by eapply H2.
  - intros q Hq. split; [by apply HP|done].
  - intros q i Hq Hi%Hsub. right. by exists q.
Qed.

Lemma unlink_touches p s : disk_ok s → touches (only p) s (with_names (delete p (names s)) s).
Proof.
  intros Hs. apply remove_touches; [done|apply delete_subseteq|].
  intros q ?%bool_decide_eq_false. by rewrite lookup_delete_ne by (by apply not_eq_sym).
Qed.

(** A second name of an inode of the user. *)
Lemma link_touches a b i s : disk_ok s → names s !! a = Some i → names s !! b = None → user a = true → user b = true →
  touches (both a b) s (with_names (<[b := i]> (names s)) s).
Proof.
  intros Hs Ha Hb Hua Hub. pose proof Hs as [H1 H2 H3].
  assert (∀ q, names s !! q = Some i → user q = true) as Hu.
  { intros q Hq. destruct (decide (q = a)) as [->|]; [done|]. by destruct (H2 a q i) as [_ ?]. }
  split; cbn; [split; cbn; [| |done]|lia|..].
  - intros q j [[<- <-]|[_ Hj]]%lookup_insert_Some; by eapply H1.
  - intros q1 q2 j [[<- <-]|[Hq1 Hj1]]%lookup_insert_Some [[E1 E2]|[Hq2 Hj2]]%lookup_insert_Some Hq; [done| | |by eapply H2].
    + split; [done|by apply Hu].
    + subst. split; [by apply Hu|done].
  - intros q Hq%not_true_iff_false. rewrite both_true in Hq. split; [|done]. by rewrite lookup_insert_ne by naive_solver.
  - intros q j Hq [[<- <-]|[_ Hj]]%lookup_insert_Some; right; [exists a|exists q; done].
    split; [|done]. apply both_true. by left.
Qed.

Lemma chmod_touches p i m s : disk_ok s → names s !! p = Some i → user p = false → Z.land m 511 = m →
  touches (only p) s (Disk (names s) (alter (λ x : content * Z, (x.1, m)) i (inodes s)) (container_dir s) (fresh s) (ticks s) (records s)).
Proof.
  intros Hs Hp Hu Hm. pose proof Hs as [H1 H2 H3].
  assert (∀ q, q ≠ p → names s !! q ≠ Some i) as Hne.
  { intros q Hq Hi. destruct (H2 p q i) as [? _]; [done..|congruence]. }
  split; cbn; [split; cbn|lia|..].
  - intros q j Hj. split; [by eapply H1|]. rewrite lookup_alter_is_Some. by eapply H1.
  - done.
  - intros j c m' [(<- & [c0 m0] & Hj & [= <- <-])|[_ Hj]]%lookup_alter_Some; [done|by eapply H3].
  - intros q ?%bool_decide_eq_false. split; [done|]. intros j Hj. rewrite lookup_alter_ne; [done|]. intros <-. by apply (Hne q).
  - intros q j ->%only_true Hj. right. exists p. by rewrite only_true.
Qed.

(** A computation that touches the names of [P] only, however it ends. *)
Definition within {A} (P : path → bool) (m : M disk A) : Prop := ∀ s, disk_ok s → touches P s (m s).2.

Lemma within_ret {A} P (a : A) : within P (mret a).
Proof. intros s Hs. by apply touches_refl. Qed.
Lemma within_raise {A} P e : within P (raise e : M disk A).
Proof. intros s Hs. by apply touches_refl. Qed.
Lemma within_lift {A} P (o : outcome A) : within P (lift o).
Proof. intros s Hs. by apply touches_refl. Qed.
Lemma within_get P : within P get.
Proof. intros s Hs. by apply touches_refl. Qed.
Lemma within_raise_if P b e : within P (raise_if b e).
Proof. intros s Hs. destruct b; by apply touches_refl. Qed.
Lemma within_bind {A B} P (m : M disk A) (k : A → M disk B) : within P m → (∀ a, within P (k a)) → within P (m ≫= k).
Proof.
  intros Hm Hk s Hs. specialize (Hm s Hs). unfold mbind, M_bind. destruct (m s) as [[a|e] s']; [|done].
  eapply touches_trans; [exact Hm|]. apply Hk, Hm.
Qed.
Lemma within_for_each {A} P (l : list A) (body : A → M disk unit) : (∀ a, a ∈ l → within P (body a)) → within P (for_each l body).
Proof.
  induction l as [|a l IH]; intros Hb; [apply within_ret|]. apply within_bind; [apply Hb; by left|].
  intros _. apply IH. intros x Hx. apply Hb. by right.
Qed.
Lemma within_weaken {A} (P Q : path → bool) (m : M disk A) : (∀ p, P p = true → Q p = true) → within P m → within Q m.
Proof. intros HPQ Hm s Hs. by eapply touches_weaken, Hm. Qed.
Lemma within_same {A} P (m : M disk A) :
  (∀ s, names (m s).2 = names s ∧ inodes (m s).2 = inodes s ∧ fresh (m s).2 = fresh s) → within P m.
Proof. intros Hm s Hs. destruct (Hm s) as (? & ? & ?). by apply same_touches. Qed.

Lemma only_impl (P : path → bool) p : P p = true → ∀ q, only p q = true → P q = true.
Proof. by intros Hp q ->%only_true. Qed.
Lemma both_impl (P : path → bool) p p' : P p = true → P p' = true → ∀ q, both p p' q = true → P q = true.
Proof. intros Hp Hp' q Hq. apply both_true in Hq as [-> | ->]; done. Qed.

Section operations.
Context (tool : operation → content → option content * outcome metrics) (allocated : content → Z) (w : world).
Implicit Types (P : path → bool).

Lemma within_sys P c : within P (sys w c).
Proof. by apply within_same. Qed.
Lemma within_exists P p : within P (exists_ p).
Proof. by apply within_same. Qed.
Lemma within_stat P p : within P (stat w p).
Proof.
  apply within_bind; [apply within_sys|]. intros _. apply within_bind; [apply within_get|]. intros s.
  destruct (_ ≫= _) as [[i [c m]]|]; auto using within_ret, within_raise.
Qed.
Lemma within_read P p : within P (read_text w p).
Proof.
  apply within_bind; [apply within_sys|]. intros _. apply within_bind; [apply within_get|]. intros s.
  destruct (file s p) as [[c m]|]; auto using within_ret, within_raise.
Qed.
Lemma tick_ok s : disk_ok s → disk_ok (tick s).
Proof. by apply same_disk. Qed.
Lemma tick_touches P s : disk_ok s → touches P s (tick s).
Proof. by apply same_touches. Qed.
Lemma within_writing P c p m : P p = true → user p = false → within P m → within P (writing w c p m).
Proof.
  intros Hp Hu Hm s Hs. unfold writing. pose proof (tick_touches P s Hs) as Ht. destruct (fault w c (ticks s)) as [e|].
  - destruct (torn w (ticks s)) as [junk|]; [|done]. eapply touches_trans; [exact Ht|].
    eapply touches_weaken; [by apply (only_impl P p)|]. by apply store_touches; [apply tick_ok|].
  - eapply touches_trans; [exact Ht|]. by apply Hm, tick_ok.
Qed.
Lemma within_store P p c : P p = true → user p = false → within P (modify (store p c)).
Proof. intros Hp Hu s Hs. eapply touches_weaken; [by apply (only_impl P p)|]. by apply store_touches. Qed.
Lemma within_write P p c : P p = true → user p = false → within P (write_text w p c).
Proof. intros. apply within_writing; [done..|]. by apply within_store. Qed.
Lemma within_replace P a b : P a = true → P b = true → user a = false → a ≠ b → within P (replace w a b).
Proof.
  intros Ha Hb Hu Hab. apply within_bind; [apply within_sys|]. intros _ s Hs. rewrite bind_get.
  destruct (names s !! a) as [i|] eqn:E; [|by apply touches_refl].
  eapply touches_weaken; [by apply (both_impl P a b)|]. by apply move_touches.
Qed.
Lemma within_link P a b : P a = true → P b = true → user a = true → user b = true → within P (link w a b).
Proof.
  intros Ha Hb Hua Hub. apply within_bind; [apply within_sys|]. intros _ s Hs. rewrite bind_get.
  destruct (names s !! a) as [i|] eqn:E; [|by apply touches_refl]. destruct (names s !! b) eqn:E'; [by apply touches_refl|].
  eapply touches_weaken; [by apply (both_impl P a b)|]. by apply link_touches.
Qed.
Lemma within_unlink P p : P p = true → within P (unlink w p).
Proof.
  intros Hp. apply within_bind; [apply within_sys|]. intros _ s Hs.
  eapply touches_weaken; [by apply (only_impl P p)|]. by apply unlink_touches.
Qed.
Lemma within_mkdir P : within P (mkdir_containers w).
Proof.
  apply within_bind; [apply within_sys|]. intros _ s Hs. rewrite bind_get, bind_raise_if.
  destruct (container_dir s); [by apply touches_refl|]. by apply same_touches.
Qed.
Lemma within_chmod P p m : P p = true → user p = false → Z.land m 511 = m → within P (chmod w p m).
Proof.
  intros Hp Hu Hm. apply within_bind; [apply within_sys|]. intros _ s Hs. rewrite bind_get.
  destruct (names s !! p) as [i|] eqn:E; [|by apply touches_refl].
  eapply touches_weaken; [by apply (only_impl P p)|]. by apply chmod_touches.
Qed.
Lemma within_rmtree P : (∀ p, inside p = true → P p = true) → within P (rmtree w).
Proof.
  intros HP s Hs. unfold rmtree. cbn [snd].
  eapply touches_trans; [apply (tick_touches P s Hs)|].
  eapply touches_trans; [apply (remove_touches P (filter (λ kv : path * nat, inside kv.1 && negb (kept w (ticks s) kv.1) = false) (names s)))|].
  - by apply tick_ok.
  - apply map_filter_subseteq.
  - intros q Hq. destruct (names (tick s) !! q) as [i|] eqn:E.
    + apply map_lookup_filter_Some. split; [done|]. cbn. destruct (inside q) eqn:Ei; [|done]. apply HP in Ei. congruence.
    + apply map_lookup_filter_None. by left.
  - apply same_touches; try done. apply remove_touches with (P := P); [by apply tick_ok|apply map_filter_subseteq|].
    intros q Hq. destruct (names (tick s) !! q) as [i|] eqn:E.
    + apply map_lookup_filter_Some. split; [done|]. cbn. destruct (inside q) eqn:Ei; [|done]. apply HP in Ei. congruence.
    + apply map_lookup_filter_None. by left.
Qed.
Lemma within_spawn P op a b : P b = true → user b = false → within P (spawn tool w op a b).
Proof.
  intros Hb Hu. apply within_bind; [apply within_get|]. intros s.
  destruct (match file s a with Some (c, _) => tool op c | None => _ end) as [out res].
  apply within_bind; [|intros _; apply within_lift]. apply within_writing; [done..|].
  destruct out; [by apply within_store|apply within_ret].
Qed.
Lemma within_records P f : within P (modify (λ s, with_records (f s) s)).
Proof. by apply within_same. Qed.

(** *** What a successful call did *)

Lemma sys_run c s : (sys w c s).2 = tick s ∧ ∀ e, (sys w c s).1 = Raise e → fault w c (ticks s) = Some e.
Proof. split; [done|]. cbn. destruct (fault w c (ticks s)); [|done]. by intros e' [= ->]. Qed.

Lemma file_tick s p : file (tick s) p = file s p.
Proof. done. Qed.

Lemma file_store s p c : ∃ m, file (store p c s) p = Some (c, m).
Proof.
  unfold store, file. destruct (names s !! p) as [i|] eqn:E; cbn; [rewrite E|rewrite lookup_insert_eq];
    cbn; rewrite lookup_insert_eq; by eexists.
Qed.

Lemma write_done p c s s' : disk_ok s → user p = false → write_text w p c s = (Ok tt, s') →
  touches (only p) s s' ∧ ∃ m, file s' p = Some (c, m).
Proof.
  intros Hs Hu. unfold write_text, writing. destruct (fault w Write (ticks s)); [done|]. intros [= <-].
  split; [|apply file_store]. eapply touches_trans; [by apply tick_touches|]. apply store_touches; [by apply tick_ok|done].
Qed.

Lemma replace_done a b s s' : disk_ok s → user a = false → a ≠ b → replace w a b s = (Ok tt, s') →
  touches (both a b) s s' ∧ file s' b = file s a ∧ names s' !! b = names s !! a ∧ names s' !! a = None.
Proof.
  intros Hs Hu Hab. unfold replace, sys, mbind, M_bind. destruct (fault w Replace (ticks s)); [done|]. cbn.
  destruct (names s !! a) as [i|] eqn:E; [|done]. intros [= <-]. split_and!.
  - eapply touches_trans; [by apply tick_touches|]. apply (move_touches a b i (tick s)); [by apply tick_ok|done..].
  - unfold file. cbn. by rewrite lookup_insert_eq, E.
  - cbn. by rewrite lookup_insert_eq.
  - cbn. rewrite lookup_insert_ne by (by apply not_eq_sym). apply lookup_delete_eq.
Qed.

Hypothesis writes : ∀ op x m, tool op x ≠ (None, Ok m).

Lemma spawn_done op a b s s' m : disk_ok s → user b = false → spawn tool w op a b s = (Ok m, s') →
  touches (only b) s s' ∧ ∃ c mc y mb, file s a = Some (c, mc) ∧ tool op c = (Some y, Ok m) ∧ file s' b = Some (y, mb).
Proof.
  intros Hs Hu Hrun. assert (touches (only b) s s') as Ht.
  { change s' with (Ok m, s').2. rewrite <- Hrun. apply within_spawn; [by apply only_true|done|done]. }
  split; [done|]. revert Hrun. unfold spawn. rewrite bind_get. destruct (file s a) as [[c mc]|].
  - destruct (tool op c) as [out res] eqn:E. unfold writing, mbind, M_bind.
    destruct (fault w Spawn (ticks s)); [done|]. destruct out as [y|]; cbn; intros [= Er <-].
    + exists c, mc, y. destruct (file_store (tick s) b y) as [mb Hb]. exists mb. by rewrite <- Er.
    + subst res. by destruct (writes op c m).
  - unfold writing, mbind, M_bind. by destruct (fault w Spawn (ticks s)).
Qed.

Lemma chmod_done p m s s' : disk_ok s → user p = false → Z.land m 511 = m → chmod w p m s = (Ok tt, s') →
  touches (only p) s s' ∧ ∀ c m0, file s p = Some (c, m0) → file s' p = Some (c, m).
Proof.
  intros Hs Hu Hm. unfold chmod, sys, mbind, M_bind. destruct (fault w Chmod (ticks s)); [done|]. cbn.
  destruct (names s !! p) as [i|] eqn:E; [|done]. intros [= <-]. split.
  - eapply touches_trans; [by apply tick_touches|]. apply (chmod_touches p i m (tick s)); [by apply tick_ok|done..].
  - intros c m0. unfold file. cbn. rewrite E. cbn. rewrite lookup_alter_eq. by intros ->.
Qed.

Lemma stat_done p s x s' : stat w p s = (Ok x, s') →
  s' = tick s ∧ ∃ i c m, x = (i, c, m) ∧ names s !! p = Some i ∧ inodes s !! i = Some (c, m).
Proof.
  unfold stat, sys, mbind, M_bind. destruct (fault w Stat (ticks s)); [done|]. cbn.
  destruct (names s !! p) as [i|] eqn:E; [|done]. cbn. destruct (inodes s !! i) as [[c m]|] eqn:E'; [|done].
  intros [= <- <-]. split; [done|]. by exists i, c, m.
Qed.
End operations.

Definition internal (p : path) : bool := negb (user p).
Lemma internal_user p : internal p = false ↔ user p = true.
Proof. unfold internal. apply negb_false_iff. Qed.

Create HintDb disk.
#[export] Hint Resolve within_ret within_raise within_lift within_get within_raise_if within_bind within_for_each within_sys within_exists
  within_stat within_read within_write within_replace within_unlink within_mkdir within_rmtree within_spawn within_records : disk.

(** ** The groups *)

Definition later (s t : disk) : Prop := ∃ n, t = Disk (names s) (inodes s) (container_dir s) (fresh s) n (records s).
Lemma later_refl s : later s s.
Proof. exists (ticks s). by destruct s. Qed.
Lemma later_tick s t : later (tick s) t → later s t.
Proof. intros [n ->]. by exists n. Qed.
Lemma later_trans s t u : later s t → later t u → later s u.
Proof. intros [n ->] [k ->]. by exists k. Qed.

(** All the names of an inode, each of the snapshot. *)
Definition group_of (s : disk) (g : list layer) (i : nat) : Prop :=
  g ≠ [] ∧ (∀ p, p ∈ g → names s !! Own p = Some i) ∧ ∀ q, names s !! q = Some i → ∃ p, p ∈ g ∧ q = Own p.

Lemma fromkeys_acc {A} `{EqDecision A} (l acc : list A) : NoDup acc →
  NoDup (foldl (λ acc x, if bool_decide (x ∈ acc) then acc else acc ++ [x]) acc l) ∧
  ∀ x, x ∈ foldl (λ acc x, if bool_decide (x ∈ acc) then acc else acc ++ [x]) acc l ↔ x ∈ acc ∨ x ∈ l.
Proof.
  revert acc. induction l as [|a l IH]; intros acc Hacc; cbn; [split; [done|set_solver]|].
  case_bool_decide as Ha.
  - destruct (IH acc Hacc) as [H1 H2]. split; [done|]. intros x. rewrite H2. set_solver.
  - destruct (IH (acc ++ [a])) as [H1 H2]; [apply NoDup_app; split_and!; [done|set_solver|apply NoDup_singleton]|].
    split; [done|]. intros x. rewrite H2. set_solver.
Qed.
Lemma fromkeys_spec {A} `{EqDecision A} (l : list A) : NoDup (fromkeys l) ∧ ∀ x, x ∈ fromkeys l ↔ x ∈ l.
Proof. destruct (fromkeys_acc l [] (NoDup_nil_2)) as [H1 H2]. split; [done|]. intros x. unfold fromkeys. rewrite H2. set_solver. Qed.

(** Names counted against the links of the inode. *)
Lemma nlink_all s i unique : NoDup unique → (∀ p, p ∈ unique → names s !! Own p = Some i) → (nlink s i <= length unique)%nat →
  ∀ q, names s !! q = Some i → ∃ p, p ∈ unique ∧ q = Own p.
Proof.
  intros Hnd Hall Hle q Hq. set (A := dom (filter (λ kv : path * nat, kv.2 = i) (names s))).
  set (B := list_to_set (Own <$> unique) : gset path).
  assert (∀ q, q ∈ A ↔ names s !! q = Some i) as HA.
  { intros q'. unfold A. rewrite elem_of_dom. split.
    - intros [j [Hj ?]%map_lookup_filter_Some]. cbn in *. by subst.
    - intros Hj. exists i. by apply map_lookup_filter_Some. }
  assert (B ⊆ A) as HBA.
  { intros x Hx. unfold B in Hx. apply elem_of_list_to_set, list_elem_of_fmap in Hx as (p & -> & Hp). apply HA. by apply Hall. }
  assert (size B = length unique) as HB.
  { unfold B. rewrite size_list_to_set; [by rewrite length_fmap|]. apply NoDup_fmap_2; [|done]. by intros ? ? [= ->]. }
  assert (B = A) as E.
  { apply set_subseteq_size_eq; [done|]. rewrite HB. unfold A. by rewrite size_dom. }
  apply HA in Hq. rewrite <- E in Hq. unfold B in Hq. apply elem_of_list_to_set, list_elem_of_fmap in Hq as (p & -> & Hp).
  by exists p.
Qed.

Section groups.
Context (allocated : content → Z) (w : world).

Lemma candidates_later s o t : candidates w s = (o, t) → later s t.
Proof.
  unfold candidates, exists_, mbind, M_bind, gets. destruct (bool_decide _); [|intros [= _ <-]; apply later_refl].
  unfold read_text, sys, mbind, M_bind. destruct (fault w Read (ticks s)); [intros [= _ <-]; by eexists|].
  cbn. destruct (file (tick s) Sidecar) as [[[]]|]; intros [= _ <-]; by eexists.
Qed.

Lemma group_paths_spec ps : ∀ gs s gs' t, dict_ok gs → (∀ i g, gs !! i = Some g → ∀ p, p ∈ g → names s !! Own p = Some i) →
  group_paths w ps gs s = (Ok gs', t) →
  later s t ∧ dict_ok gs' ∧ ∀ i g, gs' !! i = Some g → ∀ p, p ∈ g → names s !! Own p = Some i.
Proof.
  induction ps as [|p ps IH]; intros gs s gs' t Hd Hgs; cbn [group_paths].
  { intros [= <- <-]. split; [apply later_refl|done]. }
  unfold exists_, gets. unfold mbind at 1, M_bind at 1. case_bool_decide.
  - intros (x & s1 & Hx & Hrun)%bind_ok_inv. apply stat_done in Hx as (-> & i & c & m & -> & Hi & _). cbn in Hrun.
    apply IH in Hrun as (? & ? & ?); [split; [by apply later_tick|done]|by apply insert_ok|].
    intros j g. destruct (decide (i = j)) as [->|]; [rewrite dict_lookup_insert_eq|rewrite dict_lookup_insert_ne by done; apply Hgs].
    intros [= <-] p' [Hp'|Hp'%list_elem_of_singleton]%elem_of_app; [|by subst].
    destruct (gs !! j) as [g|] eqn:E; [by eapply Hgs|by apply elem_of_nil in Hp'].
  - intros Hrun. by eapply IH.
Qed.

Lemma safe_groups_spec (d : dict nat (list layer)) : ∀ safe skipped s out k t, disk_ok s →
  Forall (λ kv : nat * list layer, ∀ p, p ∈ kv.2 → names s !! Own p = Some kv.1) (d : list _) →
  safe_groups allocated w (vals d) safe skipped s = (Ok (out, k), t) →
  later s t ∧ ∃ ks gs, out = safe ++ gs ∧ ks `sublist_of` keys d ∧ Forall2 (group_of s) gs ks.
Proof.
  induction d as [|[j g] d IH]; intros safe skipped s out k t Hs Hd; cbn [safe_groups].
  { intros [= <- _ <-]. split; [apply later_refl|]. exists [], []. by rewrite app_nil_r. }
  cbn. apply Forall_cons in Hd as [Hg Hd]. destruct (fromkeys_spec g) as [Hnd Hin].
  cbv zeta. destruct (fromkeys g) as [|p u] eqn:Eu; [done|]. intros ([[i c] m] & s1 & Hx & Hrun)%bind_ok_inv.
  apply stat_done in Hx as (-> & i' & c' & m' & [= <- <- <-] & Hi & _). rewrite bind_get in Hrun.
  assert (i = j) as -> by (cbn in Hg; rewrite (Hg p) in Hi by (apply Hin; by left); congruence).
  case_bool_decide as Hlt.
  - apply bind_ok_inv in Hrun as ([] & s2 & Hsys & Hrun). unfold sys in Hsys.
    destruct (fault w Stat _); [done|]. injection Hsys as <-.
    apply IH in Hrun as (Hl & ks & gs & -> & Hsub & H2); [|by do 2 apply tick_ok|done].
    split; [by do 2 apply later_tick|]. exists ks, gs. split_and!; [done|by apply sublist_cons|done].
  - apply IH in Hrun as (Hl & ks & gs & -> & Hsub & H2); [|by apply tick_ok|done].
    split; [by apply later_tick|]. exists (j :: ks), ((p :: u) :: gs). split_and!; [by rewrite <- app_assoc|by apply sublist_skip|].
    constructor; [|done]. split_and!; [done|intros p' Hp'; apply Hg, Hin, Hp'|].
    apply nlink_all; [done|intros p' Hp'; apply Hg, Hin, Hp'|]. apply Nat.nlt_ge in Hlt. exact Hlt.
Qed.

Lemma owned_groups_spec s gs k t : disk_ok s → owned_groups allocated w s = (Ok (gs, k), t) →
  later s t ∧ ∃ ks, NoDup ks ∧ Forall2 (group_of s) gs ks.
Proof.
  intros Hs. unfold owned_groups. intros (ps & s1 & H1%candidates_later & (d & s2 & H2 & H3)%bind_ok_inv)%bind_ok_inv.
  destruct H1 as [n1 ->]. apply group_paths_spec in H2 as (Hl2 & Hd & Hall); [|apply dict_empty_ok|done].
  destruct Hl2 as [n2 ->]. cbn in Hall, H3. apply safe_groups_spec in H3 as (Hl3 & ks & gs' & -> & Hsub & H2); cbn in *.
  - destruct Hl3 as [n3 ->]. split; [by exists n3|]. exists ks. split; [|exact H2]. eapply sublist_NoDup; [exact Hd|exact Hsub].
  - by apply (same_disk s).
  - apply Forall_forall. intros [i g] Hin. cbn. eapply Hall. by apply dict_elem_lookup.
Qed.
End groups.

(** ** Packing *)

Section packing.
Context (tool : operation → content → option content * outcome metrics) (allocated : content → Z) (w : world).
Hypothesis writes : ∀ op x m, tool op x ≠ (None, Ok m).

(** [r]'s container holds, packed, the content its paths have in [s]. *)
Definition packs (s t : disk) (r : record) : Prop :=
  ∃ i c y mc met, (∀ p, p ∈ paths r → names s !! Own p = Some i) ∧ inodes s !! i = Some (c, mode r) ∧
    file t (Container (container r)) = Some (y, mc) ∧ tool Compress c = (Some y, Ok met).

Lemma packs_touched P s t t' r : touches P t t' → P (Container (container r)) = false → packs s t r → packs s t' r.
Proof.
  intros Ht HP (i & c & y & mc & met & H1 & H2 & H3 & H4). exists i, c, y, mc, met. split_and!; [done..| |done].
  by rewrite (touches_file P t).
Qed.

(** The records of the running compression change nowhere else. *)
Lemma records_store p c s : records (store p c s) = records s.
Proof. unfold store. by destruct (names s !! p). Qed.
Lemma records_writing c p m s : (∀ s, records (m s).2 = records s) → records (writing w c p m s).2 = records s.
Proof. intros Hm. unfold writing. destruct (fault w c (ticks s)); [|by rewrite Hm]. cbn. destruct (torn w (ticks s)); [by rewrite records_store|done]. Qed.
Lemma records_spawn op a b s : records (spawn tool w op a b s).2 = records s.
Proof.
  unfold spawn. rewrite bind_get. destruct (match file s a with Some (c, _) => tool op c | None => _ end) as [out res].
  unfold mbind, M_bind. match goal with |- context [writing ?w ?c ?p ?m s] => pose proof (records_writing c p m s) as Hw end.
  rewrite <- Hw; [by destruct (writing _ _ _ _ s) as [[]]|]. intros s0. destruct out; [apply records_store|done].
Qed.
Lemma records_replace a b s : records (replace w a b s).2 = records s.
Proof. unfold replace, sys, mbind, M_bind. destruct (fault w Replace (ticks s)); [done|]. cbn. by destruct (names s !! a). Qed.
Lemma records_write p c s : records (write_text w p c s).2 = records s.
Proof. apply records_writing. intros s0. apply records_store. Qed.
Lemma records_atomic c s : records (atomic_json w c s).2 = records s.
Proof.
  unfold atomic_json, mbind, M_bind. pose proof (records_write ManifestTmp c s) as H1.
  destruct (write_text w ManifestTmp c s) as [[|] s1]; cbn in *; [|done]. by rewrite records_replace.
Qed.

Lemma pack_groups_spec (s : disk) gs : ∀ index t t', disk_ok s → touches internal s t →
  Forall (λ g, ∃ i, group_of s g i) gs → Forall (λ r, (container r < index)%nat ∧ packs s t r) (records t) →
  pack_groups tool w index gs t = (Ok tt, t') →
  touches internal s t' ∧ ∃ rs, records t' = records t ++ rs ∧ paths <$> rs = gs ∧ container <$> rs = seq index (length gs) ∧
    Forall (packs s t') (records t').
Proof.
  induction gs as [|g gs IH]; intros index t t' Hs Ht Hgs Hrs; cbn [pack_groups].
  { intros [= <-]. split; [done|]. exists []. rewrite app_nil_r. split_and!; [done..|]. eapply Forall_impl; [exact Hrs|]. by intros ? [? ?]. }
  apply Forall_cons in Hgs as [(i & Hne & Hg & _) Hgs]. destruct g as [|src g]; [done|].
  intros (m & t1 & H1 & (x1 & t2 & H2 & (x & t3 & H3 & (x4 & t4 & [= <- <-] & Hrun)%bind_ok_inv)%bind_ok_inv)%bind_ok_inv)%bind_ok_inv.
  destruct x1. pose proof (records_spawn Compress (Own src) (ContainerTmp index) t) as R1. rewrite H1 in R1. cbn in R1.
  pose proof (records_replace (ContainerTmp index) (Container index) t1) as R2. rewrite H2 in R2. cbn in R2.
  apply spawn_done in H1 as (T1 & c & mc & y & mb & F1 & E1 & F2); [|done|apply Ht|done].
  apply replace_done in H2 as (T2 & F3 & _); [|apply T1|done..].
  apply stat_done in H3 as (-> & i' & c' & m' & -> & N & F4).
  assert (touches internal t t2) as T.
  { eapply touches_trans; [eapply touches_weaken, T1; by apply only_impl|eapply touches_weaken, T2; by apply both_impl]. }
  assert (touches internal s t2) as Ts by (eapply touches_trans; [exact Ht|exact T]).
  assert (names s !! Own src = Some i) as Ni by (apply Hg; by left).
  destruct (to_outside _ _ _ Ts (Own src) eq_refl) as [E2 E3]. rewrite N, Ni in E2. injection E2 as ->.
  rewrite (E3 i Ni) in F4. assert (c' = c) as ->.
  { rewrite (touches_file internal s t) in F1 by done. unfold file in F1. rewrite Ni in F1. cbn in F1. congruence. }
  apply IH in Hrun as (Hs' & rs & Er & Ep & Ec & Hp); [|done| |done|].
  - split; [done|]. exists (Rec (src :: g) (Z.land m' 511) index m :: rs). cbn in Er. rewrite Er, R2, R1, <- app_assoc.
    split_and!; [done|by cbn; rewrite Ep|by cbn; rewrite Ec|]. by rewrite Er, R2, R1, <- app_assoc in Hp.
  - eapply touches_trans; [exact Ts|]. apply same_touches; [done..|apply Ts].
  - cbn. rewrite R2, R1. apply Forall_app. split.
    + eapply Forall_impl; [exact Hrs|]. intros r [Hlt Hr]. split; [lia|].
      apply (packs_touched (both (ContainerTmp index) (Container index)) s t1); [|unfold both; apply bool_decide_eq_false; intros [?|[= ?]]; [done|lia]|].
      { eapply touches_trans; [exact T2|]. by apply same_touches; [..|apply T2]. }
      eapply packs_touched; [exact T1|by apply bool_decide_eq_false|done].
    + apply Forall_singleton. split; [cbn; lia|]. exists i, c, y, mb, m. cbn [paths container mode].
      pose proof (ok_mode _ Hs _ _ _ F4) as Hm. split_and!; [done|by cbn; rewrite Hm| |done]. unfold file in *. cbn. by rewrite F3.
Qed.

Lemma atomic_done c s t : disk_ok s → atomic_json w c s = (Ok tt, t) →
  touches (both ManifestTmp Manifest) s t ∧ ∃ m, file t Manifest = Some (c, m).
Proof.
  intros Hs. unfold atomic_json. intros ([] & s1 & H1 & H2)%bind_ok_inv.
  apply write_done in H1 as [T1 [m F1]]; [|done..]. apply replace_done in H2 as (T2 & F2 & _); [|apply T1|done..].
  split; [|exists m; congruence]. eapply touches_trans; [|exact T2]. eapply touches_weaken, T1.
  intros q Hq%only_true. apply both_true. by left.
Qed.

Lemma allocated_of_later cs : ∀ sum s x t, allocated_of allocated w cs sum s = (Ok x, t) → later s t.
Proof.
  induction cs as [|c cs IH]; intros sum s x t; cbn [allocated_of]; [intros [= _ <-]; apply later_refl|].
  intros ([[i y] m] & s1 & [-> _]%stat_done & Hrun%IH)%bind_ok_inv. by apply later_tick.
Qed.

(** A snapshot whose originals are being unlinked: the manifest lists the
    containers, and every name of the user is untouched or packed. *)
Record unlinking (s : disk) (d : document) (t : disk) : Prop := {
  un_ok : disk_ok t;
  un_manifest : ∃ m, file t Manifest = Some (Doc d, m);
  un_records : ∀ r, r ∈ groups d → packs s t r;
  un_names : ∀ q, user q = true →
    (names t !! q = names s !! q ∧ ∀ i, names s !! q = Some i → inodes t !! i = inodes s !! i) ∨
    (names t !! q = None ∧ ∃ r p, r ∈ groups d ∧ p ∈ paths r ∧ q = Own p);
}.

(** The records of a manifest are groups of the snapshot, each in a container of
    its own. *)
Definition planned (s : disk) (d : document) : Prop :=
  ∃ ks, NoDup ks ∧ Forall2 (group_of s) (paths <$> groups d) ks ∧
    container <$> groups d = seq 0 (length (groups d)).

Lemma pack_spec (s : disk) gs skipped ks t agg t' : disk_ok s → touches internal s t → NoDup ks → Forall2 (group_of s) gs ks →
  records t = [] → pack tool allocated w gs skipped t = (Ok agg, t') →
  ∃ d, touches internal s t' ∧ unlinking s d t' ∧ planned s d ∧ doc_metrics d = agg ∧ records t' = groups d ∧
    paths <$> groups d = gs.
Proof.
  intros Hs Ht Hnd Hgs Hr. unfold pack. intros ([] & t1 & H1 & Hrun)%bind_ok_inv. rewrite bind_get in Hrun.
  apply (pack_groups_spec s) in H1 as (T1 & rs & Er & Ep & Ec & Hp); [|done..| |by rewrite Hr].
  2:{ clear -Hgs. induction Hgs; constructor; eauto. }
  rewrite Hr in Er. cbn in Er. rewrite Er in Hrun, Hp.
  apply bind_ok_inv in Hrun as (x & t2 & [n ->]%allocated_of_later & Hrun). cbv zeta in Hrun.
  match type of Hrun with (atomic_json w (Doc (Document rs ?a)) ≫= _) _ = _ => set (agg0 := a) in * end.
  apply bind_ok_inv in Hrun as ([] & t3 & H3 & Hrun). pose proof (records_atomic (Doc (Document rs agg0)) (Disk (names t1) (inodes t1) (container_dir t1) (fresh t1) n (records t1))) as R3.
  rewrite H3 in R3. cbn in R3. apply atomic_done in H3 as [T3 _]; [|by apply (same_disk t1), T1].
  apply bind_ok_inv in Hrun as (y & t4 & [-> _]%stat_done & Hrun).
  match type of Hrun with (atomic_json w (Doc (Document rs ?a)) ≫= _) _ = _ => set (agg1 := a) in * end.
  apply bind_ok_inv in Hrun as ([] & t5 & H5 & [= <- <-]). pose proof (records_atomic (Doc (Document rs agg1)) (tick t3)) as R5.
  rewrite H5 in R5. cbn in R5. apply atomic_done in H5 as [T5 [m F5]]; [|by apply tick_ok, T3].
  assert (touches (both ManifestTmp Manifest) t1 t5) as T15.
  { eapply touches_trans; [by apply (same_touches _ t1 (Disk (names t1) (inodes t1) (container_dir t1) (fresh t1) n (records t1))), T1|].
    eapply touches_trans; [exact T3|]. eapply touches_trans; [by apply tick_touches, T3|exact T5]. }
  assert (touches internal s t5) as Ts by (eapply touches_trans; [exact T1|eapply touches_weaken, T15; by apply both_impl]).
  exists (Document rs agg1). cbn. split_and!; [done| |exists ks|done|congruence|done].
  - split; [apply Ts|by exists m| |].
    + intros r Hin. rewrite Forall_forall in Hp. eapply packs_touched; [exact T15|by apply bool_decide_eq_false; intros [|]|auto].
    + intros q Hq. left. apply (to_outside _ _ _ Ts). by apply internal_user.
  - cbn. rewrite Ep, Ec. split_and!; [done..|]. by rewrite <- Ep, length_fmap.
Qed.

(** ** Unlinking *)

Lemma unlinking_unlink s d t p o t' : unlinking s d t → (∃ r, r ∈ groups d ∧ p ∈ paths r) → unlink w (Own p) t = (o, t') →
  unlinking s d t' ∧ (o = Ok tt → names t' !! Own p = None) ∧ (∀ e, o = Raise e → ∃ n, fault w Unlink n = Some e) ∧
  ∀ q, names t !! q = None → names t' !! q = None.
Proof.
  intros [U1 U2 U3 U4] (r & Hr & Hp) Hrun.
  assert (touches (only (Own p)) t t') as T by (change t' with (o, t').2; rewrite <- Hrun; by apply within_unlink; [apply only_true|]).
  revert Hrun. unfold unlink, sys, mbind, M_bind. cbn. destruct (fault w Unlink (ticks t)) as [e|] eqn:Ef; intros [= <- <-].
  - split_and!; [split; [by apply tick_ok|exact U2|exact U3|exact U4]|done|intros e' [= <-]; by exists (ticks t)|done].
  - split_and!; [|intros _; cbn; by apply lookup_delete_eq|done|intros q Hq; cbn; by apply lookup_delete_None; right].
    split; [apply T| | |].
    + destruct U2 as [m U2]. exists m. by rewrite (touches_file _ _ _ _ T).
    + intros r' Hr'. eapply packs_touched; [exact T|done|auto].
    + intros q Hq. cbn. destruct (decide (q = Own p)) as [->|Hne].
      * right. split; [apply lookup_delete_eq|]. by exists r, p.
      * rewrite lookup_delete_ne by (by apply not_eq_sym). by apply U4.
Qed.

Lemma unlinking_loop s d ps : ∀ t o t', unlinking s d t → (∀ p, p ∈ ps → ∃ r, r ∈ groups d ∧ p ∈ paths r) →
  for_each ps (λ p, unlink w (Own p)) t = (o, t') →
  unlinking s d t' ∧ (o = Ok tt → ∀ p, p ∈ ps → names t' !! Own p = None) ∧
  (∀ e, o = Raise e → ∃ n, fault w Unlink n = Some e) ∧ ∀ q, names t !! q = None → names t' !! q = None.
Proof.
  induction ps as [|p ps IH]; intros t o t' Hu Hps; cbn [for_each].
  { intros [= <- <-]. split_and!; [done|intros _ p Hp; by apply elem_of_nil in Hp|done|done]. }
  unfold mbind, M_bind. destruct (unlink w (Own p) t) as [o1 t1] eqn:E1.
  apply (unlinking_unlink s d) in E1 as (U1 & N1 & F1 & K1); [|done|apply Hps; by left].
  destruct o1 as [[]|e]; [|intros [= <- <-]; by split_and!].
  intros Hrun. apply IH in Hrun as (U2 & N2 & F2 & K2); [|done|intros; apply Hps; by right].
  split_and!; [done| |done|auto]. intros Ho q [->|Hq]%elem_of_cons; [apply K2, N1; done|by apply N2].
Qed.

Lemma unlink_originals_spec s d t o t' : unlinking s d t → records t = groups d → unlink_originals w t = (o, t') →
  unlinking s d t' ∧ (o = Ok tt → ∀ r p, r ∈ groups d → p ∈ paths r → names t' !! Own p = None) ∧
  ∀ e, o = Raise e → ∃ n, fault w Unlink n = Some e.
Proof.
  intros Hu Hr. unfold unlink_originals. rewrite bind_get, Hr.
  assert (∀ rs t o t', unlinking s d t → (∀ r, r ∈ rs → r ∈ groups d) → for_each rs (λ r, for_each (paths r) (λ p, unlink w (Own p))) t = (o, t') →
    unlinking s d t' ∧ (o = Ok tt → ∀ r p, r ∈ rs → p ∈ paths r → names t' !! Own p = None) ∧
    (∀ e, o = Raise e → ∃ n, fault w Unlink n = Some e) ∧ ∀ q, names t !! q = None → names t' !! q = None) as H.
  { clear. intros rs. induction rs as [|r rs IH]; intros t o t' Hu Hrs; cbn [for_each].
    { intros [= <- <-]. split_and!; [done|intros _ r p Hp; by apply elem_of_nil in Hp|done|done]. }
    unfold mbind, M_bind. destruct (for_each (paths r) _ t) as [o1 t1] eqn:E1.
    apply (unlinking_loop s d) in E1 as (U1 & N1 & F1 & K1); [|done|intros p Hp; exists r; split; [apply Hrs; by left|done]].
    destruct o1 as [[]|e]; [|intros [= <- <-]; by split_and!].
    intros Hrun. apply IH in Hrun as (U2 & N2 & F2 & K2); [|done|intros; apply Hrs; by right].
    split_and!; [done| |done|auto]. intros Ho r' p [->|Hq]%elem_of_cons Hp; [by apply K2, N1|by apply (N2 Ho r')]. }
  intros Hrun. apply H in Hrun as (? & ? & ? & _); done.
Qed.
End packing.

(** ** Compression *)

Section compression.
Context (tool : operation → content → option content * outcome metrics) (allocated : content → Z) (w : world).
Hypothesis writes : ∀ op x m, tool op x ≠ (None, Ok m).

Lemma within_atomic c : within internal (atomic_json w c).
Proof. apply within_bind; [by apply within_write|]. intros _. by apply within_replace. Qed.

Lemma within_groups : within internal (owned_groups allocated w).
Proof.
  apply within_bind; [|intros ps; apply within_bind].
  - apply within_bind; [auto with disk|]. intros []; [|auto with disk]. apply within_bind; [auto with disk|]. intros []; auto with disk.
  - generalize (∅ : dict nat (list layer)). induction ps as [|p ps IH]; intros gs; cbn [group_paths]; [auto with disk|].
    apply within_bind; [auto with disk|]. intros []; [|apply IH]. apply within_bind; [auto with disk|]. intros x. apply IH.
  - intros gs. generalize ([] : list (list layer)). generalize 0. induction (vals gs) as [|g l IH]; intros k acc; cbn [safe_groups]; [auto with disk|].
    cbv zeta. destruct (fromkeys g); [auto with disk|]. apply within_bind; [auto with disk|]. intros [[i c] m].
    apply within_bind; [auto with disk|]. intros s. case_bool_decide; [|apply IH]. apply within_bind; [auto with disk|]. intros _. apply IH.
Qed.

Lemma within_pack gs skipped : within internal (pack tool allocated w gs skipped).
Proof.
  apply within_bind.
  - generalize 0%nat. induction gs as [|[|src g] gs IH]; intros n; cbn [pack_groups]; [auto with disk..|].
    apply within_bind; [auto with disk|]. intros m. apply within_bind; [auto with disk|]. intros _.
    apply within_bind; [auto with disk|]. intros x. apply within_bind; [by apply within_same|]. intros _. apply IH.
  - intros _. apply within_bind; [auto with disk|]. intros s. apply within_bind.
    + generalize (container <$> records s). generalize 0. intros z l. revert z.
      induction l as [|c l IH]; intros z; cbn [allocated_of]; [auto with disk|].
      apply within_bind; [auto with disk|]. intros [[i y] m]. apply IH.
    + intros x. cbv zeta. apply within_bind; [apply within_atomic|]. intros _. apply within_bind; [auto with disk|].
      intros y. apply within_bind; [apply within_atomic|]. auto with disk.
Qed.

Lemma within_discard e : within internal (discard w e).
Proof.
  apply within_bind; [auto with disk|]. intros s. apply within_bind; [auto with disk|]. intros _.
  apply within_bind; [apply within_rmtree; by intros []|]. intros _. apply within_bind; auto with disk.
Qed.

(** The run of a compression that gets to the [try]. *)
Lemma compress_body s o t : disk_ok s → names s !! Manifest = None → compress_snapshot tool allocated w s = (o, t) →
  touches internal s t ∧ is_ok o = false ∨
  ∃ gs skipped ks s1, NoDup ks ∧ Forall2 (group_of s) gs ks ∧ touches internal s s1 ∧ records s1 = [] ∧
    try_exception (agg ← pack tool allocated w gs skipped; unlink_originals w ;; mret agg) (discard w) s1 = (o, t).
Proof.
  intros Hs Hm. unfold compress_snapshot, exists_, gets, mbind at 1, M_bind at 1. rewrite bool_decide_false by (rewrite Hm; by intros [? ?]).
  unfold mbind at 1, M_bind at 1. pose proof (within_groups s Hs) as T.
  destruct (owned_groups allocated w s) as [[[gs skipped]|e] s0] eqn:Eg; cbn [snd] in T; [|by intros [= <- <-]; left].
  rewrite bind_raise_if. case_bool_decide; [by intros [= <- <-]; left|]. unfold mbind at 1, M_bind at 1.
  pose proof (within_mkdir w internal s0 (to_ok _ _ _ T)) as T'.
  destruct (mkdir_containers w s0) as [[[]|e] s1]; cbn [snd] in T'; [|intros [= <- <-]; left; split; [by eapply touches_trans|done]].
  intros Hrun. right. apply owned_groups_spec in Eg as (_ & ks & Hnd & Hks); [|done].
  exists gs, skipped, ks, (with_records [] s1). split_and!; [done..| |done|exact Hrun].
  eapply touches_trans; [exact T|]. eapply touches_trans; [exact T'|]. by apply same_touches, T'.
Qed.

Lemma compress_ok s agg t : disk_ok s → names s !! Manifest = None → compress_snapshot tool allocated w s = (Ok agg, t) →
  ∃ d, unlinking tool s d t ∧ planned s d ∧ doc_metrics d = agg ∧
    ∀ r p, r ∈ groups d → p ∈ paths r → names t !! Own p = None.
Proof.
  intros Hs Hm Hrun. apply compress_body in Hrun as [[_ ?]|(gs & skipped & ks & s1 & Hnd & Hks & T & Hr & Hrun)]; [done| |done..].
  revert Hrun. unfold try_exception, try_except, mbind at 1, M_bind at 1.
  assert (∀ e s2, (if is_exception e then discard w e s2 else (Raise e, s2)) = (Ok agg, t) → False) as Hno.
  { intros e s2. destruct (is_exception e); [|done]. unfold discard, mbind, M_bind, get, raise.
    destruct (for_each _ _ s2) as [[|] s3]; [|done]. destruct (rmtree w s3) as [[|] s4]; [|done]. by destruct (unlink w Manifest s4) as [[|] s5]. }
  destruct (pack tool allocated w gs skipped s1) as [[agg'|e] s2] eqn:Ep; [|intros H; destruct (Hno e s2); by destruct (is_exception e)].
  apply (pack_spec _ _ _ writes s) with (ks := ks) in Ep as (d & T2 & Hu & Hp & Ed & Er & _); [|done..].
  unfold mbind, M_bind. destruct (unlink_originals w s2) as [[[]|e] s3] eqn:Eu; [|intros H; destruct (Hno e s3); by destruct (is_exception e)].
  intros [= <- <-]. apply (unlink_originals_spec tool w s d) in Eu as (Hu' & Hgone & _); [|done..].
  exists d. split_and!; [done..|]. by apply Hgone.
Qed.

(** However a compression ends, when an unlink can only be interrupted: nothing
    of the user has changed, or what is gone is packed. *)
Lemma compress_safe s o t : disk_ok s → names s !! Manifest = None → (∀ n e, fault w Unlink n = Some e → is_exception e = false) →
  compress_snapshot tool allocated w s = (o, t) → touches internal s t ∨ ∃ d, unlinking tool s d t.
Proof.
  intros Hs Hm Hf Hrun. apply compress_body in Hrun as [[? _]|(gs & skipped & ks & s1 & Hnd & Hks & T & Hr & Hrun)]; [by left| |done..].
  revert Hrun. unfold try_exception, try_except, mbind at 1, M_bind at 1.
  pose proof (within_pack gs skipped s1 (to_ok _ _ _ T)) as T2.
  destruct (pack tool allocated w gs skipped s1) as [[agg'|e] s2] eqn:Ep; cbn [snd] in T2.
  - apply (pack_spec _ _ _ writes s) with (ks := ks) in Ep as (d & _ & Hu & _ & Ed & Er & _); [|done..].
    unfold mbind, M_bind. destruct (unlink_originals w s2) as [o3 s3] eqn:Eu.
    apply (unlink_originals_spec tool w s d) in Eu as (Hu' & _ & He); [|done..].
    destruct o3 as [[]|e]; [intros [= <- <-]; right; by exists d|].
    destruct (He e eq_refl) as [n Hn]. rewrite (Hf _ _ Hn). intros [= <- <-]. right. by exists d.
  - pose proof (touches_trans _ _ _ _ T T2) as T3. destruct (is_exception e); [|intros [= <- <-]; by left].
    intros Hd. left. eapply touches_trans; [exact T3|]. change t with (o, t).2. rewrite <- Hd. apply within_discard, T3.
Qed.
End compression.

(** ** Decompression *)

Section decompression.
Context (tool : operation → content → option content * outcome metrics).
Hypothesis writes : ∀ op x m, tool op x ≠ (None, Ok m).
Hypothesis lossless : ∀ c y m, tool Compress c = (Some y, Ok m) → ∃ m', tool Decompress y = (Some c, Ok m').

Definition absent (s t : disk) (r : record) : Prop := (∀ p, p ∈ paths r → names t !! Own p = None) ∧ packs tool s t r.

(** The first path of [r] is back, as inode [j], of which the others are links. *)
Record back (s t : disk) (r : record) (j : nat) : Prop := {
  bk_head : ∀ c, head (paths r) = Some c → names t !! Own c = Some j;
  bk_file : ∃ i c, (∀ p, p ∈ paths r → names s !! Own p = Some i) ∧ inodes s !! i = Some (c, mode r) ∧ inodes t !! j = Some (c, mode r);
  bk_alias : ∀ p, p ∈ paths r → names t !! Own p = None ∨ names t !! Own p = Some j;
  bk_only : ∀ q, names t !! q = Some j → ∃ p, p ∈ paths r ∧ q = Own p;
}.
Definition complete (s t : disk) (r : record) : Prop := ∃ j, back s t r j ∧ ∀ p, p ∈ paths r → names t !! Own p = Some j.
Definition rec_state (s t : disk) (r : record) : Prop := absent s t r ∨ ∃ j, back s t r j.

(** The names a record's restoration touches. *)
Definition names_of (r : record) (q : path) : bool :=
  match q with
  | Own p => bool_decide (p ∈ paths r)
  | Decompressing p => bool_decide (head (paths r) = Some p)
  | _ => false
  end.

Lemma absent_touched s t t' r c : touches (only (Decompressing c)) t t' → absent s t r → absent s t' r.
Proof.
  intros T [H1 H2]. split; [|by eapply packs_touched]. intros p Hp. rewrite (proj1 (to_outside _ _ _ T (Own p) eq_refl)). auto.
Qed.

Lemma canonical_moved s t t' r c0 al x m : disk_ok t → paths r = c0 :: al → absent s t r → (∃ i, (∀ p, p ∈ paths r → names s !! Own p = Some i) ∧ inodes s !! i = Some (x, mode r)) →
  file t (Decompressing c0) = Some (x, mode r) → replace m (Decompressing c0) (Own c0) t = (Ok tt, t') → ∃ j, back s t' r j.
Proof.
  intros Ht Hp [Hn _] (i & Hi & Hx) Hf Hrun. apply replace_done in Hrun as (T & F & N & N'); [|done..].
  unfold file in Hf. destruct (names t !! Decompressing c0) as [j|] eqn:Ej; [|done]. cbn in Hf. exists j. split.
  - intros c. rewrite Hp. by intros [= <-].
  - exists i, x. split_and!; [done..|]. unfold file in F. rewrite N, Ej in F. cbn in F. congruence.
  - intros p Hin. destruct (decide (p = c0)) as [->|Hne]; [by right|]. left.
    assert (both (Decompressing c0) (Own c0) (Own p) = false) as E by (apply bool_decide_eq_false; intros [|[= ?]]; done).
    rewrite (proj1 (to_outside _ _ _ T _ E)). auto.
  - intros q Hq. destruct (decide (q = Own c0)) as [->|Hne]; [exists c0; split; [rewrite Hp; by left|done]|]. exfalso.
    destruct (decide (q = Decompressing c0)) as [->|Hne']; [congruence|].
    assert (both (Decompressing c0) (Own c0) q = false) as E by (apply bool_decide_eq_false; intros [|]; done).
    rewrite (proj1 (to_outside _ _ _ T _ E)) in Hq. by destruct (ok_shared _ Ht (Decompressing c0) q j) as [? _]; [..|apply not_eq_sym|].
Qed.

Lemma temp_names r c0 al : paths r = c0 :: al → ∀ q, only (Decompressing c0) q = true → names_of r q = true.
Proof. intros Hp q ->%only_true. cbn. rewrite Hp. by apply bool_decide_eq_true. Qed.
Lemma move_names r c0 al : paths r = c0 :: al → ∀ q, both (Decompressing c0) (Own c0) q = true → names_of r q = true.
Proof. intros Hp q [-> | ->]%both_true; cbn; rewrite Hp; apply bool_decide_eq_true; [done|by left]. Qed.

Lemma within_unpack r c0 w : Z.land (mode r) 511 = mode r → within (only (Decompressing c0)) (unpack tool w r c0).
Proof.
  intros Hm. pose proof (proj2 (only_true (Decompressing c0) _) eq_refl) as Hp.
  apply within_bind; [auto with disk|]. intros _. apply within_bind; [by apply within_unlink|]. intros _.
  apply within_bind; [by apply within_spawn|]. intros m. apply within_bind; [by apply within_chmod|]. auto with disk.
Qed.

(** What comes out of the container is what went in. *)
Lemma unpack_done s t r c0 w m t' : disk_ok s → disk_ok t → absent s t r → unpack tool w r c0 t = (Ok m, t') →
  ∃ i x, (∀ p, p ∈ paths r → names s !! Own p = Some i) ∧ inodes s !! i = Some (x, mode r) ∧
    file t' (Decompressing c0) = Some (x, mode r).
Proof.
  intros Hs Ht Ha. unfold unpack. pose proof (proj2 (only_true (Decompressing c0) _) eq_refl) as Hp.
  intros ([] & t1 & E1 & ([] & t2 & E2 & (m3 & t3 & E3 & ([] & t4 & E4 & [= -> <-])%bind_ok_inv)%bind_ok_inv)%bind_ok_inv)%bind_ok_inv.
  pose proof (within_sys w (only (Decompressing c0)) Mkdir t Ht) as T1. rewrite E1 in T1. cbn [snd] in T1.
  pose proof (within_unlink w _ (Decompressing c0) Hp t1 (to_ok _ _ _ T1)) as T2. rewrite E2 in T2. cbn [snd] in T2.
  pose proof (absent_touched s t t2 r c0 (touches_trans _ _ _ _ T1 T2) Ha) as [_ (i & c & y & mc & met & P1 & P2 & P3 & P4)].
  apply spawn_done in E3 as (T3 & y' & my & x & mx & F1 & Et & F2); [|done|apply T2|done].
  rewrite P3 in F1. injection F1 as <- <-. destruct (lossless _ _ _ P4) as [m' Hl]. rewrite Hl in Et. injection Et as <- _.
  apply chmod_done in E4 as [_ F4]; [|apply T3|done|by apply (ok_mode s Hs i c)]. exists i, c. split_and!; [done..|]. exact (F4 _ _ F2).
Qed.

Lemma packs_mode s t r : disk_ok s → packs tool s t r → Z.land (mode r) 511 = mode r.
Proof. intros Hs (i & c & y & mc & met & _ & H2 & _). by apply (ok_mode s Hs i c). Qed.

Lemma restore_canonical_spec s t r c0 al w o t' : disk_ok s → disk_ok t → paths r = c0 :: al → rec_state s t r →
  restore_canonical tool w r c0 t = (o, t') →
  touches (names_of r) t t' ∧ match o with Ok _ => ∃ j, back s t' r j | Raise _ => absent s t' r end.
Proof.
  intros Hs Ht Hp Hst. unfold restore_canonical, exists_, gets. unfold mbind at 1, M_bind at 1. case_bool_decide as He.
  { intros [= <- <-]. split; [by apply touches_refl|]. destruct Hst as [[Hn _]|]; [|done].
    rewrite Hn in He by (rewrite Hp; by left). by destruct He. }
  assert (absent s t r) as Ha.
  { destruct Hst as [|[j Hj]]; [done|]. destruct He. exists j. apply (bk_head _ _ _ _ Hj). by rewrite Hp. }
  pose proof (within_unpack r c0 w (packs_mode s t r Hs (proj2 Ha)) t Ht) as T1. unfold mbind at 1, M_bind at 1.
  destruct (unpack tool w r c0 t) as [[m|e] t1] eqn:E1; cbn [snd] in T1; pose proof (touches_weaken _ _ _ _ (temp_names r c0 al Hp) T1) as T2.
  2:{ intros [= <- <-]. split; [done|by eapply absent_touched]. }
  apply (unpack_done s) in E1 as (i & x & Hi & Hx & Hf); [|done..].
  pose proof (within_replace w (both (Decompressing c0) (Own c0)) (Decompressing c0) (Own c0) (proj2 (both_true _ _ _) (or_introl eq_refl))
    (proj2 (both_true _ _ _) (or_intror eq_refl)) eq_refl ltac:(discriminate) t1 (to_ok _ _ _ T1)) as T3.
  unfold mbind, M_bind. destruct (replace w (Decompressing c0) (Own c0) t1) as [[[]|e] t2] eqn:E2; cbn [snd] in T3; intros [= <- <-];
    (split; [eapply touches_trans; [exact T2|eapply touches_weaken; [by eapply move_names|exact T3]]|]).
  - eapply (canonical_moved s t1 t2 r c0 al x w); [apply T1|done|by eapply absent_touched|by exists i|done|done].
  - assert (t2 = tick t1) as ->.
    { revert E2. unfold replace, sys, mbind, M_bind. destruct (fault w Replace (ticks t1)); [by intros [= _ <-]|]. cbn.
      destruct (names t1 !! Decompressing c0); [done|]. by intros [= _ <-]. }
    eapply absent_touched; [|exact Ha]. eapply touches_trans; [exact T1|]. apply tick_touches, T1.
Qed.

Lemma alias_spec s t r j c0 al a w o t' : disk_ok t → paths r = c0 :: al → a ∈ al → back s t r j → restore_alias w c0 a t = (o, t') →
  touches (names_of r) t t' ∧ back s t' r j ∧ (o = Ok tt → names t' !! Own a = Some j) ∧ (w = quiet_world → o = Ok tt) ∧
  ∀ p, names t !! Own p = Some j → names t' !! Own p = Some j.
Proof.
  intros Ht Hp Ha Hb. pose proof (bk_head _ _ _ _ Hb c0 ltac:(by rewrite Hp)) as Hc.
  assert (a ∈ paths r) as Hin by (rewrite Hp; by right).
  unfold restore_alias, exists_, gets. unfold mbind at 1, M_bind at 1. case_bool_decide as He.
  { intros [= <- <-]. split_and!; [by apply touches_refl|done| |done|done]. intros _.
    destruct (bk_alias _ _ _ _ Hb a Hin) as [E|]; [|done]. rewrite E in He. by destruct He. }
  apply eq_None_not_Some in He. intros Hrun.
  assert (touches (names_of r) t t') as T.
  { change t' with (o, t').2. rewrite <- Hrun. apply within_bind; [auto with disk| |done]. intros _.
    apply within_link; [cbn; rewrite Hp; apply bool_decide_eq_true; by left|by apply bool_decide_eq_true|done..]. }
  split; [done|]. revert Hrun. unfold link, sys, mbind, M_bind. destruct (fault w Mkdir (ticks t)) as [e|] eqn:E1.
  { intros [= <- <-]. split_and!; [by destruct Hb|done|by intros ->|done]. }
  destruct (fault w Link (ticks (tick t))) as [e|] eqn:E2.
  { intros [= <- <-]. split_and!; [by destruct Hb|done|by intros ->|done]. }
  cbn. rewrite Hc, He. intros [= <- <-]. cbn. split_and!; [|by rewrite lookup_insert_eq|done|].
  - destruct Hb as [B1 B2 B3 B4]. split; cbn; [|done| |].
    + intros c Hh. rewrite lookup_insert_ne; [by apply B1|]. intros [= <-]. rewrite Hp in Hh. injection Hh as ->. congruence.
    + intros p Hq. destruct (decide (p = a)) as [->|]; [right; by rewrite lookup_insert_eq|]. rewrite lookup_insert_ne by congruence. auto.
    + intros q [[<- _]|[_ Hq]]%lookup_insert_Some; [by exists a|by apply B4].
  - intros p Hq. destruct (decide (p = a)) as [->|]; [by rewrite lookup_insert_eq|]. by rewrite lookup_insert_ne by congruence.
Qed.

Lemma aliases_spec s r j c0 al w : paths r = c0 :: al → ∀ l, (∀ a, a ∈ l → a ∈ al) → ∀ t o t', disk_ok t → back s t r j →
  for_each l (restore_alias w c0) t = (o, t') →
  touches (names_of r) t t' ∧ back s t' r j ∧ (o = Ok tt → ∀ p, p ∈ l → names t' !! Own p = Some j) ∧ (w = quiet_world → o = Ok tt) ∧
  ∀ p, names t !! Own p = Some j → names t' !! Own p = Some j.
Proof.
  intros Hp l. induction l as [|a l IH]; intros Hl t o t' Ht Hb; cbn [for_each].
  { intros [= <- <-]. split_and!; [by apply touches_refl|done|intros _ p Hq; by apply elem_of_nil in Hq|done|done]. }
  unfold mbind, M_bind. destruct (restore_alias w c0 a t) as [o1 t1] eqn:E1.
  apply (alias_spec s t r j c0 al) in E1 as (T1 & B1 & N1 & Q1 & K1); [|done|done|apply Hl; by left|done].
  destruct o1 as [[]|e]; [|intros [= <- <-]; by split_and!].
  intros Hrun. apply IH in Hrun as (T2 & B2 & N2 & Q2 & K2); [|intros; apply Hl; by right|apply T1|done].
  split_and!; [by eapply touches_trans|done| |done|auto].
  intros Ho p [->|Hq]%elem_of_cons; [by apply K2, N1|by apply N2].
Qed.

(** Without failures the tool runs and the file is moved. *)
Lemma canonical_quiet s t r c0 al : paths r = c0 :: al → rec_state s t r → is_ok (restore_canonical tool quiet_world r c0 t).1 = true.
Proof.
  intros Hp Hst. unfold restore_canonical, exists_, gets. unfold mbind at 1, M_bind at 1. case_bool_decide as He; [done|].
  destruct Hst as [[Hn (i & c & y & mc & met & P1 & P2 & P3 & P4)]|[j Hj]].
  2:{ destruct He. exists j. apply (bk_head _ _ _ _ Hj). by rewrite Hp. }
  destruct (lossless _ _ _ P4) as [m' Hl]. unfold unpack.
  set (t2 := with_names (delete (Decompressing c0) (names t)) (tick (tick t))).
  assert (file t2 (Container (container r)) = Some (y, mc)) as F.
  { unfold file, t2. cbn. by rewrite lookup_delete_ne. }
  assert (spawn tool quiet_world Decompress (Container (container r)) (Decompressing c0) t2 = (Ok m', store (Decompressing c0) c (tick t2))) as E3.
  { unfold spawn. rewrite bind_get, F, Hl. done. }
  destruct (file_store (tick t2) (Decompressing c0) c) as [mf F3]. set (t3 := store (Decompressing c0) c (tick t2)) in *.
  unfold file in F3. destruct (names t3 !! Decompressing c0) as [k|] eqn:Ek; [|done].
  assert (∃ t4, chmod quiet_world (Decompressing c0) (mode r) t3 = (Ok tt, t4) ∧ names t4 = names t3) as (t4 & E4 & N4).
  { eexists. unfold chmod, sys, mbind, M_bind. cbn. rewrite Ek. done. }
  assert (∃ t5, replace quiet_world (Decompressing c0) (Own c0) t4 = (Ok tt, t5)) as (t5 & E5).
  { eexists. unfold replace, sys, mbind, M_bind. cbn. rewrite N4, Ek. done. }
  assert (∀ {B} (k : metrics → M disk B), ((sys quiet_world Mkdir ;; unlink quiet_world (Decompressing c0) ;;
    m ← spawn tool quiet_world Decompress (Container (container r)) (Decompressing c0); chmod quiet_world (Decompressing c0) (mode r) ;; mret m) ≫= k) t
    = k m' t4) as Hk.
  { intros B k'. unfold mbind at 1, M_bind at 1. change (((sys quiet_world Mkdir ;; unlink quiet_world (Decompressing c0) ;;
    m ← spawn tool quiet_world Decompress (Container (container r)) (Decompressing c0); chmod quiet_world (Decompressing c0) (mode r) ;; mret m) t))
    with ((m ← spawn tool quiet_world Decompress (Container (container r)) (Decompressing c0); chmod quiet_world (Decompressing c0) (mode r) ;; mret m) t2).
    unfold mbind, M_bind. by rewrite E3, E4. }
  rewrite Hk. unfold mbind, M_bind. by rewrite E5.
Qed.

Lemma same_files t r j : (∀ p, p ∈ paths r → names t !! Own p = Some j) → ∀ c0 al, paths r = c0 :: al →
  forallb (λ p, same_file t (Own p) (Own c0)) (paths r) = true.
Proof.
  intros Hall c0 al Hp. apply forallb_forall. intros p Hin%list_elem_of_In. unfold same_file.
  rewrite (Hall p Hin), (Hall c0) by (rewrite Hp; by left). apply bool_decide_eq_true. split; [by eexists|done].
Qed.

Lemma restore_record_spec s t r w o t' : disk_ok s → disk_ok t → paths r ≠ [] → rec_state s t r →
  restore_record tool w r t = (o, t') →
  touches (names_of r) t t' ∧ rec_state s t' r ∧ (is_ok o = true → complete s t' r) ∧ (w = quiet_world → is_ok o = true).
Proof.
  intros Hs Ht Hne Hst. unfold restore_record. destruct (paths r) as [|c0 al] eqn:Hp; [done|].
  unfold mbind at 1, M_bind at 1. destruct (restore_canonical tool w r c0 t) as [o1 t1] eqn:E1.
  pose proof (λ H : w = quiet_world, canonical_quiet s t r c0 al Hp Hst) as Hq1.
  assert (w = quiet_world → is_ok o1 = true) as Hok1 by (intros ->; specialize (Hq1 eq_refl); by rewrite E1 in Hq1).
  apply (restore_canonical_spec s t r c0 al) in E1 as [T1 B1]; [|done..].
  destruct o1 as [ms|e]; [|intros [= <- <-]; split_and!; [done|by left|done|done]].
  destruct B1 as [j B1]. unfold mbind at 1, M_bind at 1. destruct (for_each al (restore_alias w c0) t1) as [o2 t2] eqn:E2.
  apply (aliases_spec s r j c0 al w Hp) in E2 as (T2 & B2 & N2 & Q2 & K2); [|done|apply T1|done].
  pose proof (touches_trans _ _ _ _ T1 T2) as T.
  destruct o2 as [[]|e]; [|intros [= <- <-]; split_and!; [done|right; by exists j|done|by intros Hw%Q2]].
  assert (∀ p, p ∈ paths r → names t2 !! Own p = Some j) as Hall.
  { intros p. rewrite Hp. intros [->|Hin]%elem_of_cons; [apply (bk_head _ _ _ _ B2); by rewrite Hp|by apply N2]. }
  rewrite bind_get, bind_raise_if. rewrite <- Hp, (same_files t2 r j Hall c0 al Hp). cbn. intros [= <- <-].
  split_and!; [done|right; by exists j|intros _; by exists j|done].
Qed.

(** ** A compressed snapshot at rest or half restored *)

Record held (s : disk) (d : document) (t : disk) : Prop := {
  he_ok : disk_ok t;
  he_others : ∀ q, user q = true → (∀ r, r ∈ groups d → names_of r q = false) →
    names t !! q = names s !! q ∧ ∀ i, names s !! q = Some i → inodes t !! i = inodes s !! i;
  he_records : ∀ r, r ∈ groups d → rec_state s t r;
  he_manifest : (∃ m, file t Manifest = Some (Doc d, m)) ∨ (names t !! Manifest = None ∧ ∀ r, r ∈ groups d → complete s t r);
}.

(** Records have no name in common. *)
Lemma planned_disjoint s d r r' p : planned s d → r ∈ groups d → r' ∈ groups d → p ∈ paths r → p ∈ paths r' → r = r'.
Proof.
  intros (ks & Hnd & H2 & _) [n Hn]%list_elem_of_lookup [n' Hn']%list_elem_of_lookup Hp Hp'.
  destruct (Forall2_lookup_l _ _ _ n (paths r) H2) as (i & Hi & _ & Hg & _); [by rewrite list_lookup_fmap, Hn|].
  destruct (Forall2_lookup_l _ _ _ n' (paths r') H2) as (i' & Hi' & _ & Hg' & _); [by rewrite list_lookup_fmap, Hn'|].
  assert (i = i') as <- by (apply Hg in Hp; apply Hg' in Hp'; congruence).
  assert (n = n') as -> by (by eapply NoDup_lookup). congruence.
Qed.
Lemma planned_group s d r : planned s d → r ∈ groups d → ∃ i, group_of s (paths r) i.
Proof.
  intros (ks & Hnd & H2 & _) [n Hn]%list_elem_of_lookup.
  destruct (Forall2_lookup_l _ _ _ n (paths r) H2) as (i & _ & Hg); [by rewrite list_lookup_fmap, Hn|]. by exists i.
Qed.
Lemma head_in (r : record) p : head (paths r) = Some p → p ∈ paths r.
Proof. destruct (paths r); [done|]. intros [= ->]. by left. Qed.
Lemma names_of_disjoint s d r r' q : planned s d → r ∈ groups d → r' ∈ groups d → r ≠ r' → names_of r q = true → names_of r' q = false.
Proof.
  intros Hp Hr Hr' Hne Hq. apply not_true_iff_false. intros Hq'. destruct q; try done; cbn in Hq, Hq';
    apply bool_decide_eq_true in Hq, Hq'; try apply head_in in Hq; try apply head_in in Hq'; by eapply Hne, planned_disjoint.
Qed.

(** What touches other names leaves a record as it is. *)
Lemma back_outside P s t t' r j : paths r ≠ [] → disk_ok t → touches P t t' → (∀ p, p ∈ paths r → P (Own p) = false) →
  back s t r j → back s t' r j.
Proof.
  intros Hne Ht T Hout [B1 B2 B3 B4].
  assert (∀ p, p ∈ paths r → names t' !! Own p = names t !! Own p) as Hsame by (intros p Hp; by apply (to_outside _ _ _ T), Hout).
  assert (∃ c0 al, paths r = c0 :: al) as (c0 & al & Hp) by (clear -Hne; destruct (paths r); [done|eauto]).
  assert (names t !! Own c0 = Some j) as Hc by (apply B1; by rewrite Hp).
  assert (c0 ∈ paths r) as Hc0 by (rewrite Hp; by left).
  split.
  - intros c Hh. rewrite Hp in Hh. injection Hh as <-. by rewrite Hsame.
  - destruct B2 as (i & c & H1 & H2 & H3). exists i, c. split_and!; [done..|].
    by rewrite (proj2 (to_outside _ _ _ T (Own c0) (Hout c0 Hc0))).
  - intros p Hin. rewrite Hsame by done. auto.
  - intros q Hq. destruct (P q) eqn:Eq.
    + exfalso. destruct (to_inside _ _ _ T q j Eq Hq) as [Hf|(p & Hp1 & Hp2)].
      * pose proof (proj1 (ok_bound _ Ht _ _ Hc)). lia.
      * apply B4 in Hp2 as (p' & Hp' & ->). by rewrite Hout in Hp1.
    + rewrite (proj1 (to_outside _ _ _ T q Eq)) in Hq. by apply B4 in Hq.
Qed.
Lemma complete_outside P s t t' r : paths r ≠ [] → disk_ok t → touches P t t' → (∀ p, p ∈ paths r → P (Own p) = false) →
  complete s t r → complete s t' r.
Proof.
  intros Hne Ht T Hout [j [B Hj]]. exists j. split; [by eapply back_outside|]. intros p Hp.
  rewrite (proj1 (to_outside _ _ _ T _ (Hout p Hp))). auto.
Qed.
Lemma state_outside P s t t' r : paths r ≠ [] → disk_ok t → touches P t t' → (∀ p, p ∈ paths r → P (Own p) = false) →
  P (Container (container r)) = false → rec_state s t r → rec_state s t' r.
Proof.
  intros Hne Ht T Hout Hc [[Ha Hp]|[j Hj]]; [left|right; exists j; by eapply back_outside].
  split; [|by eapply packs_touched]. intros p Hin. rewrite (proj1 (to_outside _ _ _ T _ (Hout p Hin))). auto.
Qed.
Lemma names_apart s d r r' p : planned s d → r ∈ groups d → r' ∈ groups d → r' ≠ r → p ∈ paths r' → names_of r (Own p) = false.
Proof. intros Hpl Hr Hr' Hne Hp. apply (names_of_disjoint s d r' r); [done..|]. by apply bool_decide_eq_true. Qed.
Lemma planned_paths s d r : planned s d → r ∈ groups d → paths r ≠ [].
Proof. intros Hpl Hr. by destruct (planned_group s d r Hpl Hr) as (i & Hne & _). Qed.

(** [held] with the manifest in place. *)
Definition listed (d : document) (t : disk) : Prop := ∃ m, file t Manifest = Some (Doc d, m).

Lemma held_record s d t r w o t' : disk_ok s → planned s d → held s d t → listed d t → r ∈ groups d → restore_record tool w r t = (o, t') →
  held s d t' ∧ listed d t' ∧ (is_ok o = true → complete s t' r) ∧ (w = quiet_world → is_ok o = true) ∧
  ∀ r', r' ∈ groups d → r' ≠ r → complete s t r' → complete s t' r'.
Proof.
  intros Hs Hpl Hh [m Hm] Hr Hrun. destruct (planned_group s d r Hpl Hr) as (i & Hne & _). pose proof (he_ok _ _ _ Hh) as Ht.
  apply (restore_record_spec s t) in Hrun as (T & Hst & Hok & Hq); [|done..|by apply Hh].
  assert (listed d t') as Hl by (exists m; by rewrite (touches_file _ _ _ _ T)).
  split_and!; [|done..|intros r' Hr' Hne' Hc].
  2:{ eapply complete_outside; [by eapply planned_paths|exact Ht|exact T| |done]. intros p Hp. exact (names_apart s d r r' p Hpl Hr Hr' Hne' Hp). }
  split; [apply T| |intros r' Hr'|by left].
  - intros q Hq' Hall. destruct (he_others _ _ _ Hh q Hq' Hall) as [E1 E2]. destruct (to_outside _ _ _ T q (Hall r Hr)) as [E3 E4].
    split; [congruence|]. intros k Hk. rewrite E4 by congruence. by apply E2.
  - destruct (decide (r' = r)) as [->|Hne']; [done|].
    eapply state_outside; [by eapply planned_paths|exact Ht|exact T| |done|by apply Hh].
    intros p Hp. exact (names_apart s d r r' p Hpl Hr Hr' Hne' Hp).
Qed.

Lemma held_records s d w : disk_ok s → planned s d → ∀ rs t o t', (∀ r, r ∈ rs → r ∈ groups d) → NoDup rs → held s d t → listed d t →
  restore_records tool w rs t = (o, t') →
  held s d t' ∧ listed d t' ∧ (is_ok o = true → ∀ r, r ∈ rs → complete s t' r) ∧ (w = quiet_world → is_ok o = true) ∧
  ∀ r, r ∈ groups d → r ∉ rs → complete s t r → complete s t' r.
Proof.
  intros Hs Hpl rs. induction rs as [|r rs IH]; intros t o t' Hrs Hnd Hh Hl; cbn [restore_records].
  { intros [= <- <-]. split_and!; [done..|intros _ r Hr; by apply elem_of_nil in Hr|done|done]. }
  apply NoDup_cons in Hnd as [Hnin Hnd]. unfold mbind at 1, M_bind at 1.
  destruct (restore_record tool w r t) as [o1 t1] eqn:E1.
  apply (held_record s d) in E1 as (H1 & L1 & C1 & Q1 & K1); [|done..|apply Hrs; by left].
  destruct o1 as [ms|e].
  2:{ intros [= <- <-]. split_and!; [done..|]. intros r' Hr' Hn Hc. apply K1; [done| |done]. intros ->. apply Hn. by left. }
  unfold mbind, M_bind. destruct (restore_records tool w rs t1) as [o2 t2] eqn:E2.
  apply IH in E2 as (H2 & L2 & C2 & Q2 & K2); [|intros; apply Hrs; by right|done..].
  assert (∀ r', r' ∈ groups d → r' ∉ r :: rs → complete s t r' → complete s t2 r') as HK.
  { intros r' Hr' Hn Hc. apply K2; [done|intros ?; apply Hn; by right|]. apply K1; [done| |done]. intros ->. apply Hn. by left. }
  assert (∀ r', r' ∈ r :: rs → is_ok o2 = true → complete s t2 r') as HC.
  { intros r' [->|Hin]%elem_of_cons Hok; [apply K2; [apply Hrs; by left|done|by apply C1]|by apply C2]. }
  destruct o2 as [ms'|e]; intros [= <- <-]; split_and!; done || (intros _ r' Hr'; by apply HC) || done.
Qed.

Lemma within_drop (d : document) w P : (∀ p, inside p = true ∨ p = Manifest → P p = true) → within P (drop_containers w d).
Proof.
  intros HP. apply within_bind; [apply within_for_each; intros r _; apply within_unlink, HP; by left|]. intros _.
  apply within_bind; [apply within_rmtree; auto|]. intros _. apply within_unlink, HP. by right.
Qed.

Definition store_names (p : path) : bool := inside p || bool_decide (p = Manifest).

(** The last step keeps what is restored; the manifest is there, or gone. *)
Lemma held_drop s d t w o t' : planned s d → held s d t → listed d t → (∀ r, r ∈ groups d → complete s t r) →
  drop_containers w d t = (o, t') → held s d t' ∧ (∀ r, r ∈ groups d → complete s t' r) ∧ (w = quiet_world → is_ok o = true).
Proof.
  intros Hpl Hh [m Hm] Hc Hrun. pose proof (he_ok _ _ _ Hh) as Ht.
  assert (touches store_names t t') as T.
  { change t' with (o, t').2. rewrite <- Hrun. apply within_drop; [|done]. unfold store_names.
    intros p [->| ->]; [done|]. by rewrite orb_true_r. }
  assert (∀ r, r ∈ groups d → complete s t' r) as Hc' by (intros r Hr; eapply complete_outside; [by eapply planned_paths|exact Ht|exact T|done|auto]).
  split_and!; [|done|].
  - split; [apply T| |intros r Hr; right; destruct (Hc' r Hr) as (j & B & _); by exists j|].
    + intros q Hq Hall. destruct (he_others _ _ _ Hh q Hq Hall) as [E1 E2].
      destruct (to_outside _ _ _ T q) as [E3 E4]; [by destruct q|]. split; [congruence|]. intros k Hk. rewrite E4 by congruence. auto.
    + revert Hrun. unfold drop_containers. unfold mbind at 1, M_bind at 1. destruct (for_each _ _ t) as [o1 t1] eqn:E1.
      assert (touches inside t t1) as T1.
      { change t1 with (o1, t1).2. rewrite <- E1. apply within_for_each; [|done]. intros r _. by apply within_unlink. }
      assert (∀ u, touches inside t u → ∃ m, file u Manifest = Some (Doc d, m)) as Hkeep
        by (intros u Hu; exists m; by rewrite (touches_file _ _ _ _ Hu)).
      destruct o1; [|intros [= <- <-]; left; by apply Hkeep].
      pose proof (touches_trans _ _ _ _ T1 (within_rmtree w inside ltac:(done) t1 (to_ok _ _ _ T1))) as T2.
      unfold mbind at 1, M_bind at 1. destruct (rmtree w t1) as [[[]|e] t2]; cbn [snd] in T2; [|intros [= <- <-]; left; by apply Hkeep].
      unfold unlink, sys, mbind, M_bind. destruct (fault w Unlink (ticks t2)); intros [= <- <-].
      * left. destruct (Hkeep t2 T2) as [m' Hm']. by exists m'.
      * right. split; [cbn; apply lookup_delete_eq|done].
  - intros ->. revert Hrun. unfold drop_containers, mbind, M_bind.
    assert (∀ l u, ∃ u', for_each l (λ r, unlink quiet_world (Container (container r))) u = (Ok tt, u')) as Hq.
    { clear. intros l. induction l as [|r l IH]; intros u; cbn [for_each]; [by eexists|]. unfold mbind, M_bind. cbn. apply IH. }
    destruct (Hq (groups d) t) as [u ->]. cbn. by intros [= <- _].
Qed.

Lemma planned_nodup s d : planned s d → NoDup (groups d).
Proof.
  intros (ks & _ & _ & Hc). assert (NoDup (container <$> groups d)) as H by (rewrite Hc; apply NoDup_seq). by apply NoDup_fmap_1 in H.
Qed.

Lemma held_tick s d t : planned s d → held s d t → held s d (tick t).
Proof.
  intros Hpl Hh. pose proof (he_ok _ _ _ Hh) as Ht. pose proof (tick_touches (λ _, false) t Ht) as T.
  split; [by apply tick_ok|apply (he_others _ _ _ Hh)| |].
  - intros r Hr. eapply state_outside; [by eapply planned_paths|exact Ht|exact T|done..|by apply Hh].
  - destruct (he_manifest _ _ _ Hh) as [?|[? Hc]]; [by left|right]. split; [done|]. intros r Hr.
    eapply complete_outside; [by eapply planned_paths|exact Ht|exact T|done|auto].
Qed.

(** An attempt to decompress, however it ends, leaves a snapshot the next one can
    go on with. *)
Lemma held_decompress s d t w o t' : disk_ok s → planned s d → held s d t → decompress_snapshot tool w t = (o, t') →
  held s d t' ∧ (w = quiet_world → is_ok o = true ∧ ∀ r, r ∈ groups d → complete s t' r).
Proof.
  intros Hs Hpl Hh. pose proof (he_ok _ _ _ Hh) as Ht. unfold decompress_snapshot, exists_, gets. unfold mbind at 1, M_bind at 1.
  case_bool_decide as He.
  2:{ intros [= <- <-]. split; [done|]. intros _. split; [done|]. destruct (he_manifest _ _ _ Hh) as [[m Hm]|[_ Hc]]; [|done].
      destruct He. unfold file in Hm. destruct (names t !! Manifest); [by eexists|done]. }
  destruct (he_manifest _ _ _ Hh) as [[m Hm]|[Hn _]]; [|rewrite Hn in He; by destruct He].
  unfold read_text, sys, mbind, M_bind. destruct (fault w Read (ticks t)) as [e|] eqn:Ef; cbn.
  { intros [= <- <-]. split; [by apply held_tick|by intros ->]. }
  rewrite file_tick, Hm. cbn. destruct (restore_records tool w (groups d) (tick t)) as [o1 t1] eqn:E1.
  apply (held_records s d) in E1 as (H1 & L1 & C1 & Q1 & _); [|done..|by eapply planned_nodup|by apply held_tick|by exists m].
  destruct o1 as [ms|e]; [|intros [= <- <-]; split; [done|by intros ?%Q1]].
  destruct (drop_containers w d t1) as [o2 t2] eqn:E2.
  apply (held_drop s d) in E2 as (H2 & C2 & Q2); [|done..|by apply C1].
  destruct o2; intros [= <- <-]; (split; [done|]); intros Hw; [by split|by apply Q2 in Hw].
Qed.

Lemma unlinking_held s d t : planned s d → unlinking tool s d t → (∀ r p, r ∈ groups d → p ∈ paths r → names t !! Own p = None) → held s d t.
Proof.
  intros Hpl [U1 U2 U3 U4] Hgone. split; [done| |intros r Hr; left; split; [by intros; eapply Hgone|auto]|by left].
  intros q Hq Hall. destruct (U4 q Hq) as [?|(_ & r & p & Hr & Hp & ->)]; [done|].
  exfalso. specialize (Hall r Hr). cbn in Hall. by apply bool_decide_eq_false in Hall.
Qed.

(** What the user sees. *)
Lemma restored s d t : disk_ok s → planned s d → held s d t → (∀ r, r ∈ groups d → complete s t r) →
  (∀ q, user q = true → file t q = file s q) ∧
  ∀ q q', user q = true → user q' = true → same_file t q q' = same_file s q q'.
Proof.
  intros Hs Hpl Hh Hc.
  assert (∀ q, user q = true → (names t !! q = names s !! q ∧ (∀ i, names s !! q = Some i → inodes t !! i = inodes s !! i) ∧ ∀ r, r ∈ groups d → names_of r q = false) ∨
    ∃ r p, r ∈ groups d ∧ p ∈ paths r ∧ q = Own p) as Hcase.
  { intros q Hq. destruct (existsb (λ r, names_of r q) (groups d)) eqn:E.
    - apply existsb_exists in E as (r & Hr%list_elem_of_In & E). right. destruct q as [p| | | | | | |]; try done.
      cbn in E. apply bool_decide_eq_true in E. by exists r, p.
    - left. assert (∀ r, r ∈ groups d → names_of r q = false) as Hall.
      { intros r Hr. apply not_true_iff_false. intros Hq'. apply not_true_iff_false in E. apply E, existsb_exists. exists r.
        split; [by apply list_elem_of_In|done]. }
      destruct (he_others _ _ _ Hh q Hq Hall). done. }
  assert (∀ r p, r ∈ groups d → p ∈ paths r → ∃ i j, names s !! Own p = Some i ∧ names t !! Own p = Some j ∧ inodes t !! j = inodes s !! i ∧
    ∀ q, user q = true → names s !! q = Some i ↔ names t !! q = Some j) as Hrec.
  { intros r p Hr Hp. destruct (Hc r Hr) as (j & [B1 (i & c & P1 & P2 & P3) B3 B4] & Hj). exists i, j.
    split_and!; [auto..|congruence|]. intros q Hq. destruct (planned_group s d r Hpl Hr) as (i' & _ & G1 & G2).
    assert (i' = i) as -> by (specialize (P1 p Hp); specialize (G1 p Hp); congruence). split.
    - intros (p' & Hp' & ->)%G2. auto.
    - intros (p' & Hp' & ->)%B4. auto. }
  split.
  - intros q Hq. unfold file. destruct (Hcase q Hq) as [(-> & E & _)|(r & p & Hr & Hp & ->)].
    + destruct (names s !! q) as [i|]; [cbn; by apply E|done].
    + destruct (Hrec r p Hr Hp) as (i & j & -> & -> & E & _). done.
  - intros q q' Hq Hq'. unfold same_file. apply bool_decide_ext.
    destruct (Hcase q Hq) as [(E & _)|(r & p & Hr & Hp & ->)].
    + destruct (Hcase q' Hq') as [(E' & _)|(r & p & Hr & Hp & ->)]; [by rewrite E, E'|].
      destruct (Hrec r p Hr Hp) as (i & j & Ei & Ej & _ & Hiff). rewrite Ei, Ej, E. rewrite <- E.
      specialize (Hiff q Hq). rewrite E in *. naive_solver.
    + destruct (Hrec r p Hr Hp) as (i & j & Ei & Ej & _ & Hiff). rewrite Ei, Ej. specialize (Hiff q' Hq').
      split; intros [_ H]; (split; [by eexists|]); symmetry; apply Hiff; by symmetry.
Qed.
End decompression.

(** ** Compressed snapshots come back *)

(** C29: a compressed snapshot has none of the packed files on disk; after any
    number of attempts to decompress it, each failing or interrupted wherever the
    system calls may fail, an attempt without failures succeeds, and every file of
    the user has its content and its mode back, and two names are links of one
    file exactly when they were before the compression. *)
Theorem compress_roundtrip (tool : operation → content → option content * outcome metrics) (allocated : content → Z) (w : world)
    (ws : list world) (s t : disk) (agg : aggregate)
    (Hwrites : ∀ op x m, tool op x ≠ (None, Ok m))
    (Hlossless : ∀ c y m, tool Compress c = (Some y, Ok m) → ∃ m', tool Decompress y = (Some c, Ok m'))
    (Hs : disk_ok s) (Hfirst : names s !! Manifest = None)
    (Hrun : compress_snapshot tool allocated w s = (Ok agg, t)) :
  (∃ d m, file t Manifest = Some (Doc d, m) ∧ doc_metrics d = agg ∧ ∀ r p, r ∈ groups d → p ∈ paths r → names t !! Own p = None) ∧
  let u := foldl (λ u w', (decompress_snapshot tool w' u).2) t ws in
  let v := (decompress_snapshot tool quiet_world u).2 in
  is_ok (decompress_snapshot tool quiet_world u).1 = true ∧
  (∀ q, user q = true → file v q = file s q) ∧
  ∀ q q', user q = true → user q' = true → same_file v q q' = same_file s q q'.
Proof.
  apply compress_ok in Hrun as (d & Hu & Hpl & Ed & Hgone); [|done..]. split.
  { destruct (un_manifest _ _ _ _ Hu) as [m Hm]. by exists d, m. }
  assert (∀ u, held tool s d u → held tool s d (foldl (λ u w', (decompress_snapshot tool w' u).2) u ws)) as Hattempts.
  { induction ws as [|w' ws' IH]; intros u Hh; [done|]. cbn. apply IH.
    destruct (decompress_snapshot tool w' u) as [o u'] eqn:E. by apply (held_decompress tool Hwrites Hlossless s d) in E as [? _]. }
  specialize (Hattempts t (unlinking_held tool s d t Hpl Hu Hgone)). intros u v.
  destruct (decompress_snapshot tool quiet_world u) as [o v'] eqn:E. apply (held_decompress tool Hwrites Hlossless s d) in E as [Hh Hq]; [|done..].
  destruct (Hq eq_refl) as [Hok Hc]. split; [done|]. by apply (restored tool s d).
Qed.

(** A compression that fails or is interrupted at any point, with unlink calls
    that can be interrupted but do not fail, loses nothing: every file of the user
    is as it was, or is listed by the manifest with a container that gives back its
    content and its mode. *)
Theorem compress_loses_nothing (tool : operation → content → option content * outcome metrics) (allocated : content → Z) (w : world)
    (s t : disk) (o : outcome aggregate)
    (Hwrites : ∀ op x m, tool op x ≠ (None, Ok m))
    (Hlossless : ∀ c y m, tool Compress c = (Some y, Ok m) → ∃ m', tool Decompress y = (Some c, Ok m'))
    (Hs : disk_ok s) (Hfirst : names s !! Manifest = None)
    (Hunlink : ∀ n e, fault w Unlink n = Some e → is_exception e = false)
    (Hrun : compress_snapshot tool allocated w s = (o, t)) (q : path) (c : content) (m : Z)
    (Hq : user q = true) (Hfile : file s q = Some (c, m)) :
  file t q = Some (c, m) ∨
  ∃ d r p y md my m', file t Manifest = Some (Doc d, md) ∧ r ∈ groups d ∧ p ∈ paths r ∧ q = Own p ∧ mode r = m ∧
    file t (Container (container r)) = Some (y, my) ∧ tool Decompress y = (Some c, Ok m').
Proof.
  apply compress_safe in Hrun as [T|[d [U1 [md U2] U3 U4]]]; [| |done..].
  { left. rewrite (touches_file _ _ _ _ T); [done|]. by apply internal_user. }
  unfold file in Hfile. destruct (names s !! q) as [i|] eqn:Ei; [|done]. cbn in Hfile.
  destruct (U4 q Hq) as [[E1 E2]|(_ & r & p & Hr & Hp & ->)].
  - left. unfold file. rewrite E1, Ei. cbn. by rewrite E2.
  - right. destruct (U3 r Hr) as (i' & c' & y & my & met & P1 & P2 & P3 & P4).
    rewrite (P1 p Hp) in Ei. injection Ei as <-. rewrite P2 in Hfile. injection Hfile as <- <-.
    destruct (Hlossless _ _ _ P4) as [m' Hm']. by exists d, r, p, y, md, my, m'.
Qed.

(** ** A concrete snapshot *)

Definition demo_metrics : metrics := Metrics 4096 65536 0 1 1 4096 16 100 0 0 64.
(** A tool that prefixes what it packs. *)
Definition demo_tool (op : operation) (c : content) : option content * outcome metrics :=
  match op, c with
  | Compress, Bytes d => (Some (Bytes (String (Ascii.Ascii false true false true true true true false) d)), Ok demo_metrics)
  | Decompress, Bytes (String (Ascii.Ascii false true false true true true true false) d) => (Some (Bytes d), Ok demo_metrics)
  | _, _ => (None, Raise (RuntimeError "snapshot operation failed"))
  end.
Lemma demo_writes op x m : demo_tool op x ≠ (None, Ok m).
Proof. destruct op, x as [[|[[] [] [] [] [] [] [] []] ?]| |]; done. Qed.
Lemma demo_lossless c y m : demo_tool Compress c = (Some y, Ok m) → ∃ m', demo_tool Decompress y = (Some c, Ok m').
Proof. destruct c; [|done..]. intros [= <- <-]. by exists demo_metrics. Qed.

(** The RAM file and a layer are one inode; another layer is shared outside. *)
Definition demo_disk : disk :=
  Disk (list_to_map [(Own Ram, 0); (Own (Layer "a"), 0); (Own (Layer "b"), 1); (Own (Layer "c"), 2); (Elsewhere "cow", 2); (Sidecar, 3)])%nat%string
    (list_to_map [(0%nat, (Bytes "ram", 384)); (1%nat, (Bytes "layer", 384)); (2%nat, (Bytes "shared", 384));
       (3%nat, (Lineage [("a", false); ("b", false); ("c", false); ("d", true)], 420))]%string) false 4 0 [].

Definition demo_fault (c : call) (n : nat) (e : exn) : world :=
  World (λ c' k, if bool_decide (c' = c) && (k =? n)%nat then Some e else None) (λ _, Some (Bytes "torn")) (λ _ _, false).

Definition disk_okb (s : disk) : bool :=
  let l := map_to_list (names s) in
  forallb (λ x : path * nat, (x.2 <? fresh s)%nat && bool_decide (is_Some (inodes s !! x.2))) l &&
  forallb (λ x, forallb (λ y, negb (x.2 =? y.2)%nat || bool_decide (x.1 = y.1) || (user x.1 && user y.1)) l) l &&
  forallb (λ x : nat * (content * Z), Z.land x.2.2 511 =? x.2.2) (map_to_list (inodes s)).
Lemma disk_okb_ok s : disk_okb s = true → disk_ok s.
Proof.
  unfold disk_okb. rewrite !andb_true_iff, !forallb_forall. intros [[H1 H2] H3]. split.
  - intros p i Hi%elem_of_map_to_list%list_elem_of_In%H1. cbn in Hi. apply andb_true_iff in Hi as [?%Nat.ltb_lt ?%bool_decide_eq_true]. done.
  - intros p q i Hp%elem_of_map_to_list%list_elem_of_In%H2 Hq%elem_of_map_to_list%list_elem_of_In Hne.
    rewrite forallb_forall in Hp. specialize (Hp _ Hq). cbn in Hp. rewrite Nat.eqb_refl, bool_decide_false in Hp by done.
    by apply andb_true_iff in Hp.
  - intros i c m Hi%elem_of_map_to_list%list_elem_of_In%H3. by apply Z.eqb_eq in Hi.
Qed.

Lemma demo_ok : disk_ok demo_disk.
Proof. apply disk_okb_ok. vm_compute. reflexivity. Qed.

Definition demo_alloc (c : content) : Z := 4096.
Definition demo_packed : disk := (compress_snapshot demo_tool demo_alloc quiet_world demo_disk).2.

(** One attempt fails to link the layer, the next is interrupted. *)
Definition demo_attempts : list world := [demo_fault Link 33 (OSError "EMLINK"); demo_fault Mkdir 35 KeyboardInterrupt].
Lemma compress_roundtrip_witness :
  let u := foldl (λ u w', (decompress_snapshot demo_tool w' u).2) demo_packed demo_attempts in
  let v := (decompress_snapshot demo_tool quiet_world u).2 in
  file demo_packed (Own Ram) = None ∧ file u (Own (Layer "a")) = None ∧ file u (Own Ram) = Some (Bytes "ram", 384) ∧
  file v (Own (Layer "a")) = Some (Bytes "ram", 384) ∧ same_file v (Own Ram) (Own (Layer "a")) = true.
Proof.
  assert (∃ agg, compress_snapshot demo_tool demo_alloc quiet_world demo_disk = (Ok agg, demo_packed)) as [agg Hrun].
  { eexists. vm_compute. reflexivity. }
  destruct (compress_roundtrip demo_tool demo_alloc quiet_world demo_attempts demo_disk demo_packed agg demo_writes demo_lossless demo_ok
    eq_refl Hrun) as [_ (_ & Hf & Hsame)].
  split_and!; [vm_compute; reflexivity..| |].
  - rewrite Hf by done. vm_compute. reflexivity.
  - rewrite Hsame by done. vm_compute. reflexivity.
Defined.

Lemma compress_loses_nothing_witness :
  let w := demo_fault Unlink 24 KeyboardInterrupt in
  let t := (compress_snapshot demo_tool demo_alloc w demo_disk).2 in
  names t !! Own Ram = None ∧ file t (Own (Layer "a")) = Some (Bytes "ram", 384) ∧
  ∃ r y my m', file t (Container (container r)) = Some (y, my) ∧ demo_tool Decompress y = (Some (Bytes "ram"), Ok m').
Proof.
  intros w t. split; [vm_compute; reflexivity|]. split; [vm_compute; reflexivity|].
  assert (∃ o t', compress_snapshot demo_tool demo_alloc w demo_disk = (o, t') ∧ t' = t) as (o & t' & Hrun & Et).
  { exists (compress_snapshot demo_tool demo_alloc w demo_disk).1, t. by rewrite <- surjective_pairing. }
  assert (∀ n e, fault w Unlink n = Some e → is_exception e = false) as Hw.
  { intros n e. unfold w. cbn. destruct (n =? 24)%nat; [by intros [= <-]|done]. }
  destruct (compress_loses_nothing demo_tool demo_alloc w demo_disk t' o demo_writes demo_lossless demo_ok eq_refl Hw Hrun
    (Own Ram) (Bytes "ram") 384 eq_refl eq_refl) as [H|(d & r & p & y & md & my & m' & _ & _ & _ & _ & _ & Hy & Hm)].
  - exfalso. rewrite Et in H. vm_compute in H. discriminate.
  - exists r, y, my, m'. rewrite <- Et. split; [exact Hy|exact Hm].
Defined.

(** An unlink call that fails runs the handler of the [try], which removes the
    containers although the first originals are gone. *)
Lemma failed_unlink_loses_data :
  let t := (compress_snapshot demo_tool demo_alloc (demo_fault Unlink 24 (OSError "EIO")) demo_disk).2 in
  file demo_disk (Own Ram) = Some (Bytes "ram", 384) ∧ names t !! Own Ram = None ∧ names t !! Manifest = None ∧ names t !! Container 0 = None.
Proof. vm_compute. split_and!; reflexivity. Qed.

(** After an interrupt between two links of one file, no attempt succeeds. *)
Lemma interrupted_unlink_never_restores :
  let t := (compress_snapshot demo_tool demo_alloc (demo_fault Unlink 24 KeyboardInterrupt) demo_disk).2 in
  (decompress_snapshot demo_tool quiet_world t).1 = Raise (RuntimeError "snapshot decompression did not restore hardlink identity").
Proof. vm_compute. reflexivity. Qed.
