(* ===== verification/SnapshotScheduling.v ===== *)
(** * Snapshot branching over two logical nodes (src/clawbox/experiments/snapshot_scheduling.py)

    [SnapshotStorage] stages a parent's snapshot files on the node that runs a
    branch and remembers which caches are complete; [SnapshotScheduler] chooses
    the node of a branch and bounds what runs on it; [_run_rollout] reselects
    while nodes run out of disk.  The sparse copy and the digest are used through
    the interface [SparseFiles], which SparseCopy implements. *)
From S2P Require Import Prelude Dict Ordering PyStrings SparseCopy.

(** ** Statistics *)

Definition nth_q (l : list Q) (i : Z) : Q := nth (Z.to_nat i) l 0%Q.

(** [_percentile] *)
Definition percentile (values : list Q) (quantile : Q) : option Q :=
  match values with
  | [] => None
  | _ =>
      let ordered := sort_by Qcompare values in
      let n := Z.of_nat (length ordered) in
      if n =? 1 then Some (nth_q ordered 0)
      else
        let position := (inject_Z (n - 1) * quantile)%Q in
        let lower := Qfloor position in
        let upper := Qceiling position in
        if lower =? upper then Some (nth_q ordered lower)
        else Some (nth_q ordered lower
                   + (nth_q ordered upper - nth_q ordered lower) * (position - inject_Z lower))%Q
  end.

(** [statistics.fmean] of a non-empty list *)
Definition qsum (l : list Q) : Q := foldr Qplus 0%Q l.
Definition fmean (l : list Q) : Q := (qsum l / inject_Z (Z.of_nat (length l)))%Q.

(** [_distribution] *)
Record distribution := Distribution { ds_avg : option Q; ds_p50 : option Q; ds_p90 : option Q }.
Definition distribution_of (values : list Q) : distribution :=
  Distribution (match values with [] => None | _ => Some (fmean values) end)
    (percentile values (1 # 2)) (percentile values (9 # 10)).

(** ** Files through an interface *)

Class SparseFiles := {
  copy_file : file → outcome (file * Z);
  digest_file : file → outcome string;
}.

(** What the storage relies on: a copy that returns is the file itself. *)
Class SparseLaws `{SparseFiles} : Prop := {
  copy_law : ∀ f g n, copy_file f = Ok (g, n) → g = f;
}.

(** SparseCopy on a Linux file system, [sha] standing for SHA-256; a copy that
    never returns is no outcome at all, so the instance speaks for files that do
    not end in a hole and raises on the others. *)
#[export] Instance linux_files (sha : list Z → string) : SparseFiles := {
  copy_file f := match copy_measured linux_seek_data linux_seek_hole (λ _ n, n) (λ _ n, n) (S (length f)) f with
                 | Some r => r | None => Raise (RuntimeError "does not return") end;
  digest_file f := match digest_input linux_seek_data linux_seek_hole (λ _ n, n) (S (length f)) f with
                   | Some r => input ← r; Ok (sha input)
                   | None => Raise (RuntimeError "does not return") end;
}.

#[export] Instance linux_files_laws sha : @SparseLaws (linux_files sha).
Proof.
  split. intros f g n. cbn [copy_file linux_files]. unfold copy_measured.
  assert (∀ pos m, 0 < m → 0 < (λ _ k : Z, k) pos m) as Hr by (intros; lia).
  assert (∀ pos m, 0 < m → 0 < (λ _ k : Z, k) pos m <= m) as Hw by (intros; lia).
  destruct (decide (last f = Some None)) as [He|He].
  - assert (length f ≠ 0)%nat by (by destruct f).
    destruct (loops_diverge linux_seek_data linux_seek_hole (λ _ k, k) (λ _ k, k)
      linux_seek_data_law linux_seek_hole_law Hr Hw f (S (length f)) He 0 (copied_to f 0) 0) as [E _];
      [lia|done|].
    rewrite copied_none in E. change (Z.of_nat 0) with 0 in E. by rewrite E.
  - pose proof (copy_loop_complete linux_seek_data linux_seek_hole (λ _ k, k) (λ _ k, k)
      linux_seek_data_law linux_seek_hole_law Hr Hw f (S (length f)) He 0) as E.
    rewrite copied_none in E. change (Z.of_nat 0) with 0 in E.
    change (data_count (take 0 f)) with 0 in E. rewrite E by lia. by intros [= <- <-].
Qed.

(** ** Storage *)

(** Where a file lives.  The shared directory is the one both nodes mount. *)
Inductive location :=
  | Parent (node key rel : string)        (** the source node's package directory *)
  | Cached (node key rel : string)        (** local cache/<key>/rootfs/<rel> *)
  | Branch (node rollout : string)        (** local branches/<rollout>.cow *)
  | SharedRootfs (key rel : string)
  | SharedMem (key rel : string)
  | WarmMem (key rel : string).
#[export] Instance location_eq_dec : EqDecision location.
Proof. solve_decision. Defined.

(** [ParentPackage] *)
Record package := Package {
  pk_key : string;
  source_node : string;
  rootfs_files : list string;
  memfile_files : list string;
  metadata_files : list string;
  hashes : gmap string string;
}.

Inductive transfer_mode := PeerDirect | SharedRelay | OtherMode.

(** [StageResult], the timings apart. *)
Record stage_result := StageResult {
  sr_rootfs_hit : bool;
  sr_memfile_hit : bool;
  sr_upload : Z;
  sr_download : Z;
  sr_memfile : Z;
  sr_metadata : Z;
}.

Record storage := Storage {
  files : dict location file;
  rootfs_cached : gset (string * string);
  warm_cached : gset string;
  shared_rootfs_cached : gset string;
  shared_memfile_cached : gset string;
  io_read : Z;
  io_write : Z;
  memfile_transfer : Z;
  metadata_transfer : Z;
}.

Definition storage_init (d : dict location file) : storage := Storage d ∅ ∅ ∅ ∅ 0 0 0 0.

Definition with_disk (d : dict location file) (s : storage) : storage :=
  Storage d (rootfs_cached s) (warm_cached s) (shared_rootfs_cached s) (shared_memfile_cached s)
    (io_read s) (io_write s) (memfile_transfer s) (metadata_transfer s).
Definition with_rootfs (c : gset (string * string)) (s : storage) : storage :=
  Storage (files s) c (warm_cached s) (shared_rootfs_cached s) (shared_memfile_cached s)
    (io_read s) (io_write s) (memfile_transfer s) (metadata_transfer s).
Definition with_shared_rootfs (c : gset string) (w : Z) (s : storage) : storage :=
  Storage (files s) (rootfs_cached s) (warm_cached s) c (shared_memfile_cached s)
    (io_read s) (io_write s + w) (memfile_transfer s) (metadata_transfer s).
Definition with_read (r : Z) (s : storage) : storage :=
  Storage (files s) (rootfs_cached s) (warm_cached s) (shared_rootfs_cached s) (shared_memfile_cached s)
    (io_read s + r) (io_write s) (memfile_transfer s) (metadata_transfer s).
Definition with_memfile (w m : gset string) (written data meta : Z) (s : storage) : storage :=
  Storage (files s) (rootfs_cached s) w (shared_rootfs_cached s) m
    (io_read s) (io_write s + written) (memfile_transfer s + data) (metadata_transfer s + meta).

Section storage.
Context `{SparseFiles} (mode : transfer_mode) (allocated : file → Z).

Definition rootfs_hit (p : package) (target : string) (s : storage) : bool :=
  bool_decide (target = source_node p) || bool_decide ((pk_key p, target) ∈ rootfs_cached s).
Definition memfile_hit (p : package) (s : storage) : bool :=
  bool_decide (pk_key p ∈ warm_cached s) || bool_decide (pk_key p ∈ shared_memfile_cached s).

(** The sizes of a package's files as the source node has them. *)
Definition size_of (p : package) (measure : file → Z) (rels : list string) (s : storage) : Z :=
  zsum ((λ rel, from_option measure 0 (files s !! Parent (source_node p) (pk_key p) rel)) <$> rels).
Definition rootfs_bytes (p : package) (s : storage) : Z := size_of p fsize (rootfs_files p) s.
Definition memfile_bytes (p : package) (s : storage) : Z := size_of p allocated (memfile_files p) s.
Definition metadata_bytes (p : package) (s : storage) : Z := size_of p fsize (metadata_files p) s.

(** [estimated_stage_bytes] *)
Definition estimated_stage_bytes (p : package) (target : string) (s : storage) : Z :=
  let copies := match mode with SharedRelay => 2 | _ => 1 end in
  (if rootfs_hit p target s then 0 else copies * rootfs_bytes p s)
  + (if memfile_hit p s then 0 else memfile_bytes p s) + metadata_bytes p s.

(** [feasible], with the free bytes of the target's disk. *)
Definition feasible (free : Z) (p : package) (target : string) (branch_bytes : Z) (s : storage) : bool :=
  branch_bytes + (if rootfs_hit p target s then 0 else rootfs_bytes p s + metadata_bytes p s) <=? free.

(** [_copy_measured] between two locations: the new file replaces atomically. *)
Definition copy_to (src dst : location) : M storage Z :=
  s ← get;
  match files s !! src with
  | None => raise (OSError "ENOENT")
  | Some f =>
      '(g, n) ← lift (copy_file f);
      put (with_disk (<[dst := g]> (files s)) s) ;;
      mret n
  end.

(** Copying some files of a package: payload and metadata bytes. *)
Fixpoint copy_all (p : package) (payload : list string) (src dst : string → location)
    (rels : list string) (a b : Z) : M storage (Z * Z) :=
  match rels with
  | [] => mret (a, b)
  | rel :: rels' =>
      n ← copy_to (src rel) (dst rel);
      if bool_decide (rel ∈ payload) then copy_all p payload src dst rels' (a + n) b
      else copy_all p payload src dst rels' a (b + n)
  end.

(** Every staged dependency against its recorded hash. *)
Fixpoint verify_all (p : package) (dst : string → location) (rels : list string) : M storage unit :=
  match rels with
  | [] => mret tt
  | rel :: rels' =>
      s ← get;
      match files s !! dst rel with
      | None => raise (OSError "ENOENT")
      | Some f =>
          d ← lift (digest_file f);
          match hashes p !! rel with
          | None => raise (KeyError rel)
          | Some h => raise_if (negb (bool_decide (d = h))) (RuntimeError "staged snapshot dependency hash mismatch")
          end
      end ;;
      verify_all p dst rels'
  end.

Definition staged_files (p : package) : list string := rootfs_files p ++ metadata_files p.

(** The upload of a relayed package, once per run. *)
Definition share (p : package) : M storage (Z * Z) :=
  s ← get;
  if bool_decide (pk_key p ∈ shared_rootfs_cached s) then mret (0, 0)
  else
    '(up, meta) ← copy_all p (rootfs_files p) (Parent (source_node p) (pk_key p)) (SharedRootfs (pk_key p))
                    (staged_files p) 0 0;
    modify (λ s, with_shared_rootfs ({[pk_key p]} ∪ shared_rootfs_cached s) (up + meta) s) ;;
    mret (up, meta).

(** The copies of [stage] for its transfer mode. *)
Definition transfer (p : package) (target : string) : M storage (Z * Z * Z) :=
  let parent := Parent (source_node p) (pk_key p) in
  let cache := Cached target (pk_key p) in
  match mode with
  | PeerDirect =>
      '(down, meta) ← copy_all p (rootfs_files p) parent cache (staged_files p) 0 0;
      mret (0, down, meta)
  | SharedRelay =>
      '(up, meta) ← share p;
      '(down, meta') ← copy_all p (rootfs_files p) (SharedRootfs (pk_key p)) cache (staged_files p) 0 0;
      modify (with_read (down + meta')) ;;
      mret (up, down, meta + meta')
  | OtherMode => raise (ValueError "unsupported snapshot transfer mode")
  end.

(** [stage] *)
Definition stage (p : package) (target : string) : M storage stage_result :=
  s ← get;
  if bool_decide (target = source_node p) then mret (StageResult true (memfile_hit p s) 0 0 0 0)
  else if rootfs_hit p target s then mret (StageResult true (memfile_hit p s) 0 0 0 0)
  else
    '(up, down, meta) ← transfer p target;
    verify_all p (Cached target (pk_key p)) (staged_files p) ;;
    modify (λ s, with_rootfs ({[(pk_key p, target)]} ∪ rootfs_cached s) s) ;;
    mret (StageResult false (memfile_hit p s) up down 0 meta).

(** [cache_memfile], with the free bytes of the warm pool. *)
Definition cache_memfile (free : Z) (p : package) : M storage stage_result :=
  s ← get;
  if memfile_hit p s then mret (StageResult true true 0 0 0 0)
  else
    let warm := memfile_bytes p s + metadata_bytes p s <=? free in
    '(data, meta) ← copy_all p (memfile_files p) (Parent (source_node p) (pk_key p))
                      (if warm then WarmMem (pk_key p) else SharedMem (pk_key p))
                      (memfile_files p ++ metadata_files p) 0 0;
    modify (λ s, with_memfile
      (if warm then {[pk_key p]} ∪ warm_cached s else warm_cached s)
      (if warm then shared_memfile_cached s else {[pk_key p]} ∪ shared_memfile_cached s)
      (if warm then 0 else data + meta) data meta s) ;;
    mret (StageResult true false 0 0 data meta).

(** [reserve_branch]: the file is created exclusively and then filled; a full
    disk is met while it is filled. *)
Definition reserve_branch (rollout target : string) (content : file) (filled : outcome unit) : M storage unit :=
  s ← get;
  if bool_decide (is_Some (files s !! Branch target rollout)) then raise (OSError "EEXIST")
  else put (with_disk (<[Branch target rollout := content]> (files s)) s) ;; lift filled.

(** [prepare_rollout] *)
Definition prepare_rollout (free : Z) (filled : outcome unit) (p : package) (target rollout : string)
    (branch_bytes : Z) (content : file) : M storage stage_result :=
  s ← get;
  raise_if (negb (feasible free p target branch_bytes s)) (OSError "ENOSPC") ;;
  reserve_branch rollout target content filled ;;
  try_except (stage p target)
    (λ e, modify (λ s, with_disk (delete (Branch target rollout) (files s)) s) ;; raise e).

(** ** A cached root file system is the parent's *)

(** The packages of the run: a key names one package. *)
Context (catalog : string → package) (catalog_key : ∀ k, pk_key (catalog k) = k).

Inductive storage_op :=
  | Stage (k target : string)
  | CacheMemfile (free : Z) (k : string)
  | Prepare (free : Z) (filled : outcome unit) (k target rollout : string) (branch_bytes : Z) (content : file).

Definition storage_step (o : storage_op) (s : storage) : storage :=
  match o with
  | Stage k target => (stage (catalog k) target s).2
  | CacheMemfile free k => (cache_memfile free (catalog k) s).2
  | Prepare free filled k target rollout b c => (prepare_rollout free filled (catalog k) target rollout b c s).2
  end.
Definition storage_run (os : list storage_op) (s : storage) : storage :=
  foldl (λ s o, storage_step o s) s os.

Definition parent_of (k rel : string) : location := Parent (source_node (catalog k)) k rel.

(** The file at [l] is the parent's [rel]. *)
Definition mirrors (s : storage) (l : location) (k rel : string) : Prop :=
  ∃ f, files s !! l = Some f ∧ files s !! parent_of k rel = Some f.
Definition verified (s : storage) (l : location) (k rel : string) : Prop :=
  ∃ f h, files s !! l = Some f ∧ hashes (catalog k) !! rel = Some h ∧ digest_file f = Ok h.

Record storage_ok (s : storage) : Prop := StorageOk {
  st_cached : ∀ k t rel, (k, t) ∈ rootfs_cached s → rel ∈ staged_files (catalog k) →
    mirrors s (Cached t k rel) k rel ∧ verified s (Cached t k rel) k rel;
  st_shared : ∀ k rel, k ∈ shared_rootfs_cached s → rel ∈ staged_files (catalog k) →
    mirrors s (SharedRootfs k rel) k rel;
}.

(** Only files in [W] change, and the caches stay. *)
Definition confined (W : location → Prop) (s s' : storage) : Prop :=
  (∀ l, ¬ W l → files s' !! l = files s !! l) ∧
  rootfs_cached s' = rootfs_cached s ∧ shared_rootfs_cached s' = shared_rootfs_cached s.

Lemma confined_refl W s : confined W s s.
Proof. done. Qed.
Lemma confined_trans W s1 s2 s3 : confined W s1 s2 → confined W s2 s3 → confined W s1 s3.
Proof.
  intros (H1 & H2 & H3) (H4 & H5 & H6). split_and!; [|congruence..]. intros l Hl. by rewrite H4, H1.
Qed.

(** Nothing the caches rely on is in [W]. *)
Definition harmless (W : location → Prop) (s : storage) : Prop :=
  (∀ n k rel, ¬ W (Parent n k rel)) ∧
  (∀ k t rel, (k, t) ∈ rootfs_cached s → ¬ W (Cached t k rel)) ∧
  (∀ k rel, k ∈ shared_rootfs_cached s → ¬ W (SharedRootfs k rel)).

Lemma confined_ok W s s' : storage_ok s → harmless W s → confined W s s' → storage_ok s'.
Proof.
  intros [H1 H2] (W1 & W2 & W3) (F & E1 & E2).
  assert (∀ l k rel, ¬ W l → mirrors s l k rel → mirrors s' l k rel) as Hm.
  { intros l k rel Hl (f & Hf & Hp). exists f. rewrite !F by (done || apply W1). done. }
  split.
  - intros k t rel Hc Hr. rewrite E1 in Hc. destruct (H1 k t rel Hc Hr) as [Hmir (f & h & Hf & Hh)].
    split; [apply Hm; [by apply W2|done]|]. exists f, h. by rewrite F by (by apply W2).
  - intros k rel Hc Hr. rewrite E2 in Hc. apply Hm; [by apply W3|by apply H2].
Qed.

Context {L : SparseLaws}.

Lemma copy_to_spec src dst s :
  confined (λ l, l = dst) s (copy_to src dst s).2 ∧
  ∀ n s', copy_to src dst s = (Ok n, s') → ∃ f, files s !! src = Some f ∧ files s' !! dst = Some f.
Proof.
  unfold copy_to. rewrite bind_get. destruct (files s !! src) as [f|] eqn:Es; [|done].
  unfold mbind, M_bind, lift. destruct (copy_file f) as [[g n]|e] eqn:Ec; [|done]. simpl. split.
  - split_and!; [|done..]. intros l Hl. by apply dict_lookup_insert_ne.
  - intros m s' [= _ <-]. exists f. rewrite (copy_law f g n Ec). split; [done|apply dict_lookup_insert_eq].
Qed.

Lemma confined_mono (W W' : location → Prop) s s' : (∀ l, W l → W' l) → confined W s s' → confined W' s s'.
Proof. intros HW (F & E). split; [|done]. intros l Hl. apply F. auto. Qed.

(** The places where files of a package are copied to. *)
Definition under (dst : string → location) (rels : list string) (l : location) : Prop :=
  ∃ rel, rel ∈ rels ∧ l = dst rel.

Lemma copy_all_spec p payload src dst rels : ∀ a b s,
  (∀ r r', dst r ≠ src r') → (∀ r r', dst r = dst r' → r = r') →
  confined (under dst rels) s (copy_all p payload src dst rels a b s).2 ∧
  ∀ ab s', copy_all p payload src dst rels a b s = (Ok ab, s') → ∀ rel, rel ∈ rels →
    ∃ f, files s !! src rel = Some f ∧ files s' !! dst rel = Some f.
Proof.
  induction rels as [|rel rels IH]; intros a b s Hd Hi; cbn [copy_all].
  { split; [done|]. by intros ab s' _ r ?%elem_of_nil. }
  destruct (copy_to_spec (src rel) (dst rel) s) as [Hc Hok]. unfold mbind, M_bind.
  assert (∀ s1, confined (λ l, l = dst rel) s s1 → confined (under dst (rel :: rels)) s s1) as Hw.
  { intros s1. apply confined_mono. intros l ->. exists rel. split; [by left|done]. }
  destruct (copy_to (src rel) (dst rel) s) as [[n|e] s1]; [|by split; [apply Hw|]].
  destruct (Hok n s1 eq_refl) as (f & Hf & Hg). simpl in Hc.
  set (a' := if bool_decide (rel ∈ payload) then a + n else a).
  set (b' := if bool_decide (rel ∈ payload) then b else b + n).
  replace (if bool_decide (rel ∈ payload) then copy_all p payload src dst rels (a + n) b
           else copy_all p payload src dst rels a (b + n)) with (copy_all p payload src dst rels a' b')
    by (subst a' b'; by destruct (bool_decide (rel ∈ payload))).
  destruct (IH a' b' s1 Hd Hi) as [Hc' Hok']. split.
  { eapply confined_trans; [by apply Hw|]. revert Hc'. apply confined_mono.
    intros l (r & Hr & ->). exists r. split; [by right|done]. }
  intros ab s' E r Hr. destruct (decide (r ∈ rels)) as [Hin|Hin].
  - destruct (Hok' ab s' E r Hin) as (g & Hg1 & Hg2). exists g. split; [|done].
    destruct Hc as (F & _). by rewrite <- F by (by apply not_eq_sym).
  - apply elem_of_cons in Hr as [->|]; [|done]. exists f. split; [done|]. rewrite E in Hc'.
    destruct Hc' as (F & _). simpl in F. rewrite F; [done|]. by intros (r & Hr & ->%Hi).
Qed.

Lemma verify_all_spec p dst rels s u s' : verify_all p dst rels s = (Ok u, s') →
  s' = s ∧ ∀ rel, rel ∈ rels → ∃ f h, files s !! dst rel = Some f ∧ hashes p !! rel = Some h ∧ digest_file f = Ok h.
Proof.
  revert u. induction rels as [|rel rels IH]; intros u E; cbn [verify_all] in E.
  { injection E as _ <-. split; [done|]. by intros r ?%elem_of_nil. }
  rewrite bind_get in E. apply bind_ok_inv in E as (? & s1 & E1 & E).
  destruct (files s !! dst rel) as [f|] eqn:Ef; [|done].
  apply bind_ok_inv in E1 as (d & s2 & [= Hd <-] & E1).
  destruct (hashes p !! rel) as [h|] eqn:Eh; [|done]. unfold raise_if in E1.
  case_bool_decide; simpl in E1; [|done]. injection E1 as _ <-. subst d.
  destruct (IH _ E) as [-> Hall]. split; [done|]. intros r [->|Hr]%elem_of_cons; [by exists f, h|by apply Hall].
Qed.

Lemma verify_all_pure p dst rels : ∀ s, (verify_all p dst rels s).2 = s.
Proof.
  induction rels as [|rel rels IH]; intros s; [done|]. cbn [verify_all]. rewrite bind_get.
  set (m := match files s !! dst rel with Some _ => _ | None => _ end). assert ((m s).2 = s) as Hm.
  { subst m. destruct (files s !! dst rel) as [f|]; [|done].
    unfold mbind, M_bind, lift. destruct (digest_file f); [|done]. destruct (hashes p !! rel); [|done].
    by destruct (negb _). }
  unfold mbind, M_bind. destruct (m s) as [[?|e] s1]; simpl in Hm; subst s1; [apply IH|done].
Qed.

Lemma cached_harmless k target rels s :
  (k, target) ∉ rootfs_cached s → harmless (under (Cached target k) rels) s.
Proof.
  intros Hc. split_and!; [by intros n k' rel (r & _ & [=])| |by intros k' rel _ (r & _ & [=])].
  intros k' t rel Hk (r & _ & [= -> -> _]). done.
Qed.
Lemma shared_harmless k rels s :
  k ∉ shared_rootfs_cached s → harmless (under (SharedRootfs k) rels) s.
Proof.
  intros Hc. split_and!; [by intros n k' rel (r & _ & [=])|by intros k' t rel _ (r & _ & [=])|].
  intros k' rel Hk (r & _ & [= -> _]). done.
Qed.

(** Copying a package's files from an intact copy of them. *)
Lemma copy_package k payload src dst rels s ab s' :
  (∀ r r', dst r ≠ src r') → (∀ r r', dst r = dst r' → r = r') → storage_ok s → harmless (under dst rels) s →
  copy_all (catalog k) payload src dst rels 0 0 s = (Ok ab, s') →
  (∀ rel f, rel ∈ rels → files s !! src rel = Some f → files s !! parent_of k rel = Some f) →
  confined (under dst rels) s s' ∧ storage_ok s' ∧ ∀ rel, rel ∈ rels → mirrors s' (dst rel) k rel.
Proof.
  intros Hd Hi Hs Hh E Hsrc. destruct (copy_all_spec (catalog k) payload src dst rels 0 0 s Hd Hi) as [Hc Hok].
  rewrite E in Hc. simpl in Hc. split; [done|]. split; [by eapply confined_ok|].
  intros rel Hr. destruct (Hok ab s' E rel Hr) as (f & Hf & Hg). exists f. split; [done|].
  rewrite (proj1 Hc); [by apply Hsrc|]. apply Hh.
Qed.

Lemma copy_all_ok k payload src dst rels s :
  (∀ r r', dst r ≠ src r') → (∀ r r', dst r = dst r' → r = r') → storage_ok s → harmless (under dst rels) s →
  storage_ok (copy_all (catalog k) payload src dst rels 0 0 s).2.
Proof.
  intros Hd Hi Hs Hh. eapply confined_ok; [exact Hs|exact Hh|]. by apply copy_all_spec.
Qed.

Lemma share_ok k s : storage_ok s →
  let r := share (catalog k) s in
  storage_ok r.2 ∧ rootfs_cached r.2 = rootfs_cached s ∧ (is_ok r.1 = true → k ∈ shared_rootfs_cached r.2).
Proof.
  intros Hs r. subst r. unfold share. rewrite bind_get, catalog_key. case_bool_decide as Hk; [done|].
  set (rels := staged_files (catalog k)). set (src := Parent (source_node (catalog k)) k).
  pose proof (shared_harmless k rels s Hk) as Hh.
  assert (∀ r r', SharedRootfs k r ≠ src r') as Hd by done.
  assert (∀ r r', SharedRootfs k r = SharedRootfs k r' → r = r') as Hi by (by intros r r' [=]).
  pose proof (copy_all_ok k (rootfs_files (catalog k)) src _ rels s Hd Hi Hs Hh) as Hok.
  pose proof (proj1 (copy_all_spec (catalog k) (rootfs_files (catalog k)) src _ rels 0 0 s Hd Hi)) as Hc.
  unfold mbind, M_bind.
  destruct (copy_all _ _ src _ rels 0 0 s) as [[[up meta]|e] s1] eqn:E; simpl in *; [|by split_and!; [|apply Hc|]].
  destruct (copy_package k _ src _ rels s _ s1 Hd Hi Hs Hh E) as (_ & [H1 H2] & Hm); [done|].
  split_and!; [|apply Hc|intros _; set_solver]. split; simpl.
  - apply H1.
  - intros k' rel Hk' Hr. destruct (decide (k' = k)) as [->|Hne]; [by apply Hm|].
    apply H2; [set_solver|done].
Qed.

Lemma transfer_ok k target s :
  storage_ok s → (k, target) ∉ rootfs_cached s →
  let r := transfer (catalog k) target s in
  storage_ok r.2 ∧ rootfs_cached r.2 = rootfs_cached s ∧
  (is_ok r.1 = true → ∀ rel, rel ∈ staged_files (catalog k) → mirrors r.2 (Cached target k rel) k rel).
Proof.
  intros Hs Hk r. subst r. unfold transfer. rewrite catalog_key.
  set (rels := staged_files (catalog k)). set (dst := Cached target k).
  assert (∀ r r', dst r = dst r' → r = r') as Hi by (by intros r r' [=]).
  destruct mode.
  - pose proof (cached_harmless k target rels s Hk) as Hh. set (src := Parent (source_node (catalog k)) k).
    assert (∀ r r', dst r ≠ src r') as Hd by done.
    pose proof (copy_all_ok k (rootfs_files (catalog k)) src _ rels s Hd Hi Hs Hh) as Hok.
    pose proof (proj1 (copy_all_spec (catalog k) (rootfs_files (catalog k)) src _ rels 0 0 s Hd Hi)) as Hc.
    unfold mbind, M_bind.
    destruct (copy_all _ _ src dst rels 0 0 s) as [[[down meta]|e] s1] eqn:E; simpl in *; [|by split_and!; [|apply Hc|]].
    split_and!; [done|apply Hc|]. intros _.
    by apply (copy_package k _ src _ rels s _ s1 Hd Hi Hs Hh E).
  - destruct (share_ok k s Hs) as (Hs1 & Hc1 & Hsh). unfold mbind, M_bind.
    destruct (share (catalog k) s) as [[[up meta]|e] s1]; simpl in *; [|done].
    rewrite <- Hc1 in Hk. pose proof (cached_harmless k target rels s1 Hk) as Hh.
    assert (∀ r r', dst r ≠ SharedRootfs k r') as Hd by done.
    pose proof (copy_all_ok k (rootfs_files (catalog k)) (SharedRootfs k) _ rels s1 Hd Hi Hs1 Hh) as Hok.
    pose proof (proj1 (copy_all_spec (catalog k) (rootfs_files (catalog k)) (SharedRootfs k) _ rels 0 0 s1 Hd Hi)) as Hc.
    destruct (copy_all _ _ (SharedRootfs k) dst rels 0 0 s1) as [[[down meta']|e] s2] eqn:E; simpl in *.
    2: { split_and!; [done| |done]. rewrite <- Hc1. apply Hc. }
    assert (storage_ok (with_read (down + meta') s2)) as Hok2.
    { destruct Hok as [O1 O2]. split; simpl; [apply O1|apply O2]. }
    split_and!; [done| |].
    + rewrite <- Hc1. apply Hc.
    + intros _. apply (copy_package k _ (SharedRootfs k) dst rels s1 _ s2 Hd Hi Hs1 Hh E).
      intros rel f Hr Hf. destruct (st_shared s1 Hs1 k rel (Hsh eq_refl) Hr) as (g & Hg & Hp). congruence.
  - done.
Qed.

(** A package whose staging succeeds is cached as the parent has it. *)
Lemma stage_ok k target s : storage_ok s →
  let r := stage (catalog k) target s in
  storage_ok r.2 ∧ (is_ok r.1 = true → target ≠ source_node (catalog k) → (k, target) ∈ rootfs_cached r.2).
Proof.
  intros Hs r. subst r. unfold stage. rewrite bind_get. case_bool_decide as Ht; [done|].
  unfold rootfs_hit. rewrite (bool_decide_eq_false_2 _ Ht), catalog_key. simpl.
  case_bool_decide as Hk; [done|]. destruct (transfer_ok k target s Hs Hk) as (Hs1 & Hc1 & Hm).
  destruct (transfer (catalog k) target s) as [[[[up down] meta]|e] s1] eqn:Et; simpl in Hs1, Hc1, Hm.
  2: { by rewrite (bind_raise _ _ _ _ _ Et). }
  rewrite (bind_ok _ _ _ _ _ Et). specialize (Hm eq_refl). unfold mbind, M_bind.
  pose proof (verify_all_pure (catalog k) (Cached target k) (staged_files (catalog k)) s1) as Hp.
  destruct (verify_all _ _ _ s1) as [[u|e] s2] eqn:Ev; simpl in Hp; subst s2; [|done].
  apply verify_all_spec in Ev as [_ Hv]. simpl. split; [|intros _ _; set_solver].
  destruct Hs1 as [O1 O2]. split; simpl; [|apply O2]. intros k' t rel Hk' Hr.
  destruct (decide ((k', t) = (k, target))) as [[= -> ->]|Hne].
  - split; [by apply Hm|by apply Hv].
  - apply O1; [set_solver|done].
Qed.

Lemma cache_memfile_ok free k s : storage_ok s → storage_ok (cache_memfile free (catalog k) s).2.
Proof.
  intros Hs. unfold cache_memfile. rewrite bind_get. destruct (memfile_hit (catalog k) s); [done|].
  rewrite catalog_key. set (warm := _ <=? free).
  set (dst := if warm then WarmMem k else SharedMem k). set (rels := memfile_files _ ++ _).
  set (src := Parent (source_node (catalog k)) k).
  assert (∀ r r', dst r ≠ src r') as Hd by (intros r r'; subst dst; by destruct warm).
  assert (∀ r r', dst r = dst r' → r = r') as Hi by (intros r r'; subst dst; by destruct warm; intros [=]).
  assert (harmless (under dst rels) s) as Hh.
  { subst dst. split_and!; [intros n k' rel|intros k' t rel _|intros k' rel _]; intros (r & _ & E); by destruct warm. }
  pose proof (copy_all_ok k (memfile_files (catalog k)) src dst rels s Hd Hi Hs Hh) as Hok.
  unfold mbind, M_bind. destruct (copy_all _ _ src dst rels 0 0 s) as [[[a b]|e] s1]; [|done].
  destruct Hok as [O1 O2]. by split.
Qed.

Lemma branch_ok (d : dict location file) target rollout s :
  storage_ok s → (∀ l, l ≠ Branch target rollout → d !! l = files s !! l) → storage_ok (with_disk d s).
Proof.
  intros Hs Hd. eapply (confined_ok (λ l, l = Branch target rollout)); [exact Hs| |].
  - by split_and!.
  - split_and!; [|done..]. intros l Hl. simpl. by apply Hd.
Qed.

Lemma reserve_branch_ok rollout target c filled s :
  storage_ok s → storage_ok (reserve_branch rollout target c filled s).2.
Proof.
  intros Hs. unfold reserve_branch. rewrite bind_get. case_bool_decide; [done|].
  apply (branch_ok (<[Branch target rollout := c]> (files s)) target rollout s Hs).
  intros l Hl. by apply dict_lookup_insert_ne.
Qed.

Lemma prepare_ok free filled k target rollout b c s :
  storage_ok s →
  let r := prepare_rollout free filled (catalog k) target rollout b c s in
  storage_ok r.2 ∧ (is_ok r.1 = true → target ≠ source_node (catalog k) → (k, target) ∈ rootfs_cached r.2).
Proof.
  intros Hs r. subst r. unfold prepare_rollout. rewrite bind_get.
  destruct (feasible free (catalog k) target b s); [|done].
  pose proof (reserve_branch_ok rollout target c filled s Hs) as Hr.
  change (raise_if (negb true) (OSError "ENOSPC")) with (mret tt : M storage unit).
  rewrite (bind_ok (mret tt) _ s tt s eq_refl).
  destruct (reserve_branch rollout target c filled s) as [[u|e] s1] eqn:Er; [|by rewrite (bind_raise _ _ _ _ _ Er)].
  rewrite (bind_ok _ _ _ _ _ Er). simpl in Hr. destruct (stage_ok k target s1 Hr) as [Hs2 Hc]. unfold try_except.
  destruct (stage (catalog k) target s1) as [[x|e] s2]; [done|]. split; [|done].
  apply (branch_ok _ target rollout s2 Hs2). intros l Hl. by apply dict_lookup_delete_ne.
Qed.

Lemma storage_step_ok o s : storage_ok s → storage_ok (storage_step o s).
Proof.
  intros Hs. destruct o; simpl; [by apply stage_ok|by apply cache_memfile_ok|by apply prepare_ok].
Qed.

(** What a node serves as a cached root file system is the parent's.  In
    every run of stagings, memfile caching and rollout preparations, whatever
    fails half way, every dependency of a package recorded as cached on a node is
    there, has the content and the holes of the source node's file, and matches
    the hash recorded with the package; and a staging or preparation that succeeds
    on another node has recorded it. *)
Theorem cached_rootfs_is_parent d os k target rel :
  let s := storage_run os (storage_init d) in
  ((k, target) ∈ rootfs_cached s → rel ∈ staged_files (catalog k) →
     ∃ f h, files s !! Cached target k rel = Some f ∧ files s !! parent_of k rel = Some f ∧
       hashes (catalog k) !! rel = Some h ∧ digest_file f = Ok h) ∧
  (target ≠ source_node (catalog k) → is_ok (stage (catalog k) target s).1 = true →
     (k, target) ∈ rootfs_cached (stage (catalog k) target s).2).
Proof.
  intros s. assert (storage_ok s) as Hs.
  { subst s. assert (storage_ok (storage_init d)) as H0 by (by split).
    revert H0. generalize (storage_init d). induction os as [|o os IH]; intros s0 H0; [done|].
    by apply IH, storage_step_ok. }
  split.
  - intros Hc Hr. destruct (st_cached s Hs k target rel Hc Hr) as [(f & Hf & Hp) (g & h & Hg & Hh & Hd)].
    exists f, h. assert (g = f) as -> by congruence. done.
  - intros Ht Hok. by apply (stage_ok k target s Hs).
Qed.
End storage.

(** One package with a sparse file, relayed from node0 to node1. *)
Definition demo_sha (input : list Z) : string := str (zsum input).
Definition demo_package (k : string) : package :=
  Package k "node0" ["rootfs"] [] ["package.json"] {["rootfs" := "45"; "package.json" := "10"]}.
Definition demo_disk : dict location file :=
  [(Parent "node0" "snap" "rootfs", demo_file); (Parent "node0" "snap" "package.json", [Some 9])] : list _.
Definition demo_ops : list storage_op := [Stage "snap" "node1"; CacheMemfile 0 "snap"].
Definition demo_storage : storage :=
  @storage_run (linux_files demo_sha) SharedRelay fsize demo_package demo_ops (storage_init demo_disk).

Lemma cached_rootfs_is_parent_witness :
  (("snap", "node1") ∈ rootfs_cached demo_storage ∧
   ∃ f h, files demo_storage !! Cached "node1" "snap" "rootfs" = Some f ∧
     files demo_storage !! parent_of demo_package "snap" "rootfs" = Some f ∧
     hashes (demo_package "snap") !! "rootfs" = Some h ∧ digest_file (SparseFiles := linux_files demo_sha) f = Ok h) ∧
  ("snap", "node1") ∈ rootfs_cached (@stage (linux_files demo_sha) SharedRelay (demo_package "snap") "node1" demo_storage).2.
Proof.
  assert (("snap", "node1") ∈ rootfs_cached demo_storage) as Hc by (by vm_compute).
  pose proof (@cached_rootfs_is_parent (linux_files demo_sha) SharedRelay fsize demo_package (λ _, eq_refl)
    (linux_files_laws demo_sha) demo_disk demo_ops "snap" "node1" "rootfs") as Hp.
  cbv zeta in Hp. fold demo_storage in Hp. split; [split; [exact Hc|]|].
  - apply (proj1 Hp Hc). by left.
  - apply (proj2 Hp); [done|]. vm_compute. reflexivity.
Defined.

(** ** The scheduler *)

(** [NodeState] *)
Record node_state := NodeState {
  ns_slots : Z;
  ns_memory_limit : Z;
  ns_vm_memory : Z;
  ns_active : Z;
  ns_waiting : Z;
  ns_completed : Z;
  ns_service_history : list Q;
  ns_restore_history : list Q;
  ns_peak_active : Z;
}.

(** [available] *)
Definition available (n : node_state) : bool :=
  (ns_active n <? ns_slots n) && ((ns_active n + 1) * ns_vm_memory n <=? ns_memory_limit n).

(** [history[-32:]] *)
Definition last32 (l : list Q) : list Q := drop (length l - 32) l.

Definition recent_mean (history : list Q) (default_ : Q) : Q :=
  match history with [] => default_ | _ => fmean (last32 history) end.

(** [estimated_queue] and [estimated_restore] *)
Definition estimated_queue (n : node_state) (default_service : Q) : Q :=
  (inject_Z (Z.max 0 (ns_active n + ns_waiting n + 1 - ns_slots n)) / inject_Z (ns_slots n)
   * recent_mean (ns_service_history n) default_service)%Q.
Definition estimated_restore (n : node_state) (default_restore : Q) : Q :=
  recent_mean (ns_restore_history n) default_restore.

(** What the scheduler reads of [SnapshotBranchingSpec]. *)
Record branching := Branching {
  per_node_concurrency : Z;
  per_node_memory_mib : Z;
  initial_restore_seconds : Q;
  migration_threshold_seconds : Q;
}.

Notation scheduler := (dict string node_state).

(** [SnapshotScheduler.__init__] *)
Definition scheduler_init (c : branching) (vm_memory : Z) (ns : list string) : scheduler :=
  foldl (λ d n, <[n := NodeState (per_node_concurrency c) (per_node_memory_mib c) vm_memory 0 0 0 [] [] 0]> d) ∅ ns.

Definition set_load (active waiting completed peak : Z) (n : node_state) : node_state :=
  NodeState (ns_slots n) (ns_memory_limit n) (ns_vm_memory n) active waiting completed
    (ns_service_history n) (ns_restore_history n) peak.
Definition set_history (service restore_ : list Q) (n : node_state) : node_state :=
  NodeState (ns_slots n) (ns_memory_limit n) (ns_vm_memory n) (ns_active n) (ns_waiting n) (ns_completed n)
    service restore_ (ns_peak_active n).

Inductive placement_policy := Affinity | LoadAware | SnapshotAware | OtherPolicy.

Section scheduler.
Context (c : branching).

(** The predicted seconds of a candidate. *)
Definition queue_seconds (n : node_state) : Q := estimated_queue n 1.
Definition total_seconds (stage_seconds : string → Q) (k : string) (n : node_state) : Q :=
  (queue_seconds n + stage_seconds k + estimated_restore n (initial_restore_seconds c))%Q.

(** [(candidates[node]["queue_seconds"], node)] and the same for the total *)
Definition by_queue (a b : string * node_state) : comparison :=
  lex (Qcompare (queue_seconds a.2) (queue_seconds b.2)) (String.compare a.1 b.1).
Definition by_total (stage_seconds : string → Q) (a b : string * node_state) : comparison :=
  lex (Qcompare (total_seconds stage_seconds a.1 a.2) (total_seconds stage_seconds b.1 b.2))
    (String.compare a.1 b.1).

Definition feasible_nodes (feasible : string → bool) (s : scheduler) : list (string * node_state) :=
  filter (λ kn, feasible kn.1 = true) (s : list _).

(** [candidates[node]["total_seconds"]] *)
Definition total_at (stage_seconds : string → Q) (s : scheduler) (k : string) : outcome Q :=
  match s !! k with Some n => Ok (total_seconds stage_seconds k n) | None => Raise (KeyError k) end.

(** [feasible[k]]: the caller's dict has the scheduler's nodes as keys. *)
Definition feasible_at (feasible : string → bool) (s : scheduler) (k : string) : outcome bool :=
  match s !! k with Some _ => Ok (feasible k) | None => Raise (KeyError k) end.

(** The node [choose] picks. *)
Definition selected (policy : placement_policy) (source : string) (feasible : string → bool)
    (stage_seconds : string → Q) (s : scheduler) : outcome (option string) :=
  match policy with
  | Affinity => b ← feasible_at feasible s source; Ok (if (b : bool) then Some source else None)
  | LoadAware => Ok (fst <$> min_by by_queue (feasible_nodes feasible s))
  | SnapshotAware =>
      match min_by (by_total stage_seconds) (feasible_nodes feasible s) with
      | None => Ok None
      | Some (best, n) =>
          if bool_decide (best = source) then Ok (Some best)
          else
            b ← feasible_at feasible s source;
            if (b : bool) then
              there ← total_at stage_seconds s source;
              Ok (Some (if Qle_bool (there - total_seconds stage_seconds best n) (migration_threshold_seconds c)
                        then source else best))
            else Ok (Some best)
      end
  | OtherPolicy => Raise (ValueError "unsupported snapshot scheduling policy")
  end.

Definition add_waiting (d : Z) (n : node_state) : node_state :=
  set_load (ns_active n) (ns_waiting n + d) (ns_completed n) (ns_peak_active n) n.

(** [self.nodes[k]], changed *)
Definition update_node (k : string) (f : node_state → node_state) : M scheduler unit :=
  s ← get;
  match s !! k with
  | None => raise (KeyError k)
  | Some n => put (<[k := f n]> s)
  end.

(** [choose] *)
Definition choose (policy : placement_policy) (source : string) (feasible : string → bool)
    (stage_seconds : string → Q) : M scheduler (option string) :=
  s ← get;
  pick ← lift (selected policy source feasible stage_seconds s);
  match pick with
  | Some k => update_node k (add_waiting 1)
  | None => mret tt
  end ;;
  mret pick.

(** [acquire]: [None] while the node has no room. *)
Definition acquire (k : string) (s : scheduler) : option scheduler :=
  match s !! k with
  | Some n =>
      if available n then
        Some (<[k := set_load (ns_active n + 1) (ns_waiting n - 1) (ns_completed n)
                       (Z.max (ns_peak_active n) (ns_active n + 1)) n]> s)
      else None
  | None => None
  end.

(** [release] *)
Definition release (k : string) (service restore_ : Q) : M scheduler unit :=
  update_node k (λ n,
    set_history (ns_service_history n ++ [service]) (ns_restore_history n ++ [restore_])
      (set_load (ns_active n - 1) (ns_waiting n) (ns_completed n + 1) (ns_peak_active n) n)).

(** ** Reselection *)

(** One attempt of [_run_rollout]: how the disks look for it and how
    [prepare_rollout] answers. *)
Record attempt := Attempt {
  at_feasible : string → bool;
  at_stage_seconds : string → Q;
  at_prepare : outcome unit;
}.

Definition is_os_error (e : exn) : bool := match e with OSError _ => true | _ => false end.

(** The loop of [_run_rollout] from its selected node on: the node whose branch
    is prepared, or [None] for an admission failure; [inl] leaves an exception
    through, [inr None] stands for too few attempts given. *)
Fixpoint reselect (policy : placement_policy) (source : string) (ns : list string) (now : attempt)
    (later : list attempt) (pick : option string) (excluded : list string) (s : scheduler)
    : option (outcome (option string)) * scheduler :=
  match pick with
  | None => (Some (Ok None), s)
  | Some k =>
      if (length ns <=? length excluded)%nat then (Some (Ok None), s)
      else
        match at_prepare now with
        | Ok _ => (Some (Ok (Some k)), s)
        | Raise e =>
            if negb (is_os_error e) then (Some (Raise e), s)
            else
              let excluded' := if bool_decide (k ∈ excluded) then excluded else k :: excluded in
              match update_node k (add_waiting (-1)) s with
              | (Raise x, s1) => (Some (Raise x), s1)
              | (Ok _, s1) =>
                  match policy with
                  | Affinity => (Some (Ok None), s1)
                  | _ =>
                      match later with
                      | [] => (None, s1)
                      | next :: later' =>
                          match choose policy source (λ n, negb (bool_decide (n ∈ excluded')) && at_feasible next n)
                                  (at_stage_seconds next) s1 with
                          | (Raise x, s2) => (Some (Raise x), s2)
                          | (Ok pick', s2) => reselect policy source ns next later' pick' excluded' s2
                          end
                      end
                  end
              end
        end
  end.

(** [_run_rollout] up to the prepared branch. *)
Definition place_rollout (policy : placement_policy) (source : string) (ns : list string) (now : attempt)
    (later : list attempt) (s : scheduler) : option (outcome (option string)) * scheduler :=
  match choose policy source (at_feasible now) (at_stage_seconds now) s with
  | (Raise x, s1) => (Some (Raise x), s1)
  | (Ok pick, s1) => reselect policy source ns now later pick [] s1
  end.

(** ** A run of the scheduler *)

(** What the rollouts of a run do to the scheduler, in some order. *)
Inductive sched_event :=
| Place (policy : placement_policy) (source : string) (now : attempt) (later : list attempt)
| Acquire (k : string)
| Release (k : string) (service restore_ : Q).

(** The scheduler beside who is where: the rollouts placed on a node and not
    yet running, running there, and finished there; [bk_clean] as long as no
    rollout left [_run_rollout] with an exception before it ran. *)
Record books := Books {
  bk_nodes : scheduler;
  bk_pending : string → Z;
  bk_running : string → Z;
  bk_finished : string → Z;
  bk_clean : bool;
}.

Definition plus_at (k : string) (d : Z) (f : string → Z) : string → Z :=
  λ j, if bool_decide (j = k) then f j + d else f j.

(** A rollout acquires a node it was placed on, when the node has room, and
    releases one it runs on; another event does nothing. *)
Definition book_step (b : books) (e : sched_event) : books :=
  let '(Books s p r f ok) := b in
  match e with
  | Place policy source now later =>
      match place_rollout policy source (keys s) now later s with
      | (Some (Ok (Some k)), s') => Books s' (plus_at k 1 p) r f ok
      | (Some (Ok None), s') => Books s' p r f ok
      | (Some (Raise _), s') => Books s' p r f false
      | (None, _) => b
      end
  | Acquire k =>
      if 0 <? p k then
        match acquire k s with
        | Some s' => Books s' (plus_at k (-1) p) (plus_at k 1 r) f ok
        | None => b
        end
      else b
  | Release k service restore_ =>
      if 0 <? r k then
        match release k service restore_ s with
        | (Ok _, s') => Books s' p (plus_at k (-1) r) (plus_at k 1 f) ok
        | (Raise _, _) => b
        end
      else b
  end.

Definition books_init (vm_memory : Z) (ns : list string) : books :=
  Books (scheduler_init c vm_memory ns) (λ _, 0) (λ _, 0) (λ _, 0) true.

(** ** Choosing *)

Lemma by_queue_ok : cmp_ok by_queue.
Proof.
  apply (cmp_ok_lex (λ a b, Qcompare (queue_seconds a.2) (queue_seconds b.2))
    (λ a b : string * node_state, String.compare a.1 b.1)); [apply cmp_ok_Q|apply cmp_ok_string].
Qed.
Lemma by_total_ok stage_seconds : cmp_ok (by_total stage_seconds).
Proof.
  apply (cmp_ok_lex (λ a b, Qcompare (total_seconds stage_seconds a.1 a.2) (total_seconds stage_seconds b.1 b.2))
    (λ a b : string * node_state, String.compare a.1 b.1)); [|apply cmp_ok_string].
  apply (cmp_ok_Q (λ a : string * node_state, total_seconds stage_seconds a.1 a.2)).
Qed.

(** A scheduler with one more rollout waiting on [k]. *)
Definition bumped (k : string) (s s' : scheduler) : Prop :=
  ∃ n, s !! k = Some n ∧ s' = <[k := add_waiting 1 n]> s.

Lemma update_node_ok k f s u s' : update_node k f s = (Ok u, s') →
  ∃ n, s !! k = Some n ∧ s' = <[k := f n]> s.
Proof.
  unfold update_node. rewrite bind_get. destruct (s !! k) as [n|]; [|done]. intros [= _ <-]. by exists n.
Qed.

Lemma choose_effect policy source feasible stage_seconds s pick s' :
  choose policy source feasible stage_seconds s = (Ok pick, s') →
  selected policy source feasible stage_seconds s = Ok pick ∧
  match pick with Some k => bumped k s s' | None => s' = s end.
Proof.
  unfold choose. rewrite bind_get. intros H. apply bind_ok_inv in H as (pick' & s1 & [= Hp <-] & H).
  apply bind_ok_inv in H as (? & s2 & H2 & H). injection H as <- <-. split; [done|].
  destruct pick'; [by eapply update_node_ok|by injection H2].
Qed.

Lemma feasible_nodes_elem feasible s k n : (k, n) ∈ feasible_nodes feasible s → feasible k = true ∧ (k, n) ∈ (s : list _).
Proof. unfold feasible_nodes. rewrite list_elem_of_filter. done. Qed.

Lemma feasible_at_ok feasible s k b : feasible_at feasible s k = Ok b → b = feasible k.
Proof. unfold feasible_at. destruct (s !! k); [by intros [= ->]|done]. Qed.

(** How the snapshot-aware policy goes from the [best] node to its pick. *)
Lemma selected_snapshot_aware source feasible stage_seconds s pick :
  selected SnapshotAware source feasible stage_seconds s = Ok pick →
  match min_by (by_total stage_seconds) (feasible_nodes feasible s) with
  | None => pick = None
  | Some (best, n) =>
      pick = Some best ∧ (best = source ∨ feasible source = false ∨
        ∃ there, total_at stage_seconds s source = Ok there ∧
          (migration_threshold_seconds c < there - total_seconds stage_seconds best n)%Q) ∨
      pick = Some source ∧ feasible source = true ∧ ∃ there, total_at stage_seconds s source = Ok there ∧
        (there - total_seconds stage_seconds best n <= migration_threshold_seconds c)%Q
  end.
Proof.
  cbn [selected]. destruct (min_by _ _) as [[best n]|]; [|by intros [= <-]].
  case_bool_decide as Heq; [intros [= <-]; left; by auto|].
  destruct (feasible_at feasible s source) as [b|] eqn:Ef; [|done]. apply feasible_at_ok in Ef. cbn.
  destruct b; [|intros [= <-]; left; by auto].
  destruct (total_at stage_seconds s source) as [there|] eqn:Et; [|done]. cbn.
  destruct (Qle_bool_spec (there - total_seconds stage_seconds best n) (migration_threshold_seconds c)) as [Hle|Hgt];
    intros [= <-]; [right|left].
  - split_and!; [done..|by exists there].
  - split; [done|]. right. right. exists there. split; [done|]. by apply Qnot_le_lt.
Qed.

Lemma selected_feasible policy source feasible stage_seconds s k :
  selected policy source feasible stage_seconds s = Ok (Some k) → feasible k = true.
Proof.
  destruct policy.
  - cbn. destruct (feasible_at feasible s source) as [b|] eqn:Ef; [|done]. apply feasible_at_ok in Ef.
    cbn. destruct b; [by intros [= <-]|done].
  - cbn. destruct (min_by _ _) as [[k' n]|] eqn:E; [|done]. intros [= <-].
    destruct (min_by_spec _ _ _ by_queue_ok E) as [[Hf _]%feasible_nodes_elem _]. exact Hf.
  - intros H%selected_snapshot_aware.
    destruct (min_by _ _) as [[k' n]|] eqn:E; [|done].
    destruct (min_by_spec _ _ _ (by_total_ok stage_seconds) E) as [[Hf _]%feasible_nodes_elem _].
    by destruct H as [[[= ->] _]|[[= ->] [Hs _]]].
  - done.
Qed.

(** A branch goes to the right node.  [choose] picks a feasible node and
    counts one more waiting branch there, or picks none and changes nothing:
    affinity only ever picks the source; load-aware picks the feasible node with
    the shortest queue, the first by name on a tie; snapshot-aware picks the one
    with the least predicted total, unless the source is feasible and moving
    gains no more than the migration threshold, and then the source. *)
Theorem choose_picks_node policy source feasible stage_seconds s pick s' :
  choose policy source feasible stage_seconds s = (Ok pick, s') →
  match pick with
  | Some k => feasible k = true ∧ bumped k s s'
  | None => s' = s
  end ∧
  match policy, pick with
  | Affinity, Some k => k = source
  | Affinity, None => feasible source = false
  | LoadAware, Some k => ∃ n, (k, n) ∈ (s : list _) ∧
      ∀ k' n', (k', n') ∈ (s : list _) → feasible k' = true → cmp_le by_queue (k, n) (k', n')
  | SnapshotAware, Some k => ∃ best n, (best, n) ∈ (s : list _) ∧ feasible best = true ∧
      (∀ k' n', (k', n') ∈ (s : list _) → feasible k' = true → cmp_le (by_total stage_seconds) (best, n) (k', n')) ∧
      (k = best ∧ (best = source ∨ feasible source = false ∨
         ∃ there, total_at stage_seconds s source = Ok there ∧
           (migration_threshold_seconds c < there - total_seconds stage_seconds best n)%Q) ∨
       k = source ∧ ∃ there, total_at stage_seconds s source = Ok there ∧
           (there - total_seconds stage_seconds best n <= migration_threshold_seconds c)%Q)
  | OtherPolicy, _ => False
  | _, None => ∀ k n, (k, n) ∈ (s : list _) → feasible k = false
  end.
Proof.
  intros [Hs Hb]%choose_effect. split.
  { destruct pick; [split; [by eapply selected_feasible|done]|done]. }
  assert (∀ cmp, cmp_ok cmp → min_by cmp (feasible_nodes feasible s) = None →
    ∀ k n, (k, n) ∈ (s : list _) → feasible k = false) as Hnone.
  { intros cmp _ E k n Hin. apply not_true_is_false. intros Hf.
    destruct (feasible_nodes feasible s) as [|x l] eqn:El; [|done].
    assert ((k, n) ∈ feasible_nodes feasible s) as Hc by (by apply list_elem_of_filter).
    rewrite El in Hc. by apply elem_of_nil in Hc. }
  assert (∀ cmp k n, Forall (cmp_le cmp (k, n)) (feasible_nodes feasible s) →
    ∀ k' n', (k', n') ∈ (s : list _) → feasible k' = true → cmp_le cmp (k, n) (k', n')) as Hmin.
  { intros cmp k n Hall k' n' Hin Hf. rewrite Forall_forall in Hall. apply Hall. by apply list_elem_of_filter. }
  destruct policy.
  - cbn in Hs. destruct (feasible_at feasible s source) as [b|] eqn:Ef; [|done]. apply feasible_at_ok in Ef.
    cbn in Hs. destruct b; by injection Hs as <-.
  - cbn in Hs. destruct (min_by _ _) as [[k n]|] eqn:E; injection Hs as <-; [|by apply (Hnone _ by_queue_ok E)].
    destruct (min_by_spec _ _ _ by_queue_ok E) as [[_ Hin]%feasible_nodes_elem Hall]. simpl.
    exists n. split; [done|by apply Hmin].
  - apply selected_snapshot_aware in Hs.
    destruct (min_by _ _) as [[best n]|] eqn:E; [|subst pick; by apply (Hnone _ (by_total_ok stage_seconds) E)].
    destruct (min_by_spec _ _ _ (by_total_ok stage_seconds) E) as [[Hf Hin]%feasible_nodes_elem Hall].
    specialize (Hmin _ _ _ Hall).
    destruct Hs as [[-> Hw]|(-> & _ & Hw)]; exists best, n; split_and!; auto.
  - done.
Qed.

(** ** Where a rollout leaves the counters *)

Lemma feasible_at_raise feasible s k e : feasible_at feasible s k = Raise e → is_os_error e = false.
Proof. unfold feasible_at. destruct (s !! k); [done|by intros [= <-]]. Qed.
Lemma total_at_raise stage_seconds s k e : total_at stage_seconds s k = Raise e → is_os_error e = false.
Proof. unfold total_at. destruct (s !! k); [done|by intros [= <-]]. Qed.

Lemma selected_raise policy source feasible stage_seconds s e :
  selected policy source feasible stage_seconds s = Raise e → is_os_error e = false.
Proof.
  destruct policy; cbn [selected]; [|done| |by intros [= <-]].
  - destruct (feasible_at _ _ _) eqn:E; [done|]. intros [= <-]. by eapply feasible_at_raise.
  - destruct (min_by _ _) as [[best n]|]; [|done]. case_bool_decide; [done|].
    destruct (feasible_at _ _ _) as [b|] eqn:E; [|intros [= <-]; by eapply feasible_at_raise]. cbn. destruct b; [|done].
    destruct (total_at _ _ _) as [|] eqn:E'; [done|]. intros [= <-]. by eapply total_at_raise.
Qed.

Lemma choose_raise policy source feasible stage_seconds s e s' :
  choose policy source feasible stage_seconds s = (Raise e, s') → s' = s ∧ is_os_error e = false.
Proof.
  unfold choose. rewrite bind_get.
  destruct (selected policy source feasible stage_seconds s) as [pick|x] eqn:Es;
    [|apply selected_raise in Es; by intros [= <- <-]].
  rewrite (bind_ok (lift (Ok pick)) _ s pick s) by done.
  destruct pick as [k|]; [|done]. unfold update_node, mbind, M_bind, get. cbn.
  destruct (s !! k); [done|by intros [= <- <-]].
Qed.

Lemma add_waiting_back k n (s : scheduler) : s !! k = Some n →
  <[k := add_waiting (-1) (add_waiting 1 n)]> (<[k := add_waiting 1 n]> s) = s.
Proof.
  intros Hk. rewrite insert_insert. apply insert_id. rewrite Hk. f_equal.
  destruct n; unfold add_waiting, set_load; simpl. f_equal. lia.
Qed.

(** What [pick] owes to the counters [s0] of before the rollout. *)
Definition owes (s0 : scheduler) (pick : option string) (s : scheduler) : Prop :=
  match pick with Some k => bumped k s0 s | None => s = s0 end.

Definition settled (s0 : scheduler) (r : option (outcome (option string))) (s : scheduler) : Prop :=
  match r with
  | Some (Ok pick) => owes s0 pick s
  | Some (Raise _) => s = s0 ∨ ∃ k, bumped k s0 s
  | None => True
  end.

(** How the attempts explain a rollout's end. *)
Definition concludes (now : attempt) (later : list attempt) (r : option (outcome (option string))) : Prop :=
  match r with
  | Some (Ok (Some k)) => ∃ a, a ∈ now :: later ∧ at_feasible a k = true ∧ at_prepare a = Ok tt
  | Some (Raise e) => is_os_error e = false
  | _ => True
  end.

Lemma excluded_fits (excluded ns : list string) k :
  NoDup excluded → k ∉ excluded → k ∈ ns → (∀ x, x ∈ excluded → x ∈ ns) → (length excluded < length ns)%nat.
Proof.
  intros Hnd Hk Hin Hsub. apply (submseteq_length (k :: excluded) ns), NoDup_submseteq; [by constructor|].
  intros x [->|]%elem_of_cons; auto.
Qed.

Lemma concludes_later now next later r : concludes next later r → concludes now (next :: later) r.
Proof. destruct r as [[[]|]|]; try done. intros (a & Ha & ?). exists a. split; [by right|done]. Qed.

Lemma not_excluded policy source (excluded : list string) feasible stage_seconds s k :
  selected policy source (λ n, negb (bool_decide (n ∈ excluded)) && feasible n) stage_seconds s = Ok (Some k) →
  k ∉ excluded.
Proof. intros H%selected_feasible. apply andb_prop in H as [H _]. by apply negb_true_iff, bool_decide_eq_false in H. Qed.

Lemma not_excluded_feasible policy source (excluded : list string) feasible stage_seconds s k :
  selected policy source (λ n, negb (bool_decide (n ∈ excluded)) && feasible n) stage_seconds s = Ok (Some k) →
  feasible k = true.
Proof. by intros [_ H]%selected_feasible%andb_prop. Qed.

Lemma reselect_settles policy source s0 later : ∀ now pick excluded s,
  owes s0 pick s → NoDup excluded → (∀ x, x ∈ excluded → x ∈ keys s0) →
  (∀ k, pick = Some k → k ∉ excluded) → (∀ k, pick = Some k → at_feasible now k = true) →
  ∀ r s', reselect policy source (keys s0) now later pick excluded s = (r, s') →
  settled s0 r s' ∧ concludes now later r ∧
  (r = None → (length excluded + length later < length (keys s0))%nat).
Proof.
  induction later as [|next later IH]; intros now pick excluded s Ho Hnd Hsub Hpick Hfeas r s';
    cbn [reselect]; (destruct pick as [k|]; [|by intros [= <- <-]]);
    destruct Ho as (n & Hk & ->); specialize (Hpick k eq_refl); specialize (Hfeas k eq_refl);
    assert (k ∈ keys s0) as Hin by (by apply dict_lookup_key; eexists);
    pose proof (excluded_fits excluded (keys s0) k Hnd Hpick Hin Hsub) as Hlt;
    rewrite (proj2 (Nat.leb_gt _ _)) by done;
    (destruct (at_prepare now) as [[]|e] eqn:Ep;
      [intros [= <- <-]; split_and!; [by exists n|exists now; split; [by left|done]|done]|]);
    (destruct (negb (is_os_error e)) eqn:Eos;
      [apply negb_true_iff in Eos; intros [= <- <-]; split_and!; [right; by exists k, n|done|done]|]);
    rewrite ?(bool_decide_eq_false_2 (k ∈ excluded) Hpick);
    unfold update_node; rewrite bind_get, dict_lookup_insert_eq; cbn [put]; rewrite add_waiting_back by done.
  - destruct policy; intros [= <- <-]; split_and!; try done; simpl; lia.
  - assert (NoDup (k :: excluded)) as Hnd' by (by constructor).
    assert (∀ x, x ∈ k :: excluded → x ∈ keys s0) as Hsub' by (intros x [->|]%elem_of_cons; auto).
    destruct policy; [by intros [= <- <-]|..];
      (destruct (choose _ _ _ _ s0) as [[pick'|x] s2] eqn:Ec;
        [|apply choose_raise in Ec as [-> ?]; intros [= <- <-]; split_and!; [by left|done|done]]);
      apply choose_effect in Ec as [Hsel Hb]; intros Hr;
      assert (∀ k', pick' = Some k' → k' ∉ k :: excluded) as Hp by (intros k' ->; by apply not_excluded in Hsel);
      assert (∀ k', pick' = Some k' → at_feasible next k' = true) as Hf
        by (intros k' ->; by apply not_excluded_feasible in Hsel);
      destruct (IH next pick' (k :: excluded) s2 Hb Hnd' Hsub' Hp Hf r s' Hr) as (? & Hc & Hl);
      (split; [done|]; split; [by apply concludes_later|intros ->; specialize (Hl eq_refl); simpl in *; lia]).
Qed.


(** ** The counters of a run *)

(** Node [k]'s counters against who is there. *)
Record node_ok (b : books) (k : string) (n : node_state) : Prop := {
  no_memory : 0 <= ns_vm_memory n;
  no_running : 0 <= ns_active n ∧ ns_active n = bk_running b k;
  no_pending : bk_pending b k <= ns_waiting n ∧ (bk_clean b = true → ns_waiting n = bk_pending b k);
  no_peak : ns_active n <= ns_peak_active n;
  no_slots : 0 < ns_peak_active n →
    ns_peak_active n <= ns_slots n ∧ ns_peak_active n * ns_vm_memory n <= ns_memory_limit n;
  no_finished : ns_completed n = bk_finished b k ∧
    Z.of_nat (length (ns_service_history n)) = ns_completed n ∧
    Z.of_nat (length (ns_restore_history n)) = ns_completed n;
}.
Definition books_ok (b : books) : Prop := ∀ k n, bk_nodes b !! k = Some n → node_ok b k n.

Lemma plus_at_eq k d f : plus_at k d f k = f k + d.
Proof. unfold plus_at. by rewrite bool_decide_eq_true_2. Qed.
Lemma plus_at_ne k d f j : j ≠ k → plus_at k d f j = f j.
Proof. intros. unfold plus_at. by rewrite bool_decide_eq_false_2. Qed.

(** Only node [k] changes, from [n] to [n'], in books where the others keep
    their counts. *)
Lemma books_ok_insert b b' k n n' :
  books_ok b → bk_nodes b !! k = Some n → bk_nodes b' = <[k := n']> (bk_nodes b) →
  (∀ j, j ≠ k → bk_pending b' j = bk_pending b j ∧ bk_running b' j = bk_running b j ∧ bk_finished b' j = bk_finished b j) →
  (bk_clean b' = true → bk_clean b = true) → (node_ok b k n → node_ok b' k n') → books_ok b'.
Proof.
  intros Hb Hk Hn Hother Hclean Hnew j m Hj. rewrite Hn in Hj. destruct (decide (j = k)) as [->|Hne].
  - rewrite dict_lookup_insert_eq in Hj. injection Hj as <-. by apply Hnew, Hb.
  - rewrite dict_lookup_insert_ne in Hj by done. destruct (Hother j Hne) as (Hp & Hr & Hf).
    destruct (Hb j m Hj) as [? ? [? ?] ? ? ?]. split; rewrite ?Hp, ?Hr, ?Hf; try done. by auto.
Qed.

Lemma books_ok_unclean s p r f ok : books_ok (Books s p r f ok) → books_ok (Books s p r f false).
Proof. intros Hb k n Hk. destruct (Hb k n Hk) as [? ? [? _] ? ? ?]. by split. Qed.

Lemma scheduler_init_lookup vm_memory ns k n : scheduler_init c vm_memory ns !! k = Some n →
  n = NodeState (per_node_concurrency c) (per_node_memory_mib c) vm_memory 0 0 0 [] [] 0.
Proof.
  unfold scheduler_init. set (fresh := NodeState _ _ _ _ _ _ _ _ _).
  assert (∀ l (d : scheduler), (∀ j m, d !! j = Some m → m = fresh) →
    ∀ j m, foldl (λ d n, <[n := fresh]> d) d l !! j = Some m → m = fresh) as H.
  { induction l as [|x l IH]; [done|]. intros d Hd. apply IH. intros j m.
    destruct (decide (j = x)) as [->|]; [rewrite dict_lookup_insert_eq; by intros [= <-]|].
    rewrite dict_lookup_insert_ne by done. apply Hd. }
  by apply H.
Qed.

Lemma books_ok_bumped s p r f ok k s' : books_ok (Books s p r f ok) → bumped k s s' →
  books_ok (Books s' (plus_at k 1 p) r f ok) ∧ books_ok (Books s' p r f false).
Proof.
  intros Hb (n & Hk & ->). split.
  - apply (books_ok_insert _ _ k n (add_waiting 1 n) Hb Hk); [done| |done|].
    { intros j Hj. simpl. by rewrite plus_at_ne. }
    intros [? ? [? Hc] ? ? ?]. split; simpl in *; rewrite ?plus_at_eq; try done.
    split; [lia|]. intros ?%Hc. lia.
  - apply (books_ok_insert _ _ k n (add_waiting 1 n) Hb Hk); [done..|].
    intros [? ? [? Hc] ? ? ?]. split; simpl in *; try done. split; [lia|done].
Qed.

Lemma book_place policy source now later b : books_ok b → books_ok (book_step b (Place policy source now later)).
Proof.
  destruct b as [s p r f ok]. intros Hb. cbn [book_step].
  destruct (place_rollout policy source (keys s) now later s) as [o s'] eqn:E. unfold place_rollout in E.
  destruct (choose _ _ _ _ s) as [[pick|e] s1] eqn:Ec.
  - apply choose_effect in Ec as [Hsel Ho].
    apply (reselect_settles _ _ s) in E as (Hs & _ & _); [|done|constructor|by intros x []%elem_of_nil
      |by intros k _ ?%elem_of_nil|intros k ->; by apply selected_feasible in Hsel].
    destruct o as [[[k|]|e]|]; simpl in Hs; [exact (proj1 (books_ok_bumped _ _ _ _ _ _ _ Hb Hs))|by subst| |done].
    destruct Hs as [->|[k Hk]]; [by eapply books_ok_unclean|exact (proj2 (books_ok_bumped _ _ _ _ _ _ _ Hb Hk))].
  - apply choose_raise in Ec as [-> _]. injection E as <- <-. by eapply books_ok_unclean.
Qed.

Lemma book_acquire k b : books_ok b → books_ok (book_step b (Acquire k)).
Proof.
  destruct b as [s p r f ok]. intros Hb. cbn [book_step]. destruct (0 <? p k); [|done].
  unfold acquire. destruct (s !! k) as [n|] eqn:Hk; [|done]. destruct (available n) eqn:Ha; [|done].
  apply andb_prop in Ha as [H1%Z.ltb_lt H2%Z.leb_le].
  eapply (books_ok_insert _ _ k n _ Hb Hk); [reflexivity| |done|].
  { intros j Hj. simpl. by rewrite !plus_at_ne. }
  intros [? [? ?] [? Hc] ? Hs ?]. split; simpl in *; rewrite ?plus_at_eq; try done.
  - lia.
  - split; [lia|]. intros ?%Hc. lia.
  - lia.
  - intros _. destruct (Z.max_spec (ns_peak_active n) (ns_active n + 1)) as [[_ ->]|[? ->]]; [lia|]. apply Hs. lia.
Qed.

Lemma book_release k service restore_ b : books_ok b → books_ok (book_step b (Release k service restore_)).
Proof.
  destruct b as [s p r f ok]. intros Hb. cbn [book_step]. destruct (0 <? r k) eqn:Hr; [|done]. apply Z.ltb_lt in Hr.
  destruct (release k service restore_ s) as [[u|e] s'] eqn:E; [|done].
  apply update_node_ok in E as (n & Hk & ->).
  eapply (books_ok_insert _ _ k n _ Hb Hk); [reflexivity| |done|].
  { intros j Hj. simpl. by rewrite !plus_at_ne. }
  intros [? [? ?] ? ? Hs (? & ? & ?)]. split; simpl in *; rewrite ?plus_at_eq, ?length_app; simpl; try done; lia.
Qed.

Lemma books_run_ok es : ∀ b, books_ok b → books_ok (foldl book_step b es).
Proof.
  induction es as [|e es IH]; [done|]. intros b Hb. apply IH.
  destruct e; [by apply book_place|by apply book_acquire|by apply book_release].
Qed.

(** The per-node reservations hold in every run.  In whatever order
    rollouts are placed, acquire their node and release it: a node's active count
    is the rollouts running there, and neither it nor its peak ever passes the
    node's slots or lets their virtual machines pass its memory limit; its
    waiting count covers the rollouts placed and not yet running, and is exactly
    theirs while no rollout left with an exception; and its completed count, its
    service history and its restore history each have one entry per rollout that
    finished there. *)
Theorem reservations_hold vm_memory ns es k n :
  let b := foldl book_step (books_init vm_memory ns) es in
  0 <= vm_memory → bk_nodes b !! k = Some n →
  (ns_active n = bk_running b k ∧ 0 <= ns_active n <= ns_peak_active n ∧
   (0 < ns_peak_active n → ns_peak_active n <= ns_slots n) ∧
   (0 < ns_active n → ns_active n * ns_vm_memory n <= ns_memory_limit n)) ∧
  (bk_pending b k <= ns_waiting n ∧ (bk_clean b = true → ns_waiting n = bk_pending b k)) ∧
  (ns_completed n = bk_finished b k ∧ Z.of_nat (length (ns_service_history n)) = bk_finished b k ∧
   Z.of_nat (length (ns_restore_history n)) = bk_finished b k).
Proof.
  intros b Hvm Hk. subst b.
  assert (books_ok (books_init vm_memory ns)) as H0.
  { intros j m ->%scheduler_init_lookup. split; simpl; (split_and!; done) || lia. }
  destruct (books_run_ok es _ H0 k n Hk) as [? [? ?] [? ?] ? Hs (? & ? & ?)].
  split_and!; try done; try lia.
  intros Ha. destruct Hs as [_ Hm]; [lia|]. nia.
Qed.
End scheduler.

(** A scheduler of two nodes with one slot each. *)
Definition demo_branching : branching := Branching 1 2048 1 (1 # 2).
Definition demo_nodes : list string := ["node0"; "node1"].
Definition demo_attempt (a b : bool) (o : outcome unit) : attempt :=
  Attempt (λ n, if bool_decide (n = "node0") then a else b) (λ n, if bool_decide (n = "node0") then 0%Q else 1%Q) o.
Definition demo_full : attempt := demo_attempt true true (Raise (OSError "node0 is full")).
Definition demo_fits : attempt := demo_attempt true true (Ok tt).

Definition demo_events : list sched_event :=
  [Place SnapshotAware "node0" demo_fits []; Acquire "node0";
   Place SnapshotAware "node0" demo_full [demo_fits; demo_fits]; Place LoadAware "node0" demo_fits [];
   Acquire "node0"; Acquire "node1"; Release "node0" 2 1; Place SnapshotAware "node0" demo_fits []].
Definition demo_books : books := foldl (book_step demo_branching) (books_init demo_branching 1024 demo_nodes) demo_events.

Example demo_books_counts :
  (λ kn : string * node_state, (kn.1, ns_active kn.2, ns_waiting kn.2, ns_completed kn.2)) <$> (bk_nodes demo_books : list _)
  = [("node0", 0, 2, 1); ("node1", 1, 0, 0)].
Proof. vm_compute. reflexivity. Qed.

Lemma choose_picks_node_witness :
  (choose demo_branching SnapshotAware "node0" (λ _, true) (λ _, 0%Q) (bk_nodes demo_books)).1 = Ok (Some "node1") ∧
  bumped "node1" (bk_nodes demo_books)
    (choose demo_branching SnapshotAware "node0" (λ _, true) (λ _, 0%Q) (bk_nodes demo_books)).2.
Proof.
  split; [by vm_compute|].
  destruct (choose demo_branching SnapshotAware "node0" (λ _, true) (λ _, 0%Q) (bk_nodes demo_books)) as [o s'] eqn:E.
  assert (o = Ok (Some "node1")) as -> by (revert E; vm_compute; by intros [= <- _]).
  exact (proj2 (proj1 (choose_picks_node demo_branching SnapshotAware "node0" _ _ _ _ _ E))).
Defined.


Lemma reservations_hold_witness :
  ∃ n, bk_nodes demo_books !! "node1" = Some n ∧ ns_active n = 1 ∧ ns_active n = bk_running demo_books "node1" ∧
    ns_waiting n = bk_pending demo_books "node1".
Proof.
  destruct (bk_nodes demo_books !! "node1") as [n|] eqn:E; [|vm_compute in E; discriminate].
  destruct (reservations_hold demo_branching 1024 demo_nodes demo_events "node1" n ltac:(lia) E) as ((Ha & _) & (_ & Hw) & _).
  exists n. split; [done|]. split; [revert E; vm_compute; by intros [= <-]|]. split; [exact Ha|]. by apply Hw.
Defined.
